(* ===== verification/_CoqProject ===== *)
-Q . S2P
Prelude.v
GoStd.v
Effects.v
Cdc.v
Fskitproto.v
PackIndex.v
PackCache.v
ObjectReader.v
PackResolver.v
Manifest.v
View.v
JsonDecoder.v
JsonRaw.v
Os.v
Mutation.v
Directory.v
Context.v
Bufio.v
Budget.v
Store.v
Walk.v
Fold.v
PackBuild.v
Generation.v
PackPlan.v
Lease.v
Gc.v
Foreground.v
Session.v
StateFile.v
Cow.v
Writer.v
Compact.v
Kmp.v
Contain.v
DigestSet.v
Enroll.v
SpawnGraph.v
Family.v
Metadata.v
Checkpoint.v
Publish.v
History.v
Lineage.v
Catalog.v
Succession.v
Published.v
Journal.v
Interrupted.v
Recover.v
Replay.v
HistorySample.v
