(* ===== verification/Prelude.v ===== *)
(** * Codexfold: a verification of its storage and session layers

    Codexfold keeps the session files ("rollouts") of a coding assistant in a
    content-addressed store and shows them through a virtual file system.  A
    session file is *folded*: cut into parts, each stored once under its SHA-256
    digest, and described by a manifest.  Loose objects are later collected into
    *packs*.  A mounted *session* presents the folded bytes again: reads go through
    a view of the manifest, appends go to a delta file, and any other change first
    copies the visible bytes into a native file.  Everything that takes space is
    priced by a storage budget, and everything that others may delete or write is
    protected by leases and locks, which are files under [flock].

    ** The library

    - [Prelude]: bytes, machine integers with their wrap-around ([i64], [u32], ...),
      slices, errors and results, shared tactics and hints.
    - [GoStd]: hexadecimal, comparison of byte strings, bisection, file reads.
    - [Effects]: the state and error monad in which stateful Go code is written,
      with weakest preconditions.
    - [Os]: the file system, with inodes, open files that outlive their names,
      durability of contents and of directory entries, [flock], and an environment
      that may fail any system call and may store a prefix of a failing write.
    - [Mutation]: code that changes existing files and what it leaves alone;
      [Directory]: a private directory; [Context]: code that fails only when it is
      cancelled or a system call fails; [Bufio]: buffered readers.
    - [JsonDecoder]: the token reader of [encoding/json].

    The files below model code under [src/internal]:

    - [Cdc]: [cdc/chunker.go], content-defined chunking with a rolling hash.
    - [Fskitproto]: [fskitproto/codec.go], [protocol.go], the wire protocol of the
      macOS file-system extension.
    - [PackIndex]: [pack/format.go], [index_v3.go]; [PackCache]: [pack/cache.go];
      [PackResolver]: the reads of [pack/resolver.go].
    - [PackBuild]: writing a generation ([pack/build.go]); [Generation]: reading
      back what was written; [PackPlan]: the compaction check and the prices of
      [pack/build.go] and [pack/incremental_budget.go].
    - [ObjectReader]: the interface [vfs.ObjectReader] as a class with its law; the
      pack resolver is an instance and [View] a client.
    - [Manifest]: data and validation of [fold/manifest.go].
    - [View]: [vfs/view.go].
    - [JsonRaw]: [jsonraw/spans.go], the string values of a JSON record.
    - [Budget]: [storage/budget.go], [guard.go], [policy.go], [accounting.go].
    - [Store]: [fold/store.go], [stream.go], the loose object store.
    - [Fold]: [fold/fold.go], [unfold.go], [reader.go] and the input and output of
      manifests.
    - [Lease]: [storage/lease.go], [lease_unix.go], [operation_lock.go],
      [read_reserve.go] (release), and the writer leases of [vfs].
    - [Session]: readers of a session ([vfs/session.go], [handles.go],
      [journal.go]); [StateFile]: [vfs/state.go]; [Cow]: [ensureBacking] and
      [MaterializeCurrent]; [Writer]: [WriteHandle] and [OpenWriter]; [Compact]:
      [vfs/compact.go]; [Foreground]: [storage/foreground.go], the registration of
      maintenance that foreground access interrupts.
    - [Checkpoint], [Publish]: [vfs/state_checkpoint.go] and the published states of
      [vfs/state.go].  Beside the state file lie a catalog, immutable checkpoints
      named by their digest and a directory of quarantined ones; a state is
      published as checkpoint, catalog and state file, in this order.  [Metadata]:
      steps inside a directory of metadata; [History]: the checkpoint store keeps the
      law of the interface between sessions and state files, so the theorems of
      [Writer], [Cow] and [Compact] hold over it; [Lineage]: the walk over the chain;
      [Catalog], [Succession], [Published]: loading, publishing and recovering;
      [HistorySample]: concrete runs.
    - [Journal], [Interrupted], [Recover]: [vfs/journal.go], the adoption of
      interrupted checkpoints in [vfs/state_checkpoint.go],
      [vfs/state_writer_recovery.go] and [vfs/recover.go].  Operations of several steps leave
      records in a journal; recovery finishes or rolls back each operation by its
      latest record.  [Replay]: what every step of it keeps, and that recovery loses nothing.
    - [Kmp], [Contain]: [contain/contain.go], whether the records of one session
      file occur in another; [DigestSet]: [fold/digestset.go], counting distinct
      digests by an external merge sort; [Enroll]: [enroll/planner.go], [apply.go],
      which session files are folded next; [SpawnGraph], [Family]:
      [family/family.go], the family of a session and the comparison of two.
    - [Walk]: walking a directory tree with a visitor; [Gc]: [fold/gc.go], which
      loose objects are deleted, with the identity of managed sessions
      ([storage/proof.go]).

    A record models a Go struct and carries a prefix on its fields; a function that
    can fail returns [result]; a stateful function is a computation of [M] over the
    state it changes, usually the world of [Os] with the object it is a method of.
    Loops and closures of long functions are definitions of their own, with the
    name of the variable or function they belong to.

    ** What the theorems show

    - Nothing is lost.  Folding a file and unfolding it restores it byte for byte
      and durably, or two objects collide under SHA-256; the parts of a fold are the
      file in order; a fold that fails changes nothing but what it was told to;
      objects are durable before a manifest names them; chunking is lossless; the string values promoted by folding are exactly those of the
      JSON grammar.
    - Packs serve what was packed.  A generation that was written opens and serves
      every object; a resolver returns only verified bytes; the bisection over the
      index finds exactly the digests written; a first build stays within its price.
    - The view refines the concatenation of its parts, for any object reader that
      meets the law of the interface.
    - Sessions.  Any sequence of appends, writes, truncations and syncs, under any
      failures, refines the abstract operations on the visible bytes; copy-on-write
      and compaction are invisible; a reader keeps its snapshot; the running hash gives the identity
      of the file; the state file is replaced atomically; the copy loop ends.
    - Published states.  Under any failures a session keeps a catalog that names a
      present checkpoint of the recorded digest and never an older one; what was
      published is durable and is loaded again; the loaded history is exactly the
      lineage of the current checkpoint.
    - Recovery.  Exactly the last record of every operation in a journal is replayed,
      and what was appended to the journal is read back.  Whatever the journal says and
      whatever fails, recovery leaves a checkpoint no older than before with its data
      files and touches nothing else but the scratch files of compactions and empty files.
    - Decisions.  Containment is decided exactly, and two sessions are compared exactly,
      whatever the hash function; a family report is the connected component of its
      seed; distinct digests are counted exactly up to 2^32 of them; a session file is enrolled only
      if every plan over the required period found it unchanged.
    - Protection.  Garbage collection removes no object in use, whatever fails or
      happens meanwhile; leases and writer leases exclude each other over any interleaving;
      only live maintenance is asked to yield; budgets are enforced exactly over the unbounded integers.
    - Encodings: frames and, but for the Unix epoch, timestamps survive the round trip.
    - Some theorems record behaviour that is not intended: [validateIndex_offset_wraps],
      [time_roundtrip] (the Unix epoch), [put_reuse_not_synced], [materialize_spins],
      [second_round_fails], [checkpoint_reuse_not_durable], [torn_journal].

    ** Bounds and fuel

    Loops that are not structural take fuel, and the fuel used is proved to be
    enough: bisection takes at most one step per object; the JSON scanner at most
    two calls per byte and one; copy loops at most one iteration per byte; reading a
    packed object at most one iteration per block.  Where a theorem bounds its input
    (2^55 bytes of objects, 2^32 packs per generation) the bound keeps [int64]
    offsets and [uint32] pack numbers from wrapping.  A context is the number of
    checks after which it is cancelled.

    ** Arguments of the model

    SHA-256 (of which only the length of a digest is used, and collisions are
    stated where they matter), zstd (decoding inverts encoding), the JSON codecs of
    manifests, policies, session states and index metadata, the inventory scan and
    the free-space probe, rows of the reference database and entries of directory
    walks, process ids and random suffixes, the duplicate-record index, and hooks.

    ** Not modelled

    Command-line front ends, mounted hosts (FUSE, FSKit, WinFsp), services, the tray
    application, discovery, and Windows and macOS variants are input and output or
    glue around the parts above.  File modes and symbolic links are not part of the
    file system.  The reuse of encoded blocks of an earlier generation, the recovery
    archive and the publication of a generation, the first publication of a session,
    deletion of sessions and reconciliation are not modelled. *)
From Stdlib Require Export ZArith Lia.
From Stdlib Require Export Strings.Byte.
From stdpp Require Export base tactics list gmap strings numbers sorting.
Open Scope Z_scope.

(** ** Notation scope and automation *)

Declare Scope codexfold_scope.
Delimit Scope codexfold_scope with cf.
Open Scope codexfold_scope.

Create HintDb codexfold.
Create Rewrite HintDb cf_len.

(** Split every conditional and match left in the goal or in a hypothesis. *)
Ltac cases :=
  repeat (case_match; simplify_eq/=; try done).

(** Turn the boolean comparisons on [Z] and [nat] into propositions. *)
Ltac zbool :=
  repeat match goal with
  | H : (_ <? _)%Z = true |- _ => apply Z.ltb_lt in H
  | H : (_ <? _)%Z = false |- _ => apply Z.ltb_ge in H
  | H : (_ <=? _)%Z = true |- _ => apply Z.leb_le in H
  | H : (_ <=? _)%Z = false |- _ => apply Z.leb_gt in H
  | H : (_ >? _)%Z = _ |- _ => rewrite Z.gtb_ltb in H
  | H : (_ >=? _)%Z = _ |- _ => rewrite Z.geb_leb in H
  | H : (_ =? _)%Z = true |- _ => apply Z.eqb_eq in H
  | H : (_ =? _)%Z = false |- _ => apply Z.eqb_neq in H
  | H : (_ <? _)%nat = true |- _ => apply Nat.ltb_lt in H
  | H : (_ <? _)%nat = false |- _ => apply Nat.ltb_ge in H
  | H : (_ <=? _)%nat = true |- _ => apply Nat.leb_le in H
  | H : (_ <=? _)%nat = false |- _ => apply Nat.leb_gt in H
  | H : (_ =? _)%nat = true |- _ => apply Nat.eqb_eq in H
  | H : (_ =? _)%nat = false |- _ => apply Nat.eqb_neq in H
  | H : negb _ = true |- _ => apply negb_true_iff in H
  | H : negb _ = false |- _ => apply negb_false_iff in H
  | H : _ || _ = false |- _ => apply orb_false_iff in H; destruct H
  | H : _ && _ = true |- _ => apply andb_true_iff in H; destruct H
  end.

(** ** Go errors

    An [error] value is either a package-level sentinel ([io.EOF],
    [os.ErrNotExist], ...) or a message built by [errors.New], [fmt.Errorf] or
    [errors.Join] together with the errors it wraps.  The message is the format
    string: the formatted operands are not kept, since no code path inspects
    them. *)

Inductive error :=
| Sentinel (name : string)
| Errorf (format : string) (wrapped : list error).

Definition errors_new (s : string) : error := Errorf s [].
Definition errorf (s : string) (e : error) : error := Errorf s [e].

Definition io_EOF : error := Sentinel "EOF".
Definition io_ErrUnexpectedEOF : error := Sentinel "unexpected EOF".
Definition io_ErrShortWrite : error := Sentinel "short write".
Definition os_ErrNotExist : error := Sentinel "file does not exist".
Definition os_ErrExist : error := Sentinel "file already exists".

(** [errors.Is err target] for a sentinel target. *)
Fixpoint errors_is (target : string) (e : error) : bool :=
  match e with
  | Sentinel n => bool_decide (n = target)
  | Errorf _ ws => existsb (errors_is target) ws
  end.

Definition is_EOF (e : error) : bool := errors_is "EOF" e.
Definition is_NotExist (e : error) : bool := errors_is "file does not exist" e.

(** [errors.Join] of optional errors: nil when all are nil. *)
Definition errors_join (es : list (option error)) : option error :=
  match omap (fun e => e) es with
  | [] => None
  | ws => Some (Errorf "" ws)
  end.

Lemma errors_join_None es : errors_join es = None <-> Forall (fun e => e = None) es.
Proof.
  unfold errors_join. split.
  - induction es as [|[e|] es IH]; simpl; intros H; constructor; auto; done.
  - induction 1 as [|e es -> _ IH]; auto.
Qed.

(** ** Results: a Go [(T, error)] pair whose value is unused on error *)

Inductive result (A : Type) :=
| Ok (a : A)
| Err (e : error).
Arguments Ok {A} a.
Arguments Err {A} e.

Definition result_bind {A B} (f : A -> result B) (m : result A) : result B :=
  match m with Ok a => f a | Err e => Err e end.

#[export] Instance result_mret : MRet result := fun A a => Ok a.
#[export] Instance result_mbind : MBind result := fun A B f m => result_bind f m.

Definition is_ok {A} (r : result A) : bool :=
  match r with Ok _ => true | Err _ => false end.

Definition result_to_option {A} (r : result A) : option A :=
  match r with Ok a => Some a | Err _ => None end.

Lemma result_bind_Ok {A B} (f : A -> result B) m b :
  result_bind f m = Ok b <-> exists a, m = Ok a /\ f a = Ok b.
Proof. destruct m; simpl; split; [|by intros (? & [= ->] & ?)| |by intros (? & ? & ?)]; eauto; done. Qed.

(** ** Bytes *)

Abbreviation byte := Byte.byte.
#[export] Instance byte_eq_dec : EqDecision byte := Byte.byte_eq_dec.
#[export] Instance byte_inhabited : Inhabited byte := populate Byte.x00.

Definition byte_val (b : byte) : Z := Z.of_N (Byte.to_N b).
Definition byte_of (z : Z) : byte :=
  match Byte.of_N (Z.to_N (z mod 256)) with Some b => b | None => Byte.x00 end.

Lemma byte_val_range b : 0 <= byte_val b < 256.
Proof. unfold byte_val. pose proof (Byte.to_N_bounded b). lia. Qed.

Lemma byte_of_val b : byte_of (byte_val b) = b.
Proof.
  unfold byte_of. rewrite Z.mod_small by apply byte_val_range.
  unfold byte_val. by rewrite N2Z.id, Byte.of_to_N.
Qed.

Lemma byte_val_of z : byte_val (byte_of z) = z mod 256.
Proof.
  unfold byte_of, byte_val. pose proof (Z.mod_pos_bound z 256 eq_refl).
  destruct (Byte.of_N _) eqn:E.
  - apply Byte.to_of_N in E. rewrite E. lia.
  - apply Byte.of_N_None_iff in E. lia.
Qed.

Lemma byte_val_inj a b : byte_val a = byte_val b -> a = b.
Proof. intros H. by rewrite <- (byte_of_val a), H, byte_of_val. Qed.

(** ** Machine integers: values are [Z], arithmetic wraps explicitly *)

Definition max_int64 : Z := 2 ^ 63 - 1.
Definition u8 (z : Z) : Z := z mod 2 ^ 8.
Definition u16 (z : Z) : Z := z mod 2 ^ 16.
Definition u32 (z : Z) : Z := z mod 2 ^ 32.
Definition u64 (z : Z) : Z := z mod 2 ^ 64.
Definition i32 (z : Z) : Z := (z + 2 ^ 31) mod 2 ^ 32 - 2 ^ 31.
Definition i64 (z : Z) : Z := (z + 2 ^ 63) mod 2 ^ 64 - 2 ^ 63.

Definition in_u8 (z : Z) : Prop := 0 <= z < 2 ^ 8.
Definition in_u16 (z : Z) : Prop := 0 <= z < 2 ^ 16.
Definition in_u32 (z : Z) : Prop := 0 <= z < 2 ^ 32.
Definition in_u64 (z : Z) : Prop := 0 <= z < 2 ^ 64.
Definition in_i32 (z : Z) : Prop := - 2 ^ 31 <= z < 2 ^ 31.
Definition in_i64 (z : Z) : Prop := - 2 ^ 63 <= z < 2 ^ 63.

Lemma u64_range z : in_u64 (u64 z).
Proof. unfold in_u64, u64. apply Z.mod_pos_bound. lia. Qed.

Lemma u32_range z : in_u32 (u32 z).
Proof. unfold in_u32, u32. apply Z.mod_pos_bound. lia. Qed.
#[export] Hint Resolve u32_range u64_range : codexfold.

Lemma i64_id z : in_i64 z -> i64 z = z.
Proof. unfold in_i64, i64. intros. rewrite Z.mod_small; lia. Qed.

Lemma i64_u64 z : in_i64 z -> i64 (u64 z) = z.
Proof.
  unfold in_i64, i64, u64. intros H.
  rewrite Zplus_mod_idemp_l. rewrite Z.mod_small; lia.
Qed.

Lemma i32_u32 z : in_i32 z -> i32 (u32 z) = z.
Proof.
  unfold in_i32, i32, u32. intros H.
  rewrite Zplus_mod_idemp_l. rewrite Z.mod_small; lia.
Qed.

Lemma i64_range z : in_i64 (i64 z).
Proof.
  unfold in_i64, i64. pose proof (Z.mod_pos_bound (z + 2 ^ 63) (2 ^ 64) eq_refl). lia.
Qed.

(** ** Byte strings and slices *)

Abbreviation bytes := (list byte).

Definition zlen {A} (l : list A) : Z := Z.of_nat (length l).

Lemma zlen_nonneg {A} (l : list A) : 0 <= zlen l.
Proof. unfold zlen. lia. Qed.
Lemma zlen_nil {A} : zlen (@nil A) = 0.
Proof. done. Qed.
Lemma zlen_cons {A} (x : A) l : zlen (x :: l) = 1 + zlen l.
Proof. unfold zlen. simpl length. lia. Qed.
Lemma zlen_app {A} (l k : list A) : zlen (l ++ k) = zlen l + zlen k.
Proof. unfold zlen. rewrite length_app. lia. Qed.
Lemma zlen_0_nil {A} (l : list A) : zlen l = 0 -> l = [].
Proof. destruct l; [done|]. rewrite zlen_cons. pose proof (zlen_nonneg l). lia. Qed.
#[export] Hint Rewrite @zlen_nil @zlen_cons @zlen_app : cf_len.

(** [take]/[drop] at a [Z] position; a negative position counts as 0. *)
Definition ztake {A} (n : Z) (l : list A) : list A := take (Z.to_nat n) l.
Definition zdrop {A} (n : Z) (l : list A) : list A := drop (Z.to_nat n) l.
(** The Go slice [l[a:b]]. *)
Definition slice {A} (a b : Z) (l : list A) : list A := ztake (b - a) (zdrop a l).

Lemma zlen_ztake {A} n (l : list A) : zlen (ztake n l) = Z.min (Z.max 0 n) (zlen l).
Proof. unfold zlen, ztake. rewrite length_take. lia. Qed.
Lemma zlen_zdrop {A} n (l : list A) : zlen (zdrop n l) = Z.max 0 (zlen l - Z.max 0 n).
Proof. unfold zlen, zdrop. rewrite length_drop. lia. Qed.
Lemma zlen_slice {A} a b (l : list A) :
  0 <= a -> zlen (slice a b l) = Z.min (Z.max 0 (b - a)) (Z.max 0 (zlen l - a)).
Proof. intros. unfold slice. rewrite zlen_ztake, zlen_zdrop. lia. Qed.
#[export] Hint Rewrite @zlen_ztake @zlen_zdrop : cf_len.

(** Normalise list lengths everywhere and decide by [lia]. *)
Ltac len := autorewrite with cf_len in *; lia.

Lemma ztake_zdrop {A} n (l : list A) : ztake n l ++ zdrop n l = l.
Proof. apply take_drop. Qed.
Lemma ztake_all {A} n (l : list A) : zlen l <= n -> ztake n l = l.
Proof. intros. apply take_ge. unfold zlen in *. lia. Qed.
Lemma zdrop_all {A} n (l : list A) : zlen l <= n -> zdrop n l = [].
Proof. intros. apply drop_ge. unfold zlen in *. lia. Qed.
Lemma zdrop_0 {A} n (l : list A) : n <= 0 -> zdrop n l = l.
Proof. intros. unfold zdrop. by replace (Z.to_nat n) with 0%nat by lia. Qed.
Lemma ztake_0 {A} n (l : list A) : n <= 0 -> ztake n l = [].
Proof. intros. unfold ztake. by replace (Z.to_nat n) with 0%nat by lia. Qed.
Lemma zdrop_zdrop {A} m n (l : list A) :
  0 <= m -> 0 <= n -> zdrop m (zdrop n l) = zdrop (n + m) l.
Proof. intros. unfold zdrop. rewrite drop_drop. f_equal. lia. Qed.
Lemma ztake_ztake {A} m n (l : list A) : ztake m (ztake n l) = ztake (Z.min m n) l.
Proof. unfold ztake. rewrite take_take. f_equal. lia. Qed.
Lemma ztake_app_le {A} n (l k : list A) : n <= zlen l -> ztake n (l ++ k) = ztake n l.
Proof. intros. unfold ztake. apply take_app_le. unfold zlen in *. lia. Qed.
Lemma ztake_app_ge {A} n (l k : list A) :
  zlen l <= n -> ztake n (l ++ k) = l ++ ztake (n - zlen l) k.
Proof.
  intros. unfold ztake. rewrite take_app_ge by (unfold zlen in *; lia).
  f_equal. f_equal. unfold zlen in *; lia.
Qed.
Lemma zdrop_app_le {A} n (l k : list A) : n <= zlen l -> zdrop n (l ++ k) = zdrop n l ++ k.
Proof. intros. unfold zdrop. apply drop_app_le. unfold zlen in *. lia. Qed.
Lemma zdrop_app_ge {A} n (l k : list A) :
  zlen l <= n -> zdrop n (l ++ k) = zdrop (n - zlen l) k.
Proof.
  intros. unfold zdrop. rewrite drop_app_ge by (unfold zlen in *; lia).
  f_equal. unfold zlen in *; lia.
Qed.
Lemma zdrop_app_exact {A} (l k : list A) : zdrop (zlen l) (l ++ k) = k.
Proof. rewrite zdrop_app_ge by lia. apply zdrop_0. lia. Qed.
Lemma ztake_app_exact {A} (l k : list A) : ztake (zlen l) (l ++ k) = l.
Proof. rewrite ztake_app_le by lia. apply ztake_all. lia. Qed.

(** Two adjacent slices join. *)
Lemma slice_join {A} a b c (l : list A) :
  0 <= a <= b -> b <= c -> slice a b l ++ slice b c l = slice a c l.
Proof.
  intros. unfold slice.
  replace (zdrop b l) with (zdrop (b - a) (zdrop a l))
    by (rewrite zdrop_zdrop by lia; f_equal; lia).
  generalize (zdrop a l). intros k.
  rewrite <- (ztake_zdrop (b - a) k) at 3.
  destruct (Z.le_gt_cases (b - a) (zlen k)) as [Hle|Hgt].
  - rewrite ztake_app_ge; rewrite zlen_ztake; [|lia].
    do 2 f_equal. lia.
  - rewrite (zdrop_all (b - a) k), (ztake_all (b - a) k) by lia.
    unfold ztake at 1.
    rewrite take_nil, !app_nil_r. symmetry. apply ztake_all. lia.
Qed.
Lemma slice_full {A} (l : list A) : slice 0 (zlen l) l = l.
Proof. unfold slice. rewrite zdrop_0 by lia. apply ztake_all. lia. Qed.
Lemma slice_nil {A} a b (l : list A) : b <= a -> slice a b l = [].
Proof. intros. unfold slice. apply ztake_0. lia. Qed.

Lemma slice_app_mid {A} (p l k : list A) a b :
  zlen p = a -> zlen l = b - a -> slice a b (p ++ l ++ k) = l.
Proof.
  intros <- Hl. unfold slice. rewrite zdrop_app_exact, <- Hl. apply ztake_app_exact.
Qed.

(** ** Fixed-width integer encodings ([encoding/binary]) *)

Fixpoint le_bytes (n : nat) (z : Z) : bytes :=
  match n with
  | O => []
  | S n => byte_of z :: le_bytes n (z / 256)
  end.
Fixpoint le_val (l : bytes) : Z :=
  match l with
  | [] => 0
  | b :: l => byte_val b + 256 * le_val l
  end.
Definition be_bytes (n : nat) (z : Z) : bytes := rev (le_bytes n z).
Definition be_val (l : bytes) : Z := le_val (rev l).

Lemma length_le_bytes n z : length (le_bytes n z) = n.
Proof. revert z. induction n; intros; simpl; auto. Qed.
Lemma zlen_le_bytes n z : zlen (le_bytes n z) = Z.of_nat n.
Proof. unfold zlen. by rewrite length_le_bytes. Qed.
Lemma length_be_bytes n z : length (be_bytes n z) = n.
Proof. unfold be_bytes. rewrite length_rev. apply length_le_bytes. Qed.
#[export] Hint Rewrite zlen_le_bytes : cf_len.

Lemma le_val_bytes n z : le_val (le_bytes n z) = z mod 256 ^ Z.of_nat n.
Proof.
  revert z. induction n as [|n IH]; intros z; cbn [le_bytes le_val].
  - by rewrite Z.mod_1_r.
  - rewrite IH, byte_val_of, Nat2Z.inj_succ, Z.pow_succ_r by lia.
    rewrite Z.rem_mul_r by (try apply Z.pow_pos_nonneg; lia). lia.
Qed.

Lemma le_bytes_val l : le_bytes (length l) (le_val l) = l.
Proof.
  induction l as [|b l IH]; cbn [le_bytes le_val length]; [done|].
  pose proof (byte_val_range b). f_equal.
  - apply byte_val_inj. rewrite byte_val_of.
    rewrite Z.mul_comm, Z.mod_add by lia. apply Z.mod_small. lia.
  - rewrite Z.mul_comm, Z.div_add by lia.
    rewrite Z.div_small by lia. by rewrite Z.add_0_l.
Qed.

Lemma le_val_range l : 0 <= le_val l < 256 ^ zlen l.
Proof.
  pose proof (le_val_bytes (length l) (le_val l)) as H.
  rewrite le_bytes_val in H. rewrite H. unfold zlen. apply Z.mod_pos_bound.
  apply Z.pow_pos_nonneg; lia.
Qed.

Lemma be_val_bytes n z : be_val (be_bytes n z) = z mod 256 ^ Z.of_nat n.
Proof. unfold be_val, be_bytes. by rewrite rev_involutive, le_val_bytes. Qed.

(** ** Lists *)

Lemma lookup_map {A B} (f : A -> B) (l : list A) (k : nat) : map f l !! k = f <$> (l !! k).
Proof. revert k. induction l as [|x l IH]; intros [|k]; simpl; auto. Qed.
Lemma elem_of_map {A B} (f : A -> B) (l : list A) y : y ∈ map f l <-> exists x, y = f x /\ x ∈ l.
Proof. setoid_rewrite list_elem_of_In. rewrite in_map_iff. naive_solver. Qed.

(** ** Sorted lists *)

Lemma StronglySorted_before {A} (R : A -> A -> Prop) (l : list A) (a b : nat) x y :
  StronglySorted R l -> l !! a = Some x -> l !! b = Some y -> (a < b)%nat -> R x y.
Proof.
  intros Hs. revert a b. induction Hs as [|z l Hs IH Hz]; intros [|a] [|b] Ha Hb Hlt; try done.
  - lia.
  - simpl in *. simplify_eq. rewrite Forall_forall in Hz. apply Hz, list_elem_of_lookup. eauto.
  - lia.
  - apply (IH a b); auto. lia.
Qed.
