(* ===== verification/GoStd.v ===== *)
(** The parts of the Go standard library that several components use:
    [encoding/hex], [bytes.Compare], [sort.Search], [filepath.Base] and
    [os.File.ReadAt] on a file whose bytes are known. *)
From S2P Require Import Prelude.
From Stdlib Require Import Ascii.

(** ** encoding/hex *)

Definition hex_digit (z : Z) : ascii :=
  ascii_of_N (Z.to_N (if z <? 10 then 48 + z else 87 + z)).
Definition hex_value (c : ascii) : option Z :=
  let n := Z.of_N (N_of_ascii c) in
  if (48 <=? n) && (n <=? 57) then Some (n - 48)
  else if (97 <=? n) && (n <=? 102) then Some (n - 87)
  else if (65 <=? n) && (n <=? 70) then Some (n - 55)
  else None.

Fixpoint hex_EncodeToString (l : bytes) : string :=
  match l with
  | [] => EmptyString
  | b :: l =>
      String (hex_digit (byte_val b / 16))
        (String (hex_digit (byte_val b mod 16)) (hex_EncodeToString l))
  end.

Fixpoint hex_DecodeString (s : string) : option bytes :=
  match s with
  | EmptyString => Some []
  | String c1 (String c2 s) =>
      match hex_value c1, hex_value c2, hex_DecodeString s with
      | Some h, Some l, Some rest => Some (byte_of (16 * h + l) :: rest)
      | _, _, _ => None
      end
  | String _ EmptyString => None
  end.

Lemma hex_Decode_Encode l : hex_DecodeString (hex_EncodeToString l) = Some l.
Proof.
  induction l as [|b l IH]; [done|]. cbn [hex_EncodeToString hex_DecodeString].
  rewrite IH. destruct b; reflexivity.
Qed.

Lemma hex_Encode_inj l k : hex_EncodeToString l = hex_EncodeToString k -> l = k.
Proof.
  intros H. apply (f_equal hex_DecodeString) in H.
  rewrite !hex_Decode_Encode in H. by simplify_eq.
Qed.

Lemma hex_Encode_length l : String.length (hex_EncodeToString l) = (2 * length l)%nat.
Proof. induction l as [|b l IH]; simpl; lia. Qed.

(** ** bytes.Compare *)

Fixpoint bytes_Compare (a b : bytes) : comparison :=
  match a, b with
  | [], [] => Eq
  | [], _ => Lt
  | _, [] => Gt
  | x :: a, y :: b =>
      match Z.compare (byte_val x) (byte_val y) with
      | Eq => bytes_Compare a b
      | c => c
      end
  end.

Lemma bytes_Compare_eq a b : bytes_Compare a b = Eq <-> a = b.
Proof.
  split; [|intros <-].
  - revert b. induction a as [|x a IH]; intros [|y b]; simpl; try done.
    destruct (byte_val x ?= byte_val y) eqn:E; try done. intros H.
    apply Z.compare_eq, byte_val_inj in E. f_equal; auto.
  - induction a as [|x a IH]; simpl; [done|]. by rewrite Z.compare_refl.
Qed.

Lemma bytes_Compare_antisym a b : bytes_Compare b a = CompOpp (bytes_Compare a b).
Proof.
  revert b. induction a as [|x a IH]; intros [|y b]; simpl; try done.
  rewrite (Z.compare_antisym (byte_val x)). destruct (byte_val x ?= byte_val y); simpl; auto.
Qed.

Definition bytes_lt (a b : bytes) : Prop := bytes_Compare a b = Lt.

Lemma bytes_lt_cons x a y b :
  bytes_lt (x :: a) (y :: b) <->
  byte_val x < byte_val y \/ (x = y /\ bytes_lt a b).
Proof.
  unfold bytes_lt. simpl. destruct (byte_val x ?= byte_val y) eqn:E.
  - apply Z.compare_eq in E. apply byte_val_inj in E as ->. naive_solver lia.
  - rewrite Z.compare_lt_iff in E. naive_solver.
  - rewrite Z.compare_gt_iff in E. split; [done|]. intros [?|[-> _]]; lia.
Qed.

#[export] Instance bytes_lt_trans : Transitive bytes_lt.
Proof.
  intros a. induction a as [|x a IH]; intros [|y b] [|z c]; try done.
  rewrite !bytes_lt_cons. intros [H1|[-> H1]] [H2|[-> H2]]; [left; lia|auto..|].
  right. split; [done|]. by apply (IH b).
Qed.
#[export] Instance bytes_lt_irrefl : Irreflexive bytes_lt.
Proof. intros a. unfold complement, bytes_lt. by rewrite (proj2 (bytes_Compare_eq a a)). Qed.

Lemma bytes_lt_ge a b : bytes_Compare a b <> Lt -> a = b \/ bytes_lt b a.
Proof.
  intros H. destruct (bytes_Compare a b) eqn:E; [|done|].
  - left. by apply bytes_Compare_eq.
  - right. unfold bytes_lt. by rewrite bytes_Compare_antisym, E.
Qed.

(** ** sort.Search *)

Fixpoint sort_Search_loop (fuel : nat) (i j : Z) (f : Z -> bool) : Z :=
  match fuel with
  | O => i
  | S fuel =>
      if i <? j then
        let h := (i + j) / 2 in
        if negb (f h) then sort_Search_loop fuel (h + 1) j f
        else sort_Search_loop fuel i h f
      else i
  end.
(** The smallest index in [[0,n)] at which [f] is true, or [n]. *)
Definition sort_Search (n : Z) (f : Z -> bool) : Z := sort_Search_loop (Z.to_nat n) 0 n f.

Lemma sort_Search_loop_spec fuel i j f :
  0 <= i <= j -> j - i <= Z.of_nat fuel ->
  (forall a b, i <= a <= b -> b < j -> f a = true -> f b = true) ->
  let r := sort_Search_loop fuel i j f in
  i <= r <= j /\ (forall k, i <= k < r -> f k = false)
  /\ (forall k, r <= k < j -> f k = true).
Proof.
  revert i j. induction fuel as [|fuel IH]; intros i j Hij Hf Hmono; cbn [sort_Search_loop].
  { split_and!; try lia; intros; lia. }
  destruct (i <? j) eqn:E; zbool; [|split_and!; try lia; intros; lia].
  assert (i <= (i + j) / 2 < j) as Hh.
  { split; [apply Z.div_le_lower_bound|apply Z.div_lt_upper_bound]; lia. }
  destruct (f ((i + j) / 2)) eqn:Ef; cbn [negb].
  - destruct (IH i ((i + j) / 2)) as (H1 & H2 & H3); [lia|lia| |].
    { intros a b Ha Hb. apply Hmono; lia. }
    split_and!; [lia|lia|done|]. intros k Hk.
    destruct (Z.lt_ge_cases k ((i + j) / 2)); [apply H3; lia|].
    apply (Hmono ((i + j) / 2)); auto; lia.
  - destruct (IH ((i + j) / 2 + 1) j) as (H1 & H2 & H3); [lia|lia| |].
    { intros a b Ha Hb. apply Hmono; lia. }
    split_and!; [lia|lia| |done]. intros k Hk.
    destruct (Z.lt_ge_cases ((i + j) / 2) k); [apply H2; lia|].
    destruct (f k) eqn:Ek; [|done].
    rewrite (Hmono k ((i + j) / 2)) in Ef; auto; lia.
Qed.

Lemma sort_Search_spec n f :
  0 <= n -> (forall a b, 0 <= a <= b -> b < n -> f a = true -> f b = true) ->
  let r := sort_Search n f in
  0 <= r <= n /\ (forall k, 0 <= k < r -> f k = false) /\ (forall k, r <= k < n -> f k = true).
Proof. intros. unfold sort_Search. apply sort_Search_loop_spec; auto; lia. Qed.

(** ** filepath.Base (slash separated) *)

Fixpoint chars (s : string) : list ascii :=
  match s with EmptyString => [] | String c s => c :: chars s end.
Fixpoint unchars (l : list ascii) : string :=
  match l with [] => EmptyString | c :: l => String c (unchars l) end.

Definition is_slash (c : ascii) : bool := bool_decide (c = "/"%char).
Fixpoint drop_slashes (l : list ascii) : list ascii :=
  match l with
  | c :: l' => if is_slash c then drop_slashes l' else l
  | [] => []
  end.
Fixpoint until_slash (l : list ascii) : list ascii :=
  match l with
  | c :: l => if is_slash c then [] else c :: until_slash l
  | [] => []
  end.
Definition filepath_Base (path : string) : string :=
  match chars path with
  | [] => "."
  | l => match rev (until_slash (drop_slashes (rev l))) with
         | [] => "/"
         | b => unchars b
         end
  end.

(** ** os.File.ReadAt on known contents *)

Definition file_ReadAt (contents : bytes) (n : Z) (off : Z) : result bytes :=
  if off <? 0 then Err (errors_new "negative offset")
  else if n <=? zlen (slice off (off + n) contents) then Ok (slice off (off + n) contents)
  else Err io_EOF.

Lemma file_ReadAt_Ok contents n off :
  0 <= off -> 0 <= n -> off + n <= zlen contents ->
  file_ReadAt contents n off = Ok (slice off (off + n) contents).
Proof.
  intros. unfold file_ReadAt. destruct (off <? 0) eqn:E; zbool; [lia|].
  destruct (_ <=? _) eqn:E1; zbool; [done|]. rewrite zlen_slice in E1; lia.
Qed.

Lemma file_ReadAt_inv contents n off l :
  0 <= n -> file_ReadAt contents n off = Ok l ->
  0 <= off /\ off + n <= zlen contents \/ n = 0.
Proof.
  unfold file_ReadAt. intros Hn H. destruct (off <? 0) eqn:E; zbool; [done|].
  destruct (_ <=? _) eqn:E1; zbool; [|done]. rewrite zlen_slice in E1; lia.
Qed.

(** ** Strings *)

Lemma string_app_inj (a b c d : string) :
  String.length a = String.length b -> a +:+ c = b +:+ d -> a = b /\ c = d.
Proof.
  revert b. induction a as [|x a IH]; intros [|y b] Hl H; simpl in *; try done.
  simplify_eq. destruct (IH b) as [-> ->]; auto.
Qed.

Lemma string_app_length a b : String.length (a +:+ b) = (String.length a + String.length b)%nat.
Proof. induction a; simpl; auto. Qed.
Lemma suffix_inj (a b c : string) : String.append a c = String.append b c -> a = b.
Proof.
  intros H. apply (string_app_inj a b c c); [|done]. apply (f_equal String.length) in H. rewrite !string_app_length in H. lia.
Qed.

Lemma string_app_suffix (a b c d : string) :
  String.length c = String.length d -> a +:+ c = b +:+ d -> c = d.
Proof.
  intros Hl H. apply (string_app_inj a b c d); [|done].
  apply (f_equal String.length) in H. rewrite !string_app_length in H. lia.
Qed.

Lemma string_app_assoc (a b c : string) : a +:+ b +:+ c = (a +:+ b) +:+ c.
Proof. induction a as [|x a IH]; [done|]. exact (f_equal (String x) IH). Qed.

(** [[]byte(s)] *)
Definition string_bytes (s : string) : bytes := String.list_byte_of_string s.

(** [errors.Join(e, others...)] of an error that is not nil. *)
Definition join_error (e : error) (others : list (option error)) : error :=
  match errors_join (Some e :: others) with Some joined => joined | None => e end.
