(* ===== verification/Effects.v ===== *)
(** Effectful Go code: functions that change a state and may return an error.

    [M S A] is a state monad over [S] whose outcome is a Go [(A, error)] pair; a
    failing call keeps the state changes made before the failure, as Go code
    does.  [wp] is the weakest precondition that the proofs about such code are
    written with. *)
From S2P Require Import Prelude.

Definition M (S A : Type) : Type := S -> result A * S.

Definition ret {S A} (a : A) : M S A := fun s => (Ok a, s).
Definition fail {S A} (e : error) : M S A := fun s => (Err e, s).
Definition lift {S A} (r : result A) : M S A := fun s => (r, s).
Definition get {S} : M S S := fun s => (Ok s, s).
Definition put {S} (s : S) : M S unit := fun _ => (Ok tt, s).
Definition modify {S} (f : S -> S) : M S unit := fun s => (Ok tt, f s).
Definition bind {S A B} (m : M S A) (f : A -> M S B) : M S B := fun s =>
  match m s with
  | (Ok a, s) => f a s
  | (Err e, s) => (Err e, s)
  end.
(** The outcome as a value, for code that inspects an error. *)
Definition try_ {S A} (m : M S A) : M S (result A) := fun s =>
  let '(r, s) := m s in (Ok r, s).
(** [if err != nil { return err }] *)
Definition throw {S} (e : option error) : M S unit := fun s =>
  (match e with Some e => Err e | None => Ok tt end, s).
(** The error of a call, for [errors.Join]. *)
Definition error_of {S A} (m : M S A) : M S (option error) := fun s =>
  let '(r, s) := m s in (Ok (match r with Ok _ => None | Err e => Some e end), s).
(** [_ = call()]: the error is dropped. *)
Definition ignore {S A} (m : M S A) : M S unit := fun s => (Ok tt, (m s).2).
(** [defer cleanup()], its result ignored. *)
Definition defer_ {S A B} (cleanup : M S B) (m : M S A) : M S A := fun s =>
  let '(r, s) := m s in (r, (cleanup s).2).
(** [fmt.Errorf(format, err)] around the error of a call. *)
Definition wrap {S A} (format : string) (m : M S A) : M S A := fun s =>
  match m s with
  | (Ok a, s) => (Ok a, s)
  | (Err e, s) => (Err (errorf format e), s)
  end.
(** [if err := call(); err != nil { cleanup; return err }] *)
Definition or_else {S A B} (m : M S A) (cleanup : M S B) : M S A := fun s =>
  match m s with
  | (Ok a, s) => (Ok a, s)
  | (Err e, s) => (Err e, (cleanup s).2)
  end.

Notation "'let*' x := m 'in' k" := (bind m (fun x => k))
  (at level 10, x pattern, k at level 200) : codexfold_scope.
Notation "m ';;;' k" := (bind m (fun _ => k))
  (at level 199, right associativity) : codexfold_scope.

(** Running a computation on a component of a larger state. *)
Definition zoom {S T A} (g : S -> T) (u : S -> T -> S) (m : M T A) : M S A := fun s =>
  let '(r, t) := m (g s) in (r, u s t).

(** ** Weakest preconditions *)

Definition wp {S A} (m : M S A) (s : S) (Q : result A -> S -> Prop) : Prop := Q (m s).1 (m s).2.

(** Continuations only matter on the results that [m] has. *)
Lemma bind_ext {S A B} (m : M S A) (f g : A -> M S B) s :
  wp m s (fun r s' => forall a, r = Ok a -> f a s' = g a s') -> bind m f s = bind m g s.
Proof. unfold wp, bind. destruct (m s) as [[a|e] s']; simpl; auto. Qed.

Section Wp.
Context {S : Type}.

Lemma wp_mono {A} (m : M S A) s (P Q : result A -> S -> Prop) :
  wp m s P -> (forall r s', P r s' -> Q r s') -> wp m s Q.
Proof. unfold wp. auto. Qed.

Lemma wp_conj {A} (m : M S A) s (P Q : result A -> S -> Prop) :
  wp m s P -> wp m s Q -> wp m s (fun r s' => P r s' /\ Q r s').
Proof. by split. Qed.
(** A computation that cannot succeed here. *)
Lemma wp_err {A B} (m : M S A) e s (Q : result B -> S -> Prop) :
  (forall e s', Q (Err e) s') -> wp (bind m (fun _ => fail e)) s Q.
Proof. intros HQ. unfold wp, bind, fail. destruct (m s) as [[a|e'] s']; simpl; auto. Qed.
Lemma wp_ret {A} (a : A) (s : S) Q : wp (ret a) s Q <-> Q (Ok a) s.
Proof. done. Qed.
Lemma wp_fail {A} e (s : S) (Q : result A -> S -> Prop) : wp (fail e) s Q <-> Q (Err e) s.
Proof. done. Qed.
Lemma wp_lift {A} r (s : S) (Q : result A -> S -> Prop) : wp (lift r) s Q <-> Q r s.
Proof. done. Qed.
Lemma wp_get (s : S) Q : wp get s Q <-> Q (Ok s) s.
Proof. done. Qed.
Lemma wp_modify f (s : S) Q : wp (modify f) s Q <-> Q (Ok tt) (f s).
Proof. done. Qed.

Lemma wp_bind {A B} (m : M S A) (f : A -> M S B) s Q :
  wp (bind m f) s Q
  <-> wp m s (fun r s' => match r with Ok a => wp (f a) s' Q | Err e => Q (Err e) s' end).
Proof. unfold wp, bind. destruct (m s) as [[a|e] s'] eqn:E; simpl; done. Qed.

Lemma wp_assoc {A B C} (m : M S A) (f : A -> M S B) (g : B -> M S C) s Q :
  wp (bind (bind m f) g) s Q -> wp (bind m (fun a => bind (f a) g)) s Q.
Proof. unfold wp, bind. by destruct (m s) as [[a|e] s']. Qed.

Lemma wp_try {A} (m : M S A) s Q : wp (try_ m) s Q <-> wp m s (fun r s' => Q (Ok r) s').
Proof. unfold wp, try_. by destruct (m s). Qed.
Lemma wp_throw e (s : S) Q :
  wp (throw e) s Q <-> Q (match e with Some e => Err e | None => Ok tt end) s.
Proof. done. Qed.
Lemma wp_error_of {A} (m : M S A) s Q :
  wp (error_of m) s Q
  <-> wp m s (fun r s' => Q (Ok (match r with Ok _ => None | Err e => Some e end)) s').
Proof. unfold wp, error_of. by destruct (m s) as [[]]. Qed.
Lemma wp_ignore {A} (m : M S A) s Q : wp (ignore m) s Q <-> wp m s (fun _ s' => Q (Ok tt) s').
Proof. done. Qed.
Lemma wp_defer {A B} (c : M S B) (m : M S A) s Q :
  wp (defer_ c m) s Q <-> wp m s (fun r s' => wp c s' (fun _ s2 => Q r s2)).
Proof. unfold wp, defer_. by destruct (m s). Qed.
Lemma wp_wrap {A} f (m : M S A) s Q :
  wp (wrap f m) s Q
  <-> wp m s (fun r s' => Q (match r with Ok a => Ok a | Err e => Err (errorf f e) end) s').
Proof. unfold wp, wrap. by destruct (m s) as [[a|e] s'] eqn:E. Qed.
Lemma wp_or_else {A B} (m : M S A) (c : M S B) s Q :
  wp (or_else m c) s Q
  <-> wp m s (fun r s' => match r with
                          | Ok a => Q (Ok a) s'
                          | Err e => wp c s' (fun _ s2 => Q (Err e) s2)
                          end).
Proof. unfold wp, or_else. by destruct (m s) as [[a|e] s'] eqn:E. Qed.
Lemma wp_zoom {T A} (g : S -> T) u (m : M T A) s Q :
  wp (zoom g u m) s Q <-> wp m (g s) (fun r t => Q r (u s t)).
Proof. unfold wp, zoom. by destruct (m (g s)). Qed.

(** A property that no step of a computation can break. *)
Definition keeps {A} (P : S -> Prop) (m : M S A) : Prop := forall s, P s -> P (m s).2.

Lemma wp_keeps {A} (P : S -> Prop) (m : M S A) s (Q : result A -> S -> Prop) :
  keeps P m -> P s -> wp m s Q -> wp m s (fun r s' => P s' /\ Q r s').
Proof. intros Hk Hs HQ. split; [by apply Hk|exact HQ]. Qed.
Lemma wp_kept {A} (P : S -> Prop) (m : M S A) s : keeps P m -> P s -> wp m s (fun _ s' => P s').
Proof. intros Hk Hs. by apply Hk. Qed.
Lemma keeps_ret {A} P (a : A) : keeps P (ret a).
Proof. by intros s. Qed.
Lemma keeps_fail {A} P e : keeps P (fail (A := A) e).
Proof. by intros s. Qed.
Lemma keeps_lift {A} P (r : result A) : keeps P (lift r).
Proof. by intros s. Qed.
Lemma keeps_get P : keeps P (get (S := S)).
Proof. by intros s. Qed.
Lemma keeps_bind {A B} P (m : M S A) (f : A -> M S B) :
  keeps P m -> (forall a, keeps P (f a)) -> keeps P (bind m f).
Proof.
  intros Hm Hf s Hs. unfold bind. specialize (Hm s Hs). destruct (m s) as [[a|e] s']; [|done].
  by apply Hf.
Qed.
Lemma keeps_try {A} P (m : M S A) : keeps P m -> keeps P (try_ m).
Proof. intros Hm s Hs. unfold try_. specialize (Hm s Hs). by destruct (m s). Qed.
Lemma keeps_throw P e : keeps P (throw e).
Proof. by intros s. Qed.
Lemma keeps_error_of {A} P (m : M S A) : keeps P m -> keeps P (error_of m).
Proof. intros Hm s Hs. unfold error_of. specialize (Hm s Hs). by destruct (m s). Qed.
Lemma keeps_ignore {A} P (m : M S A) : keeps P m -> keeps P (ignore m).
Proof. intros Hm s Hs. by apply Hm. Qed.
Lemma keeps_defer {A B} P (c : M S B) (m : M S A) : keeps P c -> keeps P m -> keeps P (defer_ c m).
Proof.
  intros Hc Hm s Hs. unfold defer_. specialize (Hm s Hs). destruct (m s). by apply Hc.
Qed.
Lemma keeps_wrap {A} P f (m : M S A) : keeps P m -> keeps P (wrap f m).
Proof. intros Hm s Hs. unfold wrap. specialize (Hm s Hs). by destruct (m s) as [[]]. Qed.
Lemma keeps_or_else {A B} P (m : M S A) (c : M S B) : keeps P m -> keeps P c -> keeps P (or_else m c).
Proof.
  intros Hm Hc s Hs. unfold or_else. specialize (Hm s Hs). destruct (m s) as [[]]; [done|].
  by apply Hc.
Qed.
End Wp.

Create HintDb keeps.
#[export] Hint Resolve keeps_ret keeps_fail keeps_lift keeps_get keeps_try keeps_ignore keeps_wrap keeps_throw keeps_error_of : keeps.

(** Decompose a [keeps] goal along the structure of the program. *)
Ltac keeps_step :=
  match goal with
  | |- keeps _ (bind _ _) => apply keeps_bind; [|intros]
  | |- keeps _ (defer_ _ _) => apply keeps_defer
  | |- keeps _ (or_else _ _) => apply keeps_or_else
  | |- keeps _ (wrap _ _) => apply keeps_wrap
  | |- keeps _ (try_ _) => apply keeps_try
  | |- keeps _ (ignore _) => apply keeps_ignore
  | |- keeps _ (error_of _) => apply keeps_error_of
  | |- keeps _ (match ?x with _ => _ end) => destruct x
  | |- keeps _ _ => solve [eauto with keeps]
  end.
Ltac keeps := intros; repeat keeps_step.
