(* ===== verification/Cdc.v ===== *)
(** Content-defined chunking: [src/internal/cdc/chunker.go].

    A [Chunker] consumes bytes with [chunker_Write], keeps the bytes of the
    chunk in progress and a rolling 64-bit gear hash, and hands each finished
    chunk to a callback [emit].  The callback is the caller's code: it is a
    state transformer on a caller state [S] that may return an error.  SHA-256
    is an arbitrary function of the chunk's bytes.

    The file defines the abstract contract as well: [chunking] is the greedy
    decomposition of a byte string into chunks, and the operations are shown to
    compute exactly it, whatever the segmentation of the writes. *)
From S2P Require Import Prelude.

Record CdcOptions := {
  MinBytes : Z;
  AverageBytes : Z;
  MaxBytes : Z;
}.

Record Chunk := {
  Data : bytes;
  Digest : bytes;
}.

(** The chunker without its callback, which is an argument of the operations. *)
Record Chunker := {
  options : CdcOptions;
  mask : Z;
  gear : Z;
  chunk : bytes;
}.

(** One round of the splitmix64 generator that fills the gear table. *)
Definition gear_mix (state : Z) : Z :=
  let value := state in
  let value := u64 (Z.lxor value (Z.shiftr value 30) * 0xbf58476d1ce4e5b9) in
  let value := u64 (Z.lxor value (Z.shiftr value 27) * 0x94d049bb133111eb) in
  Z.lxor value (Z.shiftr value 31).

Fixpoint gear_table_from (n : nat) (state : Z) : list Z :=
  match n with
  | O => []
  | S n =>
      let state := u64 (state + 0x9e3779b97f4a7c15) in
      gear_mix state :: gear_table_from n state
  end.

Definition buildDedupGearTable : list Z := gear_table_from 256 0x6a09e667f3bcc909.

Definition dedupGearTable : list Z := Eval vm_compute in buildDedupGearTable.

Definition gear_entry (value : byte) : Z :=
  nth (Z.to_nat (byte_val value)) dedupGearTable 0.

(** [cdc.New]: defaults, validation, and the empty chunker.  [emit] is nil when
    [has_emit] is false. *)
Definition chunker_New (o : CdcOptions) (has_emit : bool) : result Chunker :=
  let o := {|
    MinBytes := if MinBytes o <=? 0 then 64 * 1024 else MinBytes o;
    AverageBytes := if AverageBytes o <=? 0 then 256 * 1024 else AverageBytes o;
    MaxBytes := if MaxBytes o <=? 0 then 1024 * 1024 else MaxBytes o |} in
  if (MinBytes o >? AverageBytes o) || (AverageBytes o >? MaxBytes o) then
    Err (errors_new "invalid CDC bounds: require min <= average <= max")
  else if negb (Z.land (AverageBytes o) (AverageBytes o - 1) =? 0) then
    Err (errors_new "invalid CDC average %d: must be a power of two")
  else if negb has_emit then
    Err (errors_new "CDC emit callback is required")
  else
    Ok {| options := o; mask := u64 (AverageBytes o - 1); gear := 0; chunk := [] |}.

Section Chunker.
Context {S : Type}.
Variable sha256 : bytes -> bytes.
Variable emit : S -> Chunk -> S * option error.

Definition emitChunk (c : Chunker) (s : S) : Chunker * S * option error :=
  let '(s, err) := emit s {| Data := chunk c; Digest := sha256 (chunk c) |} in
  match err with
  | Some e => (c, s, Some e)
  | None => ({| options := options c; mask := mask c; gear := 0; chunk := [] |}, s, None)
  end.

(** [Chunker.Write]: one loop iteration per byte; an emit error stops it. *)
Fixpoint chunker_Write (c : Chunker) (s : S) (data : bytes)
  : Chunker * S * option error :=
  match data with
  | [] => (c, s, None)
  | value :: data =>
      let c := {| options := options c; mask := mask c;
                  gear := u64 (u64 (Z.shiftl (gear c) 1) + gear_entry value);
                  chunk := chunk c ++ [value] |} in
      let size := zlen (chunk c) in
      if (size >=? MaxBytes (options c))
         || ((size >=? MinBytes (options c)) && (Z.land (gear c) (mask c) =? 0))
      then
        let '(c, s, err) := emitChunk c s in
        match err with
        | Some e => (c, s, Some e)
        | None => chunker_Write c s data
        end
      else chunker_Write c s data
  end.

Definition chunker_Finish (c : Chunker) (s : S) : Chunker * S * option error :=
  if (zlen (chunk c) =? 0) then (c, s, None) else emitChunk c s.

(** A sequence of [Write] calls, stopped by the first error. *)
Fixpoint chunker_Writes (c : Chunker) (s : S) (pieces : list bytes)
  : Chunker * S * option error :=
  match pieces with
  | [] => (c, s, None)
  | p :: pieces =>
      let '(c, s, err) := chunker_Write c s p in
      match err with
      | Some e => (c, s, Some e)
      | None => chunker_Writes c s pieces
      end
  end.
End Chunker.

(** ** Abstract contract *)

(** The gear hash of a chunk in progress. *)
Definition gear_step (g : Z) (value : byte) : Z :=
  u64 (u64 (Z.shiftl g 1) + gear_entry value).
Definition gear_of (l : bytes) : Z := foldl gear_step 0 l.

(** [l] ends a chunk. *)
Definition is_cut (o : CdcOptions) (m : Z) (l : bytes) : bool :=
  (zlen l >=? MaxBytes o)
  || ((zlen l >=? MinBytes o) && (Z.land (gear_of l) m =? 0)).

(** No nonempty prefix of [l] ends a chunk. *)
Definition uncut (o : CdcOptions) (m : Z) (l : bytes) : Prop :=
  forall p k, l = p ++ k -> p <> [] -> is_cut o m p = false.

(** [whole_chunk l]: [l] is cut at its end and nowhere before. *)
Definition whole_chunk (o : CdcOptions) (m : Z) (l : bytes) : Prop :=
  exists p v, l = p ++ [v] /\ uncut o m p /\ is_cut o m l = true.

(** [chunking l cs rest]: [cs] are whole chunks, [rest] is an unfinished one,
    and together they are [l]. *)
Definition chunking (o : CdcOptions) (m : Z) (l : bytes) (cs : list bytes) (rest : bytes)
  : Prop :=
  l = concat cs ++ rest /\ Forall (whole_chunk o m) cs /\ uncut o m rest.

Definition options_ok (o : CdcOptions) : Prop :=
  0 < MinBytes o <= AverageBytes o /\ AverageBytes o <= MaxBytes o.

(** Well-formed chunker: the gear is the hash of the bytes in progress, and no
    prefix of them should have been emitted already. *)
Record chunker_wf (c : Chunker) : Prop := {
  wf_options : options_ok (options c);
  wf_gear : gear c = gear_of (chunk c);
  wf_uncut : uncut (options c) (mask c) (chunk c);
}.

(** The logging callback: it keeps every chunk and never fails. *)
Definition log_emit (s : list Chunk) (ch : Chunk) : list Chunk * option error :=
  (s ++ [ch], None).

(** ** Lemmas *)

Lemma gear_of_snoc l v : gear_of (l ++ [v]) = gear_step (gear_of l) v.
Proof. unfold gear_of. by rewrite foldl_app. Qed.

Lemma gear_of_range l : in_u64 (gear_of l).
Proof.
  destruct l as [|v l _] using rev_ind.
  - unfold gear_of, in_u64. simpl. lia.
  - rewrite gear_of_snoc. apply u64_range.
Qed.

Lemma uncut_nil o m : uncut o m [].
Proof. intros p k H. destruct p; [done|discriminate]. Qed.

Lemma uncut_snoc o m l v :
  uncut o m l -> is_cut o m (l ++ [v]) = false -> uncut o m (l ++ [v]).
Proof.
  intros Hl Hv p k Heq Hp. destruct k as [|w k _] using rev_ind.
  - rewrite app_nil_r in Heq. by subst.
  - rewrite app_assoc in Heq. apply app_inj_tail in Heq as [-> _]. by apply (Hl p k).
Qed.

#[export] Hint Resolve uncut_nil uncut_snoc : codexfold.

Lemma whole_chunk_nonempty o m l : whole_chunk o m l -> l <> [].
Proof. intros (p & v & -> & _). by destruct p. Qed.

Lemma whole_chunk_size o m l :
  options_ok o -> whole_chunk o m l -> MinBytes o <= zlen l <= MaxBytes o.
Proof.
  intros [Hmin Hmax] (p & v & -> & Hp & Hcut). unfold is_cut in Hcut.
  apply orb_true_iff in Hcut as [Hc|Hc]; zbool; rewrite zlen_app, zlen_cons, zlen_nil in *.
  all: destruct (decide (p = [])) as [->|Hne]; [rewrite zlen_nil in *; lia|].
  all: pose proof (Hp p [] ltac:(by rewrite app_nil_r) Hne) as Hc'.
  all: unfold is_cut in Hc'; zbool; lia.
Qed.

Lemma uncut_size o m l : options_ok o -> uncut o m l -> zlen l < MaxBytes o.
Proof.
  intros [Hmin Hmax] Hl. destruct (decide (l = [])) as [->|Hne].
  - rewrite zlen_nil. lia.
  - pose proof (Hl l [] ltac:(by rewrite app_nil_r) Hne) as Hc.
    unfold is_cut in Hc. zbool. lia.
Qed.

(** The first chunk of a string is determined by the string. *)
Lemma whole_chunk_prefix_unique o m a b k k' :
  whole_chunk o m a -> whole_chunk o m b -> a ++ k = b ++ k' -> a = b.
Proof.
  intros (p & v & -> & Hp & Hca) (q & w & -> & Hq & Hcb) Heq.
  assert (forall x y vx vy kx ky, uncut o m y -> is_cut o m (x ++ [vx]) = true ->
            (x ++ [vx]) ++ kx = (y ++ [vy]) ++ ky -> (length y <= length x)%nat) as Hlen.
  { intros x y vx vy kx ky Hu Hc He.
    destruct (decide (length y <= length x)%nat) as [|Hlt]; [done|exfalso].
    assert (exists z, y = (x ++ [vx]) ++ z) as [z Hz].
    { rewrite <- (app_assoc y) in He. exists (drop (length (x ++ [vx])) y).
      rewrite <- (take_drop (length (x ++ [vx])) y) at 1. f_equal.
      apply (f_equal (take (length (x ++ [vx])))) in He.
      rewrite take_app_length, take_app_le in He; [done|].
      rewrite length_app. simpl. lia. }
    rewrite (Hu _ _ Hz) in Hc; [done|]. by destruct x. }
  pose proof (Hlen p q v w k k' Hq Hca Heq).
  pose proof (Hlen q p w v k' k Hp Hcb (eq_sym Heq)).
  apply app_inj_1 in Heq as [-> _]; [done|]. rewrite !length_app. simpl. lia.
Qed.

Lemma uncut_no_whole_chunk o m r a k : uncut o m r -> whole_chunk o m a -> r <> a ++ k.
Proof.
  intros Hr Ha ->. pose proof (whole_chunk_nonempty _ _ _ Ha) as Hne.
  destruct Ha as (p & v & -> & _ & Hc). by rewrite (Hr _ _ eq_refl Hne) in Hc.
Qed.

Lemma chunking_unique o m l cs r cs' r' :
  chunking o m l cs r -> chunking o m l cs' r' -> cs = cs' /\ r = r'.
Proof.
  intros (-> & Hcs & Hr) (Heq & Hcs' & Hr').
  revert cs' Heq Hcs'. induction Hcs as [|c cs Hc Hcs IH]; intros [|c' cs'] Heq Hcs'.
  - done.
  - exfalso. apply Forall_cons in Hcs' as [Hc' _]. simpl in Heq.
    rewrite <- app_assoc in Heq. by eapply uncut_no_whole_chunk in Heq.
  - exfalso. simpl in Heq. rewrite <- app_assoc in Heq.
    exact (uncut_no_whole_chunk _ _ _ _ _ Hr' Hc (eq_sym Heq)).
  - apply Forall_cons in Hcs' as [Hc' Hcs']. simpl in Heq. rewrite <- !app_assoc in Heq.
    pose proof (whole_chunk_prefix_unique _ _ _ _ _ _ Hc Hc' Heq) as <-.
    apply app_inv_head in Heq. destruct (IH cs' Heq Hcs') as [-> ->]. done.
Qed.

Lemma chunking_app o m l cs k ds r :
  chunking o m l cs [] -> chunking o m k ds r -> chunking o m (l ++ k) (cs ++ ds) r.
Proof.
  intros (-> & Hcs & _) (-> & Hds & Hr). split_and!; [|by apply Forall_app|done].
  by rewrite concat_app, app_nil_r, app_assoc.
Qed.

(** A positive number that shares no bit with its predecessor is a power of two. *)
Lemma land_pred_pow2 a : 0 < a -> Z.land a (a - 1) = 0 -> a = 2 ^ Z.log2 a.
Proof.
  intros Ha Hl. pose proof (Z.log2_spec a Ha) as [Hlo Hhi].
  destruct (Z.eq_dec a (2 ^ Z.log2 a)) as [|Hne]; [done|exfalso].
  assert (Z.log2 (a - 1) = Z.log2 a) as Hlog.
  { apply Z.log2_unique; [apply Z.log2_nonneg|]. lia. }
  assert (Z.testbit (Z.land a (a - 1)) (Z.log2 a) = true) as Hb.
  { rewrite Z.land_spec, Z.bit_log2 by lia. rewrite <- Hlog, Z.bit_log2; [done|].
    pose proof (Z.pow_pos_nonneg 2 (Z.log2 a) eq_refl (Z.log2_nonneg a)). lia. }
  rewrite Hl in Hb. by rewrite Z.bits_0 in Hb.
Qed.

Lemma chunker_New_Ok o b c :
  in_i64 (AverageBytes o) -> chunker_New o b = Ok c ->
  chunker_wf c /\ chunk c = []
  /\ exists k, 0 <= k /\ AverageBytes (options c) = 2 ^ k /\ mask c = 2 ^ k - 1.
Proof.
  unfold chunker_New, in_i64. intros Hr H. destruct (_ || _) eqn:E1; [done|].
  destruct (negb (Z.land _ _ =? 0)) eqn:E2; [done|]. destruct (negb b); [done|].
  simplify_eq/=. zbool.
  set (avg := if AverageBytes o <=? 0 then _ else _) in *.
  assert (0 < avg < 2 ^ 63) as Havg.
  { subst avg. case_match; zbool; lia. }
  assert (0 < (if MinBytes o <=? 0 then 64 * 1024 else MinBytes o)).
  { destruct (MinBytes o <=? 0) eqn:?; zbool; lia. }
  split_and!.
  - split; simpl; auto with codexfold. split; simpl; lia.
  - done.
  - exists (Z.log2 avg). pose proof (land_pred_pow2 avg ltac:(lia) E2) as Hp.
    split_and!; [apply Z.log2_nonneg|done|].
    rewrite <- Hp. unfold u64. apply Z.mod_small. lia.
Qed.

(** [emits emit s chs s']: handing [chs] to the callback in order succeeds. *)
Inductive emits {S} (emit : S -> Chunk -> S * option error) : S -> list Chunk -> S -> Prop :=
| emits_nil s : emits emit s [] s
| emits_cons s ch s1 chs s2 :
    emit s ch = (s1, None) -> emits emit s1 chs s2 -> emits emit s (ch :: chs) s2.
#[export] Hint Constructors emits : codexfold.

Section ChunkerLemmas.
Context {S : Type} (sha256 : bytes -> bytes) (emit : S -> Chunk -> S * option error).
Implicit Types (c : Chunker) (s : S).
Local Abbreviation mk := (fun l => {| Data := l; Digest := sha256 l |}).

Lemma chunker_Write_app c s a b :
  chunker_Write sha256 emit c s (a ++ b) =
    (let '(c, s, err) := chunker_Write sha256 emit c s a in
     match err with
     | Some e => (c, s, Some e)
     | None => chunker_Write sha256 emit c s b
     end).
Proof.
  revert c s. induction a as [|v a IH]; intros c s; [done|]. cbn [chunker_Write app].
  case_match; [|apply IH].
  destruct (emitChunk _ _ _ _) as [[c1 s1] [e|]]; [done|apply IH].
Qed.

Lemma chunker_Writes_concat c s pieces :
  chunker_Writes sha256 emit c s pieces = chunker_Write sha256 emit c s (concat pieces).
Proof.
  revert c s. induction pieces as [|p ps IH]; intros c s; simpl; [done|].
  rewrite chunker_Write_app.
  destruct (chunker_Write _ _ _ _ _) as [[c1 s1] [e|]]; [done|apply IH].
Qed.

(** The byte just consumed, before the decision to emit. *)
Definition push (c : Chunker) (v : byte) : Chunker :=
  {| options := options c; mask := mask c; gear := gear_step (gear c) v;
     chunk := chunk c ++ [v] |}.

Lemma push_cut c v :
  chunker_wf c ->
  (zlen (chunk (push c v)) >=? MaxBytes (options (push c v)))
  || ((zlen (chunk (push c v)) >=? MinBytes (options (push c v)))
      && (Z.land (gear (push c v)) (mask (push c v)) =? 0))
  = is_cut (options c) (mask c) (chunk c ++ [v]).
Proof. intros [_ Hg _]. unfold is_cut. simpl. by rewrite gear_of_snoc, Hg. Qed.

Definition reset (c : Chunker) : Chunker :=
  {| options := options c; mask := mask c; gear := 0; chunk := [] |}.

Lemma reset_wf c : options_ok (options c) -> chunker_wf (reset c).
Proof. by split; simpl; auto with codexfold. Qed.

Lemma push_wf c v :
  chunker_wf c -> is_cut (options c) (mask c) (chunk c ++ [v]) = false ->
  chunker_wf (push c v).
Proof.
  intros [Ho Hg Hu] Hc. split; simpl; auto with codexfold.
  by rewrite gear_of_snoc, Hg.
Qed.

(** What a [Write] did, successful or not. *)
Lemma chunker_Write_spec c s data c' s' err :
  chunker_wf c -> chunker_Write sha256 emit c s data = (c', s', err) ->
  options c' = options c /\ mask c' = mask c /\
  exists cs,
    Forall (whole_chunk (options c) (mask c)) cs /\
    match err with
    | None => emits emit s (map mk cs) s' /\ chunker_wf c'
              /\ chunk c ++ data = concat cs ++ chunk c'
    | Some e => exists s1 rest,
        emits emit s (map mk cs) s1 /\ emit s1 (mk (chunk c')) = (s', Some e)
        /\ whole_chunk (options c) (mask c) (chunk c')
        /\ chunk c ++ data = concat cs ++ chunk c' ++ rest
    end.
Proof.
  revert c s. induction data as [|v data IH]; intros c s Hwf Hw.
  { simplify_eq/=. split_and!; [done..|]. exists []. rewrite app_nil_r.
    split_and!; auto with codexfold. }
  cbn [chunker_Write] in Hw. cbv zeta in Hw. fold (gear_step (gear c) v) in Hw. fold (push c v) in Hw.
  rewrite (push_cut c v Hwf) in Hw.
  destruct (is_cut _ _ (chunk c ++ [v])) eqn:Hcut.
  - assert (whole_chunk (options c) (mask c) (chunk c ++ [v])) as Hwhole.
    { exists (chunk c), v. split_and!; [done| apply Hwf | done]. }
    unfold emitChunk in Hw. cbn [chunk push] in Hw.
    destruct (emit s _) as [s1 [e|]] eqn:Hemit.
    + simplify_eq. split_and!; [done..|]. exists []. split; [done|].
      exists s, data. simpl. rewrite <- app_assoc. auto with codexfold.
    + fold (reset c) in Hw.
      apply (IH (reset c) s1 (reset_wf c (wf_options _ Hwf))) in Hw
        as (Ho & Hm & cs & Hcs & Hrest).
      cbn [options mask chunk reset app] in *. split_and!; [done..|].
      exists ((chunk c ++ [v]) :: cs). split; [by constructor|]. simpl.
      destruct err as [e|].
      * destruct Hrest as (s2 & rest & Hem & Hf & Hc & ->).
        exists s2, rest. rewrite <- !app_assoc. eauto with codexfold.
      * destruct Hrest as (Hem & Hwf' & ->). rewrite <- !app_assoc. eauto with codexfold.
  - apply (IH (push c v) s (push_wf _ _ Hwf Hcut)) in Hw as (Ho & Hm & cs & Hcs & Hrest).
    cbn [options mask chunk push] in *. rewrite <- app_assoc in Hrest. simpl in Hrest.
    split_and!; eauto.
Qed.

(** A property [I] of the bytes emitted so far that the callback maintains, and
    one [E] of the states in which it fails. *)
Lemma chunker_Write_inv (I : bytes -> S -> Prop) (E : S -> Prop) c s em data c' s' err :
  (forall em s l s' err, I em s -> l <> [] -> emit s (mk l) = (s', err) ->
     match err with None => I (em ++ l) s' | Some _ => E s' end) ->
  I em s -> chunker_Write sha256 emit c s data = (c', s', err) ->
  match err with
  | None => exists em', I em' s' /\ em' ++ chunk c' = em ++ chunk c ++ data
  | Some _ => E s'
  end.
Proof.
  intros Hemit. revert c s em. induction data as [|v data IH]; intros c s em HI Hw.
  { simpl in Hw. simplify_eq. exists em. by rewrite app_nil_r. }
  cbn [chunker_Write] in Hw. cbv zeta in Hw. fold (gear_step (gear c) v) in Hw. fold (push c v) in Hw.
  destruct (_ || _).
  - unfold emitChunk in Hw. cbn [chunk push] in Hw.
    destruct (emit s (mk (chunk c ++ [v]))) as [s1 err1] eqn:He.
    apply (Hemit em) in He; [|done|by destruct (chunk c)].
    destruct err1 as [e|]; [by simplify_eq|]. apply (IH _ _ (em ++ chunk c ++ [v])) in Hw; [|done].
    destruct err; [done|]. destruct Hw as (em' & HI' & Heq). exists em'. split; [done|].
    rewrite Heq. simpl. by rewrite <- !app_assoc.
  - apply (IH _ _ em) in Hw; [|done]. destruct err; [done|]. destruct Hw as (em' & HI' & Heq).
    exists em'. split; [done|]. rewrite Heq. simpl. by rewrite <- !app_assoc.
Qed.

Lemma chunker_Finish_inv (I : bytes -> S -> Prop) (E : S -> Prop) c s em c' s' err :
  (forall em s l s' err, I em s -> l <> [] -> emit s (mk l) = (s', err) ->
     match err with None => I (em ++ l) s' | Some _ => E s' end) ->
  I em s -> chunker_Finish sha256 emit c s = (c', s', err) ->
  match err with
  | None => I (em ++ chunk c) s' /\ chunk c' = []
  | Some _ => E s'
  end.
Proof.
  intros Hemit HI Hf. unfold chunker_Finish in Hf. destruct (zlen (chunk c) =? 0) eqn:E0; zbool.
  - simplify_eq. apply zlen_0_nil in E0. by rewrite E0, app_nil_r.
  - unfold emitChunk in Hf. destruct (emit s (mk (chunk c))) as [s1 err1] eqn:He.
    apply (Hemit em) in He; [|done|by intros Hc; rewrite Hc in E0]. by destruct err1; simplify_eq.
Qed.
End ChunkerLemmas.

Lemma emits_log s chs s' : emits log_emit s chs s' <-> s' = s ++ chs.
Proof.
  split.
  - induction 1 as [s|s ch s1 chs s2 He _ ->]; [by rewrite app_nil_r|].
    unfold log_emit in He. simplify_eq. by rewrite <- app_assoc.
  - revert s. induction chs as [|ch chs IH]; intros s ->.
    + rewrite app_nil_r. constructor.
    + apply (emits_cons log_emit s ch (s ++ [ch])); [done|].
      apply IH. by rewrite <- app_assoc.
Qed.

Lemma log_Write_ok sha256 c s data : (chunker_Write sha256 log_emit c s data).2 = None.
Proof.
  revert c s. induction data as [|v data IH]; intros c s; [done|].
  cbn [chunker_Write]. case_match; apply IH.
Qed.

(** Writing [data] to a well-formed chunker logs exactly the chunks of the
    greedy decomposition of the pending bytes followed by [data]. *)
Lemma log_Write_chunking sha256 c s data c' s' err :
  chunker_wf c -> chunker_Write sha256 log_emit c s data = (c', s', err) ->
  err = None /\ chunker_wf c' /\ options c' = options c /\ mask c' = mask c /\
  exists cs, s' = s ++ map (fun l => {| Data := l; Digest := sha256 l |}) cs
    /\ chunking (options c) (mask c) (chunk c ++ data) cs (chunk c').
Proof.
  intros Hwf Hw. pose proof (log_Write_ok sha256 c s data) as He. rewrite Hw in He.
  simpl in He. subst err.
  destruct (chunker_Write_spec _ _ _ _ _ _ _ _ Hwf Hw) as (Ho & Hm & cs & Hcs & Hem & Hwf' & Heq).
  split_and!; [done..|]. exists cs. apply emits_log in Hem. split; [done|].
  split_and!; [done..|]. rewrite <- Ho, <- Hm. apply Hwf'.
Qed.

Lemma dedupGearTable_build : dedupGearTable = buildDedupGearTable.
Proof. vm_compute. reflexivity. Qed.

(** ** Properties *)

(** The chunks a stream of bytes is cut into. *)
Definition chunk_stream (sha256 : bytes -> bytes) (c : Chunker) (pieces : list bytes)
  : list Chunk * option error :=
  let '(c1, s1, err) := chunker_Writes sha256 log_emit c [] pieces in
  match err with
  | Some e => (s1, Some e)
  | None => let '(_, s2, err) := chunker_Finish sha256 log_emit c1 s1 in (s2, err)
  end.

Lemma chunk_stream_spec sha256 c pieces :
  chunker_wf c -> chunk c = [] ->
  exists cs rest,
    chunk_stream sha256 c pieces =
      (map (fun l => {| Data := l; Digest := sha256 l |})
           (cs ++ (if decide (rest = []) then [] else [rest])), None)
    /\ chunking (options c) (mask c) (concat pieces) cs rest.
Proof.
  intros Hwf Hc. unfold chunk_stream. rewrite chunker_Writes_concat.
  destruct (chunker_Write _ _ _ _ _) as [[c1 s1] err] eqn:Hw.
  apply log_Write_chunking in Hw as (-> & Hwf1 & Ho & Hm & cs & -> & Hch); [|done].
  rewrite Hc in Hch. exists cs, (chunk c1). split; [|done].
  unfold chunker_Finish, emitChunk, log_emit. destruct (decide (chunk c1 = [])) as [->|Hne].
  - simpl. by rewrite app_nil_r.
  - destruct (zlen (chunk c1) =? 0) eqn:E; zbool; [by apply zlen_0_nil in E|].
    simpl. by rewrite map_app.
Qed.

(** C29. Cutting a stream, however it is split into writes, never fails and
    yields chunks whose concatenation is the stream, each with the digest of its
    own bytes: the chunks are the greedy decomposition of the whole input. *)
Theorem chunk_stream_lossless sha256 o c pieces :
  in_i64 (AverageBytes o) -> chunker_New o true = Ok c ->
  exists chs, chunk_stream sha256 c pieces = (chs, None)
    /\ concat (map Data chs) = concat pieces
    /\ Forall (fun ch => Digest ch = sha256 (Data ch)) chs.
Proof.
  intros Hi Hn. destruct (chunker_New_Ok _ _ _ Hi Hn) as (Hwf & Hc & _).
  destruct (chunk_stream_spec sha256 c pieces Hwf Hc) as (cs & rest & -> & Hch & _).
  eexists. split; [done|]. split.
  - rewrite map_map. simpl. rewrite map_id, Hch, concat_app. f_equal.
    case_decide; subst; simpl; by rewrite ?app_nil_r.
  - apply Forall_map, Forall_true. done.
Qed.

Definition sample_options : CdcOptions :=
  {| MinBytes := 2; AverageBytes := 4; MaxBytes := 8 |}.
Definition sample_sha (l : bytes) : bytes := le_bytes 4 (le_val l mod 65521).

Lemma chunk_stream_lossless_witness :
  exists c, chunker_New sample_options true = Ok c
    /\ exists chs, chunk_stream sample_sha c [le_bytes 20 123456789; le_bytes 3 77] = (chs, None)
      /\ concat (map Data chs) = le_bytes 20 123456789 ++ le_bytes 3 77.
Proof.
  eexists. split; [reflexivity|].
  edestruct (chunk_stream_lossless sample_sha sample_options) as (chs & H1 & H2 & _);
    [unfold in_i64; simpl; lia|reflexivity|].
  exists chs. split; [exact H1|]. rewrite H2. reflexivity.
Defined.

(** Every chunk has at most [MaxBytes] bytes and is not empty, and every
    chunk but the last has at least [MinBytes]. *)
Theorem chunk_stream_sizes sha256 o c pieces chs :
  in_i64 (AverageBytes o) -> chunker_New o true = Ok c ->
  chunk_stream sha256 c pieces = (chs, None) ->
  Forall (fun ch => 0 < zlen (Data ch) <= MaxBytes (options c)) chs
  /\ forall front last, chs = front ++ [last] ->
       Forall (fun ch => MinBytes (options c) <= zlen (Data ch)) front.
Proof.
  intros Hi Hn Hs. destruct (chunker_New_Ok _ _ _ Hi Hn) as (Hwf & Hc & _).
  destruct (chunk_stream_spec sha256 c pieces Hwf Hc) as (cs & rest & Heq & _ & Hcs & Hr).
  rewrite Heq in Hs. simplify_eq. pose proof (wf_options _ Hwf) as Ho.
  assert (Forall (fun l => MinBytes (options c) <= zlen l <= MaxBytes (options c)) cs) as Hsz.
  { eapply Forall_impl; [exact Hcs|]. intros l Hl. by eapply whole_chunk_size. }
  pose proof (uncut_size _ _ _ Ho Hr). destruct Ho as [Hmin Hmax]. rewrite map_app. split.
  - apply Forall_app. split.
    + apply Forall_map. eapply Forall_impl; [exact Hsz|]. simpl. lia.
    + case_decide as Hd; simpl; constructor; [|done]. simpl. pose proof (zlen_nonneg rest).
      assert (zlen rest <> 0) by (intros ?%zlen_0_nil; done). lia.
  - intros front last Hf.
    set (chs := map _ cs) in Hf.
    assert (Forall (fun ch => MinBytes (options c) <= zlen (Data ch)) chs) as Hfull.
    { apply Forall_map. eapply Forall_impl; [exact Hsz|]. simpl. lia. }
    clearbody chs. destruct (decide (rest = [])).
    + simpl in Hf. rewrite app_nil_r in Hf. subst chs.
      by apply Forall_app in Hfull as [? _].
    + simpl in Hf. by apply app_inj_tail in Hf as [-> _].
Qed.

Definition sample_chunker : Chunker :=
  {| options := sample_options; mask := 3; gear := 0; chunk := [] |}.
Lemma sample_chunker_New : chunker_New sample_options true = Ok sample_chunker.
Proof. reflexivity. Qed.
Lemma sample_average : in_i64 (AverageBytes sample_options).
Proof. unfold in_i64. simpl. lia. Qed.

Lemma chunk_stream_sizes_witness :
  Forall (fun ch => 0 < zlen (Data ch) <= 8)
    (chunk_stream sample_sha sample_chunker [le_bytes 20 123456789]).1.
Proof.
  refine (proj1 (chunk_stream_sizes sample_sha sample_options sample_chunker
    [le_bytes 20 123456789] _ sample_average sample_chunker_New _)).
  vm_compute. reflexivity.
Defined.

(** Content-defined boundaries resynchronise: two streams that both have a
    chunk boundary before a common tail are cut into the same chunks over that
    tail, whatever precedes it. *)
Theorem chunk_stream_resync sha256 o c p1 p2 tail c1 s1 c2 s2 :
  in_i64 (AverageBytes o) -> chunker_New o true = Ok c ->
  chunker_Write sha256 log_emit c [] p1 = (c1, s1, None) -> chunk c1 = [] ->
  chunker_Write sha256 log_emit c [] p2 = (c2, s2, None) -> chunk c2 = [] ->
  exists shared,
    chunk_stream sha256 c [p1; tail] = (s1 ++ shared, None)
    /\ chunk_stream sha256 c [p2; tail] = (s2 ++ shared, None)
    /\ concat (map Data shared) = tail.
Proof.
  intros Hi Hn Hw1 Hc1 Hw2 Hc2. destruct (chunker_New_Ok _ _ _ Hi Hn) as (Hwf & Hc & _).
  destruct (chunk_stream_spec sha256 c [tail] Hwf Hc) as (ds & rest & Ht & Hds).
  pose proof Hds as (Htail & _). simpl in Htail. rewrite app_nil_r in Htail.
  exists (map (fun l => {| Data := l; Digest := sha256 l |})
              (ds ++ (if decide (rest = []) then [] else [rest]))).
  split_and!; cycle 2.
  { rewrite map_map. simpl. rewrite map_id, Htail, concat_app. f_equal.
    case_decide; subst; simpl; by rewrite ?app_nil_r. }
  all: [> apply log_Write_chunking in Hw1 as (_ & _ & _ & _ & cs & -> & Hch); [|done]; rewrite Hc1 in Hch
        | apply log_Write_chunking in Hw2 as (_ & _ & _ & _ & cs & -> & Hch); [|done]; rewrite Hc2 in Hch ].
  all: rewrite Hc in Hch; pose proof (chunking_app _ _ _ _ _ _ _ Hch Hds) as Happ.
  1: destruct (chunk_stream_spec sha256 c [p1; tail] Hwf Hc) as (cs' & rest' & -> & Hall).
  2: destruct (chunk_stream_spec sha256 c [p2; tail] Hwf Hc) as (cs' & rest' & -> & Hall).
  all: simpl in Hall, Happ; destruct (chunking_unique _ _ _ _ _ _ _ Hall Happ) as [-> ->].
  all: by rewrite <- app_assoc, map_app.
Qed.

Lemma chunk_stream_resync_witness :
  exists shared,
    (chunk_stream sample_sha sample_chunker [le_bytes 8 0; le_bytes 9 123456789]).1
      = (chunker_Write sample_sha log_emit sample_chunker [] (le_bytes 8 0)).1.2 ++ shared
    /\ (chunk_stream sample_sha sample_chunker [le_bytes 16 0; le_bytes 9 123456789]).1
      = (chunker_Write sample_sha log_emit sample_chunker [] (le_bytes 16 0)).1.2 ++ shared.
Proof.
  destruct (chunk_stream_resync sample_sha sample_options sample_chunker
    (le_bytes 8 0) (le_bytes 16 0) (le_bytes 9 123456789)
    (chunker_Write sample_sha log_emit sample_chunker [] (le_bytes 8 0)).1.1
    (chunker_Write sample_sha log_emit sample_chunker [] (le_bytes 8 0)).1.2
    (chunker_Write sample_sha log_emit sample_chunker [] (le_bytes 16 0)).1.1
    (chunker_Write sample_sha log_emit sample_chunker [] (le_bytes 16 0)).1.2
    sample_average sample_chunker_New) as (shared & H1 & H2 & _);
    [vm_compute; reflexivity..|].
  exists shared. rewrite H1, H2. split; reflexivity.
Defined.

(** When the callback fails, the chunks emitted before the failure and the
    chunk still held by the chunker account for a prefix of everything written:
    no byte is dropped or emitted twice. *)
Theorem chunker_Write_error {S} sha256 (emit : S -> Chunk -> S * option error)
    c s data c' s' e :
  chunker_wf c -> chunker_Write sha256 emit c s data = (c', s', Some e) ->
  exists s1 cs rest,
    emits emit s (map (fun l => {| Data := l; Digest := sha256 l |}) cs) s1
    /\ emit s1 {| Data := chunk c'; Digest := sha256 (chunk c') |} = (s', Some e)
    /\ chunk c ++ data = concat cs ++ chunk c' ++ rest.
Proof.
  intros Hwf Hw.
  destruct (chunker_Write_spec _ _ _ _ _ _ _ _ Hwf Hw)
    as (_ & _ & cs & _ & s1 & rest & H1 & H2 & _ & H3).
  eauto 8.
Qed.

(** A callback that accepts one chunk and then fails. *)
Definition one_emit (s : list Chunk) (ch : Chunk) : list Chunk * option error :=
  match s with [] => ([ch], None) | _ => (s, Some (errors_new "full")) end.

Lemma chunker_Write_error_witness :
  exists s1 cs rest,
    emits one_emit [] (map (fun l => {| Data := l; Digest := sample_sha l |}) cs) s1
    /\ le_bytes 30 123456789 = concat cs
         ++ chunk (chunker_Write sample_sha one_emit sample_chunker [] (le_bytes 30 123456789)).1.1
         ++ rest.
Proof.
  destruct (chunker_Write_error sample_sha one_emit sample_chunker [] (le_bytes 30 123456789)
    (chunker_Write sample_sha one_emit sample_chunker [] (le_bytes 30 123456789)).1.1
    (chunker_Write sample_sha one_emit sample_chunker [] (le_bytes 30 123456789)).1.2
    (errors_new "full")) as (s1 & cs & rest & H1 & _ & H3);
    [apply (chunker_New_Ok sample_options true _ sample_average sample_chunker_New)
    |vm_compute; reflexivity|].
  exists s1, cs, rest. split; [exact H1|exact H3].
Defined.
