(* ===== verification/Fskitproto.v ===== *)
(** The FSKit wire protocol: [src/internal/fskitproto/codec.go] and
    [protocol.go].

    An [Encoder] is the byte string it has accumulated; its methods append.  A
    [Decoder] is a byte string and an offset; its methods are computations in
    the state/error monad [dec].  Frames are read from a byte stream
    ([ReadFrame]) and written to a [Writer], an interface whose [Write] may
    accept only part of its argument. *)
From S2P Require Import Prelude.

(** ** Constants of protocol.go *)

Definition Version : Z := 2.
Definition HeaderSize : Z := 40.
Definition DefaultMaxPayload : Z := Z.shiftl 32 20.
Definition CapabilityNativeReadFD : Z := Z.shiftl 1 0.
Definition CapabilitySharedReadFD : Z := Z.shiftl 1 1.
Definition CapabilitySharedWindow : Z := Z.shiftl 1 2.
Definition CapabilitySharedFileWindow : Z := Z.shiftl 1 3.
Definition CapabilityContentGeneration : Z := Z.shiftl 1 4.
Definition frameMagic : bytes := map byte_of [67; 70; 83; 80].
Definition descriptorMagic : bytes := map byte_of [67; 70; 83; 82].

(** [time.Time] as seconds since 1970 and nanoseconds; Go's zero time is the
    first instant of year 1. *)
Record GoTime := { Unix : Z; Nanosecond : Z }.
Definition zero_time : GoTime := {| Unix := -62135596800; Nanosecond := 0 |}.
Definition IsZero (t : GoTime) : bool := (Unix t =? -62135596800) && (Nanosecond t =? 0).

Record Frame := {
  f_Kind : Z;
  f_Op : Z;
  f_Flags : Z;
  f_RequestID : Z;
  f_Generation : Z;
  f_Status : Z;
  f_Payload : bytes;
}.

Record Entry := {
  Path : bytes;
  Name : bytes;
  NodeID : Z;
  ParentID : Z;
  Type_ : Z;
  Mode : Z;
  UID : Z;
  GID : Z;
  Size : Z;
  AllocSize : Z;
  ModTime : GoTime;
  ChangeTime : GoTime;
  AccessTime : GoTime;
  NamespaceID : Z;
  ContentGeneration : Z;
}.

Record StatFS := {
  BlockSize : Z;
  IOSize : Z;
  TotalBytes : Z;
  AvailableBytes : Z;
  FreeBytes : Z;
  UsedBytes : Z;
  TotalFiles : Z;
  FreeFiles : Z;
}.

Record Descriptor := {
  d_Generation : Z;
  d_SocketPath : bytes;
  d_Token : bytes;
}.

(** ** Encoder *)

Module Encoder.
Definition t := bytes.
Definition Raw (value : bytes) (e : t) : t := e ++ value.
Definition Uint8 (value : Z) (e : t) : t := e ++ [byte_of value].
Definition Uint16 (value : Z) (e : t) : t := e ++ le_bytes 2 value.
Definition Uint32 (value : Z) (e : t) : t := e ++ le_bytes 4 value.
Definition Uint64 (value : Z) (e : t) : t := e ++ le_bytes 8 value.
Definition Int64 (value : Z) (e : t) : t := Uint64 (u64 value) e.
Definition Bytes (value : bytes) (e : t) : t := Raw value (Uint32 (u32 (zlen value)) e).
Definition String (value : bytes) (e : t) : t := Bytes value e.
Definition Time (value : GoTime) (e : t) : t :=
  if IsZero value then Uint32 0 (Int64 0 e)
  else Uint32 (u32 (Nanosecond value)) (Int64 (Unix value) e).

Definition entry (en : Entry) (includeContentGeneration : bool) (e : t) : t :=
  let e := String (Path en) e in
  let e := String (Name en) e in
  let e := Uint64 (NodeID en) e in
  let e := Uint64 (ParentID en) e in
  let e := Uint8 (Type_ en) e in
  let e := Uint32 (Mode en) e in
  let e := Uint32 (UID en) e in
  let e := Uint32 (GID en) e in
  let e := Uint64 (Size en) e in
  let e := Uint64 (AllocSize en) e in
  let e := Time (ModTime en) e in
  let e := Time (ChangeTime en) e in
  let e := Time (AccessTime en) e in
  let e := Uint64 (NamespaceID en) e in
  if includeContentGeneration then Uint64 (ContentGeneration en) e else e.

Definition EntryForCapabilities (en : Entry) (capabilities : Z) (e : t) : t :=
  entry en (negb (Z.land capabilities CapabilityContentGeneration =? 0)) e.

Definition StatFS (s : StatFS) (e : t) : t :=
  let e := Uint32 (BlockSize s) e in
  let e := Uint32 (IOSize s) e in
  let e := Uint64 (TotalBytes s) e in
  let e := Uint64 (AvailableBytes s) e in
  let e := Uint64 (FreeBytes s) e in
  let e := Uint64 (UsedBytes s) e in
  let e := Uint64 (TotalFiles s) e in
  Uint64 (FreeFiles s) e.
End Encoder.

(** ** Decoder *)

Record DecoderState := { data : bytes; offset : Z }.

Definition dec (A : Type) := DecoderState -> result A * DecoderState.
#[export] Instance dec_mret : MRet dec := fun A a d => (Ok a, d).
#[export] Instance dec_mbind : MBind dec := fun A B f m d =>
  match m d with
  | (Ok a, d) => f a d
  | (Err e, d) => (Err e, d)
  end.
Definition dec_fail {A} (e : error) : dec A := fun d => (Err e, d).
(** Continue with the value or replace the outcome by looking at the error. *)
Definition dec_try {A B} (m : dec A) (k : result A -> dec B) : dec B :=
  fun d => let '(r, d) := m d in k r d.

Module Decoder.
Definition remaining (d : DecoderState) : Z := zlen (data d) - offset d.

Definition Raw (length : Z) : dec bytes := fun d =>
  if (length <? 0) || (remaining d <? length) then
    (Err (errors_new "truncated FSKit protocol payload"), d)
  else
    (Ok (slice (offset d) (offset d + length) (data d)),
     {| data := data d; offset := offset d + length |}).

Definition Uint8 : dec Z := value ← Raw 1; mret (le_val value).
Definition Uint16 : dec Z := value ← Raw 2; mret (le_val value).
Definition Uint32 : dec Z := value ← Raw 4; mret (le_val value).
Definition Uint64 : dec Z := value ← Raw 8; mret (le_val value).
Definition Int64 : dec Z := value ← Uint64; mret (i64 value).

Definition Bytes (limit : Z) : dec bytes :=
  length ← Uint32;
  if (length >? max_int64) || ((limit >? 0) && (length >? u32 limit)) then
    dec_fail (errors_new "FSKit protocol byte field %d exceeds limit %d")
  else Raw length.

Definition String (limit : Z) : dec bytes := value ← Bytes limit; mret value.

Definition Time : dec GoTime :=
  seconds ← Int64;
  nanoseconds ← Uint32;
  if (seconds =? 0) && (nanoseconds =? 0) then mret zero_time
  else if nanoseconds >=? 1000000000 then
    dec_fail (errors_new "invalid FSKit protocol timestamp")
  else mret {| Unix := seconds; Nanosecond := nanoseconds |}.

Definition entry (includeContentGeneration : bool) : dec Entry :=
  path ← String (Z.shiftl 1 20);
  name ← String 4096;
  nodeID ← Uint64;
  parentID ← Uint64;
  typeValue ← Uint8;
  mode ← Uint32;
  uid ← Uint32;
  gid ← Uint32;
  size ← Uint64;
  allocSize ← Uint64;
  modTime ← Time;
  changeTime ← Time;
  accessTime ← Time;
  namespaceID ← Uint64;
  contentGeneration ← (if includeContentGeneration then Uint64 else mret 0);
  mret {| Path := path; Name := name; NodeID := nodeID; ParentID := parentID;
          Type_ := typeValue; Mode := mode; UID := uid; GID := gid; Size := size;
          AllocSize := allocSize; ModTime := modTime; ChangeTime := changeTime;
          AccessTime := accessTime; NamespaceID := namespaceID;
          ContentGeneration := contentGeneration |}.

Definition EntryForCapabilities (capabilities : Z) : dec Entry :=
  entry (negb (Z.land capabilities CapabilityContentGeneration =? 0)).

Definition StatFS : dec StatFS :=
  blockSize ← Uint32;
  ioSize ← Uint32;
  totalBytes ← Uint64;
  availableBytes ← Uint64;
  freeBytes ← Uint64;
  usedBytes ← Uint64;
  totalFiles ← Uint64;
  freeFiles ← Uint64;
  mret {| BlockSize := blockSize; IOSize := ioSize; TotalBytes := totalBytes;
          AvailableBytes := availableBytes; FreeBytes := freeBytes; UsedBytes := usedBytes;
          TotalFiles := totalFiles; FreeFiles := freeFiles |}.

Definition Done : dec unit := fun d =>
  if negb (remaining d =? 0) then
    (Err (errors_new "FSKit protocol payload has %d trailing bytes"), d)
  else (Ok tt, d).
End Decoder.

Definition NewDecoder (l : bytes) : DecoderState := {| data := l; offset := 0 |}.

(** ** Resource descriptors *)

Definition EncodeDescriptor (ds : Descriptor) : result bytes :=
  if d_Generation ds =? 0 then Err (errors_new "descriptor generation is required")
  else if (zlen (d_SocketPath ds) =? 0) || (zlen (d_SocketPath ds) >? 4096) then
    Err (errors_new "descriptor socket path is invalid")
  else if (zlen (d_Token ds) <? 16) || (zlen (d_Token ds) >? 256) then
    Err (errors_new "descriptor token length is invalid")
  else
    let e := Encoder.Raw descriptorMagic [] in
    let e := Encoder.Uint16 Version e in
    let e := Encoder.Uint16 0 e in
    let e := Encoder.Uint64 (d_Generation ds) e in
    let e := Encoder.String (d_SocketPath ds) e in
    let e := Encoder.Bytes (d_Token ds) e in
    Ok e.

Definition DecodeDescriptor_dec : dec Descriptor :=
  dec_try (Decoder.Raw 4) (fun r =>
    match r with
    | Ok magic =>
        if negb (bool_decide (magic = descriptorMagic)) then
          dec_fail (errors_new "invalid FSKit resource descriptor magic")
        else
          version ← Decoder.Uint16;
          if negb (version =? Version) then
            dec_fail (errors_new "unsupported FSKit resource descriptor version %d")
          else
            _ ← Decoder.Uint16;
            dec_try Decoder.Uint64 (fun r =>
              match r with
              | Ok generation =>
                  if generation =? 0 then
                    dec_fail (errors_new "invalid FSKit resource descriptor generation")
                  else
                    dec_try (Decoder.String 4096) (fun r =>
                      match r with
                      | Ok socketPath =>
                          if zlen socketPath =? 0 then
                            dec_fail (errors_new "invalid FSKit resource descriptor socket path")
                          else
                            dec_try (Decoder.Bytes 256) (fun r =>
                              match r with
                              | Ok token =>
                                  if zlen token <? 16 then
                                    dec_fail (errors_new "invalid FSKit resource descriptor token")
                                  else
                                    _ ← Decoder.Done;
                                    mret {| d_Generation := generation;
                                            d_SocketPath := socketPath; d_Token := token |}
                              | Err _ =>
                                  dec_fail (errors_new "invalid FSKit resource descriptor token")
                              end)
                      | Err _ =>
                          dec_fail (errors_new "invalid FSKit resource descriptor socket path")
                      end)
              | Err _ => dec_fail (errors_new "invalid FSKit resource descriptor generation")
              end)
    | Err _ => dec_fail (errors_new "invalid FSKit resource descriptor magic")
    end).

Definition DecodeDescriptor (l : bytes) : result Descriptor :=
  (DecodeDescriptor_dec (NewDecoder l)).1.

(** ** Frames *)

(** [io.ReadFull] of [n] bytes from a stream that ends in EOF. *)
Definition ReadFull (n : Z) (stream : bytes) : result bytes * bytes :=
  if n <=? 0 then (Ok [], stream)
  else if zlen stream =? 0 then (Err io_EOF, [])
  else if zlen stream <? n then (Err io_ErrUnexpectedEOF, [])
  else (Ok (ztake n stream), zdrop n stream).

Definition ReadFrame (stream : bytes) (maxPayload : Z) : result Frame * bytes :=
  let maxPayload := if maxPayload =? 0 then DefaultMaxPayload else maxPayload in
  match ReadFull HeaderSize stream with
  | (Err e, stream) => (Err e, stream)
  | (Ok header, stream) =>
      if negb (bool_decide (slice 0 4 header = frameMagic)) then
        (Err (errors_new "invalid FSKit protocol magic"), stream)
      else if negb (le_val (slice 4 6 header) =? Version) then
        (Err (errors_new "unsupported FSKit protocol version %d"), stream)
      else
        let payloadLength := le_val (slice 32 36 header) in
        if payloadLength >? maxPayload then
          (Err (errors_new "FSKit protocol payload %d exceeds limit %d"), stream)
        else
          match ReadFull payloadLength stream with
          | (Err e, stream) => (Err e, stream)
          | (Ok payload, stream) =>
              (Ok {| f_Kind := le_val (slice 6 7 header);
                     f_Op := le_val (slice 7 8 header);
                     f_Flags := le_val (slice 8 12 header);
                     f_RequestID := le_val (slice 12 20 header);
                     f_Generation := le_val (slice 20 28 header);
                     f_Status := i32 (le_val (slice 28 32 header));
                     f_Payload := payload |}, stream)
          end
  end.

(** [io.Writer]: one [Write] call returns the count it accepted and an error. *)
Class Writer (W : Type) := Write : W -> bytes -> (Z * option error) * W.

(** What [writeAll] relies on: the count says how much of the argument was
    appended to the output. *)
Class WriterLaw (W : Type) `{Writer W} := {
  written : W -> bytes;
  Write_count : forall w d n err w', Write w d = ((n, err), w') -> 0 <= n <= zlen d;
  Write_appends : forall w d n err w',
    Write w d = ((n, err), w') -> written w' = written w ++ ztake n d;
}.

Section Frames.
Context {W : Type} `{Writer W}.

(** [writeAll]: every iteration that goes on has consumed a byte, so as many
    iterations as there are bytes, and one to see the end, are enough. *)
Fixpoint writeAll_loop (fuel : nat) (w : W) (d : bytes) : option (option error * W) :=
  match d with
  | [] => Some (None, w)
  | _ =>
      match fuel with
      | O => None
      | S fuel =>
          let '((n, err), w) := Write w d in
          match err with
          | Some e => Some (Some e, w)
          | None =>
              if n =? 0 then Some (Some io_ErrUnexpectedEOF, w)
              else writeAll_loop fuel w (zdrop n d)
          end
      end
  end.
Definition writeAll (w : W) (d : bytes) : option (option error * W) :=
  writeAll_loop (length d) w d.

Definition frame_header (f : Frame) (payloadLength : Z) : bytes :=
  frameMagic
  ++ le_bytes 2 Version
  ++ [byte_of (f_Kind f)] ++ [byte_of (f_Op f)]
  ++ le_bytes 4 (f_Flags f)
  ++ le_bytes 8 (f_RequestID f)
  ++ le_bytes 8 (f_Generation f)
  ++ le_bytes 4 (u32 (f_Status f))
  ++ le_bytes 4 (u32 payloadLength)
  ++ le_bytes 4 0.

Definition WriteFrameHeader (w : W) (f : Frame) (payloadLength maxPayload : Z)
  : option (option error * W) :=
  let maxPayload := if maxPayload =? 0 then DefaultMaxPayload else maxPayload in
  if (payloadLength <? 0) || (payloadLength >? maxPayload) then
    Some (Some (errors_new "FSKit protocol payload %d exceeds limit %d"), w)
  else writeAll w (frame_header f payloadLength).

Definition WriteFramePayload (w : W) (payload : bytes) : option (option error * W) :=
  writeAll w payload.

Definition WriteFrame (w : W) (f : Frame) (maxPayload : Z) : option (option error * W) :=
  match WriteFrameHeader w f (zlen (f_Payload f)) maxPayload with
  | Some (None, w) => WriteFramePayload w (f_Payload f)
  | r => r
  end.
End Frames.

(** ** Well-formed values *)

Definition time_ok (t : GoTime) : Prop :=
  in_i64 (Unix t) /\ 0 <= Nanosecond t < 1000000000
  /\ ~ (Unix t = 0 /\ Nanosecond t = 0).

Record entry_ok (en : Entry) : Prop := {
  ok_Path : zlen (Path en) <= 2 ^ 20;
  ok_Name : zlen (Name en) <= 4096;
  ok_NodeID : in_u64 (NodeID en);
  ok_ParentID : in_u64 (ParentID en);
  ok_Type : in_u8 (Type_ en);
  ok_Mode : in_u32 (Mode en);
  ok_UID : in_u32 (UID en);
  ok_GID : in_u32 (GID en);
  ok_Size : in_u64 (Size en);
  ok_AllocSize : in_u64 (AllocSize en);
  ok_ModTime : time_ok (ModTime en);
  ok_ChangeTime : time_ok (ChangeTime en);
  ok_AccessTime : time_ok (AccessTime en);
  ok_NamespaceID : in_u64 (NamespaceID en);
  ok_ContentGeneration : in_u64 (ContentGeneration en);
}.

Record statfs_ok (s : StatFS) : Prop := {
  ok_BlockSize : in_u32 (BlockSize s);
  ok_IOSize : in_u32 (IOSize s);
  ok_TotalBytes : in_u64 (TotalBytes s);
  ok_AvailableBytes : in_u64 (AvailableBytes s);
  ok_FreeBytes : in_u64 (FreeBytes s);
  ok_UsedBytes : in_u64 (UsedBytes s);
  ok_TotalFiles : in_u64 (TotalFiles s);
  ok_FreeFiles : in_u64 (FreeFiles s);
}.

Record frame_ok (f : Frame) : Prop := {
  ok_Kind : in_u8 (f_Kind f);
  ok_Op : in_u8 (f_Op f);
  ok_Flags : in_u32 (f_Flags f);
  ok_RequestID : in_u64 (f_RequestID f);
  ok_Generation : in_u64 (f_Generation f);
  ok_Status : in_i32 (f_Status f);
}.

(** The time a decoder returns: the epoch itself is read as the zero time. *)
Definition normal_time (t : GoTime) : GoTime :=
  if (Unix t =? 0) && (Nanosecond t =? 0) then zero_time else t.

(** ** Decoding what was encoded *)

Definition dec_wf (d : DecoderState) : Prop := 0 <= offset d <= zlen (data d).
Definition rest_of (d : DecoderState) : bytes := zdrop (offset d) (data d).

(** [decodes m enc a]: when the remaining input starts with [enc], [m] returns
    [a] and stops just after it. *)
Definition decodes {A} (m : dec A) (enc : bytes) (a : A) : Prop :=
  forall d rest, dec_wf d -> rest_of d = enc ++ rest ->
    exists d', m d = (Ok a, d') /\ dec_wf d' /\ data d' = data d /\ rest_of d' = rest.

Lemma decodes_ret {A} (a : A) : decodes (mret a) [] a.
Proof. intros d rest Hwf Hr. eauto. Qed.

Lemma decodes_bind {A B} (m : dec A) (k : A -> dec B) e1 e2 a b :
  decodes m e1 a -> decodes (k a) e2 b -> decodes (m ≫= k) (e1 ++ e2) b.
Proof.
  intros Hm Hk d rest Hwf Hr. rewrite <- app_assoc in Hr.
  destruct (Hm d _ Hwf Hr) as (d1 & E1 & Hwf1 & Hd1 & Hr1).
  destruct (Hk d1 _ Hwf1 Hr1) as (d2 & E2 & Hwf2 & Hd2 & Hr2).
  exists d2. unfold mbind, dec_mbind. rewrite E1, E2, Hd2, Hd1. auto.
Qed.

Lemma decodes_map {A B} (m : dec A) (f : A -> B) e a b :
  decodes m e a -> f a = b -> decodes (x ← m; mret (f x)) e b.
Proof.
  intros Hm <-. rewrite <- (app_nil_r e). eapply decodes_bind; [done|]. apply decodes_ret.
Qed.

Lemma decodes_try {A B} (m : dec A) (k : result A -> dec B) e1 e2 a b :
  decodes m e1 a -> decodes (k (Ok a)) e2 b -> decodes (dec_try m k) (e1 ++ e2) b.
Proof.
  intros Hm Hk d rest Hwf Hr. rewrite <- app_assoc in Hr.
  destruct (Hm d _ Hwf Hr) as (d1 & E1 & Hwf1 & Hd1 & Hr1).
  destruct (Hk d1 _ Hwf1 Hr1) as (d2 & E2 & Hwf2 & Hd2 & Hr2).
  exists d2. unfold dec_try. rewrite E1, E2, Hd2, Hd1. auto.
Qed.

Lemma decodes_Raw l : decodes (Decoder.Raw (zlen l)) l l.
Proof.
  intros d rest [Hlo Hhi] Hr. unfold Decoder.Raw, Decoder.remaining.
  assert (zlen (data d) - offset d = zlen l + zlen rest) as Hlen.
  { rewrite <- zlen_app, <- Hr. unfold rest_of. len. }
  pose proof (zlen_nonneg l). pose proof (zlen_nonneg rest).
  destruct (_ || _) eqn:E; [apply orb_true_iff in E as [E|E]; zbool; lia|].
  exists {| data := data d; offset := offset d + zlen l |}.
  split_and!; [|split; simpl; lia|done|].
  - do 2 f_equal. unfold slice. replace (_ - offset d) with (zlen l) by lia.
    fold (rest_of d). rewrite Hr. apply ztake_app_exact.
  - unfold rest_of. simpl. rewrite <- zdrop_zdrop by lia. fold (rest_of d).
    rewrite Hr. apply zdrop_app_exact.
Qed.

Lemma decodes_le_bytes n z (m : dec Z) :
  m = (value ← Decoder.Raw (Z.of_nat n); mret (le_val value)) ->
  0 <= z < 256 ^ Z.of_nat n -> decodes m (le_bytes n z) z.
Proof.
  intros -> Hz. eapply decodes_map.
  - rewrite <- (zlen_le_bytes n z) at 1. apply decodes_Raw.
  - rewrite le_val_bytes. by apply Z.mod_small.
Qed.

Lemma decodes_Uint8 z : in_u8 z -> decodes Decoder.Uint8 [byte_of z] z.
Proof. intros. by apply (decodes_le_bytes 1). Qed.
Lemma decodes_Uint16 z : in_u16 z -> decodes Decoder.Uint16 (le_bytes 2 z) z.
Proof. intros. by apply (decodes_le_bytes 2). Qed.
Lemma decodes_Uint32 z : in_u32 z -> decodes Decoder.Uint32 (le_bytes 4 z) z.
Proof. intros. by apply (decodes_le_bytes 4). Qed.
Lemma decodes_Uint64 z : in_u64 z -> decodes Decoder.Uint64 (le_bytes 8 z) z.
Proof. intros. by apply (decodes_le_bytes 8). Qed.
Lemma decodes_Int64 z : in_i64 z -> decodes Decoder.Int64 (le_bytes 8 (u64 z)) z.
Proof.
  intros. eapply decodes_map; [apply decodes_Uint64, u64_range|]. by apply i64_u64.
Qed.

Lemma u32_small z : in_u32 z -> u32 z = z.
Proof. unfold in_u32, u32. intros. by rewrite Z.mod_small. Qed.

Lemma decodes_Bytes limit l :
  0 < limit < 2 ^ 32 -> zlen l <= limit ->
  decodes (Decoder.Bytes limit) (le_bytes 4 (u32 (zlen l)) ++ l) l.
Proof.
  intros Hlim Hl. pose proof (zlen_nonneg l).
  rewrite u32_small by (unfold in_u32; lia). unfold Decoder.Bytes.
  eapply decodes_bind; [apply decodes_Uint32; unfold in_u32; lia|].
  rewrite (u32_small limit) by (unfold in_u32; lia).
  destruct (_ || _) eqn:E; [|apply decodes_Raw].
  apply orb_true_iff in E as [E|E]; zbool; unfold max_int64 in *; lia.
Qed.

Lemma decodes_String limit l :
  0 < limit < 2 ^ 32 -> zlen l <= limit ->
  decodes (Decoder.String limit) (le_bytes 4 (u32 (zlen l)) ++ l) l.
Proof. intros. eapply decodes_map; [by apply decodes_Bytes|done]. Qed.

#[export] Hint Resolve decodes_Uint8 decodes_Uint16 decodes_Uint32 decodes_Uint64
  decodes_Int64 decodes_ret : codexfold.

(** The bytes each composite encoder appends. *)
Definition enc_bytes (l : bytes) : bytes := Encoder.Bytes l [].
Definition enc_time (t : GoTime) : bytes := Encoder.Time t [].

Lemma Bytes_app l e : Encoder.Bytes l e = e ++ enc_bytes l.
Proof. unfold enc_bytes, Encoder.Bytes, Encoder.Raw, Encoder.Uint32. by rewrite <- app_assoc. Qed.
Lemma String_app l e : Encoder.String l e = e ++ enc_bytes l.
Proof. apply Bytes_app. Qed.
Lemma Time_app t e : Encoder.Time t e = e ++ enc_time t.
Proof.
  unfold enc_time, Encoder.Time, Encoder.Int64, Encoder.Uint64, Encoder.Uint32.
  case_match; by rewrite <- app_assoc.
Qed.

Create Rewrite HintDb cf_enc.
#[export] Hint Rewrite String_app Bytes_app Time_app : cf_enc.

(** Expand an encoder into one right-nested concatenation. *)
Ltac expand_encoder :=
  autorewrite with cf_enc;
  unfold Encoder.Raw, Encoder.Uint8, Encoder.Uint16, Encoder.Uint32, Encoder.Uint64;
  rewrite <- ?app_assoc, ?app_nil_l.

Lemma decodes_enc_bytes limit l :
  0 < limit < 2 ^ 32 -> zlen l <= limit -> decodes (Decoder.Bytes limit) (enc_bytes l) l.
Proof. intros. by apply decodes_Bytes. Qed.
Lemma decodes_enc_string limit l :
  0 < limit < 2 ^ 32 -> zlen l <= limit -> decodes (Decoder.String limit) (enc_bytes l) l.
Proof. intros. by apply decodes_String. Qed.

Lemma decodes_enc_time t :
  in_i64 (Unix t) -> 0 <= Nanosecond t < 1000000000 ->
  decodes Decoder.Time (enc_time t) (normal_time t).
Proof.
  intros Hu Hn. unfold Decoder.Time, enc_time, Encoder.Time.
  destruct (IsZero t) eqn:Hz; expand_encoder; unfold Encoder.Int64, Encoder.Uint64; cbn [app].
  - unfold IsZero in Hz. zbool. destruct t as [s n]. cbn [Unix Nanosecond] in *. subst.
    eapply decodes_bind; [apply (decodes_Int64 0); done|].
    rewrite <- (app_nil_r (le_bytes 4 0)).
    eapply decodes_bind; [by apply decodes_Uint32|]. apply decodes_ret.
  - eapply decodes_bind; [by apply decodes_Int64|].
    rewrite <- (app_nil_r (le_bytes 4 _)).
    eapply decodes_bind; [apply decodes_Uint32, u32_range|].
    rewrite u32_small by (unfold in_u32; lia). unfold normal_time.
    destruct ((Unix t =? 0) && (Nanosecond t =? 0)); [apply decodes_ret|].
    destruct (Nanosecond t >=? 1000000000) eqn:E; zbool; [lia|].
    destruct t. apply decodes_ret.
Qed.

Lemma time_ok_normal t : time_ok t -> normal_time t = t.
Proof.
  intros (_ & _ & H). unfold normal_time. destruct (_ && _) eqn:E; [|done].
  zbool. by destruct H.
Qed.

Lemma decodes_time_ok t : time_ok t -> decodes Decoder.Time (enc_time t) t.
Proof.
  intros H. rewrite <- (time_ok_normal t) at 2 by done.
  destruct H as (? & ? & _). by apply decodes_enc_time.
Qed.
#[export] Hint Resolve decodes_time_ok : codexfold.

(** What [EntryForCapabilities] keeps of an entry: the content generation is
    only sent when the peer understands it. *)
Definition visible_entry (include : bool) (en : Entry) : Entry :=
  {| Path := Path en; Name := Name en; NodeID := NodeID en; ParentID := ParentID en;
     Type_ := Type_ en; Mode := Mode en; UID := UID en; GID := GID en; Size := Size en;
     AllocSize := AllocSize en; ModTime := ModTime en; ChangeTime := ChangeTime en;
     AccessTime := AccessTime en; NamespaceID := NamespaceID en;
     ContentGeneration := if include then ContentGeneration en else 0 |}.

Lemma decodes_entry include en :
  entry_ok en ->
  decodes (Decoder.entry include) (Encoder.entry en include []) (visible_entry include en).
Proof.
  intros []. unfold Encoder.entry, Decoder.entry.
  assert (exists tail, (forall e, (if include then Encoder.Uint64 (ContentGeneration en) e else e)
                                  = e ++ tail)
            /\ decodes (if include then Decoder.Uint64 else mret 0) tail
                 (if include then ContentGeneration en else 0)) as (tail & Htail & Hdec).
  { destruct include; eexists; split; eauto with codexfold.
    intros e. by rewrite app_nil_r. }
  rewrite Htail, <- (app_nil_r tail). expand_encoder.
  eapply decodes_bind; [by apply decodes_enc_string|].
  eapply decodes_bind; [by apply decodes_enc_string|].
  repeat (eapply decodes_bind; [by eauto with codexfold|]).
  apply decodes_ret.
Qed.

Lemma decodes_statfs s :
  statfs_ok s -> decodes Decoder.StatFS (Encoder.StatFS s []) s.
Proof.
  intros []. unfold Encoder.StatFS, Decoder.StatFS.
  rewrite <- (app_nil_r (Encoder.Uint64 _ _)). expand_encoder.
  repeat (eapply decodes_bind; [by eauto with codexfold|]).
  destruct s. apply decodes_ret.
Qed.

Lemma decodes_run {A} (m : dec A) enc a :
  decodes m enc a -> exists d', m (NewDecoder enc) = (Ok a, d') /\ Decoder.remaining d' = 0.
Proof.
  intros Hm. destruct (Hm (NewDecoder enc) []) as (d' & E & [Hlo Hhi] & Hd & Hr).
  - split; simpl; [done|]. apply zlen_nonneg.
  - unfold rest_of, NewDecoder. simpl. by rewrite zdrop_0, app_nil_r by lia.
  - exists d'. split; [done|]. unfold Decoder.remaining.
    pose proof (zlen_zdrop (offset d') (data d')) as Hl. unfold rest_of in Hr.
    rewrite Hr, zlen_nil in Hl. lia.
Qed.

(** ** Descriptors *)

Lemma decodes_magic l : zlen l = 4 -> decodes (Decoder.Raw 4) l l.
Proof. intros <-. apply decodes_Raw. Qed.

Definition descriptor_ok (ds : Descriptor) : Prop :=
  in_u64 (d_Generation ds) /\ d_Generation ds <> 0
  /\ 0 < zlen (d_SocketPath ds) <= 4096 /\ 16 <= zlen (d_Token ds) <= 256.

Lemma EncodeDescriptor_Ok ds l :
  EncodeDescriptor ds = Ok l ->
  d_Generation ds <> 0 /\ 0 < zlen (d_SocketPath ds) <= 4096 /\ 16 <= zlen (d_Token ds) <= 256
  /\ l = descriptorMagic ++ le_bytes 2 Version ++ le_bytes 2 0
         ++ le_bytes 8 (d_Generation ds) ++ enc_bytes (d_SocketPath ds)
         ++ enc_bytes (d_Token ds).
Proof.
  unfold EncodeDescriptor. pose proof (zlen_nonneg (d_SocketPath ds)).
  destruct (d_Generation ds =? 0) eqn:E1; [done|].
  destruct (_ || _) eqn:E2; [done|].
  destruct ((zlen (d_Token ds) <? 16) || _) eqn:E3; [done|]. zbool.
  intros H'. simplify_eq. split_and!; try lia. by expand_encoder.
Qed.

(** [m] consumes its whole input [enc] and returns [a]. *)
Definition decodes_all {A} (m : dec A) (enc : bytes) (a : A) : Prop :=
  forall d, dec_wf d -> rest_of d = enc -> exists d', m d = (Ok a, d').

Lemma decodes_all_try {A B} (m : dec A) (k : result A -> dec B) e1 e2 a b :
  decodes m e1 a -> decodes_all (k (Ok a)) e2 b -> decodes_all (dec_try m k) (e1 ++ e2) b.
Proof.
  intros Hm Hk d Hwf Hr. destruct (Hm d _ Hwf Hr) as (d1 & E1 & Hwf1 & _ & Hr1).
  unfold dec_try. rewrite E1. eauto.
Qed.
Lemma decodes_all_bind {A B} (m : dec A) (k : A -> dec B) e1 e2 a b :
  decodes m e1 a -> decodes_all (k a) e2 b -> decodes_all (m ≫= k) (e1 ++ e2) b.
Proof.
  intros Hm Hk d Hwf Hr. destruct (Hm d _ Hwf Hr) as (d1 & E1 & Hwf1 & _ & Hr1).
  unfold mbind, dec_mbind. rewrite E1. eauto.
Qed.
Lemma decodes_all_done {A} (a : A) : decodes_all (_ ← Decoder.Done; mret a) [] a.
Proof.
  intros d [Hlo Hhi] Hr. exists d. unfold mbind, dec_mbind, Decoder.Done, Decoder.remaining.
  pose proof (zlen_zdrop (offset d) (data d)) as Hl. unfold rest_of in Hr.
  rewrite Hr, zlen_nil in Hl. replace (zlen (data d) - offset d) with 0 by lia. done.
Qed.

Lemma decodes_all_descriptor ds :
  descriptor_ok ds ->
  decodes_all DecodeDescriptor_dec
    (descriptorMagic ++ le_bytes 2 Version ++ le_bytes 2 0
     ++ le_bytes 8 (d_Generation ds) ++ enc_bytes (d_SocketPath ds)
     ++ enc_bytes (d_Token ds)) ds.
Proof.
  intros (Hg & Hg0 & Hs & Ht). unfold DecodeDescriptor_dec.
  eapply decodes_all_try; [by apply decodes_magic|].
  rewrite bool_decide_eq_true_2 by done. cbn [negb].
  eapply decodes_all_bind; [by apply decodes_Uint16|]. cbn [negb Z.eqb Version Pos.eqb].
  eapply decodes_all_bind; [by apply decodes_Uint16|].
  eapply decodes_all_try; [by apply decodes_Uint64|].
  destruct (d_Generation ds =? 0) eqn:E; zbool; [done|].
  eapply decodes_all_try; [apply decodes_enc_string; lia|].
  destruct (zlen (d_SocketPath ds) =? 0) eqn:E1; zbool; [lia|].
  rewrite <- (app_nil_r (enc_bytes (d_Token ds))).
  eapply decodes_all_try; [apply decodes_enc_bytes; lia|].
  destruct (zlen (d_Token ds) <? 16) eqn:E2; zbool; [lia|].
  destruct ds. apply decodes_all_done.
Qed.

Lemma Raw_Ok n d l d' :
  Decoder.Raw n d = (Ok l, d') ->
  0 <= n /\ n <= Decoder.remaining d /\ data d' = data d /\ offset d' = offset d + n
  /\ l = slice (offset d) (offset d + n) (data d).
Proof.
  unfold Decoder.Raw. destruct (_ || _) eqn:E; intros H; simplify_eq/=. zbool.
  split_and!; auto; lia.
Qed.

(** ** Frames *)

Lemma ReadFull_app n (l rest : bytes) :
  zlen l = n -> ReadFull n (l ++ rest) = (Ok l, rest).
Proof.
  intros <-. unfold ReadFull. pose proof (zlen_nonneg l). pose proof (zlen_nonneg rest).
  destruct (zlen l <=? 0) eqn:E; zbool.
  - assert (l = []) as -> by (apply zlen_0_nil; lia). done.
  - destruct (zlen (l ++ rest) =? 0) eqn:E1; zbool; [len|].
    destruct (zlen (l ++ rest) <? zlen l) eqn:E2; zbool; [len|].
    by rewrite ztake_app_exact, zdrop_app_exact.
Qed.

Lemma zlen_frame_header f n : zlen (frame_header f n) = HeaderSize.
Proof. reflexivity. Qed.

(** The fields of the fixed-width header, by position. *)
Lemma frame_header_fields f n :
  let h := frame_header f n in
  slice 0 4 h = frameMagic /\ slice 4 6 h = le_bytes 2 Version
  /\ slice 6 7 h = le_bytes 1 (f_Kind f) /\ slice 7 8 h = le_bytes 1 (f_Op f)
  /\ slice 8 12 h = le_bytes 4 (f_Flags f) /\ slice 12 20 h = le_bytes 8 (f_RequestID f)
  /\ slice 20 28 h = le_bytes 8 (f_Generation f)
  /\ slice 28 32 h = le_bytes 4 (u32 (f_Status f)) /\ slice 32 36 h = le_bytes 4 (u32 n).
Proof. repeat split. Qed.

Lemma le_val_small n z : 0 <= z < 256 ^ Z.of_nat n -> le_val (le_bytes n z) = z.
Proof. intros. rewrite le_val_bytes. by apply Z.mod_small. Qed.

Definition payload_limit (maxPayload : Z) : Z :=
  if maxPayload =? 0 then DefaultMaxPayload else maxPayload.

(** A frame is recognised whatever follows it in the stream. *)
Lemma ReadFrame_header f maxPayload rest :
  frame_ok f -> zlen (f_Payload f) < 2 ^ 32 -> zlen (f_Payload f) <= payload_limit maxPayload ->
  ReadFrame (frame_header f (zlen (f_Payload f)) ++ f_Payload f ++ rest) maxPayload
  = (Ok f, rest).
Proof.
  intros [] Hlen Hmax. unfold ReadFrame. fold (payload_limit maxPayload).
  rewrite ReadFull_app by apply zlen_frame_header.
  pose proof (zlen_nonneg (f_Payload f)) as Hn.
  destruct (frame_header_fields f (zlen (f_Payload f)))
    as (-> & -> & -> & -> & -> & -> & -> & -> & ->).
  rewrite bool_decide_eq_true_2 by done.
  rewrite (u32_small (zlen _)) by (unfold in_u32; lia).
  rewrite !le_val_small by
    (first [assumption | apply u32_range | split; [exact Hn|exact Hlen] | split; done]).
  cbn [negb Z.eqb Version Pos.eqb].
  destruct (zlen (f_Payload f) >? payload_limit maxPayload) eqn:E; zbool; [lia|].
  rewrite ReadFull_app by done. rewrite i32_u32 by done. by destruct f.
Qed.

Section WriteAll.
Context {W : Type} `{WriterLaw W}.

Lemma writeAll_loop_total fuel w d :
  (length d <= fuel)%nat ->
  exists err w' n, writeAll_loop fuel w d = Some (err, w')
    /\ written w' = written w ++ ztake n d
    /\ (err = None -> n = zlen d) .
Proof.
  revert w d. induction fuel as [|fuel IH]; intros w d Hf.
  { destruct d; simpl in *; [|lia]. exists None, w, 0. by rewrite app_nil_r. }
  destruct d as [|b d].
  { exists None, w, 0. simpl. by rewrite app_nil_r. }
  cbn [writeAll_loop]. destruct (Write w (b :: d)) as [[n err] w1] eqn:E.
  pose proof (Write_count _ _ _ _ _ E) as Hn. pose proof (Write_appends _ _ _ _ _ E) as Ha.
  destruct err as [e|].
  { exists (Some e), w1, n. split_and!; auto; done. }
  destruct (n =? 0) eqn:E0; zbool.
  { subst. exists (Some io_ErrUnexpectedEOF), w1, 0. split_and!; auto; done. }
  destruct (IH w1 (zdrop n (b :: d))) as (err & w2 & m & -> & Hw & Hm).
  { unfold zdrop. rewrite length_drop. lia. }
  exists err, w2, (n + Z.max 0 m). split_and!; [done| |].
  - rewrite Hw, Ha, <- app_assoc. f_equal. pose proof (slice_join 0 n (n + Z.max 0 m) (b :: d)) as Hj.
    unfold slice in Hj. rewrite Z.sub_0_r, (zdrop_0 0) in Hj by lia. rewrite Z.sub_0_r in Hj.
    rewrite <- Hj by lia. f_equal.
    destruct (Z.le_gt_cases 0 m); [f_equal; lia|]. rewrite !ztake_0 by lia. done.
  - intros ->. specialize (Hm eq_refl). rewrite zlen_zdrop in Hm. lia.
Qed.

Lemma writeAll_total w d :
  exists err w' n, writeAll w d = Some (err, w')
    /\ written w' = written w ++ ztake n d /\ (err = None -> n = zlen d).
Proof. by apply writeAll_loop_total. Qed.
End WriteAll.

(** ** Properties *)

Lemma payload_limit_range m : in_u32 m -> payload_limit m < 2 ^ 32.
Proof. unfold in_u32, payload_limit. intros. case_match; [reflexivity|lia]. Qed.

(** [WriteFrame] always terminates; when it reports success, whatever
    partial writes the connection made, the bytes it put on the wire are read
    back by [ReadFrame] under the same limit as exactly that frame, leaving the
    rest of the stream untouched. *)
Theorem frame_roundtrip {W} `{WriterLaw W} (w : W) f maxPayload :
  frame_ok f -> in_u32 maxPayload ->
  exists err w', WriteFrame w f maxPayload = Some (err, w')
    /\ (err = None -> exists wire, written w' = written w ++ wire
         /\ forall rest, ReadFrame (wire ++ rest) maxPayload = (Ok f, rest)).
Proof.
  intros Hf Hm. unfold WriteFrame, WriteFrameHeader, WriteFramePayload.
  fold (payload_limit maxPayload).
  destruct (_ || _) eqn:E; [eexists _, _; split; [done|]; done|].
  destruct (writeAll_total w (frame_header f (zlen (f_Payload f)))) as ([e|] & w1 & n & -> & Hw1 & Hn).
  { eexists _, _; split; [done|]; done. }
  destruct (writeAll_total w1 (f_Payload f)) as (err & w2 & m & -> & Hw2 & Hn2).
  eexists _, _. split; [done|]. intros ->. rewrite (Hn eq_refl) in Hw1. rewrite (Hn2 eq_refl) in Hw2.
  rewrite ztake_all in Hw1, Hw2 by lia.
  exists (frame_header f (zlen (f_Payload f)) ++ f_Payload f). split.
  - by rewrite Hw2, Hw1, <- app_assoc.
  - intros rest. rewrite <- app_assoc. pose proof (payload_limit_range _ Hm). zbool.
    apply ReadFrame_header; auto; lia.
Qed.

(** A connection that accepts at most three bytes per call. *)
Definition slow_writer := bytes.
#[export] Instance slow_write : Writer slow_writer := fun w d =>
  ((Z.min 3 (zlen d), None), w ++ ztake 3 d).
#[export, refine] Instance slow_writer_law : WriterLaw slow_writer := {| written := fun w => w |}.
Proof.
  - intros w d n err w' H. unfold Write, slow_write in H. simplify_eq.
    pose proof (zlen_nonneg d). lia.
  - intros w d n err w' H. unfold Write, slow_write in H. simplify_eq. f_equal.
    destruct (Z.le_gt_cases 3 (zlen d)); [by rewrite Z.min_l|].
    rewrite Z.min_r, !ztake_all by lia. done.
Defined.

Definition sample_frame : Frame :=
  {| f_Kind := 1; f_Op := 7; f_Flags := 5; f_RequestID := 2 ^ 63 + 9; f_Generation := 12;
     f_Status := -2; f_Payload := le_bytes 6 987654321 |}.
Lemma sample_frame_ok : frame_ok sample_frame.
Proof. split; unfold in_u8, in_u32, in_u64, in_i32; simpl; lia. Qed.

Lemma frame_roundtrip_witness :
  exists w', WriteFrame (W := slow_writer) [] sample_frame 64 = Some (None, w')
    /\ exists wire, w' = [] ++ wire
      /\ forall rest, ReadFrame (wire ++ rest) 64 = (Ok sample_frame, rest).
Proof.
  destruct (frame_roundtrip (W := slow_writer) [] sample_frame 64 sample_frame_ok) as
    (err & w' & H1 & H2); [unfold in_u32; simpl; lia|].
  exists w'. assert (err = None) as He by (vm_compute in H1; congruence). subst err.
  split; [exact H1|]. exact (H2 eq_refl).
Defined.

(** A well-formed entry encoded for a set of negotiated capabilities decodes
    to itself under the same capabilities, consuming every byte; the content
    generation travels exactly when the peer announced it, and is zero
    otherwise. *)
Theorem entry_roundtrip en capabilities :
  entry_ok en ->
  exists d', Decoder.EntryForCapabilities capabilities
               (NewDecoder (Encoder.EntryForCapabilities en capabilities []))
             = (Ok (visible_entry (negb (Z.land capabilities CapabilityContentGeneration =? 0)) en), d')
    /\ Decoder.remaining d' = 0.
Proof. intros Hok. by apply decodes_run, decodes_entry. Qed.

Definition sample_entry : Entry :=
  {| Path := le_bytes 5 77777; Name := le_bytes 2 500; NodeID := 3; ParentID := 2 ^ 64 - 1;
     Type_ := 1; Mode := 420; UID := 501; GID := 20; Size := 123456; AllocSize := 131072;
     ModTime := {| Unix := -5; Nanosecond := 999999999 |}; ChangeTime := zero_time;
     AccessTime := {| Unix := 0; Nanosecond := 1 |}; NamespaceID := 8; ContentGeneration := 44 |}.
Lemma sample_entry_ok : entry_ok sample_entry.
Proof.
  split; unfold time_ok, in_u8, in_u32, in_u64, in_i64; simpl; try (vm_compute; intuition congruence); lia.
Qed.

Lemma entry_roundtrip_witness :
  exists d', Decoder.EntryForCapabilities CapabilityContentGeneration
      (NewDecoder (Encoder.EntryForCapabilities sample_entry CapabilityContentGeneration []))
    = (Ok sample_entry, d') /\ Decoder.remaining d' = 0.
Proof. exact (entry_roundtrip sample_entry CapabilityContentGeneration sample_entry_ok). Defined.

(** C38. A timestamp decodes to itself, except that the Unix epoch itself comes
    back as Go's zero time: the encoding of the zero time and of the epoch is
    the same. *)
Theorem time_roundtrip t :
  in_i64 (Unix t) -> 0 <= Nanosecond t < 1000000000 ->
  exists d', Decoder.Time (NewDecoder (Encoder.Time t [])) = (Ok (normal_time t), d')
    /\ Decoder.remaining d' = 0.
Proof. intros. by apply decodes_run, decodes_enc_time. Qed.

Lemma time_roundtrip_witness :
  exists d', Decoder.Time (NewDecoder (Encoder.Time {| Unix := 0; Nanosecond := 0 |} []))
    = (Ok zero_time, d') /\ Decoder.remaining d' = 0.
Proof.
  apply (time_roundtrip {| Unix := 0; Nanosecond := 0 |}); unfold in_i64; simpl; lia.
Defined.

(** File-system statistics decode to themselves. *)
Theorem statfs_roundtrip s :
  statfs_ok s ->
  exists d', Decoder.StatFS (NewDecoder (Encoder.StatFS s [])) = (Ok s, d')
    /\ Decoder.remaining d' = 0.
Proof. intros. by apply decodes_run, decodes_statfs. Qed.

Lemma statfs_roundtrip_witness :
  exists d', let s := {| BlockSize := 4096; IOSize := 65536; TotalBytes := 2 ^ 40;
    AvailableBytes := 5; FreeBytes := 6; UsedBytes := 7; TotalFiles := 8; FreeFiles := 9 |} in
    Decoder.StatFS (NewDecoder (Encoder.StatFS s [])) = (Ok s, d').
Proof.
  destruct (statfs_roundtrip {| BlockSize := 4096; IOSize := 65536; TotalBytes := 2 ^ 40;
    AvailableBytes := 5; FreeBytes := 6; UsedBytes := 7; TotalFiles := 8; FreeFiles := 9 |})
    as (d' & H & _).
  - split; unfold in_u32, in_u64; simpl; lia.
  - exists d'. exact H.
Defined.

(** A descriptor that [EncodeDescriptor] accepts is read back unchanged. *)
Theorem descriptor_roundtrip ds l :
  in_u64 (d_Generation ds) -> EncodeDescriptor ds = Ok l -> DecodeDescriptor l = Ok ds.
Proof.
  intros Hg (H1 & H2 & H3 & ->)%EncodeDescriptor_Ok. unfold DecodeDescriptor.
  edestruct (decodes_all_descriptor ds) as (d' & ->); [|done|by apply zdrop_0|done].
  done.
Qed.

Definition sample_descriptor : Descriptor :=
  {| d_Generation := 9; d_SocketPath := le_bytes 3 4455; d_Token := le_bytes 16 77 |}.
Lemma descriptor_roundtrip_witness :
  exists l, EncodeDescriptor sample_descriptor = Ok l /\ DecodeDescriptor l = Ok sample_descriptor.
Proof.
  eexists. split; [reflexivity|].
  apply (descriptor_roundtrip sample_descriptor); [unfold in_u64; simpl; lia|reflexivity].
Defined.

Lemma dec_bind_Ok {A B} (m : dec A) (k : A -> dec B) d b d' :
  (m ≫= k) d = (Ok b, d') -> exists a d1, m d = (Ok a, d1) /\ k a d1 = (Ok b, d').
Proof. unfold mbind, dec_mbind. destruct (m d) as [[a|e] d1]; [eauto|done]. Qed.

Lemma fixed_Ok n d z d' :
  dec_wf d -> (value ← Decoder.Raw n; mret (le_val value)) d = (Ok z, d') ->
  0 <= z < 256 ^ n /\ dec_wf d'.
Proof.
  intros [Hlo Hhi] (l & d1 & H1 & H2)%dec_bind_Ok.
  apply Raw_Ok in H1 as (Hn & Hrem & Hd & Ho & ->). unfold mret, dec_mret in H2. simplify_eq.
  unfold Decoder.remaining in Hrem. split.
  - pose proof (le_val_range (slice (offset d) (offset d + n) (data d))) as Hr.
    rewrite zlen_slice in Hr by lia.
    by replace (Z.min _ _) with n in Hr by lia.
  - unfold dec_wf. rewrite Ho, Hd. lia.
Qed.

Lemma Bytes_Ok limit d l d' :
  dec_wf d -> 0 < limit < 2 ^ 32 -> Decoder.Bytes limit d = (Ok l, d') ->
  zlen l <= limit /\ dec_wf d'.
Proof.
  intros Hwf Hlim (n & d1 & H1 & H2)%dec_bind_Ok.
  apply fixed_Ok in H1 as [Hn [Hlo1 Hhi1]]; [|done].
  rewrite (u32_small limit) in H2 by (unfold in_u32; lia).
  destruct (_ || _) eqn:E; [done|]. apply orb_false_iff in E as [_ E].
  apply Raw_Ok in H2 as (Hn' & Hrem & Hd & Ho & ->). unfold Decoder.remaining in Hrem.
  destruct (limit >? 0) eqn:E1; zbool; [|lia]. simpl in E. zbool. split.
  - rewrite zlen_slice by lia. lia.
  - unfold dec_wf. rewrite Ho, Hd. lia.
Qed.

Lemma String_Ok limit d l d' :
  dec_wf d -> 0 < limit < 2 ^ 32 -> Decoder.String limit d = (Ok l, d') ->
  zlen l <= limit /\ dec_wf d'.
Proof.
  intros Hwf Hlim (l' & d1 & H1 & H2)%dec_bind_Ok. unfold mret, dec_mret in H2. simplify_eq.
  by eapply Bytes_Ok.
Qed.

(** Whatever bytes arrive, a descriptor that [DecodeDescriptor] accepts is
    one that [EncodeDescriptor] accepts: nonzero generation, nonempty socket
    path within 4096 bytes, token of 16 to 256 bytes. *)
Theorem descriptor_decode_valid l ds :
  DecodeDescriptor l = Ok ds ->
  descriptor_ok ds /\ exists l', EncodeDescriptor ds = Ok l'.
Proof.
  intros H. assert (descriptor_ok ds) as Hok.
  { unfold DecodeDescriptor in H.
    destruct (DecodeDescriptor_dec (NewDecoder l)) as [r d'] eqn:E. simpl in H. subst r.
    assert (dec_wf (NewDecoder l)) as Hwf by (split; simpl; [done|apply zlen_nonneg]).
    unfold DecodeDescriptor_dec, dec_try in E.
    destruct (Decoder.Raw 4 _) as [[m|] d1] eqn:E1; [|done].
    assert (dec_wf d1) as Hwf1.
    { apply Raw_Ok in E1 as (? & Hr & Hd & Ho & _). unfold dec_wf, Decoder.remaining in *.
      destruct Hwf. rewrite Hd, Ho. lia. }
    case_match; [done|]. apply dec_bind_Ok in E as (v & d2 & E2 & E).
    apply fixed_Ok in E2 as [_ Hwf2]; [|done].
    case_match; [done|]. apply dec_bind_Ok in E as (u & d3 & E3 & E).
    apply fixed_Ok in E3 as [_ Hwf3]; [|done].
    destruct (Decoder.Uint64 d3) as [[g|] d4] eqn:E4; [|done].
    apply fixed_Ok in E4 as [Hg Hwf4]; [|done].
    destruct (g =? 0) eqn:Eg; [done|].
    destruct (Decoder.String 4096 d4) as [[sp|] d5] eqn:E5; [|done].
    apply String_Ok in E5 as [Hsp Hwf5]; [|done|lia].
    destruct (zlen sp =? 0) eqn:Esp; [done|].
    destruct (Decoder.Bytes 256 d5) as [[tk|] d6] eqn:E6; [|done].
    apply Bytes_Ok in E6 as [Htk _]; [|done|lia].
    destruct (zlen tk <? 16) eqn:Etk; [done|].
    apply dec_bind_Ok in E as (? & d7 & _ & E). unfold mret, dec_mret in E. simplify_eq.
    pose proof (zlen_nonneg sp). zbool. unfold descriptor_ok, in_u64. simpl. lia. }
  split; [done|]. destruct Hok as (_ & Hg & Hs & Ht). unfold EncodeDescriptor.
  destruct (d_Generation ds =? 0) eqn:E1; zbool; [done|].
  destruct (_ || _) eqn:E2; [apply orb_true_iff in E2 as [|]; zbool; lia|].
  destruct ((zlen (d_Token ds) <? 16) || _) eqn:E3; [apply orb_true_iff in E3 as [|]; zbool; lia|].
  eauto.
Qed.

Definition sample_wire : bytes :=
  descriptorMagic ++ le_bytes 2 Version ++ le_bytes 2 7 ++ le_bytes 8 9
  ++ enc_bytes (le_bytes 3 4455) ++ enc_bytes (le_bytes 16 77).
Lemma descriptor_decode_valid_witness :
  DecodeDescriptor sample_wire = Ok sample_descriptor
  /\ exists l', EncodeDescriptor sample_descriptor = Ok l'.
Proof.
  split; [vm_compute; reflexivity|].
  apply (descriptor_decode_valid sample_wire sample_descriptor). vm_compute. reflexivity.
Defined.
