(* ===== verification/PackIndex.v ===== *)
(** The pack index: [src/internal/pack/format.go] and
    [src/internal/pack/index_v3.go].

    Versions 1 and 2 are JSON documents checked by [validateIndex].  Version 3
    is a metadata document and two files of fixed-width big-endian records: the
    object records, sorted by digest and searched by bisection, and the block
    records each object refers to.  File contents are byte strings; the
    arithmetic of the Go code on [int64] wraps explicitly. *)
From S2P Require Import Prelude GoStd.

Definition IndexVersion : Z := 2.
Definition IndexKind : string := "pack-v2".
Definition legacyIndexVersion : Z := 1.
Definition legacyIndexKind : string := "pack-v1".
Definition EncodingZstd : string := "zstd".
Definition EncodingRaw : string := "raw".
Definition indexV3Version : Z := 3.
Definition indexV3Kind : string := "pack-v3".
Definition objectV3RecordBytes : Z := 52.
Definition blockV3RecordBytes : Z := 69.

Record Block := {
  b_Pack : string;
  b_PackOffset : Z;
  b_StoredBytes : Z;
  b_RawOffset : Z;
  b_RawBytes : Z;
  b_SHA256 : string;
  b_Encoding : string;
}.

Record Object := {
  o_SHA256 : string;
  o_RawBytes : Z;
  o_Blocks : list Block;
}.

Record Index := {
  i_Version : Z;
  i_Kind : string;
  i_Generation : string;
  i_BlockBytes : Z;
  i_Objects : list Object;
}.

Definition strlen (s : string) : Z := Z.of_nat (String.length s).
Definition string_eqb (a b : string) : bool := bool_decide (a = b).

(** ** format.go *)

Definition safeGeneration (generation : string) : bool :=
  negb (string_eqb generation "") && negb (string_eqb generation ".")
  && negb (string_eqb generation "..") && string_eqb (filepath_Base generation) generation.

(** The guard on one block, [expectedOffset] being the end of the previous one. *)
Definition block_invalid (expectedOffset : Z) (b : Block) : bool :=
  negb (string_eqb (filepath_Base (b_Pack b)) (b_Pack b))
  || string_eqb (b_Pack b) "." || string_eqb (b_Pack b) ".."
  || (b_PackOffset b <? 0) || (b_StoredBytes b <=? 0) || (b_StoredBytes b >? max_int64)
  || (b_RawBytes b <=? 0) || negb (b_RawOffset b =? expectedOffset)
  || negb (strlen (b_SHA256 b) =? 64).

Definition encoding_invalid (current : bool) (b : Block) : bool :=
  negb (string_eqb (b_Encoding b) EncodingZstd)
  && (negb current || negb (string_eqb (b_Encoding b) EncodingRaw)).

Fixpoint validate_blocks (current : bool) (expectedOffset : Z) (blocks : list Block)
  : result Z :=
  match blocks with
  | [] => Ok expectedOffset
  | b :: blocks =>
      if block_invalid expectedOffset b then
        Err (errors_new "invalid block %d for object %s")
      else if encoding_invalid current b then
        Err (errors_new "invalid block encoding %q for object %s")
      else validate_blocks current (i64 (expectedOffset + b_RawBytes b)) blocks
  end.

Fixpoint validate_objects (current : bool) (seen : gset string) (objects : list Object)
  : result unit :=
  match objects with
  | [] => Ok tt
  | o :: objects =>
      if negb (strlen (o_SHA256 o) =? 64) || (o_RawBytes o <? 0) then
        Err (errors_new "invalid pack object %d")
      else if bool_decide (o_SHA256 o ∈ seen) then
        Err (errors_new "duplicate pack object %s")
      else
        match validate_blocks current 0 (o_Blocks o) with
        | Err e => Err e
        | Ok expectedOffset =>
            if negb (expectedOffset =? o_RawBytes o) then
              Err (errors_new "object %s block bytes %d, want %d")
            else validate_objects current ({[o_SHA256 o]} ∪ seen) objects
        end
  end.

Definition validateIndex (index : Index) : result unit :=
  let current := (i_Version index =? IndexVersion) && string_eqb (i_Kind index) IndexKind in
  let legacy := (i_Version index =? legacyIndexVersion)
                && string_eqb (i_Kind index) legacyIndexKind in
  if negb current && negb legacy then
    Err (errors_new "unsupported pack index version=%d kind=%q")
  else if negb (safeGeneration (i_Generation index)) || (i_BlockBytes index <=? 0) then
    Err (errors_new "invalid pack index generation or block size")
  else validate_objects current ∅ (i_Objects index).

Definition normalize_block (b : Block) : Block :=
  if string_eqb (b_Encoding b) "" then
    {| b_Pack := b_Pack b; b_PackOffset := b_PackOffset b; b_StoredBytes := b_StoredBytes b;
       b_RawOffset := b_RawOffset b; b_RawBytes := b_RawBytes b; b_SHA256 := b_SHA256 b;
       b_Encoding := EncodingZstd |}
  else b.

Definition normalizeLegacyIndex (index : Index) : Index :=
  if negb (i_Version index =? legacyIndexVersion)
     || negb (string_eqb (i_Kind index) legacyIndexKind)
  then index
  else {| i_Version := i_Version index; i_Kind := i_Kind index;
          i_Generation := i_Generation index; i_BlockBytes := i_BlockBytes index;
          i_Objects := map (fun o => {| o_SHA256 := o_SHA256 o; o_RawBytes := o_RawBytes o;
                                        o_Blocks := map normalize_block (o_Blocks o) |})
                         (i_Objects index) |}.

(** ** index_v3.go *)

Record indexV3Meta := {
  m_Version : Z;
  m_Kind : string;
  m_Generation : string;
  m_BlockBytes : Z;
  m_ObjectCount : Z;
  m_BlockCount : Z;
  m_Packs : list string;
}.

Record objectV3Record := {
  or_Digest : bytes;
  or_RawBytes : Z;
  or_FirstBlock : Z;
  or_BlockCount : Z;
}.

Record blockV3Record := {
  br_PackIndex : Z;
  br_PackOffset : Z;
  br_StoredBytes : Z;
  br_RawOffset : Z;
  br_RawBytes : Z;
  br_Digest : bytes;
  br_Encoding : Z;
}.

(** An opened index: its metadata and the contents of its two files. *)
Record indexV3 := {
  meta : indexV3Meta;
  objects : bytes;
  blocks : bytes;
}.

Fixpoint validate_packs (seen : gset string) (packs : list string) : result unit :=
  match packs with
  | [] => Ok tt
  | name :: packs =>
      if negb (string_eqb (filepath_Base name) name) || string_eqb name "." || string_eqb name ".."
      then Err (errors_new "unsafe pack filename %q")
      else if bool_decide (name ∈ seen) then Err (errors_new "duplicate pack filename %q")
      else validate_packs ({[name]} ∪ seen) packs
  end.

Definition validateIndexV3Meta (m : indexV3Meta) (directoryName : string) : result unit :=
  if negb (m_Version m =? indexV3Version) || negb (string_eqb (m_Kind m) indexV3Kind) then
    Err (errors_new "unsupported pack v3 metadata version=%d kind=%q")
  else if negb (safeGeneration (m_Generation m)) || (m_BlockBytes m <=? 0)
          || (m_ObjectCount m <? 0) || (m_BlockCount m <? 0) then
    Err (errors_new "invalid pack v3 metadata")
  else if negb (string_eqb directoryName (m_Generation m))
          && negb (String.prefix ".generation-" directoryName) then
    Err (errors_new "pack index generation %q does not match directory %q")
  else validate_packs ∅ (m_Packs m).

Definition validateSizes (i : indexV3) : result unit :=
  if (m_ObjectCount (meta i) >? max_int64 / objectV3RecordBytes)
     || negb (zlen (objects i) =? i64 (m_ObjectCount (meta i) * objectV3RecordBytes)) then
    Err (errors_new "pack v3 object index size mismatch")
  else if (m_BlockCount (meta i) >? max_int64 / blockV3RecordBytes)
     || negb (zlen (blocks i) =? i64 (m_BlockCount (meta i) * blockV3RecordBytes)) then
    Err (errors_new "pack v3 block index size mismatch")
  else Ok tt.

Definition openIndexV3 (directoryName : string) (m : indexV3Meta) (objects blocks : bytes)
  : result indexV3 :=
  match validateIndexV3Meta m directoryName with
  | Err e => Err e
  | Ok _ =>
      let index := {| meta := m; objects := objects; blocks := blocks |} in
      match validateSizes index with
      | Err e => Err e
      | Ok _ => Ok index
      end
  end.

Definition encodeObjectV3 (r : objectV3Record) : bytes :=
  or_Digest r ++ be_bytes 8 (u64 (or_RawBytes r)) ++ be_bytes 8 (u64 (or_FirstBlock r))
  ++ be_bytes 4 (or_BlockCount r).

Definition encodeBlockV3 (r : blockV3Record) : bytes :=
  be_bytes 4 (br_PackIndex r) ++ be_bytes 8 (u64 (br_PackOffset r))
  ++ be_bytes 8 (u64 (br_StoredBytes r)) ++ be_bytes 8 (u64 (br_RawOffset r))
  ++ be_bytes 8 (u64 (br_RawBytes r)) ++ br_Digest r ++ [byte_of (br_Encoding r)].

Definition decode_object (data : bytes) : objectV3Record :=
  {| or_Digest := slice 0 32 data;
     or_RawBytes := i64 (be_val (slice 32 40 data));
     or_FirstBlock := i64 (be_val (slice 40 48 data));
     or_BlockCount := be_val (slice 48 52 data) |}.

Definition decode_block (data : bytes) : blockV3Record :=
  {| br_PackIndex := be_val (slice 0 4 data);
     br_PackOffset := i64 (be_val (slice 4 12 data));
     br_StoredBytes := i64 (be_val (slice 12 20 data));
     br_RawOffset := i64 (be_val (slice 20 28 data));
     br_RawBytes := i64 (be_val (slice 28 36 data));
     br_Digest := slice 36 68 data;
     br_Encoding := be_val (slice 68 69 data) |}.

Definition readObjectRecord (i : indexV3) (position : Z) : result objectV3Record :=
  if (position <? 0) || (position >=? m_ObjectCount (meta i)) then Err io_EOF
  else match file_ReadAt (objects i) objectV3RecordBytes (i64 (position * objectV3RecordBytes)) with
       | Err e => Err e
       | Ok data => Ok (decode_object data)
       end.

Definition readBlockRecord (i : indexV3) (position : Z) : result blockV3Record :=
  if (position <? 0) || (position >=? m_BlockCount (meta i)) then Err io_EOF
  else match file_ReadAt (blocks i) blockV3RecordBytes (i64 (position * blockV3RecordBytes)) with
       | Err e => Err e
       | Ok data => Ok (decode_block data)
       end.

(** The loop of [expandObject]: [n] more blocks from record [position]. *)
Fixpoint expand_blocks (i : indexV3) (n : nat) (position expectedOffset : Z)
  : result (list Block * Z) :=
  match n with
  | O => Ok ([], expectedOffset)
  | S n =>
      match readBlockRecord i position with
      | Err e => Err e
      | Ok block =>
          if (br_PackIndex block >=? zlen (m_Packs (meta i))) || (br_PackOffset block <? 0)
             || (br_StoredBytes block <=? 0) || (br_RawBytes block <=? 0)
             || negb (br_RawOffset block =? expectedOffset)
          then Err (errors_new "invalid pack v3 block for object %s")
          else if negb (br_Encoding block =? 1) && negb (br_Encoding block =? 0)
          then Err (errors_new "invalid pack v3 block encoding %d")
          else
            let b := {| b_Pack := nth (Z.to_nat (br_PackIndex block)) (m_Packs (meta i)) "";
                        b_PackOffset := br_PackOffset block;
                        b_StoredBytes := br_StoredBytes block;
                        b_RawOffset := br_RawOffset block;
                        b_RawBytes := br_RawBytes block;
                        b_SHA256 := hex_EncodeToString (br_Digest block);
                        b_Encoding := if br_Encoding block =? 1 then EncodingRaw else EncodingZstd |} in
            match expand_blocks i n (position + 1) (i64 (expectedOffset + br_RawBytes block)) with
            | Err e => Err e
            | Ok (bs, off) => Ok (b :: bs, off)
            end
      end
  end.

Definition expandObject (i : indexV3) (record : objectV3Record) : result Object :=
  if (or_RawBytes record <? 0) || (or_FirstBlock record <? 0)
     || (or_BlockCount record >? i64 (m_BlockCount (meta i) - or_FirstBlock record)) then
    Err (errors_new "invalid pack v3 object record")
  else
    match expand_blocks i (Z.to_nat (or_BlockCount record)) (or_FirstBlock record) 0 with
    | Err e => Err e
    | Ok (bs, expectedOffset) =>
        if negb (expectedOffset =? or_RawBytes record) then
          Err (errors_new "object %s block bytes %d, want %d")
        else Ok {| o_SHA256 := hex_EncodeToString (or_Digest record);
                   o_RawBytes := or_RawBytes record; o_Blocks := bs |}
    end.

Definition objectAt (i : indexV3) (position : Z) : result Object :=
  match readObjectRecord i position with
  | Err e => Err e
  | Ok record => expandObject i record
  end.

Definition decodeDigest (value : string) : result bytes :=
  match hex_DecodeString value with
  | Some decoded =>
      if zlen decoded =? 32 then Ok decoded else Err (errors_new "invalid SHA-256 %q")
  | None => Err (errors_new "invalid SHA-256 %q")
  end.

(** The bisection loop of [lookup]; it halves the interval, so the number of
    objects is more than enough fuel. *)
Fixpoint lookup_loop (fuel : nat) (i : indexV3) (want : bytes) (lo hi : Z)
  : option (result Z) :=
  if lo <? hi then
    match fuel with
    | O => None
    | S fuel =>
        let middle := lo + (hi - lo) / 2 in
        match readObjectRecord i middle with
        | Err e => Some (Err e)
        | Ok record =>
            match bytes_Compare (or_Digest record) want with
            | Lt => lookup_loop fuel i want (middle + 1) hi
            | _ => lookup_loop fuel i want lo middle
            end
        end
    end
  else Some (Ok lo).

(** [None] only if the fuel ran out; the result is Go's [(Object, bool, error)]. *)
Definition lookupV3 (i : indexV3) (digest : string) : option (result (option Object)) :=
  match decodeDigest digest with
  | Err e => Some (Err e)
  | Ok want =>
      match lookup_loop (Z.to_nat (m_ObjectCount (meta i))) i want 0 (m_ObjectCount (meta i)) with
      | None => None
      | Some (Err e) => Some (Err e)
      | Some (Ok lo) =>
          if lo >=? m_ObjectCount (meta i) then Some (Ok None)
          else
            match readObjectRecord i lo with
            | Err e => Some (Err e)
            | Ok record =>
                if negb (bool_decide (or_Digest record = want)) then Some (Ok None)
                else match expandObject i record with
                     | Err e => Some (Err e)
                     | Ok object => Some (Ok (Some object))
                     end
            end
      end
  end.

(** ** Well-formed records and indexes *)

Record object_record_ok (r : objectV3Record) : Prop := {
  ok_or_Digest : zlen (or_Digest r) = 32;
  ok_or_RawBytes : in_i64 (or_RawBytes r);
  ok_or_FirstBlock : in_i64 (or_FirstBlock r);
  ok_or_BlockCount : in_u32 (or_BlockCount r);
}.
Record block_record_ok (r : blockV3Record) : Prop := {
  ok_br_PackIndex : in_u32 (br_PackIndex r);
  ok_br_PackOffset : in_i64 (br_PackOffset r);
  ok_br_StoredBytes : in_i64 (br_StoredBytes r);
  ok_br_RawOffset : in_i64 (br_RawOffset r);
  ok_br_RawBytes : in_i64 (br_RawBytes r);
  ok_br_Digest : zlen (br_Digest r) = 32;
  ok_br_Encoding : in_u8 (br_Encoding r);
}.

(** [tiles off bs fin]: the blocks are nonempty and cover [[off,fin)] in order. *)
Fixpoint tiles (off : Z) (bs : list Block) (fin : Z) : Prop :=
  match bs with
  | [] => off = fin
  | b :: bs => b_RawOffset b = off /\ 0 < b_RawBytes b /\ tiles (off + b_RawBytes b) bs fin
  end.
Definition raw_total (bs : list Block) : Z := foldr (fun b n => b_RawBytes b + n) 0 bs.

(** ** Lemmas *)

Lemma be_val_small n z : 0 <= z < 256 ^ Z.of_nat n -> be_val (be_bytes n z) = z.
Proof. intros. rewrite be_val_bytes. by apply Z.mod_small. Qed.

Lemma zlen_be_bytes n z : zlen (be_bytes n z) = Z.of_nat n.
Proof. unfold zlen. by rewrite length_be_bytes. Qed.
#[export] Hint Rewrite zlen_be_bytes : cf_len.


(** Read the field [l] out of a concatenation whose first parts are given. *)
Ltac field p l k :=
  match goal with
  | |- context [slice ?a ?b ?data] =>
      replace (slice a b data) with l
        by (symmetry;
            replace data with (p ++ l ++ k)
              by (rewrite <- ?app_assoc; rewrite ?app_nil_l, ?app_nil_r; reflexivity);
            apply slice_app_mid; autorewrite with cf_len; lia)
  end.

Lemma decode_encode_object r : object_record_ok r -> decode_object (encodeObjectV3 r) = r.
Proof.
  intros [Hd Hr Hf Hc]. unfold decode_object, encodeObjectV3. destruct r as [d rb fb bc].
  cbn [or_Digest or_RawBytes or_FirstBlock or_BlockCount] in *. f_equal.
  - by field (@nil byte) d (be_bytes 8 (u64 rb) ++ be_bytes 8 (u64 fb) ++ be_bytes 4 bc).
  - field d (be_bytes 8 (u64 rb)) (be_bytes 8 (u64 fb) ++ be_bytes 4 bc).
    rewrite be_val_small by apply u64_range. by apply i64_u64.
  - field (d ++ be_bytes 8 (u64 rb)) (be_bytes 8 (u64 fb)) (be_bytes 4 bc).
    rewrite be_val_small by apply u64_range. by apply i64_u64.
  - field (d ++ be_bytes 8 (u64 rb) ++ be_bytes 8 (u64 fb)) (be_bytes 4 bc) (@nil byte).
    by apply be_val_small.
Qed.

Lemma decode_encode_block r : block_record_ok r -> decode_block (encodeBlockV3 r) = r.
Proof.
  intros [Hp Ho Hs Hro Hr Hd He]. unfold decode_block, encodeBlockV3.
  destruct r as [pi po st ro rb d en].
  cbn [br_PackIndex br_PackOffset br_StoredBytes br_RawOffset br_RawBytes br_Digest br_Encoding] in *.
  set (f1 := be_bytes 4 pi). set (f2 := be_bytes 8 (u64 po)). set (f3 := be_bytes 8 (u64 st)).
  set (f4 := be_bytes 8 (u64 ro)). set (f5 := be_bytes 8 (u64 rb)).
  assert (zlen f1 = 4 /\ zlen f2 = 8 /\ zlen f3 = 8 /\ zlen f4 = 8 /\ zlen f5 = 8)
    as (H1 & H2 & H3 & H4 & H5) by (subst f1 f2 f3 f4 f5; split_and!; apply zlen_be_bytes).
  f_equal.
  - field (@nil byte) f1 (f2 ++ f3 ++ f4 ++ f5 ++ d ++ [byte_of en]). by apply be_val_small.
  - field f1 f2 (f3 ++ f4 ++ f5 ++ d ++ [byte_of en]).
    subst f2. rewrite be_val_small by apply u64_range. by apply i64_u64.
  - field (f1 ++ f2) f3 (f4 ++ f5 ++ d ++ [byte_of en]).
    subst f3. rewrite be_val_small by apply u64_range. by apply i64_u64.
  - field (f1 ++ f2 ++ f3) f4 (f5 ++ d ++ [byte_of en]).
    subst f4. rewrite be_val_small by apply u64_range. by apply i64_u64.
  - field (f1 ++ f2 ++ f3 ++ f4) f5 (d ++ [byte_of en]).
    subst f5. rewrite be_val_small by apply u64_range. by apply i64_u64.
  - by field (f1 ++ f2 ++ f3 ++ f4 ++ f5) d [byte_of en].
  - field (f1 ++ f2 ++ f3 ++ f4 ++ f5 ++ d) [byte_of en] (@nil byte).
    change [byte_of en] with (be_bytes 1 en). by apply be_val_small.
Qed.

(** A file of records of [n] bytes each. *)
Lemma slice_concat_fixed (n : Z) (ls : list bytes) k l :
  Forall (fun l => zlen l = n) ls -> ls !! k = Some l ->
  slice (Z.of_nat k * n) (Z.of_nat k * n + n) (concat ls) = l.
Proof.
  intros Hall Hk. rewrite <- (take_drop_middle ls k l Hk), concat_app. cbn [concat].
  assert (Forall (fun l => zlen l = n) (take k ls)) as Ht by by apply Forall_take.
  assert (zlen (concat (take k ls)) = Z.of_nat k * n) as Hlen.
  { apply lookup_lt_Some in Hk. clear Hall. revert Ht.
    assert (length (take k ls) = k) as Hl by (rewrite length_take; lia).
    revert Hl. generalize (take k ls). clear. intros l. revert k.
    induction l as [|x l IH]; intros k Hl H; simpl in *.
    - subst. rewrite zlen_nil. lia.
    - apply Forall_cons in H as [Hx H]. rewrite zlen_app, (IH (length l)) by done. lia. }
  apply slice_app_mid; [done|].
  rewrite Forall_forall in Hall. rewrite (Hall l) by (apply list_elem_of_lookup; eauto). lia.
Qed.

(** The record at a position of the object file. *)
Definition record_at (i : indexV3) (k : Z) : objectV3Record :=
  decode_object (slice (k * objectV3RecordBytes) (k * objectV3RecordBytes + objectV3RecordBytes) (objects i)).

Lemma record_offset_no_wrap count size k :
  0 < size -> 0 <= k < count -> count <= max_int64 / size ->
  i64 (k * size) = k * size /\ 0 <= k * size /\ k * size + size <= count * size.
Proof.
  intros Hs Hk Hc. assert (count * size <= max_int64) as Hm.
  { apply Z.le_trans with (max_int64 / size * size); [nia|].
    rewrite Z.mul_comm. by apply Z.mul_div_le. }
  assert (k * size + size <= count * size) by nia.
  split_and!; [|nia|done]. apply i64_id. unfold in_i64, max_int64 in *. nia.
Qed.

Record index_sized (i : indexV3) : Prop := {
  sized_nonneg : 0 <= m_ObjectCount (meta i);
  sized_objects : m_ObjectCount (meta i) <= max_int64 / objectV3RecordBytes
                  /\ zlen (objects i) = m_ObjectCount (meta i) * objectV3RecordBytes;
}.

Lemma validateSizes_sized i :
  0 <= m_ObjectCount (meta i) -> validateSizes i = Ok tt -> index_sized i.
Proof.
  intros Hn H. unfold validateSizes in H. destruct (_ || _) eqn:E; [done|]. zbool.
  split; [done|]. split; [done|].
  match goal with H : zlen _ = i64 _ |- _ => rewrite H end.
  apply i64_id. unfold in_i64, max_int64, objectV3RecordBytes in *.
  assert (m_ObjectCount (meta i) * 52 <= (2 ^ 63 - 1) / 52 * 52) by nia.
  pose proof (Z.mul_div_le (2 ^ 63 - 1) 52). lia.
Qed.

Section Lookup.
Context (i : indexV3) (Hsized : index_sized i).
Let count := m_ObjectCount (meta i).

(** Strictly increasing digests, as checked when a resolver is opened. *)
Definition digests_sorted (i : indexV3) : Prop :=
  forall a b, 0 <= a < b -> b < m_ObjectCount (meta i) ->
    bytes_lt (or_Digest (record_at i a)) (or_Digest (record_at i b)).
Context (Hsorted : digests_sorted i).

Lemma readObjectRecord_at k : 0 <= k < count -> readObjectRecord i k = Ok (record_at i k).
Proof using Hsized.
  intros Hk. destruct Hsized as [Hn [Hc Hlen]].
  destruct (record_offset_no_wrap _ objectV3RecordBytes k eq_refl Hk Hc) as (Hw & Hlo & Hhi).
  unfold readObjectRecord. fold count.
  destruct (_ || _) eqn:E; [apply orb_true_iff in E as [E|E]; zbool; lia|].
  rewrite Hw, file_ReadAt_Ok by (unfold objectV3RecordBytes in *; lia). done.
Qed.

Lemma lookup_loop_spec want fuel lo hi :
  0 <= lo <= hi -> hi <= count -> hi - lo <= Z.of_nat fuel ->
  exists r, lookup_loop fuel i want lo hi = Some (Ok r) /\ lo <= r <= hi
    /\ (forall k, lo <= k < r -> bytes_lt (or_Digest (record_at i k)) want)
    /\ (forall k, r <= k < hi -> ~ bytes_lt (or_Digest (record_at i k)) want).
Proof using Hsized Hsorted.
  revert lo hi. induction fuel as [|fuel IH]; intros lo hi Hlo Hhi Hf; cbn [lookup_loop].
  all: destruct (lo <? hi) eqn:E; zbool; try lia;
    try (exists lo; split_and!; [done|lia..|intros; lia|intros; lia]).
  assert (lo <= lo + (hi - lo) / 2 < hi) as Hm.
  { pose proof (Z.div_lt_upper_bound (hi - lo) 2 (hi - lo)). pose proof (Z.div_pos (hi - lo) 2). lia. }
  set (mid := lo + (hi - lo) / 2) in *. rewrite readObjectRecord_at by lia.
  destruct (bytes_Compare _ want) eqn:Ec.
  2: { destruct (IH (mid + 1) hi) as (r & -> & Hr & H1 & H2); [lia..|].
    exists r. split_and!; [done|lia..| |done]. intros k Hk.
    destruct (Z.lt_ge_cases mid k); [apply H1; lia|].
    destruct (Z.eq_dec k mid) as [->|]; [done|]. etrans; [|exact Ec].
    apply Hsorted; [|unfold count in *]; lia. }
  all: destruct (IH lo mid) as (r & -> & Hr & H1 & H2); [lia..|];
    exists r; split_and!; [done|lia..|done|]; intros k Hk Hlt.
  all: destruct (Z.lt_ge_cases k mid); [apply (H2 k); [lia|done]|].
  all: assert (bytes_lt (or_Digest (record_at i mid)) want) as Hbad; [|unfold bytes_lt in Hbad; congruence].
  all: destruct (Z.eq_dec k mid) as [->|]; [done|]; etrans; [|exact Hlt].
  all: apply Hsorted; [|unfold count in *]; lia.
Qed.

Lemma digest_inj a b :
  0 <= a < count -> 0 <= b < count ->
  or_Digest (record_at i a) = or_Digest (record_at i b) -> a = b.
Proof using Hsorted.
  intros Ha Hb He. destruct (Z.lt_trichotomy a b) as [Hlt|[?|Hlt]]; [exfalso|done|exfalso].
  - assert (bytes_lt (or_Digest (record_at i a)) (or_Digest (record_at i b))) as H.
    { apply Hsorted; [|unfold count in *]; lia. } rewrite He in H. exact (bytes_lt_irrefl _ H).
  - assert (bytes_lt (or_Digest (record_at i b)) (or_Digest (record_at i a))) as H.
    { apply Hsorted; [|unfold count in *]; lia. } rewrite He in H. exact (bytes_lt_irrefl _ H).
Qed.

(** [lookup] finds exactly the record whose digest is asked for. *)
Lemma lookupV3_spec digest want :
  decodeDigest digest = Ok want ->
  (forall k, 0 <= k < count -> or_Digest (record_at i k) = want ->
     lookupV3 i digest = Some (match expandObject i (record_at i k) with
                               | Err e => Err e
                               | Ok o => Ok (Some o)
                               end))
  /\ ((forall k, 0 <= k < count -> or_Digest (record_at i k) <> want) ->
      lookupV3 i digest = Some (Ok None)).
Proof using Hsized Hsorted.
  intros Hd. unfold lookupV3. rewrite Hd. fold count.
  assert (0 <= count) as Hcount by apply Hsized.
  destruct (lookup_loop_spec want (Z.to_nat count) 0 count) as (r & -> & Hr & Hbelow & Habove);
    [lia..|]. split.
  - intros k Hk Hdig. assert (r = k) as ->.
    { destruct (Z.lt_ge_cases k r).
      - exfalso. specialize (Hbelow k ltac:(lia)). rewrite Hdig in Hbelow.
        exact (bytes_lt_irrefl _ Hbelow).
      - destruct (Z.eq_dec r k); [done|exfalso]. apply (Habove r); [lia|].
        rewrite <- Hdig. apply Hsorted; [|unfold count in *]; lia. }
    destruct (k >=? count) eqn:E; zbool; [lia|].
    rewrite readObjectRecord_at, bool_decide_eq_true_2 by done. simpl.
    by destruct (expandObject i (record_at i k)).
  - intros Hnone. destruct (r >=? count) eqn:E; zbool; [done|].
    rewrite readObjectRecord_at by lia. rewrite bool_decide_eq_false_2; [done|].
    apply Hnone. lia.
Qed.
End Lookup.

Lemma raw_total_nonneg off bs fin : tiles off bs fin -> 0 <= raw_total bs.
Proof.
  revert off. induction bs as [|b bs IH]; intros off; simpl; [lia|].
  intros (_ & Hb & H). apply IH in H. lia.
Qed.
Lemma tiles_total off bs fin : tiles off bs fin -> fin = off + raw_total bs.
Proof.
  revert off. induction bs as [|b bs IH]; intros off; simpl; [lia|].
  intros (_ & _ & H). apply IH in H. lia.
Qed.

Definition block_positive (b : Block) : Prop :=
  0 <= b_PackOffset b /\ 0 < b_StoredBytes b /\ 0 < b_RawBytes b.

Lemma raw_total_positive bs : Forall block_positive bs -> 0 <= raw_total bs.
Proof. induction 1 as [|b bs (_ & _ & H) _ IH]; simpl; lia. Qed.

(** One step of the accumulation of offsets does not wrap below the maximum. *)
Lemma offset_step off raw rest :
  0 <= off -> 0 < raw -> 0 <= rest -> off + (raw + rest) <= max_int64 -> i64 (off + raw) = off + raw.
Proof. intros. apply i64_id. unfold in_i64, max_int64 in *. lia. Qed.

Lemma expand_blocks_spec i n pos off bs fin :
  expand_blocks i n pos off = Ok (bs, fin) ->
  length bs = n
  /\ Forall (fun b => block_positive b /\ b_Pack b ∈ m_Packs (meta i)
                      /\ (b_Encoding b = EncodingRaw \/ b_Encoding b = EncodingZstd)) bs
  /\ (0 <= off -> off + raw_total bs <= max_int64 -> tiles off bs fin).
Proof.
  revert pos off bs fin. induction n as [|n IH]; intros pos off bs fin H; cbn [expand_blocks] in H.
  { simplify_eq. done. }
  destruct (readBlockRecord i pos) as [r|] eqn:Er; [|done].
  destruct (_ || _) eqn:E; [done|]. destruct (negb _ && _) eqn:E1; [done|].
  destruct (expand_blocks i n _ _) as [[bs' fin']|] eqn:Eb; [|done]. simplify_eq.
  apply IH in Eb as (Hlen & Hall & Ht). zbool.
  assert (0 <= br_PackIndex r) as Hpi.
  { unfold readBlockRecord in Er. repeat case_match; simplify_eq/=. apply le_val_range. }
  split_and!; simpl; [by rewrite Hlen|constructor; [|done]|].
  - split_and!; simpl; [unfold block_positive; simpl; lia| |by case_match; auto].
    apply list_elem_of_In, nth_In. unfold zlen in *. lia.
  - intros Hoff Hsum.
    assert (0 <= raw_total bs') as Hp.
    { apply raw_total_positive. eapply Forall_impl; [exact Hall|]. by intros ? [? _]. }
    rewrite (offset_step off _ (raw_total bs')) in Ht by (simpl in *; lia).
    split_and!; [done|lia|]. apply Ht; lia.
Qed.

Lemma validate_blocks_spec current off bs fin :
  validate_blocks current off bs = Ok fin ->
  Forall (fun b => block_positive b /\ strlen (b_SHA256 b) = 64
            /\ (b_Encoding b = EncodingZstd \/ (current = true /\ b_Encoding b = EncodingRaw))) bs
  /\ (0 <= off -> off + raw_total bs <= max_int64 -> tiles off bs fin).
Proof.
  revert off fin. induction bs as [|b bs IH]; intros off fin H; cbn [validate_blocks] in H.
  { simplify_eq. done. }
  destruct (block_invalid off b) eqn:E; [done|]. destruct (encoding_invalid current b) eqn:E1; [done|].
  apply IH in H as [Hall Ht]. unfold block_invalid in E. zbool. split.
  - constructor; [|done]. split_and!; [unfold block_positive; lia|done|].
    unfold encoding_invalid, string_eqb in E1. destruct (bool_decide_reflect (b_Encoding b = EncodingZstd)); [auto|].
    destruct current; [|done]. destruct (bool_decide_reflect (b_Encoding b = EncodingRaw)); [auto|done].
  - intros Hoff Hsum.
    assert (0 <= raw_total bs) as Hp.
    { apply raw_total_positive. eapply Forall_impl; [exact Hall|]. by intros ? [? _]. }
    rewrite (offset_step off _ (raw_total bs)) in Ht by (simpl in *; lia).
    simpl. split_and!; [done|lia|]. simpl in Hsum. apply Ht; lia.
Qed.

Lemma validate_objects_spec current seen os :
  validate_objects current seen os = Ok tt ->
  NoDup (map o_SHA256 os) /\ Forall (fun o => o_SHA256 o ∉ seen) os
  /\ Forall (fun o => 0 <= o_RawBytes o /\ validate_blocks current 0 (o_Blocks o) = Ok (o_RawBytes o)) os.
Proof.
  revert seen. induction os as [|o os IH]; intros seen H; cbn [validate_objects] in H.
  { split_and!; constructor. }
  destruct (_ || _) eqn:E; [done|]. destruct (bool_decide _) eqn:E1; [done|].
  apply bool_decide_eq_false in E1.
  destruct (validate_blocks _ _ _) as [fin|] eqn:Ev; [|done].
  destruct (negb (fin =? _)) eqn:E2; [done|]. apply IH in H as (Hnd & Hns & Hall). zbool. subst fin.
  split_and!.
  - constructor; [|done]. intros (o' & Heq & Hin)%elem_of_map.
    rewrite Forall_forall in Hns. apply (Hns o' Hin). set_solver.
  - constructor; [done|]. eapply Forall_impl; [exact Hns|]. set_solver.
  - constructor; [done|done].
Qed.

(** ** Properties *)

(** The files of an index built from records in order. *)
Definition built_index (m : indexV3Meta) (rs : list objectV3Record) (bs : list blockV3Record)
  : indexV3 :=
  {| meta := {| m_Version := m_Version m; m_Kind := m_Kind m; m_Generation := m_Generation m;
                m_BlockBytes := m_BlockBytes m; m_ObjectCount := zlen rs; m_BlockCount := zlen bs;
                m_Packs := m_Packs m |};
     objects := concat (map encodeObjectV3 rs);
     blocks := concat (map encodeBlockV3 bs) |}.

Lemma encodeObjectV3_len r : object_record_ok r -> zlen (encodeObjectV3 r) = objectV3RecordBytes.
Proof. intros [Hd _ _ _]. unfold encodeObjectV3, objectV3RecordBytes. autorewrite with cf_len. lia. Qed.
Lemma encodeBlockV3_len r : block_record_ok r -> zlen (encodeBlockV3 r) = blockV3RecordBytes.
Proof. intros []. unfold encodeBlockV3, blockV3RecordBytes. autorewrite with cf_len. lia. Qed.

Lemma zlen_concat_fixed {A} (f : A -> bytes) (n : Z) (xs : list A) :
  Forall (fun x => zlen (f x) = n) xs -> zlen (concat (map f xs)) = zlen xs * n.
Proof.
  induction 1 as [|x xs Hx _ IH]; simpl; [done|]. rewrite zlen_app, zlen_cons, IH, Hx. lia.
Qed.

Lemma built_index_sized m rs bs :
  Forall object_record_ok rs -> zlen rs <= max_int64 / objectV3RecordBytes ->
  index_sized (built_index m rs bs).
Proof.
  intros Hrs Hlen. split; simpl; [apply zlen_nonneg|]. split; [done|].
  apply zlen_concat_fixed. eapply Forall_impl; [exact Hrs|]. apply encodeObjectV3_len.
Qed.

Lemma built_record_at m rs bs k r :
  Forall object_record_ok rs -> rs !! k = Some r ->
  record_at (built_index m rs bs) (Z.of_nat k) = r.
Proof.
  intros Hrs Hk. unfold record_at. simpl.
  rewrite (slice_concat_fixed objectV3RecordBytes _ k (encodeObjectV3 r)).
  - apply decode_encode_object. eapply Forall_lookup_1; eauto.
  - apply Forall_map. eapply Forall_impl; [exact Hrs|]. apply encodeObjectV3_len.
  - by rewrite lookup_map, Hk.
Qed.

(** C30. An index whose object records were written in strictly increasing digest
    order is searched correctly: [lookup] terminates, finds the object record of
    every digest that was written, and reports exactly the others as absent. *)
Theorem built_index_lookup m rs bs digest want :
  Forall object_record_ok rs -> zlen rs <= max_int64 / objectV3RecordBytes ->
  StronglySorted bytes_lt (map or_Digest rs) -> decodeDigest digest = Ok want ->
  (forall r, r ∈ rs -> or_Digest r = want ->
     lookupV3 (built_index m rs bs) digest
     = Some (match expandObject (built_index m rs bs) r with Err e => Err e | Ok o => Ok (Some o) end))
  /\ ((forall r, r ∈ rs -> or_Digest r <> want) ->
      lookupV3 (built_index m rs bs) digest = Some (Ok None)).
Proof.
  intros Hrs Hlen Hs Hd. set (i := built_index m rs bs).
  assert (forall k, 0 <= k < zlen rs -> exists r, rs !! Z.to_nat k = Some r /\ record_at i k = r) as Hat.
  { intros k Hk. destruct (lookup_lt_is_Some_2 rs (Z.to_nat k)) as [r Hr]; [unfold zlen in *; lia|].
    exists r. split; [done|]. rewrite <- (Z2Nat.id k) by lia. by apply built_record_at. }
  assert (digests_sorted i) as Hsorted.
  { intros a b Hab Hb. simpl in Hb.
    destruct (Hat a) as (ra & Ha & ->); [lia|]. destruct (Hat b) as (rb & Hb' & ->); [lia|].
    apply (StronglySorted_before bytes_lt (map or_Digest rs) (Z.to_nat a) (Z.to_nat b)).
    - done.
    - by rewrite lookup_map, Ha.
    - by rewrite lookup_map, Hb'.
    - lia. }
  destruct (lookupV3_spec i (built_index_sized m rs bs Hrs Hlen) Hsorted digest want Hd) as [Hf Hn].
  split.
  - intros r Hin Hr. apply list_elem_of_lookup in Hin as (k & Hk).
    assert (record_at i (Z.of_nat k) = r) as Hrec by by apply built_record_at.
    rewrite (Hf (Z.of_nat k)); rewrite ?Hrec; try done.
    apply lookup_lt_Some in Hk. simpl. unfold zlen. lia.
  - intros Hnone. apply Hn. intros k Hk. simpl in Hk.
    destruct (Hat k Hk) as (r & Hr & ->). apply Hnone, list_elem_of_lookup. eauto.
Qed.

Definition sample_meta : indexV3Meta :=
  {| m_Version := 3; m_Kind := "pack-v3"; m_Generation := "g1"; m_BlockBytes := 4;
     m_ObjectCount := 2; m_BlockCount := 3; m_Packs := ["pack-000001.pack"] |}.
Definition sample_records : list objectV3Record :=
  [ {| or_Digest := le_bytes 32 1; or_RawBytes := 6; or_FirstBlock := 0; or_BlockCount := 2 |};
    {| or_Digest := le_bytes 32 2; or_RawBytes := 3; or_FirstBlock := 2; or_BlockCount := 1 |} ].
Definition sample_blocks : list blockV3Record :=
  [ {| br_PackIndex := 0; br_PackOffset := 0; br_StoredBytes := 4; br_RawOffset := 0;
       br_RawBytes := 4; br_Digest := le_bytes 32 7; br_Encoding := 1 |};
    {| br_PackIndex := 0; br_PackOffset := 4; br_StoredBytes := 2; br_RawOffset := 4;
       br_RawBytes := 2; br_Digest := le_bytes 32 8; br_Encoding := 1 |};
    {| br_PackIndex := 0; br_PackOffset := 6; br_StoredBytes := 2; br_RawOffset := 0;
       br_RawBytes := 3; br_Digest := le_bytes 32 9; br_Encoding := 0 |} ].
Lemma sample_records_ok : Forall object_record_ok sample_records.
Proof.
  repeat constructor; unfold in_i64, in_u32; simpl; lia.
Qed.

Lemma built_index_lookup_witness :
  lookupV3 (built_index sample_meta sample_records sample_blocks)
    (hex_EncodeToString (le_bytes 32 3)) = Some (Ok None)
  /\ exists o, lookupV3 (built_index sample_meta sample_records sample_blocks)
       (hex_EncodeToString (le_bytes 32 2)) = Some (Ok (Some o)) /\ o_RawBytes o = 3.
Proof.
  assert (StronglySorted bytes_lt (map or_Digest sample_records)) as Hs
    by (repeat constructor; vm_compute; reflexivity).
  assert (zlen sample_records <= max_int64 / objectV3RecordBytes) as Hl
    by (vm_compute; discriminate).
  split.
  - refine (proj2 (built_index_lookup sample_meta sample_records sample_blocks
      (hex_EncodeToString (le_bytes 32 3)) (le_bytes 32 3) sample_records_ok Hl Hs _) _).
    + vm_compute. reflexivity.
    + intros r Hr. apply list_elem_of_In in Hr.
      destruct Hr as [<-|[<-|[]]]; vm_compute; discriminate.
  - eexists. split.
    + rewrite (proj1 (built_index_lookup sample_meta sample_records sample_blocks
        (hex_EncodeToString (le_bytes 32 2)) (le_bytes 32 2) sample_records_ok Hl Hs eq_refl)
        {| or_Digest := le_bytes 32 2; or_RawBytes := 3; or_FirstBlock := 2; or_BlockCount := 1 |}
        ltac:(apply list_elem_of_In; right; left; reflexivity) eq_refl).
      vm_compute. reflexivity.
    + reflexivity.
Defined.

Lemma built_object_read m rs bs k r :
  Forall object_record_ok rs -> zlen rs <= max_int64 / objectV3RecordBytes -> rs !! k = Some r ->
  readObjectRecord (built_index m rs bs) (Z.of_nat k) = Ok r.
Proof.
  intros Hrs Hl Hk. pose proof (lookup_lt_Some _ _ _ Hk) as Hlt.
  rewrite readObjectRecord_at; [|by apply built_index_sized|simpl; unfold zlen; lia].
  f_equal. by apply built_record_at.
Qed.
Lemma built_blocks_len bs : Forall block_record_ok bs ->
  zlen (concat (map encodeBlockV3 bs)) = zlen bs * blockV3RecordBytes.
Proof. intros Hbs. apply zlen_concat_fixed. eapply Forall_impl; [exact Hbs|]. apply encodeBlockV3_len. Qed.
Lemma built_block_read m rs bs k b :
  Forall block_record_ok bs -> zlen bs <= max_int64 / blockV3RecordBytes -> bs !! k = Some b ->
  readBlockRecord (built_index m rs bs) (Z.of_nat k) = Ok b.
Proof.
  intros Hbs Hlb Hk. pose proof (lookup_lt_Some _ _ _ Hk) as Hlt. pose proof (built_blocks_len bs Hbs) as Hlen.
  destruct (record_offset_no_wrap (zlen bs) blockV3RecordBytes (Z.of_nat k) eq_refl
    ltac:(unfold zlen; lia) Hlb) as (Hw & Hlo & Hhi).
  unfold readBlockRecord. cbn [meta m_BlockCount built_index blocks].
  destruct (_ || _) eqn:E; [apply orb_true_iff in E as [E|E]; zbool; unfold zlen in *; lia|].
  rewrite Hw, file_ReadAt_Ok by (unfold blockV3RecordBytes in *; lia).
  rewrite (slice_concat_fixed blockV3RecordBytes _ k (encodeBlockV3 b)).
  - f_equal. apply decode_encode_block. eapply Forall_lookup_1; eauto.
  - apply Forall_map. eapply Forall_impl; [exact Hbs|]. apply encodeBlockV3_len.
  - by rewrite lookup_map, Hk.
Qed.

(** The fixed-width object and block records are read back from their file
    exactly as written, at every position. *)
Theorem pack_records_roundtrip m rs bs :
  Forall object_record_ok rs -> Forall block_record_ok bs ->
  zlen rs <= max_int64 / objectV3RecordBytes -> zlen bs <= max_int64 / blockV3RecordBytes ->
  (forall k r, rs !! k = Some r -> readObjectRecord (built_index m rs bs) (Z.of_nat k) = Ok r)
  /\ (forall k b, bs !! k = Some b -> readBlockRecord (built_index m rs bs) (Z.of_nat k) = Ok b).
Proof. intros Hrs Hbs Hl Hlb. split; intros; [by apply built_object_read|by apply built_block_read]. Qed.

Lemma pack_records_roundtrip_witness :
  readBlockRecord (built_index sample_meta sample_records sample_blocks) 1
  = Ok {| br_PackIndex := 0; br_PackOffset := 4; br_StoredBytes := 2; br_RawOffset := 4;
          br_RawBytes := 2; br_Digest := le_bytes 32 8; br_Encoding := 1 |}.
Proof.
  refine (proj2 (pack_records_roundtrip sample_meta sample_records sample_blocks
    sample_records_ok _ _ _) 1%nat _ eq_refl).
  - repeat constructor; unfold in_i64, in_u32, in_u8; simpl; lia.
  - vm_compute. discriminate.
  - vm_compute. discriminate.
Defined.

Lemma expandObject_tiles_lemma i record object :
  expandObject i record = Ok object ->
  Forall (fun b => block_positive b /\ b_Pack b ∈ m_Packs (meta i)
                   /\ (b_Encoding b = EncodingRaw \/ b_Encoding b = EncodingZstd)) (o_Blocks object)
  /\ (raw_total (o_Blocks object) <= max_int64 -> tiles 0 (o_Blocks object) (o_RawBytes object)).
Proof.
  unfold expandObject. intros H. destruct (_ || _) eqn:E; [done|].
  destruct (expand_blocks _ _ _ _) as [[bs fin]|] eqn:Eb; [|done].
  destruct (negb (fin =? _)) eqn:Ef; [done|]. zbool. simplify_eq. simpl.
  apply expand_blocks_spec in Eb as (_ & Hall & Ht). split; [done|]. intros. apply Ht; lia.
Qed.

(** Whatever the index files contain, an object that [expandObject] accepts
    has blocks with positive sizes, a known encoding and a pack listed in the
    metadata, and (unless the sizes exceed an [int64]) the blocks cover the
    object exactly, in order and without gaps. *)
Theorem expandObject_tiles i record object :
  expandObject i record = Ok object ->
  Forall (fun b => block_positive b /\ b_Pack b ∈ m_Packs (meta i)
                   /\ (b_Encoding b = EncodingRaw \/ b_Encoding b = EncodingZstd)) (o_Blocks object)
  /\ (raw_total (o_Blocks object) <= max_int64 -> tiles 0 (o_Blocks object) (o_RawBytes object)).
Proof. apply expandObject_tiles_lemma. Qed.

Lemma expandObject_tiles_witness :
  exists o, expandObject (built_index sample_meta sample_records sample_blocks)
      {| or_Digest := le_bytes 32 1; or_RawBytes := 6; or_FirstBlock := 0; or_BlockCount := 2 |} = Ok o
    /\ tiles 0 (o_Blocks o) 6.
Proof.
  eexists. split; [vm_compute; reflexivity|].
  refine (proj2 (expandObject_tiles (built_index sample_meta sample_records sample_blocks)
    {| or_Digest := le_bytes 32 1; or_RawBytes := 6; or_FirstBlock := 0; or_BlockCount := 2 |} _ _) _).
  - vm_compute. reflexivity.
  - vm_compute. discriminate.
Defined.

(** An index that [validateIndex] accepts lists each object once; each of
    its blocks has positive sizes, a 64-character digest and an encoding allowed
    by the index version, and the blocks of an object whose sizes add up within
    an [int64] cover it exactly. *)
Theorem validateIndex_sound index :
  validateIndex index = Ok tt ->
  NoDup (map o_SHA256 (i_Objects index))
  /\ Forall (fun o =>
       Forall (fun b => block_positive b /\ strlen (b_SHA256 b) = 64) (o_Blocks o)
       /\ (raw_total (o_Blocks o) <= max_int64 -> tiles 0 (o_Blocks o) (o_RawBytes o)))
     (i_Objects index).
Proof.
  unfold validateIndex. intros H. case_match; [done|]. case_match; [done|].
  apply validate_objects_spec in H as (Hnd & _ & Hall). split; [done|].
  eapply Forall_impl; [exact Hall|]. intros o [Hn Hv].
  apply validate_blocks_spec in Hv as [Hb Ht]. split.
  - eapply Forall_impl; [exact Hb|]. intros b (Hp & Hl & _). done.
  - intros. apply Ht; lia.
Qed.

Definition sample_hex : string := hex_EncodeToString (le_bytes 32 5).
Definition sample_block (off raw : Z) : Block :=
  {| b_Pack := "p"; b_PackOffset := 0; b_StoredBytes := 1; b_RawOffset := off;
     b_RawBytes := raw; b_SHA256 := sample_hex; b_Encoding := "zstd" |}.
Definition sample_index : Index :=
  {| i_Version := 2; i_Kind := "pack-v2"; i_Generation := "g1"; i_BlockBytes := 4;
     i_Objects := [ {| o_SHA256 := sample_hex; o_RawBytes := 7;
                       o_Blocks := [sample_block 0 4; sample_block 4 3] |} ] |}.
Lemma validateIndex_sound_witness :
  validateIndex sample_index = Ok tt /\ NoDup (map o_SHA256 (i_Objects sample_index)).
Proof.
  split; [vm_compute; reflexivity|].
  apply (validateIndex_sound sample_index). vm_compute. reflexivity.
Defined.

(** C39. The offset accumulator of [validateIndex] wraps: it accepts an index in
    which three huge blocks, one of them at a negative raw offset, stand for an
    object of one byte. *)
Theorem validateIndex_offset_wraps :
  exists index o, i_Objects index = [o] /\ validateIndex index = Ok tt
    /\ o_RawBytes o = 1 /\ ~ tiles 0 (o_Blocks o) (o_RawBytes o)
    /\ Exists (fun b => b_RawOffset b < 0) (o_Blocks o).
Proof.
  set (o := {| o_SHA256 := sample_hex; o_RawBytes := 1;
    o_Blocks := [sample_block 0 max_int64; sample_block max_int64 max_int64; sample_block (-2) 3] |}).
  exists {| i_Version := 2; i_Kind := "pack-v2"; i_Generation := "g1"; i_BlockBytes := 4;
            i_Objects := [o] |}, o.
  split_and!; [done|vm_compute; reflexivity|done| |].
  - intros H%tiles_total. vm_compute in H. done.
  - do 2 right. left. simpl. lia.
Qed.
