(* ===== verification/PackCache.v ===== *)
(** The block cache of a pack resolver: [src/internal/pack/cache.go].

    The LRU list is a list of entries, most recently used first; the [items]
    map of the code is the association from the keys of that list to their
    entries, so it is represented by searching the list. *)
From S2P Require Import Prelude.

Record cacheEntry := { ce_key : string; ce_data : bytes }.

Record blockCache := {
  budget : Z;
  used : Z;
  lru : list cacheEntry;
}.

Definition newBlockCache (b : Z) : blockCache :=
  {| budget := if b <? 0 then 0 else b; used := 0; lru := [] |}.

(** [c.items[key]], and the list without that element. *)
Fixpoint find_entry (key : string) (l : list cacheEntry) : option (cacheEntry * list cacheEntry) :=
  match l with
  | [] => None
  | e :: l =>
      if bool_decide (ce_key e = key) then Some (e, l)
      else match find_entry key l with
           | Some (f, l') => Some (f, e :: l')
           | None => None
           end
  end.

Definition cache_get (key : string) (c : blockCache) : option bytes * blockCache :=
  match find_entry key (lru c) with
  | None => (None, c)
  | Some (e, rest) =>
      (Some (ce_data e), {| budget := budget c; used := used c; lru := e :: rest |})
  end.

(** Eviction: drop the oldest entries while the budget is exceeded.  The list is
    kept oldest first here; the code would dereference nil on an empty list. *)
Fixpoint evict (budget used : Z) (oldest_first : list cacheEntry) : option (Z * list cacheEntry) :=
  if used >? budget then
    match oldest_first with
    | [] => None
    | e :: rest => evict budget (used - zlen (ce_data e)) rest
    end
  else Some (used, oldest_first).

(** [None] is the nil dereference. *)
Definition cache_put (key : string) (data : bytes) (c : blockCache) : option blockCache :=
  if (zlen data >? budget c) || (budget c =? 0) then Some c
  else match find_entry key (lru c) with
       | Some (e, rest) => Some {| budget := budget c; used := used c; lru := e :: rest |}
       | None =>
           let l := {| ce_key := key; ce_data := data |} :: lru c in
           match evict (budget c) (used c + zlen data) (rev l) with
           | None => None
           | Some (u, l) => Some {| budget := budget c; used := u; lru := rev l |}
           end
       end.

(** ** Invariant *)

Definition cache_bytes (l : list cacheEntry) : Z := foldr (fun e n => zlen (ce_data e) + n) 0 l.

Record cache_ok (c : blockCache) : Prop := {
  cache_budget : 0 <= budget c;
  cache_used : used c = cache_bytes (lru c);
  cache_fits : used c <= budget c;
  cache_keys : NoDup (map ce_key (lru c));
}.

(** What a key maps to. *)
Definition cached (c : blockCache) (key : string) : option bytes :=
  match find_entry key (lru c) with Some (e, _) => Some (ce_data e) | None => None end.

Lemma cache_bytes_nonneg l : 0 <= cache_bytes l.
Proof. induction l as [|e l IH]; simpl; [done|]. pose proof (zlen_nonneg (ce_data e)). lia. Qed.
Lemma cache_bytes_app l k : cache_bytes (l ++ k) = cache_bytes l + cache_bytes k.
Proof. induction l as [|e l IH]; simpl; lia. Qed.
#[export] Instance cache_bytes_perm : Proper (Permutation ==> eq) cache_bytes.
Proof. induction 1; simpl; lia. Qed.

Lemma find_entry_Some key l e rest :
  find_entry key l = Some (e, rest) -> ce_key e = key /\ l ≡ₚ e :: rest.
Proof.
  revert rest. induction l as [|f l IH]; intros rest; simpl; [done|].
  case_bool_decide; [naive_solver|].
  destruct (find_entry key l) as [[g l']|]; [|done]. intros [= <- <-].
  destruct (IH l' eq_refl) as [-> ->]. split; [done|]. constructor.
Qed.

Lemma find_entry_None key l : find_entry key l = None <-> key ∉ map ce_key l.
Proof.
  induction l as [|f l IH]; simpl.
  - split; [|done]. intros _. apply not_elem_of_nil.
  - rewrite not_elem_of_cons. case_bool_decide; [naive_solver|].
    destruct (find_entry key l) as [[? ?]|]; naive_solver.
Qed.

(** With distinct keys, what a key maps to is membership. *)
Lemma cached_elem c key d :
  NoDup (map ce_key (lru c)) ->
  cached c key = Some d <-> {| ce_key := key; ce_data := d |} ∈ lru c.
Proof.
  unfold cached. induction (lru c) as [|f l IH]; simpl; intros Hnd.
  - split; [done|]. by intros ?%not_elem_of_nil.
  - apply NoDup_cons in Hnd as [Hf Hnd]. rewrite elem_of_cons.
    case_bool_decide as Hk.
    + split.
      * intros [= <-]. left. destruct f; simpl in *; by subst.
      * intros [<-|Hin]; [done|]. exfalso. apply Hf. subst key.
        apply elem_of_map. by exists {| ce_key := ce_key f; ce_data := d |}.
    + specialize (IH Hnd). destruct (find_entry key l) as [[g l']|].
      * rewrite IH. split; [auto|]. intros [<-|?]; done.
      * split; [done|]. intros [<-|Hin]; [done|]. by apply IH in Hin.
Qed.

Lemma evict_spec b u l :
  0 <= b -> u = cache_bytes l ->
  exists u' k, evict b u l = Some (u', drop k l) /\ u' = cache_bytes (drop k l) /\ u' <= b
    /\ (forall j, (j < k)%nat -> b < cache_bytes (drop j l)).
Proof.
  intros Hb. revert u. induction l as [|e l IH]; intros u ->; cbn [evict].
  - destruct (_ >? _) eqn:E; zbool; [simpl in E; lia|]. exists 0, 0%nat. simpl in *.
    split_and!; auto; lia.
  - destruct (_ >? _) eqn:E; zbool.
    + destruct (IH (cache_bytes (e :: l) - zlen (ce_data e))) as (u' & k & -> & Hu & Hle & Hj);
        [simpl; lia|].
      exists u', (S k). split_and!; auto. intros [|j] Hlt; [done|]. apply Hj. lia.
    + exists (cache_bytes (e :: l)), 0%nat. split_and!; auto; lia.
Qed.

Lemma keys_perm l l' : l ≡ₚ l' -> NoDup (map ce_key l) -> NoDup (map ce_key l').
Proof. intros Hp. by rewrite Hp. Qed.

Lemma get_ok key c : cache_ok c -> cache_ok (cache_get key c).2.
Proof.
  intros [Hb Hu Hf Hk]. unfold cache_get. destruct (find_entry _ _) as [[e rest]|] eqn:E; [|by split].
  apply find_entry_Some in E as [_ Hp]. split; simpl; auto.
  - by rewrite Hu, Hp.
  - exact (keys_perm _ _ Hp Hk).
Qed.

Lemma get_cached key c : (cache_get key c).1 = cached c key.
Proof. unfold cache_get, cached. by destruct (find_entry _ _) as [[e rest]|]. Qed.

Lemma cached_perm c c' key :
  NoDup (map ce_key (lru c)) -> lru c ≡ₚ lru c' -> cached c' key = cached c key.
Proof.
  intros Hnd Hp. apply option_eq. intros d.
  rewrite !cached_elem by (first [done | exact (keys_perm _ _ Hp Hnd)]). by rewrite Hp.
Qed.

Lemma get_preserves key key' c :
  cache_ok c -> cached (cache_get key c).2 key' = cached c key'.
Proof.
  intros Hc. unfold cache_get. destruct (find_entry _ _) as [[e rest]|] eqn:E; [|done].
  apply find_entry_Some in E as [_ Hp]. apply cached_perm; simpl; [apply Hc|done].
Qed.

(** A [put] never dereferences nil, keeps the invariant, and afterwards a key
    maps to what it mapped to before, to the data just stored, or to nothing. *)
Lemma put_spec key data c :
  cache_ok c ->
  exists c', cache_put key data c = Some c' /\ cache_ok c' /\ budget c' = budget c
    /\ forall key' d, cached c' key' = Some d ->
         cached c key' = Some d \/ (key' = key /\ d = data).
Proof.
  intros [Hb Hu Hf Hk]. unfold cache_put. destruct (_ || _) eqn:E.
  { exists c. split_and!; [done|by split|done|auto]. }
  destruct (find_entry key (lru c)) as [[e rest]|] eqn:Ef.
  { apply find_entry_Some in Ef as [_ Hp]. eexists. split_and!; [done| |done|].
    - split; simpl; auto; [by rewrite Hu, Hp|exact (keys_perm _ _ Hp Hk)].
    - intros key' d H. left. rewrite <- H. symmetry. by apply cached_perm. }
  apply find_entry_None in Ef. zbool.
  set (l := {| ce_key := key; ce_data := data |} :: lru c).
  assert (cache_bytes (rev l) = used c + zlen data) as Hbytes.
  { rewrite <- Permutation_rev. simpl. lia. }
  destruct (evict_spec (budget c) (used c + zlen data) (rev l)) as (u & k & -> & Hu' & Hle & _);
    [done|done|].
  assert (NoDup (map ce_key l)) as Hndl by by constructor.
  assert (exists evicted, l ≡ₚ evicted ++ rev (drop k (rev l))) as [ev Hp].
  { exists (take k (rev l)). rewrite <- (Permutation_rev (drop k (rev l))), take_drop.
    apply Permutation_rev. }
  assert (NoDup (map ce_key (rev (drop k (rev l))))) as Hnd.
  { apply (keys_perm _ _ Hp) in Hndl. rewrite map_app in Hndl. by apply NoDup_app in Hndl as (_ & _ & ?). }
  eexists. split_and!; [done| |done|].
  - split; cbn [budget used lru]; auto. rewrite Hu'. apply cache_bytes_perm, Permutation_rev.
  - intros key' d Hc. apply cached_elem in Hc; [|done]. cbn [lru] in Hc.
    assert ({| ce_key := key'; ce_data := d |} ∈ l) as Hin.
    { rewrite Hp, elem_of_app. auto. }
    apply elem_of_cons in Hin as [Heq|Hin]; [naive_solver|].
    left. by apply cached_elem.
Qed.

(** A client's calls. *)
Inductive cache_op := Get (key : string) | Put (key : string) (data : bytes).
Fixpoint run_cache (ops : list cache_op) (c : blockCache) : option blockCache :=
  match ops with
  | [] => Some c
  | Get key :: ops => run_cache ops (cache_get key c).2
  | Put key data :: ops =>
      match cache_put key data c with None => None | Some c => run_cache ops c end
  end.

Lemma run_cache_ok ops c :
  cache_ok c ->
  exists c', run_cache ops c = Some c' /\ cache_ok c' /\ budget c' = budget c
    /\ forall key d, cached c' key = Some d -> cached c key = Some d \/ Put key d ∈ ops.
Proof.
  revert c. induction ops as [|[key|key data] ops IH]; intros c Hc; simpl.
  - exists c. split_and!; auto.
  - destruct (IH (cache_get key c).2 (get_ok key c Hc)) as (c' & Hr & Hok & Hb & Hd).
    exists c'. split_and!; [done..| |].
    + rewrite Hb. unfold cache_get. by destruct (find_entry _ _) as [[? ?]|].
    + intros key' d H. destruct (Hd key' d H) as [H'|H'].
      * left. by rewrite get_preserves in H'.
      * right. by apply elem_of_cons; right.
  - destruct (put_spec key data c Hc) as (c1 & -> & Hc1 & Hb1 & Hd1).
    destruct (IH c1 Hc1) as (c' & Hr & Hok & Hb & Hd).
    exists c'. split_and!; [done..|congruence|].
    intros key' d H. destruct (Hd key' d H) as [H'|H'].
    + apply Hd1 in H' as [?|[-> ->]]; [auto|]. right. apply elem_of_cons. auto.
    + right. by apply elem_of_cons; right.
Qed.

(** The block cache stays within its budget: starting from
    [newBlockCache], any sequence of [get] and [put] calls runs to completion,
    keeps the byte count equal to the bytes held and within the budget, keeps
    keys distinct, and only answers a [get] with data put under that key. *)
Theorem run_cache_safe ops b :
  exists c, run_cache ops (newBlockCache b) = Some c /\ cache_ok c /\ budget c = Z.max 0 b
    /\ forall key d, (cache_get key c).1 = Some d -> Put key d ∈ ops.
Proof.
  assert (cache_ok (newBlockCache b)) as H0.
  { unfold newBlockCache. split; simpl; [|done| |constructor];
      destruct (b <? 0) eqn:E; zbool; lia. }
  destruct (run_cache_ok ops _ H0) as (c & Hr & Hok & Hb & Hd).
  exists c. split_and!; [done..| |].
  - rewrite Hb. unfold newBlockCache. simpl. destruct (b <? 0) eqn:E; zbool; lia.
  - intros key d H. rewrite get_cached in H. by apply Hd in H as [|].
Qed.

(** Block data that fits the budget is served by the next [get] of its
    key. *)
Theorem put_then_get key data c c' :
  cache_ok c -> 0 < zlen data <= budget c -> cached c key = None ->
  cache_put key data c = Some c' -> (cache_get key c').1 = Some data.
Proof.
  intros [Hb Hu Hf Hk] Hd Hnone Hput. rewrite get_cached. unfold cache_put in Hput.
  destruct (_ || _) eqn:E; [apply orb_true_iff in E as [E|E]; zbool; lia|].
  destruct (find_entry key (lru c)) as [[e rest]|] eqn:Ef.
  { unfold cached in Hnone. by rewrite Ef in Hnone. }
  set (l := {| ce_key := key; ce_data := data |} :: lru c) in *.
  assert (used c + zlen data = cache_bytes (rev l)) as Hbytes.
  { rewrite <- Permutation_rev. simpl. lia. }
  destruct (evict_spec (budget c) _ (rev l) Hb Hbytes) as (u & k & Hev & _ & _ & Hj).
  rewrite Hev in Hput. simplify_eq. unfold cached. simpl.
  assert (k <= length (lru c))%nat as Hk'.
  { destruct (decide (k <= length (lru c))%nat) as [|Hgt]; [done|exfalso].
    specialize (Hj (length (lru c)) ltac:(lia)). simpl in Hj.
    rewrite drop_app_length' in Hj by (by rewrite length_rev). simpl in Hj. lia. }
  subst l. cbn [rev]. rewrite drop_app_le by (rewrite length_rev; lia).
  rewrite rev_app_distr. simpl. by rewrite bool_decide_eq_true_2.
Qed.

Lemma put_then_get_witness :
  (cache_get "b" {| budget := 5; used := 4; lru := [ {| ce_key := "b"; ce_data := le_bytes 4 9 |} ] |}).1
  = Some (le_bytes 4 9).
Proof.
  apply (put_then_get "b" (le_bytes 4 9)
    {| budget := 5; used := 3; lru := [ {| ce_key := "a"; ce_data := le_bytes 3 1 |} ] |}).
  - split; simpl; try (vm_compute; congruence); try lia.
    constructor; [apply not_elem_of_nil|constructor].
  - vm_compute. split; [reflexivity|discriminate].
  - reflexivity.
  - vm_compute. reflexivity.
Defined.
