(* ===== verification/ObjectReader.v ===== *)
(** The interface between stored objects and their readers:
    [vfs.ObjectReader] ([src/internal/vfs/resolver.go]) and [fold.ObjectRef]
    ([src/internal/fold/store.go]).

    A reader is state that may change with every read (caches).  The law says
    which bytes it may return; the pack resolver discharges it and the virtual
    view is proved against it. *)
From S2P Require Import Prelude.

Record ObjectRef := {
  SHA256 : string;
  RawBytes : Z;
  StoredBytes : Z;
}.

(** A [context.Context]: [Some k] is cancelled after [k] more checks. *)
Definition Ctx := option nat.
Definition ctx_canceled : error := Sentinel "context canceled".
Definition ctx_Err (ctx : Ctx) : option error * Ctx :=
  match ctx with
  | None => (None, None)
  | Some O => (Some ctx_canceled, Some O)
  | Some (S k) => (None, Some k)
  end.

(** The outcome of [ReadAt(ctx, ref, destination, offset)]: the count returned,
    the contents of the destination, and the error. *)
Record read_result := { rn : Z; rdata : bytes; rerr : option error }.

Class ObjectReader (R : Type) :=
  object_ReadAt : R -> Ctx -> ObjectRef -> Z -> Z -> read_result * R * Ctx.

Class ObjectReaderLaw (R : Type) `{ObjectReader R} := {
  reader_ok : R -> Prop;
  (** The byte of an object at a position, when the reader can produce it. *)
  object_byte : R -> ObjectRef -> Z -> option byte;
  (** Objects are content-addressed: digest and raw length decide the bytes. *)
  object_byte_same : forall r ref ref' p,
    SHA256 ref = SHA256 ref' -> RawBytes ref = RawBytes ref' ->
    object_byte r ref p = object_byte r ref' p;
  (** A read returns only bytes of the object and leaves the objects alone. *)
  read_sound : forall r ctx ref n off res r' ctx',
    reader_ok r -> 0 <= off -> 0 < n ->
    object_ReadAt r ctx ref n off = (res, r', ctx') ->
    reader_ok r'
    /\ (forall ref p, object_byte r' ref p = object_byte r ref p)
    /\ 0 <= rn res <= n
    /\ (forall j, 0 <= j < rn res ->
          exists b, rdata res !! Z.to_nat j = Some b /\ object_byte r ref (off + j) = Some b);
  (** A read of available bytes that is not cancelled returns all of them, with
      no error or io.EOF. *)
  read_complete : forall r ref n off res r' ctx',
    reader_ok r -> 0 <= off -> 0 < n ->
    (forall j, off <= j < off + n -> is_Some (object_byte r ref j)) ->
    object_ReadAt r None ref n off = (res, r', ctx') ->
    ctx' = None /\ rn res = n /\ (rerr res = None \/ exists e, rerr res = Some e /\ is_EOF e = true);
}.
