(* ===== verification/PackResolver.v ===== *)
(** Reading objects out of packs: [src/internal/pack/resolver.go].

    A [Resolver] has an index (version 3, or the map built from a JSON index),
    the contents of its pack files and a block cache.  [readBlock] serves a block
    from the cache or reads, decodes and verifies it; [resolver_ReadAt] assembles
    a byte range of an object from its blocks.  The decoder of zstd frames is an
    argument: it is third-party code.  The decoder pool and the file handles are
    not modelled. *)
From S2P Require Import Prelude GoStd PackIndex PackCache ObjectReader.
From stdpp Require Import pretty.
Open Scope Z_scope.

Record Resolver := {
  r_v3 : option indexV3;
  r_objects : gmap string Object;
  r_packs : gmap string bytes;
  r_cache : blockCache;
}.

Definition ErrObjectNotPacked : error := Sentinel "object is not packed".
Definition fuel_exhausted : error := Sentinel "fuel exhausted".

Definition set_cache (r : Resolver) (c : blockCache) : Resolver :=
  {| r_v3 := r_v3 r; r_objects := r_objects r; r_packs := r_packs r; r_cache := c |}.

Definition lookupObject (r : Resolver) (digest : string) : result (option Object) :=
  match r_v3 r with
  | Some i => match lookupV3 i digest with
              | Some res => res
              | None => Err fuel_exhausted
              end
  | None => Ok (r_objects r !! digest)
  end.

Definition HasObject (r : Resolver) (ref : ObjectRef) : bool :=
  match lookupObject r (SHA256 ref) with
  | Ok (Some object) => o_RawBytes object =? RawBytes ref
  | _ => false
  end.

Definition HasDigest (r : Resolver) (digest : string) : bool :=
  match lookupObject r digest with Ok (Some _) => true | _ => false end.

(** [validateObjectBlockBounds]: every block lies inside its open pack. *)
Fixpoint validate_block_bounds (packSizes : gmap string Z) (blocks : list Block) : result unit :=
  match blocks with
  | [] => Ok tt
  | block :: blocks =>
      match packSizes !! b_Pack block with
      | None => Err (errors_new "packed block %s:%d references unopened pack %s")
      | Some packSize =>
          if (b_PackOffset block >? packSize)
             || (b_StoredBytes block >? i64 (packSize - b_PackOffset block))
          then Err (errors_new "packed block %s:%d exceeds %s size")
          else validate_block_bounds packSizes blocks
      end
  end.
Definition validateObjectBlockBounds (object : Object) (packSizes : gmap string Z) : result unit :=
  validate_block_bounds packSizes (o_Blocks object).

Fixpoint validatePackedBlockBounds (objects : list Object) (packSizes : gmap string Z) : result unit :=
  match objects with
  | [] => Ok tt
  | object :: objects =>
      match validateObjectBlockBounds object packSizes with
      | Err e => Err e
      | Ok _ => validatePackedBlockBounds objects packSizes
      end
  end.

(** The version 3 loop of [validateResolverBounds], [n] positions to go. *)
Fixpoint validate_v3_bounds (i : indexV3) (packSizes : gmap string Z) (n : nat) (position : Z)
    (previous : bytes) : result unit :=
  match n with
  | O => Ok tt
  | S n =>
      match readObjectRecord i position with
      | Err e => Err e
      | Ok record =>
          if (position >? 0)
             && (match bytes_Compare previous (or_Digest record) with Lt => false | _ => true end)
          then Err (errors_new "pack v3 object index is not strictly sorted")
          else match objectAt i position with
               | Err e => Err e
               | Ok object =>
                   match validateObjectBlockBounds object packSizes with
                   | Err e => Err e
                   | Ok _ => validate_v3_bounds i packSizes n (position + 1) (or_Digest record)
                   end
               end
      end
  end.
Definition validateResolverBounds_v3 (i : indexV3) (packSizes : gmap string Z) : result unit :=
  validate_v3_bounds i packSizes (Z.to_nat (m_ObjectCount (meta i))) 0 (le_bytes 32 0).

Section Resolver.
Variable sha256 : bytes -> bytes.
Variable zstd_DecodeAll : bytes -> result bytes.

(** The cache key [fmt.Sprintf("%s:%d", objectDigest, blockIndex)]. *)
Definition block_key (objectDigest : string) (blockIndex : nat) : string :=
  objectDigest +:+ ":" +:+ pretty blockIndex.

(** Read, decode and verify a block; the part of [readBlock] after the cache. *)
Definition block_contents (r : Resolver) (block : Block) : result bytes :=
  match r_packs r !! b_Pack block with
  | None => Err (errors_new "pack %s is not open")
  | Some file =>
      match file_ReadAt file (b_StoredBytes block) (b_PackOffset block) with
      | Err e => Err (errorf "read packed block %s:%d: %w" e)
      | Ok stored =>
          match (if string_eqb (b_Encoding block) EncodingRaw then Ok stored
                 else match zstd_DecodeAll stored with
                      | Err e => Err (errorf "decode packed block %s:%d: %w" e)
                      | Ok data => Ok data
                      end) with
          | Err e => Err e
          | Ok data =>
              if negb (zlen data =? b_RawBytes block) then
                Err (errors_new "packed block %s:%d raw size %d, want %d")
              else if negb (string_eqb (hex_EncodeToString (sha256 data)) (b_SHA256 block)) then
                Err (errors_new "packed block %s:%d SHA-256 mismatch")
              else Ok data
          end
      end
  end.

Definition readBlock (r : Resolver) (objectDigest : string) (blockIndex : nat) (block : Block)
  : result bytes * Resolver :=
  let key := block_key objectDigest blockIndex in
  let '(hit, c) := cache_get key (r_cache r) in
  let r := set_cache r c in
  match hit with
  | Some data => (Ok data, r)
  | None =>
      match block_contents r block with
      | Err e => (Err e, r)
      | Ok data =>
          (Ok data, set_cache r (match cache_put key data (r_cache r) with
                                 | Some c => c
                                 | None => r_cache r
                                 end))
      end
  end.

(** [sort.Search] for the block that holds [offset]. *)
Definition search_block (blocks : list Block) (offset : Z) : Z :=
  sort_Search (zlen blocks) (fun index =>
    match blocks !! Z.to_nat index with
    | Some block => i64 (b_RawOffset block + b_RawBytes block) >? offset
    | None => false
    end).

(** The copy loop of [ReadAt]; an iteration copies at least one byte, so the
    length of the destination is enough fuel.  [None] is exhausted fuel. *)
Fixpoint read_loop (fuel : nat) (r : Resolver) (ctx : Ctx) (object : Object)
    (n offset : Z) (acc : bytes) : option (read_result * Resolver * Ctx) :=
  if (zlen acc <? n) && (offset <? o_RawBytes object) then
    match fuel with
    | O => None
    | S fuel =>
        let '(err, ctx) := ctx_Err ctx in
        match err with
        | Some e => Some ({| rn := zlen acc; rdata := acc; rerr := Some e |}, r, ctx)
        | None =>
            let blockIndex := search_block (o_Blocks object) offset in
            match o_Blocks object !! Z.to_nat blockIndex with
            | None =>
                Some ({| rn := zlen acc; rdata := acc;
                         rerr := Some (errors_new "object %s has no block for offset %d") |}, r, ctx)
            | Some block =>
                match readBlock r (o_SHA256 object) (Z.to_nat blockIndex) block with
                | (Err e, r) => Some ({| rn := zlen acc; rdata := acc; rerr := Some e |}, r, ctx)
                | (Ok data, r) =>
                    let inside := offset - b_RawOffset block in
                    let copied := ztake (n - zlen acc) (zdrop inside data) in
                    read_loop fuel r ctx object n (offset + zlen copied) (acc ++ copied)
                end
            end
        end
    end
  else
    Some ({| rn := zlen acc; rdata := acc;
             rerr := if zlen acc <? n then Some io_EOF else None |}, r, ctx).

Definition resolver_ReadAt (r : Resolver) (ctx : Ctx) (ref : ObjectRef) (n offset : Z)
  : read_result * Resolver * Ctx :=
  let fail e := ({| rn := 0; rdata := []; rerr := Some e |}, r, ctx) in
  if offset <? 0 then fail (errors_new "negative object read offset")
  else if n =? 0 then ({| rn := 0; rdata := []; rerr := None |}, r, ctx)
  else
    match lookupObject r (SHA256 ref) with
    | Err e => fail e
    | Ok None => fail (errorf "object %s: %w" ErrObjectNotPacked)
    | Ok (Some object) =>
        if negb (o_RawBytes object =? RawBytes ref) then
          fail (errors_new "object %s raw size %d, want %d")
        else if offset >=? o_RawBytes object then fail io_EOF
        else
          match read_loop (Z.to_nat n) r ctx object n offset [] with
          | Some res => res
          | None => fail fuel_exhausted
          end
    end.
End Resolver.

(** ** Blocks and positions *)

Lemma tiles_lookup off bs fin k b :
  tiles off bs fin -> bs !! k = Some b ->
  off <= b_RawOffset b /\ 0 < b_RawBytes b /\ b_RawOffset b + b_RawBytes b <= fin
  /\ forall j c, (j < k)%nat -> bs !! j = Some c -> b_RawOffset c + b_RawBytes c <= b_RawOffset b.
Proof.
  revert off k. induction bs as [|a bs IH]; intros off k Ht Hk; [done|].
  simpl in Ht. destruct Ht as (Ha & Hpos & Ht). pose proof (raw_total_nonneg _ _ _ Ht) as Hn.
  pose proof (tiles_total _ _ _ Ht) as Hfin. destruct k as [|k]; simpl in Hk.
  - simplify_eq. split_and!; [lia..|]. intros j c Hj. lia.
  - destruct (IH _ _ Ht Hk) as (H1 & H2 & H3 & H4). split_and!; [lia..|].
    intros [|j] c Hj Hc; simpl in Hc; [simplify_eq; lia|]. apply (H4 j); [lia|done].
Qed.

Lemma tiles_find off bs fin p :
  tiles off bs fin -> off <= p < fin ->
  exists k b, bs !! k = Some b /\ b_RawOffset b <= p < b_RawOffset b + b_RawBytes b.
Proof.
  revert off. induction bs as [|a bs IH]; intros off Ht Hp; simpl in Ht; [lia|].
  destruct Ht as (Ha & Hpos & Ht).
  destruct (Z.lt_ge_cases p (off + b_RawBytes a)) as [Hlt|Hge].
  - exists 0%nat, a. split; [done|lia].
  - destruct (IH _ Ht) as (k & b & Hk & Hb); [lia|]. by exists (S k), b.
Qed.

(** The search finds the block that holds a position. *)
Lemma search_block_at bs fin k b p :
  tiles 0 bs fin -> fin <= max_int64 -> bs !! k = Some b ->
  b_RawOffset b <= p < b_RawOffset b + b_RawBytes b -> search_block bs p = Z.of_nat k.
Proof.
  intros Ht Hfin Hk Hp. pose proof (lookup_lt_Some _ _ _ Hk) as Hlt.
  set (f := fun index => match bs !! Z.to_nat index with
    | Some block => i64 (b_RawOffset block + b_RawBytes block) >? p | None => false end).
  assert (forall j c, bs !! j = Some c ->
            f (Z.of_nat j) = (b_RawOffset c + b_RawBytes c >? p)) as Hf.
  { intros j c Hc. unfold f. rewrite Nat2Z.id, Hc.
    destruct (tiles_lookup _ _ _ _ _ Ht Hc) as (? & ? & ? & _).
    rewrite i64_id; [done|]. unfold in_i64, max_int64 in *. lia. }
  destruct (sort_Search_spec (zlen bs) f) as (Hr & Hbelow & Habove); [apply zlen_nonneg| |].
  - intros a c Hac Hc Ha. destruct (Z.eq_dec a c) as [->|Hne]; [done|].
    destruct (lookup_lt_is_Some_2 bs (Z.to_nat a)) as [ba Hba]; [unfold zlen in *; lia|].
    destruct (lookup_lt_is_Some_2 bs (Z.to_nat c)) as [bc Hbc]; [unfold zlen in *; lia|].
    rewrite <- (Z2Nat.id a), (Hf _ _ Hba) in Ha by lia.
    rewrite <- (Z2Nat.id c), (Hf _ _ Hbc) by lia.
    destruct (tiles_lookup _ _ _ _ _ Ht Hbc) as (_ & ? & _ & Hprev).
    specialize (Hprev (Z.to_nat a) ba ltac:(lia) Hba).
    rewrite Z.gtb_ltb, Z.ltb_lt in *. lia.
  - fold f. set (r := sort_Search (zlen bs) f) in *.
    change (search_block bs p) with r.
    destruct (Z.lt_trichotomy r (Z.of_nat k)) as [Hlt'|[?|Hgt]]; [exfalso|done|exfalso].
    + destruct (lookup_lt_is_Some_2 bs (Z.to_nat r)) as [c Hc]; [lia|].
      destruct (tiles_lookup _ _ _ _ _ Ht Hk) as (_ & _ & _ & Hprev).
      specialize (Hprev (Z.to_nat r) c ltac:(lia) Hc).
      specialize (Habove r ltac:(unfold zlen in *; lia)).
      rewrite <- (Z2Nat.id r), (Hf _ _ Hc), Z.gtb_ltb, Z.ltb_lt in Habove by lia. lia.
    + specialize (Hbelow (Z.of_nat k) ltac:(lia)).
      rewrite (Hf _ _ Hk), Z.gtb_ltb, Z.ltb_ge in Hbelow. lia.
Qed.

(** ** Cache keys *)

Lemma block_key_inj d1 i1 d2 i2 :
  String.length d1 = String.length d2 -> block_key d1 i1 = block_key d2 i2 -> d1 = d2 /\ i1 = i2.
Proof.
  intros Hl H. unfold block_key in H. apply string_app_inj in H as [-> H]; [|done].
  by simplify_eq.
Qed.

Section ResolverLemmas.
Context (sha256 : bytes -> bytes) (zstd_DecodeAll : bytes -> result bytes).
Local Abbreviation contents := (block_contents sha256 zstd_DecodeAll).

Definition object_in (r : Resolver) (o : Object) : Prop :=
  exists digest, lookupObject r digest = Ok (Some o).

(** An opened resolver: the objects it can find are covered by their blocks, a
    digest names one object, and cached data is what a fresh read would give. *)
Record resolver_ok (r : Resolver) : Prop := {
  rok_cache : cache_ok (r_cache r);
  rok_objects : forall o, object_in r o ->
    String.length (o_SHA256 o) = 64%nat /\ tiles 0 (o_Blocks o) (o_RawBytes o)
    /\ o_RawBytes o <= max_int64;
  rok_unique : forall o1 o2, object_in r o1 -> object_in r o2 ->
    o_SHA256 o1 = o_SHA256 o2 -> o1 = o2;
  rok_faithful : forall o k b d, object_in r o -> o_Blocks o !! k = Some b ->
    cached (r_cache r) (block_key (o_SHA256 o) k) = Some d -> contents r b = Ok d;
}.

Lemma contents_set_cache r c b : contents (set_cache r c) b = contents r b.
Proof. done. Qed.
Lemma object_in_set_cache r c o : object_in (set_cache r c) o <-> object_in r o.
Proof. done. Qed.

Lemma contents_len r b d : contents r b = Ok d -> zlen d = b_RawBytes b.
Proof.
  unfold block_contents. intros H. repeat case_match; simplify_eq; zbool; done.
Qed.

Lemma readBlock_spec r o k b res r' :
  resolver_ok r -> object_in r o -> o_Blocks o !! k = Some b ->
  readBlock sha256 zstd_DecodeAll r (o_SHA256 o) k b = (res, r') ->
  res = contents r b /\ r' = set_cache r (r_cache r') /\ resolver_ok r'.
Proof.
  intros [Hc Hobj Huniq Hf] Ho Hk H. unfold readBlock in H.
  pose proof (get_cached (block_key (o_SHA256 o) k) (r_cache r)) as Hget.
  pose proof (get_ok (block_key (o_SHA256 o) k) _ Hc) as Hc1.
  pose proof (fun key' => get_preserves (block_key (o_SHA256 o) k) key' _ Hc) as Hp.
  destruct (cache_get _ _) as [hit c] eqn:Eg. simpl in *.
  assert (resolver_ok (set_cache r c)) as Hok1.
  { split; [done|done|done|]. intros o' k' b' d' Ho' Hk' Hd'. simpl in Hd'.
    rewrite Hp in Hd'. rewrite contents_set_cache. eauto. }
  destruct hit as [d|].
  { simplify_eq. split_and!; [|done|done]. symmetry. eauto. }
  rewrite contents_set_cache in H. destruct (contents r b) as [d|e] eqn:Ec; simplify_eq;
    [|by split_and!].
  split_and!; [done|done|].
  destruct (put_spec (block_key (o_SHA256 o) k) d c Hc1) as (c2 & Hput & Hc2 & _ & Hd2).
  simpl. rewrite Hput. split; [done|done|done|].
  intros o' k' b' d' Ho' Hk' Hd'. simpl in Hd'. rewrite contents_set_cache.
  apply Hd2 in Hd' as [Hd'|[Hkey ->]].
  - apply (rok_faithful _ Hok1 o' k' b' d'); auto.
  - apply block_key_inj in Hkey as [Hsha ->].
    + rewrite (Huniq o' o) in Hk' by done. by simplify_eq.
    + destruct (Hobj o' Ho') as [-> _]. destruct (Hobj o Ho) as [-> _]. done.
Qed.

(** The byte of an object at a position, read without a cache. *)
Definition object_byte_of (r : Resolver) (o : Object) (p : Z) : option byte :=
  match o_Blocks o !! Z.to_nat (search_block (o_Blocks o) p) with
  | Some b => match contents r b with
              | Ok d => d !! Z.to_nat (p - b_RawOffset b)
              | Err _ => None
              end
  | None => None
  end.

Lemma object_byte_in_block r o k b d p :
  resolver_ok r -> object_in r o -> o_Blocks o !! k = Some b -> contents r b = Ok d ->
  b_RawOffset b <= p < b_RawOffset b + b_RawBytes b ->
  object_byte_of r o p = d !! Z.to_nat (p - b_RawOffset b).
Proof.
  intros Hok Ho Hk Hd Hp. destruct (rok_objects _ Hok o Ho) as (_ & Ht & Hmax).
  unfold object_byte_of. rewrite (search_block_at _ _ _ _ _ Ht Hmax Hk Hp), Nat2Z.id, Hk, Hd.
  done.
Qed.

Lemma lookup_ztake_zdrop (l : bytes) a n j :
  0 <= a -> 0 <= j < n -> ztake n (zdrop a l) !! Z.to_nat j = l !! Z.to_nat (a + j).
Proof.
  intros. unfold ztake, zdrop. rewrite lookup_take_lt by lia. rewrite lookup_drop. f_equal. lia.
Qed.
(** [reads r o off l]: the bytes of the object from [off] start with [l]. *)
Definition reads (r : Resolver) (o : Object) (off : Z) (l : bytes) : Prop :=
  forall j, 0 <= j < zlen l -> exists b, l !! Z.to_nat j = Some b
    /\ object_byte_of r o (off + j) = Some b.

Lemma reads_app r o off l k :
  reads r o off l -> reads r o (off + zlen l) k -> reads r o off (l ++ k).
Proof.
  intros Hl Hk j Hj. rewrite zlen_app in Hj.
  destruct (Z.lt_ge_cases j (zlen l)) as [Hlt|Hge].
  - destruct (Hl j) as (b & Hb & Hob); [lia|]. exists b. split; [|done].
    by rewrite lookup_app_l by (unfold zlen in *; lia).
  - destruct (Hk (j - zlen l)) as (b & Hb & Hob); [lia|]. exists b. split.
    + rewrite lookup_app_r by (unfold zlen in *; lia). rewrite <- Hb. f_equal.
      unfold zlen in *. lia.
    + rewrite <- Hob. f_equal. lia.
Qed.

(** What the loop guarantees from a state in which [acc] has been copied. *)
Definition loop_post r (ctx : Ctx) o n off acc (out : option (read_result * Resolver * Ctx)) : Prop :=
  exists more err r' ctx',
    out = Some ({| rn := zlen (acc ++ more); rdata := acc ++ more; rerr := err |}, r', ctx')
    /\ resolver_ok r' /\ r' = set_cache r (r_cache r')
    /\ zlen (acc ++ more) <= n /\ reads r o off more
    /\ (ctx = None -> (forall p, off <= p < off + (n - zlen acc) -> is_Some (object_byte_of r o p)) ->
        off + (n - zlen acc) <= o_RawBytes o ->
        ctx' = None /\ zlen (acc ++ more) = n /\ err = None).

(** Stopping with nothing more copied. *)
Lemma loop_post_stop r ctx o n off acc err r' ctx' :
  resolver_ok r' -> r' = set_cache r (r_cache r') -> zlen acc <= n ->
  (ctx = None -> (forall p, off <= p < off + (n - zlen acc) -> is_Some (object_byte_of r o p)) ->
     off + (n - zlen acc) <= o_RawBytes o -> ctx' = None /\ zlen acc = n /\ err = None) ->
  loop_post r ctx o n off acc (Some ({| rn := zlen acc; rdata := acc; rerr := err |}, r', ctx')).
Proof.
  intros Hok Hr Hn Hc. exists [], err, r', ctx'. rewrite app_nil_r. split_and!; try done.
  intros j Hj. unfold zlen in Hj. simpl in Hj. lia.
Qed.

Lemma set_cache_same r : r = set_cache r (r_cache r).
Proof. by destruct r. Qed.

Lemma read_loop_spec fuel r ctx o n off acc :
  resolver_ok r -> object_in r o -> 0 <= off -> zlen acc <= n ->
  n - zlen acc <= Z.of_nat fuel ->
  loop_post r ctx o n off acc (read_loop sha256 zstd_DecodeAll fuel r ctx o n off acc).
Proof.
  revert r ctx off acc. induction fuel as [|fuel IH]; intros r ctx off acc Hok Ho Hoff Hacc Hfuel.
  all: cbn [read_loop]; destruct ((zlen acc <? n) && (off <? o_RawBytes o)) eqn:E.
  2,4: apply loop_post_stop; [done|apply set_cache_same|done|]; intros -> _ Hend;
    split; [done|]; destruct (zlen acc <? n) eqn:E1; zbool; [simpl in E; zbool; lia|];
    split; [lia|done].
  all: zbool. 1: lia.
  destruct (rok_objects _ Hok o Ho) as (_ & Ht & Hmax).
  destruct (tiles_find _ _ _ off Ht) as (k & b & Hk & Hb); [lia|].
  pose proof (search_block_at _ _ _ _ _ Ht Hmax Hk Hb) as Hsearch.
  destruct (ctx_Err ctx) as [[e|] ctx1] eqn:Ectx.
  { apply loop_post_stop; [done|apply set_cache_same|done|]. intros ->. done. }
  rewrite Hsearch, Nat2Z.id, Hk.
  destruct (readBlock _ _ r (o_SHA256 o) k b) as [res r1] eqn:Er.
  destruct (readBlock_spec _ _ _ _ _ _ Hok Ho Hk Er) as (-> & Hr1 & Hok1).
  destruct (contents r b) as [d|e] eqn:Ed.
  2: { apply loop_post_stop; [done..|]. intros -> Hav _. exfalso.
    destruct (Hav off) as [x Hx]; [lia|].
    unfold object_byte_of in Hx. by rewrite Hsearch, Nat2Z.id, Hk, Ed in Hx. }
  pose proof (contents_len _ _ _ Ed) as Hdlen.
  set (copied := ztake (n - zlen acc) (zdrop (off - b_RawOffset b) d)).
  assert (1 <= zlen copied <= n - zlen acc /\ zlen copied <= b_RawBytes b - (off - b_RawOffset b)) as Hcl.
  { subst copied. rewrite zlen_ztake, zlen_zdrop. lia. }
  assert (reads r o off copied) as Hcopied.
  { intros j Hj. destruct (lookup_lt_is_Some_2 copied (Z.to_nat j)) as [x Hx]; [unfold zlen in *; lia|].
    exists x. split; [done|].
    rewrite (object_byte_in_block r o k b d) by (auto; lia). rewrite <- Hx. subst copied.
    rewrite lookup_ztake_zdrop by lia. f_equal. lia. }
  assert (object_in r1 o) as Ho1 by (by rewrite Hr1).
  destruct (IH r1 ctx1 (off + zlen copied) (acc ++ copied)) as
    (more & err & r2 & ctx2 & -> & Hok2 & Hr2 & Hlen2 & Hreads2 & Hcomp); auto.
  { lia. } { rewrite zlen_app. lia. } { rewrite zlen_app. lia. }
  exists (copied ++ more), err, r2, ctx2. rewrite app_assoc. split_and!; auto.
  - rewrite Hr2, Hr1. done.
  - apply reads_app; [done|]. intros j Hj. destruct (Hreads2 j Hj) as (x & Hx & Hb').
    exists x. split; [done|]. rewrite <- Hb', Hr1. done.
  - intros -> Hav Hend. simpl in Ectx. simplify_eq. rewrite zlen_app in Hcomp.
    apply Hcomp; [done| |lia]. intros p Hp. rewrite Hr1.
    change (object_byte_of (set_cache r (r_cache r1)) o p) with (object_byte_of r o p).
    apply Hav. lia.
Qed.
Lemma object_byte_of_bound r o p b :
  resolver_ok r -> object_in r o -> object_byte_of r o p = Some b -> p < o_RawBytes o.
Proof.
  intros Hok Ho H. destruct (rok_objects _ Hok o Ho) as (_ & Ht & _).
  unfold object_byte_of in H. destruct (o_Blocks o !! _) as [bl|] eqn:Eb; [|done].
  destruct (contents r bl) as [d|] eqn:Ed; [|done]. apply lookup_lt_Some in H.
  pose proof (contents_len _ _ _ Ed) as Hl. unfold zlen in Hl.
  destruct (tiles_lookup _ _ _ _ _ Ht Eb) as (? & ? & ? & _). lia.
Qed.

(** The resolver as an object reader. *)
#[local] Instance resolver_reader : ObjectReader Resolver := resolver_ReadAt sha256 zstd_DecodeAll.

Definition resolver_byte (r : Resolver) (ref : ObjectRef) (p : Z) : option byte :=
  match lookupObject r (SHA256 ref) with
  | Ok (Some o) => if o_RawBytes o =? RawBytes ref then object_byte_of r o p else None
  | _ => None
  end.

Lemma resolver_ReadAt_spec r ctx ref n off res r' ctx' :
  resolver_ok r -> 0 <= off -> 0 < n ->
  resolver_ReadAt sha256 zstd_DecodeAll r ctx ref n off = (res, r', ctx') ->
  resolver_ok r' /\ r' = set_cache r (r_cache r') /\ rn res = zlen (rdata res) /\ rn res <= n
  /\ (forall j, 0 <= j < rn res ->
        exists b, rdata res !! Z.to_nat j = Some b /\ resolver_byte r ref (off + j) = Some b)
  /\ (ctx = None -> (forall p, off <= p < off + n -> is_Some (resolver_byte r ref p)) ->
      ctx' = None /\ rn res = n /\ rerr res = None).
Proof.
  intros Hok Hoff Hn H. unfold resolver_ReadAt in H. cbv zeta in H.
  assert (forall e, (res, r', ctx') = ({| rn := 0; rdata := []; rerr := Some e |}, r, ctx) ->
    (forall p, resolver_byte r ref p = None) \/ resolver_byte r ref off = None ->
    resolver_ok r' /\ r' = set_cache r (r_cache r') /\ rn res = zlen (rdata res) /\ rn res <= n
    /\ (forall j, 0 <= j < rn res ->
          exists b, rdata res !! Z.to_nat j = Some b /\ resolver_byte r ref (off + j) = Some b)
    /\ (ctx = None -> (forall p, off <= p < off + n -> is_Some (resolver_byte r ref p)) ->
        ctx' = None /\ rn res = n /\ rerr res = None)) as Hfail.
  { intros e [= -> -> ->] Hnone. simpl. split_and!; [done|apply set_cache_same|done|lia|intros; lia|].
    intros _ Hav. exfalso. destruct (Hav off) as [b Hb]; [lia|].
    destruct Hnone as [Hnone|Hnone]; by rewrite Hnone in Hb. }
  destruct (off <? 0) eqn:E; zbool; [lia|]. destruct (n =? 0) eqn:E0; zbool; [lia|].
  destruct (lookupObject r (SHA256 ref)) as [[o|]|e] eqn:El.
  2: { apply (Hfail _ (eq_sym H)). left. intros p. unfold resolver_byte. by rewrite El. }
  2: { apply (Hfail _ (eq_sym H)). left. intros p. unfold resolver_byte. by rewrite El. }
  assert (object_in r o) as Ho by by eexists.
  destruct (o_RawBytes o =? RawBytes ref) eqn:Es; simpl in H.
  2: { apply (Hfail _ (eq_sym H)). left. intros p. unfold resolver_byte. by rewrite El, Es. }
  assert (forall p, resolver_byte r ref p = object_byte_of r o p) as Hbyte.
  { intros p. unfold resolver_byte. by rewrite El, Es. }
  destruct (off >=? o_RawBytes o) eqn:Ee; zbool.
  { apply (Hfail _ (eq_sym H)). right. rewrite Hbyte.
    destruct (object_byte_of r o off) eqn:Eb; [|done].
    apply object_byte_of_bound in Eb; [lia|done|done]. }
  destruct (read_loop_spec (Z.to_nat n) r ctx o n off []) as
    (more & err & r1 & ctx1 & Hl & Hok1 & Hr1 & Hlen & Hreads & Hcomp); auto.
  { rewrite zlen_nil. lia. } { rewrite zlen_nil. lia. }
  rewrite Hl in H. simplify_eq. cbn [app] in *. cbn [rn rdata rerr] in *.
  split_and!; [done..| |].
  - intros j Hj. destruct (Hreads j Hj) as (b & Hb & Hob). exists b. by rewrite Hbyte.
  - intros Hctx Hav. replace (n - zlen (@nil byte)) with n in Hcomp by (rewrite zlen_nil; lia).
    apply Hcomp; [done| |].
    + intros p Hp. rewrite <- Hbyte. auto.
    + destruct (Hav (off + n - 1)) as [b Hb]; [lia|]. rewrite Hbyte in Hb.
      apply object_byte_of_bound in Hb; [lia|done|done].
Qed.

#[local, refine] Instance resolver_reader_law : ObjectReaderLaw Resolver := {|
  reader_ok := resolver_ok;
  object_byte := resolver_byte;
|}.
Proof.
  - intros r ref ref' p Hs Hb. unfold resolver_byte. by rewrite Hs, Hb.
  - intros r ctx ref n off res r' ctx' Hok Hoff Hn H.
    destruct (resolver_ReadAt_spec _ _ _ _ _ _ _ _ Hok Hoff Hn H) as (Hok' & Hr & Hrn & Hle & Hb & _).
    split_and!; [done| |rewrite Hrn; apply zlen_nonneg|done|done].
    intros ref' p. by rewrite Hr.
  - intros r ref n off res r' ctx' Hok Hoff Hn Hav H.
    destruct (resolver_ReadAt_spec _ _ _ _ _ _ _ _ Hok Hoff Hn H) as (_ & _ & _ & _ & _ & Hc).
    destruct (Hc eq_refl Hav) as (-> & ? & ->). auto.
Defined.
End ResolverLemmas.

(** ** Opening a version 3 generation *)

Section Open.
Context (i : indexV3) (Hsized : index_sized i) (packSizes : gmap string Z).
Let count := m_ObjectCount (meta i).

Lemma validate_v3_bounds_spec n pos prev :
  0 <= pos -> pos + Z.of_nat n <= count -> validate_v3_bounds i packSizes n pos prev = Ok tt ->
  (forall k, pos <= k < pos + Z.of_nat n ->
     (0 < k -> bytes_lt (if decide (k = pos) then prev else or_Digest (record_at i (k - 1)))
                        (or_Digest (record_at i k)))
     /\ exists o, expandObject i (record_at i k) = Ok o
          /\ validateObjectBlockBounds o packSizes = Ok tt).
Proof using Hsized.
  revert pos prev. induction n as [|n IH]; intros pos prev Hpos Hle H k Hk; [lia|].
  cbn [validate_v3_bounds] in H. unfold objectAt in H.
  rewrite readObjectRecord_at in H by (unfold count in *; auto; lia).
  destruct ((pos >? 0) && _) eqn:E; [done|].
  destruct (expandObject i (record_at i pos)) as [o|] eqn:Eo; [|done].
  destruct (validateObjectBlockBounds o packSizes) as [[]|] eqn:Eb; [|done].
  destruct (Z.eq_dec k pos) as [->|Hne].
  - split; [|eauto]. intros Hp. rewrite decide_True by done.
    destruct (pos >? 0) eqn:E0; zbool; [|lia]. simpl in E. unfold bytes_lt.
    by destruct (bytes_Compare prev _).
  - destruct (IH (pos + 1) _ ltac:(lia) ltac:(lia) H k ltac:(lia)) as [Hlt Ho].
    split; [|done]. intros Hp. rewrite decide_False by done. specialize (Hlt Hp).
    case_decide as Hd; [|done]. by replace (k - 1) with pos by lia.
Qed.

Lemma validateResolverBounds_v3_sorted :
  validateResolverBounds_v3 i packSizes = Ok tt -> digests_sorted i.
Proof using Hsized.
  intros H. assert (0 <= count) as Hc by apply Hsized.
  pose proof (validate_v3_bounds_spec (Z.to_nat count) 0 _ ltac:(lia) ltac:(lia) H) as Hspec.
  assert (forall k, 0 < k < count ->
    bytes_lt (or_Digest (record_at i (k - 1))) (or_Digest (record_at i k))) as Hstep.
  { intros k Hk. destruct (Hspec k ltac:(lia)) as [Hlt _]. specialize (Hlt ltac:(lia)).
    by rewrite decide_False in Hlt by lia. }
  intros a b Hab Hb. replace b with (a + Z.of_nat (S (Z.to_nat (b - a - 1)))) in * by lia.
  revert Hb. generalize (Z.to_nat (b - a - 1)). intros d. induction d as [|d IH]; intros Hb.
  - replace a with (a + Z.of_nat 1 - 1) at 1 by lia. apply Hstep. unfold count in *. lia.
  - etrans; [apply IH; lia|].
    replace (a + Z.of_nat (S d)) with (a + Z.of_nat (S (S d)) - 1) by lia.
    apply Hstep. unfold count in *. lia.
Qed.

Lemma record_at_digest k : 0 <= k < count -> zlen (or_Digest (record_at i k)) = 32.
Proof using Hsized.
  intros Hk. destruct Hsized as [Hn [Hc Hlen]].
  destruct (record_offset_no_wrap _ objectV3RecordBytes k eq_refl Hk Hc) as (_ & Hlo & Hhi).
  simpl. unfold objectV3RecordBytes in *. rewrite !zlen_slice by lia. lia.
Qed.

Lemma lookupV3_inv digest o :
  lookupV3 i digest = Some (Ok (Some o)) ->
  exists k, 0 <= k < count /\ expandObject i (record_at i k) = Ok o
    /\ o_SHA256 o = hex_EncodeToString (or_Digest (record_at i k)).
Proof using Hsized.
  unfold lookupV3. intros H.
  destruct (decodeDigest digest) as [want|]; [|done].
  destruct (lookup_loop _ _ _ _ _) as [[lo|]|]; [|done|done].
  destruct (lo >=? _) eqn:E; [done|]. zbool.
  destruct (readObjectRecord i lo) as [record|] eqn:Er; [|done].
  assert (0 <= lo) as Hlo.
  { unfold readObjectRecord in Er. destruct (_ || _) eqn:E1; [done|]. by zbool. }
  rewrite readObjectRecord_at in Er by (auto; unfold count in *; lia). simplify_eq.
  destruct (negb _); [done|]. destruct (expandObject i (record_at i lo)) as [o'|] eqn:Eo; [|done].
  simplify_eq. exists lo. split_and!; [done|unfold count in *; lia|done|].
  unfold expandObject in Eo. repeat case_match; simplify_eq. done.
Qed.
End Open.

(** The resolver that [openGeneration] builds over a version 3 index. *)
Definition open_v3 (i : indexV3) (packs : gmap string bytes) (cacheBytes : Z) : Resolver :=
  {| r_v3 := Some i; r_objects := ∅; r_packs := packs; r_cache := newBlockCache cacheBytes |}.

Lemma lookupObject_open_v3 i packs cb digest o :
  lookupObject (open_v3 i packs cb) digest = Ok (Some o) -> lookupV3 i digest = Some (Ok (Some o)).
Proof. unfold lookupObject. simpl. destruct (lookupV3 i digest); naive_solver. Qed.

Lemma open_v3_resolver_ok sha256 zstd i packs packSizes cacheBytes :
  0 <= m_ObjectCount (meta i) -> validateSizes i = Ok tt ->
  validateResolverBounds_v3 i packSizes = Ok tt ->
  (forall k o, 0 <= k < m_ObjectCount (meta i) -> objectAt i k = Ok o ->
     raw_total (o_Blocks o) <= max_int64) ->
  resolver_ok sha256 zstd (open_v3 i packs cacheBytes).
Proof.
  intros Hn Hv Hb Hover. pose proof (validateSizes_sized i Hn Hv) as Hsized.
  pose proof (validateResolverBounds_v3_sorted i Hsized packSizes Hb) as Hsorted.
  assert (forall o, object_in (open_v3 i packs cacheBytes) o ->
    exists k, 0 <= k < m_ObjectCount (meta i) /\ expandObject i (record_at i k) = Ok o
      /\ o_SHA256 o = hex_EncodeToString (or_Digest (record_at i k))) as Hin.
  { intros o [digest Hl%lookupObject_open_v3]. by apply lookupV3_inv in Hl. }
  split.
  - simpl. unfold newBlockCache. split; simpl; [|done| |constructor];
      destruct (cacheBytes <? 0) eqn:E; zbool; lia.
  - intros o (k & Hk & Ho & Hsha)%Hin. split.
    + rewrite Hsha, hex_Encode_length.
      pose proof (record_at_digest i Hsized k Hk) as Hd. unfold zlen in Hd. lia.
    + assert (objectAt i k = Ok o) as Hat.
      { unfold objectAt. by rewrite readObjectRecord_at. }
      specialize (Hover k o Hk Hat).
      destruct (expandObject_tiles_lemma _ _ _ Ho) as [_ Ht]. specialize (Ht Hover).
      split; [done|]. rewrite (tiles_total _ _ _ Ht). lia.
  - intros o1 o2 (k1 & Hk1 & Ho1 & Hs1)%Hin (k2 & Hk2 & Ho2 & Hs2)%Hin Heq.
    rewrite Hs1, Hs2 in Heq. apply hex_Encode_inj in Heq.
    apply (digest_inj i Hsorted) in Heq; auto. congruence.
  - intros o k b d _ _ Hd. done.
Qed.

(** A version 3 generation that passes the checks of [validateIndexV3Meta],
    [validateSizes] and [validateResolverBounds] gives a resolver that meets the
    object-reader contract, provided no object's block sizes overflow: objects
    are covered by their blocks, digests are unambiguous, the cache is
    faithful. *)
Theorem open_v3_ok sha256 zstd i packs packSizes cacheBytes :
  0 <= m_ObjectCount (meta i) -> validateSizes i = Ok tt ->
  validateResolverBounds_v3 i packSizes = Ok tt ->
  (forall k o, 0 <= k < m_ObjectCount (meta i) -> objectAt i k = Ok o ->
     raw_total (o_Blocks o) <= max_int64) ->
  resolver_ok sha256 zstd (open_v3 i packs cacheBytes).
Proof. apply open_v3_resolver_ok. Qed.

(** A two-object generation with toy stand-ins for the hash and the decoder. *)
Definition toy_sha256 (d : bytes) : bytes := le_bytes 32 (le_val d).
Definition toy_zstd (d : bytes) : result bytes := Ok (d ++ [Byte.x00]).
Definition sample_v3 : indexV3 := built_index sample_meta sample_records sample_blocks.
Definition sample_pack : gmap string bytes :=
  {["pack-000001.pack" := le_bytes 4 7 ++ le_bytes 2 8 ++ le_bytes 2 9]}.
Definition sample_pack_sizes : gmap string Z := {["pack-000001.pack" := 8]}.

Lemma sample_v3_no_overflow k o :
  0 <= k < m_ObjectCount (meta sample_v3) -> objectAt sample_v3 k = Ok o ->
  raw_total (o_Blocks o) <= max_int64.
Proof.
  intros Hk. assert (k = 0 \/ k = 1) as [-> | ->] by (change (0 <= k < 2) in Hk; lia);
    intros Ho; vm_compute in Ho; injection Ho as <-; vm_compute; discriminate.
Qed.

Lemma open_v3_ok_witness :
  resolver_ok toy_sha256 toy_zstd (open_v3 sample_v3 sample_pack 16).
Proof.
  apply (open_v3_ok toy_sha256 toy_zstd sample_v3 sample_pack sample_pack_sizes 16).
  - vm_compute. discriminate.
  - vm_compute. reflexivity.
  - vm_compute. reflexivity.
  - exact sample_v3_no_overflow.
Defined.

(** Where a byte handed out by a resolver comes from: the block of the object
    that covers its position, decoded and checked against its recorded digest. *)
Definition verified_byte (sha256 : bytes -> bytes) (r : Resolver) (ref : ObjectRef) (p : Z) (x : byte)
  : Prop :=
  exists object k block data,
    lookupObject r (SHA256 ref) = Ok (Some object) /\ o_RawBytes object = RawBytes ref
    /\ o_Blocks object !! k = Some block
    /\ hex_EncodeToString (sha256 data) = b_SHA256 block /\ zlen data = b_RawBytes block
    /\ data !! Z.to_nat (p - b_RawOffset block) = Some x.

Lemma block_contents_digest sha256 zstd r b d :
  block_contents sha256 zstd r b = Ok d -> hex_EncodeToString (sha256 d) = b_SHA256 b.
Proof.
  unfold block_contents. intros H. repeat case_match; simplify_eq; zbool;
  by eapply bool_decide_eq_true_1.
Qed.

Lemma resolver_byte_verified sha256 zstd r ref p x :
  resolver_byte sha256 zstd r ref p = Some x -> verified_byte sha256 r ref p x.
Proof.
  unfold resolver_byte, object_byte_of. intros H.
  destruct (lookupObject r (SHA256 ref)) as [[o|]|] eqn:El; [|done|done].
  destruct (o_RawBytes o =? RawBytes ref) eqn:Es; [|done]. zbool.
  destruct (o_Blocks o !! _) as [b|] eqn:Eb; [|done].
  destruct (block_contents _ _ r b) as [d|] eqn:Ed; [|done].
  exists o, (Z.to_nat (search_block (o_Blocks o) p)), b, d. split_and!; try done.
  - by eapply block_contents_digest.
  - by eapply contents_len.
Qed.

(** C11. Every read from an opened resolver, after any earlier reads, returns
    only bytes of the requested object that come from a block whose decoded data
    has the recorded digest; it keeps the resolver open and well formed; and a
    read whose bytes are all available is returned in full, without an error,
    unless it is cancelled. *)
Theorem packed_read_verified sha256 zstd r ctx ref n off res r' ctx' :
  resolver_ok sha256 zstd r -> 0 <= off -> 0 < n ->
  resolver_ReadAt sha256 zstd r ctx ref n off = (res, r', ctx') ->
  resolver_ok sha256 zstd r'
  /\ rn res = zlen (rdata res) /\ rn res <= n
  /\ (forall j x, 0 <= j -> rdata res !! Z.to_nat j = Some x -> verified_byte sha256 r ref (off + j) x)
  /\ (ctx = None -> (forall p, off <= p < off + n -> is_Some (resolver_byte sha256 zstd r ref p)) ->
      rn res = n /\ rerr res = None).
Proof.
  intros Hok Hoff Hn H.
  destruct (resolver_ReadAt_spec _ _ _ _ _ _ _ _ _ _ Hok Hoff Hn H) as (Hok' & _ & Hlen & Hle & Hb & Hc).
  split_and!; [done..| |naive_solver].
  intros j x Hj Hx. destruct (Hb j) as (y & Hy & Hp).
  - apply lookup_lt_Some in Hx. unfold zlen in *. lia.
  - simplify_eq. by eapply resolver_byte_verified.
Qed.

(** A three-byte read that crosses the two blocks of the first object. *)
Lemma packed_read_verified_witness :
  let r := open_v3 sample_v3 sample_pack 16 in
  let ref := {| SHA256 := hex_EncodeToString (le_bytes 32 1); RawBytes := 6; StoredBytes := 6 |} in
  let res := (resolver_ReadAt toy_sha256 toy_zstd r None ref 3 2).1.1 in
  rn res = 3 /\ verified_byte toy_sha256 r ref 4 (byte_of 8).
Proof.
  intros r ref res.
  refine (match packed_read_verified toy_sha256 toy_zstd r None ref 3 2 res _ _
    (open_v3_resolver_ok toy_sha256 toy_zstd sample_v3 sample_pack sample_pack_sizes 16 _ _ _ _)
    _ _ _ with
  | conj _ (conj _ (conj _ (conj Hb Hc))) => conj (proj1 (Hc eq_refl _)) (Hb 2 _ _ _) end).
  - vm_compute. discriminate.
  - vm_compute. reflexivity.
  - vm_compute. reflexivity.
  - exact sample_v3_no_overflow.
  - lia.
  - lia.
  - vm_compute. reflexivity.
  - intros p Hp. assert (p = 2 \/ p = 3 \/ p = 4) as [-> | [-> | ->]] by lia;
      vm_compute; eexists; reflexivity.
  - lia.
  - vm_compute. reflexivity.
Defined.
