(* ===== verification/Manifest.v ===== *)
(** Fold manifests: [src/internal/fold/manifest.go].

    A manifest records how one session file is put together from stored
    objects.  The data types, the validation that every loaded or written
    manifest passes, and the lemmas on the total length of a list of parts that
    the virtual view and folding share.  The JSON encoding is not modelled. *)
From S2P Require Import Prelude GoStd ObjectReader.

Definition ManifestVersion : Z := 1.
Definition ManifestKind : string := "fold-v1".
Definition ManifestVersionV2 : Z := 2.
Definition ManifestKindV2 : string := "fold-v2".
Definition PartResidual : string := "residual".
Definition PartField : string := "field".
Definition PartRecord : string := "record".

Record ManifestSession := {
  ms_ID : string;
  ms_Title : string;
  ms_CWD : string;
  ms_RolloutPath : string;
  ms_Archived : bool;
}.

Record ManifestSource := {
  src_Bytes : Z;
  src_SHA256 : string;
}.

Record ManifestSettings := {
  FieldThreshold : Z;
  MaxJSONLineBytes : Z;
  CDCMinBytes : Z;
  CDCAverageBytes : Z;
  CDCMaxBytes : Z;
  Compression : string;
  RecordThreshold : Z;
}.

Record Part := {
  p_Kind : string;
  p_JSONPath : string;
  p_Object : ObjectRef;
}.

Record Manifest := {
  mf_Version : Z;
  mf_Kind : string;
  mf_CreatedAt : string;
  mf_Session : ManifestSession;
  mf_Source : ManifestSource;
  mf_Settings : ManifestSettings;
  mf_Parts : list Part;
}.

Definition string_is (a b : string) : bool := bool_decide (a = b).

Definition SupportedManifest (version : Z) (kind : string) : bool :=
  ((version =? ManifestVersion) && string_is kind ManifestKind)
  || ((version =? ManifestVersionV2) && string_is kind ManifestKindV2).

Definition SupportedPart (version : Z) (kind : string) : bool :=
  if string_is kind PartResidual || string_is kind PartField then true
  else (version =? ManifestVersionV2) && string_is kind PartRecord.

(** [strings.ContainsAny] for ASCII character sets. *)
Fixpoint strings_ContainsAny (s chars : string) : bool :=
  match s with
  | EmptyString => false
  | String c s => existsb (Ascii.eqb c) (String.list_ascii_of_string chars)
                  || strings_ContainsAny s chars
  end.

(** The characters [/], [\ ] and NUL. *)
Definition unsafe_characters : string := String.append "/\" (String Ascii.zero EmptyString).

Definition validateSessionID (sessionID : string) : result unit :=
  if string_is sessionID "" || string_is sessionID "." || string_is sessionID ".."
     || strings_ContainsAny sessionID unsafe_characters
  then Err (errors_new "unsafe fold session id %q")
  else Ok tt.

Fixpoint validate_manifest_parts (version : Z) (parts : list Part) : result unit :=
  match parts with
  | [] => Ok tt
  | part :: parts =>
      if negb (SupportedPart version (p_Kind part)) then
        Err (errors_new "fold manifest part %d has unsupported kind %q")
      else if negb (Z.of_nat (String.length (SHA256 (p_Object part))) =? 64)
              || (RawBytes (p_Object part) <? 0) then
        Err (errors_new "fold manifest part %d has invalid object reference")
      else validate_manifest_parts version parts
  end.

Definition validateManifest (manifest : Manifest) : result unit :=
  if negb (SupportedManifest (mf_Version manifest) (mf_Kind manifest)) then
    Err (errors_new "unsupported fold manifest kind %q")
  else if string_is (ms_ID (mf_Session manifest)) ""
          || string_is (src_SHA256 (mf_Source manifest)) "" then
    Err (errors_new "fold manifest is missing session id or source SHA-256")
  else
    match validateSessionID (ms_ID (mf_Session manifest)) with
    | Err e => Err e
    | Ok _ => validate_manifest_parts (mf_Version manifest) (mf_Parts manifest)
    end.

(** ** The length of a list of parts *)

Definition part_bytes (part : Part) : Z := RawBytes (p_Object part).
Fixpoint parts_total (parts : list Part) : Z :=
  match parts with
  | [] => 0
  | part :: parts => part_bytes part + parts_total parts
  end.

Definition parts_positive (parts : list Part) : Prop := Forall (fun p => 0 < part_bytes p) parts.

Lemma parts_total_app l k : parts_total (l ++ k) = parts_total l + parts_total k.
Proof. induction l as [|p l IH]; simpl; lia. Qed.

Lemma parts_total_nonneg parts : parts_positive parts -> 0 <= parts_total parts.
Proof. induction 1; simpl; lia. Qed.

Lemma parts_total_take_S parts k part :
  parts !! k = Some part -> parts_total (take (S k) parts) = parts_total (take k parts) + part_bytes part.
Proof.
  intros H. rewrite (take_S_r _ _ _ H), parts_total_app. simpl. lia.
Qed.

Lemma parts_total_take_mono parts j k :
  parts_positive parts -> (j <= k)%nat -> parts_total (take j parts) <= parts_total (take k parts).
Proof.
  intros Hp Hjk. rewrite <- (take_drop j (take k parts)), parts_total_app, take_take.
  replace (j `min` k)%nat with j by lia.
  pose proof (parts_total_nonneg (drop j (take k parts))) as Hn.
  assert (0 <= parts_total (drop j (take k parts))); [|lia].
  apply Hn. apply Forall_drop, Forall_take, Hp.
Qed.

Lemma parts_total_take_le parts k :
  parts_positive parts -> parts_total (take k parts) <= parts_total parts.
Proof.
  intros Hp. destruct (Nat.le_gt_cases (length parts) k) as [Hk|Hk].
  - by rewrite take_ge.
  - rewrite <- (take_ge parts (length parts)) at 2 by lia. apply parts_total_take_mono; [done|lia].
Qed.
