(* ===== verification/View.v ===== *)
(** The virtual view of a folded file: [src/internal/vfs/view.go].

    A [View] presents the concatenation of a manifest's parts as one byte range.
    [view_ReadAt] locates the first part by binary search and fills the
    caller's buffer part by part through an object reader; when a whole part was
    read and the next parts name the same object it copies the bytes already in
    the buffer instead of reading again.  The theorems are proved for any reader
    that meets [ObjectReaderLaw]. *)
From S2P Require Import Prelude GoStd ObjectReader Manifest PackIndex PackCache PackResolver.

(** ** Buffers: [copy(dest[pos:], data)] *)

Definition splice (pos : Z) (data dest : bytes) : bytes :=
  ztake pos dest ++ ztake (zlen dest - pos) data ++ zdrop (pos + zlen data) dest.

Lemma zlen_splice pos data dest : 0 <= pos <= zlen dest -> zlen (splice pos data dest) = zlen dest.
Proof.
  intros H. pose proof (zlen_nonneg data). unfold splice. rewrite !zlen_app, !zlen_ztake, zlen_zdrop. lia.
Qed.

Lemma splice_before pos data dest j :
  0 <= j < pos -> pos <= zlen dest -> splice pos data dest !! Z.to_nat j = dest !! Z.to_nat j.
Proof.
  intros Hj Hpos. unfold splice, ztake, zlen in *. rewrite lookup_app_l by (rewrite length_take; lia).
  by rewrite lookup_take_lt by lia.
Qed.

Lemma splice_inside pos data dest j :
  0 <= pos <= zlen dest -> 0 <= j < zlen data -> pos + j < zlen dest ->
  splice pos data dest !! Z.to_nat (pos + j) = data !! Z.to_nat j.
Proof.
  intros Hpos Hj Hd. unfold splice, ztake, zlen in *.
  rewrite lookup_app_r by (rewrite length_take; lia). rewrite length_take.
  rewrite lookup_app_l by (rewrite length_take; lia). rewrite lookup_take_lt by lia.
  f_equal. lia.
Qed.

(** ** The view *)

Section View.
Context {R : Type} `{ObjectReader R}.

Record View := {
  v_manifest : Manifest;
  v_ends : list Z;
  v_reader : R;
}.

Definition set_reader (v : View) (r : R) : View :=
  {| v_manifest := v_manifest v; v_ends := v_ends v; v_reader := r |}.

(** The loop of [NewView]: the end offset of each part. *)
Fixpoint view_ends (version : Z) (parts : list Part) (total : Z) : result (list Z * Z) :=
  match parts with
  | [] => Ok ([], total)
  | part :: parts =>
      if negb (SupportedPart version (p_Kind part)) then
        Err (errors_new "manifest part %d has unsupported kind %q")
      else if negb (Z.of_nat (String.length (SHA256 (p_Object part))) =? 64)
              || (RawBytes (p_Object part) <=? 0) then
        Err (errors_new "manifest part %d has invalid object reference")
      else if RawBytes (p_Object part) >? i64 (max_int64 - total) then
        Err (errors_new "manifest byte length overflows int64")
      else
        let total := i64 (total + RawBytes (p_Object part)) in
        match view_ends version parts total with
        | Err e => Err e
        | Ok (ends, fin) => Ok (total :: ends, fin)
        end
  end.

Definition NewView (manifest : Manifest) (reader : option R) : result View :=
  match reader with
  | None => Err (errors_new "virtual view object reader is required")
  | Some reader =>
      if negb (SupportedManifest (mf_Version manifest) (mf_Kind manifest)) then
        Err (errors_new "unsupported fold manifest version=%d kind=%q")
      else
        match view_ends (mf_Version manifest) (mf_Parts manifest) 0 with
        | Err e => Err e
        | Ok (ends, total) =>
            if negb (total =? src_Bytes (mf_Source manifest)) then
              Err (errors_new "manifest parts total %d bytes, source records %d")
            else Ok {| v_manifest := manifest; v_ends := ends; v_reader := reader |}
        end
  end.

Definition view_Size (v : View) : Z := src_Bytes (mf_Source (v_manifest v)).

Definition sameObjectBytes (first second : ObjectRef) : bool :=
  string_is (SHA256 first) (SHA256 second) && (RawBytes first =? RawBytes second).

(** The result of a read: the buffer, the count and error, the reader, the
    context; [None] is an index panic or exhausted fuel. *)
Definition view_out : Type := option (read_result * View * Ctx).
Definition view_done (n : Z) (dest : bytes) (err : option error) (v : View) (ctx : Ctx) : view_out :=
  Some ({| rn := n; rdata := dest; rerr := err |}, v, ctx).

(** The inner loop: the following parts that repeat the object just read into
    [dest[src:...]].  The answer is either an early return or the position
    reached. *)
Fixpoint repeat_loop (fuel : nat) (v : View) (ctx : Ctx) (object : ObjectRef) (src : Z)
    (dest : bytes) (written offset partIndex : Z)
  : option ((error + unit) * bytes * Z * Z * Z * Ctx) :=
  if (written <? zlen dest) && (partIndex + 1 <? zlen (mf_Parts (v_manifest v))) then
    match fuel with
    | O => None
    | S fuel =>
        let '(err, ctx) := ctx_Err ctx in
        match err with
        | Some e => Some (inl e, dest, written, offset, partIndex, ctx)
        | None =>
            match mf_Parts (v_manifest v) !! Z.to_nat (partIndex + 1) with
            | None => None
            | Some next =>
                if negb (sameObjectBytes object (p_Object next))
                then Some (inr tt, dest, written, offset, partIndex, ctx)
                else
                  let repeatedBytes := Z.min (zlen dest - written) (RawBytes (p_Object next)) in
                  let dest := splice written (slice src (src + repeatedBytes) dest) dest in
                  let written := written + repeatedBytes in
                  let offset := offset + repeatedBytes in
                  let partIndex := partIndex + 1 in
                  if repeatedBytes <? RawBytes (p_Object next)
                  then Some (inr tt, dest, written, offset, partIndex, ctx)
                  else repeat_loop fuel v ctx object src dest written offset partIndex
            end
        end
    end
  else Some (inr tt, dest, written, offset, partIndex, ctx).

Definition part_start (v : View) (partIndex : Z) : option Z :=
  if partIndex >? 0 then v_ends v !! Z.to_nat (partIndex - 1) else Some 0.

Fixpoint view_loop (fuel : nat) (v : View) (ctx : Ctx) (dest : bytes)
    (written offset partIndex : Z) : view_out :=
  if (written <? zlen dest) && (offset <? view_Size v) then
    match fuel with
    | O => None
    | S fuel =>
        let '(err, ctx) := ctx_Err ctx in
        match err with
        | Some e => view_done written dest (Some e) v ctx
        | None =>
            if partIndex =? zlen (v_ends v) then
              view_done written dest (Some (errors_new "manifest has no part for offset %d")) v ctx
            else
              match part_start v partIndex, mf_Parts (v_manifest v) !! Z.to_nat partIndex with
              | Some partStart, Some part =>
                  let inside := offset - partStart in
                  let remaining := RawBytes (p_Object part) - inside in
                  let need := if zlen dest - written >? remaining then remaining
                              else zlen dest - written in
                  let '(res, reader, ctx) := object_ReadAt (v_reader v) ctx (p_Object part) need inside in
                  let v := set_reader v reader in
                  let source := written in
                  let dest := splice written (ztake need (rdata res)) dest in
                  let n := rn res in
                  if (n <? 0) || (n >? need) then
                    view_done written dest
                      (Some (errors_new "object reader returned invalid byte count %d for request %d")) v ctx
                  else
                    let written := written + n in
                    let offset := offset + n in
                    if negb (n =? need) then
                      let e := match rerr res with Some e => e | None => io_ErrUnexpectedEOF end in
                      view_done written dest (Some (errorf "read manifest part %d: %w" e)) v ctx
                    else
                      match (match rerr res with
                             | Some e => if is_EOF e then None else Some e
                             | None => None
                             end) with
                      | Some e => view_done written dest (Some (errorf "read manifest part %d: %w" e)) v ctx
                      | None =>
                          if (inside =? 0) && (need =? RawBytes (p_Object part)) then
                            match repeat_loop (length dest) v ctx (p_Object part) source
                                    dest written offset partIndex with
                            | None => None
                            | Some (inl e, dest, written, offset, partIndex, ctx) =>
                                view_done written dest (Some e) v ctx
                            | Some (inr tt, dest, written, offset, partIndex, ctx) =>
                                view_loop fuel v ctx dest written offset (partIndex + 1)
                            end
                          else view_loop fuel v ctx dest written offset (partIndex + 1)
                      end
              | _, _ => None
              end
        end
    end
  else view_done written dest (if written <? zlen dest then Some io_EOF else None) v ctx.

Definition view_search (v : View) (offset : Z) : Z :=
  sort_Search (zlen (v_ends v)) (fun index =>
    match v_ends v !! Z.to_nat index with Some e => e >? offset | None => false end).

Definition view_ReadAt (v : View) (ctx : Ctx) (dest : bytes) (offset : Z) : view_out :=
  if offset <? 0 then view_done 0 dest (Some (errors_new "negative virtual read offset")) v ctx
  else if zlen dest =? 0 then view_done 0 dest None v ctx
  else
    let '(err, ctx) := ctx_Err ctx in
    match err with
    | Some e => view_done 0 dest (Some e) v ctx
    | None =>
        if offset >=? view_Size v then view_done 0 dest (Some io_EOF) v ctx
        else
          let partIndex := view_search v offset in
          if partIndex =? zlen (v_ends v) then
            view_done 0 dest (Some (errors_new "manifest has no part for offset %d")) v ctx
          else view_loop (length dest) v ctx dest 0 offset partIndex
    end.
End View.
Arguments View R : clear implicits.

(** ** The bytes of the virtual file *)

Section ViewLaws.
Context {R : Type} `{ObjectReaderLaw R}.

(** The concatenation of the parts, as a function from positions to bytes. *)
Fixpoint parts_byte (r : R) (parts : list Part) (p : Z) : option byte :=
  match parts with
  | [] => None
  | part :: parts =>
      if p <? part_bytes part then object_byte r (p_Object part) p
      else parts_byte r parts (p - part_bytes part)
  end.

Definition view_byte (v : View R) (p : Z) : option byte :=
  parts_byte (v_reader v) (mf_Parts (v_manifest v)) p.

Lemma parts_byte_at r parts k part q :
  parts_positive parts -> parts !! k = Some part -> 0 <= q < part_bytes part ->
  parts_byte r parts (parts_total (take k parts) + q) = object_byte r (p_Object part) q.
Proof.
  intros Hp. revert k. induction Hp as [|p ps Hpos Hp IH]; intros [|k] Hk Hq; simpl in *; try done.
  - simplify_eq. rewrite Z.add_0_l. destruct (q <? part_bytes part) eqn:E; zbool; [done|lia].
  - pose proof (parts_total_nonneg (take k ps) (Forall_take _ _ _ Hp)).
    destruct (_ <? _) eqn:E; zbool; [lia|]. rewrite <- (IH k) by done. f_equal. lia.
Qed.

Lemma parts_byte_ext r r' parts p :
  (forall ref q, object_byte r' ref q = object_byte r ref q) ->
  parts_byte r' parts p = parts_byte r parts p.
Proof. intros He. revert p. induction parts as [|part ps IH]; intros p; simpl; [done|]. by rewrite He, IH. Qed.

(** A view as [NewView] returns it. *)
Record view_ok (v : View R) : Prop := {
  vok_positive : parts_positive (mf_Parts (v_manifest v));
  vok_len : length (v_ends v) = length (mf_Parts (v_manifest v));
  vok_ends : forall k e, v_ends v !! k = Some e -> e = parts_total (take (S k) (mf_Parts (v_manifest v)));
  vok_size : view_Size v = parts_total (mf_Parts (v_manifest v));
  vok_bound : view_Size v <= max_int64;
}.

Lemma view_ends_spec version parts total ends fin :
  view_ends version parts total = Ok (ends, fin) -> 0 <= total <= max_int64 ->
  parts_positive parts /\ length ends = length parts
  /\ (forall k e, ends !! k = Some e -> e = total + parts_total (take (S k) parts))
  /\ fin = total + parts_total parts /\ fin <= max_int64.
Proof.
  revert total ends fin. induction parts as [|part ps IH]; intros total ends fin Hv Ht.
  - simpl in *. simplify_eq. split_and!; [constructor|done|done|lia|lia].
  - cbn [view_ends] in Hv. destruct (negb (SupportedPart _ _)); [done|].
    destruct (_ || _) eqn:E1; [done|]. destruct (_ >? _) eqn:E2; [done|]. zbool.
    rewrite i64_id in E2 by (unfold in_i64, max_int64 in *; lia).
    rewrite i64_id in Hv by (unfold in_i64, max_int64 in *; lia).
    destruct (view_ends version ps _) as [[ends' fin']|] eqn:Er; [|done]. simplify_eq.
    destruct (IH _ _ _ Er) as (Hp & Hl & He & -> & Hfin); [lia|].
    unfold part_bytes in *. split_and!; [by constructor|simpl; lia| | |done].
    + intros [|k] e Hk; simpl in Hk; simplify_eq; simpl; unfold part_bytes; [lia|].
      rewrite (He _ _ Hk). simpl. lia.
    + simpl. unfold part_bytes. lia.
Qed.

Lemma NewView_ok manifest r v :
  NewView manifest (Some r) = Ok v -> view_ok v /\ v_manifest v = manifest /\ v_reader v = r.
Proof.
  unfold NewView. intros Hv. destruct (negb (SupportedManifest _ _)); [done|].
  destruct (view_ends _ _ _) as [[ends total]|] eqn:Ee; [|done].
  destruct (negb (total =? _)) eqn:Et; [done|]. zbool. simplify_eq.
  destruct (view_ends_spec _ _ _ _ _ Ee) as (Hp & Hl & He & Hfin & Hb).
  { unfold max_int64. lia. }
  split; [|done]. split; unfold view_Size; simpl; auto; lia.
Qed.

Lemma view_ok_set_reader v r : view_ok v -> view_ok (set_reader v r).
Proof. intros [? ? ? ? ?]. by split. Qed.

Lemma part_start_spec v k :
  view_ok v -> (k <= length (v_ends v))%nat ->
  part_start v (Z.of_nat k) = Some (parts_total (take k (mf_Parts (v_manifest v)))).
Proof.
  intros Hok Hk. unfold part_start. destruct k as [|k]; [done|].
  destruct (_ >? 0) eqn:E; zbool; [|lia].
  replace (Z.to_nat (Z.of_nat (S k) - 1)) with k by lia.
  destruct (lookup_lt_is_Some_2 (v_ends v) k) as [e He]; [lia|].
  by rewrite He, <- (vok_ends _ Hok _ _ He).
Qed.

Lemma view_search_spec v off :
  view_ok v -> 0 <= off < view_Size v ->
  exists k part, view_search v off = Z.of_nat k /\ mf_Parts (v_manifest v) !! k = Some part
    /\ 0 <= off - parts_total (take k (mf_Parts (v_manifest v))) < part_bytes part.
Proof.
  intros Hok Hoff. unfold view_search. set (ps := mf_Parts (v_manifest v)).
  set (f := fun index => match v_ends v !! Z.to_nat index with Some e => e >? off | None => false end).
  assert (forall k, (k < length ps)%nat -> f (Z.of_nat k) = (parts_total (take (S k) ps) >? off)) as Hf.
  { intros k Hk. unfold f. rewrite Nat2Z.id.
    destruct (lookup_lt_is_Some_2 (v_ends v) k) as [e He]; [by rewrite (vok_len _ Hok)|].
    by rewrite He, (vok_ends _ Hok _ _ He). }
  pose proof (vok_len _ Hok) as Hlen. fold ps in Hlen. pose proof (vok_positive _ Hok) as Hpos.
  destruct (sort_Search_spec (zlen (v_ends v)) f) as (Hr & Hbelow & Habove); [apply zlen_nonneg| |].
  { intros a c Hac Hc Ha. unfold zlen in *.
    rewrite <- (Z2Nat.id a), Hf in Ha by lia. rewrite <- (Z2Nat.id c), Hf by lia.
    rewrite Z.gtb_ltb, Z.ltb_lt in *.
    pose proof (parts_total_take_mono ps (S (Z.to_nat a)) (S (Z.to_nat c)) Hpos ltac:(lia)). lia. }
  set (s := sort_Search (zlen (v_ends v)) f) in *. unfold zlen in *.
  assert (s < Z.of_nat (length ps)) as Hs.
  { destruct (Z.lt_ge_cases s (Z.of_nat (length ps))) as [?|Hge]; [done|exfalso].
    destruct (length ps) as [|n] eqn:En.
    - pose proof (vok_size _ Hok) as Hsz. fold ps in Hsz. destruct ps; [simpl in Hsz; lia|done].
    - specialize (Hbelow (Z.of_nat n) ltac:(lia)). rewrite Hf in Hbelow by lia.
      rewrite <- En, take_ge, Z.gtb_ltb, Z.ltb_ge in Hbelow by lia.
      pose proof (vok_size _ Hok) as Hsz. fold ps in Hsz. lia. }
  destruct (lookup_lt_is_Some_2 ps (Z.to_nat s)) as [part Hpart]; [lia|].
  exists (Z.to_nat s), part. split_and!; [lia|done| |].
  - destruct (Z.to_nat s) as [|k] eqn:Ek; [simpl; lia|].
    specialize (Hbelow (Z.of_nat k) ltac:(lia)). rewrite Hf, Z.gtb_ltb, Z.ltb_ge in Hbelow by lia. lia.
  - specialize (Habove s ltac:(lia)). rewrite <- (Z2Nat.id s), Hf, Z.gtb_ltb, Z.ltb_lt in Habove by lia.
    rewrite (parts_total_take_S _ _ _ Hpart) in Habove. lia.
Qed.

(** The first [w] bytes of the buffer are those of the file from [off]. *)
Definition filled (r : R) (parts : list Part) (off w : Z) (dest : bytes) : Prop :=
  forall j, 0 <= j < w -> exists b, dest !! Z.to_nat j = Some b /\ parts_byte r parts (off + j) = Some b.

Lemma filled_splice r parts off w m data dest :
  filled r parts off w dest -> 0 <= w -> w + m <= zlen dest -> 0 <= m ->
  (forall j, 0 <= j < m -> exists b, data !! Z.to_nat j = Some b
     /\ parts_byte r parts (off + w + j) = Some b) ->
  filled r parts off (w + m) (splice w data dest).
Proof.
  intros Hf Hw Hm H0m Hd j Hj. destruct (Z.lt_ge_cases j w) as [Hlt|Hge].
  - rewrite splice_before by lia. apply Hf. lia.
  - destruct (Hd (j - w)) as (b & Hb & Hp); [lia|]. exists b.
    pose proof (lookup_lt_Some _ _ _ Hb) as Hl. split.
    + replace j with (w + (j - w)) by lia. rewrite splice_inside by (unfold zlen in *; lia). done.
    + rewrite <- Hp. f_equal. lia.
Qed.

Lemma parts_byte_bound r parts p b :
  parts_positive parts -> parts_byte r parts p = Some b -> p < parts_total parts.
Proof.
  intros Hp. revert p. induction Hp as [|part ps Hpos Hp IH]; intros p; simpl; [done|].
  pose proof (parts_total_nonneg ps Hp).
  destruct (p <? part_bytes part) eqn:E; zbool; intros Hb; [lia|]. apply IH in Hb. lia.
Qed.

Lemma filled_bound r parts off w dest :
  parts_positive parts -> filled r parts off w dest -> 0 < w -> off + w <= parts_total parts.
Proof.
  intros Hp Hf Hw. destruct (Hf (w - 1)) as (b & _ & Hb); [lia|].
  apply (parts_byte_bound _ _ _ _ Hp) in Hb. lia.
Qed.

Lemma filled_ext r r' parts off w dest :
  (forall ref q, object_byte r' ref q = object_byte r ref q) ->
  filled r' parts off w dest <-> filled r parts off w dest.
Proof. intros He. unfold filled. by setoid_rewrite (parts_byte_ext r r' parts _ He). Qed.

Lemma filled_available r parts off w dest p :
  filled r parts off w dest -> off <= p < off + w -> is_Some (parts_byte r parts p).
Proof. intros Hf Hp. destruct (Hf (p - off)) as (b & _ & Hb); [lia|]. exists b. rewrite <- Hb. f_equal. lia. Qed.

(** A whole object lies in the buffer at [src]. *)
Definition holds_object (r : R) (object : ObjectRef) (src : Z) (dest : bytes) : Prop :=
  forall q, 0 <= q < RawBytes object ->
    exists b, dest !! Z.to_nat (src + q) = Some b /\ object_byte r object q = Some b.

Lemma holds_object_splice r object src w data dest :
  holds_object r object src dest -> 0 <= src -> src + RawBytes object <= w -> w <= zlen dest ->
  holds_object r object src (splice w data dest).
Proof.
  intros Hh Hsrc Hw Hd q Hq. rewrite splice_before by lia. by apply Hh.
Qed.

Lemma slice_lookup (l : bytes) a b j :
  0 <= a -> 0 <= j < b - a -> slice a b l !! Z.to_nat j = l !! Z.to_nat (a + j).
Proof.
  intros. unfold slice, ztake, zdrop. rewrite lookup_take_lt by lia. rewrite lookup_drop. f_equal. lia.
Qed.

Lemma sameObjectBytes_spec a b :
  sameObjectBytes a b = true -> SHA256 a = SHA256 b /\ RawBytes a = RawBytes b.
Proof. unfold sameObjectBytes, string_is. intros Hs. zbool. by apply bool_decide_eq_true_1 in H1. Qed.

Lemma repeat_loop_spec fuel v ctx object src dest written k off :
  view_ok v -> (k < length (mf_Parts (v_manifest v)))%nat ->
  let parts := mf_Parts (v_manifest v) in
  off + written = parts_total (take (S k) parts) ->
  filled (v_reader v) parts off written dest ->
  holds_object (v_reader v) object src dest ->
  0 <= src -> src + RawBytes object <= written -> written <= zlen dest ->
  zlen dest - written <= Z.of_nat fuel ->
  exists out dest' written' k' ctx',
    repeat_loop fuel v ctx object src dest written (off + written) (Z.of_nat k)
    = Some (out, dest', written', off + written', Z.of_nat k', ctx')
    /\ (k' < length parts)%nat /\ zlen dest' = zlen dest /\ written <= written' <= zlen dest
    /\ filled (v_reader v) parts off written' dest'
    /\ (written' = zlen dest \/ off + written' = parts_total (take (S k') parts))
    /\ (ctx = None -> out = inr tt /\ ctx' = None).
Proof.
  intros Hok Hk parts. revert ctx dest written k Hk.
  induction fuel as [|fuel IH]; intros ctx dest written k Hk Hoff Hf Hh Hsrc Hsw Hwd Hfuel;
    cbn [repeat_loop]; fold parts;
    destruct ((written <? zlen dest) && (Z.of_nat k + 1 <? zlen parts)) eqn:E.
  1: zbool; lia.
  1,3: exists (inr tt), dest, written, k, ctx; split_and!; auto; lia.
  zbool. destruct (ctx_Err ctx) as [[e|] ctx1] eqn:Ectx.
  { exists (inl e), dest, written, k, ctx1. split_and!; auto; [lia|]. intros ->. done. }
  replace (Z.to_nat (Z.of_nat k + 1)) with (S k) by lia.
  destruct (lookup_lt_is_Some_2 parts (S k)) as [next Hnext]; [unfold zlen in *; lia|].
  rewrite Hnext. assert (ctx = None -> ctx1 = None) as Hctx by (intros ->; simpl in Ectx; congruence).
  destruct (sameObjectBytes object (p_Object next)) eqn:Es; simpl.
  2: { exists (inr tt), dest, written, k, ctx1. split_and!; auto. lia. }
  apply sameObjectBytes_spec in Es as [Hsha Hraw]. rewrite <- Hraw.
  assert (0 < RawBytes object) as Hpos.
  { pose proof (Forall_lookup_1 _ _ _ _ (vok_positive _ Hok) Hnext) as Hp. unfold part_bytes in Hp. lia. }
  set (m := Z.min (zlen dest - written) (RawBytes object)).
  set (dest1 := splice written (slice src (src + m) dest) dest).
  assert (zlen dest1 = zlen dest) as Hlen1 by (apply zlen_splice; lia).
  assert (filled (v_reader v) parts off (written + m) dest1) as Hf1.
  { apply filled_splice; [done|lia..|]. intros j Hj. rewrite slice_lookup by lia.
    destruct (Hh j) as (b & Hb & Ho); [lia|]. exists b. split; [done|].
    rewrite Hoff. rewrite (parts_byte_at _ _ _ _ _ (vok_positive _ Hok) Hnext) by (unfold part_bytes; lia).
    rewrite <- Ho. by apply object_byte_same. }
  replace (Z.of_nat k + 1) with (Z.of_nat (S k)) by lia. rewrite <- Z.add_assoc.
  destruct (m <? RawBytes object) eqn:Em; zbool.
  - exists (inr tt), dest1, (written + m), (S k), ctx1. unfold zlen in *.
    split_and!; auto; try lia; left; lia.
  - assert (off + (written + m) = parts_total (take (S (S k)) parts)) as Hoff1.
    { rewrite (parts_total_take_S _ _ _ Hnext). unfold part_bytes. lia. }
    destruct (IH ctx1 dest1 (written + m) (S k)) as
      (out & dest2 & written2 & k2 & ctx2 & -> & Hk2 & Hl2 & Hw2 & Hf2 & Hend & Hc2); auto; try lia.
    { fold parts. unfold zlen in *. lia. }
    { apply holds_object_splice; auto; lia. }
    rewrite Hlen1 in *. exists out, dest2, written2, k2, ctx2. split_and!; auto; lia.
Qed.

(** The bytes still asked for can be produced. *)
Definition available (v : View R) (off written : Z) (dest : bytes) : Prop :=
  forall p, off + written <= p < Z.min (off + zlen dest) (view_Size v) -> is_Some (view_byte v p).

(** What a read started at [off] guarantees once [written] bytes are in place. *)
Definition view_post (v : View R) (ctx : Ctx) (off : Z) (dest : bytes) (written : Z)
    (out : view_out) : Prop :=
  exists n dest' err r' ctx',
    out = view_done n dest' err (set_reader v r') ctx'
    /\ reader_ok r' /\ (forall ref p, object_byte r' ref p = object_byte (v_reader v) ref p)
    /\ zlen dest' = zlen dest /\ written <= n <= zlen dest
    /\ filled (v_reader v) (mf_Parts (v_manifest v)) off n dest'
    /\ (ctx = None ->
        available v off written dest -> ctx' = None /\ n = Z.min (zlen dest) (view_Size v - off)
        /\ err = if n <? zlen dest then Some io_EOF else None).

Lemma set_reader_same (v : View R) : set_reader v (v_reader v) = v.
Proof. by destruct v. Qed.

Lemma view_post_stop v ctx off (dest dest' : bytes) written n err r' ctx' :
  reader_ok r' -> (forall ref p, object_byte r' ref p = object_byte (v_reader v) ref p) ->
  zlen dest' = zlen dest -> written <= n <= zlen dest ->
  filled (v_reader v) (mf_Parts (v_manifest v)) off n dest' ->
  (ctx = None ->
    available v off written dest -> ctx' = None /\ n = Z.min (zlen dest) (view_Size v - off)
    /\ err = if n <? zlen dest then Some io_EOF else None) ->
  view_post v ctx off dest written (view_done n dest' err (set_reader v r') ctx').
Proof. intros. exists n, dest', err, r', ctx'. split_and!; try done; lia. Qed.

(** Continuing after a read that brought the reader to [r1]. *)
Lemma view_post_step v ctx ctx1 off dest dest1 written written1 r1 out :
  (forall ref p, object_byte r1 ref p = object_byte (v_reader v) ref p) ->
  zlen dest1 = zlen dest -> written <= written1 ->
  (ctx = None -> available v off written dest -> ctx1 = None) ->
  view_post (set_reader v r1) ctx1 off dest1 written1 out -> view_post v ctx off dest written out.
Proof.
  intros He Hl Hw Hctx (n & dest2 & err & r2 & ctx2 & -> & Hr2 & He2 & Hl2 & Hn & Hf & Hc).
  rewrite Hl in *. simpl in *.
  exists n, dest2, err, r2, ctx2. split_and!; auto; try lia.
  - intros ref p. by rewrite He2, He.
  - by rewrite <- (filled_ext _ _ _ _ _ _ He).
  - intros Hnone Hav. apply Hc; [auto|]. intros p Hp.
    unfold view_byte. simpl. rewrite (parts_byte_ext _ _ _ _ He). apply Hav.
    change (view_Size (set_reader v r1)) with (view_Size v) in Hp. lia.
Qed.

(** Where the loop stands: done, inside part [k], or at the end of the file. *)
Definition at_part (v : View R) (k : nat) (written offset : Z) (dest : bytes) : Prop :=
  written = zlen dest
  \/ offset = view_Size v
  \/ exists part, mf_Parts (v_manifest v) !! k = Some part
       /\ 0 <= offset - parts_total (take k (mf_Parts (v_manifest v))) < part_bytes part.

Lemma at_part_end v k written offset (dest dest' : bytes) :
  view_ok v -> (k < length (mf_Parts (v_manifest v)))%nat -> zlen dest' = zlen dest ->
  written = zlen dest \/ offset = parts_total (take (S k) (mf_Parts (v_manifest v))) ->
  at_part v (S k) written offset dest'.
Proof.
  intros Hok Hk Hl [Hw| ->]; [left; lia|]. right.
  destruct (mf_Parts (v_manifest v) !! S k) as [part|] eqn:Ep.
  - right. exists part. split; [done|].
    pose proof (Forall_lookup_1 _ _ _ _ (vok_positive _ Hok) Ep) as Hp. simpl in Hp. lia.
  - left. rewrite take_ge by (by apply lookup_ge_None_1). symmetry. apply (vok_size _ Hok).
Qed.

(** One read of part [k] at [inside], with room for [need] bytes. *)
Record part_read (v : View R) (ctx : Ctx) (off written need : Z) (dest : bytes)
    (res : read_result) (r1 : R) (ctx1 : Ctx) : Prop := {
  pr_ok : reader_ok r1;
  pr_ext : forall ref p, object_byte r1 ref p = object_byte (v_reader v) ref p;
  pr_count : 0 <= rn res <= need;
  pr_filled : filled (v_reader v) (mf_Parts (v_manifest v)) off (written + rn res)
                (splice written (ztake need (rdata res)) dest);
  pr_full : ctx = None -> available v off written dest ->
    ctx1 = None /\ rn res = need /\ (rerr res = None \/ exists e, rerr res = Some e /\ is_EOF e = true);
}.

Lemma part_read_spec v ctx dest written off k part inside need res r1 ctx1 :
  view_ok v -> reader_ok (v_reader v) -> 0 <= off -> 0 <= written ->
  filled (v_reader v) (mf_Parts (v_manifest v)) off written dest ->
  mf_Parts (v_manifest v) !! k = Some part ->
  off + written = parts_total (take k (mf_Parts (v_manifest v))) + inside ->
  0 <= inside -> 0 < need -> need <= zlen dest - written -> need <= part_bytes part - inside ->
  object_ReadAt (v_reader v) ctx (p_Object part) need inside = (res, r1, ctx1) ->
  part_read v ctx off written need dest res r1 ctx1.
Proof.
  intros Hok Hr Hoff Hw Hf Hpart Hstart Hin Hneed Hroom Hrem Er.
  destruct (read_sound _ _ _ _ _ _ _ _ Hr Hin Hneed Er) as (Hr1 & He & Hn & Hb).
  split; auto.
  - apply filled_splice; [done|lia..|]. intros j Hj. destruct (Hb j Hj) as (b & Hbj & Ho).
    exists b. split; [unfold ztake; rewrite lookup_take_lt by lia; done|]. rewrite <- Ho.
    rewrite Hstart, <- Z.add_assoc. apply parts_byte_at; [apply Hok|done|lia].
  - intros -> Hav. apply (read_complete _ _ _ _ _ _ _ Hr Hin Hneed) in Er; [done|].
    intros j Hj. rewrite <- (parts_byte_at _ _ k part j (vok_positive _ Hok) Hpart) by lia.
    apply Hav. split; [lia|].
    pose proof (parts_total_take_le (mf_Parts (v_manifest v)) (S k) (vok_positive _ Hok)) as Hle.
    rewrite (parts_total_take_S _ _ _ Hpart) in Hle. rewrite (vok_size _ Hok). lia.
Qed.

(** The repeated-object loop after a whole part, as a continuation of a read. *)
Lemma after_part v r1 ctx1 dest1 written k part off need inside :
  view_ok v -> mf_Parts (v_manifest v) !! k = Some part -> zlen dest1 >= written + need -> 0 <= off ->
  0 <= written -> 0 < need ->
  off + written = parts_total (take k (mf_Parts (v_manifest v))) + inside ->
  filled r1 (mf_Parts (v_manifest v)) off (written + need) dest1 ->
  inside = 0 -> need = part_bytes part ->
  exists out dest' written' k' ctx',
    repeat_loop (length dest1) (set_reader v r1) ctx1 (p_Object part) written dest1
      (written + need) (off + written + need) (Z.of_nat k)
    = Some (out, dest', written', off + written', Z.of_nat k', ctx')
    /\ zlen dest' = zlen dest1 /\ written + need <= written' <= zlen dest1
    /\ filled r1 (mf_Parts (v_manifest v)) off written' dest'
    /\ at_part (set_reader v r1) (S k') written' (off + written') dest'
    /\ (ctx1 = None -> out = inr tt /\ ctx' = None).
Proof.
  intros Hok Hpart Hl Hoff Hw Hneed Hstart Hf -> ->.
  assert (view_ok (set_reader v r1)) as Hok1 by by apply view_ok_set_reader.
  destruct (repeat_loop_spec (length dest1) (set_reader v r1) ctx1 (p_Object part) written dest1
    (written + part_bytes part) k off Hok1) as
    (out & dest2 & written2 & k2 & ctx2 & Heq & Hk2 & Hl2 & Hw2 & Hf2 & Hend & Hc); auto.
  - by eapply lookup_lt_Some.
  - simpl. rewrite (parts_total_take_S _ _ _ Hpart). lia.
  - intros q Hq. destruct (Hf (written + q)) as (b & Hb & Hp); [unfold part_bytes; lia|].
    exists b. split; [done|]. simpl. rewrite <- Hp.
    replace (off + (written + q)) with (parts_total (take k (mf_Parts (v_manifest v))) + q) by lia.
    symmetry. by apply parts_byte_at; [apply Hok| |].
  - unfold part_bytes. lia.
  - lia.
  - unfold zlen. lia.
  - rewrite Z.add_assoc in Heq. exists out, dest2, written2, k2, ctx2. split_and!; auto; try lia.
    eapply at_part_end; [done|done|exact Hl2|]. done.
Qed.

Lemma view_loop_spec fuel v ctx dest written k off :
  view_ok v -> reader_ok (v_reader v) ->
  0 <= off -> 0 <= written <= zlen dest -> off + written <= view_Size v ->
  filled (v_reader v) (mf_Parts (v_manifest v)) off written dest ->
  at_part v k written (off + written) dest -> zlen dest - written <= Z.of_nat fuel ->
  view_post v ctx off dest written (view_loop fuel v ctx dest written (off + written) (Z.of_nat k)).
Proof.
  revert v ctx dest written k.
  induction fuel as [|fuel IH]; intros v ctx dest written k Hok Hr Hoff Hw Hsz Hf Hat Hfuel;
    cbn [view_loop]; destruct ((written <? zlen dest) && (off + written <? view_Size v)) eqn:E.
  1: zbool; lia.
  1,3: rewrite <- (set_reader_same v) at 2; apply view_post_stop; auto; [lia|]; intros -> _;
    apply andb_false_iff in E as [E|E]; zbool; split_and!; try done; lia.
  zbool. destruct (ctx_Err ctx) as [[e|] ctx1] eqn:Ectx.
  { rewrite <- (set_reader_same v) at 2. apply view_post_stop; auto; [lia|]. intros ->. done. }
  destruct Hat as [?|[?|(part & Hpart & Hin)]]; [lia..|].
  pose proof (lookup_lt_Some _ _ _ Hpart) as Hk.
  destruct (Z.of_nat k =? zlen (v_ends v)) eqn:Ek.
  { zbool. unfold zlen in Ek. rewrite (vok_len _ Hok) in Ek. lia. }
  rewrite part_start_spec, Nat2Z.id, Hpart by (try rewrite (vok_len _ Hok); auto; lia).
  set (inside := off + written - parts_total _) in *.
  set (need := if zlen dest - written >? _ then _ else _).
  assert (need = Z.min (zlen dest - written) (part_bytes part - inside)) as Hneed.
  { subst need. unfold part_bytes. destruct (_ >? _) eqn:E2; zbool; lia. }
  destruct (object_ReadAt (v_reader v) ctx1 (p_Object part) need inside) as [[res r1] ctx2] eqn:Er.
  destruct (part_read_spec v ctx1 dest written off k part inside need res r1 ctx2) as [Hr1 He Hn Hf1 Hfull];
    auto; try lia.
  assert (ctx = None -> ctx1 = None) as Hctx by (intros ->; simpl in Ectx; congruence).
  set (dest1 := splice written (ztake need (rdata res)) dest) in *.
  assert (zlen dest1 = zlen dest) as Hl1 by (apply zlen_splice; lia).
  destruct ((rn res <? 0) || (rn res >? need)) eqn:E3.
  { apply orb_true_iff in E3 as [E3|E3]; zbool; lia. }
  destruct (rn res =? need) eqn:E4; simpl.
  2: { apply view_post_stop; auto; [lia|]. intros Hnone Hav.
    destruct (Hfull (Hctx Hnone) Hav) as (_ & ? & _). zbool. lia. }
  zbool. destruct (match rerr res with Some e => _ | None => None end) as [e|] eqn:E5.
  { apply view_post_stop; auto; [lia|]. intros Hnone Hav.
    destruct (Hfull (Hctx Hnone) Hav) as (_ & _ & [Hne|(e' & He' & Hee)]).
    - by rewrite Hne in E5.
    - by rewrite He', Hee in E5. }
  rewrite E4 in *. rewrite <- (filled_ext _ _ _ _ _ _ He) in Hf1.
  assert (view_ok (set_reader v r1)) as Hok1 by by apply view_ok_set_reader.
  pose proof (parts_total_take_le (mf_Parts (v_manifest v)) (S k) (vok_positive _ Hok)) as Hle.
  rewrite (parts_total_take_S _ _ _ Hpart), <- (vok_size _ Hok) in Hle.
  destruct ((inside =? 0) && (need =? RawBytes (p_Object part))) eqn:E6.
  - zbool. destruct (after_part v r1 ctx2 dest1 written k part off need inside) as
      (out & dest2 & written2 & k2 & ctx3 & -> & Hl2 & Hw2 & Hf2 & Hat2 & Hc); auto; try lia.
    destruct out as [e|[]].
    + apply view_post_stop; auto; [lia|lia|by rewrite <- (filled_ext _ _ _ _ _ _ He)|].
      intros Hnone Hav. destruct (Hfull (Hctx Hnone) Hav) as (-> & _). by destruct (Hc eq_refl).
    + apply (view_post_step v ctx ctx3 off dest dest2 written written2 r1); auto; try lia.
      { intros Hnone Hav. destruct (Hfull (Hctx Hnone) Hav) as (-> & _). by destruct (Hc eq_refl). }
      replace (Z.of_nat k2 + 1) with (Z.of_nat (S k2)) by lia.
      apply IH; auto; try lia.
      change (off + written2 <= view_Size v). rewrite (vok_size _ Hok).
      eapply filled_bound; [apply Hok|exact Hf2|lia].
  - apply (view_post_step v ctx ctx2 off dest dest1 written (written + need) r1); auto; try lia.
    { intros Hnone Hav. by destruct (Hfull (Hctx Hnone) Hav) as (-> & _). }
    replace (Z.of_nat k + 1) with (Z.of_nat (S k)) by lia. rewrite <- Z.add_assoc.
    apply IH; auto; try lia.
    + change (off + (written + need) <= view_Size v). lia.
    + apply (at_part_end _ k (written + need) (off + (written + need)) dest1 dest1); [done|done|done|].
      simpl. rewrite (parts_total_take_S _ _ _ Hpart). lia.
Qed.

Lemma view_ReadAt_spec v ctx dest off :
  view_ok v -> reader_ok (v_reader v) -> 0 <= off -> off < view_Size v ->
  view_post v ctx off dest 0 (view_ReadAt v ctx dest off).
Proof.
  intros Hok Hr Hoff Hsz. unfold view_ReadAt. destruct (off <? 0) eqn:E; zbool; [lia|].
  pose proof (zlen_nonneg dest). assert (filled (v_reader v) (mf_Parts (v_manifest v)) off 0 dest) as Hf0.
  { intros j Hj. lia. }
  destruct (zlen dest =? 0) eqn:E0; zbool.
  { rewrite <- (set_reader_same v) at 2. apply view_post_stop; auto; [lia|]. intros -> _.
    split_and!; [done|lia|]. by rewrite E0. }
  destruct (ctx_Err ctx) as [[e|] ctx1] eqn:Ectx.
  { rewrite <- (set_reader_same v) at 2. apply view_post_stop; auto; [lia|]. intros ->. done. }
  destruct (off >=? view_Size v) eqn:E1; zbool; [lia|].
  destruct (view_search_spec v off Hok) as (k & part & Hs & Hpart & Hin); [lia|]. rewrite Hs.
  pose proof (lookup_lt_Some _ _ _ Hpart) as Hk.
  destruct (Z.of_nat k =? zlen (v_ends v)) eqn:Ek.
  { zbool. unfold zlen in Ek. rewrite (vok_len _ Hok) in Ek. lia. }
  apply (view_post_step v ctx ctx1 off dest dest 0 0 (v_reader v)); auto; [lia| |].
  { intros -> _. simpl in Ectx. congruence. }
  rewrite set_reader_same. rewrite <- (Z.add_0_r off) at 2.
  apply view_loop_spec; auto; try lia; [|unfold zlen; lia].
  right. right. exists part. split; [done|]. by rewrite Z.add_0_r.
Qed.
End ViewLaws.

(** C4. Reading a view is reading the concatenation of its parts.  A view that
    [NewView] accepts, over any object reader that keeps its contract, answers
    every read inside the file (in particular it neither panics nor runs out of
    fuel) with a count within the buffer and exactly that many bytes of the
    concatenation, whether they were read or copied from a repeated object; when
    the bytes asked for are available and the read is not cancelled it returns
    all of them up to the end of the file, with [io.EOF] only if the buffer
    reaches past it. *)
Theorem view_ReadAt_concat {R} `{ObjectReaderLaw R} manifest (r : R) v ctx dest off :
  NewView manifest (Some r) = Ok v -> reader_ok r -> 0 <= off < src_Bytes (mf_Source manifest) ->
  exists n dest' err v' ctx',
    view_ReadAt v ctx dest off = Some ({| rn := n; rdata := dest'; rerr := err |}, v', ctx')
    /\ view_ok v' /\ reader_ok (v_reader v')
    /\ zlen dest' = zlen dest /\ 0 <= n <= zlen dest
    /\ (forall j, 0 <= j < n -> exists b, dest' !! Z.to_nat j = Some b
         /\ parts_byte r (mf_Parts manifest) (off + j) = Some b)
    /\ (ctx = None ->
        (forall p, off <= p < Z.min (off + zlen dest) (src_Bytes (mf_Source manifest)) ->
           is_Some (parts_byte r (mf_Parts manifest) p)) ->
        n = Z.min (zlen dest) (src_Bytes (mf_Source manifest) - off)
        /\ err = if n <? zlen dest then Some io_EOF else None).
Proof.
  intros Hv Hr Hoff. destruct (NewView_ok _ _ _ Hv) as (Hok & <- & <-).
  destruct (view_ReadAt_spec v ctx dest off Hok Hr) as
    (n & dest' & err & r' & ctx' & -> & Hr' & He & Hl & Hn & Hf & Hc); [unfold view_Size; lia..|].
  exists n, dest', err, (set_reader v r'), ctx'.
  split_and!; auto; try lia; [by apply view_ok_set_reader|].
  intros Hnone Hav. destruct (Hc Hnone) as (_ & Hn' & He'); [|done].
  intros p Hp. apply Hav. unfold view_Size in Hp. lia.
Qed.

(** A view over the sample generation: one object twice, then another. *)
Definition sample_ref (k raw : Z) : ObjectRef :=
  {| SHA256 := hex_EncodeToString (le_bytes 32 k); RawBytes := raw; StoredBytes := raw |}.
Definition sample_part (k raw : Z) : Part :=
  {| p_Kind := PartResidual; p_JSONPath := ""; p_Object := sample_ref k raw |}.
Definition sample_manifest : Manifest :=
  {| mf_Version := 1; mf_Kind := ManifestKind; mf_CreatedAt := "";
     mf_Session := {| ms_ID := "s"; ms_Title := ""; ms_CWD := ""; ms_RolloutPath := ""; ms_Archived := false |};
     mf_Source := {| src_Bytes := 15; src_SHA256 := "x" |};
     mf_Settings := {| FieldThreshold := 0; MaxJSONLineBytes := 0; CDCMinBytes := 0; CDCAverageBytes := 0;
                       CDCMaxBytes := 0; Compression := ""; RecordThreshold := 0 |};
     mf_Parts := [sample_part 1 6; sample_part 1 6; sample_part 2 3] |}.
Definition sample_resolver : Resolver := open_v3 sample_v3 sample_pack 16.
Definition sample_view : View Resolver :=
  {| v_manifest := sample_manifest; v_ends := [6; 12; 15]; v_reader := sample_resolver |}.

Lemma sample_resolver_ok : resolver_ok toy_sha256 toy_zstd sample_resolver.
Proof.
  apply (open_v3_resolver_ok toy_sha256 toy_zstd sample_v3 sample_pack sample_pack_sizes 16);
    [vm_compute; discriminate|vm_compute; reflexivity..|exact sample_v3_no_overflow].
Qed.

Lemma view_ReadAt_concat_witness :
  exists n dest' v' ctx',
    @view_ReadAt _ (resolver_reader toy_sha256 toy_zstd) sample_view None (le_bytes 11 0) 3
    = Some ({| rn := n; rdata := dest'; rerr := None |}, v', ctx') /\ n = 11.
Proof.
  destruct (@view_ReadAt_concat _ _ (resolver_reader_law toy_sha256 toy_zstd) sample_manifest
    sample_resolver sample_view None (le_bytes 11 0) 3 eq_refl sample_resolver_ok
    ltac:(simpl; lia)) as (n & dest' & err & v' & ctx' & Heq & _ & _ & _ & _ & _ & Hc).
  destruct (Hc eq_refl) as [Hn He].
  - intros p Hp. change (3 <= p < 14) in Hp.
    assert (p = 3 \/ p = 4 \/ p = 5 \/ p = 6 \/ p = 7 \/ p = 8 \/ p = 9 \/ p = 10 \/ p = 11
            \/ p = 12 \/ p = 13) as Hcases by lia.
    repeat destruct Hcases as [-> | Hcases]; [vm_compute; eexists; reflexivity..|].
    subst p. vm_compute. eexists. reflexivity.
  - exists n, dest', v', ctx'. rewrite Heq, He, Hn. split; reflexivity.
Defined.
