(* ===== verification/JsonDecoder.v ===== *)
(** The token reader of Go's [encoding/json] ([Decoder.Token], [More],
    [InputOffset] with [UseNumber]), as [internal/jsonraw] uses it on input that
    is in memory.

    A [Decoder] is the unread input, its offset and the state of the token
    machine.  Scalars are delimited by the byte-wise scanner of the package,
    [step].  The lemmas relate the scanner to the grammar of JSON literals. *)
From S2P Require Import Prelude.
From Stdlib Require Import Ascii.

(** ** Bytes *)

Definition quote : byte := Byte.x22.
Definition backslash : byte := Byte.x5c.
Definition is_space (c : byte) : bool := bool_decide (c ∈ [Byte.x20; Byte.x09; Byte.x0d; Byte.x0a]).
Definition is_digit (c : byte) : bool := (48 <=? byte_val c) && (byte_val c <=? 57).
Definition is_hex (c : byte) : bool :=
  is_digit c || ((97 <=? byte_val c) && (byte_val c <=? 102)) || ((65 <=? byte_val c) && (byte_val c <=? 70)).
Definition is_escape (c : byte) : bool :=
  bool_decide (c ∈ [Byte.x62; Byte.x66; Byte.x6e; Byte.x72; Byte.x74; backslash; Byte.x2f; quote]).

(** ** Strings: the value of a literal *)

Definition hex_digit_value (c : byte) : Z :=
  if is_digit c then byte_val c - 48
  else if 97 <=? byte_val c then byte_val c - 87 else byte_val c - 55.
(** [getu4]: the code unit of an escape [\uXXXX] at the start of [l]. *)
Definition getu4 (l : bytes) : option Z :=
  match l with
  | b :: u :: h1 :: h2 :: h3 :: h4 :: _ =>
      if bool_decide (b = backslash) && bool_decide (u = Byte.x75)
         && is_hex h1 && is_hex h2 && is_hex h3 && is_hex h4 then
        Some (4096 * hex_digit_value h1 + 256 * hex_digit_value h2 + 16 * hex_digit_value h3 + hex_digit_value h4)
      else None
  | _ => None
  end.

Definition ReplacementChar : Z := 0xFFFD.
(** [utf8.EncodeRune] *)
Definition EncodeRune (r : Z) : bytes :=
  if r <? 0x80 then [byte_of r]
  else if r <? 0x800 then [byte_of (0xC0 + r / 64); byte_of (0x80 + r mod 64)]
  else if r <? 0x10000 then
    [byte_of (0xE0 + r / 4096); byte_of (0x80 + (r / 64) mod 64); byte_of (0x80 + r mod 64)]
  else [byte_of (0xF0 + r / 262144); byte_of (0x80 + (r / 4096) mod 64);
        byte_of (0x80 + (r / 64) mod 64); byte_of (0x80 + r mod 64)].

Definition in_range (lo hi : Z) (c : byte) : bool := (lo <=? byte_val c) && (byte_val c <=? hi).
Definition low6 (c : byte) : Z := byte_val c mod 64.
(** [utf8.DecodeRune] on input that starts with a byte over 127: the rune and
    its width. *)
Definition DecodeRune (l : bytes) : Z * nat :=
  let bad := (ReplacementChar, 1%nat) in
  match l with
  | [] => (ReplacementChar, 0%nat)
  | a :: l =>
      let n := byte_val a in
      if n <? 0x80 then (n, 1%nat)
      else if in_range 0xC2 0xDF a then
        match l with
        | b :: _ => if in_range 0x80 0xBF b then (64 * (n mod 32) + low6 b, 2%nat) else bad
        | _ => bad
        end
      else if in_range 0xE0 0xEF a then
        match l with
        | b :: c :: _ =>
            if in_range (if n =? 0xE0 then 0xA0 else 0x80) (if n =? 0xED then 0x9F else 0xBF) b
               && in_range 0x80 0xBF c
            then (4096 * (n mod 16) + 64 * low6 b + low6 c, 3%nat) else bad
        | _ => bad
        end
      else if in_range 0xF0 0xF4 a then
        match l with
        | b :: c :: d :: _ =>
            if in_range (if n =? 0xF0 then 0x90 else 0x80) (if n =? 0xF4 then 0x8F else 0xBF) b
               && in_range 0x80 0xBF c && in_range 0x80 0xBF d
            then (262144 * (n mod 8) + 4096 * low6 b + 64 * low6 c + low6 d, 4%nat) else bad
        | _ => bad
        end
      else bad
  end.

Definition is_surrogate (r : Z) : bool := (0xD800 <=? r) && (r <? 0xE000).
(** [utf16.DecodeRune]: the rune of a surrogate pair. *)
Definition surrogate_pair (r1 : Z) (r2 : option Z) : option Z :=
  match r2 with
  | Some r2 => if (0xD800 <=? r1) && (r1 <? 0xDC00) && (0xDC00 <=? r2) && (r2 <? 0xE000)
               then Some ((r1 - 0xD800) * 1024 + (r2 - 0xDC00) + 0x10000) else None
  | None => None
  end.
Definition escape_value (c : byte) : byte :=
  match c with
  | Byte.x62 => Byte.x08
  | Byte.x66 => Byte.x0c
  | Byte.x6e => Byte.x0a
  | Byte.x72 => Byte.x0d
  | Byte.x74 => Byte.x09
  | c => c
  end.

(** [unquoteBytes] on the text between the quotes; every step consumes a byte. *)
Fixpoint unquote (fuel : nat) (l : bytes) : bytes :=
  match fuel, l with
  | S fuel, c :: rest =>
      if bool_decide (c = backslash) then
        match getu4 l with
        | Some r =>
            let after := drop 6 l in
            if is_surrogate r then
              match surrogate_pair r (getu4 after) with
              | Some r => EncodeRune r ++ unquote fuel (drop 6 after)
              | None => EncodeRune ReplacementChar ++ unquote fuel after
              end
            else EncodeRune r ++ unquote fuel after
        | None => match rest with
                  | e :: rest => escape_value e :: unquote fuel rest
                  | [] => []
                  end
        end
      else if byte_val c <? 0x80 then c :: unquote fuel rest
      else let '(r, width) := DecodeRune l in EncodeRune r ++ unquote fuel (drop width l)
  | _, _ => []
  end.
Definition string_value (literal : bytes) : bytes :=
  unquote (length literal) (take (length literal - 2) (drop 1 literal)).

(** ** The scanner on scalars *)

Inductive scanState :=
  | InString | InStringEsc | InStringU (n : nat)
  | Neg | Digits | Zero | Dot | Dot0 | Exp | ExpSign | Exp0
  | InLiteral (rest : bytes) | EndValue.
Inductive scanResult := Next (st : scanState) | ScanEnd | ScanError.

Definition step_Exp (c : byte) : scanResult :=
  if bool_decide (c ∈ [Byte.x65; Byte.x45]) then Next Exp else ScanEnd.
Definition step_Zero (c : byte) : scanResult :=
  if bool_decide (c = Byte.x2e) then Next Dot else step_Exp c.
Definition step_ExpSign (c : byte) : scanResult := if is_digit c then Next Exp0 else ScanError.

Definition step (st : scanState) (c : byte) : scanResult :=
  match st with
  | InString =>
      if bool_decide (c = quote) then Next EndValue
      else if bool_decide (c = backslash) then Next InStringEsc
      else if byte_val c <? 32 then ScanError else Next InString
  | InStringEsc =>
      if is_escape c then Next InString
      else if bool_decide (c = Byte.x75) then Next (InStringU 3) else ScanError
  | InStringU n =>
      if is_hex c then Next (match n with S n => InStringU n | O => InString end) else ScanError
  | Neg =>
      if bool_decide (c = Byte.x30) then Next Zero
      else if is_digit c then Next Digits else ScanError
  | Digits => if is_digit c then Next Digits else step_Zero c
  | Zero => step_Zero c
  | Dot => if is_digit c then Next Dot0 else ScanError
  | Dot0 => if is_digit c then Next Dot0 else step_Exp c
  | Exp => if bool_decide (c ∈ [Byte.x2b; Byte.x2d]) then Next ExpSign else step_ExpSign c
  | ExpSign => step_ExpSign c
  | Exp0 => if is_digit c then Next Exp0 else ScanEnd
  | InLiteral (b :: rest) =>
      if bool_decide (c = b) then Next (match rest with [] => EndValue | _ => InLiteral rest end) else ScanError
  | InLiteral [] | EndValue => ScanEnd
  end.
Definition begin_value (c : byte) : scanResult :=
  match c with
  | Byte.x22 => Next InString
  | Byte.x2d => Next Neg
  | Byte.x30 => Next Zero
  | Byte.x74 => Next (InLiteral [Byte.x72; Byte.x75; Byte.x65])
  | Byte.x66 => Next (InLiteral [Byte.x61; Byte.x6c; Byte.x73; Byte.x65])
  | Byte.x6e => Next (InLiteral [Byte.x75; Byte.x6c; Byte.x6c])
  | _ => if is_digit c then Next Digits else ScanError
  end.

Definition syntax_error : error := errors_new "invalid character %s".
(** [readValue] after its first byte: the length of the scalar. *)
Fixpoint read_rest (st : scanState) (l : bytes) (n : nat) : result nat :=
  match l with
  | [] => match step st Byte.x20 with ScanEnd => Ok n | _ => Err io_ErrUnexpectedEOF end
  | c :: l => match step st c with
              | Next st => read_rest st l (S n)
              | ScanEnd => Ok n
              | ScanError => Err syntax_error
              end
  end.
Definition readValue (l : bytes) : result nat :=
  match l with
  | [] => Err io_ErrUnexpectedEOF
  | c :: l => match begin_value c with
              | Next st => read_rest st l 1
              | _ => Err syntax_error
              end
  end.

(** ** The token machine *)

Inductive tokenState :=
  | tokenTopValue | tokenArrayStart | tokenArrayValue | tokenArrayComma
  | tokenObjectStart | tokenObjectKey | tokenObjectColon | tokenObjectValue | tokenObjectComma.
#[export] Instance tokenState_eq_dec : EqDecision tokenState.
Proof. solve_decision. Defined.

(** Tokens other than strings and delimiters keep their text. *)
Inductive Token := TDelim (c : byte) | TString (s : bytes) | TScalar (text : bytes).

Record Decoder := { d_offset : Z; d_rest : bytes; d_state : tokenState; d_stack : list tokenState }.
Definition NewDecoder (data : bytes) : Decoder :=
  {| d_offset := 0; d_rest := data; d_state := tokenTopValue; d_stack := [] |}.
Definition InputOffset (d : Decoder) : Z := d_offset d.

Fixpoint spaces (l : bytes) : nat :=
  match l with
  | c :: l => if is_space c then S (spaces l) else O
  | [] => O
  end.
Definition advance (n : nat) (st : tokenState) (d : Decoder) : Decoder :=
  {| d_offset := d_offset d + Z.of_nat n; d_rest := drop n (d_rest d); d_state := st; d_stack := d_stack d |}.
Definition with_stack (stack : list tokenState) (d : Decoder) : Decoder :=
  {| d_offset := d_offset d; d_rest := d_rest d; d_state := d_state d; d_stack := stack |}.

(** [peek]: the next byte that is not white space, with the decoder moved to it. *)
Definition peek (d : Decoder) : result (byte * Decoder) :=
  match drop (spaces (d_rest d)) (d_rest d) with
  | c :: _ => Ok (c, advance (spaces (d_rest d)) (d_state d) d)
  | [] => Err io_EOF
  end.
Definition More (d : Decoder) : bool * Decoder :=
  match peek d with
  | Ok (c, d) => (negb (bool_decide (c = Byte.x5d)) && negb (bool_decide (c = Byte.x7d)), d)
  | Err _ => (false, d)
  end.

Definition tokenValueAllowed (st : tokenState) : bool :=
  bool_decide (st ∈ [tokenTopValue; tokenArrayStart; tokenArrayValue; tokenObjectValue]).
Definition tokenValueEnd (st : tokenState) : tokenState :=
  match st with
  | tokenArrayStart | tokenArrayValue => tokenArrayComma
  | tokenObjectValue => tokenObjectComma
  | st => st
  end.
(** [Decode] of a scalar at the position of [d]. *)
Definition decode_scalar (st : tokenState) (d : Decoder) : result (bytes * Decoder) :=
  match readValue (d_rest d) with
  | Ok n => Ok (take n (d_rest d), advance n st d)
  | Err e => Err e
  end.
Definition open_delim (c : byte) (st : tokenState) (d : Decoder) : result (Token * Decoder) :=
  if tokenValueAllowed (d_state d) then Ok (TDelim c, with_stack (d_state d :: d_stack d) (advance 1 st d))
  else Err syntax_error.
Definition close_delim (c : byte) (start comma : tokenState) (d : Decoder) : result (Token * Decoder) :=
  if bool_decide (d_state d = start) || bool_decide (d_state d = comma) then
    match d_stack d with
    | st :: stack => Ok (TDelim c, with_stack stack (advance 1 (tokenValueEnd st) d))
    | [] => Err (Sentinel "panic")
    end
  else Err syntax_error.
Definition value_token (c : byte) (d : Decoder) : result (Token * Decoder) :=
  if tokenValueAllowed (d_state d) then
    match decode_scalar (tokenValueEnd (d_state d)) d with
    | Ok (text, d) => Ok (if bool_decide (c = quote) then TString (string_value text) else TScalar text, d)
    | Err e => Err e
    end
  else Err syntax_error.

Definition key_state (st : tokenState) : bool :=
  bool_decide (st = tokenObjectStart) || bool_decide (st = tokenObjectKey).
Definition key_token (d : Decoder) : result (Token * Decoder) :=
  match decode_scalar tokenObjectColon d with
  | Ok (text, d) => Ok (TString (string_value text), d)
  | Err e => Err e
  end.
(** The cases of [Token] that return. *)
Definition token_at (c : byte) (d : Decoder) : result (Token * Decoder) :=
  match c with
  | Byte.x5b => open_delim c tokenArrayStart d
  | Byte.x5d => close_delim c tokenArrayStart tokenArrayComma d
  | Byte.x7b => open_delim c tokenObjectStart d
  | Byte.x7d => close_delim c tokenObjectStart tokenObjectComma d
  | Byte.x22 => if key_state (d_state d) then key_token d else value_token c d
  | _ => value_token c d
  end.
(** [Token]: after a separator the loop goes round once more; a second separator
    is refused, so two rounds are enough. *)
Fixpoint token_loop (rounds : nat) (d : Decoder) : result (Token * Decoder) :=
  match rounds with
  | O => Err (Sentinel "panic")
  | S rounds =>
      match peek d with
      | Err e => Err e
      | Ok (c, d) =>
          match c with
          | Byte.x3a =>
              if bool_decide (d_state d = tokenObjectColon) then token_loop rounds (advance 1 tokenObjectValue d)
              else Err syntax_error
          | Byte.x2c =>
              if bool_decide (d_state d = tokenArrayComma) then token_loop rounds (advance 1 tokenArrayValue d)
              else if bool_decide (d_state d = tokenObjectComma) then token_loop rounds (advance 1 tokenObjectKey d)
              else Err syntax_error
          | _ => token_at c d
          end
      end
  end.
Definition decoder_Token (d : Decoder) : result (Token * Decoder) := token_loop 2 d.

(** ** The grammar of literals *)

Inductive str_body : bytes -> Prop :=
  | str_nil : str_body []
  | str_char c body : c <> quote -> c <> backslash -> 32 <= byte_val c -> str_body body -> str_body (c :: body)
  | str_escape c body : is_escape c = true -> str_body body -> str_body (backslash :: c :: body)
  | str_unicode hs body :
      length hs = 4%nat -> Forall (fun c => is_hex c = true) hs -> str_body body ->
      str_body (backslash :: Byte.x75 :: hs ++ body).
Definition string_literal (t : bytes) : Prop := exists body, str_body body /\ t = quote :: body ++ [quote].

Definition digits (l : bytes) : Prop := Forall (fun c => is_digit c = true) l.
Definition exponent_digits (t : bytes) : Prop := exists c ds, is_digit c = true /\ digits ds /\ t = c :: ds.
Definition exponent_part (t : bytes) : Prop :=
  exponent_digits t \/ exists s ds, s ∈ [Byte.x2b; Byte.x2d] /\ exponent_digits ds /\ t = s :: ds.
Definition exponent (t : bytes) : Prop :=
  t = [] \/ exists e ds, e ∈ [Byte.x65; Byte.x45] /\ exponent_part ds /\ t = e :: ds.
Definition fraction (t : bytes) : Prop :=
  exponent t \/ exists c ds e, is_digit c = true /\ digits ds /\ exponent e /\ t = Byte.x2e :: c :: ds ++ e.
Definition unsigned_number (t : bytes) : Prop :=
  exists c rest, is_digit c = true /\ t = c :: rest
    /\ (fraction rest \/ (c <> Byte.x30 /\ exists ds f, digits ds /\ fraction f /\ rest = ds ++ f)).
Definition number (t : bytes) : Prop := unsigned_number t \/ exists t', unsigned_number t' /\ t = Byte.x2d :: t'.
Definition word (t : bytes) : Prop :=
  t ∈ [[Byte.x74; Byte.x72; Byte.x75; Byte.x65]; [Byte.x66; Byte.x61; Byte.x6c; Byte.x73; Byte.x65];
       [Byte.x6e; Byte.x75; Byte.x6c; Byte.x6c]].

(** The texts the scanner accepts from a state. *)
Definition accepted (st : scanState) (t : bytes) : Prop :=
  match st with
  | InString => exists body, str_body body /\ t = body ++ [quote]
  | InStringEsc => exists body, str_body (backslash :: body) /\ t = body ++ [quote]
  | InStringU n => exists hs body, length hs = S n /\ Forall (fun c => is_hex c = true) hs
                     /\ str_body body /\ t = hs ++ body ++ [quote]
  | Neg => unsigned_number t
  | Digits => exists ds f, digits ds /\ fraction f /\ t = ds ++ f
  | Zero => fraction t
  | Dot => exists c ds e, is_digit c = true /\ digits ds /\ exponent e /\ t = c :: ds ++ e
  | Dot0 => exists ds e, digits ds /\ exponent e /\ t = ds ++ e
  | Exp => exponent_part t
  | ExpSign => exponent_digits t
  | Exp0 => digits t
  | InLiteral rest => t = rest
  | EndValue => t = []
  end.

(** After a scalar comes the end of the input or a byte that no number goes on
    with. *)
Definition closes (tail : bytes) : Prop :=
  match tail with
  | [] => True
  | c :: _ => is_digit c = false /\ c ∉ [Byte.x2e; Byte.x65; Byte.x45]
  end.

Ltac decides := repeat case_bool_decide; simplify_eq/=; try done; try set_solver.

Lemma step_ends st c : step st c = ScanEnd -> accepted st [].
Proof.
  destruct st as [| | | | | | | | | | |[|b rest]|]; unfold step, step_ExpSign, step_Zero, step_Exp; intros Hs;
    repeat (case_match; simplify_eq/=; try done).
  - exists [], []. split; [by constructor|]. split; [by left; left|done].
  - by left; left.
  - exists [], []. split; [by constructor|]. split; [by left|done].
  - by constructor.
  - done.
  - done.
Qed.

Lemma exponent_of e ds : e ∈ [Byte.x65; Byte.x45] -> exponent_part ds -> exponent (e :: ds).
Proof. right. eauto. Qed.
Lemma step_Exp_sound c st t : step_Exp c = Next st -> accepted st t -> exponent (c :: t).
Proof. unfold step_Exp. case_bool_decide; intros [= <-] Ht. by apply exponent_of. Qed.
Lemma step_Zero_sound c st t : step_Zero c = Next st -> accepted st t -> fraction (c :: t).
Proof.
  unfold step_Zero. case_bool_decide as Hc; [|intros; left; by eapply step_Exp_sound].
  intros [= <-] (d & ds & e & ? & ? & ? & ->). right. rewrite Hc. by exists d, ds, e.
Qed.
Lemma step_ExpSign_sound c st t : step_ExpSign c = Next st -> accepted st t -> exponent_digits (c :: t).
Proof. unfold step_ExpSign. destruct (is_digit c) eqn:E; intros [= <-] Ht. by exists c, t. Qed.

Lemma digits_cons c l : is_digit c = true -> digits l -> digits (c :: l).
Proof. by constructor. Qed.
#[local] Hint Resolve digits_cons : core.

Lemma step_sound st c st' t : step st c = Next st' -> accepted st' t -> accepted st (c :: t).
Proof.
  destruct st as [| |n| | | | | | | | |[|b rest]|]; simpl; try done.
  - case_bool_decide as Hq; [intros [= <-] ->; exists []; split; [constructor|by rewrite Hq]|].
    case_bool_decide as Hb; [intros [= <-] (body & Hs & ->); exists (backslash :: body); by rewrite Hb|].
    destruct (byte_val c <? 32) eqn:Hl; [done|]. intros [= <-] (body & Hs & ->). zbool.
    exists (c :: body). split; [by constructor|done].
  - destruct (is_escape c) eqn:He.
    + intros [= <-] (body & Hs & ->). exists (c :: body). split; [by constructor|done].
    + case_bool_decide as Hu; [|done]. intros [= <-] (hs & body & Hl & Hh & Hs & ->). exists (c :: hs ++ body).
      rewrite Hu. split; [by constructor|]. cbn. by rewrite <- app_assoc.
  - destruct (is_hex c) eqn:Hh; [|done]. intros [= <-]. destruct n as [|n]; cbn [accepted].
    + intros (body & Hs & ->). exists [c], body. split_and!; [done|by constructor|done|done].
    + intros (hs & body & Hl & Hf & Hs & ->). exists (c :: hs), body. split_and!; [by rewrite <- Hl|by constructor|done|done].
  - case_bool_decide as H0.
    + intros [= <-] Ht. exists c, t. rewrite H0. split_and!; [done|done|by left].
    + destruct (is_digit c) eqn:Hd; [|done]. intros [= <-] (ds & f & ? & ? & ->).
      exists c, (ds ++ f). split_and!; [done|done|]. right. split; [done|]. by exists ds, f.
  - destruct (is_digit c) eqn:Hd.
    + intros [= <-] (ds & f & ? & ? & ->). exists (c :: ds), f. auto.
    + intros Hs Ht. exists [], (c :: t). split_and!; [constructor|by eapply step_Zero_sound|done].
  - apply step_Zero_sound.
  - destruct (is_digit c) eqn:Hd; [|done]. intros [= <-] (ds & e & ? & ? & ->). by exists c, ds, e.
  - destruct (is_digit c) eqn:Hd.
    + intros [= <-] (ds & e & ? & ? & ->). exists (c :: ds), e. auto.
    + intros Hs Ht. exists [], (c :: t). split_and!; [constructor|by eapply step_Exp_sound|done].
  - case_bool_decide as Hsg; [intros [= <-] Ht; right; by exists c, t|].
    intros Hs Ht. left. by eapply step_ExpSign_sound.
  - apply step_ExpSign_sound.
  - destruct (is_digit c) eqn:Hd; [|done]. intros [= <-] Ht. auto.
  - case_bool_decide as Hb; [|done]. intros [= <-] Ht. subst c. destruct rest; by rewrite Ht.
Qed.

Lemma read_rest_sound l : forall st n m, read_rest st l n = Ok m ->
  exists t tail, l = t ++ tail /\ m = (n + length t)%nat /\ accepted st t.
Proof.
  induction l as [|c l IH]; intros st n m; cbn [read_rest].
  - destruct (step st Byte.x20) eqn:Es; try done. intros [= <-]. exists [], [].
    split_and!; [done|simpl; lia|by eapply step_ends].
  - destruct (step st c) as [st'| |] eqn:Es; [|intros [= <-]|done].
    + intros (t & tail & -> & -> & Ht)%IH. exists (c :: t), tail. split_and!; [done|simpl; lia|by eapply step_sound].
    + exists [], (c :: l). split_and!; [done|simpl; lia|by eapply step_ends].
Qed.

Lemma exponent_step c t : exponent (c :: t) ->
  is_digit c = false /\ c <> Byte.x2e /\ exists st, step_Exp c = Next st /\ accepted st t.
Proof.
  intros [?|(e & ds & He & Hd & [= -> ->])]; [done|]. unfold step_Exp. rewrite bool_decide_true by done.
  split; [|split]; [set_unfold in He; by destruct He as [->|[->|[]]]..|]. by exists Exp.
Qed.
Lemma fraction_step c t : fraction (c :: t) ->
  is_digit c = false /\ exists st, step_Zero c = Next st /\ accepted st t.
Proof.
  unfold step_Zero. intros [He|(d & ds & e & ? & ? & ? & [= -> ->])].
  - apply exponent_step in He as (? & ? & ?). by rewrite bool_decide_false.
  - split; [done|]. rewrite bool_decide_true by done. exists Dot. split; [done|]. by exists d, ds, e.
Qed.
Lemma digit_not_special c : is_digit c = true -> c ∉ [Byte.x2e; Byte.x65; Byte.x45; Byte.x2b; Byte.x2d].
Proof. intros Hd Hc. set_unfold in Hc. by destruct Hc as [->|[->|[->|[->|[->|[]]]]]]. Qed.
Lemma exponent_digits_step c t : exponent_digits (c :: t) -> exists st, step_ExpSign c = Next st /\ accepted st t.
Proof. intros (d & ds & Hd & Hds & [= -> ->]). exists Exp0. unfold step_ExpSign. by rewrite Hd. Qed.

Lemma accepted_string_step c t : accepted InString (c :: t) ->
  exists st, step InString c = Next st /\ accepted st t.
Proof.
  intros (body & Hs & Hb). simpl. destruct Hs as [|x body Hq Hn Hl Hs|x body He Hs|hs body Hl Hh Hs];
    simpl in Hb; injection Hb as -> ->.
  - rewrite bool_decide_true by done. by exists EndValue.
  - rewrite !bool_decide_false by done. replace (byte_val x <? 32) with false by lia.
    exists InString. split; [done|]. by exists body.
  - exists InStringEsc. split; [done|]. exists (x :: body). split; [by constructor|done].
  - exists InStringEsc. split; [done|]. exists (Byte.x75 :: hs ++ body). split; [by constructor|done].
Qed.
Lemma accepted_escape_step c t : accepted InStringEsc (c :: t) ->
  exists st, step InStringEsc c = Next st /\ accepted st t.
Proof.
  intros (body & Hs & Hb). simpl. inversion Hs as [| |x body' He Hs' E|hs body' Hl Hh Hs' E]; subst; try done;
    simpl in Hb; injection Hb as -> ->.
  - rewrite He. exists InString. split; [done|]. by exists body'.
  - exists (InStringU 3). split; [done|]. exists hs, body'. by rewrite <- app_assoc.
Qed.

Lemma accepted_step st c t : accepted st (c :: t) -> exists st', step st c = Next st' /\ accepted st' t.
Proof.
  destruct st as [| |n| | | | | | | | |lit|]; [apply accepted_string_step|apply accepted_escape_step|..]; simpl.
  - intros ([|h hs] & body & Hl & Hh & Hs & Hc); [done|]. simpl in Hc. injection Hc as -> ->. inversion Hh; subst.
    rewrite H1. eexists. split; [done|]. injection Hl as Hl. destruct n as [|n]; simpl.
    + destruct hs; [|done]. by exists body.
    + by exists hs, body.
  - intros (d & rest & Hd & [= -> ->] & Hf). case_bool_decide as H0.
    + exists Zero. split; [done|]. by destruct Hf as [Hf|[? _]].
    + rewrite Hd. exists Digits. split; [done|]. destruct Hf as [Hf|[_ Hf]]; [|done].
      exists [], rest. split_and!; [constructor|done|done].
  - intros ([|d ds] & f & Hd & Hf & Hc); simpl in Hc.
    + subst f. apply fraction_step in Hf as [-> Hf]. done.
    + injection Hc as -> ->. inversion Hd; subst. rewrite H1. exists Digits. split; [done|]. by exists ds, f.
  - intros Hf. by apply fraction_step in Hf as [_ Hf].
  - intros (d & ds & e & Hd & ? & ? & [= -> ->]). rewrite Hd. exists Dot0. split; [done|]. by exists ds, e.
  - intros ([|d ds] & e & Hd & He & Hc); simpl in Hc.
    + subst e. by apply exponent_step in He as (-> & _ & He).
    + injection Hc as -> ->. inversion Hd; subst. rewrite H1. exists Dot0. split; [done|]. by exists ds, e.
  - intros [He|(s & ds & Hs & He & [= -> ->])].
    + assert (is_digit c = true) as Hd by (by destruct He as (? & ? & ? & _ & [= -> _])).
      apply digit_not_special in Hd. rewrite bool_decide_false by (clear -Hd; set_solver). by apply exponent_digits_step.
    + rewrite bool_decide_true by done. by exists ExpSign.
  - apply exponent_digits_step.
  - intros Hd. inversion Hd; subst. rewrite H1. by exists Exp0.
  - intros <-. rewrite bool_decide_true by done. eexists. split; [done|]. by destruct t.
  - done.
Qed.

Lemma closes_step_Exp c tail : closes (c :: tail) -> step_Exp c = ScanEnd.
Proof. intros [_ Hc]. unfold step_Exp. rewrite bool_decide_false; [done|clear -Hc; set_solver]. Qed.
Lemma closes_step_Zero c tail : closes (c :: tail) -> step_Zero c = ScanEnd.
Proof.
  intros Hc. unfold step_Zero. rewrite (closes_step_Exp c tail Hc). destruct Hc as [_ Hc].
  rewrite bool_decide_false; [done|clear -Hc; set_solver].
Qed.
Lemma accepted_nil_step st c tail : accepted st [] -> closes (c :: tail) -> step st c = ScanEnd.
Proof.
  intros Ha Hc. pose proof Hc as [Hd _].
  destruct st as [| |n| | | | | | | | |lit|]; simpl in *; try done.
  - destruct Ha as (body & _ & Hb). by destruct body.
  - destruct Ha as (body & _ & Hb). by destruct body.
  - destruct Ha as (hs & body & _ & _ & _ & Hb). by destruct hs, body.
  - by destruct Ha as (? & ? & _ & ? & _).
  - rewrite Hd. by apply (closes_step_Zero c tail).
  - by apply (closes_step_Zero c tail).
  - by destruct Ha as (? & ? & ? & _ & _ & _ & ?).
  - rewrite Hd. by apply (closes_step_Exp c tail).
  - by destruct Ha as [(? & ? & _ & _ & ?)|(? & ? & _ & _ & ?)].
  - by destruct Ha as (? & ? & _ & _ & ?).
  - by rewrite Hd.
  - by subst lit.
Qed.

Lemma read_rest_complete t : forall st tail n, accepted st t -> closes tail ->
  read_rest st (t ++ tail) n = Ok (n + length t)%nat.
Proof.
  induction t as [|c t IH]; intros st tail n Ha Hc; simpl.
  - rewrite Nat.add_0_r. destruct tail as [|c tail]; cbn [read_rest].
    + rewrite (accepted_nil_step st Byte.x20 []); [done|done|]. split; [done|set_solver].
    + by rewrite (accepted_nil_step st c tail).
  - apply accepted_step in Ha as (st' & -> & Ha). rewrite (IH st' tail (S n) Ha Hc). f_equal. lia.
Qed.

(** A scalar is a string, a number or a word. *)
Definition scalar (t : bytes) : Prop := number t \/ word t.

Lemma begin_value_quote c : begin_value c = Next InString <-> c = quote.
Proof. split; [|by intros ->]. by destruct c. Qed.

Lemma begin_digit c : is_digit c = true -> c <> Byte.x30 -> begin_value c = Next Digits.
Proof. by destruct c. Qed.

Lemma begin_number c st t : begin_value c = Next st -> c <> quote -> accepted st t -> scalar (c :: t).
Proof.
  intros Hb Hq. assert (is_digit c = true -> c <> Byte.x30 -> accepted Digits t -> scalar (c :: t)) as Hdig.
  { intros Hd H0 (ds & f & ? & ? & ->). left; left. exists c, (ds ++ f). split_and!; [done|done|].
    right. split; [done|]. by exists ds, f. }
  destruct c; try done; simpl in Hb; injection Hb as <-; try (by apply Hdig); simpl; intros Ht.
  - left. right. by exists t.
  - left; left. exists Byte.x30, t. split_and!; [done|done|by left].
  - subst. right. unfold word. set_solver.
  - subst. right. unfold word. set_solver.
  - subst. right. unfold word. set_solver.
Qed.

Lemma readValue_sound l n : readValue l = Ok n -> exists t tail, l = t ++ tail /\ n = length t
  /\ (if bool_decide (hd Byte.x00 l = quote) then string_literal t else scalar t).
Proof.
  destruct l as [|c l]; [done|]. cbn [readValue hd]. destruct (begin_value c) as [st| |] eqn:Eb; try done.
  intros (t & tail & -> & -> & Ht)%read_rest_sound. exists (c :: t), tail. split_and!; [done|done|].
  case_bool_decide as Hq.
  - apply begin_value_quote in Hq as Hq'. rewrite Hq' in Eb. injection Eb as <-. destruct Ht as (body & Hs & ->).
    subst c. by exists body.
  - by apply (begin_number c st).
Qed.

Lemma string_literal_cons t : string_literal t -> exists t', t = quote :: t' /\ accepted InString t'.
Proof. intros (body & Hs & ->). exists (body ++ [quote]). split; [done|]. by exists body. Qed.
Lemma scalar_begin t : scalar t -> exists c t' st, t = c :: t' /\ c <> quote /\ begin_value c = Next st /\ accepted st t'.
Proof.
  assert (forall t, unsigned_number t -> exists c t' st, t = c :: t' /\ is_digit c = true
    /\ begin_value c = Next st /\ accepted st t') as Hun.
  { intros u (c & rest & Hd & -> & Hf). exists c, rest. destruct (decide (c = Byte.x30)) as [->|H0].
    - exists Zero. split_and!; [done|done|done|]. by destruct Hf as [Hf|[? _]].
    - exists Digits. rewrite begin_digit by done. split_and!; [done|done|done|]. destruct Hf as [Hf|[_ Hf]]; [|done].
      exists [], rest. split_and!; [constructor|done|done]. }
  intros [[Hu|(t' & Hu & ->)]|Hw].
  - destruct (Hun t Hu) as (c & t' & st & -> & Hd & Hb & Ha). exists c, t', st. split_and!; try done. by intros ->.
  - exists Byte.x2d, t', Neg. by split_and!.
  - unfold word in Hw. set_unfold in Hw. destruct Hw as [->|[->|[->|[]]]]; eexists _, _, _; by split_and!.
Qed.
Lemma readValue_complete t tail : string_literal t \/ scalar t -> closes tail -> readValue (t ++ tail) = Ok (length t).
Proof.
  intros [(t' & -> & Ht)%string_literal_cons|(c & t' & st & -> & _ & Hb & Ht)%scalar_begin] Hc; simpl.
  - by rewrite (read_rest_complete t' InString).
  - by rewrite Hb, (read_rest_complete t' st).
Qed.

(** ** Separators *)

Definition space_run (w : bytes) : Prop := Forall (fun c => is_space c = true) w.
(** White space with the separator that is due in a state, and the state after it. *)
Inductive separator : tokenState -> byte -> tokenState -> Prop :=
  | sep_array : separator tokenArrayComma Byte.x2c tokenArrayValue
  | sep_object : separator tokenObjectComma Byte.x2c tokenObjectKey
  | sep_colon : separator tokenObjectColon Byte.x3a tokenObjectValue.
Inductive separators : tokenState -> bytes -> tokenState -> Prop :=
  | sep_spaces st w : space_run w -> separators st w st
  | sep_byte st b st' w1 w2 : separator st b st' -> space_run w1 -> space_run w2 ->
      separators st (w1 ++ b :: w2) st'.
(** A byte that starts a token. *)
Definition starts (c : byte) : Prop := is_space c = false /\ c <> Byte.x3a /\ c <> Byte.x2c.

Definition mk (off : Z) (rest : bytes) (st : tokenState) (stack : list tokenState) : Decoder :=
  {| d_offset := off; d_rest := rest; d_state := st; d_stack := stack |}.
Lemma mk_eta d : d = mk (d_offset d) (d_rest d) (d_state d) (d_stack d).
Proof. by destruct d. Qed.
Lemma advance_app off w rest st st' stack :
  advance (length w) st' (mk off (w ++ rest) st stack) = mk (off + zlen w) rest st' stack.
Proof. unfold advance, mk. simpl. by rewrite drop_app_length. Qed.
Lemma advance_cons off c rest st st' stack :
  advance 1 st' (mk off (c :: rest) st stack) = mk (off + 1) rest st' stack.
Proof. done. Qed.

Lemma spaces_run w c rest : space_run w -> is_space c = false -> spaces (w ++ c :: rest) = length w.
Proof. intros Hw Hc. induction Hw as [|b w Hb Hw IH]; simpl; [by rewrite Hc|]. by rewrite Hb, IH. Qed.
Lemma peek_run off w c rest st stack : space_run w -> is_space c = false ->
  peek (mk off (w ++ c :: rest) st stack) = Ok (c, mk (off + zlen w) (c :: rest) st stack).
Proof.
  intros Hw Hc. unfold peek. cbn [d_rest d_state mk]. rewrite spaces_run by done.
  rewrite drop_app_length. f_equal. f_equal. apply advance_app.
Qed.
Lemma spaces_split l : exists w rest, l = w ++ rest /\ space_run w /\ spaces l = length w
  /\ match rest with [] => True | c :: _ => is_space c = false end.
Proof.
  induction l as [|c l (w & rest & -> & Hw & Hs & Hr)]; [exists [], []; split_and!; [done|constructor|done|done]|].
  destruct (is_space c) eqn:Ec.
  - exists (c :: w), rest. simpl. rewrite Ec, Hs. split_and!; [done|by constructor|done|done].
  - exists [], (c :: w ++ rest). simpl. rewrite Ec. split_and!; [done|constructor|done|done].
Qed.
Lemma peek_Ok d c d' : peek d = Ok (c, d') -> exists w rest, d_rest d = w ++ c :: rest /\ space_run w
  /\ is_space c = false /\ d' = mk (d_offset d + zlen w) (c :: rest) (d_state d) (d_stack d).
Proof.
  rewrite (mk_eta d). destruct (spaces_split (d_rest d)) as (w & rest & Hr & Hw & _ & Hc).
  cbn [mk d_rest d_offset d_state d_stack]. rewrite Hr.
  destruct rest as [|c' rest].
  - unfold peek. cbn [mk d_rest]. rewrite app_nil_r.
    assert (spaces w = length w) as ->; [|by rewrite drop_all].
    clear -Hw. induction Hw as [|b w Hb Hw IH]; simpl; [done|]. by rewrite Hb, IH.
  - rewrite peek_run by done. intros [= -> <-]. by exists w, rest.
Qed.
Lemma peek_EOF off w st stack : space_run w -> peek (mk off w st stack) = Err io_EOF.
Proof.
  intros Hw. unfold peek. cbn [mk d_rest]. assert (spaces w = length w) as ->; [|by rewrite drop_all].
  induction Hw as [|b w Hb Hw IH]; simpl; [done|]. by rewrite Hb, IH.
Qed.

Lemma token_starts rounds off w c rest st stack : space_run w -> starts c ->
  token_loop (S rounds) (mk off (w ++ c :: rest) st stack) = token_at c (mk (off + zlen w) (c :: rest) st stack).
Proof.
  intros Hw (Hs & H1 & H2). cbn [token_loop]. rewrite peek_run by done. by destruct c.
Qed.
Lemma token_separator rounds off w b rest st st' stack : space_run w -> separator st b st' ->
  token_loop (S rounds) (mk off (w ++ b :: rest) st stack) = token_loop rounds (mk (off + zlen w + 1) rest st' stack).
Proof. intros Hw Hs. cbn [token_loop]. rewrite peek_run; [by destruct Hs|done|by destruct Hs]. Qed.
Lemma Token_separators st pre st' off c rest stack : separators st pre st' -> starts c ->
  decoder_Token (mk off (pre ++ c :: rest) st stack) = token_at c (mk (off + zlen pre) (c :: rest) st' stack).
Proof.
  intros Hsep Hc. unfold decoder_Token. destruct Hsep as [st w Hw|st b st' w1 w2 Hb Hw1 Hw2]; [by apply token_starts|].
  rewrite <- app_assoc. cbn [app]. rewrite (token_separator _ _ w1 b _ st st'), token_starts by done.
  do 2 f_equal. rewrite zlen_app, zlen_cons. lia.
Qed.
(** A token is found after the separators that were due. *)
Lemma Token_Ok d tok d' : decoder_Token d = Ok (tok, d') -> exists pre c rest st',
  separators (d_state d) pre st' /\ starts c /\ d_rest d = pre ++ c :: rest
  /\ token_at c (mk (d_offset d + zlen pre) (c :: rest) st' (d_stack d)) = Ok (tok, d').
Proof.
  unfold decoder_Token. cbn [token_loop]. destruct (peek d) as [[c d1]|e] eqn:Ep; [|done].
  apply peek_Ok in Ep as (w & rest & Hr & Hw & Hc & ->). intros Ht.
  destruct (decide (c = Byte.x3a \/ c = Byte.x2c)) as [Hb|Hb].
  - assert (exists st', separator (d_state d) c st' /\ token_loop 1 (mk (d_offset d + zlen w + 1) rest st' (d_stack d))
      = Ok (tok, d')) as (st' & Hs & Ht').
    { destruct Hb as [-> | ->]; cbn [mk d_state] in Ht.
      - case_bool_decide as Hst; [|done]. rewrite Hst. eexists. split; [constructor|exact Ht].
      - case_bool_decide as Hst; [|case_bool_decide as Hst'; [|done]].
        + rewrite Hst. eexists. split; [constructor|exact Ht].
        + rewrite Hst'. eexists. split; [constructor|exact Ht]. }
    clear Ht. cbn [token_loop] in Ht'.
    destruct (peek (mk _ rest _ _)) as [[c2 d2]|e2] eqn:Ep; [|done].
    apply peek_Ok in Ep as (w2 & rest2 & Hr2 & Hw2 & Hc2 & ->). cbn [mk d_rest d_offset d_state d_stack] in *.
    assert (starts c2 /\ token_at c2 (mk (d_offset d + zlen w + 1 + zlen w2) (c2 :: rest2) st' (d_stack d)) = Ok (tok, d'))
      as [Hst2 Ht2].
    { destruct (decide (c2 = Byte.x3a \/ c2 = Byte.x2c)) as [[-> | ->]|Hn].
      - destruct Hs; done.
      - destruct Hs; done.
      - split; [split; [done|]; split; intros ->; by destruct Hn; auto|]. revert Ht'. destruct c2; try done; destruct Hn; auto. }
    exists (w ++ c :: w2), c2, rest2, st'. split_and!; [by constructor|done|by rewrite Hr, Hr2, <- app_assoc|].
    rewrite <- Ht2. do 2 f_equal. rewrite zlen_app, zlen_cons. lia.
  - exists w, c, rest, (d_state d). split_and!; [by constructor| |done|].
    + split; [done|]. split; intros ->; destruct Hb; auto.
    + revert Ht. destruct c; try done; destruct Hb; auto.
Qed.

(** ** Tokens *)

(** The token at the start of [l] in a state, and the decoder after it. *)
Inductive token_here (off : Z) (stack : list tokenState) : tokenState -> bytes -> Token -> Decoder -> Prop :=
  | here_string st t tail : tokenValueAllowed st = true -> string_literal t ->
      token_here off stack st (t ++ tail) (TString (string_value t)) (mk (off + zlen t) tail (tokenValueEnd st) stack)
  | here_key st t tail : key_state st = true -> string_literal t ->
      token_here off stack st (t ++ tail) (TString (string_value t)) (mk (off + zlen t) tail tokenObjectColon stack)
  | here_scalar st t tail : tokenValueAllowed st = true -> scalar t ->
      token_here off stack st (t ++ tail) (TScalar t) (mk (off + zlen t) tail (tokenValueEnd st) stack)
  | here_open st c st' tail : tokenValueAllowed st = true ->
      (c, st') ∈ [(Byte.x5b, tokenArrayStart); (Byte.x7b, tokenObjectStart)] ->
      token_here off stack st (c :: tail) (TDelim c) (mk (off + 1) tail st' (st :: stack))
  | here_close st c outer stack' tail : stack = outer :: stack' ->
      (c, st) ∈ [(Byte.x5d, tokenArrayStart); (Byte.x5d, tokenArrayComma);
                 (Byte.x7d, tokenObjectStart); (Byte.x7d, tokenObjectComma)] ->
      token_here off stack st (c :: tail) (TDelim c) (mk (off + 1) tail (tokenValueEnd outer) stack').

Lemma allowed_not_key st : tokenValueAllowed st = true -> key_state st = false.
Proof. by destruct st. Qed.

Lemma decode_scalar_Ok st off rest st0 stack text d' :
  decode_scalar st (mk off rest st0 stack) = Ok (text, d') ->
  exists tail, rest = text ++ tail /\ d' = mk (off + zlen text) tail st stack
    /\ (if bool_decide (hd Byte.x00 rest = quote) then string_literal text else scalar text).
Proof.
  unfold decode_scalar. cbn [mk d_rest]. destruct (readValue rest) as [n|e] eqn:Er; [|done].
  apply readValue_sound in Er as (t & tail & -> & -> & Ht). rewrite take_app_length. intros [= <- <-].
  exists tail. split_and!; [done| |done]. apply advance_app.
Qed.
Lemma decode_scalar_complete st off t tail st0 stack :
  string_literal t \/ scalar t -> closes tail ->
  decode_scalar st (mk off (t ++ tail) st0 stack) = Ok (t, mk (off + zlen t) tail st stack).
Proof.
  intros Ht Hc. unfold decode_scalar. cbn [mk d_rest]. rewrite readValue_complete by done.
  rewrite take_app_length. do 2 f_equal. apply advance_app.
Qed.

Lemma value_token_Ok c off rest st stack tok d' :
  value_token c (mk off (c :: rest) st stack) = Ok (tok, d') -> token_here off stack st (c :: rest) tok d'.
Proof.
  unfold value_token. cbn [mk d_state]. destruct (tokenValueAllowed st) eqn:Ha; [|done].
  destruct (decode_scalar _ _) as [[text d1]|e] eqn:Ed; [|done]. intros [= <- <-].
  apply decode_scalar_Ok in Ed as (tail & Hr & -> & Ht). cbn [hd] in Ht. rewrite Hr.
  case_bool_decide; [by apply here_string|by apply here_scalar].
Qed.
Lemma token_at_Ok c off rest st stack tok d' :
  token_at c (mk off (c :: rest) st stack) = Ok (tok, d') -> token_here off stack st (c :: rest) tok d'.
Proof.
  destruct (decide (c ∈ [Byte.x5b; Byte.x5d; Byte.x7b; Byte.x7d; quote])) as [Hc|Hc].
  - set_unfold in Hc. destruct Hc as [->|[->|[->|[->|[->|[]]]]]]; cbn [token_at];
      unfold open_delim, close_delim; cbn [mk d_state d_stack].
    + destruct (tokenValueAllowed st) eqn:Ha; [|done]. intros [= <- <-]. apply here_open; [done|set_solver].
    + destruct (bool_decide _ || bool_decide _) eqn:Hb; [|done]. destruct stack as [|outer stack]; [done|].
      intros [= <- <-]. apply here_close; [done|]. apply orb_true_iff in Hb as [->%bool_decide_eq_true| ->%bool_decide_eq_true]; set_solver.
    + destruct (tokenValueAllowed st) eqn:Ha; [|done]. intros [= <- <-]. apply here_open; [done|set_solver].
    + destruct (bool_decide _ || bool_decide _) eqn:Hb; [|done]. destruct stack as [|outer stack]; [done|].
      intros [= <- <-]. apply here_close; [done|]. apply orb_true_iff in Hb as [->%bool_decide_eq_true| ->%bool_decide_eq_true]; set_solver.
    + unfold quote. cbn [token_at mk d_state]. destruct (key_state st) eqn:Hk; [|apply value_token_Ok]. unfold key_token.
      destruct (decode_scalar _ _) as [[text d1]|e] eqn:Ed; [|done]. intros [= <- <-].
      apply decode_scalar_Ok in Ed as (tail & Hr & -> & Ht). rewrite Hr. by apply here_key.
  - intros Ht. apply value_token_Ok. revert Ht. destruct c; try done; exfalso; apply Hc; set_solver.
Qed.

(** The start of the token at hand. *)
Lemma scalar_starts t : scalar t -> exists c t', t = c :: t' /\ starts c
  /\ c ∉ [Byte.x5b; Byte.x5d; Byte.x7b; Byte.x7d; quote].
Proof.
  intros (c & t' & st & -> & Hq & Hb & _)%scalar_begin. exists c, t'. split; [done|].
  destruct (decide (c ∈ [Byte.x20; Byte.x09; Byte.x0d; Byte.x0a; Byte.x3a; Byte.x2c; Byte.x5b; Byte.x5d; Byte.x7b; Byte.x7d; quote])) as [Hc|Hc].
  - set_unfold in Hc. by repeat destruct Hc as [->|Hc].
  - split; [split; [|split]|].
    + unfold is_space. rewrite bool_decide_false; [done|set_solver].
    + set_solver.
    + set_solver.
    + set_solver.
Qed.
Lemma token_at_value c d : c ∉ [Byte.x5b; Byte.x5d; Byte.x7b; Byte.x7d; quote] -> token_at c d = value_token c d.
Proof. intros Hc. destruct c; try done; exfalso; apply Hc; set_solver. Qed.

Lemma token_string off t tail st stack : tokenValueAllowed st = true -> string_literal t -> closes tail ->
  token_at quote (mk off (t ++ tail) st stack)
  = Ok (TString (string_value t), mk (off + zlen t) tail (tokenValueEnd st) stack).
Proof.
  intros Ha Ht Hc. unfold quote at 1. cbn [token_at mk d_state]. rewrite allowed_not_key by done. unfold value_token.
  cbn [mk d_state]. rewrite Ha. fold (mk off (t ++ tail) st stack). by rewrite decode_scalar_complete by auto.
Qed.
Lemma token_key off t tail st stack : key_state st = true -> string_literal t -> closes tail ->
  token_at quote (mk off (t ++ tail) st stack)
  = Ok (TString (string_value t), mk (off + zlen t) tail tokenObjectColon stack).
Proof.
  intros Ha Ht Hc. unfold quote at 1. cbn [token_at mk d_state]. rewrite Ha. unfold key_token.
  fold (mk off (t ++ tail) st stack). by rewrite decode_scalar_complete by auto.
Qed.
Lemma token_scalar off c t tail st stack : tokenValueAllowed st = true -> scalar (c :: t) -> closes tail ->
  token_at c (mk off ((c :: t) ++ tail) st stack)
  = Ok (TScalar (c :: t), mk (off + zlen (c :: t)) tail (tokenValueEnd st) stack).
Proof.
  intros Ha Ht Hc. destruct (scalar_starts _ Ht) as (? & ? & [= <- <-] & _ & Hn).
  rewrite token_at_value by done. unfold value_token. cbn [mk d_state]. rewrite Ha.
  fold (mk off ((c :: t) ++ tail) st stack). rewrite decode_scalar_complete by auto.
  rewrite bool_decide_false; [done|set_solver].
Qed.
Lemma Token_open st pre st' off c st1 rest stack : separators st pre st' -> tokenValueAllowed st' = true ->
  (c, st1) ∈ [(Byte.x5b, tokenArrayStart); (Byte.x7b, tokenObjectStart)] ->
  decoder_Token (mk off (pre ++ c :: rest) st stack) = Ok (TDelim c, mk (off + zlen pre + 1) rest st1 (st' :: stack)).
Proof.
  intros Hs Ha Hc. set_unfold in Hc. destruct Hc as [[= -> ->]|[[= -> ->]|[]]];
    (rewrite (Token_separators st pre st') by done; cbn [token_at]; unfold open_delim; cbn [mk d_state]; by rewrite Ha).
Qed.

Lemma here_string_inv off stack st l s d' : token_here off stack st l (TString s) d' -> key_state st = false ->
  exists t tail, l = t ++ tail /\ s = string_value t /\ string_literal t /\ tokenValueAllowed st = true
    /\ d' = mk (off + zlen t) tail (tokenValueEnd st) stack.
Proof. inversion 1; subst; [intros; eauto 10|congruence]. Qed.
Lemma here_key_inv off stack st l s d' : token_here off stack st l (TString s) d' -> tokenValueAllowed st = false ->
  exists t tail, l = t ++ tail /\ s = string_value t /\ string_literal t /\ key_state st = true
    /\ d' = mk (off + zlen t) tail tokenObjectColon stack.
Proof. inversion 1; subst; [congruence|intros; eauto 10]. Qed.
Lemma here_scalar_inv off stack st l t d' : token_here off stack st l (TScalar t) d' ->
  exists tail, l = t ++ tail /\ scalar t /\ tokenValueAllowed st = true
    /\ d' = mk (off + zlen t) tail (tokenValueEnd st) stack.
Proof. inversion 1; subst; eauto 10. Qed.
Lemma here_delim_inv off stack st l c d' : token_here off stack st l (TDelim c) d' ->
  (exists st1 tail, l = c :: tail /\ tokenValueAllowed st = true
     /\ (c, st1) ∈ [(Byte.x5b, tokenArrayStart); (Byte.x7b, tokenObjectStart)] /\ d' = mk (off + 1) tail st1 (st :: stack))
  \/ (exists outer stack' tail, l = c :: tail /\ stack = outer :: stack'
     /\ (c, st) ∈ [(Byte.x5d, tokenArrayStart); (Byte.x5d, tokenArrayComma);
                   (Byte.x7d, tokenObjectStart); (Byte.x7d, tokenObjectComma)]
     /\ d' = mk (off + 1) tail (tokenValueEnd outer) stack').
Proof. inversion 1; subst; [left|right]; eauto 10. Qed.
(** A token that was read, its text and the separators before it. *)
Lemma Token_here d tok d' : decoder_Token d = Ok (tok, d') -> exists pre l st',
  separators (d_state d) pre st' /\ d_rest d = pre ++ l /\ token_here (d_offset d + zlen pre) (d_stack d) st' l tok d'.
Proof.
  intros (pre & c & rest & st' & Hs & _ & Hr & Ht)%Token_Ok. exists pre, (c :: rest), st'.
  split_and!; [done|done|by apply token_at_Ok].
Qed.
