(* ===== verification/JsonRaw.v ===== *)
(** String values of a JSON record: [src/internal/jsonraw/spans.go].

    [FindStringSpans] walks the tokens of a record and returns where its string
    values lie in the raw bytes and under which JSON pointer.  The grammar
    [jvalue] describes JSON texts together with the positions of their string
    values, and the function is shown to accept exactly the texts of the grammar
    and to return exactly those positions. *)
From S2P Require Import Prelude JsonDecoder.
From stdpp Require Import pretty.
From Stdlib Require Import Ascii.
Local Open Scope Z_scope.

Record StringSpan := { sp_Path : string; sp_Start : Z; sp_End : Z }.

Definition ErrMultipleValues : error := Sentinel "multiple JSON values in one record".

Fixpoint scan_string (escaped : bool) (cursor : Z) (l : bytes) : option Z :=
  match l with
  | [] => None
  | c :: l =>
      if escaped then scan_string false (cursor + 1) l
      else if bool_decide (c = backslash) then scan_string true (cursor + 1) l
      else if bool_decide (c = quote) then Some (cursor + 1)
      else scan_string false (cursor + 1) l
  end.
Definition scanStringToken (data : bytes) (start : Z) : option Z :=
  match zdrop start data with
  | [] => None
  | c :: rest => if negb (bool_decide (c = quote)) then None else scan_string false (start + 1) rest
  end.

Fixpoint IndexByte (l : bytes) (b : byte) : option Z :=
  match l with
  | [] => None
  | c :: l => if bool_decide (c = b) then Some 0 else (fun i => i + 1) <$> IndexByte l b
  end.

Definition rawStringBounds (data : bytes) (startOffset endOffset : Z) : option (Z * Z) :=
  if (startOffset <? 0) || (endOffset <? startOffset) || (endOffset >? zlen data) then None
  else
    match IndexByte (slice startOffset endOffset data) quote with
    | None => None
    | Some relativeStart =>
        let absoluteStart := startOffset + relativeStart in
        match scanStringToken data absoluteStart with
        | None => None
        | Some absoluteEnd =>
            if absoluteEnd >? endOffset then None else Some (absoluteStart, absoluteEnd)
        end
    end.

Fixpoint escapePointerToken (value : string) : string :=
  match value with
  | EmptyString => EmptyString
  | String c value =>
      let rest := escapePointerToken value in
      if Ascii.eqb c "~" then String "~" (String "0" rest)
      else if Ascii.eqb c "/" then String "~" (String "1" rest)
      else String c rest
  end.
Definition pointer (path token : string) : string := String.append path (String "/" token).
Definition Itoa (n : nat) : string := pretty n.

Section Scan.
Variable raw : bytes.
Variable minRawBytes : Z.

Abbreviation scan_out := (option (result (Decoder * list StringSpan))).
Definition failed (e : error) : scan_out := Some (Err e).

(** What the end of an object or an array is checked for. *)
Definition expect_end (c : byte) (d : Decoder) (found : list StringSpan) : scan_out :=
  match decoder_Token d with
  | Err e => failed e
  | Ok (TDelim c', d) =>
      if bool_decide (c' = c) then Some (Ok (d, found)) else failed (errors_new "JSON value ended with %v")
  | Ok _ => failed (errors_new "JSON value ended with %v")
  end.

(** Between two turns of a loop and between nested values a byte is consumed, so
    a fuel of twice the number of bytes left is enough ([scan_total]). *)
Fixpoint scanValue (fuel : nat) (d : Decoder) (path : string) (found : list StringSpan) : scan_out :=
  match fuel with
  | O => None
  | S fuel =>
      let startOffset := InputOffset d in
      match decoder_Token d with
      | Err e => failed e
      | Ok (TString _, d) =>
          match rawStringBounds raw startOffset (InputOffset d) with
          | None => failed (errors_new "locate raw JSON string at offset %d")
          | Some (first, last) =>
              Some (Ok (d, if last - first >=? minRawBytes
                           then found ++ [{| sp_Path := path; sp_Start := first; sp_End := last |}]
                           else found))
          end
      | Ok (TDelim Byte.x7b, d) => scan_object fuel d path found
      | Ok (TDelim Byte.x5b, d) => scan_array fuel d path 0 found
      | Ok (TDelim _, d) => failed (errors_new "unexpected JSON delimiter %q")
      | Ok (TScalar _, d) => Some (Ok (d, found))
      end
  end
with scan_object (fuel : nat) (d : Decoder) (path : string) (found : list StringSpan) : scan_out :=
  match fuel with
  | O => None
  | S fuel =>
      let '(more, d) := More d in
      if more then
        match decoder_Token d with
        | Err e => failed e
        | Ok (TString key, d) =>
            match scanValue fuel d (pointer path (escapePointerToken (String.string_of_list_byte key))) found with
            | Some (Ok (d, found)) => scan_object fuel d path found
            | out => out
            end
        | Ok _ => failed (errors_new "JSON object key is %T, want string")
        end
      else expect_end Byte.x7d d found
  end
with scan_array (fuel : nat) (d : Decoder) (path : string) (index : nat) (found : list StringSpan) : scan_out :=
  match fuel with
  | O => None
  | S fuel =>
      let '(more, d) := More d in
      if more then
        match scanValue fuel d (pointer path (Itoa index)) found with
        | Some (Ok (d, found)) => scan_array fuel d path (S index) found
        | out => out
        end
      else expect_end Byte.x5d d found
  end.
(** The equations of the three functions. *)
Lemma scanValue_S fuel d path found : scanValue (S fuel) d path found =
  let startOffset := InputOffset d in
  match decoder_Token d with
  | Err e => failed e
  | Ok (TString _, d) =>
      match rawStringBounds raw startOffset (InputOffset d) with
      | None => failed (errors_new "locate raw JSON string at offset %d")
      | Some (first, last) =>
          Some (Ok (d, if last - first >=? minRawBytes
                       then found ++ [{| sp_Path := path; sp_Start := first; sp_End := last |}]
                       else found))
      end
  | Ok (TDelim Byte.x7b, d) => scan_object fuel d path found
  | Ok (TDelim Byte.x5b, d) => scan_array fuel d path 0 found
  | Ok (TDelim _, d) => failed (errors_new "unexpected JSON delimiter %q")
  | Ok (TScalar _, d) => Some (Ok (d, found))
  end.
Proof. done. Qed.
Lemma scan_object_S fuel d path found : scan_object (S fuel) d path found =
  let '(more, d) := More d in
  if more then
    match decoder_Token d with
    | Err e => failed e
    | Ok (TString key, d) =>
        match scanValue fuel d (pointer path (escapePointerToken (String.string_of_list_byte key))) found with
        | Some (Ok (d, found)) => scan_object fuel d path found
        | out => out
        end
    | Ok _ => failed (errors_new "JSON object key is %T, want string")
    end
  else expect_end Byte.x7d d found.
Proof. done. Qed.
Lemma scan_array_S fuel d path index found : scan_array (S fuel) d path index found =
  let '(more, d) := More d in
  if more then
    match scanValue fuel d (pointer path (Itoa index)) found with
    | Some (Ok (d, found)) => scan_array fuel d path (S index) found
    | out => out
    end
  else expect_end Byte.x5d d found.
Proof. done. Qed.
End Scan.

(** The comparison [err == io.EOF]. *)
Definition equals_EOF (e : error) : bool :=
  match e with Sentinel n => bool_decide (n = "EOF"%string) | Errorf _ _ => false end.

Definition FindStringSpans (data : bytes) (minRawBytes : Z) : result (list StringSpan) :=
  match scanValue data minRawBytes (S (2 * length data)) (NewDecoder data) "" [] with
  | None => Err (Sentinel "panic")
  | Some (Err e) => Err e
  | Some (Ok (d, found)) =>
      match decoder_Token d with
      | Ok _ => Err ErrMultipleValues
      | Err e => if equals_EOF e then Ok found else Err e
      end
  end.

Example spans_nested :
  let line := String.list_byte_of_string "{'a':{'b':[1,'xy']},'c' : 'long' }" in
  let line := map (fun c => if bool_decide (c = Byte.x27) then quote else c) line in
  FindStringSpans line 4 =
    Ok [{| sp_Path := "/a/b/1"; sp_Start := 13; sp_End := 17 |}; {| sp_Path := "/c"; sp_Start := 26; sp_End := 32 |}].
Proof. vm_compute. reflexivity. Qed.

(** ** The grammar *)

Definition member_name (key : bytes) : string := escapePointerToken (String.string_of_list_byte (string_value key)).
(** White space, with a comma unless it comes first. *)
Definition comma (first : bool) (w : bytes) : Prop :=
  if first then space_run w
  else exists w1 w2, space_run w1 /\ space_run w2 /\ w = w1 ++ Byte.x2c :: w2.
Definition colon (w : bytes) : Prop := exists w1 w2, space_run w1 /\ space_run w2 /\ w = w1 ++ Byte.x3a :: w2.

(** [jvalue p off t spans]: [t] is a JSON value; when it starts at offset [off]
    and is found under the pointer [p], its string values are [spans]. *)
Inductive jvalue : string -> Z -> bytes -> list StringSpan -> Prop :=
  | jstring p off t : string_literal t ->
      jvalue p off t [{| sp_Path := p; sp_Start := off; sp_End := off + zlen t |}]
  | jscalar p off t : scalar t -> jvalue p off t []
  | jarray p off t spans : jitems true p 0 (off + 1) t spans -> jvalue p off (Byte.x5b :: t) spans
  | jobject p off t spans : jmembers true p (off + 1) t spans -> jvalue p off (Byte.x7b :: t) spans
with jitems : bool -> string -> nat -> Z -> bytes -> list StringSpan -> Prop :=
  | items_end first p i off w : space_run w -> jitems first p i off (w ++ [Byte.x5d]) []
  | items_next first p i off w v rest spans spans' :
      comma first w -> jvalue (pointer p (Itoa i)) (off + zlen w) v spans ->
      jitems false p (S i) (off + zlen w + zlen v) rest spans' ->
      jitems first p i off (w ++ v ++ rest) (spans ++ spans')
with jmembers : bool -> string -> Z -> bytes -> list StringSpan -> Prop :=
  | members_end first p off w : space_run w -> jmembers first p off (w ++ [Byte.x7d]) []
  | members_next first p off w key c v rest spans spans' :
      comma first w -> string_literal key -> colon c ->
      jvalue (pointer p (member_name key)) (off + zlen w + zlen key + zlen c) v spans ->
      jmembers false p (off + zlen w + zlen key + zlen c + zlen v) rest spans' ->
      jmembers first p off (w ++ key ++ c ++ v ++ rest) (spans ++ spans').
Scheme jvalue_mut := Minimality for jvalue Sort Prop
  with jitems_mut := Minimality for jitems Sort Prop
  with jmembers_mut := Minimality for jmembers Sort Prop.
Combined Scheme json_ind from jvalue_mut, jitems_mut, jmembers_mut.

(** ** Locating a string *)

Lemma scan_string_body body : str_body body -> forall cursor tail,
  scan_string false cursor (body ++ quote :: tail) = Some (cursor + zlen body + 1).
Proof.
  induction 1 as [|c body Hq Hb _ _ IH|c body _ _ IH|hs body Hl Hh _ IH]; intros cursor tail; cbn [app scan_string].
  - rewrite bool_decide_false, bool_decide_true by done. f_equal. rewrite zlen_nil. lia.
  - rewrite !bool_decide_false, IH by done. f_equal. len.
  - rewrite bool_decide_true, IH by done. f_equal. len.
  - rewrite bool_decide_true by done. rewrite <- app_assoc.
    assert (forall hs cur l, Forall (fun c => is_hex c = true) hs ->
      scan_string false cur (hs ++ l) = scan_string false (cur + zlen hs) l) as Hhex.
    { clear. induction hs as [|h hs IH]; intros cur l Hh; simpl; [f_equal; len|]. inversion Hh; subst.
      rewrite !bool_decide_false by (by intros ->). rewrite IH by done. f_equal. len. }
    rewrite Hhex, IH by done. f_equal. len.
Qed.

Lemma IndexByte_app pre l b : b ∉ pre -> IndexByte (pre ++ b :: l) b = Some (zlen pre).
Proof.
  induction pre as [|c pre IH]; intros Hb; simpl; [by rewrite bool_decide_true|].
  rewrite bool_decide_false by set_solver. rewrite IH by set_solver. simpl. f_equal. len.
Qed.
Lemma run_no_quote w : space_run w -> quote ∉ w.
Proof. intros Hw Hq. unfold space_run in Hw; rewrite Forall_forall in Hw. by specialize (Hw _ Hq). Qed.
Lemma separators_no_quote st pre st' : separators st pre st' -> quote ∉ pre.
Proof.
  intros [st0 w Hw|st0 b st1 w1 w2 Hb Hw1 Hw2]; [by apply run_no_quote|].
  apply run_no_quote in Hw1, Hw2. by destruct Hb; set_solver.
Qed.

Definition in_raw (raw : bytes) (d : Decoder) : Prop :=
  0 <= d_offset d <= zlen raw /\ d_rest d = zdrop (d_offset d) raw.
Lemma in_raw_skip raw off pre rest st st' stack stack' :
  in_raw raw (mk off (pre ++ rest) st stack) -> in_raw raw (mk (off + zlen pre) rest st' stack').
Proof.
  unfold in_raw. cbn [mk d_offset d_rest]. intros [Ho Hr].
  assert (zlen (pre ++ rest) = zlen raw - off) as Hl by (rewrite Hr, zlen_zdrop; lia).
  pose proof (zlen_nonneg pre). pose proof (zlen_nonneg rest). rewrite zlen_app in Hl. split; [lia|].
  replace (zdrop (off + zlen pre) raw) with (zdrop (zlen pre) (zdrop off raw)).
  - rewrite <- Hr. by rewrite zdrop_app_exact.
  - rewrite zdrop_zdrop by lia. first [done | f_equal; lia].
Qed.

Lemma rawStringBounds_literal raw off pre t tail st stack :
  in_raw raw (mk off (pre ++ t ++ tail) st stack) -> quote ∉ pre -> string_literal t ->
  rawStringBounds raw off (off + zlen pre + zlen t) = Some (off + zlen pre, off + zlen pre + zlen t).
Proof.
  intros Hr Hq Ht. pose proof (in_raw_skip _ _ _ _ _ st _ stack Hr) as [_ Hr2]. cbn [mk d_rest d_offset] in Hr2.
  destruct Hr as [Ho Hr]. cbn [mk d_offset d_rest] in *. pose proof (zlen_nonneg pre). pose proof (zlen_nonneg t).
  assert (zlen (pre ++ t ++ tail) = zlen raw - off) as Hl by (rewrite Hr, zlen_zdrop; lia).
  pose proof (zlen_nonneg tail). rewrite !zlen_app in Hl.
  unfold rawStringBounds. replace (_ || _ || _) with false by (symmetry; repeat (apply orb_false_intro); lia).
  unfold slice. rewrite <- Hr, app_assoc, ztake_app_le, ztake_all by len.
  destruct Ht as (body & Hb & ->). rewrite IndexByte_app by done.
  unfold scanStringToken. rewrite <- Hr2. cbn [app]. rewrite bool_decide_true by done. cbn [negb].
  rewrite <- app_assoc. cbn [app]. rewrite scan_string_body by done.
  rewrite zlen_cons, zlen_app, zlen_cons, zlen_nil in *.
  replace (_ >? _) with false by lia. do 2 f_equal. lia.
Qed.

(** ** Values start and end where the decoder expects it *)

Lemma jvalue_starts p off t spans : jvalue p off t spans ->
  exists c t', t = c :: t' /\ starts c /\ c ∉ [Byte.x5d; Byte.x7d].
Proof.
  destruct 1 as [p off t Ht|p off t Ht|p off t spans Ht|p off t spans Ht].
  - destruct Ht as (body & _ & ->). eexists _, _. split; [done|]. split; [done|set_solver].
  - destruct (scalar_starts _ Ht) as (c & t' & -> & Hs & Hn). exists c, t'. split_and!; [done|done|set_solver].
  - eexists _, _. split; [done|]. split; [done|set_solver].
  - eexists _, _. split; [done|]. split; [done|set_solver].
Qed.
Lemma jvalue_nonempty p off t spans : jvalue p off t spans -> (0 < length t)%nat.
Proof. intros (c & t' & -> & _)%jvalue_starts. simpl. lia. Qed.
Lemma items_nonempty first p i off t spans : jitems first p i off t spans -> (0 < length t)%nat.
Proof.
  destruct 1 as [first p i off w Hw|first p i off w v rest spans spans' _ Hv _]; rewrite !length_app; simpl; [lia|].
  apply jvalue_nonempty in Hv. lia.
Qed.
Lemma members_nonempty first p off t spans : jmembers first p off t spans -> (0 < length t)%nat.
Proof.
  destruct 1 as [first p off w Hw|first p off w key c v rest spans spans' _ _ _ Hv _]; rewrite !length_app; simpl; [lia|].
  apply jvalue_nonempty in Hv. lia.
Qed.
Lemma space_closes b tail : is_space b = true -> closes (b :: tail).
Proof.
  unfold is_space. intros Hb%bool_decide_eq_true. set_unfold in Hb.
  destruct Hb as [->|[->|[->|[->|[]]]]]; (split; [done|set_solver]).
Qed.
Lemma run_closes w c tail : space_run w -> closes (c :: tail) -> closes (w ++ c :: tail).
Proof. intros [|b w' Hb _]; [done|]. intros _. by apply space_closes. Qed.
Lemma run_closes_end w : space_run w -> closes w.
Proof. intros [|b w' Hb _]; [done|]. by apply space_closes. Qed.
Lemma delim_closes c tail : c ∈ [Byte.x2c; Byte.x3a; Byte.x5d; Byte.x7d] -> closes (c :: tail).
Proof. intros Hc. set_unfold in Hc. destruct Hc as [->|[->|[->|[->|[]]]]]; (split; [done|set_solver]). Qed.
Lemma comma_closes w tail : comma false w -> closes (w ++ tail).
Proof.
  intros (w1 & w2 & Hw1 & _ & ->). rewrite <- app_assoc. apply run_closes; [done|apply delim_closes; set_solver].
Qed.
Lemma items_closes p i off t spans tail : jitems false p i off t spans -> closes (t ++ tail).
Proof.
  inversion 1; subst.
  - rewrite <- app_assoc. apply run_closes; [done|apply delim_closes; set_solver].
  - rewrite <- app_assoc. by apply comma_closes.
Qed.
Lemma members_closes p off t spans tail : jmembers false p off t spans -> closes (t ++ tail).
Proof.
  inversion 1; subst.
  - rewrite <- app_assoc. apply run_closes; [done|apply delim_closes; set_solver].
  - rewrite <- app_assoc. by apply comma_closes.
Qed.
Lemma colon_closes w tail : colon w -> closes (w ++ tail).
Proof.
  intros (w1 & w2 & Hw1 & _ & ->). rewrite <- app_assoc. apply run_closes; [done|apply delim_closes; set_solver].
Qed.
Lemma More_run off w c rest st stack : space_run w -> is_space c = false ->
  More (mk off (w ++ c :: rest) st stack)
  = (negb (bool_decide (c = Byte.x5d)) && negb (bool_decide (c = Byte.x7d)), mk (off + zlen w) (c :: rest) st stack).
Proof. intros Hw Hc. unfold More. by rewrite peek_run. Qed.

(** The separators of a loop: white space at first, then a comma. *)
Definition due (first : bool) (st st' : tokenState) : Prop :=
  if first then st' = st else separator st Byte.x2c st'.
Lemma More_comma first off w v tail st st' stack : comma first w -> due first st st' ->
  (exists c v', v = c :: v' /\ starts c /\ c ∉ [Byte.x5d; Byte.x7d]) ->
  exists pre off', More (mk off (w ++ v ++ tail) st stack) = (true, mk off' (pre ++ v ++ tail) st stack)
    /\ off' + zlen pre = off + zlen w /\ separators st pre st'
    /\ (forall raw, in_raw raw (mk off (w ++ v ++ tail) st stack) -> in_raw raw (mk off' (pre ++ v ++ tail) st stack)).
Proof.
  intros Hw Hd (c & v' & -> & (Hs & _ & _) & Hn). destruct first; simpl in Hw, Hd.
  - subst st'. exists [], (off + zlen w). cbn [app]. rewrite More_run by done.
    rewrite !bool_decide_false by set_solver. split_and!; [done|len|apply sep_spaces; constructor|].
    intros raw Hr. by eapply in_raw_skip.
  - destruct Hw as (w1 & w2 & Hw1 & Hw2 & ->). exists (Byte.x2c :: w2), (off + zlen w1).
    rewrite <- app_assoc. cbn [app]. rewrite More_run by done. split_and!; [done|len| |].
    + apply (sep_byte _ _ _ []); [done|constructor|done].
    + intros raw Hr. by eapply in_raw_skip.
Qed.

Lemma expect_end_run c off w tail st outer stack found : space_run w ->
  (c, st) ∈ [(Byte.x5d, tokenArrayStart); (Byte.x5d, tokenArrayComma);
             (Byte.x7d, tokenObjectStart); (Byte.x7d, tokenObjectComma)] ->
  More (mk off (w ++ c :: tail) st (outer :: stack)) = (false, mk (off + zlen w) (c :: tail) st (outer :: stack))
  /\ expect_end c (mk (off + zlen w) (c :: tail) st (outer :: stack)) found
     = Some (Ok (mk (off + zlen w + 1) tail (tokenValueEnd outer) stack, found)).
Proof.
  intros Hw Hc. assert (starts c /\ (c = Byte.x5d \/ c = Byte.x7d)) as [Hs Hcs].
  { set_unfold in Hc. destruct Hc as [[= -> _]|[[= -> _]|[[= -> _]|[[= -> _]|[]]]]]; (split; [done|auto]). }
  split; [rewrite More_run by (try done; apply Hs); by destruct Hcs as [-> | ->]|].
  unfold expect_end. pose proof (Token_separators st [] st (off + zlen w) c tail (outer :: stack)) as HT.
  cbn [app] in HT. rewrite HT; [|apply sep_spaces; constructor|done]. rewrite zlen_nil, Z.add_0_r.
  set_unfold in Hc. destruct Hc as [[= -> ->]|[[= -> ->]|[[= -> ->]|[[= -> ->]|[]]]]]; done.
Qed.

(** ** Every text of the grammar is accepted *)

Section Exact.
Context (raw : bytes) (minRawBytes : Z).
Local Abbreviation scanValue := (scanValue raw minRawBytes).
Local Abbreviation scan_object := (scan_object raw minRawBytes).
Local Abbreviation scan_array := (scan_array raw minRawBytes).

Definition keep (spans : list StringSpan) : list StringSpan :=
  List.filter (fun s => sp_End s - sp_Start s >=? minRawBytes) spans.
Lemma keep_app a b : keep (a ++ b) = keep a ++ keep b.
Proof. apply List.filter_app. Qed.

Definition scans_value (p : string) (off : Z) (t : bytes) (spans : list StringSpan) : Prop :=
  forall fuel st pre st' off0 tail stack found,
    separators st pre st' -> tokenValueAllowed st' = true -> closes tail -> off0 + zlen pre = off ->
    in_raw raw (mk off0 (pre ++ t ++ tail) st stack) -> (length t < fuel)%nat ->
    scanValue fuel (mk off0 (pre ++ t ++ tail) st stack) p found
    = Some (Ok (mk (off + zlen t) tail (tokenValueEnd st') stack, found ++ keep spans)).
Definition scans_items (first : bool) (p : string) (i : nat) (off : Z) (t : bytes) (spans : list StringSpan) : Prop :=
  forall fuel tail outer stack found,
    let st := if first then tokenArrayStart else tokenArrayComma in
    in_raw raw (mk off (t ++ tail) st (outer :: stack)) -> (length t < fuel)%nat ->
    scan_array fuel (mk off (t ++ tail) st (outer :: stack)) p i found
    = Some (Ok (mk (off + zlen t) tail (tokenValueEnd outer) stack, found ++ keep spans)).
Definition scans_members (first : bool) (p : string) (off : Z) (t : bytes) (spans : list StringSpan) : Prop :=
  forall fuel tail outer stack found,
    let st := if first then tokenObjectStart else tokenObjectComma in
    in_raw raw (mk off (t ++ tail) st (outer :: stack)) -> (length t < fuel)%nat ->
    scan_object fuel (mk off (t ++ tail) st (outer :: stack)) p found
    = Some (Ok (mk (off + zlen t) tail (tokenValueEnd outer) stack, found ++ keep spans)).

Lemma scans_string p off t : string_literal t ->
  scans_value p off t [{| sp_Path := p; sp_Start := off; sp_End := off + zlen t |}].
Proof.
  intros Ht [|fuel] st pre st' off0 tail stack found Hs Ha Hc Ho Hr Hf; [simpl in Hf; lia|].
  assert (decoder_Token (mk off0 (pre ++ t ++ tail) st stack)
    = Ok (TString (string_value t), mk (off0 + zlen pre + zlen t) tail (tokenValueEnd st') stack)) as HT.
  { pose proof Ht as (body & _ & Ht'). rewrite Ht' at 1. cbn [app].
    rewrite (Token_separators st pre st') by done. change (quote :: (body ++ [quote]) ++ tail) with ((quote :: body ++ [quote]) ++ tail).
    rewrite <- Ht'. by rewrite token_string. }
  rewrite scanValue_S. rewrite HT. unfold InputOffset. cbn [mk d_offset].
  rewrite (rawStringBounds_literal raw off0 pre t tail st stack) by (try done; by eapply separators_no_quote).
  rewrite Ho. unfold keep. cbn [List.filter sp_End sp_Start]. destruct (_ >=? _); [done|]. by rewrite app_nil_r.
Qed.
Lemma scans_scalar p off t : scalar t -> scans_value p off t [].
Proof.
  intros Ht [|fuel] st pre st' off0 tail stack found Hs Ha Hc Ho Hr Hf; [simpl in Hf; lia|].
  destruct (scalar_starts _ Ht) as (c & t' & -> & Hst & _). rewrite scanValue_S; cbn [app].
  rewrite (Token_separators st pre st') by done. rewrite (token_scalar _ c t' tail) by done.
  by rewrite Ho, app_nil_r.
Qed.
Lemma open_in_raw c t off0 pre tail st stack st' stack' off : off0 + zlen pre = off ->
  in_raw raw (mk off0 (pre ++ (c :: t) ++ tail) st stack) -> in_raw raw (mk (off + 1) (t ++ tail) st' stack').
Proof.
  intros <- Hr. apply (in_raw_skip _ _ pre _ _ st _ stack) in Hr. by apply (in_raw_skip _ _ [c] _ _ st' _ stack') in Hr.
Qed.
Lemma scans_array p off t spans : scans_items true p 0 (off + 1) t spans -> scans_value p off (Byte.x5b :: t) spans.
Proof.
  intros IH [|fuel] st pre st' off0 tail stack found Hs Ha Hc Ho Hr Hf; [simpl in Hf; lia|].
  apply (open_in_raw _ _ _ _ _ _ _ tokenArrayStart (st' :: stack) _ Ho) in Hr.
  rewrite scanValue_S; cbn [app]. rewrite (Token_open st pre st' _ _ tokenArrayStart) by (try done; set_solver).
  rewrite Ho, (IH fuel tail st' stack found Hr) by (simpl in Hf; lia). do 4 f_equal. rewrite zlen_cons. lia.
Qed.
Lemma scans_object p off t spans : scans_members true p (off + 1) t spans -> scans_value p off (Byte.x7b :: t) spans.
Proof.
  intros IH [|fuel] st pre st' off0 tail stack found Hs Ha Hc Ho Hr Hf; [simpl in Hf; lia|].
  apply (open_in_raw _ _ _ _ _ _ _ tokenObjectStart (st' :: stack) _ Ho) in Hr.
  rewrite scanValue_S; cbn [app]. rewrite (Token_open st pre st' _ _ tokenObjectStart) by (try done; set_solver).
  rewrite Ho, (IH fuel tail st' stack found Hr) by (simpl in Hf; lia). do 4 f_equal. rewrite zlen_cons. lia.
Qed.

Lemma scans_items_end first p i off w : space_run w -> scans_items first p i off (w ++ [Byte.x5d]) [].
Proof.
  intros Hw [|fuel] tail outer stack found st Hr Hf; [rewrite length_app in Hf; simpl in Hf; lia|].
  rewrite <- app_assoc. rewrite scan_array_S; cbn [app].
  destruct (expect_end_run Byte.x5d off w tail st outer stack found Hw) as [-> ->]; [destruct first; set_solver|].
  rewrite app_nil_r. do 4 f_equal. rewrite zlen_app, zlen_cons, zlen_nil. lia.
Qed.
Lemma scans_members_end first p off w : space_run w -> scans_members first p off (w ++ [Byte.x7d]) [].
Proof.
  intros Hw [|fuel] tail outer stack found st Hr Hf; [rewrite length_app in Hf; simpl in Hf; lia|].
  rewrite <- app_assoc. rewrite scan_object_S; cbn [app].
  destruct (expect_end_run Byte.x7d off w tail st outer stack found Hw) as [-> ->]; [destruct first; set_solver|].
  rewrite app_nil_r. do 4 f_equal. rewrite zlen_app, zlen_cons, zlen_nil. lia.
Qed.

Lemma in_raw_skip2 off pre v rest st stack st' stack' off' : off + zlen pre + zlen v = off' ->
  in_raw raw (mk off (pre ++ v ++ rest) st stack) -> in_raw raw (mk off' rest st' stack').
Proof. intros <- Hr. eapply (in_raw_skip _ _ v _ st _ stack), in_raw_skip, Hr. Qed.

Lemma scans_items_next first p i off w v rest spans spans' :
  comma first w -> jvalue (pointer p (Itoa i)) (off + zlen w) v spans ->
  scans_value (pointer p (Itoa i)) (off + zlen w) v spans ->
  jitems false p (S i) (off + zlen w + zlen v) rest spans' ->
  scans_items false p (S i) (off + zlen w + zlen v) rest spans' ->
  scans_items first p i off (w ++ v ++ rest) (spans ++ spans').
Proof.
  intros Hw Hv IHv Hi IHi fuel tail outer stack found st Hr Hf.
  pose proof (jvalue_nonempty _ _ _ _ Hv). pose proof (items_nonempty _ _ _ _ _ _ Hi).
  rewrite !length_app in Hf. destruct fuel as [|fuel]; [lia|]. rewrite <- !app_assoc in Hr |- *.
  destruct (More_comma first off w v (rest ++ tail) st (if first then tokenArrayStart else tokenArrayValue)
    (outer :: stack) Hw) as (pre & off' & HM & Ho & Hs & Hin);
    [by destruct first; [|constructor]|by eapply jvalue_starts|].
  apply Hin in Hr. rewrite scan_array_S, HM.
  rewrite (IHv fuel st pre _ off' (rest ++ tail) (outer :: stack) found Hs); try done.
  - replace (tokenValueEnd _) with tokenArrayComma by (by destruct first).
    rewrite (IHi fuel tail outer stack (found ++ keep spans)); [|eapply in_raw_skip2; [|exact Hr]; lia|lia].
    rewrite keep_app, (app_assoc found). do 4 f_equal. rewrite !zlen_app. lia.
  - by destruct first.
  - by eapply items_closes.
  - lia.
Qed.
Lemma scans_members_next first p off w key c v rest spans spans' :
  comma first w -> string_literal key -> colon c ->
  let value := off + zlen w + zlen key + zlen c in
  jvalue (pointer p (member_name key)) value v spans -> scans_value (pointer p (member_name key)) value v spans ->
  jmembers false p (value + zlen v) rest spans' -> scans_members false p (value + zlen v) rest spans' ->
  scans_members first p off (w ++ key ++ c ++ v ++ rest) (spans ++ spans').
Proof.
  intros Hw Hk Hc value Hv IHv Hi IHi fuel tail outer stack found st Hr Hf.
  pose proof (jvalue_nonempty _ _ _ _ Hv). pose proof (members_nonempty _ _ _ _ _ Hi).
  rewrite !length_app in Hf. destruct fuel as [|fuel]; [lia|]. rewrite <- !app_assoc in Hr |- *.
  destruct (More_comma first off w key (c ++ v ++ rest ++ tail) st (if first then tokenObjectStart else tokenObjectKey)
    (outer :: stack) Hw) as (pre & off' & HM & Ho & Hs & Hin);
    [by destruct first; [|constructor]| |].
  { destruct Hk as (body & _ & ->). eexists _, _. split; [done|]. split; [done|set_solver]. }
  apply Hin in Hr. rewrite scan_object_S, HM.
  assert (decoder_Token (mk off' (pre ++ key ++ c ++ v ++ rest ++ tail) st (outer :: stack))
    = Ok (TString (string_value key), mk (off' + zlen pre + zlen key) (c ++ v ++ rest ++ tail) tokenObjectColon (outer :: stack)))
    as ->.
  { pose proof Hk as (body & _ & Ek). rewrite Ek at 1. cbn [app]. rewrite (Token_separators st pre _ _ _ _ _ Hs) by done.
    change (quote :: (body ++ [quote]) ++ ?x) with ((quote :: body ++ [quote]) ++ x). rewrite <- Ek.
    apply token_key; [by destruct first|done|by apply colon_closes]. }
  assert (in_raw raw (mk (off' + zlen pre + zlen key) (c ++ v ++ rest ++ tail) tokenObjectColon (outer :: stack))) as Hr2
    by (by eapply in_raw_skip2; [|exact Hr]).
  fold (member_name key).
  rewrite (IHv fuel tokenObjectColon c tokenObjectValue (off' + zlen pre + zlen key) (rest ++ tail) (outer :: stack) found);
    try done.
  - change (tokenValueEnd tokenObjectValue) with tokenObjectComma. rewrite (IHi fuel tail outer stack (found ++ keep spans)); [| |lia].
    + rewrite keep_app, (app_assoc found). do 4 f_equal. unfold value. rewrite !zlen_app. lia.
    + eapply in_raw_skip2; [|exact Hr2]. unfold value. lia.
  - destruct Hc as (w1 & w2 & Hw1 & Hw2 & ->). by apply (sep_byte _ _ _ w1 w2 sep_colon).
  - by eapply members_closes.
  - unfold value. lia.
  - lia.
Qed.

Lemma scan_complete :
  (forall p off t spans, jvalue p off t spans -> scans_value p off t spans)
  /\ (forall first p i off t spans, jitems first p i off t spans -> scans_items first p i off t spans)
  /\ (forall first p off t spans, jmembers first p off t spans -> scans_members first p off t spans).
Proof.
  apply json_ind; intros.
  - by apply scans_string.
  - by apply scans_scalar.
  - by apply scans_array.
  - by apply scans_object.
  - by apply scans_items_end.
  - by apply scans_items_next.
  - by apply scans_members_end.
  - by apply scans_members_next.
Qed.

(** ** Only texts of the grammar are accepted *)

Definition value_state (st : tokenState) : Prop :=
  st ∈ [tokenTopValue; tokenArrayStart; tokenArrayComma; tokenObjectColon].

Lemma separators_space st pre st' : separators st pre st' -> (forall b st1, ~ separator st b st1) ->
  st' = st /\ space_run pre.
Proof. intros [st0 w Hw|st0 b st1 w1 w2 Hb _ _] Hn; [done|]. by destruct (Hn b st1). Qed.
Lemma separators_byte st pre st' b st1 : separators st pre st' -> separator st b st1 -> st' <> st ->
  st' = st1 /\ exists w1 w2, space_run w1 /\ space_run w2 /\ pre = w1 ++ b :: w2.
Proof.
  intros [st0 w Hw|st0 b' st2 w1 w2 Hb Hw1 Hw2] Hs Hne; [done|].
  assert (b' = b /\ st2 = st1) as [-> ->] by (destruct Hb; inversion Hs; by subst). split; [done|]. by exists w1, w2.
Qed.
Lemma value_state_token st pre st' : value_state st -> separators st pre st' -> key_state st' = false.
Proof.
  unfold value_state. intros Hv Hs. set_unfold in Hv.
  destruct Hs as [st0 w Hw|st0 b st1 w1 w2 Hb _ _]; [|destruct Hb; naive_solver].
  by destruct Hv as [->|[->|[->|[->|[]]]]].
Qed.

(** What a successful scan of a value, of items or of members means. *)
Definition value_found (d : Decoder) (p : string) (found : list StringSpan) (d' : Decoder) (found' : list StringSpan) : Prop :=
  exists pre t st' spans, separators (d_state d) pre st' /\ tokenValueAllowed st' = true
    /\ d_rest d = pre ++ t ++ d_rest d' /\ jvalue p (d_offset d + zlen pre) t spans
    /\ found' = found ++ keep spans
    /\ d' = mk (d_offset d + zlen pre + zlen t) (d_rest d') (tokenValueEnd st') (d_stack d).
Definition rest_found (G : Z -> bytes -> list StringSpan -> Prop) (d : Decoder) (found : list StringSpan)
    (d' : Decoder) (found' : list StringSpan) : Prop :=
  exists t spans outer stack, d_rest d = t ++ d_rest d' /\ G (d_offset d) t spans
    /\ found' = found ++ keep spans /\ d_stack d = outer :: stack
    /\ d' = mk (d_offset d + zlen t) (d_rest d') (tokenValueEnd outer) stack.

Lemma More_inv d more d1 : More d = (more, d1) -> exists w, space_run w /\ d_rest d = w ++ d_rest d1
  /\ d1 = mk (d_offset d + zlen w) (d_rest d1) (d_state d) (d_stack d).
Proof.
  unfold More. destruct (peek d) as [[c d2]|e] eqn:Ep; intros [= _ <-].
  - apply peek_Ok in Ep as (w & rest & Hr & Hw & _ & ->). by exists w.
  - exists []. split_and!; [constructor|done|]. rewrite zlen_nil, Z.add_0_r. apply mk_eta.
Qed.
Lemma in_raw_More d w d1 : in_raw raw d -> d_rest d = w ++ d_rest d1 ->
  d1 = mk (d_offset d + zlen w) (d_rest d1) (d_state d) (d_stack d) -> in_raw raw d1.
Proof.
  intros Hr Hd ->. rewrite (mk_eta d), Hd in Hr. by apply (in_raw_skip _ _ _ _ _ (d_state d) _ (d_stack d)) in Hr.
Qed.

Lemma expect_end_Ok c d found d' found' : expect_end c d found = Some (Ok (d', found')) -> c ∈ [Byte.x5d; Byte.x7d] ->
  exists w outer stack, space_run w /\ d_rest d = w ++ c :: d_rest d' /\ found' = found /\ d_stack d = outer :: stack
    /\ d' = mk (d_offset d + zlen w + 1) (d_rest d') (tokenValueEnd outer) stack.
Proof.
  unfold expect_end. destruct (decoder_Token d) as [[tok d1]|e] eqn:Et; [|done]. intros Hx Hc.
  assert (tok = TDelim c /\ d1 = d' /\ found' = found) as (-> & -> & ->).
  { destruct tok as [c'| |]; try done. case_bool_decide; [|done]. by simplify_eq. } clear Hx.
  apply Token_here in Et as (pre & l & st' & Hs & Hr & Ht).
  apply here_delim_inv in Ht as [(st1 & tail & _ & _ & Hin & _)|(outer & stack' & tail & -> & Hst & Hin & ->)]; [set_solver|].
  exists pre, outer, stack'. cbn [mk d_rest]. split_and!; try done.
  destruct Hs as [st0 w Hw|st0 b st1 w1 w2 Hb _ _]; [done|]. destruct Hb; set_solver.
Qed.

Lemma scanValue_found_string fuel d p found s d' found' : in_raw raw d -> value_state (d_state d) ->
  decoder_Token d = Ok (TString s, d') -> scanValue (S fuel) d p found = Some (Ok (d', found')) ->
  value_found d p found d' found'.
Proof.
  intros Hin Hv Et. rewrite scanValue_S, Et.
  apply Token_here in Et as (pre & l & st' & Hs & Hr & Ht).
  apply here_string_inv in Ht as (t & tail & -> & -> & Hl & Ha & ->); [|by eapply value_state_token].
  unfold InputOffset. cbn [mk d_offset]. rewrite (mk_eta d), Hr in Hin.
  rewrite (rawStringBounds_literal raw _ _ _ _ _ _ Hin) by (try done; by eapply separators_no_quote).
  intros [= <-]. eexists pre, t, st', _. cbn [mk d_rest]. split_and!; [done|done|done|by constructor| |done].
  unfold keep. cbn [List.filter sp_End sp_Start]. destruct (_ >=? _); [done|]. by rewrite app_nil_r.
Qed.

Lemma value_found_open d p found d' found' pre c st1 st' rest (G : Z -> bytes -> list StringSpan -> Prop) :
  separators (d_state d) pre st' -> tokenValueAllowed st' = true -> d_rest d = pre ++ c :: rest ->
  (forall off t spans, G (off + 1) t spans -> jvalue p off (c :: t) spans) ->
  rest_found G (mk (d_offset d + zlen pre + 1) rest st1 (st' :: d_stack d)) found d' found' ->
  value_found d p found d' found'.
Proof.
  intros Hs Ha Hr HG (t & spans & outer & stack & Ht & Hg & -> & [= <- <-] & Ed). cbn [mk d_rest d_offset] in *.
  exists pre, (c :: t), st', spans. split_and!; [done|done|by rewrite Hr, Ht|by apply HG|done|].
  rewrite Ed at 1. f_equal. rewrite zlen_cons. lia.
Qed.

Lemma scanValue_sound_step fuel :
  (forall d p i found d' found' (first : bool), in_raw raw d -> d_state d = (if first then tokenArrayStart else tokenArrayComma) ->
     scan_array fuel d p i found = Some (Ok (d', found')) -> rest_found (jitems first p i) d found d' found') ->
  (forall d p found d' found' (first : bool), in_raw raw d -> d_state d = (if first then tokenObjectStart else tokenObjectComma) ->
     scan_object fuel d p found = Some (Ok (d', found')) -> rest_found (jmembers first p) d found d' found') ->
  forall d p found d' found', in_raw raw d -> value_state (d_state d) ->
    scanValue (S fuel) d p found = Some (Ok (d', found')) -> value_found d p found d' found'.
Proof.
  intros IHa IHo d p found d' found' Hin Hv Hx. pose proof Hx as Hx'. rewrite scanValue_S in Hx.
  destruct (decoder_Token d) as [[tok d1]|e] eqn:Et; [|done].
  destruct tok as [c|s|text].
  - apply Token_here in Et as (pre & l & st' & Hs & Hr & Ht).
    apply here_delim_inv in Ht as [(st1 & rest & -> & Ha & Hcs & ->)|(outer & stack' & rest & -> & _ & Hcs & ->)].
    + assert (in_raw raw (mk (d_offset d + zlen pre + 1) rest st1 (st' :: d_stack d))) as Hin1.
      { rewrite (mk_eta d), Hr in Hin. apply (in_raw_skip2 (d_offset d) pre [c] rest (d_state d) (d_stack d)); [done|exact Hin]. }
      set_unfold in Hcs. destruct Hcs as [[= -> ->]|[[= -> ->]|[]]].
      * eapply value_found_open; [done|done|done|apply jarray|]. by apply (IHa _ _ _ _ _ _ true).
      * eapply value_found_open; [done|done|done|apply jobject|]. by apply (IHo _ _ _ _ _ true).
    + set_unfold in Hcs. by destruct Hcs as [[= -> ->]|[[= -> ->]|[[= -> ->]|[[= -> ->]|[]]]]].
  - assert (d1 = d') as ->.
    { cbn zeta in Hx. destruct (rawStringBounds raw (InputOffset d) (InputOffset d1)) as [[? ?]|]; [|done]. by injection Hx. }
    by eapply scanValue_found_string.
  - injection Hx as -> <-. apply Token_here in Et as (pre & l & st' & Hs & Hr & Ht).
    apply here_scalar_inv in Ht as (tail & -> & Hl & Ha & ->). exists pre, text, st', []. cbn [mk d_rest].
    split_and!; [done|done|done|by constructor|by rewrite app_nil_r|done].
Qed.

Lemma comma_found (first : bool) st st' w pre : space_run w ->
  separators st pre st' -> tokenValueAllowed st' || key_state st' = true ->
  (if first then st ∈ [tokenArrayStart; tokenObjectStart] else st ∈ [tokenArrayComma; tokenObjectComma]) ->
  comma first (w ++ pre) /\ due first st st'.
Proof.
  intros Hw Hs Ha Hst. destruct Hs as [st0 w' Hw'|st0 b st2 w1 w2 Hb Hw1 Hw2]; destruct first; set_unfold in Hst.
  - split; [by apply Forall_app|done].
  - by destruct Hst as [->|[->|[]]].
  - destruct Hb; naive_solver.
  - assert (b = Byte.x2c) as -> by (destruct Hb; naive_solver). split; [|done].
    exists (w ++ w1), w2. split_and!; [by apply Forall_app|done|by rewrite <- app_assoc].
Qed.

(** The end of an object or an array, after the loop has seen no more values. *)
Lemma end_found c d w d1 found d' found' (G : Z -> bytes -> list StringSpan -> Prop) :
  space_run w -> d_rest d = w ++ d_rest d1 -> d1 = mk (d_offset d + zlen w) (d_rest d1) (d_state d) (d_stack d) ->
  c ∈ [Byte.x5d; Byte.x7d] -> (forall off w, space_run w -> G off (w ++ [c]) []) ->
  expect_end c d1 found = Some (Ok (d', found')) -> rest_found G d found d' found'.
Proof.
  intros Hw Hr Ed1 Hc HG He. apply expect_end_Ok in He as (w' & outer & stack & Hw' & Hr1 & -> & Hstk & Ed'); [|done].
  rewrite Ed1 in Hstk, Ed'. cbn [mk d_offset d_rest d_stack] in *.
  exists ((w ++ w') ++ [c]), [], outer, stack. split_and!.
  - by rewrite Hr, Hr1, <- !app_assoc.
  - apply HG. by apply Forall_app.
  - by rewrite app_nil_r.
  - done.
  - rewrite Ed' at 1. f_equal. rewrite !zlen_app, zlen_cons, zlen_nil. lia.
Qed.

Lemma items_sound_step fuel :
  (forall d p found d' found', in_raw raw d -> value_state (d_state d) ->
    scanValue fuel d p found = Some (Ok (d', found')) -> value_found d p found d' found') ->
  (forall d p i found d' found' (first : bool), in_raw raw d -> d_state d = (if first then tokenArrayStart else tokenArrayComma) ->
     scan_array fuel d p i found = Some (Ok (d', found')) -> rest_found (jitems first p i) d found d' found') ->
  forall d p i found d' found' (first : bool), in_raw raw d -> d_state d = (if first then tokenArrayStart else tokenArrayComma) ->
     scan_array (S fuel) d p i found = Some (Ok (d', found')) -> rest_found (jitems first p i) d found d' found'.
Proof.
  intros IHv IHa d p i found d' found' first Hin Hst. rewrite scan_array_S.
  destruct (More d) as [more d1] eqn:HM. apply More_inv in HM as (w & Hw & Hr & Ed1).
  pose proof (in_raw_More _ _ _ Hin Hr Ed1) as Hin1. destruct more.
  - destruct (scanValue fuel d1 _ found) as [[[d2 found2]|e]|] eqn:Ev; [|done|done].
    intros Ha. apply IHv in Ev; [|done|rewrite Ed1; cbn; rewrite Hst; unfold value_state; destruct first; set_solver].
    destruct Ev as (pre & t & st' & spans & Hs & Hal & Hr1 & Hj & -> & Ed2).
    rewrite Ed1 in Hs, Hj. cbn [mk d_state d_offset] in Hs, Hj.
    destruct (comma_found first (d_state d) st' w pre) as [Hc Hd]; try done;
      [by rewrite Hal|rewrite Hst; destruct first; set_solver|].
    assert (in_raw raw d2) as Hin2.
    { rewrite Ed2. rewrite (mk_eta d1), Hr1 in Hin1. eapply in_raw_skip2; [|exact Hin1]. lia. }
    apply (IHa _ _ _ _ _ _ false) in Ha; [|done|rewrite Ed2; cbn; destruct first; [by rewrite Hd, Hst|destruct Hd; done]].
    destruct Ha as (rest & spans' & outer & stack & Hr2 & Hi & -> & Hstk & Ed').
    rewrite Ed2, Ed1 in Hi, Hstk, Ed'. cbn [mk d_offset d_rest d_stack] in *.
    exists ((w ++ pre) ++ t ++ rest), (spans ++ spans'), outer, stack. split_and!.
    + by rewrite Hr, Hr1, Hr2, <- !app_assoc.
    + apply items_next; [done|by rewrite zlen_app, Z.add_assoc|]. by rewrite zlen_app, Z.add_assoc.
    + by rewrite keep_app, app_assoc.
    + done.
    + rewrite Ed' at 1. f_equal. rewrite !zlen_app. lia.
  - apply (end_found _ d w d1); [done|done|done|set_solver|by constructor].
Qed.

Lemma key_position st pre st' : st ∈ [tokenObjectStart; tokenObjectComma] -> separators st pre st' ->
  tokenValueAllowed st' = false.
Proof.
  intros Hst Hs. set_unfold in Hst. destruct Hs as [st0 w _|st0 b st1 w1 w2 Hb _ _]; [|destruct Hb; naive_solver].
  by destruct Hst as [->|[->|[]]].
Qed.
Lemma members_sound_step fuel :
  (forall d p found d' found', in_raw raw d -> value_state (d_state d) ->
    scanValue fuel d p found = Some (Ok (d', found')) -> value_found d p found d' found') ->
  (forall d p found d' found' (first : bool), in_raw raw d -> d_state d = (if first then tokenObjectStart else tokenObjectComma) ->
     scan_object fuel d p found = Some (Ok (d', found')) -> rest_found (jmembers first p) d found d' found') ->
  forall d p found d' found' (first : bool), in_raw raw d -> d_state d = (if first then tokenObjectStart else tokenObjectComma) ->
     scan_object (S fuel) d p found = Some (Ok (d', found')) -> rest_found (jmembers first p) d found d' found'.
Proof.
  intros IHv IHo d p found d' found' first Hin Hst. rewrite scan_object_S.
  destruct (More d) as [more d1] eqn:HM. apply More_inv in HM as (w & Hw & Hr & Ed1).
  pose proof (in_raw_More _ _ _ Hin Hr Ed1) as Hin1.
  destruct more; [|apply (end_found _ d w d1); [done|done|done|set_solver|by constructor]].
  destruct (decoder_Token d1) as [[[c|key|text] dk]|e] eqn:Et; try done.
  apply Token_here in Et as (pre & l & st' & Hs & Hr1 & Ht). rewrite Ed1 in Hs, Ht. cbn [mk d_state d_offset d_stack] in Hs, Ht.
  apply here_key_inv in Ht as (kt & tail & -> & -> & Hk & Hks & Edk);
    [|by eapply key_position, Hs; rewrite Hst; destruct first; set_solver].
  destruct (comma_found first (d_state d) st' w pre) as [Hc Hd]; try done;
    [by rewrite Hks, orb_true_r|rewrite Hst; destruct first; set_solver|].
  assert (in_raw raw dk) as Hink.
  { rewrite (mk_eta d1), Hr1, Ed1 in Hin1. rewrite Edk. eapply in_raw_skip2; [|exact Hin1]. cbn. lia. }
  destruct (scanValue fuel dk _ found) as [[[d2 found2]|e]|] eqn:Ev; [|done|done]. intros Ha.
  apply IHv in Ev; [|done|rewrite Edk; unfold value_state; set_solver].
  destruct Ev as (cs & t & st2 & spans & Hs2 & Hal & Hr2 & Hj & -> & Ed2).
  rewrite Edk in Hs2, Hj, Hr2, Ed2. cbn [mk d_state d_offset d_rest d_stack] in Hs2, Hj, Hr2, Ed2.
  destruct (separators_byte _ _ _ _ _ Hs2 sep_colon) as [-> Hcol]; [by intros ->|].
  assert (in_raw raw d2) as Hin2.
  { rewrite Ed2. rewrite Edk, Hr2 in Hink. eapply in_raw_skip2; [|exact Hink]. lia. }
  apply (IHo _ _ _ _ _ false) in Ha; [|done|by rewrite Ed2].
  destruct Ha as (rest & spans' & outer & stack & Hr3 & Hi & -> & Hstk & Ed').
  rewrite Ed2 in Hi, Hstk, Ed'. cbn [mk d_offset d_stack] in Hi, Hstk, Ed'.
  exists ((w ++ pre) ++ kt ++ cs ++ t ++ rest), (spans ++ spans'), outer, stack. split_and!.
  - by rewrite Hr, Hr1, Hr2, Hr3, <- !app_assoc.
  - apply members_next; try done; rewrite zlen_app, !Z.add_assoc; done.
  - by rewrite keep_app, app_assoc.
  - done.
  - rewrite Ed' at 1. f_equal. rewrite !zlen_app. lia.
Qed.

Lemma scan_sound fuel :
  (forall d p found d' found', in_raw raw d -> value_state (d_state d) ->
    scanValue fuel d p found = Some (Ok (d', found')) -> value_found d p found d' found')
  /\ (forall d p i found d' found' (first : bool), in_raw raw d ->
     d_state d = (if first then tokenArrayStart else tokenArrayComma) ->
     scan_array fuel d p i found = Some (Ok (d', found')) -> rest_found (jitems first p i) d found d' found')
  /\ (forall d p found d' found' (first : bool), in_raw raw d ->
     d_state d = (if first then tokenObjectStart else tokenObjectComma) ->
     scan_object fuel d p found = Some (Ok (d', found')) -> rest_found (jmembers first p) d found d' found').
Proof.
  induction fuel as [|fuel (IHv & IHa & IHo)]; [done|]. split_and!.
  - by apply scanValue_sound_step.
  - by apply items_sound_step.
  - by apply members_sound_step.
Qed.

(** ** The fuel is enough *)

Lemma Token_shorter d tok d' : decoder_Token d = Ok (tok, d') -> (length (d_rest d') < length (d_rest d))%nat.
Proof.
  intros (pre & l & st' & _ & Hr & Ht)%Token_here. rewrite Hr, length_app.
  destruct Ht as [st t tail _ (body & _ & ->)|st t tail _ (body & _ & ->)|st t tail _ Ht|st c st1 tail _ _|st c o k tail _ _];
    cbn [mk d_rest]; rewrite ?length_app; simpl; try lia.
  apply scalar_starts in Ht as (c & t' & -> & _). simpl. lia.
Qed.
Lemma value_shorter d p found d' found' : value_found d p found d' found' -> (length (d_rest d') < length (d_rest d))%nat.
Proof. intros (pre & t & st' & spans & _ & _ & Hr & Hj%jvalue_nonempty & _). rewrite Hr, !length_app. lia. Qed.
Lemma More_shorter d more d1 : More d = (more, d1) -> (length (d_rest d1) <= length (d_rest d))%nat.
Proof. intros (w & _ & Hr & _)%More_inv. rewrite Hr, length_app. lia. Qed.
Lemma expect_end_total c d found : expect_end c d found <> None.
Proof. unfold expect_end, failed. by repeat case_match. Qed.

(** Where the decoder is after a value of an array or an object. *)
Lemma value_next d p found d' found' : in_raw raw d -> value_found d p found d' found' -> in_raw raw d'
  /\ exists pre st', separators (d_state d) pre st' /\ tokenValueAllowed st' = true /\ d_state d' = tokenValueEnd st'.
Proof.
  intros Hin (pre & t & st' & spans & Hs & Ha & Hr & _ & _ & Ed). rewrite Ed. split; [|by exists pre, st'].
  rewrite (mk_eta d), Hr in Hin. by eapply in_raw_skip2; [|exact Hin].
Qed.
Lemma item_next st pre st' : st = tokenArrayStart \/ st = tokenArrayComma -> separators st pre st' ->
  tokenValueAllowed st' = true -> tokenValueEnd st' = tokenArrayComma.
Proof. intros Hst Hs Ha. destruct Hs as [st0 w _|st0 b st1 w1 w2 Hb _ _]; [|destruct Hb]; naive_solver. Qed.
Lemma colon_next pre st' : separators tokenObjectColon pre st' ->
  tokenValueAllowed st' = true -> tokenValueEnd st' = tokenObjectComma.
Proof. intros Hs Ha. by inversion Hs as [|st b st1 w1 w2 Hb]; subst; [|inversion Hb; subst]. Qed.

Definition array_state (d : Decoder) : Prop := d_state d = tokenArrayStart \/ d_state d = tokenArrayComma.
Definition object_state (d : Decoder) : Prop := d_state d = tokenObjectStart \/ d_state d = tokenObjectComma.
Definition total_value (fuel : nat) : Prop := forall d p found,
  in_raw raw d -> value_state (d_state d) -> (2 * length (d_rest d) < fuel)%nat -> scanValue fuel d p found <> None.
Definition total_array (fuel : nat) : Prop := forall d p i found,
  in_raw raw d -> array_state d -> (2 * length (d_rest d) + 1 < fuel)%nat -> scan_array fuel d p i found <> None.
Definition total_object (fuel : nat) : Prop := forall d p found,
  in_raw raw d -> object_state d -> (2 * length (d_rest d) + 1 < fuel)%nat -> scan_object fuel d p found <> None.

Lemma array_total fuel : total_value fuel -> total_array fuel -> total_array (S fuel).
Proof.
  intros IHv IHa d p i found Hin Hst Hf. rewrite scan_array_S. destruct (More d) as [more d1] eqn:HM.
  pose proof (More_shorter _ _ _ HM). pose proof (More_inv _ _ _ HM) as (w & Hw & Hr & Ed1).
  pose proof (in_raw_More _ _ _ Hin Hr Ed1) as Hin1. destruct more; [|apply expect_end_total].
  assert (d_state d1 = d_state d) as Hs1 by (by rewrite Ed1).
  assert (value_state (d_state d1)) as Hv1 by (rewrite Hs1; unfold value_state; destruct Hst as [-> | ->]; set_solver).
  destruct (scanValue fuel d1 (pointer p (Itoa i)) found) as [[[d2 found2]|e]|] eqn:Ev; [|done|].
  - apply (proj1 (scan_sound fuel)) in Ev; [|done|done]. pose proof (value_shorter _ _ _ _ _ Ev).
    destruct (value_next _ _ _ _ _ Hin1 Ev) as (Hin2 & pre & st' & Hs & Ha & Hs2). rewrite Hs1 in Hs.
    apply IHa; [done| |lia]. right. rewrite Hs2. by eapply item_next.
  - exfalso. by eapply IHv; [exact Hin1|exact Hv1| |exact Ev]; lia.
Qed.
Lemma object_total fuel : total_value fuel -> total_object fuel -> total_object (S fuel).
Proof.
  intros IHv IHo d p found Hin Hst Hf. rewrite scan_object_S. destruct (More d) as [more d1] eqn:HM.
  pose proof (More_shorter _ _ _ HM). pose proof (More_inv _ _ _ HM) as (w & Hw & Hr & Ed1).
  pose proof (in_raw_More _ _ _ Hin Hr Ed1) as Hin1. destruct more; [|apply expect_end_total].
  destruct (decoder_Token d1) as [[[c|key|text] dk]|e] eqn:Et; try done.
  pose proof (Token_shorter _ _ _ Et). apply Token_here in Et as (pre & l & st' & Hs & Hr1 & Ht).
  assert (d_state d1 = d_state d) as Hs1 by (by rewrite Ed1).
  apply here_key_inv in Ht as (kt & tail & -> & -> & _ & _ & Edk);
    [|eapply key_position, Hs; rewrite Hs1; destruct Hst as [-> | ->]; set_solver].
  assert (in_raw raw dk) as Hink.
  { rewrite (mk_eta d1), Hr1 in Hin1. rewrite Edk. eapply in_raw_skip2; [|exact Hin1]. lia. }
  assert (value_state (d_state dk)) as Hvk by (rewrite Edk; unfold value_state; set_solver).
  destruct (scanValue fuel dk _ found) as [[[d2 found2]|e]|] eqn:Ev; [|done|].
  - apply (proj1 (scan_sound fuel)) in Ev; [|done|done]. pose proof (value_shorter _ _ _ _ _ Ev).
    destruct (value_next _ _ _ _ _ Hink Ev) as (Hin2 & pre2 & st2 & Hs2 & Ha & Est). rewrite Edk in Hs2.
    apply IHo; [done| |lia]. right. rewrite Est. by eapply colon_next.
  - exfalso. by eapply IHv; [exact Hink|exact Hvk| |exact Ev]; lia.
Qed.
Lemma value_total fuel : total_array fuel -> total_object fuel -> total_value (S fuel).
Proof.
  intros IHa IHo d p found Hin Hv Hf. rewrite scanValue_S.
  destruct (decoder_Token d) as [[[c|s|text] d1]|e] eqn:Et; try done; [|cbn zeta; by destruct (rawStringBounds raw (InputOffset d) (InputOffset d1)) as [[? ?]|]].
  pose proof (Token_shorter _ _ _ Et). apply Token_here in Et as (pre & l & st' & Hs & Hr & Ht).
  apply here_delim_inv in Ht as [(st1 & rest & -> & Ha & Hcs & ->)|(outer & stack' & rest & -> & _ & Hcs & ->)].
  - assert (in_raw raw (mk (d_offset d + zlen pre + 1) rest st1 (st' :: d_stack d))) as Hin1.
    { rewrite (mk_eta d), Hr in Hin.
      apply (in_raw_skip2 (d_offset d) pre [c] rest (d_state d) (d_stack d)); [done|exact Hin]. }
    set_unfold in Hcs. destruct Hcs as [[= -> ->]|[[= -> ->]|[]]]; [apply IHa|apply IHo]; try done; try (by left); lia.
  - set_unfold in Hcs. by destruct Hcs as [[= -> ->]|[[= -> ->]|[[= -> ->]|[[= -> ->]|[]]]]].
Qed.
Lemma scan_total fuel : total_value fuel /\ total_array fuel /\ total_object fuel.
Proof.
  induction fuel as [|fuel (IHv & IHa & IHo)]; [split_and!; intros ?; intros; lia|].
  split_and!; [by apply value_total|by apply array_total|by apply object_total].
Qed.
End Exact.

(** ** The result *)

Lemma readValue_not_EOF l e : readValue l = Err e -> equals_EOF e = false.
Proof.
  assert (forall l st n e, read_rest st l n = Err e -> equals_EOF e = false) as Hr.
  { clear. induction l as [|c l IH]; intros st n e; cbn [read_rest];
      [destruct (step st Byte.x20)|destruct (step st c)]; try (by intros [= <-]); try done; apply IH. }
  destruct l as [|c l]; cbn [readValue]; [by intros [= <-]|].
  destruct (begin_value c); try (by intros [= <-]). apply Hr.
Qed.
Lemma token_at_not_EOF c d e : token_at c d = Err e -> equals_EOF e = false.
Proof.
  assert (forall st e, decode_scalar st d = Err e -> equals_EOF e = false) as Hd.
  { clear. intros st e. unfold decode_scalar. destruct (readValue (d_rest d)) eqn:E; [done|].
    intros [= <-]. by eapply readValue_not_EOF. }
  assert (forall c e, value_token c d = Err e -> equals_EOF e = false) as Hv.
  { clear -Hd. intros c e. unfold value_token. destruct (tokenValueAllowed _); [|by intros [= <-]].
    destruct (decode_scalar _ d) as [[? ?]|] eqn:E; [done|]. intros [= <-]. by eapply Hd. }
  destruct (decide (c ∈ [Byte.x5b; Byte.x5d; Byte.x7b; Byte.x7d; quote])) as [Hc|Hc];
    [|rewrite token_at_value by done; apply Hv].
  assert (forall e, key_token d = Err e -> equals_EOF e = false) as Hk.
  { clear -Hd. intros e. unfold key_token. destruct (decode_scalar _ d) as [[? ?]|] eqn:E; [done|].
    intros [= <-]. by eapply Hd. }
  set_unfold in Hc. destruct Hc as [->|[->|[->|[->|[->|[]]]]]]; unfold quote; cbn [token_at];
    unfold open_delim, close_delim; repeat case_match; try done; (by intros [= <-]) || apply Hv || apply Hk.
Qed.
(** The input is at its end when only white space is left. *)
Lemma Token_EOF d e : d_state d = tokenTopValue -> decoder_Token d = Err e -> equals_EOF e = true -> space_run (d_rest d).
Proof.
  intros Hst Ht He. destruct (spaces_split (d_rest d)) as (w & rest & Hr & Hw & _ & Hc).
  destruct rest as [|c rest]; [by rewrite Hr, app_nil_r|]. exfalso.
  destruct (decide (c = Byte.x3a \/ c = Byte.x2c)) as [Hb|Hb].
  - unfold decoder_Token in Ht. cbn [token_loop] in Ht. rewrite (mk_eta d), Hr, peek_run, Hst in Ht by done.
    by destruct Hb as [-> | ->]; cbn in Ht; simplify_eq/=.
  - unfold decoder_Token in Ht. rewrite (mk_eta d), Hr, token_starts in Ht;
      [|done|split; [done|split; intros ->; apply Hb; auto]].
    apply token_at_not_EOF in Ht. congruence.
Qed.

(** ** The spans are in order *)

(** Disjoint, in order, and between [cursor] and [len]. *)
Fixpoint spans_ok (cursor len : Z) (spans : list StringSpan) : Prop :=
  match spans with
  | [] => cursor <= len
  | s :: spans => cursor <= sp_Start s /\ sp_Start s <= sp_End s /\ spans_ok (sp_End s) len spans
  end.
Lemma spans_ok_bound cursor len spans : spans_ok cursor len spans -> cursor <= len.
Proof. revert cursor. induction spans as [|s spans IH]; simpl; [done|]. intros cursor (? & ? & ?%IH). lia. Qed.
Lemma spans_ok_weaken a a' len len' spans : a' <= a -> len <= len' -> spans_ok a len spans -> spans_ok a' len' spans.
Proof.
  revert a a'. induction spans as [|s spans IH]; simpl; [lia|]. intros a a' Ha Hl (? & ? & Hs).
  split_and!; [lia|lia|]. by apply (IH (sp_End s)).
Qed.
Lemma spans_ok_app a b c s1 s2 : spans_ok a b s1 -> spans_ok b c s2 -> spans_ok a c (s1 ++ s2).
Proof.
  revert a. induction s1 as [|s s1 IH]; simpl; intros a H1 H2.
  - eapply spans_ok_weaken; [exact H1|done|exact H2].
  - destruct H1 as (? & ? & H1). auto.
Qed.
Lemma spans_ok_keep m a len spans : spans_ok a len spans -> spans_ok a len (keep m spans).
Proof.
  revert a. induction spans as [|s spans IH]; simpl; [done|]. intros a (H1 & H2 & Hs).
  apply IH in Hs. destruct (_ >=? m); [done|]. eapply spans_ok_weaken; [|done|exact Hs]. lia.
Qed.

Lemma grammar_spans_ok :
  (forall p off t spans, jvalue p off t spans -> spans_ok off (off + zlen t) spans)
  /\ (forall first p i off t spans, jitems first p i off t spans -> spans_ok off (off + zlen t) spans)
  /\ (forall first p off t spans, jmembers first p off t spans -> spans_ok off (off + zlen t) spans).
Proof.
  apply json_ind.
  - intros p off t _. simpl. pose proof (zlen_nonneg t). lia.
  - intros p off t _. simpl. pose proof (zlen_nonneg t). lia.
  - intros p off t spans _ Hs. eapply spans_ok_weaken; [| |exact Hs]; len.
  - intros p off t spans _ Hs. eapply spans_ok_weaken; [| |exact Hs]; len.
  - intros first p i off w _. simpl. pose proof (zlen_nonneg (w ++ [Byte.x5d])). lia.
  - intros first p i off w v rest spans spans' _ _ Hv _ Hr. pose proof (zlen_nonneg w).
    eapply spans_ok_app; [eapply spans_ok_weaken; [|reflexivity|exact Hv]; lia|].
    eapply spans_ok_weaken; [reflexivity| |exact Hr]. len.
  - intros first p off w _. simpl. pose proof (zlen_nonneg (w ++ [Byte.x7d])). lia.
  - intros first p off w key c v rest spans spans' _ _ _ _ Hv _ Hr.
    pose proof (zlen_nonneg w). pose proof (zlen_nonneg key). pose proof (zlen_nonneg c).
    eapply spans_ok_app; [eapply spans_ok_weaken; [|reflexivity|exact Hv]; lia|].
    eapply spans_ok_weaken; [reflexivity| |exact Hr]. len.
Qed.

Lemma scan_exact data minRawBytes spans :
  scanValue data minRawBytes (S (2 * length data)) (NewDecoder data) "" [] <> None
  /\ (FindStringSpans data minRawBytes = Ok spans <->
  exists w1 t w2 all, data = w1 ++ t ++ w2 /\ space_run w1 /\ space_run w2
    /\ jvalue "" (zlen w1) t all /\ spans = keep minRawBytes all).
Proof.
  unfold FindStringSpans. assert (in_raw data (NewDecoder data)) as Hin.
  { unfold in_raw. cbn. pose proof (zlen_nonneg data). split; [lia|by rewrite zdrop_0]. }
  split; [|split].
  - apply (proj1 (scan_total data minRawBytes _)); [done|unfold value_state; set_solver|cbn; lia].
  - destruct (scanValue _ _ _ _ _ _) as [[[d found]|e]|] eqn:Es; [|done|done].
    apply (proj1 (scan_sound data minRawBytes _)) in Es; [|done|unfold value_state; set_solver].
    destruct Es as (w1 & t & st' & all & Hs & _ & Hr & Hj & Hf & Ed).
    cbn [NewDecoder d_state d_rest d_offset d_stack] in *.
    apply separators_space in Hs as [-> Hw1]; [|by intros b st; inversion 1].
    destruct (decoder_Token d) as [[tok d2]|e] eqn:Et; [done|]. destruct (equals_EOF e) eqn:Ee; [|done].
    intros [= <-]. exists w1, t, (d_rest d), all. split_and!; try done.
    eapply Token_EOF; [|exact Et|exact Ee]. by rewrite Ed.
  - intros (w1 & t & w2 & all & -> & Hw1 & Hw2 & Hj & ->).
    pose proof (proj1 (scan_complete (w1 ++ t ++ w2) minRawBytes) _ _ _ _ Hj) as Hs.
    pose proof (Hs (S (2 * length (w1 ++ t ++ w2))) tokenTopValue w1 tokenTopValue 0 w2 [] []) as Hx.
    change (NewDecoder (w1 ++ t ++ w2)) with (mk 0 (w1 ++ t ++ w2) tokenTopValue []) in *.
    rewrite Hx; [|by constructor|done|by apply run_closes_end|done|done|rewrite !length_app; lia].
    unfold decoder_Token. cbn [token_loop tokenValueEnd]. by rewrite peek_EOF.
Qed.

Lemma FindStringSpans_ok data minRawBytes spans :
  FindStringSpans data minRawBytes = Ok spans -> spans_ok 0 (zlen data) spans.
Proof.
  intros Hf. apply (proj2 (scan_exact data minRawBytes spans)) in Hf as (w1 & t & w2 & all & -> & _ & _ & Hj & ->).
  apply (proj1 grammar_spans_ok) in Hj. apply spans_ok_keep. pose proof (zlen_nonneg w1). pose proof (zlen_nonneg w2).
  eapply spans_ok_weaken; [| |exact Hj]; [lia|len].
Qed.

(** C16. On every input the scan ends; it accepts exactly the JSON texts, one
    value surrounded by white space, and returns exactly the string values of the
    text that are at least [minRawBytes] long in raw form, in order, each with its
    JSON pointer and the place of its literal. *)
Theorem find_spans_exact data minRawBytes spans :
  scanValue data minRawBytes (S (2 * length data)) (NewDecoder data) "" [] <> None
  /\ (FindStringSpans data minRawBytes = Ok spans <->
  exists w1 t w2 all, data = w1 ++ t ++ w2 /\ space_run w1 /\ space_run w2
    /\ jvalue "" (zlen w1) t all /\ spans = keep minRawBytes all).
Proof. apply scan_exact. Qed.
