(* ===== verification/Os.v ===== *)
(** The operating system as the Go code uses it: package [os], [io.Copy] and
    [path/filepath] on clean paths.

    A [world] is a Unix file system: names lead to inodes, so an open file
    survives the replacement or removal of its name.  Every system call first
    consults [w_faults], the outcomes the environment has in store for the
    following calls; a call that is due to fail returns an I/O error, and a
    failing write may have stored a prefix of its data.  An exhausted list means
    no more failures.  Two flags record durability: whether the contents of an
    inode were synced after its last change, and whether the directory entry of a
    name was synced.  [w_locked] holds the inodes under an exclusive [flock].

    A path is the list of its components, innermost first; [filepath.Join],
    [Dir] and [Base] are then cons, tail and head. *)
From S2P Require Import Prelude GoStd Effects.

Abbreviation path := (list string).

Record inode := {
  i_data : bytes;
  i_mtime : Z;
  i_synced : bool;
}.

Inductive outcome :=
| Fine
| Broken (n : nat).

Record world := {
  w_names : gmap path nat;
  w_inodes : gmap nat inode;
  w_dirs : gset path;
  w_durable : gset path;
  w_next : nat;
  w_clock : Z;
  w_faults : list outcome;
  w_locked : gset nat;
}.

Definition OS (A : Type) : Type := M world A.

(** ** World updates *)

Definition set_files (w : world) names inodes : world :=
  {| w_names := names; w_inodes := inodes; w_dirs := w_dirs w; w_durable := w_durable w;
     w_next := w_next w; w_clock := w_clock w; w_faults := w_faults w;
     w_locked := w_locked w |}.
Definition set_durable (w : world) (d : gset path) : world :=
  {| w_names := w_names w; w_inodes := w_inodes w; w_dirs := w_dirs w; w_durable := d;
     w_next := w_next w; w_clock := w_clock w; w_faults := w_faults w;
     w_locked := w_locked w |}.
Definition set_dirs (w : world) (d : gset path) : world :=
  {| w_names := w_names w; w_inodes := w_inodes w; w_dirs := d; w_durable := w_durable w;
     w_next := w_next w; w_clock := w_clock w; w_faults := w_faults w;
     w_locked := w_locked w |}.
Definition set_next (w : world) (n : nat) : world :=
  {| w_names := w_names w; w_inodes := w_inodes w; w_dirs := w_dirs w; w_durable := w_durable w;
     w_next := n; w_clock := w_clock w; w_faults := w_faults w;
     w_locked := w_locked w |}.
Definition tick (w : world) (faults : list outcome) : world :=
  {| w_names := w_names w; w_inodes := w_inodes w; w_dirs := w_dirs w; w_durable := w_durable w;
     w_next := w_next w; w_clock := w_clock w + 1; w_faults := faults;
     w_locked := w_locked w |}.

Definition os_ErrIO : error := Sentinel "input/output error".

(** The outcome of the next system call; time passes. *)
Definition next_outcome (w : world) : option nat * world :=
  match w_faults w with
  | [] => (None, tick w [])
  | Fine :: fs => (None, tick w fs)
  | Broken n :: fs => (Some n, tick w fs)
  end.

(** A call that does nothing when it fails. *)
Definition syscall {A} (m : OS A) : OS A := fun w =>
  match next_outcome w with
  | (Some _, w) => (Err os_ErrIO, w)
  | (None, w) => m w
  end.

(** ** Files *)

Record File := { f_ino : nat; f_pos : Z; f_append : bool }.
Record FileInfo := { fi_ino : nat; fi_size : Z; fi_mtime : Z; fi_regular : bool }.

Definition os_SameFile (a b : FileInfo) : bool := (fi_ino a =? fi_ino b)%nat.

Definition inode_of (w : world) (p : path) : option inode :=
  n ← w_names w !! p; w_inodes w !! n.
Definition file_data (w : world) (p : path) : option bytes := i_data <$> inode_of w p.

Definition path_error {A} (e : error) : OS A := fail (errorf "%s" e).

Definition filepath_Dir (p : path) : path := tl p.

Definition os_Stat (p : path) : OS FileInfo := syscall (fun w =>
  match w_names w !! p with
  | Some n =>
      match w_inodes w !! n with
      | Some i => (Ok {| fi_ino := n; fi_size := zlen (i_data i); fi_mtime := i_mtime i;
                         fi_regular := true |}, w)
      | None => (Err (errorf "%s" os_ErrNotExist), w)
      end
  | None =>
      if decide (p ∈ w_dirs w)
      then (Ok {| fi_ino := 0; fi_size := 0; fi_mtime := 0; fi_regular := false |}, w)
      else (Err (errorf "%s" os_ErrNotExist), w)
  end).

Definition os_OpenFile (p : path) (append : bool) : OS File := syscall (fun w =>
  match w_names w !! p with
  | Some n => (Ok {| f_ino := n; f_pos := 0; f_append := append |}, w)
  | None => (Err (errorf "%s" os_ErrNotExist), w)
  end).
Definition os_Open (p : path) : OS File := os_OpenFile p false.

(** [os.OpenFile] with [O_CREATE], and [O_EXCL] when [excl]: an absent file is
    created empty. *)
Definition os_Create (p : path) (excl append : bool) : OS File := syscall (fun w =>
  match w_names w !! p with
  | Some n =>
      if excl then (Err (errorf "%s" os_ErrExist), w)
      else (Ok {| f_ino := n; f_pos := 0; f_append := append |}, w)
  | None =>
      if decide (filepath_Dir p ∈ w_dirs w) then
        let n := w_next w in
        (Ok {| f_ino := n; f_pos := 0; f_append := append |},
         set_next (set_files w (<[p := n]> (w_names w))
           (<[n := {| i_data := []; i_mtime := w_clock w; i_synced := false |}]> (w_inodes w))) (S n))
      else (Err (errorf "%s" os_ErrNotExist), w)
  end).

(** [flock(LOCK_EX|LOCK_NB)] and [flock(LOCK_UN)]: whether the lock was taken. *)
Definition set_locked (w : world) (l : gset nat) : world :=
  {| w_names := w_names w; w_inodes := w_inodes w; w_dirs := w_dirs w; w_durable := w_durable w;
     w_next := w_next w; w_clock := w_clock w; w_faults := w_faults w; w_locked := l |}.
Definition flock_try (f : File) : OS bool := syscall (fun w =>
  if decide (f_ino f ∈ w_locked w) then (Ok false, w)
  else (Ok true, set_locked w (w_locked w ∪ {[f_ino f]}))).
Definition flock_release (f : File) : OS unit := syscall (fun w =>
  (Ok tt, set_locked w (w_locked w ∖ {[f_ino f]}))).

Definition file_Chmod (f : File) : OS unit := syscall (ret tt).

Definition file_Close (f : File) : OS unit := syscall (ret tt).

Definition file_Stat (f : File) : OS FileInfo := syscall (fun w =>
  match w_inodes w !! f_ino f with
  | Some i => (Ok {| fi_ino := f_ino f; fi_size := zlen (i_data i); fi_mtime := i_mtime i;
                     fi_regular := true |}, w)
  | None => (Err os_ErrIO, w)
  end).

(** Contents after writing [data] at [pos], with a gap filled by zeros; writing
    nothing changes nothing. *)
Definition pwrite (pos : Z) (data old : bytes) : bytes :=
  match data with
  | [] => old
  | _ =>
      let padded := old ++ replicate (Z.to_nat (pos - zlen old)) Byte.x00 in
      ztake pos padded ++ data ++ zdrop (pos + zlen data) padded
  end.

Definition update_inode (w : world) (n : nat) (data : bytes) : world :=
  set_files w (w_names w)
    (<[n := {| i_data := data; i_mtime := w_clock w; i_synced := false |}]> (w_inodes w)).

(** [file.WriteAt]: the count and error, like [file.Write] below. *)
Definition inode_Write (n : nat) (pos : inode -> Z) (data : bytes) : OS (Z * option error) := fun w =>
  let '(fault, w) := next_outcome w in
  match w_inodes w !! n with
  | None => (Ok (0, Some os_ErrIO), w)
  | Some i =>
      match fault with
      | None => (Ok (zlen data, None), update_inode w n (pwrite (pos i) data (i_data i)))
      | Some k =>
          let stored := take k data in
          let w := match stored with
                   | [] => w
                   | _ => update_inode w n (pwrite (pos i) stored (i_data i))
                   end in
          (Ok (zlen stored, Some os_ErrIO), w)
      end
  end.
Definition file_WriteAt (f : File) (data : bytes) (off : Z) : OS (Z * option error) :=
  inode_Write (f_ino f) (fun _ => off) data.
(** [file.Write] at the position of the handle, or at the end with [O_APPEND];
    the handle moves on by the count. *)
Definition file_Write (f : File) (data : bytes) : OS (Z * option error * File) :=
  let* r := inode_Write (f_ino f) (fun i => if f_append f then zlen (i_data i) else f_pos f) data in
  ret (r, {| f_ino := f_ino f; f_pos := f_pos f + r.1; f_append := f_append f |}).

Definition file_Truncate (f : File) (size : Z) : OS unit := syscall (fun w =>
  match w_inodes w !! f_ino f with
  | Some i =>
      let data := i_data i in
      (Ok tt, update_inode w (f_ino f)
                (ztake size data ++ replicate (Z.to_nat (size - zlen data)) Byte.x00))
  | None => (Err os_ErrIO, w)
  end).

Definition file_Sync (f : File) : OS unit := syscall (fun w =>
  match w_inodes w !! f_ino f with
  | Some i => (Ok tt, set_files w (w_names w)
                 (<[f_ino f := {| i_data := i_data i; i_mtime := i_mtime i; i_synced := true |}]>
                    (w_inodes w)))
  | None => (Err os_ErrIO, w)
  end).

(** [file.ReadAt(destination, off)] for a destination of [n] bytes: the bytes
    read and the error; [io.EOF] when there are fewer than [n]. *)
Definition File_ReadAt (f : File) (n off : Z) : OS (bytes * option error) := fun w =>
  let '(fault, w) := next_outcome w in
  match w_inodes w !! f_ino f with
  | None => (Ok ([], Some os_ErrIO), w)
  | Some i =>
      let available := slice off (off + n) (i_data i) in
      match fault with
      | Some k => (Ok (take k available, Some os_ErrIO), w)
      | None => (Ok (available, if zlen available <? n then Some io_EOF else None), w)
      end
  end.

(** [io.Copy(destination, file)] from the start of an open file. *)
Definition file_ReadAll (f : File) : OS bytes := syscall (fun w =>
  match w_inodes w !! f_ino f with
  | Some i => (Ok (zdrop (f_pos f) (i_data i)), w)
  | None => (Err os_ErrIO, w)
  end).

Definition os_ReadFile (p : path) : OS bytes :=
  let* f := os_Open p in
  defer_ (file_Close f) (file_ReadAll f).

(** ** Names *)

(** [os.CreateTemp]: a new empty file under a name not in use. *)
Definition longest_name (w : world) : nat :=
  max_list (map (fun p => String.length (hd EmptyString p)) (elements (dom (w_names w)))).
Fixpoint filler (n : nat) : string :=
  match n with O => EmptyString | S n => String.append "x" (filler n) end.
Definition temporary_name (w : world) (prefix suffix : string) : string :=
  String.append prefix (String.append (filler (S (longest_name w))) suffix).

Definition os_CreateTemp (dir : path) (prefix suffix : string) : OS (File * path) := syscall (fun w =>
  if decide (dir ∈ w_dirs w) then
    let p := temporary_name w prefix suffix :: dir in
    let n := w_next w in
    (Ok ({| f_ino := n; f_pos := 0; f_append := false |}, p),
     set_next (set_files w (<[p := n]> (w_names w))
        (<[n := {| i_data := []; i_mtime := w_clock w; i_synced := false |}]> (w_inodes w))) (S n))
  else (Err (errorf "%s" os_ErrNotExist), w)).

Definition os_Rename (source target : path) : OS unit := syscall (fun w =>
  match w_names w !! source with
  | Some n =>
      if decide (filepath_Dir target ∈ w_dirs w) then
        (Ok tt, set_durable (set_files w (<[target := n]> (delete source (w_names w))) (w_inodes w))
                  (w_durable w ∖ {[source; target]}))
      else (Err (errorf "%s" os_ErrNotExist), w)
  | None => (Err (errorf "%s" os_ErrNotExist), w)
  end).

Definition os_Remove (p : path) : OS unit := syscall (fun w =>
  match w_names w !! p with
  | Some _ => (Ok tt, set_durable (set_files w (delete p (w_names w)) (w_inodes w))
                        (w_durable w ∖ {[p]}))
  | None => (Err (errorf "%s" os_ErrNotExist), w)
  end).

(** [os.MkdirAll]: the directory and all its ancestors. *)
Fixpoint ancestors (p : path) : list path :=
  match p with
  | [] => [[]]
  | _ :: q => p :: ancestors q
  end.
Definition os_MkdirAll (p : path) : OS unit := syscall (fun w =>
  (Ok tt, set_dirs w (w_dirs w ∪ list_to_set (ancestors p)))).

Definition os_Mkdir (p : path) : OS unit := syscall (fun w =>
  if decide (p ∈ w_dirs w \/ is_Some (w_names w !! p)) then (Err (errorf "%s" os_ErrExist), w)
  else if decide (filepath_Dir p ∈ w_dirs w) then (Ok tt, set_dirs w (w_dirs w ∪ {[p]}))
  else (Err (errorf "%s" os_ErrNotExist), w)).

(** [os.ReadDir]: the names of the files in a directory. *)
Definition os_ReadDir (dir : path) : OS (list string) := syscall (fun w =>
  if decide (dir ∈ w_dirs w) then
    (Ok (omap (fun p => match p with
                        | name :: d => if decide (d = dir) then Some name else None
                        | [] => None
                        end) (elements (dom (w_names w)))), w)
  else (Err (errorf "%s" os_ErrNotExist), w)).

Definition os_Truncate (p : path) (size : Z) : OS unit := fun w =>
  match w_names w !! p with
  | Some n => file_Truncate {| f_ino := n; f_pos := 0; f_append := false |} size w
  | None => (Err (errorf "%s" os_ErrNotExist), w)
  end.

(** Syncing a directory makes the entries in it durable. *)
Definition sync_dir (dir : path) : OS unit := syscall (fun w =>
  if decide (dir ∈ w_dirs w) then
    (Ok tt, set_durable w (w_durable w ∪ filter (fun p => filepath_Dir p = dir) (dom (w_names w))))
  else (Err (errorf "%s" os_ErrNotExist), w)).

(** [if _, err := file.Write(data); err != nil { close; return err }] *)
Definition write_file (format : string) (f : File) (data : bytes) : OS File :=
  let* (_, err, f) := file_Write f data in
  match err with
  | Some e => ignore (file_Close f) ;;; fail (errorf format e)
  | None => ret f
  end.

(** [if err := file.Sync(); err != nil { close; return err }] *)
Definition sync_file (format : string) (f : File) : OS unit :=
  or_else (wrap format (file_Sync f)) (file_Close f).

(** ** Well-formed worlds and what a computation leaves alone *)

Record world_wf (w : world) : Prop := {
  wf_names : forall p n, w_names w !! p = Some n -> is_Some (w_inodes w !! n);
  wf_next : forall n, is_Some (w_inodes w !! n) -> (n < w_next w)%nat;
}.

(** The later inode holds what the earlier one did. *)
Definition inode_kept (i i' : inode) : Prop :=
  i_data i' = i_data i /\ i_mtime i' = i_mtime i /\ (i_synced i = true -> i_synced i' = true).

(** [frame P w0 w]: from [w0] to [w], every name outside [P] still leads to the
    same inode, every inode of [w0] still has the same contents, nothing durable
    has been undone, and no inode of [w0] has got a new name. *)
Record frame (P : path -> Prop) (w0 w : world) : Prop := {
  fr_next : (w_next w0 <= w_next w)%nat;
  fr_dirs : w_dirs w0 ⊆ w_dirs w;
  fr_names : forall q n, ~ P q -> w_names w0 !! q = Some n -> w_names w !! q = Some n;
  fr_durable : forall q, ~ P q -> is_Some (w_names w0 !! q) -> q ∈ w_durable w0 -> q ∈ w_durable w;
  fr_inodes : forall n i, w_inodes w0 !! n = Some i ->
    exists i', w_inodes w !! n = Some i' /\ inode_kept i i';
  fr_new : forall q n, w_names w !! q = Some n -> w_names w0 !! q = Some n \/ (w_next w0 <= n)%nat;
}.

Definition nothing : path -> Prop := fun _ => False.

Lemma inode_kept_refl i : inode_kept i i.
Proof. by repeat split. Qed.
Lemma inode_kept_trans i j k : inode_kept i j -> inode_kept j k -> inode_kept i k.
Proof. intros (Hd & Hm & ?) (Hd' & Hm' & ?). split_and!; [congruence..|auto]. Qed.

Lemma frame_refl P w : frame P w w.
Proof. split; auto. intros n i Hi. exists i. split; [done|apply inode_kept_refl]. Qed.

Lemma frame_trans P w0 w1 w2 : frame P w0 w1 -> frame P w1 w2 -> frame P w0 w2.
Proof.
  intros [a1 b1 c1 d1 e1 f1] [a2 b2 c2 d2 e2 f2]. split.
  - lia.
  - set_solver.
  - intros q n Hq Hn. eauto.
  - intros q Hq [n Hn] Hd. apply d2; eauto.
  - intros n i Hi. destruct (e1 n i Hi) as (i1 & Hi1 & Hk1).
    destruct (e2 n i1 Hi1) as (i2 & Hi2 & Hk2). eauto using inode_kept_trans.
  - intros q n [Hq|Hq]%f2; [auto|right; lia].
Qed.

Lemma frame_mono (P Q : path -> Prop) w0 w : (forall q, P q -> Q q) -> frame P w0 w -> frame Q w0 w.
Proof. intros HPQ [a b c d e f]. split; eauto. Qed.

Lemma frame_nothing P w0 w : frame nothing w0 w -> frame P w0 w.
Proof. apply frame_mono. done. Qed.

Lemma frame_tick P w fs : frame P w (tick w fs).
Proof. split; auto. simpl. intros n i Hi. exists i. split; [done|apply inode_kept_refl]. Qed.
Lemma wf_tick w fs : world_wf w -> world_wf (tick w fs).
Proof. by intros [a b]. Qed.

Lemma frame_file_data P w0 w q d :
  frame P w0 w -> ~ P q -> file_data w0 q = Some d -> file_data w q = Some d.
Proof.
  intros Hf Hq. unfold file_data, inode_of. destruct (w_names w0 !! q) as [n|] eqn:En; [|done]. simpl.
  destruct (w_inodes w0 !! n) as [i|] eqn:Ei; [|done]. simpl. intros [= <-].
  rewrite (fr_names _ _ _ Hf _ _ Hq En). simpl.
  destruct (fr_inodes _ _ _ Hf _ _ Ei) as (i' & -> & Hk & _).
  simpl. by rewrite Hk.
Qed.
#[export] Hint Resolve frame_refl frame_tick wf_tick frame_nothing : codexfold.

(** A file whose contents and name survive a crash. *)
Definition durable (w : world) (p : path) : Prop :=
  p ∈ w_durable w /\ exists i, inode_of w p = Some i /\ i_synced i = true.

Lemma frame_durable_file P w0 w q : frame P w0 w -> ~ P q -> durable w0 q -> durable w q.
Proof.
  intros Hf Hq [Hd (i & Hi & Hs)]. unfold inode_of in Hi.
  destruct (w_names w0 !! q) as [n|] eqn:En; [|done]. simpl in Hi.
  split; [eapply fr_durable; eauto|]. unfold inode_of.
  rewrite (fr_names _ _ _ Hf _ _ Hq En). simpl.
  destruct (fr_inodes _ _ _ Hf _ _ Hi) as (i' & -> & _ & _ & Hsync). eauto.
Qed.

(** ** System calls *)

Lemma wp_syscall {A} (m : OS A) w Q :
  (forall fs, Q (Err os_ErrIO) (tick w fs)) -> (forall fs, wp m (tick w fs) Q) -> wp (syscall m) w Q.
Proof.
  intros Hbad Hgood. unfold wp, syscall, next_outcome.
  destruct (w_faults w) as [|[|n] fs]; [apply Hgood|apply Hgood|apply Hbad].
Qed.

Lemma wp_syscall_fine {A} (m : OS A) w Q :
  w_faults w = [] -> wp m (tick w []) Q -> wp (syscall m) w Q.
Proof. intros Hf Hm. unfold wp, syscall, next_outcome. by rewrite Hf. Qed.

(** [framed P w0]: well formed, and [P]-framed since [w0]. *)
Definition framed (P : path -> Prop) (w0 w : world) : Prop := world_wf w /\ frame P w0 w.

Lemma framed_refl P w : world_wf w -> framed P w w.
Proof. split; auto with codexfold. Qed.
Lemma framed_trans P w0 w1 w2 : framed P w0 w1 -> framed P w1 w2 -> framed P w0 w2.
Proof. intros [_ H1] [H2 H3]. split; eauto using frame_trans. Qed.
Lemma framed_step P w0 w w' : framed P w0 w -> world_wf w' -> frame P w w' -> framed P w0 w'.
Proof. intros [Hw Hf] Hw' Hf'. split; [done|]. eauto using frame_trans. Qed.
Lemma framed_tick P w0 w fs : framed P w0 w -> framed P w0 (tick w fs).
Proof. intros Hw. eapply framed_step; [done| |]; auto with codexfold. apply wf_tick, Hw. Qed.
#[export] Hint Resolve framed_tick : codexfold.

(** Assertions about files do not depend on the clock or on what will fail. *)
Class TickStable (P : world -> Prop) := tick_stable : forall w fs, P w -> P (tick w fs).
#[export] Instance framed_stable P w0 : TickStable (framed P w0) := framed_tick P w0.

Section Quiet.
Context (P : world -> Prop) `{TickStable P}.

Lemma keeps_syscall {A} (m : OS A) : keeps P m -> keeps P (syscall m).
Proof.
  intros Hm w Hw. unfold syscall, next_outcome.
  destruct (w_faults w) as [|[|n] fs]; try apply Hm; apply tick_stable; done.
Qed.

(** A call whose successful outcome leaves the world alone. *)
Lemma keeps_pure {A} (m : OS A) : (forall w, (m w).2 = w) -> keeps P (syscall m).
Proof. intros Hm. apply keeps_syscall. intros w Hw. by rewrite Hm. Qed.

Lemma keeps_Stat p : keeps P (os_Stat p).
Proof. apply keeps_pure. intros w. by repeat case_match. Qed.
Lemma keeps_OpenFile p a : keeps P (os_OpenFile p a).
Proof. apply keeps_pure. intros w. by repeat case_match. Qed.
Lemma keeps_Open p : keeps P (os_Open p).
Proof. apply keeps_OpenFile. Qed.
Lemma keeps_Close f : keeps P (file_Close f).
Proof. by apply keeps_pure. Qed.
Lemma keeps_ReadDir dir : keeps P (os_ReadDir dir).
Proof. apply keeps_pure. intros w. by repeat case_match. Qed.
Lemma keeps_file_Stat f : keeps P (file_Stat f).
Proof. apply keeps_pure. intros w. by repeat case_match. Qed.
Lemma keeps_ReadAll f : keeps P (file_ReadAll f).
Proof. apply keeps_pure. intros w. by repeat case_match. Qed.
Lemma keeps_ReadAt f n off : keeps P (File_ReadAt f n off).
Proof.
  intros w Hw. unfold File_ReadAt, next_outcome.
  destruct (w_faults w) as [|[|k] fs]; simpl; destruct (w_inodes w !! f_ino f); simpl;
    by apply tick_stable.
Qed.
Lemma keeps_ReadFile p : keeps P (os_ReadFile p).
Proof.
  apply keeps_bind; [apply keeps_Open|]. intros f.
  apply keeps_defer; [apply keeps_Close|apply keeps_ReadAll].
Qed.
End Quiet.

Section Keeps.
Context (P : path -> Prop) (w0 : world).

Lemma keeps_dirs (w : world) (d : gset path) : framed P w0 w -> w_dirs w ⊆ d -> framed P w0 (set_dirs w d).
Proof.
  intros [[Hn Hx] Hf] Hd. split; [by split|]. eapply frame_trans; [exact Hf|].
  split; simpl; auto. intros n i Hi. exists i. split; [done|apply inode_kept_refl].
Qed.
Lemma keeps_MkdirAll p : keeps (framed P w0) (os_MkdirAll p).
Proof. apply keeps_syscall; [apply _|]. intros w Hw. apply keeps_dirs; [done|]. set_solver. Qed.
Lemma keeps_Mkdir p : keeps (framed P w0) (os_Mkdir p).
Proof.
  apply keeps_syscall; [apply _|]. intros w Hw. simpl. case_decide; simpl; [done|].
  case_decide; simpl; [|done]. apply keeps_dirs; [done|]. set_solver.
Qed.
Lemma keeps_sync_dir p : keeps (framed P w0) (sync_dir p).
Proof.
  apply keeps_syscall; [apply _|]. intros w Hw. pose proof Hw as [[Hn Hx] Hf]. simpl. case_decide; simpl; [|exact Hw].
  split; [by split|]. eapply frame_trans; [exact Hf|].
  split; simpl; auto; [set_solver|]. intros n i Hi. exists i. split; [done|apply inode_kept_refl].
Qed.
Lemma keeps_Sync f : keeps (framed P w0) (file_Sync f).
Proof.
  apply keeps_syscall; [apply _|]. intros w Hw. pose proof Hw as [[Hn Hx] Hf]. simpl.
  destruct (w_inodes w !! f_ino f) as [i|] eqn:Ei; simpl; [|exact Hw].
  split; [split|].
  - intros p n Hp. simpl. destruct (decide (n = f_ino f)) as [->|]; simplify_map_eq; eauto.
  - intros n. simpl. destruct (decide (n = f_ino f)) as [->|]; simplify_map_eq; eauto.
  - eapply frame_trans; [exact Hf|]. split; simpl; auto. intros n j Hj.
    destruct (decide (n = f_ino f)) as [->|]; simplify_map_eq.
    + eexists. split; [done|]. by repeat split.
    + exists j. split; [done|apply inode_kept_refl].
Qed.
Lemma keeps_Remove p : P p -> keeps (framed P w0) (os_Remove p).
Proof.
  intros HP. apply keeps_syscall; [apply _|]. intros w Hw. pose proof Hw as [[Hn Hx] Hf]. simpl.
  destruct (w_names w !! p) as [k|] eqn:Ep; simpl; [|exact Hw]. split; [split|].
  - intros q m Hq. simpl in *. apply lookup_delete_Some in Hq as [_ Hq]. eauto.
  - exact Hx.
  - eapply frame_trans; [exact Hf|]. split; simpl; auto.
    + intros q n Hq Hqn. rewrite lookup_delete_ne; [done|]. by intros ->.
    + intros q Hq _ Hd. assert (q <> p) by (by intros ->). set_solver.
    + intros n i Hi. exists i. split; [done|apply inode_kept_refl].
    + intros q n [_ Hq]%lookup_delete_Some. by left.
Qed.
End Keeps.
#[export] Hint Resolve keeps_Stat keeps_Open keeps_OpenFile keeps_Close keeps_file_Stat keeps_ReadAll
  keeps_ReadAt keeps_ReadFile keeps_ReadDir keeps_MkdirAll keeps_Mkdir keeps_sync_dir keeps_Sync : keeps.

#[export] Hint Extern 1 (TickStable _) => typeclasses eauto : keeps.

(** ** Temporary files that are renamed into place *)

(** [temp_file w0 tp n d sy w]: since [w0], a new file [tp] with inode [n] and
    contents [d] has appeared, synced if [sy], and nothing else has changed. *)
Record temp_file (w0 : world) (tp : path) (n : nat) (d : bytes) (sy : bool) (w : world) : Prop := {
  tf_start : world_wf w0;
  tf_framed : framed nothing w0 w;
  tf_fresh : w_names w0 !! tp = None;
  tf_new : (w_next w0 <= n)%nat;
  tf_name : w_names w !! tp = Some n;
  tf_inode : exists i, w_inodes w !! n = Some i /\ i_data i = d /\ (sy = true -> i_synced i = true);
  tf_only : forall q, w_names w !! q = Some n -> q = tp;
}.

(** [published w0 tp p n d sy w]: the new file now has the name [p]. *)
Record published (w0 : world) (tp p : path) (n : nat) (d : bytes) (sy : bool) (w : world) : Prop := {
  pb_start : world_wf w0;
  pb_framed : framed (fun q => q = p) w0 w;
  pb_temp : tp = p \/ w_names w !! tp = None;
  pb_new : (w_next w0 <= n)%nat;
  pb_name : w_names w !! p = Some n;
  pb_inode : exists i, w_inodes w !! n = Some i /\ i_data i = d /\ (sy = true -> i_synced i = true);
  pb_only : forall q, w_names w !! q = Some n -> q = p;
}.

#[export] Instance temp_file_stable w0 tp n d sy : TickStable (temp_file w0 tp n d sy).
Proof. intros w fs [? Hf ? ? ? ? ?]. split; auto with codexfold. Qed.
#[export] Instance published_stable w0 tp p n d sy : TickStable (published w0 tp p n d sy).
Proof. intros w fs [? Hf ? ? ? ? ?]. split; auto with codexfold. Qed.

Lemma published_data w0 tp p n d sy w : published w0 tp p n d sy w -> file_data w p = Some d.
Proof.
  intros Hp. unfold file_data, inode_of. rewrite (pb_name _ _ _ _ _ _ _ Hp). simpl.
  destruct (pb_inode _ _ _ _ _ _ _ Hp) as (i & -> & <- & _). done.
Qed.

Lemma filler_length n : String.length (filler n) = n.
Proof. induction n; simpl; auto. Qed.

Lemma max_list_In x l : In x l -> (x <= max_list l)%nat.
Proof. induction l as [|y l IH]; simpl; [done|]. intros [->|Hx]; [|specialize (IH Hx)]; lia. Qed.

Lemma temporary_name_fresh w prefix suffix dir :
  w_names w !! (temporary_name w prefix suffix :: dir) = None.
Proof.
  destruct (w_names w !! _) as [n|] eqn:E; [exfalso|done].
  assert (String.length (temporary_name w prefix suffix) <= longest_name w)%nat as Hle.
  { unfold longest_name. apply max_list_In, in_map_iff.
    exists (temporary_name w prefix suffix :: dir). split; [done|].
    apply list_elem_of_In, elem_of_elements, elem_of_dom. by eexists. }
  unfold temporary_name in Hle at 1. rewrite !string_app_length, filler_length in Hle. lia.
Qed.

(** A new empty file under a name that is not in use. *)
Definition create_file (p : path) (i : inode) (w : world) : world :=
  set_next (set_files w (<[p := w_next w]> (w_names w)) (<[w_next w := i]> (w_inodes w))) (S (w_next w)).
Lemma temp_created p i w fs : world_wf w -> w_names w !! p = None -> i_data i = [] ->
  temp_file w p (w_next w) [] false (create_file p i (tick w fs)).
Proof.
  intros Hw Hfresh Hi.
  assert (w_inodes w !! w_next w = None) as Hnew.
  { destruct (w_inodes w !! w_next w) eqn:E; [|done]. exfalso.
    pose proof (wf_next _ Hw (w_next w) ltac:(by eexists)). lia. }
  split; simpl; auto; [|by rewrite lookup_insert_eq|by rewrite lookup_insert_eq; eexists; split_and!|].
  2: { intros q. destruct (decide (q = p)) as [->|]; [done|].
       rewrite lookup_insert_ne by done. intros Hq%(wf_names _ Hw). rewrite Hnew in Hq. by destruct Hq. }
  split; [split|split]; simpl; auto with lia.
  - intros q n. destruct (decide (q = p)) as [->|].
    + rewrite lookup_insert_eq. intros [= <-]. rewrite lookup_insert_eq. by eexists.
    + rewrite lookup_insert_ne by done. intros Hp%(wf_names _ Hw).
      destruct (decide (n = w_next w)) as [->|]; [rewrite Hnew in Hp; by destruct Hp|].
      by rewrite lookup_insert_ne.
  - intros n. destruct (decide (n = w_next w)) as [->|]; [lia|].
    rewrite lookup_insert_ne by done. intros Hn%(wf_next _ Hw). lia.
  - intros q n _ Hq. rewrite lookup_insert_ne; [done|]. intros <-. by rewrite Hfresh in Hq.
  - intros n j Hj. exists j. rewrite lookup_insert_ne; [split; [done|apply inode_kept_refl]|].
    intros <-. by rewrite Hnew in Hj.
  - intros q n. destruct (decide (q = p)) as [->|].
    + rewrite lookup_insert_eq. intros [= <-]. right. lia.
    + rewrite lookup_insert_ne by done. by left.
Qed.

Lemma wp_CreateTemp dir prefix suffix w :
  world_wf w ->
  wp (os_CreateTemp dir prefix suffix) w (fun r w' =>
    match r with
    | Ok (f, tp) => temp_file w tp (f_ino f) [] false w' /\ f_pos f = 0 /\ f_append f = false
                    /\ tp = temporary_name w prefix suffix :: dir
    | Err _ => framed nothing w w'
    end).
Proof.
  intros Hw. apply wp_syscall; intros fs; [apply framed_tick, framed_refl, Hw|].
  unfold wp. simpl. case_decide as Hdir; simpl; [|apply framed_tick, framed_refl, Hw].
  split_and!; [|done..]. apply (temp_created _ _ w fs); [done|exact (temporary_name_fresh w prefix suffix dir)|done].
Qed.
Lemma wp_Create_excl p w :
  world_wf w ->
  wp (os_Create p true false) w (fun r w' =>
    match r with
    | Ok f => temp_file w p (f_ino f) [] false w' /\ f_pos f = 0 /\ f_append f = false
    | Err _ => framed nothing w w'
    end).
Proof.
  intros Hw. apply wp_syscall; intros fs; [apply framed_tick, framed_refl, Hw|].
  unfold wp. simpl. destruct (w_names w !! p) eqn:Ep; simpl; [apply framed_tick, framed_refl, Hw|].
  case_decide as Hdir; simpl; [|apply framed_tick, framed_refl, Hw].
  split_and!; [|done..]. by apply (temp_created _ _ w fs).
Qed.

Lemma pwrite_end d data : pwrite (zlen d) data d = d ++ data.
Proof.
  destruct data as [|b data]; simpl; [by rewrite app_nil_r|]. set (l := b :: data). pose proof (zlen_nonneg l).
  rewrite Z.sub_diag. simpl. rewrite app_nil_r, ztake_all, zdrop_all by lia.
  by rewrite app_nil_r.
Qed.

Lemma temp_update w0 tp n d d' sy w :
  temp_file w0 tp n d sy w -> temp_file w0 tp n d' false (update_inode w n d').
Proof.
  intros [Hw0 [[Hn Hx] Hf] Hfresh Hnew Hname (i & Hi & Hd & Hs) Honly]. split; simpl; auto.
  2: { rewrite lookup_insert_eq. eexists. by split_and!. }
  split; [split|]; simpl.
  - intros p k Hp. destruct (decide (k = n)) as [->|]; [rewrite lookup_insert_eq; eauto|].
    rewrite lookup_insert_ne by done. eauto.
  - intros k. destruct (decide (k = n)) as [->|]; [intros _; eauto|]. rewrite lookup_insert_ne by done. auto.
  - destruct Hf as [a b c e g h]. split; simpl; auto. intros k j Hj.
    destruct (g k j Hj) as (j' & Hj' & Hk). exists j'. split; [|done].
    rewrite lookup_insert_ne; [done|]. intros <-.
    pose proof (wf_next _ Hw0 n ltac:(by eexists)). lia.
Qed.

Lemma temp_unsynced w0 tp n d sy w : temp_file w0 tp n d sy w -> temp_file w0 tp n d false w.
Proof. intros [? ? ? ? ? (i & ? & ? & _) ?]. split; auto. by exists i. Qed.

(** A write through the handle of a temporary file. *)
Definition at_end (f : File) (n : nat) (d : bytes) : Prop :=
  f_ino f = n /\ f_pos f = zlen d /\ f_append f = false.

Lemma wp_write_file w0 tp n d sy f format data w :
  temp_file w0 tp n d sy w -> at_end f n d ->
  wp (write_file format f data) w (fun r w' =>
    match r with
    | Ok f' => temp_file w0 tp n (d ++ data) false w' /\ at_end f' n (d ++ data)
    | Err _ => exists d', temp_file w0 tp n d' false w'
    end).
Proof.
  intros Ht (Hino & Hpos & Happ). unfold write_file. rewrite wp_bind. unfold file_Write. rewrite wp_bind.
  unfold wp at 1. unfold inode_Write. rewrite Hino, Happ, Hpos.
  destruct (next_outcome w) as [fault w1] eqn:Eo.
  assert (exists fs, w1 = tick w fs) as [fs ->].
  { unfold next_outcome in Eo. destruct (w_faults w) as [|[|k] fs]; simplify_eq; eauto. }
  pose proof (tick_stable w fs Ht) as Ht1.
  destruct (tf_inode _ _ _ _ _ _ Ht1) as (i & Hi & Hd & _). rewrite Hi, Hd. destruct fault as [k|]; cbn [fst snd]; rewrite wp_ret.
  - rewrite wp_bind, wp_ignore. apply (wp_mono _ _ (fun _ w' => exists d', temp_file w0 tp n d' false w'));
      [|by intros r w' Hw'].
    unfold wp. destruct (take k data) as [|x l] eqn:Et; simpl.
    + exists d. apply (keeps_Close (temp_file w0 tp n d false)). by apply temp_unsynced with (sy := sy).
    + eexists. apply (keeps_Close (temp_file w0 tp n _ false)). by apply temp_update with (d := d) (sy := sy).
  - rewrite !pwrite_end. unfold wp. simpl. split; [by apply temp_update with (d := d) (sy := sy)|].
    unfold at_end. simpl. rewrite zlen_app. split_and!; [done|lia|done].
Qed.

Lemma wp_Rename_temp w0 tp p n d sy w :
  temp_file w0 tp n d sy w ->
  wp (os_Rename tp p) w (fun r w' =>
    match r with
    | Ok _ => published w0 tp p n d sy w'
    | Err _ => temp_file w0 tp n d sy w'
    end).
Proof.
  intros Ht. apply wp_syscall; intros fs; [by apply tick_stable|].
  unfold wp. simpl. rewrite (tf_name _ _ _ _ _ _ Ht). simpl.
  case_decide as Hdir; simpl; [|by apply tick_stable].
  destruct Ht as [Hw0 [[Hn Hx] Hf] Hfresh Hnew Hname (i & Hi & Hd & Hs) Honly]. split; simpl; auto.
  - split; [split|].
    + intros q k. simpl. destruct (decide (q = p)) as [->|].
      * rewrite lookup_insert_eq. intros [= <-]. eauto.
      * rewrite lookup_insert_ne by done. intros [_ Hq]%lookup_delete_Some. eauto.
    + exact Hx.
    + destruct Hf as [a b c e g h]. split; simpl; auto.
      * intros q k Hq Hk. rewrite lookup_insert_ne by congruence.
        rewrite lookup_delete_ne by (intros ->; congruence). auto.
      * intros q Hq [k Hk] Hq0. assert (q <> tp) by (intros ->; congruence).
        assert (q ∈ w_durable w) by eauto. set_solver.
      * intros q k. destruct (decide (q = p)) as [->|].
        -- rewrite lookup_insert_eq. intros [= <-]. by right.
        -- rewrite lookup_insert_ne by done. intros [_ Hq]%lookup_delete_Some. auto.
  - destruct (decide (tp = p)) as [->|]; [by left|right].
    rewrite lookup_insert_ne by done. apply lookup_delete_eq.
  - apply lookup_insert_eq.
  - eauto.
  - intros q. destruct (decide (q = p)) as [->|]; [done|]. rewrite lookup_insert_ne by done.
    intros [Hne Hq]%lookup_delete_Some. by destruct (Honly q Hq).
Qed.

(** Removing the temporary name, whatever happened before. *)
Lemma wp_Remove_temp w0 tp n d sy w :
  temp_file w0 tp n d sy w -> wp (os_Remove tp) w (fun _ w' => framed nothing w0 w').
Proof.
  intros Ht. apply wp_syscall; intros fs; [by apply framed_tick, Ht|].
  unfold wp. simpl. rewrite (tf_name _ _ _ _ _ _ Ht). simpl.
  destruct Ht as [Hw0 [[Hn Hx] Hf] Hfresh Hnew Hname (i & Hi & Hd & Hs) _]. split; [split|].
  - intros q k. simpl. intros [_ Hq]%lookup_delete_Some. eauto.
  - exact Hx.
  - destruct Hf as [a b c e g h]. split; simpl; auto.
    + intros q k Hq Hk. rewrite lookup_delete_ne by (intros ->; congruence). auto.
    + intros q Hq [k Hk] Hq0. assert (q <> tp) by (intros ->; congruence).
      assert (q ∈ w_durable w) by eauto. set_solver.
    + intros q k [_ Hq]%lookup_delete_Some. auto.
Qed.

Lemma wp_Remove_published w0 tp p n d sy w :
  tp <> p -> published w0 tp p n d sy w -> wp (os_Remove tp) w (fun _ w' => published w0 tp p n d sy w').
Proof.
  intros Hne Hp. apply wp_syscall; intros fs; [by apply tick_stable|].
  unfold wp. simpl. destruct (pb_temp _ _ _ _ _ _ _ Hp) as [?|Ht]; [done|].
  rewrite Ht. simpl. by apply tick_stable.
Qed.

Lemma wp_sync_file_temp w0 tp n d sy format f w :
  temp_file w0 tp n d sy w -> f_ino f = n ->
  wp (sync_file format f) w (fun r w' =>
    match r with
    | Ok _ => temp_file w0 tp n d true w'
    | Err _ => temp_file w0 tp n d false w'
    end).
Proof.
  intros Ht Hino. apply temp_unsynced in Ht as Ht0. unfold sync_file. rewrite wp_or_else, wp_wrap.
  apply wp_syscall; intros fs.
  { apply (keeps_Close (temp_file w0 tp n d false)). by apply tick_stable. }
  unfold wp. simpl. rewrite Hino.
  destruct (tf_inode _ _ _ _ _ _ Ht) as (i & Hi & Hd & _). rewrite Hi. simpl.
  destruct Ht as [Hw0 [[Hn Hx] Hf] Hfresh Hnew Hname _ Honly]. split; simpl; auto.
  2: { rewrite lookup_insert_eq. eexists. by split_and!. }
  split; [split|]; simpl.
  - intros q k Hq. destruct (decide (k = n)) as [->|]; [rewrite lookup_insert_eq; eauto|].
    rewrite lookup_insert_ne by done. eauto.
  - intros k. destruct (decide (k = n)) as [->|]; [intros _; eauto|]. rewrite lookup_insert_ne by done. auto.
  - destruct Hf as [a b c e g h]. split; simpl; auto. intros k j Hj.
    destruct (g k j Hj) as (j' & Hj' & Hk). exists j'. split; [|done].
    rewrite lookup_insert_ne; [done|]. intros <-.
    pose proof (wf_next _ Hw0 n ltac:(by eexists)). lia.
Qed.

(** Syncing the directory of a published, synced file makes it durable. *)
Lemma wp_sync_dir_published w0 tp p n d sy w :
  published w0 tp p n d sy w ->
  wp (sync_dir (filepath_Dir p)) w (fun r w' =>
    published w0 tp p n d sy w' /\ (is_ok r = true -> sy = true -> durable w' p)).
Proof.
  intros Hp. apply wp_syscall; intros fs; [split; [by apply tick_stable|done]|].
  unfold wp. simpl. case_decide as Hdir; simpl; [|split; [by apply tick_stable|done]].
  destruct Hp as [Hw0 [[Hn Hx] Hf] Ht Hnew Hname (i & Hi & Hd & Hs) Honly]. split.
  - split; simpl; eauto. split; [by split|]. destruct Hf as [a b c e g h]. split; simpl; auto. set_solver.
  - intros _ Hsy. split; simpl.
    + apply elem_of_union_r, elem_of_filter. split; [done|]. apply elem_of_dom. by eexists.
    + exists i. unfold inode_of. simpl. rewrite Hname. simpl. auto.
Qed.

Lemma published_new w0 tp p n d sy w :
  published w0 tp p n d sy w -> w_names w0 !! p = None -> framed nothing w0 w.
Proof.
  intros [_ [Hw [a b c e g h]] _ _ _ _ _] Hp. split; [done|]. split; auto.
  - intros q k _ Hq. apply c; [congruence|done].
  - intros q _ Hq Hd. apply e; [|done..]. destruct Hq. congruence.
Qed.

(** ** Atomic replacement *)

(** Where the commit of [d] as [p] stands before the temporary name is removed. *)
Definition commit_open (w0 : world) (tp p : path) (d : bytes) {A} (r : result A) (w : world) : Prop :=
  match r with
  | Ok _ => exists n, published w0 tp p n d true w /\ durable w p
  | Err _ => (exists n d', temp_file w0 tp n d' false w) \/ (exists n, published w0 tp p n d true w)
  end.

(** The outcome: on success [p] is durable with contents [d]; nothing but [p] is
    ever affected. *)
Definition commit_post (w0 : world) (p : path) (d : bytes) {A} (r : result A) (w : world) : Prop :=
  framed (fun q => q = p) w0 w
  /\ (is_ok r = true -> file_data w p = Some d /\ durable w p).

Lemma wp_commit_close {A} w0 tp p d (r : result A) w :
  tp <> p -> commit_open w0 tp p d r w -> wp (os_Remove tp) w (fun _ w' => commit_post w0 p d r w').
Proof.
  intros Hne Hopen.
  assert (forall n, published w0 tp p n d true w -> wp (os_Remove tp) w (fun _ w' => published w0 tp p n d true w'))
    as Hpub by (intros n Hn; by apply wp_Remove_published).
  destruct r as [a|e].
  - destruct Hopen as (n & Hp & Hd).
    pose proof (keeps_Remove (fun q => q = tp) w tp eq_refl w (framed_refl _ _ (proj1 (pb_framed _ _ _ _ _ _ _ Hp))))
      as Hk.
    specialize (Hpub n Hp). unfold wp in *. split; [apply Hpub|]. intros _. split; [by eapply published_data|].
    eapply frame_durable_file; [apply Hk| |done]. congruence.
  - destruct Hopen as [(n & d' & Ht)|(n & Hp)].
    + eapply wp_mono; [by eapply wp_Remove_temp|]. intros r' w' [Hw' Hf']. split; [|done].
      split; [done|]. by apply frame_nothing.
    + eapply wp_mono; [by apply (Hpub n)|]. intros r' w' Hp'. split; [apply Hp'|done].
Qed.

(** An existing file [p] has its old contents or the new ones. *)
Lemma wp_commit_old {A} w0 tp p d (r : result A) w old :
  tp <> p -> commit_open w0 tp p d r w -> file_data w0 p = Some old ->
  wp (os_Remove tp) w (fun _ w' => file_data w' p = Some old \/ file_data w' p = Some d).
Proof.
  intros Hne Hopen Hold.
  assert (forall n, published w0 tp p n d true w ->
    wp (os_Remove tp) w (fun _ w' => file_data w' p = Some old \/ file_data w' p = Some d)) as Hpub.
  { intros n Hn. eapply wp_mono; [by apply wp_Remove_published|]. intros r' w' Hp. right. exact (published_data _ _ _ _ _ _ _ Hp). }
  destruct r as [a|e]; [destruct Hopen as (n & Hp & _); eauto|].
  destruct Hopen as [(n & d' & Ht)|(n & Hp)]; [|eauto].
  eapply wp_mono; [by eapply wp_Remove_temp|]. intros r' w' [_ Hf']. left.
  apply (frame_file_data nothing w0); [done|by intros []|done].
Qed.

(** A failure before the commit starts. *)
Lemma commit_open_temp {A} w0 tp p d n d' sy e w :
  temp_file w0 tp n d' sy w -> commit_open w0 tp p d (@Err A e) w.
Proof. intros Ht. left. exists n, d'. by eapply temp_unsynced. Qed.

Lemma commit_post_nothing {A} w0 p d e w : framed nothing w0 w -> commit_post w0 p d (@Err A e) w.
Proof. intros [Hw Hf]. split; [|done]. split; [done|]. by apply frame_nothing. Qed.

Lemma commit_post_trans {A} w0 w1 p d (r : result A) w :
  framed nothing w0 w1 -> commit_post w1 p d r w -> commit_post w0 p d r w.
Proof.
  intros [Hw Hf] [Hf1 Hr]. split; [|done]. eapply framed_trans; [|exact Hf1].
  split; [done|by apply frame_nothing].
Qed.

(** ** Reading *)

(** Only the clock and the faults to come may differ. *)
Definition same_files (w w' : world) : Prop :=
  w_names w' = w_names w /\ w_inodes w' = w_inodes w /\ w_dirs w' = w_dirs w
  /\ w_durable w' = w_durable w /\ w_next w' = w_next w /\ w_locked w' = w_locked w.

Lemma same_files_refl w : same_files w w.
Proof. done. Qed.
#[export] Instance same_files_stable w : TickStable (same_files w).
Proof. by intros w' fs (? & ? & ? & ? & ? & ?). Qed.
Lemma same_files_trans w0 w1 w2 : same_files w0 w1 -> same_files w1 w2 -> same_files w0 w2.
Proof.
  unfold same_files. intros (? & ? & ? & ? & ? & ?) (? & ? & ? & ? & ? & ?). split_and!; congruence.
Qed.
Lemma same_files_data w w' p : same_files w w' -> file_data w' p = file_data w p.
Proof. intros (Hn & Hi & _). unfold file_data, inode_of. by rewrite Hn, Hi. Qed.
Lemma same_files_framed P w0 w w' : framed P w0 w -> same_files w w' -> framed P w0 w'.
Proof.
  intros [[Hn Hx] Hf] (E1 & E2 & E3 & E4 & E5 & _). split; [split; rewrite ?E1, ?E2, ?E5; auto|].
  eapply frame_trans; [exact Hf|]. split; rewrite ?E1, ?E2, ?E3, ?E4, ?E5; auto.
  intros n i Hi. exists i. split; [done|apply inode_kept_refl].
Qed.
Lemma same_files_wf w w' : world_wf w -> same_files w w' -> world_wf w'.
Proof. intros Hw Hs. eapply (same_files_framed nothing w); [by apply framed_refl|done]. Qed.
Lemma temp_same_files w0 tp n d sy w w' : temp_file w0 tp n d sy w -> same_files w w' -> temp_file w0 tp n d sy w'.
Proof.
  intros [? Hf ? ? ? ? ?] Hs. pose proof Hs as (E1 & E2 & _).
  split; rewrite ?E1, ?E2; auto. by eapply same_files_framed.
Qed.

Lemma wp_ReadAll f w :
  wp (file_ReadAll f) w (fun r w' =>
    same_files w w' /\ forall d, r = Ok d -> exists i, w_inodes w !! f_ino f = Some i /\ d = zdrop (f_pos f) (i_data i)).
Proof.
  apply wp_keeps; [apply keeps_ReadAll; apply _|done|].
  apply wp_syscall; intros fs; [done|]. unfold wp. simpl.
  destruct (w_inodes w !! f_ino f) as [i|]; simpl; [|done]. intros d [= <-]. eauto.
Qed.

Lemma wp_file_Stat f w :
  wp (file_Stat f) w (fun r w' =>
    same_files w w' /\ forall info, r = Ok info -> exists i, w_inodes w !! f_ino f = Some i
      /\ fi_ino info = f_ino f /\ fi_size info = zlen (i_data i) /\ fi_mtime info = i_mtime i).
Proof.
  apply wp_keeps; [apply keeps_file_Stat; apply _|done|].
  apply wp_syscall; intros fs; [done|]. unfold wp. simpl.
  destruct (w_inodes w !! f_ino f) as [i|]; simpl; [|done]. intros info [= <-]. by exists i.
Qed.

Lemma wp_Open p w :
  wp (os_Open p) w (fun r w' =>
    same_files w w' /\ forall f, r = Ok f ->
      w_names w !! p = Some (f_ino f) /\ f_pos f = 0 /\ f_append f = false).
Proof.
  apply wp_keeps; [apply keeps_Open; apply _|done|].
  apply wp_syscall; intros fs; [done|]. unfold wp. simpl.
  destruct (w_names w !! p) as [n|] eqn:E; simpl; [|done]. by intros f [= <-].
Qed.

Lemma wp_ReadFile p w :
  wp (os_ReadFile p) w (fun r w' => same_files w w' /\ forall d, r = Ok d -> file_data w p = Some d).
Proof.
  unfold os_ReadFile. rewrite wp_bind. eapply wp_mono; [apply wp_Open|].
  intros [f|e] w1 [Hs Hf]; [|by split]. destruct (Hf f eq_refl) as (Hn & Hpos & _).
  rewrite wp_defer. eapply wp_mono; [apply wp_ReadAll|]. intros r w2 [Hs2 Hd].
  split.
  - apply keeps_Close; [apply _|]. by eapply same_files_trans.
  - intros d ->. destruct (Hd d eq_refl) as (i & Hi & ->).
    destruct Hs as (E1 & E2 & _). rewrite E2 in Hi. unfold file_data, inode_of. rewrite Hn. simpl.
    rewrite Hi. simpl. by rewrite Hpos, zdrop_0.
Qed.

(** A call to [os.Stat]: a success names a file or a directory, and "does not
    exist" is only reported for a name that is not there. *)
Lemma wp_Stat p w :
  world_wf w ->
  wp (os_Stat p) w (fun r w' =>
    same_files w w' /\
    match r with
    | Ok info => fi_regular info = true ->
        exists n i, w_names w !! p = Some n /\ w_inodes w !! n = Some i /\ fi_ino info = n
          /\ fi_size info = zlen (i_data i) /\ fi_mtime info = i_mtime i
    | Err e => is_NotExist e = true -> w_names w !! p = None
    end).
Proof.
  intros Hw. apply wp_keeps; [apply keeps_Stat; apply _|done|].
  apply wp_syscall; intros fs; [done|]. unfold wp. simpl.
  destruct (w_names w !! p) as [n|] eqn:E.
  - destruct (wf_names _ Hw _ _ E) as [i Hi]. rewrite Hi. simpl. intros _. exists n, i. by split_and!.
  - by case_decide.
Qed.

Lemma wp_MkdirAll p w :
  world_wf w ->
  wp (os_MkdirAll p) w (fun r w' => framed nothing w w' /\ w_names w' = w_names w).
Proof.
  intros Hw. split.
  - apply keeps_MkdirAll. by apply framed_refl.
  - unfold os_MkdirAll, syscall, next_outcome. by destruct (w_faults w) as [|[|k] fs].
Qed.

(** ** Runs without failures

    [fine m w Q]: when no failure is in store, the call succeeds, none is left in
    store, and its result satisfies [Q]. *)

Definition fine {A} (m : OS A) (w : world) (Q : A -> world -> Prop) : Prop :=
  w_faults w = [] -> exists a w', m w = (Ok a, w') /\ w_faults w' = [] /\ Q a w'.

Section Fine.
Context {A B : Type}.

Lemma fine_mono (m : OS A) w (P Q : A -> world -> Prop) :
  fine m w P -> (forall a w', P a w' -> Q a w') -> fine m w Q.
Proof. intros Hm HPQ Hf. destruct (Hm Hf) as (a & w' & ? & ? & ?). eauto 6. Qed.
Lemma fine_ret (a : A) w (Q : A -> world -> Prop) : Q a w -> fine (ret a) w Q.
Proof. intros HQ Hf. exists a, w. done. Qed.
Lemma fine_lift (a : A) w (Q : A -> world -> Prop) : Q a w -> fine (lift (Ok a)) w Q.
Proof. intros HQ Hf. exists a, w. done. Qed.
Lemma fine_bind (m : OS A) (f : A -> OS B) w Q :
  fine m w (fun a w' => fine (f a) w' Q) -> fine (bind m f) w Q.
Proof.
  intros Hm Hf. destruct (Hm Hf) as (a & w1 & Hr & Hf1 & Hk). unfold bind. rewrite Hr. by apply Hk.
Qed.
Lemma fine_wrap format (m : OS A) w Q : fine m w Q -> fine (wrap format m) w Q.
Proof. intros Hm Hf. destruct (Hm Hf) as (a & w' & Hr & ? & ?). unfold wrap. rewrite Hr. eauto 6. Qed.
Lemma fine_or_else (m : OS A) (c : OS B) w Q : fine m w Q -> fine (or_else m c) w Q.
Proof. intros Hm Hf. destruct (Hm Hf) as (a & w' & Hr & ? & ?). unfold or_else. rewrite Hr. eauto 6. Qed.
Lemma fine_defer (c : OS B) (m : OS A) w Q :
  fine m w (fun a w' => w_faults w' = [] -> w_faults (c w').2 = [] /\ Q a (c w').2) -> fine (defer_ c m) w Q.
Proof.
  intros Hm Hf. destruct (Hm Hf) as (a & w1 & Hr & Hf1 & Hk). unfold defer_. rewrite Hr.
  destruct (Hk Hf1). eauto 6.
Qed.
Lemma fine_syscall (m : OS A) w (Q : A -> world -> Prop) :
  (exists a w', m (tick w []) = (Ok a, w') /\ w_faults w' = [] /\ Q a w') -> fine (syscall m) w Q.
Proof. intros (a & w' & Hm & ?) Hf. unfold syscall, next_outcome. rewrite Hf. eauto. Qed.
(** A call that is known to succeed, with what its specification says. *)
Lemma fine_wp (m : OS A) w (Q : result A -> world -> Prop) :
  wp m w Q -> fine m w (fun _ _ => True) -> fine m w (fun a w' => Q (Ok a) w').
Proof. intros Hw Hm Hf. destruct (Hm Hf) as (a & w' & Hr & Hf' & _). unfold wp in Hw. rewrite Hr in Hw. eauto. Qed.
End Fine.

Lemma fine_try {A} (m : OS A) w (Q : result A -> world -> Prop) :
  (w_faults w = [] -> w_faults (m w).2 = [] /\ Q (m w).1 (m w).2) -> fine (try_ m) w Q.
Proof. intros Hm Hf. unfold try_. destruct (Hm Hf). destruct (m w) as [r w']. exists r, w'. done. Qed.

Lemma fine_Close f w : fine (file_Close f) w (fun _ w' => same_files w w').
Proof. apply fine_syscall. exists tt. by eexists. Qed.
Lemma fine_MkdirAll p w : fine (os_MkdirAll p) w (fun _ w' => p ∈ w_dirs w').
Proof.
  apply fine_syscall. exists tt. eexists. split; [done|]. split; [done|]. simpl.
  apply elem_of_union_r, elem_of_list_to_set. destruct p; simpl; set_solver.
Qed.
Lemma fine_CreateTemp dir a b w : dir ∈ w_dirs w -> fine (os_CreateTemp dir a b) w (fun _ _ => True).
Proof. intros Hd. apply fine_syscall. simpl. rewrite decide_True by done. eauto. Qed.
Lemma fine_sync_dir dir w : dir ∈ w_dirs w -> fine (sync_dir dir) w (fun _ _ => True).
Proof. intros Hd. apply fine_syscall. simpl. rewrite decide_True by done. eauto. Qed.
Lemma fine_Rename a b w :
  is_Some (w_names w !! a) -> filepath_Dir b ∈ w_dirs w -> fine (os_Rename a b) w (fun _ _ => True).
Proof. intros [n Hn] Hd. apply fine_syscall. simpl. rewrite Hn, decide_True by done. eauto. Qed.
Lemma fine_write_file format f data w :
  is_Some (w_inodes w !! f_ino f) -> fine (write_file format f data) w (fun _ _ => True).
Proof.
  intros [i Hi] Hf. unfold write_file, file_Write, inode_Write, bind, next_outcome. rewrite Hf. simpl.
  rewrite Hi. simpl. eauto.
Qed.
Lemma fine_sync_file format f w :
  is_Some (w_inodes w !! f_ino f) -> fine (sync_file format f) w (fun _ _ => True).
Proof.
  intros [i Hi]. apply fine_or_else, fine_wrap, fine_syscall. simpl. rewrite Hi. eauto.
Qed.
Lemma Remove_faults p w : w_faults w = [] -> w_faults (os_Remove p w).2 = [].
Proof. intros Hf. unfold os_Remove, syscall, next_outcome. rewrite Hf. simpl. by destruct (w_names w !! p). Qed.
(** The name of nothing is reported as such. *)
Lemma Stat_absent p w :
  w_faults w = [] -> w_names w !! p = None -> p ∉ w_dirs w ->
  os_Stat p w = (Err (errorf "%s" os_ErrNotExist), tick w []).
Proof.
  intros Hf Hn Hd. unfold os_Stat, syscall, next_outcome. rewrite Hf. simpl. by rewrite Hn, decide_False.
Qed.

(** Without failures ahead, reading succeeds. *)
Lemma ReadFile_fine p d w :
  w_faults w = [] -> file_data w p = Some d ->
  exists w', os_ReadFile p w = (Ok d, w') /\ w_faults w' = [] /\ same_files w w'.
Proof.
  intros Hf. unfold file_data, inode_of. destruct (w_names w !! p) as [n|] eqn:En; [|done]. simpl.
  destruct (w_inodes w !! n) as [i|] eqn:Ei; [|done]. simpl. intros [= <-].
  unfold os_ReadFile, os_Open, os_OpenFile, file_ReadAll, file_Close, bind, defer_, syscall, next_outcome.
  rewrite Hf. simpl. rewrite En. simpl. rewrite Ei. simpl. eexists. split; [done|]. by split.
Qed.
