(* ===== verification/Mutation.v ===== *)
(** Code that changes existing files: what it leaves alone.

    [Os.frame] describes code that only adds files.  Sessions also append to
    files, overwrite them and truncate them; [away P] describes code that may do
    anything to the files named by [P] and to files it creates, and nothing to
    the others. *)
From S2P Require Import Prelude GoStd Effects Os.

(** An inode that belongs to [P]: one of its files, or a new one. *)
Definition mine (P : path -> Prop) (w0 : world) (n : nat) : Prop :=
  (exists q, P q /\ w_names w0 !! q = Some n) \/ (w_next w0 <= n)%nat.

Record away (P : path -> Prop) (w0 w : world) : Prop := {
  aw_wf : world_wf w;
  aw_next : (w_next w0 <= w_next w)%nat;
  aw_dirs : w_dirs w0 ⊆ w_dirs w;
  aw_names : forall q n, ~ P q -> w_names w0 !! q = Some n -> w_names w !! q = Some n;
  aw_new : forall q n, w_names w !! q = Some n -> w_names w0 !! q = Some n \/ mine P w0 n;
  aw_inodes : forall n i, w_inodes w0 !! n = Some i -> ~ mine P w0 n ->
    exists i', w_inodes w !! n = Some i' /\ inode_kept i i';
  aw_live : forall n, is_Some (w_inodes w0 !! n) -> is_Some (w_inodes w !! n);
  aw_durable : forall q, ~ P q -> is_Some (w_names w0 !! q) -> q ∈ w_durable w0 -> q ∈ w_durable w;
}.

(** No file has one name in [P] and another outside it. *)
Definition separate (P : path -> Prop) (w : world) : Prop :=
  forall p q n, P p -> w_names w !! p = Some n -> w_names w !! q = Some n -> P q.

Lemma away_refl P w : world_wf w -> away P w w.
Proof.
  intros Hw. split; auto. intros n i Hi _. exists i. split; [done|apply inode_kept_refl].
Qed.

Lemma mine_away P w0 w n : world_wf w0 -> away P w0 w -> mine P w n -> mine P w0 n.
Proof.
  intros Hw0 Ha [(q & Hq & Hn)|Hn].
  - destruct (aw_new _ _ _ Ha _ _ Hn) as [?|?]; [|done]. left. eauto.
  - right. pose proof (aw_next _ _ _ Ha). lia.
Qed.

Lemma away_trans P w0 w1 w2 : world_wf w0 -> away P w0 w1 -> away P w1 w2 -> away P w0 w2.
Proof.
  intros Hw H1 H2. destruct H1 as [a1 b1 c1 d1 e1 f1 g1 z1] eqn:E1. destruct H2 as [a2 b2 c2 d2 e2 f2 g2 z2].
  split; auto; [lia|set_solver|..].
  - intros q n [Hq|Hq]%e2; [auto|]. right. by eapply mine_away.
  - intros n i Hi Hm. destruct (f1 n i Hi Hm) as (i1 & Hi1 & Hk1).
    destruct (f2 n i1 Hi1) as (i2 & Hi2 & Hk2); [|eauto using inode_kept_trans].
    intros Hm2. apply Hm. by eapply mine_away.
  - intros q Hq [n Hn] Hd. apply z2; eauto.
Qed.

Lemma away_mono (P Q : path -> Prop) w0 w : (forall q, P q -> Q q) -> away P w0 w -> away Q w0 w.
Proof.
  intros HPQ [a b c d e f g z]. assert (forall n, mine P w0 n -> mine Q w0 n) as Hm.
  { intros n [(q & Hq & Hn)|Hn]; [left; eauto|by right]. }
  split; eauto. intros q n [?|?]%e; eauto.
Qed.

Lemma framed_away (P Q : path -> Prop) w0 w : (forall q, Q q -> P q) -> framed Q w0 w -> away P w0 w.
Proof.
  intros HQP [Hw [a b c d e f]]. split; auto.
  - intros q n [?|?]%f; [by left|]. right. by right.
  - intros n [i Hi]. destruct (e n i Hi) as (i' & -> & _). by eexists.
Qed.

(** The file [p] has no other name in [P]. *)
Definition apart (P : path -> Prop) (p : path) (w : world) : Prop :=
  forall q n, P q -> w_names w !! q = Some n -> w_names w !! p <> Some n.

Lemma apart_not_mine P p n w : apart P p w -> world_wf w -> w_names w !! p = Some n -> ~ mine P w n.
Proof.
  intros Hs Hw Hn [(q & Hq & Hqn)|Hge]; [by destruct (Hs q n Hq Hqn)|].
  pose proof (wf_next _ Hw n (wf_names _ Hw _ _ Hn)). lia.
Qed.
Lemma apart_file_data P w0 w q d :
  apart P q w0 -> world_wf w0 -> away P w0 w -> ~ P q -> file_data w0 q = Some d -> file_data w q = Some d.
Proof.
  intros Hs Hw Ha Hq. unfold file_data, inode_of. destruct (w_names w0 !! q) as [n|] eqn:En; [|done]. simpl.
  destruct (w_inodes w0 !! n) as [i|] eqn:Ei; [|done]. simpl. intros [= <-].
  rewrite (aw_names _ _ _ Ha _ _ Hq En). simpl.
  destruct (aw_inodes _ _ _ Ha _ _ Ei) as (i' & -> & Hk & _); [by eapply apart_not_mine|]. simpl. by rewrite Hk.
Qed.
Lemma apart_away P w0 w q :
  apart P q w0 -> world_wf w0 -> away P w0 w -> ~ P q -> is_Some (w_names w0 !! q) -> apart P q w.
Proof.
  intros Hs Hw Ha Hq [n Hn] p m Hp Hm. rewrite (aw_names _ _ _ Ha _ _ Hq Hn). intros [= <-].
  destruct (aw_new _ _ _ Ha _ _ Hm) as [?|Hmine]; [by eapply Hs|]. by eapply apart_not_mine.
Qed.

Lemma apart_durable P w0 w q :
  apart P q w0 -> world_wf w0 -> away P w0 w -> ~ P q -> durable w0 q -> durable w q.
Proof.
  intros Hs Hw Ha Hq [Hd (i & Hi & Hsy)]. unfold inode_of in Hi.
  destruct (w_names w0 !! q) as [n|] eqn:En; [|done]. simpl in Hi.
  split; [eapply aw_durable; eauto|]. unfold inode_of. rewrite (aw_names _ _ _ Ha _ _ Hq En). simpl.
  destruct (aw_inodes _ _ _ Ha _ _ Hi) as (i' & -> & _ & _ & Hk); [by eapply apart_not_mine|]. eauto.
Qed.

Lemma away_file_data P w0 w q d :
  separate P w0 -> world_wf w0 -> away P w0 w -> ~ P q -> file_data w0 q = Some d -> file_data w q = Some d.
Proof.
  intros Hs Hw Ha Hq. apply (apart_file_data P); auto. intros p n Hp Hn Hqn. exact (Hq (Hs p q n Hp Hn Hqn)).
Qed.

Lemma away_separate P w0 w : separate P w0 -> world_wf w0 -> away P w0 w ->
  (forall q n, w_names w !! q = Some n -> P q \/ w_names w0 !! q = Some n) -> separate P w.
Proof.
  intros Hs Hw Ha Hnew p q n Hp Hn Hq. destruct (Hnew q n Hq) as [?|Hq0]; [done|].
  destruct (aw_new _ _ _ Ha _ _ Hn) as [?|[(p' & Hp' & Hn')|Hn']]; [by eapply Hs|by eapply Hs|].
  pose proof (wf_next _ Hw n (wf_names _ Hw _ _ Hq0)). lia.
Qed.

#[export] Instance away_stable P w0 : TickStable (away P w0).
Proof. intros w fs [[a a'] b c d e f g z]. by split. Qed.

Section KeepsAway.
Context (P : path -> Prop) (w0 : world).

Lemma away_same_files w w' : away P w0 w -> same_files w w' -> away P w0 w'.
Proof.
  intros [[a a'] b c d e f g z] (E1 & E2 & E3 & E4 & E5 & _).
  split; rewrite ?E1, ?E2, ?E3, ?E4, ?E5; auto. split; rewrite ?E1, ?E2, ?E5; auto.
Qed.

Lemma keeps_away_MkdirAll p : keeps (away P w0) (os_MkdirAll p).
Proof.
  apply keeps_syscall; [apply _|]. intros w [[a a'] b c d e f g z]. simpl.
  split; simpl; auto; [by split|set_solver].
Qed.
Lemma keeps_away_Mkdir p : keeps (away P w0) (os_Mkdir p).
Proof.
  apply keeps_syscall; [apply _|]. intros w Hw. pose proof Hw as [[a a'] b c d e f g z]. simpl.
  case_decide; simpl; [done|]. case_decide; simpl; [|done]. split; simpl; auto; [by split|set_solver].
Qed.
Lemma keeps_away_sync_dir p : keeps (away P w0) (sync_dir p).
Proof.
  apply keeps_syscall; [apply _|]. intros w Hw. pose proof Hw as [[a a'] b c d e f g z]. simpl.
  case_decide; simpl; [|done]. split; simpl; auto; [by split|set_solver].
Qed.
Lemma keeps_away_flock f : keeps (away P w0) (flock_try f).
Proof.
  apply keeps_syscall; [apply _|]. intros w Hw. pose proof Hw as [[a a'] b c d e g h z]. simpl.
  case_decide; simpl; [done|]. split; simpl; auto. by split.
Qed.
Lemma keeps_away_unlock f : keeps (away P w0) (flock_release f).
Proof.
  apply keeps_syscall; [apply _|]. intros w Hw. pose proof Hw as [[a a'] b c d e g h z]. simpl.
  split; simpl; auto. by split.
Qed.
Lemma keeps_away_Chmod f : keeps (away P w0) (file_Chmod f).
Proof. by apply keeps_pure; [apply _|]. Qed.

(** An inode gets new contents. *)
Lemma away_set_inode w n i :
  away P w0 w -> is_Some (w_inodes w !! n) ->
  (mine P w0 n \/ exists i0, w_inodes w !! n = Some i0 /\ inode_kept i0 i) ->
  away P w0 (set_files w (w_names w) (<[n := i]> (w_inodes w))).
Proof.
  intros [[a a'] b c d e f g z] Hn Hi. split; simpl; auto.
  - split; simpl.
    + intros p k Hp. destruct (decide (k = n)) as [->|]; simplify_map_eq; eauto.
    + intros k. destruct (decide (k = n)) as [->|]; simplify_map_eq; eauto.
  - intros k j Hj Hm. destruct (f k j Hj Hm) as (j' & Hj' & Hk). destruct (decide (k = n)) as [->|].
    + rewrite lookup_insert_eq. destruct Hi as [?|(i0 & Hi0 & Hk0)]; [done|]. simplify_eq.
      eauto using inode_kept_trans.
    + rewrite lookup_insert_ne by done. eauto.
  - intros k Hk. destruct (decide (k = n)) as [->|]; simplify_map_eq; eauto.
Qed.

Lemma keeps_away_Sync f : keeps (away P w0) (file_Sync f).
Proof.
  apply keeps_syscall; [apply _|]. intros w Hw. simpl. destruct (w_inodes w !! f_ino f) as [i|] eqn:Ei; [|done].
  apply away_set_inode; [done|by eexists|]. right. exists i. split; [done|]. by repeat split.
Qed.
Lemma keeps_away_Truncate f size : mine P w0 (f_ino f) -> keeps (away P w0) (file_Truncate f size).
Proof.
  intros Hm. apply keeps_syscall; [apply _|]. intros w Hw. simpl. unfold update_inode.
  destruct (w_inodes w !! f_ino f) as [i|] eqn:Ei; [|done].
  apply away_set_inode; [done|by eexists|by left].
Qed.
Lemma keeps_away_inode_Write n pos data : mine P w0 n -> keeps (away P w0) (inode_Write n pos data).
Proof.
  intros Hm w Hw. unfold inode_Write, next_outcome, update_inode.
  destruct (w_faults w) as [|[|k] fs]; simpl; destruct (w_inodes w !! n) as [i|] eqn:Ei; simpl;
    try by apply (tick_stable (P := away P w0)).
  1-2: apply (away_set_inode (tick w _)); [by apply (tick_stable (P := away P w0))|by eexists|by left].
  destruct (take k data); [by apply (tick_stable (P := away P w0))|].
  apply (away_set_inode (tick w _)); [by apply (tick_stable (P := away P w0))|by eexists|by left].
Qed.
Lemma keeps_away_WriteAt f data off : mine P w0 (f_ino f) -> keeps (away P w0) (file_WriteAt f data off).
Proof. apply keeps_away_inode_Write. Qed.
Lemma keeps_away_Write f data : mine P w0 (f_ino f) -> keeps (away P w0) (file_Write f data).
Proof. intros Hm. unfold file_Write. keeps. by apply keeps_away_inode_Write. Qed.

(** A name appears, or is taken away from [P]. *)
Lemma keeps_away_Create p excl append : keeps (away P w0) (os_Create p excl append).
Proof.
  apply keeps_syscall; [apply _|]. intros w Hw. simpl. destruct (w_names w !! p) as [n|] eqn:Ep.
  { by destruct excl. }
  case_decide; [|done]. destruct Hw as [[a a'] b c d e f g z]. split; simpl; auto with lia.
  - split; simpl.
    + intros q n. destruct (decide (q = p)) as [->|].
      * rewrite lookup_insert_eq. intros [= <-]. rewrite lookup_insert_eq. by eexists.
      * rewrite lookup_insert_ne by done. intros Hq%a.
        destruct (decide (n = w_next w)) as [->|]; [rewrite lookup_insert_eq; by eexists|].
        by rewrite lookup_insert_ne.
    + intros n. destruct (decide (n = w_next w)) as [->|]; [lia|].
      rewrite lookup_insert_ne by done. intros Hn%a'. lia.
  - intros q n Hq Hn. rewrite lookup_insert_ne; [auto|]. intros <-. rewrite (d _ _ Hq Hn) in Ep. done.
  - intros q n. destruct (decide (q = p)) as [->|].
    + rewrite lookup_insert_eq. intros [= <-]. right. right. lia.
    + rewrite lookup_insert_ne by done. auto.
  - intros n i Hi Hm. destruct (f n i Hi Hm) as (i' & Hi' & Hk). exists i'. split; [|done].
    rewrite lookup_insert_ne; [done|]. intros <-. pose proof (a' (w_next w) ltac:(by eexists)). lia.
  - intros n [i Hi]%g. destruct (decide (n = w_next w)) as [->|].
    + rewrite lookup_insert_eq. by eexists.
    + rewrite lookup_insert_ne by done. by eexists.
Qed.
Lemma keeps_away_Remove p :
  P p \/ w_names w0 !! p = None -> keeps (away P w0) (os_Remove p).
Proof.
  intros Hp. apply keeps_syscall; [apply _|]. intros w Hw. simpl.
  destruct (w_names w !! p) as [n|] eqn:Ep; [|done]. destruct Hw as [[a a'] b c d e f g z]. split; simpl; auto.
  - split; simpl; [|auto]. intros q k [_ Hq]%lookup_delete_Some. eauto.
  - intros q k Hq Hk. rewrite lookup_delete_ne; [auto|]. intros <-. destruct Hp; [done|congruence].
  - intros q k [_ Hq]%lookup_delete_Some. auto.
  - intros q Hq [k Hk] Hd. specialize (z q Hq ltac:(by eexists) Hd). assert (q <> p); [|set_solver].
    intros ->. destruct Hp; [done|congruence].
Qed.
Lemma keeps_away_Rename p q : P p -> P q -> keeps (away P w0) (os_Rename p q).
Proof.
  intros Hp Hq. apply keeps_syscall; [apply _|]. intros w Hw. simpl.
  destruct (w_names w !! p) as [n|] eqn:Ep; [|done]. case_decide; [|done]. destruct Hw as [[a a'] b c d e f g z]. split; simpl; auto.
  - split; simpl; [|auto]. intros r k [[<- <-]|[_ [_ Hk]%lookup_delete_Some]]%lookup_insert_Some; eauto.
  - intros r k Hr Hk. rewrite lookup_insert_ne, lookup_delete_ne by congruence. auto.
  - intros r k [[<- <-]|[_ [_ Hk]%lookup_delete_Some]]%lookup_insert_Some; [|auto]. right.
    destruct (e _ _ Ep) as [Hn|?]; [|done]. left. eauto.
  - intros r Hr Hk Hd. specialize (z r Hr Hk Hd). assert (r <> p /\ r <> q) by (split; congruence). set_solver.
Qed.
Lemma keeps_away_CreateTemp dir prefix suffix : world_wf w0 -> keeps (away P w0) (os_CreateTemp dir prefix suffix).
Proof.
  intros Hw0 w Ha. pose proof (wp_CreateTemp dir prefix suffix w (aw_wf _ _ _ Ha)) as Hc. unfold wp in Hc.
  destruct (os_CreateTemp _ _ _ w) as [[[f tp]|e] w']; simpl in *; (eapply away_trans; [done|exact Ha|]);
    apply (framed_away P nothing); try done; apply Hc.
Qed.
End KeepsAway.
#[export] Hint Resolve keeps_away_MkdirAll keeps_away_Mkdir keeps_away_sync_dir keeps_away_flock
  keeps_away_unlock keeps_away_Chmod keeps_away_Sync keeps_away_Truncate keeps_away_WriteAt keeps_away_Write
  keeps_away_Create keeps_away_CreateTemp keeps_away_Remove keeps_away_Rename : keeps.

(** Code that stays away from more. *)
Lemma keeps_away_weaken {A} (P Q : path -> Prop) w0 (m : OS A) :
  world_wf w0 -> (forall q, P q -> Q q) -> (forall w, world_wf w -> keeps (away P w) m) -> keeps (away Q w0) m.
Proof.
  intros Hw0 HPQ Hm w Ha. eapply away_trans; [done|exact Ha|]. apply (away_mono P); [done|].
  apply Hm; [apply Ha|]. apply away_refl, Ha.
Qed.

(** What every call guarantees: the world stays well formed, and directories stay. *)
Definition grown (w0 w : world) : Prop := world_wf w /\ w_dirs w0 ⊆ w_dirs w.

Lemma grown_refl w : world_wf w -> grown w w.
Proof. done. Qed.
Lemma grown_trans w0 w1 w2 : grown w0 w1 -> grown w1 w2 -> grown w0 w2.
Proof. intros [_ ?] [? ?]. split; [done|]. set_solver. Qed.
#[export] Instance grown_stable w0 : TickStable (grown w0).
Proof. intros w fs [[a a'] b]. by split. Qed.

Section Grown.
Context (w0 : world).

Lemma grown_set_inode w n i :
  grown w0 w -> is_Some (w_inodes w !! n) -> grown w0 (set_files w (w_names w) (<[n := i]> (w_inodes w))).
Proof.
  intros [[a a'] b] Hn. split; [|done]. split; simpl.
  - intros p k Hp. destruct (decide (k = n)) as [->|]; simplify_map_eq; eauto.
  - intros k. destruct (decide (k = n)) as [->|]; simplify_map_eq; eauto.
Qed.

(** A call that is harmless to the files of nobody. *)
Lemma keeps_grown_away {A} (m : OS A) : (forall w, keeps (away (fun _ => True) w) m) -> keeps (grown w0) m.
Proof.
  intros Hm w Hg. pose proof (Hm w w (away_refl _ _ (proj1 Hg))) as Ha.
  split; [apply Ha|]. pose proof (aw_dirs _ _ _ Ha). destruct Hg. set_solver.
Qed.
Lemma keeps_grown_Write f data : keeps (grown w0) (file_Write f data).
Proof.
  unfold file_Write. keeps. intros w Hg. unfold inode_Write, next_outcome, update_inode.
  destruct (w_faults w) as [|[|k] fs]; simpl; destruct (w_inodes w !! f_ino f) as [i|] eqn:Ei; simpl;
    try by apply (tick_stable (P := grown w0)).
  1-2: apply (grown_set_inode (tick w _)); [by apply (tick_stable (P := grown w0))|by eexists].
  destruct (take k data); [by apply (tick_stable (P := grown w0))|].
  apply (grown_set_inode (tick w _)); [by apply (tick_stable (P := grown w0))|by eexists].
Qed.
Lemma keeps_grown_Truncate f size : keeps (grown w0) (file_Truncate f size).
Proof.
  apply keeps_syscall; [apply _|]. intros w Hg. simpl. unfold update_inode.
  destruct (w_inodes w !! f_ino f) as [i|] eqn:Ei; [|done]. apply grown_set_inode; [done|by eexists].
Qed.
Lemma keeps_grown_Sync f : keeps (grown w0) (file_Sync f).
Proof. apply keeps_grown_away. intros w. apply keeps_away_Sync. Qed.
Lemma keeps_grown_Mkdir p : keeps (grown w0) (os_Mkdir p).
Proof. apply keeps_grown_away. intros w. apply keeps_away_Mkdir. Qed.
Lemma keeps_grown_MkdirAll p : keeps (grown w0) (os_MkdirAll p).
Proof. apply keeps_grown_away. intros w. apply keeps_away_MkdirAll. Qed.
Lemma keeps_grown_Create p e a : keeps (grown w0) (os_Create p e a).
Proof. apply keeps_grown_away. intros w. apply keeps_away_Create. Qed.
Lemma keeps_grown_Remove p : keeps (grown w0) (os_Remove p).
Proof. apply keeps_grown_away. intros w. apply keeps_away_Remove. by left. Qed.
Lemma keeps_grown_lock f : keeps (grown w0) (flock_try f).
Proof. apply keeps_grown_away. intros w. apply keeps_away_flock. Qed.
Lemma keeps_grown_unlock f : keeps (grown w0) (flock_release f).
Proof. apply keeps_grown_away. intros w. apply keeps_away_unlock. Qed.
End Grown.
#[export] Hint Resolve keeps_grown_Write keeps_grown_Truncate keeps_grown_Sync keeps_grown_Mkdir keeps_grown_MkdirAll
  keeps_grown_Create keeps_grown_Remove keeps_grown_lock keeps_grown_unlock : keeps.

(** ** A file with a single name *)

(** [p] is the only name of inode [n], which holds [d] and is synced. *)
Record sole (p : path) (n : nat) (d : bytes) (w : world) : Prop := {
  sl_name : w_names w !! p = Some n;
  sl_inode : exists i, w_inodes w !! n = Some i /\ i_data i = d /\ i_synced i = true;
  sl_only : forall q, w_names w !! q = Some n -> q = p;
}.
#[export] Instance sole_stable p n d : TickStable (sole p n d).
Proof. intros w fs [? ? ?]. by split. Qed.

Lemma temp_sole w0 tp n d w : temp_file w0 tp n d true w -> sole tp n d w.
Proof. intros [_ _ _ _ Hn (i & Hi & Hd & Hs) Ho]. split; auto. exists i. auto. Qed.
Lemma sole_data p n d w : sole p n d w -> file_data w p = Some d.
Proof.
  intros [Hn (i & Hi & Hd & _) _]. unfold file_data, inode_of. rewrite Hn. simpl. rewrite Hi. simpl. by rewrite Hd.
Qed.
Lemma sole_apart P p n d w : sole p n d w -> ~ P p -> apart P p w.
Proof. intros Hs Hp q m Hq Hm Hpm. rewrite (sl_name _ _ _ _ Hs) in Hpm. simplify_eq. by destruct (sl_only _ _ _ _ Hs q Hm). Qed.
Lemma sole_away P p n d w0 w : sole p n d w0 -> world_wf w0 -> away P w0 w -> ~ P p -> sole p n d w.
Proof.
  intros Hs Hw Ha Hp. pose proof (sole_apart P _ _ _ _ Hs Hp) as Hap. destruct Hs as [Hn (i & Hi & Hd & Hsy) Ho].
  pose proof (apart_not_mine _ _ _ _ Hap Hw Hn) as Hm. split.
  - by apply (aw_names _ _ _ Ha).
  - destruct (aw_inodes _ _ _ Ha _ _ Hi Hm) as (i' & Hi' & Hd' & _ & Hk). exists i'. split_and!; [done|congruence|auto].
  - intros q Hq. destruct (aw_new _ _ _ Ha _ _ Hq) as [?|?]; [auto|done].
Qed.

(** Renaming a new file into place. *)
Lemma wp_Rename_away P w0 tp p n d w :
  away P w0 w -> sole tp n d w -> mine P w0 n -> w_names w0 !! tp = None -> P p ->
  wp (os_Rename tp p) w (fun r w' => away P w0 w' /\ (is_ok r = true -> sole p n d w' /\ (tp = p \/ w_names w' !! tp = None))).
Proof.
  intros Ha Hs Hm Htp Hp. apply wp_syscall; intros fs; [split; [by apply (tick_stable (P := away P w0))|done]|].
  unfold wp. simpl. rewrite (sl_name _ _ _ _ Hs). case_decide as Hdir; simpl.
  2: { split; [by apply (tick_stable (P := away P w0))|done]. }
  destruct Hs as [Hn (i & Hi & Hd & Hsy) Ho]. destruct Ha as [[a a'] b c e f g h z]. split.
  - split; simpl; auto.
    + split; simpl; [|auto]. intros q k. destruct (decide (q = p)) as [->|].
      * rewrite lookup_insert_eq. intros [= <-]. by eexists.
      * rewrite lookup_insert_ne by done. intros [_ Hq]%lookup_delete_Some. eauto.
    + intros q k Hq Hk. rewrite lookup_insert_ne by congruence. rewrite lookup_delete_ne by congruence. auto.
    + intros q k. destruct (decide (q = p)) as [->|].
      * rewrite lookup_insert_eq. intros [= <-]. by right.
      * rewrite lookup_insert_ne by done. intros [_ Hq]%lookup_delete_Some. auto.
    + intros q Hq [k Hk] Hqd. assert (q <> p) by congruence. assert (q <> tp) by congruence.
      specialize (z q Hq ltac:(by eexists) Hqd). set_solver.
  - intros _. split.
    + split; simpl; [apply lookup_insert_eq|eauto|]. intros q. destruct (decide (q = p)) as [->|]; [done|].
      rewrite lookup_insert_ne by done. intros [Hne Hq]%lookup_delete_Some. by destruct (Ho q Hq).
    + destruct (decide (tp = p)) as [->|]; [by left|right]. rewrite lookup_insert_ne by done. apply lookup_delete_eq.
Qed.
Lemma wp_sync_dir_sole p n d w :
  sole p n d w -> wp (sync_dir (filepath_Dir p)) w (fun r w' => sole p n d w' /\ w_names w' = w_names w /\ (is_ok r = true -> durable w' p)).
Proof.
  intros Hs. apply wp_syscall; intros fs; [split_and!; [by apply tick_stable|done..]|].
  unfold wp. simpl. case_decide as Hdir; simpl; [|split_and!; [by apply tick_stable|done..]].
  destruct Hs as [Hn (i & Hi & Hd & Hsy) Ho]. split_and!; [split; simpl; eauto|done|]. intros _. split; simpl.
  - apply elem_of_union_r, elem_of_filter. split; [done|]. apply elem_of_dom. by eexists.
  - exists i. unfold inode_of. simpl. rewrite Hn. simpl. auto.
Qed.

(** ** Changes of one inode *)

(** Only inode [n] has changed; it holds [d]. *)
Record touched (n : nat) (d : bytes) (w w' : world) : Prop := {
  tc_names : w_names w' = w_names w;
  tc_dirs : w_dirs w' = w_dirs w;
  tc_durable : w_durable w' = w_durable w;
  tc_next : w_next w' = w_next w;
  tc_others : forall m, m <> n -> w_inodes w' !! m = w_inodes w !! m;
  tc_was : is_Some (w_inodes w !! n);
  tc_data : exists i, w_inodes w' !! n = Some i /\ i_data i = d;
}.

Lemma touched_refl n i w : w_inodes w !! n = Some i -> touched n (i_data i) w w.
Proof. intros Hi. split; eauto. Qed.
Lemma touched_trans n d1 d2 w0 w1 w2 : touched n d1 w0 w1 -> touched n d2 w1 w2 -> touched n d2 w0 w2.
Proof.
  intros [a b c e f g h] [a' b' c' e' f' g' h']. split; try congruence; eauto.
  intros m Hm. rewrite f', f; done.
Qed.
Lemma touched_same n d w0 w1 w2 : touched n d w0 w1 -> same_files w1 w2 -> touched n d w0 w2.
Proof.
  intros [a b c e f g h] (E1 & E2 & E3 & E4 & E5 & _).
  split; rewrite ?E1, ?E2, ?E3, ?E4, ?E5; auto.
Qed.
Lemma same_touched n d w0 w1 w2 : same_files w0 w1 -> touched n d w1 w2 -> touched n d w0 w2.
Proof.
  intros (E1 & E2 & E3 & E4 & E5 & _) [a b c e f g h].
  split; rewrite <- ?E1, <- ?E2, <- ?E3, <- ?E4, <- ?E5; auto.
Qed.
Lemma touched_wf n d w w' : touched n d w w' -> world_wf w -> world_wf w'.
Proof.
  intros [a b c e f g (i & h & _)] [Hn Hx]. split.
  - intros p m. rewrite a. intros Hp. destruct (decide (m = n)) as [->|]; [eauto|]. rewrite f; eauto.
  - intros m. rewrite e. destruct (decide (m = n)) as [->|]; [eauto|]. rewrite f; eauto.
Qed.
Lemma touched_data n d w w' p : touched n d w w' -> w_names w !! p = Some n -> file_data w' p = Some d.
Proof.
  intros [a b c e f g (i & Hi & Hd)] Hp. unfold file_data, inode_of. rewrite a, Hp. simpl. rewrite Hi. simpl. by rewrite Hd.
Qed.
Lemma touched_away n d w w' p :
  touched n d w w' -> world_wf w -> w_names w !! p = Some n -> away (fun q => q = p) w w'.
Proof.
  intros Ht Hw Hp. pose proof (touched_wf _ _ _ _ Ht Hw) as Hw'. destruct Ht as [a b c e f g (i & Hi & Hd)].
  split; rewrite ?a, ?b, ?c, ?e; auto.
  - intros m j Hj Hm. rewrite f; [exists j; split; [done|apply inode_kept_refl]|]. intros ->. apply Hm. left. eauto.
  - intros m Hm. destruct (decide (m = n)) as [->|]; [by eexists|]. by rewrite f.
Qed.
Lemma touched_tick n d w fs w' : touched n d (tick w fs) w' -> touched n d w w'.
Proof. intros [a b c e f g h]. by split. Qed.

Lemma touched_update n d w i : w_inodes w !! n = Some i -> touched n d w (update_inode w n d).
Proof.
  intros Hi. split; simpl; eauto.
  - intros m Hm. by rewrite lookup_insert_ne.
  - rewrite lookup_insert_eq. by eexists.
Qed.

Lemma wp_inode_Write n pos data i w :
  w_inodes w !! n = Some i ->
  wp (inode_Write n pos data) w (fun r w' => exists k err, r = Ok (k, err) /\ 0 <= k <= zlen data
    /\ (err = None -> k = zlen data) /\ touched n (pwrite (pos i) (ztake k data) (i_data i)) w w').
Proof.
  intros Hi. unfold wp, inode_Write. destruct (next_outcome w) as [fault w1] eqn:Eo. pose proof (zlen_nonneg data).
  assert (exists fs, w1 = tick w fs) as [fs ->].
  { unfold next_outcome in Eo. destruct (w_faults w) as [|[|k] fs]; simplify_eq; eauto. }
  change (w_inodes (tick w fs)) with (w_inodes w). rewrite Hi. destruct fault as [k|]; cbn [fst snd].
  - assert (ztake (zlen (take k data)) data = take k data) as Hz.
    { unfold ztake, zlen. rewrite Nat2Z.id, length_take. destruct (Nat.le_gt_cases k (length data)).
      - by rewrite Nat.min_l by lia.
      - rewrite Nat.min_r by lia. by rewrite !take_ge by lia. }
    exists (zlen (take k data)), (Some os_ErrIO). rewrite Hz. split; [done|].
    split; [unfold zlen; rewrite length_take; lia|]. split; [done|].
    destruct (take k data) as [|x l] eqn:Et.
    + simpl pwrite. eapply touched_same; [by apply touched_refl|done].
    + apply (touched_tick _ _ w fs). by eapply touched_update.
  - exists (zlen data), None. split; [done|]. split; [lia|]. split; [done|]. rewrite ztake_all by lia.
    apply (touched_tick _ _ w fs). by eapply touched_update.
Qed.

Definition resize (size : Z) (data : bytes) : bytes :=
  ztake size data ++ replicate (Z.to_nat (size - zlen data)) Byte.x00.

Lemma wp_file_Truncate f size i w :
  w_inodes w !! f_ino f = Some i ->
  wp (file_Truncate f size) w (fun r w' =>
    match r with
    | Ok _ => touched (f_ino f) (resize size (i_data i)) w w'
    | Err _ => same_files w w'
    end).
Proof.
  intros Hi. apply wp_syscall; intros fs; [done|]. unfold wp. simpl. rewrite Hi. simpl.
  apply (touched_tick _ _ w fs). by eapply touched_update.
Qed.
Lemma wp_file_Sync f i w :
  w_inodes w !! f_ino f = Some i -> wp (file_Sync f) w (fun _ w' => touched (f_ino f) (i_data i) w w').
Proof.
  intros Hi. apply wp_syscall; intros fs; [eapply touched_same; [by apply touched_refl|done]|]. unfold wp. simpl. rewrite Hi. simpl.
  split; simpl; eauto.
  - intros m Hm. by rewrite lookup_insert_ne.
  - rewrite lookup_insert_eq. by eexists.
Qed.
Lemma resize_id d : resize (zlen d) d = d.
Proof. unfold resize. rewrite Z.sub_diag, ztake_all by lia. simpl. apply app_nil_r. Qed.
Lemma resize_app d x : resize (zlen d) (d ++ x) = d.
Proof.
  unfold resize. rewrite zlen_app. pose proof (zlen_nonneg x). replace (Z.to_nat (zlen d - (zlen d + zlen x))) with 0%nat by lia.
  simpl. rewrite app_nil_r. unfold ztake, zlen. rewrite Nat2Z.id. by rewrite take_app_length.
Qed.
