(* ===== verification/Directory.v ===== *)
(** Files that code creates in a directory of its own.

    [holds dir files w] describes the contents of the files, [handle] a file that is
    being written at its end, and [ok_wp] what holds after a computation that
    succeeded. *)
From S2P Require Import Prelude GoStd Effects Os Mutation.
Local Open Scope Z_scope.

(** The directory [dir] has the files of [files], each with its contents, and no
    two of them share an inode. *)
Record holds (dir : path) (files : gmap string bytes) (w : world) : Prop := {
  ho_wf : world_wf w;
  ho_data : forall name d, files !! name = Some d -> file_data w (name :: dir) = Some d;
  ho_inj : forall a b n, is_Some (files !! a) -> is_Some (files !! b) ->
    w_names w !! (a :: dir) = Some n -> w_names w !! (b :: dir) = Some n -> a = b;
}.
(** [f] writes at the end of the file [name], which holds [d]. *)
Definition handle (dir : path) (name : string) (d : bytes) (f : File) (w : world) : Prop :=
  w_names w !! (name :: dir) = Some (f_ino f) /\ f_append f = false /\ f_pos f = zlen d.

Lemma holds_same dir files w w' : holds dir files w -> same_files w w' -> holds dir files w'.
Proof.
  intros [Hw Hd Hi] Hs. split; [by eapply same_files_wf| |].
  - intros name d Hn. rewrite (same_files_data _ _ _ Hs). auto.
  - destruct Hs as (-> & _). auto.
Qed.
Lemma handle_names dir name d f w w' :
  handle dir name d f w -> (forall q n, w_names w !! q = Some n -> w_names w' !! q = Some n) -> handle dir name d f w'.
Proof. intros (Hn & Ha & Hp) Hk. split_and!; auto. Qed.

Lemma file_data_inode w p d : file_data w p = Some d ->
  exists n i, w_names w !! p = Some n /\ w_inodes w !! n = Some i /\ i_data i = d.
Proof.
  unfold file_data, inode_of. destruct (w_names w !! p) as [n|] eqn:En; simpl; [|done].
  destruct (w_inodes w !! n) as [i|] eqn:Ei; simpl; [|done]. intros [= <-]. eauto.
Qed.
Lemma holds_touched dir files w w' name n d d' :
  holds dir files w -> files !! name = Some d -> w_names w !! (name :: dir) = Some n ->
  touched n d' w w' -> holds dir (<[name := d']> files) w'.
Proof.
  intros [Hw Hd Hi] Hf Hn Ht. split; [by eapply touched_wf|..].
  - intros a da. destruct (decide (a = name)) as [->|Hne].
    + rewrite lookup_insert_eq. intros [= <-]. by eapply touched_data.
    + rewrite lookup_insert_ne by done. intros Ha. pose proof (Hd a da Ha) as Hda.
      apply file_data_inode in Hda as (m & i & Hm & Hmi & <-).
      unfold file_data, inode_of. rewrite (tc_names _ _ _ _ Ht), Hm. simpl.
      rewrite (tc_others _ _ _ _ Ht); [by rewrite Hmi|]. intros ->. apply Hne. eapply Hi; eauto.
  - intros a b m Ha Hb. rewrite (tc_names _ _ _ _ Ht). apply Hi.
    + destruct (decide (a = name)) as [->|]; [eauto|by rewrite lookup_insert_ne in Ha].
    + destruct (decide (b = name)) as [->|]; [eauto|by rewrite lookup_insert_ne in Hb].
Qed.

(** [wp] for the success of a computation. *)
Definition ok_wp {S A} (m : M S A) (s : S) (Q : A -> S -> Prop) : Prop :=
  wp m s (fun r s' => match r with Ok a => Q a s' | Err _ => True end).
Lemma ok_bind {S A B} (m : M S A) (f : A -> M S B) s Q :
  ok_wp m s (fun a s' => ok_wp (f a) s' Q) -> ok_wp (bind m f) s Q.
Proof. unfold ok_wp. rewrite wp_bind. unfold wp. by destruct (m s).1. Qed.
Lemma ok_mono {S A} (m : M S A) s (P Q : A -> S -> Prop) :
  ok_wp m s P -> (forall a s', P a s' -> Q a s') -> ok_wp m s Q.
Proof. unfold ok_wp, wp. intros H HQ. destruct (m s).1; auto. Qed.
Lemma ok_wrap {S A} f (m : M S A) s Q : ok_wp m s Q -> ok_wp (wrap f m) s Q.
Proof. unfold ok_wp. rewrite wp_wrap. unfold wp. by destruct (m s).1. Qed.
Lemma ok_or_else {S A B} (m : M S A) (c : M S B) s Q : ok_wp m s Q -> ok_wp (or_else m c) s Q.
Proof. unfold ok_wp. rewrite wp_or_else. unfold wp. by destruct (m s).1. Qed.
Lemma ok_zoom {S T A} (g : S -> T) u (m : M T A) s Q : ok_wp m (g s) (fun a t => Q a (u s t)) -> ok_wp (zoom g u m) s Q.
Proof. unfold ok_wp. by rewrite wp_zoom. Qed.
Lemma ok_throw {S} (e : option error) (s : S) Q : (e = None -> Q tt s) -> ok_wp (throw e) s Q.
Proof. intros H. unfold ok_wp. rewrite wp_throw. destruct e; auto. Qed.

Lemma ok_Close dir files f w : holds dir files w -> ok_wp (file_Close f) w (fun _ w' => holds dir files w' /\ w_names w' = w_names w).
Proof.
  intros Hh. eapply wp_mono; [apply (wp_kept (same_files w)); [apply keeps_Close, _|done]|].
  intros [a|e] w' Hs; [|done]. split; [by eapply holds_same|]. apply Hs.
Qed.
Lemma ok_Sync dir files name d f w : holds dir files w -> files !! name = Some d -> handle dir name d f w ->
  ok_wp (file_Sync f) w (fun _ w' => holds dir files w' /\ w_names w' = w_names w).
Proof.
  intros Hh Hf (Hn & _). destruct (file_data_inode _ _ _ (ho_data _ _ _ Hh _ _ Hf)) as (n & i & Hn' & Hi & Hd).
  rewrite Hn in Hn'. injection Hn' as <-. eapply wp_mono; [by apply wp_file_Sync|]. intros [a|e] w' Ht; [|done].
  split; [|apply Ht]. rewrite <- (insert_id files name d) by done. rewrite Hd in Ht. by eapply holds_touched.
Qed.
Lemma ok_Write dir files name d f data w : holds dir files w -> files !! name = Some d -> handle dir name d f w ->
  ok_wp (file_Write f data) w (fun r w' => r.1.2 = None ->
    holds dir (<[name := d ++ data]> files) w' /\ handle dir name (d ++ data) r.2 w' /\ w_names w' = w_names w).
Proof.
  intros Hh Hf (Hn & Ha & Hp). destruct (file_data_inode _ _ _ (ho_data _ _ _ Hh _ _ Hf)) as (n & i & Hn' & Hi & Hd).
  rewrite Hn in Hn'. injection Hn' as <-. unfold file_Write. apply ok_bind.
  eapply wp_mono; [by apply wp_inode_Write|]. intros r w' (k & err & -> & Hk & He & Ht). unfold ok_wp.
  rewrite wp_ret. cbn [fst snd]. intros Herr. rewrite (He Herr), ztake_all, Ha, Hp, Hd in Ht by lia.
  rewrite pwrite_end in Ht. split_and!; [by eapply holds_touched| |apply Ht].
  split_and!; cbn [f_ino f_append f_pos]; [by rewrite (tc_names _ _ _ _ Ht)|done|]. rewrite (He Herr), Hp. len.
Qed.
Lemma ok_Create dir files name w : holds dir files w ->
  ok_wp (os_Create (name :: dir) true false) w (fun f w' => files !! name = None
    /\ holds dir (<[name := []]> files) w' /\ handle dir name [] f w'
    /\ (forall q n, w_names w !! q = Some n -> w_names w' !! q = Some n)).
Proof.
  intros [Hw Hd Hi]. apply wp_syscall; intros fs; [done|]. unfold wp.
  change (w_names (tick w fs)) with (w_names w). change (w_dirs (tick w fs)) with (w_dirs w).
  destruct (w_names w !! (name :: dir)) as [n|] eqn:En; [done|]. destruct (decide (_ ∈ w_dirs w)) as [_|]; [|done].
  assert (files !! name = None) as Hnone.
  { destruct (files !! name) as [d|] eqn:Ef; [|done]. apply Hd, file_data_inode in Ef as (m & i & Hm & _). congruence. }
  assert (forall m, is_Some (w_inodes w !! m) -> m <> w_next w) as Hfresh by (intros m Hm%(wf_next _ Hw); lia).
  assert (forall q n, w_names w !! q = Some n -> <[name :: dir := w_next w]> (w_names w) !! q = Some n) as Hk.
  { intros q n Hq. rewrite lookup_insert_ne; [done|]. intros <-. congruence. }
  cbn [fst snd set_next set_files w_names w_inodes w_next tick]. split; [done|]. split; [|split].
  - split; cbn [set_next set_files w_names w_inodes w_next tick].
    + split; cbn [set_next set_files w_names w_inodes w_next tick].
      * intros p n. destruct (decide (p = name :: dir)) as [->|]; [rewrite lookup_insert_eq; intros [= <-];
          rewrite lookup_insert_eq; eauto|]. rewrite lookup_insert_ne by done. intros Hp.
        pose proof (wf_names _ Hw _ _ Hp) as Hs. rewrite lookup_insert_ne; [done|]. by apply not_eq_sym, Hfresh.
      * intros n. destruct (decide (n = w_next w)) as [->|]; [lia|]. rewrite lookup_insert_ne by done.
        intros Hs%(wf_next _ Hw). lia.
    + intros a d. destruct (decide (a = name)) as [->|Hne].
      * rewrite lookup_insert_eq. intros [= <-]. unfold file_data, inode_of. cbn [set_next set_files w_names w_inodes w_next tick].
        rewrite lookup_insert_eq. cbn [mbind option_bind]. by rewrite lookup_insert_eq.
      * rewrite lookup_insert_ne by done. intros Ha. pose proof (Hd a d Ha) as Hda.
        apply file_data_inode in Hda as (m & i & Hm & Hmi & <-). unfold file_data, inode_of. cbn [set_next set_files w_names w_inodes w_next tick].
        rewrite (Hk _ _ Hm). cbn [mbind option_bind]. rewrite lookup_insert_ne; [by rewrite Hmi|]. apply not_eq_sym, Hfresh. eauto.
    + intros a b n Ha Hb. assert (forall c, is_Some (<[name:=[]]> files !! c) -> c <> name ->
        is_Some (files !! c) /\ exists m i, w_names w !! (c :: dir) = Some m /\ w_inodes w !! m = Some i) as Hold.
      { intros c Hc Hne. rewrite lookup_insert_ne in Hc by done. split; [done|]. destruct Hc as [d Hc].
        apply Hd, file_data_inode in Hc as (m & i & ? & ? & _). eauto. }
      destruct (decide (a = name)) as [->|Hna], (decide (b = name)) as [->|Hnb]; [done|..].
      * rewrite lookup_insert_eq. intros [= <-]. destruct (Hold b Hb Hnb) as (_ & m & i & Hm & Hmi).
        rewrite (Hk _ _ Hm). intros [= ->]. exfalso. by apply (Hfresh (w_next w)).
      * rewrite lookup_insert_eq. intros Hm' [= <-]. destruct (Hold a Ha Hna) as (_ & m & i & Hm & Hmi).
        rewrite (Hk _ _ Hm) in Hm'. injection Hm' as ->. exfalso. by apply (Hfresh (w_next w)).
      * destruct (Hold a Ha Hna) as (Ha' & m & i & Hm & _), (Hold b Hb Hnb) as (Hb' & m' & i' & Hm' & _).
        rewrite (Hk _ _ Hm), (Hk _ _ Hm'). intros [= <-] [= ->]. by eapply Hi.
  - split; [apply lookup_insert_eq|done].
  - exact Hk.
Qed.

Definition names_kept (w w' : world) : Prop := forall q n, w_names w !! q = Some n -> w_names w' !! q = Some n.
Lemma names_kept_eq w w' : w_names w' = w_names w -> names_kept w w'.
Proof. by intros E q n; rewrite E. Qed.
Lemma names_kept_trans w1 w2 w3 : names_kept w1 w2 -> names_kept w2 w3 -> names_kept w1 w3.
Proof. intros H1 H2 q n Hq. auto. Qed.

