(* ===== verification/Context.v ===== *)
(** Computations over a context and the file system.

    [sure m s Q]: [m] leaves a calm environment calm, its result satisfies [Q], and it
    fails only when a system call fails or the context is cancelled. *)
From S2P Require Import Prelude GoStd Effects Os Mutation Directory ObjectReader.
Local Open Scope Z_scope.

Definition CM (A : Type) : Type := M (Ctx * world) A.
Definition on_world {A} (m : OS A) : CM A := zoom snd (fun s w => (s.1, w)) m.
(** [if err := ctx.Err(); err != nil { return err }] *)
Definition check_ctx : CM unit := fun s =>
  let '(err, ctx) := ctx_Err s.1 in
  (match err with Some e => Err e | None => Ok tt end, (ctx, s.2)).

(** No failure is ahead and nobody cancels. *)
Definition calm (s : Ctx * world) : Prop := s.1 = None /\ w_faults s.2 = [].

Definition sure {A} (m : CM A) (s : Ctx * world) (Q : A -> Ctx * world -> Prop) : Prop :=
  wp m s (fun r s' => (calm s -> calm s') /\ match r with Ok a => Q a s' | Err _ => ~ calm s end).

Lemma sure_mono {A} (m : CM A) s (P Q : A -> Ctx * world -> Prop) :
  sure m s P -> (forall a s', P a s' -> Q a s') -> sure m s Q.
Proof. unfold sure. intros H HPQ. eapply wp_mono; [exact H|]. intros [a|e] s' [Hc Hr]; auto. Qed.
Lemma sure_ext {A} (m m' : CM A) s Q : m s = m' s -> sure m' s Q -> sure m s Q.
Proof. unfold sure, wp. by intros ->. Qed.
Lemma sure_ret {A} (a : A) s (Q : A -> Ctx * world -> Prop) : Q a s -> sure (ret a) s Q.
Proof. by split. Qed.
Lemma sure_bind {A B} (m : CM A) (f : A -> CM B) s Q :
  sure m s (fun a s' => sure (f a) s' Q) -> sure (bind m f) s Q.
Proof.
  unfold sure. intros Hm. rewrite wp_bind. eapply wp_mono; [exact Hm|]. intros [a|e] s' [Hc Hr]; [|done].
  eapply wp_mono; [exact Hr|]. intros [b|e] s2 [Hc2 Hr2]; (split; [auto|]); [done|]. auto.
Qed.
Lemma sure_check_ctx s (Q : unit -> Ctx * world -> Prop) : (forall c, Q tt (c, s.2)) -> sure check_ctx s Q.
Proof.
  intros HQ. destruct s as [[[|k]|] w]; unfold sure, wp; cbn; (split; [by intros [? ?]|]); [by intros [? _]|apply HQ..].
Qed.
Lemma wp_check_ctx c w : wp check_ctx (c, w) (fun r s' =>
  s'.2 = w /\ (c = None -> s'.1 = None) /\ match r with Ok _ => True | Err e => c <> None end).
Proof. destruct c as [[|k]|]; by unfold wp; cbn. Qed.
(** A system call whose success is known from its two specifications. *)
Lemma sure_world {A} (m : OS A) c w (Q : A -> world -> Prop) :
  ok_wp m w Q -> fine m w (fun _ _ => True) -> sure (on_world m) (c, w) (fun a s' => s'.1 = c /\ Q a s'.2).
Proof.
  unfold ok_wp, sure, on_world. intros Hok Hf. rewrite wp_zoom. unfold wp in *. cbn [fst snd].
  split; [intros [Hc Hw]; split; [done|]; destruct (Hf Hw) as (a & w' & E & Hw' & _); by rewrite E|].
  destruct ((m w).1) as [a|e] eqn:E; [done|]. intros [_ Hw]. destruct (Hf Hw) as (a & w' & E' & _). by rewrite E' in E.
Qed.
Lemma sure_ignore {A} (m : CM A) s (P : Ctx * world -> Prop) :
  (calm s -> calm (m s).2) -> P (m s).2 -> sure (ignore m) s (fun _ => P).
Proof. by split. Qed.

Lemma on_world_bind {A B} (m : OS A) (f : A -> OS B) s :
  on_world (bind m f) s = bind (on_world m) (fun a => on_world (f a)) s.
Proof.
  destruct s as [c w]. unfold on_world, zoom, bind. cbn [fst snd]. destruct (m w) as [[a|e] w']; cbn; [|done]. by destruct (f a w').
Qed.
Lemma sure_world_bind {A B} (m : OS A) (f : A -> OS B) s Q :
  sure (on_world m) s (fun a s' => sure (on_world (f a)) s' Q) -> sure (on_world (bind m f)) s Q.
Proof. intros H. apply sure_bind in H. unfold sure, wp in *. by rewrite on_world_bind. Qed.
Lemma sure_world_ret {A} (a : A) s (Q : A -> Ctx * world -> Prop) : Q a s -> sure (on_world (ret a)) s Q.
Proof. intros HQ. by destruct s as [c w]; split. Qed.
