(* ===== verification/Bufio.v ===== *)
(** [bufio.Reader] with a buffer of one megabyte over a file: [ReadSlice('\\n')],
    as [internal/fold] and [internal/contain] read session files line by line. *)
From S2P Require Import Prelude GoStd Effects Os.
Local Open Scope Z_scope.

Inductive slice_end := Delim | BufferFull | AtEOF | ReadError (e : error).

(** The position of the first newline among the first [size] bytes. *)
Fixpoint find_newline (size : Z) (l : bytes) : option nat :=
  match l with
  | [] => None
  | b :: l => if size <=? 0 then None
              else if decide (b = Byte.x0a) then Some O else S <$> find_newline (size - 1) l
  end.

(** The next fragment of [rest], how it ended, and what remains; the buffer has
    [size] bytes. *)
Definition ReadSlice (size : Z) (rest : bytes) : bytes * slice_end * bytes :=
  match find_newline size rest with
  | Some i => (take (S i) rest, Delim, drop (S i) rest)
  | None => if size <=? zlen rest then (ztake size rest, BufferFull, zdrop size rest)
            else (rest, AtEOF, [])
  end.

Definition buffer_size : Z := 1024 * 1024.

(** One [ReadSlice] where [rest] is unread: the underlying read may fail part-way. *)
Definition next_slice (rest : bytes) : OS (bytes * slice_end * bytes) := fun w =>
  let '(fragment, how, rest) := ReadSlice buffer_size rest in
  match next_outcome w with
  | (Some k, w) => (Ok (take k fragment, ReadError os_ErrIO, rest), w)
  | (None, w) => (Ok (fragment, how, rest), w)
  end.

Lemma find_newline_Some size l i : find_newline size l = Some i ->
  exists pre rest, l = pre ++ Byte.x0a :: rest /\ length pre = i /\ Byte.x0a ∉ pre.
Proof.
  revert size i. induction l as [|b l IH]; intros size i; simpl; [done|].
  destruct (size <=? 0); [done|]. case_decide as Hb; [intros [= <-]; exists [], l; rewrite Hb; split_and!; [done|done|set_solver]|].
  destruct (find_newline (size - 1) l) as [j|] eqn:E; simpl; [|done]. intros [= <-].
  apply IH in E as (pre & rest & -> & <- & Hpre). exists (b :: pre), rest. split_and!; [done|done|set_solver].
Qed.
Lemma find_newline_None size l : find_newline size l = None -> Byte.x0a ∉ ztake size l.
Proof.
  revert size. induction l as [|b l IH]; intros size; simpl; [unfold ztake; rewrite take_nil; set_solver|].
  destruct (size <=? 0) eqn:E; zbool; [intros _; rewrite ztake_0 by lia; set_solver|].
  case_decide as Hb; [done|]. destruct (find_newline (size - 1) l) eqn:En; [done|]. intros _.
  unfold ztake in *. replace (Z.to_nat size) with (S (Z.to_nat (size - 1))) by lia. simpl. apply IH in En. set_solver.
Qed.

Lemma ReadSlice_spec size rest fragment how rest' :
  0 < size -> ReadSlice size rest = (fragment, how, rest') ->
  match how with
  | Delim => fragment ++ rest' = rest /\ fragment <> [] /\ exists pre, fragment = pre ++ [Byte.x0a] /\ Byte.x0a ∉ pre
  | BufferFull => fragment ++ rest' = rest /\ fragment <> [] /\ Byte.x0a ∉ fragment
  | AtEOF => fragment = rest /\ rest' = [] /\ Byte.x0a ∉ fragment
  | ReadError _ => False
  end.
Proof.
  intros Hs. unfold ReadSlice. destruct (find_newline size rest) as [i|] eqn:E.
  - intros [= <- <- <-]. apply find_newline_Some in E as (pre & tail & -> & <- & Hpre).
    assert (take (S (length pre)) (pre ++ Byte.x0a :: tail) = pre ++ [Byte.x0a]) as ->.
    { rewrite <- Nat.add_1_r, take_app_add. done. }
    assert (drop (S (length pre)) (pre ++ Byte.x0a :: tail) = tail) as ->.
    { rewrite <- Nat.add_1_r, drop_app_add. done. }
    split_and!; [by rewrite <- app_assoc|by destruct pre|by exists pre].
  - apply find_newline_None in E. destruct (size <=? zlen rest) eqn:El; intros [= <- <- <-]; zbool.
    + split_and!; [apply ztake_zdrop| |done]. intros Hz. apply (f_equal zlen) in Hz.
      rewrite zlen_ztake in Hz. unfold zlen in Hz, El. simpl in Hz. lia.
    + rewrite ztake_all in E by lia. done.
Qed.

(** What a [ReadSlice] leaves: only the faults to come change. *)
Lemma wp_next_slice rest w : wp (next_slice rest) w (fun r w' =>
  exists fragment how rest', r = Ok (fragment, how, rest') /\ (exists fs, w' = tick w fs /\ (w_faults w = [] -> fs = []))
    /\ match how with
       | Delim => fragment ++ rest' = rest /\ fragment <> [] /\ exists pre, fragment = pre ++ [Byte.x0a] /\ Byte.x0a ∉ pre
       | BufferFull => fragment ++ rest' = rest /\ fragment <> [] /\ Byte.x0a ∉ fragment
       | AtEOF => fragment = rest /\ rest' = [] /\ Byte.x0a ∉ fragment
       | ReadError e => w_faults w <> [] /\ e = os_ErrIO
       end).
Proof.
  unfold wp, next_slice. destruct (ReadSlice buffer_size rest) as [[fragment how] rest'] eqn:Er.
  apply ReadSlice_spec in Er; [|unfold buffer_size; lia].
  unfold next_outcome. destruct (w_faults w) as [|[|k] fs] eqn:Ef; simpl.
  1,2: exists fragment, how, rest'; split_and!; [done|by eexists|by destruct how].
  exists (take k fragment), (ReadError os_ErrIO), rest'. split_and!; [done|by eexists|done|done].
Qed.
