(* ===== verification/Budget.v ===== *)
(** Storage budgets: [internal/storage/budget.go], [guard.go], [policy.go] and
    [accounting.go].

    Mutations of a store are priced before they start.  [CheckBudget] is the
    arithmetic; the guards feed it with the physical size of the store and the
    free space of its volume; [loadPolicy] reads the limits.  The inventory scan
    and the free-space probe are parameters ([inventory.go] walks directories, the
    probe is a system call), and so is the JSON decoder of the policy file. *)
From S2P Require Import Prelude GoStd Effects ObjectReader Manifest Os.

(** ** [budget.go] *)

Inductive RejectionReason :=
| RejectionPhysicalBudget
| RejectionTemporaryBudget
| RejectionFreeSpaceReserve.

Record Limits := {
  MaxPhysicalBytes : Z;
  MaxTemporaryBytes : Z;
  FreeSpaceReserveBytes : Z;
}.

Record BudgetRequest := {
  br_Operation : string;
  br_CurrentPhysicalBytes : Z;
  br_AdditionalPersistentBytes : Z;
  br_TemporaryBytes : Z;
  br_TemporaryPersistentOverlapBytes : Z;
  br_ReclaimableBytes : Z;
  br_AvailableBytes : Z;
}.

Record BudgetReport := {
  bp_Operation : string;
  bp_Allowed : bool;
  bp_CurrentPhysicalBytes : Z;
  bp_ProjectedPeakBytes : Z;
  bp_ProjectedFinalBytes : Z;
  bp_ProjectedReclaimableBytes : Z;
  bp_AvailableBytes : Z;
  bp_FreeSpaceAfterPeak : Z;
  bp_Rejections : list RejectionReason;
}.

Definition ErrBudgetExceeded : error := Sentinel "storage budget exceeded".

Definition addBudgetBytes (first second : Z) : option Z :=
  if first >? i64 (max_int64 - second) then None else Some (i64 (first + second)).

(** The reasons in the order in which they are checked. *)
Definition rejections (limits : Limits) (peak temporary freeAfterPeak : Z) : list RejectionReason :=
  (if (MaxPhysicalBytes limits >? 0) && (peak >? MaxPhysicalBytes limits) then [RejectionPhysicalBudget] else [])
  ++ (if (MaxTemporaryBytes limits >? 0) && (temporary >? MaxTemporaryBytes limits)
      then [RejectionTemporaryBudget] else [])
  ++ (if freeAfterPeak <? FreeSpaceReserveBytes limits then [RejectionFreeSpaceReserve] else []).

(** The report and the error; a rejected request has both. *)
Definition no_report : BudgetReport := Build_BudgetReport "" false 0 0 0 0 0 0 [].
Definition CheckBudget (request : BudgetRequest) (limits : Limits) : BudgetReport * option error :=
  let refuse (message : string) := (no_report, Some (errors_new message)) in
  if string_is (br_Operation request) "" then refuse "storage budget operation is required"%string
  else if (br_CurrentPhysicalBytes request <? 0) || (br_AdditionalPersistentBytes request <? 0)
          || (br_TemporaryBytes request <? 0) || (br_TemporaryPersistentOverlapBytes request <? 0)
          || (br_ReclaimableBytes request <? 0) || (br_AvailableBytes request <? 0) then
    refuse "storage budget byte counts cannot be negative"%string
  else if (br_TemporaryPersistentOverlapBytes request >? br_TemporaryBytes request)
          || (br_TemporaryPersistentOverlapBytes request >? br_AdditionalPersistentBytes request) then
    refuse "temporary and persistent overlap exceeds the projected bytes"%string
  else if (MaxPhysicalBytes limits <? 0) || (MaxTemporaryBytes limits <? 0)
          || (FreeSpaceReserveBytes limits <? 0) then
    refuse "storage limits cannot be negative"%string
  else
    match addBudgetBytes (br_AdditionalPersistentBytes request) (br_TemporaryBytes request) with
    | None => refuse "storage budget additional byte projection overflow"%string
    | Some additional =>
        let additional := i64 (additional - br_TemporaryPersistentOverlapBytes request) in
        match addBudgetBytes (br_CurrentPhysicalBytes request) additional with
        | None => refuse "storage budget peak byte projection overflow"%string
        | Some peak =>
            match addBudgetBytes (br_CurrentPhysicalBytes request) (br_AdditionalPersistentBytes request) with
            | None => refuse "storage budget final byte projection overflow"%string
            | Some beforeReclaim =>
                let final := i64 (beforeReclaim - Z.min (br_ReclaimableBytes request) beforeReclaim) in
                let freeAfterPeak := i64 (br_AvailableBytes request - additional) in
                let reasons := rejections limits peak (br_TemporaryBytes request) freeAfterPeak in
                ({| bp_Operation := br_Operation request;
                    bp_Allowed := match reasons with [] => true | _ => false end;
                    bp_CurrentPhysicalBytes := br_CurrentPhysicalBytes request;
                    bp_ProjectedPeakBytes := peak; bp_ProjectedFinalBytes := final;
                    bp_ProjectedReclaimableBytes := br_ReclaimableBytes request;
                    bp_AvailableBytes := br_AvailableBytes request; bp_FreeSpaceAfterPeak := freeAfterPeak;
                    bp_Rejections := reasons |},
                 match reasons with
                 | [] => None
                 | _ => Some (errorf "%w: %s rejected by %v" ErrBudgetExceeded)
                 end)
            end
        end
    end.

(** ** [guard.go] *)

Record Projection := {
  pj_Operation : string;
  pj_AdditionalPersistentBytes : Z;
  pj_TemporaryBytes : Z;
  pj_TemporaryPersistentOverlapBytes : Z;
  pj_ReclaimableBytes : Z;
}.
(** [storage.Checker], as its users see it: a verdict that reads the disk. *)
Definition Checker : Type := Projection -> world -> result unit.

(** The fields of [storage.Inventory] that pricing uses. *)
Record Inventory := {
  inv_StoreDir : option path;
  inv_TotalPhysicalBytes : Z;
}.
Definition no_inventory : Inventory := {| inv_StoreDir := None; inv_TotalPhysicalBytes := 0 |}.

Definition SpaceProbe : Type := path -> world -> result Z.

Record Guard := {
  g_StoreDir : option path;
  g_Limits : Limits;
  g_Probe : option SpaceProbe;
}.
Record VolumeGuard := {
  vg_Path : option path;
  vg_Limits : Limits;
  vg_Probe : option SpaceProbe;
}.
Record Assessment := {
  as_Inventory : Inventory;
  as_Budget : BudgetReport;
}.
Definition no_assessment : Assessment := {| as_Inventory := no_inventory; as_Budget := no_report |}.

Definition DefaultLimits : Limits :=
  {| MaxPhysicalBytes := 512 * 2 ^ 30; MaxTemporaryBytes := 16 * 2 ^ 30; FreeSpaceReserveBytes := 5 * 2 ^ 30 |}.
Definition zero_limits (l : Limits) : bool :=
  (MaxPhysicalBytes l =? 0) && (MaxTemporaryBytes l =? 0) && (FreeSpaceReserveBytes l =? 0).

Definition request_of (p : Projection) (current available : Z) : BudgetRequest :=
  {| br_Operation := pj_Operation p; br_CurrentPhysicalBytes := current;
     br_AdditionalPersistentBytes := pj_AdditionalPersistentBytes p;
     br_TemporaryBytes := pj_TemporaryBytes p;
     br_TemporaryPersistentOverlapBytes := pj_TemporaryPersistentOverlapBytes p;
     br_ReclaimableBytes := pj_ReclaimableBytes p; br_AvailableBytes := available |}.

Definition absoluteStore (g : Guard) : result path :=
  match g_StoreDir g with
  | None => Err (errors_new "storage guard store directory is required")
  | Some store => Ok store
  end.

Section Guards.
(** [Scan] of [inventory.go], and [AvailableBytes]. *)
Variable Scan : path -> world -> result Inventory.
Variable AvailableBytes : SpaceProbe.

Definition checkWithInventory (g : Guard) (ctx : Ctx) (store : path) (inventory : Inventory)
    (projection : Projection) (w : world) : Assessment * option error :=
  match (ctx_Err ctx).1 with
  | Some e => (no_assessment, Some e)
  | None =>
      if negb (bool_decide (inv_StoreDir inventory = Some store)) then
        (no_assessment, Some (errors_new "storage inventory does not match guard store"))
      else
        match (match g_Probe g with Some probe => probe | None => AvailableBytes end) store w with
        | Err e => ({| as_Inventory := inventory; as_Budget := no_report |},
                    Some (errorf "probe available storage bytes: %w" e))
        | Ok available =>
            let '(report, err) :=
              CheckBudget (request_of projection (inv_TotalPhysicalBytes inventory) available) (g_Limits g) in
            ({| as_Inventory := inventory; as_Budget := report |}, err)
        end
  end.

Definition guard_Check (g : Guard) (ctx : Ctx) (projection : Projection) (w : world)
  : Assessment * option error :=
  let '(err, ctx) := ctx_Err ctx in
  match err with
  | Some e => (no_assessment, Some e)
  | None =>
      match absoluteStore g with
      | Err e => (no_assessment, Some e)
      | Ok store =>
          match Scan store w with
          | Err e => (no_assessment, Some e)
          | Ok inventory => checkWithInventory g ctx store inventory projection w
          end
      end
  end.

Definition volume_Check (g : VolumeGuard) (ctx : Ctx) (projection : Projection) (w : world)
  : Assessment * option error :=
  match (ctx_Err ctx).1 with
  | Some e => (no_assessment, Some e)
  | None =>
      match vg_Path g with
      | None => (no_assessment, Some (errors_new "volume guard path is required"))
      | Some p =>
          match (match vg_Probe g with Some probe => probe | None => AvailableBytes end) p w with
          | Err e => (no_assessment, Some (errorf "probe available storage bytes: %w" e))
          | Ok available =>
              let limits := if zero_limits (vg_Limits g) then DefaultLimits else vg_Limits g in
              let '(report, err) := CheckBudget (request_of projection 0 available) limits in
              ({| as_Inventory := no_inventory; as_Budget := report |}, err)
          end
      end
  end.

(** [OnceInventoryGuard]: [None] until the first scan succeeds. *)
Definition once_Check (g : Guard) (cached : option Inventory) (ctx : Ctx) (projection : Projection) (w : world)
  : (Assessment * option error) * option Inventory :=
  let '(err, ctx) := ctx_Err ctx in
  match err with
  | Some e => ((no_assessment, Some e), cached)
  | None =>
      match absoluteStore g with
      | Err e => ((no_assessment, Some e), cached)
      | Ok store =>
          match (match cached with Some inventory => Ok inventory | None => Scan store w end) with
          | Err e => ((no_assessment, Some e), cached)
          | Ok inventory => (checkWithInventory g ctx store inventory projection w, Some inventory)
          end
      end
  end.

(** The verdict of a guard, as [Checker]. *)
Definition checker_of (check : Projection -> world -> Assessment * option error) : Checker := fun p w =>
  match (check p w).2 with None => Ok tt | Some e => Err e end.
End Guards.

(** *** The shared inventory

    [inventoryCache]: the state under its mutex.  [ic_flight] is whether a refresh
    goroutine is running; its completion is [finish_refresh]. *)
Record inventoryCache := {
  ic_inv : Inventory;
  ic_loadedAt : Z;
  ic_loaded : bool;
  ic_flight : bool;
  ic_lastErr : option error;
}.
Definition new_inventoryCache : inventoryCache :=
  {| ic_inv := no_inventory; ic_loadedAt := 0; ic_loaded := false; ic_flight := false; ic_lastErr := None |}.

Definition startRefreshLocked (c : inventoryCache) : inventoryCache :=
  {| ic_inv := ic_inv c; ic_loadedAt := ic_loadedAt c; ic_loaded := ic_loaded c; ic_flight := true;
     ic_lastErr := ic_lastErr c |}.
Definition finish_refresh (scanned : result Inventory) (now : Z) (c : inventoryCache) : inventoryCache :=
  match scanned with
  | Ok inventory =>
      {| ic_inv := inventory; ic_loadedAt := now; ic_loaded := true; ic_flight := false; ic_lastErr := None |}
  | Err e =>
      {| ic_inv := ic_inv c; ic_loadedAt := ic_loadedAt c; ic_loaded := ic_loaded c; ic_flight := false;
         ic_lastErr := Some e |}
  end.

(** The two halves of [get], around the wait for the flight: the first answers
    when an inventory is loaded, and says whether it started a refresh. *)
Definition get_begin (maxAge now : Z) (c : inventoryCache) : option Inventory * inventoryCache :=
  if ic_loaded c then
    (Some (ic_inv c),
     if negb (ic_flight c) && (now - ic_loadedAt c >? maxAge) then startRefreshLocked c else c)
  else (None, if negb (ic_flight c) then startRefreshLocked c else c).
Definition get_end (c : inventoryCache) : Inventory * option error :=
  if ic_loaded c then (ic_inv c, None) else (no_inventory, ic_lastErr c).
Definition prime (c : inventoryCache) : inventoryCache :=
  if negb (ic_loaded c) && negb (ic_flight c) then startRefreshLocked c else c.

(** ** [policy.go] *)

Inductive NativeSnapshotRetention :=
| RetentionUnset
| NativeSnapshotRetentionExactProof
| NativeSnapshotRetentionManual
| RetentionUnknown (s : string).

Record policyFile := {
  pf_Version : Z;
  pf_Limits : Limits;
  pf_Retention : NativeSnapshotRetention;
}.
Definition DefaultRetention : NativeSnapshotRetention := NativeSnapshotRetentionExactProof.

Section Policy.
(** The strict decoder: exactly one JSON value without unknown fields. *)
Variable decode_policy : bytes -> result policyFile.

Definition check_policy (policy : policyFile) : result policyFile :=
  if negb (pf_Version policy =? 1) then Err (errors_new "unsupported storage policy version %d")
  else if (MaxPhysicalBytes (pf_Limits policy) <=? 0) || (MaxTemporaryBytes (pf_Limits policy) <=? 0)
          || (FreeSpaceReserveBytes (pf_Limits policy) <=? 0) then
    Err (errors_new "storage policy limits must all be positive")
  else
    let policy := match pf_Retention policy with
                  | RetentionUnset => {| pf_Version := pf_Version policy; pf_Limits := pf_Limits policy;
                                         pf_Retention := DefaultRetention |}
                  | _ => policy
                  end in
    match pf_Retention policy with
    | NativeSnapshotRetentionExactProof | NativeSnapshotRetentionManual => Ok policy
    | _ => Err (errors_new "unsupported native snapshot retention %q")
    end.

Definition loadPolicy (storeDir : option path) : OS policyFile :=
  match storeDir with
  | None => fail (errors_new "storage policy store directory is required")
  | Some storeDir =>
      let* data := try_ (os_ReadFile ("storage-policy.json"%string :: storeDir)) in
      match data with
      | Err e =>
          if is_NotExist e then
            ret {| pf_Version := 1; pf_Limits := DefaultLimits; pf_Retention := DefaultRetention |}
          else fail (errorf "read storage policy: %w" e)
      | Ok data =>
          match decode_policy data with
          | Err e => fail (errorf "decode storage policy: %w" e)
          | Ok policy => lift (check_policy policy)
          end
      end
  end.
Definition LoadLimits (storeDir : option path) : OS Limits :=
  let* policy := loadPolicy storeDir in ret (pf_Limits policy).
Definition LoadRetentionPolicy (storeDir : option path) : OS NativeSnapshotRetention :=
  let* policy := loadPolicy storeDir in ret (pf_Retention policy).
Definition DefaultGuard (storeDir : option path) : OS Guard :=
  let* limits := LoadLimits storeDir in
  ret {| g_StoreDir := storeDir; g_Limits := limits; g_Probe := None |}.
End Policy.

(** ** [accounting.go] *)

Record MutationAccounting := {
  ma_Before : Inventory;
  ma_Budget : BudgetReport;
  ma_After : Inventory;
  ma_ProjectedReclaimableBytes : Z;
  ma_ActualReclaimedBytes : Z;
  ma_AfterInventoryError : option error;
}.
Definition CompleteAccounting (Scan : path -> world -> result Inventory) (assessment : Assessment)
    (storeDir : option path) (w : world) : MutationAccounting :=
  let base after reclaimed err :=
    {| ma_Before := as_Inventory assessment; ma_Budget := as_Budget assessment; ma_After := after;
       ma_ProjectedReclaimableBytes := bp_ProjectedReclaimableBytes (as_Budget assessment);
       ma_ActualReclaimedBytes := reclaimed; ma_AfterInventoryError := err |} in
  match storeDir with
  | None => base no_inventory 0 None
  | Some storeDir =>
      match Scan storeDir w with
      | Err e => base no_inventory 0 (Some e)
      | Ok after =>
          base after
            (if bool_decide (inv_StoreDir (as_Inventory assessment) <> None)
                && (inv_TotalPhysicalBytes (as_Inventory assessment) >? inv_TotalPhysicalBytes after)
             then i64 (inv_TotalPhysicalBytes (as_Inventory assessment) - inv_TotalPhysicalBytes after)
             else 0) None
      end
  end.

(** ** What the arithmetic promises *)

Definition request_in_range (r : BudgetRequest) : Prop :=
  Forall in_i64 [br_CurrentPhysicalBytes r; br_AdditionalPersistentBytes r; br_TemporaryBytes r;
                 br_TemporaryPersistentOverlapBytes r; br_ReclaimableBytes r; br_AvailableBytes r].

(** Bytes on top of the present ones at the peak. *)
Definition extra_at_peak (r : BudgetRequest) : Z :=
  br_AdditionalPersistentBytes r + br_TemporaryBytes r - br_TemporaryPersistentOverlapBytes r.

Record well_formed_request (r : BudgetRequest) (l : Limits) : Prop := {
  wr_operation : br_Operation r <> ""%string;
  wr_current : 0 <= br_CurrentPhysicalBytes r;
  wr_additional : 0 <= br_AdditionalPersistentBytes r;
  wr_temporary : 0 <= br_TemporaryBytes r;
  wr_overlap : 0 <= br_TemporaryPersistentOverlapBytes r <= br_TemporaryBytes r;
  wr_overlap' : br_TemporaryPersistentOverlapBytes r <= br_AdditionalPersistentBytes r;
  wr_reclaimable : 0 <= br_ReclaimableBytes r;
  wr_available : 0 <= br_AvailableBytes r;
  wr_limits : 0 <= MaxPhysicalBytes l /\ 0 <= MaxTemporaryBytes l /\ 0 <= FreeSpaceReserveBytes l;
  wr_sum : br_AdditionalPersistentBytes r + br_TemporaryBytes r <= max_int64;
  wr_peak : br_CurrentPhysicalBytes r + extra_at_peak r <= max_int64;
}.

(** The request fits the limits, over the integers; a zero size limit is no limit. *)
Record fits (r : BudgetRequest) (l : Limits) : Prop := {
  ft_physical : MaxPhysicalBytes l = 0 \/ br_CurrentPhysicalBytes r + extra_at_peak r <= MaxPhysicalBytes l;
  ft_temporary : MaxTemporaryBytes l = 0 \/ br_TemporaryBytes r <= MaxTemporaryBytes l;
  ft_reserve : extra_at_peak r + FreeSpaceReserveBytes l <= br_AvailableBytes r;
}.

Lemma addBudgetBytes_spec a b :
  0 <= a <= max_int64 -> 0 <= b <= max_int64 ->
  addBudgetBytes a b = if a + b <=? max_int64 then Some (a + b) else None.
Proof.
  intros Ha Hb. unfold addBudgetBytes. rewrite i64_id by (unfold in_i64, max_int64 in *; lia).
  destruct (a >? _) eqn:E, (a + b <=? max_int64) eqn:E2; zbool; try lia; [done|].
  rewrite i64_id; [done|]. unfold in_i64, max_int64 in *. lia.
Qed.

Lemma rejections_nil l peak temporary free :
  0 <= MaxPhysicalBytes l -> 0 <= MaxTemporaryBytes l ->
  rejections l peak temporary free = []
  <-> (MaxPhysicalBytes l = 0 \/ peak <= MaxPhysicalBytes l)
      /\ (MaxTemporaryBytes l = 0 \/ temporary <= MaxTemporaryBytes l) /\ FreeSpaceReserveBytes l <= free.
Proof.
  intros Hp Ht. unfold rejections.
  destruct (MaxPhysicalBytes l >? 0) eqn:E1, (peak >? MaxPhysicalBytes l) eqn:E2; simpl;
  destruct (MaxTemporaryBytes l >? 0) eqn:E3, (temporary >? MaxTemporaryBytes l) eqn:E4; simpl;
  destruct (free <? FreeSpaceReserveBytes l) eqn:E5; simpl; zbool;
    (split; [intros Hx; try discriminate; split_and!; lia | intros (? & ? & ?); try done; lia]).
Qed.

(** The report of a well-formed request. *)
Lemma CheckBudget_well_formed r l :
  request_in_range r -> well_formed_request r l ->
  let reasons := rejections l (br_CurrentPhysicalBytes r + extra_at_peak r) (br_TemporaryBytes r)
                   (br_AvailableBytes r - extra_at_peak r) in
  CheckBudget r l =
  ({| bp_Operation := br_Operation r; bp_Allowed := match reasons with [] => true | _ => false end;
      bp_CurrentPhysicalBytes := br_CurrentPhysicalBytes r;
      bp_ProjectedPeakBytes := br_CurrentPhysicalBytes r + extra_at_peak r;
      bp_ProjectedFinalBytes :=
        Z.max 0 (br_CurrentPhysicalBytes r + br_AdditionalPersistentBytes r - br_ReclaimableBytes r);
      bp_ProjectedReclaimableBytes := br_ReclaimableBytes r; bp_AvailableBytes := br_AvailableBytes r;
      bp_FreeSpaceAfterPeak := br_AvailableBytes r - extra_at_peak r; bp_Rejections := reasons |},
   match reasons with [] => None | _ => Some (errorf "%w: %s rejected by %v" ErrBudgetExceeded) end).
Proof.
  intros Hr [Hop Hcur Hadd Htmp Hov Hov' Hrec Hav (Hl1 & Hl2 & Hl3) Hsum Hpeak] reasons.
  unfold request_in_range in Hr. repeat (apply Forall_cons in Hr as [? Hr]). unfold in_i64, max_int64 in *.
  unfold CheckBudget, string_is. rewrite bool_decide_false by done.
  rewrite !(proj2 (Z.ltb_ge _ _)) by lia. cbn [orb].
  rewrite !(Z.gtb_ltb _ _), !(proj2 (Z.ltb_ge _ _)) by lia. cbn [orb].
  unfold extra_at_peak in *.
  rewrite addBudgetBytes_spec, (proj2 (Z.leb_le _ _)) by (unfold max_int64; lia).
  rewrite (i64_id (_ - _)) by (unfold in_i64; lia).
  rewrite addBudgetBytes_spec, (proj2 (Z.leb_le _ _)) by (unfold max_int64; lia).
  rewrite addBudgetBytes_spec, (proj2 (Z.leb_le _ _)) by (unfold max_int64; lia).
  rewrite !i64_id by (unfold in_i64; lia). fold reasons.
  replace (_ - Z.min _ _) with
    (Z.max 0 (br_CurrentPhysicalBytes r + br_AdditionalPersistentBytes r - br_ReclaimableBytes r)) by lia.
  subst reasons. reflexivity.
Qed.

Lemma CheckBudget_accepts r l report :
  request_in_range r -> CheckBudget r l = (report, None) -> well_formed_request r l.
Proof.
  intros Hr. unfold request_in_range in Hr. repeat (apply Forall_cons in Hr as [? Hr]). unfold in_i64 in *.
  unfold CheckBudget, string_is. case_bool_decide as Hop; [done|].
  destruct (_ || _ || _ || _ || _ || _) eqn:E1; [done|]. destruct (_ || _) eqn:E2 in |- *; [done|].
  destruct (_ || _ || _) eqn:E3 in |- *; [done|]. zbool.
  rewrite addBudgetBytes_spec by (unfold max_int64; lia). destruct (_ <=? max_int64) eqn:E4; [|done]. zbool.
  rewrite (i64_id (_ - _)) by (unfold in_i64, max_int64 in *; lia).
  rewrite addBudgetBytes_spec by (unfold max_int64 in *; lia). destruct (_ <=? max_int64) eqn:E5; [|done]. zbool.
  intros _. unfold extra_at_peak. split; unfold extra_at_peak; [done|lia..].
Qed.

(** C31. [CheckBudget] decides exactly the arithmetic it stands for: it accepts a
    request if and only if the request is well formed and fits the limits over the
    unbounded integers, so no int64 overflow can sneak a request past the limits;
    and the numbers it reports are the true ones. *)
Theorem check_budget_exact r l :
  request_in_range r ->
  ((CheckBudget r l).2 = None <-> well_formed_request r l /\ fits r l)
  /\ (forall report, CheckBudget r l = (report, None) ->
        bp_Allowed report = true
        /\ bp_ProjectedPeakBytes report = br_CurrentPhysicalBytes r + extra_at_peak r
        /\ bp_ProjectedFinalBytes report
           = Z.max 0 (br_CurrentPhysicalBytes r + br_AdditionalPersistentBytes r - br_ReclaimableBytes r)
        /\ FreeSpaceReserveBytes l <= bp_FreeSpaceAfterPeak report).
Proof.
  intros Hr. assert (forall Hw : well_formed_request r l,
    rejections l (br_CurrentPhysicalBytes r + extra_at_peak r) (br_TemporaryBytes r)
      (br_AvailableBytes r - extra_at_peak r) = [] <-> fits r l) as Hfit.
  { intros Hw. destruct (wr_limits _ _ Hw) as (? & ? & ?). rewrite rejections_nil by done.
    split; [intros (? & ? & ?); split; lia|intros [? ? ?]; lia]. }
  split; [split|].
  - intros Hn. destruct (CheckBudget r l) as [report err] eqn:E. simpl in Hn. subst err.
    pose proof (CheckBudget_accepts _ _ _ Hr E) as Hw. split; [done|]. apply Hfit; [done|].
    rewrite CheckBudget_well_formed in E by done. by case_match.
  - intros [Hw Hf]. rewrite CheckBudget_well_formed by done. by rewrite (proj2 (Hfit Hw)).
  - intros report E. pose proof (CheckBudget_accepts _ _ _ Hr E) as Hw.
    rewrite CheckBudget_well_formed in E by done. injection E as <- Herr. simpl.
    destruct (rejections l _ _ _) eqn:Ereasons in Herr |- *; [|done]. split_and!; [done..|].
    pose proof (ft_reserve _ _ (proj1 (Hfit Hw) Ereasons)). lia.
Qed.

Definition sample_request : BudgetRequest :=
  {| br_Operation := "fold"; br_CurrentPhysicalBytes := 100; br_AdditionalPersistentBytes := 50;
     br_TemporaryBytes := 20; br_TemporaryPersistentOverlapBytes := 20; br_ReclaimableBytes := 200;
     br_AvailableBytes := 6 * 2 ^ 30 |}.
Lemma check_budget_exact_witness : well_formed_request sample_request DefaultLimits /\ fits sample_request DefaultLimits.
Proof.
  refine (proj1 (proj1 (check_budget_exact sample_request DefaultLimits _)) _).
  - repeat constructor; vm_compute; congruence.
  - vm_compute. reflexivity.
Defined.

(** ** Guards enforce the reserve *)

(** Whatever the policy file says, a guard built from it keeps a positive part
    of the volume free: an operation that [DefaultGuard] lets pass leaves at least
    the configured reserve, itself positive, after its peak, and stays within the
    configured physical size. *)
Theorem default_guard_enforces decode Scan Available storeDir w g w1 ctx projection a w2 :
  DefaultGuard decode storeDir w = (Ok g, w1) ->
  guard_Check Scan Available g ctx projection w2 = (a, None) ->
  (forall p w inv, Scan p w = Ok inv -> in_i64 (inv_TotalPhysicalBytes inv)) ->
  (forall p w n, Available p w = Ok n -> in_i64 n) ->
  Forall in_i64 [pj_AdditionalPersistentBytes projection; pj_TemporaryBytes projection;
                 pj_TemporaryPersistentOverlapBytes projection; pj_ReclaimableBytes projection] ->
  exists store inventory available,
    storeDir = Some store /\ Scan store w2 = Ok inventory /\ Available store w2 = Ok available
    /\ let extra := extra_at_peak (request_of projection (inv_TotalPhysicalBytes inventory) available) in
       0 < FreeSpaceReserveBytes (g_Limits g) <= available - extra
       /\ inv_TotalPhysicalBytes inventory + extra <= MaxPhysicalBytes (g_Limits g).
Proof.
  intros Hg Hc Hscan Hav Hproj.
  assert (g_StoreDir g = storeDir /\ g_Probe g = None /\ 0 < FreeSpaceReserveBytes (g_Limits g)
    /\ 0 < MaxPhysicalBytes (g_Limits g)) as (Hs & Hp & Hres & Hmax).
  { unfold DefaultGuard, LoadLimits, loadPolicy, bind, ret, lift, fail, try_ in Hg.
    destruct storeDir as [store|]; [|done]. destruct (os_ReadFile _ w) as [[data|e] w'].
    - destruct (decode data) as [policy|e]; [|done]. destruct (check_policy policy) as [p|e] eqn:E; [|done].
      injection Hg as <- <-. unfold check_policy in E. destruct (negb _); [done|].
      destruct (_ || _ || _) eqn:E3; [done|]. zbool.
      assert (pf_Limits p = pf_Limits policy) as ->.
      { destruct (pf_Retention policy) eqn:Er; simpl in E; rewrite ?Er in E; by simplify_eq. }
      simpl. split_and!; auto; lia.
    - destruct (is_NotExist e); [|done]. injection Hg as <- <-. simpl. split_and!; done. }
  unfold guard_Check in Hc. destruct (ctx_Err ctx) as [[e|] ctx1]; [done|].
  unfold absoluteStore in Hc. rewrite Hs in Hc. destruct storeDir as [store|]; [|done].
  destruct (Scan store w2) as [inventory|e] eqn:Es; [|done].
  unfold checkWithInventory in Hc. destruct (ctx_Err ctx1).1; [done|]. destruct (negb _); [done|].
  rewrite Hp in Hc. destruct (Available store w2) as [available|e] eqn:Ea; [|done].
  destruct (CheckBudget _ _) as [report err] eqn:Eb. injection Hc as <- ->.
  exists store, inventory, available. split_and!; [done..|].
  set (r := request_of projection (inv_TotalPhysicalBytes inventory) available) in *.
  assert (request_in_range r) as Hr.
  { unfold request_in_range. simpl. repeat (apply Forall_cons in Hproj as [? Hproj]).
    repeat (apply Forall_cons; split); [by eapply Hscan|done..|by eapply Hav|apply Forall_nil_2]. }
  pose proof (CheckBudget_accepts _ _ _ Hr Eb) as Hw.
  rewrite CheckBudget_well_formed in Eb by done. injection Eb as _ Eb.
  destruct (rejections _ _ _ _) eqn:Ereasons; [|done]. destruct (wr_limits _ _ Hw) as (? & ? & ?).
  apply rejections_nil in Ereasons; [|done..]. cbv zeta.
  change (br_CurrentPhysicalBytes r) with (inv_TotalPhysicalBytes inventory) in Ereasons.
  change (br_AvailableBytes r) with available in Ereasons. split; lia.
Qed.

(** ** The shared inventory *)

(** The cache, and what the scans that finished so far returned, latest first. *)
Definition cache_state : Type := inventoryCache * list (result Inventory).
Inductive cache_step : cache_state -> cache_state -> Prop :=
| step_get maxAge now c h : cache_step (c, h) ((get_begin maxAge now c).2, h)
| step_prime c h : cache_step (c, h) (prime c, h)
| step_scanned r now c h : ic_flight c = true -> cache_step (c, h) (finish_refresh r now c, r :: h).

(** The latest inventory that a scan returned. *)
Fixpoint latest (h : list (result Inventory)) : option Inventory :=
  match h with
  | [] => None
  | Ok inv :: _ => Some inv
  | Err _ :: h => latest h
  end.

Definition cache_inv (s : cache_state) : Prop :=
  (if ic_loaded s.1 then Some (ic_inv s.1) else None) = latest s.2
  /\ (ic_lastErr s.1 = match s.2 with Err e :: _ => Some e | _ => None end).

Lemma cache_inv_start c h : cache_inv (c, h) -> cache_inv (startRefreshLocked c, h).
Proof. done. Qed.

Lemma cache_inv_step s s' : cache_step s s' -> cache_inv s -> cache_inv s'.
Proof.
  intros [maxAge now c h|c h|r now c h _] Hi; simpl.
  - unfold get_begin. repeat case_match; simpl; auto using cache_inv_start.
  - unfold prime. case_match; auto using cache_inv_start.
  - destruct Hi as [Hl He]. destruct r as [inv|e]; split; simpl; auto.
Qed.

(** The shared inventory never lies: however checks, refreshes and failures
    interleave, a check that finds an inventory loaded gets the one the latest
    successful scan returned, a failed refresh never loses it, and a check that
    waited for a refresh gets that inventory or, if no scan has ever succeeded, the
    error of the last one (never an empty inventory without an error). *)
Theorem shared_inventory_sound c h maxAge now :
  rtc cache_step (new_inventoryCache, []) (c, h) ->
  (get_begin maxAge now c).1 = latest h
  /\ (h <> [] -> match latest h with
                 | Some inv => get_end c = (inv, None)
                 | None => exists e h', h = Err e :: h' /\ get_end c = (no_inventory, Some e)
                 end).
Proof.
  intros Hrun. assert (cache_inv (c, h)) as [Hl He].
  { refine (rtc_ind_l (fun s => cache_inv s -> cache_inv (c, h)) _ _ _ _ Hrun _); [done| |done].
    intros s s' Hs _ IH Hi. apply IH. by eapply cache_inv_step. }
  simpl in *. split.
  - unfold get_begin. by destruct (ic_loaded c).
  - intros Hne. unfold get_end. destruct (latest h) as [inv|] eqn:El.
    + destruct (ic_loaded c); [|done]. by injection Hl as <-.
    + destruct (ic_loaded c); [done|]. destruct h as [|[inv|e] h]; [done|done|]. exists e, h. by rewrite He.
Qed.
Definition sample_cache : inventoryCache :=
  finish_refresh (Ok no_inventory) 5 (startRefreshLocked new_inventoryCache).
Lemma shared_inventory_sound_witness : (get_begin 1 10 sample_cache).1 = Some no_inventory.
Proof.
  refine (proj1 (shared_inventory_sound sample_cache [Ok no_inventory] 1 10 _)).
  apply (rtc_l _ _ (startRefreshLocked new_inventoryCache, [])); [exact (step_get 1 0 new_inventoryCache [])|].
  apply rtc_once. exact (step_scanned (Ok no_inventory) 5 (startRefreshLocked new_inventoryCache) [] eq_refl).
Defined.

Definition sample_guard : Guard := {| g_StoreDir := Some []; g_Limits := DefaultLimits; g_Probe := None |}.
Definition sample_projection : Projection :=
  {| pj_Operation := "fold"; pj_AdditionalPersistentBytes := 50; pj_TemporaryBytes := 20;
     pj_TemporaryPersistentOverlapBytes := 20; pj_ReclaimableBytes := 0 |}.
Definition quiet_world : world :=
  {| w_names := ∅; w_inodes := ∅; w_dirs := ∅; w_durable := ∅; w_next := 0; w_clock := 0; w_faults := [];
     w_locked := ∅ |}.
Definition toy_Scan : path -> world -> result Inventory := fun p _ =>
  Ok {| inv_StoreDir := Some p; inv_TotalPhysicalBytes := 7 |}.
Lemma default_guard_enforces_witness :
  exists inventory, toy_Scan [] quiet_world = Ok inventory
    /\ inv_TotalPhysicalBytes inventory + 50 <= 512 * 2 ^ 30.
Proof.
  destruct (default_guard_enforces (fun _ => Err os_ErrIO) toy_Scan (fun _ _ => Ok (6 * 2 ^ 30)) (Some [])
    quiet_world sample_guard (tick quiet_world []) None sample_projection
    (guard_Check toy_Scan (fun _ _ => Ok (6 * 2 ^ 30)) sample_guard None sample_projection quiet_world).1
    quiet_world) as (store & inventory & available & Hs & Hi & _ & _ & Hmax).
  - vm_compute. reflexivity.
  - vm_compute. reflexivity.
  - intros p w inv [= <-]. vm_compute. split; congruence.
  - intros p w n [= <-]. vm_compute. split; congruence.
  - repeat constructor; vm_compute; congruence.
  - exists inventory. injection Hs as <-. split; [exact Hi|]. exact Hmax.
Defined.
