(* ===== verification/Store.v ===== *)
(** The loose object store: [src/internal/fold/store.go], [stream.go] and the
    reader interface of [reader.go].

    Objects are content-addressed files [objects/<2 hex>/<digest>.zst].  [Put]
    verifies an object that is already there or writes a temporary file and
    renames it into place; [SyncPending] makes the new objects durable before a
    manifest may name them.  The operations run in [M (ObjectStore * world)]: the
    in-memory store and the file system.  SHA-256 and zstd are arguments. *)
From S2P Require Import Prelude GoStd Effects Os ObjectReader Manifest.

Record cachedObject := { co_ref : ObjectRef; co_persisted : bool }.

Record ObjectStore := {
  os_root : path;
  os_objects : gmap string cachedObject;
  os_pending : gset path;
  os_pendingDirs : gset path;
}.

Definition NewObjectStore (root : path) : ObjectStore :=
  {| os_root := root; os_objects := ∅; os_pending := ∅; os_pendingDirs := ∅ |}.

Definition store_state : Type := ObjectStore * world.
Definition Store (A : Type) : Type := M store_state A.
(** A system call made by the store. *)
Definition on_os {A} (m : OS A) : Store A := zoom snd (fun s w => (s.1, w)) m.
Definition on_store (f : ObjectStore -> ObjectStore) : Store unit := modify (fun s => (f s.1, s.2)).

Definition remember (digest : string) (ref : ObjectRef) (persisted : bool) (s : ObjectStore) : ObjectStore :=
  {| os_root := os_root s;
     os_objects := <[digest := {| co_ref := ref; co_persisted := persisted |}]> (os_objects s);
     os_pending := os_pending s; os_pendingDirs := os_pendingDirs s |}.
Definition add_pending (p : path) (s : ObjectStore) : ObjectStore :=
  {| os_root := os_root s; os_objects := os_objects s;
     os_pending := {[p]} ∪ os_pending s;
     os_pendingDirs := {[filepath_Dir p]} ∪ os_pendingDirs s |}.
Definition clear_pending (s : ObjectStore) : ObjectStore :=
  {| os_root := os_root s; os_objects := os_objects s; os_pending := ∅; os_pendingDirs := ∅ |}.

Definition object_path (root : path) (digest : string) : path :=
  let prefix := if (2 <=? Z.of_nat (String.length digest)) then String.substring 0 2 digest else "invalid"%string in
  [String.append digest ".zst"; prefix; "objects"%string] ++ root.
Definition ObjectPath (s : ObjectStore) (digest : string) : path := object_path (os_root s) digest.

Definition syncFile (p : path) : OS unit :=
  let* file := wrap "open object for sync: %w" (os_OpenFile p false) in
  sync_file "sync object %s: %w" file ;;;
  wrap "close synced object %s: %w" (file_Close file).

Definition syncDirectory (dir : path) : OS unit :=
  wrap "sync directory %s: %w" (sync_dir dir).

Fixpoint for_each {S A} (f : A -> M S unit) (l : list A) : M S unit :=
  match l with
  | [] => ret tt
  | x :: l => f x ;;; for_each f l
  end.

Section Store.
Variable sha256 : bytes -> bytes.
Variable zstd_encode : bytes -> result bytes.
Variable zstd_decode : bytes -> result bytes.

Definition digest_of (data : bytes) : string := hex_EncodeToString (sha256 data).

(** The checks made on decoded data: [Read] and, at the end of a stream,
    [objectStream.Read]. *)
Definition check_object (ref : ObjectRef) (data : bytes) : result bytes :=
  if negb (zlen data =? RawBytes ref) then Err (errors_new "object %s raw size %d, want %d")
  else if negb (string_is (digest_of data) (SHA256 ref)) then Err (errors_new "object %s SHA-256 mismatch")
  else Ok data.

Definition store_Read (root : path) (ref : ObjectRef) : OS bytes :=
  let* compressed := wrap "read object %s: %w" (os_ReadFile (object_path root (SHA256 ref))) in
  let* data := lift (match zstd_decode compressed with
                     | Err e => Err (errorf "decode object %s: %w" e)
                     | Ok data => Ok data
                     end) in
  lift (check_object ref data).

Definition compressObject (data : bytes) : result bytes :=
  match zstd_encode data with
  | Err e => Err (errorf "compress object: %w" e)
  | Ok c => Ok c
  end.

(** The end of [Put]: a temporary file renamed into place. *)
Definition put_file (p : path) (ref : ObjectRef) (compressed : bytes) : Store (ObjectRef * bool) :=
  let digest := SHA256 ref in
  on_os (wrap "create object directory: %w" (os_MkdirAll (filepath_Dir p))) ;;;
  let* (temporary, temporaryPath) :=
    on_os (wrap "create temporary object: %w" (os_CreateTemp (filepath_Dir p) ".object-" ".tmp")) in
  defer_ (on_os (os_Remove temporaryPath)) (
    let* temporary := on_os (write_file "write temporary object: %w" temporary compressed) in
    on_os (wrap "close temporary object: %w" (file_Close temporary)) ;;;
    let* renamed := try_ (on_os (os_Rename temporaryPath p)) in
    match renamed with
    | Err e =>
        let* stat := try_ (on_os (os_Stat p)) in
        match stat with
        | Ok info =>
            let ref := {| SHA256 := digest; RawBytes := RawBytes ref; StoredBytes := fi_size info |} in
            let* s := get in
            on_os (wrap "verify concurrently committed object %s: %w" (store_Read (os_root s.1) ref)) ;;;
            on_store (remember digest ref true) ;;;
            ret (ref, true)
        | Err _ => fail (errorf "commit object: %w" e)
        end
    | Ok _ =>
        on_store (remember digest ref true) ;;;
        on_store (add_pending p) ;;;
        ret (ref, false)
    end).

Definition Put (data : bytes) (apply : bool) : Store (ObjectRef * bool) :=
  let digest := digest_of data in
  let* s := get in
  match (match os_objects s.1 !! digest with
         | Some cached => if negb apply || co_persisted cached then Some (co_ref cached) else None
         | None => None
         end) with
  | Some ref => ret (ref, true)
  | None =>
      let p := ObjectPath s.1 digest in
      let* stat := try_ (on_os (os_Stat p)) in
      match stat with
      | Ok info =>
          let ref := {| SHA256 := digest; RawBytes := zlen data; StoredBytes := fi_size info |} in
          on_os (wrap "verify existing object %s: %w" (store_Read (os_root s.1) ref)) ;;;
          on_store (remember digest ref true) ;;;
          ret (ref, true)
      | Err e =>
          if negb (is_NotExist e) then fail (errorf "stat object %s: %w" e)
          else
            let* compressed := lift (compressObject data) in
            let ref := {| SHA256 := digest; RawBytes := zlen data; StoredBytes := zlen compressed |} in
            on_store (remember digest ref false) ;;;
            if negb apply then ret (ref, false) else put_file p ref compressed
      end
  end.

(** The job loop of [SyncPending]: a path is handed to a worker, then the context
    is checked.  The workers sync distinct files, so their interleaving does not
    matter: the model runs the job of a path when it is handed out, and stops at
    the first error, as the cancelled context makes the loop do. *)
Fixpoint sync_jobs (ctx : Ctx) (l : list path) : Store Ctx :=
  match l with
  | [] => ret ctx
  | p :: l =>
      on_os (syncFile p) ;;;
      let '(err, ctx) := ctx_Err ctx in
      match err with
      | Some e => fail e
      | None => sync_jobs ctx l
      end
  end.

Definition SyncPending (ctx : Ctx) : Store unit :=
  let* s := get in
  if decide (os_pending s.1 = ∅) then ret tt
  else
    let* ctx := sync_jobs ctx (elements (os_pending s.1)) in
    lift (match (ctx_Err ctx).1 with Some e => Err e | None => Ok tt end) ;;;
    for_each (fun d => on_os (syncDirectory d)) (elements (os_pendingDirs s.1)) ;;;
    on_os (syncDirectory ("objects"%string :: os_root s.1)) ;;;
    on_store clear_pending.

Definition store_HasObject (root : path) (ref : ObjectRef) : OS bool :=
  let* info := try_ (os_Stat (object_path root (SHA256 ref))) in
  ret (match info with Ok info => fi_regular info | Err _ => false end).

(** An open object stream: the file and the reference it is checked against. *)
Record objectStream := { st_ref : ObjectRef; st_file : File }.

Definition OpenStream (root : path) (ref : ObjectRef) : OS objectStream :=
  let* file := wrap "open object %s: %w" (os_Open (object_path root (SHA256 ref))) in
  ret {| st_ref := ref; st_file := file |}.

(** [io.Copy] out of a stream: [objectStream.Read] until [io.EOF]. *)
Definition stream_copy (s : objectStream) : OS bytes :=
  let* compressed := file_ReadAll (st_file s) in
  let* data := lift (zstd_decode compressed) in
  lift (check_object (st_ref s) data).

Definition stream_Close (s : objectStream) : OS unit := file_Close (st_file s).

(** ** Proving the identity of a loose object *)

Record LooseObjectIdentity := {
  lo_Path : path;
  lo_SHA256 : string;
  lo_RawBytes : Z;
  lo_StoredBytes : Z;
  lo_info : FileInfo;
}.

Definition path_eqb (a b : path) : bool := bool_decide (a = b).

Definition identity_Same (a b : LooseObjectIdentity) : bool :=
  path_eqb (lo_Path a) (lo_Path b) && string_is (lo_SHA256 a) (lo_SHA256 b)
  && (lo_RawBytes a =? lo_RawBytes b) && (lo_StoredBytes a =? lo_StoredBytes b)
  && os_SameFile (lo_info a) (lo_info b) && (fi_mtime (lo_info a) =? fi_mtime (lo_info b)).

Definition is_sha256_hex (digest : string) : bool :=
  match hex_DecodeString digest with
  | Some decoded => zlen decoded =? 32
  | None => false
  end.

Definition ValidateCanonicalLooseObjectPath (storeDir p : path) (digest : string) : result unit :=
  if negb (is_sha256_hex digest) then
    Err (errors_new "loose object path does not name a valid SHA-256")
  else if negb (path_eqb p (object_path storeDir digest)) then
    Err (errors_new "loose object path is not canonical: %s")
  else Ok tt.

Definition err_of {A} (r : result A) : option error :=
  match r with Ok _ => None | Err e => Some e end.

Definition CaptureLooseObjectIdentity (p : path) (digest : string) (expectedRawBytes : Z)
  : OS LooseObjectIdentity :=
  if negb (is_sha256_hex digest)
     || negb (string_is (hd EmptyString p) (String.append digest ".zst")) then
    fail (errors_new "loose object path does not name a valid SHA-256")
  else
    let* before := os_Stat p in
    if negb (fi_regular before) then fail (errors_new "loose object candidate is not a regular file")
    else
      let* file := os_Open p in
      let* opened := try_ (file_Stat file) in
      match opened with
      | Err e => ignore (file_Close file) ;;; fail e
      | Ok opened =>
          if negb (fi_regular opened) || negb (os_SameFile before opened) then
            ignore (file_Close file) ;;; fail (errors_new "loose object changed while it was opened")
          else
            let* copied := try_ (let* c := file_ReadAll file in lift (zstd_decode c)) in
            let* afterOpen := try_ (file_Stat file) in
            let* closed := try_ (file_Close file) in
            let* afterPath := try_ (os_Stat p) in
            match errors_join [err_of copied; err_of afterOpen; err_of closed; err_of afterPath],
                  copied, afterOpen, afterPath with
            | None, Ok raw, Ok afterOpen, Ok afterPath =>
                if negb (fi_regular afterOpen) || negb (fi_regular afterPath)
                   || negb (os_SameFile opened afterOpen) || negb (os_SameFile afterOpen afterPath)
                   || negb (fi_size afterOpen =? fi_size opened)
                   || negb (fi_mtime afterOpen =? fi_mtime opened) then
                  fail (errors_new "loose object changed while its bytes were verified")
                else if (expectedRawBytes >=? 0) && negb (zlen raw =? expectedRawBytes) then
                  fail (errors_new "loose object %s raw size %d, want %d")
                else if negb (string_is (digest_of raw) digest) then
                  fail (errors_new "loose object %s SHA-256 mismatch")
                else ret {| lo_Path := p; lo_SHA256 := digest; lo_RawBytes := zlen raw;
                            lo_StoredBytes := fi_size opened; lo_info := opened |}
            | Some e, _, _, _ => fail e
            | None, _, _, _ => fail os_ErrIO
            end
      end.
End Store.

(** ** What the store guarantees *)

Lemma wp_on_os {A} (m : OS A) s w Q : wp (on_os m) (s, w) Q <-> wp m w (fun r w' => Q r (s, w')).
Proof. unfold on_os. by rewrite wp_zoom. Qed.

Lemma wp_on_store f s w Q : wp (on_store f) (s, w) Q <-> Q (Ok tt) (f s, w).
Proof. done. Qed.

Lemma keeps_on_os {A} (P : world -> Prop) (m : OS A) :
  keeps P m -> keeps (fun sw : store_state => P sw.2) (on_os m).
Proof. intros Hm [s w] Hw. unfold on_os, zoom. simpl. specialize (Hm w Hw). by destruct (m w). Qed.
Lemma keeps_on_store (P : world -> Prop) f : keeps (fun sw : store_state => P sw.2) (on_store f).
Proof. by intros [s w]. Qed.
#[export] Hint Resolve keeps_on_os keeps_on_store : keeps.

Section StoreLemmas.
Context (sha256 : bytes -> bytes) (zstd_encode zstd_decode : bytes -> result bytes).
Hypothesis zstd_roundtrip : forall d c, zstd_encode d = Ok c -> zstd_decode c = Ok d.
Local Abbreviation digest_of := (digest_of sha256).
Local Abbreviation store_Read := (store_Read sha256 zstd_decode).
Local Abbreviation Put := (Put sha256 zstd_encode zstd_decode).

(** [d] is what the reference describes, as far as its digest and length go. *)
Definition object_is (ref : ObjectRef) (d : bytes) : Prop :=
  digest_of d = SHA256 ref /\ zlen d = RawBytes ref.

(** The loose file of [ref] decodes to [d]. *)
Definition stored (w : world) (root : path) (ref : ObjectRef) (d : bytes) : Prop :=
  exists c, file_data w (object_path root (SHA256 ref)) = Some c /\ zstd_decode c = Ok d
    /\ object_is ref d.

Record store_inv (s : ObjectStore) (w : world) : Prop := {
  si_wf : world_wf w;
  si_objects : forall digest co, os_objects s !! digest = Some co ->
    SHA256 (co_ref co) = digest
    /\ exists d, object_is (co_ref co) d /\ (co_persisted co = true -> stored w (os_root s) (co_ref co) d);
}.

Lemma check_object_Ok ref d d' : check_object sha256 ref d = Ok d' -> d' = d /\ object_is ref d.
Proof.
  unfold check_object, string_is. intros Hc. case_match; [done|]. case_match; [done|]. zbool.
  simplify_eq. split; [done|]. split; [|done]. by eapply bool_decide_eq_true_1.
Qed.
Lemma check_object_complete ref d : object_is ref d -> check_object sha256 ref d = Ok d.
Proof.
  intros [Hd Hl]. unfold check_object, string_is. rewrite Hl, Z.eqb_refl, Hd, bool_decide_eq_true_2; done.
Qed.

(** Changes that stay away from the object files. *)
Definition avoids_objects (root : path) (P : path -> Prop) : Prop :=
  forall digest, ~ P (object_path root digest).

Lemma avoids_nothing root : avoids_objects root nothing.
Proof. intros digest []. Qed.

Lemma stored_frame P w w' root ref d :
  avoids_objects root P -> frame P w w' -> stored w root ref d -> stored w' root ref d.
Proof.
  intros HP Hf (c & Hc & Hd). exists c. split; [|done]. eapply frame_file_data; eauto.
Qed.

Lemma store_inv_frame_avoids P s w w' :
  avoids_objects (os_root s) P -> store_inv s w -> framed P w w' -> store_inv s w'.
Proof.
  intros HP [Hw Ho] [Hw' Hf]. split; [done|]. intros digest co Hco.
  destruct (Ho _ _ Hco) as [Hs (d & Hd & Hp)]. split; [done|]. exists d. split; [done|].
  intros. eapply stored_frame; eauto.
Qed.

Lemma store_inv_frame s w w' : store_inv s w -> framed nothing w w' -> store_inv s w'.
Proof. apply store_inv_frame_avoids, avoids_nothing. Qed.

Lemma store_inv_remember s w digest ref b d :
  store_inv s w -> SHA256 ref = digest -> object_is ref d ->
  (b = true -> stored w (os_root s) ref d) -> store_inv (remember digest ref b s) w.
Proof.
  intros [Hw Ho] Hs Hd Hst. split; [done|]. intros dg co. simpl.
  destruct (decide (dg = digest)) as [->|].
  - rewrite lookup_insert_eq. intros [= <-]. simpl. eauto.
  - rewrite lookup_insert_ne by done. apply Ho.
Qed.

Lemma keeps_store_Read P `{TickStable P} root ref : keeps P (store_Read root ref).
Proof.
  unfold Store.store_Read. apply keeps_bind; [by apply keeps_wrap, keeps_ReadFile|].
  intros c. apply keeps_bind; intros; apply keeps_lift.
Qed.

Lemma wp_store_Read root ref w :
  wp (store_Read root ref) w (fun r w' => same_files w w' /\ forall d, r = Ok d -> stored w root ref d).
Proof.
  unfold Store.store_Read. rewrite wp_bind, wp_wrap. eapply wp_mono; [apply wp_ReadFile|].
  intros [c|e] w1 [Hs Hc]; [|by split]. rewrite wp_bind, wp_lift.
  destruct (zstd_decode c) as [raw|e] eqn:Ez; [|by split]. rewrite wp_lift. split; [done|].
  intros d [-> Hd]%check_object_Ok. exists c. auto.
Qed.

(** The new object is recorded for the next [SyncPending]. *)
Definition pend_post (s : ObjectStore) (digest : string) (apply : bool)
    (r : result (ObjectRef * bool)) (sw : store_state) : Prop :=
  let p := object_path (os_root s) digest in
  (os_pending sw.1 = os_pending s /\ os_pendingDirs sw.1 = os_pendingDirs s
   /\ (apply = true -> forall ref, r <> Ok (ref, false)))
  \/ (os_pending sw.1 = {[p]} ∪ os_pending s /\ os_pendingDirs sw.1 = {[filepath_Dir p]} ∪ os_pendingDirs s
      /\ is_Some (w_names sw.2 !! p)).

(** What every call to [Put] ensures. *)
Definition put_post (s : ObjectStore) (w : world) (digest : string) (apply : bool)
    (r : result (ObjectRef * bool)) (sw : store_state) : Prop :=
  os_root sw.1 = os_root s /\ store_inv sw.1 sw.2 /\ framed nothing w sw.2
  /\ match r with
     | Ok (ref, _) => SHA256 ref = digest /\ exists d, object_is ref d
         /\ (apply = true -> stored sw.2 (os_root s) ref d)
     | Err _ => True
     end
  /\ pend_post s digest apply r sw.

Lemma put_post_fail s w digest apply e w' :
  store_inv s w -> framed nothing w w' -> put_post s w digest apply (Err e) (s, w').
Proof. intros Hi Hf. split_and!; auto; [eapply store_inv_frame; eauto|]. by left. Qed.

(** The reuse of an object found on disk and verified. *)
Lemma wp_reuse format s w w0 ref digest apply :
  store_inv s w -> framed nothing w0 w -> SHA256 ref = digest ->
  wp (on_os (wrap format (store_Read (os_root s) ref)) ;;;
      on_store (remember digest ref true) ;;; ret (ref, true)) (s, w) (put_post s w0 digest apply).
Proof.
  intros Hi Hf Hr. rewrite wp_bind, wp_on_os, wp_wrap. eapply wp_mono; [apply wp_store_Read|].
  intros r w1 [Hs Hd]. assert (framed nothing w0 w1) as Hf1 by (eapply same_files_framed; eauto).
  assert (framed nothing w w1) as Hf2.
  { eapply same_files_framed; [apply framed_refl, Hi|done]. }
  pose proof (store_inv_frame _ _ _ Hi Hf2) as Hi1. destruct r as [d|e].
  2: { split_and!; auto. by left. }
  specialize (Hd d eq_refl). rewrite wp_bind, wp_on_store, wp_ret.
  assert (stored w1 (os_root s) ref d) as Hst by (eapply (stored_frame nothing); [apply avoids_nothing|apply Hf2|done]).
  destruct Hd as (c & _ & _ & Hobj).
  split_and!; simpl; [done| |done|done| |].
  - eapply store_inv_remember; eauto.
  - exists d. split; auto.
  - by left.
Qed.

Lemma temp_not_object root digest dir w : temporary_name w ".object-" ".tmp" :: dir <> object_path root digest.
Proof.
  intros H. unfold object_path in H. simpl in H. injection H as H _.
  unfold temporary_name in H. rewrite string_app_assoc in H.
  by apply string_app_suffix in H.
Qed.

(** The state in which the deferred removal of the temporary file runs. *)
Definition put_open (s : ObjectStore) (w : world) (tp p : path) (ref0 : ObjectRef) (c : bytes)
    (r : result (ObjectRef * bool)) (sw : store_state) : Prop :=
  (exists n d, temp_file w tp n d false sw.2 /\ put_post s w (SHA256 ref0) true r sw)
  \/ (exists n, published w tp p n c false sw.2 /\ r = Ok (ref0, false)
       /\ sw.1 = add_pending p (remember (SHA256 ref0) ref0 true s)).

Lemma put_open_temp s w tp p ref0 c e n d w' :
  store_inv s w -> temp_file w tp n d false w' -> put_open s w tp p ref0 c (Err e) (s, w').
Proof.
  intros Hi Ht. left. exists n, d. split; [done|]. split_and!; simpl; auto.
  - eapply store_inv_frame; [exact Hi|]. apply Ht.
  - apply Ht.
  - by left.
Qed.

(** After the deferred removal. *)
Lemma put_open_close s w tp p ref0 c d0 r sw :
  store_inv s w -> put_open s w tp p ref0 c r sw -> p = object_path (os_root s) (SHA256 ref0) ->
  (forall digest, tp <> object_path (os_root s) digest) ->
  w_names w !! p = None -> zstd_decode c = Ok d0 -> object_is ref0 d0 ->
  wp (on_os (os_Remove tp)) sw (fun _ sw' => put_post s w (SHA256 ref0) true r sw').
Proof.
  intros Hi Hopen Hp Hnot Hnone Hz Hobj. destruct sw as [s1 w1]. rewrite wp_on_os. simpl in *.
  unfold put_open in Hopen. simpl in Hopen.
  destruct Hopen as [(n & d & Ht & Hpost)|(n & Hpub & -> & ->)]; simpl in *.
  - destruct Hpost as (Hroot & Hi1 & Hf1 & Hr & Hpend). simpl in *.
    pose proof (keeps_Remove (fun q => q = tp) w1 tp eq_refl w1 (framed_refl _ _ (si_wf _ _ Hi1))) as Hk.
    pose proof (wp_Remove_temp _ _ _ _ _ _ Ht) as Hf2. unfold wp in *.
    assert (avoids_objects (os_root s) (fun q => q = tp)) as Hav.
    { intros digest Hd. by apply (Hnot digest). }
    split_and!; simpl; auto.
    + eapply store_inv_frame_avoids; [|exact Hi1|exact Hk]. by rewrite Hroot.
    + destruct r as [[ref reused]|]; [|done]. destruct Hr as [Hs (d' & Hd' & Hst)].
      split; [done|]. exists d'. split; [done|]. intros Ha.
      eapply stored_frame; [exact Hav|apply Hk|auto].
    + destruct Hpend as [Hpend|(Ha & Hb & [m Hm])]; [by left|right]. split_and!; [done..|].
      exists m. apply (fr_names _ _ _ (proj2 Hk)); [apply Hav|done].
  - assert (tp <> p) as Hne by (rewrite Hp; apply Hnot).
    eapply wp_mono; [exact (wp_Remove_published _ _ _ _ _ _ _ Hne Hpub)|]. intros r2 w2 Hpub2. simpl in Hpub2.
    pose proof (published_new _ _ _ _ _ _ _ Hpub2 Hnone) as Hf.
    assert (stored w2 (os_root s) ref0 d0) as Hst.
    { exists c. split; [|done]. rewrite <- Hp. by eapply published_data. }
    split_and!; simpl; eauto.
    + eapply store_inv_frame in Hf; [|exact Hi].
      destruct (store_inv_remember _ _ _ ref0 true d0 Hf eq_refl Hobj (fun _ => Hst)). by split.
    + right. cbv zeta. rewrite <- Hp. simpl. split_and!; [reflexivity..|]. by rewrite (pb_name _ _ _ _ _ _ _ Hpub2).
Qed.

Lemma put_post_trans s w w1 digest apply r sw :
  framed nothing w w1 -> put_post s w1 digest apply r sw -> put_post s w digest apply r sw.
Proof. intros Hf (Hr & Hi & Hf1 & Hres & Hp). split_and!; auto. by eapply framed_trans. Qed.

Lemma wp_put_file s w p ref d0 c :
  store_inv s w -> p = object_path (os_root s) (SHA256 ref) -> w_names w !! p = None ->
  zstd_decode c = Ok d0 -> object_is ref d0 ->
  wp (put_file sha256 zstd_decode p ref c) (s, w) (put_post s w (SHA256 ref) true).
Proof.
  intros Hi Hp Hnone Hz Hobj. unfold put_file. rewrite wp_bind, wp_on_os, wp_wrap.
  eapply wp_mono; [apply wp_MkdirAll, Hi|]. intros r1 w1 [Hf1 Hn1].
  destruct r1 as [_|e]; [|by apply put_post_fail].
  pose proof (store_inv_frame _ _ _ Hi Hf1) as Hi1. rewrite wp_bind, wp_on_os, wp_wrap.
  eapply wp_mono; [apply wp_CreateTemp, Hi1|]. intros [[f tp]|e] w2 Ht.
  2: { apply put_post_fail; auto. eapply framed_trans; eauto. }
  destruct Ht as (Ht & Hpos & Happ & Htp). rewrite wp_defer.
  apply (wp_mono _ _ (put_open s w1 tp p ref c)).
  2: { intros r sw Hopen. eapply wp_mono;
       [eapply put_open_close; [exact Hi1|exact Hopen|done| |by rewrite Hn1|done|done]|].
       - intros digest. rewrite Htp. apply temp_not_object.
       - intros r' sw'. by apply put_post_trans. }
  rewrite wp_bind, wp_on_os. eapply wp_mono; [eapply wp_write_file; [exact Ht|]|].
  { by split_and!. }
  intros [f2|e] w3 H3; [|destruct H3 as (d' & H3); by eapply put_open_temp].
  destruct H3 as [Ht3 _]. cbn [app] in Ht3. rewrite wp_bind, wp_on_os, wp_wrap.
  eapply wp_mono; [apply (wp_kept (temp_file w1 tp (f_ino f) c false)); [apply keeps_Close, _|done]|].
  intros [_|e] w4 Ht4; [|by eapply put_open_temp].
  rewrite wp_bind, wp_try, wp_on_os. eapply wp_mono; [apply wp_Rename_temp, Ht4|].
  intros [_|e] w5 H5.
  { rewrite wp_bind, wp_on_store, wp_bind, wp_on_store, wp_ret. right. by exists (f_ino f). }
  rewrite wp_bind, wp_try, wp_on_os.
  eapply wp_mono; [apply (wp_kept (temp_file w1 tp (f_ino f) c false)); [apply keeps_Stat, _|done]|].
  intros [info|e'] w6 Ht6; [|by eapply put_open_temp].
  rewrite wp_bind, wp_get. simpl fst.
  assert (store_inv s w6) as Hi6 by (eapply store_inv_frame; [exact Hi1|apply Ht6]).
  eapply wp_mono; [apply (wp_keeps (fun sw => temp_file w1 tp (f_ino f) c false sw.2));
    [|done|apply wp_reuse; [exact Hi6|apply Ht6|done]]|].
  { apply keeps_bind; [apply (keeps_on_os (temp_file w1 tp (f_ino f) c false))|by intros x [s' w']].
    apply keeps_wrap, keeps_store_Read, _. }
  intros r sw [Ht7 Hpost]. left. eauto.
Qed.

Lemma wp_Put data apply s w :
  store_inv s w -> wp (Put data apply) (s, w) (put_post s w (digest_of data) apply).
Proof.
  intros Hi. unfold Store.Put. rewrite wp_bind, wp_get. simpl fst.
  assert (framed nothing w w) as Hw by apply framed_refl, Hi.
  destruct (match os_objects s !! digest_of data with Some _ => _ | None => None end) as [ref|] eqn:Ec.
  { rewrite wp_ret. destruct (os_objects s !! digest_of data) as [co|] eqn:Eo; [|done].
    destruct (negb apply || co_persisted co) eqn:Ep; [|done]. simplify_eq.
    destruct (si_objects _ _ Hi _ _ Eo) as [Hs (d & Hd & Hst)]. split_and!; auto.
    { exists d. split; [done|]. intros ->. auto. }
    by left. }
  rewrite wp_bind, wp_try, wp_on_os. eapply wp_mono; [apply wp_Stat, Hi|].
  intros [info|e] w1 [Hs1 Hst]; assert (framed nothing w w1) as Hf1 by (eapply same_files_framed; eauto);
    assert (store_inv s w1) as Hi1 by (eapply store_inv_frame; eauto).
  { apply wp_reuse; auto. }
  destruct (negb (is_NotExist e)) eqn:Ene; [by apply put_post_fail|]. zbool.
  rewrite wp_bind, wp_lift. unfold compressObject.
  destruct (zstd_encode data) as [c|e'] eqn:Ez; [|by apply put_post_fail].
  rewrite wp_bind, wp_on_store.
  set (ref := {| SHA256 := digest_of data; RawBytes := zlen data; StoredBytes := zlen c |}).
  assert (object_is ref data) as Hobj by done.
  assert (store_inv (remember (digest_of data) ref false s) w1) as Hi2.
  { eapply store_inv_remember; eauto. done. }
  destruct apply; simpl.
  - assert (w_names w1 !! ObjectPath s (digest_of data) = None) as Hnone
      by (destruct Hs1 as (-> & _); auto).
    eapply wp_mono; [apply (wp_put_file (remember (digest_of data) ref false s) w1 _ ref data c); auto|].
    intros r sw Hp. apply (put_post_trans s w w1); [done|exact Hp].
  - rewrite wp_ret. split_and!; eauto; [by exists data|]. by left.
Qed.

End StoreLemmas.

(** ** Durability *)

Definition synced (w : world) (p : path) : Prop :=
  exists i, inode_of w p = Some i /\ i_synced i = true.

Lemma frame_synced w w' p : frame nothing w w' -> synced w p -> synced w' p.
Proof.
  intros Hf (i & Hi & Hs). unfold inode_of in Hi. destruct (w_names w !! p) as [n|] eqn:En; [|done].
  simpl in Hi. destruct (fr_inodes _ _ _ Hf _ _ Hi) as (i' & Hi' & _ & _ & Hk). exists i'. split; [|auto].
  unfold inode_of. rewrite (fr_names _ _ _ Hf p n); [done|intros []|done].
Qed.

Lemma wp_syncFile p w :
  world_wf w -> wp (syncFile p) w (fun r w' => framed nothing w w' /\ (is_ok r = true -> synced w' p)).
Proof.
  intros Hw. apply wp_keeps; [unfold syncFile, sync_file; keeps|by apply framed_refl|].
  unfold syncFile. rewrite wp_bind, wp_wrap. eapply wp_mono; [apply (wp_Open p)|].
  intros [f|e] w1 [Hs1 Hopen]; [|done]. destruct (Hopen f eq_refl) as (Hn & _ & _).
  rewrite wp_bind. unfold sync_file. rewrite wp_or_else, wp_wrap. apply wp_syscall; intros fs; [done|].
  unfold wp at 1. simpl. destruct (w_inodes w1 !! f_ino f) as [i|] eqn:Ei; simpl; [|done].
  rewrite wp_wrap. set (w2 := set_files _ _ _).
  assert (synced w2 p) as Hs2.
  { eexists. unfold inode_of. simpl. destruct Hs1 as (-> & _). rewrite Hn. simpl.
    rewrite lookup_insert_eq. split; [done|done]. }
  eapply wp_mono; [apply (wp_kept (fun w => synced w p)); [|exact Hs2]|done].
  apply keeps_Close. by intros w' fs' Hw'.
Qed.

Lemma wp_sync_jobs ctx l s w :
  world_wf w ->
  wp (sync_jobs ctx l) (s, w) (fun r sw =>
    sw.1 = s /\ framed nothing w sw.2 /\ (is_ok r = true -> Forall (synced sw.2) l)).
Proof.
  revert ctx w. induction l as [|p l IH]; intros ctx w Hw; cbn [sync_jobs].
  { rewrite wp_ret. split_and!; auto. by apply framed_refl. }
  rewrite wp_bind, wp_on_os. eapply wp_mono; [by apply wp_syncFile|].
  intros [[]|e] w1 [Hf Hs]; [|by split_and!]. destruct (ctx_Err ctx) as [[e|] ctx1]; [by split_and!|].
  eapply wp_mono; [apply IH, Hf|].
  intros r [s2 w2] (Heq & Hf2 & Hall). simpl in *. subst s2. split_and!; [done|eapply framed_trans; eauto|].
  intros Hr. constructor; [|auto]. eapply frame_synced; [apply Hf2|auto].
Qed.

Lemma wp_syncDirectory d w :
  world_wf w ->
  wp (syncDirectory d) w (fun r w' => framed nothing w w'
    /\ (is_ok r = true -> forall p, is_Some (w_names w' !! p) -> filepath_Dir p = d -> p ∈ w_durable w')).
Proof.
  intros Hw. unfold syncDirectory. apply wp_keeps; [keeps|by apply framed_refl|].
  rewrite wp_wrap. apply wp_syscall; intros fs; [done|]. unfold wp. simpl.
  case_decide as Hd; simpl; [|done]. intros _ p Hp Hdir.
  apply elem_of_union_r, elem_of_filter. split; [done|]. by apply elem_of_dom.
Qed.

Lemma wp_syncDirectories l s w :
  world_wf w ->
  wp (for_each (fun d => on_os (syncDirectory d)) l) (s, w) (fun r sw =>
    sw.1 = s /\ framed nothing w sw.2
    /\ (is_ok r = true -> forall p, is_Some (w_names w !! p) -> filepath_Dir p ∈ l -> p ∈ w_durable sw.2)).
Proof.
  revert w. induction l as [|d l IH]; intros w Hw; cbn [for_each].
  { rewrite wp_ret. split_and!; auto; [by apply framed_refl|]. intros _ p _ Hp. set_solver. }
  rewrite wp_bind, wp_on_os. eapply wp_mono; [by apply wp_syncDirectory|].
  intros [[]|e] w1 [Hf Hd]; [|by split_and!]. eapply wp_mono; [apply IH, Hf|].
  intros r [s2 w2] (Heq & Hf2 & Hall). simpl in *. subst s2. split_and!; [done|eapply framed_trans; eauto|].
  intros Hr p [n Hn] Hp. assert (w_names w1 !! p = Some n) as Hn1.
  { apply (fr_names _ _ _ (proj2 Hf)); [intros []|done]. }
  apply elem_of_cons in Hp as [Hp|Hp]; [|apply Hall; eauto].
  apply (fr_durable _ _ _ (proj2 Hf2)); [intros []|by eexists|]. apply Hd; eauto.
Qed.

(** ** Committing a temporary file: sync, close, rename, sync the directory *)

Lemma wp_commit_tail w0 tp p n d sy f a b c w :
  temp_file w0 tp n d sy w -> f_ino f = n ->
  wp (sync_file a f ;;; wrap b (file_Close f) ;;; wrap c (os_Rename tp p) ;;; syncDirectory (filepath_Dir p))
     w (commit_open w0 tp p d).
Proof.
  intros Ht Hf. rewrite wp_bind. eapply wp_mono; [by eapply wp_sync_file_temp|].
  intros [[]|e] w1 Ht1; [|left; eauto]. rewrite wp_bind, wp_wrap.
  eapply wp_mono; [apply (wp_kept (temp_file w0 tp n d true)); [apply keeps_Close, _|done]|].
  intros [[]|e] w2 Ht2; [|left; eauto using temp_unsynced]. rewrite wp_bind, wp_wrap.
  eapply wp_mono; [by apply wp_Rename_temp|].
  intros [[]|e] w3 Hp; [|left; eauto using temp_unsynced]. unfold syncDirectory. rewrite wp_wrap.
  eapply wp_mono; [by eapply wp_sync_dir_published|].
  intros [[]|e] w4 [Hp4 Hd]; [|right; eauto]. exists n. split; [done|]. by apply Hd.
Qed.

(** The bookkeeping of new objects. *)
Definition pending_inv (s : ObjectStore) (w : world) : Prop :=
  forall p, p ∈ os_pending s -> is_Some (w_names w !! p) /\ filepath_Dir p ∈ os_pendingDirs s.

Lemma wp_SyncPending ctx s w :
  world_wf w -> pending_inv s w ->
  wp (SyncPending ctx) (s, w) (fun r sw =>
    framed nothing w sw.2 /\ os_root sw.1 = os_root s /\ os_objects sw.1 = os_objects s
    /\ (is_ok r = true -> os_pending sw.1 = ∅ /\ forall p, p ∈ os_pending s -> durable sw.2 p)).
Proof.
  intros Hw Hp. unfold SyncPending. rewrite wp_bind, wp_get. simpl fst. case_decide as He.
  { rewrite wp_ret. split_and!; simpl; auto; [by apply framed_refl|]. intros _. split; [done|]. set_solver. }
  rewrite wp_bind. eapply wp_mono; [by apply wp_sync_jobs|].
  intros r1 [s1 w1] (Heq & Hf1 & Hs1). simpl in *. subst s1. destruct r1 as [ctx1|e]; [|by split_and!].
  specialize (Hs1 eq_refl). rewrite wp_bind, wp_lift. destruct (ctx_Err ctx1).1; simpl; [by split_and!|].
  rewrite wp_bind. eapply wp_mono; [apply wp_syncDirectories, Hf1|].
  intros r2 [s2 w2] (Heq & Hf2 & Hd2). simpl in *. subst s2.
  assert (framed nothing w w2) as Hfw2 by (eapply framed_trans; eauto).
  destruct r2 as [[]|e]; [|by split_and!]. specialize (Hd2 eq_refl).
  rewrite wp_bind, wp_on_os. eapply wp_mono; [apply wp_syncDirectory, Hf2|].
  intros r3 w3 [Hf3 _]. assert (framed nothing w w3) as Hfw3 by (eapply framed_trans; eauto).
  destruct r3 as [[]|e]; [|by split_and!]. rewrite wp_on_store. split_and!; simpl; auto.
  intros _. split; [done|]. intros p Hin. destruct (Hp p Hin) as [[n Hn] Hdir].
  assert (durable w2 p) as Hdur.
  { split.
    - apply Hd2; [|by apply elem_of_elements]. exists n. apply (fr_names _ _ _ (proj2 Hf1)); [intros []|done].
    - apply (frame_synced w1); [apply Hf2|]. rewrite Forall_forall in Hs1. by apply Hs1, elem_of_elements. }
  eapply frame_durable_file; [apply Hf3|intros []|done].
Qed.

Section StoreBatch.
Context (sha256 : bytes -> bytes) (zstd_encode zstd_decode : bytes -> result bytes).
Hypothesis zstd_roundtrip : forall d c, zstd_encode d = Ok c -> zstd_decode c = Ok d.
Local Abbreviation digest_of := (digest_of sha256).
Local Abbreviation store_Read := (store_Read sha256 zstd_decode).
Local Abbreviation Put := (Put sha256 zstd_encode zstd_decode).
Local Abbreviation store_inv := (store_inv sha256 zstd_decode).
Local Abbreviation stored := (stored sha256 zstd_decode).
Local Abbreviation put_post := (put_post sha256 zstd_decode).

Lemma store_Read_fine root ref d w :
  w_faults w = [] -> stored w root ref d ->
  exists w', store_Read root ref w = (Ok d, w') /\ w_faults w' = [] /\ same_files w w'.
Proof.
  intros Hf (c & Hc & Hz & Hobj). destruct (ReadFile_fine _ _ _ Hf Hc) as (w1 & Hr & Hf1 & Hs).
  unfold Store.store_Read, bind, wrap, lift. rewrite Hr. simpl. rewrite Hz. simpl.
  rewrite (check_object_complete _ _ _ Hobj). eauto.
Qed.

(** A batch of [Put] calls, stopped by the first error. *)
Fixpoint put_all (datas : list bytes) : Store (list (ObjectRef * bool)) :=
  match datas with
  | [] => ret []
  | data :: datas =>
      let* r := Put data true in
      let* rs := put_all datas in
      ret (r :: rs)
  end.

Lemma put_post_pending s w digest r sw :
  put_post s w digest true r sw -> pending_inv s w ->
  pending_inv sw.1 sw.2 /\ os_pending s ⊆ os_pending sw.1
  /\ (forall ref, r = Ok (ref, false) -> object_path (os_root s) (SHA256 ref) ∈ os_pending sw.1).
Proof.
  intros (Hroot & Hi & Hf & Hr & Hp) Hinv.
  assert (forall p, p ∈ os_pending s -> is_Some (w_names sw.2 !! p)) as Hold.
  { intros p [[n Hn] _]%Hinv. exists n. apply (fr_names _ _ _ (proj2 Hf)); [intros []|done]. }
  destruct Hp as [(E1 & E2 & Hnew)|(E1 & E2 & Hn)]; unfold pending_inv; rewrite E1, E2.
  - split_and!; [|done|by intros ref Hr'%(Hnew eq_refl)].
    intros p Hp. split; [auto|]. by apply Hinv.
  - split_and!; [|set_solver|].
    + intros p [->%elem_of_singleton|Hp]%elem_of_union; [set_solver|].
      split; [auto|]. apply elem_of_union_r. by apply Hinv.
    + intros ref ->. destruct Hr as [-> _]. set_solver.
Qed.

Lemma wp_put_all datas s w :
  store_inv s w -> pending_inv s w ->
  wp (put_all datas) (s, w) (fun r sw =>
    os_root sw.1 = os_root s /\ store_inv sw.1 sw.2 /\ framed nothing w sw.2 /\ pending_inv sw.1 sw.2
    /\ os_pending s ⊆ os_pending sw.1
    /\ forall rs, r = Ok rs ->
         Forall (fun '(ref, reused) => reused = false -> object_path (os_root s) (SHA256 ref) ∈ os_pending sw.1) rs
         /\ Forall2 (fun data '(ref, _) => SHA256 ref = digest_of data
                       /\ exists d, stored sw.2 (os_root s) ref d) datas rs).
Proof.
  revert s w. induction datas as [|data datas IH]; intros s w Hi Hp; cbn [put_all].
  { rewrite wp_ret. split_and!; auto; [apply framed_refl, Hi|]. intros rs [= <-]. by split. }
  rewrite wp_bind. eapply wp_mono; [by apply (wp_Put _ _ _ zstd_roundtrip)|].
  intros r [s1 w1] Hpost. destruct (put_post_pending _ _ _ _ _ Hpost Hp) as (Hp1 & Hsub & Hnew).
  destruct Hpost as (Hroot & Hi1 & Hf1 & Hres & _). simpl in *.
  destruct r as [[ref reused]|e]; [|by split_and!].
  rewrite wp_bind. eapply wp_mono; [by apply IH|].
  intros r2 [s2 w2] (Hroot2 & Hi2 & Hf2 & Hp2 & Hsub2 & Hall). simpl in *.
  assert (os_root s2 = os_root s) by congruence.
  assert (framed nothing w w2) by (eapply framed_trans; eauto).
  destruct r2 as [rs|e]; simpl; [|split_and!; auto; set_solver]. rewrite wp_ret.
  split_and!; simpl; auto; [set_solver|]. intros rs' [= <-].
  destruct (Hall rs eq_refl) as [Hpend Hst]. rewrite Hroot in *. split; constructor; auto.
  - intros ->. apply Hsub2, Hnew. done.
  - destruct Hres as [Hs (d & _ & Hd)]. split; [done|]. exists d.
    eapply (stored_frame _ _ nothing); [apply avoids_nothing|apply Hf2|auto].
Qed.
End StoreBatch.

Section StoreTheorems.
Context (sha256 : bytes -> bytes) (zstd_encode zstd_decode : bytes -> result bytes).
Hypothesis zstd_roundtrip : forall d c, zstd_encode d = Ok c -> zstd_decode c = Ok d.

(** C27. An object stored by [Put] can be read back: the reference names the
    digest of the data, reading it (when no system call fails) gives the data
    itself or exhibits a SHA-256 collision, and no file that existed before has
    changed, whatever failed on the way. *)
Theorem put_then_read data s w ref reused s' w' :
  store_inv sha256 zstd_decode s w ->
  Put sha256 zstd_encode zstd_decode data true (s, w) = (Ok (ref, reused), (s', w')) ->
  SHA256 ref = digest_of sha256 data
  /\ (forall p d, file_data w p = Some d -> file_data w' p = Some d)
  /\ (w_faults w' = [] -> exists d w'', store_Read sha256 zstd_decode (os_root s) ref w' = (Ok d, w'')
        /\ (d = data \/ (d <> data /\ sha256 d = sha256 data))).
Proof using zstd_roundtrip.
  intros Hi Hput. pose proof (wp_Put _ _ _ zstd_roundtrip data true s w Hi) as Hw.
  unfold wp in Hw. rewrite Hput in Hw. destruct Hw as (_ & _ & Hf & [Hs (d & Hd & Hst)] & _). simpl in *.
  split_and!; [done|intros p c Hc; by eapply frame_file_data; [apply Hf|intros []|]|].
  intros Hfaults. destruct (store_Read_fine _ _ _ _ _ _ Hfaults (Hst eq_refl)) as (w2 & Hr & _).
  exists d, w2. split; [done|]. destruct (decide (d = data)) as [|Hne]; [by left|right].
  split; [done|]. destruct Hd as [Hd _]. rewrite Hs in Hd. by apply hex_Encode_inj in Hd.
Qed.

End StoreTheorems.

(** ** Sample runs *)

Definition toy_encode (d : bytes) : result bytes := Ok (Byte.x01 :: d).
Definition toy_decode (c : bytes) : result bytes :=
  match c with
  | Byte.x01 :: d => Ok d
  | _ => Err (errors_new "invalid frame")
  end.
Definition toy_digest (d : bytes) : bytes := le_bytes 1 (le_val d).
Lemma toy_roundtrip d c : toy_encode d = Ok c -> toy_decode c = Ok d.
Proof. by intros [= <-]. Qed.

Definition empty_world : world :=
  {| w_names := ∅; w_inodes := ∅; w_dirs := ∅; w_durable := ∅; w_next := 0; w_clock := 0; w_faults := [];
     w_locked := ∅ |}.
Lemma empty_world_wf : world_wf empty_world.
Proof. split; simpl; [intros p n|intros n]; rewrite lookup_empty; [done|]. by intros [? ?]. Qed.
Lemma empty_store_inv sha zdec root : store_inv sha zdec (NewObjectStore root) empty_world.
Proof. split; [apply empty_world_wf|]. intros digest co. simpl. by rewrite lookup_empty. Qed.
Lemma empty_pending_inv root : pending_inv (NewObjectStore root) empty_world.
Proof. intros p. simpl. set_solver. Qed.

Definition sample_data : bytes := le_bytes 5 123456.
Definition sample_put : result (ObjectRef * bool) * store_state :=
  Put toy_digest toy_encode toy_decode sample_data true (NewObjectStore ["s"%string], empty_world).

Lemma put_then_read_witness :
  exists ref, sample_put.1 = Ok (ref, false) /\ SHA256 ref = digest_of toy_digest sample_data
    /\ exists d w, store_Read toy_digest toy_decode ["s"%string] ref sample_put.2.2 = (Ok d, w).
Proof.
  destruct (put_then_read toy_digest toy_encode toy_decode toy_roundtrip sample_data
    (NewObjectStore ["s"%string]) empty_world
    {| SHA256 := digest_of toy_digest sample_data; RawBytes := 5; StoredBytes := 6 |} false
    sample_put.2.1 sample_put.2.2 (empty_store_inv _ _ _)) as (Hs & _ & Hr).
  { vm_compute. reflexivity. }
  eexists. split; [vm_compute; reflexivity|]. split; [exact Hs|].
  destruct Hr as (d & w & Hd & _); [vm_compute; reflexivity|]. exists d, w. exact Hd.
Defined.

Definition sample_batch : result (list (ObjectRef * bool)) * store_state :=
  put_all toy_digest toy_encode toy_decode [sample_data; le_bytes 3 77]
    (NewObjectStore ["s"%string], empty_world).
Definition sample_sync : result unit * store_state := SyncPending None sample_batch.2.


