(* ===== verification/Walk.v ===== *)
(** Walking a directory tree: [path/filepath.WalkDir] as the store uses it, with
    callbacks that look only at regular files.

    A walk runs over a world together with what its callback collects.  The entries
    of a directory are read when the walk enters it, in the order of their names. *)
From Stdlib Require Import Ascii.
From S2P Require Import Prelude GoStd Effects ObjectReader Os Store.

Definition Walk (X A : Type) : Type := M (X * world) A.
Definition at_disk {X A} (m : OS A) : Walk X A := zoom snd (fun s w => (s.1, w)) m.
Definition note {X} (f : X -> X) : Walk X unit := modify (fun s => (f s.1, s.2)).
(** A walk from an empty collection, which its result is. *)
Definition collecting {X A} (x : X) (m : Walk X A) : OS (A * X) := fun w =>
  match m (x, w) with
  | (Ok a, (x, w)) => (Ok (a, x), w)
  | (Err e, (_, w)) => (Err e, w)
  end.

(** ** Names *)

(** [filepath.Ext]: from the last dot. *)
Fixpoint filepath_Ext (name : string) : string :=
  match name with
  | EmptyString => EmptyString
  | String c rest =>
      let e := filepath_Ext rest in
      if negb (String.eqb e "") then e else if Ascii.eqb c "."%char then name else EmptyString
  end.
Definition strings_TrimSuffix (s suffix : string) : string :=
  let n := (String.length s - String.length suffix)%nat in
  if String.eqb (String.substring n (String.length suffix) s) suffix then String.substring 0 n s else s.
Definition base_name (p : path) : string := hd EmptyString p.

(** ** The walk *)

Definition entry_le (a b : string * bool) : Prop := String.leb a.1 b.1 = true.
#[export] Instance entry_le_dec : RelDecision entry_le.
Proof. intros a b. unfold entry_le. apply _. Defined.

Definition child_of (dir p : path) : option string :=
  match p with
  | name :: d => if decide (d = dir) then Some name else None
  | [] => None
  end.
(** The entries of a directory: whether each is a directory itself. *)
Definition dir_entries (w : world) (dir : path) : list (string * bool) :=
  merge_sort entry_le
    (map (fun name => (name, false)) (omap (child_of dir) (elements (dom (w_names w))))
     ++ map (fun name => (name, true)) (omap (child_of dir) (elements (w_dirs w)))).
Definition os_ReadDirEntries (dir : path) : OS (list (string * bool)) := syscall (fun w =>
  if decide (dir ∈ w_dirs w) then (Ok (dir_entries w dir), w) else (Err (errorf "%s" os_ErrNotExist), w)).

Definition walk_exhausted : error := Sentinel "walk out of fuel".
Fixpoint walk_dir {X} (fuel : nat) (visit : path -> Walk X unit) (dir : path) : Walk X unit :=
  match fuel with
  | O => fail walk_exhausted
  | S fuel =>
      let* entries := at_disk (os_ReadDirEntries dir) in
      for_each (fun e : string * bool =>
        if e.2 then walk_dir fuel visit (e.1 :: dir) else visit (e.1 :: dir)) entries
  end.

(** No directory is deeper than this. *)
Definition depth (w : world) : nat := max_list (length <$> elements (w_dirs w)).

Definition os_WalkDir {X} (root : path) (visit : path -> Walk X unit) : Walk X unit :=
  let* info := at_disk (os_Stat root) in
  if fi_regular info then visit root
  else
    let* s := get in
    walk_dir (S (depth s.2)) visit root.

(** ** Rules *)

Lemma wp_at_disk {X A} (m : OS A) (x : X) w Q : wp (at_disk m) (x, w) Q <-> wp m w (fun r w' => Q r (x, w')).
Proof. unfold at_disk. by rewrite wp_zoom. Qed.
Lemma wp_note {X} f (x : X) w Q : wp (note f) (x, w) Q <-> Q (Ok tt) (f x, w).
Proof. done. Qed.
Lemma wp_collecting {X A} (x : X) (m : Walk X A) w Q :
  wp m (x, w) (fun r s => Q (match r with Ok a => Ok (a, s.1) | Err e => Err e end) s.2) -> wp (collecting x m) w Q.
Proof. unfold wp, collecting. by destruct (m (x, w)) as [[a|e] [x' w']]. Qed.

Lemma keeps_at_disk {X A} (J : world -> Prop) (m : OS A) : keeps J m -> keeps (fun s : X * world => J s.2) (at_disk m).
Proof. intros Hm [x w] Hw. unfold at_disk, zoom. cbn. specialize (Hm w Hw). by destruct (m w). Qed.
Lemma keeps_note {X} (J : world -> Prop) (f : X -> X) : keeps (fun s => J s.2) (note f).
Proof. by intros [x w]. Qed.
Lemma keeps_collecting {X A} (J : world -> Prop) (x : X) (m : Walk X A) : keeps (fun s => J s.2) m -> keeps J (collecting x m).
Proof. intros Hm w Hw. specialize (Hm (x, w) Hw). unfold collecting. by destruct (m (x, w)) as [[a|e] [x' w']]. Qed.
#[export] Hint Resolve keeps_at_disk keeps_note keeps_collecting : keeps.

Lemma keeps_for_each {S A} (J : S -> Prop) (f : A -> M S unit) l : (forall a, keeps J (f a)) -> keeps J (for_each f l).
Proof. intros Hf. induction l as [|a l IH]; cbn [for_each]; keeps; auto. Qed.

Section WalkRules.
Context {X : Type} (visit : path -> Walk X unit).

Lemma keeps_ReadDirEntries J `{TickStable J} dir : keeps J (os_ReadDirEntries dir).
Proof. apply keeps_pure; [apply _|]. intros w. by case_decide. Qed.

Lemma keeps_walk_dir J `{TickStable J} fuel : forall dir,
  (forall q, keeps (fun s => J s.2) (visit q)) -> keeps (fun s => J s.2) (walk_dir fuel visit dir).
Proof.
  induction fuel as [|fuel IH]; intros dir Hv; cbn [walk_dir]; keeps.
  - apply keeps_at_disk, keeps_ReadDirEntries, _.
  - apply keeps_for_each. intros [name []]; cbn; auto.
Qed.
Lemma keeps_WalkDir J `{TickStable J} root :
  (forall q, keeps (fun s => J s.2) (visit q)) -> keeps (fun s => J s.2) (os_WalkDir root visit).
Proof.
  intros Hv. unfold os_WalkDir. keeps. by apply keeps_walk_dir.
Qed.
End WalkRules.
#[export] Hint Resolve keeps_ReadDirEntries : keeps.

(** ** A walk misses nothing *)

Lemma dir_entries_file w dir name : is_Some (w_names w !! (name :: dir)) -> (name, false) ∈ dir_entries w dir.
Proof.
  intros Hn. unfold dir_entries. rewrite merge_sort_Permutation, elem_of_app. left.
  apply list_elem_of_fmap. exists name. split; [done|]. apply list_elem_of_omap. exists (name :: dir).
  split; [by apply elem_of_elements, elem_of_dom|]. cbn. by rewrite decide_True.
Qed.
Lemma dir_entries_dir w dir name b : (name, b) ∈ dir_entries w dir ->
  b = true /\ name :: dir ∈ w_dirs w \/ b = false /\ is_Some (w_names w !! (name :: dir)).
Proof.
  unfold dir_entries. rewrite merge_sort_Permutation, elem_of_app.
  intros [(y & [= -> ->] & (p & Hp & Hc)%list_elem_of_omap)%list_elem_of_fmap|(y & [= -> ->] & (p & Hp & Hc)%list_elem_of_omap)%list_elem_of_fmap];
    apply elem_of_elements in Hp; (destruct p as [|x d]; [done|]); cbn in Hc; case_decide; [|done| |done]; subst d; injection Hc as ->.
  - right. split; [done|]. by apply elem_of_dom.
  - left. done.
Qed.
Lemma dir_entries_subdir w dir name : name :: dir ∈ w_dirs w -> (name, true) ∈ dir_entries w dir.
Proof.
  intros Hn. unfold dir_entries. rewrite merge_sort_Permutation, elem_of_app. right.
  apply list_elem_of_fmap. exists name. split; [done|]. apply list_elem_of_omap. exists (name :: dir).
  split; [by apply elem_of_elements|]. cbn. by rewrite decide_True.
Qed.

Lemma dir_depth w p : p ∈ w_dirs w -> (length p <= depth w)%nat.
Proof. intros Hp. apply max_list_elem_of_le, list_elem_of_fmap. exists p. split; [done|]. by apply elem_of_elements. Qed.

(** The regular file [p] can be reached from a directory. *)
Inductive reach (w : world) : path -> path -> Prop :=
| reach_file dir name : dir ∈ w_dirs w -> is_Some (w_names w !! (name :: dir)) -> reach w dir (name :: dir)
| reach_dir dir name p : dir ∈ w_dirs w -> reach w (name :: dir) p -> reach w dir p.

Lemma reach_start w dir p : reach w dir p -> dir ∈ w_dirs w.
Proof. by destruct 1. Qed.
Lemma reach_same w w' dir p : w_dirs w ⊆ w_dirs w' -> (is_Some (w_names w !! p) -> is_Some (w_names w' !! p)) ->
  reach w dir p -> reach w' dir p.
Proof. intros Hd Hn. induction 1; [apply reach_file; auto|eapply reach_dir; eauto]. Qed.

Lemma for_each_covers {S A} (f : A -> M S unit) (I Q : S -> Prop) a l : a ∈ l ->
  (forall b, keeps I (f b)) -> (forall b, b ∈ l -> keeps (fun s => I s /\ Q s) (f b)) ->
  (forall s, I s -> wp (f a) s (fun r s' => r = Ok tt -> Q s')) ->
  forall s, I s -> wp (for_each f l) s (fun r s' => r = Ok tt -> Q s').
Proof.
  intros Ha HI HQ Hf. induction Ha as [a l|a b l Hin IH]; intros s Hs; cbn [for_each]; rewrite wp_bind.
  - eapply wp_mono; [apply wp_conj; [by apply Hf|by apply (wp_kept I)]|]. cbn beta. intros [[]|e] s' [H1 H2]; [|done].
    eapply wp_mono; [apply (wp_kept (fun s => I s /\ Q s)); [|split; auto]|].
    + clear - HQ. assert (forall b, b ∈ l -> keeps (fun s => I s /\ Q s) (f b)) as Hl by (intros b Hb; apply HQ; set_solver). clear HQ.
      induction l as [|b l IH]; cbn [for_each]; [keeps|].
      apply keeps_bind; [apply Hl; by left|]. intros _. apply IH. intros c Hc. apply Hl. by right.
    + by intros r s2 [_ ?].
  - eapply wp_mono; [by apply (wp_kept I)|]. intros [[]|e] s' Hs'; [|done]. apply IH; [|done..]. intros c Hc. apply HQ. set_solver.
Qed.
Lemma for_each_errors {S A} (f : A -> M S unit) (I : S -> Prop) (E : error -> Prop) l :
  (forall b, keeps I (f b)) -> (forall b s, b ∈ l -> I s -> wp (f b) s (fun r _ => forall e, r = Err e -> E e)) ->
  forall s, I s -> wp (for_each f l) s (fun r _ => forall e, r = Err e -> E e).
Proof.
  intros HI. induction l as [|b l IH]; intros HE s Hs; cbn [for_each]; [done|]. rewrite wp_bind.
  eapply wp_mono; [apply wp_conj; [apply HE; [by left|done]|by apply (wp_kept I)]|]. cbn beta. intros [[]|e] s' [H1 H2].
  - apply IH; [|done]. intros c t Hc. apply HE. by right.
  - intros e' [= <-]. by apply H1.
Qed.

Section Covers.
Context {X : Type} (visit : path -> Walk X unit) (w0 : world) (Q : X -> Prop) (p : path).
Hypothesis visit_reads : forall q, keeps (fun s => same_files w0 s.2) (visit q).
Hypothesis visit_keeps : forall q, keeps (fun s => same_files w0 s.2 /\ Q s.1) (visit q).
Hypothesis visit_covers : forall x w, same_files w0 w -> wp (visit p) (x, w) (fun r s => r = Ok tt -> Q s.1).
Hypothesis visit_errors : forall q x w, same_files w0 w -> is_Some (w_names w0 !! q) ->
  wp (visit q) (x, w) (fun r _ => forall e, r = Err e -> is_NotExist e = false).

Lemma keeps_found {A} (m : OS A) : keeps (same_files w0) m -> keeps (fun s => same_files w0 s.2 /\ Q s.1) (at_disk m).
Proof. intros Hm [x w] [Hw HQ]. unfold at_disk, zoom. cbn in *. specialize (Hm w Hw). by destruct (m w). Qed.
Lemma keeps_walk_found fuel : forall dir, keeps (fun s => same_files w0 s.2 /\ Q s.1) (walk_dir fuel visit dir).
Proof.
  induction fuel as [|fuel IH]; intros dir; cbn [walk_dir]; keeps.
  - apply keeps_found, keeps_ReadDirEntries, _.
  - apply keeps_for_each. intros [name []]; cbn; auto.
Qed.

Lemma wp_ReadDirEntries dir w Q' : same_files w0 w -> dir ∈ w_dirs w0 ->
  (forall w' r, same_files w0 w' -> (r = Ok (dir_entries w0 dir) \/ r = Err os_ErrIO) -> Q' r w') -> wp (os_ReadDirEntries dir) w Q'.
Proof.
  intros Hs Hd HQ. apply wp_syscall; intros fs; [apply HQ; [by apply (tick_stable (P := same_files w0))|by right]|].
  assert (same_files w0 (tick w fs)) as Hs' by (by apply (tick_stable (P := same_files w0))).
  pose proof Hs' as (En & _ & Ed & _). unfold wp. rewrite decide_True by (by rewrite Ed). cbn. apply HQ; [done|]. left.
  unfold dir_entries. cbn in *. by rewrite En, Ed.
Qed.

Lemma walk_dir_covers fuel : forall dir x w, reach w0 dir p -> same_files w0 w ->
  wp (walk_dir fuel visit dir) (x, w) (fun r s => r = Ok tt -> Q s.1).
Proof.
  induction fuel as [|fuel IH]; intros dir x w Hr Hs; cbn [walk_dir]; [done|]. rewrite wp_bind, wp_at_disk.
  pose proof (reach_start _ _ _ Hr) as Hd. apply wp_ReadDirEntries; [done..|]. intros w1 r Hs1 [->| ->]; [|done].
  assert (forall b : string * bool, keeps (fun s => same_files w0 s.2 /\ Q s.1)
    (if b.2 then walk_dir fuel visit (b.1 :: dir) else visit (b.1 :: dir))) as Hk.
  { intros [name []]; cbn; [apply keeps_walk_found|apply visit_keeps]. }
  assert (forall b : string * bool, keeps (fun s => same_files w0 s.2)
    (if b.2 then walk_dir fuel visit (b.1 :: dir) else visit (b.1 :: dir))) as Hk'.
  { intros [name []]; cbn; [apply keeps_walk_dir; [apply _|done]|apply visit_reads]. }
  destruct Hr as [dir name _ Hn|dir name p _ Hr].
  - apply (for_each_covers _ (fun s => same_files w0 s.2) (fun s => Q s.1) (name, false)); auto; [by apply dir_entries_file|].
    intros [x' w'] Hw'. by apply visit_covers.
  - apply (for_each_covers _ (fun s => same_files w0 s.2) (fun s => Q s.1) (name, true)); auto.
    + apply dir_entries_subdir. by eapply reach_start.
    + intros [x' w'] Hw'. by apply IH.
Qed.

Lemma walk_dir_errors fuel : forall dir x w, dir ∈ w_dirs w0 -> same_files w0 w ->
  wp (walk_dir fuel visit dir) (x, w) (fun r _ => forall e, r = Err e -> is_NotExist e = false).
Proof.
  induction fuel as [|fuel IH]; intros dir x w Hd Hs; cbn [walk_dir]; [by intros e [= <-]|]. rewrite wp_bind, wp_at_disk.
  apply wp_ReadDirEntries; [done..|]. intros w1 r Hs1 [->| ->]; [|by intros e [= <-]].
  apply (for_each_errors _ (fun s => same_files w0 s.2)); [..|done].
  - intros [name []]; cbn; [apply keeps_walk_dir; [apply _|done]|apply visit_reads].
  - intros [name b] [x' w'] [[-> Hb]|[-> Hb]]%dir_entries_dir Hw'; cbn; [by apply IH|by apply visit_errors].
Qed.

(** Over an unchanged tree a successful walk has visited every file in it, and a
    failed one did not fail because something is missing. *)
Lemma wp_WalkDir root x w : reach w0 root p -> w_names w0 !! root = None -> same_files w0 w ->
  wp (os_WalkDir root visit) (x, w) (fun r s => same_files w0 s.2
    /\ match r with Ok _ => Q s.1 | Err e => is_NotExist e = false end).
Proof.
  intros Hr Hn Hs. pose proof (reach_start _ _ _ Hr) as Hd.
  eapply wp_mono; [apply wp_conj; [apply (wp_kept (fun s => same_files w0 s.2)); [by apply keeps_WalkDir; [apply _|]|done]|]|].
  2: { intros r s [H1 H2]. split; [exact H1|]. exact (H2 : match r with Ok _ => Q s.1 | Err e => is_NotExist e = false end). }
  unfold os_WalkDir. rewrite wp_bind, wp_at_disk. apply wp_syscall; intros fs; [done|].
  assert (same_files w0 (tick w fs)) as Hs' by (by apply (tick_stable (P := same_files w0))).
  pose proof Hs' as (En & _ & Ed & _). unfold wp at 1. rewrite En, Hn. rewrite decide_True by (by rewrite Ed). cbn [fst snd fi_regular].
  rewrite wp_bind, wp_get. eapply wp_mono; [apply wp_conj; [by apply walk_dir_covers|by apply walk_dir_errors]|].
  intros [[]|e] s [H1 H2]; auto.
Qed.
End Covers.
