(* ===== verification/Fold.v ===== *)
(** Folding a session file into content-addressed parts and restoring it:
    [src/internal/fold/fold.go] and [unfold.go], with [writeManifestPath] and
    [LoadManifestPath] of [manifest.go].

    [Fold] cuts the source into lines, moves large JSON strings (and duplicated
    records) into parts of their own, chunks the rest, stores every part, and
    commits a manifest after checking that the source has not changed and that
    the stored parts reproduce it.  [Unfold] writes the parts back.

    Arguments of the model: SHA-256, zstd, the JSON codec of manifests, the
    duplicate-record index, an existing object reader (a pack), the storage
    budget, the operation lock and the commit hook.  The accounting field of the
    results is left out. *)
From S2P Require Import Prelude GoStd Effects Os Bufio ObjectReader Manifest Cdc JsonRaw Budget Store.

(** ** Options and results *)

(** [fold.ObjectReader] as folding uses it: a lookup and a verified stream. *)
Record FoldReader := {
  fr_HasObject : ObjectRef -> bool;
  fr_OpenObject : ObjectRef -> result bytes;
}.

Record FoldOptions := {
  fo_Opaque : bool;
  fo_StoreDir : path;
  fo_ManifestPathOverride : option path;
  fo_Apply : bool;
  fo_Overwrite : bool;
  fo_RemoveSource : bool;
  fo_AllowActive : bool;
  fo_FieldThreshold : Z;
  fo_MaxJSONLineBytes : Z;
  fo_CDC : CdcOptions;
  fo_Budget : Checker;
  fo_ExistingReader : option FoldReader;
  fo_RecordIndex : option (bytes -> Z -> result bool);
  fo_RecordThreshold : Z;
  fo_beforeCommit : option (OS unit);
}.

Record Session := {
  fse_ID : string;
  fse_Title : string;
  fse_CWD : string;
  fse_RolloutPath : path;
  fse_Archived : bool;
}.

(** The counters of [FoldResult] that the scan updates. *)
Record FoldCounts := {
  fc_SourceBytes : Z;
  fc_FieldParts : Z;
  fc_ResidualParts : Z;
  fc_RecordParts : Z;
  fc_UniqueObjects : Z;
  fc_ReusedObjects : Z;
  fc_NewStoredBytes : Z;
  fc_OversizedLines : Z;
  fc_InvalidJSONLines : Z;
}.
Definition no_counts : FoldCounts := Build_FoldCounts 0 0 0 0 0 0 0 0 0.

Record FoldResult := {
  fres_SessionID : string;
  fres_ManifestPath : path;
  fres_SourceSHA256 : string;
  fres_PartCount : Z;
  fres_counts : FoldCounts;
  fres_Verified : bool;
  fres_DryRun : bool;
  fres_RemovedSource : bool;
}.

(** ** The state of a fold in progress *)

Record fold_state := {
  fs_store : store_state;
  fs_parts : list Part;
  fs_counts : FoldCounts;
  (** the bytes fed to [sourceHash] and to [reconstructionHash] *)
  fs_source : bytes;
  fs_recon : bytes;
}.

Definition count_part (kind : string) (reused : bool) (stored : Z) (c : FoldCounts) : FoldCounts :=
  let field := string_is kind PartField in
  let record := string_is kind PartRecord in
  {| fc_SourceBytes := fc_SourceBytes c;
     fc_FieldParts := fc_FieldParts c + (if field then 1 else 0);
     fc_ResidualParts := fc_ResidualParts c + (if field || record then 0 else 1);
     fc_RecordParts := fc_RecordParts c + (if negb field && record then 1 else 0);
     fc_UniqueObjects := fc_UniqueObjects c + (if reused then 0 else 1);
     fc_ReusedObjects := fc_ReusedObjects c + (if reused then 1 else 0);
     fc_NewStoredBytes := fc_NewStoredBytes c + (if reused then 0 else stored);
     fc_OversizedLines := fc_OversizedLines c;
     fc_InvalidJSONLines := fc_InvalidJSONLines c |}.
Definition count_source (n : Z) (c : FoldCounts) : FoldCounts :=
  {| fc_SourceBytes := fc_SourceBytes c + n; fc_FieldParts := fc_FieldParts c;
     fc_ResidualParts := fc_ResidualParts c; fc_RecordParts := fc_RecordParts c;
     fc_UniqueObjects := fc_UniqueObjects c; fc_ReusedObjects := fc_ReusedObjects c;
     fc_NewStoredBytes := fc_NewStoredBytes c; fc_OversizedLines := fc_OversizedLines c;
     fc_InvalidJSONLines := fc_InvalidJSONLines c |}.
Definition count_oversized (c : FoldCounts) : FoldCounts :=
  {| fc_SourceBytes := fc_SourceBytes c; fc_FieldParts := fc_FieldParts c;
     fc_ResidualParts := fc_ResidualParts c; fc_RecordParts := fc_RecordParts c;
     fc_UniqueObjects := fc_UniqueObjects c; fc_ReusedObjects := fc_ReusedObjects c;
     fc_NewStoredBytes := fc_NewStoredBytes c; fc_OversizedLines := fc_OversizedLines c + 1;
     fc_InvalidJSONLines := fc_InvalidJSONLines c |}.
Definition count_invalid (c : FoldCounts) : FoldCounts :=
  {| fc_SourceBytes := fc_SourceBytes c; fc_FieldParts := fc_FieldParts c;
     fc_ResidualParts := fc_ResidualParts c; fc_RecordParts := fc_RecordParts c;
     fc_UniqueObjects := fc_UniqueObjects c; fc_ReusedObjects := fc_ReusedObjects c;
     fc_NewStoredBytes := fc_NewStoredBytes c; fc_OversizedLines := fc_OversizedLines c;
     fc_InvalidJSONLines := fc_InvalidJSONLines c + 1 |}.

Definition on_fold_store {A} : Store A -> M fold_state A :=
  zoom fs_store (fun s st => {| fs_store := st; fs_parts := fs_parts s; fs_counts := fs_counts s;
                                fs_source := fs_source s; fs_recon := fs_recon s |}).
Definition set_counts (f : FoldCounts -> FoldCounts) : M fold_state unit :=
  modify (fun s => {| fs_store := fs_store s; fs_parts := fs_parts s; fs_counts := f (fs_counts s);
                      fs_source := fs_source s; fs_recon := fs_recon s |}).
(** [sourceHash.Write(fragment); result.SourceBytes += len(fragment)] *)
Definition note_source (fragment : bytes) : M fold_state unit :=
  modify (fun s => {| fs_store := fs_store s; fs_parts := fs_parts s;
                      fs_counts := count_source (zlen fragment) (fs_counts s);
                      fs_source := fs_source s ++ fragment; fs_recon := fs_recon s |}).

(** The chunker and the fold it emits into. *)
Definition Scan (A : Type) : Type := M (Chunker * fold_state) A.
Definition on_fold {A} (m : M fold_state A) : Scan A := zoom snd (fun s f => (s.1, f)) m.

Definition err_result (e : option error) : result unit :=
  match e with Some e => Err e | None => Ok tt end.

Record plannedPart := { pp_kind : string; pp_path : string; pp_data : bytes }.

Definition estimateFoldStorageBytes (rawBytes : Z) : result Z :=
  if rawBytes <? 0 then Err (errors_new "fold byte estimate cannot be negative")
  else
    let overhead := rawBytes / 16 + 2 ^ 20 in
    if rawBytes >? i64 (max_int64 - overhead) then Err (errors_new "fold byte estimate overflow")
    else Ok (i64 (rawBytes + overhead)).

Section Fold.
Variable sha256 : bytes -> bytes.
Variable zstd_encode zstd_decode : bytes -> result bytes.
Variable json_MarshalIndent : Manifest -> result bytes.
Variable json_Unmarshal : bytes -> result Manifest.
Local Abbreviation digest_of := (digest_of sha256).

(** ** Storing parts *)

Section Options.
Variable options : FoldOptions.

Definition existing_has (ref : ObjectRef) : bool :=
  match fo_ExistingReader options with Some r => fr_HasObject r ref | None => false end.

Definition appendPart (kind path : string) (data : bytes) : M fold_state unit :=
  if zlen data =? 0 then ret tt
  else
    let ref := {| SHA256 := digest_of data; RawBytes := zlen data; StoredBytes := 0 |} in
    let* (ref, reused) :=
      (if existing_has ref then ret (ref, true)
       else on_fold_store (Put sha256 zstd_encode zstd_decode data (fo_Apply options))) in
    modify (fun s => {|
      fs_store := fs_store s;
      fs_parts := fs_parts s ++ [{| p_Kind := kind; p_JSONPath := path; p_Object := ref |}];
      fs_counts := count_part kind reused (StoredBytes ref) (fs_counts s);
      fs_source := fs_source s;
      fs_recon := fs_recon s ++ data |}).

(** The callback of the residual chunker. *)
Definition emit_residual (s : fold_state) (chunk : Chunk) : fold_state * option error :=
  match appendPart PartResidual "" (Data chunk) s with
  | (Ok _, s) => (s, None)
  | (Err e, s) => (s, Some e)
  end.

Definition write_residual (data : bytes) : Scan unit := fun '(c, s) =>
  let '(c, s, err) := chunker_Write sha256 emit_residual c s data in (err_result err, (c, s)).
Definition flushResidual : Scan unit := fun '(c, s) =>
  let '(c, s, err) := chunker_Finish sha256 emit_residual c s in (err_result err, (c, s)).

(** [store.HasObject(ref) || ExistingReader.HasObject(ref)] *)
Definition is_stored (ref : ObjectRef) : M fold_state bool :=
  let* s := get in
  let* loose := on_fold_store (on_os (store_HasObject (os_root (fs_store s).1) ref)) in
  ret (loose || existing_has ref).

Fixpoint planned_cost (parts : list plannedPart) (total : Z) : M fold_state Z :=
  match parts with
  | [] => ret total
  | part :: parts =>
      let* (ref, _) := on_fold_store (Put sha256 zstd_encode zstd_decode (pp_data part) false) in
      let* reused := is_stored ref in
      if reused then planned_cost parts total
      else if total >? i64 (max_int64 - StoredBytes ref) then
        fail (errors_new "record component storage estimate overflow")
      else planned_cost parts (i64 (total + StoredBytes ref))
  end.
Definition plannedStorageCost (parts : list plannedPart) : M fold_state Z := planned_cost parts 0.

(** [planRecordComponents]: the parts a line would be split into. *)
Definition plan_emit (parts : list plannedPart) (chunk : Chunk) : list plannedPart * option error :=
  (parts ++ [{| pp_kind := PartResidual; pp_path := ""; pp_data := Data chunk |}], None).

Definition plan_write (c : Chunker) (parts : list plannedPart) (data : bytes)
  : result (Chunker * list plannedPart) :=
  let '(c, parts, err) := chunker_Write sha256 plan_emit c parts data in
  match err with Some e => Err e | None => Ok (c, parts) end.
Definition plan_finish (c : Chunker) (parts : list plannedPart) : result (Chunker * list plannedPart) :=
  let '(c, parts, err) := chunker_Finish sha256 plan_emit c parts in
  match err with Some e => Err e | None => Ok (c, parts) end.

Fixpoint plan_spans (line : bytes) (cursor : Z) (spans : list StringSpan) (c : Chunker)
    (parts : list plannedPart) : result (Z * Chunker * list plannedPart) :=
  match spans with
  | [] => Ok (cursor, c, parts)
  | span :: spans =>
      match plan_write c parts (slice cursor (sp_Start span) line) with
      | Err e => Err e
      | Ok (c, parts) =>
          match plan_finish c parts with
          | Err e => Err e
          | Ok (c, parts) =>
              let parts := parts ++ [{| pp_kind := PartField; pp_path := sp_Path span;
                                        pp_data := slice (sp_Start span) (sp_End span) line |}] in
              plan_spans line (sp_End span) spans c parts
          end
      end
  end.

Definition planRecordComponents (line : bytes) : result (list plannedPart) :=
  match chunker_New (fo_CDC options) true with
  | Err e => Err e
  | Ok c =>
      let finish out := match out with
        | Err e => Err e
        | Ok (c, parts) => match plan_finish c parts with Err e => Err e | Ok (_, parts) => Ok parts end
        end in
      match FindStringSpans line (fo_FieldThreshold options) with
      | Err _ => finish (plan_write c [] line)
      | Ok spans =>
          match plan_spans line 0 spans c [] with
          | Err e => Err e
          | Ok (cursor, c, parts) => finish (plan_write c parts (slice cursor (zlen line) line))
          end
      end
  end.

(** ** Splitting a line *)

Fixpoint fold_spans (line : bytes) (cursor : Z) (spans : list StringSpan) : Scan unit :=
  match spans with
  | [] => write_residual (slice cursor (zlen line) line)
  | span :: spans =>
      write_residual (slice cursor (sp_Start span) line) ;;;
      flushResidual ;;;
      on_fold (appendPart PartField (sp_Path span) (slice (sp_Start span) (sp_End span) line)) ;;;
      fold_spans line (sp_End span) spans
  end.

(** Whether a duplicated record is worth a part of its own. *)
Definition promote_record (line : bytes) : M fold_state bool :=
  let* components := lift (planRecordComponents line) in
  let* componentCost := plannedStorageCost components in
  let* (recordRef, _) := on_fold_store (Put sha256 zstd_encode zstd_decode line false) in
  let* recordReused := is_stored recordRef in
  let recordCost := if recordReused then 0 else StoredBytes recordRef in
  ret ((zlen components >? 1)
       && (recordReused || ((componentCost >? 0) && (recordCost <=? Z.quot componentCost 2)))).

Definition record_promoted (line : bytes) : M fold_state bool :=
  match fo_RecordIndex options with
  | Some isDuplicate =>
      if zlen line >=? fo_RecordThreshold options then
        let* duplicate := lift (isDuplicate (sha256 line) (zlen line)) in
        if duplicate then promote_record line else ret false
      else ret false
  | None => ret false
  end.

Definition processLine (line : bytes) : Scan unit :=
  let* promoted := on_fold (record_promoted line) in
  if promoted then
    flushResidual ;;; on_fold (appendPart PartRecord "" line)
  else
    match FindStringSpans line (fo_FieldThreshold options) with
    | Err _ => on_fold (set_counts count_invalid) ;;; write_residual line
    | Ok spans => fold_spans line 0 spans
    end.

(** ** Reading the source *)

(** One [ReadSlice] on the source. *)
Definition read_fragment (rest : bytes) : Scan (bytes * slice_end * bytes) :=
  on_fold (on_fold_store (on_os (next_slice rest))).

(** What happens to a fragment: the new line buffer and the oversized flag. *)
Definition take_fragment (fragment line : bytes) (oversized : bool) : Scan (bytes * bool) :=
  if zlen fragment =? 0 then ret (line, oversized)
  else
    on_fold (note_source fragment) ;;;
    if oversized then write_residual fragment ;;; ret (line, oversized)
    else if zlen line + zlen fragment >? fo_MaxJSONLineBytes options then
      on_fold (set_counts count_oversized) ;;;
      write_residual line ;;;
      write_residual fragment ;;;
      ret ([], true)
    else ret (line ++ fragment, oversized).

Fixpoint fold_loop (fuel : nat) (ctx : Ctx) (rest line : bytes) (oversized : bool) : Scan unit :=
  match fuel with
  | O => fail (Sentinel "fuel exhausted")
  | S fuel =>
      let '(err, ctx) := ctx_Err ctx in
      match err with
      | Some e => fail e
      | None =>
          let* (fragment, how, rest) := read_fragment rest in
          let* (line, oversized) := take_fragment fragment line oversized in
          match how with
          | Delim =>
              (if oversized then ret tt else processLine line) ;;;
              fold_loop fuel ctx rest [] (fo_Opaque options)
          | BufferFull => fold_loop fuel ctx rest line oversized
          | AtEOF =>
              (if negb oversized && (zlen line >? 0) then processLine line else ret tt) ;;;
              flushResidual
          | ReadError e => fail (errorf "read rollout: %w" e)
          end
      end
  end.

End Options.

(** ** Verification *)

Definition verifySourceDigest (hashed : bytes) (bytesWritten : Z) (source : ManifestSource) : result unit :=
  if negb (bytesWritten =? src_Bytes source) then Err (errors_new "reconstructed bytes %d, want %d")
  else if negb (string_is (digest_of hashed) (src_SHA256 source)) then
    Err (errors_new "reconstructed SHA-256 %s, want %s")
  else Ok tt.

(** The reader of the stored parts: the store, the fallback reader, or both. *)
Inductive part_reader :=
| StoreReader (root : path)
| GivenReader (r : FoldReader)
| FallbackReader (root : path) (fallback : FoldReader).

(** [OpenObject], [io.Copy] and [Close] of one object. *)
Definition copy_object (reader : part_reader) (ref : ObjectRef) : OS bytes :=
  let from_store root :=
    let* stream := OpenStream root ref in
    let* copied := try_ (stream_copy sha256 zstd_decode stream) in
    let* closed := try_ (stream_Close stream) in
    lift (match copied, closed with
          | Err e, _ => Err e
          | Ok _, Err e => Err e
          | Ok data, Ok _ => Ok data
          end) in
  match reader with
  | StoreReader root => from_store root
  | GivenReader r => lift (fr_OpenObject r ref)
  | FallbackReader root fallback =>
      let* loose := store_HasObject root ref in
      if loose then from_store root else lift (fr_OpenObject fallback ref)
  end.

Fixpoint copy_parts (ctx : Ctx) (reader : part_reader) (parts : list Part) (hashed : bytes) : OS bytes :=
  match parts with
  | [] => ret hashed
  | part :: parts =>
      let '(err, ctx) := ctx_Err ctx in
      match err with
      | Some e => fail e
      | None =>
          let* data := copy_object reader (p_Object part) in
          copy_parts ctx reader parts (hashed ++ data)
      end
  end.

Definition verifyStoredManifest (ctx : Ctx) (reader : part_reader) (manifest : Manifest) : OS unit :=
  let* hashed := copy_parts ctx reader (mf_Parts manifest) [] in
  lift (verifySourceDigest hashed (zlen hashed) (mf_Source manifest)).

Definition VerifyManifest (ctx : Ctx) (reader : option part_reader) (manifest : Manifest) : OS unit :=
  match reader with
  | None => fail (errors_new "manifest verification reader is required")
  | Some reader =>
      lift (validateManifest manifest) ;;; verifyStoredManifest ctx reader manifest
  end.

Definition source_changed (initial after : FileInfo) : bool :=
  negb (fi_size initial =? fi_size after) || negb (fi_mtime initial =? fi_mtime after)
  || negb (os_SameFile initial after).

Definition verifyCurrentSource (p : path) (initial : FileInfo) (source : ManifestSource) : OS unit :=
  let* file := wrap "reopen rollout for commit verification: %w" (os_Open p) in
  let* copied := try_ (file_ReadAll file) in
  let* closed := try_ (file_Close file) in
  let* hashed := lift (match copied, closed with
    | Err e, _ => Err (errorf "rehash rollout for commit verification: %w" e)
    | Ok _, Err e => Err (errorf "close rollout after commit verification: %w" e)
    | Ok data, Ok _ => Ok data
    end) in
  let* after := wrap "stat rollout after commit verification: %w" (os_Stat p) in
  if source_changed initial after then
    fail (errors_new "rollout changed during fold; manifest was not committed")
  else
    wrap "rollout changed during fold; manifest was not committed: %w"
      (lift (verifySourceDigest hashed (zlen hashed) source)).

(** ** Manifest files *)

Definition ManifestPath (storeDir : path) (sessionID : string) : path :=
  [String.append sessionID ".json"; "manifests"%string] ++ storeDir.

Definition DecodeManifest (data : bytes) : result Manifest :=
  match json_Unmarshal data with
  | Err e => Err (errorf "decode fold manifest: %w" e)
  | Ok manifest => match validateManifest manifest with Err e => Err e | Ok _ => Ok manifest end
  end.

Definition LoadManifestPath (p : path) : OS Manifest :=
  let* data := wrap "read fold manifest: %w" (os_ReadFile p) in
  lift (DecodeManifest data).

Definition LoadManifest (storeDir : path) (sessionID : string) : OS Manifest :=
  lift (validateSessionID sessionID) ;;; LoadManifestPath (ManifestPath storeDir sessionID).

(** [if _, err := os.Stat(path); err == nil { exists } else if !NotExist { err }] *)
Definition require_absent (p : path) (format : string) : OS unit :=
  let* stat := try_ (os_Stat p) in
  match stat with
  | Ok _ => fail (errors_new format)
  | Err e => if is_NotExist e then ret tt else fail e
  end.

Definition writeManifestPath (p : path) (manifest : Manifest) (overwrite : bool) : OS unit :=
  lift (validateManifest manifest) ;;;
  (if overwrite then ret tt else require_absent p "fold manifest already exists: %s") ;;;
  wrap "create manifest directory: %w" (os_MkdirAll (filepath_Dir p)) ;;;
  let* data := lift (match json_MarshalIndent manifest with
                     | Err e => Err (errorf "encode fold manifest: %w" e)
                     | Ok data => Ok (data ++ [Byte.x0a])
                     end) in
  let* (temporary, temporaryPath) :=
    wrap "create temporary manifest: %w" (os_CreateTemp (filepath_Dir p) ".manifest-" ".tmp") in
  defer_ (os_Remove temporaryPath) (
    let* temporary := write_file "write temporary manifest: %w" temporary data in
    sync_file "sync temporary manifest: %w" temporary ;;;
    wrap "close temporary manifest: %w" (file_Close temporary) ;;;
    wrap "commit fold manifest: %w" (os_Rename temporaryPath p) ;;;
    syncDirectory (filepath_Dir p)).

(** ** Fold *)

Definition fold_defaults (o : FoldOptions) : FoldOptions :=
  let field := if fo_FieldThreshold o <=? 0 then 4 * 1024 else fo_FieldThreshold o in
  let cdc := if MinBytes (fo_CDC o) <=? 0
             then {| MinBytes := 4 * 1024; AverageBytes := 16 * 1024; MaxBytes := 64 * 1024 |}
             else fo_CDC o in
  {| fo_Opaque := fo_Opaque o; fo_StoreDir := fo_StoreDir o;
     fo_ManifestPathOverride := fo_ManifestPathOverride o; fo_Apply := fo_Apply o;
     fo_Overwrite := fo_Overwrite o; fo_RemoveSource := fo_RemoveSource o;
     fo_AllowActive := fo_AllowActive o; fo_FieldThreshold := field;
     fo_MaxJSONLineBytes := if fo_MaxJSONLineBytes o <=? 0 then 32 * 1024 * 1024 else fo_MaxJSONLineBytes o;
     fo_CDC := cdc; fo_Budget := fo_Budget o; fo_ExistingReader := fo_ExistingReader o;
     fo_RecordIndex := fo_RecordIndex o;
     fo_RecordThreshold := if fo_RecordThreshold o <=? 0 then Z.max field (MinBytes cdc) else fo_RecordThreshold o;
     fo_beforeCommit := fo_beforeCommit o |}.

Definition fold_manifest_path (session : Session) (o : FoldOptions) : result path :=
  match fo_ManifestPathOverride o with
  | None => Ok (ManifestPath (fo_StoreDir o) (fse_ID session))
  | Some p =>
      if decide ("manifests"%string :: fo_StoreDir o `suffix_of` p) then Ok p
      else Err (errors_new "manifest override must remain inside the fold manifest directory")
  end.

(** The budget request of an applied fold. *)
Definition fold_projection (o : FoldOptions) (size : Z) : result Projection :=
  match estimateFoldStorageBytes size with
  | Err e => Err e
  | Ok persistentBytes =>
      let maximumObjectBytes := Z.min size (Z.max (MaxBytes (fo_CDC o)) (fo_MaxJSONLineBytes o)) in
      match estimateFoldStorageBytes maximumObjectBytes with
      | Err e => Err e
      | Ok temporaryBytes =>
          Ok {| pj_Operation := "fold"; pj_AdditionalPersistentBytes := persistentBytes;
                pj_TemporaryBytes := temporaryBytes;
                pj_TemporaryPersistentOverlapBytes := Z.min temporaryBytes persistentBytes;
                pj_ReclaimableBytes := if fo_RemoveSource o then size else 0 |}
      end
  end.

Definition new_manifest (now : string) (rollout : string) (session : Session) (o : FoldOptions)
    (parts : list Part) (source : ManifestSource) : Manifest :=
  let v2 := match fo_RecordIndex o with Some _ => true | None => false end in
  {| mf_Version := if v2 then ManifestVersionV2 else ManifestVersion;
     mf_Kind := if v2 then ManifestKindV2 else ManifestKind;
     mf_CreatedAt := now;
     mf_Session := {| ms_ID := fse_ID session; ms_Title := fse_Title session; ms_CWD := fse_CWD session;
                      ms_RolloutPath := rollout; ms_Archived := fse_Archived session |};
     mf_Source := source;
     mf_Settings := {| FieldThreshold := fo_FieldThreshold o; MaxJSONLineBytes := fo_MaxJSONLineBytes o;
                       CDCMinBytes := MinBytes (fo_CDC o); CDCAverageBytes := AverageBytes (fo_CDC o);
                       CDCMaxBytes := MaxBytes (fo_CDC o); Compression := "zstd";
                       RecordThreshold := fo_RecordThreshold o |};
     mf_Parts := parts |}.

Variable AcquireOperationLock : path -> string -> world -> result unit.
Variable path_string : path -> string.

(** Reading and storing the whole source: from the open file to the last chunk.
    [content] is what the open file holds, up to the size found at the start. *)
Definition fold_scan (ctx : Ctx) (o : FoldOptions) (content : bytes) (w : world)
  : result unit * fold_state :=
  let s := {| fs_store := (NewObjectStore (fo_StoreDir o), w); fs_parts := []; fs_counts := no_counts;
              fs_source := []; fs_recon := [] |} in
  match chunker_New (fo_CDC o) true with
  | Err e => (Err e, s)
  | Ok c =>
      let '(r, (_, s)) := fold_loop o (S (length content)) ctx content [] (fo_Opaque o) (c, s) in
      (r, s)
  end.

Definition sync_store (ctx : Ctx) (st : ObjectStore) : OS unit := fun w =>
  let '(r, (_, w)) := SyncPending ctx (st, w) in (r, w).

(** Everything after the scan: from [complete:] to the end. *)
Definition fold_commit (ctx : Ctx) (now : string) (session : Session) (o : FoldOptions)
    (manifestPath : path) (before : FileInfo) (file : File) (s : fold_state) : OS FoldResult :=
  wrap "close rollout after fold: %w" (file_Close file) ;;;
  let counts := fs_counts s in
  let source := {| src_Bytes := fc_SourceBytes counts; src_SHA256 := digest_of (fs_source s) |} in
  let manifest := new_manifest now (path_string (fse_RolloutPath session)) session o (fs_parts s) source in
  let verified := (zlen (fs_recon s) =? fc_SourceBytes counts)
                  && string_is (digest_of (fs_recon s)) (src_SHA256 source) in
  let result removed := {| fres_SessionID := fse_ID session; fres_ManifestPath := manifestPath;
    fres_SourceSHA256 := src_SHA256 source; fres_PartCount := zlen (fs_parts s); fres_counts := counts;
    fres_Verified := verified; fres_DryRun := negb (fo_Apply o); fres_RemovedSource := removed |} in
  if negb verified then fail (errors_new "fold segmentation verification failed")
  else
    (match fo_beforeCommit o with
     | Some hook => wrap "before fold commit: %w" hook
     | None => ret tt
     end) ;;;
    let* after := wrap "stat rollout after fold: %w" (os_Stat (fse_RolloutPath session)) in
    if source_changed before after then
      fail (errors_new "rollout changed during fold; manifest was not committed")
    else
      verifyCurrentSource (fse_RolloutPath session) before source ;;;
      if negb (fo_Apply o) then ret (result false)
      else
        let reader := match fo_ExistingReader o with
                      | Some r => FallbackReader (fo_StoreDir o) r
                      | None => StoreReader (fo_StoreDir o)
                      end in
        verifyStoredManifest ctx reader manifest ;;;
        sync_store ctx (fs_store s).1 ;;;
        writeManifestPath manifestPath manifest (fo_Overwrite o) ;;;
        if fo_RemoveSource o then
          wrap "remove verified rollout source: %w" (os_Remove (fse_RolloutPath session)) ;;;
          ret (result true)
        else ret (result false).

Definition Fold (ctx : Ctx) (now : string) (session : Session) (options : FoldOptions) : OS FoldResult :=
  if fo_RemoveSource options && negb (fo_Apply options) then
    fail (errors_new "--remove-source requires --apply")
  else if fo_RemoveSource options && negb (fse_Archived session) && negb (fo_AllowActive options) then
    fail (errors_new "refusing to remove a non-archived rollout without --allow-active")
  else
    let o := fold_defaults options in
    let* manifestPath := lift (fold_manifest_path session o) in
    (if fo_Apply o && negb (fo_Overwrite o)
     then require_absent manifestPath "fold manifest already exists: %s" else ret tt) ;;;
    let* file := wrap "open rollout: %w" (os_Open (fse_RolloutPath session)) in
    let* before := wrap "stat rollout: %w" (file_Stat file) in
    (if fo_Apply o then
       let* projection := lift (fold_projection o (fi_size before)) in
       let* w := get in
       lift (fo_Budget o projection w) ;;;
       lift (AcquireOperationLock (fo_StoreDir o) "objects" w)
     else ret tt) ;;;
    fun w =>
      let content := match w_inodes w !! f_ino file with
                     | Some i => ztake (fi_size before) (i_data i)
                     | None => []
                     end in
      let '(r, s) := fold_scan ctx o content w in
      let w := (fs_store s).2 in
      match r with
      | Err e => (Err e, w)
      | Ok _ => fold_commit ctx now session o manifestPath before file s w
      end.

(** ** Unfold *)

Record UnfoldResult := {
  ur_TargetPath : path;
  ur_Bytes : Z;
  ur_SHA256 : string;
}.

Record UnfoldOptions := {
  uo_TargetPath : option path;
  uo_Overwrite : bool;
  uo_Budget : Checker;
  uo_Reader : option FoldReader;
}.

(** The copy loop: every part is written to the temporary file and hashed. *)
Fixpoint unfold_parts (ctx : Ctx) (reader : part_reader) (parts : list Part) (temporary : File)
    (hashed : bytes) : OS (File * bytes) :=
  match parts with
  | [] => ret (temporary, hashed)
  | part :: parts =>
      let '(err, ctx) := ctx_Err ctx in
      match err with
      | Some e => ignore (file_Close temporary) ;;; fail e
      | None =>
          let* data := or_else (copy_object reader (p_Object part)) (file_Close temporary) in
          let* temporary := write_file "write restored object: %w" temporary data in
          unfold_parts ctx reader parts temporary (hashed ++ data)
      end
  end.

Definition UnfoldWithOptions (ctx : Ctx) (parse_path : string -> path) (storeDir : path) (sessionID : string)
    (options : UnfoldOptions) : OS UnfoldResult :=
  let* manifest := LoadManifest storeDir sessionID in
  let targetPath := match uo_TargetPath options with
                    | Some p => p
                    | None => parse_path (ms_RolloutPath (mf_Session manifest))
                    end in
  let* stat := try_ (os_Stat targetPath) in
  let* reclaimableBytes :=
    (match stat with
     | Ok info => if negb (uo_Overwrite options) then fail (errors_new "restore target already exists: %s")
                  else ret (if fi_regular info then fi_size info else 0)
     | Err e => if is_NotExist e then ret 0 else fail e
     end) in
  let size := src_Bytes (mf_Source manifest) in
  let* w := get in
  lift (uo_Budget options {| pj_Operation := "unfold"; pj_AdditionalPersistentBytes := size;
    pj_TemporaryBytes := size; pj_TemporaryPersistentOverlapBytes := size;
    pj_ReclaimableBytes := reclaimableBytes |} w) ;;;
  wrap "create restore directory: %w" (os_MkdirAll (filepath_Dir targetPath)) ;;;
  let* (temporary, temporaryPath) :=
    wrap "create restore temporary file: %w" (os_CreateTemp (filepath_Dir targetPath) ".unfold-" ".tmp") in
  defer_ (os_Remove temporaryPath) (
    let reader := match uo_Reader options with Some r => GivenReader r | None => StoreReader storeDir end in
    let* (temporary, hashed) := unfold_parts ctx reader (mf_Parts manifest) temporary [] in
    or_else (lift (verifySourceDigest hashed (zlen hashed) (mf_Source manifest))) (file_Close temporary) ;;;
    (sync_file "sync restored rollout: %w" temporary ;;;
     wrap "close restored rollout: %w" (file_Close temporary) ;;;
     wrap "commit restored rollout: %w" (os_Rename temporaryPath targetPath) ;;;
     syncDirectory (filepath_Dir targetPath)) ;;;
    ret {| ur_TargetPath := targetPath; ur_Bytes := zlen hashed;
           ur_SHA256 := src_SHA256 (mf_Source manifest) |}).
End Fold.

(** ** The scan keeps every byte *)

Section FoldLemmas.
Context (sha256 : bytes -> bytes) (zstd_encode zstd_decode : bytes -> result bytes).
Hypothesis zstd_roundtrip : forall d c, zstd_encode d = Ok c -> zstd_decode c = Ok d.
Context (o : FoldOptions) (w0 : world).
Local Abbreviation digest_of := (digest_of sha256).
Local Abbreviation object_is := (object_is sha256).
Local Abbreviation stored := (stored sha256 zstd_decode).
Local Abbreviation store_inv := (store_inv sha256 zstd_decode).
Local Abbreviation appendPart := (appendPart sha256 zstd_encode zstd_decode o).
Local Abbreviation emit_residual := (emit_residual sha256 zstd_encode zstd_decode o).
Local Abbreviation write_residual := (write_residual sha256 zstd_encode zstd_decode o).
Local Abbreviation flushResidual := (flushResidual sha256 zstd_encode zstd_decode o).

(** A part that names the object of [d]. *)
Definition part_of (part : Part) (d : bytes) : Prop :=
  d <> [] /\ SHA256 (p_Object part) = digest_of d /\ exists d', object_is (p_Object part) d'.

(** The object of a part can be opened: from the existing reader or the store. *)
Definition part_available (w : world) (part : Part) : Prop :=
  existing_has o (p_Object part) = true
  \/ exists d, stored w (fo_StoreDir o) (p_Object part) d.

(** A fold in progress that has stored [fs_recon]. *)
Record fold_inv (s : fold_state) : Prop := {
  fi_root : os_root (fs_store s).1 = fo_StoreDir o;
  fi_store : store_inv (fs_store s).1 (fs_store s).2;
  fi_pending : pending_inv (fs_store s).1 (fs_store s).2;
  fi_framed : framed nothing w0 (fs_store s).2;
  fi_parts : exists ds, fs_recon s = concat ds /\ Forall2 part_of (fs_parts s) ds;
  fi_available : fo_Apply o = true -> Forall (part_available (fs_store s).2) (fs_parts s);
  fi_counts : fc_SourceBytes (fs_counts s) = zlen (fs_source s);
}.

(** What is known after an error: no file has been lost. *)
Definition fold_failed (s : fold_state) : Prop := framed nothing w0 (fs_store s).2.

Lemma part_available_frame w w' part :
  frame nothing w w' -> part_available w part -> part_available w' part.
Proof.
  intros Hf [He|(d & Hd)]; [by left|right]. exists d.
  eapply stored_frame; [apply avoids_nothing|exact Hf|done].
Qed.

Lemma put_post_keeps s w digest apply r sw :
  put_post sha256 zstd_decode s w digest apply r sw -> pending_inv s w -> pending_inv sw.1 sw.2.
Proof.
  intros (Hroot & Hi & Hf & Hr & Hp) Hinv.
  assert (forall p, p ∈ os_pending s -> is_Some (w_names sw.2 !! p)) as Hold.
  { intros p [[n Hn] _]%Hinv. exists n. apply (fr_names _ _ _ (proj2 Hf)); [intros []|done]. }
  destruct Hp as [(E1 & E2 & _)|(E1 & E2 & Hn)]; unfold pending_inv; rewrite E1, E2; intros p Hp.
  - split; [auto|]. by apply Hinv.
  - apply elem_of_union in Hp as [->%elem_of_singleton|Hp]; [set_solver|].
    split; [auto|]. apply elem_of_union_r. by apply Hinv.
Qed.

(** A store operation that behaves like [Put]. *)
Lemma wp_fold_Put s data apply :
  fold_inv s ->
  wp (on_fold_store (Put sha256 zstd_encode zstd_decode data apply)) s (fun r s' =>
    match r with
    | Ok (ref, _) => fold_inv s' /\ fs_recon s' = fs_recon s /\ fs_parts s' = fs_parts s
        /\ fs_source s' = fs_source s /\ SHA256 ref = digest_of data
        /\ exists d, object_is ref d /\ (apply = true -> stored (fs_store s').2 (fo_StoreDir o) ref d)
    | Err _ => fold_failed s'
    end).
Proof.
  intros [Hroot Hi Hp Hf Hparts Hav Hc]. unfold on_fold_store. rewrite wp_zoom.
  destruct (fs_store s) as [st w] eqn:Es. simpl in *.
  eapply wp_mono; [by apply (wp_Put _ _ _ zstd_roundtrip)|]. intros r [st' w'] Hpost.
  pose proof (put_post_keeps _ _ _ _ _ _ Hpost Hp) as Hp'.
  destruct Hpost as (Hroot' & Hi' & Hf' & Hr & _). simpl in *.
  assert (framed nothing w0 w') as Hf2 by (eapply framed_trans; eauto).
  destruct r as [[ref reused]|e]; [|done]. rewrite Hroot in Hr. split; [|naive_solver].
  split; simpl; auto; [congruence|].
  intros Ha. eapply Forall_impl; [exact (Hav Ha)|]. intros part. apply part_available_frame, Hf'.
Qed.

Lemma wp_appendPart s kind pth data :
  fold_inv s ->
  wp (appendPart kind pth data) s (fun r s' =>
    match r with
    | Ok _ => fold_inv s' /\ fs_recon s' = fs_recon s ++ data /\ fs_source s' = fs_source s
    | Err _ => fold_failed s'
    end).
Proof.
  intros Hinv. unfold Fold.appendPart. destruct (zlen data =? 0) eqn:E0; zbool.
  { apply zlen_0_nil in E0 as ->. rewrite wp_ret. by rewrite app_nil_r. }
  assert (data <> []) as Hne by (by intros ->).
  set (ref0 := {| SHA256 := _; RawBytes := _; StoredBytes := _ |}).
  (* adding the part *)
  assert (forall s1 ref reused, fold_inv s1 -> fs_recon s1 = fs_recon s -> fs_parts s1 = fs_parts s ->
    fs_source s1 = fs_source s -> SHA256 ref = digest_of data -> (exists d', object_is ref d') ->
    (fo_Apply o = true -> part_available (fs_store s1).2 {| p_Kind := kind; p_JSONPath := pth; p_Object := ref |}) ->
    let s' := {| fs_store := fs_store s1;
      fs_parts := fs_parts s1 ++ [{| p_Kind := kind; p_JSONPath := pth; p_Object := ref |}];
      fs_counts := count_part kind reused (StoredBytes ref) (fs_counts s1);
      fs_source := fs_source s1; fs_recon := fs_recon s1 ++ data |} in
    fold_inv s' /\ fs_recon s' = fs_recon s ++ data /\ fs_source s' = fs_source s) as Hadd.
  { intros s1 ref reused [? ? ? ? (ds & Hds & Hparts) Hav Hc] Hrec Hpar Hsrc Hsha Hobj Havail s'.
    split_and!; simpl; [|by rewrite Hrec|done]. split; simpl; auto.
    - exists (ds ++ [data]). rewrite concat_app, Hds. simpl. rewrite app_nil_r. split; [done|].
      apply Forall2_app; [done|]. repeat constructor; auto.
    - intros Ha. apply Forall_app. auto. }
  destruct (existing_has o ref0) eqn:Ee; rewrite wp_bind.
  - rewrite wp_ret. cbv beta iota. rewrite wp_modify. apply Hadd; auto; [by exists data|]. intros _. by left.
  - eapply wp_mono; [by apply wp_fold_Put|]. intros [[ref reused]|e] s1 Hs1; [|done].
    destruct Hs1 as (Hi1 & Hrec & Hpar & Hsrc & Hsha & d & Hd & Hst). cbv beta iota. rewrite wp_modify.
    apply Hadd; eauto. intros Ha. right. eauto.
Qed.

(** The residual chunker and the fold together hold [consumed]. *)
Definition scan_inv (src consumed : bytes) (cs : Chunker * fold_state) : Prop :=
  fold_inv cs.2 /\ fs_source cs.2 = src /\ fs_recon cs.2 ++ chunk cs.1 = consumed.

(** The outcome of a scanning step. *)
Definition scan_post {A} (src consumed : bytes) (r : result A) (cs : Chunker * fold_state) : Prop :=
  match r with
  | Ok _ => scan_inv src consumed cs
  | Err _ => fold_failed cs.2
  end.

Lemma emit_residual_inv src em s l s' err :
  (fold_inv s /\ fs_source s = src /\ fs_recon s = em) -> l <> [] ->
  emit_residual s {| Data := l; Digest := sha256 l |} = (s', err) ->
  match err with
  | None => fold_inv s' /\ fs_source s' = src /\ fs_recon s' = em ++ l
  | Some _ => fold_failed s'
  end.
Proof.
  intros (Hi & Hsrc & Hrec) _. unfold Fold.emit_residual. simpl.
  pose proof (wp_appendPart s PartResidual "" l Hi) as Hw. unfold wp in Hw.
  destruct (appendPart PartResidual "" l s) as [[a|e] s1]; intros [= <- <-]; simpl in Hw; [|done].
  destruct Hw as (? & -> & ->). by rewrite Hrec.
Qed.

Lemma wp_write_residual src consumed data cs :
  scan_inv src consumed cs -> wp (write_residual data) cs (scan_post src (consumed ++ data)).
Proof.
  destruct cs as [c s]. intros (Hi & Hsrc & Hrec). unfold wp, Fold.write_residual. simpl in *.
  destruct (chunker_Write sha256 emit_residual c s data) as [[c' s'] err] eqn:Ew.
  apply (chunker_Write_inv sha256 emit_residual
    (fun em s => fold_inv s /\ fs_source s = src /\ fs_recon s = em) fold_failed c s (fs_recon s)) in Ew.
  - destruct err as [e|]; simpl; [done|]. destruct Ew as (em' & (Hi' & Hsrc' & Hrec') & Heq).
    split_and!; simpl; auto. by rewrite Hrec', Heq, app_assoc, Hrec.
  - intros. by eapply emit_residual_inv.
  - done.
Qed.

Lemma wp_flushResidual src consumed cs :
  scan_inv src consumed cs ->
  wp flushResidual cs (fun r cs' => scan_post src consumed r cs' /\ (is_ok r = true -> chunk cs'.1 = [])).
Proof.
  destruct cs as [c s]. intros (Hi & Hsrc & Hrec). unfold wp, Fold.flushResidual. simpl in *.
  destruct (chunker_Finish sha256 emit_residual c s) as [[c' s'] err] eqn:Ew.
  apply (chunker_Finish_inv sha256 emit_residual
    (fun em s => fold_inv s /\ fs_source s = src /\ fs_recon s = em) fold_failed c s (fs_recon s)) in Ew.
  - destruct err as [e|]; simpl; [done|]. destruct Ew as ((Hi' & Hsrc' & Hrec') & Heq).
    split; [|done]. split_and!; simpl; auto. by rewrite Hrec', Heq, app_nil_r.
  - intros. by eapply emit_residual_inv.
  - done.
Qed.

Lemma wp_on_fold {A} (m : M fold_state A) c s Q :
  wp (on_fold m) (c, s) Q <-> wp m s (fun r s' => Q r (c, s')).
Proof. unfold on_fold. by rewrite wp_zoom. Qed.

(** A flush followed by a part of its own. *)
Lemma wp_flush_part src consumed kind pth data cs :
  scan_inv src consumed cs ->
  wp (flushResidual ;;; on_fold (appendPart kind pth data)) cs
     (fun r cs' => scan_post src (consumed ++ data) r cs' /\ (is_ok r = true -> chunk cs'.1 = [])).
Proof.
  intros Hs. rewrite wp_bind. eapply wp_mono; [by apply wp_flushResidual|].
  intros [[]|e] [c1 s1] [Hs1 Hc]; [|done]. destruct Hs1 as (Hi & Hsrc & Hrec). simpl in *.
  rewrite (Hc eq_refl), app_nil_r in Hrec. rewrite wp_on_fold.
  eapply wp_mono; [by apply wp_appendPart|]. intros [[]|e] s2 Hs2; [|done].
  destruct Hs2 as (Hi2 & Hrec2 & Hsrc2). split; [|auto]. split_and!; simpl; auto; [congruence|].
  by rewrite Hrec2, (Hc eq_refl), app_nil_r, Hrec.
Qed.

Lemma wp_scan_bind {A} (m : Scan A) (f : A -> Scan unit) src consumed1 consumed2 cs :
  wp m cs (scan_post src consumed1) ->
  (forall a cs', scan_inv src consumed1 cs' -> wp (f a) cs' (scan_post src consumed2)) ->
  wp (bind m f) cs (scan_post src consumed2).
Proof.
  intros Hm Hf. rewrite wp_bind. eapply wp_mono; [exact Hm|]. intros [a|e] cs' Hcs; [|done]. auto.
Qed.

Lemma slice_rest {A} (l : list A) a : 0 <= a <= zlen l -> slice a (zlen l) l = zdrop a l.
Proof. intros Ha. unfold slice. apply ztake_all. rewrite zlen_zdrop. lia. Qed.

Lemma zdrop_slice {A} (l : list A) a b : 0 <= a <= b -> b <= zlen l -> zdrop a l = slice a b l ++ zdrop b l.
Proof.
  intros Hab Hb. rewrite <- (slice_rest l a), <- (slice_rest l b) by lia. symmetry.
  apply slice_join; lia.
Qed.

Lemma wp_fold_spans line spans cursor src consumed cs :
  0 <= cursor -> spans_ok cursor (zlen line) spans -> scan_inv src consumed cs ->
  wp (fold_spans sha256 zstd_encode zstd_decode o line cursor spans) cs
     (scan_post src (consumed ++ zdrop cursor line)).
Proof.
  revert cursor consumed cs. induction spans as [|sp spans IH]; intros cursor consumed cs Hc Hok Hs;
    cbn [fold_spans]; simpl in Hok.
  - rewrite slice_rest by lia. by apply wp_write_residual.
  - destruct Hok as (H1 & H2 & Hok). pose proof (spans_ok_bound _ _ _ Hok) as Hb.
    eapply wp_scan_bind; [by apply wp_write_residual|]. intros [] cs1 Hs1.
    change (flushResidual ;;; ?x) with (bind flushResidual (fun _ => x)).
    rewrite wp_bind. eapply wp_mono; [by apply wp_flushResidual|].
    intros [[]|e] cs2 [Hs2 Hc2]; [|done]. destruct cs2 as [c2 s2]. rewrite wp_bind, wp_on_fold.
    destruct Hs2 as (Hi2 & Hsrc2 & Hrec2). simpl in *. rewrite (Hc2 eq_refl), app_nil_r in Hrec2.
    eapply wp_mono; [by apply wp_appendPart|]. intros [[]|e] s3 Hs3; [|done].
    destruct Hs3 as (Hi3 & Hrec3 & Hsrc3).
    rewrite (zdrop_slice line cursor (sp_Start sp)), (zdrop_slice line (sp_Start sp) (sp_End sp)) by lia.
    rewrite !app_assoc. apply IH; [lia|done|]. split_and!; simpl; auto; [congruence|].
    by rewrite (Hc2 eq_refl), app_nil_r, Hrec3, Hrec2.
Qed.

(** Steps that only consult the store. *)
Definition plan_post {A} (s : fold_state) (r : result A) (s' : fold_state) : Prop :=
  match r with
  | Ok _ => fold_inv s' /\ fs_recon s' = fs_recon s /\ fs_source s' = fs_source s
  | Err _ => fold_failed s'
  end.

Lemma wp_plan_bind {A B} (m : M fold_state A) (f : A -> M fold_state B) s :
  wp m s (plan_post s) -> (forall a s', fold_inv s' -> wp (f a) s' (plan_post s')) ->
  wp (bind m f) s (plan_post s).
Proof.
  intros Hm Hf. rewrite wp_bind. eapply wp_mono; [exact Hm|].
  intros [a|e] s1 H1; [|done]. destruct H1 as (Hi & Hr & Hs). eapply wp_mono; [by apply Hf|].
  intros [b|e] s2 H2; [|done]. destruct H2 as (? & ? & ?). split_and!; [done|congruence..].
Qed.

Lemma plan_ret {A} (a : A) s : fold_inv s -> wp (ret a) s (plan_post s).
Proof. done. Qed.
Lemma plan_fail {A} e s : fold_inv s -> wp (fail (A := A) e) s (plan_post s).
Proof. intros Hi. apply (fi_framed _ Hi). Qed.
Lemma plan_lift {A} (r : result A) s : fold_inv s -> wp (lift r) s (plan_post s).
Proof. intros Hi. destruct r; [done|]. apply (fi_framed _ Hi). Qed.

Lemma plan_Put data s :
  fold_inv s -> wp (on_fold_store (Put sha256 zstd_encode zstd_decode data false)) s (plan_post s).
Proof.
  intros Hi. eapply wp_mono; [by apply wp_fold_Put|]. intros [[ref b]|e] s' Hs'; [|done].
  destruct Hs' as (? & ? & ? & ? & _). by split_and!.
Qed.

Lemma plan_is_stored ref s : fold_inv s -> wp (is_stored o ref) s (plan_post s).
Proof.
  intros Hi. unfold is_stored. rewrite wp_bind, wp_get.
  assert (wp (on_fold_store (on_os (store_HasObject (os_root (fs_store s).1) ref))) s (plan_post s)) as Hq.
  2: { apply wp_plan_bind; [done|]. intros a s' Hi'. by apply plan_ret. }
  unfold on_fold_store. rewrite wp_zoom.
  destruct Hi as [Hroot Hst Hp Hf Hparts Hav Hc]. destruct (fs_store s) as [st w] eqn:Es. rewrite wp_on_os.
  simpl in *. unfold store_HasObject. rewrite wp_bind, wp_try.
  eapply wp_mono; [apply (wp_kept (framed nothing w)); [apply keeps_Stat, _|apply framed_refl, Hst]|].
  intros r w' Hw'. rewrite wp_ret. split_and!; simpl; auto. split; simpl; auto.
  - eapply store_inv_frame; eauto.
  - intros p Hin. destruct (Hp p Hin) as [[n Hn] Hd]. split; [|done]. exists n.
    apply (fr_names _ _ _ (proj2 Hw')); [intros []|done].
  - eapply framed_trans; eauto.
  - intros Ha. eapply Forall_impl; [exact (Hav Ha)|]. intros part. apply part_available_frame, Hw'.
Qed.

Lemma plan_cost parts total s :
  fold_inv s -> wp (planned_cost sha256 zstd_encode zstd_decode o parts total) s (plan_post s).
Proof.
  revert total s. induction parts as [|part parts IH]; intros total s Hi; cbn [planned_cost];
    [by apply plan_ret|].
  apply wp_plan_bind; [by apply plan_Put|]. intros [ref b] s1 Hi1.
  apply wp_plan_bind; [by apply plan_is_stored|]. intros [] s2 Hi2; [auto|].
  destruct (_ >? _); [by apply plan_fail|auto].
Qed.

Lemma plan_record_promoted line s :
  fold_inv s -> wp (record_promoted sha256 zstd_encode zstd_decode o line) s (plan_post s).
Proof.
  intros Hi. unfold record_promoted. destruct (fo_RecordIndex o) as [isDup|]; [|by apply plan_ret].
  destruct (_ >=? _); [|by apply plan_ret].
  apply wp_plan_bind; [by apply plan_lift|]. intros [] s1 Hi1; [|by apply plan_ret].
  unfold promote_record. apply wp_plan_bind; [by apply plan_lift|]. intros comps s2 Hi2.
  apply wp_plan_bind; [by apply plan_cost|]. intros cost s3 Hi3.
  apply wp_plan_bind; [by apply plan_Put|]. intros [ref b] s4 Hi4.
  apply wp_plan_bind; [by apply plan_is_stored|]. intros b' s5 Hi5. by apply plan_ret.
Qed.

Lemma wp_on_plan {A} (m : M fold_state A) src consumed cs :
  (forall s, fold_inv s -> wp m s (plan_post s)) -> scan_inv src consumed cs ->
  wp (on_fold m) cs (scan_post src consumed).
Proof.
  intros Hm (Hi & Hsrc & Hrec). destruct cs as [c s]. rewrite wp_on_fold.
  eapply wp_mono; [by apply Hm|]. intros [a|e] s' Hs'; [|done]. destruct Hs' as (? & Hr & Hs).
  split_and!; simpl in *; congruence.
Qed.

Lemma plan_counts f s :
  (forall c, fc_SourceBytes (f c) = fc_SourceBytes c) -> fold_inv s -> wp (set_counts f) s (plan_post s).
Proof.
  intros Hf [Hroot Hst Hp Hfr Hparts Hav Hc]. unfold set_counts. rewrite wp_modify.
  split_and!; simpl; auto. split; simpl; auto. by rewrite Hf.
Qed.

Lemma wp_processLine line src consumed cs :
  scan_inv src consumed cs ->
  wp (processLine sha256 zstd_encode zstd_decode o line) cs (scan_post src (consumed ++ line)).
Proof.
  intros Hs. unfold processLine. apply (wp_scan_bind _ _ src consumed).
  { apply wp_on_plan; [|done]. intros s Hi. by apply plan_record_promoted. }
  intros promoted cs1 Hs1. destruct promoted.
  - eapply wp_mono; [by apply wp_flush_part|]. by intros r cs2 [Hp _].
  - destruct (FindStringSpans line (fo_FieldThreshold o)) as [spans|e] eqn:Es.
    + pose proof (wp_fold_spans line spans 0 src consumed cs1 (Z.le_refl 0)
        (FindStringSpans_ok _ _ _ Es) Hs1) as Hw. by rewrite zdrop_0 in Hw.
    + apply (wp_scan_bind _ _ src consumed).
      * apply wp_on_plan; [|done]. intros s Hi. by apply plan_counts.
      * intros [] cs2 Hs2. by apply wp_write_residual.
Qed.

(** A fragment joins the source; it goes to the line buffer or to the chunker. *)
Lemma wp_take_fragment fragment line oversized src consumed cs :
  scan_inv src consumed cs -> (oversized = true -> line = []) ->
  wp (take_fragment sha256 zstd_encode zstd_decode o fragment line oversized) cs (fun r cs' =>
    match r with
    | Ok (line', oversized') => (oversized' = true -> line' = [])
        /\ exists consumed', scan_inv (src ++ fragment) consumed' cs'
             /\ consumed' ++ line' = consumed ++ line ++ fragment
    | Err _ => fold_failed cs'.2
    end).
Proof.
  intros Hs Hl. unfold take_fragment. destruct (zlen fragment =? 0) eqn:E0; zbool.
  { apply zlen_0_nil in E0 as ->. rewrite wp_ret, !app_nil_r. split; [done|]. by exists consumed. }
  destruct cs as [c s]. rewrite wp_bind, wp_on_fold. unfold note_source. rewrite wp_modify.
  set (s1 := {| fs_store := fs_store s |}).
  assert (scan_inv (src ++ fragment) consumed (c, s1)) as Hs1.
  { destruct Hs as ([Hroot Hst Hp Hfr Hparts Hav Hc] & Hsrc & Hrec). simpl in *.
    split_and!; simpl; auto; [|by rewrite Hsrc]. split; simpl; auto. rewrite Hc, zlen_app. done. }
  clearbody s1. clear Hs. destruct oversized.
  - rewrite (Hl eq_refl). rewrite wp_bind. eapply wp_mono; [by apply wp_write_residual|].
    intros [[]|e] cs2 Hs2; [|done]. rewrite wp_ret. split; [done|].
    exists (consumed ++ fragment). by rewrite app_nil_r.
  - destruct (_ >? _).
    + rewrite wp_bind. eapply wp_mono.
      { apply (wp_on_plan _ (src ++ fragment) consumed); [|done]. intros s2 Hi. by apply plan_counts. }
      intros [[]|e] cs2 Hs2; [|done]. rewrite wp_bind. eapply wp_mono; [by apply wp_write_residual|].
      intros [[]|e] cs3 Hs3; [|done]. rewrite wp_bind. eapply wp_mono; [by apply wp_write_residual|].
      intros [[]|e] cs4 Hs4; [|done]. rewrite wp_ret. split; [done|].
      exists ((consumed ++ line) ++ fragment). split; [done|]. by rewrite app_nil_r, <- app_assoc.
    + rewrite wp_ret. split; [done|]. exists consumed. done.
Qed.

Lemma wp_read_fragment rest src consumed cs :
  scan_inv src consumed cs ->
  wp (read_fragment rest) cs (fun r cs' =>
    exists fragment how rest', r = Ok (fragment, how, rest') /\ scan_inv src consumed cs'
      /\ match how with
         | Delim | BufferFull => fragment ++ rest' = rest /\ fragment <> []
         | AtEOF => fragment = rest
         | ReadError _ => True
         end).
Proof.
  intros (Hi & Hsrc & Hrec). destruct cs as [c s]. unfold read_fragment. rewrite wp_on_fold.
  unfold on_fold_store. rewrite wp_zoom. simpl in *.
  destruct (fs_store s) as [st w] eqn:Est. rewrite wp_on_os.
  assert (forall fs, scan_inv src consumed (c, {| fs_store := (st, tick w fs); fs_parts := fs_parts s;
    fs_counts := fs_counts s; fs_source := fs_source s; fs_recon := fs_recon s |})) as Hs.
  { intros fs. split_and!; auto. destruct Hi as [Hroot Hst Hp Hfr Hparts Hav Hc]. rewrite Est in *.
    split; simpl in *; auto with codexfold.
    eapply store_inv_frame; [exact Hst|]. apply framed_tick, framed_refl, Hst. }
  eapply wp_mono; [apply wp_next_slice|]. intros r w' (fragment & how & rest' & -> & (fs & -> & _) & Hhow).
  exists fragment, how, rest'. split_and!; [done|apply Hs|]. destruct how; destruct_and?; done.
Qed.

Lemma wp_fold_loop fuel ctx rest line oversized src consumed cs :
  scan_inv src consumed cs -> (oversized = true -> line = []) ->
  (length rest < fuel)%nat -> consumed ++ line = src ->
  wp (fold_loop sha256 zstd_encode zstd_decode o fuel ctx rest line oversized) cs (fun r cs' =>
    match r with
    | Ok _ => scan_inv (src ++ rest) (src ++ rest) cs' /\ chunk cs'.1 = []
    | Err _ => fold_failed cs'.2
    end).
Proof.
  revert ctx rest line oversized src consumed cs.
  induction fuel as [|fuel IH]; intros ctx rest line oversized src consumed cs Hs Hl Hfuel Hsrc; [lia|].
  cbn [fold_loop]. destruct (ctx_Err ctx) as [[e|] ctx1]; [apply Hs|].
  rewrite wp_bind. eapply wp_mono; [by apply wp_read_fragment|].
  intros r cs1 (fragment & how & rest' & -> & Hs1 & Hhow).
  rewrite wp_bind. eapply wp_mono; [by apply wp_take_fragment|].
  intros [[line1 over1]|e] cs2 H2; [|done]. destruct H2 as [Hl1 (consumed1 & Hs2 & Heq)].
  rewrite app_assoc, Hsrc in Heq. destruct how as [| | |e].
  - destruct Hhow as [<- Hne]. rewrite app_assoc. rewrite length_app in Hfuel.
    assert (1 <= length fragment)%nat by (destruct fragment; [done|simpl; lia]).
    rewrite wp_bind. eapply wp_mono with (P := scan_post (src ++ fragment) (src ++ fragment)).
    + destruct over1.
      * rewrite (Hl1 eq_refl), app_nil_r in Heq. rewrite wp_ret. simpl. by rewrite <- Heq at 2.
      * rewrite <- Heq at 2. by apply wp_processLine.
    + intros [[]|e] cs3 Hs3; [|done]. eapply IH; [exact Hs3|done|lia|by rewrite app_nil_r].
  - destruct Hhow as [<- Hne]. rewrite app_assoc. rewrite length_app in Hfuel.
    assert (1 <= length fragment)%nat by (destruct fragment; [done|simpl; lia]).
    eapply IH; [exact Hs2|done|lia|done].
  - subst fragment. rewrite wp_bind.
    eapply wp_mono with (P := scan_post (src ++ rest) (src ++ rest)).
    + destruct (negb over1 && (zlen line1 >? 0)) eqn:Ep.
      * rewrite <- Heq at 2. by apply wp_processLine.
      * rewrite wp_ret. simpl. rewrite <- Heq at 2. replace line1 with (@nil byte); [by rewrite app_nil_r|].
        destruct over1; [by rewrite (Hl1 eq_refl)|]. simpl in Ep. zbool.
        symmetry. apply zlen_0_nil. pose proof (zlen_nonneg line1). lia.
    + intros [[]|e] cs3 Hs3; [|done]. eapply wp_mono; [by apply wp_flushResidual|].
      intros [[]|e] cs4 [Hs4 Hc]; [|done]. split; [done|]. by apply Hc.
  - apply Hs2.
Qed.
End FoldLemmas.

(** ** Committing a fold *)

(** [p] is not a name that [os.CreateTemp] would choose. *)
Definition not_temporary (p : path) : Prop :=
  forall w prefix, hd EmptyString p <> temporary_name w prefix ".tmp".

Lemma not_temporary_suffix name suffix dir :
  String.length suffix = 4%nat -> suffix <> ".tmp"%string ->
  not_temporary (String.append name suffix :: dir).
Proof.
  intros Hl Hs w prefix H. simpl in H. unfold temporary_name in H. rewrite string_app_assoc in H.
  by apply string_app_suffix in H.
Qed.

Section CommitLemmas.
Context (sha256 : bytes -> bytes) (zstd_encode zstd_decode : bytes -> result bytes).
Context (json_MarshalIndent : Manifest -> result bytes).
Local Abbreviation stored := (stored sha256 zstd_decode).

Definition manifest_bytes (m : Manifest) : bytes :=
  match json_MarshalIndent m with Ok d => d ++ [Byte.x0a] | Err _ => [] end.

Lemma keeps_require_absent P `{TickStable P} p format : keeps P (require_absent p format).
Proof. unfold require_absent. keeps. Qed.

Lemma wp_writeManifestPath p m overwrite w :
  world_wf w -> not_temporary p ->
  wp (writeManifestPath json_MarshalIndent p m overwrite) w (fun r w' =>
    commit_post w p (manifest_bytes m) r w'
    /\ (is_ok r = true -> validateManifest m = Ok tt /\ is_ok (json_MarshalIndent m) = true)).
Proof.
  intros Hw Hp. unfold writeManifestPath. rewrite wp_bind, wp_lift.
  assert (forall w' e, framed nothing w w' -> commit_post w p (manifest_bytes m) (@Err unit e) w'
    /\ (is_ok (@Err unit e) = true -> validateManifest m = Ok tt /\ is_ok (json_MarshalIndent m) = true)) as Hfail.
  { intros w' e Hf. split; [by apply commit_post_nothing|done]. }
  destruct (validateManifest m) as [[]|e] eqn:Ev; [|by apply Hfail, framed_refl].
  rewrite wp_bind. eapply wp_mono.
  { apply (wp_kept (framed nothing w)); [|by apply framed_refl].
    destruct overwrite; [apply keeps_ret|by apply keeps_require_absent, _]. }
  intros [[]|e] w1 Hf1; [|by apply Hfail]. rewrite wp_bind, wp_wrap.
  eapply wp_mono; [apply (wp_kept (framed nothing w)); [apply keeps_MkdirAll|done]|].
  intros [[]|e] w2 Hf2; [|by apply Hfail]. rewrite wp_bind, wp_lift.
  destruct (json_MarshalIndent m) as [d|e] eqn:Ej; [|by apply Hfail]. rewrite wp_bind, wp_wrap.
  eapply wp_mono; [apply wp_CreateTemp, Hf2|]. intros [[f tp]|e] w3 H3.
  2: { apply Hfail. eapply framed_trans; eauto. }
  destruct H3 as (Ht & Hpos & Happ & Htp). rewrite wp_defer.
  apply (wp_mono _ _ (commit_open w2 tp p (d ++ [Byte.x0a]))).
  2: { intros r w4 Hopen. eapply wp_mono; [eapply wp_commit_close; [|exact Hopen]|].
       - intros ->. apply (Hp w2 ".manifest-"). by rewrite Htp.
       - intros r' w5 Hc. unfold manifest_bytes. rewrite Ej.
         split; [eapply commit_post_trans; [exact Hf2|exact Hc]|done]. }
  rewrite wp_bind. eapply wp_mono; [eapply wp_write_file; [exact Ht|by split_and!]|].
  intros [f2|e] w4 H4; [|destruct H4 as (d' & H4); by eapply commit_open_temp].
  destruct H4 as [Ht4 Hend]. cbn [app] in Ht4. eapply wp_commit_tail; [exact Ht4|apply Hend].
Qed.

(** Reading an object changes nothing and gives what is stored. *)
Lemma wp_stream_copy s w :
  wp (stream_copy sha256 zstd_decode s) w (fun r w' => same_files w w' /\
    forall d, r = Ok d -> exists i, w_inodes w !! f_ino (st_file s) = Some i
      /\ zstd_decode (zdrop (f_pos (st_file s)) (i_data i)) = Ok d /\ object_is sha256 (st_ref s) d).
Proof.
  unfold stream_copy. rewrite wp_bind. eapply wp_mono; [apply wp_ReadAll|].
  intros [c|e] w1 [Hs Hc]; [|by split]. destruct (Hc c eq_refl) as (i & Hi & ->). rewrite wp_bind, wp_lift.
  destruct (zstd_decode _) as [raw|] eqn:Ez; [|by split]. rewrite wp_lift. split; [done|].
  intros d [-> Hd]%check_object_Ok. eauto.
Qed.

(** Where the bytes of an object may come from. *)
Definition reader_gives (w : world) (reader : part_reader) (ref : ObjectRef) (d : bytes) : Prop :=
  match reader with
  | StoreReader root => stored w root ref d
  | GivenReader r => fr_OpenObject r ref = Ok d
  | FallbackReader root r => stored w root ref d \/ fr_OpenObject r ref = Ok d
  end.

Lemma wp_copy_object reader ref w :
  wp (copy_object sha256 zstd_decode reader ref) w (fun r w' => same_files w w' /\
    forall d, r = Ok d -> reader_gives w reader ref d).
Proof.
  set (from_store root :=
    let* stream := OpenStream root ref in
    let* copied := try_ (stream_copy sha256 zstd_decode stream) in
    let* closed := try_ (stream_Close stream) in
    lift (match copied, closed with
          | Err e, _ => Err e
          | Ok _, Err e => Err e
          | Ok data, Ok _ => Ok data
          end) : OS bytes).
  assert (forall root w, wp (from_store root) w (fun r w' => same_files w w' /\
    forall d, r = Ok d -> stored w root ref d)) as Hfs.
  { clear w. intros root w. unfold from_store, OpenStream. rewrite !wp_bind, wp_wrap.
    eapply wp_mono; [apply wp_Open|]. intros [f|e] w1 [Hs Hf]; [|by split].
    destruct (Hf f eq_refl) as (Hn & Hpos & _). rewrite wp_ret, wp_bind, wp_try.
    eapply wp_mono; [apply wp_stream_copy|]. intros r w2 [Hs2 Hr]. simpl in Hr.
    rewrite wp_bind, wp_try. unfold stream_Close.
    eapply wp_mono; [apply (wp_kept (same_files w)); [apply keeps_Close, _|by eapply same_files_trans]|].
    intros r3 w3 Hs3. rewrite wp_lift. split; [done|]. intros d Hd.
    destruct r as [d'|]; [|done]. destruct r3; [|done]. simplify_eq.
    destruct (Hr d eq_refl) as (i & Hi & Hz & Hobj). rewrite Hpos, zdrop_0 in Hz by lia.
    destruct Hs as (E1 & E2 & _). rewrite E2 in Hi. exists (i_data i). split; [|done].
    unfold file_data, inode_of. rewrite Hn. simpl. by rewrite Hi. }
  destruct reader as [root|r|root r]; cbn [copy_object reader_gives].
  - apply Hfs.
  - rewrite wp_lift. by split.
  - rewrite wp_bind. eapply wp_mono with (P := fun r w' => same_files w w').
    { apply wp_kept; [|done]. unfold store_HasObject. keeps. }
    intros [[]|e] w1 Hs1; [| |by split].
    + eapply wp_mono; [apply Hfs|]. intros r1 w2 [Hs2 Hd]. split; [by eapply same_files_trans|].
      intros d Hr. left. specialize (Hd d Hr). destruct Hd as (c & Hc & Hz). exists c.
      by rewrite (same_files_data _ _ _ Hs1) in Hc.
    + rewrite wp_lift. split; [done|]. auto.
Qed.
End CommitLemmas.

Section FoldSpec.
Context (sha256 : bytes -> bytes) (zstd_encode zstd_decode : bytes -> result bytes).
Context (json_MarshalIndent : Manifest -> result bytes).
Context (AcquireOperationLock : path -> string -> world -> result unit) (path_string : path -> string).
Hypothesis zstd_roundtrip : forall d c, zstd_encode d = Ok c -> zstd_decode c = Ok d.
Local Abbreviation digest_of := (digest_of sha256).
Local Abbreviation fold_inv := (fold_inv sha256 zstd_decode).
Local Abbreviation part_of := (part_of sha256).
Local Abbreviation part_available := (part_available sha256 zstd_decode).

Lemma new_store_inv root w : world_wf w -> store_inv sha256 zstd_decode (NewObjectStore root) w.
Proof. intros Hw. split; [done|]. intros digest co. simpl. by rewrite lookup_empty. Qed.

Lemma fold_scan_spec ctx o content w r s :
  world_wf w -> fold_scan sha256 zstd_encode zstd_decode ctx o content w = (r, s) ->
  match r with
  | Ok _ => fold_inv o w s /\ fs_recon s = content /\ fs_source s = content
  | Err _ => framed nothing w (fs_store s).2
  end.
Proof using zstd_roundtrip.
  intros Hw Hs. unfold fold_scan in Hs. destruct (chunker_New (fo_CDC o) true) as [c|e] eqn:Ec.
  2: { simplify_eq. by apply framed_refl. }
  set (s0 := {| fs_store := _ |}) in *.
  assert (scan_inv sha256 zstd_decode o w [] [] (c, s0)) as H0'.
  { split_and!; [|done|]; simpl.
    - split; simpl; auto; [by apply new_store_inv|intros p; simpl; set_solver|by apply framed_refl|].
      by exists [].
    - unfold chunker_New in Ec. repeat case_match; by simplify_eq. }
  pose proof (wp_fold_loop sha256 zstd_encode zstd_decode zstd_roundtrip o w (S (length content)) ctx
    content [] (fo_Opaque o) [] [] (c, s0) H0' (fun _ => eq_refl) ltac:(lia) eq_refl) as Hw'.
  unfold wp in Hw'. destruct (fold_loop _ _ _ _ _ _ _ _ _ _) as [r1 [c1 s1]]. simplify_eq. simpl in Hw'.
  destruct r; [|done]. destruct Hw' as [(Hi & Hsrc & Hrec) Hc]. simpl in *. rewrite Hc, app_nil_r in Hrec. done.
Qed.

Lemma keeps_verifyCurrentSource P `{TickStable P} p initial source :
  keeps P (verifyCurrentSource sha256 p initial source).
Proof. unfold verifyCurrentSource. keeps. Qed.

Lemma wp_copy_parts ctx reader parts hashed w :
  wp (copy_parts sha256 zstd_decode ctx reader parts hashed) w (fun _ w' => same_files w w').
Proof.
  revert ctx hashed w. induction parts as [|part parts IH]; intros ctx hashed w; cbn [copy_parts]; [done|].
  destruct (ctx_Err ctx) as [[e|] ctx1]; [done|]. rewrite wp_bind.
  eapply wp_mono; [apply wp_copy_object|]. intros [d|e] w1 [Hs _]; [|done].
  eapply wp_mono; [apply IH|]. intros r w2 Hs2. by eapply same_files_trans.
Qed.

(** The paths a fold may change. *)
Definition fold_touches (session : Session) (o : FoldOptions) (mpath : path) (q : path) : Prop :=
  q = mpath \/ (fo_RemoveSource o = true /\ q = fse_RolloutPath session).

(** What a committed fold leaves behind. *)
Definition fold_committed (now : string) (session : Session) (o : FoldOptions) (mpath : path)
    (s : fold_state) (content : bytes) (res : FoldResult) (w' : world) : Prop :=
  let m := new_manifest now (path_string (fse_RolloutPath session)) session o (fs_parts s)
             {| src_Bytes := zlen content; src_SHA256 := digest_of content |} in
  fres_Verified res = true /\ fres_RemovedSource res = fo_RemoveSource o
  /\ (fo_Apply o = true ->
      file_data w' mpath = Some (manifest_bytes json_MarshalIndent m) /\ durable w' mpath
      /\ validateManifest m = Ok tt /\ is_ok (json_MarshalIndent m) = true
      /\ Forall (part_available o w') (fs_parts s)).

Lemma part_available_avoids o P w w' part :
  avoids_objects (fo_StoreDir o) P -> frame P w w' -> part_available o w part -> part_available o w' part.
Proof.
  intros HP Hf [He|(d & Hd)]; [by left|right]. exists d. by eapply stored_frame.
Qed.

Lemma verified_true content : (zlen content =? zlen content) && string_is (digest_of content) (digest_of content) = true.
Proof. unfold string_is. rewrite Z.eqb_refl, bool_decide_eq_true_2; done. Qed.

Lemma wp_sync_store ctx st w :
  world_wf w -> pending_inv st w ->
  wp (sync_store ctx st) w (fun r w' => framed nothing w w'
    /\ (is_ok r = true -> forall p, p ∈ os_pending st -> durable w' p)).
Proof.
  intros Hw Hp. pose proof (wp_SyncPending ctx st w Hw Hp) as Hs. unfold wp, sync_store in *.
  destruct (SyncPending ctx (st, w)) as [r [st' w']]. simpl in *. destruct Hs as (Hf & _ & _ & Hd).
  split; [done|]. intros Hr. by apply Hd.
Qed.

(** The part of the commit that follows the verification of the source. *)
Lemma wp_fold_publish ctx o mpath m ow s w w1 :
  fold_inv o w s -> same_files (fs_store s).2 w1 -> not_temporary mpath ->
  avoids_objects (fo_StoreDir o) (fun q => q = mpath) ->
  wp (sync_store ctx (fs_store s).1 ;;; writeManifestPath json_MarshalIndent mpath m ow) w1
    (fun r w2 => framed (fun q => q = mpath) w w2
       /\ (is_ok r = true -> fo_Apply o = true ->
           file_data w2 mpath = Some (manifest_bytes json_MarshalIndent m) /\ durable w2 mpath
           /\ validateManifest m = Ok tt /\ is_ok (json_MarshalIndent m) = true
           /\ Forall (part_available o w2) (fs_parts s))).
Proof using.
  intros Hi Hs1 Hnt Hav.
  assert (framed nothing (fs_store s).2 w1) as Hf1.
  { eapply same_files_framed; [apply framed_refl, (fi_store _ _ _ _ _ Hi)|done]. }
  assert (forall w2, framed nothing (fs_store s).2 w2 -> framed (fun q => q = mpath) w w2) as Hup.
  { intros w2 Hf2. pose proof (framed_trans _ _ _ _ (fi_framed _ _ _ _ _ Hi) Hf2) as [Hw2 Hf].
    split; [done|]. by apply frame_nothing. }
  rewrite wp_bind. eapply wp_mono; [apply wp_sync_store; [apply Hf1|]|].
  { intros p Hp. destruct Hs1 as (-> & _). by apply (fi_pending _ _ _ _ _ Hi). }
  intros [[]|e] w2 [Hf2 _]; pose proof (framed_trans _ _ _ _ Hf1 Hf2) as Hf12; [|split; [auto|done]].
  eapply wp_mono; [apply wp_writeManifestPath; [apply Hf2|done]|].
  intros r w3 [[Hf3 Hdata] Hval]. split; [eapply framed_trans; [by apply Hup|done]|].
  intros Hr Ha. destruct (Hdata Hr) as [Hd Hdur]. destruct (Hval Hr) as [Hv Hj]. split_and!; auto.
  eapply Forall_impl; [exact (fi_available _ _ _ _ _ Hi Ha)|]. intros part Hpart.
  eapply part_available_avoids; [exact Hav|apply Hf3|].
  eapply part_available_avoids; [apply avoids_nothing|apply Hf12|done].
Qed.

Lemma wp_fold_commit ctx now session o mpath before file s content w :
  fold_inv o w s -> fs_recon s = content -> fs_source s = content -> fo_beforeCommit o = None ->
  not_temporary mpath -> avoids_objects (fo_StoreDir o) (fold_touches session o mpath) ->
  (fo_RemoveSource o = true -> fse_RolloutPath session <> mpath) ->
  (fo_RemoveSource o = true -> fo_Apply o = true) ->
  wp (fold_commit sha256 zstd_decode json_MarshalIndent path_string ctx now session o mpath before file s)
    (fs_store s).2
    (fun r w' => framed (fold_touches session o mpath) w w'
       /\ forall res, r = Ok res -> fold_committed now session o mpath s content res w').
Proof using zstd_roundtrip.
  intros Hi Hrec Hsrc Hhook Hnt Hav Hne Hra. unfold fold_commit. rewrite Hrec, Hsrc, Hhook.
  rewrite (fi_counts _ _ _ _ _ Hi), Hsrc. rewrite verified_true. simpl negb. cbv iota.
  set (w1 := (fs_store s).2).
  assert (forall w2, same_files w1 w2 -> framed (fold_touches session o mpath) w w2) as Hup.
  { intros w2 Hs2. eapply same_files_framed; [|exact Hs2].
    pose proof (fi_framed _ _ _ _ _ Hi) as [? ?]. split; [done|]. by apply frame_nothing. }
  rewrite wp_bind, wp_wrap. eapply wp_mono; [apply (wp_kept (same_files w1)); [apply keeps_Close, _|done]|].
  intros [[]|e] w2 Hs2; [|split; [auto|done]]. rewrite wp_bind, wp_ret, wp_bind, wp_wrap.
  eapply wp_mono; [apply (wp_kept (same_files w1)); [apply keeps_Stat, _|done]|].
  intros [after|e] w3 Hs3; [|split; [auto|done]].
  destruct (source_changed before after); [split; [auto|done]|]. rewrite wp_bind.
  eapply wp_mono; [apply (wp_kept (same_files w1)); [apply keeps_verifyCurrentSource, _|done]|].
  intros [[]|e] w4 Hs4; [|split; [auto|done]].
  destruct (fo_Apply o) eqn:Ea; simpl negb; cbv iota.
  2: { rewrite wp_ret. split; [auto|]. intros res [= <-]. split_and!; [done| |by rewrite Ea].
       simpl. destruct (fo_RemoveSource o); [|done]. by specialize (Hra eq_refl). }
  rewrite wp_bind. eapply wp_mono.
  { unfold verifyStoredManifest. rewrite wp_bind. eapply wp_mono; [apply wp_copy_parts|].
    intros r w5 Hs5. instantiate (1 := fun r w' => same_files w1 w').
    pose proof (same_files_trans _ _ _ Hs4 Hs5) as Hs15. by destruct r. }
  intros [[]|e] w5 Hs5; [|split; [auto|done]].
  set (m := new_manifest _ _ _ _ _ _).
  assert (avoids_objects (fo_StoreDir o) (fun q => q = mpath)) as Hav1.
  { intros digest Hd. apply (Hav digest). by left. }
  pose proof (wp_fold_publish ctx o mpath m (fo_Overwrite o) s w w5 Hi Hs5 Hnt Hav1) as Hpub.
  apply wp_assoc. rewrite wp_bind. eapply wp_mono; [exact Hpub|]. clear Hpub.
  assert (forall w6, framed (fun q => q = mpath) w w6 -> framed (fold_touches session o mpath) w w6) as Hup6.
  { intros w6 [? Hf]. split; [done|]. eapply frame_mono; [|exact Hf]. intros q ->. by left. }
  intros [[]|e] w6 [Hf6 Hpost]; [|split; [auto|done]]. specialize (Hpost eq_refl Ea).
  destruct (fo_RemoveSource o) eqn:Er.
  2: { rewrite wp_ret. split; [auto|]. intros res [= <-]. by split_and!. }
  rewrite wp_bind, wp_wrap. set (P := fun q => q = fse_RolloutPath session).
  assert (avoids_objects (fo_StoreDir o) P) as HavP.
  { intros digest Hd. apply (Hav digest). right. by split. }
  eapply wp_mono; [apply (wp_kept (framed P w6)); [apply keeps_Remove; done|apply framed_refl, Hf6]|].
  intros r7 w7 Hf7. assert (framed (fold_touches session o mpath) w w7) as Hf7'.
  { eapply framed_trans; [by apply Hup6|]. split; [apply Hf7|]. eapply frame_mono; [|apply Hf7].
    intros q ->. right. by split. }
  destruct r7 as [[]|e]; [|split; [done|done]]. rewrite wp_ret. split; [done|]. intros res [= <-].
  destruct Hpost as (Hd & Hdur & Hv & Hj & Hall). split_and!; [done|done|]. intros _.
  assert (~ P mpath) as HnP by (intros Heq; by apply (Hne eq_refl)).
  split_and!; auto.
  - eapply frame_file_data; [apply Hf7|done|done].
  - eapply frame_durable_file; [apply Hf7|done|done].
  - eapply Forall_impl; [exact Hall|]. intros part. eapply part_available_avoids; [exact HavP|apply Hf7].
Qed.

Lemma manifest_not_object root id digest : ManifestPath root id <> object_path root digest.
Proof. unfold ManifestPath, object_path. simpl. intros Heq. apply (f_equal length) in Heq. simpl in Heq. lia. Qed.

Lemma manifest_not_temporary root id : not_temporary (ManifestPath root id).
Proof.
  unfold ManifestPath. replace (id +:+ ".json")%string with ((id +:+ ".") +:+ "json") by by rewrite <- string_app_assoc.
  by apply not_temporary_suffix.
Qed.

(** The checks and the opening of the source, up to the scan. *)
Lemma wp_fold_open (pre : OS unit) p w (k : File -> FileInfo -> OS FoldResult) (check : FileInfo -> OS unit) Q :
  (forall P, TickStable P -> keeps P pre) -> (forall b P, TickStable P -> keeps P (check b)) ->
  (forall e w', same_files w w' -> Q (Err e) w') ->
  (forall file before w' n i, same_files w w' -> w_names w !! p = Some n -> w_inodes w !! n = Some i ->
     f_ino file = n -> fi_size before = zlen (i_data i) -> wp (k file before) w' Q) ->
  wp (pre ;;; let* file := wrap "open rollout: %w" (os_Open p) in
      let* before := wrap "stat rollout: %w" (file_Stat file) in check before ;;; k file before) w Q.
Proof.
  intros Hpre Hcheck Hfail Hk. rewrite wp_bind.
  eapply wp_mono; [apply (wp_kept (same_files w)); [apply Hpre, _|done]|].
  intros [[]|e] w1 Hs1; [|by apply Hfail]. rewrite wp_bind, wp_wrap. eapply wp_mono; [apply wp_Open|].
  intros [f|e] w2 [Hs2 Hf]; [|apply Hfail; by eapply same_files_trans].
  destruct (Hf f eq_refl) as (Hn & _). rewrite wp_bind, wp_wrap. eapply wp_mono; [apply wp_file_Stat|].
  pose proof (same_files_trans _ _ _ Hs1 Hs2) as Hs12.
  intros [b|e] w3 [Hs3 Hb]; pose proof (same_files_trans _ _ _ Hs12 Hs3) as Hs13; [|by apply Hfail].
  destruct (Hb b eq_refl) as (i & Hi & _ & Hsize & _). rewrite wp_bind.
  eapply wp_mono; [apply (wp_kept (same_files w)); [apply Hcheck, _|done]|].
  intros [[]|e] w4 Hs4; [|by apply Hfail]. apply (Hk _ _ _ (f_ino f) i); auto.
  - by destruct Hs1 as (<- & _).
  - by destruct Hs12 as (_ & <- & _).
Qed.

Lemma rollout_outside session o :
  ~ fo_StoreDir o `suffix_of` fse_RolloutPath session ->
  avoids_objects (fo_StoreDir o) (fold_touches session o (ManifestPath (fo_StoreDir o) (fse_ID session)))
  /\ fse_RolloutPath session <> ManifestPath (fo_StoreDir o) (fse_ID session).
Proof.
  intros Hout. split.
  - intros digest [Heq|[_ Heq]]; [by eapply manifest_not_object|].
    apply Hout. rewrite <- Heq. unfold object_path. by eexists.
  - intros Heq. apply Hout. rewrite Heq. unfold ManifestPath. by eexists.
Qed.

Lemma fold_spec ctx now session options w :
  world_wf w -> fo_beforeCommit options = None -> fo_ManifestPathOverride options = None ->
  ~ fo_StoreDir options `suffix_of` fse_RolloutPath session ->
  let o := fold_defaults options in
  let mpath := ManifestPath (fo_StoreDir options) (fse_ID session) in
  wp (Fold sha256 zstd_encode zstd_decode json_MarshalIndent AcquireOperationLock path_string
        ctx now session options) w (fun r w' =>
    framed (fold_touches session o mpath) w w'
    /\ forall res, r = Ok res -> exists content s,
        file_data w (fse_RolloutPath session) = Some content
        /\ fold_inv o w s /\ fs_recon s = content
        /\ fold_committed now session o mpath s content res w').
Proof using zstd_roundtrip.
  intros Hw Hhook Hover Hout o mpath. unfold Fold.
  assert (forall (r : result FoldResult) w', same_files w w' -> is_ok r = false ->
    framed (fold_touches session o mpath) w w' /\ forall res, r = Ok res -> exists content s,
        file_data w (fse_RolloutPath session) = Some content
        /\ fold_inv o w s /\ fs_recon s = content
        /\ fold_committed now session o mpath s content res w') as Hfail.
  { intros r w' Hs Hr. split; [|by intros res ->]. eapply same_files_framed; [by apply framed_refl|done]. }
  destruct (fo_RemoveSource options && negb (fo_Apply options)) eqn:Era; [by apply Hfail|].
  destruct (_ && _ && _); [by apply Hfail|].
  fold o. rewrite wp_bind, wp_lift. unfold fold_manifest_path. simpl. rewrite Hover.
  destruct (rollout_outside session o Hout) as [Hav Hne].
  apply wp_fold_open.
  - intros P HP. destruct (fo_Apply options && negb (fo_Overwrite options)); [by apply keeps_require_absent|apply keeps_ret].
  - intros b P HP. destruct (fo_Apply options); [|apply keeps_ret]. keeps.
  - intros e w' Hs. by apply Hfail.
  - intros file before w1 n i Hs1 Hn Hi Hino Hsize. rewrite Hino.
    unfold wp. cbv beta. replace (w_inodes w1) with (w_inodes w) by (by destruct Hs1 as (_ & <- & _)).
    rewrite Hi, Hsize, ztake_all by lia.
    destruct (fold_scan _ _ _ ctx o (i_data i) w1) as [r s] eqn:Es.
    pose proof (fold_scan_spec ctx o (i_data i) w1 r s (same_files_wf _ _ Hw Hs1) Es) as Hscan.
    assert (framed nothing w w1) as Hf1 by (eapply same_files_framed; [by apply framed_refl|done]).
    destruct r as [[]|e].
    + destruct Hscan as (Hfi & Hrec & Hsrc).
      assert (fold_inv o w s) as Hfi'.
      { destruct Hfi. split; auto. eapply framed_trans; eauto. }
      pose proof (wp_fold_commit ctx now session o mpath before file s (i_data i) w Hfi' Hrec Hsrc Hhook
        (manifest_not_temporary _ _) Hav (fun _ => Hne)) as Hc.
      destruct (Hc ltac:(intros Hr; change (fo_RemoveSource options = true) in Hr; rewrite Hr in Era; by destruct (fo_Apply options) eqn:Ea)) as [Hframe Hres].
      split; [exact Hframe|]. intros res Hr. exists (i_data i), s. split_and!; auto.
      unfold file_data, inode_of. rewrite Hn. simpl. by rewrite Hi.
    + simpl. split; [|done]. pose proof (framed_trans _ _ _ _ Hf1 Hscan) as [? ?].
      split; [done|]. by apply frame_nothing.
Qed.
End FoldSpec.

(** ** Restoring *)

Section UnfoldSpec.
Context (sha256 : bytes -> bytes) (zstd_decode : bytes -> result bytes).
Context (json_Unmarshal : bytes -> result Manifest) (parse_path : string -> path).
Local Abbreviation digest_of := (digest_of sha256).
Local Abbreviation stored := (stored sha256 zstd_decode).
Local Abbreviation unfold_parts := (unfold_parts sha256 zstd_decode).
Local Abbreviation UnfoldWithOptions := (UnfoldWithOptions sha256 zstd_decode json_Unmarshal).

Lemma wp_unfold_parts ctx reader parts f hashed w0 tp n w :
  temp_file w0 tp n hashed false w -> at_end f n hashed ->
  wp (unfold_parts ctx reader parts f hashed) w (fun r w' =>
    match r with
    | Ok (f', h') => temp_file w0 tp n h' false w' /\ at_end f' n h'
    | Err _ => exists d', temp_file w0 tp n d' false w'
    end).
Proof.
  revert ctx f hashed w. induction parts as [|part parts IH]; intros ctx f hashed w Ht Hend; cbn [Fold.unfold_parts].
  { rewrite wp_ret. done. }
  destruct (ctx_Err ctx) as [[e|] ctx1].
  { rewrite wp_bind, wp_ignore. eapply wp_mono;
      [apply (wp_kept (temp_file w0 tp n hashed false)); [apply keeps_Close, _|done]|].
    intros r1 w1 Ht1. exists hashed. exact Ht1. }
  rewrite wp_bind, wp_or_else. eapply wp_mono; [apply wp_copy_object|].
  intros [d|e] w1 [Hs1 _]; pose proof (temp_same_files _ _ _ _ _ _ _ Ht Hs1) as Ht1.
  2: { eapply wp_mono; [apply (wp_kept (temp_file w0 tp n hashed false)); [apply keeps_Close, _|done]|]. intros r2 w2 Ht2. exists hashed. exact Ht2. }
  rewrite wp_bind. eapply wp_mono; [eapply wp_write_file; [exact Ht1|done]|].
  intros [f2|e] w2 H2; [|done]. destruct H2 as [Ht2 Hend2]. by apply IH.
Qed.

Lemma fine_copy_object root ref d w :
  stored w root ref d ->
  fine (copy_object sha256 zstd_decode (StoreReader root) ref) w (fun d' w' => d' = d /\ same_files w w').
Proof.
  intros (c & Hc & Hz & Hobj) Hf. unfold file_data, inode_of in Hc.
  destruct (w_names w !! object_path root (SHA256 ref)) as [n|] eqn:En; [|done]. simpl in Hc.
  destruct (w_inodes w !! n) as [i|] eqn:Ei; [|done]. simpl in Hc. simplify_eq.
  unfold copy_object, OpenStream, stream_copy, stream_Close, os_Open, os_OpenFile, file_ReadAll, file_Close,
    bind, wrap, try_, lift, ret, syscall, next_outcome. rewrite Hf. simpl. rewrite En. simpl. rewrite Ei. simpl.
  rewrite zdrop_0 by lia. rewrite Hz. simpl. rewrite (check_object_complete _ _ _ Hobj).
  exists d. eexists. split; [done|]. by split.
Qed.

Lemma fine_unfold_parts root parts ds f hashed w0 tp n w :
  temp_file w0 tp n hashed false w -> at_end f n hashed ->
  Forall2 (fun part d => stored w0 root (p_Object part) d) parts ds ->
  fine (unfold_parts None (StoreReader root) parts f hashed) w (fun out w' =>
    out.2 = hashed ++ concat ds /\ temp_file w0 tp n out.2 false w' /\ at_end out.1 n out.2).
Proof.
  intros Ht Hend Hall. revert f hashed w Ht Hend.
  induction Hall as [|part d parts ds Hd Hall IH]; intros f hashed w Ht Hend; cbn [Fold.unfold_parts ctx_Err].
  { apply fine_ret. simpl. by rewrite app_nil_r. }
  apply fine_bind, fine_or_else. eapply fine_mono; [apply (fine_copy_object root _ d)|].
  { eapply stored_frame; [apply avoids_nothing|apply Ht|done]. }
  intros d' w1 [-> Hs1]. pose proof (temp_same_files _ _ _ _ _ _ _ Ht Hs1) as Ht1. apply fine_bind.
  eapply fine_mono; [apply (fine_wp _ _ _ (wp_write_file _ _ _ _ _ _ _ d _ Ht1 Hend)), fine_write_file|].
  { destruct Hend as (-> & _). destruct (tf_inode _ _ _ _ _ _ Ht1) as (i & Hi & _). eauto. }
  intros f2 w2 [Ht2 Hend2]. eapply fine_mono; [by apply IH|]. intros [f3 h] w3 (Hh & Ht3 & Hend3). simpl in *.
  by rewrite app_assoc.
Qed.

(** The commit without failures. *)
Lemma fine_commit_tail w0 tp p n d sy f a b c w :
  temp_file w0 tp n d sy w -> f_ino f = n -> filepath_Dir p ∈ w_dirs w ->
  fine (sync_file a f ;;; wrap b (file_Close f) ;;; wrap c (os_Rename tp p) ;;; syncDirectory (filepath_Dir p))
    w (fun _ w' => True).
Proof.
  intros Ht Hf Hd. apply fine_bind.
  assert (is_Some (w_inodes w !! f_ino f)) as Hino.
  { rewrite Hf. destruct (tf_inode _ _ _ _ _ _ Ht) as (i & Hi & _). eauto. }
  assert (filepath_Dir p ∈ w_dirs (sync_file a f w).2) as Hd1.
  { pose proof (keeps_or_else (framed nothing w) (wrap a (file_Sync f)) (file_Close f)
      ltac:(keeps) ltac:(keeps) w (framed_refl _ _ (proj1 (tf_framed _ _ _ _ _ _ Ht)))) as Hk.
    by apply (fr_dirs _ _ _ (proj2 Hk)). }
  intros Hfaults. destruct (fine_sync_file a f w Hino Hfaults) as ([] & w1 & Hr & Hf1 & _).
  pose proof (wp_sync_file_temp _ _ _ _ _ a f _ Ht Hf) as Hw. unfold wp in Hw. rewrite Hr in Hw, Hd1.
  exists tt, w1. split_and!; auto. clear Hr. simpl in *. apply fine_bind, fine_wrap.
  eapply fine_mono; [apply fine_Close|]. intros [] w2 Hs2. apply fine_bind, fine_wrap.
  pose proof (temp_same_files _ _ _ _ _ _ _ Hw Hs2) as Ht2.
  assert (filepath_Dir p ∈ w_dirs w2) as Hd2 by (destruct Hs2 as (_ & _ & -> & _); done).
  apply (fine_mono _ _ (fun _ w3 => filepath_Dir p ∈ w_dirs w3)).
  2: { intros [] w3 Hd3. apply fine_wrap, fine_sync_dir. done. }
  apply fine_syscall. simpl. rewrite (tf_name _ _ _ _ _ _ Ht2), decide_True by done. eauto.
Qed.

Lemma wp_LoadManifest root id w :
  wp (LoadManifest json_Unmarshal root id) w (fun r w' => same_files w w' /\ forall m, r = Ok m ->
    exists raw, file_data w (ManifestPath root id) = Some raw /\ DecodeManifest json_Unmarshal raw = Ok m).
Proof.
  unfold LoadManifest, LoadManifestPath. rewrite wp_bind, wp_lift. destruct (validateSessionID id); [|by split].
  rewrite wp_bind, wp_wrap. eapply wp_mono; [apply wp_ReadFile|]. intros [raw|e] w1 [Hs Hr]; [|by split].
  rewrite wp_lift. split; [done|]. intros m Hm. exists raw. auto.
Qed.

Lemma verifySourceDigest_Ok d n source :
  verifySourceDigest sha256 d n source = Ok tt <-> n = src_Bytes source /\ digest_of d = src_SHA256 source.
Proof.
  unfold verifySourceDigest, string_is. destruct (n =? src_Bytes source) eqn:En; zbool; simpl.
  - destruct (bool_decide _) eqn:Eb; simpl; [apply bool_decide_eq_true_1 in Eb|apply bool_decide_eq_false_1 in Eb];
      naive_solver.
  - naive_solver.
Qed.

(** What a successful restore means: the target holds bytes of the recorded
    length and digest, durably; nothing else has changed. *)
Definition unfold_post (w : world) (root : path) (id : string) (target : path)
    (r : result UnfoldResult) (w' : world) : Prop :=
  framed (fun q => q = target) w w'
  /\ forall u, r = Ok u -> exists raw m d,
       file_data w (ManifestPath root id) = Some raw /\ DecodeManifest json_Unmarshal raw = Ok m
       /\ file_data w' target = Some d /\ durable w' target
       /\ zlen d = src_Bytes (mf_Source m) /\ digest_of d = src_SHA256 (mf_Source m).

Lemma wp_Unfold ctx root id target overwrite budget reader w :
  world_wf w -> not_temporary target ->
  wp (UnfoldWithOptions ctx parse_path root id {| uo_TargetPath := Some target; uo_Overwrite := overwrite;
        uo_Budget := budget; uo_Reader := reader |}) w (unfold_post w root id target).
Proof.
  intros Hw Hnt. unfold Fold.UnfoldWithOptions.
  assert (forall w' e, framed nothing w w' -> unfold_post w root id target (Err e) w') as Hfail.
  { intros w' e [Hw' Hf]. split; [|done]. split; [done|]. by apply frame_nothing. }
  assert (forall w', same_files w w' -> framed nothing w w') as Hsame.
  { intros w' Hs. eapply same_files_framed; [by apply framed_refl|done]. }
  rewrite wp_bind. eapply wp_mono; [apply wp_LoadManifest|].
  intros [m|e] w1 [Hs1 Hm]; [|auto]. destruct (Hm m eq_refl) as (raw & Hraw & Hdec). cbn [uo_TargetPath].
  rewrite wp_bind, wp_try. eapply wp_mono; [apply (wp_kept (same_files w)); [apply keeps_Stat, _|done]|].
  intros st w2 Hs2. rewrite wp_bind.
  eapply wp_mono; [apply (wp_kept (same_files w)); [destruct st; keeps|done]|].
  intros [reclaim|e] w3 Hs3; [|auto]. rewrite wp_bind, wp_get, wp_bind, wp_lift.
  destruct (uo_Budget _ _ _); [|auto]. rewrite wp_bind, wp_wrap.
  eapply wp_mono; [apply (wp_kept (framed nothing w)); [apply keeps_MkdirAll|auto]|].
  intros [[]|e] w4 Hf4; [|auto]. rewrite wp_bind, wp_wrap. eapply wp_mono; [apply wp_CreateTemp, Hf4|].
  intros [[f tp]|e] w5 H5; [|apply Hfail; eapply framed_trans; eauto].
  destruct H5 as (Ht & Hpos & Happ & Htp). rewrite wp_defer.
  set (P r w := exists d, commit_open w4 tp target d r w /\ forall u : UnfoldResult, r = Ok u ->
        zlen d = src_Bytes (mf_Source m) /\ digest_of d = src_SHA256 (mf_Source m)).
  apply (wp_mono _ _ P).
  2: { intros r w6 (d & Hopen & Hd). eapply wp_mono; [eapply wp_commit_close; [|exact Hopen]|].
       - intros ->. apply (Hnt w4 ".unfold-"). by rewrite Htp.
       - intros r' w7 Hc. apply (commit_post_trans w) in Hc as [Hf7 Hok]; [|done]. split; [done|].
         intros u ->. destruct (Hok eq_refl). destruct (Hd u eq_refl). exists raw, m, d. by split_and!. }
  rewrite wp_bind. eapply wp_mono; [eapply wp_unfold_parts; [exact Ht|by split_and!]|].
  intros [[f2 h]|e] w6 H6; [|destruct H6 as (d' & H6); exists []; split; [by eapply commit_open_temp|done]].
  destruct H6 as [Ht6 Hend]. rewrite wp_bind, wp_or_else, wp_lift.
  destruct (verifySourceDigest sha256 h (zlen h) (mf_Source m)) as [[]|e] eqn:Ev.
  2: { eapply wp_mono; [apply (wp_kept (temp_file w4 tp (f_ino f) h false)); [apply keeps_Close, _|done]|].
       intros r w7 Ht7. exists []. split; [left; exists (f_ino f), h; exact Ht7|done]. }
  apply verifySourceDigest_Ok in Ev. rewrite wp_bind.
  eapply wp_mono; [eapply wp_commit_tail; [exact Ht6|apply Hend]|].
  intros [[]|e] w7 Hopen; exists h; split; auto.
Qed.

(** Without failures, a manifest whose parts are all stored is restored. *)
Lemma fine_Unfold root id target budget m raw ds w :
  world_wf w -> not_temporary target ->
  validateSessionID id = Ok tt -> file_data w (ManifestPath root id) = Some raw ->
  DecodeManifest json_Unmarshal raw = Ok m ->
  w_names w !! target = None -> target ∉ w_dirs w -> (forall p w, budget p w = Ok tt) ->
  Forall2 (fun part d => stored w root (p_Object part) d) (mf_Parts m) ds ->
  zlen (concat ds) = src_Bytes (mf_Source m) -> digest_of (concat ds) = src_SHA256 (mf_Source m) ->
  fine (UnfoldWithOptions None parse_path root id {| uo_TargetPath := Some target; uo_Overwrite := false;
        uo_Budget := budget; uo_Reader := None |}) w
    (fun _ w' => file_data w' target = Some (concat ds) /\ durable w' target).
Proof.
  intros Hw Hnt Hid Hraw Hdec Habs Hdir Hbudget Hall Hlen Hdig. unfold Fold.UnfoldWithOptions.
  apply fine_bind. intros Hf0. destruct (ReadFile_fine _ _ _ Hf0 Hraw) as (w1 & Hr1 & Hf1 & Hs1).
  exists m, w1. split_and!; [|done|].
  { unfold LoadManifest, LoadManifestPath, bind, lift, wrap. by rewrite Hid, Hr1, Hdec. }
  cbn [uo_TargetPath uo_Overwrite uo_Budget uo_Reader]. apply fine_bind, fine_try. intros _.
  rewrite (Stat_absent target w1 Hf1) by (destruct Hs1 as (E1 & _ & E3 & _); rewrite ?E1, ?E3; done). simpl. split; [done|].
  apply fine_bind, fine_ret, fine_bind.
  intros _. exists (tick w1 []), (tick w1 []). split_and!; [done..|].
  apply fine_bind. rewrite Hbudget. apply fine_lift, fine_bind, fine_wrap.
  assert (world_wf (tick w1 [])) as Hw1 by (apply wf_tick; by eapply same_files_wf).
  assert (framed nothing w (tick w1 [])) as Hfr1.
  { apply framed_tick. eapply same_files_framed; [by apply framed_refl|done]. }
  intros Hf1'. pose proof (wp_MkdirAll (filepath_Dir target) (tick w1 []) Hw1) as Hmk.
  destruct (fine_MkdirAll (filepath_Dir target) (tick w1 []) Hf1') as ([] & w2 & Hr2 & Hf2 & Hd2).
  unfold wp in Hmk. rewrite Hr2 in Hmk. destruct Hmk as [Hfr2 _]. simpl in *.
  exists tt, w2. split_and!; [done..|]. clear Hr2. apply fine_bind, fine_wrap.
  pose proof (framed_trans _ _ _ _ Hfr1 Hfr2) as Hfrw.
  eapply fine_mono; [apply (fine_wp _ _ _ (wp_CreateTemp _ ".unfold-" ".tmp" w2 (proj1 Hfr2))), fine_CreateTemp, Hd2|].
  intros [f tp] w3 (Ht & Hpos & Happ & Htp). apply fine_defer.
  apply (fine_mono _ _ (fun (_ : UnfoldResult) w' => exists n, published w2 tp target n (concat ds) true w' /\ durable w' target)).
  2: { intros u w4 (n & Hpub & Hdur) Hf4. split; [by apply Remove_faults|].
       assert (tp <> target) as Hne by (intros ->; apply (Hnt w2 ".unfold-"); by rewrite Htp).
       pose proof (wp_commit_close w2 tp target (concat ds) (Ok u) w4 Hne (ex_intro _ n (conj Hpub Hdur))) as Hc.
       by apply Hc. }
  apply fine_bind. eapply fine_mono; [eapply (fine_unfold_parts root _ ds); [exact Ht|by split_and!|]|].
  { eapply Forall2_impl; [exact Hall|]. intros part d Hd. eapply stored_frame; [apply avoids_nothing|apply Hfrw|done]. }
  intros [f4 h] w4 (Hh & Ht4 & Hend4). simpl in Hh. subst h. simpl in *. apply fine_bind, fine_or_else.
  assert (verifySourceDigest sha256 (concat ds) (zlen (concat ds)) (mf_Source m) = Ok tt) as ->
    by by apply verifySourceDigest_Ok.
  apply fine_lift, fine_bind.
  eapply fine_mono; [apply (fine_wp _ _ _ (wp_commit_tail _ _ target _ _ _ _ _ _ _ _ Ht4 (proj1 Hend4))),
    (fine_commit_tail _ _ target _ _ _ _ _ _ _ _ Ht4 (proj1 Hend4))|].
  { apply (fr_dirs _ _ _ (proj2 (tf_framed _ _ _ _ _ _ Ht4))). done. }
  intros [] w5 Hopen. by apply fine_ret.
Qed.
End UnfoldSpec.

(** ** Theorems *)

Section FoldTheorems.
Context (sha256 : bytes -> bytes) (zstd_encode zstd_decode : bytes -> result bytes).
Context (json_MarshalIndent : Manifest -> result bytes) (json_Unmarshal : bytes -> result Manifest).
Context (AcquireOperationLock : path -> string -> world -> result unit).
Context (path_string : path -> string) (parse_path : string -> path).
(** zstd frames decode to what was encoded. *)
Hypothesis zstd_roundtrip : forall d c, zstd_encode d = Ok c -> zstd_decode c = Ok d.
(** [encoding/json]: an encoded manifest, followed by a newline, decodes to itself. *)
Hypothesis json_roundtrip : forall m d, json_MarshalIndent m = Ok d -> json_Unmarshal (d ++ [Byte.x0a]) = Ok m.
Local Abbreviation Fold := (Fold sha256 zstd_encode zstd_decode json_MarshalIndent AcquireOperationLock path_string).
Local Abbreviation Unfold := (UnfoldWithOptions sha256 zstd_decode json_Unmarshal).
Local Abbreviation stored := (stored sha256 zstd_decode).

(** The store holds, for some part, other bytes than the piece of the file it
    stands for, with the same SHA-256. *)
Definition collision_at (w : world) (root : path) (parts : list Part) (ds : list bytes) : Prop :=
  exists k part d d', parts !! k = Some part /\ ds !! k = Some d
    /\ stored w root (p_Object part) d' /\ d' <> d /\ sha256 d' = sha256 d.

Lemma stored_or_collision w root parts ds :
  Forall2 (part_of sha256) parts ds -> Forall (fun part => exists d, stored w root (p_Object part) d) parts ->
  Forall2 (fun part d => stored w root (p_Object part) d) parts ds \/ collision_at w root parts ds.
Proof.
  induction 1 as [|part d parts ds (_ & Hs & _) Hall IH]; intros Hst; [by left|].
  apply Forall_cons_1 in Hst as [(d' & Hd') Hst].
  destruct (decide (d' = d)) as [->|Hne].
  - destruct (IH Hst) as [HF|(k & p & x & x' & ? & ? & ?)]; [left; by constructor|right].
    by exists (S k), p, x, x'.
  - right. exists O, part, d, d'. split_and!; auto. destruct Hd' as (c & _ & _ & Hd' & _).
    rewrite Hs in Hd'. by apply hex_Encode_inj in Hd'.
Qed.

(** C15. Folding loses nothing: whatever the source contains (oversized lines,
    invalid JSON, no final newline), the parts recorded by a completed scan stand,
    in order, for consecutive pieces that make up the source exactly, so the
    segmentation check that follows always passes. *)
Theorem fold_segmentation ctx o content w s :
  world_wf w ->
  fold_scan sha256 zstd_encode zstd_decode ctx o content w = (Ok tt, s) ->
  exists ds, content = concat ds /\ Forall2 (part_of sha256) (fs_parts s) ds
    /\ fs_recon s = content /\ fs_source s = content
    /\ fc_SourceBytes (fs_counts s) = zlen content.
Proof using zstd_roundtrip.
  intros Hw Hs. apply (fold_scan_spec _ _ _ zstd_roundtrip) in Hs as (Hi & Hrec & Hsrc); [|done].
  destruct (fi_parts _ _ _ _ _ Hi) as (ds & Hds & Hall). exists ds. split_and!; auto; [congruence|].
  by rewrite (fi_counts _ _ _ _ _ Hi), Hsrc.
Qed.

(** C3. A fold, successful or not and wherever a system call fails, changes no
    existing file except the manifest it writes and, with [RemoveSource], the
    source it removes.  When it succeeds with [Apply], the manifest is on disk
    and durable, and describes a sequence of stored objects for pieces that make
    up the source. *)
Theorem fold_safe ctx now session options w r w' :
  world_wf w -> fo_beforeCommit options = None -> fo_ManifestPathOverride options = None ->
  ~ fo_StoreDir options `suffix_of` fse_RolloutPath session ->
  Fold ctx now session options w = (r, w') ->
  let mpath := ManifestPath (fo_StoreDir options) (fse_ID session) in
  (forall q d, q <> mpath -> (fo_RemoveSource options = true -> q <> fse_RolloutPath session) ->
     file_data w q = Some d -> file_data w' q = Some d)
  /\ (forall res, r = Ok res -> fo_Apply options = true -> exists content ds m,
        file_data w (fse_RolloutPath session) = Some content /\ content = concat ds
        /\ Forall2 (part_of sha256) (mf_Parts m) ds
        /\ Forall (part_available sha256 zstd_decode (fold_defaults options) w') (mf_Parts m)
        /\ file_data w' mpath = Some (manifest_bytes json_MarshalIndent m) /\ durable w' mpath).
Proof using zstd_roundtrip.
  intros Hw Hhook Hover Hout Hf mpath.
  pose proof (fold_spec sha256 zstd_encode zstd_decode json_MarshalIndent AcquireOperationLock path_string zstd_roundtrip
    ctx now session options w Hw Hhook Hover Hout) as Hspec.
  unfold wp in Hspec. rewrite Hf in Hspec. destruct Hspec as [Hframe Hres]. split.
  - intros q d Hq Hr. eapply frame_file_data; [apply Hframe|]. intros [?|[Hrem Heq]]; [done|]. by apply Hr.
  - intros res -> Ha. destruct (Hres res eq_refl) as (content & s & Hc & Hi & Hrec & _ & _ & Hcom).
    destruct (Hcom Ha) as (Hd & Hdur & _ & _ & Hall).
    destruct (fi_parts _ _ _ _ _ Hi) as (ds & Hds & Hparts).
    exists content, ds. eexists. split_and!; [done|congruence| | |exact Hd|exact Hdur]; done.
Qed.

(** C1. Round trip: a file folded into the store is restored byte for byte, into
    any new target, durably, as long as no system call fails after the fold; the
    only way out is a stored object that collides under SHA-256 with the piece of
    the file it stands for. *)
Theorem fold_unfold_roundtrip ctx now session options res w w' target budget :
  world_wf w -> fo_beforeCommit options = None -> fo_ManifestPathOverride options = None ->
  fo_ExistingReader options = None -> fo_Apply options = true ->
  ~ fo_StoreDir options `suffix_of` fse_RolloutPath session ->
  Fold ctx now session options w = (Ok res, w') -> w_faults w' = [] ->
  not_temporary target -> w_names w' !! target = None -> target ∉ w_dirs w' ->
  (forall p w, budget p w = Ok tt) ->
  exists content parts ds,
    file_data w (fse_RolloutPath session) = Some content /\ content = concat ds
    /\ (collision_at w' (fo_StoreDir options) parts ds
        \/ exists u w'',
             Unfold None parse_path (fo_StoreDir options) (fse_ID session)
               {| uo_TargetPath := Some target; uo_Overwrite := false; uo_Budget := budget;
                  uo_Reader := None |} w' = (Ok u, w'')
             /\ file_data w'' target = Some content /\ durable w'' target).
Proof using zstd_roundtrip json_roundtrip.
  intros Hw Hhook Hover Hex Ha Hout Hf Hfaults Hnt Habs Hdir Hbudget.
  pose proof (fold_spec sha256 zstd_encode zstd_decode json_MarshalIndent AcquireOperationLock path_string zstd_roundtrip
    ctx now session options w Hw Hhook Hover Hout) as Hspec.
  unfold wp in Hspec. rewrite Hf in Hspec. destruct Hspec as [Hframe Hres].
  destruct (Hres res eq_refl) as (content & s & Hc & Hi & Hrec & _ & _ & Hcom).
  destruct (Hcom Ha) as (Hd & Hdur & Hval & Hj & Hall).
  destruct (fi_parts _ _ _ _ _ Hi) as (ds & Hds & Hparts). rewrite Hrec in Hds.
  exists content, (fs_parts s), ds. split_and!; [done|done|].
  assert (Forall (fun part => exists d, stored w' (fo_StoreDir options) (p_Object part) d) (fs_parts s)) as Hst.
  { eapply Forall_impl; [exact Hall|]. intros part [He|Hd']; [|exact Hd'].
    unfold existing_has in He. simpl in He. by rewrite Hex in He. }
  destruct (stored_or_collision _ _ _ _ Hparts Hst) as [Hok|Hcol]; [right|by left].
  unfold manifest_bytes in Hd. set (m := new_manifest _ _ _ _ _ _) in *.
  destruct (json_MarshalIndent m) as [raw|e] eqn:Ej; [|done].
  assert (validateSessionID (fse_ID session) = Ok tt) as Hid.
  { unfold validateManifest in Hval. repeat case_match; simplify_eq/=. by destruct a. }
  destruct (fine_Unfold sha256 zstd_decode json_Unmarshal parse_path (fo_StoreDir options)
    (fse_ID session) target budget m (raw ++ [Byte.x0a]) ds w') as (u & w'' & Hu & _ & Hdat & Hdur'); try done.
  - apply Hframe.
  - unfold DecodeManifest. by rewrite (json_roundtrip _ _ Ej), Hval.
  - simpl. by rewrite Hds.
  - simpl. by rewrite Hds.
  - exists u, w''. by rewrite Hds.
Qed.
End FoldTheorems.

(** ** A sample fold *)

#[export] Instance ObjectRef_eq_dec : EqDecision ObjectRef.
Proof. solve_decision. Defined.
#[export] Instance Part_eq_dec : EqDecision Part.
Proof. solve_decision. Defined.
#[export] Instance ManifestSession_eq_dec : EqDecision ManifestSession.
Proof. solve_decision. Defined.
#[export] Instance ManifestSource_eq_dec : EqDecision ManifestSource.
Proof. solve_decision. Defined.
#[export] Instance ManifestSettings_eq_dec : EqDecision ManifestSettings.
Proof. solve_decision. Defined.
#[export] Instance Manifest_eq_dec : EqDecision Manifest.
Proof. solve_decision. Defined.

Definition toy_sha (d : bytes) : bytes := le_bytes 32 (le_val d).

Definition sample_options : FoldOptions :=
  {| fo_Opaque := false; fo_StoreDir := ["s"%string]; fo_ManifestPathOverride := None; fo_Apply := true;
     fo_Overwrite := false; fo_RemoveSource := true; fo_AllowActive := true; fo_FieldThreshold := 4;
     fo_MaxJSONLineBytes := 0; fo_CDC := {| MinBytes := 2; AverageBytes := 4; MaxBytes := 4 |};
     fo_Budget := fun _ _ => Ok tt; fo_ExistingReader := None; fo_RecordIndex := None;
     fo_RecordThreshold := 0; fo_beforeCommit := None |}.
Definition sample_session : Session :=
  {| fse_ID := "id"; fse_Title := ""; fse_CWD := ""; fse_RolloutPath := ["r"%string]; fse_Archived := true |}.
(** A JSON string on a line of its own, and a line without an end. *)
Definition sample_content : bytes :=
  [Byte.x22; Byte.x61; Byte.x61; Byte.x61; Byte.x22; Byte.x0a; Byte.x61; Byte.x62].
Definition sample_world : world :=
  {| w_names := {[ ["r"%string] := 0%nat ]};
     w_inodes := {[ 0%nat := {| i_data := sample_content; i_mtime := 0; i_synced := true |} ]};
     w_dirs := {[ [] ]}; w_durable := ∅; w_next := 1; w_clock := 0; w_faults := [];
     w_locked := ∅ |}.

Definition sample_scan : result unit * fold_state :=
  fold_scan toy_sha toy_encode toy_decode None (fold_defaults sample_options) sample_content sample_world.

(** The codec of the one manifest at hand. *)
Definition sample_fold_manifest : Manifest :=
  new_manifest "now" "r" sample_session (fold_defaults sample_options) (fs_parts sample_scan.2)
    {| src_Bytes := 8; src_SHA256 := digest_of toy_sha sample_content |}.
Definition toy_marshal (m : Manifest) : result bytes :=
  if decide (m = sample_fold_manifest) then Ok [Byte.x01] else Err (errors_new "unexpected manifest").
Definition toy_unmarshal (d : bytes) : result Manifest := Ok sample_fold_manifest.
Lemma toy_json_roundtrip m d : toy_marshal m = Ok d -> toy_unmarshal (d ++ [Byte.x0a]) = Ok m.
Proof. unfold toy_marshal. case_decide; [|done]. by subst. Qed.

Lemma sample_world_wf : world_wf sample_world.
Proof.
  split; simpl.
  - intros p n Hp. apply lookup_singleton_Some in Hp as [_ <-]. eexists. apply lookup_singleton_eq.
  - intros n [i Hi]. apply lookup_singleton_Some in Hi as [<- _]. lia.
Qed.

Definition sample_fold : result FoldResult * world :=
  Fold toy_sha toy_encode toy_decode toy_marshal (fun _ _ _ => Ok tt) (fun _ => "r"%string)
    None "now" sample_session sample_options sample_world.
Definition sample_fold_result : FoldResult :=
  match sample_fold.1 with
  | Ok r => r
  | Err _ => Build_FoldResult "" [] "" 0 no_counts false false false
  end.

Lemma is_ok_eq {A} (r : result A) (default : A) :
  is_ok r = true -> r = Ok (match r with Ok a => a | Err _ => default end).
Proof. by destruct r. Qed.

Lemma fold_segmentation_witness : exists ds, sample_content = concat ds.
Proof.
  destruct (fold_segmentation toy_sha toy_encode toy_decode toy_roundtrip None (fold_defaults sample_options)
    sample_content sample_world sample_scan.2 sample_world_wf) as (ds & Hds & _).
  - assert (sample_scan.1 = Ok tt) as E by (vm_compute; reflexivity).
    transitivity (sample_scan.1, sample_scan.2); [apply surjective_pairing|by rewrite E].
  - exists ds. exact Hds.
Defined.

Lemma fold_safe_witness : exists m,
  file_data sample_fold.2 (ManifestPath ["s"%string] "id") = Some (manifest_bytes toy_marshal m)
  /\ durable sample_fold.2 (ManifestPath ["s"%string] "id").
Proof.
  destruct (fold_safe toy_sha toy_encode toy_decode toy_marshal (fun _ _ _ => Ok tt) (fun _ => "r"%string)
    toy_roundtrip None "now" sample_session sample_options sample_world sample_fold.1 sample_fold.2
    sample_world_wf eq_refl eq_refl) as [_ Hres].
  - intros [k Hk]. by destruct k as [|? [|? ?]].
  - unfold sample_fold. by destruct (Fold _ _ _ _ _ _ _ _ _ _ _).
  - destruct (Hres sample_fold_result) as (content & ds & m & _ & _ & _ & _ & Hd & Hdur).
    + apply is_ok_eq. vm_compute. reflexivity.
    + reflexivity.
    + exists m. split; [exact Hd | exact Hdur].
Defined.

Lemma fold_unfold_roundtrip_witness : exists content parts ds,
  file_data sample_world ["r"%string] = Some content
  /\ (collision_at toy_sha toy_decode sample_fold.2 ["s"%string] parts ds
      \/ exists u w'', UnfoldWithOptions toy_sha toy_decode toy_unmarshal None (fun _ => ["r"%string]) ["s"%string] "id"
           {| uo_TargetPath := Some ["out"%string]; uo_Overwrite := false; uo_Budget := fun _ _ => Ok tt;
              uo_Reader := None |} sample_fold.2 = (Ok u, w'')
           /\ file_data w'' ["out"%string] = Some content /\ durable w'' ["out"%string]).
Proof.
  destruct (fold_unfold_roundtrip toy_sha toy_encode toy_decode toy_marshal toy_unmarshal (fun _ _ _ => Ok tt)
    (fun _ => "r"%string) (fun _ => ["r"%string]) toy_roundtrip toy_json_roundtrip None "now" sample_session
    sample_options sample_fold_result sample_world sample_fold.2 ["out"%string] (fun _ _ => Ok tt)
    sample_world_wf eq_refl eq_refl eq_refl eq_refl) as (content & parts & ds & Hc & _ & Hres).
  - intros [k Hk]. by destruct k as [|? [|? ?]].
  - assert (sample_fold.1 = Ok sample_fold_result) as Hr by (apply is_ok_eq; vm_compute; reflexivity).
    rewrite <- Hr. unfold sample_fold. by destruct (Fold _ _ _ _ _ _ _ _ _ _ _).
  - vm_compute. reflexivity.
  - intros w prefix Hp. apply (f_equal String.length) in Hp. unfold temporary_name in Hp.
    rewrite !string_app_length, filler_length in Hp. simpl in Hp. lia.
  - vm_compute. reflexivity.
  - apply (bool_decide_eq_false_1 (["out"%string] ∈ w_dirs sample_fold.2)). vm_compute. reflexivity.
  - reflexivity.
  - exists content, parts, ds. split; [exact Hc | exact Hres].
Defined.
