(* ===== verification/PackBuild.v ===== *)
(** Writing a pack generation: [src/internal/pack/build.go].

    The objects of the references are cut into blocks, each block is compressed
    when that pays and appended to a pack file, and the two files of the index get
    a record per block and per object; the files are synced and the metadata file
    closes the generation.  This is [Build] for a store without an earlier
    generation: from the open index files to [writeIndexV3Meta].  The list of
    references, sorted by digest, is the result of the database query.

    SHA-256 and zstd are arguments: [EncodeAll] and [DecodeAll] for blocks, and
    what a streaming decoder delivers for loose objects. *)
From S2P Require Import Prelude GoStd Effects Os Mutation Directory ObjectReader PackIndex PackCache PackResolver Store.
From stdpp Require Import pretty.
From Stdlib Require Import Ascii.
Local Open Scope Z_scope.

(** ** Pack files *)

Record packWriter := {
  pw_directory : path;
  pw_limit : Z;
  pw_sequence : Z;
  pw_file : option File;
  pw_name : string;
  pw_offset : Z;
}.
Definition with_file (f : option File) (offset : Z) (w : packWriter) : packWriter :=
  {| pw_directory := pw_directory w; pw_limit := pw_limit w; pw_sequence := pw_sequence w;
     pw_file := f; pw_name := pw_name w; pw_offset := offset |}.
Definition next_name (name : string) (w : packWriter) : packWriter :=
  {| pw_directory := pw_directory w; pw_limit := pw_limit w; pw_sequence := pw_sequence w + 1;
     pw_file := pw_file w; pw_name := name; pw_offset := pw_offset w |}.

Abbreviation Packing := (M (packWriter * world)).
Definition packing_disk {A} (m : OS A) : Packing A := zoom snd (fun s w => (s.1, w)) m.
Definition on_pack (f : packWriter -> packWriter) : Packing unit := modify (fun s => (f s.1, s.2)).

Fixpoint zeros (n : nat) : string :=
  match n with O => EmptyString | S n => String "0" (zeros n) end.
(** [fmt.Sprintf("%06d", n)] for [n >= 0]. *)
Definition format_06d (n : Z) : string :=
  let s := pretty n in String.append (zeros (6 - String.length s)) s.
Definition pack_name (sequence : Z) : string :=
  String.append "pack-" (String.append (format_06d sequence) ".pack").

Definition closeCurrent : Packing unit :=
  let* s := get in
  match pw_file s.1 with
  | None => ret tt
  | Some file =>
      packing_disk (sync_file "sync pack file: %w" file) ;;;
      packing_disk (wrap "close pack file: %w" (file_Close file)) ;;;
      on_pack (fun w => with_file None (pw_offset w) w)
  end.

Definition rotate : Packing unit :=
  closeCurrent ;;;
  on_pack (fun w => next_name (pack_name (pw_sequence w + 1)) w) ;;;
  let* s := get in
  let* file := packing_disk (wrap "create pack file: %w" (os_Create (pw_name s.1 :: pw_directory s.1) true false)) in
  on_pack (with_file (Some file) 0).

Definition must_rotate (w : packWriter) (data : bytes) : bool :=
  match pw_file w with
  | None => true
  | Some _ => (pw_offset w >? 0) && (i64 (pw_offset w + zlen data) >? pw_limit w)
  end.
Definition pack_write (data : bytes) : Packing (string * Z) :=
  let* s := get in
  (if must_rotate s.1 data then rotate else ret tt) ;;;
  let* s := get in
  let offset := pw_offset s.1 in
  match pw_file s.1 with
  | None => fail (Sentinel "panic")
  | Some file =>
      let* (_, err, file) := packing_disk (file_Write file data) in
      on_pack (fun w => with_file (Some file) (pw_offset w) w) ;;;
      match err with
      | Some e => fail (errorf "write pack file: %w" e)
      | None =>
          on_pack (fun w => with_file (pw_file w) (i64 (pw_offset w + zlen data)) w) ;;;
          ret (pw_name s.1, offset)
      end
  end.

Definition preferRawBlock (raw compressed : bytes) : bool :=
  if zlen compressed >=? zlen raw then true
  else (zlen raw <=? 16 * 1024) && (zlen compressed * 2 >=? zlen raw).

(** ** The generation in progress *)

Record BuildResult := {
  res_BlockCount : Z;
  res_RawBytes : Z;
  res_StoredBytes : Z;
}.
Record builder := {
  bd_writer : packWriter;
  bd_packIndexes : gmap string Z;
  bd_packNames : list string;
  bd_objectsFile : File;
  bd_blocksFile : File;
  bd_result : BuildResult;
}.
Abbreviation Building := (M (builder * world)).
Definition building_disk {A} (m : OS A) : Building A := zoom snd (fun s w => (s.1, w)) m.
Definition on_builder (f : builder -> builder) : Building unit := modify (fun s => (f s.1, s.2)).

Definition set_writer (b : builder) (w : packWriter) : builder :=
  {| bd_writer := w; bd_packIndexes := bd_packIndexes b; bd_packNames := bd_packNames b;
     bd_objectsFile := bd_objectsFile b; bd_blocksFile := bd_blocksFile b; bd_result := bd_result b |}.
Definition add_pack (name : string) (index : Z) (b : builder) : builder :=
  {| bd_writer := bd_writer b; bd_packIndexes := <[name := index]> (bd_packIndexes b);
     bd_packNames := bd_packNames b ++ [name];
     bd_objectsFile := bd_objectsFile b; bd_blocksFile := bd_blocksFile b; bd_result := bd_result b |}.
Definition set_objectsFile (f : File) (b : builder) : builder :=
  {| bd_writer := bd_writer b; bd_packIndexes := bd_packIndexes b; bd_packNames := bd_packNames b;
     bd_objectsFile := f; bd_blocksFile := bd_blocksFile b; bd_result := bd_result b |}.
Definition set_blocksFile (f : File) (b : builder) : builder :=
  {| bd_writer := bd_writer b; bd_packIndexes := bd_packIndexes b; bd_packNames := bd_packNames b;
     bd_objectsFile := bd_objectsFile b; bd_blocksFile := f; bd_result := bd_result b |}.
Definition count_block (raw stored : Z) (b : builder) : builder :=
  {| bd_writer := bd_writer b; bd_packIndexes := bd_packIndexes b; bd_packNames := bd_packNames b;
     bd_objectsFile := bd_objectsFile b; bd_blocksFile := bd_blocksFile b;
     bd_result := {| res_BlockCount := i64 (res_BlockCount (bd_result b) + 1);
                     res_RawBytes := i64 (res_RawBytes (bd_result b) + raw);
                     res_StoredBytes := i64 (res_StoredBytes (bd_result b) + stored) |} |}.
Definition on_writer {A} (m : Packing A) : Building A :=
  zoom (fun s => (bd_writer s.1, s.2)) (fun s t => (set_writer s.1 t.1, t.2)) m.

(** The local state of [Build]: it starts with [b] and is handed on at the end. *)
Definition from_builder (b : builder) (m : Building unit) : OS builder := fun w =>
  let '(r, (b, w)) := m (b, w) in (match r with Ok _ => Ok b | Err e => Err e end, w).

(** The index of a pack name, given out in the order of first use. *)
Definition pack_index (name : string) : Building Z :=
  let* s := get in
  match bd_packIndexes s.1 !! name with
  | Some index => ret index
  | None =>
      let index := u32 (zlen (bd_packNames s.1)) in
      on_builder (add_pack name index) ;;; ret index
  end.

(** Appending a record to one of the index files. *)
Definition write_objects (data : bytes) : Building unit :=
  let* s := get in
  let* (_, err, f) := building_disk (file_Write (bd_objectsFile s.1) data) in
  on_builder (set_objectsFile f) ;;; throw err.
Definition write_blocks (data : bytes) : Building unit :=
  let* s := get in
  let* (_, err, f) := building_disk (file_Write (bd_blocksFile s.1) data) in
  on_builder (set_blocksFile f) ;;; throw err.

Section Build.
Variable sha256 : bytes -> bytes.
Variable EncodeAll : bytes -> bytes.
Variable stream_decode : bytes -> bytes * option error.
Variable blockBytes : Z.
Variable storeDir : path.

(** Writing one block of an object. *)
Definition write_block (raw : bytes) (rawOffset : Z) : Building unit :=
  let compressed := EncodeAll raw in
  let isRaw := preferRawBlock raw compressed in
  let stored := if isRaw then raw else compressed in
  let* (packName, packOffset) := on_writer (pack_write stored) in
  let* packIndex := pack_index packName in
  write_blocks (encodeBlockV3 {| br_PackIndex := packIndex; br_PackOffset := packOffset;
    br_StoredBytes := zlen stored; br_RawOffset := rawOffset; br_RawBytes := zlen raw;
    br_Digest := sha256 raw; br_Encoding := if isRaw then 1 else 0 |}) ;;;
  on_builder (count_block (zlen raw) (zlen stored)).

(** What [io.ReadFull] calls on a stream get to see: its bytes, and how it ends
    ([None] for [io.EOF]). *)
Definition deliver (s : objectStream) : OS (bytes * option error) := fun w =>
  let '(fault, w) := next_outcome w in
  match w_inodes w !! f_ino (st_file s) with
  | None => (Ok ([], Some os_ErrIO), w)
  | Some i =>
      let '(data, err) := stream_decode (i_data i) in
      match fault with
      | Some k => (Ok (take k data, Some os_ErrIO), w)
      | None =>
          (Ok (data, match err with
                     | Some e => Some e
                     | None => match check_object sha256 (st_ref s) data with Ok _ => None | Err e => Some e end
                     end), w)
      end
  end.

Definition ends_stream (e : error) : bool := is_EOF e || errors_is "unexpected EOF" e.

(** The loop over [io.ReadFull(stream, buffer)]: the raw offset, the number of
    blocks and the hashed bytes.  A full buffer is followed by another read. *)
Fixpoint pack_blocks (fuel : nat) (rest : bytes) (ending : option error) (rawOffset objectBlocks : Z)
    (hashed : bytes) : Building (Z * Z * bytes) :=
  match fuel with
  | O => fail (Sentinel "panic")
  | S fuel =>
      let raw := ztake blockBytes rest in
      let* (rawOffset, objectBlocks, hashed) :=
        (if zlen raw >? 0 then
           write_block raw rawOffset ;;;
           if objectBlocks =? 2 ^ 32 - 1 then fail (errors_new "object %s exceeds pack v3 block count")
           else ret (i64 (rawOffset + zlen raw), objectBlocks + 1, hashed ++ raw)
         else ret (rawOffset, objectBlocks, hashed)) in
      if zlen raw =? blockBytes then
        pack_blocks fuel (zdrop blockBytes rest) ending rawOffset objectBlocks hashed
      else
        match ending with
        | Some e => if ends_stream e then ret (rawOffset, objectBlocks, hashed)
                    else fail (errorf "read loose object %s: %w" e)
        | None => ret (rawOffset, objectBlocks, hashed)
        end
  end.

Definition pack_object (ref : ObjectRef) : Building unit :=
  let* stream := building_disk (OpenStream storeDir ref) in
  let* (data, ending) := building_disk (deliver stream) in
  let* s := get in
  let firstBlock := res_BlockCount (bd_result s.1) in
  let* (rawOffset, objectBlocks, hashed) :=
    or_else (pack_blocks (S (length data)) data ending 0 0 []) (building_disk (stream_Close stream)) in
  building_disk (stream_Close stream) ;;;
  if negb (rawOffset =? RawBytes ref) || negb (string_eqb (hex_EncodeToString (sha256 hashed)) (SHA256 ref)) then
    fail (errors_new "loose object %s failed stream verification")
  else
    let* digest := lift (decodeDigest (SHA256 ref)) in
    write_objects (encodeObjectV3 {| or_Digest := digest; or_RawBytes := RawBytes ref;
      or_FirstBlock := firstBlock; or_BlockCount := objectBlocks |}).

(** The loop over the rows. *)
Fixpoint pack_references (ctx : Ctx) (refs : list ObjectRef) : Building unit :=
  match refs with
  | [] => ret tt
  | ref :: refs =>
      let '(err, ctx) := ctx_Err ctx in
      throw err ;;; pack_object ref ;;; pack_references ctx refs
  end.

Fixpoint syncAndCloseIndexFiles (files : list File) : OS unit :=
  match files with
  | [] => ret tt
  | file :: files => file_Sync file ;;; file_Close file ;;; syncAndCloseIndexFiles files
  end.

Variable json_Marshal : indexV3Meta -> result bytes.
Definition writeIndexV3Meta (directory : path) (m : indexV3Meta) : OS unit :=
  let* data := lift (json_Marshal m) in
  let* file := os_Create ("index.meta.json"%string :: directory) true false in
  let* (_, err, file) := file_Write file (data ++ [Byte.x0a]) in
  match err with
  | Some e => ignore (file_Close file) ;;; fail e
  | None =>
      or_else (file_Sync file) (file_Close file) ;;;
      file_Close file ;;;
      syncDirectory directory
  end.

(** From the creation of the index files to the metadata of the generation. *)
Definition write_generation (ctx : Ctx) (temporaryDir : path) (generation : string) (packBytes : Z)
    (refs : list ObjectRef) : OS (builder * indexV3Meta) :=
  let* objectsFile := os_Create ("objects.idx"%string :: temporaryDir) true false in
  let* blocksFile := or_else (os_Create ("blocks.idx"%string :: temporaryDir) true false)
                       (file_Close objectsFile) in
  let start := {| bd_writer := {| pw_directory := temporaryDir; pw_limit := packBytes; pw_sequence := 0;
                                  pw_file := None; pw_name := ""; pw_offset := 0 |};
                  bd_packIndexes := ∅; bd_packNames := []; bd_objectsFile := objectsFile;
                  bd_blocksFile := blocksFile;
                  bd_result := {| res_BlockCount := 0; res_RawBytes := 0; res_StoredBytes := 0 |} |} in
  let* b := from_builder start (pack_references ctx refs ;;; on_writer closeCurrent) in
  syncAndCloseIndexFiles [bd_objectsFile b; bd_blocksFile b] ;;;
  let m := {| m_Version := indexV3Version; m_Kind := indexV3Kind; m_Generation := generation;
              m_BlockBytes := blockBytes; m_ObjectCount := zlen refs;
              m_BlockCount := res_BlockCount (bd_result b); m_Packs := bd_packNames b |} in
  writeIndexV3Meta temporaryDir m ;;;
  ret (b, m).
End Build.

(** ** What has been written *)

Definition gen_files (objs blks : bytes) (packs : gmap string bytes) : gmap string bytes :=
  <["objects.idx"%string := objs]> (<["blocks.idx"%string := blks]> packs).
Definition no_index (packs : gmap string bytes) : Prop :=
  packs !! "objects.idx"%string = None /\ packs !! "blocks.idx"%string = None.
(** Packs only grow. *)
Definition extends (packs packs' : gmap string bytes) : Prop :=
  forall name d, packs !! name = Some d -> exists x, packs' !! name = Some (d ++ x).
Lemma extends_refl packs : extends packs packs.
Proof. intros name d Hd. exists []. by rewrite app_nil_r. Qed.
Lemma extends_trans p1 p2 p3 : extends p1 p2 -> extends p2 p3 -> extends p1 p3.
Proof. intros H1 H2 name d (x & Hx)%H1. apply H2 in Hx as (y & Hy). exists (x ++ y). by rewrite app_assoc. Qed.

(** Index [k] stands for [name], as long as the indexes have not wrapped. *)
Definition index_ok (names : list string) (k : Z) (name : string) : Prop :=
  zlen names <= 2 ^ 32 -> 0 <= k /\ names !! Z.to_nat k = Some name.
Lemma index_ok_prefix names names' k name : names `prefix_of` names' -> index_ok names k name -> index_ok names' k name.
Proof.
  intros [l ->] Hk Hl. pose proof (zlen_nonneg l). rewrite zlen_app in Hl. destruct Hk as [Hk Hn]; [lia|].
  split; [done|]. by apply lookup_app_l_Some.
Qed.

(** The bytes of all the packs. *)
Definition pack_total (packs : gmap string bytes) : Z := map_fold (fun _ d n => zlen d + n) 0 packs.
Lemma pack_total_new packs name d : packs !! name = None -> pack_total (<[name := d]> packs) = zlen d + pack_total packs.
Proof. intros Hn. unfold pack_total. apply (map_fold_insert_L (fun _ d n => zlen d + n)); [lia|done]. Qed.
Lemma pack_total_grow packs name pre d :
  packs !! name = Some pre \/ packs !! name = None /\ pre = [] ->
  pack_total (<[name := pre ++ d]> packs) = zlen d + pack_total packs.
Proof.
  intros [Hn|[Hn ->]]; [|by rewrite pack_total_new].
  rewrite <- (insert_delete_id packs name pre Hn) at 2. rewrite <- insert_delete_eq.
  rewrite !pack_total_new by apply lookup_delete_eq. rewrite zlen_app. lia.
Qed.
Lemma pack_total_le packs name d : packs !! name = Some d -> zlen d <= pack_total packs.
Proof.
  revert name d. induction packs as [|k x packs Hk IH] using map_ind; intros name d.
  - by rewrite lookup_empty.
  - rewrite pack_total_new by done. assert (0 <= pack_total packs) as Hp.
    { clear. induction packs as [|k x packs Hk IH] using map_ind; [done|].
      rewrite pack_total_new by done. pose proof (zlen_nonneg x). lia. }
    intros [[-> ->]|[_ Hd]]%lookup_insert_Some; [lia|]. apply IH in Hd. pose proof (zlen_nonneg x). lia.
Qed.

Section Built.
Context (sha256 EncodeAll : bytes -> bytes).
Context (dir : path).

(** The record [b] leads to the stored form of the block [raw]. *)
Record block_at (packs : gmap string bytes) (names : list string) (b : blockV3Record) (raw : bytes) : Prop := {
  ba_place : exists name pre stored post, index_ok names (br_PackIndex b) name
    /\ packs !! name = Some (pre ++ stored ++ post) /\ br_PackOffset b = zlen pre
    /\ br_StoredBytes b = zlen stored /\ 0 < zlen stored
    /\ (br_Encoding b = 1 /\ stored = raw \/ br_Encoding b = 0 /\ stored = EncodeAll raw);
  ba_raw : br_RawBytes b = zlen raw /\ 0 < zlen raw;
  ba_digest : br_Digest b = sha256 raw;
}.
Lemma block_at_mono packs packs' names names' b raw :
  extends packs packs' -> names `prefix_of` names' -> block_at packs names b raw -> block_at packs' names' b raw.
Proof.
  intros He Hp [(name & pre & stored & post & Hi & Hn & Ho & Hs & Hz & Henc) Hr Hd]. split; [|done|done].
  apply He in Hn as (x & Hx). exists name, pre, stored, (post ++ x). split_and!; try done.
  - by eapply index_ok_prefix.
  - by rewrite Hx, <- !app_assoc.
Qed.

(** The records of an object, from raw offset [off] on. *)
Fixpoint covers (packs : gmap string bytes) (names : list string) (off : Z) (bs : list blockV3Record) (data : bytes)
  : Prop :=
  match bs with
  | [] => data = []
  | b :: bs => exists raw rest, data = raw ++ rest /\ block_at packs names b raw /\ br_RawOffset b = off
                 /\ covers packs names (off + zlen raw) bs rest
  end.
Lemma covers_mono packs packs' names names' bs : extends packs packs' -> names `prefix_of` names' ->
  forall off data, covers packs names off bs data -> covers packs' names' off bs data.
Proof.
  intros He Hp. induction bs as [|b bs IH]; intros off data; simpl; [done|].
  intros (raw & rest & -> & Hb & Ho & Hc). exists raw, rest. split_and!; [done|by eapply block_at_mono|done|by apply IH].
Qed.

(** The object of a reference is in the packs. *)
Definition object_at (packs : gmap string bytes) (names : list string) (bs : list blockV3Record)
    (ref : ObjectRef) (r : objectV3Record) : Prop :=
  exists before new after data, bs = before ++ new ++ after /\ covers packs names 0 new data
    /\ SHA256 ref = hex_EncodeToString (sha256 data) /\ RawBytes ref = zlen data
    /\ r = {| or_Digest := sha256 data; or_RawBytes := zlen data; or_FirstBlock := zlen before;
              or_BlockCount := zlen new |} /\ zlen new < 2 ^ 32.
Lemma object_at_mono packs packs' names names' bs more ref r :
  extends packs packs' -> names `prefix_of` names' -> object_at packs names bs ref r ->
  object_at packs' names' (bs ++ more) ref r.
Proof.
  intros He Hp (before & new & after & data & -> & Hc & Hrest). exists before, new, (after ++ more), data.
  split_and!; [by rewrite <- !app_assoc|by eapply covers_mono|apply Hrest..].
Qed.

(** The pack writer, over the packs written so far. *)
Definition writer_ok (packs : gmap string bytes) (pw : packWriter) (w : world) : Prop :=
  pw_directory pw = dir
  /\ match pw_file pw with
     | None => True
     | Some f => exists d, packs !! pw_name pw = Some d /\ handle dir (pw_name pw) d f w /\ pw_offset pw = zlen d
     end.

Record building (b : builder) (w : world) (packs : gmap string bytes) (rs : list objectV3Record)
    (bs : list blockV3Record) (total : Z) : Prop := {
  bg_holds : holds dir (gen_files (concat (map encodeObjectV3 rs)) (concat (map encodeBlockV3 bs)) packs) w;
  bg_apart : no_index packs;
  bg_objects : handle dir "objects.idx" (concat (map encodeObjectV3 rs)) (bd_objectsFile b) w;
  bg_blocks : handle dir "blocks.idx" (concat (map encodeBlockV3 bs)) (bd_blocksFile b) w;
  bg_writer : writer_ok packs (bd_writer b) w;
  bg_index : forall name k, bd_packIndexes b !! name = Some k -> in_u32 k /\ index_ok (bd_packNames b) k name;
  bg_count : res_BlockCount (bd_result b) = zlen bs;
  bg_total : zlen bs <= total /\ pack_total packs <= total;
  bg_records : Forall block_record_ok bs;
}.

Lemma gen_files_new objs blks packs name d : gen_files objs blks packs !! name = None ->
  packs !! name = None /\ <[name := d]> (gen_files objs blks packs) = gen_files objs blks (<[name := d]> packs).
Proof.
  unfold gen_files. intros (H1 & H2)%lookup_insert_None. apply lookup_insert_None in H1 as (H1 & H3).
  split; [done|]. rewrite (insert_insert_ne _ name) by done. by rewrite (insert_insert_ne _ name) by done.
Qed.
Lemma gen_files_pack objs blks packs name d d' : no_index packs -> packs !! name = Some d ->
  gen_files objs blks packs !! name = Some d
  /\ <[name := d']> (gen_files objs blks packs) = gen_files objs blks (<[name := d']> packs).
Proof.
  intros [H1 H2] Hd. assert (name <> "objects.idx"%string /\ name <> "blocks.idx"%string) as [N1 N2]
    by (split; intros ->; congruence).
  unfold gen_files. split; [by rewrite !lookup_insert_ne by done|].
  rewrite (insert_insert_ne _ name) by done. by rewrite (insert_insert_ne _ name) by done.
Qed.
Lemma no_index_insert packs name d : no_index packs -> name <> "objects.idx"%string -> name <> "blocks.idx"%string ->
  no_index (<[name := d]> packs).
Proof. intros [H1 H2] N1 N2. split; by rewrite lookup_insert_ne. Qed.
Lemma no_index_update packs name d d' : no_index packs -> packs !! name = Some d -> no_index (<[name := d']> packs).
Proof. intros H Hd. apply no_index_insert; [done|..]; intros ->; destruct H; congruence. Qed.
Lemma extends_new packs name d : packs !! name = None -> extends packs (<[name := d]> packs).
Proof.
  intros Hn a da Ha. exists []. rewrite app_nil_r, lookup_insert_ne; [done|]. intros ->. congruence.
Qed.
Lemma extends_update packs name d x : packs !! name = Some d -> extends packs (<[name := d ++ x]> packs).
Proof.
  intros Hn a da Ha. destruct (decide (a = name)) as [->|]; [|by exists []; rewrite app_nil_r, lookup_insert_ne].
  exists x. rewrite lookup_insert_eq. congruence.
Qed.

(** ** The pack writer *)

Lemma ok_closeCurrent objs blks packs pw w :
  holds dir (gen_files objs blks packs) w -> no_index packs -> writer_ok packs pw w ->
  ok_wp closeCurrent (pw, w) (fun _ s => holds dir (gen_files objs blks packs) s.2 /\ names_kept w s.2
    /\ s.1 = with_file None (pw_offset pw) pw).
Proof.
  intros Hh Hno (Hdir & Hf). unfold closeCurrent. apply ok_bind. unfold ok_wp at 1. rewrite wp_get. cbn [fst snd].
  destruct (pw_file pw) as [f|] eqn:Ef.
  - destruct Hf as (d & Hd & Hhd & Ho). destruct (gen_files_pack objs blks packs _ _ d Hno Hd) as [Hg _].
    apply ok_bind, ok_zoom. unfold sync_file. apply ok_or_else, ok_wrap.
    eapply ok_mono; [by eapply ok_Sync|]. intros _ w1 [Hh1 Hn1]. cbn [fst snd].
    apply ok_bind, ok_zoom, ok_wrap. eapply ok_mono; [by apply ok_Close|]. intros _ w2 [Hh2 Hn2]. cbn [fst snd].
    unfold ok_wp, on_pack. rewrite wp_modify. cbn [fst snd]. split_and!; [done| |done].
    apply names_kept_eq. cbn [fst snd] in *. congruence.
  - unfold ok_wp. rewrite wp_ret. cbn [fst snd]. split_and!; [done|by intros q n|]. destruct pw. cbn in *. by subst.
Qed.

(** A fresh pack. *)
Lemma ok_rotate objs blks packs pw w :
  holds dir (gen_files objs blks packs) w -> no_index packs -> writer_ok packs pw w ->
  ok_wp rotate (pw, w) (fun _ s => exists name f, packs !! name = None
    /\ pw_name s.1 = name /\ pw_file s.1 = Some f /\ pw_offset s.1 = 0 /\ pw_directory s.1 = dir
    /\ holds dir (gen_files objs blks (<[name := []]> packs)) s.2 /\ no_index (<[name := []]> packs)
    /\ handle dir name [] f s.2 /\ names_kept w s.2).
Proof.
  intros Hh Hno Hw. unfold rotate. apply ok_bind. eapply ok_mono; [by apply ok_closeCurrent|].
  intros _ [pw1 w1] (Hh1 & Hk1 & Hs1). cbn [fst snd] in *. subst pw1. apply ok_bind. unfold ok_wp at 1, on_pack. rewrite wp_modify.
  apply ok_bind. unfold ok_wp at 1. rewrite wp_get. cbn [fst snd]. apply ok_bind, ok_zoom, ok_wrap.
  cbn [next_name with_file pw_name pw_directory pw_sequence]. destruct Hw as [Hdir _]. rewrite Hdir.
  set (name := pack_name _). eapply ok_mono; [by apply ok_Create|]. intros f w2 (Hnew & Hh2 & Hhd & Hk2). cbn [fst snd].
  destruct (gen_files_new _ _ _ _ [] Hnew) as [Hn Heq]. rewrite Heq in Hh2.
  unfold ok_wp. rewrite wp_modify. cbn [fst snd with_file pw_name pw_file pw_offset pw_directory].
  exists name, f. split_and!; try done.
  - unfold gen_files in Hnew. apply lookup_insert_None in Hnew as (Hx & N1). apply lookup_insert_None in Hx as (_ & N2).
    by apply no_index_insert.
  - by eapply names_kept_trans.
Qed.

(** Appending to the current pack, a fresh one if need be. *)
Lemma ok_pack_write objs blks packs pw w data :
  holds dir (gen_files objs blks packs) w -> no_index packs -> writer_ok packs pw w ->
  (forall name d, packs !! name = Some d -> zlen d + zlen data <= max_int64) -> zlen data <= max_int64 ->
  ok_wp (pack_write data) (pw, w) (fun r s => exists pre, r.2 = zlen pre
    /\ (packs !! r.1 = Some pre \/ packs !! r.1 = None /\ pre = [])
    /\ let packs' := <[r.1 := pre ++ data]> packs in
       holds dir (gen_files objs blks packs') s.2 /\ no_index packs' /\ writer_ok packs' s.1 s.2 /\ names_kept w s.2).
Proof.
  intros Hh Hno Hw Hmax Hmax0. unfold pack_write. apply ok_bind. unfold ok_wp at 1. rewrite wp_get. cbn [fst snd].
  apply ok_bind. apply (ok_mono _ _ (fun _ s => exists packs1 pre f, pw_file s.1 = Some f /\ pw_offset s.1 = zlen pre
    /\ pw_directory s.1 = dir /\ (packs !! pw_name s.1 = Some pre \/ packs !! pw_name s.1 = None /\ pre = [])
    /\ packs1 !! pw_name s.1 = Some pre /\ (forall x, <[pw_name s.1 := x]> packs1 = <[pw_name s.1 := x]> packs)
    /\ holds dir (gen_files objs blks packs1) s.2 /\ no_index packs1
    /\ handle dir (pw_name s.1) pre f s.2 /\ names_kept w s.2)).
  - destruct (must_rotate pw data) eqn:Er.
    + eapply ok_mono; [by apply ok_rotate|].
      intros _ [pw1 w1] (name & f & Hn & En & Ef & Eo & Ed & Hh1 & Hno1 & Hhd & Hk). cbn [fst snd] in *.
      exists (<[name := []]> packs), [], f. rewrite En. split_and!; try done.
      * by right.
      * apply lookup_insert_eq.
      * intros x. apply insert_insert_eq.
    + unfold ok_wp. rewrite wp_ret. cbn [fst snd]. unfold must_rotate in Er. destruct Hw as [Hdir Hf].
      destruct (pw_file pw) as [f|]; [|done]. destruct Hf as (d & Hd & Hhd & Ho). exists packs, d, f.
      split_and!; try done; [by left|by intros q n].
  - intros _ [pw1 w1] (packs1 & pre & f & Ef & Eo & Ed & Hpre & Hp1 & Hins & Hh1 & Hno1 & Hhd & Hk). cbn [fst snd] in *.
    apply ok_bind. unfold ok_wp at 1. rewrite wp_get. cbn [fst snd]. rewrite Ef. apply ok_bind, ok_zoom. cbn [fst snd].
    destruct (gen_files_pack objs blks packs1 _ _ (pre ++ data) Hno1 Hp1) as [Hg1 Hg2].
    eapply ok_mono; [by eapply ok_Write|]. intros [[k err] f2] w2 Hr. cbn [fst snd] in *.
    apply ok_bind. unfold ok_wp at 1, on_pack at 1. rewrite wp_modify. cbn [fst snd].
    destruct err as [e|]; [done|]. destruct (Hr eq_refl) as (Hh2 & Hhd2 & Hn2). rewrite Hg2, Hins in Hh2.
    apply ok_bind. unfold ok_wp at 1, on_pack. rewrite wp_modify. unfold ok_wp. rewrite wp_ret.
    cbn [fst snd with_file pw_name pw_file pw_offset pw_directory]. exists pre. split_and!; try done.
    + rewrite <- Hins. by eapply no_index_update.
    + split; [done|]. cbn [pw_file pw_name pw_offset with_file]. exists (pre ++ data). rewrite lookup_insert_eq. split_and!; [done|done|].
      rewrite Eo, zlen_app. apply i64_id. pose proof (zlen_nonneg pre). pose proof (zlen_nonneg data).
      unfold in_i64, max_int64 in *. destruct Hpre as [Hpre|[_ ->]]; [apply Hmax in Hpre; lia|rewrite zlen_nil in *; lia].
    + eapply names_kept_trans; [exact Hk|by apply names_kept_eq].
Qed.

(** ** Blocks *)

Definition indexes_ok (b : builder) : Prop :=
  forall name k, bd_packIndexes b !! name = Some k -> in_u32 k /\ index_ok (bd_packNames b) k name.
Lemma ok_pack_index name b w : indexes_ok b ->
  ok_wp (pack_index name) (b, w) (fun k s => in_u32 k /\ index_ok (bd_packNames s.1) k name /\ indexes_ok s.1 /\ s.2 = w
    /\ bd_packNames b `prefix_of` bd_packNames s.1 /\ bd_writer s.1 = bd_writer b /\ bd_objectsFile s.1 = bd_objectsFile b
    /\ bd_blocksFile s.1 = bd_blocksFile b /\ bd_result s.1 = bd_result b).
Proof.
  intros Hi. unfold pack_index. apply ok_bind. unfold ok_wp at 1. rewrite wp_get. cbn [fst snd].
  destruct (bd_packIndexes b !! name) as [k|] eqn:Ek.
  - unfold ok_wp. rewrite wp_ret. cbn [fst snd]. destruct (Hi _ _ Ek). split_and!; done.
  - apply ok_bind. unfold ok_wp at 1, on_builder. rewrite wp_modify. unfold ok_wp. rewrite wp_ret.
    cbn [fst snd add_pack bd_packNames bd_writer bd_objectsFile bd_blocksFile bd_result].
    assert (index_ok (bd_packNames b ++ [name]) (u32 (zlen (bd_packNames b))) name) as Hnew.
    { intros Hl. rewrite zlen_app, zlen_cons, zlen_nil in Hl. pose proof (zlen_nonneg (bd_packNames b)).
      unfold u32. rewrite Z.mod_small by lia. split; [done|]. unfold zlen. rewrite Nat2Z.id.
      rewrite lookup_app_r, Nat.sub_diag by lia. done. }
    split_and!; [apply u32_range|done| |done|by eexists|done..].
    intros name' k'. cbn [add_pack bd_packIndexes bd_packNames]. destruct (decide (name' = name)) as [->|].
    + rewrite lookup_insert_eq. intros [= <-]. split; [apply u32_range|done].
    + rewrite lookup_insert_ne by done. intros (Hu & Hx)%Hi. split; [done|].
      eapply index_ok_prefix; [|exact Hx]. by eexists.
Qed.

Lemma preferRaw_stored raw : let stored := if preferRawBlock raw (EncodeAll raw) then raw else EncodeAll raw in
  zlen stored <= zlen raw.
Proof. unfold preferRawBlock. destruct (zlen (EncodeAll raw) >=? zlen raw) eqn:E; zbool; [lia|]. destruct (_ && _); lia. Qed.

Context (sha256_length : forall d, zlen (sha256 d) = 32) (EncodeAll_nonempty : forall d, 0 < zlen d -> 0 < zlen (EncodeAll d)).

Lemma gen_files_blocks objs blks blks' packs :
  <["blocks.idx"%string := blks']> (gen_files objs blks packs) = gen_files objs blks' packs.
Proof. unfold gen_files. rewrite insert_insert_ne by done. by rewrite insert_insert_eq. Qed.
Lemma gen_files_objects objs objs' blks packs :
  <["objects.idx"%string := objs']> (gen_files objs blks packs) = gen_files objs' blks packs.
Proof. unfold gen_files. by rewrite insert_insert_eq. Qed.

Lemma writer_ok_names packs pw w w' : writer_ok packs pw w -> names_kept w w' -> writer_ok packs pw w'.
Proof.
  intros (Hd & Hf) Hk. split; [done|]. destruct (pw_file pw); [|done]. destruct Hf as (d & Hd' & Hh & Ho).
  exists d. split_and!; [done| |done]. by eapply handle_names.
Qed.

Lemma ok_write_block b w packs rs bs total raw rawOffset :
  building b w packs rs bs total -> 0 < zlen raw -> total + zlen raw <= 2 ^ 56 -> 0 <= rawOffset <= 2 ^ 56 ->
  ok_wp (write_block sha256 EncodeAll raw rawOffset) (b, w) (fun _ s => exists packs' br,
    building s.1 s.2 packs' rs (bs ++ [br]) (total + zlen raw) /\ extends packs packs'
    /\ bd_packNames b `prefix_of` bd_packNames s.1 /\ block_at packs' (bd_packNames s.1) br raw
    /\ br_RawOffset br = rawOffset).
Proof.
  intros [Hh Hno Hob Hbl Hwr Hix Hcnt [Ht1 Ht2] Hrec] Hraw Htot Hoff. unfold write_block.
  set (isRaw := preferRawBlock raw (EncodeAll raw)). set (stored := if isRaw then raw else EncodeAll raw).
  assert (0 < zlen stored <= zlen raw) as Hst.
  { split; [unfold stored; destruct isRaw; [done|by apply EncodeAll_nonempty]|apply (preferRaw_stored raw)]. }
  pose proof (zlen_nonneg bs) as Hbs. apply ok_bind, ok_zoom. cbn [fst snd].
  eapply ok_mono; [eapply ok_pack_write; [exact Hh|exact Hno|exact Hwr| |unfold max_int64; lia]|].
  { intros name d Hd%pack_total_le. unfold max_int64. lia. }
  intros [name off] [pw1 w1] (pre & Hoff1 & Hpre & Hh1 & Hno1 & Hw1 & Hk1). cbn [fst snd] in *. subst off.
  apply ok_bind. eapply ok_mono; [by apply ok_pack_index|].
  intros k [b2 w2] (Hku & Hki & Hix2 & Hw2 & Hpn & Ewr & Eob & Ebl & Eres). cbn [fst snd] in *. subst w2.
  cbn [set_writer bd_packNames bd_writer bd_objectsFile bd_blocksFile bd_result] in *.
  set (br := {| br_PackIndex := k |}). apply ok_bind. unfold write_blocks. apply ok_bind. unfold ok_wp at 1. rewrite wp_get.
  cbn [fst snd]. apply ok_bind, ok_zoom. cbn [fst snd]. rewrite Ebl.
  assert (forall o bl p, gen_files o bl p !! "blocks.idx"%string = Some bl) as Hlk.
  { intros. unfold gen_files. rewrite lookup_insert_ne by done. apply lookup_insert_eq. }
  eapply ok_mono; [eapply ok_Write; [exact Hh1|apply Hlk|eapply handle_names; [exact Hbl|exact Hk1]]|].
  intros [[n err] f3] w3 Hr. cbn [fst snd] in *. apply ok_bind. unfold ok_wp at 1, on_builder at 1. rewrite wp_modify.
  cbn [fst snd]. apply ok_throw. intros ->. destruct (Hr eq_refl) as (Hh3 & Hbl3 & Hn3). rewrite gen_files_blocks in Hh3.
  unfold ok_wp, on_builder. rewrite wp_modify. cbn [fst snd].
  set (packs' := <[name := pre ++ stored]> packs) in *. exists packs', br.
  assert (extends packs packs') as Hext.
  { destruct Hpre as [Hpre|[Hpre ->]]; [by apply extends_update|by apply extends_new]. }
  assert (zlen pre <= total) as Hpl. { destruct Hpre as [Hpre%pack_total_le|[_ ->]]; [lia|rewrite zlen_nil; pose proof (zlen_nonneg bs); lia]. }
  assert (block_record_ok br) as Hbr.
  { pose proof (zlen_nonneg pre). unfold br. split; cbn; unfold in_i64, in_u8; try done; try lia; try apply sha256_length.
    destruct isRaw; lia. }
  assert (concat (map encodeBlockV3 bs) ++ encodeBlockV3 br = concat (map encodeBlockV3 (bs ++ [br]))) as Hcat.
  { rewrite map_app, concat_app. simpl. by rewrite app_nil_r. }
  rewrite Hcat in Hh3, Hbl3. assert (names_kept w w3) as Hk3 by (eapply names_kept_trans; [exact Hk1|by apply names_kept_eq]).
  split_and!.
  - split; cbn [count_block set_blocksFile bd_writer bd_objectsFile bd_blocksFile bd_packIndexes bd_packNames bd_result res_BlockCount].
    + done.
    + done.
    + rewrite Eob. by eapply handle_names.
    + done.
    + rewrite Ewr. eapply writer_ok_names; [exact Hw1|by apply names_kept_eq].
    + done.
    + rewrite Eres, Hcnt, zlen_app, zlen_cons, zlen_nil. apply i64_id. pose proof (zlen_nonneg bs). unfold in_i64. lia.
    + rewrite zlen_app, zlen_cons, zlen_nil. split; [lia|]. unfold packs'. rewrite pack_total_grow by done. lia.
    + apply Forall_app. by split; [|constructor].
  - done.
  - done.
  - split; [|done|done]. exists name, pre, stored, []. unfold packs'. rewrite lookup_insert_eq, app_nil_r.
    split_and!; [done|done|done|done|lia|]. unfold br, stored. cbn. destruct isRaw; auto.
  - done.
Qed.

(** ** Objects *)

Context (blockBytes : Z) (blockBytes_pos : 0 < blockBytes).

Definition blocks_written (b : builder) (packs : gmap string bytes) (rs : list objectV3Record) (bs : list blockV3Record)
    (total off cnt : Z) (hashed data : bytes) (r : Z * Z * bytes) (s : builder * world) : Prop :=
  exists packs' new, building s.1 s.2 packs' rs (bs ++ new) (total + zlen data) /\ extends packs packs'
    /\ bd_packNames b `prefix_of` bd_packNames s.1 /\ covers packs' (bd_packNames s.1) off new data
    /\ r = (off + zlen data, cnt + zlen new, hashed ++ data) /\ cnt + zlen new < 2 ^ 32
    /\ blockBytes * zlen new <= zlen data + (blockBytes - 1).

Lemma blocks_written_nil b w packs rs bs total off cnt hashed : building b w packs rs bs total -> cnt < 2 ^ 32 ->
  blocks_written b packs rs bs total off cnt hashed [] (off, cnt, hashed) (b, w).
Proof.
  intros Hb Hc. exists packs, []. rewrite !zlen_nil, !Z.add_0_r, !app_nil_r.
  split_and!; [done|apply extends_refl|done|done|done|lia|rewrite zlen_nil; lia].
Qed.
Lemma blocks_written_cons b packs rs bs total off cnt hashed raw rest r s b1 packs1 br :
  0 < zlen raw -> zlen raw = blockBytes \/ rest = [] ->
  extends packs packs1 -> bd_packNames b `prefix_of` bd_packNames b1 ->
  block_at packs1 (bd_packNames b1) br raw -> br_RawOffset br = off ->
  blocks_written b1 packs1 rs (bs ++ [br]) (total + zlen raw) (off + zlen raw) (cnt + 1) (hashed ++ raw) rest r s ->
  blocks_written b packs rs bs total off cnt hashed (raw ++ rest) r s.
Proof.
  intros Hraw Hfull He Hp Hat Hoff (packs' & new & Hb & He' & Hp' & Hc & -> & Hl & Hn). exists packs', (br :: new).
  rewrite zlen_app, zlen_cons, Z.add_assoc. rewrite <- app_assoc in Hb. split_and!.
  - done.
  - by eapply extends_trans.
  - by etransitivity.
  - exists raw, rest. split_and!; [done|by eapply block_at_mono|done|done].
  - rewrite <- app_assoc. do 2 f_equal; lia.
  - lia.
  - destruct Hfull as [->| ->]; [lia|]. destruct new as [|b2 new]; [rewrite (zlen_nil (A := blockV3Record)), (zlen_nil (A := byte)); lia|].
    destruct Hc as (raw2 & rest2 & Hnil & [_ Hpos _] & _). symmetry in Hnil. apply app_eq_nil in Hnil as [-> _]. rewrite zlen_nil in Hpos. lia.
Qed.

Lemma ok_pack_blocks fuel rs ending : forall rest b w packs bs total off cnt hashed,
  building b w packs rs bs total -> total + zlen rest <= 2 ^ 56 -> 0 <= off -> off + zlen rest <= 2 ^ 56 ->
  0 <= cnt < 2 ^ 32 ->
  ok_wp (pack_blocks sha256 EncodeAll blockBytes fuel rest ending off cnt hashed) (b, w)
    (blocks_written b packs rs bs total off cnt hashed rest).
Proof.
  induction fuel as [|fuel IH]; intros rest b w packs bs total off cnt hashed Hb Htot Hoff Hmax Hcnt; [done|].
  cbn [pack_blocks]. set (raw := ztake blockBytes rest). pose proof (zlen_nonneg rest) as Hrest.
  assert (zlen raw = Z.min blockBytes (zlen rest)) as Hraw by (unfold raw; rewrite zlen_ztake; lia).
  assert (zlen raw <> blockBytes -> rest = raw) as Hall by (intros Hne; unfold raw; rewrite ztake_all by lia; done).
  apply ok_bind. destruct (zlen raw >? 0) eqn:Ez; zbool.
  - apply ok_bind. eapply ok_mono; [eapply ok_write_block; [exact Hb|lia|lia|lia]|].
    intros _ [b1 w1] (packs1 & br & Hb1 & He1 & Hp1 & Hat & Hbo). cbn [fst snd] in *.
    destruct (cnt =? 2 ^ 32 - 1) eqn:Ec; [done|]. zbool. unfold ok_wp at 1. rewrite wp_ret.
    rewrite i64_id by (unfold in_i64; lia). cbv beta iota.
    destruct (zlen raw =? blockBytes) eqn:Ef; zbool.
    + assert (rest = raw ++ zdrop blockBytes rest) as Hsplit by (symmetry; apply ztake_zdrop).
      assert (zlen rest = zlen raw + zlen (zdrop blockBytes rest)) as Hlen by (rewrite Hsplit at 1; apply zlen_app).
      rewrite Hsplit at 2. eapply ok_mono; [eapply IH; [exact Hb1|lia|lia|lia|lia]|].
      intros r s Hr. eapply blocks_written_cons; [lia|by left|done..].
    + assert (blocks_written b packs rs bs total off cnt hashed rest (off + zlen raw, cnt + 1, hashed ++ raw) (b1, w1)) as Hdone.
      { rewrite (Hall Ef) at 1. rewrite <- (app_nil_r raw) at 1. eapply blocks_written_cons; [lia|by right|done..|].
        apply blocks_written_nil; [done|lia]. }
      destruct ending as [e|]; [destruct (ends_stream e); [|done]|]; done.
  - assert (rest = []) as -> by (apply zlen_0_nil; lia). unfold ok_wp at 1. rewrite wp_ret. cbv beta iota.
    replace (zlen raw =? blockBytes) with false by lia.
    assert (blocks_written b packs rs bs total off cnt hashed [] (off, cnt, hashed) (b, w)) as Hdone
      by (apply blocks_written_nil; [done|lia]).
    destruct ending as [e|]; [destruct (ends_stream e); [|done]|]; done.
Qed.

(** [pack_object] gives the loop enough fuel: a round with a full buffer uses up
    bytes, and any other round is the last one. *)
Lemma pack_blocks_fuel n : forall m rest ending off cnt hashed st, (length rest < n)%nat -> (length rest < m)%nat ->
  pack_blocks sha256 EncodeAll blockBytes n rest ending off cnt hashed st
  = pack_blocks sha256 EncodeAll blockBytes m rest ending off cnt hashed st.
Proof using blockBytes_pos.
  induction n as [|n IH]; intros [|m] rest ending off cnt hashed st Hn Hm; [lia|lia|lia|]. cbn [pack_blocks].
  apply bind_ext. intros [[o c] h] _. destruct (zlen (ztake blockBytes rest) =? blockBytes) eqn:E; [|done]. zbool. rewrite zlen_ztake in E.
  assert (length (zdrop blockBytes rest) < length rest)%nat by (unfold zdrop, zlen in *; rewrite length_drop; lia).
  apply IH; lia.
Qed.

Context (stream_decode : bytes -> bytes * option error) (storeDir : path)
  (stream_bounded : forall c, zlen (stream_decode c).1 <= 2 ^ 55).

Lemma building_same b w w' packs rs bs total : building b w packs rs bs total -> same_files w w' ->
  building b w' packs rs bs total.
Proof.
  intros [Hh Hno Hob Hbl Hwr Hix Hcnt Ht Hrec] Hs. assert (names_kept w w') as Hk by (apply names_kept_eq; apply Hs).
  split; try done.
  - by eapply holds_same.
  - by eapply handle_names.
  - by eapply handle_names.
  - by eapply writer_ok_names.
Qed.

Lemma ok_OpenStream ref w : ok_wp (OpenStream storeDir ref) w (fun _ w' => same_files w w').
Proof.
  unfold OpenStream. apply ok_bind, ok_wrap. eapply wp_mono; [apply (wp_kept (same_files w)); [apply keeps_OpenFile, _|done]|].
  by intros [f|e] w'.
Qed.
Lemma ok_deliver st w : ok_wp (deliver sha256 stream_decode st) w (fun r w' => same_files w w' /\ zlen r.1 <= 2 ^ 55).
Proof.
  unfold ok_wp, wp, deliver. destruct (next_outcome w) as [fault w1] eqn:Eo.
  assert (same_files w w1) as Hs.
  { unfold next_outcome in Eo. destruct (w_faults w) as [|[|k] fs]; simplify_eq; done. }
  destruct (w_inodes w1 !! _) as [i|]; [|done]. pose proof (stream_bounded (i_data i)) as Hb.
  destruct (stream_decode (i_data i)) as [data err]. cbn [fst] in Hb. destruct fault as [k|]; cbn [fst snd]; [|done].
  split; [done|]. unfold zlen in *. rewrite length_take. lia.
Qed.

Definition object_written (b : builder) (packs : gmap string bytes) (rs : list objectV3Record) (bs : list blockV3Record)
    (total : Z) (ref : ObjectRef) (s : builder * world) : Prop :=
  exists packs' new r, building s.1 s.2 packs' (rs ++ [r]) (bs ++ new) (total + RawBytes ref) /\ extends packs packs'
    /\ bd_packNames b `prefix_of` bd_packNames s.1
    /\ object_at packs' (bd_packNames s.1) (bs ++ new) ref r
    /\ blockBytes * zlen new <= RawBytes ref + (blockBytes - 1).

Lemma decodeDigest_hex d : zlen d = 32 -> decodeDigest (hex_EncodeToString d) = Ok d.
Proof. intros Hd. unfold decodeDigest. by rewrite hex_Decode_Encode, Hd. Qed.

Lemma ok_pack_object ref b w packs rs bs total :
  building b w packs rs bs total -> 0 <= total <= 2 ^ 55 ->
  ok_wp (pack_object sha256 EncodeAll stream_decode blockBytes storeDir ref) (b, w)
    (fun _ s => object_written b packs rs bs total ref s).
Proof.
  intros Hb Htot. unfold pack_object. apply ok_bind, ok_zoom. cbn [snd].
  eapply ok_mono; [apply ok_OpenStream|]. intros st w1 Hs1. cbn [fst snd].
  apply ok_bind, ok_zoom. cbn [snd]. eapply ok_mono; [apply ok_deliver|]. intros [data ending] w2 [Hs2 Hlen]. cbn [fst snd] in *.
  pose proof (building_same _ _ _ _ _ _ _ (building_same _ _ _ _ _ _ _ Hb Hs1) Hs2) as Hb2.
  pose proof (zlen_nonneg data) as Hd0. apply ok_bind. unfold ok_wp at 1. rewrite wp_get. cbn [fst snd].
  apply ok_bind, ok_or_else. eapply ok_mono; [eapply ok_pack_blocks; [exact Hb2|lia|lia|lia|lia]|].
  intros r [b3 w3] (packs3 & new & Hb3 & He3 & Hp3 & Hc3 & -> & Hn3 & Hbk3). cbn [fst snd] in *.
  apply ok_bind, ok_zoom. cbn [snd]. unfold stream_Close.
  eapply wp_mono; [apply (wp_kept (same_files w3)); [apply keeps_Close, _|done]|]. intros [u|e] w4 Hs4; [|done].
  pose proof (building_same _ _ _ _ _ _ _ Hb3 Hs4) as [Hh Hno Hob Hbl Hwr Hix Hcnt Ht Hrec]. cbn [fst snd].
  rewrite !Z.add_0_l. cbn [app] in *.
  destruct (negb _ || negb _) eqn:Echk; [done|]. apply orb_false_iff in Echk as [Hsz Hsha].
  apply negb_false_iff in Hsz, Hsha. zbool. apply bool_decide_eq_true in Hsha.
  apply ok_bind. unfold ok_wp at 1. rewrite wp_lift, <- Hsha, decodeDigest_hex by apply sha256_length.
  unfold write_objects. apply ok_bind. unfold ok_wp at 1. rewrite wp_get. cbn [fst snd].
  apply ok_bind, ok_zoom. cbn [fst snd]. set (r := {| or_Digest := sha256 data |}).
  eapply ok_mono; [eapply ok_Write; [exact Hh|apply lookup_insert_eq|exact Hob]|].
  intros [[n err] f5] w5 Hr. cbn [fst snd] in *. apply ok_bind. unfold ok_wp at 1, on_builder at 1. rewrite wp_modify.
  cbn [fst snd]. apply ok_throw. intros ->. destruct (Hr eq_refl) as (Hh5 & Hob5 & Hn5). rewrite gen_files_objects in Hh5.
  assert (concat (map encodeObjectV3 rs) ++ encodeObjectV3 r = concat (map encodeObjectV3 (rs ++ [r]))) as Hcat.
  { rewrite map_app, concat_app. simpl. by rewrite app_nil_r. }
  rewrite Hcat in Hh5, Hob5. assert (names_kept w4 w5) as Hk5 by (by apply names_kept_eq).
  exists packs3, new, r. rewrite <- Hsz. cbn [fst snd]. split_and!; [|done|done| |done].
  - split; cbn [set_objectsFile bd_objectsFile bd_blocksFile bd_writer bd_packIndexes bd_packNames bd_result]; try done.
    + by eapply handle_names.
    + by eapply writer_ok_names.
  - exists bs, new, [], data. rewrite app_nil_r. cbn [set_objectsFile bd_packNames]. split_and!; try done.
    unfold r. by rewrite <- Hsz, (bg_count _ _ _ _ _ _ Hb2).
Qed.

(** ** The generation *)

Definition raw_sum (refs : list ObjectRef) : Z := foldr (fun r n => RawBytes r + n) 0 refs.
Lemma raw_sum_nonneg refs : Forall (fun r => 0 <= RawBytes r) refs -> 0 <= raw_sum refs.
Proof. induction 1; simpl; lia. Qed.

Lemma ok_pack_references refs : forall ctx b w packs rs bs total,
  building b w packs rs bs total -> 0 <= total -> Forall (fun r => 0 <= RawBytes r) refs ->
  total + raw_sum refs <= 2 ^ 55 ->
  ok_wp (pack_references sha256 EncodeAll stream_decode blockBytes storeDir ctx refs) (b, w) (fun _ s =>
    exists packs' rs' new, building s.1 s.2 packs' (rs ++ rs') (bs ++ new) (total + raw_sum refs) /\ extends packs packs'
      /\ bd_packNames b `prefix_of` bd_packNames s.1
      /\ Forall2 (object_at packs' (bd_packNames s.1) (bs ++ new)) refs rs'
      /\ blockBytes * zlen new <= raw_sum refs + (blockBytes - 1) * zlen refs).
Proof.
  induction refs as [|ref refs IH]; intros ctx b w packs rs bs total Hb Ht Hnn Hmax; cbn [pack_references raw_sum foldr] in *.
  - unfold ok_wp. rewrite wp_ret. exists packs, [], []. rewrite !app_nil_r, Z.add_0_r.
    split_and!; [done|apply extends_refl|done|constructor|unfold zlen; simpl; lia].
  - inversion Hnn as [|? ? Hr Hrs]; subst. pose proof (raw_sum_nonneg _ Hrs) as Hsum. fold (raw_sum refs) in *.
    destruct (ctx_Err ctx) as [err ctx']. apply ok_bind, ok_throw. intros _.
    apply ok_bind. eapply ok_mono; [eapply ok_pack_object; [exact Hb|lia]|].
    intros _ [b1 w1] (packs1 & new1 & r1 & Hb1 & He1 & Hp1 & Ho1 & Hk1). cbn [fst snd] in *.
    eapply ok_mono; [eapply IH; [exact Hb1|lia|done|lia]|].
    intros _ [b2 w2] (packs2 & rs2 & new2 & Hb2 & He2 & Hp2 & Ho2 & Hk2). cbn [fst snd] in *.
    rewrite <- !app_assoc in Hb2. rewrite <- app_assoc in Ho2. exists packs2, (r1 :: rs2), (new1 ++ new2).
    split_and!; [by rewrite Z.add_assoc|by eapply extends_trans|by etransitivity| |].
    + constructor; [|done]. rewrite app_assoc. by eapply object_at_mono.
    + rewrite zlen_app, zlen_cons. lia.
Qed.

(** What a finished generation consists of. *)
Record generation_written (files : gmap string bytes) (m : indexV3Meta) (refs : list ObjectRef)
    (packs : gmap string bytes) (rs : list objectV3Record) (bs : list blockV3Record) : Prop := {
  gw_files : files = gen_files (concat (map encodeObjectV3 rs)) (concat (map encodeBlockV3 bs)) packs;
  gw_packs : no_index packs;
  gw_objects : Forall2 (object_at packs (m_Packs m) bs) refs rs;
  gw_counts : m_ObjectCount m = zlen refs /\ m_BlockCount m = zlen bs /\ zlen bs <= 2 ^ 55;
  gw_total : pack_total packs <= raw_sum refs /\ raw_sum refs <= 2 ^ 55;
  gw_blocks : blockBytes * zlen bs <= raw_sum refs + (blockBytes - 1) * zlen refs;
  gw_records : Forall block_record_ok bs;
}.

Context (json_Marshal : indexV3Meta -> result bytes).

Lemma ok_syncAndClose files dfs w : holds dir files w ->
  Forall (fun f => exists name d, files !! name = Some d /\ handle dir name d f w) dfs ->
  ok_wp (syncAndCloseIndexFiles dfs) w (fun _ w' => holds dir files w').
Proof.
  revert w. induction dfs as [|f dfs IH]; intros w Hh Hf; cbn [syncAndCloseIndexFiles]; [done|].
  inversion Hf as [|? ? (name & d & Hn & Hd) Hfs]; subst. apply ok_bind. eapply ok_mono; [by eapply ok_Sync|].
  intros _ w1 [Hh1 Hn1]. apply ok_bind. eapply ok_mono; [by apply ok_Close|]. intros _ w2 [Hh2 Hn2]. apply IH; [done|].
  eapply Forall_impl; [exact Hfs|]. intros g (a & da & Ha & Hda). exists a, da. split; [done|].
  eapply handle_names; [exact Hda|]. apply names_kept_eq. congruence.
Qed.
Lemma ok_writeIndexV3Meta files m w : holds dir files w ->
  ok_wp (writeIndexV3Meta json_Marshal dir m) w (fun _ w' => exists data, json_Marshal m = Ok data
    /\ holds dir (<["index.meta.json"%string := data ++ [Byte.x0a]]> files) w' /\ files !! "index.meta.json"%string = None).
Proof.
  intros Hh. unfold writeIndexV3Meta. apply ok_bind. unfold ok_wp at 1. rewrite wp_lift.
  destruct (json_Marshal m) as [data|e] eqn:Ej; [|done]. apply ok_bind. eapply ok_mono; [by apply ok_Create|].
  intros f w1 (Hn & Hh1 & Hd1 & _). apply ok_bind. eapply ok_mono; [eapply ok_Write; [exact Hh1|apply lookup_insert_eq|exact Hd1]|].
  intros [[n err] f2] w2 Hr. cbn [fst snd app] in *. destruct err as [e|]; [done|].
  destruct (Hr eq_refl) as (Hh2 & Hd2 & _). rewrite insert_insert_eq in Hh2.
  apply ok_bind, ok_or_else. eapply ok_mono; [eapply ok_Sync; [exact Hh2|apply lookup_insert_eq|exact Hd2]|].
  intros _ w3 [Hh3 _]. apply ok_bind. eapply ok_mono; [by apply ok_Close|]. intros _ w4 [Hh4 _].
  unfold syncDirectory. apply ok_wrap. apply wp_syscall; intros fs; [done|]. unfold wp.
  destruct (decide (dir ∈ w_dirs (tick w4 fs))) as [_|]; [|done]. cbn [fst snd]. exists data. split; [done|]. split; [|done].
  destruct Hh4 as [[Hw1 Hw2] Hd4 Hi4]. by repeat split.
Qed.

Lemma building_start objectsFile blocksFile packBytes w :
  holds dir (<["blocks.idx"%string := []]> {["objects.idx"%string := []]}) w ->
  handle dir "objects.idx" [] objectsFile w -> handle dir "blocks.idx" [] blocksFile w ->
  building {| bd_writer := {| pw_directory := dir; pw_limit := packBytes; pw_sequence := 0;
                              pw_file := None; pw_name := ""; pw_offset := 0 |};
              bd_packIndexes := ∅; bd_packNames := []; bd_objectsFile := objectsFile; bd_blocksFile := blocksFile;
              bd_result := {| res_BlockCount := 0; res_RawBytes := 0; res_StoredBytes := 0 |} |} w ∅ [] [] 0.
Proof.
  intros Hh Ho Hb. split; cbn; done.
Qed.

Lemma ok_from_builder b m w Q : ok_wp m (b, w) (fun _ s => Q s) -> ok_wp (from_builder b m) w (fun b' w' => Q (b', w')).
Proof. unfold ok_wp, wp, from_builder. destruct (m (b, w)) as [[u|e] [b' w']]; done. Qed.

Lemma ok_write_generation ctx generation packBytes refs w :
  world_wf w -> Forall (fun r => 0 <= RawBytes r) refs -> raw_sum refs <= 2 ^ 55 ->
  ok_wp (write_generation sha256 EncodeAll stream_decode blockBytes storeDir json_Marshal ctx dir generation packBytes refs) w
    (fun bm w' => exists files packs rs bs, generation_written files bm.2 refs packs rs bs
      /\ (forall name d, files !! name = Some d -> file_data w' (name :: dir) = Some d)).
Proof.
  intros Hw Hnn Hmax. assert (holds dir ∅ w) as Hh0.
  { split; [done|by intros name d; rewrite lookup_empty|]. intros a b n [? Ha]. by rewrite lookup_empty in Ha. }
  unfold write_generation. apply ok_bind. eapply ok_mono; [by apply ok_Create|]. intros fo w1 (_ & Hh1 & Ho1 & Hk1).
  apply ok_bind, ok_or_else. eapply ok_mono; [by apply ok_Create|]. intros fb w2 (Hn2 & Hh2 & Hb2 & Hk2).
  pose proof (building_start fo fb packBytes w2 Hh2 (handle_names _ _ _ _ _ _ Ho1 Hk2) Hb2) as Hb. set (start := Build_builder _ _ _ _ _ _) in *.
  apply ok_bind.
  assert (ok_wp (pack_references sha256 EncodeAll stream_decode blockBytes storeDir ctx refs ;;; on_writer closeCurrent) (start, w2)
    (fun _ s => exists packs rs bs, building s.1 s.2 packs rs bs (raw_sum refs)
       /\ Forall2 (object_at packs (bd_packNames s.1) bs) refs rs
       /\ blockBytes * zlen bs <= raw_sum refs + (blockBytes - 1) * zlen refs)) as Hrun.
  { apply ok_bind. eapply ok_mono; [eapply ok_pack_references; [exact Hb|done|done|lia]|].
    intros _ [b3 w3] (packs & rs & bs & Hb3 & _ & _ & Hobj & Hblk). cbn [fst snd app] in *. rewrite Z.add_0_l in Hb3.
    destruct Hb3 as [Hh Hno Hob Hbl Hwr Hix Hcnt Ht Hrec]. unfold on_writer. apply ok_zoom. cbn [fst snd].
    eapply ok_mono; [by eapply ok_closeCurrent|]. intros _ [pw4 w4] (Hh4 & Hk4 & Epw). cbn [fst snd] in *. subst pw4.
    exists packs, rs, bs. split; [|by split]. split; try done; cbn [set_writer bd_objectsFile bd_blocksFile bd_writer].
    - by eapply handle_names.
    - by eapply handle_names.
    - split; [apply Hwr|done]. }
  eapply ok_mono; [exact (ok_from_builder start _ w2 _ Hrun)|]. intros b w3 (packs & rs & bs & [Hh Hno Hob Hbl Hwr Hix Hcnt [Ht1 Ht2] Hrec] & Hobj & Hblk). cbn [fst snd] in *.
  apply ok_bind. eapply ok_mono; [eapply ok_syncAndClose; [exact Hh|]|].
  { repeat constructor; [exists "objects.idx"%string|exists "blocks.idx"%string]; eexists; (split; [|done]);
      unfold gen_files; [apply lookup_insert_eq|]. rewrite lookup_insert_ne by done. apply lookup_insert_eq. }
  intros [] w4 Hh4. cbv beta in Hh4. apply ok_bind. eapply ok_mono; [by apply ok_writeIndexV3Meta|].
  intros _ w5 (data & _ & Hh5 & Hnew). unfold ok_wp. rewrite wp_ret. cbn [snd].
  exists (gen_files (concat (map encodeObjectV3 rs)) (concat (map encodeBlockV3 bs)) packs), packs, rs, bs. split.
  - split; cbn [m_Packs m_ObjectCount m_BlockCount]; try done.
    + split_and!; [done|done|lia].
  - intros name d Hd. apply (ho_data _ _ _ Hh5). rewrite lookup_insert_ne; [done|]. intros <-. congruence.
Qed.
End Built.
