(* ===== verification/Generation.v ===== *)
(** Reading back a generation that [PackBuild] wrote: its index passes the checks
    made when a resolver is opened, and the resolver serves every object. *)
From S2P Require Import Prelude GoStd Effects Os Mutation Directory ObjectReader PackIndex PackCache PackResolver Store PackBuild.
From Stdlib Require Import Ascii.
Local Open Scope Z_scope.

(** ** The order of digests *)

(** The [<] of Go strings, by which the database sorts the references. *)
Definition string_lt (a b : string) : Prop := String.ltb a b = true.

Lemma hex_digit_compare x y : 0 <= x < 16 -> 0 <= y < 16 ->
  Ascii.compare (hex_digit x) (hex_digit y) = (x ?= y).
Proof.
  intros Hx Hy. rewrite <- (Z2Nat.id x), <- (Z2Nat.id y) by lia.
  assert (Z.to_nat x < 16)%nat as Hx' by lia. assert (Z.to_nat y < 16)%nat as Hy' by lia.
  revert Hx' Hy'. generalize (Z.to_nat x) (Z.to_nat y). clear. intros x y Hx Hy.
  do 16 (destruct x as [|x]; [do 16 (destruct y as [|y]; [reflexivity|]); lia|]). lia.
Qed.
Lemma hex_compare a b : length a = length b ->
  String.compare (hex_EncodeToString a) (hex_EncodeToString b) = bytes_Compare a b.
Proof.
  revert b. induction a as [|x a IH]; intros [|y b] Hl; try done. cbn [hex_EncodeToString String.compare bytes_Compare].
  pose proof (byte_val_range x). pose proof (byte_val_range y).
  assert (forall z, 0 <= z < 256 -> 0 <= z / 16 < 16 /\ 0 <= z mod 16 < 16) as Hd.
  { intros z Hz. split; [split; [apply Z.div_pos; lia|apply Z.div_lt_upper_bound; lia]|apply Z.mod_pos_bound; lia]. }
  rewrite !hex_digit_compare by (apply Hd; lia). injection Hl as Hl. rewrite (IH b Hl).
  pose proof (Z.div_mod (byte_val x) 16 ltac:(lia)). pose proof (Z.div_mod (byte_val y) 16 ltac:(lia)).
  destruct (Hd _ H) as [_ ?], (Hd _ H0) as [_ ?].
  destruct (Z.compare_spec (byte_val x / 16) (byte_val y / 16)) as [E|E|E],
    (Z.compare_spec (byte_val x mod 16) (byte_val y mod 16)) as [E2|E2|E2],
    (Z.compare_spec (byte_val x) (byte_val y)) as [E3|E3|E3]; try done; lia.
Qed.
Lemma string_lt_hex a b : length a = length b ->
  string_lt (hex_EncodeToString a) (hex_EncodeToString b) -> bytes_lt a b.
Proof.
  intros Hl. unfold string_lt, String.ltb, bytes_lt. rewrite hex_compare by done. by destruct (bytes_Compare a b).
Qed.

(** ** Reading *)

Section Read.
Context (sha256 EncodeAll : bytes -> bytes) (DecodeAll : bytes -> result bytes).
Context (sha256_length : forall d, zlen (sha256 d) = 32).
Context (zstd_roundtrip : forall d, DecodeAll (EncodeAll d) = Ok d).
Context (m : indexV3Meta) (refs : list ObjectRef) (packs : gmap string bytes).
Context (rs : list objectV3Record) (bs : list blockV3Record) (cacheBytes : Z).
Context (few_packs : zlen (m_Packs m) <= 2 ^ 32) (few_objects : zlen refs <= max_int64 / objectV3RecordBytes).
Context (few_blocks : zlen bs <= 2 ^ 55) (blocks_ok : Forall block_record_ok bs).
Context (pack_sizes : forall name d, packs !! name = Some d -> zlen d <= 2 ^ 55).
Context (all_objects : Forall2 (object_at sha256 EncodeAll packs (m_Packs m) bs) refs rs).
Context (all_small : Forall (fun ref => RawBytes ref <= 2 ^ 55) refs).
Context (all_sorted : StronglySorted string_lt (map SHA256 refs)).

Let i := built_index m rs bs.
Let r := open_v3 i packs cacheBytes.

(** The block of a record, as [expand_blocks] makes it. *)
Definition block_of (b : blockV3Record) : Block :=
  {| b_Pack := nth (Z.to_nat (br_PackIndex b)) (m_Packs m) ""; b_PackOffset := br_PackOffset b;
     b_StoredBytes := br_StoredBytes b; b_RawOffset := br_RawOffset b; b_RawBytes := br_RawBytes b;
     b_SHA256 := hex_EncodeToString (br_Digest b);
     b_Encoding := if br_Encoding b =? 1 then EncodingRaw else EncodingZstd |}.

Lemma block_facts b raw : block_at sha256 EncodeAll packs (m_Packs m) b raw ->
  block_contents sha256 DecodeAll r (block_of b) = Ok raw
  /\ br_PackIndex b < zlen (m_Packs m) /\ 0 <= br_PackOffset b /\ 0 < br_StoredBytes b
  /\ br_RawBytes b = zlen raw /\ 0 < zlen raw /\ (br_Encoding b = 1 \/ br_Encoding b = 0)
  /\ exists d, packs !! b_Pack (block_of b) = Some d /\ br_PackOffset b + br_StoredBytes b <= zlen d /\ zlen d <= 2 ^ 55.
Proof.
  intros [(name & pre & stored & post & Hi & Hn & Ho & Hs & Hz & Henc) [Hr Hr0] Hd].
  destruct (Hi few_packs) as [Hk Hname]. pose proof (lookup_lt_Some _ _ _ Hname) as Hlt.
  assert (b_Pack (block_of b) = name) as Hpack by (cbn; by apply nth_lookup_Some).
  pose proof (zlen_nonneg pre) as Hpre. pose proof (zlen_nonneg post) as Hpost.
  assert (zlen (pre ++ stored ++ post) = zlen pre + zlen stored + zlen post) as Hl by (rewrite !zlen_app; lia).
  split.
  - unfold block_contents. rewrite Hpack. unfold r. cbn [open_v3 r_packs]. rewrite Hn.
    cbn [block_of b_StoredBytes b_PackOffset b_Encoding b_RawBytes b_SHA256]. rewrite Ho, Hs, file_ReadAt_Ok by lia.
    rewrite (slice_app_mid pre stored post) by lia.
    assert ((if string_eqb (if br_Encoding b =? 1 then EncodingRaw else EncodingZstd) EncodingRaw then Ok stored
             else match DecodeAll stored with Ok data => Ok data | Err e => Err (errorf "decode packed block %s:%d: %w" e) end)
            = Ok raw) as ->.
    { destruct Henc as [[-> ->]|[-> ->]]; [done|]. cbn. by rewrite zstd_roundtrip. }
    rewrite Hr, Z.eqb_refl, Hd. unfold string_eqb. by rewrite bool_decide_eq_true_2.
  - rewrite Hpack. split_and!; try lia; try done.
    + unfold zlen. lia.
    + exists (pre ++ stored ++ post). split_and!; [done|lia|by eapply pack_sizes].
Qed.

(** The blocks of an object, and what they hold. *)
Fixpoint blocks_hold (off : Z) (bl : list Block) (data : bytes) : Prop :=
  match bl with
  | [] => data = []
  | b :: bl => exists raw rest, data = raw ++ rest /\ block_contents sha256 DecodeAll r b = Ok raw
                 /\ b_RawOffset b = off /\ b_RawBytes b = zlen raw /\ 0 < zlen raw
                 /\ blocks_hold (off + zlen raw) bl rest
  end.

Lemma expand_covers before new after : bs = before ++ new ++ after -> forall off data,
  covers sha256 EncodeAll packs (m_Packs m) off new data -> 0 <= off -> off + zlen data <= 2 ^ 56 ->
  expand_blocks i (length new) (zlen before) off = Ok (map block_of new, off + zlen data)
  /\ blocks_hold off (map block_of new) data
  /\ validate_block_bounds (zlen <$> packs) (map block_of new) = Ok tt.
Proof.
  revert before. induction new as [|b new IH]; intros before Hbs off data Hc Hoff Hmax.
  - simpl in *. subst data. rewrite zlen_nil, Z.add_0_r. done.
  - destruct Hc as (raw & rest & -> & Hb & Hbo & Hc). rewrite zlen_app in Hmax.
    destruct (block_facts b raw Hb) as (Hcon & Hidx & Hpo & Hst & Hraw & Hr0 & Henc & d & Hd & Hdl & Hd2).
    pose proof (zlen_nonneg rest) as Hrest.
    assert (readBlockRecord i (zlen before) = Ok b) as Hrd.
    { unfold i. change (zlen before) with (Z.of_nat (length before)).
      apply built_block_read; [done|by etransitivity|].
      rewrite Hbs, lookup_app_r, Nat.sub_diag by lia. done. }
    destruct (IH (before ++ [b])) with (off := off + zlen raw) (data := rest) as (He & Hh & Hv);
      [by rewrite Hbs, <- app_assoc|done|lia|lia|].
    rewrite zlen_app, zlen_cons, zlen_nil, Z.add_0_r in He. cbn [length expand_blocks map blocks_hold validate_block_bounds].
    split_and!.
    + rewrite Hrd. change (m_Packs (meta i)) with (m_Packs m).
      replace (_ || _ || _ || _ || _) with false.
      2: { symmetry. repeat (apply orb_false_intro); zbool; lia. }
      replace (negb (br_Encoding b =? 1) && negb (br_Encoding b =? 0)) with false by (by destruct Henc as [-> | ->]).
      rewrite i64_id by (unfold in_i64; lia). rewrite Hraw, He. rewrite zlen_app, Z.add_assoc. unfold block_of at 2. by rewrite Hraw.
    + exists raw, rest. split_and!; done.
    + rewrite lookup_fmap, Hd. cbn [fmap option_fmap option_map block_of b_PackOffset b_StoredBytes].
      rewrite i64_id by (unfold in_i64; lia). replace (_ || _) with false; [done|]. symmetry. apply orb_false_intro; lia.
Qed.

Definition served (ref : ObjectRef) (rec : objectV3Record) (o : Object) (data : bytes) : Prop :=
  expandObject i rec = Ok o /\ o_SHA256 o = SHA256 ref /\ o_RawBytes o = RawBytes ref /\ RawBytes ref = zlen data
  /\ SHA256 ref = hex_EncodeToString (sha256 data) /\ or_Digest rec = sha256 data
  /\ blocks_hold 0 (o_Blocks o) data /\ validateObjectBlockBounds o (zlen <$> packs) = Ok tt.

Lemma object_served ref rec : RawBytes ref <= 2 ^ 55 ->
  object_at sha256 EncodeAll packs (m_Packs m) bs ref rec -> object_record_ok rec /\ exists o data, served ref rec o data.
Proof.
  intros Hsmall (before & new & after & data & Hbs & Hc & Hsha & Hlen & -> & Hnew).
  pose proof (zlen_nonneg before). pose proof (zlen_nonneg new). pose proof (zlen_nonneg after). pose proof (zlen_nonneg data).
  assert (zlen bs = zlen before + zlen new + zlen after) as Hbl by (rewrite Hbs, !zlen_app; lia). split.
  - split; cbn [or_Digest or_RawBytes or_FirstBlock or_BlockCount]; [apply sha256_length|..]; unfold in_i64, in_u32; lia.
  - destruct (expand_covers before new after Hbs 0 data Hc) as (He & Hh & Hv); [lia|lia|].
    exists {| o_SHA256 := SHA256 ref; o_RawBytes := zlen data; o_Blocks := map block_of new |}, data. split_and!; try done.
    unfold expandObject. cbn [or_Digest or_RawBytes or_FirstBlock or_BlockCount].
    change (m_BlockCount (meta i)) with (zlen bs). rewrite i64_id by (unfold in_i64; lia).
    replace (_ || _ || _) with false by (symmetry; repeat apply orb_false_intro; lia).
    change (Z.to_nat (zlen new)) with (Z.to_nat (Z.of_nat (length new))). rewrite Nat2Z.id, He, Z.add_0_l, Z.eqb_refl.
    cbn [negb]. by rewrite Hsha.
Qed.

Lemma all_served : Forall2 (fun ref rec => object_record_ok rec /\ exists o data, served ref rec o data) refs rs.
Proof.
  assert (forall refs' rs', Forall2 (object_at sha256 EncodeAll packs (m_Packs m) bs) refs' rs' ->
    Forall (fun ref => RawBytes ref <= 2 ^ 55) refs' ->
    Forall2 (fun ref rec => object_record_ok rec /\ exists o data, served ref rec o data) refs' rs') as Hall; [|by apply Hall].
  induction 1 as [|ref rec refs' rs' Ho _ IH]; intros Hs; [constructor|].
  inversion Hs; subst. constructor; [by apply object_served|by apply IH].
Qed.
Lemma rs_length : zlen rs = zlen refs.
Proof. unfold zlen. by rewrite (Forall2_length _ _ _ all_objects). Qed.
Lemma rs_ok : Forall object_record_ok rs.
Proof. eapply Forall2_Forall_r; [exact all_served|]. apply Forall_true. by intros ref rec [? _]. Qed.
Lemma served_at k rec : rs !! k = Some rec -> exists ref o data, refs !! k = Some ref /\ served ref rec o data.
Proof.
  intros Hk. destruct (Forall2_lookup_r _ _ _ _ _ all_served Hk) as (ref & Hr & _ & o & data & Hs). eauto.
Qed.
Lemma few_records : zlen rs <= max_int64 / objectV3RecordBytes.
Proof. by rewrite rs_length. Qed.

Lemma records_sorted j k ra rb : (j < k)%nat -> rs !! j = Some ra -> rs !! k = Some rb ->
  bytes_lt (or_Digest ra) (or_Digest rb).
Proof.
  intros Hjk Ha Hb. destruct (served_at j ra Ha) as (refa & oa & da & Hra & Hsa).
  destruct (served_at k rb Hb) as (refb & ob & db & Hrb & Hsb).
  destruct Hsa as (_ & _ & _ & _ & Sa & -> & _), Hsb as (_ & _ & _ & _ & Sb & -> & _).
  apply string_lt_hex.
  - pose proof (sha256_length da). pose proof (sha256_length db). unfold zlen in *. lia.
  - rewrite <- Sa, <- Sb. apply (StronglySorted_before _ _ j k _ _ all_sorted); [..|done];
      by rewrite lookup_map, ?Hra, ?Hrb.
Qed.

Lemma read_record k rec : rs !! k = Some rec -> readObjectRecord i (Z.of_nat k) = Ok rec.
Proof. apply built_object_read; [apply rs_ok|apply few_records]. Qed.

Lemma bounds_valid n k prev : (k + n = length rs)%nat ->
  (forall rec, (0 < k)%nat -> rs !! pred k = Some rec -> prev = or_Digest rec) ->
  validate_v3_bounds i (zlen <$> packs) n (Z.of_nat k) prev = Ok tt.
Proof.
  revert k prev. induction n as [|n IH]; intros k prev Hk Hprev; [done|]. cbn [validate_v3_bounds].
  destruct (lookup_lt_is_Some_2 rs k) as [rec Hrec]; [lia|]. rewrite (read_record k rec Hrec).
  destruct (served_at k rec Hrec) as (ref & o & data & _ & He & _ & _ & _ & _ & _ & _ & Hv).
  replace (_ && _) with false.
  2: { symmetry. destruct k as [|k]; [done|]. apply andb_false_intro2.
       destruct (lookup_lt_is_Some_2 rs k) as [rec' Hrec']; [lia|]. rewrite (Hprev rec' ltac:(lia) Hrec').
       pose proof (records_sorted k (S k) rec' rec ltac:(lia) Hrec' Hrec) as Hlt. unfold bytes_lt in Hlt. by rewrite Hlt. }
  unfold objectAt. rewrite (read_record k rec Hrec), He, Hv.
  replace (Z.of_nat k + 1) with (Z.of_nat (S k)) by lia. apply IH; [lia|]. intros rec' _ Hrec'. simpl in Hrec'. congruence.
Qed.

Lemma generation_opens : validateSizes i = Ok tt /\ validateResolverBounds_v3 i (zlen <$> packs) = Ok tt.
Proof.
  pose proof few_records as Hf. pose proof (zlen_nonneg rs). pose proof (zlen_nonneg bs).
  assert (zlen rs * 52 <= max_int64) as Hmul.
  { unfold objectV3RecordBytes in Hf. pose proof (Z.mul_div_le max_int64 52 ltac:(lia)). lia. }
  split.
  - unfold validateSizes, i. cbn [built_index meta m_ObjectCount m_BlockCount objects blocks].
    rewrite built_blocks_len by done. rewrite (zlen_concat_fixed _ objectV3RecordBytes).
    2: { eapply Forall_impl; [apply rs_ok|]. apply encodeObjectV3_len. }
    unfold objectV3RecordBytes, blockV3RecordBytes in *. unfold max_int64 in Hmul.
    rewrite !i64_id by (unfold in_i64; lia). rewrite !Z.eqb_refl.
    replace (zlen rs >? max_int64 / 52) with false by (symmetry; rewrite Z.gtb_ltb; by apply Z.ltb_ge).
    replace (zlen bs >? max_int64 / 69) with false; [done|]. symmetry. rewrite Z.gtb_ltb. apply Z.ltb_ge. by etransitivity.
  - unfold validateResolverBounds_v3. change (Z.to_nat (m_ObjectCount (meta i))) with (Z.to_nat (Z.of_nat (length rs))).
    rewrite Nat2Z.id.
    apply (bounds_valid _ 0); [done|lia].
Qed.

Lemma hold_total off bl data : blocks_hold off bl data -> raw_total bl = zlen data.
Proof.
  revert off data. induction bl as [|b bl IH]; intros off data; [by intros ->|].
  intros (raw & rest & -> & _ & _ & Hr & _ & Hh). cbn [raw_total foldr]. fold (raw_total bl).
  rewrite (IH _ _ Hh), Hr, zlen_app. done.
Qed.
(** Each byte of an object is in one of its blocks. *)
Lemma hold_byte off bl data p : blocks_hold off bl data -> off <= p < off + zlen data ->
  exists k b raw, bl !! k = Some b /\ block_contents sha256 DecodeAll r b = Ok raw
    /\ b_RawOffset b <= p < b_RawOffset b + b_RawBytes b
    /\ raw !! Z.to_nat (p - b_RawOffset b) = data !! Z.to_nat (p - off).
Proof.
  revert off data. induction bl as [|b bl IH]; intros off data; [intros ->; rewrite zlen_nil; lia|].
  intros (raw & rest & -> & Hc & Ho & Hr & H0 & Hh) Hp. rewrite zlen_app in Hp.
  destruct (decide (p < off + zlen raw)).
  - exists 0%nat, b, raw. split_and!; [done|done|lia|lia|]. rewrite Ho, lookup_app_l by (unfold zlen in *; lia). done.
  - destruct (IH _ _ Hh) as (k & b' & raw' & Hk & Hc' & Hp' & Hl); [lia|]. exists (S k), b', raw'. split_and!; try done; try lia.
    rewrite Hl, lookup_app_r by (unfold zlen in *; lia). f_equal. unfold zlen in *. lia.
Qed.

Lemma generation_ok : resolver_ok sha256 DecodeAll r.
Proof.
  destruct generation_opens as [Hs Hb]. apply (open_v3_resolver_ok _ _ i packs (zlen <$> packs)); [apply zlen_nonneg|done|done|].
  intros k o Hk Ho. change (m_ObjectCount (meta i)) with (zlen rs) in Hk.
  destruct (lookup_lt_is_Some_2 rs (Z.to_nat k)) as [rec Hrec]; [unfold zlen in Hk; lia|].
  unfold objectAt in Ho. rewrite <- (Z2Nat.id k) in Ho by lia. rewrite (read_record _ _ Hrec) in Ho.
  destruct (served_at _ _ Hrec) as (ref & o' & data & Href & He & _ & _ & Hlen & _ & _ & Hh & _).
  rewrite He in Ho. injection Ho as <-. rewrite (hold_total _ _ _ Hh), <- Hlen.
  eapply Forall_lookup_1 in all_small; [|exact Href]. cbn in all_small. unfold max_int64. lia.
Qed.

Lemma generation_byte k ref : refs !! k = Some ref -> exists data,
  SHA256 ref = hex_EncodeToString (sha256 data) /\ RawBytes ref = zlen data
  /\ forall p, 0 <= p < zlen data -> resolver_byte sha256 DecodeAll r ref p = data !! Z.to_nat p.
Proof.
  intros Href. destruct (Forall2_lookup_l _ _ _ _ _ all_served Href) as (rec & Hrec & _ & o & data & Hserved).
  pose proof (lookup_lt_Some _ _ _ Hrec) as Hlt.
  destruct Hserved as (He & Hosha & Horaw & Hlen & Hsha & Hdig & Hh & _). exists data. split_and!; [done|done|].
  pose proof generation_ok as Hok. destruct generation_opens as [Hs Hb].
  pose proof (validateSizes_sized i (zlen_nonneg rs) Hs) as Hsized.
  pose proof (validateResolverBounds_v3_sorted i Hsized _ Hb) as Hsorted.
  assert (record_at i (Z.of_nat k) = rec) as Hat by (apply built_record_at; [apply rs_ok|done]).
  assert (lookupObject r (SHA256 ref) = Ok (Some o)) as Hl.
  { unfold lookupObject, r. cbn [open_v3 r_v3].
    destruct (lookupV3_spec i Hsized Hsorted (SHA256 ref) (sha256 data)) as [Hf _].
    { rewrite Hsha. apply decodeDigest_hex, sha256_length. }
    rewrite (Hf (Z.of_nat k)), Hat, He; [done| |by rewrite Hat].
    change (m_ObjectCount (meta i)) with (zlen rs). unfold zlen. lia. }
  intros p Hp. unfold resolver_byte. rewrite Hl, Horaw, Z.eqb_refl.
  destruct (hold_byte 0 _ _ p Hh ltac:(lia)) as (j & b & raw & Hj & Hc & Hpb & Hbyte).
  rewrite (object_byte_in_block _ _ r o j b raw p Hok) by (try done; by eexists).
  rewrite Hbyte. f_equal. lia.
Qed.
End Read.

Section Roundtrip.
Context (sha256 EncodeAll : bytes -> bytes) (DecodeAll : bytes -> result bytes).
Context (stream_decode : bytes -> bytes * option error) (json_Marshal : indexV3Meta -> result bytes).
Context (blockBytes : Z) (storeDir dir : path) (cacheBytes : Z).
Context (sha256_length : forall d, zlen (sha256 d) = 32).
Context (zstd_roundtrip : forall d, DecodeAll (EncodeAll d) = Ok d).
Context (zstd_frame : forall d, 0 < zlen d -> 0 < zlen (EncodeAll d)).
Context (stream_bounded : forall c, zlen (stream_decode c).1 <= 2 ^ 55).

(** A read of [n] bytes at [off] returns those bytes of [data]. *)
Definition reads_as (r : Resolver) (ref : ObjectRef) (data : bytes) : Prop :=
  forall n off res r' ctx', 0 <= off -> 0 < n -> off + n <= zlen data ->
    resolver_ReadAt sha256 DecodeAll r None ref n off = (res, r', ctx') ->
    rdata res = slice off (off + n) data /\ rerr res = None.

Lemma bytes_read_as r ref data : resolver_ok sha256 DecodeAll r ->
  (forall p, 0 <= p < zlen data -> resolver_byte sha256 DecodeAll r ref p = data !! Z.to_nat p) -> reads_as r ref data.
Proof.
  intros Hok Hb n off res r' ctx' Ho Hn Hl Hr.
  destruct (resolver_ReadAt_spec _ _ _ _ _ _ _ _ _ _ Hok Ho Hn Hr) as (_ & _ & Hlen & _ & Hbytes & Hfull).
  destruct (Hfull eq_refl) as (_ & Hrn & Herr).
  { intros p Hp. rewrite Hb by lia. apply lookup_lt_is_Some_2. unfold zlen in *. lia. }
  split; [|done]. assert (length (rdata res) = Z.to_nat n) as Hlr by (unfold zlen in *; lia).
  assert (length (slice off (off + n) data) = Z.to_nat n) as Hls.
  { pose proof (zlen_slice off (off + n) data) as Hs. unfold zlen in *. lia. }
  apply list_eq_same_length with (n := Z.to_nat n); [done|done|]. intros j x y Hj Hx Hy.
  destruct (Hbytes (Z.of_nat j)) as (z & Hz & Hbz); [lia|]. rewrite Nat2Z.id in Hz.
  rewrite Hb in Hbz by lia. unfold slice in Hy. rewrite <- (Nat2Z.id j), lookup_ztake_zdrop in Hy by lia. congruence.
Qed.

End Roundtrip.

(** ** A sample generation *)

Definition toy_hash (d : bytes) : bytes := le_bytes 32 (le_val d).
Definition toy_frame (d : bytes) : bytes := Byte.x28 :: d.
Definition toy_unframe (c : bytes) : result bytes :=
  match c with Byte.x28 :: d => Ok d | _ => Err (errors_new "magic number mismatch") end.
Definition toy_stream (c : bytes) : bytes * option error := (take 1024 (drop 1 c), None).
Definition toy_meta (m : indexV3Meta) : result bytes := Ok [].

Lemma toy_hash_length d : zlen (toy_hash d) = 32.
Proof. apply zlen_le_bytes. Qed.
Lemma toy_unframe_frame d : toy_unframe (toy_frame d) = Ok d.
Proof. done. Qed.
Lemma toy_frame_nonempty d : 0 < zlen d -> 0 < zlen (toy_frame d).
Proof. intros. unfold toy_frame. rewrite zlen_cons. lia. Qed.
Lemma toy_stream_bounded c : zlen (toy_stream c).1 <= 2 ^ 55.
Proof. unfold toy_stream, zlen. cbn [fst]. rewrite length_take. lia. Qed.

Definition sample_objects : list bytes := [[Byte.x01]; [Byte.x02; Byte.x05; Byte.x06]].
Definition sample_refs : list ObjectRef :=
  map (fun d => {| SHA256 := hex_EncodeToString (toy_hash d); RawBytes := zlen d; StoredBytes := 0 |}) sample_objects.
Definition sample_paths : list path := map (fun r => object_path ["s"%string] (SHA256 r)) sample_refs.
Definition sample_store_world : world :=
  {| w_names := list_to_map (zip sample_paths [0%nat; 1%nat]);
     w_inodes := list_to_map (zip [0%nat; 1%nat]
       (map (fun d => {| i_data := toy_frame d; i_mtime := 0; i_synced := true |}) sample_objects));
     w_dirs := {[ ["t"%string] ]}; w_durable := ∅; w_next := 2; w_clock := 0; w_faults := []; w_locked := ∅ |}.
(** Blocks of two bytes in packs of three. *)
Definition sample_build : result (builder * indexV3Meta) * world :=
  write_generation toy_hash toy_frame toy_stream 2 ["s"%string] toy_meta None ["t"%string] "gen-1" 3 sample_refs
    sample_store_world.
Definition sample_built : builder * indexV3Meta :=
  match sample_build.1 with
  | Ok x => x
  | Err _ => (Build_builder (Build_packWriter [] 0 0 None "" 0) ∅ [] (Build_File 0 0 false) (Build_File 0 0 false)
                (Build_BuildResult 0 0 0), Build_indexV3Meta 0 "" "" 0 0 0 [])
  end.

Example sample_built_packs : m_Packs sample_built.2 = ["pack-000001.pack"; "pack-000002.pack"]%string.
Proof. vm_compute. reflexivity. Qed.

Lemma sample_store_wf : world_wf sample_store_world.
Proof.
  split; cbn [sample_store_world w_names w_inodes w_next].
  - intros p n Hp. apply elem_of_list_to_map_2 in Hp. cbn in Hp. set_unfold in Hp.
    destruct Hp as [[= _ ->]|[[= _ ->]|[]]]; by eexists.
  - intros n [i Hi]. apply elem_of_list_to_map_2 in Hi. cbn in Hi. set_unfold in Hi.
    destruct Hi as [[= -> _]|[[= -> _]|[]]]; lia.
Qed.

