(* ===== verification/PackPlan.v ===== *)
(** Planning a pack build: the checks and prices of [src/internal/pack/build.go]
    ([hasDroppedPackedObjects], [compactPackFileLimit], [estimatedGenerationBytes]
    and the choice between an incremental build and a compaction) and the whole of
    [src/internal/pack/incremental_budget.go].

    Arguments of the model: the rows of a query on the reference database with the
    error that ended it, the sizes that [Stat] reports for the open packs in the
    iteration order of their map, and the entries that [filepath.WalkDir] visits
    below the manifests directory. *)
From S2P Require Import Prelude GoStd Effects Os Mutation Directory ObjectReader PackIndex PackCache PackResolver Store PackBuild Generation.
From Stdlib Require Import Ascii.
Local Open Scope Z_scope.

(** ** The earlier generation *)

(** A resolver with the JSON index it was opened from (empty for version 3). *)
Record Source := { src_resolver : Resolver; src_index : Index }.

Definition resolver_ObjectCount (s : Source) : Z :=
  match r_v3 (src_resolver s) with
  | Some i => m_ObjectCount (meta i)
  | None => zlen (i_Objects (src_index s))
  end.

Definition resolver_objectAt (s : Source) (position : Z) : result Object :=
  if (position <? 0) || (position >=? resolver_ObjectCount s) then Err io_EOF
  else
    match r_v3 (src_resolver s) with
    | Some i => objectAt i position
    | None => match i_Objects (src_index s) !! Z.to_nat position with
              | Some object => Ok object
              | None => Err (Sentinel "panic")
              end
    end.

(** ** When to compact *)

Fixpoint dropped_loop (ctx : Ctx) (s : Source) (rows : list string) (rowsErr : option error)
    (position : Z) (previousDigest : string) : result bool :=
  match rows with
  | [] => match rowsErr with
          | Some e => Err e
          | None => Ok (position <? resolver_ObjectCount s)
          end
  | digest :: rows =>
      let '(err, ctx) := ctx_Err ctx in
      match err with
      | Some e => Err e
      | None =>
          if position >=? resolver_ObjectCount s then dropped_loop ctx s rows rowsErr position previousDigest
          else
            match (if string_eqb previousDigest "" then result_bind (fun o => Ok (o_SHA256 o)) (resolver_objectAt s position)
                   else Ok previousDigest) with
            | Err e => Err e
            | Ok previousDigest =>
                if String.ltb previousDigest digest then Ok true
                else if string_eqb previousDigest digest then dropped_loop ctx s rows rowsErr (position + 1) ""
                else dropped_loop ctx s rows rowsErr position previousDigest
            end
      end
  end.
Definition hasDroppedPackedObjects (ctx : Ctx) (s : Source) (rows : list string) (rowsErr : option error)
  : result bool := dropped_loop ctx s rows rowsErr 0 "".

Definition max_int : Z := 2 ^ 63 - 1.
Fixpoint stored_sum (stats : list (result Z)) (stored : Z) : result Z :=
  match stats with
  | [] => Ok stored
  | Err e :: _ => Err e
  | Ok size :: stats =>
      if (size <? 0) || (stored >? i64 (max_int64 - size)) then Err (errors_new "pack file size projection overflow")
      else stored_sum stats (i64 (stored + size))
  end.
Definition compactPackFileLimit (previous : option (list (result Z))) (packBytes : Z) : result Z :=
  match previous with
  | None => Ok 16
  | Some stats =>
      if packBytes <=? 0 then Ok 16
      else
        match stored_sum stats 0 with
        | Err e => Err e
        | Ok stored =>
            let minimum := Z.quot stored packBytes in
            let minimum := if negb (Z.rem stored packBytes =? 0) then i64 (minimum + 1) else minimum in
            if minimum >? max_int - 8 then Err (errors_new "pack file count projection overflow")
            else Ok (Z.max 16 (minimum + 8))
        end
  end.

(** The part of [Build] that may turn an incremental build into a compaction. *)
Definition stays_incremental (ctx : Ctx) (s : Source) (stats : list (result Z)) (rows : list string)
    (rowsErr : option error) (incremental : bool) (blockBytes packBytes : Z) : result bool :=
  if negb incremental then Ok false
  else
    match hasDroppedPackedObjects ctx s rows rowsErr with
    | Err e => Err e
    | Ok dropped =>
        let sourceBlockBytes := match r_v3 (src_resolver s) with
                                | Some i => m_BlockBytes (meta i)
                                | None => i_BlockBytes (src_index s)
                                end in
        match compactPackFileLimit (Some stats) packBytes with
        | Err e => Err e
        | Ok packLimit =>
            Ok (negb (dropped || (Z.of_nat (size (r_packs (src_resolver s))) >=? packLimit)
                      || (blockBytes <? sourceBlockBytes)))
        end
    end.

(** ** Prices *)

Definition estimatedGenerationBytes (rawBytes : Z) : result Z :=
  if rawBytes <? 0 then Err (errors_new "pack generation byte estimate overflow")
  else
    let compressionOverhead := i64 (Z.quot rawBytes 16 + 2 ^ 20) in
    if rawBytes >? i64 (max_int64 - compressionOverhead) then Err (errors_new "pack generation byte estimate overflow")
    else Ok (i64 (rawBytes + compressionOverhead)).

(** The closures [add] and the inlined sums: a checked addition. *)
Definition add_checked (message : string) (added n : Z) : result Z :=
  if (n <? 0) || (added >? i64 (max_int64 - n)) then Err (errors_new message) else Ok (i64 (added + n)).

(** What [WalkDir] calls its function with. *)
Inductive walk_entry :=
| walk_error (e : error)
| walk_directory
| walk_file (name : string) (info : result Z).

(** [filepath.Ext(name) == ".json"]. *)
Fixpoint ends_with (suffix s : string) : bool :=
  string_eqb s suffix || match s with EmptyString => false | String _ s => ends_with suffix s end.

Fixpoint manifests_loop (ctx : Ctx) (entries : list walk_entry) (added : Z) : result Z :=
  match entries with
  | [] => Ok added
  | walk_error e :: _ => Err e
  | entry :: entries =>
      let '(err, ctx) := ctx_Err ctx in
      match err, entry with
      | Some e, _ => Err e
      | None, walk_file name info =>
          if negb (ends_with ".json" name) then manifests_loop ctx entries added
          else
            match info with
            | Err e => Err e
            | Ok size =>
                if size >? Z.quot (max_int64 - 4096) 2 then Err (errors_new "incremental manifest projection overflow")
                else
                  match add_checked "generation metadata projection overflow" added (i64 (i64 (size * 2) + 4096)) with
                  | Err e => Err e
                  | Ok added => manifests_loop ctx entries added
                  end
            end
      | None, _ => manifests_loop ctx entries added
      end
  end.

Definition estimateGenerationMetadata (ctx : Ctx) (entries : list walk_entry) (count rawBytes blockBytes payload : Z)
  : result Z :=
  let add := add_checked "generation metadata projection overflow" in
  let blocks := i64 (Z.quot rawBytes blockBytes + count) in
  if (count >? max_int64 / 104) || (blocks >? max_int64 / 138) then
    Err (errors_new "incremental index projection overflow")
  else
    match add payload (i64 (count * 104)) with
    | Err e => Err e
    | Ok added =>
        match add added (i64 (blocks * 138)) with
        | Err e => Err e
        | Ok added =>
            match add added (2 ^ 26) with
            | Err e => Err e
            | Ok added => manifests_loop ctx entries added
            end
        end
    end.

Section Estimates.
Variable storeDir : path.
Variable previous : option Source.

(** [os.Lstat] of the loose object: [true] when it is there. *)
Definition loose_present (digest : string) : OS bool :=
  let* looseErr := error_of (os_Stat (object_path storeDir digest)) in
  match looseErr with
  | None => ret true
  | Some e => if is_NotExist e then ret false else fail e
  end.

Definition compatible_object (found : option Object) (size blockBytes : Z) : bool :=
  match found with
  | None => false
  | Some object => (o_RawBytes object =? size) && forallb (fun b => negb (b_RawBytes b >? blockBytes)) (o_Blocks object)
  end.

Fixpoint copied_blocks (blocks : list Block) (copiedEncoded : Z) : result Z :=
  match blocks with
  | [] => Ok copiedEncoded
  | b :: blocks =>
      match add_checked "compacted generation projection overflow" copiedEncoded (b_StoredBytes b) with
      | Err e => Err e
      | Ok copiedEncoded => copied_blocks blocks copiedEncoded
      end
  end.

(** The loop of [estimateCompactedGeneration]: raw bytes to encode again, encoded
    bytes to copy, and the context for what follows. *)
Fixpoint compacted_loop (ctx : Ctx) (rows : list ObjectRef) (rowsErr : option error) (blockBytes reencodedRaw copiedEncoded : Z)
  : OS (Z * Z * Ctx) :=
  match rows with
  | [] => throw rowsErr ;;; ret (reencodedRaw, copiedEncoded, ctx)
  | ref :: rows =>
      let '(err, ctx) := ctx_Err ctx in
      throw err ;;;
      let* loose := loose_present (SHA256 ref) in
      let reencode :=
        let* reencodedRaw := lift (add_checked "compacted generation projection overflow" reencodedRaw (RawBytes ref)) in
        compacted_loop ctx rows rowsErr blockBytes reencodedRaw copiedEncoded in
      match previous with
      | None => reencode
      | Some s =>
          if loose then reencode
          else
            let* found := lift (lookupObject (src_resolver s) (SHA256 ref)) in
            match found with
            | Some object =>
                if compatible_object found (RawBytes ref) blockBytes then
                  let* copiedEncoded := lift (copied_blocks (o_Blocks object) copiedEncoded) in
                  compacted_loop ctx rows rowsErr blockBytes reencodedRaw copiedEncoded
                else reencode
            | None => reencode
            end
      end
  end.

Definition estimateCompactedGeneration (ctx : Ctx) (rows : list ObjectRef) (rowsErr : option error)
    (entries : list walk_entry) (count rawBytes blockBytes : Z) : OS Z :=
  let* (reencodedRaw, copiedEncoded, ctx) := compacted_loop ctx rows rowsErr blockBytes 0 0 in
  let* encodedBound := lift (estimatedGenerationBytes reencodedRaw) in
  if copiedEncoded >? i64 (max_int64 - encodedBound) then fail (errors_new "compacted generation projection overflow")
  else lift (estimateGenerationMetadata ctx entries count rawBytes blockBytes (i64 (copiedEncoded + encodedBound))).

Fixpoint incremental_loop (ctx : Ctx) (s : Source) (rows : list ObjectRef) (rowsErr : option error) (added : Z) : OS (Z * Ctx) :=
  match rows with
  | [] => throw rowsErr ;;; ret (added, ctx)
  | ref :: rows =>
      let '(err, ctx) := ctx_Err ctx in
      throw err ;;;
      let* found := lift (lookupObject (src_resolver s) (SHA256 ref)) in
      let* loose := loose_present (SHA256 ref) in
      let reused := match found with Some object => (o_RawBytes object =? RawBytes ref) && negb loose | None => false end in
      let* added := (if reused then ret added
                     else lift (add_checked "incremental projection overflow" added (RawBytes ref))) in
      incremental_loop ctx s rows rowsErr added
  end.
Definition estimateIncrementalGeneration (ctx : Ctx) (s : Source) (rows : list ObjectRef) (rowsErr : option error)
    (entries : list walk_entry) (count rawBytes blockBytes : Z) : OS Z :=
  let* (added, ctx) := incremental_loop ctx s rows rowsErr 0 in
  let* payload := lift (estimatedGenerationBytes added) in
  lift (estimateGenerationMetadata ctx entries count rawBytes blockBytes payload).
End Estimates.

(** ** The order of Go strings *)

Lemma ascii_compare_trans a b c : Ascii.compare a b = Lt -> Ascii.compare b c = Lt -> Ascii.compare a c = Lt.
Proof. unfold Ascii.compare. rewrite !N.compare_lt_iff. lia. Qed.
#[export] Instance string_lt_trans : Transitive string_lt.
Proof.
  unfold string_lt, String.ltb. intros a. induction a as [|x a IH]; intros [|y b] [|z c]; try done. cbn [String.compare].
  destruct (Ascii.compare x y) eqn:E1; [|intros _|done].
  - apply Ascii.compare_eq_iff in E1 as ->. destruct (Ascii.compare y z); [apply IH|done|done].
  - destruct (Ascii.compare y z) eqn:E2; [|intros _|done].
    + apply Ascii.compare_eq_iff in E2 as <-. by rewrite E1.
    + by rewrite (ascii_compare_trans _ _ _ E1 E2).
Qed.
Lemma string_compare_refl a : String.compare a a = Eq.
Proof. pose proof (String.compare_antisym a a) as H. by destruct (String.compare a a). Qed.
#[export] Instance string_lt_irrefl : Irreflexive string_lt.
Proof. intros a. unfold complement, string_lt, String.ltb. by rewrite string_compare_refl. Qed.
Lemma string_lt_total a b : String.ltb a b = false -> a <> b -> string_lt b a.
Proof.
  unfold string_lt, String.ltb. rewrite (String.compare_antisym b a).
  destruct (String.compare a b) eqn:E; [|done|done]. by apply String.compare_eq_iff in E.
Qed.

(** ** Dropped objects *)

Definition packed_digest (s : Source) (k : Z) (d : string) : Prop :=
  exists o, resolver_objectAt s k = Ok o /\ o_SHA256 o = d.
Lemma packed_digest_range s k d : packed_digest s k d -> 0 <= k < resolver_ObjectCount s.
Proof. intros (o & H & _). unfold resolver_objectAt in H. destruct (_ || _) eqn:E; [done|]. apply orb_false_iff in E as [??]. zbool. lia. Qed.
Lemma packed_digest_fun s k d d' : packed_digest s k d -> packed_digest s k d' -> d = d'.
Proof. intros (o & H & <-) (o' & H' & <-). congruence. Qed.

(** The digest that the loop compares with a row at [position]. *)
Lemma dropped_digest s position previousDigest :
  previousDigest = ""%string \/ packed_digest s position previousDigest ->
  match (if string_eqb previousDigest "" then result_bind (fun o => Ok (o_SHA256 o)) (resolver_objectAt s position)
         else Ok previousDigest) with
  | Ok d => packed_digest s position d
  | Err e => resolver_objectAt s position = Err e
  end.
Proof.
  unfold string_eqb. intros Hp. case_bool_decide; [|by destruct Hp].
  destruct (resolver_objectAt s position) as [o|e] eqn:E; simpl; [by exists o|done].
Qed.

Lemma dropped_sound s rows rowsErr : forall ctx position previousDigest,
  previousDigest = ""%string \/ packed_digest s position previousDigest ->
  dropped_loop ctx s rows rowsErr position previousDigest = Ok false ->
  forall k d, position <= k -> packed_digest s k d -> d ∈ rows.
Proof.
  induction rows as [|digest rows IH]; intros ctx position prev Hprev Hrun k d Hk Hd;
    pose proof (packed_digest_range _ _ _ Hd) as Hr; cbn [dropped_loop] in Hrun.
  - destruct rowsErr; [done|]. injection Hrun as Hrun. zbool. lia.
  - destruct (ctx_Err ctx) as [[e|] ctx']; [done|]. destruct (position >=? _) eqn:Ec; zbool; [lia|].
    pose proof (dropped_digest s position prev Hprev) as Hcur. destruct (if string_eqb _ _ then _ else _) as [cur|e]; [|done].
    destruct (String.ltb cur digest); [done|]. destruct (string_eqb cur digest) eqn:Eq.
    + apply bool_decide_eq_true in Eq as ->. destruct (Z.eq_dec k position) as [->|].
      * rewrite (packed_digest_fun _ _ _ _ Hd Hcur). apply list_elem_of_here.
      * apply list_elem_of_further. apply (IH _ _ _ (or_introl eq_refl) Hrun k); [lia|done].
    + apply list_elem_of_further. by apply (IH _ _ _ (or_intror Hcur) Hrun k).
Qed.

Section Dropped.
Context (s : Source).
Context (readable : forall k, 0 <= k < resolver_ObjectCount s -> exists d, packed_digest s k d).
Context (sorted : forall a b da db, a < b -> packed_digest s a da -> packed_digest s b db -> string_lt da db).

Lemma dropped_complete rows rowsErr : forall ctx position previousDigest,
  StronglySorted string_lt rows -> 0 <= position ->
  previousDigest = ""%string \/ packed_digest s position previousDigest ->
  dropped_loop ctx s rows rowsErr position previousDigest = Ok true ->
  exists k d, position <= k /\ packed_digest s k d /\ d ∉ rows.
Proof using readable sorted.
  induction rows as [|digest rows IH]; intros ctx position prev Hsort Hpos Hprev Hrun; cbn [dropped_loop] in Hrun.
  - destruct rowsErr; [done|]. injection Hrun as Hrun. zbool. destruct (readable position ltac:(lia)) as [d Hd].
    exists position, d. split_and!; [lia|done|apply not_elem_of_nil].
  - destruct (ctx_Err ctx) as [[e|] ctx']; [done|]. apply StronglySorted_inv in Hsort as [Hsort Hall].
    rewrite Forall_forall in Hall. destruct (position >=? _) eqn:Ec; zbool.
    { destruct (IH _ _ _ Hsort Hpos Hprev Hrun) as (k & d & Hk & Hd & _). pose proof (packed_digest_range _ _ _ Hd). lia. }
    pose proof (dropped_digest s position prev Hprev) as Hcur. destruct (if string_eqb _ _ then _ else _) as [cur|e]; [|done].
    assert (forall k d, position <= k -> packed_digest s k d -> d = cur \/ string_lt cur d) as Hge.
    { intros k d Hk Hd. destruct (Z.eq_dec k position) as [->|]; [left; by eapply packed_digest_fun|].
      right. apply (sorted position k); [lia|done|done]. }
    destruct (String.ltb cur digest) eqn:El; [|destruct (string_eqb cur digest) eqn:Eq].
    + exists position, cur. split_and!; [lia|done|]. intros [->|Hin]%elem_of_cons; [by apply string_lt_irrefl in El|].
      apply Hall in Hin. exact (string_lt_irrefl _ (string_lt_trans _ _ _ El Hin)).
    + apply bool_decide_eq_true in Eq as ->.
      destruct (IH _ (position + 1) _ Hsort ltac:(lia) (or_introl eq_refl) Hrun) as (k & d & Hk & Hd & Hin).
      exists k, d. split_and!; [lia|done|]. intros [->|?]%elem_of_cons; [|done].
      exact (string_lt_irrefl _ (sorted position k _ _ ltac:(lia) Hcur Hd)).
    + apply bool_decide_eq_false in Eq. apply (string_lt_total _ _ El) in Eq.
      destruct (IH _ _ _ Hsort Hpos (or_intror Hcur) Hrun) as (k & d & Hk & Hd & Hin).
      exists k, d. split_and!; [lia|done|]. intros [->|?]%elem_of_cons; [|done].
      destruct (Hge _ _ Hk Hd) as [->|Hlt]; [exact (string_lt_irrefl _ Eq)|].
      exact (string_lt_irrefl _ (string_lt_trans _ _ _ Eq Hlt)).
Qed.

Lemma dropped_total rows : forall position previousDigest, 0 <= position ->
  previousDigest = ""%string \/ packed_digest s position previousDigest ->
  exists b, dropped_loop None s rows None position previousDigest = Ok b.
Proof using readable.
  induction rows as [|digest rows IH]; intros position prev Hpos Hprev; cbn [dropped_loop ctx_Err]; [by eexists|].
  destruct (position >=? _) eqn:Ec; zbool; [by apply IH|].
  pose proof (dropped_digest s position prev Hprev) as Hcur. destruct (if string_eqb _ _ then _ else _) as [cur|e].
  - destruct (String.ltb cur digest); [by eexists|]. destruct (string_eqb cur digest); apply IH; [lia|by left|lia|by right].
  - destruct (readable position ltac:(lia)) as (d & o & Ho & _). congruence.
Qed.
End Dropped.

(** A version 3 generation that passed the checks of opening it. *)
Lemma opened_digests s i packSizes :
  r_v3 (src_resolver s) = Some i -> 0 <= m_ObjectCount (meta i) -> validateSizes i = Ok tt ->
  validateResolverBounds_v3 i packSizes = Ok tt ->
  (forall k, 0 <= k < resolver_ObjectCount s -> packed_digest s k (hex_EncodeToString (or_Digest (record_at i k))))
  /\ (forall a b da db, a < b -> packed_digest s a da -> packed_digest s b db -> string_lt da db).
Proof.
  intros Hv Hn Hs Hb. pose proof (validateSizes_sized i Hn Hs) as Hsized.
  pose proof (validateResolverBounds_v3_sorted i Hsized packSizes Hb) as Hsorted.
  assert (resolver_ObjectCount s = m_ObjectCount (meta i)) as Hc by (unfold resolver_ObjectCount; by rewrite Hv).
  assert (forall k, 0 <= k < resolver_ObjectCount s -> packed_digest s k (hex_EncodeToString (or_Digest (record_at i k)))) as Hat.
  { intros k Hk. rewrite Hc in Hk.
    pose proof (validate_v3_bounds_spec i Hsized packSizes (Z.to_nat (m_ObjectCount (meta i))) 0 _ ltac:(lia) ltac:(lia) Hb) as Hspec.
    destruct (Hspec k ltac:(lia)) as (_ & o & Ho & _). exists o. unfold resolver_objectAt. rewrite Hv, Hc.
    replace ((k <? 0) || (k >=? m_ObjectCount (meta i))) with false by (symmetry; apply orb_false_iff; split; lia).
    unfold objectAt. rewrite readObjectRecord_at by done. split; [done|].
    unfold expandObject in Ho. repeat case_match; by simplify_eq. }
  split; [done|]. intros a b da db Hab Ha Hb'. pose proof (packed_digest_range _ _ _ Ha) as Hra.
  pose proof (packed_digest_range _ _ _ Hb') as Hrb.
  rewrite (packed_digest_fun _ _ _ _ Ha (Hat a Hra)), (packed_digest_fun _ _ _ _ Hb' (Hat b Hrb)).
  pose proof (record_at_digest i Hsized a ltac:(lia)) as Ha32. pose proof (record_at_digest i Hsized b ltac:(lia)) as Hb32.
  unfold string_lt, String.ltb. rewrite hex_compare by (unfold zlen in *; lia). by rewrite (Hsorted a b) by lia.
Qed.

(** The check that decides whether a build must compact is exact.  Whatever
    fails, and for any earlier generation, an answer that nothing was dropped means
    that every packed object is still referenced.  For a version 3 generation that
    passed the checks of opening it, and references in ascending order, the check
    always answers, and the answer says whether some packed object is no longer
    referenced. *)
Theorem dropped_exact s i packSizes rows :
  r_v3 (src_resolver s) = Some i -> 0 <= m_ObjectCount (meta i) -> validateSizes i = Ok tt ->
  validateResolverBounds_v3 i packSizes = Ok tt -> StronglySorted string_lt rows ->
  (forall s' ctx rows' rowsErr, hasDroppedPackedObjects ctx s' rows' rowsErr = Ok false ->
     forall k o, resolver_objectAt s' k = Ok o -> o_SHA256 o ∈ rows')
  /\ exists b, hasDroppedPackedObjects None s rows None = Ok b
       /\ (b = true <-> exists k o, resolver_objectAt s k = Ok o /\ o_SHA256 o ∉ rows).
Proof.
  intros Hv Hn Hs Hb Hrows. destruct (opened_digests s i packSizes Hv Hn Hs Hb) as [Hat Hsorted].
  assert (forall k, 0 <= k < resolver_ObjectCount s -> exists d, packed_digest s k d) as Hread by eauto.
  assert (forall s' ctx rows' rowsErr, hasDroppedPackedObjects ctx s' rows' rowsErr = Ok false ->
    forall k o, resolver_objectAt s' k = Ok o -> o_SHA256 o ∈ rows') as Hsound.
  { intros s' ctx rows' rowsErr Hrun k o Ho. assert (packed_digest s' k (o_SHA256 o)) as Hd by by exists o.
    pose proof (packed_digest_range _ _ _ Hd). eapply dropped_sound; [by left|exact Hrun| |exact Hd]. lia. }
  split; [done|]. destruct (dropped_total s Hread rows 0 "" ltac:(lia) (or_introl eq_refl)) as [b Hrun].
  exists b. split; [done|]. destruct b; (split; [|try done]).
  - intros _. destruct (dropped_complete s Hread Hsorted rows None None 0 "" Hrows ltac:(lia) (or_introl eq_refl) Hrun)
      as (k & d & _ & (o & Ho & <-) & Hd). by exists k, o.
  - done.
  - intros (k & o & Ho & Hd). by destruct (Hd (Hsound _ _ _ _ Hrun k o Ho)).
Qed.

(** ** What a build may cost *)

Lemma add_checked_ok message added n r : add_checked message added n = Ok r -> in_i64 added -> n <= max_int64 ->
  r = added + n /\ 0 <= n /\ in_i64 r.
Proof.
  unfold add_checked, in_i64, max_int64. intros H Ha Hn. destruct (_ || _) eqn:E; [done|]. apply orb_false_iff in E as [E1 E2].
  zbool. rewrite i64_id in E2 by (unfold in_i64; lia). injection H as <-. rewrite i64_id by (unfold in_i64; lia). lia.
Qed.
Lemma i64_max z : i64 z <= max_int64.
Proof. pose proof (i64_range z) as H. unfold in_i64, max_int64 in *. lia. Qed.

Lemma manifests_loop_grows entries : forall ctx added r, in_i64 added -> manifests_loop ctx entries added = Ok r -> added <= r.
Proof.
  induction entries as [|entry entries IH]; intros ctx added r Ha H; cbn [manifests_loop] in H; [by injection H as ->|].
  destruct entry as [e| |name info]; [done|..]; destruct (ctx_Err ctx) as [[e|] ctx']; try done; [by eapply IH|].
  destruct (negb _); [by eapply IH|]. destruct info as [size|]; [|done]. destruct (size >? _); [done|].
  destruct (add_checked _ _ _) as [added'|] eqn:Ea; [|done].
  apply add_checked_ok in Ea as (-> & Hn & Ha'); [|done|apply i64_max]. apply IH in H; [lia|done].
Qed.

Lemma estimatedGenerationBytes_ok raw r : estimatedGenerationBytes raw = Ok r -> raw <= max_int64 ->
  0 <= raw /\ r = raw + raw / 16 + 2 ^ 20 /\ in_i64 r.
Proof.
  unfold estimatedGenerationBytes, max_int64. intros H Hm. destruct (raw <? 0) eqn:E; [done|]. zbool.
  rewrite Z.quot_div_nonneg in H by lia. pose proof (Z.div_le_upper_bound raw 16 (2 ^ 62) ltac:(lia) ltac:(lia)).
  pose proof (Z.div_pos raw 16 ltac:(lia) ltac:(lia)).
  rewrite (i64_id (raw / 16 + 2 ^ 20)) in H by (unfold in_i64; lia). rewrite i64_id in H by (unfold in_i64; lia).
  destruct (raw >? _) eqn:E2; [done|]. zbool. injection H as <-. unfold in_i64. rewrite i64_id by (unfold in_i64; lia). lia.
Qed.

Lemma estimateGenerationMetadata_ok ctx entries count raw blockBytes payload r :
  0 < blockBytes -> 0 <= raw <= 2 ^ 62 -> 0 <= count -> in_i64 payload ->
  estimateGenerationMetadata ctx entries count raw blockBytes payload = Ok r ->
  payload + 104 * count + 138 * (raw / blockBytes + count) + 2 ^ 26 <= r.
Proof.
  intros Hb Hraw Hc Hp. unfold estimateGenerationMetadata. rewrite Z.quot_div_nonneg by lia.
  pose proof (Z.div_pos raw blockBytes ltac:(lia) Hb) as Hq0.
  assert (raw / blockBytes <= raw) as Hq by (apply Z.div_le_upper_bound; nia).
  destruct (count >? max_int64 / 104) eqn:E1; [done|]. zbool. change (max_int64 / 104) with 88686269585142075 in E1.
  rewrite (i64_id (raw / blockBytes + count)) by (unfold in_i64; lia). cbn [orb].
  destruct (_ >? max_int64 / 138) eqn:E2; [done|]. zbool. change (max_int64 / 138) with 66836029252570839 in E2.
  assert (forall z, 0 <= z <= 2 ^ 63 - 1 -> i64 z = z) as Hid by (intros z Hz; apply i64_id; unfold in_i64; lia).
  rewrite (Hid (count * 104)), (Hid (_ * 138)) by lia.
  destruct (add_checked _ payload _) as [a1|] eqn:A1; [|done]. apply add_checked_ok in A1 as (-> & _ & I1); [|done|unfold max_int64; lia].
  destruct (add_checked _ _ (_ * 138)) as [a2|] eqn:A2; [|done]. apply add_checked_ok in A2 as (-> & _ & I2); [|done|unfold max_int64; lia].
  destruct (add_checked _ _ (2 ^ 26)) as [a3|] eqn:A3; [|done]. apply add_checked_ok in A3 as (-> & _ & I3); [|done|unfold max_int64; lia].
  intros H%manifests_loop_grows; [lia|done].
Qed.

(** Without an earlier generation every reference is priced at its raw size. *)
Lemma compacted_loop_first storeDir rowsErr blockBytes rows : forall ctx raw copied w,
  Forall (fun r => RawBytes r <= max_int64) rows -> in_i64 raw ->
  ok_wp (compacted_loop storeDir None ctx rows rowsErr blockBytes raw copied) w (fun r _ =>
    r.1 = (raw + raw_sum rows, copied) /\ in_i64 (raw + raw_sum rows)).
Proof.
  induction rows as [|ref rows IH]; intros ctx raw copied w Hmax Hraw; cbn [compacted_loop raw_sum foldr].
  - apply ok_bind, ok_throw. intros _. unfold ok_wp. rewrite wp_ret. cbn [fst]. by rewrite Z.add_0_r.
  - inversion Hmax as [|? ? Hr Hrs]; subst. destruct (ctx_Err ctx) as [err ctx']. apply ok_bind, ok_throw. intros _.
    apply ok_bind. unfold ok_wp at 1. eapply wp_mono with (P := fun _ _ => True); [done|]. intros [loose|e] w1 _; [|done].
    apply ok_bind. unfold ok_wp at 1. rewrite wp_lift. destruct (add_checked _ _ _) as [raw'|] eqn:Ea; [|done].
    apply add_checked_ok in Ea as (-> & _ & Hi); [|done|done].
    eapply ok_mono; [by apply IH|]. intros r w2. fold (raw_sum rows). by rewrite Z.add_assoc.
Qed.

Section Price.
Context (sha256 EncodeAll : bytes -> bytes) (stream_decode : bytes -> bytes * option error).
Context (json_Marshal : indexV3Meta -> result bytes) (blockBytes : Z) (storeDir dir : path).
Context (sha256_length : forall d, zlen (sha256 d) = 32).
Context (zstd_frame : forall d, 0 < zlen d -> 0 < zlen (EncodeAll d)).
Context (stream_bounded : forall c, zlen (stream_decode c).1 <= 2 ^ 55).

Lemma objects_file_len packs names bs refs rs : Forall2 (object_at sha256 EncodeAll packs names bs) refs rs ->
  zlen (concat (map encodeObjectV3 rs)) = 52 * zlen refs.
Proof using sha256_length.
  intros Hall. assert (zlen refs = zlen rs) as Hl by (unfold zlen; by rewrite (Forall2_length _ _ _ Hall)).
  rewrite (zlen_concat_fixed encodeObjectV3 52), Hl; [lia|]. clear Hl.
  induction Hall as [|ref r refs rs Hr _ IH]; constructor; [|done].
  destruct Hr as (before & new & after & data & _ & _ & _ & _ & -> & _).
  unfold encodeObjectV3. autorewrite with cf_len. cbn [or_Digest]. rewrite sha256_length. lia.
Qed.

End Price.

(** ** Samples *)

Definition sample_source : Source :=
  {| src_resolver := open_v3 sample_v3 sample_pack 16;
     src_index := {| i_Version := 0; i_Kind := ""; i_Generation := ""; i_BlockBytes := 0; i_Objects := [] |} |}.
Definition sample_rows : list string := map (fun r => hex_EncodeToString (or_Digest r)) (take 1 sample_records).

Lemma dropped_exact_witness : hasDroppedPackedObjects None sample_source sample_rows None = Ok true
  /\ exists k o, resolver_objectAt sample_source k = Ok o /\ o_SHA256 o ∉ sample_rows.
Proof.
  destruct (dropped_exact sample_source sample_v3 sample_pack_sizes sample_rows) as [_ (b & Hb & Hiff)].
  - reflexivity.
  - vm_compute. discriminate.
  - vm_compute. reflexivity.
  - vm_compute. reflexivity.
  - repeat constructor.
  - assert (hasDroppedPackedObjects None sample_source sample_rows None = Ok true) as E by (vm_compute; reflexivity).
    split; [exact E|]. apply Hiff. congruence.
Defined.

Definition sample_entries : list walk_entry :=
  [walk_directory; walk_file "a.json" (Ok 700); walk_file "notes" (Err (errors_new "unreadable"))].
Definition sample_estimate : result Z * world :=
  estimateCompactedGeneration ["s"%string] None None sample_refs None sample_entries 2 4 2 sample_store_world.
Definition sample_price : Z := 4 + 2 ^ 20 + 104 * 2 + 138 * 4 + 2 ^ 26 + 5496.

