(* ===== verification/Lease.v ===== *)
(** Leases and locks: [internal/storage/lease.go], [lease_unix.go],
    [operation_lock.go], the emergency reserve of [read_reserve.go], and the
    writer leases of [internal/vfs] ([session.go], [writer_lock_unix.go],
    [writer_lease_guard.go]).

    All of them are files under an exclusive [flock]; a lock held by this or
    another process is an element of [w_locked].  Process id and random suffix of
    a lease file are arguments.  Symbolic links and file modes are not modelled,
    so [os.Lstat], [os.Root] lookups and [os.Stat] agree. *)
From S2P Require Import Prelude GoStd Effects Manifest Os Mutation.

Definition os_ENOSPC : error := Sentinel "no space left on device".
Definition ErrOperationLockHeld : error := Sentinel "operation lock is already held".
Definition ErrWriterBusy : error := Sentinel "session writer lease is already held".
Definition is_Exist (e : error) : bool := errors_is "file already exists" e.

Definition tryLockLease (f : File) : OS bool := flock_try f.
Definition unlockLease (f : File) : OS unit := flock_release f.

Definition safe_label (label : string) : bool :=
  negb (string_is label "") && string_is (filepath_Base label) label
  && negb (strings_ContainsAny label unsafe_characters).

(** ** Generation leases *)

Record Lease := { l_file : File; l_path : path }.

Definition LeaseFilePrefix : string := ".lease-".

Section Lease.
(** [os.Getpid] in decimal, and the stores that have an emergency reserve. *)
Variable pid : string.
Variable reserve_roots : list path.

Definition pid_line : bytes := string_bytes pid ++ [Byte.x0a].

Definition lease_name (label random : string) : string :=
  String.append LeaseFilePrefix
    (String.append label (String.append "-" (String.append pid (String.append "-" random)))).

Definition make_lease_directory (directory : path) : OS unit :=
  let* made := try_ (os_Mkdir directory) in
  match made with
  | Ok _ => ret tt
  | Err e =>
      if negb (is_Exist e) then fail (errorf "create lease directory: %w" e)
      else
        let* info := wrap "inspect lease directory: %w" (os_Stat directory) in
        if fi_regular info then fail (errors_new "lease path is not a directory") else ret tt
  end.

Definition acquireLease (directory : path) (label random : string) : OS Lease :=
  if negb (safe_label label) then fail (errors_new "lease directory and safe label are required")
  else
    make_lease_directory directory ;;;
    let p := lease_name label random :: directory in
    let* file := wrap "create lease file: %w" (os_Create p true false) in
    let discard := ignore (file_Close file) ;;; ignore (os_Remove p) in
    let* locked := or_else (tryLockLease file) discard in
    if negb locked then discard ;;; fail (errors_new "new lease file could not be locked")
    else
      let release := ignore (unlockLease file) ;;; discard in
      let* (_, err, _) := file_Write file pid_line in
      match err with
      | Some e => release ;;; fail e
      | None =>
          or_else (file_Sync file) release ;;;
          ret {| l_file := file; l_path := p |}
      end.

Definition readReserveBytes : Z := 256 * 1024.
Definition readReserveName : string := ".codexfold-read-reserve-v1".
Definition readReserveMagic : bytes := string_bytes "CodexFold read-lease emergency reserve v1" ++ [Byte.x0a].

(** One store of the loop in [releaseReadReserveFor]: [None] is [continue]. *)
Definition release_reserve_of (store : path) : OS (option bool) :=
  let p := readReserveName :: store in
  let* info := try_ (os_Stat p) in
  match info with
  | Err _ => ret None
  | Ok info =>
      if negb (fi_regular info) || negb (fi_size info =? readReserveBytes) then ret None
      else
        let* opened := try_ (os_Open p) in
        match opened with
        | Err _ => ret None
        | Ok f =>
            let* opened := try_ (file_Stat f) in
            let* (data, readErr) := File_ReadAt f readReserveBytes 0 in
            ignore (file_Close f) ;;;
            let* current := try_ (os_Stat p) in
            match opened, readErr, current with
            | Ok opened, None, Ok current =>
                if negb (os_SameFile info opened) || negb (os_SameFile opened current)
                   || negb (bool_decide (data = readReserveMagic
                        ++ replicate (Z.to_nat (readReserveBytes - zlen readReserveMagic)) Byte.x00))
                then ret None
                else
                  let* removed := try_ (os_Remove p) in
                  ret (Some (is_ok removed))
            | _, _, _ => ret None
            end
        end
  end.

Fixpoint release_reserve (stores : list path) (directory : path) : OS bool :=
  match stores with
  | [] => ret false
  | store :: stores =>
      if negb (bool_decide (store `suffix_of` directory)) || bool_decide (store = directory)
      then release_reserve stores directory
      else
        let* released := release_reserve_of store in
        match released with
        | Some b => ret b
        | None => release_reserve stores directory
        end
  end.
Definition releaseReadReserveFor (directory : path) : OS bool := release_reserve reserve_roots directory.

(** [random] and [random2]: the suffixes drawn by the two attempts. *)
Definition AcquireLease (directory : path) (label random random2 : string) : OS Lease :=
  let* lease := try_ (acquireLease directory label random) in
  match lease with
  | Ok lease => ret lease
  | Err e =>
      if errors_is "no space left on device" e
         && (string_is label "reader" || string_is label "resolver")
      then ignore (releaseReadReserveFor directory) ;;; acquireLease directory label random2
      else fail e
  end.

(** [Lease.Close]; a nil lease has nothing to close. *)
Definition lease_Close (lease : option Lease) : OS unit :=
  match lease with
  | None => ret tt
  | Some l =>
      let* unlockErr := error_of (unlockLease (l_file l)) in
      let* closeErr := error_of (file_Close (l_file l)) in
      let* removeErr := error_of (os_Remove (l_path l)) in
      throw (errors_join [unlockErr; closeErr;
        match removeErr with Some e => if is_NotExist e then None else Some e | None => None end])
  end.

Definition is_digit_byte (b : byte) : bool := (48 <=? byte_val b) && (byte_val b <=? 57).
Definition trim_newline (content : bytes) : bytes :=
  match last content with
  | Some Byte.x0a => removelast content
  | _ => content
  end.
Definition RecognizedLeaseContent (content : bytes) : bool :=
  let text := trim_newline content in
  negb (zlen text =? 0) && negb (zlen text >? 20) && forallb is_digit_byte text.

(** Whether one lease file is held: [None] when it has gone. *)
Definition lease_file_active (p : path) (cleanStale : bool) : OS (option bool) :=
  let* opened := try_ (os_OpenFile p false) in
  match opened with
  | Err e => if is_NotExist e then ret None else fail e
  | Ok file =>
      let* locked := or_else (tryLockLease file) (file_Close file) in
      if negb locked then ignore (file_Close file) ;;; ret (Some true)
      else
        let* unlockErr := error_of (unlockLease file) in
        let* closeErr := error_of (file_Close file) in
        throw (errors_join [unlockErr; closeErr]) ;;;
        (if cleanStale then
           let* removed := try_ (os_Remove p) in
           match removed with
           | Err e => if is_NotExist e then ret tt else fail e
           | Ok _ => ret tt
           end
         else ret tt) ;;;
        ret (Some false)
  end.

Fixpoint active_leases (directory : path) (entries : list string) (cleanStale active : bool) : OS bool :=
  match entries with
  | [] => ret active
  | name :: entries =>
      if negb (String.prefix LeaseFilePrefix name) then active_leases directory entries cleanStale active
      else
        let* state := lease_file_active (name :: directory) cleanStale in
        active_leases directory entries cleanStale (match state with Some true => true | _ => active end)
  end.

Definition DirectoryHasActiveLease (directory : path) (cleanStale : bool) : OS bool :=
  let* entries := try_ (os_ReadDir directory) in
  match entries with
  | Err e => if is_NotExist e then ret false else fail e
  | Ok entries => active_leases directory entries cleanStale false
  end.

Definition FileHasActiveLock (p : path) : OS bool :=
  let* state := lease_file_active p false in
  ret (match state with Some b => b | None => false end).

(** ** Writer leases *)

Definition openWriterLeaseFile (p : path) (create : bool) : OS File :=
  if create then os_Create p false false else os_OpenFile p false.

Definition acquireWriterLease (leasePath : path) : OS File :=
  let* lease := wrap "create writer lease: %w" (openWriterLeaseFile leasePath true) in
  let* locked := or_else (tryLockLease lease) (file_Close lease) in
  if negb locked then ignore (file_Close lease) ;;; fail ErrWriterBusy
  else
    let release := ignore (unlockLease lease) ;;; ignore (file_Close lease) in
    or_else (file_Truncate lease 0) release ;;;
    let* (_, err, _) := file_Write lease pid_line in
    match err with
    | Some e => release ;;; fail (errorf "write writer lease: %w" e)
    | None =>
        or_else (wrap "sync writer lease: %w" (file_Sync lease)) release ;;;
        ret lease
    end.

Definition cleanupStaleWriterLease (p : path) : OS unit :=
  let* file := os_Create p false false in
  let* locked := or_else (tryLockLease file) (file_Close file) in
  if negb locked then file_Close file
  else
    or_else (unlockLease file) (file_Close file) ;;;
    file_Close file.

Definition TryAcquireWriterLeaseGuard (root : path) (sessionID : string) : OS (option File) :=
  match validateSessionID sessionID with
  | Err _ => fail (errors_new "session root and safe session ID are required")
  | Ok _ =>
      let leasePath := "writer.lease"%string :: sessionID :: "sessions"%string :: "fs"%string :: root in
      let* file := wrap "open writer lease guard: %w" (openWriterLeaseFile leasePath true) in
      let* locked := or_else (tryLockLease file) (file_Close file) in
      if negb locked then ignore (file_Close file) ;;; ret None
      else ret (Some file)
  end.

Definition TryAcquireWriterLeaseGuardAtPath (leasePath : path) : OS (option File) :=
  if negb (string_is (hd EmptyString leasePath) "writer.lease") then
    fail (errors_new "absolute writer lease path is required")
  else
    let* before := wrap "inspect writer lease guard: %w" (os_Stat leasePath) in
    if negb (fi_regular before) then fail (errors_new "writer lease guard is not a regular file")
    else
      let* file := wrap "open writer lease guard: %w" (openWriterLeaseFile leasePath false) in
      let* opened := or_else (wrap "stat writer lease guard: %w" (file_Stat file)) (file_Close file) in
      if negb (fi_regular opened) || negb (os_SameFile before opened) then
        ignore (file_Close file) ;;;
        fail (errors_new "writer lease guard changed while it was opened")
      else
        let* locked := or_else (tryLockLease file) (file_Close file) in
        if negb locked then ignore (file_Close file) ;;; ret None
        else
          let* after := try_ (os_Stat leasePath) in
          let changed (e : error) : OS (option File) :=
            let* unlockErr := error_of (unlockLease file) in
            let* closeErr := error_of (file_Close file) in
            fail (join_error e [errors_join [unlockErr; closeErr]]) in
          match after with
          | Err e => changed e
          | Ok after =>
              if negb (fi_regular after) || negb (os_SameFile opened after) then
                changed (errors_new "writer lease guard changed after it was locked")
              else ret (Some file)
          end.

Definition guard_Close (guard : option File) : OS unit :=
  match guard with
  | None => ret tt
  | Some file =>
      let* unlockErr := error_of (unlockLease file) in
      let* closeErr := error_of (file_Close file) in
      throw (errors_join [unlockErr; closeErr])
  end.

(** ** Operation locks *)

(** [AcquireOperationLock], up to the point where the lock file is open. *)
Definition open_operation_lock (storeDir : path) (name : string) : OS (File * FileInfo * path) :=
  let* storeInfo := try_ (os_Stat storeDir) in
  let* storeInfo :=
    match storeInfo with
    | Err e =>
        if is_NotExist e then
          wrap "create operation lock store root: %w" (os_MkdirAll storeDir) ;;;
          os_Stat storeDir
        else fail e
    | Ok info => ret info
    end in
  if fi_regular storeInfo then fail (errors_new "operation lock store root is not a plain directory")
  else
    let* currentStore := os_Stat storeDir in
    if fi_regular currentStore || negb (os_SameFile storeInfo currentStore) then
      fail (errors_new "operation lock store root changed while opening")
    else
      let locks := "locks"%string :: storeDir in
      let* made := try_ (os_Mkdir locks) in
      throw (match made with
             | Err e => if is_Exist e then None else Some (errorf "create operation lock directory: %w" e)
             | Ok _ => None
             end) ;;;
      let* locksInfo := os_Stat locks in
      if fi_regular locksInfo then fail (errors_new "operation lock directory is not a plain directory")
      else
        let lockPath := String.append name ".lock" :: locks in
        let* before := try_ (os_Stat lockPath) in
        throw (match before with
               | Err e => if is_NotExist e then None else Some e
               | Ok before =>
                   if fi_regular before then None
                   else Some (errors_new "operation lock path is not a regular file")
               end) ;;;
        let* file := wrap "open operation lock: %w" (os_Create lockPath false false) in
        let* opened := try_ (file_Stat file) in
        let* after := try_ (os_Stat lockPath) in
        match opened, after with
        | Ok opened, Ok after =>
            if negb (fi_regular opened) || negb (fi_regular after) || negb (os_SameFile opened after)
               || match before with Ok before => negb (os_SameFile before opened) | Err _ => false end
            then ignore (file_Close file) ;;; fail (errors_new "operation lock path changed while opening")
            else ret (file, opened, lockPath)
        | Err e, _ => ignore (file_Close file) ;;; fail e
        | _, Err e => ignore (file_Close file) ;;; fail e
        end.

Definition AcquireOperationLock (storeDir : path) (name : string) : OS File :=
  if negb (safe_label name) then fail (errors_new "store directory and safe operation lock name are required")
  else
    let* (file, opened, lockPath) := open_operation_lock storeDir name in
    let* locked := or_else (wrap "lock operation: %w" (tryLockLease file)) (file_Close file) in
    if negb locked then ignore (file_Close file) ;;; fail (errorf "%w: %q" ErrOperationLockHeld)
    else
      let* afterLock := try_ (os_Stat lockPath) in
      let changed (e : error) : OS File :=
        let* unlockErr := error_of (unlockLease file) in
        let* closeErr := error_of (file_Close file) in
        fail (join_error e [errors_join [unlockErr; closeErr]]) in
      match afterLock with
      | Err e => changed e
      | Ok afterLock =>
          if negb (fi_regular afterLock) || negb (os_SameFile opened afterLock) then
            changed (errors_new "operation lock path changed after locking")
          else ret file
      end.

Definition operation_lock_Close (lock : option File) : OS unit := guard_Close lock.
End Lease.

(** ** A held lock *)

(** Most calls change neither names nor locks. *)
Definition on_names (P : gmap path nat -> gset nat -> Prop) (w : world) : Prop := P (w_names w) (w_locked w).
#[export] Instance on_names_stable P : TickStable (on_names P).
Proof. by intros w fs. Qed.

(** The file [p] is inode [n] and somebody holds its lock. *)
Definition held (p : path) (n : nat) : world -> Prop :=
  on_names (fun names locked => names !! p = Some n /\ n ∈ locked).

#[export] Instance held_stable p n : TickStable (held p n) := on_names_stable _.

Lemma held_same_files p n w w' : held p n w -> same_files w w' -> held p n w'.
Proof. intros (Hn & Hl) (E1 & _ & _ & _ & _ & E6). unfold held, on_names. by rewrite E1, E6. Qed.

Section Held.
Context (p : path) (n : nat).


Lemma keeps_held_Remove q : q <> p -> keeps (held p n) (os_Remove q).
Proof.
  intros Hq. apply keeps_syscall; [apply _|]. intros w (Hn & Hl). simpl.
  destruct (w_names w !! q) as [k|]; [|done]. split; simpl; [|done]. by rewrite lookup_delete_ne.
Qed.
Lemma keeps_held_unlock f : f_ino f <> n -> keeps (held p n) (flock_release f).
Proof. intros Hf. apply keeps_syscall; [apply _|]. intros w (Hn & Hl). split; simpl; auto. set_solver. Qed.
Lemma keeps_held_lock f : keeps (held p n) (flock_try f).
Proof.
  apply keeps_syscall; [apply _|]. intros w (Hn & Hl). simpl. case_decide; [done|].
  split; simpl; auto. set_solver.
Qed.
End Held.

Lemma wp_flock f w :
  wp (flock_try f) w (fun r w' =>
    w_names w' = w_names w /\ (r = Ok true -> f_ino f ∉ w_locked w)
    /\ (r <> Ok true -> same_files w w') /\ (r = Ok true -> f_ino f ∈ w_locked w')).
Proof.
  apply wp_syscall; intros fs; [done|]. unfold wp. simpl. case_decide; simpl; [done|].
  split_and!; auto; [done|]. intros _. set_solver.
Qed.

(** Probing any lease file leaves a held one held, and finds it held. *)
Lemma wp_lease_file_active p n q clean w :
  held p n w ->
  wp (lease_file_active q clean) w (fun r w' =>
    held p n w' /\ (q = p -> forall s, r = Ok s -> s = Some true)).
Proof.
  intros Hh. unfold lease_file_active. rewrite wp_bind, wp_try.
  eapply wp_mono; [apply wp_syscall with (Q := fun r w' => same_files w w' /\
    match r with Ok f => w_names w !! q = Some (f_ino f) | Err e => is_NotExist e = true -> q <> p end);
    intros fs; [by split|]|].
  { unfold wp. simpl. destruct (w_names w !! q) as [k|] eqn:E; simpl; [done|]. split; [done|].
    intros _ ->. destruct Hh as [Hn _]. congruence. }
  intros r w1 [Hs1 Hq]. pose proof (held_same_files _ _ _ _ Hh Hs1) as Hh1.
  destruct r as [f|e].
  2: { destruct (is_NotExist e) eqn:Ee; [rewrite wp_ret|rewrite wp_fail]; split; [done| |done|done].
       intros Heq. by destruct (Hq eq_refl). }
  assert (w_names w1 !! q = Some (f_ino f)) as Hq1 by (by destruct Hs1 as [-> _]).
  rewrite wp_bind, wp_or_else. eapply wp_mono; [apply wp_keeps; [apply keeps_held_lock|exact Hh1|apply wp_flock]|].
  intros r w2 (Hh2 & Hnm & Hok & Hno & _). destruct r as [locked|e].
  2: { eapply wp_mono; [apply (wp_kept (held p n)); [apply keeps_Close, _|done]|]. intros r' w3 Hh3. by split. }
  destruct locked; simpl negb; cbn match.
  2: { rewrite wp_bind, wp_ignore.
       eapply wp_mono; [apply (wp_kept (held p n)); [apply keeps_Close, _|done]|].
       intros r' w3 Hh3. rewrite wp_ret. split; [done|]. by intros _ s [= <-]. }
  assert (f_ino f <> n) as Hne.
  { intros Heq. apply (Hok eq_refl). rewrite Heq. apply Hh1. }
  assert (q <> p) as Hqp. { intros ->. destruct Hh1 as (Hn & _). congruence. }
  rewrite wp_bind, wp_error_of.
  eapply wp_mono; [apply (wp_kept (held p n)); [by apply keeps_held_unlock|done]|].
  intros r3 w3 Hh3. rewrite wp_bind, wp_error_of.
  eapply wp_mono; [apply (wp_kept (held p n)); [apply keeps_Close, _|done]|].
  intros r4 w4 Hh4. rewrite wp_bind, wp_throw. destruct (errors_join _); [done|].
  rewrite wp_bind. apply wp_mono with (P := fun _ w' => held p n w').
  - destruct clean; [|done]. rewrite wp_bind, wp_try. eapply wp_mono; [apply (wp_kept (held p n)); [by apply keeps_held_Remove|done]|].
    intros [u|e] w5 Hh5; [done|]. by destruct (is_NotExist e).
  - intros [u|e] w5 Hh5; [|done]. by split.
Qed.

Lemma wp_active_leases p n name dir entries clean active w :
  p = name :: dir -> String.prefix LeaseFilePrefix name = true -> held p n w ->
  wp (active_leases dir entries clean active) w (fun r w' =>
    held p n w' /\ (active = true \/ name ∈ entries -> forall b, r = Ok b -> b = true)).
Proof.
  intros -> Hpre. revert active w. induction entries as [|e entries IH]; intros active w Hh; cbn [active_leases].
  { rewrite wp_ret. split; [done|]. intros [->|Hin] b [= <-]; [done|set_solver]. }
  destruct (String.prefix LeaseFilePrefix e) eqn:Ee; simpl.
  - rewrite wp_bind. eapply wp_mono; [by apply wp_lease_file_active|].
    intros [s|err] w1 [Hh1 Hs]; [|done]. eapply wp_mono; [by apply IH|].
    intros r w2 [Hh2 Hr]. split; [done|]. intros Hin b ->. apply Hr; [|done].
    destruct Hin as [->|[->|Hin]%elem_of_cons]; [left; by destruct s as [[]|]| |by right].
    left. by rewrite (Hs eq_refl s eq_refl).
  - eapply wp_mono; [by apply IH|]. intros r w2 [Hh2 Hr]. split; [done|]. intros Hin. apply Hr.
    destruct Hin as [->|[->|Hin]%elem_of_cons]; [by left|congruence|by right].
Qed.

Lemma wp_DirectoryHasActiveLease p n name dir clean w :
  p = name :: dir -> String.prefix LeaseFilePrefix name = true -> dir ∈ w_dirs w -> held p n w ->
  wp (DirectoryHasActiveLease dir clean) w (fun r w' => held p n w' /\ forall b, r = Ok b -> b = true).
Proof.
  intros Hp Hpre Hd Hh. unfold DirectoryHasActiveLease. rewrite wp_bind, wp_try.
  apply wp_syscall; intros fs.
  { simpl. rewrite wp_fail. split; [|done]. by apply (tick_stable (P := held p n)). }
  unfold wp at 1. subst p. destruct Hh as (Hn & Hl). simpl. rewrite decide_True by done. simpl.
  eapply wp_mono; [apply (wp_active_leases (name :: dir) n name); auto; done|].
  intros r w' [Hh' Hr]. split; [done|]. intros b. apply Hr. right.
  apply list_elem_of_omap. exists (name :: dir). split; [|by rewrite decide_True].
  apply elem_of_elements, elem_of_dom. by eexists.
Qed.

Section OnNames.
Context (P : gmap path nat -> gset nat -> Prop).
Lemma keeps_on_names_Write f data : keeps (on_names P) (file_Write f data).
Proof.
  unfold file_Write. keeps. intros w Hh. unfold inode_Write, next_outcome.
  destruct (w_faults w) as [|[|k] fs]; simpl; destruct (w_inodes w !! f_ino f); simpl; try done.
  by destruct (take k data).
Qed.
Lemma keeps_on_names_Sync f : keeps (on_names P) (file_Sync f).
Proof. apply keeps_syscall; [apply _|]. intros w Hh. simpl. by destruct (w_inodes w !! f_ino f). Qed.
Lemma keeps_on_names_Truncate f size : keeps (on_names P) (file_Truncate f size).
Proof. apply keeps_syscall; [apply _|]. intros w Hh. simpl. by destruct (w_inodes w !! f_ino f). Qed.
Lemma keeps_on_names_MkdirAll p : keeps (on_names P) (os_MkdirAll p).
Proof. apply keeps_syscall; [apply _|]. by intros w Hh. Qed.
Lemma keeps_on_names_Mkdir p : keeps (on_names P) (os_Mkdir p).
Proof. apply keeps_syscall; [apply _|]. intros w Hh. simpl. by repeat case_decide. Qed.
End OnNames.
#[export] Hint Resolve keeps_on_names_Write keeps_on_names_Sync keeps_on_names_Truncate
  keeps_on_names_MkdirAll keeps_on_names_Mkdir keeps_held_lock : keeps.

Lemma wp_Create p excl append w :
  wp (os_Create p excl append) w (fun r w' =>
    forall f, r = Ok f -> w_names w' !! p = Some (f_ino f) /\ w_locked w' = w_locked w
      /\ (excl = true -> w_names w !! p = None /\ filepath_Dir p ∈ w_dirs w')).
Proof.
  apply wp_syscall; intros fs; [done|]. unfold wp. simpl. destruct (w_names w !! p) as [k|] eqn:Ep; simpl.
  - destruct excl; simpl; [done|]. intros f [= <-]. split_and!; eauto. done.
  - case_decide; simpl; [|done]. intros f [= <-]. simpl. rewrite lookup_insert_eq. split_and!; auto.
Qed.

(** Taking the lock of an open file. *)
Lemma wp_flock_held p f w :
  w_names w !! p = Some (f_ino f) ->
  wp (flock_try f) w (fun r w' => r = Ok true -> (f_ino f ∉ w_locked w) /\ held p (f_ino f) w').
Proof.
  intros Hn. apply wp_syscall; intros fs; [done|]. unfold wp. simpl. case_decide; simpl; [done|].
  intros _. split; [done|]. split; simpl; auto. set_solver.
Qed.

(** Somebody else's lock, next to a file of our own. *)
Definition beside (p : path) (n : nat) (p' : path) (k : nat) : world -> Prop :=
  on_names (fun names locked => names !! p = Some n /\ n ∈ locked /\ names !! p' = Some k).

Section Beside.
Context (p : path) (n : nat) (p' : path) (f : File) (Hne : f_ino f <> n).
Local Abbreviation beside := (beside p n p' (f_ino f)).

Lemma beside_held w : beside w -> held p n w.
Proof. by intros (? & ? & _). Qed.
Lemma keeps_beside_lock : keeps beside (flock_try f).
Proof.
  apply keeps_syscall; [apply _|]. intros w (Hn & Hl & Hk). simpl. case_decide; [done|].
  split_and!; simpl; auto. set_solver.
Qed.
Lemma keeps_beside_unlock : keeps beside (flock_release f).
Proof using Hne. apply keeps_syscall; [apply _|]. intros w (Hn & Hl & Hk). split_and!; simpl; auto. set_solver. Qed.

(** Our own file is removed. *)
Lemma wp_discard w :
  beside w -> wp (ignore (file_Close f) ;;; ignore (os_Remove p')) w (fun _ w' => held p n w').
Proof using Hne.
  intros Hb. rewrite wp_bind, wp_ignore.
  eapply wp_mono; [apply (wp_kept beside); [apply keeps_Close, _|done]|]. intros r w1 Hb1. rewrite wp_ignore.
  apply (wp_kept (held p n)); [|by apply beside_held]. apply keeps_held_Remove.
  intros ->. destruct Hb1 as (Hn & _ & Hk). congruence.
Qed.
Lemma wp_release w :
  beside w ->
  wp (ignore (flock_release f) ;;; ignore (file_Close f) ;;; ignore (os_Remove p')) w (fun _ w' => held p n w').
Proof using Hne.
  intros Hb. rewrite wp_bind, wp_ignore.
  eapply wp_mono; [apply (wp_kept beside); [apply keeps_beside_unlock|done]|]. intros r w1 Hb1. by apply wp_discard.
Qed.
End Beside.

Lemma keeps_on_names_make_lease_directory P dir : keeps (on_names P) (make_lease_directory dir).
Proof. unfold make_lease_directory. keeps. Qed.

Lemma wp_Create_beside p n p' excl append w :
  world_wf w -> held p n w ->
  wp (os_Create p' excl append) w (fun r w' =>
    held p n w' /\ forall f, r = Ok f -> beside p n p' (f_ino f) w' /\ (excl = true -> f_ino f <> n)).
Proof.
  intros Hw (Hn & Hl). apply wp_syscall; intros fs; [done|]. unfold wp. simpl.
  destruct (w_names w !! p') as [k|] eqn:Ep; simpl.
  { destruct excl; simpl; [done|]. split; [done|]. intros f [= <-]. done. }
  case_decide; simpl; [|done]. assert (p' <> p) as Hne by congruence. split.
  - split; simpl; [|done]. by rewrite lookup_insert_ne.
  - intros f [= <-]. split.
    + split_and!; simpl; [by rewrite lookup_insert_ne|done|apply lookup_insert_eq].
    + simpl. intros _. pose proof (wf_next _ Hw n (wf_names _ Hw _ _ Hn)). lia.
Qed.

(** Taking a lease leaves the other ones held. *)
Lemma wp_acquireLease_others pid dir label random p n w :
  world_wf w -> held p n w ->
  wp (acquireLease pid dir label random) w (fun r w' =>
    held p n w' /\ forall l, r = Ok l -> f_ino (l_file l) <> n).
Proof.
  intros Hw Hh. unfold acquireLease. destruct (safe_label label); simpl; [|done]. rewrite wp_bind.
  eapply wp_mono; [apply wp_keeps with (P := framed nothing w); [|by apply framed_refl|]|].
  { unfold make_lease_directory. keeps. }
  { apply (wp_kept (held p n)); [apply keeps_on_names_make_lease_directory|done]. }
  intros [u|e] w1 [[Hw1 _] Hh1]; [|done].
  set (p' := lease_name _ _ _ :: dir). rewrite wp_bind, wp_wrap.
  eapply wp_mono; [by apply (wp_Create_beside p n)|]. intros [f|e] w2 [Hh2 Hf]; [|done].
  destruct (Hf f eq_refl) as [Hb2 Hne]. specialize (Hne eq_refl).
  rewrite wp_bind, wp_or_else.
  eapply wp_mono; [apply (wp_kept (beside p n p' (f_ino f))); [by apply keeps_beside_lock|done]|].
  intros [locked|e] w3 Hb3.
  2: { eapply wp_mono; [by apply wp_discard|]. by intros r w4 Hh4. }
  destruct locked; simpl negb; cbn match.
  2: { rewrite wp_bind. eapply wp_mono; [by apply wp_discard|]. intros [[]|e] w4 Hh4; by split. }
  rewrite wp_bind.
  eapply wp_mono; [apply (wp_kept (beside p n p' (f_ino f))); [apply keeps_on_names_Write|done]|].
  intros [[[m err] f']|e] w4 Hb4; [|split; [by eapply beside_held|done]]. destruct err as [e|].
  { rewrite wp_bind. eapply wp_mono; [by apply wp_release|]. intros [[]|e'] w5 Hh5; by split. }
  rewrite wp_bind, wp_or_else.
  eapply wp_mono; [apply (wp_kept (beside p n p' (f_ino f))); [apply keeps_on_names_Sync|done]|].
  intros [[]|e] w5 Hb5.
  - rewrite wp_ret. split; [by eapply beside_held|]. by intros l [= <-].
  - eapply wp_mono; [by apply wp_release|]. by intros r w6 Hh6.
Qed.

(** A successful call holds its lease. *)
Lemma wp_acquireLease pid dir label random w :
  wp (acquireLease pid dir label random) w (fun r w' =>
    forall l, r = Ok l -> l_path l = lease_name pid label random :: dir
      /\ held (l_path l) (f_ino (l_file l)) w' /\ dir ∈ w_dirs w').
Proof.
  unfold acquireLease. destruct (safe_label label); simpl; [|done]. rewrite wp_bind.
  apply wp_mono with (P := fun _ _ => True); [done|]. intros [u|e] w1 _; [|done].
  set (p := lease_name _ _ _ :: dir). rewrite wp_bind, wp_wrap.
  eapply wp_mono; [apply wp_Create|]. intros [f|e] w2 Hc; [|done].
  destruct (Hc f eq_refl) as (Hn & _ & Hd). destruct (Hd eq_refl) as [_ Hdir]. simpl in Hdir.
  rewrite wp_bind, wp_or_else. eapply wp_mono; [apply wp_conj; [by apply (wp_flock_held p)|]|].
  { apply (wp_kept (fun w => dir ∈ w_dirs w)); [|done]. apply keeps_syscall; [by intros ???|].
    intros w' Hw'. simpl. by case_decide. }
  intros [locked|e] w3 [Hh3 Hd3]; [|by eapply wp_mono with (P := fun _ _ => True)].
  destruct locked; simpl negb; cbn match; [|by apply wp_err]. destruct (Hh3 eq_refl) as [_ Hh].
  set (J := fun w => held p (f_ino f) w /\ dir ∈ w_dirs w).
  assert (TickStable J) as HJ by by intros w' fs.
  rewrite wp_bind. eapply wp_mono; [apply (wp_kept J); [|done]|].
  { unfold file_Write. keeps. intros w' HJw. unfold inode_Write, next_outcome.
    destruct (w_faults w') as [|[|k] fs]; simpl; destruct (w_inodes w' !! f_ino f); simpl; try done.
    by destruct (take k _). }
  intros [[[m err] f']|e] w4 HJ4; [|done]. destruct err as [e|]; [by apply wp_err|].
  rewrite wp_bind, wp_or_else. eapply wp_mono; [apply (wp_kept J); [|done]|].
  { apply keeps_syscall; [done|]. intros w' Hw'. simpl. by destruct (w_inodes w' !! f_ino f). }
  intros [[]|e] w5 HJ5; [|by eapply wp_mono with (P := fun _ _ => True)].
  rewrite wp_ret. intros l [= <-]. simpl. by destruct HJ5.
Qed.

(** ** Leases over time *)

Section LeaseRuns.
Context (pid : string) (reserve_roots : list path).

(** The state: the leases now open, and the world. *)
Inductive lease_step : list Lease * world -> list Lease * world -> Prop :=
| step_acquired dir label random random2 ls w l w' :
    AcquireLease pid reserve_roots dir label random random2 w = (Ok l, w') ->
    lease_step (ls, w) (l :: ls, w')
| step_refused dir label random random2 ls w e w' :
    AcquireLease pid reserve_roots dir label random random2 w = (Err e, w') ->
    lease_step (ls, w) (ls, w')
| step_probed dir clean ls w r w' :
    DirectoryHasActiveLease dir clean w = (r, w') -> lease_step (ls, w) (ls, w')
| step_closed ls1 l ls2 w r w' :
    lease_Close (Some l) w = (r, w') -> lease_step (ls1 ++ l :: ls2, w) (ls1 ++ ls2, w').

Definition lease_held (w : world) (l : Lease) : Prop :=
  exists name dir, l_path l = name :: dir /\ String.prefix LeaseFilePrefix name = true
    /\ dir ∈ w_dirs w /\ held (l_path l) (f_ino (l_file l)) w.
Record leases_ok (s : list Lease * world) : Prop := {
  lo_wf : world_wf s.2;
  lo_distinct : NoDup ((fun l => f_ino (l_file l)) <$> s.1);
  lo_held : Forall (lease_held s.2) s.1;
}.

Lemma prefix_app a b : String.prefix a (String.append a b) = true.
Proof. induction a as [|c a IH]; simpl; [by destruct b|]. by destruct (Ascii.ascii_dec c c). Qed.

Lemma keeps_grown_acquireLease w0 dir label random : keeps (grown w0) (acquireLease pid dir label random).
Proof. unfold acquireLease, make_lease_directory, tryLockLease, unlockLease. keeps. Qed.
Lemma keeps_grown_reserve w0 stores dir : keeps (grown w0) (release_reserve stores dir).
Proof.
  induction stores as [|store stores IH]; cbn [release_reserve]; [keeps|].
  case_match; [done|]. unfold release_reserve_of. keeps.
Qed.
Lemma keeps_grown_AcquireLease w0 dir label random random2 :
  keeps (grown w0) (AcquireLease pid reserve_roots dir label random random2).
Proof.
  unfold AcquireLease, releaseReadReserveFor. keeps; eauto using keeps_grown_acquireLease, keeps_grown_reserve.
Qed.
Lemma keeps_grown_probe w0 dir clean : keeps (grown w0) (DirectoryHasActiveLease dir clean).
Proof.
  unfold DirectoryHasActiveLease. keeps. generalize false as active.
  induction a as [|e entries IH]; intros active; cbn [active_leases]; [keeps|].
  unfold lease_file_active, tryLockLease, unlockLease. keeps; auto.
Qed.
Lemma keeps_grown_lease_Close w0 l : keeps (grown w0) (lease_Close l).
Proof. unfold lease_Close, unlockLease. keeps. Qed.

Lemma keeps_held_reserve name dir n stores d :
  String.prefix LeaseFilePrefix name = true -> keeps (held (name :: dir) n) (release_reserve stores d).
Proof.
  intros Hp. induction stores as [|store stores IH]; cbn [release_reserve]; [keeps|].
  case_match; [done|]. unfold release_reserve_of. keeps. apply keeps_held_Remove.
  intros [= <- _]. by vm_compute in Hp.
Qed.

(** Taking a lease, possibly at the expense of the emergency reserve. *)
Lemma wp_AcquireLease_others dir label random random2 name d n w :
  String.prefix LeaseFilePrefix name = true -> world_wf w -> held (name :: d) n w ->
  wp (AcquireLease pid reserve_roots dir label random random2) w (fun r w' =>
    held (name :: d) n w' /\ forall l, r = Ok l -> f_ino (l_file l) <> n).
Proof.
  intros Hp Hw Hh. unfold AcquireLease. rewrite wp_bind, wp_try.
  eapply wp_mono; [apply wp_keeps with (P := grown w); [apply keeps_grown_acquireLease|by apply grown_refl|]|].
  { by apply (wp_acquireLease_others pid dir label random (name :: d) n). }
  intros [l|e] w1 (Hg1 & Hh1 & Hl); [by split; [|intros l' [= <-]; apply Hl]|]. case_match; [|by split].
  rewrite wp_bind, wp_ignore.
  eapply wp_mono; [apply wp_keeps with (P := grown w); [apply keeps_grown_reserve|done|]|].
  { apply (wp_kept (held (name :: d) n)); [by apply keeps_held_reserve|done]. }
  intros r w2 [[Hw2 _] Hh2]. by apply wp_acquireLease_others.
Qed.
Lemma wp_AcquireLease dir label random random2 w :
  wp (AcquireLease pid reserve_roots dir label random random2) w (fun r w' =>
    forall l, r = Ok l -> lease_held w' l).
Proof.
  assert (forall random w, wp (acquireLease pid dir label random) w (fun r w' =>
    forall l, r = Ok l -> lease_held w' l)) as Hacq.
  { intros rnd w1. eapply wp_mono; [apply wp_acquireLease|]. intros r w2 Hl l ->.
    destruct (Hl l eq_refl) as (Hp & Hh & Hd). exists (lease_name pid label rnd), dir.
    split_and!; [done|apply prefix_app|done|done]. }
  unfold AcquireLease. rewrite wp_bind, wp_try. eapply wp_mono; [apply Hacq|].
  intros [l|e] w1 Hl; [by intros l' [= <-]; apply Hl|]. case_match; [|done].
  rewrite wp_bind, wp_ignore. eapply wp_mono with (P := fun _ _ => True); [done|].
  intros r w2 _. apply Hacq.
Qed.
Lemma keeps_held_lease_Close p n l :
  f_ino (l_file l) <> n -> l_path l <> p -> keeps (held p n) (lease_Close (Some l)).
Proof.
  intros Hi Hp. unfold lease_Close, unlockLease. keeps.
  - by apply keeps_held_unlock.
  - by apply keeps_held_Remove.
Qed.

Lemma keeps_held_probe p n dir clean : keeps (held p n) (DirectoryHasActiveLease dir clean).
Proof.
  unfold DirectoryHasActiveLease. keeps. generalize false as active.
  induction a as [|e entries IH]; intros active; cbn [active_leases]; [keeps|].
  case_match; [apply IH|]. apply keeps_bind; [|intros st; apply IH].
  intros w Hh. by apply (wp_lease_file_active p n (e :: dir) clean w).
Qed.

Lemma leases_survive w w' ls :
  Forall (lease_held w) ls -> grown w w' ->
  (forall l, l ∈ ls -> held (l_path l) (f_ino (l_file l)) w -> held (l_path l) (f_ino (l_file l)) w') ->
  Forall (lease_held w') ls.
Proof.
  rewrite !Forall_forall. intros Hall [_ Hg] Hk l Hin.
  destruct (Hall l Hin) as (name & dir & Hp & Hpre & Hd & Hh). exists name, dir. split_and!; auto.
Qed.

Lemma acquired_apart dir label ra rb w r w' l :
  world_wf w -> lease_held w l -> AcquireLease pid reserve_roots dir label ra rb w = (r, w') ->
  held (l_path l) (f_ino (l_file l)) w' /\ forall l', r = Ok l' -> f_ino (l_file l') <> f_ino (l_file l).
Proof.
  intros Hw (name & d & Hp & Hpre & Hd & Hh) E. rewrite Hp in *.
  pose proof (wp_AcquireLease_others dir label ra rb name d _ w Hpre Hw Hh) as Ho.
  unfold wp in Ho. by rewrite E in Ho.
Qed.

(** Every step keeps the open leases held. *)
Lemma leases_ok_step s s' : lease_step s s' -> leases_ok s -> leases_ok s'.
Proof.
  intros Hstep [Hw Hnd Hall]. destruct Hstep as [dir label ra rb ls w l w' E|dir label ra rb ls w e w' E
    |dir clean ls w r w' E|ls1 l ls2 w r w' E]; cbn [fst snd] in *.
  - pose proof (keeps_grown_AcquireLease w dir label ra rb w (grown_refl _ Hw)) as Hg.
    pose proof (wp_AcquireLease dir label ra rb w) as Hnew. unfold wp in Hnew. rewrite E in Hg, Hnew. simpl in Hg.
    pose proof Hall as Hin. rewrite Forall_forall in Hin. split; simpl; [apply Hg| |].
    + apply NoDup_cons. split; [|done]. intros (l' & Heq & Hl')%list_elem_of_fmap.
      by destruct (acquired_apart _ _ _ _ _ _ _ l' Hw (Hin l' Hl') E) as [_ Hne]; apply (Hne l).
    + constructor; [by apply Hnew|]. eapply leases_survive; [done..|].
      intros l' Hl' _. by apply (acquired_apart _ _ _ _ _ _ _ l' Hw (Hin l' Hl') E).
  - pose proof (keeps_grown_AcquireLease w dir label ra rb w (grown_refl _ Hw)) as Hg. rewrite E in Hg.
    split; simpl; [apply Hg|done|]. eapply leases_survive; [done..|]. intros l Hl _. rewrite Forall_forall in Hall.
    by apply (acquired_apart _ _ _ _ _ _ _ l Hw (Hall l Hl) E).
  - pose proof (keeps_grown_probe w dir clean w (grown_refl _ Hw)) as Hg. rewrite E in Hg.
    split; simpl; [apply Hg|done|]. eapply leases_survive; [done..|]. intros l Hl Hh.
    apply (keeps_held_probe _ _ dir clean) in Hh. by rewrite E in Hh.
  - pose proof (keeps_grown_lease_Close w (Some l) w (grown_refl _ Hw)) as Hg. rewrite E in Hg.
    rewrite fmap_app, fmap_cons in Hnd. apply NoDup_app in Hnd as (Hnd1 & Hx & Hnd2).
    apply NoDup_cons in Hnd2 as [Hnl Hnd2]. apply Forall_app in Hall as [Hall1 Hall2].
    inversion Hall2 as [|l0 ls0 Hl Hall3]; subst. split; simpl; [apply Hg| |].
    + rewrite fmap_app. apply NoDup_app. split_and!; [done| |done]. intros x Hx1 Hx2. apply (Hx x Hx1). by right.
    + eapply leases_survive; [by apply Forall_app|done|]. intros l' Hl' Hh'.
      assert (f_ino (l_file l) <> f_ino (l_file l')) as Hne.
      { intros Heq. apply elem_of_app in Hl' as [Hl'|Hl'].
        - apply (Hx (f_ino (l_file l'))); [by apply (list_elem_of_fmap_2 (fun l => f_ino (l_file l)))|]. rewrite Heq. by left.
        - apply Hnl. rewrite Heq. by apply (list_elem_of_fmap_2 (fun l => f_ino (l_file l))). }
      assert (l_path l <> l_path l') as Hpne.
      { intros Heq. destruct Hl as (? & ? & _ & _ & _ & [Hn _]), Hh' as [Hn' _]. congruence. }
      apply (keeps_held_lease_Close _ _ l Hne Hpne) in Hh'. by rewrite E in Hh'.
Qed.
End LeaseRuns.


(** ** Mutual exclusion *)

(** An attempt to lock a file whose lock is taken. *)
Lemma wp_flock_taken f w : f_ino f ∈ w_locked w ->
  wp (flock_try f) w (fun r w' => r <> Ok true /\ same_files w w').
Proof.
  intros Hl. apply wp_syscall; intros fs; [done|]. unfold wp. simpl. by rewrite decide_True.
Qed.

Lemma wp_lock_refused {A} f (k : bool -> OS A) (Q : result A -> Prop) w0 w :
  f_ino f ∈ w_locked w -> same_files w0 w ->
  (forall e, Q (Err e)) ->
  (forall w', same_files w0 w' -> wp (k false) w' (fun r w2 => Q r /\ same_files w0 w2)) ->
  wp (let* locked := or_else (tryLockLease f) (file_Close f) in k locked) w
    (fun r w' => Q r /\ same_files w0 w').
Proof.
  intros Hl Hs He Hk. rewrite wp_bind, wp_or_else. eapply wp_mono; [by apply wp_flock_taken|].
  intros [[]|e] w1 [Hr Hs1]; [done|apply Hk; by eapply same_files_trans|].
  eapply wp_mono; [apply (wp_kept (same_files w0)); [apply keeps_Close, _|by eapply same_files_trans]|].
  by intros r w2 Hs2.
Qed.

Lemma wp_OpenFile_named p n a w : w_names w !! p = Some n ->
  wp (os_OpenFile p a) w (fun r w' => same_files w w' /\ forall f, r = Ok f -> f_ino f = n).
Proof.
  intros Hn. apply wp_syscall; intros fs; [done|]. unfold wp. simpl. rewrite Hn. simpl.
  split; [done|]. by intros f [= <-].
Qed.
Lemma wp_Create_named p n a w : w_names w !! p = Some n ->
  wp (os_Create p false a) w (fun r w' => same_files w w' /\ forall f, r = Ok f -> f_ino f = n).
Proof.
  intros Hn. apply wp_syscall; intros fs; [done|]. unfold wp. simpl. rewrite Hn. simpl.
  split; [done|]. by intros f [= <-].
Qed.

Lemma wp_close_then {A} f (r : result A) w0 w :
  same_files w0 w ->
  wp (ignore (file_Close f) ;;; lift r) w (fun r' w' => r' = r /\ same_files w0 w').
Proof.
  intros Hs. rewrite wp_bind, wp_ignore.
  eapply wp_mono; [apply (wp_kept (same_files w0)); [apply keeps_Close, _|done]|]. by intros r' w' Hs'.
Qed.

Lemma wp_writer_busy pid p n w : held p n w ->
  wp (acquireWriterLease pid p) w (fun r w' => is_ok r = false /\ same_files w w').
Proof.
  intros [Hn Hl]. unfold acquireWriterLease, openWriterLeaseFile. rewrite wp_bind, wp_wrap.
  eapply wp_mono; [by apply wp_Create_named|]. intros [f|e] w1 [Hs1 Hf]; [|done].
  apply (wp_lock_refused f _ (fun r => is_ok r = false)); [|done..|].
  - destruct Hs1 as (_ & _ & _ & _ & _ & ->). by rewrite (Hf f eq_refl).
  - intros w2 Hs2. eapply wp_mono; [by apply (wp_close_then f (Err ErrWriterBusy))|]. by intros r w3 [-> Hs3].
Qed.

(** A guard is refused too. *)
Lemma wp_guard_busy p n file w0 w :
  w_names w0 !! p = Some n -> n ∈ w_locked w0 -> f_ino file = n -> same_files w0 w ->
  forall k : OS (option File),
  wp (let* locked := or_else (tryLockLease file) (file_Close file) in
      if negb locked then ignore (file_Close file) ;;; ret None else k) w
    (fun r w' => (forall g, r = Ok g -> g = None) /\ same_files w0 w').
Proof.
  intros Hn Hl Hf Hs k. apply (wp_lock_refused file _ (fun r => forall g, r = Ok g -> g = None)); [|done..|].
  - destruct Hs as (_ & _ & _ & _ & _ & ->). by rewrite Hf.
  - intros w2 Hs2. eapply wp_mono; [by apply (wp_close_then file (Ok None))|]. by intros r w3 [-> Hs3]; split; [intros g [= <-]|].
Qed.
Lemma wp_TryAcquireWriterLeaseGuard root id n w :
  held ("writer.lease"%string :: id :: "sessions"%string :: "fs"%string :: root) n w ->
  wp (TryAcquireWriterLeaseGuard root id) w (fun r w' => (forall g, r = Ok g -> g = None) /\ same_files w w').
Proof.
  intros [Hn Hl]. unfold TryAcquireWriterLeaseGuard. destruct (validateSessionID id); [|done].
  rewrite wp_bind, wp_wrap. eapply wp_mono; [by apply wp_Create_named|]. intros [f|e] w1 [Hs1 Hf]; [|done].
  by eapply wp_guard_busy; [| |apply Hf|].
Qed.
Lemma wp_TryAcquireWriterLeaseGuardAtPath p n w :
  held p n w ->
  wp (TryAcquireWriterLeaseGuardAtPath p) w (fun r w' => (forall g, r = Ok g -> g = None) /\ same_files w w').
Proof.
  intros [Hn Hl]. unfold TryAcquireWriterLeaseGuardAtPath. case_match; [done|].
  rewrite wp_bind, wp_wrap. eapply wp_mono; [apply (wp_kept (same_files w)); [apply keeps_Stat, _|done]|].
  intros [before|e] w1 Hs1; [|done]. case_match; [done|].
  rewrite wp_bind, wp_wrap. eapply wp_mono; [apply wp_OpenFile_named; destruct Hs1 as [-> _]; done|].
  intros [f|e] w2 [Hs2 Hf]; [|split; [done|by eapply same_files_trans]].
  pose proof (same_files_trans _ _ _ Hs1 Hs2) as Hs12.
  rewrite wp_bind, wp_or_else, wp_wrap. eapply wp_mono; [apply (wp_kept (same_files w)); [apply keeps_file_Stat, _|done]|].
  intros [opened|e] w3 Hs3.
  2: { eapply wp_mono; [apply (wp_kept (same_files w)); [apply keeps_Close, _|done]|]. by intros r w4 Hs4. }
  case_match.
  { eapply wp_mono; [by apply (wp_close_then f (Err _))|]. by intros r w4 [-> Hs4]. }
  by eapply wp_guard_busy; [| |apply Hf|].
Qed.

Lemma wp_acquireWriterLease pid p w :
  wp (acquireWriterLease pid p) w (fun r w' => forall f, r = Ok f -> held p (f_ino f) w').
Proof.
  unfold acquireWriterLease, openWriterLeaseFile. rewrite wp_bind, wp_wrap.
  eapply wp_mono; [apply wp_Create|]. intros [f|e] w1 Hc; [|done]. destruct (Hc f eq_refl) as (Hn & _ & _).
  rewrite wp_bind, wp_or_else. eapply wp_mono; [by apply (wp_flock_held p)|].
  intros [locked|e] w2 Hh; [|by eapply wp_mono with (P := fun _ _ => True)].
  destruct locked; simpl negb; cbn match; [|by apply wp_err]. destruct (Hh eq_refl) as [_ Hh2].
  rewrite wp_bind, wp_or_else.
  eapply wp_mono; [apply (wp_kept (held p (f_ino f))); [apply keeps_on_names_Truncate|done]|].
  intros [[]|e] w3 Hh3; [|by eapply wp_mono with (P := fun _ _ => True)].
  rewrite wp_bind. eapply wp_mono; [apply (wp_kept (held p (f_ino f))); [apply keeps_on_names_Write|done]|].
  intros [[[m err] f']|e] w4 Hh4; [|done]. destruct err as [e|]; [by apply wp_err|].
  rewrite wp_bind, wp_or_else, wp_wrap.
  eapply wp_mono; [apply (wp_kept (held p (f_ino f))); [apply keeps_on_names_Sync|done]|].
  intros [[]|e] w5 Hh5; [|by eapply wp_mono with (P := fun _ _ => True)].
  rewrite wp_ret. by intros f2 [= <-].
Qed.


(** ** Operation locks exclude each other *)

(** A step that keeps the lock held, whatever its result. *)
Lemma wp_step_held {A B} p n (m : OS A) (k : A -> OS B) (Q : result B -> world -> Prop) w :
  held p n w -> keeps (held p n) m -> (forall e w', held p n w' -> Q (Err e) w') ->
  (forall a w', held p n w' -> wp (k a) w' Q) -> wp (bind m k) w Q.
Proof.
  intros Hh Hm He Hk. rewrite wp_bind. eapply wp_mono; [by apply (wp_kept (held p n))|].
  intros [a|e] w' Hh'; auto.
Qed.

Lemma wp_open_operation_lock store name n w :
  let p := String.append name ".lock" :: "locks"%string :: store in
  held p n w ->
  wp (open_operation_lock store name) w (fun r w' =>
    held p n w' /\ forall file opened lp, r = Ok (file, opened, lp) -> f_ino file = n).
Proof.
  intros p Hh. unfold open_operation_lock.
  apply (wp_step_held p n); [done|keeps|done|intros storeInfo w1 Hh1].
  apply (wp_step_held p n); [done|keeps|done|intros info w2 Hh2].
  case_match; [done|]. apply (wp_step_held p n); [done|keeps|done|intros current w3 Hh3].
  case_match; [done|]. apply (wp_step_held p n); [done|keeps|done|intros made w4 Hh4].
  apply (wp_step_held p n); [done|keeps|done|intros [] w5 Hh5].
  apply (wp_step_held p n); [done|keeps|done|intros locksInfo w6 Hh6].
  case_match; [done|]. apply (wp_step_held p n); [done|keeps|done|intros before w7 Hh7].
  apply (wp_step_held p n); [done|keeps|done|intros [] w8 Hh8].
  rewrite wp_bind, wp_wrap. eapply wp_mono; [apply wp_Create_named, Hh8|].
  intros [file|e] w9 [Hs9 Hf]; pose proof (held_same_files _ _ _ _ Hh8 Hs9) as Hh9; [|done].
  apply (wp_step_held p n); [done|keeps|done|intros opened w10 Hh10].
  apply (wp_step_held p n); [done|keeps|done|intros after w11 Hh11].
  assert (forall e, wp (ignore (file_Close file) ;;; fail e) w11 (fun (r : result (File * FileInfo * path)) w' =>
    held p n w' /\ forall file0 opened0 lp, r = Ok (file0, opened0, lp) -> f_ino file0 = n)) as Hclose.
  { intros e. apply (wp_step_held p n); [done|keeps|done|done]. }
  destruct opened as [opened|e], after as [after|e']; auto. case_match; [auto|].
  rewrite wp_ret. split; [done|]. intros f o lp [= <- _ _]. by apply Hf.
Qed.

Lemma wp_operation_lock_taken store name n w :
  let p := String.append name ".lock" :: "locks"%string :: store in
  held p n w ->
  wp (AcquireOperationLock store name) w (fun r w' => is_ok r = false /\ held p n w').
Proof.
  intros p Hh. unfold AcquireOperationLock. case_match; [done|]. rewrite wp_bind.
  eapply wp_mono; [by apply wp_open_operation_lock|]. intros [[[file opened] lp]|e] w1 [Hh1 Hf]; [|done].
  rewrite wp_bind, wp_or_else, wp_wrap.
  eapply wp_mono; [apply wp_flock_taken; rewrite (Hf file opened lp eq_refl); apply Hh1|].
  intros r w2 [Hr Hs2]. pose proof (held_same_files _ _ _ _ Hh1 Hs2) as Hh2. destruct r as [[]|e]; [done| |].
  - apply (wp_step_held p n); [done|keeps|done|done].
  - eapply wp_mono; [apply (wp_kept (held p n)); [apply keeps_Close, _|done]|]. by intros r w3 Hh3.
Qed.

(** A step whose effect does not matter. *)
Lemma wp_step_any {S A B} (m : M S A) (k : A -> M S B) (Q : result B -> S -> Prop) s :
  (forall e s', Q (Err e) s') -> (forall a s', wp (k a) s' Q) -> wp (bind m k) s Q.
Proof. intros He Hk. rewrite wp_bind. unfold wp at 1. destruct (m s) as [[a|e] s']; simpl; auto. Qed.

Lemma wp_open_operation_lock_named store name w :
  wp (open_operation_lock store name) w (fun r w' => forall file opened lp, r = Ok (file, opened, lp) ->
    lp = String.append name ".lock" :: "locks"%string :: store /\ w_names w' !! lp = Some (f_ino file)).
Proof.
  unfold open_operation_lock. set (p := String.append name ".lock" :: _).
  apply wp_step_any; [done|intros storeInfo w1]. apply wp_step_any; [done|intros info w2].
  case_match; [done|]. apply wp_step_any; [done|intros current w3].
  case_match; [done|]. apply wp_step_any; [done|intros made w4]. apply wp_step_any; [done|intros [] w5].
  apply wp_step_any; [done|intros locksInfo w6]. case_match; [done|].
  apply wp_step_any; [done|intros before w7]. apply wp_step_any; [done|intros [] w8].
  rewrite wp_bind, wp_wrap. eapply wp_mono; [apply wp_Create|]. intros [file|e] w9 Hc; [|done].
  destruct (Hc file eq_refl) as (Hn & _ & _). set (J := on_names (fun names _ => names !! p = Some (f_ino file))).
  rewrite wp_bind. eapply wp_mono; [apply (wp_kept J); [keeps|done]|]. intros [opened|e] w10 HJ10; [|done].
  rewrite wp_bind. eapply wp_mono; [apply (wp_kept J); [keeps|done]|]. intros [after|e] w11 HJ11; [|done].
  destruct opened as [opened|e], after as [after|e']; try by apply wp_err. case_match; [by apply wp_err|].
  rewrite wp_ret. by intros f o lp [= <- _ <-].
Qed.

Lemma wp_operation_lock_held store name w :
  wp (AcquireOperationLock store name) w (fun r w' => forall f, r = Ok f ->
    held (String.append name ".lock" :: "locks"%string :: store) (f_ino f) w').
Proof.
  unfold AcquireOperationLock. case_match; [done|]. rewrite wp_bind.
  eapply wp_mono; [apply wp_open_operation_lock_named|]. intros [[[file opened] lp]|e] w1 Ho; [|done].
  destruct (Ho file opened lp eq_refl) as [-> Hn]. set (p := String.append name ".lock" :: _) in *.
  rewrite wp_bind, wp_or_else, wp_wrap. eapply wp_mono; [by apply (wp_flock_held p)|].
  intros [locked|e] w2 Hh; [|by eapply wp_mono with (P := fun _ _ => True)].
  destruct locked; simpl negb; cbn match; [|by apply wp_err]. destruct (Hh eq_refl) as [_ Hh2].
  rewrite wp_bind, wp_try. eapply wp_mono; [apply (wp_kept (held p (f_ino file))); [keeps|done]|].
  intros [after|e] w3 Hh3.
  - case_match; [|rewrite wp_ret; by intros f [= <-]].
    apply wp_step_any; [done|intros u w4]. by apply wp_step_any.
  - apply wp_step_any; [done|intros u w4]. by apply wp_step_any.
Qed.

(** Mutual exclusion of operations: once [AcquireOperationLock] has succeeded,
    it cannot succeed again for the same store and name until the lock is
    released, and the refused attempt leaves it held. *)
Theorem operation_lock_exclusive store name f w w1 w2 r w3 :
  AcquireOperationLock store name w = (Ok f, w1) ->
  w_names w2 = w_names w1 -> w_locked w1 ⊆ w_locked w2 ->
  AcquireOperationLock store name w2 = (r, w3) ->
  is_ok r = false /\ f_ino f ∈ w_locked w3.
Proof.
  intros Hacq Hnames Hlocks Hagain. pose proof (wp_operation_lock_held store name w) as Hh.
  unfold wp in Hh. rewrite Hacq in Hh. destruct (Hh f eq_refl) as [Hn Hl].
  pose proof (wp_operation_lock_taken store name (f_ino f) w2) as Hb. unfold wp in Hb. rewrite Hagain in Hb.
  destruct Hb as [Hr [_ Hl']]; [|done]. split; [by rewrite Hnames|by apply Hlocks].
Qed.

(** ** Sample runs *)

Definition lease_world : world :=
  {| w_names := ∅; w_inodes := ∅;
     w_dirs := {[ []; ["id"; "sessions"; "fs"]%string ]}; w_durable := ∅;
     w_next := 0; w_clock := 0; w_faults := []; w_locked := ∅ |}.
Lemma lease_world_wf : world_wf lease_world.
Proof. split; [done|]. intros n [i Hi]. done. Qed.

Definition sample_lease : result Lease * world := AcquireLease "7" [] ["g"%string] "reader" "00" "01" lease_world.
Definition the_lease : Lease :=
  match sample_lease.1 with
  | Ok l => l
  | Err _ => {| l_file := {| f_ino := 0; f_pos := 0; f_append := false |}; l_path := [] |}
  end.


Definition sample_writer : result File * world :=
  acquireWriterLease "7" ["writer.lease"; "id"; "sessions"; "fs"]%string lease_world.
Definition the_file (r : result File) : File :=
  match r with Ok f => f | Err _ => {| f_ino := 0; f_pos := 0; f_append := false |} end.


Definition sample_lock : result File * world := AcquireOperationLock ["s"%string] "objects" lease_world.
Lemma operation_lock_exclusive_witness :
  is_ok (AcquireOperationLock ["s"%string] "objects" sample_lock.2).1 = false.
Proof.
  refine (proj1 (operation_lock_exclusive ["s"%string] "objects" (the_file sample_lock.1) lease_world
    sample_lock.2 sample_lock.2 _ _ _ _ _ _)).
  - vm_compute. reflexivity.
  - reflexivity.
  - intros x Hx. exact Hx.
  - apply surjective_pairing.
Defined.
