(* ===== verification/Gc.v ===== *)
(** Garbage collection of loose objects: [src/internal/fold/gc.go], with the walk over
    manifests of [doctor.go] and [ValidateManagedSessionReference] of
    [src/internal/storage/proof.go].

    An object is removed when no manifest of the store and no managed session refers
    to it, and only after the references were collected again and the object was read
    back twice.  The inventory scan, the collection of other files and the deletion
    guard of package [storage] are arguments. *)
From S2P Require Import Prelude GoStd Effects ObjectReader Os Mutation Manifest Budget Store Fold Lease Walk.

(** ** Managed references *)

Record ManagedSessionReference := {
  mr_StoreDir : option path;
  mr_SessionID : string;
  mr_ManifestPath : path;
  mr_ManifestSHA256 : string;
  mr_BaseBytes : Z;
  mr_BaseSHA256 : string;
}.

(** [manifestRecord] of package [storage]. *)
Record manifestPart := { mp_Kind : string; mp_SHA256 : string; mp_RawBytes : Z }.
Record manifestRecord := {
  mc_Version : Z;
  mc_Kind : string;
  mc_ID : string;
  mc_RolloutPath : string;
  mc_Bytes : Z;
  mc_SHA256 : string;
  mc_Parts : list manifestPart;
}.

Definition validSHA256 (value : string) : bool :=
  (Z.of_nat (String.length value) =? 64) && match hex_DecodeString value with Some _ => true | None => false end.
Definition addInt64 (left right : Z) : Z * bool :=
  if (right >? 0) && (left >? max_int64 - right) then (0, true)
  else if (right <? 0) && (left <? - 2 ^ 63 - right) then (0, true)
  else (left + right, false).

Fixpoint validate_record_parts (version : Z) (parts : list manifestPart) (reconstructed : Z) : result Z :=
  match parts with
  | [] => Ok reconstructed
  | part :: parts =>
      if negb (string_is (mp_Kind part) "residual") && negb (string_is (mp_Kind part) "field")
         && negb ((version =? 2) && string_is (mp_Kind part) "record") then
        Err (errors_new "part %d has unsupported kind %q")
      else if (mp_RawBytes part <? 0) || negb (validSHA256 (mp_SHA256 part)) then
        Err (errors_new "part %d has an invalid object reference")
      else
        let '(sum, overflow) := addInt64 reconstructed (mp_RawBytes part) in
        if overflow then Err (errors_new "reconstructed byte count overflows")
        else validate_record_parts version parts sum
  end.

Definition validateManifestRecord (manifest : manifestRecord) : result unit :=
  if (negb (mc_Version manifest =? 1) || negb (string_is (mc_Kind manifest) "fold-v1"))
     && (negb (mc_Version manifest =? 2) || negb (string_is (mc_Kind manifest) "fold-v2")) then
    Err (errors_new "unsupported kind %q version %d")
  else if string_is (mc_ID manifest) "" || string_is (mc_ID manifest) "." || string_is (mc_ID manifest) ".."
          || strings_ContainsAny (mc_ID manifest) unsafe_characters then
    Err (errors_new "unsafe or missing session ID")
  else if (mc_Bytes manifest <? 0) || negb (validSHA256 (mc_SHA256 manifest)) then
    Err (errors_new "invalid source proof")
  else
    match validate_record_parts (mc_Version manifest) (mc_Parts manifest) 0 with
    | Err e => Err e
    | Ok reconstructed =>
        if negb (reconstructed =? mc_Bytes manifest) then Err (errors_new "reconstructed bytes %d, want %d") else Ok tt
    end.

Definition pathWithin (root p : path) : bool := bool_decide (root `suffix_of` p).
Definition cleanPathWithin (root p : path) : result path :=
  if pathWithin root p then Ok p else Err (errors_new "path escapes its managed root").

(** [os.OpenRoot] *)
Definition os_OpenRoot (p : path) : OS unit :=
  let* info := os_Stat p in
  if fi_regular info then fail (errors_new "not a directory") else ret tt.

Section Gc.
Variable sha256 : bytes -> bytes.
Variable zstd_decode : bytes -> result bytes.
Variable json_Unmarshal : bytes -> result Manifest.
Variable json_record : bytes -> result manifestRecord.
(** How the context stands at each moment. *)
Variable ctx : world -> Ctx.
Local Abbreviation digest_of := (digest_of sha256).
Local Abbreviation LoadManifestPath := (LoadManifestPath json_Unmarshal).

Definition ctx_check : OS unit := fun w => throw (ctx_Err (ctx w)).1 w.

Definition loadManagedManifestIdentity (storeDir p : path) : OS (manifestRecord * string) :=
  let manifestRoot := "manifests"%string :: storeDir in
  let* p := wrap "resolve manifest %s: %w" (lift (cleanPathWithin manifestRoot p)) in
  wrap "open managed store root: %w" (os_OpenRoot storeDir) ;;;
  wrap "open manifest root: %w" (os_OpenRoot manifestRoot) ;;;
  let* info := wrap "inspect manifest %s: %w" (os_Stat p) in
  if negb (fi_regular info) then fail (errors_new "manifest %s is not a regular file")
  else
    let* file := wrap "open manifest %s: %w" (os_Open p) in
    defer_ (file_Close file) (
      let* opened := wrap "stat opened manifest %s: %w" (file_Stat file) in
      if negb (fi_regular opened) || negb (os_SameFile info opened) then fail (errors_new "manifest %s changed while it was opened")
      else
        let* data := wrap "read manifest %s: %w" (file_ReadAll file) in
        let* manifest := wrap "decode manifest %s: %w" (lift (json_record data)) in
        wrap "invalid manifest %s: %w" (lift (validateManifestRecord manifest)) ;;;
        ret (manifest, digest_of data)).

Definition ValidateManagedSessionReference (reference : ManagedSessionReference) : OS unit :=
  if string_is (mr_SessionID reference) "" || negb (validSHA256 (mr_ManifestSHA256 reference))
     || (mr_BaseBytes reference <? 0) || negb (validSHA256 (mr_BaseSHA256 reference)) then
    fail (errors_new "managed session reference is incomplete")
  else
    match mr_StoreDir reference with
    | None => fail (errors_new "managed session reference has no store root")
    | Some storeDir =>
        let* (manifest, digest) := loadManagedManifestIdentity storeDir (mr_ManifestPath reference) in
        if negb (string_is digest (mr_ManifestSHA256 reference)) then
          fail (errors_new "manifest bytes do not match managed session state")
        else if negb (string_is (mc_ID manifest) (mr_SessionID reference)) || negb (mc_Bytes manifest =? mr_BaseBytes reference)
                || negb (string_is (mc_SHA256 manifest) (mr_BaseSHA256 reference)) then
          fail (errors_new "managed session state does not match its current manifest")
        else ret tt
    end.

(** ** References *)

Definition walkManifestPaths {X} (storeDir : path) (visit : path -> Walk X unit) : Walk X unit :=
  let* walked := try_ (os_WalkDir ("manifests"%string :: storeDir) (fun p =>
    if negb (String.eqb (filepath_Ext (base_name p)) ".json") then ret tt else visit p)) in
  match walked with
  | Err e => if is_NotExist e then ret tt else fail (errorf "read manifest directory: %w" e)
  | Ok _ => ret tt
  end.

Record references := {
  rf_referenced : gset string;
  rf_invalid : nat;
  rf_visited : gset path;
}.
Definition no_references : references := {| rf_referenced := ∅; rf_invalid := 0; rf_visited := ∅ |}.
Definition count_invalid (r : references) : references :=
  {| rf_referenced := rf_referenced r; rf_invalid := S (rf_invalid r); rf_visited := rf_visited r |}.
Definition mark_visited (p : path) (r : references) : references :=
  {| rf_referenced := rf_referenced r; rf_invalid := rf_invalid r; rf_visited := {[p]} ∪ rf_visited r |}.
Definition manifest_objects (manifest : Manifest) : gset string :=
  list_to_set (map (fun part => SHA256 (p_Object part)) (mf_Parts manifest)).
Definition reference_parts (manifest : Manifest) (r : references) : references :=
  {| rf_referenced := rf_referenced r ∪ manifest_objects manifest; rf_invalid := rf_invalid r; rf_visited := rf_visited r |}.

Definition visit_manifest (collect : bool) (p : path) : Walk references unit :=
  at_disk ctx_check ;;;
  let* loaded := try_ (at_disk (LoadManifestPath p)) in
  match loaded with
  | Err _ => note count_invalid
  | Ok manifest =>
      note (mark_visited p) ;;;
      if collect then note (reference_parts manifest) else ret tt
  end.

Definition visit_reference (reader : part_reader) (reference : ManagedSessionReference) : Walk references unit :=
  let p := mr_ManifestPath reference in
  let* validated := try_ (at_disk (ValidateManagedSessionReference reference)) in
  match validated with
  | Err _ => note count_invalid
  | Ok _ =>
      let* loaded := try_ (at_disk (LoadManifestPath p)) in
      match loaded with
      | Err _ => note count_invalid
      | Ok manifest =>
          if negb (string_is (ms_ID (mf_Session manifest)) (mr_SessionID reference))
             || negb (src_Bytes (mf_Source manifest) =? mr_BaseBytes reference)
             || negb (string_is (src_SHA256 (mf_Source manifest)) (mr_BaseSHA256 reference))
          then note count_invalid
          else
            let* verified := try_ (at_disk (fun w => verifyStoredManifest sha256 zstd_decode (ctx w) reader manifest w)) in
            match verified with
            | Err _ => note count_invalid
            | Ok _ =>
                let* s := get in
                if decide (p ∈ rf_visited s.1) then ret tt else note (reference_parts manifest)
            end
      end
  end.

Definition openObjectReader (storeDir : path) (reader : option FoldReader) : part_reader :=
  match reader with Some reader => GivenReader reader | None => StoreReader storeDir end.

Definition referencedManifestObjects (storeDir : path) (collect : bool) (managed : list ManagedSessionReference)
    (objects : option FoldReader) : OS (gset string * nat) :=
  let* (_, r) := collecting no_references (
    walkManifestPaths storeDir (visit_manifest collect) ;;;
    if negb collect then ret tt
    else for_each (visit_reference (openObjectReader storeDir objects)) managed) in
  ret (rf_referenced r, rf_invalid r).

(** ** Collection *)

Record GCResult := {
  gc_StoreDir : path;
  gc_DryRun : bool;
  gc_Referenced : Z;
  gc_OrphanCount : Z;
  gc_OrphanBytes : Z;
  gc_RemovedCount : Z;
  gc_RemovedBytes : Z;
  gc_ProjectedReclaimableBytes : Z;
  gc_ActualReclaimedBytes : Z;
}.
Record GCOptions := {
  go_Apply : bool;
  go_BeforeObjectRemove : option (path -> OS unit);
  go_Reader : option FoldReader;
}.
(** [storage.ManagedSessionDeletionGuard] as the collection uses it. *)
Record DeletionGuard := {
  dg_References : list ManagedSessionReference;
  dg_Refresh : OS (list ManagedSessionReference);
  dg_Close : OS unit;
}.

Variable Scan : OS Inventory.
(** [storage.Collect] with its option [Apply]; of the result, the bytes it projects. *)
Variable Collect : bool -> OS Z.
Variable AcquireManagedSessionDeletionGuard : OS DeletionGuard.

Definition count_orphan (bytes : Z) (r : GCResult) : GCResult :=
  {| gc_StoreDir := gc_StoreDir r; gc_DryRun := gc_DryRun r; gc_Referenced := gc_Referenced r;
     gc_OrphanCount := gc_OrphanCount r + 1; gc_OrphanBytes := i64 (gc_OrphanBytes r + bytes);
     gc_RemovedCount := gc_RemovedCount r; gc_RemovedBytes := gc_RemovedBytes r;
     gc_ProjectedReclaimableBytes := gc_ProjectedReclaimableBytes r; gc_ActualReclaimedBytes := gc_ActualReclaimedBytes r |}.
Definition count_removed (bytes : Z) (r : GCResult) : GCResult :=
  {| gc_StoreDir := gc_StoreDir r; gc_DryRun := gc_DryRun r; gc_Referenced := gc_Referenced r;
     gc_OrphanCount := gc_OrphanCount r; gc_OrphanBytes := gc_OrphanBytes r;
     gc_RemovedCount := gc_RemovedCount r + 1; gc_RemovedBytes := i64 (gc_RemovedBytes r + bytes);
     gc_ProjectedReclaimableBytes := gc_ProjectedReclaimableBytes r; gc_ActualReclaimedBytes := gc_ActualReclaimedBytes r |}.
Definition empty_result (storeDir : path) (apply : bool) (referenced projected : Z) : GCResult :=
  {| gc_StoreDir := storeDir; gc_DryRun := negb apply; gc_Referenced := referenced; gc_OrphanCount := 0; gc_OrphanBytes := 0;
     gc_RemovedCount := 0; gc_RemovedBytes := 0; gc_ProjectedReclaimableBytes := projected; gc_ActualReclaimedBytes := 0 |}.
Definition reclaimed (before after : Inventory) (r : GCResult) : GCResult :=
  {| gc_StoreDir := gc_StoreDir r; gc_DryRun := gc_DryRun r; gc_Referenced := gc_Referenced r;
     gc_OrphanCount := gc_OrphanCount r; gc_OrphanBytes := gc_OrphanBytes r;
     gc_RemovedCount := gc_RemovedCount r; gc_RemovedBytes := gc_RemovedBytes r;
     gc_ProjectedReclaimableBytes := i64 (gc_ProjectedReclaimableBytes r + gc_OrphanBytes r);
     gc_ActualReclaimedBytes :=
       if inv_TotalPhysicalBytes before >? inv_TotalPhysicalBytes after
       then i64 (inv_TotalPhysicalBytes before - inv_TotalPhysicalBytes after) else gc_ActualReclaimedBytes r |}.

Definition walkLooseObjectCandidates {X} (storeDir : path) (visit : path -> FileInfo -> Walk X unit) : Walk X unit :=
  let* walked := try_ (os_WalkDir ("objects"%string :: storeDir) (fun p =>
    if negb (String.eqb (filepath_Ext (base_name p)) ".zst") then ret tt
    else
      let* info := at_disk (os_Stat p) in
      visit p info)) in
  match walked with
  | Err e => if is_NotExist e then ret tt else fail e
  | Ok _ => ret tt
  end.

Definition object_digest (p : path) : string := strings_TrimSuffix (base_name p) (filepath_Ext (base_name p)).

(** The second half of the callback: an orphan is proved again and removed. *)
Definition remove_orphan (storeDir : path) (options : GCOptions) (guard : DeletionGuard) (p : path) (digest : string)
  : Walk GCResult unit :=
  let* initialIdentity := wrap "refusing unproved loose-object GC candidate %s: %w"
    (at_disk (CaptureLooseObjectIdentity sha256 zstd_decode p digest (-1))) in
  match go_BeforeObjectRemove options with Some hook => at_disk (hook p) | None => ret tt end ;;;
  let* managed := wrap "refresh managed-session deletion proof: %w" (at_disk (dg_Refresh guard)) in
  let* (currentReferences, invalid) := at_disk (referencedManifestObjects storeDir true managed (go_Reader options)) in
  if (0 <? invalid)%nat then fail (errors_new "refusing loose-object GC with %d invalid manifest(s)")
  else if decide (digest ∈ currentReferences) then ret tt
  else
    let* finalIdentity := wrap "revalidate loose-object GC candidate %s: %w"
      (at_disk (CaptureLooseObjectIdentity sha256 zstd_decode p digest (lo_RawBytes initialIdentity))) in
    if negb (identity_Same initialIdentity finalIdentity) then
      fail (errors_new "loose-object GC candidate %s changed after exact proof")
    else
      wrap "remove orphan object %s: %w" (at_disk (os_Remove p)) ;;;
      note (count_removed (lo_StoredBytes finalIdentity)).

Definition visit_object (storeDir : path) (options : GCOptions) (guard : DeletionGuard) (referenced : gset string)
    (p : path) (info : FileInfo) : Walk GCResult unit :=
  at_disk ctx_check ;;;
  let digest := object_digest p in
  wrap "refusing noncanonical loose-object GC candidate: %w" (lift (ValidateCanonicalLooseObjectPath storeDir p digest)) ;;;
  if decide (digest ∈ referenced) then ret tt
  else
    note (count_orphan (fi_size info)) ;;;
    if go_Apply options then remove_orphan storeDir options guard p digest else ret tt.

(** With the guard, and the lock when it applies, held. *)
Definition gc_locked (storeDir : path) (options : GCOptions) (before : Inventory) (projected : Z) (guard : DeletionGuard) : OS GCResult :=
  let* (referenced, invalidManifests) := referencedManifestObjects storeDir true (dg_References guard) (go_Reader options) in
  if (0 <? invalidManifests)%nat then fail (errors_new "refusing loose-object GC with %d invalid manifest(s)")
  else
    let* (_, r) := collecting (empty_result storeDir (go_Apply options) (Z.of_nat (size referenced)) projected)
      (walkLooseObjectCandidates storeDir (visit_object storeDir options guard referenced)) in
    let* after := Scan in
    ret (reclaimed before after r).

Definition GCWithOptions (storeDir : path) (options : GCOptions) : OS GCResult :=
  let* (_, invalidManifests) := referencedManifestObjects storeDir false [] (go_Reader options) in
  if (0 <? invalidManifests)%nat then fail (errors_new "refusing GC with %d invalid manifest(s)")
  else
    let* before := Scan in
    let* projected := Collect (go_Apply options) in
    let* guard := wrap "refusing loose-object GC without complete managed-session proof: %w" AcquireManagedSessionDeletionGuard in
    defer_ (dg_Close guard) (
      if go_Apply options then
        let* objectLock := wrap "lock loose-object GC: %w" (AcquireOperationLock storeDir "objects") in
        defer_ (operation_lock_Close (Some objectLock)) (gc_locked storeDir options before projected guard)
      else gc_locked storeDir options before projected guard).
End Gc.

(** ** What collecting references reads *)

Section Reads.
Context (sha256 : bytes -> bytes) (zstd_decode : bytes -> result bytes) (json_Unmarshal : bytes -> result Manifest)
  (json_record : bytes -> result manifestRecord) (ctx : world -> Ctx).
Context (J : world -> Prop) `{TickStable J}.

Lemma keeps_ctx_check : keeps J (ctx_check ctx).
Proof. by intros w Hw. Qed.
Lemma keeps_OpenRoot p : keeps J (os_OpenRoot p).
Proof. unfold os_OpenRoot. keeps. Qed.
Lemma keeps_LoadManifestPath p : keeps J (LoadManifestPath json_Unmarshal p).
Proof. unfold LoadManifestPath. keeps. Qed.
Lemma keeps_ValidateManagedSessionReference ref : keeps J (ValidateManagedSessionReference sha256 json_record ref).
Proof.
  unfold ValidateManagedSessionReference, loadManagedManifestIdentity. keeps; apply keeps_OpenRoot.
Qed.
Lemma keeps_copy_parts c reader parts : forall hashed, keeps J (copy_parts sha256 zstd_decode c reader parts hashed).
Proof.
  revert c. induction parts as [|part parts IH]; intros c hashed; cbn [copy_parts]; keeps.
  all: unfold copy_object, store_HasObject, OpenStream, stream_copy, stream_Close; keeps.
Qed.
Lemma keeps_verifyStoredManifest reader manifest : keeps J (fun w => verifyStoredManifest sha256 zstd_decode (ctx w) reader manifest w).
Proof.
  intros w Hw. assert (keeps J (verifyStoredManifest sha256 zstd_decode (ctx w) reader manifest)) as Hk; [|by apply Hk].
  unfold verifyStoredManifest. keeps. apply keeps_copy_parts.
Qed.
Lemma keeps_CaptureLooseObjectIdentity p digest n : keeps J (CaptureLooseObjectIdentity sha256 zstd_decode p digest n).
Proof. unfold CaptureLooseObjectIdentity. keeps. Qed.
End Reads.
#[export] Hint Resolve keeps_ctx_check keeps_OpenRoot keeps_LoadManifestPath keeps_ValidateManagedSessionReference
  keeps_verifyStoredManifest keeps_CaptureLooseObjectIdentity : keeps.

(** ** The references of a manifest are collected *)

Definition manifests_root (storeDir : path) : path := "manifests"%string :: storeDir.

Section References.
Context (sha256 : bytes -> bytes) (zstd_decode : bytes -> result bytes) (json_Unmarshal : bytes -> result Manifest)
  (json_record : bytes -> result manifestRecord) (ctx : world -> Ctx).
Local Abbreviation referencedManifestObjects := (referencedManifestObjects sha256 zstd_decode json_Unmarshal json_record ctx).
Local Abbreviation visit_manifest := (visit_manifest json_Unmarshal ctx).
Local Abbreviation visit_reference := (visit_reference sha256 zstd_decode json_Unmarshal json_record ctx).

Lemma keeps_visit_manifest J `{TickStable J} collect p : keeps (fun s => J s.2) (visit_manifest collect p).
Proof. unfold Gc.visit_manifest. keeps. Qed.
Lemma keeps_visit_reference J `{TickStable J} reader ref : keeps (fun s => J s.2) (visit_reference reader ref).
Proof. unfold Gc.visit_reference. keeps; apply keeps_at_disk; eauto with keeps. Qed.
Lemma keeps_referenced J `{TickStable J} storeDir collect managed objects :
  keeps J (referencedManifestObjects storeDir collect managed objects).
Proof.
  unfold Gc.referencedManifestObjects, walkManifestPaths. keeps. apply keeps_collecting. keeps.
  - apply keeps_WalkDir; [apply _|]. intros q. keeps. by apply keeps_visit_manifest.
  - apply keeps_for_each. intros ref. by apply keeps_visit_reference.
Qed.

(** [m] has been found, or something is wrong with the manifests. *)
Definition found (m : Manifest) (r : references) : Prop := (0 < rf_invalid r)%nat \/ manifest_objects m ⊆ rf_referenced r.

Lemma found_note m f : (forall r, found m r -> found m (f r)) -> keeps (fun s : references * world => found m s.1) (note f).
Proof. intros Hf [x w] Hx. by apply Hf. Qed.
Lemma found_invalid m r : found m (count_invalid r).
Proof. left. cbn. lia. Qed.
Lemma found_visited m p r : found m r -> found m (mark_visited p r).
Proof. done. Qed.
Lemma found_parts m m' r : found m r -> found m (reference_parts m' r).
Proof. intros [?|?]; [by left|]. right. cbn. set_solver. Qed.
Lemma keeps_disk_found m {A} (c : OS A) : keeps (fun s : references * world => found m s.1) (at_disk c).
Proof. intros [x w] Hx. unfold at_disk, zoom. by destruct (c _). Qed.
Hint Resolve found_note found_invalid found_visited found_parts keeps_disk_found : keeps.
Lemma keeps_manifest_found m p : keeps (fun s : references * world => found m s.1) (visit_manifest true p).
Proof. unfold Gc.visit_manifest. keeps. Qed.
Lemma keeps_reference_found m reader ref : keeps (fun s : references * world => found m s.1) (visit_reference reader ref).
Proof. unfold Gc.visit_reference. keeps. Qed.

Lemma wp_ctx_check w Q : Q (Ok tt) w -> Q (Err ctx_canceled) w -> wp (ctx_check ctx) w Q.
Proof. unfold wp, ctx_check. by destruct (ctx w) as [[|k]|]. Qed.

Lemma visit_manifest_found m p data x w :
  file_data w p = Some data -> DecodeManifest json_Unmarshal data = Ok m ->
  wp (visit_manifest true p) (x, w) (fun r s => r = Ok tt -> found m s.1).
Proof.
  intros Hd Hm. unfold Gc.visit_manifest. rewrite wp_bind, wp_at_disk. apply wp_ctx_check; [|done].
  rewrite wp_bind, wp_try, wp_at_disk. unfold LoadManifestPath.
  rewrite wp_bind, wp_wrap. eapply wp_mono; [apply wp_ReadFile|]. intros [raw|e] w1 [_ Hr]; [|intros _; apply found_invalid].
  rewrite wp_lift. rewrite (Hr raw eq_refl) in Hd. injection Hd as ->. rewrite Hm. intros _. right. cbn. set_solver.
Qed.
Lemma visit_manifest_errors collect p x w :
  wp (visit_manifest collect p) (x, w) (fun r _ => forall e, r = Err e -> is_NotExist e = false).
Proof.
  unfold Gc.visit_manifest. rewrite wp_bind, wp_at_disk. apply wp_ctx_check; [|by intros e [= <-]].
  rewrite wp_bind, wp_try, wp_at_disk. unfold wp at 1. destruct (LoadManifestPath _ p w).1; [|done]. by destruct collect.
Qed.

Lemma wp_referenced storeDir managed objects m p data w :
  w_names w !! manifests_root storeDir = None -> reach w (manifests_root storeDir) p -> filepath_Ext (base_name p) = ".json"%string ->
  file_data w p = Some data -> DecodeManifest json_Unmarshal data = Ok m ->
  wp (referencedManifestObjects storeDir true managed objects) w (fun r w' => same_files w w' /\ forall refs n, r = Ok (refs, n) ->
    (0 < n)%nat \/ manifest_objects m ⊆ refs).
Proof.
  intros Hn Hr He Hd Hm. apply (wp_conj _ _ (fun _ w' => same_files w w')).
  { apply (wp_kept (same_files w)); [apply keeps_referenced, _|apply same_files_refl]. }
  unfold Gc.referencedManifestObjects. rewrite wp_bind. apply wp_collecting. unfold walkManifestPaths. rewrite wp_bind, wp_bind, wp_try.
  eapply wp_mono; [apply (wp_WalkDir _ w (found m) p); [..|done|done|apply same_files_refl]|].
  - intros q. keeps. apply keeps_visit_manifest, _.
  - intros q [x w1] [Hw1 Hx]. split.
    + assert (keeps (fun s : references * world => same_files w s.2) (visit_manifest true q)) as Hk by apply keeps_visit_manifest, _.
      destruct (negb _); [done|]. exact (Hk (x, w1) Hw1).
    + destruct (negb _); [done|]. exact (keeps_manifest_found m q (x, w1) Hx).
  - intros x w1 Hw1. rewrite He. cbn [negb String.eqb Ascii.eqb Bool.eqb]. eapply visit_manifest_found; [|done..].
    by rewrite (same_files_data _ _ _ Hw1).
  - intros q x w1 Hw1 _. destruct (negb _); [done|]. apply visit_manifest_errors.
  - intros [[]|e] [x w1] [Hw1 Hx]; cbn [fst snd] in *; [|by rewrite Hx].
    rewrite wp_ret. cbn [negb]. eapply wp_mono; [apply (wp_kept (fun s => found m s.1)); [|exact Hx]|].
    { apply keeps_for_each. intros ref. apply keeps_reference_found. }
    intros [[]|e] [x2 w2] Hx2; [|done]. cbn. by intros refs n [= <- <-].
Qed.
End References.

(** ** What collection removes *)

Lemma wp_try_any {S A B} (m : M S A) (k : result A -> M S B) s (Q : result B -> Prop) :
  (forall a s', wp (k a) s' (fun r _ => Q r)) -> wp (bind (try_ m) k) s (fun r _ => Q r).
Proof. intros Hk. rewrite wp_bind, wp_try. unfold wp at 1. apply Hk. Qed.

Lemma wp_Capture sha256 zstd_decode p digest n w : wp (CaptureLooseObjectIdentity sha256 zstd_decode p digest n) w
  (fun r w' => same_files w w' /\ forall id, r = Ok id -> exists c raw, file_data w p = Some c
    /\ zstd_decode c = Ok raw /\ digest_of sha256 raw = digest).
Proof.
  apply wp_conj; [apply (wp_kept (same_files w)); [apply keeps_CaptureLooseObjectIdentity, _|apply same_files_refl]|].
  unfold CaptureLooseObjectIdentity. destruct (_ || _); [done|].
  rewrite wp_bind. eapply wp_mono; [apply (wp_kept (same_files w)); [apply keeps_Stat, _|apply same_files_refl]|].
  intros [before|e] w1 Hs1; [|done]. destruct (negb (fi_regular before)); [done|].
  rewrite wp_bind. eapply wp_mono; [apply wp_Open|]. intros [f|e] w2 [Hs2 Hf]; [|done]. destruct (Hf f eq_refl) as (Hn & Hp & _).
  rewrite wp_bind, wp_try. eapply wp_mono; [apply (wp_kept (same_files w2)); [apply keeps_file_Stat, _|apply same_files_refl]|].
  intros [opened|e] w3 Hs3; [|done]. destruct (negb (fi_regular opened) || _); [done|].
  rewrite wp_bind, wp_try, wp_bind. eapply wp_mono; [apply wp_ReadAll|]. intros [c|e] w4 [Hs4 Hr].
  - destruct (Hr c eq_refl) as (i & Hi & ->). rewrite wp_lift.
    assert (file_data w p = Some (i_data i)) as Hd.
    { rewrite <- (same_files_data _ _ _ Hs1). unfold file_data, inode_of. rewrite Hn. cbn.
      destruct Hs2 as (_ & E2 & _), Hs3 as (_ & E3 & _). by rewrite <- E2, <- E3, Hi. }
    rewrite Hp, zdrop_0 by done. set (copied := zstd_decode (i_data i)). assert (zstd_decode (i_data i) = copied) as Hz by done. clearbody copied.
    do 3 (apply wp_try_any; intros ? ?). destruct (errors_join _); [done|]. destruct copied as [raw|e]; [|done].
    case_match; [|done]. case_match; [|done]. destruct (_ || _); [done|]. destruct (_ && _); [done|].
    destruct (string_is _ _) eqn:Eq; cbn [negb]; [|done]. apply bool_decide_eq_true_1 in Eq. intros id _. by exists (i_data i), raw.
  - do 3 (apply wp_try_any; intros ? ?). by destruct (errors_join _).
Qed.

(** Code that may change the files of [ext], and leaves the manifest directory one. *)
Definition quiet (ext : path -> Prop) (root : path) {A} (m : OS A) : Prop := forall w, world_wf w -> w_names w !! root = None ->
  wp m w (fun _ w' => away ext w w' /\ w_names w' !! root = None).

Section GcLaws.
Context (sha256 : bytes -> bytes) (zstd_decode : bytes -> result bytes) (json_Unmarshal : bytes -> result Manifest)
  (json_record : bytes -> result manifestRecord) (ctx : world -> Ctx)
  (Scan : OS Inventory) (Collect : bool -> OS Z) (Acquire : OS DeletionGuard)
  (ext : path -> Prop) (storeDir : path) (options : GCOptions) (w0 : world) (pm : path) (data : bytes) (m : Manifest).
Context `{forall q, Decision (ext q)}.
Local Abbreviation root := (manifests_root storeDir).
Hypothesis Scan_quiet : quiet ext root Scan.
Hypothesis Collect_quiet : forall apply, quiet ext root (Collect apply).
Hypothesis Acquire_quiet : quiet ext root Acquire.
Hypothesis guard_quiet : forall w guard, (Acquire w).1 = Ok guard -> quiet ext root (dg_Refresh guard) /\ quiet ext root (dg_Close guard).
Hypothesis hook_quiet : forall hook p, go_BeforeObjectRemove options = Some hook -> quiet ext root (hook p).
Hypothesis Hw0 : world_wf w0.
Hypothesis Hsingle : forall q r n, w_names w0 !! q = Some n -> w_names w0 !! r = Some n -> q = r.
Hypothesis Hroot : w_names w0 !! root = None.
Hypothesis Hreach : reach w0 root pm.
Hypothesis Hext : filepath_Ext (base_name pm) = ".json"%string.
Hypothesis Hdata : file_data w0 pm = Some data.
Hypothesis Hdecode : DecodeManifest json_Unmarshal data = Ok m.
Hypothesis Hpm : ~ ext pm.

(** An object that [m] does not refer to, and whose name is its digest. *)
Definition orphan (q : path) : Prop := go_Apply options = true /\ exists digest, q = object_path storeDir digest
  /\ digest ∉ manifest_objects m /\ forall c, file_data w0 q = Some c -> exists raw, zstd_decode c = Ok raw /\ digest_of sha256 raw = digest.
Definition may_go (q : path) : Prop := ext q \/ orphan q.
Definition steady (w : world) : Prop := away may_go w0 w /\ w_names w !! root = None.

#[local] Instance steady_stable : TickStable steady.
Proof. intros w fs [Ha Hn]. split; [by apply (tick_stable (P := away may_go w0))|done]. Qed.
Lemma keeps_quiet {A} (c : OS A) : quiet ext root c -> keeps steady c.
Proof.
  intros Hq w [Ha Hn]. destruct (Hq w (aw_wf _ _ _ Ha) Hn) as [Ha' Hn']. split; [|done].
  eapply away_trans; [done|exact Ha|]. eapply away_mono; [|exact Ha']. by left.
Qed.
Lemma steady_start : steady w0.
Proof. split; [by apply away_refl|done]. Qed.

Lemma manifest_stays : ~ may_go pm.
Proof.
  intros [?|(_ & digest & Hq & _)]; [done|].
  assert (forall dir p, reach w0 dir p -> dir `suffix_of` p) as Hs.
  { induction 1 as [dir name|dir name p _ _ [l ->]]; [by exists [name]|]. exists (l ++ [name]). by rewrite <- app_assoc. }
  specialize (Hs _ _ Hreach) as [l Hl]. rewrite Hq in Hl. unfold object_path in Hl.
  change (_ ++ storeDir) with ([String.append digest ".zst"; if 2 <=? Z.of_nat (String.length digest) then String.substring 0 2 digest else "invalid"%string] ++ ("objects"%string :: storeDir)) in Hl.
  apply app_inj_2 in Hl as [_ [=]]. done.
Qed.
Lemma steady_file q c w : steady w -> ~ may_go q -> file_data w0 q = Some c -> file_data w q = Some c.
Proof.
  intros [Ha _] Hq. apply (apart_file_data may_go); auto. intros r n Hr Hn Hqn. by rewrite (Hsingle _ _ _ Hn Hqn) in Hr.
Qed.
Lemma steady_reach w : steady w -> reach w root pm.
Proof.
  intros [Ha _]. apply (reach_same w0); [apply (aw_dirs _ _ _ Ha)| |done]. intros [n Hn]. exists n.
  apply (aw_names _ _ _ Ha); [apply manifest_stays|done].
Qed.

Local Abbreviation refs_of := (referencedManifestObjects sha256 zstd_decode json_Unmarshal json_record ctx storeDir true).
Lemma wp_refs managed objects w : steady w -> wp (refs_of managed objects) w (fun r w' => steady w' /\ forall refs n, r = Ok (refs, n) ->
  (0 < n)%nat \/ manifest_objects m ⊆ refs).
Proof.
  intros Hs. apply wp_conj; [apply (wp_kept steady); [apply keeps_referenced, _|done]|].
  eapply wp_mono; [apply (wp_referenced _ _ _ _ _ _ _ _ m pm data); [apply Hs|by apply steady_reach|done| |done]|by intros r w' [_ ?]].
  apply steady_file; [done|apply manifest_stays|done].
Qed.

Lemma orphan_proved w digest c raw : steady w -> go_Apply options = true -> digest ∉ manifest_objects m ->
  file_data w (object_path storeDir digest) = Some c -> zstd_decode c = Ok raw -> digest_of sha256 raw = digest ->
  may_go (object_path storeDir digest).
Proof.
  intros Hs Hap Hd Hc Hz Hdg. destruct (decide (ext (object_path storeDir digest))) as [|Hne]; [by left|]. right. split; [done|].
  exists digest. split_and!; [done..|]. intros c0 Hc0.
  destruct (zstd_decode c0) as [raw0|e0] eqn:E0; [destruct (decide (digest_of sha256 raw0 = digest)) as [|Hbad]; [by exists raw0|]|].
  all: exfalso; assert (file_data w (object_path storeDir digest) = Some c0) as Hcc; [|congruence].
  all: apply steady_file; [done| |done]; intros [?|(_ & d & Hq & _ & Hall)]; [done|]; destruct (Hall _ Hc0) as (raw1 & Hz1 & Hd1).
  all: unfold object_path in Hq; injection Hq as Hq _; apply suffix_inj in Hq; congruence.
Qed.

Local Abbreviation remove_orphan := (remove_orphan sha256 zstd_decode json_Unmarshal json_record ctx storeDir options).
Local Abbreviation visit_object := (visit_object sha256 zstd_decode json_Unmarshal json_record ctx storeDir options).

Lemma keeps_steady_Remove p : may_go p -> keeps steady (os_Remove p).
Proof.
  intros Hp w [Ha Hn]. split; [apply (keeps_away_Remove may_go w0 p); [by left|done]|].
  apply (wp_syscall (A := unit) _ w (fun _ w' => w_names w' !! root = None)); intros fs; [done|]. unfold wp. cbn.
  destruct (w_names w !! p); [|done]. cbn. by rewrite lookup_delete_None; right.
Qed.

Lemma keeps_remove_orphan guard p digest : quiet ext root (dg_Refresh guard) -> go_Apply options = true ->
  p = object_path storeDir digest -> keeps (fun s => steady s.2) (remove_orphan guard p digest).
Proof.
  intros Hg Hap ->. unfold Gc.remove_orphan. apply keeps_bind; [keeps; apply keeps_at_disk; eauto with keeps|]. intros initial.
  apply keeps_bind; [destruct (go_BeforeObjectRemove options) as [hook|] eqn:Eh; [apply keeps_at_disk, keeps_quiet; by eapply hook_quiet|keeps]|]. intros [].
  apply keeps_bind; [apply keeps_wrap, keeps_at_disk, keeps_quiet, Hg|]. intros managed [x w] Hs. cbn [snd] in Hs.
  eapply (wp_bind _ _ _ (fun _ s => steady s.2)). rewrite wp_at_disk. eapply wp_mono; [by apply wp_refs|].
  intros [[refs n]|e] w1 [Hs1 Hr]; [|done]. specialize (Hr _ _ eq_refl). destruct (0 <? n)%nat eqn:En; [done|].
  apply Nat.ltb_ge in En. destruct Hr as [?|Hr]; [lia|]. case_decide as Hd; [done|].
  rewrite wp_bind, wp_wrap, wp_at_disk. eapply wp_mono; [apply wp_conj; [apply wp_Capture|apply (wp_kept steady); [|exact Hs1]]|].
  { apply keeps_CaptureLooseObjectIdentity, _. }
  intros [final|e] w2 [[_ Hc] Hs2]; [|done]. destruct (negb _); [done|]. destruct (Hc _ eq_refl) as (c & raw & Hfd & Hz & Hdg).
  rewrite wp_bind, wp_wrap, wp_at_disk. eapply wp_mono; [apply (wp_kept steady); [apply keeps_steady_Remove|exact Hs2]|by intros [[]|e] w3 Hs3].
  eapply (orphan_proved w1); [done..| |exact Hfd|done|done]. set_solver.
Qed.

Lemma keeps_visit_object guard referenced p info : quiet ext root (dg_Refresh guard) ->
  keeps (fun s => steady s.2) (visit_object guard referenced p info).
Proof.
  intros Hg. unfold Gc.visit_object. apply keeps_bind; [apply keeps_at_disk, keeps_ctx_check|]. intros [].
  destruct (ValidateCanonicalLooseObjectPath storeDir p (object_digest p)) as [[]|e] eqn:Ev; [|by intros [x w] Hs].
  apply keeps_bind; [keeps|]. intros []. case_decide; [keeps|]. apply keeps_bind; [apply keeps_note|]. intros [].
  destruct (go_Apply options) eqn:Eap; [|keeps]. unfold ValidateCanonicalLooseObjectPath in Ev.
  destruct (negb (is_sha256_hex _)); [done|]. destruct (path_eqb p _) eqn:Ep; [|done]. apply bool_decide_eq_true_1 in Ep. by apply keeps_remove_orphan.
Qed.

Lemma keeps_gc_locked before projected guard : quiet ext root (dg_Refresh guard) ->
  keeps steady (gc_locked sha256 zstd_decode json_Unmarshal json_record ctx Scan storeDir options before projected guard).
Proof.
  intros Hg. unfold gc_locked. keeps; [apply keeps_referenced, _| |by apply keeps_quiet].
  apply keeps_collecting. unfold walkLooseObjectCandidates. keeps. apply keeps_WalkDir; [apply _|]. intros q. keeps.
  by apply keeps_visit_object.
Qed.

Lemma keeps_rootless {A} (c : OS A) : keeps (away may_go w0) (syscall c) ->
  (forall w, w_names w !! root = None -> w_names (c w).2 !! root = None) -> keeps steady (syscall c).
Proof.
  intros Ha Hc w [Hw Hn]. split; [by apply Ha|].
  apply (wp_syscall c w (fun _ w' => w_names w' !! root = None)); intros fs; [done|]. by apply Hc.
Qed.
Lemma keeps_lock : keeps steady (AcquireOperationLock storeDir "objects").
Proof.
  unfold AcquireOperationLock, open_operation_lock, tryLockLease, unlockLease. keeps;
    (apply keeps_rootless; [eauto with keeps|intros w Hn; cbn]).
  - done.
  - by repeat case_decide.
  - apply (keeps_away_Create may_go w0 _ false false).
  - case_match; [done|]. case_decide; cbn; [|done]. rewrite lookup_insert_ne; [done|]. unfold manifests_root. intros [=].
  - by case_decide.
  - done.
  - done.
Qed.
Lemma keeps_unlock f : keeps steady (operation_lock_Close (Some f)).
Proof.
  unfold operation_lock_Close, guard_Close, unlockLease. keeps. by apply keeps_rootless; [eauto with keeps|].
Qed.

Lemma keeps_GC : keeps steady (GCWithOptions sha256 zstd_decode json_Unmarshal json_record ctx Scan Collect Acquire storeDir options).
Proof.
  unfold GCWithOptions. apply keeps_bind; [apply keeps_referenced, _|]. intros [refs n]. destruct (0 <? n)%nat; [keeps|].
  apply keeps_bind; [by apply keeps_quiet|]. intros before. apply keeps_bind; [by apply keeps_quiet|]. intros projected w Hw.
  assert (steady (Acquire w).2) as Ha by (by apply (keeps_quiet Acquire)).
  assert (forall guard, (Acquire w).1 = Ok guard -> quiet ext root (dg_Refresh guard) /\ quiet ext root (dg_Close guard)) as Hg by apply guard_quiet.
  unfold bind, wrap. destruct (Acquire w) as [[guard|e] w1]; [|done]. destruct (Hg guard eq_refl) as [H1 H2]. cbn [snd] in Ha.
  assert (keeps steady (gc_locked sha256 zstd_decode json_Unmarshal json_record ctx Scan storeDir options before projected guard)) as Hl
    by by apply keeps_gc_locked.
  clear Hg; revert w1 Ha. apply keeps_defer; [by apply keeps_quiet|]. destruct (go_Apply options); [|done].
  apply keeps_bind; [apply keeps_wrap, keeps_lock|]. intros lock. apply keeps_defer; [apply keeps_unlock|done].
Qed.
End GcLaws.


(** ** A store with one object in use and one orphan *)

Definition gc_store : path := ["store"%string].
Definition gc_digest (k : Z) : string := hex_EncodeToString (le_bytes 32 k).
Definition gc_manifest : Manifest :=
  {| mf_Version := 1; mf_Kind := ManifestKind; mf_CreatedAt := "";
     mf_Session := {| ms_ID := "s"; ms_Title := ""; ms_CWD := ""; ms_RolloutPath := ""; ms_Archived := false |};
     mf_Source := {| src_Bytes := 1; src_SHA256 := gc_digest 7 |};
     mf_Settings := {| FieldThreshold := 0; MaxJSONLineBytes := 0; CDCMinBytes := 0; CDCAverageBytes := 0;
                       CDCMaxBytes := 0; Compression := ""; RecordThreshold := 0 |};
     mf_Parts := [{| p_Kind := PartResidual; p_JSONPath := "";
                     p_Object := {| SHA256 := gc_digest 7; RawBytes := 1; StoredBytes := 2 |} |}] |}.
Definition gc_manifest_path : path := ["s.json"; "manifests"; "store"]%string.
Definition gc_world : world :=
  {| w_names := {[ gc_manifest_path := 0%nat; object_path gc_store (gc_digest 7) := 1%nat; object_path gc_store (gc_digest 8) := 2%nat ]};
     w_inodes := {[ 0%nat := {| i_data := [Byte.x7b]; i_mtime := 0; i_synced := true |};
                    1%nat := {| i_data := [Byte.x01; Byte.x07]; i_mtime := 0; i_synced := true |};
                    2%nat := {| i_data := [Byte.x01; Byte.x08]; i_mtime := 0; i_synced := true |} ]};
     w_dirs := list_to_set (ancestors ["manifests"; "store"]%string ++ ancestors ["07"; "objects"; "store"]%string
                            ++ ancestors ["08"; "objects"; "store"]%string);
     w_durable := ∅; w_next := 3; w_clock := 0; w_faults := []; w_locked := ∅ |}.
Definition gc_sha (d : bytes) : bytes := le_bytes 32 (le_val d).
Definition gc_guard : DeletionGuard := {| dg_References := []; dg_Refresh := ret []; dg_Close := ret tt |}.
Definition sample_gc : result GCResult * world :=
  GCWithOptions gc_sha toy_decode (fun _ => Ok gc_manifest) (fun _ => Err os_ErrIO) (fun _ => None)
    (ret no_inventory) (fun _ => ret 0) (ret gc_guard) gc_store
    {| go_Apply := true; go_BeforeObjectRemove := None; go_Reader := None |} gc_world.

Lemma quiet_ret {A} ext root (a : A) : quiet ext root (ret a).
Proof. intros w Hw Hn. split; [by apply away_refl|done]. Qed.
Lemma gc_world_names q n : w_names gc_world !! q = Some n ->
  q = gc_manifest_path /\ n = 0%nat \/ q = object_path gc_store (gc_digest 7) /\ n = 1%nat \/ q = object_path gc_store (gc_digest 8) /\ n = 2%nat.
Proof.
  simpl. intros [[<- <-]|[_ [[<- <-]|[_ [<- <-]%lookup_singleton_Some]]%lookup_insert_Some]]%lookup_insert_Some; auto.
Qed.
Lemma gc_world_wf : world_wf gc_world.
Proof.
  split.
  - intros p n [[_ ->]|[[_ ->]|[_ ->]]]%gc_world_names; by eexists.
  - simpl. intros n [i [[<- _]|[_ [[<- _]|[_ [<- _]%lookup_singleton_Some]]%lookup_insert_Some]]%lookup_insert_Some]; lia.
Qed.

