(* ===== verification/Foreground.v ===== *)
(** Background work that yields to the user: [src/internal/storage/foreground.go].

    A maintenance operation registers a lease; a foreground open that finds it busy
    leaves a request file beside every lease that is really held, and the watcher of
    the operation then cancels its context.  When that happens is up to the
    environment: the derived context is an argument of [BeginMaintenance], and whether
    the cause of a cancellation was a request is an argument of [YieldError]. *)
From S2P Require Import Prelude GoStd Effects ObjectReader Os Budget Mutation Lease.

Definition errForegroundAccess : error := Sentinel "maintenance yielded to foreground access".
Definition ErrManagedSessionBusy : error := Sentinel "managed session is busy".

Record Maintenance := { m_ctx : Ctx; m_lease : Lease; m_request : path }.

Definition maintenanceDirectory (store : path) : path := "maintenance"%string :: "fs"%string :: store.
(** [path + ".yield"] *)
Definition yield_path (p : path) : path :=
  match p with [] => [".yield"%string] | name :: d => String.append name ".yield" :: d end.

Section Foreground.
Variable pid : string.
Variable reserve_roots : list path.

Definition BeginMaintenance (ctx watched : Ctx) (store : path) (random random2 : string) : OS Maintenance :=
  throw (ctx_Err ctx).1 ;;;
  let directory := maintenanceDirectory store in
  os_MkdirAll (filepath_Dir directory) ;;;
  let* lease := AcquireLease pid reserve_roots directory "maintenance" random random2 in
  ret {| m_ctx := watched; m_lease := lease; m_request := yield_path (l_path lease) |}.

Definition YieldError {A} (yielded : bool) (r : result A) : result A :=
  match r with
  | Err e => if yielded then Err (Errorf "%w: %w" [ErrManagedSessionBusy; errForegroundAccess]) else Err e
  | Ok a => Ok a
  end.

Definition maintenance_Close (m : Maintenance) : OS unit :=
  let* closeErr := error_of (lease_Close (Some (m_lease m))) in
  let* removeErr := error_of (os_Remove (m_request m)) in
  throw (errors_join [closeErr; match removeErr with Some e => if is_NotExist e then None else Some e | None => None end]).
End Foreground.

Definition has_suffix (suffix s : string) : bool := bool_decide (chars suffix `suffix_of` chars s).

(** The loop of [RequestForegroundAccess]: whether a request was left, and the error. *)
Fixpoint request_loop (directory : path) (entries : list string) (requested : bool) : OS (bool * option error) :=
  match entries with
  | [] => ret (requested, None)
  | name :: entries =>
      if negb (String.prefix ".lease-maintenance-" name) || has_suffix ".yield" name then request_loop directory entries requested
      else
        let p := name :: directory in
        let* info := try_ (os_Stat p) in
        match info with
        | Err e => if is_NotExist e then request_loop directory entries requested else ret (requested, Some e)
        | Ok info =>
            if negb (fi_regular info) then request_loop directory entries requested
            else
              let* active := try_ (FileHasActiveLock p) in
              match active with
              | Err e => ret (requested, Some e)
              | Ok false => request_loop directory entries requested
              | Ok true =>
                  let* request := try_ (os_Create (yield_path p) true false) in
                  match request with
                  | Err e =>
                      if is_Exist e then
                        let* info := try_ (os_Stat (yield_path p)) in
                        request_loop directory entries
                          (match info with Ok info => if fi_regular info then true else requested | Err _ => requested end)
                      else ret (requested, Some e)
                  | Ok request =>
                      let* closed := error_of (file_Close request) in
                      match closed with
                      | Some e => ret (requested, Some e)
                      | None => request_loop directory entries true
                      end
                  end
              end
        end
  end.

Definition RequestForegroundAccess (store : path) : OS (bool * option error) :=
  let directory := maintenanceDirectory store in
  let* entries := try_ (os_ReadDir directory) in
  match entries with
  | Err e => if is_NotExist e then ret (false, None) else ret (false, Some e)
  | Ok entries => request_loop directory entries false
  end.

(** ** Only live owners are asked *)

(** Nothing but request files beside held leases has been added since [w0]. *)
Record asked (directory : path) (w0 w : world) : Prop := {
  as_inodes : forall n i, w_inodes w0 !! n = Some i -> w_inodes w !! n = Some i;
  as_kept : forall q n, w_names w0 !! q = Some n -> w_names w !! q = Some n;
  as_new : forall q n, w_names w !! q = Some n -> w_names w0 !! q = Some n
    \/ exists name k, q = yield_path (name :: directory) /\ String.prefix ".lease-maintenance-" name = true
         /\ w_names w0 !! (name :: directory) = Some k /\ k ∈ w_locked w0;
}.

Lemma asked_refl directory w : asked directory w w.
Proof. split; auto. Qed.
Lemma asked_same directory w0 w w' : asked directory w0 w -> w_names w' = w_names w -> w_inodes w' = w_inodes w -> asked directory w0 w'.
Proof. intros [a b c] En Ei. split; rewrite ?En, ?Ei; auto. Qed.

Lemma chars_append a b : chars (String.append a b) = chars a ++ chars b.
Proof. induction a as [|c a IH]; [done|]. change (c :: chars (String.append a b) = c :: (chars a ++ chars b)). by f_equal. Qed.
Lemma has_suffix_append a b : has_suffix b (String.append a b) = true.
Proof. unfold has_suffix. apply bool_decide_eq_true. rewrite chars_append. by exists (chars a). Qed.

(** A probe leaves everything as it was, and finds a lock that was there. *)
Lemma wp_FileHasActiveLock p w :
  wp (FileHasActiveLock p) w (fun r w' => w_names w' = w_names w /\ w_inodes w' = w_inodes w /\ w_next w' = w_next w
    /\ forall b, r = Ok b -> w_locked w' = w_locked w /\ (b = true -> exists n, w_names w !! p = Some n /\ n ∈ w_locked w)).
Proof.
  set (fixed := fun w' => w_names w' = w_names w /\ w_inodes w' = w_inodes w /\ w_next w' = w_next w).
  set (settled := fun w' => fixed w' /\ w_locked w' = w_locked w).
  assert (TickStable fixed) as Hf by (intros w' fs H; exact H). assert (TickStable settled) as Hs by (intros w' fs H; exact H).
  unfold FileHasActiveLock, lease_file_active. rewrite wp_bind, wp_bind, wp_try.
  eapply wp_mono; [apply (wp_conj _ _ (fun _ w' => settled w') (fun r w' => forall f, r = Ok f -> w_names w !! p = Some (f_ino f)))|].
  { apply (wp_kept settled); [apply keeps_OpenFile, _|done]. }
  { apply wp_syscall; intros fs; [done|]. unfold wp. cbn. destruct (w_names w !! p); [by intros f [= <-]|done]. }
  intros [f|e] w1 [Hs1 Hn].
  2: { destruct (is_NotExist e); [rewrite wp_ret, wp_ret|]; split_and!; try apply Hs1; [|done]. intros b [= <-]. split; [apply Hs1|done]. }
  specialize (Hn f eq_refl). destruct Hs1 as [Hf1 Hl1]. rewrite wp_bind, wp_or_else.
  unfold tryLockLease, flock_try. apply wp_syscall; intros fs.
  { eapply wp_mono; [apply (wp_kept fixed); [apply keeps_Close, _|done]|]. intros r w2 Hw2. split_and!; try apply Hw2. done. }
  unfold wp at 1. cbn [tick w_locked]. case_decide as Hin; cbn [fst snd negb].
  - rewrite wp_bind, wp_ignore. eapply wp_mono; [apply (wp_kept settled); [apply keeps_Close, _|done]|]. intros r2 w2 Hw2.
    rewrite wp_ret, wp_ret. split_and!; try apply Hw2. intros b [= <-]. split; [apply Hw2|]. intros _. exists (f_ino f). by rewrite <- Hl1.
  - set (w2 := set_locked _ _). assert (fixed w2) as Hf2 by done.
    rewrite wp_bind, wp_error_of. eapply wp_mono with (P := fun r w' => fixed w' /\ (is_ok r = true -> w_locked w' = w_locked w)).
    { unfold unlockLease, flock_release. apply wp_syscall; intros fs2; [done|]. unfold wp. cbn. split; [done|]. intros _. rewrite <- Hl1. set_solver. }
    intros unlocked w3 [Hf3 Hl3]. rewrite wp_bind, wp_error_of.
    eapply wp_mono with (P := fun r w' => fixed w' /\ (is_ok unlocked = true -> w_locked w' = w_locked w)).
    { apply (wp_kept (fun w' => fixed w' /\ (is_ok unlocked = true -> w_locked w' = w_locked w))); [apply keeps_Close; by intros w' fs2 H|done]. }
    intros closed w4 [Hf4 Hl4]. rewrite wp_bind, wp_throw.
    destruct unlocked as [u|e]; [|destruct closed; (split_and!; [apply Hf4..|done])].
    destruct closed as [u2|e]; [|split_and!; [apply Hf4..|done]]. unfold wp; cbn. split_and!; try apply Hf4.
    intros b [= <-]. split; [by apply Hl4|done].
Qed.

Lemma wp_request_loop directory w0 entries : forall requested w,
  asked directory w0 w -> w_locked w = w_locked w0 -> (forall n, is_Some (w_inodes w !! n) -> (n < w_next w)%nat) ->
  wp (request_loop directory entries requested) w (fun _ w' => asked directory w0 w').
Proof.
  induction entries as [|name entries IH]; intros requested w Ha Hl Hw; cbn [request_loop]; [done|].
  destruct (negb (String.prefix ".lease-maintenance-" name) || has_suffix ".yield" name) eqn:Ename; [by apply IH|].
  apply orb_false_iff in Ename as [Hpre%negb_false_iff Hsuf].
  rewrite wp_bind, wp_try. eapply wp_mono; [apply (wp_kept (same_files w)); [apply keeps_Stat, _|done]|].
  intros info w1 Hs1. assert (asked directory w0 w1) as Ha1 by (eapply asked_same; [done|apply Hs1..]).
  assert (w_locked w1 = w_locked w0) as Hl1 by (rewrite <- Hl; apply Hs1).
  assert (forall n, is_Some (w_inodes w1 !! n) -> (n < w_next w1)%nat) as Hw1.
  { destruct Hs1 as (_ & -> & _ & _ & -> & _). done. }
  destruct info as [info|e]; [|by destruct (is_NotExist e); [apply IH|]].
  destruct (fi_regular info); cbn [negb]; [|by apply IH].
  rewrite wp_bind, wp_try. eapply wp_mono; [apply wp_FileHasActiveLock|]. intros active w2 (En2 & Ei2 & Ex2 & Hact).
  assert (asked directory w0 w2) as Ha2 by (eapply asked_same; [exact Ha1|done|done]).
  destruct active as [active|e]; [|done]. destruct (Hact active eq_refl) as [Hl2 Hheld]. rewrite Hl1 in Hl2.
  assert (forall n, is_Some (w_inodes w2 !! n) -> (n < w_next w2)%nat) as Hw2 by (by rewrite Ei2, Ex2).
  destruct active; [|by apply IH]. destruct (Hheld eq_refl) as (k & Hk & Hin).
  assert (w_names w0 !! (name :: directory) = Some k) as Hk0.
  { destruct (as_new _ _ _ Ha1 _ _ Hk) as [?|(name' & k' & Heq & _)]; [done|]. cbn in Heq. injection Heq as ->.
    by rewrite has_suffix_append in Hsuf. }
  rewrite wp_bind, wp_try. eapply wp_mono with (P := fun _ w' => asked directory w0 w' /\ w_locked w' = w_locked w0
    /\ forall n, is_Some (w_inodes w' !! n) -> (n < w_next w')%nat).
  { assert (forall fs, asked directory w0 (tick w2 fs)) as Ht by (intros fs; by eapply asked_same).
    apply wp_syscall; intros fs; [done|]. unfold wp. cbn [tick w_names w_dirs w_next].
    destruct (w_names w2 !! yield_path (name :: directory)) as [m|] eqn:Ey; [split_and!; [apply Ht|done|done]|].
    case_decide; [|split_and!; [apply Ht|done|done]]. cbn [fst snd].
    split_and!; [|done|].
    - destruct Ha2 as [a b c]. split; cbn.
      + intros n i Hi. rewrite lookup_insert_ne; [auto|]. intros <-. assert (w_next w2 < w_next w2)%nat; [|lia]. apply Hw2. eauto.
      + intros q n Hq. rewrite lookup_insert_ne; [auto|]. intros <-. specialize (b _ _ Hq). cbn [yield_path] in Ey. congruence.
      + intros q n [[<- <-]|[_ Hq]]%lookup_insert_Some; [|auto]. right. exists name, k. rewrite <- Hl1. by split_and!.
    - cbn. intros n [i [[<- _]|[_ Hi]]%lookup_insert_Some]; [lia|]. specialize (Hw2 n ltac:(eauto)). lia. }
  intros request w3 (Ha3 & Hl3 & Hw3). assert (forall w', same_files w3 w' -> asked directory w0 w' /\ w_locked w' = w_locked w0
    /\ forall n, is_Some (w_inodes w' !! n) -> (n < w_next w')%nat) as Hsame.
  { intros w' (E1 & E2 & _ & _ & E5 & E6). split_and!; [by eapply asked_same|congruence|by rewrite E2, E5]. }
  destruct request as [request|e].
  - rewrite wp_bind, wp_error_of. eapply wp_mono; [apply (wp_kept (same_files w3)); [apply keeps_Close, _|done]|].
    intros closed w4 (Ha4 & Hl4 & Hw4)%Hsame. destruct closed; [by apply IH|done].
  - destruct (is_Exist e); [|done]. rewrite wp_bind, wp_try. eapply wp_mono; [apply (wp_kept (same_files w3)); [apply keeps_Stat, _|done]|].
    intros i2 w4 (Ha4 & Hl4 & Hw4)%Hsame. by apply IH.
Qed.

(** Only live owners are asked to yield.  Whatever fails, [RequestForegroundAccess]
    changes no file; every file it adds is the request beside a maintenance lease that
    was locked by its owner when it was called. *)
Theorem yield_only_live store w :
  world_wf w -> wp (RequestForegroundAccess store) w (fun _ w' => asked (maintenanceDirectory store) w w').
Proof.
  intros Hw. unfold RequestForegroundAccess. rewrite wp_bind, wp_try.
  eapply wp_mono; [apply (wp_kept (same_files w)); [apply keeps_ReadDir, _|done]|]. intros entries w1 Hs1.
  assert (asked (maintenanceDirectory store) w w1) as Ha1 by (eapply asked_same; [apply asked_refl|apply Hs1..]).
  destruct entries as [entries|e]; [|by destruct (is_NotExist e)]. apply wp_request_loop; [done|apply Hs1|].
  destruct Hs1 as (_ & -> & _ & _ & -> & _). apply (wf_next _ Hw).
Qed.

Definition sample_lease_path : path := ".lease-maintenance-7-00"%string :: maintenanceDirectory ["store"%string].
Definition sample_busy : world :=
  {| w_names := {[sample_lease_path := 0%nat]}; w_inodes := {[0%nat := {| i_data := []; i_mtime := 0; i_synced := true |}]};
     w_dirs := {[maintenanceDirectory ["store"%string]]}; w_durable := ∅; w_next := 1; w_clock := 0; w_faults := []; w_locked := {[0%nat]} |}.
Lemma yield_only_live_witness :
  let r := RequestForegroundAccess ["store"%string] sample_busy in
  r.1 = Ok (true, None) /\ is_Some (w_names r.2 !! yield_path sample_lease_path) /\ asked (maintenanceDirectory ["store"%string]) sample_busy r.2.
Proof.
  split; [vm_compute; reflexivity|]. split; [vm_compute; eexists; reflexivity|].
  apply (yield_only_live ["store"%string] sample_busy). split.
  - intros q n Hq. cbn in Hq. apply lookup_singleton_Some in Hq as [_ <-]. cbn. rewrite lookup_singleton_eq. eexists. reflexivity.
  - intros n [i Hi]. cbn in Hi. apply lookup_singleton_Some in Hi as [<- _]. cbn. lia.
Defined.
