(* ===== verification/Session.v ===== *)
(** Virtual sessions: data and readers ([internal/vfs]: [session.go],
    [handles.go], [journal.go] and the data of [state.go]).

    A session shows one file.  Its bytes are the folded base (a [View]) followed
    by a delta file that appends go to, or, once a random write or a truncation
    has forced a copy, a native backing file.  A [ReadHandle] fixes what it shows
    when it is opened.  Publication and checkpointing of the session state
    ([state_checkpoint.go]) are behind the interface [StateStore]. *)
From S2P Require Import Prelude GoStd Effects ObjectReader Manifest View Os Budget Mutation Lease.

(** ** Data *)

Record NativeFile := {
  nf_Path : option path;
  nf_Bytes : Z;
  nf_SHA256 : string;
}.
Definition no_native : NativeFile := {| nf_Path := None; nf_Bytes := 0; nf_SHA256 := "" |}.

(** [SessionState]; an empty backing path is [None]. *)
Record SessionState := {
  ss_Version : Z;
  ss_SessionID : string;
  ss_Generation : Z;
  ss_ManifestPath : path;
  ss_ManifestSHA256 : string;
  ss_BaseBytes : Z;
  ss_BaseSHA256 : string;
  ss_DeltaPath : path;
  ss_BackingPath : option path;
  ss_NativeSnapshot : NativeFile;
}.

Definition with_backing (st : SessionState) (generation : Z) (backing : path) : SessionState :=
  {| ss_Version := ss_Version st; ss_SessionID := ss_SessionID st; ss_Generation := generation;
     ss_ManifestPath := ss_ManifestPath st; ss_ManifestSHA256 := ss_ManifestSHA256 st;
     ss_BaseBytes := ss_BaseBytes st; ss_BaseSHA256 := ss_BaseSHA256 st; ss_DeltaPath := ss_DeltaPath st;
     ss_BackingPath := Some backing; ss_NativeSnapshot := ss_NativeSnapshot st |}.

(** The file that holds the mutable bytes. *)
Definition active_path (st : SessionState) : path :=
  match ss_BackingPath st with Some p => p | None => ss_DeltaPath st end.

Record sessionStateFileIdentity := {
  fid_Path : path;
  fid_Bytes : Z;
  fid_SHA256 : string;
}.

Record VisibleInfo := {
  vi_Size : Z;
  vi_ModTime : Z;
  vi_Generation : Z;
}.

Record JournalRecord := {
  jr_OperationID : string;
  jr_SessionID : string;
  jr_Kind : string;
  jr_Phase : string;
  jr_TempPath : option path;
  jr_FinalPath : option path;
  jr_Candidate : option SessionState;
  jr_Native : NativeFile;
}.

(** [%020d] of an unsigned integer below [10^20]. *)
Fixpoint decimal (digits : nat) (z : Z) (suffix : string) : string :=
  match digits with
  | O => suffix
  | S digits => decimal digits (z / 10) (String (Ascii.ascii_of_nat (48 + Z.to_nat (z mod 10))) suffix)
  end.
Definition format_020d (z : Z) : string := decimal 20 z EmptyString.

(** ** The state store *)

Class StateStore := {
  publishSessionState : path -> SessionState -> OS unit;
  publishSessionStateWithTemporary : path -> path -> SessionState -> OS unit;
  refreshSessionStateCheckpoint : path -> SessionState -> option sessionStateFileIdentity -> OS unit;
  LoadSessionState : path -> OS SessionState;
}.
(** What it promises: publishing and checkpointing touch only its own files,
    [state_files p] for a session whose state is at [p], and the temporary file they
    are told to use; so does loading, which may repair them. *)
Class StateStoreLaw `{StateStore} := {
  state_files : path -> path -> Prop;
  publish_away : forall w p st, world_wf w ->
    keeps (away (state_files p) w) (publishSessionState p st);
  publish_temporary_away : forall w p temporary st, world_wf w ->
    keeps (away (fun q => state_files p q \/ q = temporary) w) (publishSessionStateWithTemporary p temporary st);
  refresh_away : forall w p st id, world_wf w ->
    keeps (away (state_files p) w) (refreshSessionStateCheckpoint p st id);
  load_away : forall w p, world_wf w -> keeps (away (state_files p) w) (LoadSessionState p);
}.

Section Session.
Context {R : Type} `{ObjectReader R} `{StateStore}.
Variable sha256 : bytes -> bytes.
Variable json_journal : JournalRecord -> result bytes.
Variable pid : string.
Variable reserve_roots : list path.
Variable random : world -> string * string.

Record Session := {
  se_state : SessionState;
  se_statePath : path;
  se_directory : path;
  se_view : View R;
  se_readerLeases : gmap Z Z;
  se_readerLeaseFiles : gmap Z Lease;
  se_writerOpen : bool;
  se_recoveryDeferred : bool;
  se_budget : Checker;
  se_beforeCOWPhase : option (string -> OS unit);
}.

Definition Sess (A : Type) : Type := M (Session * world) A.
Definition on_disk {A} (m : OS A) : Sess A := zoom snd (fun s w => (s.1, w)) m.
Definition session_state : Sess SessionState := fun s => (Ok (se_state s.1), s).

Definition set_leases (leases : gmap Z Z) (files : gmap Z Lease) (s : Session) : Session :=
  {| se_state := se_state s; se_statePath := se_statePath s; se_directory := se_directory s;
     se_view := se_view s; se_readerLeases := leases; se_readerLeaseFiles := files;
     se_writerOpen := se_writerOpen s; se_recoveryDeferred := se_recoveryDeferred s;
     se_budget := se_budget s; se_beforeCOWPhase := se_beforeCOWPhase s |}.
Definition set_state (st : SessionState) (s : Session) : Session :=
  {| se_state := st; se_statePath := se_statePath s; se_directory := se_directory s;
     se_view := se_view s; se_readerLeases := se_readerLeases s; se_readerLeaseFiles := se_readerLeaseFiles s;
     se_writerOpen := se_writerOpen s; se_recoveryDeferred := se_recoveryDeferred s;
     se_budget := se_budget s; se_beforeCOWPhase := se_beforeCOWPhase s |}.
Definition set_writerOpen (b : bool) (s : Session) : Session :=
  {| se_state := se_state s; se_statePath := se_statePath s; se_directory := se_directory s;
     se_view := se_view s; se_readerLeases := se_readerLeases s; se_readerLeaseFiles := se_readerLeaseFiles s;
     se_writerOpen := b; se_recoveryDeferred := se_recoveryDeferred s;
     se_budget := se_budget s; se_beforeCOWPhase := se_beforeCOWPhase s |}.
Definition on_session (f : Session -> Session) : Sess unit := modify (fun s => (f s.1, s.2)).

Definition MetadataPath (s : Session) : path := active_path (se_state s).

Definition session_VisibleInfo : Sess VisibleInfo :=
  let* st := session_state in
  let* info := on_disk (os_Stat (active_path st)) in
  ret {| vi_Size := match ss_BackingPath st with
                    | None => i64 (fi_size info + ss_BaseBytes st)
                    | Some _ => fi_size info
                    end;
         vi_ModTime := fi_mtime info; vi_Generation := ss_Generation st |}.

(** ** [journal.go] *)

Definition journalPath (directory : path) : path := "journal.jsonl"%string :: directory.

Definition appendJournal (directory : path) (record : JournalRecord) : OS unit :=
  let* data := lift (match json_journal record with
                     | Ok d => Ok d
                     | Err e => Err (errorf "encode journal record: %w" e)
                     end) in
  let* file := wrap "open session journal: %w" (os_Create (journalPath directory) false true) in
  let* file := write_file "write session journal: %w" file (data ++ [Byte.x0a]) in
  or_else (wrap "sync session journal: %w" (file_Sync file)) (file_Close file) ;;;
  wrap "close session journal: %w" (file_Close file).

(** ** Readers *)

Record ReadHandle := {
  rh_generation : Z;
  rh_base : View R;
  rh_baseBytes : Z;
  rh_file : File;
  rh_backing : bool;
  rh_deltaBytes : Z;
  rh_size : Z;
}.
Definition set_base (h : ReadHandle) (v : View R) : ReadHandle :=
  {| rh_generation := rh_generation h; rh_base := v; rh_baseBytes := rh_baseBytes h; rh_file := rh_file h;
     rh_backing := rh_backing h; rh_deltaBytes := rh_deltaBytes h; rh_size := rh_size h |}.

Definition lease_directory (directory : path) (generation : Z) : path :=
  String.append "generation-" (format_020d generation) :: "leases"%string :: directory.

Definition releaseReader (generation : Z) : Sess unit :=
  let* s := get in
  let leases := se_readerLeases s.1 in
  let files := se_readerLeaseFiles s.1 in
  let count := default 0 (leases !! generation) in
  if count <=? 1 then
    on_session (set_leases (delete generation leases) (delete generation files)) ;;;
    on_disk (lease_Close (files !! generation))
  else
    on_session (set_leases (<[generation := count - 1]> leases) files).

Definition OpenReader : Sess ReadHandle :=
  let* s := get in
  let st := se_state s.1 in
  let generation := ss_Generation st in
  (if default 0 (se_readerLeases s.1 !! generation) =? 0 then
     let* made := try_ (on_disk (os_Mkdir ("leases"%string :: se_directory s.1))) in
     throw (match made with
            | Err e => if is_Exist e then None else Some (errorf "create reader lease root: %w" e)
            | Ok _ => None
            end) ;;;
     let* lease := wrap "acquire reader generation lease: %w"
       (on_disk (fun w => AcquireLease pid reserve_roots (lease_directory (se_directory s.1) generation)
                            "reader" (random w).1 (random w).2 w)) in
     on_session (fun s => set_leases (se_readerLeases s) (<[generation := lease]> (se_readerLeaseFiles s)) s)
   else ret tt) ;;;
  on_session (fun s => set_leases
    (<[generation := default 0 (se_readerLeases s !! generation) + 1]> (se_readerLeases s))
    (se_readerLeaseFiles s) s) ;;;
  let* file := or_else (wrap "open session reader file: %w" (on_disk (os_Open (active_path st))))
                 (releaseReader generation) in
  let* info := or_else (wrap "stat session reader file: %w" (on_disk (file_Stat file)))
                 (ignore (on_disk (file_Close file)) ;;; releaseReader generation) in
  let backing := bool_decide (is_Some (ss_BackingPath st)) in
  ret {| rh_generation := generation; rh_base := se_view s.1; rh_baseBytes := ss_BaseBytes st;
         rh_file := file; rh_backing := backing;
         rh_deltaBytes := if backing then 0 else fi_size info;
         rh_size := if backing then fi_size info else i64 (ss_BaseBytes st + fi_size info) |}.

(** [closeOnce] makes later calls return the first result: the model closes once. *)
Definition handle_Close (h : ReadHandle) : Sess unit :=
  let* closeErr := error_of (on_disk (file_Close (rh_file h))) in
  let* releaseErr := error_of (releaseReader (rh_generation h)) in
  throw (errors_join [closeErr; releaseErr]).

(** *** [ReadHandle.ReadAt] *)

Definition Reading (A : Type) : Type := M (ReadHandle * world) A.
Definition reading_disk {A} (m : OS A) : Reading A := zoom snd (fun s w => (s.1, w)) m.
Definition read_done (n : Z) (dest : bytes) (err : option error) (ctx : Ctx) : Reading (read_result * Ctx) :=
  ret ({| rn := n; rdata := dest; rerr := err |}, ctx).

Definition not_eof (err : option error) : option error :=
  match err with Some e => if is_EOF e then None else Some e | None => None end.

Definition read_backing (ctx : Ctx) (dest : bytes) (offset : Z) : Reading (read_result * Ctx) :=
  let* hw := get in
  let h := hw.1 in
  let limit := Z.min (zlen dest) (rh_size h - offset) in
  let* (data, err) := reading_disk (File_ReadAt (rh_file h) limit offset) in
  let dest := splice 0 data dest in
  match not_eof err with
  | Some e => read_done (zlen data) dest (Some e) ctx
  | None => read_done (zlen data) dest (if zlen data <? zlen dest then Some io_EOF else None) ctx
  end.

(** The part of a read that the base answers: the bytes written and the error to
    stop with, if any. *)
Definition read_base (ctx : Ctx) (dest : bytes) (offset : Z)
  : Reading (Z * bytes * option error * Ctx) := fun '(h, w) =>
  let need := Z.min (zlen dest) (rh_baseBytes h - offset) in
  match view_ReadAt (rh_base h) ctx (ztake need dest) offset with
  | None => (Err (Sentinel "panic"), (h, w))
  | Some (res, v, ctx) =>
      let err := if negb (rn res =? need) then
                   Some (match rerr res with Some e => e | None => io_ErrUnexpectedEOF end)
                 else not_eof (rerr res) in
      (Ok (rn res, splice 0 (rdata res) dest, err, ctx), (set_base h v, w))
  end.

(** The part that the delta file answers, [written] bytes being in place. *)
Definition read_delta (dest : bytes) (written offset : Z) : Reading (Z * bytes * option error) :=
  let* hw := get in
  let h := hw.1 in
  let deltaOffset := offset - rh_baseBytes h in
  let need := Z.min (zlen dest - written) (rh_deltaBytes h - deltaOffset) in
  let* (data, err) := reading_disk (File_ReadAt (rh_file h) need deltaOffset) in
  ret (written + zlen data, splice written data dest,
       if negb (zlen data =? need) then
         Some (match err with Some e => e | None => io_ErrUnexpectedEOF end)
       else not_eof err).

Definition handle_ReadAt (ctx : Ctx) (dest : bytes) (offset : Z) : Reading (read_result * Ctx) :=
  if offset <? 0 then read_done 0 dest (Some (errors_new "negative session read offset")) ctx
  else if zlen dest =? 0 then read_done 0 dest None ctx
  else
    let '(err, ctx) := ctx_Err ctx in
    match err with
    | Some e => read_done 0 dest (Some e) ctx
    | None =>
        let* hw := get in
        let h := hw.1 in
        if offset >=? rh_size h then read_done 0 dest (Some io_EOF) ctx
        else if rh_backing h then read_backing ctx dest offset
        else
          let* (written, dest, err, ctx) :=
            if offset <? rh_baseBytes h then read_base ctx dest offset else ret (0, dest, None, ctx) in
          match err with
          | Some e => read_done written dest (Some e) ctx
          | None =>
              let offset := offset + written in
              let* (written, dest, err) :=
                if (written <? zlen dest) && (offset >=? rh_baseBytes h) && (offset <? rh_size h)
                then read_delta dest written offset else ret (written, dest, None) in
              match err with
              | Some e => read_done written dest (Some e) ctx
              | None => read_done written dest (if written <? zlen dest then Some io_EOF else None) ctx
              end
          end
    end.
End Session.
Arguments Session R : clear implicits.
Arguments ReadHandle R : clear implicits.

(** ** What a reader shows *)

(** The first [n] bytes of a buffer are those of the file [g] from [off]. *)
Definition holds (g : Z -> option byte) (off n : Z) (dest : bytes) : Prop :=
  forall j, 0 <= j < n -> exists b, dest !! Z.to_nat j = Some b /\ g (off + j) = Some b.

Lemma holds_splice g off n m data dest :
  holds g off n dest -> 0 <= n -> 0 <= m -> n + m <= zlen dest -> holds g (off + n) m data ->
  holds g off (n + m) (splice n data dest).
Proof.
  intros Hf Hn Hm Hlen Hd j Hj. destruct (Z.lt_ge_cases j n) as [Hlt|Hge].
  - rewrite splice_before by lia. apply Hf. lia.
  - destruct (Hd (j - n)) as (b & Hb & Hg); [lia|]. exists b.
    pose proof (lookup_lt_Some _ _ _ Hb) as Hl. split.
    + replace j with (n + (j - n)) by lia. rewrite splice_inside by (unfold zlen in *; lia). done.
    + rewrite <- Hg. f_equal. lia.
Qed.
Lemma holds_0 g off dest : holds g off 0 dest.
Proof. intros j Hj. lia. Qed.
Lemma holds_ext g g' off n dest :
  (forall p, off <= p < off + n -> g p = g' p) -> holds g off n dest -> holds g' off n dest.
Proof. intros He Hh j Hj. destruct (Hh j Hj) as (b & ? & ?). exists b. split; [done|]. by rewrite <- He by lia. Qed.

Lemma lookup_slice (a b : Z) (l : bytes) (j : Z) :
  0 <= a -> 0 <= j < b - a -> slice a b l !! Z.to_nat j = l !! Z.to_nat (a + j).
Proof.
  intros Ha Hj. unfold slice, ztake, zdrop. rewrite lookup_take_lt, lookup_drop by lia. f_equal. lia.
Qed.

(** Reading from an open file. *)
Lemma wp_File_ReadAt f n off i w :
  w_inodes w !! f_ino f = Some i -> 0 <= off -> 0 <= n -> off + n <= zlen (i_data i) ->
  wp (File_ReadAt f n off) w (fun r w' => exists data err,
    r = Ok (data, err) /\ same_files w w' /\ zlen data <= n
    /\ holds (fun p => i_data i !! Z.to_nat p) off (zlen data) data
    /\ (w_faults w = [] -> w_faults w' = [] /\ zlen data = n /\ err = None)).
Proof.
  intros Hi Hoff Hn Hlen. unfold wp, File_ReadAt, next_outcome.
  assert (zlen (slice off (off + n) (i_data i)) = n) as Hsl by (rewrite zlen_slice; lia).
  assert (forall k, holds (fun p => i_data i !! Z.to_nat p) off (zlen (take k (slice off (off + n) (i_data i))))
    (take k (slice off (off + n) (i_data i)))) as Hh.
  { intros k j Hj. unfold zlen in Hj. rewrite length_take in Hj.
    destruct (lookup_lt_is_Some_2 (slice off (off + n) (i_data i)) (Z.to_nat j)) as [b Hb]; [lia|].
    exists b. rewrite lookup_take_lt by lia. split; [done|].
    rewrite <- (lookup_slice off (off + n)); [done|lia|]. unfold zlen in *. lia. }
  assert (forall fs, exists data err,
    (Ok (slice off (off + n) (i_data i), if zlen (slice off (off + n) (i_data i)) <? n then Some io_EOF else None),
     tick w fs).1 = Ok (data, err)
    /\ same_files w (tick w fs) /\ zlen data <= n
    /\ holds (fun p => i_data i !! Z.to_nat p) off (zlen data) data
    /\ (fs = [] -> zlen data = n /\ err = None)) as Hfine.
  { intros fs. eexists _, _. split_and!; [done|done|lia| |].
    - rewrite <- (take_ge (slice _ _ _) (length (slice off (off + n) (i_data i)))) at 1 2 by lia. apply Hh.
    - intros _. split; [done|]. by rewrite (proj2 (Z.ltb_ge _ _)) by lia. }
  destruct (w_faults w) as [|[|k] fs] eqn:Ef; simpl; rewrite Hi; simpl.
  - destruct (Hfine []) as (data & err & E & Hs & Hz & Hhd & Hf). exists data, err. simpl in E. by split_and!; auto.
  - destruct (Hfine fs) as (data & err & E & Hs & Hz & Hhd & _). exists data, err. simpl in E. by split_and!.
  - eexists _, _. split_and!; [done|done| |apply Hh|done]. unfold zlen in *. rewrite length_take. lia.
Qed.

#[local] Hint Resolve same_files_refl : core.

Section ReaderLaws.
Context {R : Type} `{ObjectReaderLaw R}.

(** The bytes of the inode an open reader has. *)
Definition handle_data (h : ReadHandle R) (w : world) : bytes :=
  match w_inodes w !! f_ino (rh_file h) with Some i => i_data i | None => [] end.

Definition handle_byte (h : ReadHandle R) (w : world) (p : Z) : option byte :=
  if rh_size h <=? p then None
  else if rh_backing h then handle_data h w !! Z.to_nat p
  else if p <? rh_baseBytes h then view_byte (rh_base h) p
  else handle_data h w !! Z.to_nat (p - rh_baseBytes h).

(** A handle as [OpenReader] returns it, and later: its file still has the bytes
    that it counted. *)
Record handle_ok (h : ReadHandle R) (w : world) : Prop := {
  ho_inode : exists i, w_inodes w !! f_ino (rh_file h) = Some i
    /\ (if rh_backing h then rh_size h else rh_deltaBytes h) <= zlen (i_data i);
  ho_base : rh_backing h = false ->
    view_ok (rh_base h) /\ reader_ok (v_reader (rh_base h)) /\ rh_baseBytes h = view_Size (rh_base h)
    /\ 0 <= rh_baseBytes h /\ 0 <= rh_deltaBytes h /\ rh_size h = rh_baseBytes h + rh_deltaBytes h;
}.

(** Reading may only change the state of the object reader. *)
Definition moved (h h' : ReadHandle R) : Prop :=
  h' = h \/ exists r', h' = set_base h (set_reader (rh_base h) r') /\ reader_ok r'
    /\ forall ref p, object_byte r' ref p = object_byte (v_reader (rh_base h)) ref p.

Lemma moved_byte h h' w w' p : moved h h' -> same_files w w' -> handle_byte h' w' p = handle_byte h w p.
Proof.
  intros Hm (_ & Hi & _). assert (handle_data h' w' = handle_data h w) as Hd.
  { unfold handle_data. rewrite Hi. by destruct Hm as [->|(r' & -> & _)]. }
  unfold handle_byte. destruct Hm as [->|(r' & -> & Hr & He)]; rewrite Hd; [done|]. simpl.
  unfold view_byte. simpl. by rewrite (parts_byte_ext _ _ _ _ He).
Qed.
Lemma moved_ok h h' w w' : handle_ok h w -> moved h h' -> same_files w w' -> handle_ok h' w'.
Proof.
  intros [Hi Hb] Hm (_ & Ei & _). split.
  - rewrite Ei. by destruct Hm as [->|(r' & -> & _)].
  - destruct Hm as [->|(r' & -> & Hr & He)]; [done|]. simpl. intros Hbk.
    destruct (Hb Hbk) as (Hv & _ & Hsz & Hrest). split_and!; [by apply view_ok_set_reader|done|done|apply Hrest..].
Qed.

Definition read_post (h : ReadHandle R) (w : world) (ctx : Ctx) (dest : bytes) (off : Z)
    (r : result (read_result * Ctx)) (hw : ReadHandle R * world) : Prop :=
  exists res ctx', r = Ok (res, ctx') /\ same_files w hw.2 /\ moved h hw.1
    /\ zlen (rdata res) = zlen dest /\ 0 <= rn res <= zlen dest
    /\ holds (handle_byte h w) off (rn res) (rdata res)
    /\ (w_faults w = [] -> ctx = None ->
        (forall p, off <= p < Z.min (off + zlen dest) (rh_size h) -> is_Some (handle_byte h w p)) ->
        w_faults hw.2 = [] /\ ctx' = None /\ rn res = Z.min (zlen dest) (rh_size h - off)
        /\ rerr res = if rn res <? zlen dest then Some io_EOF else None).

Lemma handle_data_eq h w i : w_inodes w !! f_ino (rh_file h) = Some i -> handle_data h w = i_data i.
Proof. unfold handle_data. by intros ->. Qed.

Lemma read_backing_spec h w ctx ctx0 dest off :
  handle_ok h w -> rh_backing h = true -> 0 <= off < rh_size h -> (ctx0 = None -> ctx = None) ->
  wp (read_backing ctx dest off) (h, w) (read_post h w ctx0 dest off).
Proof.
  intros [(i & Hi & Hlen) _] Hbk Hoff Hctx. rewrite Hbk in Hlen. unfold read_backing. rewrite wp_bind, wp_get.
  cbv beta zeta. simpl fst. rewrite wp_bind. unfold reading_disk. rewrite wp_zoom.
  pose proof (zlen_nonneg dest). eapply wp_mono; [apply (wp_File_ReadAt _ _ _ i); [done|lia..]|].
  intros r w' (data & err & -> & Hs & Hz & Hh & Hfine). pose proof (zlen_nonneg data).
  assert (holds (handle_byte h w) off (zlen data) (splice 0 data dest)) as Hholds.
  { rewrite <- (Z.add_0_l (zlen data)). apply holds_splice; try lia; [apply holds_0|]. rewrite Z.add_0_r.
    eapply holds_ext; [|exact Hh]. intros p Hp. unfold handle_byte. rewrite Hbk, (handle_data_eq _ _ _ Hi).
    by rewrite (proj2 (Z.leb_gt _ _)) by lia. }
  assert (forall e, (w_faults w = [] -> ctx0 = None -> e = if zlen data <? zlen dest then Some io_EOF else None) ->
    read_post h w ctx0 dest off (Ok ({| rn := zlen data; rdata := splice 0 data dest; rerr := e |}, ctx)) (h, w')) as Hdone.
  { intros e He. eexists _, _. split; [reflexivity|]. simpl. split_and!; auto; try lia; [by left|rewrite zlen_splice; lia|].
    intros Hf Hc _. destruct (Hfine Hf) as (Hf' & Hn & _). split_and!; auto. }
  cbv beta iota zeta. destruct (not_eof err) as [e|] eqn:Ee; apply Hdone.
  - intros Hf _. destruct (Hfine Hf) as (_ & _ & ->). done.
  - intros Hf _. by rewrite zlen_splice by lia.
Qed.

Lemma read_delta_spec h w dest written off :
  handle_ok h w -> rh_backing h = false -> 0 <= written < zlen dest -> rh_baseBytes h <= off < rh_size h ->
  wp (read_delta dest written off) (h, w) (fun r hw => exists n dest' err,
    r = Ok (written + n, dest', err) /\ hw.1 = h /\ same_files w hw.2 /\ 0 <= n /\ written + n <= zlen dest
    /\ zlen dest' = zlen dest
    /\ (forall o, holds (handle_byte h w) o written dest -> o + written = off ->
          holds (handle_byte h w) o (written + n) dest')
    /\ (w_faults w = [] -> w_faults hw.2 = [] /\ n = Z.min (zlen dest - written) (rh_size h - off) /\ err = None)).
Proof.
  intros [(i & Hi & Hlen) Hb] Hbk Hw Hoff. rewrite Hbk in Hlen.
  destruct (Hb Hbk) as (_ & _ & _ & Hb0 & Hd0 & Hsz). unfold read_delta. rewrite wp_bind, wp_get.
  cbv beta zeta. simpl fst. rewrite wp_bind. unfold reading_disk. rewrite wp_zoom.
  eapply wp_mono; [apply (wp_File_ReadAt _ _ _ i); [done|lia..]|].
  intros r w' (data & err & -> & Hs & Hz & Hh & Hfine). pose proof (zlen_nonneg data).
  exists (zlen data), (splice written data dest). eexists. cbv beta iota zeta. split; [reflexivity|]. simpl.
  split_and!; auto; try lia.
  - apply zlen_splice. lia.
  - intros o Ho Heq. apply holds_splice; auto; try lia. intros j Hj.
    destruct (Hh j Hj) as (b & Hb1 & Hb2). exists b. split; [done|]. unfold handle_byte.
    rewrite (proj2 (Z.leb_gt _ _)) by lia. rewrite Hbk. rewrite (proj2 (Z.ltb_ge _ _)) by lia.
    rewrite (handle_data_eq _ _ _ Hi), <- Hb2. f_equal. lia.
  - intros Hf. destruct (Hfine Hf) as (Hf' & Hn & ->). split_and!; [done|lia|].
    rewrite Hn, Z.eqb_refl. done.
Qed.

Lemma read_base_spec h w ctx dest off :
  handle_ok h w -> rh_backing h = false -> 0 <= off < rh_baseBytes h -> 0 < zlen dest ->
  let need := Z.min (zlen dest) (rh_baseBytes h - off) in
  wp (read_base ctx dest off) (h, w) (fun r hw => exists n dest' err ctx',
    r = Ok (n, dest', err, ctx') /\ hw.2 = w /\ moved h hw.1 /\ zlen dest' = zlen dest /\ 0 <= n <= need
    /\ holds (handle_byte h w) off n dest' /\ (err = None -> n = need)
    /\ (ctx = None -> (forall p, off <= p < Z.min (off + zlen dest) (rh_size h) -> is_Some (handle_byte h w p)) ->
        ctx' = None /\ err = None)).
Proof.
  intros Hok Hbk Hoff Hdest need. destruct (ho_base _ _ Hok Hbk) as (Hv & Hr & Hsize & Hb0 & Hd0 & Hsz).
  assert (zlen (ztake need dest) = need) as Hneed by (rewrite zlen_ztake; lia).
  assert (forall p, 0 <= p < rh_baseBytes h -> handle_byte h w p = view_byte (rh_base h) p) as Hbyte.
  { intros p Hp. unfold handle_byte. rewrite (proj2 (Z.leb_gt _ _)) by lia. rewrite Hbk.
    by rewrite (proj2 (Z.ltb_lt _ _)) by lia. }
  destruct (view_ReadAt_spec (rh_base h) ctx (ztake need dest) off Hv Hr) as
    (n & d & err & r' & ctx' & Hout & Hr' & He & Hl & Hn & Hf & Hc); [lia..|]. rewrite Hneed in *.
  unfold wp, read_base. fold need. rewrite Hout. unfold view_done. simpl.
  eexists n, _, _, ctx'. split; [reflexivity|]. split_and!; auto.
  - right. exists r'. by split_and!.
  - apply zlen_splice. lia.
  - lia.
  - lia.
  - assert (holds (handle_byte h w) off n (splice 0 d dest)) as Hres; [|exact Hres].
    rewrite <- (Z.add_0_l n) at 1. intros j Hj. destruct (Hf j) as (b & Hb1 & Hb2); [lia|]. exists b. split.
    + rewrite <- Hb1. replace j with (0 + j) at 1 by lia.
      pose proof (lookup_lt_Some _ _ _ Hb1). rewrite splice_inside by (unfold zlen in *; lia). done.
    + rewrite Hbyte by lia. exact Hb2.
  - intros Herr. destruct (n =? need) eqn:E; zbool; [done|]. simpl in Herr. by destruct err.
  - intros Hnone Hav. destruct (Hc Hnone) as (Hc' & Hn' & He').
    { intros p Hp. rewrite <- Hbyte by lia. apply Hav. lia. }
    split; [done|]. assert (n = need) as -> by lia. rewrite Z.eqb_refl. simpl. rewrite He'.
    by rewrite (proj2 (Z.ltb_ge _ _)) by lia.
Qed.

(** The bytes after [written] of them came from the base or none were asked of it. *)
Lemma read_tail_spec h h1 w ctx0 ctx dest dest1 off written :
  handle_ok h w -> rh_backing h = false -> moved h h1 -> zlen dest1 = zlen dest ->
  0 <= written <= zlen dest -> 0 <= off < rh_size h -> off + written <= rh_size h ->
  (written = zlen dest \/ rh_baseBytes h <= off + written) ->
  holds (handle_byte h w) off written dest1 ->
  (ctx0 = None ->
   (forall p, off <= p < Z.min (off + zlen dest) (rh_size h) -> is_Some (handle_byte h w p)) -> ctx = None) ->
  wp (let offset := off + written in
      let* (written, dest, err) :=
        if (written <? zlen dest1) && (offset >=? rh_baseBytes h) && (offset <? rh_size h)
        then read_delta dest1 written offset else ret (written, dest1, None) in
      match err with
      | Some e => read_done written dest (Some e) ctx
      | None => read_done written dest (if written <? zlen dest then Some io_EOF else None) ctx
      end) (h1, w) (read_post h w ctx0 dest off).
Proof.
  intros Hok Hbk Hm Hl Hw Hoff Hle Hcase Hh Hctx.
  assert (forall p, handle_byte h1 w p = handle_byte h w p) as Hbyte by (intros p; by apply moved_byte).
  assert (rh_size h1 = rh_size h /\ rh_baseBytes h1 = rh_baseBytes h /\ rh_backing h1 = rh_backing h)
    as (Hs1 & Hb1 & Hk1) by by destruct Hm as [->|(r' & -> & _)].
  cbv zeta. destruct ((written <? zlen dest1) && _ && _) eqn:E.
  - zbool. rewrite wp_bind. eapply wp_mono; [apply read_delta_spec|].
    + by eapply moved_ok.
    + congruence.
    + lia.
    + lia.
    + intros r [h2 w2] (n & dest2 & err & -> & Heq & Hs & Hn & Hn' & Hl2 & Hh2 & Hfine). simpl in Heq. subst h2.
      simpl in Hs, Hfine. rewrite Hs1 in Hfine.
      assert (holds (handle_byte h w) off (written + n) dest2) as Hh3.
      { eapply holds_ext; [intros p _; apply Hbyte|]. apply Hh2; [|done].
        eapply holds_ext; [intros p _; symmetry; apply Hbyte|done]. }
      destruct err as [e|]; eexists _, _; (split; [reflexivity|]); simpl; split_and!; auto; try lia.
      * intros Hf Hc Hav. destruct (Hfine Hf) as (_ & _ & ?). done.
      * intros Hf Hc Hav. destruct (Hfine Hf) as (Hf' & -> & _). split_and!; auto; [lia|].
        by rewrite Hl2, Hl.
  - rewrite wp_bind, wp_ret. eexists _, _. split; [reflexivity|]. simpl. split_and!; auto; try lia.
    intros Hf Hc Hav. split_and!; auto; [|by rewrite Hl].
    apply andb_false_iff in E as [E|E]; [apply andb_false_iff in E as [E|E]|]; zbool; lia.
Qed.

Lemma handle_ReadAt_spec h w ctx dest off :
  handle_ok h w -> 0 <= off < rh_size h ->
  wp (handle_ReadAt ctx dest off) (h, w) (read_post h w ctx dest off).
Proof.
  intros Hok Hoff. unfold handle_ReadAt. rewrite (proj2 (Z.ltb_ge _ _)) by lia. pose proof (zlen_nonneg dest).
  assert (forall e c, (ctx = None -> False) \/ zlen dest = 0 /\ e = None /\ c = ctx ->
    wp (read_done 0 dest e c) (h, w) (read_post h w ctx dest off)) as Hstop.
  { intros e c Hcase. eexists _, _. split; [reflexivity|]. simpl. split_and!; auto; try lia; [by left|apply holds_0|].
    intros Hf Hc _. destruct Hcase as [Hx|(Hz & -> & ->)]; [by destruct (Hx Hc)|]. rewrite Hz. split_and!; auto. lia. }
  destruct (zlen dest =? 0) eqn:E0; zbool; [apply Hstop; auto|].
  destruct (ctx_Err ctx) as [[e|] ctx1] eqn:Ectx.
  { apply Hstop. left. intros ->. done. }
  assert (ctx = None -> ctx1 = None) as Hc1 by (intros ->; simpl in Ectx; congruence).
  rewrite wp_bind, wp_get. cbv beta zeta. simpl fst. rewrite Z.geb_leb, (proj2 (Z.leb_gt _ _)) by lia.
  destruct (rh_backing h) eqn:Hbk; [by apply read_backing_spec|].
  destruct (ho_base _ _ Hok Hbk) as (Hv & Hr & Hsize & Hb0 & Hd0 & Hsz).
  rewrite wp_bind. destruct (off <? rh_baseBytes h) eqn:Eb; zbool.
  - eapply wp_mono; [apply read_base_spec; auto; lia|]. cbv zeta.
    intros r [h1 w1] (n & dest1 & err & ctx2 & -> & Hw1 & Hm & Hl & Hn & Hh & Hneed & Hc). simpl in Hw1, Hm. subst w1.
    destruct err as [e|].
    + eexists _, _. split; [reflexivity|]. simpl. split_and!; auto; try lia.
      intros Hf Hnone Hav. by destruct (Hc (Hc1 Hnone) Hav).
    + specialize (Hneed eq_refl). apply read_tail_spec; auto; try lia.
      intros Hnone Hav. by destruct (Hc (Hc1 Hnone) Hav).
  - rewrite wp_ret. apply read_tail_spec; auto; try lia; [by left|apply holds_0].
Qed.
End ReaderLaws.

(** ** The bookkeeping files of a session *)

(** Files under the lease directory, and the emergency reserve. *)
Definition lease_file (dir q : path) : Prop :=
  (exists name d, q = name :: d /\ String.prefix LeaseFilePrefix name = true /\ "leases"%string :: dir `suffix_of` d)
  \/ hd EmptyString q = readReserveName.

Lemma wp_Create_away P w0 p excl append w :
  away P w0 w -> world_wf w0 ->
  wp (os_Create p excl append) w (fun r w' => away P w0 w' /\
    forall f, r = Ok f -> w_names w' !! p = Some (f_ino f) /\ (P p \/ excl = true -> mine P w0 (f_ino f))).
Proof.
  intros Ha Hw0. apply wp_keeps; [apply keeps_away_Create|done|].
  apply wp_syscall; intros fs; [done|]. unfold wp. simpl. destruct (w_names w !! p) as [k|] eqn:Ep; simpl.
  - destruct excl; simpl; [done|]. intros f [= <-]. split; [done|]. intros [HP|]; [|done]. simpl.
    destruct (aw_new _ _ _ Ha _ _ Ep) as [Hn|?]; [|done]. left. eauto.
  - case_decide; simpl; [|done]. intros f [= <-]. simpl. rewrite lookup_insert_eq. split; [done|].
    intros _. right. apply (aw_next _ _ _ Ha).
Qed.

Lemma wp_acquireLease_away P w0 pid dir label random w :
  world_wf w0 -> P (lease_name pid label random :: dir) -> away P w0 w ->
  wp (acquireLease pid dir label random) w (fun _ w' => away P w0 w').
Proof.
  intros Hw0 HP Ha. unfold acquireLease, tryLockLease, unlockLease. destruct (safe_label label); simpl; [|done].
  rewrite wp_bind. eapply wp_mono; [apply (wp_kept (away P w0)); [unfold make_lease_directory; keeps|done]|].
  intros [u|e] w1 Ha1; [|done]. rewrite wp_bind, wp_wrap.
  eapply wp_mono; [by apply wp_Create_away|]. intros [f|e] w2 [Ha2 Hf]; [|done].
  destruct (Hf f eq_refl) as [Hn Hm]. specialize (Hm (or_introl HP)).
  apply (wp_kept (away P w0)); [|done]. keeps; auto using keeps_away_Remove.
Qed.

Lemma keeps_away_reserve P w0 stores d :
  (forall store, P (readReserveName :: store)) -> keeps (away P w0) (release_reserve stores d).
Proof.
  intros HP. induction stores as [|store stores IH]; cbn [release_reserve]; [keeps|].
  case_match; [done|]. unfold release_reserve_of. keeps.
Qed.

Lemma wp_AcquireLease_away P w0 pid roots dir label random random2 w :
  world_wf w0 -> (forall store, P (readReserveName :: store)) ->
  (forall rnd, P (lease_name pid label rnd :: dir)) -> away P w0 w ->
  wp (AcquireLease pid roots dir label random random2) w (fun r w' => away P w0 w' /\
    forall l, r = Ok l -> exists rnd, l_path l = lease_name pid label rnd :: dir).
Proof.
  intros Hw0 Hres HP Ha.
  assert (forall rnd w, away P w0 w -> wp (acquireLease pid dir label rnd) w (fun r w' => away P w0 w' /\
    forall l, r = Ok l -> exists rnd, l_path l = lease_name pid label rnd :: dir)) as Hacq.
  { intros rnd w1 Ha1. apply wp_conj; [by apply wp_acquireLease_away|].
    eapply wp_mono; [apply wp_acquireLease|]. intros r w2 Hl l Hr. destruct (Hl l Hr) as (-> & _). by eexists. }
  unfold AcquireLease. rewrite wp_bind, wp_try. eapply wp_mono; [by apply Hacq|].
  intros [l|e] w1 [Ha1 Hl]; [rewrite wp_ret; split; [done|by intros l' [= <-]; apply Hl]|]. case_match; [|done].
  rewrite wp_bind, wp_ignore. eapply wp_mono; [apply (wp_kept (away P w0)); [by apply keeps_away_reserve|done]|].
  intros r w2 Ha2. by apply Hacq.
Qed.

Lemma keeps_away_lease_Close P w0 l : P (l_path l) -> keeps (away P w0) (lease_Close (Some l)).
Proof. intros HP. unfold lease_Close, unlockLease. keeps. Qed.

Section SessionLaws.
Context {R : Type} `{ObjectReader R}.
Variable pid : string.
Variable reserve_roots : list path.
Variable random : world -> string * string.
(** The bookkeeping files; lease files are among them. *)
Variable P : path -> Prop.
Variable dir : path.
Hypothesis lease_files : forall q, lease_file dir q -> P q.
Local Abbreviation OpenReader := (OpenReader (R := R) pid reserve_roots random).

Record quiet_session (s0 : Session R) (w0 : world) (sw : Session R * world) : Prop := {
  qs_state : se_state sw.1 = se_state s0;
  qs_view : se_view sw.1 = se_view s0;
  qs_directory : se_directory sw.1 = se_directory s0;
  qs_statePath : se_statePath sw.1 = se_statePath s0;
  qs_budget : se_budget sw.1 = se_budget s0;
  qs_hook : se_beforeCOWPhase sw.1 = se_beforeCOWPhase s0;
  qs_leases : forall g l, se_readerLeaseFiles sw.1 !! g = Some l -> lease_file dir (l_path l);
  qs_away : away P w0 sw.2;
}.

Lemma quiet_disk s0 w0 s w w' :
  quiet_session s0 w0 (s, w) -> away P w0 w' -> quiet_session s0 w0 (s, w').
Proof. intros [? ? ? ? ? ? ? ?] Ha. by split. Qed.

Lemma keeps_on_disk {A} s0 w0 (m : OS A) :
  keeps (away P w0) m -> keeps (quiet_session s0 w0) (on_disk m).
Proof.
  intros Hm [s w] Hq. unfold on_disk, zoom. simpl. specialize (Hm w (qs_away _ _ _ Hq)).
  destruct (m w) as [r w']. simpl in *. by eapply quiet_disk.
Qed.
Lemma quiet_set_leases s0 w0 s w leases files :
  quiet_session s0 w0 (s, w) -> (forall g l, files !! g = Some l -> lease_file dir (l_path l)) ->
  quiet_session s0 w0 (set_leases leases files s, w).
Proof. intros [? ? ? ? ? ? ? ?] Hf. by split. Qed.

Lemma keeps_releaseReader s0 w0 generation : keeps (quiet_session s0 w0) (releaseReader generation).
Proof.
  intros [s w] Hq. unfold releaseReader, bind, get, on_session, modify. simpl. case_match.
  - simpl. unfold on_disk, zoom. simpl.
    assert (quiet_session s0 w0 (set_leases (delete generation (se_readerLeases s))
      (delete generation (se_readerLeaseFiles s)) s, w)) as Hq1.
    { apply quiet_set_leases; [done|]. intros g l [_ Hl]%lookup_delete_Some. by apply (qs_leases _ _ _ Hq g). }
    destruct (lease_Close _ w) as [r w'] eqn:E. simpl. eapply quiet_disk; [exact Hq1|].
    destruct (se_readerLeaseFiles s !! generation) as [l|] eqn:El.
    + pose proof (keeps_away_lease_Close P w0 l (lease_files _ (qs_leases _ _ _ Hq _ _ El)) w (qs_away _ _ _ Hq)) as Hk.
      by rewrite E in Hk.
    + simpl in E. unfold ret in E. injection E as <- <-. apply (qs_away _ _ _ Hq).
  - simpl. apply quiet_set_leases; [done|]. apply (qs_leases _ _ _ Hq).
Qed.
Lemma keeps_handle_Close s0 w0 h : keeps (quiet_session s0 w0) (handle_Close h).
Proof.
  unfold handle_Close. keeps; [|apply keeps_releaseReader]. apply keeps_on_disk. keeps.
Qed.

(** What a new handle has. *)
Record opened (s : Session R) (w : world) (h : ReadHandle R) : Prop := {
  op_name : w_names w !! active_path (se_state s) = Some (f_ino (rh_file h));
  op_base : rh_base h = se_view s;
  op_baseBytes : rh_baseBytes h = ss_BaseBytes (se_state s);
  op_backing : rh_backing h = bool_decide (is_Some (ss_BackingPath (se_state s)));
  op_inode : exists i, w_inodes w !! f_ino (rh_file h) = Some i
    /\ (rh_backing h = true -> rh_size h = zlen (i_data i))
    /\ (rh_backing h = false -> rh_deltaBytes h = zlen (i_data i)
         /\ rh_size h = i64 (rh_baseBytes h + zlen (i_data i)));
}.

Lemma wp_on_disk {A} (m : OS A) (s : Session R) w Q :
  wp (on_disk m) (s, w) Q <-> wp m w (fun r w' => Q r (s, w')).
Proof. unfold on_disk. by rewrite wp_zoom. Qed.

Lemma wp_diag {S A} (f : S -> M S A) (s : S) Q : wp (f s) s Q -> wp (fun s => f s s) s Q.
Proof. done. Qed.

Lemma lease_directory_file g rnd : lease_file dir (lease_name pid "reader" rnd :: lease_directory dir g).
Proof.
  left. eexists _, _. split_and!; [reflexivity|apply prefix_app|].
  unfold lease_directory. apply suffix_cons_r. reflexivity.
Qed.

Lemma wp_OpenReader s w :
  world_wf w -> se_directory s = dir -> (forall g l, se_readerLeaseFiles s !! g = Some l -> lease_file dir (l_path l)) ->
  wp OpenReader (s, w) (fun r sw => quiet_session s w sw /\ forall h, r = Ok h -> opened s sw.2 h).
Proof using lease_files.
  intros Hw Hdir Hl. unfold OpenReader. rewrite wp_bind, wp_get. cbv beta zeta. simpl fst.
  set (generation := ss_Generation (se_state s)).
  assert (quiet_session s w (s, w)) as Hq by (split; simpl; auto; by apply away_refl).
  rewrite wp_bind. apply wp_mono with (P := fun _ sw => quiet_session s w sw).
  { case_match; [|done]. rewrite wp_bind, wp_try.
    eapply wp_mono; [apply (wp_kept (quiet_session s w)); [apply keeps_on_disk; keeps|done]|].
    intros r [s1 w1] Hq1. rewrite wp_bind, wp_throw. destruct (match r with Ok _ => None | Err e => _ end); [done|].
    rewrite wp_bind, wp_wrap, wp_on_disk.
    apply (wp_diag (fun w => AcquireLease pid reserve_roots (lease_directory (se_directory s) generation)
      "reader" (random w).1 (random w).2) w1).
    eapply wp_mono.
    - apply (wp_AcquireLease_away P w); [done|..|exact (qs_away _ _ _ Hq1)].
      + intros store. apply lease_files. by right.
      + intros rnd. rewrite Hdir. apply lease_files, lease_directory_file.
    - intros [l|e] w2 [Ha2 HPl]; [|by eapply quiet_disk]. apply quiet_set_leases; [by eapply quiet_disk|].
      intros g l' [[_ <-]|[_ Hl']]%lookup_insert_Some; [|by apply (qs_leases _ _ _ Hq1 g)]. destruct (HPl l eq_refl) as [rnd ->]. rewrite Hdir. apply lease_directory_file. }
  intros [[]|e] [s1 w1] Hq1; [|done]. rewrite wp_bind. unfold on_session at 1. rewrite wp_modify. simpl fst. simpl snd.
  match goal with |- wp _ (?s', w1) _ => set (s2 := s') end.
  assert (quiet_session s w (s2, w1)) as Hq2 by (apply quiet_set_leases; [done|apply (qs_leases _ _ _ Hq1)]).
  rewrite wp_bind, wp_or_else, wp_wrap, wp_on_disk.
  eapply wp_mono; [apply wp_Open|]. intros [f|e] w3 [Hs3 Hf].
  2: { eapply wp_mono; [apply (wp_kept (quiet_session s w)); [apply keeps_releaseReader|]|by intros r' sw' Hq'].
       eapply quiet_disk; [exact Hq2|]. eapply away_same_files; [apply (qs_away _ _ _ Hq2)|done]. }
  destruct (Hf f eq_refl) as (Hn & _). pose proof (away_same_files _ _ _ _ (qs_away _ _ _ Hq2) Hs3) as Ha3.
  rewrite wp_bind, wp_or_else, wp_wrap, wp_on_disk. eapply wp_mono; [apply wp_file_Stat|].
  intros [info|e] w4 [Hs4 Hi]; pose proof (away_same_files _ _ _ _ Ha3 Hs4) as Ha4;
    pose proof (quiet_disk _ _ _ _ _ Hq2 Ha4) as Hq4.
  2: { eapply wp_mono; [apply (wp_kept (quiet_session s w))|by intros r' sw' Hq']; [|done].
       keeps; [apply keeps_on_disk; keeps|apply keeps_releaseReader]. }
  rewrite wp_ret. split; [done|]. intros h [= <-]. destruct (Hi info eq_refl) as (i & Hino & _ & Hsz & _).
  destruct Hs3 as (En3 & Ei3 & _), Hs4 as (En4 & Ei4 & _). split; simpl; auto.
  - rewrite En4, En3. done.
  - exists i. rewrite Ei4. split; [done|]. case_bool_decide; split; intros; try done. by rewrite Hsz.
Qed.
End SessionLaws.

(** ** What a session shows *)

Section Visible.
Context {R : Type} `{ObjectReaderLaw R}.

Definition byte_of_file (d : option bytes) (p : Z) : option byte :=
  match d with Some d => d !! Z.to_nat p | None => None end.
Definition visible_byte (s : Session R) (w : world) (p : Z) : option byte :=
  let st := se_state s in
  match ss_BackingPath st with
  | Some b => byte_of_file (file_data w b) p
  | None => if p <? ss_BaseBytes st then view_byte (se_view s) p
            else byte_of_file (file_data w (ss_DeltaPath st)) (p - ss_BaseBytes st)
  end.
Definition visible_size (s : Session R) (w : world) : Z :=
  let st := se_state s in
  let active := match file_data w (active_path st) with Some d => zlen d | None => 0 end in
  match ss_BackingPath st with
  | Some _ => active
  | None => ss_BaseBytes st + active
  end.

Record session_ok (s : Session R) (w : world) : Prop := {
  so_wf : world_wf w;
  so_view : view_ok (se_view s);
  so_reader : reader_ok (v_reader (se_view s));
  so_base : 0 <= ss_BaseBytes (se_state s) /\ ss_BaseBytes (se_state s) = view_Size (se_view s);
  so_active : is_Some (file_data w (active_path (se_state s)));
  so_size : visible_size s w <= max_int64;
}.

(** A new handle shows the session. *)
Lemma opened_shows s w h :
  session_ok s w -> opened s w h ->
  handle_ok h w /\ rh_size h = visible_size s w
  /\ forall p, 0 <= p < rh_size h -> handle_byte h w p = visible_byte s w p.
Proof.
  intros [Hw Hv Hr [Hb0 Hb] [d Hd] Hsz] [Hn Hbase Hbb Hbk (i & Hi & Hsb & Hsd)].
  assert (file_data w (active_path (se_state s)) = Some (i_data i)) as Hd'.
  { unfold file_data, inode_of. rewrite Hn. simpl. by rewrite Hi. }
  unfold visible_size in *. rewrite Hd' in *. pose proof (zlen_nonneg (i_data i)).
  unfold handle_byte, visible_byte. rewrite (handle_data_eq _ _ _ Hi). unfold active_path in *.
  destruct (ss_BackingPath (se_state s)) as [b|] eqn:Eb.
  - rewrite bool_decide_true in Hbk by (by eexists). rewrite (Hsb Hbk). split_and!; [|done|].
    + split; rewrite Hbk; [|done]. exists i. split; [done|]. rewrite (Hsb Hbk). lia.
    + intros p Hp. rewrite (proj2 (Z.leb_gt _ _)) by lia. rewrite Hbk, Hd'. done.
  - rewrite bool_decide_false in Hbk by (by intros [? ?]). destruct (Hsd Hbk) as [Hdb Hs].
    rewrite i64_id in Hs by (unfold in_i64, max_int64 in *; lia). split_and!; [|lia|].
    + split; rewrite Hbk; [exists i; split; [done|lia]|]. intros _. rewrite Hbase, Hbb. split_and!; auto; lia.
    + intros p Hp. rewrite (proj2 (Z.leb_gt _ _)) by lia. rewrite Hbk, Hbb, Hbase, Hd'. done.
Qed.
End Visible.
