(* ===== verification/StateFile.v ===== *)
(** The state file of a session ([internal/vfs/state.go]): its validation, its
    atomic replacement and its reading.  JSON is a parameter.

    [plain_store] is the [StateStore] that keeps nothing but this file. *)
From S2P Require Import Prelude GoStd Effects ObjectReader Manifest View Os Budget Mutation Lease Session.

Definition sessionStateVersion : Z := 2.
Definition legacySessionStateVersion : Z := 1.
Definition errLegacySessionState : error := Sentinel "legacy virtual session state requires migration".

Definition safeSessionID (sessionID : string) : bool :=
  negb (string_is sessionID "") && negb (string_is sessionID ".") && negb (string_is sessionID "..")
  && negb (strings_ContainsAny sessionID unsafe_characters).

(** [strings.ToLower(value) == value], for text that is then decoded as hex. *)
Fixpoint is_lower (s : string) : bool :=
  match s with
  | EmptyString => true
  | String c s => negb ((65 <=? Ascii.nat_of_ascii c)%nat && (Ascii.nat_of_ascii c <=? 90)%nat) && is_lower s
  end.
Definition validStateSHA256 (value : string) : bool :=
  (String.length value =? 64)%nat && is_lower value && bool_decide (is_Some (hex_DecodeString value)).

(** [filepath.Rel] does not start with [..]. *)
Definition pathWithin (directory p : path) : bool := bool_decide (directory `suffix_of` p).

(** An empty [DeltaPath] is the empty list. *)
Definition valid_state_fields (st : SessionState) : bool :=
  safeSessionID (ss_SessionID st) && negb (ss_Generation st =? 0) && negb (ss_BaseBytes st <? 0)
  && validStateSHA256 (ss_BaseSHA256 st) && negb (bool_decide (ss_DeltaPath st = [])).

Definition check_native (native : NativeFile) : option error :=
  match nf_Path native with
  | None =>
      if negb (nf_Bytes native =? 0) || negb (string_is (nf_SHA256 native) "")
      then Some (errors_new "session state contains partial native snapshot metadata") else None
  | Some _ =>
      if (nf_Bytes native <? 0) || negb (validStateSHA256 (nf_SHA256 native))
      then Some (errors_new "session state contains invalid native snapshot metadata") else None
  end.

(** The checks of [readSessionState] on a decoded state. *)
Inductive verdict :=
| Current
| Legacy
| Invalid (e : error).
Definition check_state (st : SessionState) : verdict :=
  match check_native (ss_NativeSnapshot st) with
  | Some e => Invalid e
  | None =>
      if (ss_Version st =? legacySessionStateVersion) && string_is (ss_ManifestSHA256 st) "" then
        if negb (valid_state_fields st) then Invalid (errors_new "invalid legacy virtual session state") else Legacy
      else if negb (ss_Version st =? sessionStateVersion) || negb (valid_state_fields st)
              || negb (validStateSHA256 (ss_ManifestSHA256 st))
      then Invalid (errors_new "invalid virtual session state")
      else Current
  end.

Definition validateSessionStateForDirectory (st : SessionState) (sessionDirectory : path) : option error :=
  if negb (ss_Version st =? sessionStateVersion) || negb (valid_state_fields st)
     || negb (validStateSHA256 (ss_ManifestSHA256 st))
  then Some (errors_new "invalid virtual session state")
  else
    match sessionDirectory with
    | id :: sessions :: fs :: storeRoot =>
        if negb (string_is id (ss_SessionID st)) || negb (string_is sessions "sessions") || negb (string_is fs "fs")
        then Some (errors_new "session state directory does not match its session ID")
        else
          let manifestRoot := "manifests"%string :: storeRoot in
          let unsafe p := negb (pathWithin sessionDirectory p) || bool_decide (p = sessionDirectory) in
          if negb (pathWithin manifestRoot (ss_ManifestPath st)) || bool_decide (ss_ManifestPath st = manifestRoot)
          then Some (errors_new "session state contains an unsafe manifest path")
          else if unsafe (ss_DeltaPath st)
                  || match ss_BackingPath st with Some p => unsafe p | None => false end
          then Some (errors_new "session state contains an unsafe data path")
          else check_native (ss_NativeSnapshot st)
    | _ => Some (errors_new "session state directory does not match its session ID")
    end.

Section StateFile.
Variable sha256 : bytes -> bytes.
Variable json_Marshal : SessionState -> result bytes.
Variable json_Unmarshal : bytes -> result SessionState.

Definition encodeSessionState (st : SessionState) : result bytes :=
  match json_Marshal st with
  | Ok data => Ok (data ++ [Byte.x0a])
  | Err e => Err (errorf "encode session state: %w" e)
  end.

Definition commitSessionState (p : path) (data : bytes) (temporary : File) (temporaryPath : path) : OS unit :=
  defer_ (os_Remove temporaryPath) (
    or_else (wrap "chmod temporary session state: %w" (file_Chmod temporary)) (file_Close temporary) ;;;
    let* temporary := write_file "write temporary session state: %w" temporary data in
    sync_file "sync temporary session state: %w" temporary ;;;
    wrap "close temporary session state: %w" (file_Close temporary) ;;;
    wrap "commit session state: %w" (os_Rename temporaryPath p) ;;;
    sync_dir (filepath_Dir p)).

Definition writeSessionState (p : path) (st : SessionState) : OS unit :=
  let* data := lift (encodeSessionState st) in
  let* (temporary, temporaryPath) :=
    wrap "create temporary session state: %w" (os_CreateTemp (filepath_Dir p) ".state-primary-" ".tmp") in
  commitSessionState p data temporary temporaryPath.

Definition writeSessionStateWithTemporary (p temporaryPath : path) (st : SessionState) : OS unit :=
  if negb (bool_decide (filepath_Dir temporaryPath = filepath_Dir p)) then
    fail (errors_new "temporary session state must be in the state directory")
  else
    let* data := lift (encodeSessionState st) in
    let* temporary := wrap "create temporary session state: %w" (os_Create temporaryPath true false) in
    commitSessionState p data temporary temporaryPath.

(** The state and its encoding, with the error that goes with them. *)
Definition readSessionState (p : path) : OS (SessionState * bytes * option error) :=
  let* info := os_Stat p in
  if negb (fi_regular info) then fail (errors_new "session state is not a regular file")
  else
    let* data := os_ReadFile p in
    let* st := lift (match json_Unmarshal data with
                     | Ok st => Ok st
                     | Err e => Err (errorf "decode session state: %w" e)
                     end) in
    match check_state st with
    | Current => ret (st, data, None)
    | Legacy => ret (st, data, Some errLegacySessionState)
    | Invalid e => fail e
    end.

Definition loadSessionState (p : path) : OS SessionState :=
  let* (st, _, err) := readSessionState p in
  match err with Some e => fail e | None => ret st end.

Definition verifyNativeFile (file : NativeFile) : OS unit :=
  match nf_Path file with
  | None => fail (errors_new "native snapshot metadata is incomplete")
  | Some p =>
      if (nf_Bytes file <? 0) || negb (String.length (nf_SHA256 file) =? 64)%nat then
        fail (errors_new "native snapshot metadata is incomplete")
      else
        let* info := wrap "inspect native snapshot: %w" (os_Stat p) in
        if negb (fi_regular info) then fail (errors_new "native snapshot is not a regular file")
        else
          let* opened := wrap "open native snapshot: %w" (os_Open p) in
          let* copied := try_ (file_ReadAll opened) in
          let* closeErr := error_of (file_Close opened) in
          match copied, closeErr with
          | Err e, _ => fail (errorf "hash native snapshot: %w" e)
          | Ok _, Some e => fail (errorf "close native snapshot: %w" e)
          | Ok data, None =>
              if negb (zlen data =? nf_Bytes file)
                 || negb (string_is (hex_EncodeToString (sha256 data)) (nf_SHA256 file))
              then fail (errors_new "native snapshot bytes or SHA-256 differ from metadata")
              else ret tt
          end
  end.

(** A store without checkpoints. *)
Definition plain_store : StateStore := {|
  publishSessionState := writeSessionState;
  publishSessionStateWithTemporary := writeSessionStateWithTemporary;
  refreshSessionStateCheckpoint := fun _ _ _ => ret tt;
  LoadSessionState := loadSessionState;
|}.
End StateFile.

(** ** Replacement *)

Section StateFileLaws.
Variable json_Marshal : SessionState -> result bytes.
Variable json_Unmarshal : bytes -> result SessionState.
Local Abbreviation writeSessionState := (writeSessionState json_Marshal).
Local Abbreviation encodeSessionState := (encodeSessionState json_Marshal).

Lemma wp_commit_body w0 tp p data temporary w :
  temp_file w0 tp (f_ino temporary) [] false w -> f_pos temporary = 0 -> f_append temporary = false ->
  wp (or_else (wrap "chmod temporary session state: %w" (file_Chmod temporary)) (file_Close temporary) ;;;
      let* temporary := write_file "write temporary session state: %w" temporary data in
      sync_file "sync temporary session state: %w" temporary ;;;
      wrap "close temporary session state: %w" (file_Close temporary) ;;;
      wrap "commit session state: %w" (os_Rename tp p) ;;;
      sync_dir (filepath_Dir p)) w (commit_open w0 tp p data).
Proof.
  intros Ht Hp Ha. set (n := f_ino temporary) in *.
  assert (forall sy d A (m : OS A) w1, (forall P, TickStable P -> keeps P m) -> temp_file w0 tp n d sy w1 ->
    wp m w1 (fun _ w' => temp_file w0 tp n d sy w')) as Hquiet.
  { intros sy d A m w1 Hm Ht1. apply (wp_kept (temp_file w0 tp n d sy)); [apply Hm, _|done]. }
  rewrite wp_bind, wp_or_else, wp_wrap. eapply wp_mono; [apply (Hquiet false []); [|done]|].
  { intros P HP. by apply keeps_pure. }
  intros [[]|e] w1 Ht1.
  2: { eapply wp_mono; [apply (Hquiet false []); [intros P HP; by apply keeps_Close|exact Ht1]|].
       intros r w2 Ht2. eapply commit_open_temp, Ht2. }
  rewrite wp_bind. eapply wp_mono; [by eapply wp_write_file; [|split_and!]|].
  intros [t|e] w2 Hr; [|destruct Hr as (d' & Hd'); eapply commit_open_temp, Hd'].
  destruct Hr as [Ht2 (Hino & _)]. rewrite wp_bind. eapply wp_mono; [by eapply wp_sync_file_temp|].
  intros [[]|e] w3 Ht3; [|eapply commit_open_temp, Ht3]. rewrite wp_bind, wp_wrap.
  eapply wp_mono; [apply (Hquiet true ([] ++ data)); [intros P HP; by apply keeps_Close|done]|].
  intros [[]|e] w4 Ht4; [|eapply commit_open_temp, Ht4]. rewrite wp_bind, wp_wrap.
  eapply wp_mono; [by apply wp_Rename_temp|]. intros [[]|e] w5 Hp5; [|eapply commit_open_temp, Hp5].
  eapply wp_mono; [by eapply wp_sync_dir_published|].
  intros [[]|e] w6 [Hp6 Hd]; [|right; eauto]. exists n. split; [done|]. by apply Hd.
Qed.

Lemma wp_commitSessionState w0 tp p data temporary w :
  temp_file w0 tp (f_ino temporary) [] false w -> f_pos temporary = 0 -> f_append temporary = false -> tp <> p ->
  wp (commitSessionState p data temporary tp) w (fun r w' => commit_post w0 p data r w'
    /\ forall old, file_data w0 p = Some old -> file_data w' p = Some old \/ file_data w' p = Some data).
Proof.
  intros Ht Hp Ha Hne. unfold commitSessionState. rewrite wp_defer.
  eapply wp_mono; [by apply wp_commit_body|]. intros r w' Hopen.
  apply wp_conj; [by eapply wp_commit_close|].
  destruct (file_data w0 p) as [old|] eqn:E; [|done].
  eapply wp_mono; [by eapply wp_commit_old|]. by intros r' w2 Hw2 old' [= <-].
Qed.

Definition not_temporary (p : path) : Prop := String.prefix ".state-primary-" (hd EmptyString p) = false.

Lemma wp_writeSessionState p st w :
  world_wf w -> not_temporary p ->
  wp (writeSessionState p st) w (fun r w' => framed (fun q => q = p) w w'
    /\ (is_ok r = true -> exists data, encodeSessionState st = Ok data /\ file_data w' p = Some data /\ durable w' p)
    /\ forall old, file_data w p = Some old ->
         file_data w' p = Some old \/ exists data, encodeSessionState st = Ok data /\ file_data w' p = Some data).
Proof.
  intros Hw Hnt. unfold StateFile.writeSessionState. rewrite wp_bind, wp_lift.
  destruct (encodeSessionState st) as [data|e]; [|split_and!; [by apply framed_refl|done|by left]].
  rewrite wp_bind, wp_wrap. eapply wp_mono; [by apply wp_CreateTemp|]. intros [[t tp]|e] w1 Ht.
  - destruct Ht as (Ht & Hp & Ha & Etp).
    eapply wp_mono; [apply wp_commitSessionState; [exact Ht|done|done|]|].
    + intros ->. rewrite Etp in Hnt. unfold not_temporary, temporary_name in Hnt. simpl hd in Hnt.
      by rewrite prefix_app in Hnt.
    + intros r w2 [[Hf Hr] Hold]. split_and!; [done| |].
      * intros Hok. destruct (Hr Hok). eauto.
      * intros old Ho. destruct (Hold old Ho); eauto.
  - destruct Ht as [Hw1 Hf]. split_and!; [split; [done|by apply frame_nothing]|done|].
    intros old Ho. left. apply (frame_file_data nothing w); [done|by intros []|done].
Qed.

(** Only the state file is touched, whatever its name. *)
Lemma temp_away (P : path -> Prop) w0 tp n d sy w : temp_file w0 tp n d sy w -> away P w0 w.
Proof. intros Ht. apply (framed_away _ nothing); [by intros q []|apply Ht]. Qed.
Lemma published_away (P : path -> Prop) w0 tp p n d sy w : P p -> published w0 tp p n d sy w -> away P w0 w.
Proof. intros HP Hp. eapply framed_away; [|apply Hp]. by intros q ->. Qed.
Lemma commit_open_away {A} w0 tp p d (r : result A) w :
  commit_open w0 tp p d r w -> away (fun q => q = p) w0 w.
Proof.
  destruct r as [a|e]; simpl; [intros (n & Hp & _)|intros [(n & d' & Ht)|(n & Hp)]]; eauto using temp_away, published_away.
Qed.

Lemma keeps_away_writeSessionState w0 p st :
  world_wf w0 -> keeps (away (fun q => q = p) w0) (writeSessionState p st).
Proof.
  intros Hw0. apply (keeps_away_weaken (fun q => q = p)); [done..|]. intros w1 Hw1 w Ha.
  eapply away_trans; [done|exact Ha|]. pose proof (aw_wf _ _ _ Ha) as Hw.
  change (wp (writeSessionState p st) w (fun _ w' => away (fun q => q = p) w w')).
  unfold StateFile.writeSessionState. rewrite wp_bind, wp_lift.
  destruct (encodeSessionState st) as [data|e]; [|by apply away_refl].
  rewrite wp_bind, wp_wrap. eapply wp_mono; [by apply wp_CreateTemp|]. intros [[t tp]|e] w2 Ht.
  - destruct Ht as (Ht & Hp & Happ & _). unfold commitSessionState. rewrite wp_defer.
    eapply wp_mono; [by apply wp_commit_body|]. intros r w3 Hopen.
    apply (wp_kept (away (fun q => q = p) w)); [|by eapply commit_open_away].
    apply keeps_away_Remove. right. apply Ht.
  - apply (framed_away _ nothing); [by intros q []|done].
Qed.
Lemma keeps_away_writeSessionStateWithTemporary (P : path -> Prop) w0 p tp st :
  world_wf w0 -> P p -> P tp -> keeps (away P w0) (writeSessionStateWithTemporary json_Marshal p tp st).
Proof.
  intros Hw0 Hp Htp w Ha. change (wp (writeSessionStateWithTemporary json_Marshal p tp st) w (fun _ w' => away P w0 w')).
  unfold writeSessionStateWithTemporary. destruct (bool_decide _); simpl; [|done]. rewrite wp_bind, wp_lift.
  destruct (StateFile.encodeSessionState json_Marshal st) as [data|e]; [|done].
  rewrite wp_bind, wp_wrap. eapply wp_mono; [by apply wp_Create_away|]. intros [f|e] w2 [Ha2 Hf]; [|done].
  destruct (Hf f eq_refl) as [_ Hm]. specialize (Hm (or_introl Htp)).
  apply (wp_kept (away P w0)); [|done]. unfold commitSessionState, write_file, sync_file. keeps.
Qed.
Lemma keeps_loadSessionState (P : world -> Prop) `{TickStable P} p : keeps P (loadSessionState json_Unmarshal p).
Proof. unfold loadSessionState, readSessionState. keeps. Qed.

#[export, refine] Instance plain_store_law : @StateStoreLaw (plain_store json_Marshal json_Unmarshal) := {|
  state_files := fun p q => q = p;
|}.
Proof.
  - intros w p st Hw. by apply keeps_away_writeSessionState.
  - intros w p tp st Hw. apply keeps_away_writeSessionStateWithTemporary; auto.
  - intros w p st id Hw. apply keeps_ret.
  - intros w p Hw. apply keeps_loadSessionState, _.
Defined.

Lemma load_fine p data st w :
  w_faults w = [] -> file_data w p = Some data -> json_Unmarshal data = Ok st -> check_state st = Current ->
  (loadSessionState json_Unmarshal p w).1 = Ok st.
Proof.
  intros Hf Hd Hj Hc. unfold loadSessionState, readSessionState, bind. unfold os_Stat, syscall, next_outcome. rewrite Hf.
  pose proof Hd as Hd'. unfold file_data, inode_of in Hd'. simpl.
  destruct (w_names w !! p) as [n|]; [|done]. simpl in Hd'. destruct (w_inodes w !! n) as [i|]; [|done]. simpl.
  destruct (ReadFile_fine p data (tick w [])) as (w2 & -> & _); [done|done|]. simpl. by rewrite Hj, Hc.
Qed.
End StateFileLaws.

(** The state file is replaced atomically.  Whatever fails during
    [writeSessionState], no other file is touched and an existing state file has
    its old contents or the complete new ones; when the call succeeds the file is
    durable and loading it gives back the state that was written. *)
Theorem state_replace_atomic json_Marshal json_Unmarshal p st w :
  world_wf w -> not_temporary p -> check_state st = Current ->
  (forall data, encodeSessionState json_Marshal st = Ok data -> json_Unmarshal data = Ok st) ->
  wp (writeSessionState json_Marshal p st) w (fun r w' =>
    framed (fun q => q = p) w w'
    /\ (forall old, file_data w p = Some old ->
          file_data w' p = Some old \/ exists data, encodeSessionState json_Marshal st = Ok data /\ file_data w' p = Some data)
    /\ (r = Ok tt -> durable w' p /\ (loadSessionState json_Unmarshal p (tick w' [])).1 = Ok st)).
Proof.
  intros Hw Hnt Hc Hj. eapply wp_mono; [by apply wp_writeSessionState|]. intros r w' (Hf & Hok & Hold).
  split_and!; auto. intros ->. destruct (Hok eq_refl) as (data & He & Hd & Hdur). split; [done|].
  eapply load_fine; eauto.
Qed.

(** A session of 15 base bytes and a delta of three. *)
Definition sample_dir : path := ["id"; "sessions"; "fs"; "store"]%string.
Definition sample_statePath : path := "state.json"%string :: sample_dir.
Definition sample_delta : path := "delta.jsonl"%string :: sample_dir.
Definition sample_digest : string := hex_EncodeToString (replicate 32 Byte.x61).
Definition sample_template (generation : Z) (backing : option path) : SessionState :=
  {| ss_Version := 2; ss_SessionID := "id"; ss_Generation := generation;
     ss_ManifestPath := ["m"; "manifests"; "store"]%string; ss_ManifestSHA256 := sample_digest;
     ss_BaseBytes := 15; ss_BaseSHA256 := sample_digest; ss_DeltaPath := sample_delta; ss_BackingPath := backing;
     ss_NativeSnapshot := no_native |}.
Definition sample_state : SessionState := sample_template 1 None.
(** Its states differ in the generation and the backing only. *)
Definition toy_Marshal (st : SessionState) : result bytes :=
  Ok (le_bytes 8 (ss_Generation st) ++ match ss_BackingPath st with Some (name :: _) => string_bytes name | _ => [] end).
Definition toy_Unmarshal (data : bytes) : result SessionState := Ok (sample_template (le_val (take 8 data)) None).
Definition sample_world (faults : list outcome) : world :=
  {| w_names := {[ sample_delta := 0%nat; sample_statePath := 1%nat ]};
     w_inodes := {[ 0%nat := {| i_data := [Byte.x61; Byte.x62; Byte.x0a]; i_mtime := 0; i_synced := true |};
                    1%nat := {| i_data := le_bytes 8 1 ++ [Byte.x0a]; i_mtime := 0; i_synced := true |} ]};
     w_dirs := list_to_set (ancestors sample_dir); w_durable := {[ sample_delta; sample_statePath ]};
     w_next := 2%nat; w_clock := 0; w_faults := faults; w_locked := ∅ |}.

Lemma sample_session_world_wf faults : world_wf (sample_world faults).
Proof.
  split; simpl.
  - intros p n Hn. apply lookup_insert_Some in Hn as [[<- <-]|[_ Hn]]; [by eexists|].
    apply lookup_singleton_Some in Hn as [<- <-]. by eexists.
  - intros n [i Hi]. apply lookup_insert_Some in Hi as [[<- _]|[_ Hi]]; [lia|].
    apply lookup_singleton_Some in Hi as [<- _]. lia.
Qed.

Lemma state_replace_atomic_witness :
  let r := writeSessionState toy_Marshal sample_statePath (sample_template 2 None) (sample_world []) in
  r.1 = Ok tt /\ durable r.2 sample_statePath
  /\ (loadSessionState toy_Unmarshal sample_statePath (tick r.2 [])).1 = Ok (sample_template 2 None).
Proof.
  assert ((writeSessionState toy_Marshal sample_statePath (sample_template 2 None) (sample_world [])).1 = Ok tt) as Hr
    by (vm_compute; reflexivity).
  split; [exact Hr|].
  refine (proj2 (proj2 (state_replace_atomic toy_Marshal toy_Unmarshal sample_statePath (sample_template 2 None)
    (sample_world []) (sample_session_world_wf []) _ _ _)) Hr).
  - reflexivity.
  - vm_compute. reflexivity.
  - intros data Hd. injection Hd as <-. vm_compute. reflexivity.
Defined.
