(* ===== verification/Cow.v ===== *)
(** Copy-on-write and materialization of a virtual session
    ([internal/vfs/session.go]: [ensureBacking], [MaterializeCurrent],
    [hashNativePath]).

    A random write or a change of size first copies the visible bytes into a
    native backing file: a temporary copy is written, synced and verified, renamed
    into place and made durable, and the next generation is published; the journal
    records every phase.  Whatever fails, the session shows the bytes it showed. *)
From S2P Require Import Prelude GoStd Effects ObjectReader PackIndex PackResolver Manifest View Os Budget Mutation Lease Session StateFile.

Section Cow.
Context {R : Type} `{ObjectReader R} `{StateStore}.
Variable sha256 : bytes -> bytes.
Variable json_journal : JournalRecord -> result bytes.
Variable pid : string.
Variable reserve_roots : list path.
Variable random : world -> string * string.

Definition digest (data : bytes) : string := hex_EncodeToString (sha256 data).

(** [io.Copy] into a hash, then [Close], both errors being looked at afterwards. *)
Definition hash_file (p : path) : OS (result bytes * option error) :=
  let* file := os_Open p in
  let* copied := try_ (file_ReadAll file) in
  let* closeErr := error_of (file_Close file) in
  ret (copied, closeErr).

Definition hashNativePath (p : path) : OS NativeFile :=
  let* (copied, closeErr) := hash_file p in
  match copied, closeErr with
  | Err e, _ => fail e
  | Ok _, Some e => fail e
  | Ok d, None => ret {| nf_Path := Some p; nf_Bytes := zlen d; nf_SHA256 := digest d |}
  end.

(** ** Copying what a reader shows

    The loops of [ensureBacking] and [MaterializeCurrent] differ in one point: the
    former stops at a read that returns nothing ([stop]), the latter does not. *)
Definition buffer_bytes : Z := 2 ^ 20.
Definition fuel_exhausted : error := Sentinel "out of fuel".

(** One read and the write of what it returned. *)
Definition copy_step (format : string) (ctx : Ctx) (offset : Z) (hashed : bytes) (temporary : File)
  : Reading (R := R) (Z * option error * Ctx * (Z * bytes * File)) :=
  let* hw := get in
  let need := Z.min buffer_bytes (rh_size hw.1 - offset) in
  let* (res, ctx) := handle_ReadAt ctx (replicate (Z.to_nat need) Byte.x00) offset in
  let data := ztake (rn res) (rdata res) in
  if rn res >? 0 then
    let* temporary := reading_disk (write_file format temporary data) in
    ret (rn res, rerr res, ctx, (offset + rn res, hashed ++ data, temporary))
  else ret (rn res, rerr res, ctx, (offset, hashed, temporary)).

Fixpoint copy_loop (fuel : nat) (stop : bool) (format : string) (ctx : Ctx) (offset : Z) (hashed : bytes)
    (temporary : File) : Reading (R := R) (Z * bytes * File) :=
  let* hw := get in
  if offset <? rh_size hw.1 then
    match fuel with
    | O => fail fuel_exhausted
    | S fuel =>
        let '(err, ctx) := ctx_Err ctx in
        match err with
        | Some e => ignore (reading_disk (file_Close temporary)) ;;; fail e
        | None =>
            let* (n, readErr, ctx, (offset, hashed, temporary)) := copy_step format ctx offset hashed temporary in
            match not_eof readErr with
            | Some e => ignore (reading_disk (file_Close temporary)) ;;; fail e
            | None =>
                if stop && (n =? 0) then ret (offset, hashed, temporary)
                else copy_loop fuel stop format ctx offset hashed temporary
            end
        end
    end
  else ret (offset, hashed, temporary).

(** Running a reader inside a session. *)
Definition with_handle {A} (h : ReadHandle R) (m : Reading A) : Sess (R := R) A := fun '(s, w) =>
  let '(r, (_, w)) := m (h, w) in (r, (s, w)).

Definition copy_fuel (h : ReadHandle R) : nat := S (Z.to_nat (rh_size h)).

Definition journal (directory : path) (record : JournalRecord) : Sess (R := R) unit :=
  on_disk (appendJournal json_journal directory record).

Definition before_phase (phase : string) : Sess (R := R) unit := fun s =>
  match se_beforeCOWPhase s.1 with
  | None => ret tt s
  | Some hook => on_disk (hook phase) s
  end.

Definition backing_path (directory : path) (generation : Z) : path :=
  String.append "backing-" (String.append (format_020d generation) ".jsonl") :: directory.

(** The copy of the visible bytes into a temporary file, up to its verification. *)
Definition copy_backing (ctx : Ctx) (reader : ReadHandle R) (temporary : File) (temporaryPath : path)
  : Sess (R := R) NativeFile :=
  or_else (on_disk (file_Chmod temporary)) (on_disk (file_Close temporary)) ;;;
  let* (offset, hashed, temporary) :=
    with_handle reader (copy_loop (copy_fuel reader) true "write temporary backing: %w" ctx 0 [] temporary) in
  if negb (offset =? rh_size reader) then
    ignore (on_disk (file_Close temporary)) ;;;
    fail (errors_new "temporary backing source read ended early")
  else
    on_disk (sync_file "sync temporary backing: %w" temporary) ;;;
    on_disk (wrap "close temporary backing: %w" (file_Close temporary)) ;;;
    let* verified := on_disk (hashNativePath temporaryPath) in
    if negb (nf_Bytes verified =? rh_size reader) || negb (string_is (nf_SHA256 verified) (digest hashed)) then
      fail (errors_new "temporary backing verification failed")
    else ret verified.

Definition cow_record (st : SessionState) (generation : Z) (verified : NativeFile) (phase : string)
    (temp final : option path) (candidate : option SessionState) : JournalRecord :=
  {| jr_OperationID := String.append "cow-" (format_020d generation);
     jr_SessionID := ss_SessionID st; jr_Kind := "copy-on-write"; jr_Phase := phase;
     jr_TempPath := temp; jr_FinalPath := final; jr_Candidate := candidate; jr_Native := verified |}.

(** The publication of the generation whose backing file is in place. *)
Definition publish_generation (currentGeneration : Z) (verified : NativeFile) (backingPath : path)
  : Sess (R := R) path :=
  let next := u64 (currentGeneration + 1) in
  let* s := get in
  let directory := se_directory s.1 in
  let record st phase candidate :=
    cow_record st currentGeneration verified phase None (Some backingPath) (Some candidate) in
  journal directory (record (se_state s.1) "after-file-publish"%string (with_backing (se_state s.1) next backingPath)) ;;;
  before_phase "after-file-publish" ;;;
  let* s := get in
  if negb (ss_Generation (se_state s.1) =? currentGeneration)
     || bool_decide (is_Some (ss_BackingPath (se_state s.1))) then
    fail (errors_new "session generation changed during copy-on-write")
  else
    let candidate := with_backing (se_state s.1) next backingPath in
    on_disk (publishSessionState (se_statePath s.1) candidate) ;;;
    on_session (set_state candidate) ;;;
    journal directory (record candidate "state-published"%string candidate) ;;;
    journal directory (record candidate "complete"%string candidate) ;;;
    ret backingPath.

(** The publication of a verified copy as the backing of the next generation. *)
Definition publish_backing (currentGeneration : Z) (temporaryPath : path) (verified : NativeFile)
  : Sess (R := R) path :=
  let* s := get in
  let directory := se_directory s.1 in
  journal directory (cow_record (se_state s.1) currentGeneration verified "data-synced"
    (Some temporaryPath) None None) ;;;
  before_phase "before-publish" ;;;
  let backingPath := backing_path directory (u64 (currentGeneration + 1)) in
  wrap "publish session backing: %w" (on_disk (os_Rename temporaryPath backingPath)) ;;;
  on_disk (sync_dir directory) ;;;
  publish_generation currentGeneration verified backingPath.

Definition ensureBacking (ctx : Ctx) : Sess (R := R) path :=
  let* s := get in
  match ss_BackingPath (se_state s.1) with
  | Some p => ret p
  | None =>
      let currentGeneration := ss_Generation (se_state s.1) in
      let* reader := OpenReader pid reserve_roots random in
      defer_ (handle_Close reader) (
        let* s := get in
        lift (se_budget s.1 {| pj_Operation := "copy-on-write"; pj_AdditionalPersistentBytes := rh_size reader;
          pj_TemporaryBytes := rh_size reader; pj_TemporaryPersistentOverlapBytes := rh_size reader;
          pj_ReclaimableBytes := 0 |} s.2) ;;;
        let* (temporary, temporaryPath) :=
          wrap "create temporary backing: %w" (on_disk (os_CreateTemp (se_directory s.1) ".backing-" ".tmp")) in
        defer_ (on_disk (os_Remove temporaryPath)) (
          let* verified := copy_backing ctx reader temporary temporaryPath in
          publish_backing currentGeneration temporaryPath verified))
  end.

(** The copy to a temporary file, its renaming and the verification of the target. *)
Definition materialize_copy (ctx : Ctx) (fuel : nat) (reader : ReadHandle R) (temporary : File)
    (temporaryPath target : path) : Sess (R := R) NativeFile :=
  or_else (on_disk (file_Chmod temporary)) (on_disk (file_Close temporary)) ;;;
  let* (offset, hashed, temporary) :=
    with_handle reader (copy_loop fuel false "%w" ctx 0 [] temporary) in
  on_disk (sync_file "%w" temporary) ;;;
  on_disk (file_Close temporary) ;;;
  on_disk (os_Rename temporaryPath target) ;;;
  on_disk (sync_dir (filepath_Dir target)) ;;;
  let expected := {| nf_Path := Some target; nf_Bytes := offset; nf_SHA256 := digest hashed |} in
  let* verified := on_disk (hashNativePath target) in
  if negb (nf_Bytes verified =? nf_Bytes expected) || negb (string_is (nf_SHA256 verified) (nf_SHA256 expected))
  then fail (errors_new "materialized current session verification failed")
  else ret expected.

Definition MaterializeCurrent (ctx : Ctx) (fuel : nat) (target : path) (overwrite : bool)
  : Sess (R := R) NativeFile :=
  (if overwrite then ret tt
   else
     let* existing := try_ (on_disk (os_Stat target)) in
     throw (match existing with
            | Ok _ => Some (errors_new "materialize target already exists: %s")
            | Err e => if is_NotExist e then None else Some e
            end)) ;;;
  let* reader := OpenReader pid reserve_roots random in
  defer_ (handle_Close reader) (
    let* reclaimableBytes :=
      if overwrite then
        let* info := try_ (on_disk (os_Stat target)) in
        match info with
        | Ok info => ret (if fi_regular info then fi_size info else 0)
        | Err e => if is_NotExist e then ret 0 else fail e
        end
      else ret 0 in
    let* s := get in
    lift (se_budget s.1 {| pj_Operation := "materialize-current"; pj_AdditionalPersistentBytes := rh_size reader;
      pj_TemporaryBytes := rh_size reader; pj_TemporaryPersistentOverlapBytes := rh_size reader;
      pj_ReclaimableBytes := reclaimableBytes |} s.2) ;;;
    on_disk (os_MkdirAll (filepath_Dir target)) ;;;
    let* (temporary, temporaryPath) := on_disk (os_CreateTemp (filepath_Dir target) ".materialize-" ".tmp") in
    defer_ (on_disk (os_Remove temporaryPath)) (
      materialize_copy ctx fuel reader temporary temporaryPath target)).
End Cow.

(** ** What the copy loop copies *)

Lemma holds_app g n m (hashed data : bytes) :
  zlen hashed = n -> 0 <= m <= zlen data -> holds g 0 n hashed -> holds g n m data ->
  holds g 0 (n + m) (hashed ++ ztake m data).
Proof.
  intros Hn Hm Hh Hd j Hj. unfold zlen in *. destruct (Z.lt_ge_cases j n) as [Hlt|Hge].
  - rewrite lookup_app_l by lia. apply Hh. lia.
  - destruct (Hd (j - n)) as (b & Hb & Hg); [lia|]. exists b. rewrite lookup_app_r by lia.
    replace (Z.to_nat j - length hashed)%nat with (Z.to_nat (j - n)) by lia. split.
    + unfold ztake. by rewrite lookup_take_lt by lia.
    + rewrite <- Hg. f_equal. lia.
Qed.

Section CopyLaws.
Context {R : Type} `{ObjectReaderLaw R}.

Lemma wp_with_handle {A} (h : ReadHandle R) (m : Reading A) (s : Session R) w Q :
  wp (with_handle h m) (s, w) Q <-> wp m (h, w) (fun r hw => Q r (s, hw.2)).
Proof. unfold wp, with_handle. by destruct (m (h, w)) as [r [h' w']]. Qed.
Lemma wp_reading_disk {A} (m : OS A) (h : ReadHandle R) w Q :
  wp (reading_disk m) (h, w) Q <-> wp m w (fun r w' => Q r (h, w')).
Proof. unfold reading_disk. by rewrite wp_zoom. Qed.

(** New files do not change what a reader shows. *)
Lemma framed_handle (h : ReadHandle R) P w0 w :
  framed P w0 w -> handle_ok h w0 -> handle_ok h w /\ forall p, handle_byte h w p = handle_byte h w0 p.
Proof.
  intros [_ Hf] [(i & Hi & Hlen) Hb]. destruct (fr_inodes _ _ _ Hf _ _ Hi) as (i' & Hi' & Hd & _).
  split.
  - split; [|done]. exists i'. by rewrite Hd.
  - intros p. unfold handle_byte. by rewrite (handle_data_eq _ _ _ Hi), (handle_data_eq _ _ _ Hi'), Hd.
Qed.

Definition copy_post (stop : bool) (w0 : world) (tp : path) (n : nat) (g : Z -> option byte) (size : Z)
    (r : result (Z * bytes * File)) (hw : ReadHandle R * world) : Prop :=
  match r with
  | Ok (offset, hashed, temporary) =>
      temp_file w0 tp n hashed false hw.2 /\ f_ino temporary = n /\ zlen hashed = offset /\ offset <= size
      /\ (stop = false -> offset = size) /\ holds g 0 offset hashed
  | Err _ => exists d, temp_file w0 tp n d false hw.2
  end.

(** Where the loop stands: [hashed] has been copied, and is what the file shows
    up to [offset]. *)
Record copying (w0 : world) (tp : path) (n : nat) (g : Z -> option byte) (size : Z)
    (h : ReadHandle R) (w : world) (offset : Z) (hashed : bytes) (temporary : File) : Prop := {
  cp_handle : handle_ok h w0;
  cp_shows : forall p, handle_byte h w0 p = g p;
  cp_size : rh_size h = size;
  cp_temp : temp_file w0 tp n hashed false w;
  cp_end : at_end temporary n hashed;
  cp_offset : zlen hashed = offset;
  cp_bound : offset <= size;
  cp_holds : holds g 0 offset hashed;
}.

Lemma wp_copy_step format ctx offset hashed temporary h w w0 tp n g size :
  copying w0 tp n g size h w offset hashed temporary -> offset < size ->
  wp (copy_step format ctx offset hashed temporary) (h, w) (fun r hw =>
    match r with
    | Ok (k, _, _, (offset', hashed', temporary')) =>
        copying w0 tp n g size hw.1 hw.2 offset' hashed' temporary' /\ 0 <= k /\ offset' = offset + k
    | Err _ => exists d, temp_file w0 tp n d false hw.2
    end).
Proof.
  intros [Hok Hg Hsize Ht He Hz Hle Hh] Hlt. pose proof (zlen_nonneg hashed). unfold copy_step.
  rewrite wp_bind, wp_get. cbv beta zeta. simpl fst. rewrite Hsize. set (need := Z.min buffer_bytes (size - offset)).
  assert (0 < need) as Hneed by (unfold need, buffer_bytes; lia).
  destruct (framed_handle h nothing w0 w) as [Hokw Hbw]; [apply Ht|done|].
  rewrite wp_bind. eapply wp_mono; [apply handle_ReadAt_spec; [done|lia]|].
  intros r [h1 w1] (res & ctx2 & -> & Hs1 & Hm & Hzl & Hn & Hhold & _). cbv beta iota. simpl in Hs1, Hm.
  pose proof (temp_same_files _ _ _ _ _ _ _ Ht Hs1) as Ht1.
  assert (zlen (replicate (Z.to_nat need) Byte.x00) = need) as Hzn by (unfold zlen; rewrite length_replicate; lia).
  rewrite Hzn in Hn, Hzl.
  assert (forall w' d o t, temp_file w0 tp n d false w' -> at_end t n d -> zlen d = o -> o <= size -> holds g 0 o d ->
    copying w0 tp n g size h1 w' o d t) as Hnext.
  { intros w' d o t Ht' He' Hz' Ho' Hh'. split; auto.
    - eapply moved_ok; [exact Hok|done|apply same_files_refl].
    - intros p. rewrite <- Hg. apply moved_byte; [done|apply same_files_refl].
    - by destruct Hm as [->|(r' & -> & _)]. }
  destruct (rn res >? 0) eqn:En; zbool.
  - rewrite wp_bind, wp_reading_disk. eapply wp_mono; [by eapply wp_write_file|].
    intros [t|e] w2 Hw2; [|exact Hw2]. destruct Hw2 as [Ht2 He2]. rewrite wp_ret. split_and!; try lia.
    assert (zlen (ztake (rn res) (rdata res)) = rn res) as Hzt by (rewrite zlen_ztake; lia).
    apply Hnext; auto.
    + rewrite zlen_app. lia.
    + unfold need in Hn. lia.
    + apply holds_app; auto; [lia|]. eapply holds_ext; [|exact Hhold]. intros p _. by rewrite Hbw.
  - rewrite wp_ret. split_and!; try lia. by apply Hnext.
Qed.

Lemma wp_copy_stop stop w0 tp n g size d t (h : ReadHandle R) w e :
  temp_file w0 tp n d false w ->
  wp (ignore (reading_disk (file_Close t)) ;;; fail e) (h, w) (copy_post stop w0 tp n g size).
Proof.
  intros Ht. rewrite wp_bind, wp_ignore, wp_reading_disk.
  eapply wp_mono; [apply (wp_kept (temp_file w0 tp n d false)); [apply keeps_Close, _|done]|].
  intros r w2 Ht2. rewrite wp_fail. by exists d.
Qed.

Lemma wp_copy_loop fuel stop format ctx offset hashed temporary h w w0 tp n g size :
  copying w0 tp n g size h w offset hashed temporary ->
  wp (copy_loop fuel stop format ctx offset hashed temporary) (h, w) (copy_post stop w0 tp n g size).
Proof.
  revert ctx offset hashed temporary h w.
  induction fuel as [|fuel IH]; intros ctx offset hashed temporary h w Hc; pose proof Hc as [_ _ Hsize Ht He Hz Hle Hh];
    cbn [copy_loop]; rewrite wp_bind, wp_get; cbv beta zeta; simpl fst; rewrite Hsize;
    (destruct (offset <? size) eqn:E; zbool; [|rewrite wp_ret; split_and!; auto; [apply He|lia]]).
  { rewrite wp_fail. by exists hashed. }
  destruct (ctx_Err ctx) as [[e|] ctx1]; [by eapply wp_copy_stop|].
  rewrite wp_bind. eapply wp_mono; [by eapply wp_copy_step|].
  intros [[[[k readErr] ctx2] [[o d] t]]|e] [h2 w2] Hr; [|exact Hr]. destruct Hr as (Hc2 & Hk & Ho). simpl in Hc2.
  destruct (not_eof readErr) as [e|]; [eapply wp_copy_stop, Hc2|].
  destruct (stop && (k =? 0)) eqn:Est; [|by apply IH].
  rewrite wp_ret. destruct Hc2. split_and!; auto; [by destruct cp_end0|by intros ->].
Qed.

(** *** Termination

    A loop that stops at empty reads takes at most one iteration per byte left:
    more fuel changes nothing. *)
Lemma bind_get {S A} (f : S -> M S A) s : bind get f s = f s s.
Proof. done. Qed.

Lemma copy_loop_fuel fuel fuel' format ctx offset hashed temporary h w w0 tp n g size :
  copying w0 tp n g size h w offset hashed temporary ->
  (Z.to_nat (size - offset) < fuel)%nat -> (Z.to_nat (size - offset) < fuel')%nat ->
  copy_loop fuel true format ctx offset hashed temporary (h, w)
  = copy_loop fuel' true format ctx offset hashed temporary (h, w).
Proof.
  revert fuel' ctx offset hashed temporary h w.
  induction fuel as [|fuel IH]; intros [|fuel'] ctx offset hashed temporary h w Hc Hf Hf'; try lia.
  cbn [copy_loop]. rewrite !bind_get. cbn [fst]. rewrite (cp_size _ _ _ _ _ _ _ _ _ _ Hc).
  destruct (offset <? size) eqn:E; [|done]. zbool. destruct (ctx_Err ctx) as [[e|] ctx1]; [done|].
  apply bind_ext. eapply wp_mono; [by eapply wp_copy_step|].
  intros r [h2 w2] Hr [[[k readErr] ctx2] [[o d] t]] ->. destruct Hr as (Hc2 & Hk & Ho). simpl in Hc2.
  destruct (not_eof readErr) as [e|]; [done|]. destruct (k =? 0) eqn:Ek; [done|]. zbool. simpl.
  apply IH; [done|lia..].
Qed.

Context `{StateStore}.
Variable sha256 : bytes -> bytes.

Lemma keeps_hashNativePath (P : world -> Prop) `{TickStable P} p : keeps P (hashNativePath sha256 p).
Proof. unfold hashNativePath, hash_file. keeps. Qed.

(** A verified copy: synced, and equal to what the reader shows. *)
Lemma wp_copy_backing ctx (reader : ReadHandle R) temporary tp (s : Session R) w w0 :
  handle_ok reader w0 -> 0 <= rh_size reader ->
  temp_file w0 tp (f_ino temporary) [] false w -> f_pos temporary = 0 -> f_append temporary = false ->
  wp (copy_backing sha256 ctx reader temporary tp) (s, w) (fun r sw => sw.1 = s /\
    match r with
    | Ok _ => exists d, temp_file w0 tp (f_ino temporary) d true sw.2 /\ zlen d = rh_size reader
                /\ holds (handle_byte reader w0) 0 (rh_size reader) d
    | Err _ => exists d, temp_file w0 tp (f_ino temporary) d false sw.2
    end).
Proof.
  intros Hok Hsize Ht Hp Ha. set (n := f_ino temporary) in *. unfold copy_backing.
  assert (forall A (m : OS A) d sy w, (forall s, keeps (temp_file w0 tp n d s) m) -> temp_file w0 tp n d sy w ->
    wp (on_disk m) (s, w) (fun _ sw => sw.1 = s /\ temp_file w0 tp n d sy sw.2)) as Hquiet.
  { intros A m d sy w1 Hm Ht1. rewrite wp_on_disk. eapply wp_mono; [by apply (wp_kept (temp_file w0 tp n d sy))|].
    done. }
  rewrite wp_bind, wp_or_else.
  eapply wp_mono; [apply (Hquiet _ _ [] false); [intros s'; apply keeps_pure; [apply _|done]|done]|].
  intros [u|e] [s1 w1] [Es1 Ht1]; simpl in Es1, Ht1; subst s1.
  2: { eapply wp_mono; [apply (Hquiet _ _ [] false); [intros s'; apply keeps_Close, _|done]|].
       intros r [s1 w2] [Es2 Ht2]. split; [done|]. by exists []. }
  rewrite wp_bind, wp_with_handle.
  eapply wp_mono; [apply (wp_copy_loop _ _ _ _ _ _ _ reader w1 w0 tp n (handle_byte reader w0) (rh_size reader));
    by split; auto using holds_0; split_and!|].
  intros [[[offset hashed] t]|e] [h2 w2] Hr; [|by split]. destruct Hr as (Ht2 & Hi2 & Hz2 & Hle & _ & Hh2).
  cbn [fst snd] in *. destruct (offset =? rh_size reader) eqn:Eo; zbool; simpl.
  2: { rewrite wp_bind, wp_ignore. eapply wp_mono; [apply (Hquiet _ _ hashed false); [intros s'; apply keeps_Close, _|done]|].
       intros r [s1 w3] [Es3 Ht3]. split; [done|]. by exists hashed. }
  rewrite wp_bind, wp_on_disk. eapply wp_mono; [by eapply wp_sync_file_temp|].
  intros [u3|e] w3 Ht3; [|split; [done|]; by exists hashed].
  rewrite wp_bind, wp_on_disk, wp_wrap.
  eapply wp_mono; [apply (wp_kept (temp_file w0 tp n hashed true)); [apply keeps_Close, _|done]|].
  intros [u4|e] w4 Ht4; [|split; [done|]; exists hashed; by eapply temp_unsynced].
  rewrite wp_bind. eapply wp_mono; [apply (Hquiet _ _ hashed true); [intros s'; apply keeps_hashNativePath, _|done]|].
  intros [verified|e] [s5 w5] [Es5 Ht5]; simpl in Es5, Ht5; subst s5;
    [|split; [done|]; exists hashed; by eapply temp_unsynced].
  case_match; [split; [done|]; exists hashed; by eapply temp_unsynced|].
  rewrite wp_ret. split; [done|]. exists hashed. split_and!; auto; [lia|]. by rewrite <- Eo.
Qed.

(** A materialized target: the only name of a durable file that shows the session. *)
Definition materialized (target : path) (g : Z -> option byte) (size : Z) (native : NativeFile) (w : world) : Prop :=
  exists n d, sole target n d w /\ world_wf w /\ durable w target /\ zlen d = size /\ holds g 0 size d
    /\ native = {| nf_Path := Some target; nf_Bytes := size; nf_SHA256 := digest sha256 d |}.

Lemma wp_materialize_copy ctx fuel (reader : ReadHandle R) temporary tp target (s : Session R) w w0 :
  handle_ok reader w0 -> 0 <= rh_size reader -> tp <> target ->
  temp_file w0 tp (f_ino temporary) [] false w -> f_pos temporary = 0 -> f_append temporary = false ->
  wp (materialize_copy sha256 ctx fuel reader temporary tp target) (s, w) (fun r sw => sw.1 = s
    /\ away (fun q => q = target) w0 sw.2 /\ forall native, r = Ok native ->
         materialized target (handle_byte reader w0) (rh_size reader) native sw.2 /\ w_names sw.2 !! tp = None).
Proof.
  intros Hok Hsize Hne Ht Hp Ha. set (n := f_ino temporary) in *. unfold materialize_copy. set (T := fun q => q = target).
  assert (forall d sy w', temp_file w0 tp n d sy w' -> away T w0 w') as Hta by (intros d sy w'; apply temp_away).
  assert (forall d sy w', published w0 tp target n d sy w' -> away T w0 w') as Hpa by (intros d sy w'; by apply published_away).
  rewrite wp_bind, wp_or_else, wp_on_disk.
  eapply wp_mono; [apply (wp_kept (temp_file w0 tp n [] false)); [by apply keeps_pure; [apply _|]|done]|].
  intros [u|e] w1 Ht1.
  2: { rewrite wp_on_disk. eapply wp_mono; [apply (wp_kept (temp_file w0 tp n [] false)); [apply keeps_Close, _|done]|].
       intros r w2 Ht2. split_and!; [done|exact (Hta _ _ _ Ht2)|done]. }
  rewrite wp_bind, wp_with_handle.
  eapply wp_mono; [apply (wp_copy_loop _ _ _ _ _ _ _ reader w1 w0 tp n (handle_byte reader w0) (rh_size reader));
    by split; auto using holds_0; split_and!|].
  intros [[[offset hashed] t]|e] [h2 w2] Hr; [|destruct Hr as [d Hr]; split_and!; [done|exact (Hta _ _ _ Hr)|done]]. destruct Hr as (Ht2 & Hi2 & Hz2 & Hle & Heq & Hh2).
  cbn [fst snd] in *. specialize (Heq eq_refl).
  rewrite wp_bind, wp_on_disk. eapply wp_mono; [by eapply wp_sync_file_temp|]. intros [u3|e] w3 Ht3; [|split_and!; [done|exact (Hta _ _ _ Ht3)|done]].
  rewrite wp_bind, wp_on_disk.
  eapply wp_mono; [apply (wp_kept (temp_file w0 tp n hashed true)); [apply keeps_Close, _|done]|].
  intros [u4|e] w4 Ht4; [|split_and!; [done|exact (Hta _ _ _ Ht4)|done]]. rewrite wp_bind, wp_on_disk.
  eapply wp_mono; [by apply wp_Rename_temp|]. intros [u5|e] w5 Hp5; [|split_and!; [done|exact (Hta _ _ _ Hp5)|done]].
  rewrite wp_bind, wp_on_disk. eapply wp_mono; [by eapply wp_sync_dir_published|]. intros [u6|e] w6 [Hp6 Hd6]; [|split_and!; [done|exact (Hpa _ _ _ Hp6)|done]].
  rewrite wp_bind, wp_on_disk.
  eapply wp_mono; [apply (wp_kept (same_files w6)); [apply keeps_hashNativePath, _|apply same_files_refl]|].
  intros [verified|e] w7 Hs7; (assert (away T w0 w7) as Ha7 by (eapply away_same_files; [exact (Hpa _ _ _ Hp6)|done])); [|done].
  case_match; [done|]. rewrite wp_ret. split_and!; [done|done|]. intros native [= <-].
  destruct Hp6 as [_ [Hw6 _] Htp6 _ Hn6 (i & Hi & Hdi & Hsy) Ho6]. pose proof Hs7 as (E1 & E2 & _ & E4 & _). simpl.
  split.
  - exists n, hashed. split_and!; auto.
    + split; rewrite ?E1, ?E2; eauto.
    + by eapply same_files_wf.
    + destruct (Hd6 eq_refl eq_refl) as [Hdur (j & Hj & Hjs)]. split; [by rewrite E4|]. exists j. split; [|done].
      unfold inode_of in *. by rewrite E1, E2.
    + lia.
    + by rewrite <- Heq.
    + by rewrite <- Heq.
  - rewrite E1. by destruct Htp6.
Qed.
End CopyLaws.

(** ** Copy-on-write *)

Section CowLaws.
Context {R : Type} `{ObjectReaderLaw R} `{StateStoreLaw}.
Variable sha256 : bytes -> bytes.
Variable json_journal : JournalRecord -> result bytes.
Variable pid : string.
Variable reserve_roots : list path.
Variable random : world -> string * string.
Local Abbreviation Session := (Session R).

(** The files of a session directory that hold no session bytes. *)
Definition bookkeeping (statePath dir q : path) : Prop :=
  state_files statePath q \/ q = journalPath dir \/ lease_file dir q.
(** Those and, before a copy, the names a copy may take. *)
Definition reserved (s : Session) (q : path) : Prop :=
  bookkeeping (se_statePath s) (se_directory s) q
  \/ (ss_BackingPath (se_state s) = None /\ exists g, q = backing_path (se_directory s) g).

(** A session in its directory: its state file, leases and hooks are where they
    belong, and the active file shares no inode with a reserved file. *)
Record layout (s : Session) (w : world) : Prop := {
  ly_leases : forall g l, se_readerLeaseFiles s !! g = Some l -> lease_file (se_directory s) (l_path l);
  ly_hook : forall hook phase w0, se_beforeCOWPhase s = Some hook ->
    keeps (away (bookkeeping (se_statePath s) (se_directory s)) w0) (hook phase);
  ly_backing : forall g, ~ bookkeeping (se_statePath s) (se_directory s) (backing_path (se_directory s) g);
  ly_temporary : forall w1, ~ bookkeeping (se_statePath s) (se_directory s) (temporary_name w1 ".backing-" ".tmp" :: se_directory s);
  ly_active : ~ reserved s (active_path (se_state s));
  ly_apart : apart (reserved s) (active_path (se_state s)) w;
}.

(** The session with the copy published as its backing. *)
Definition next_generation (s : Session) : Z := u64 (ss_Generation (se_state s) + 1).
Definition next_backing (s : Session) : path := backing_path (se_directory s) (next_generation s).
Record backed (s : Session) (w : world) (s2 : Session) (w2 : world) : Prop := {
  bk_state : se_state s2 = with_backing (se_state s) (next_generation s) (next_backing s);
  bk_view : se_view s2 = se_view s;
  bk_directory : se_directory s2 = se_directory s;
  bk_statePath : se_statePath s2 = se_statePath s;
  bk_budget : se_budget s2 = se_budget s;
  bk_hook : se_beforeCOWPhase s2 = se_beforeCOWPhase s;
  bk_leases : forall g l, se_readerLeaseFiles s2 !! g = Some l -> lease_file (se_directory s) (l_path l);
  bk_wf : world_wf w2;
  bk_away : away (reserved s) w w2;
  bk_file : exists n d, sole (next_backing s) n d w2 /\ durable w2 (next_backing s)
    /\ zlen d = visible_size s w /\ holds (visible_byte s w) 0 (zlen d) d;
}.

Lemma bookkeeping_leases statePath dir q : lease_file dir q -> bookkeeping statePath dir q.
Proof. intros Hq. right. by right. Qed.
Lemma bookkeeping_reserved s q : bookkeeping (se_statePath s) (se_directory s) q -> reserved s q.
Proof. by left. Qed.
#[local] Hint Resolve bookkeeping_leases bookkeeping_reserved : core.

Lemma keeps_away_journal (P : path -> Prop) w0 dir record :
  world_wf w0 -> P (journalPath dir) -> keeps (away P w0) (appendJournal json_journal dir record).
Proof.
  intros Hw0 HP w Ha. change (wp (appendJournal json_journal dir record) w (fun _ w' => away P w0 w')).
  unfold appendJournal. rewrite wp_bind, wp_lift. destruct (match json_journal record with Ok d => _ | Err e => _ end); [|done].
  rewrite wp_bind, wp_wrap. eapply wp_mono; [by apply wp_Create_away|]. intros [f|e] w2 [Ha2 Hf]; [|done].
  destruct (Hf f eq_refl) as [_ Hm]. specialize (Hm (or_introl HP)).
  rewrite wp_bind. apply wp_mono with (P := fun r w' => away P w0 w' /\ forall f', r = Ok f' -> f_ino f' = f_ino f).
  - apply (wp_keeps (away P w0)); [unfold write_file; keeps|done|]. unfold wp, write_file, file_Write, bind, ret.
    destruct (inode_Write _ _ _ w2) as [[[k [e|]]|e] w3]; simpl; [done|by intros f' [= <-]|done].
  - intros [f'|e] w3 [Ha3 Hf']; [|done]. apply (wp_kept (away P w0)); [|done]. keeps.
Qed.

(** Steps that write bookkeeping files only. *)
Definition at_stage (s1 : Session) (w1 : world) (sw : Session * world) : Prop :=
  sw.1 = s1 /\ away (bookkeeping (se_statePath s1) (se_directory s1)) w1 sw.2.

Lemma keeps_stage_disk {A} s1 w1 (m : OS A) :
  keeps (away (bookkeeping (se_statePath s1) (se_directory s1)) w1) m -> keeps (at_stage s1 w1) (on_disk m).
Proof.
  intros Hm [s w] [Es Ha]. simpl in Es, Ha. subst s. unfold on_disk, zoom. simpl. specialize (Hm w Ha).
  destruct (m w) as [r w']. by split.
Qed.
Lemma keeps_stage_journal s1 w1 record :
  world_wf w1 -> keeps (at_stage s1 w1) (journal json_journal (se_directory s1) record).
Proof. intros Hw. apply keeps_stage_disk, keeps_away_journal; [done|]. right. by left. Qed.
Lemma keeps_stage_hook s1 w1 phase :
  (forall hook phase w0, se_beforeCOWPhase s1 = Some hook ->
    keeps (away (bookkeeping (se_statePath s1) (se_directory s1)) w0) (hook phase)) ->
  keeps (at_stage s1 w1) (before_phase phase).
Proof.
  intros Hh [s w] Hs. pose proof Hs as [Es _]. simpl in Es. subst s. unfold before_phase. simpl.
  destruct (se_beforeCOWPhase s1) as [hook|] eqn:E; [|done]. by apply (keeps_stage_disk s1 w1 (hook phase)); [apply Hh|].
Qed.

(** The outcome: the session as it was, or backed; success means backed. *)
Definition cow_post (s : Session) (w : world) (r : result path) (sw : Session * world) : Prop :=
  (quiet_session (reserved s) (se_directory s) s w sw /\ is_ok r = false)
  \/ exists s2 w2, backed s w s2 w2 /\ quiet_session (bookkeeping (se_statePath s) (se_directory s)) (se_directory s) s2 w2 sw
       /\ forall p, r = Ok p -> p = next_backing s.

Lemma backing_not_temporary dir g w : backing_path dir g <> temporary_name w ".backing-" ".tmp" :: dir.
Proof. unfold backing_path, temporary_name. by intros [= Hc _]. Qed.

(** The same while the temporary name [tp] is still to be removed. *)
Definition cow_open (s : Session) (w : world) (tp : path) (r : result path) (sw : Session * world) : Prop :=
  (quiet_session (reserved s) (se_directory s) s w sw /\ is_ok r = false)
  \/ exists s2 w2, backed s w s2 w2 /\ w_names w2 !! tp = None
       /\ quiet_session (bookkeeping (se_statePath s) (se_directory s)) (se_directory s) s2 w2 sw
       /\ forall p, r = Ok p -> p = next_backing s.

Section Publish.
Variables (s : Session) (w : world) (s1 : Session) (w0 w1 : world).
Hypothesis Hlay : layout s w.
Hypothesis Hwf : world_wf w.
Hypothesis Hdelta : ss_BackingPath (se_state s) = None.
Local Abbreviation dir := (se_directory s).
Hypothesis Hq : quiet_session (bookkeeping (se_statePath s) dir) dir s w (s1, w0).

Lemma Hdir1 : se_directory s1 = dir.
Proof using Hq. by destruct Hq. Qed.
Lemma Hstate1 : se_statePath s1 = se_statePath s.
Proof using Hq. by destruct Hq. Qed.

(** A stage that began away from the reserved files has stayed away. *)
Lemma stage_quiet wb sw :
  away (reserved s) w wb -> at_stage s1 wb sw -> quiet_session (reserved s) dir s w sw.
Proof using Hq Hwf.
  intros Hb [Es Ha]. destruct sw as [s' w']. simpl in Es, Ha. subst s'. rewrite Hdir1, Hstate1 in Ha.
  destruct Hq. split; auto. simpl. eapply away_trans; [done|exact Hb|]. eapply away_mono; [|exact Ha]. auto.
Qed.
Lemma stage_refl wb : world_wf wb -> at_stage s1 wb (s1, wb).
Proof. intros Hb. split; [done|]. by apply away_refl. Qed.
Lemma quiet_reserved : quiet_session (reserved s) dir s w (s1, w0).
Proof using Hq. destruct Hq. split; auto. simpl. eapply away_mono; [|done]. auto. Qed.
Lemma hook1 : forall hook phase w0, se_beforeCOWPhase s1 = Some hook ->
    keeps (away (bookkeeping (se_statePath s1) (se_directory s1)) w0) (hook phase).
Proof using Hlay Hq.
  intros hook phase wb Hh. rewrite Hdir1, Hstate1. apply (ly_hook _ _ Hlay). rewrite <- Hh. symmetry. apply (qs_hook _ _ _ _ _ Hq).
Qed.

(** From the renamed and durable file to the published state. *)
Lemma wp_publish_generation n d tp wb verified :
  away (reserved s) w wb -> sole (next_backing s) n d wb -> durable wb (next_backing s) -> w_names wb !! tp = None ->
  zlen d = visible_size s w -> holds (visible_byte s w) 0 (zlen d) d ->
  wp (publish_generation json_journal (ss_Generation (se_state s)) verified (next_backing s)) (s1, wb) (cow_open s w tp).
Proof using Hlay Hwf Hdelta Hq.
  intros Hb Hsole Hdur Htp Hz Hh. pose proof (aw_wf _ _ _ Hb) as Hwb. pose proof (qs_state _ _ _ _ _ Hq) as Est. simpl in Est.
  assert (forall A (r : result A) sw, at_stage s1 wb sw -> forall e, cow_open s w tp (Err e) sw) as Hfail.
  { intros A r sw Hs e. left. split; [|done]. by eapply stage_quiet. }
  unfold publish_generation. rewrite wp_bind, wp_get. cbv beta zeta. simpl fst.
  rewrite wp_bind. eapply wp_mono; [apply (wp_kept (at_stage s1 wb)); [by apply keeps_stage_journal|by apply stage_refl]|].
  intros [u|e] sw1 Hs1; [|by apply (Hfail _ (Ok tt))]. rewrite wp_bind.
  eapply wp_mono; [apply (wp_kept (at_stage s1 wb)); [apply keeps_stage_hook, hook1|done]|].
  intros [u2|e] [s2 w2] Hs2; [|by apply (Hfail _ (Ok tt))]. rewrite wp_bind, wp_get. pose proof Hs2 as [E2 Ha2]. simpl in E2, Ha2. subst s2.
  simpl fst. rewrite Est, Z.eqb_refl, bool_decide_false by (rewrite Hdelta; by intros [? ?]). simpl.
  rewrite wp_bind. eapply wp_mono; [apply (wp_kept (at_stage s1 wb)); [|exact Hs2]|].
  { apply keeps_stage_disk. rewrite Hdir1, Hstate1. apply (keeps_away_weaken (state_files (se_statePath s))); [done|by left|].
    intros w' Hw'. by apply publish_away. }
  intros [u3|e] [s3 w3] Hs3; [|by apply (Hfail _ (Ok tt))]. pose proof Hs3 as [E3 Ha3]. simpl in E3, Ha3. subst s3.
  rewrite wp_bind. unfold on_session at 1. rewrite wp_modify. simpl fst. simpl snd.
  set (candidate := with_backing _ _ _). set (s2 := set_state candidate s1). rewrite Hdir1, Hstate1 in *.
  assert (backed s w s2 wb) as Hbacked.
  { destruct Hq. split; simpl; auto. exists n, d. by split_and!. }
  assert (quiet_session (bookkeeping (se_statePath s) dir) dir s2 wb (s2, w3)) as Hq3.
  { destruct Hq. by split. }
  assert (forall record, keeps (quiet_session (bookkeeping (se_statePath s) dir) dir s2 wb) (journal json_journal dir record)) as Hj.
  { intros record. apply keeps_on_disk, keeps_away_journal; [done|]. right. by left. }
  assert (forall r sw, (forall p, r = Ok p -> p = next_backing s) -> quiet_session (bookkeeping (se_statePath s) dir) dir s2 wb sw ->
    cow_open s w tp r sw) as Hdone.
  { intros r sw Hr Hsw. right. exists s2, wb. by split_and!. }
  do 2 (rewrite wp_bind; eapply wp_mono; [apply (wp_kept (quiet_session (bookkeeping (se_statePath s) dir) dir s2 wb)); [apply Hj|eassumption]|];
    intros [?|?] ? ?; [|by apply Hdone]).
  rewrite wp_ret. apply Hdone; [by intros p [= <-]|done].
Qed.

Lemma wp_publish_backing n d tp wt verified :
  temp_file w0 tp n d true w1 -> tp = temporary_name wt ".backing-" ".tmp" :: dir ->
  zlen d = visible_size s w -> holds (visible_byte s w) 0 (zlen d) d ->
  wp (publish_backing json_journal (ss_Generation (se_state s)) tp verified) (s1, w1) (cow_open s w tp).
Proof using Hlay Hwf Hdelta Hq.
  intros Ht Etp Hz Hh. pose proof quiet_reserved as Hqr.
  assert (away (reserved s) w w1) as Ha1.
  { eapply away_trans; [done|apply (qs_away _ _ _ _ _ Hqr)|]. by eapply framed_away; [|apply Ht]. }
  pose proof (aw_wf _ _ _ Ha1) as Hw1.
  assert (~ bookkeeping (se_statePath s) dir tp) as Hntp by (rewrite Etp; apply (ly_temporary _ _ Hlay)).
  assert (w_names w !! tp = None) as Hwtp.
  { destruct (w_names w !! tp) as [k|] eqn:Ek; [|done].
    pose proof (tf_fresh _ _ _ _ _ _ Ht).
    pose proof (aw_names _ _ _ (qs_away _ _ _ _ _ Hq) _ _ Hntp Ek) as Hk. simpl in Hk. congruence. }
  assert (forall wb sw e, away (reserved s) w wb -> at_stage s1 wb sw -> cow_open s w tp (Err e) sw) as Hfail.
  { intros wb sw e Hb Hs. left. split; [|done]. by eapply stage_quiet. }
  unfold publish_backing. rewrite wp_bind, wp_get. cbv beta zeta. simpl fst.
  rewrite wp_bind. eapply wp_mono; [apply (wp_kept (at_stage s1 w1)); [by apply keeps_stage_journal|by apply stage_refl]|].
  intros [u|e] sw1 Hs1; [|by eapply Hfail]. rewrite wp_bind.
  eapply wp_mono; [apply (wp_kept (at_stage s1 w1)); [apply keeps_stage_hook, hook1|done]|].
  intros [u2|e] [s2 w2] Hs2; [|by eapply Hfail]. pose proof Hs2 as [E2 Ha2]. simpl in E2, Ha2. subst s2.
  rewrite Hdir1, Hstate1 in *. change (backing_path dir _) with (next_backing s).
  pose proof (qs_away _ _ _ _ _ (stage_quiet _ _ Ha1 Hs2)) as Haw2. simpl in Haw2.
  assert (sole tp n d w2) as Hsole2 by (eapply sole_away; [by eapply temp_sole|done|exact Ha2|done]).
  rewrite wp_bind, wp_wrap, wp_on_disk.
  eapply wp_mono; [eapply (wp_Rename_away (reserved s) w); eauto|].
  { right. pose proof (tf_new _ _ _ _ _ _ Ht). pose proof (aw_next _ _ _ (qs_away _ _ _ _ _ Hq)). simpl in *. lia. }
  { right. split; [done|]. by eexists. }
  intros [u3|e] w3 [Ha3 Hs3].
  2: { apply (Hfail w3); [done|]. by apply stage_refl, Ha3. }
  destruct (Hs3 eq_refl) as [Hsole3 Htp3].
  assert (w_names w3 !! tp = None) as Htpn.
  { destruct Htp3 as [Heq|?]; [|done]. rewrite Etp in Heq. by destruct (backing_not_temporary dir (next_generation s) wt). }
  rewrite wp_bind, wp_on_disk. change dir with (filepath_Dir (next_backing s)).
  eapply wp_mono; [apply wp_keeps; [apply keeps_away_sync_dir|exact Ha3|by apply wp_sync_dir_sole]|].
  intros [u4|e] w4 (Ha4 & Hsole4 & Hn4 & Hd4).
  2: { apply (Hfail w4); [done|]. by apply stage_refl, Ha4. }
  eapply wp_publish_generation; eauto. by rewrite Hn4.
Qed.
End Publish.

(** Changes away from the active file do not change what the session shows. *)
Lemma apart_visible (P : path -> Prop) s w w' :
  ~ P (active_path (se_state s)) -> apart P (active_path (se_state s)) w -> session_ok s w -> away P w w' ->
  session_ok s w' /\ visible_size s w' = visible_size s w /\ forall p, visible_byte s w' p = visible_byte s w p.
Proof.
  intros Hact Hap [Hw Hv Hr Hb [d Hd] Hsz] Ha.
  assert (file_data w' (active_path (se_state s)) = file_data w (active_path (se_state s))) as Hsame.
  { rewrite Hd. by eapply apart_file_data. }
  assert (visible_size s w' = visible_size s w) as Hsize by (unfold visible_size; by rewrite Hsame).
  split_and!; [|done|].
  - split; auto; [apply Ha|by rewrite Hsame, Hd|by rewrite Hsize].
  - intros p. unfold visible_byte, active_path in *. destruct (ss_BackingPath (se_state s)); by rewrite Hsame.
Qed.
(** Nor does bookkeeping. *)
Lemma away_visible s w w' :
  layout s w -> session_ok s w -> away (reserved s) w w' ->
  session_ok s w' /\ visible_size s w' = visible_size s w /\ forall p, visible_byte s w' p = visible_byte s w p.
Proof. intros Hl. apply apart_visible; [apply (ly_active _ _ Hl)|apply (ly_apart _ _ Hl)]. Qed.

(** A new reader shows the session. *)
Lemma wp_open_session s w :
  layout s w -> session_ok s w ->
  wp (OpenReader pid reserve_roots random) (s, w) (fun r sw =>
    quiet_session (bookkeeping (se_statePath s) (se_directory s)) (se_directory s) s w sw
    /\ forall h, r = Ok h -> handle_ok h sw.2 /\ rh_size h = visible_size s w /\ 0 <= rh_size h
         /\ forall p, 0 <= p < rh_size h -> handle_byte h sw.2 p = visible_byte s w p).
Proof.
  intros Hl Hok. eapply wp_mono; [eapply (wp_OpenReader pid reserve_roots random _ (se_directory s)); auto;
    [apply bookkeeping_leases|apply Hok|apply (ly_leases _ _ Hl)]|].
  intros r [s1 w1] [Hq Hopen]. split; [exact Hq|]. intros h Hr. specialize (Hopen h Hr). simpl in *.
  destruct (away_visible s w w1 Hl Hok) as (Hok1 & Hsz1 & Hb1).
  { eapply away_mono; [|apply (qs_away _ _ _ _ _ Hq)]. auto. }
  destruct (opened_shows _ _ _ Hok1 Hopen) as (Hh & Hsz & Hshow). rewrite Hsz1 in Hsz. split_and!; auto.
  - rewrite Hsz. unfold visible_size. destruct (so_base _ _ Hok).
    destruct (file_data w _) as [x|]; [pose proof (zlen_nonneg x)|]; destruct (ss_BackingPath _); lia.
  - intros p Hp. by rewrite Hshow, Hb1.
Qed.

Lemma wp_ensureBacking s w ctx :
  layout s w -> session_ok s w -> ss_BackingPath (se_state s) = None ->
  wp (ensureBacking sha256 json_journal pid reserve_roots random ctx) (s, w) (cow_post s w).
Proof.
  intros Hl Hok Hdelta. pose proof (so_wf _ _ Hok) as Hwf. unfold ensureBacking. rewrite wp_bind, wp_get. cbv beta zeta. simpl fst.
  rewrite Hdelta. set (dir := se_directory s). set (B := bookkeeping (se_statePath s) dir).
  assert (forall s1 w1 e, quiet_session B dir s w (s1, w1) -> cow_post s w (Err e) (s1, w1)) as Hstop.
  { intros s1 w1 e Hq. left. split; [|done]. by apply quiet_reserved. }
  assert (forall r h, keeps (cow_post s w r) (handle_Close h)) as Hclose.
  { intros r h sw [[Hq Hr]|(s2 & w2 & Hb & Hq & Hr)].
    - left. split; [|done]. apply keeps_handle_Close; auto.
    - right. exists s2, w2. split_and!; auto. apply keeps_handle_Close; auto. }
  rewrite wp_bind. eapply wp_mono; [by apply wp_open_session|].
  intros [reader|e] [s1 w1] [Hq Hopen]; [|by apply Hstop]. destruct (Hopen _ eq_refl) as (Hh & Hsz & Hsize0 & Hshow).
  simpl in Hh, Hshow.
  assert (away (reserved s) w w1) as Ha1 by (eapply away_mono; [|apply (qs_away _ _ _ _ _ Hq)]; auto).
  rewrite wp_defer. eapply wp_mono; [|intros r sw Hpost; eapply (wp_kept (cow_post s w r)); [apply Hclose|exact Hpost]].
  rewrite wp_bind, wp_get. cbv beta zeta. simpl fst. rewrite wp_bind, wp_lift.
  destruct (se_budget s1 _ _) as [a|e]; [|by apply Hstop].
  rewrite wp_bind, wp_wrap, wp_on_disk. pose proof (aw_wf _ _ _ Ha1) as Hw1.
  eapply wp_mono; [by apply wp_CreateTemp|]. intros [[temporary tp]|e] w2 Ht.
  2: { apply Hstop. eapply quiet_disk; [exact Hq|]. eapply away_trans; [done|apply (qs_away _ _ _ _ _ Hq)|].
       by apply (framed_away _ nothing). }
  destruct Ht as (Ht & Hp & Happ & Etp). rewrite wp_defer.
  assert (se_directory s1 = dir) as Hd1 by apply (qs_directory _ _ _ _ _ Hq). rewrite Hd1 in Etp.
  assert (~ B tp) as Hntp by (rewrite Etp; apply (ly_temporary _ _ Hl)).
  assert (w_names w !! tp = None) as Hwtp.
  { destruct (w_names w !! tp) as [k|] eqn:Ek; [|done]. pose proof (tf_fresh _ _ _ _ _ _ Ht).
    pose proof (aw_names _ _ _ (qs_away _ _ _ _ _ Hq) _ _ Hntp Ek) as Hk. simpl in Hk. congruence. }
  apply wp_mono with (P := cow_open s w tp).
  2: { intros r sw [[Hq' Hr]|(s2 & w3 & Hb & Htp & Hq' & Hr)].
       - eapply wp_mono; [apply (wp_kept _ _ _ (keeps_on_disk _ _ s w _ (keeps_away_Remove _ _ _ (or_intror Hwtp))) Hq')|].
         intros r' sw' Hq2. left. by split.
       - eapply wp_mono; [apply (wp_kept _ _ _ (keeps_on_disk _ _ s2 w3 _ (keeps_away_Remove _ _ _ (or_intror Htp))) Hq')|].
         intros r' sw' Hq2. right. exists s2, w3. by split_and!. }
  rewrite wp_bind. eapply wp_mono; [by apply (wp_copy_backing sha256 ctx reader temporary tp s1 w2 w1)|].
  intros [verified|e] [s3 w3] [Es3 Hr]; simpl in Es3; subst s3.
  - destruct Hr as (d & Ht3 & Hz & Hd). eapply (wp_publish_backing s w s1 w1 w3 Hl Hwf Hdelta Hq); [exact Ht3|exact Etp|lia|].
    rewrite Hz. eapply holds_ext; [|exact Hd]. intros p Hp'. apply Hshow. lia.
  - destruct Hr as (d & Ht3). left. split; [|done]. eapply quiet_disk; [by apply quiet_reserved|].
    eapply away_trans; [done|exact Ha1|].
    by eapply framed_away; [|apply Ht3].
Qed.

(** The later session shows the same bytes. *)
Definition same_visible (s : Session) (w : world) (s' : Session) (w' : world) : Prop :=
  visible_size s' w' = visible_size s w
  /\ forall p, 0 <= p < visible_size s w -> visible_byte s' w' p = visible_byte s w p.

Lemma quiet_visible s w sw :
  layout s w -> session_ok s w -> quiet_session (reserved s) (se_directory s) s w sw ->
  layout sw.1 sw.2 /\ session_ok sw.1 sw.2 /\ same_visible s w sw.1 sw.2.
Proof.
  intros Hl Hok [Es Ev Ed Ep Eb Eh Hle Ha]. destruct sw as [s' w']. simpl in *.
  destruct (away_visible s w w' Hl Hok Ha) as ([k1 k2 k3 k4 k5 k6] & Hsz & Hb).
  assert (forall q, reserved s' q <-> reserved s q) as Hres by (intros q; unfold reserved; by rewrite Es, Ed, Ep).
  split_and!; [split|split|split]; rewrite ?Es, ?Ev, ?Ed, ?Ep, ?Eh; try (by destruct Hl); auto.
  - rewrite Hres. apply (ly_active _ _ Hl).
  - intros q n Hq%Hres. revert q n Hq. change (apart (reserved s) (active_path (se_state s)) w').
    eapply apart_away; [apply (ly_apart _ _ Hl)|apply Hok|exact Ha|apply (ly_active _ _ Hl)|].
    destruct (so_active _ _ Hok) as [d Hd]. unfold file_data, inode_of in Hd. by destruct (w_names w !! _).
  - unfold visible_size in *. by rewrite Es.
  - unfold visible_size in *. by rewrite Es.
  - intros p _. rewrite <- Hb. unfold visible_byte. by rewrite Es, Ev.
Qed.

Lemma backed_visible s w s2 w2 :
  layout s w -> session_ok s w -> backed s w s2 w2 ->
  layout s2 w2 /\ session_ok s2 w2 /\ same_visible s w s2 w2.
Proof.
  intros Hl [Hw Hv Hr Hb _ Hsz] [Es Ev Ed Ep _ Eh Hle Hw2 Ha (n & d & Hsole & _ & Hz & Hd)].
  pose proof (sole_data _ _ _ _ Hsole) as Hfd.
  assert (forall q, reserved s2 q -> bookkeeping (se_statePath s) (se_directory s) q) as Hres.
  { intros q [Hq|[Hc _]]; [by rewrite Ed, Ep in Hq|]. by rewrite Es in Hc. }
  assert (visible_size s2 w2 = visible_size s w) as Hsize.
  { rewrite <- Hz. unfold visible_size. rewrite Es. simpl. unfold active_path. simpl. by rewrite Hfd. }
  split_and!; [split|split|split]; rewrite ?Es, ?Ev, ?Ed, ?Ep, ?Eh; try (by destruct Hl); auto.
  - intros Hc%Hres. exact (ly_backing _ _ Hl _ Hc).
  - eapply sole_apart; [exact Hsole|]. intros Hc%Hres. exact (ly_backing _ _ Hl _ Hc).
  - by rewrite Hsize.
  - intros p Hp. unfold visible_byte at 1. rewrite Es. simpl. rewrite Hfd. simpl.
    destruct (Hd p) as (b & -> & Hvb); [lia|]. by rewrite Z.add_0_l in Hvb.
Qed.

Lemma same_visible_trans s0 w0 s1 w1 s2 w2 :
  same_visible s0 w0 s1 w1 -> same_visible s1 w1 s2 w2 -> same_visible s0 w0 s2 w2.
Proof. intros [E1 H1'] [E2 H2']. split; [congruence|]. intros p Hp. rewrite H2' by lia. auto. Qed.

Lemma cow_post_visible s w r sw :
  layout s w -> session_ok s w -> cow_post s w r sw ->
  layout sw.1 sw.2 /\ session_ok sw.1 sw.2 /\ same_visible s w sw.1 sw.2
  /\ (forall p, r = Ok p -> ss_BackingPath (se_state sw.1) = Some p /\ durable sw.2 p).
Proof.
  intros Hl Hok [[Hq Hr]|(s2 & w2 & Hb & Hq & Hr)].
  - destruct (quiet_visible _ _ _ Hl Hok Hq) as (? & ? & ?). split_and!; auto. by intros p ->.
  - destruct (backed_visible _ _ _ _ Hl Hok Hb) as (Hl2 & Hok2 & Hs2). pose proof (bk_directory _ _ _ _ Hb) as Ed.
    destruct (quiet_visible s2 w2 sw) as (? & ? & ?); auto.
    { rewrite Ed. destruct Hq. split; auto. eapply away_mono; [|done]. intros q Hq. left. by rewrite Ed, (bk_statePath _ _ _ _ Hb). }
    split_and!; auto; [by eapply same_visible_trans|]. intros p ->. rewrite (Hr p eq_refl). split.
    + rewrite (qs_state _ _ _ _ _ Hq), (bk_state _ _ _ _ Hb). done.
    + destruct (bk_file _ _ _ _ Hb) as (n & d & Hsole & Hd & _).
      pose proof (ly_backing _ _ Hl (next_generation s)) as Hnb.
      eapply apart_durable; [by eapply sole_apart|apply Hb|apply (qs_away _ _ _ _ _ Hq)|done|done].
Qed.


Lemma wp_Remove_absent p w : w_names w !! p = None -> wp (os_Remove p) w (fun _ w' => same_files w w').
Proof. intros Hn. apply wp_syscall; intros fs; [done|]. unfold wp. simpl. by rewrite Hn. Qed.

(** The files that materialization may change. *)
Definition materializing (s : Session) (target q : path) : Prop :=
  bookkeeping (se_statePath s) (se_directory s) q \/ q = target.

Lemma wp_MaterializeCurrent s w ctx fuel target overwrite :
  layout s w -> session_ok s w -> ~ lease_file (se_directory s) target ->
  String.prefix ".materialize-" (hd EmptyString target) = false ->
  wp (MaterializeCurrent sha256 pid reserve_roots random ctx fuel target overwrite) (s, w) (fun r sw =>
    quiet_session (materializing s target) (se_directory s) s w sw
    /\ forall native, r = Ok native -> materialized sha256 target (visible_byte s w) (visible_size s w) native sw.2).
Proof.
  intros Hl Hok Hnl Hnt. unfold MaterializeCurrent. rewrite wp_bind. set (T := materializing s target). set (dir := se_directory s).
  assert (forall q, bookkeeping (se_statePath s) dir q -> T q) as HBT by by left.
  assert (forall q, lease_file dir q -> T q) as HLT by auto.
  apply wp_mono with (P := fun _ sw => sw.1 = s /\ same_files w sw.2).
  { destruct overwrite; [done|]. rewrite wp_bind, wp_try, wp_on_disk.
    eapply wp_mono; [apply (wp_kept (same_files w)); [apply keeps_Stat, _|done]|]. intros r w1 Hs1.
    rewrite wp_throw. by split. }
  intros r0 [s0 w0] [Es Hs]. simpl in Es, Hs. subst s0.
  assert (forall P, away P w w0) as Hw0 by (intros P; eapply away_same_files; [apply away_refl, Hok|done]).
  assert (forall P, quiet_session P dir s w (s, w0)) as Hq0 by (intros P; split; auto; apply (ly_leases _ _ Hl)).
  destruct r0 as [[]|e]; [|done].
  destruct (quiet_visible s w (s, w0) Hl Hok (Hq0 _)) as (Hl0 & Hok0 & Hsz0 & Hb0). simpl in *.
  rewrite wp_bind. eapply wp_mono; [by apply wp_open_session|]. intros reader [s1 w1] [Hq Hopen].
  assert (forall w', away T w1 w' -> quiet_session T dir s w (s1, w')) as Hqt.
  { intros w' Ha. destruct Hq. split; auto. eapply away_trans; [apply Hok|apply (Hw0 T)|]. eapply away_trans; [apply Hok0| |exact Ha].
    by eapply away_mono; [exact HBT|]. }
  pose proof (aw_wf _ _ _ (qs_away _ _ _ _ _ Hq)) as Hw1. simpl in Hw1. pose proof (away_refl T w1 Hw1) as Ha1.
  destruct reader as [reader|e]; [|split; [by apply Hqt|done]].
  destruct (Hopen _ eq_refl) as (Hh & Hsz & H0' & Hshow). simpl in Hh, Hshow. rewrite wp_defer.
  apply wp_mono with (P := fun r sw => sw.1 = s1 /\ away T w1 sw.2 /\ forall native, r = Ok native ->
    materialized sha256 target (visible_byte s w) (visible_size s w) native sw.2).
  2: { intros r [s2 w2] (Es2 & Ha2 & Hr). simpl in Es2, Ha2, Hr. subst s2. apply wp_conj.
       - eapply wp_mono; [apply (wp_kept (quiet_session T dir s w)); [by apply keeps_handle_Close|by apply Hqt]|]. by intros r' sw' ?.
       - destruct r as [native|e]; [|by apply wp_mono with (P := fun _ _ => True)].
         destruct (Hr native eq_refl) as (n & d & Hsole & Hw2 & Hd & Hrest).
         eapply wp_mono; [apply (wp_kept (quiet_session (lease_file dir) dir s1 w2)); [by apply keeps_handle_Close|]|].
         { split; auto; [apply (qs_leases _ _ _ _ _ Hq)|by apply away_refl]. }
         intros r' sw3 Hq3 native' [= <-]. exists n, d. pose proof (qs_away _ _ _ _ _ Hq3) as Ha3. split_and!; try apply Hrest.
         + by eapply sole_away.
         + apply Ha3.
         + eapply apart_durable; [by eapply sole_apart|done|exact Ha3|done|done]. }
  rewrite wp_bind. apply wp_mono with (P := fun _ sw => sw.1 = s1 /\ same_files w1 sw.2).
  { destruct overwrite; [|done]. rewrite wp_bind, wp_try, wp_on_disk.
    eapply wp_mono; [apply (wp_kept (same_files w1)); [apply keeps_Stat, _|apply same_files_refl]|]. intros r w2 Hs2.
    destruct r as [info|e]; [by rewrite wp_ret|]. by destruct (is_NotExist e). }
  intros reclaimable [s2 w2] [Es2 Hs2]; simpl in Es2, Hs2; subst s2. pose proof (away_same_files _ _ _ _ Ha1 Hs2) as Ha2.
  destruct reclaimable as [reclaimable|e]; [|done].
  rewrite wp_bind, wp_get. cbv beta zeta. simpl fst. rewrite wp_bind, wp_lift. destruct (se_budget s1 _ _) as [a|e]; [|done].
  assert (world_wf w2) as Hw2 by (by eapply same_files_wf).
  rewrite wp_bind, wp_on_disk. eapply wp_mono; [by apply wp_MkdirAll|]. intros u w3 [Hf3 _].
  assert (away T w1 w3) as Ha3 by (eapply away_trans; [done|exact Ha2|by apply (framed_away _ nothing)]).
  destruct u as [u|e]; [|done].
  rewrite wp_bind, wp_on_disk. eapply wp_mono; [apply wp_CreateTemp, Hf3|]. intros [[t tp]|e] w4 Ht.
  2: { split_and!; [done|eapply away_trans; [done|exact Ha3|by apply (framed_away _ nothing)]|done]. }
  destruct Ht as (Ht & Hp & Ha & Etp). rewrite wp_defer.
  assert (handle_ok reader w2) as Hh2 by (eapply moved_ok; [exact Hh|by left|done]).
  destruct (framed_handle reader _ w2 w3 Hf3 Hh2) as [Hh3 Hb3].
  eapply wp_mono; [apply (wp_materialize_copy sha256 ctx fuel reader t tp target s1 w4 w3); auto|].
  { intros ->. rewrite Etp in Hnt. unfold temporary_name in Hnt. simpl hd in Hnt. by rewrite prefix_app in Hnt. }
  intros r [s5 w5] (Es5 & Ha5 & Hr). simpl in Es5, Ha5, Hr. subst s5.
  assert (away T w3 w5) as Ha5' by (eapply away_mono; [|exact Ha5]; by right).
  rewrite wp_on_disk. apply wp_mono with (P := fun _ w6 => away T w3 w6 /\ forall native, r = Ok native -> same_files w5 w6).
  { apply wp_conj.
    - apply (wp_kept (away T w3)); [|done]. apply keeps_away_Remove. right. apply Ht.
    - destruct r as [native|e]; [|by apply wp_mono with (P := fun _ _ => True)]. destruct (Hr native eq_refl) as [_ Htp].
      eapply wp_mono; [by apply wp_Remove_absent|]. done. }
  intros r' w6 [Ha6 Hs6]. split_and!; [done|by eapply away_trans|]. intros native ->. specialize (Hs6 native eq_refl).
  destruct (Hr native eq_refl) as [(n & d & Hsole & Hw5 & Hd & Hz & Hhold & Hnat) Htp].
  assert (away (fun _ => False) w5 w6) as Ha6' by (eapply away_same_files; [by apply away_refl|done]).
  exists n, d. split_and!.
  - by eapply sole_away; [| |exact Ha6'|intros []].
  - apply Ha6'.
  - apply (apart_durable (fun _ => False) w5); auto. eapply sole_apart; [exact Hsole|by intros []].
  - congruence.
  - rewrite <- Hsz0, <- Hsz. eapply holds_ext; [|exact Hhold]. intros p Hp'. rewrite Hb3.
    rewrite (moved_byte reader reader w1 w2 p); [|by left|done]. rewrite Hshow by lia. apply Hb0. lia.
  - rewrite Hnat. congruence.
Qed.

Lemma wp_ensureBacking_visible s w ctx :
  layout s w -> session_ok s w ->
  wp (ensureBacking sha256 json_journal pid reserve_roots random ctx) (s, w) (fun r sw =>
    layout sw.1 sw.2 /\ session_ok sw.1 sw.2 /\ same_visible s w sw.1 sw.2
    /\ forall p, r = Ok p -> ss_BackingPath (se_state sw.1) = Some p
         /\ (ss_BackingPath (se_state s) = None -> durable sw.2 p)).
Proof.
  intros Hl Hok. destruct (ss_BackingPath (se_state s)) as [b|] eqn:E.
  - unfold ensureBacking. rewrite wp_bind, wp_get. simpl fst. rewrite E, wp_ret. split_and!; auto; [done|].
    by intros p [= <-].
  - eapply wp_mono; [by apply wp_ensureBacking|]. intros r sw Hp.
    destruct (cow_post_visible _ _ _ _ Hl Hok Hp) as (? & ? & ? & Hr). split_and!; auto.
    intros p Hrp. destruct (Hr p Hrp). auto.
Qed.

End CowLaws.

(** C5. Copy-on-write is invisible.  From a well-formed session, whatever fails
    or is cancelled during [ensureBacking], the session stays well formed and
    shows the same bytes; when it succeeds the session has the returned backing
    file, and a new one is durable before the call returns. *)
Theorem cow_invisible {R} `{ObjectReaderLaw R} `{StateStoreLaw} sha256 json_journal pid reserve_roots random
    (s : Session R) w ctx :
  layout s w -> session_ok s w ->
  wp (ensureBacking sha256 json_journal pid reserve_roots random ctx) (s, w) (fun r sw =>
    layout sw.1 sw.2 /\ session_ok sw.1 sw.2 /\ same_visible s w sw.1 sw.2
    /\ forall p, r = Ok p -> ss_BackingPath (se_state sw.1) = Some p
         /\ (ss_BackingPath (se_state s) = None -> durable sw.2 p)).
Proof. intros Hl Hok. by apply wp_ensureBacking_visible. Qed.

(** C34. The copy loop of [ensureBacking] terminates.  Its fuel, one more than the
    bytes to copy, is never the reason it stops: any larger amount gives the same
    outcome, for every handle, failure and cancellation. *)
Theorem cow_copy_terminates {R} `{ObjectReaderLaw R} format ctx (reader : ReadHandle R) temporary tp w0 w extra :
  handle_ok reader w0 -> 0 <= rh_size reader ->
  temp_file w0 tp (f_ino temporary) [] false w -> f_pos temporary = 0 -> f_append temporary = false ->
  copy_loop (copy_fuel reader + extra) true format ctx 0 [] temporary (reader, w)
  = copy_loop (copy_fuel reader) true format ctx 0 [] temporary (reader, w).
Proof.
  intros Hok Hsz Ht Hp Ha. unfold copy_fuel.
  eapply (copy_loop_fuel _ _ format ctx 0 [] temporary reader w w0 tp _ (handle_byte reader w0) (rh_size reader)); [|lia..].
  split; auto using holds_0; done.
Qed.

(** C35. The copy loop of [MaterializeCurrent] need not terminate.  When the backing
    file has shrunk under an open reader, the loop, which unlike the one of
    [ensureBacking] does not stop at an empty read, makes no progress with any
    amount of fuel. *)
Theorem materialize_spins {R} `{ObjectReader R} fuel format (reader : ReadHandle R) temporary hashed w i offset :
  rh_backing reader = true -> w_inodes w !! f_ino (rh_file reader) = Some i ->
  0 <= zlen (i_data i) <= offset -> offset < rh_size reader -> w_faults w = [] ->
  (copy_loop fuel false format None offset hashed temporary (reader, w)).1 = Err fuel_exhausted.
Proof.
  intros Hb Hi Hlen Hsz. revert w Hi. induction fuel as [|fuel IH]; intros w Hi Hf; cbn [copy_loop];
    rewrite bind_get; cbn [fst]; rewrite (proj2 (Z.ltb_lt _ _)) by done; [done|]. cbn [ctx_Err].
  set (need := Z.min buffer_bytes (rh_size reader - offset)). assert (0 < need) by (unfold need, buffer_bytes; lia).
  assert (copy_step format None offset hashed temporary (reader, w)
    = (Ok (0, Some io_EOF, None, (offset, hashed, temporary)), (reader, tick w []))) as Hstep.
  { unfold copy_step. rewrite bind_get. cbn [fst]. fold need. unfold bind at 1, handle_ReadAt.
    assert (zlen (replicate (Z.to_nat need) Byte.x00) = need) as Hz by (unfold zlen; rewrite length_replicate; lia).
    rewrite (proj2 (Z.ltb_ge offset 0)) by lia. rewrite Hz, (proj2 (Z.eqb_neq need 0)) by lia. cbn [ctx_Err].
    rewrite bind_get. cbn [fst]. rewrite Z.geb_leb, (proj2 (Z.leb_gt _ _)) by lia. rewrite Hb.
    unfold read_backing. rewrite bind_get. cbn [fst]. rewrite Hz.
    assert (slice offset (offset + Z.min need (rh_size reader - offset)) (i_data i) = []) as Hs.
    { apply nil_length_inv. unfold slice, ztake, zdrop. rewrite length_take, length_drop. unfold zlen in *. lia. }
    unfold bind at 1, reading_disk, zoom, File_ReadAt, next_outcome. cbn [fst snd]. rewrite Hf.
    change (w_inodes (tick w [])) with (w_inodes w). rewrite Hi, Hs. change (zlen (@nil byte)) with 0.
    rewrite (proj2 (Z.ltb_lt 0 _)) by lia. cbn [not_eof is_EOF]. change (is_EOF io_EOF) with true. cbv iota.
    rewrite zlen_splice, Hz by (change (zlen (@nil byte)) with 0; lia). rewrite (proj2 (Z.ltb_lt 0 need)) by lia.
    unfold read_done, ret. cbn [rn rdata rerr]. done. }
  unfold bind at 1. rewrite Hstep. cbn [not_eof]. change (is_EOF io_EOF) with true. cbn [andb].
  by apply IH.
Qed.

(** C33. A materialized session is the session.  When [MaterializeCurrent]
    succeeds, the target holds exactly the bytes the session showed, durably, and
    the returned size and digest are those of the target. *)
Theorem materialize_exact {R} `{ObjectReaderLaw R} `{StateStoreLaw} sha256 pid reserve_roots random
    (s : Session R) w ctx fuel target overwrite :
  layout s w -> session_ok s w -> ~ lease_file (se_directory s) target ->
  String.prefix ".materialize-" (hd EmptyString target) = false ->
  wp (MaterializeCurrent sha256 pid reserve_roots random ctx fuel target overwrite) (s, w) (fun r sw =>
    forall native, r = Ok native -> exists d,
      file_data sw.2 target = Some d /\ durable sw.2 target
      /\ zlen d = visible_size s w /\ (forall p, 0 <= p < zlen d -> d !! Z.to_nat p = visible_byte s w p)
      /\ native = {| nf_Path := Some target; nf_Bytes := zlen d; nf_SHA256 := digest sha256 d |}).
Proof.
  intros Hl Hok Hnl Hnt. eapply wp_mono; [by apply wp_MaterializeCurrent|]. intros r sw [_ Hr] native Hn.
  destruct (Hr native Hn) as (n & d & Hsole & _ & Hd & Hz & Hh & ->). exists d. split_and!; auto.
  - by eapply sole_data.
  - intros p Hp. destruct (Hh p) as (b & -> & Hb); [lia|]. by rewrite Z.add_0_l in Hb.
  - by rewrite Hz.
Qed.

(** ** A session in its directory *)

#[local] Existing Instance resolver_reader.
#[local] Instance sample_reader : ObjectReader Resolver := resolver_reader toy_sha256 toy_zstd.
#[local] Instance sample_reader_law : ObjectReaderLaw Resolver := resolver_reader_law toy_sha256 toy_zstd.
#[local] Instance sample_store : StateStore := plain_store toy_Marshal toy_Unmarshal.
#[local] Instance sample_store_law : StateStoreLaw := plain_store_law toy_Marshal toy_Unmarshal.

Definition sample_session : Session Resolver :=
  {| se_state := sample_state; se_statePath := sample_statePath; se_directory := sample_dir; se_view := sample_view;
     se_readerLeases := ∅; se_readerLeaseFiles := ∅; se_writerOpen := false; se_recoveryDeferred := false;
     se_budget := fun _ _ => Ok tt; se_beforeCOWPhase := None |}.
Definition sample_random (w : world) : string * string := ("00", "01")%string.
Definition toy_digest (data : bytes) : bytes := [byte_of (zlen data mod 256)].
Definition toy_journal (r : JournalRecord) : result bytes := Ok (string_bytes (jr_Phase r)).

Lemma sample_layout faults : layout sample_session (sample_world faults).
Proof.
  assert (forall q, hd EmptyString q <> "state.json"%string -> hd EmptyString q <> "journal.jsonl"%string ->
    String.prefix LeaseFilePrefix (hd EmptyString q) = false -> hd EmptyString q <> readReserveName ->
    ~ bookkeeping sample_statePath sample_dir q) as Hout.
  { intros q H1 H2 H3 H4 [Hq|[Hq|[(name & d & -> & Hp & _)|Hq]]]; [..|done].
    - change (q = sample_statePath) in Hq. by subst q.
    - by subst q.
    - simpl in H3. by rewrite Hp in H3. }
  split; simpl; try done.
  - intros g. by apply Hout.
  - intros w1. by apply Hout.
  - intros [Hb|[_ [g Hg]]]; [by apply Hout in Hb|done].
  - intros q n Hq Hn Ha. vm_compute in Ha. injection Ha as <-.
    unfold sample_world in Hn. simpl w_names in Hn. apply lookup_insert_Some in Hn as [[<- _]|[_ Hn]].
    + destruct Hq as [Hb|[_ [g Hg]]]; [by apply Hout in Hb|done].
    + by apply lookup_singleton_Some in Hn as [_ ?].
Qed.

Lemma sample_session_ok faults : session_ok sample_session (sample_world faults).
Proof.
  split; [apply sample_session_world_wf|apply (NewView_ok sample_manifest sample_resolver); reflexivity
    |apply sample_resolver_ok|done|by eexists|vm_compute; discriminate].
Qed.

Lemma cow_invisible_witness :
  let r := ensureBacking toy_digest toy_journal "7" [] sample_random None (sample_session, sample_world []) in
  r.1 = Ok (backing_path sample_dir 2)
  /\ same_visible sample_session (sample_world []) r.2.1 r.2.2
  /\ durable r.2.2 (backing_path sample_dir 2).
Proof.
  intros r. assert (r.1 = Ok (backing_path sample_dir 2)) as Hr by (vm_compute; reflexivity).
  destruct (cow_invisible toy_digest toy_journal "7" [] sample_random sample_session (sample_world []) None
    (sample_layout []) (sample_session_ok [])) as (_ & _ & Hv & Hd).
  split; [exact Hr|]. split; [exact Hv|]. exact (proj2 (Hd _ Hr) eq_refl).
Defined.

(** A reader of the delta file as if it were a backing file. *)
Definition sample_handle (size : Z) : ReadHandle Resolver :=
  {| rh_generation := 1; rh_base := sample_view; rh_baseBytes := 15;
     rh_file := {| f_ino := 0; f_pos := 0; f_append := false |}; rh_backing := true; rh_deltaBytes := 0;
     rh_size := size |}.
Definition sample_temporary : File := {| f_ino := 2; f_pos := 0; f_append := false |}.

Lemma cow_copy_terminates_witness :
  copy_loop 1000 true "%w" None 0 [] sample_temporary
    (sample_handle 3, (os_CreateTemp sample_dir ".backing-" ".tmp" (sample_world [])).2)
  = copy_loop 4 true "%w" None 0 [] sample_temporary
    (sample_handle 3, (os_CreateTemp sample_dir ".backing-" ".tmp" (sample_world [])).2).
Proof.
  destruct (wp_CreateTemp sample_dir ".backing-" ".tmp" (sample_world []) (sample_session_world_wf [])) as [Ht _].
  refine (cow_copy_terminates "%w" None (sample_handle 3) sample_temporary _ (sample_world []) _ 996 _ _ Ht _ _).
  - split; [|discriminate]. eexists. split; [reflexivity|]. vm_compute. discriminate.
  - discriminate.
  - reflexivity.
  - reflexivity.
Defined.

Lemma materialize_spins_witness :
  (copy_loop 1000 false "%w" None 3 [] sample_temporary (sample_handle 5, sample_world [])).1 = Err fuel_exhausted.
Proof.
  refine (materialize_spins 1000 "%w" (sample_handle 5) sample_temporary [] (sample_world [])
    {| i_data := [Byte.x61; Byte.x62; Byte.x0a]; i_mtime := 0; i_synced := true |} 3 _ _ _ _ _).
  - reflexivity.
  - reflexivity.
  - vm_compute. split; discriminate.
  - reflexivity.
  - reflexivity.
Defined.

Lemma materialize_exact_witness :
  let target := ["out"; "store"]%string in
  let r := MaterializeCurrent toy_digest "7" [] sample_random None 100 target false (sample_session, sample_world []) in
  is_ok r.1 = true /\ exists d, file_data r.2.2 target = Some d /\ zlen d = 18.
Proof.
  intros target r.
  assert (exists native, r.1 = Ok native) as [native Hr] by (vm_compute; eexists; reflexivity).
  destruct (materialize_exact toy_digest "7" [] sample_random sample_session (sample_world []) None 100 target false
    (sample_layout []) (sample_session_ok []) ltac:(intros [(name & d & Ht & Hp & _)|Ht];
      [injection Ht as <- <-; discriminate Hp|discriminate Ht]) eq_refl native Hr) as (d & Hd & _ & Hz & _).
  split; [rewrite Hr; reflexivity|]. exists d. split; [exact Hd|]. rewrite Hz. vm_compute. reflexivity.
Defined.
