(* ===== verification/Writer.v ===== *)
(** Writers of a virtual session: [WriteHandle] ([internal/vfs/handles.go]),
    [OpenWriter] and [refreshNativeRetirementLocked].

    Appends go to the active file of the session; random writes and changes of
    size first make a native backing file.  The handle keeps a running hash of the
    active file so that a checkpoint after appends need not read it again. *)
From S2P Require Import Prelude GoStd Effects ObjectReader PackIndex PackResolver Manifest View Os Budget Mutation Lease Session StateFile Cow.

#[export] Instance NativeFile_eq_dec : EqDecision NativeFile.
Proof. solve_decision. Defined.
#[export] Instance SessionState_eq_dec : EqDecision SessionState.
Proof. solve_decision. Defined.

Definition ErrSessionRecoveryDeferred : error := Sentinel "session recovery is deferred to periodic reload".
Definition io_ErrShortWrite : error := Sentinel "short write".
Definition NativeRetirementFilename : string := "native-retirement.json".

(** The fields of a native retirement proof that a writer checks. *)
Record NativeRetirementProof := {
  rp_SessionID : string;
  rp_StateGeneration : Z;
  rp_Snapshot : NativeFile;
}.

Definition sameSessionStateExceptRetiredNative (before after : SessionState) : bool :=
  (ss_Version before =? ss_Version after) && string_is (ss_SessionID before) (ss_SessionID after)
  && bool_decide (ss_ManifestPath before = ss_ManifestPath after)
  && string_is (ss_ManifestSHA256 before) (ss_ManifestSHA256 after)
  && (ss_BaseBytes before =? ss_BaseBytes after) && string_is (ss_BaseSHA256 before) (ss_BaseSHA256 after)
  && bool_decide (ss_DeltaPath before = ss_DeltaPath after)
  && bool_decide (ss_BackingPath before = ss_BackingPath after).

(** [appendHasher] is the bytes written to the hash. *)
Record WriteHandle := {
  wh_leasePath : path;
  wh_lease : File;
  wh_closed : bool;
  wh_dirty : bool;
  wh_appendHasher : bytes;
  wh_appendHashPath : path;
  wh_appendHashBytes : Z;
  wh_appendHashValid : bool;
}.
Definition set_flags (closed dirty valid : bool) (h : WriteHandle) : WriteHandle :=
  {| wh_leasePath := wh_leasePath h; wh_lease := wh_lease h; wh_closed := closed; wh_dirty := dirty;
     wh_appendHasher := wh_appendHasher h; wh_appendHashPath := wh_appendHashPath h;
     wh_appendHashBytes := wh_appendHashBytes h; wh_appendHashValid := valid |}.
Definition set_hash (hasher : bytes) (p : path) (count : Z) (h : WriteHandle) : WriteHandle :=
  {| wh_leasePath := wh_leasePath h; wh_lease := wh_lease h; wh_closed := wh_closed h; wh_dirty := wh_dirty h;
     wh_appendHasher := hasher; wh_appendHashPath := p; wh_appendHashBytes := count; wh_appendHashValid := true |}.
(** What a successful write adds to the hash. *)
Definition add_hash (data : bytes) (n : Z) (h : WriteHandle) : WriteHandle :=
  {| wh_leasePath := wh_leasePath h; wh_lease := wh_lease h; wh_closed := wh_closed h; wh_dirty := true;
     wh_appendHasher := wh_appendHasher h ++ ztake n data; wh_appendHashPath := wh_appendHashPath h;
     wh_appendHashBytes := wh_appendHashBytes h + n; wh_appendHashValid := wh_appendHashValid h |}.
Definition make_dirty (h : WriteHandle) : WriteHandle := set_flags (wh_closed h) true (wh_appendHashValid h) h.
Definition invalidate (h : WriteHandle) : WriteHandle := set_flags (wh_closed h) (wh_dirty h) false h.

Section Writer.
Context {R : Type} `{ObjectReader R} `{StateStore}.
Variable sha256 : bytes -> bytes.
Variable json_journal : JournalRecord -> result bytes.
Variable pid : string.
Variable reserve_roots : list path.
Variable random : world -> string * string.
(** [LoadNativeRetirementProof] of [native_retirement.go]. *)
Variable LoadNativeRetirementProof : path -> OS NativeRetirementProof.

Definition refreshNativeRetirementLocked : Sess (R := R) unit :=
  let* s := get in
  let* persisted := wrap "reload session state before write: %w" (on_disk (LoadSessionState (se_statePath s.1))) in
  let current := se_state s.1 in
  if bool_decide (persisted = current) then ret tt
  else if (ss_Generation current =? 2 ^ 64 - 1) || negb (ss_Generation persisted =? ss_Generation current + 1)
          || bool_decide (nf_Path (ss_NativeSnapshot current) = None)
          || negb (bool_decide (ss_NativeSnapshot persisted = no_native))
          || negb (sameSessionStateExceptRetiredNative current persisted) then
    fail (errors_new "persisted session state changed outside the serving session")
  else
    let* proof := wrap "load native retirement proof before write: %w"
      (on_disk (LoadNativeRetirementProof (NativeRetirementFilename :: se_directory s.1))) in
    if negb (string_is (rp_SessionID proof) (ss_SessionID current))
       || negb (rp_StateGeneration proof =? ss_Generation current)
       || negb (bool_decide (rp_Snapshot proof = ss_NativeSnapshot current)) then
      fail (errors_new "native retirement proof does not match the serving session")
    else on_session (set_state persisted).

Definition OpenWriter : Sess (R := R) WriteHandle :=
  let* s := get in
  if se_recoveryDeferred s.1 then fail ErrSessionRecoveryDeferred
  else if se_writerOpen s.1 then fail ErrWriterBusy
  else
    let leasePath := "writer.lease"%string :: se_directory s.1 in
    let* lease := on_disk (acquireWriterLease pid leasePath) in
    on_session (set_writerOpen true) ;;;
    let* refreshed := try_ refreshNativeRetirementLocked in
    match refreshed with
    | Err e =>
        on_session (set_writerOpen false) ;;;
        let* unlockErr := error_of (on_disk (unlockLease lease)) in
        let* closeErr := error_of (on_disk (file_Close lease)) in
        throw (errors_join [Some e; unlockErr; closeErr]) ;;; fail e
    | Ok _ =>
        ret {| wh_leasePath := leasePath; wh_lease := lease; wh_closed := false; wh_dirty := false;
               wh_appendHasher := []; wh_appendHashPath := []; wh_appendHashBytes := 0;
               wh_appendHashValid := false |}
    end.

(** ** Operations of a handle *)

Definition Wr (A : Type) : Type := M (WriteHandle * (Session R * world)) A.
Definition serving {A} (m : Sess A) : Wr A := zoom snd (fun s t => (s.1, t)) m.
Definition disk {A} (m : OS A) : Wr A := serving (on_disk m).
Definition on_handle (f : WriteHandle -> WriteHandle) : Wr unit := modify (fun s => (f s.1, s.2)).
(** [return 0, err] for an error before the first byte. *)
Definition counted (m : Wr (Z * option error)) : Wr (Z * option error) := fun s =>
  match m s with
  | (Ok r, s) => (Ok r, s)
  | (Err e, s) => (Ok (0, Some e), s)
  end.

Definition ensureAppendHash (p : path) : Wr unit :=
  let* h := get in
  if wh_appendHashValid h.1 && bool_decide (wh_appendHashPath h.1 = p) then ret tt
  else
    let* (copied, closeErr) := disk (hash_file p) in
    let copyErr := match copied with Err e => Some e | Ok _ => None end in
    throw (errors_join [copyErr; closeErr]) ;;;
    let data := match copied with Ok d => d | Err _ => [] end in
    on_handle (set_hash data p (zlen data)).

(** The end of an append that failed after storing a part of its data. *)
Definition rollback_append (file : File) (original n : Z) (writeErr : error) : Wr (Z * option error) :=
  let* rollbackErr := error_of (disk (file_Truncate file original)) in
  let* rollbackErr := match rollbackErr with
                      | None => error_of (disk (file_Sync file))
                      | Some e => ret (Some e)
                      end in
  match rollbackErr with
  | None => ignore (disk (file_Close file)) ;;; ret (0, Some writeErr)
  | Some e =>
      on_handle (fun h => make_dirty (invalidate h)) ;;;
      ignore (disk (file_Close file)) ;;;
      ret (n, errors_join [Some writeErr; Some (errorf "rollback incomplete append: %w" e)])
  end.

Definition Append (ctx : Ctx) (data : bytes) : Wr (Z * option error) := counted (
  let* h := get in
  if wh_closed h.1 then fail (errors_new "writer is closed")
  else
    throw (ctx_Err ctx).1 ;;;
    let* st := serving session_state in
    let p := active_path st in
    ensureAppendHash p ;;;
    let* file := wrap "open append target: %w" (disk (os_OpenFile p true)) in
    let* original := or_else (disk (file_Stat file)) (disk (file_Close file)) in
    let* (n, writeErr, file) := disk (file_Write file data) in
    let writeErr := match writeErr with
                    | None => if negb (n =? zlen data) then Some io_ErrShortWrite else None
                    | Some e => Some e
                    end in
    match writeErr with
    | Some e =>
        if n >? 0 then rollback_append file (fi_size original) n e
        else ignore (disk (file_Close file)) ;;; ret (n, Some e)
    | None =>
        let* closeErr := error_of (disk (file_Close file)) in
        (if n >? 0 then on_handle (add_hash data n) else ret tt) ;;;
        ret (n, closeErr)
    end).

Definition WriteAt (ctx : Ctx) (data : bytes) (offset : Z) : Wr (Z * option error) := counted (
  let* h := get in
  if wh_closed h.1 then fail (errors_new "writer is closed")
  else if offset <? 0 then fail (errors_new "negative write offset")
  else
    let* p := serving (ensureBacking sha256 json_journal pid reserve_roots random ctx) in
    let* file := disk (os_OpenFile p false) in
    let* (n, writeErr) := disk (file_WriteAt file data offset) in
    let* closeErr := error_of (disk (file_Close file)) in
    (if n >? 0 then on_handle (fun h => make_dirty (invalidate h)) else ret tt) ;;;
    ret (n, match writeErr with Some e => Some e | None => closeErr end)).

Definition Truncate (ctx : Ctx) (size : Z) : Wr unit :=
  let* h := get in
  if wh_closed h.1 then fail (errors_new "writer is closed")
  else if size <? 0 then fail (errors_new "negative truncate size")
  else
    let* visible := serving session_VisibleInfo in
    if size =? vi_Size visible then ret tt
    else
      let* p := serving (ensureBacking sha256 json_journal pid reserve_roots random ctx) in
      disk (os_Truncate p size) ;;;
      on_handle (fun h => make_dirty (invalidate h)).

(** The identity of the active file, when the running hash is that of the file. *)
Definition active_identity (p : path) : Wr (option sessionStateFileIdentity) :=
  let* h := get in
  if wh_appendHashValid h.1 && bool_decide (wh_appendHashPath h.1 = p) then
    let* info := try_ (disk (os_Stat p)) in
    match info with
    | Ok info =>
        if negb (fi_regular info) || negb (fi_size info =? wh_appendHashBytes h.1)
        then on_handle invalidate ;;; ret None
        else ret (Some {| fid_Path := p; fid_Bytes := wh_appendHashBytes h.1;
                          fid_SHA256 := digest sha256 (wh_appendHasher h.1) |})
    | Err _ => on_handle invalidate ;;; ret None
    end
  else ret None.

Definition syncAndCheckpointLocked : Wr unit :=
  let* h := get in
  if wh_closed h.1 then fail (errors_new "writer is closed")
  else
    let* st := serving session_state in
    let p := active_path st in
    let* file := disk (os_OpenFile p false) in
    let* syncErr := error_of (disk (file_Sync file)) in
    let* closeErr := error_of (disk (file_Close file)) in
    throw (errors_join [syncErr; closeErr]) ;;;
    if negb (wh_dirty h.1) then ret tt
    else
      let* identity := active_identity p in
      disk (refreshSessionStateCheckpoint (se_statePath h.2.1) st identity) ;;;
      on_handle (fun h => set_flags (wh_closed h) false (wh_appendHashValid h) h).

Definition Sync : Wr unit := syncAndCheckpointLocked.

Definition Close : Wr unit :=
  let* h := get in
  if wh_closed h.1 then ret tt
  else
    let* checkpointErr := if wh_dirty h.1 then error_of syncAndCheckpointLocked else ret None in
    on_handle (fun h => set_flags true (wh_dirty h) (wh_appendHashValid h) h) ;;;
    let* unlockErr := error_of (disk (unlockLease (wh_lease h.1))) in
    let* closeErr := error_of (disk (file_Close (wh_lease h.1))) in
    serving (on_session (set_writerOpen false)) ;;;
    throw (errors_join [checkpointErr; unlockErr; closeErr]).
End Writer.

(** ** Sequences of operations *)

Inductive write_op :=
| OpAppend (data : bytes)
| OpWriteAt (data : bytes) (offset : Z)
| OpTruncate (size : Z)
| OpSync.

Section Run.
Context {R : Type} `{ObjectReader R} `{StateStore}.
Variable sha256 : bytes -> bytes.
Variable json_journal : JournalRecord -> result bytes.
Variable pid : string.
Variable reserve_roots : list path.
Variable random : world -> string * string.

(** The count and error that a caller sees. *)
Definition run_op (ctx : Ctx) (op : write_op) : Wr (R := R) (Z * option error) :=
  match op with
  | OpAppend data => Append ctx data
  | OpWriteAt data offset => WriteAt sha256 json_journal pid reserve_roots random ctx data offset
  | OpTruncate size => let* err := error_of (Truncate sha256 json_journal pid reserve_roots random ctx size) in ret (0, err)
  | OpSync => let* err := error_of (Sync sha256) in ret (0, err)
  end.
Fixpoint run_ops (ops : list (Ctx * write_op)) : Wr (R := R) (list (Z * option error)) :=
  match ops with
  | [] => ret []
  | (ctx, op) :: ops =>
      let* r := run_op ctx op in
      let* rs := run_ops ops in
      ret (r :: rs)
  end.
End Run.

(** The abstract file: what one operation with outcome [(n, err)] may do to the
    bytes [v]. *)
Definition op_effect (op : write_op) (n : Z) (err : option error) (v v' : bytes) : Prop :=
  match op with
  | OpAppend data =>
      exists k, 0 <= k <= zlen data /\ v' = v ++ ztake k data
        /\ (err = None -> n = zlen data /\ v' = v ++ data) /\ (n = 0 -> v' = v)
  | OpWriteAt data offset =>
      (0 <= offset \/ n = 0) /\ 0 <= n <= zlen data /\ v' = pwrite offset (ztake n data) v
        /\ (err = None -> n = zlen data)
  | OpTruncate size => (err = None -> 0 <= size /\ v' = resize size v) /\ (err <> None -> v' = v)
  | OpSync => v' = v
  end.
Inductive run_effect : list (Ctx * write_op) -> list (Z * option error) -> bytes -> bytes -> Prop :=
| effect_nil v : run_effect [] [] v v
| effect_cons ctx op ops n err rs v v1 v2 :
    op_effect op n err v v1 -> run_effect ops rs v1 v2 ->
    run_effect ((ctx, op) :: ops) ((n, err) :: rs) v v2.

Lemma run_effect_inv ctx op ops n err rs v v2 :
  run_effect ((ctx, op) :: ops) ((n, err) :: rs) v v2 -> exists v1, op_effect op n err v v1 /\ run_effect ops rs v1 v2.
Proof. inversion 1; subst. eauto. Qed.
Lemma run_effect_nil v v' : run_effect [] [] v v' -> v = v'.
Proof. by inversion 1. Qed.

(** An upper bound of the size after an operation. *)
Definition op_bound (size : Z) (op : write_op) : Z :=
  match op with
  | OpAppend data => size + zlen data
  | OpWriteAt data offset => Z.max size (offset + zlen data)
  | OpTruncate size' => Z.max size size'
  | OpSync => size
  end.

Lemma zlen_pwrite off x v : 0 <= off -> zlen (pwrite off x v) <= Z.max (zlen v) (off + zlen x).
Proof.
  intros Hoff. pose proof (zlen_nonneg v). destruct x as [|b x]; [simpl; lia|].
  unfold pwrite. cbv zeta. set (l := b :: x). pose proof (zlen_nonneg l).
  rewrite !zlen_app, zlen_ztake, zlen_zdrop, zlen_app. unfold zlen. rewrite length_replicate. lia.
Qed.
Lemma zlen_resize size v : 0 <= size -> zlen (resize size v) = size.
Proof.
  intros Hs. pose proof (zlen_nonneg v). unfold resize. rewrite zlen_app, zlen_ztake. unfold zlen at 2. rewrite length_replicate. lia.
Qed.
Lemma op_effect_bound op n err v v' : op_effect op n err v v' -> zlen v' <= op_bound (zlen v) op.
Proof.
  pose proof (zlen_nonneg v). destruct op as [data|data off|size|]; simpl.
  - intros (k & Hk & -> & _). rewrite zlen_app, zlen_ztake. lia.
  - intros (Hoff & Hn & -> & _). destruct (decide (n = 0)) as [->|].
    + unfold ztake. simpl. lia.
    + etrans; [apply zlen_pwrite; lia|]. rewrite zlen_ztake. lia.
  - intros [Hok Hbad]. destruct err as [e|].
    + rewrite Hbad by done. lia.
    + destruct (Hok eq_refl) as [Hs ->]. rewrite zlen_resize by lia. lia.
  - intros ->. lia.
Qed.

(** ** A store that checks what it is told

    The reference for the running hash: it recomputes the identity of the active
    file and refuses one that differs. *)
Definition identity_matches (sha256 : bytes -> bytes) (st : SessionState)
    (identity : option sessionStateFileIdentity) (w : world) : bool :=
  match identity with
  | None => true
  | Some i =>
      bool_decide (fid_Path i = active_path st) &&
      match file_data w (fid_Path i) with
      | Some d => (fid_Bytes i =? zlen d) && string_is (fid_SHA256 i) (digest sha256 d)
      | None => false
      end
  end.
Definition checked_store (sha256 : bytes -> bytes) (store : StateStore) : StateStore := {|
  publishSessionState := publishSessionState;
  publishSessionStateWithTemporary := publishSessionStateWithTemporary;
  refreshSessionStateCheckpoint := fun p st identity w =>
    if identity_matches sha256 st identity w then refreshSessionStateCheckpoint p st identity w
    else (Err (errors_new "provided active session identity is wrong"), w);
  LoadSessionState := LoadSessionState;
|}.

(** ** What a writer does *)

Lemma wp_OpenFile p append w :
  wp (os_OpenFile p append) w (fun r w' => same_files w w' /\ forall f, r = Ok f ->
    w_names w !! p = Some (f_ino f) /\ f_append f = append /\ f_pos f = 0).
Proof.
  apply wp_keeps; [apply keeps_OpenFile, _|done|]. apply wp_syscall; intros fs; [done|]. unfold wp. simpl.
  destruct (w_names w !! p) as [n|]; simpl; [|done]. by intros f [= <-].
Qed.

Section WriterLaws.
Context {R : Type} `{ObjectReaderLaw R} `{StateStoreLaw}.
Variable sha256 : bytes -> bytes.
Variable json_journal : JournalRecord -> result bytes.
Variable pid : string.
Variable reserve_roots : list path.
Variable random : world -> string * string.
Local Abbreviation Session := (Session R).
Local Abbreviation Append := (Append (R := R)).

Lemma wp_serving {A} (m : Sess A) (h : WriteHandle) (sw : Session * world) Q :
  wp (serving m) (h, sw) Q <-> wp m sw (fun r sw' => Q r (h, sw')).
Proof. unfold serving. by rewrite wp_zoom. Qed.
Lemma wp_disk {A} (m : OS A) (h : WriteHandle) (s : Session) w Q :
  wp (disk m) (h, (s, w)) Q <-> wp m w (fun r w' => Q r (h, (s, w'))).
Proof. unfold disk. by rewrite wp_serving, wp_on_disk. Qed.
Lemma wp_on_handle f (h : WriteHandle) (sw : Session * world) Q :
  wp (on_handle f) (h, sw) Q <-> Q (Ok tt) (f h, sw).
Proof. unfold on_handle. by rewrite wp_modify. Qed.
Lemma wp_counted (m : Wr (R := R) (Z * option error)) x Q :
  wp (counted m) x Q
  <-> wp m x (fun r y => Q (Ok (match r with Ok p => p | Err e => (0, Some e) end)) y).
Proof. unfold wp, counted. by destruct (m x) as [[p|e] y]. Qed.

(** The running hash, while it is valid for the active file, is that of its
    contents; before a copy-on-write it is for no other file. *)
Definition hash_ok (h : WriteHandle) (s : Session) (w : world) : Prop :=
  wh_appendHashValid h = true ->
  (ss_BackingPath (se_state s) = None -> wh_appendHashPath h = active_path (se_state s))
  /\ (wh_appendHashPath h = active_path (se_state s) ->
      file_data w (active_path (se_state s)) = Some (wh_appendHasher h)
      /\ wh_appendHashBytes h = zlen (wh_appendHasher h)).

Lemma hash_ok_same h s w w' : hash_ok h s w -> same_files w w' -> hash_ok h s w'.
Proof. intros Hh Hs Hv. rewrite (same_files_data _ _ _ Hs). by apply Hh. Qed.
(** A handle whose hash is that of the active file. *)
Lemma hash_ok_for h s w d :
  wh_appendHashPath h = active_path (se_state s) -> file_data w (active_path (se_state s)) = Some d ->
  wh_appendHasher h = d -> wh_appendHashBytes h = zlen d -> hash_ok h s w.
Proof. intros Hp Hd Hh Hb _. split; [done|]. intros _. by rewrite Hh. Qed.

Lemma wp_hash_file p n i w :
  w_names w !! p = Some n -> w_inodes w !! n = Some i ->
  wp (hash_file p) w (fun r w' => same_files w w' /\ forall d e, r = Ok (Ok d, e) -> d = i_data i).
Proof.
  intros Hn Hi. unfold hash_file. rewrite wp_bind. eapply wp_mono; [apply wp_OpenFile|].
  intros [f|e] w1 [Hs1 Hf]; [|done]. destruct (Hf f eq_refl) as (Hfn & _ & Hpos). simplify_eq. rewrite wp_bind, wp_try.
  eapply wp_mono; [apply wp_ReadAll|]. intros r w2 [Hs2 Hr]. rewrite wp_bind, wp_error_of.
  eapply wp_mono; [apply (wp_kept (same_files w2)); [apply keeps_Close, _|apply same_files_refl]|].
  intros r3 w3 Hs3. rewrite wp_ret. split; [eauto using same_files_trans|]. intros d e' [= -> _].
  destruct (Hr d eq_refl) as (j & Hj & ->). destruct Hs1 as (_ & E & _). rewrite E in Hj. simplify_eq.
  rewrite Hpos. done.
Qed.

(** After it the running hash is that of the active file. *)
Lemma wp_ensureAppendHash h (s : Session) w n i :
  let p := active_path (se_state s) in
  w_names w !! p = Some n -> w_inodes w !! n = Some i -> hash_ok h s w ->
  wp (ensureAppendHash p) (h, (s, w)) (fun r x => exists h' w', x = (h', (s, w')) /\ same_files w w' /\ hash_ok h' s w'
    /\ wh_closed h' = wh_closed h
    /\ (r = Ok tt -> wh_appendHashValid h' = true /\ wh_appendHashPath h' = p /\ wh_appendHasher h' = i_data i
          /\ wh_appendHashBytes h' = zlen (i_data i))).
Proof.
  intros p Hn Hi Hh. assert (file_data w p = Some (i_data i)) as Hd.
  { unfold file_data, inode_of. rewrite Hn. simpl. by rewrite Hi. }
  unfold ensureAppendHash. rewrite wp_bind, wp_get. cbv beta. simpl fst.
  destruct (wh_appendHashValid h && bool_decide (wh_appendHashPath h = p)) eqn:E.
  { apply andb_true_iff in E as [Ev Ep%bool_decide_eq_true]. destruct (proj2 (Hh Ev) Ep) as [Hf Hb]. fold p in Hf.
    rewrite Hd in Hf. injection Hf as Hf. rewrite wp_ret. exists h, w. split_and!; auto; [apply same_files_refl|].
    intros _. split_and!; auto. by rewrite Hf. }
  rewrite wp_bind, wp_disk. eapply wp_mono; [by eapply wp_hash_file|]. intros [[copied closeErr]|e] w1 [Hs1 Hr].
  2: { exists h, w1. split_and!; auto; [by eapply hash_ok_same|done]. }
  rewrite wp_bind, wp_throw.
  destruct (errors_join [match copied with Err e => Some e | Ok _ => None end; closeErr]) as [e|] eqn:Ej.
  { exists h, w1. split_and!; auto; [by eapply hash_ok_same|done]. }
  destruct copied as [d|e]; [|destruct closeErr; discriminate Ej]. rewrite (Hr d closeErr eq_refl).
  rewrite wp_on_handle. eexists _, w1. split; [reflexivity|]. simpl. split_and!; auto.
  eapply hash_ok_for; [done| |done|done]. by rewrite (same_files_data _ _ _ Hs1).
Qed.

(** The outcome of an append to a file that holds [d]. *)
Definition append_post (h : WriteHandle) (s : Session) (w : world) (n0 : nat) (d data : bytes)
    (r : result (Z * option error)) (x : WriteHandle * (Session * world)) : Prop :=
  exists h' w' n err k, x = (h', (s, w')) /\ r = Ok (n, err) /\ touched n0 (d ++ ztake k data) w w'
    /\ hash_ok h' s w' /\ wh_closed h' = wh_closed h /\ 0 <= k <= zlen data
    /\ (err = None -> k = zlen data /\ n = zlen data) /\ (n = 0 -> d ++ ztake k data = d).

(** Nothing was stored. *)
Lemma append_nothing h s w n0 i data h' w' e :
  w_inodes w !! n0 = Some i -> hash_ok h' s w' -> wh_closed h' = wh_closed h -> same_files w w' ->
  append_post h s w n0 (i_data i) data (Ok (0, Some e)) (h', (s, w')).
Proof.
  intros Hi Hh Hc Hs. exists h', w', 0, (Some e), 0. pose proof (zlen_nonneg data). unfold ztake. simpl.
  rewrite app_nil_r. split_and!; auto; [|lia|done]. eapply touched_same; [by apply touched_refl|done].
Qed.

Lemma wp_rollback h (s : Session) w w0 n0 i data k file e h0 :
  w_names w0 !! active_path (se_state s) = Some n0 -> w_inodes w0 !! n0 = Some i ->
  touched n0 (i_data i ++ ztake k data) w0 w -> f_ino file = n0 -> 0 < k <= zlen data ->
  wh_appendHashPath h = active_path (se_state s) ->
  wh_appendHasher h = i_data i -> wh_appendHashBytes h = zlen (i_data i) -> wh_closed h = wh_closed h0 ->
  wp (rollback_append file (zlen (i_data i)) k e) (h, (s, w)) (append_post h0 s w0 n0 (i_data i) data).
Proof.
  intros Hn Hi Ht Hf Hk Hpath Hh Hb Hc. unfold rollback_append.
  assert (forall w' j e', touched n0 (i_data i ++ ztake j data) w0 w' -> 0 <= j <= zlen data ->
    wp (on_handle (fun h => make_dirty (invalidate h)) ;;; ignore (disk (file_Close file)) ;;;
        ret (k, errors_join [Some e; Some (errorf "rollback incomplete append: %w" e')])) (h, (s, w'))
       (append_post h0 s w0 n0 (i_data i) data)) as Hbad.
  { intros w' j e' Ht' Hj. rewrite wp_bind, wp_on_handle, wp_bind, wp_ignore, wp_disk.
    eapply wp_mono; [apply (wp_kept (same_files w')); [apply keeps_Close, _|apply same_files_refl]|].
    intros r w2 Hs2. rewrite wp_ret. eexists _, w2, k, _, j. split_and!; [done|done| | |done|lia|lia|done|lia].
    - by eapply touched_same.
    - intros Hv. done. }
  destruct (tc_data _ _ _ _ Ht) as (i1 & Hi1 & Hd1).
  rewrite wp_bind, wp_error_of, wp_disk. eapply wp_mono; [apply wp_file_Truncate; by rewrite Hf|].
  intros [[]|e1] w1 Ht1.
  2: { rewrite wp_bind, wp_ret. apply (Hbad w1 k); [by eapply touched_same|lia]. }
  rewrite Hf, Hd1, resize_app in Ht1. pose proof (touched_trans _ _ _ _ _ _ Ht Ht1) as Ht01.
  destruct (tc_data _ _ _ _ Ht01) as (i2 & Hi2 & Hd2).
  rewrite wp_bind, wp_error_of, wp_disk. eapply wp_mono; [apply (wp_file_Sync file i2); by rewrite Hf|].
  intros r2 w2 Ht2. rewrite Hf, Hd2 in Ht2. pose proof (touched_trans _ _ _ _ _ _ Ht01 Ht2) as Ht02.
  destruct r2 as [[]|e2].
  2: { apply (Hbad w2 0); [|lia]. unfold ztake. simpl. by rewrite app_nil_r. }
  rewrite wp_bind, wp_ignore, wp_disk.
  eapply wp_mono; [apply (wp_kept (same_files w2)); [apply keeps_Close, _|apply same_files_refl]|].
  intros r3 w3 Hs3. rewrite wp_ret. exists h, w3, 0, (Some e), 0. pose proof (zlen_nonneg data).
  unfold ztake. simpl. rewrite app_nil_r. pose proof (touched_same _ _ _ _ _ Ht02 Hs3) as Ht3.
  split_and!; auto; [|lia|done]. eapply hash_ok_for; eauto using touched_data.
Qed.

Lemma wp_Append ctx data h (s : Session) w n0 i :
  w_names w !! active_path (se_state s) = Some n0 -> w_inodes w !! n0 = Some i -> hash_ok h s w ->
  wp (Append ctx data) (h, (s, w)) (append_post h s w n0 (i_data i) data).
Proof.
  intros Hn Hi Hh. pose proof (zlen_nonneg data). unfold Writer.Append. rewrite wp_counted, wp_bind, wp_get. cbv beta. simpl fst.
  destruct (wh_closed h) eqn:Ec; [rewrite wp_fail; apply append_nothing; auto; apply same_files_refl|].
  rewrite wp_bind, wp_throw. destruct (ctx_Err ctx).1; [apply append_nothing; auto; apply same_files_refl|].
  rewrite wp_bind, wp_serving. unfold session_state. unfold wp at 1. simpl fst. simpl snd.
  rewrite wp_bind. eapply wp_mono; [by eapply wp_ensureAppendHash|].
  intros r x (h1 & w1 & -> & Hs1 & Hh1 & Hc1 & Hr). destruct r as [[]|e]; [|by apply append_nothing].
  destruct (Hr eq_refl) as (Hv & Hp & Hhash & Hbytes).
  rewrite wp_bind, wp_wrap, wp_disk. eapply wp_mono; [apply wp_OpenFile|]. intros [f|e] w2 [Hs2 Hf].
  2: { apply append_nothing; eauto using same_files_trans, hash_ok_same. }
  destruct (Hf f eq_refl) as (Hfn & Happ & _). assert (f_ino f = n0) as Hino.
  { destruct Hs1 as (E & _). rewrite E in Hfn. congruence. }
  pose proof (same_files_trans _ _ _ Hs1 Hs2) as Hs02.
  rewrite wp_bind, wp_or_else, wp_disk. eapply wp_mono; [apply wp_file_Stat|]. intros [info|e] w3 [Hs3 Hinfo].
  2: { rewrite wp_disk. eapply wp_mono; [apply (wp_kept (same_files w3)); [apply keeps_Close, _|apply same_files_refl]|].
       intros r4 w4 Hs4. assert (same_files w w4) by eauto using same_files_trans. apply append_nothing; auto.
       eapply (hash_ok_same _ _ w1); eauto using same_files_trans. }
  destruct (Hinfo info eq_refl) as (j & Hj & _ & Hsize & _).
  assert (same_files w w3) as Hs03 by eauto using same_files_trans.
  assert (j = i) as -> by (destruct Hs02 as (_ & E & _); rewrite E, Hino in Hj; congruence).
  assert (w_inodes w3 !! f_ino f = Some i) as Hi3 by (destruct Hs03 as (_ & -> & _); by rewrite Hino).
  rewrite wp_bind, wp_disk. unfold file_Write. rewrite wp_bind. eapply wp_mono; [by eapply wp_inode_Write|].
  intros r4 w4 (k & err & -> & Hk & Herr & Ht). rewrite wp_ret. cbv beta iota. rewrite Happ, pwrite_end, Hino in Ht.
  pose proof (same_touched _ _ _ _ _ Hs03 Ht) as Ht04. simpl fst. simpl snd.
  assert (forall h' w5 err', hash_ok h' s w5 -> wh_closed h' = false -> same_files w4 w5 ->
    (err' = None -> k = zlen data) ->
    append_post h s w n0 (i_data i) data (Ok (k, err')) (h', (s, w5))) as Hdone.
  { intros h' w5 err' Hh' Hc' Hs5 He'. exists h', w5, k, err', k. split_and!; auto; try lia; [by eapply touched_same|congruence|].
    intros ->. unfold ztake. simpl. apply app_nil_r. }
  destruct err as [e|]; [|rewrite (Herr eq_refl), Z.eqb_refl; simpl negb; cbv iota].
  - destruct (k >? 0) eqn:Ek; zbool.
    + rewrite Hsize. eapply wp_mono;
        [by eapply (wp_rollback h1 s w4 w n0 i data k _ e h); [exact Hn|exact Hi|exact Ht04|exact Hino|lia|..]; congruence|].
      intros r5 x5 (h' & w' & n & err' & k' & -> & -> & Hrest). by exists h', w', n, err', k'.
    + assert (k = 0) as -> by lia. rewrite wp_bind, wp_ignore, wp_disk.
      eapply wp_mono; [apply (wp_kept (same_files w4)); [apply keeps_Close, _|apply same_files_refl]|].
      intros r5 w5 Hs5. rewrite wp_ret. apply Hdone; auto; [|congruence].
      unfold ztake in Ht04. simpl in Ht04. rewrite app_nil_r in Ht04.
      eapply hash_ok_for; eauto. by rewrite (same_files_data _ _ _ Hs5), (touched_data _ _ _ _ _ Ht04 Hn).
  - rewrite wp_bind, wp_error_of, wp_disk.
    eapply wp_mono; [apply (wp_kept (same_files w4)); [apply keeps_Close, _|apply same_files_refl]|].
    intros r5 w5 Hs5. rewrite wp_bind. rewrite (Herr eq_refl), ztake_all in Ht04 by lia.
    destruct (zlen data >? 0) eqn:Ek; zbool.
    + rewrite wp_on_handle, wp_ret. rewrite <- (Herr eq_refl). apply Hdone; simpl; auto; [|congruence].
      eapply hash_ok_for; [done| | |].
      * rewrite (same_files_data _ _ _ Hs5). by eapply touched_data.
      * simpl. by rewrite Hhash, (Herr eq_refl), ztake_all by lia.
      * simpl. rewrite Hbytes, (Herr eq_refl), zlen_app. done.
    + rewrite wp_ret, wp_ret. rewrite <- (Herr eq_refl). apply Hdone; auto; [|congruence].
      assert (data = []) as -> by (destruct data; [done|unfold zlen in Ek; simpl in Ek; lia]). rewrite app_nil_r in Ht04.
      eapply hash_ok_for; eauto. by rewrite (same_files_data _ _ _ Hs5), (touched_data _ _ _ _ _ Ht04 Hn).
Qed.

(** *** Copy-on-write under a writer *)

(** From [s] to [s']: nothing but reserved files was touched, and a new active
    file is one of them. *)
Record cow_step (s : Session) (w : world) (s' : Session) (w' : world) : Prop := {
  cs_away : away (reserved s) w w';
  cs_active : se_state s' = se_state s
    \/ (ss_BackingPath (se_state s) = None /\ is_Some (ss_BackingPath (se_state s'))
        /\ reserved s (active_path (se_state s')));
}.

Lemma cow_post_step s w r sw :
  layout s w -> session_ok s w -> ss_BackingPath (se_state s) = None -> cow_post s w r sw -> cow_step s w sw.1 sw.2.
Proof.
  intros Hl Hok Hd [[Hq Hr]|(s2 & w2 & Hb & Hq & Hr)].
  - split; [apply (qs_away _ _ _ _ _ Hq)|left; apply (qs_state _ _ _ _ _ Hq)].
  - split.
    + eapply away_trans; [apply Hok|apply (bk_away _ _ _ _ Hb)|]. eapply away_mono; [|apply (qs_away _ _ _ _ _ Hq)].
      intros q Hq'. by left.
    + right. rewrite (qs_state _ _ _ _ _ Hq), (bk_state _ _ _ _ Hb). split_and!; [done|by eexists|].
      right. split; [done|]. by exists (next_generation s).
Qed.

Lemma cow_step_hash h s w s' w' : layout s w -> session_ok s w -> cow_step s w s' w' -> hash_ok h s w -> hash_ok h s' w'.
Proof.
  intros Hl Hok [Ha Hs] Hh Hv. destruct (Hh Hv) as [Hp Hd]. destruct Hs as [E|(E & [b Eb] & Hres)].
  - rewrite E. split; [done|]. intros Hpath. destruct (Hd Hpath) as [Hdata Hb]. split; [|done].
    eapply apart_file_data; [apply (ly_apart _ _ Hl)|apply Hok|exact Ha|apply (ly_active _ _ Hl)|done].
  - split; [by rewrite Eb|]. intros Hpath. rewrite <- Hpath, (Hp E) in Hres. by destruct (ly_active _ _ Hl).
Qed.

Lemma wp_cow ctx s w :
  layout s w -> session_ok s w ->
  wp (ensureBacking sha256 json_journal pid reserve_roots random ctx) (s, w) (fun r sw =>
    layout sw.1 sw.2 /\ session_ok sw.1 sw.2 /\ same_visible s w sw.1 sw.2 /\ cow_step s w sw.1 sw.2
    /\ (se_statePath sw.1 = se_statePath s /\ se_directory sw.1 = se_directory s)
    /\ forall p, r = Ok p -> ss_BackingPath (se_state sw.1) = Some p).
Proof.
  intros Hl Hok. apply wp_mono with (P := fun r sw =>
    (layout sw.1 sw.2 /\ session_ok sw.1 sw.2 /\ same_visible s w sw.1 sw.2
    /\ forall p, r = Ok p -> ss_BackingPath (se_state sw.1) = Some p
         /\ (ss_BackingPath (se_state s) = None -> durable sw.2 p))
    /\ (cow_step s w sw.1 sw.2 /\ se_statePath sw.1 = se_statePath s /\ se_directory sw.1 = se_directory s)).
  - apply wp_conj; [by apply wp_ensureBacking_visible|]. destruct (ss_BackingPath (se_state s)) as [b|] eqn:E.
    + unfold ensureBacking. rewrite wp_bind, wp_get. simpl fst. rewrite E, wp_ret. split; [|done]. split; [apply away_refl, Hok|by left].
    + eapply wp_mono; [by apply wp_ensureBacking|]. intros r sw Hp. split; [by eapply cow_post_step|].
      destruct Hp as [[Hq _]|(s2 & w2 & Hb & Hq & _)]; destruct Hq as [_ _ Ed Ep _ _ _ _]; [done|].
      by rewrite Ed, Ep, (bk_statePath _ _ _ _ Hb), (bk_directory _ _ _ _ Hb).
  - intros r sw [(? & ? & ? & Hr) (? & ? & ?)]. split_and!; auto. intros p Hp. by destruct (Hr p Hp).
Qed.

Lemma hash_ok_data h s w w' :
  hash_ok h s w -> file_data w' (active_path (se_state s)) = file_data w (active_path (se_state s)) -> hash_ok h s w'.
Proof. intros Hh Hd Hv. rewrite Hd. by apply Hh. Qed.

(** ** The session as one byte string *)

Definition shows (s : Session) (w : world) (v : bytes) : Prop :=
  visible_size s w = zlen v /\ forall p, 0 <= p < zlen v -> visible_byte s w p = v !! Z.to_nat p.

Lemma same_visible_shows s w s' w' v : same_visible s w s' w' -> shows s w v -> shows s' w' v.
Proof. intros [E Hb] [Hz Hv]. split; [congruence|]. intros p Hp. rewrite Hb by lia. auto. Qed.

Lemma active_file s w : session_ok s w -> exists n i,
  w_names w !! active_path (se_state s) = Some n /\ w_inodes w !! n = Some i
  /\ file_data w (active_path (se_state s)) = Some (i_data i).
Proof.
  intros Hok. destruct (so_active _ _ Hok) as [d Hd]. unfold file_data, inode_of in *.
  destruct (w_names w !! _) as [n|]; [|done]. simpl in *. destruct (w_inodes w !! n) as [i|] eqn:Ei; [|done].
  exists n, i. split_and!; auto.
Qed.

(** New contents of the active file. *)
Lemma touched_session n d s w w' :
  layout s w -> session_ok s w -> w_names w !! active_path (se_state s) = Some n -> touched n d w w' ->
  visible_size s w' <= max_int64 -> layout s w' /\ session_ok s w'.
Proof.
  intros [l1 l2 l3 l4 l5 l6] [k1 k2 k3 k4 k5 k6] Hn Ht Hsz. pose proof (touched_data _ _ _ _ _ Ht Hn) as Hd. split.
  - split; auto. intros q m Hq. rewrite (tc_names _ _ _ _ Ht). by apply l6.
  - split; auto; by eapply touched_wf.
Qed.

Lemma shows_backing s w b v : ss_BackingPath (se_state s) = Some b -> session_ok s w ->
  shows s w v <-> file_data w b = Some v.
Proof.
  intros Hb Hok. destruct (so_active _ _ Hok) as [d Hd]. unfold shows, visible_size, visible_byte, active_path in *.
  rewrite Hb in *. rewrite Hd. simpl. split; [|intros [= ->]; done]. intros [Hz Hv]. f_equal.
  apply list_eq. intros j. destruct (decide (j < length d)%nat) as [Hj|Hj].
  - specialize (Hv (Z.of_nat j)). rewrite Nat2Z.id in Hv. apply Hv. unfold zlen in *. lia.
  - rewrite !lookup_ge_None_2; [done|unfold zlen in *; lia..].
Qed.

Lemma shows_append s w w' d x v :
  session_ok s w -> file_data w (active_path (se_state s)) = Some d ->
  file_data w' (active_path (se_state s)) = Some (d ++ x) -> shows s w v -> shows s w' (v ++ x).
Proof.
  intros Hok Hd Hd' [Hz Hv]. pose proof (zlen_nonneg d). pose proof (zlen_nonneg x). destruct (so_base _ _ Hok) as [Hb0 _].
  unfold shows, visible_size in *. rewrite Hd in Hz. rewrite Hd'.
  split; [destruct (ss_BackingPath _); rewrite !zlen_app; lia|]. intros p Hp. rewrite zlen_app in Hp.
  destruct (Z.lt_ge_cases p (zlen v)) as [Hlt|Hge].
  - rewrite lookup_app_l by (unfold zlen in *; lia). rewrite <- Hv by lia.
    unfold visible_byte, active_path in *. destruct (ss_BackingPath (se_state s)) as [b|]; rewrite Hd, Hd'; simpl.
    + rewrite lookup_app_l; [done|unfold zlen in *; lia].
    + destruct (p <? ss_BaseBytes (se_state s)) eqn:Ep; [done|]. zbool. rewrite lookup_app_l; [done|unfold zlen in *; lia].
  - rewrite lookup_app_r by (unfold zlen in *; lia). unfold visible_byte, active_path in *.
    destruct (ss_BackingPath (se_state s)) as [b|]; rewrite Hd'; simpl.
    + rewrite lookup_app_r by (unfold zlen in *; lia). f_equal. unfold zlen in *. lia.
    + rewrite (proj2 (Z.ltb_ge _ _)) by lia. rewrite lookup_app_r by (unfold zlen in *; lia). f_equal. unfold zlen in *. lia.
Qed.

Local Abbreviation run_op := (run_op sha256 json_journal pid reserve_roots random).
Local Abbreviation run_ops := (run_ops sha256 json_journal pid reserve_roots random).

Record writer_ok (x : WriteHandle * (Session * world)) : Prop := {
  wk_layout : layout x.2.1 x.2.2;
  wk_session : session_ok x.2.1 x.2.2;
  wk_hash : hash_ok x.1 x.2.1 x.2.2;
}.

(** *** Readers that were opened earlier

    [m] is the inode of a delta file that held [d0]: it may have grown, it is the
    active file or one that no operation writes to. *)
Record snapshot (m : nat) (d0 : bytes) (s : Session) (w : world) : Prop := {
  sn_data : exists i, w_inodes w !! m = Some i /\ d0 `prefix_of` i_data i;
  sn_apart : forall q, bookkeeping (se_statePath s) (se_directory s) q -> w_names w !! q <> Some m;
  sn_active : ss_BackingPath (se_state s) = None -> w_names w !! active_path (se_state s) = Some m;
  sn_backing : is_Some (ss_BackingPath (se_state s)) -> w_names w !! active_path (se_state s) <> Some m;
}.
Definition evolves (s : Session) (w : world) (s' : Session) (w' : world) : Prop :=
  se_statePath s' = se_statePath s /\ se_directory s' = se_directory s
  /\ forall m d0, snapshot m d0 s w -> snapshot m d0 s' w'.

Lemma evolves_refl s w : evolves s w s w.
Proof. by split_and!. Qed.
Lemma evolves_trans s0 w0 s1 w1 s2 w2 : evolves s0 w0 s1 w1 -> evolves s1 w1 s2 w2 -> evolves s0 w0 s2 w2.
Proof. intros (E1 & E2 & H1') (E3 & E4 & H2'). split_and!; [congruence..|auto]. Qed.
Lemma evolves_same s w w' : same_files w w' -> evolves s w s w'.
Proof.
  intros (E1 & E2 & _). split_and!; auto. intros m d0 [a b c d]. split; rewrite ?E1, ?E2; auto.
Qed.

Lemma snapshot_not_mine m d0 s w : layout s w -> session_ok s w -> snapshot m d0 s w -> ~ mine (reserved s) w m.
Proof.
  intros Hl Hok [(i & Hi & _) Hap Hact _]. destruct (ss_BackingPath (se_state s)) as [b|] eqn:E.
  - intros [(q & [Hq|[Hc _]] & Hn)|Hge]; [by eapply Hap|congruence|].
    pose proof (wf_next _ (so_wf _ _ Hok) m ltac:(by eexists)). lia.
  - eapply apart_not_mine; [apply (ly_apart _ _ Hl)|apply Hok|]. auto.
Qed.

(** Writing to the active file, at its end while it is a delta file. *)
Lemma evolves_touched s w w' n d i :
  session_ok s w -> w_names w !! active_path (se_state s) = Some n -> w_inodes w !! n = Some i -> touched n d w w' ->
  (ss_BackingPath (se_state s) = None -> i_data i `prefix_of` d) -> evolves s w s w'.
Proof.
  intros Hok Hn Hi Ht Hpre. split_and!; auto. intros m d0 [(j & Hj & Hd) Hap Hact Hback].
  split; rewrite ?(tc_names _ _ _ _ Ht); auto. destruct (ss_BackingPath (se_state s)) as [b|] eqn:E.
  - exists j. split; [|done]. rewrite (tc_others _ _ _ _ Ht); [done|]. intros ->. by apply Hback.
  - specialize (Hact eq_refl). simplify_eq. destruct (tc_data _ _ _ _ Ht) as (i' & Hi' & <-). exists i'.
    split; [done|]. etrans; [exact Hd|auto].
Qed.

Lemma evolves_cow s w s' w' :
  layout s w -> session_ok s w -> se_statePath s' = se_statePath s -> se_directory s' = se_directory s ->
  cow_step s w s' w' -> evolves s w s' w'.
Proof.
  intros Hl Hok E1 E2 [Ha Hs]. split_and!; auto. intros m d0 Hsn. pose proof (snapshot_not_mine _ _ _ _ Hl Hok Hsn) as Hm.
  pose proof Hsn as [(i & Hi & Hd) Hap Hact Hback].
  assert (forall q, w_names w' !! q = Some m -> w_names w !! q = Some m) as Hnames.
  { intros q Hq. by destruct (aw_new _ _ _ Ha _ _ Hq). }
  split.
  - destruct (aw_inodes _ _ _ Ha _ _ Hi Hm) as (i' & Hi' & Hk & _). exists i'. by rewrite Hk.
  - intros q Hq Hn. rewrite E1, E2 in Hq. by apply (Hap q Hq), Hnames.
  - destruct Hs as [->|(_ & [b ->] & _)]; [|done]. intros E. apply (aw_names _ _ _ Ha); [apply (ly_active _ _ Hl)|auto].
  - destruct Hs as [->|(E & _ & Hres)]; intros Hb Hn; [by apply (Hback Hb), Hnames|].
    apply Hm. left. exists (active_path (se_state s')). auto.
Qed.

(** Where an operation that began at [s0], [w0] stands: the session shows [v]. *)
Record course (s0 : Session) (w0 : world) (v : bytes) (h : WriteHandle) (s : Session) (w : world) : Prop := {
  co_writer : writer_ok (h, (s, w));
  co_shows : shows s w v;
  co_evolves : evolves s0 w0 s w;
}.

(** One operation on a session that shows [v]. *)
Definition op_post (op : write_op) (s0 : Session) (w0 : world) (v : bytes) (r : result (Z * option error))
    (x : WriteHandle * (Session * world)) : Prop :=
  exists n err v', r = Ok (n, err) /\ course s0 w0 v' x.1 x.2.1 x.2.2 /\ op_effect op n err v v'.

Lemma op_post_same op v n err s0 w0 h s w :
  course s0 w0 v h s w -> op_effect op n err v v -> op_post op s0 w0 v (Ok (n, err)) (h, (s, w)).
Proof. intros Hc He. by exists n, err, v. Qed.

Lemma shows_data s w w' v :
  file_data w' (active_path (se_state s)) = file_data w (active_path (se_state s)) -> shows s w v -> shows s w' v.
Proof.
  intros Hd [Hz Hv]. unfold shows, visible_size, visible_byte, active_path in *.
  split; [|intros p Hp; rewrite <- Hv by done]; destruct (ss_BackingPath _); by rewrite Hd.
Qed.

(** New contents of the active file. *)
Lemma course_touched s0 w0 v v' n0 i d h h' s w w' :
  course s0 w0 v h s w -> w_names w !! active_path (se_state s) = Some n0 -> w_inodes w !! n0 = Some i ->
  touched n0 d w w' -> (ss_BackingPath (se_state s) = None -> i_data i `prefix_of` d) ->
  hash_ok h' s w' -> shows s w' v' -> zlen v' <= max_int64 -> course s0 w0 v' h' s w'.
Proof.
  intros [[Hl Hok Hh] _ He] Hn Hi Ht Hpre Hh' Hv' Hb. simpl in *.
  destruct (touched_session _ _ _ _ _ Hl Hok Hn Ht) as [Hl' Hok']; [destruct Hv'; lia|].
  split; [by split|done|]. eapply evolves_trans; [exact He|]. by eapply evolves_touched.
Qed.
(** The same contents again. *)
Lemma course_kept s0 w0 v n i h s w w' :
  course s0 w0 v h s w -> w_names w !! active_path (se_state s) = Some n -> w_inodes w !! n = Some i ->
  touched n (i_data i) w w' -> course s0 w0 v h s w'.
Proof.
  intros Hc Hn Hi Ht.
  assert (file_data w' (active_path (se_state s)) = file_data w (active_path (se_state s))) as Hd.
  { rewrite (touched_data _ _ _ _ _ Ht Hn). unfold file_data, inode_of. rewrite Hn. simpl. by rewrite Hi. }
  eapply course_touched; eauto.
  - eapply hash_ok_data; [apply (wk_hash _ (co_writer _ _ _ _ _ _ Hc))|done].
  - eapply shows_data; [done|apply Hc].
  - destruct Hc as [[_ Hok _] [Hz _] _]. rewrite <- Hz. apply Hok.
Qed.
Lemma course_same s0 w0 v h s w w' : course s0 w0 v h s w -> same_files w w' -> course s0 w0 v h s w'.
Proof.
  intros Hc Hs. destruct (active_file s w (wk_session _ (co_writer _ _ _ _ _ _ Hc))) as (n & i & Hn & Hi & _).
  eapply course_kept; eauto. eapply touched_same; [by apply touched_refl|done].
Qed.
(** Bookkeeping files were written. *)
Lemma course_away s0 w0 v h s w w' : course s0 w0 v h s w -> away (reserved s) w w' -> course s0 w0 v h s w'.
Proof.
  intros [[Hl Hok Hh] Hv He] Ha. simpl in *. destruct (quiet_visible s w (s, w') Hl Hok) as (Hl' & Hok' & Hs).
  { split; auto. apply (ly_leases _ _ Hl). }
  assert (cow_step s w s w') as Hstep by (split; [done|by left]). split.
  - split; simpl; auto. by apply (cow_step_hash h s w s w').
  - by eapply same_visible_shows.
  - eapply evolves_trans; [exact He|]. by apply evolves_cow.
Qed.

Lemma wp_op_append ctx data h s w v :
  course s w v h s w -> op_bound (zlen v) (OpAppend data) <= max_int64 ->
  wp (Append ctx data) (h, (s, w)) (op_post (OpAppend data) s w v).
Proof.
  intros Hc Hb. pose proof (co_writer _ _ _ _ _ _ Hc) as Hwk.
  destruct (active_file s w (wk_session _ Hwk)) as (n0 & i & Hn & Hi & Hd).
  eapply wp_mono; [by apply wp_Append; [..|apply (wk_hash _ Hwk)]|].
  intros r x (h' & w' & n & err & k & -> & -> & Ht & Hh' & _ & Hk & He & H0').
  assert (op_effect (OpAppend data) n err v (v ++ ztake k data)) as Heff.
  { exists k. split; [done|]. split_and!; auto.
    - intros Herr. destruct (He Herr) as [-> ->]. by rewrite ztake_all by lia.
    - intros Hz. specialize (H0' Hz). rewrite <- (app_nil_r (i_data i)) in H0' at 2. apply app_inv_head in H0'.
      by rewrite H0', app_nil_r. }
  exists n, err, (v ++ ztake k data). split_and!; auto. simpl. pose proof (op_effect_bound _ _ _ _ _ Heff).
  eapply course_touched; [exact Hc|exact Hn|exact Hi|exact Ht| |done| |lia].
  - intros _. by apply prefix_app_r.
  - eapply shows_append; [apply (wk_session _ Hwk)|exact Hd|by eapply touched_data|apply Hc].
Qed.

Lemma effect_none_WriteAt data off v e : op_effect (OpWriteAt data off) 0 (Some e) v v.
Proof. pose proof (zlen_nonneg data). split; [by right|]. split; [lia|]. by split. Qed.
#[local] Hint Resolve effect_none_WriteAt : core.

Lemma wp_op_cow ctx s0 w0 h s w v :
  course s0 w0 v h s w ->
  wp (ensureBacking sha256 json_journal pid reserve_roots random ctx) (s, w) (fun r sw =>
    course s0 w0 v h sw.1 sw.2
    /\ forall p, r = Ok p -> ss_BackingPath (se_state sw.1) = Some p /\ active_path (se_state sw.1) = p /\ exists n i,
         w_names sw.2 !! p = Some n /\ w_inodes sw.2 !! n = Some i /\ i_data i = v).
Proof.
  intros [[Hl Hok Hh] Hv He]. simpl in *. eapply wp_mono; [by apply wp_cow|].
  intros r [s1 w1] (Hl1 & Hok1 & Hsame & Hstep & (Ep & Ed) & Hr). simpl in *.
  pose proof (same_visible_shows _ _ _ _ _ Hsame Hv) as Hv1. split.
  - split; [|done|].
    + split; simpl; auto. exact (cow_step_hash _ _ _ _ _ Hl Hok Hstep Hh).
    + eapply evolves_trans; [exact He|]. by apply evolves_cow.
  - intros p Hp. specialize (Hr p Hp). assert (active_path (se_state s1) = p) as Ha by (unfold active_path; by rewrite Hr).
    split_and!; auto. destruct (active_file s1 w1 Hok1) as (n & i & Hn & Hi & Hd). rewrite Ha in *.
    exists n, i. split_and!; auto. apply (shows_backing s1 w1 p v Hr Hok1) in Hv1. congruence.
Qed.

(** New contents of a backing file. *)
Lemma op_post_backing op s0 w0 v v' n err h h' s w w' n0 i p :
  course s0 w0 v h s w -> ss_BackingPath (se_state s) = Some p -> w_names w !! p = Some n0 -> w_inodes w !! n0 = Some i ->
  touched n0 v' w w' -> hash_ok h' s w' -> op_effect op n err v v' -> op_bound (zlen v) op <= max_int64 ->
  op_post op s0 w0 v (Ok (n, err)) (h', (s, w')).
Proof.
  intros Hc Hb Hn Hi Ht Hh He Hbound. assert (active_path (se_state s) = p) as Ha by (unfold active_path; by rewrite Hb).
  pose proof (op_effect_bound _ _ _ _ _ He). exists n, err, v'. split_and!; auto. simpl.
  pose proof (co_writer _ _ _ _ _ _ Hc) as [Hl Hok _]. simpl in *.
  assert (session_ok s w') as Hok'.
  { destruct (touched_session n0 v' s w w') as [_ ?]; auto; [by rewrite Ha|].
    unfold visible_size. rewrite Hb, Ha, (touched_data _ _ _ _ _ Ht Hn). lia. }
  eapply course_touched; [exact Hc|by rewrite Ha|exact Hi|exact Ht|by rewrite Hb|done| |lia].
  apply (shows_backing s w' p); auto. by eapply touched_data.
Qed.

Lemma hash_ok_invalid h s w : wh_appendHashValid h = false -> hash_ok h s w.
Proof. intros Hf Hv. congruence. Qed.

Lemma wp_op_WriteAt ctx data off h s w v :
  course s w v h s w -> op_bound (zlen v) (OpWriteAt data off) <= max_int64 ->
  wp (run_op ctx (OpWriteAt data off)) (h, (s, w)) (op_post (OpWriteAt data off) s w v).
Proof.
  intros Hc Hb. simpl. unfold WriteAt. rewrite wp_counted, wp_bind, wp_get. cbv beta. simpl fst.
  assert (forall e h' s' w', course s w v h' s' w' ->
    op_post (OpWriteAt data off) s w v (Ok (0, Some e)) (h', (s', w'))) as Hstop by (intros; by apply op_post_same).
  destruct (wh_closed h); [by apply Hstop|]. destruct (off <? 0) eqn:Eoff; [by apply Hstop|]. zbool.
  rewrite wp_bind, wp_serving. eapply wp_mono; [by apply wp_op_cow|]. intros [p|e] [s1 w1] (Hc1 & Hr); [|by apply Hstop].
  destruct (Hr p eq_refl) as (Hbk & Hact & n & i & Hn & Hi & Hd). simpl in Hc1, Hbk, Hact, Hn, Hi.
  rewrite wp_bind, wp_disk. eapply wp_mono; [apply wp_OpenFile|]. intros [f|e] w2 [Hs2 Hf].
  2: { apply Hstop. by eapply course_same. }
  destruct (Hf f eq_refl) as (Hfn & _). assert (f_ino f = n) as Hino by congruence.
  rewrite wp_bind, wp_disk. unfold file_WriteAt. rewrite Hino. pose proof Hs2 as (E1 & E2 & _).
  eapply wp_mono; [apply (wp_inode_Write n _ data i); by rewrite E2|].
  intros r3 w3 (k & err & -> & Hk & Herr & Ht). rewrite Hd in Ht. cbv beta iota.
  pose proof (same_touched _ _ _ _ _ Hs2 Ht) as Ht1. rewrite wp_bind, wp_error_of, wp_disk.
  eapply wp_mono; [apply (wp_kept (same_files w3)); [apply keeps_Close, _|apply same_files_refl]|].
  intros r4 w4 Hs4. pose proof (touched_same _ _ _ _ _ Ht1 Hs4) as Ht4. rewrite wp_bind.
  assert (forall h' err', hash_ok h' s1 w4 -> (err' = None -> k = zlen data) ->
    op_post (OpWriteAt data off) s w v (Ok (k, err')) (h', (s1, w4))) as Hdone.
  { intros h' err' Hh' He'. eapply op_post_backing; [exact Hc1|exact Hbk|exact Hn|exact Hi|exact Ht4|exact Hh'| |exact Hb].
    split; [by left|]. split; [done|]. by split. }
  assert (forall r4 : result (), match err with Some e => Some e | None => match r4 with Ok _ => None | Err e => Some e end end = None -> k = zlen data) as He.
  { intros r5 Hn5. apply Herr. by destruct err. }
  destruct (k >? 0) eqn:Ek; zbool.
  - rewrite wp_on_handle, wp_ret. apply Hdone; [by apply hash_ok_invalid|apply He].
  - rewrite wp_ret, wp_ret. apply Hdone; [|apply He]. assert (k = 0) as -> by lia.
    eapply hash_ok_data; [apply (wk_hash _ (co_writer _ _ _ _ _ _ Hc1))|]. simpl. rewrite Hact.
    rewrite (touched_data _ _ _ _ _ Ht4 Hn). unfold file_data, inode_of. rewrite Hn. simpl. rewrite Hi. simpl. by rewrite Hd.
Qed.

Lemma wp_VisibleInfo s w :
  session_ok s w ->
  wp session_VisibleInfo (s, w) (fun r sw => sw.1 = s /\ same_files w sw.2
    /\ forall info, r = Ok info -> vi_Size info = visible_size s w).
Proof.
  intros Hok. destruct (active_file s w Hok) as (n & i & Hn & Hi & Hd). unfold session_VisibleInfo.
  rewrite wp_bind. unfold session_state. unfold wp at 1. simpl fst. simpl snd. rewrite wp_bind, wp_on_disk.
  apply wp_mono with (P := fun r w' => same_files w w' /\ forall info, r = Ok info -> fi_size info = zlen (i_data i)).
  { apply wp_keeps; [apply keeps_Stat, _|apply same_files_refl|]. apply wp_syscall; intros fs; [done|].
    unfold wp. simpl. rewrite Hn. simpl. rewrite Hi. simpl. by intros info [= <-]. }
  intros [info|e] w1 [Hs1 Hinfo]; [|done]. rewrite wp_ret. split_and!; auto. intros vi [= <-]. simpl.
  rewrite (Hinfo info eq_refl). pose proof (so_size _ _ Hok) as Hsz. unfold visible_size in *. rewrite Hd in *.
  destruct (ss_BackingPath (se_state s)); [done|]. rewrite i64_id; [lia|].
  pose proof (zlen_nonneg (i_data i)). destruct (so_base _ _ Hok). unfold in_i64, max_int64 in *. lia.
Qed.

Lemma wp_op_Truncate ctx size h s w v :
  course s w v h s w -> op_bound (zlen v) (OpTruncate size) <= max_int64 ->
  wp (run_op ctx (OpTruncate size)) (h, (s, w)) (op_post (OpTruncate size) s w v).
Proof.
  intros Hc Hb. simpl. unfold Truncate. rewrite wp_bind, wp_error_of, wp_bind, wp_get. cbv beta. simpl fst.
  assert (forall e h' s' w', course s w v h' s' w' ->
    op_post (OpTruncate size) s w v (Ok (0, Some e)) (h', (s', w'))) as Hstop by (intros; by apply op_post_same).
  destruct (wh_closed h); [by apply Hstop|]. destruct (size <? 0) eqn:Esz; [by apply Hstop|]. zbool.
  rewrite wp_bind, wp_serving. eapply wp_mono; [apply wp_VisibleInfo, (wk_session _ (co_writer _ _ _ _ _ _ Hc))|].
  intros [info|e] [s1 w1] (Es1 & Hs1 & Hinfo); simpl in Es1, Hs1; subst s1.
  2: { apply Hstop. by eapply course_same. }
  pose proof (course_same _ _ _ _ _ _ _ Hc Hs1) as Hc1.
  rewrite (Hinfo info eq_refl), (proj1 (co_shows _ _ _ _ _ _ Hc)). destruct (size =? zlen v) eqn:E; zbool.
  { rewrite wp_ret, wp_ret. apply op_post_same; auto. split; [|done]. intros _. split; [lia|]. by rewrite E, resize_id. }
  rewrite wp_bind, wp_serving. eapply wp_mono; [by apply wp_op_cow|]. intros [p|e] [s2 w2] (Hc2 & Hr); [|by apply Hstop].
  destruct (Hr p eq_refl) as (Hbk & Hact & n & i & Hn & Hi & Hd). simpl in Hc2, Hbk, Hact, Hn, Hi. rewrite wp_bind, wp_disk.
  change (os_Truncate p size) with (fun w => os_Truncate p size w). unfold wp at 1, os_Truncate. rewrite Hn.
  set (f := {| f_ino := n; f_pos := 0; f_append := false |}).
  eapply (wp_mono (file_Truncate f size)); [by apply (wp_file_Truncate f size i)|].
  intros [[]|e] w3 Ht; simpl in Ht.
  - rewrite wp_on_handle, wp_ret. rewrite Hd in Ht.
    eapply op_post_backing; [exact Hc2|exact Hbk|exact Hn|exact Hi|exact Ht|by apply hash_ok_invalid| |exact Hb].
    split; [|done]. intros _. split; [lia|done].
  - apply Hstop. by eapply course_same.
Qed.

(** *** Syncing *)

Lemma wp_active_identity s0 w0 h s w v :
  course s0 w0 v h s w ->
  wp (active_identity sha256 (active_path (se_state s))) (h, (s, w)) (fun r x => exists identity h' w',
    r = Ok identity /\ x = (h', (s, w')) /\ course s0 w0 v h' s w'
    /\ identity_matches sha256 (se_state s) identity w' = true).
Proof.
  intros Hc. unfold active_identity. rewrite wp_bind, wp_get. cbv beta. simpl fst.
  destruct (wh_appendHashValid h && bool_decide (wh_appendHashPath h = active_path (se_state s))) eqn:E.
  2: { rewrite wp_ret. by exists None, h, w. }
  apply andb_true_iff in E as [Ev Ep%bool_decide_eq_true].
  destruct (proj2 (wk_hash _ (co_writer _ _ _ _ _ _ Hc) Ev) Ep) as [Hd Hb]. simpl in Hd, Hb.
  rewrite wp_bind, wp_try, wp_disk. eapply wp_mono; [apply (wp_kept (same_files w)); [apply keeps_Stat, _|apply same_files_refl]|].
  intros r w1 Hs1. pose proof (course_same _ _ _ _ _ _ _ Hc Hs1) as Hc1.
  assert (wp (on_handle invalidate ;;; ret None) (h, (s, w1)) (fun r x => exists identity h' w',
    r = Ok identity /\ x = (h', (s, w')) /\ course s0 w0 v h' s w'
    /\ identity_matches sha256 (se_state s) identity w' = true)) as Hinv.
  { rewrite wp_bind, wp_on_handle, wp_ret. eexists None, _, w1. split_and!; auto. destruct Hc1 as [[? ? ?] ? ?].
    split; auto. split; simpl; auto. by apply hash_ok_invalid. }
  destruct r as [info|e]; [|exact Hinv].
  destruct (negb (fi_regular info) || negb (fi_size info =? wh_appendHashBytes h)); [exact Hinv|].
  rewrite wp_ret. eexists (Some _), h, w1. split_and!; auto. simpl.
  rewrite bool_decide_true by done. rewrite (same_files_data _ _ _ Hs1), Hd, Hb, Z.eqb_refl. simpl.
  unfold string_is. by rewrite bool_decide_true.
Qed.

Lemma wp_syncAndCheckpoint s0 w0 h s w v :
  course s0 w0 v h s w ->
  wp (syncAndCheckpointLocked sha256) (h, (s, w)) (fun _ x => exists h' w', x = (h', (s, w')) /\ course s0 w0 v h' s w').
Proof.
  intros Hc. unfold syncAndCheckpointLocked. rewrite wp_bind, wp_get. cbv beta. simpl fst. simpl snd.
  assert (forall h' w', course s0 w0 v h' s w' -> exists h'' w'', (h', (s, w')) = (h'', (s, w'')) /\ course s0 w0 v h'' s w'')
    as Hdone by eauto.
  destruct (wh_closed h); [by apply Hdone|].
  destruct (active_file s w (wk_session _ (co_writer _ _ _ _ _ _ Hc))) as (n & i & Hn & Hi & _).
  rewrite wp_bind, wp_serving. unfold session_state. unfold wp at 1. simpl fst. simpl snd.
  rewrite wp_bind, wp_disk. eapply wp_mono; [apply wp_OpenFile|]. intros [f|e] w1 [Hs1 Hf].
  2: { apply Hdone. by eapply course_same. }
  destruct (Hf f eq_refl) as (Hfn & _). assert (f_ino f = n) as Hino by congruence. pose proof Hs1 as (_ & E2 & _).
  rewrite wp_bind, wp_error_of, wp_disk. eapply wp_mono; [apply (wp_file_Sync f i); by rewrite E2, Hino|].
  intros r2 w2 Ht2. rewrite Hino in Ht2. rewrite wp_bind, wp_error_of, wp_disk.
  eapply wp_mono; [apply (wp_kept (same_files w2)); [apply keeps_Close, _|apply same_files_refl]|].
  intros r3 w3 Hs3. pose proof (touched_same _ _ _ _ _ (same_touched _ _ _ _ _ Hs1 Ht2) Hs3) as Ht3.
  pose proof (course_kept _ _ _ _ _ _ _ _ _ Hc Hn Hi Ht3) as Hc3.
  rewrite wp_bind, wp_throw. destruct (errors_join _); [by apply Hdone|]. destruct (wh_dirty h); simpl; [|by apply Hdone].
  rewrite wp_bind. eapply wp_mono; [by apply wp_active_identity|].
  intros r x (identity & h4 & w4 & -> & -> & Hc4 & _). rewrite wp_bind, wp_disk.
  assert (world_wf w4) as Hw4 by apply Hc4.
  eapply wp_mono; [apply (wp_kept (away (reserved s) w4)); [|by apply away_refl]|].
  { apply (keeps_away_weaken (state_files (se_statePath s))); [done|intros q Hq; left; by left|].
    intros w' Hw'. by apply refresh_away. }
  intros r5 w5 Ha5. pose proof (course_away _ _ _ _ _ _ _ Hc4 Ha5) as Hc5.
  destruct r5 as [[]|e]; [|by apply Hdone]. rewrite wp_on_handle. apply Hdone.
  destruct Hc5 as [[? ? ?] ? ?]. split; auto. by split.
Qed.

Lemma wp_run_op ctx op h s w v :
  course s w v h s w -> op_bound (zlen v) op <= max_int64 -> wp (run_op ctx op) (h, (s, w)) (op_post op s w v).
Proof.
  intros Hc Hb. destruct op as [data|data off|size|].
  - by apply wp_op_append.
  - by apply wp_op_WriteAt.
  - by apply wp_op_Truncate.
  - simpl. unfold Sync. rewrite wp_bind, wp_error_of. eapply wp_mono; [by apply wp_syncAndCheckpoint|].
    intros r x (h' & w' & -> & Hc'). rewrite wp_ret. by apply op_post_same.
Qed.
End WriterLaws.

(** An upper bound of the size along a sequence of operations. *)
Fixpoint ops_bound (size : Z) (ops : list (Ctx * write_op)) : Z :=
  match ops with
  | [] => size
  | (_, op) :: ops => ops_bound (op_bound size op) ops
  end.
Lemma op_bound_mono a b op : a <= b -> op_bound a op <= op_bound b op.
Proof. destruct op; simpl; lia. Qed.
Lemma op_bound_le size op : size <= op_bound size op.
Proof. destruct op as [data| | |]; simpl; try lia. pose proof (zlen_nonneg data). lia. Qed.
Lemma ops_bound_mono a b ops : a <= b -> ops_bound a ops <= ops_bound b ops.
Proof. revert a b. induction ops as [|[c op] ops IH]; simpl; intros a b Hab; [done|]. apply IH. by apply op_bound_mono. Qed.
Lemma ops_bound_le size ops : size <= ops_bound size ops.
Proof.
  revert size. induction ops as [|[c op] ops IH]; simpl; intros size; [lia|]. etrans; [apply (op_bound_le _ op)|apply IH].
Qed.

Section RunLaws.
Context {R : Type} `{ObjectReaderLaw R} `{StateStoreLaw}.
Variable sha256 : bytes -> bytes.
Variable json_journal : JournalRecord -> result bytes.
Variable pid : string.
Variable reserve_roots : list path.
Variable random : world -> string * string.

Lemma wp_run_ops ops h (s : Session R) w v :
  writer_ok (h, (s, w)) -> shows s w v -> ops_bound (zlen v) ops <= max_int64 ->
  wp (run_ops sha256 json_journal pid reserve_roots random ops) (h, (s, w)) (fun r x => exists rs v',
    r = Ok rs /\ course s w v' x.1 x.2.1 x.2.2 /\ run_effect ops rs v v').
Proof.
  revert h s w v. induction ops as [|[ctx op] ops IH]; intros h s w v Hwk Hv Hb; cbn [run_ops ops_bound] in *.
  { rewrite wp_ret. exists [], v. split_and!; [done| |constructor]. split; auto. apply evolves_refl. }
  rewrite wp_bind. eapply wp_mono; [apply (wp_run_op _ _ _ _ _ _ _ _ _ _ v)|].
  { split; auto. apply evolves_refl. }
  { etrans; [apply (ops_bound_le _ ops)|exact Hb]. }
  intros r [h1 [s1 w1]] (n & err & v1 & -> & [Hwk1 Hv1 He1] & Heff). simpl in *. rewrite wp_bind.
  eapply wp_mono; [apply (IH h1 s1 w1 v1); auto|].
  { etrans; [apply ops_bound_mono, (op_effect_bound _ _ _ _ _ Heff)|exact Hb]. }
  intros r2 [h2 [s2 w2]] (rs & v2 & -> & [Hwk2 Hv2 He2] & Heff2). rewrite wp_ret. exists ((n, err) :: rs), v2.
  split_and!; [done| |by econstructor]. split; auto. by eapply evolves_trans.
Qed.
End RunLaws.

(** C2. A writer refines a byte string.  From a well-formed session that shows [v],
    any sequence of appends, random writes, truncations and syncs, with any
    failures and cancellations, returns, leaves the session well formed, and acts
    on the visible bytes as the abstract operations with the reported outcomes: a
    successful append adds its data, a failed one that reports 0 adds nothing (and
    no append adds more than a prefix of its data), a write that reports [n]
    overwrites [n] bytes at its offset, a truncation resizes or does nothing. *)
Theorem writer_refines {R} `{ObjectReaderLaw R} `{StateStoreLaw} sha256 json_journal pid reserve_roots random
    ops h (s : Session R) w v :
  writer_ok (h, (s, w)) -> shows s w v -> ops_bound (zlen v) ops <= max_int64 ->
  wp (run_ops sha256 json_journal pid reserve_roots random ops) (h, (s, w)) (fun r x => exists rs v',
    r = Ok rs /\ writer_ok x /\ shows x.2.1 x.2.2 v' /\ run_effect ops rs v v').
Proof.
  intros Hwk Hv Hb. eapply wp_mono; [by apply wp_run_ops|]. intros r [h' [s' w']] (rs & v' & -> & [Hwk' Hv' _] & He).
  by exists rs, v'.
Qed.

(** C14. Readers keep their snapshot.  A reader opened while the session has no
    backing file keeps showing, byte for byte and in full, what the session showed
    when it was opened, whatever a writer does afterwards. *)
Theorem reader_snapshot {R} `{ObjectReaderLaw R} `{StateStoreLaw} sha256 json_journal pid reserve_roots random
    ops h (s : Session R) w v reader s1 w1 :
  writer_ok (h, (s, w)) -> shows s w v -> ss_BackingPath (se_state s) = None ->
  OpenReader pid reserve_roots random (s, w) = (Ok reader, (s1, w1)) ->
  ops_bound (zlen v) ops <= max_int64 ->
  wp (run_ops sha256 json_journal pid reserve_roots random ops) (h, (s1, w1)) (fun _ x =>
    handle_ok reader x.2.2 /\ rh_size reader = zlen v
    /\ forall p, 0 <= p < zlen v -> handle_byte reader x.2.2 p = v !! Z.to_nat p).
Proof.
  intros Hwk Hv Hdelta Hopen Hb. destruct Hwk as [Hl Hok Hh]. simpl in *.
  pose proof (wp_OpenReader pid reserve_roots random (bookkeeping (se_statePath s) (se_directory s)) (se_directory s)
    (fun q Hq => bookkeeping_leases _ _ q Hq) s w (so_wf _ _ Hok) eq_refl (ly_leases _ _ Hl)) as Ho.
  unfold wp in Ho. rewrite Hopen in Ho. destruct Ho as [Hq Hop]. specialize (Hop reader eq_refl). simpl in Hq, Hop.
  assert (quiet_session (reserved s) (se_directory s) s w (s1, w1)) as Hqr by by apply quiet_reserved.
  destruct (quiet_visible s w (s1, w1) Hl Hok Hqr) as (Hl1 & Hok1 & Hsame). simpl in *.
  pose proof (same_visible_shows _ _ _ _ _ Hsame Hv) as Hv1.
  pose proof (qs_state _ _ _ _ _ Hq) as Est. simpl in Est.
  assert (hash_ok h s1 w1) as Hh1.
  { apply (cow_step_hash h s w); auto. split; [apply (qs_away _ _ _ _ _ Hqr)|by left]. }
  assert (opened s1 w1 reader) as Hop1.
  { destruct Hop as [a b c d e]. pose proof (qs_view _ _ _ _ _ Hq) as Ev. simpl in Ev. split; rewrite ?Est, ?Ev; auto. }
  destruct (opened_shows s1 w1 reader Hok1 Hop1) as (Hho & Hsz & Hbyte).
  destruct (op_inode _ _ _ Hop1) as (i & Hi & _ & Hsd).
  assert (rh_backing reader = false) as Hbk.
  { rewrite (op_backing _ _ _ Hop1), Est, Hdelta. by rewrite bool_decide_false by (by intros [? ?]). }
  destruct (Hsd Hbk) as [Hdb _]. rewrite (proj1 Hv1) in Hsz.
  assert (snapshot (f_ino (rh_file reader)) (i_data i) s1 w1) as Hsn.
  { split.
    - by exists i.
    - intros q Hq' Hn. eapply (ly_apart _ _ Hl1 q); [by left|exact Hn|apply (op_name _ _ _ Hop1)].
    - intros _. apply (op_name _ _ _ Hop1).
    - rewrite Est, Hdelta. by intros [? ?]. }
  eapply wp_mono; [apply (wp_run_ops _ _ _ _ _ ops h s1 w1 v); [by split|done|done]|].
  intros r [h2 [s2 w2]] (rs & v2 & -> & [_ _ (_ & _ & Hev)] & _). cbn [fst snd] in *.
  destruct (sn_data _ _ _ _ (Hev _ _ Hsn)) as (i2 & Hi2 & [tail Htail]).
  destruct (ho_base _ _ Hho Hbk) as (Hvw & Hrd & Hbs & Hb0 & Hd0 & Hsize).
  split_and!; [|done|].
  - split; [|done]. rewrite Hbk. exists i2. split; [done|]. rewrite Htail, zlen_app, Hdb. pose proof (zlen_nonneg tail). lia.
  - intros p Hp. rewrite <- (proj2 Hv1 p Hp), <- Hbyte by lia. unfold handle_byte.
    simpl. rewrite (handle_data_eq _ _ _ Hi), (handle_data_eq _ _ _ Hi2), Hbk, Htail.
    destruct (rh_size reader <=? p); [done|]. destruct (p <? rh_baseBytes reader) eqn:Ep; [done|]. zbool.
    rewrite lookup_app_l; [done|]. unfold zlen in *. lia.
Qed.

Section Checked.
Context {R : Type} `{ObjectReaderLaw R} {store : StateStore} `{!StateStoreLaw}.
Variable sha256 : bytes -> bytes.

Lemma sync_checked s0 w0 v h (s : Session R) w :
  course s0 w0 v h s w ->
  @Sync R store sha256 (h, (s, w)) = @Sync R (checked_store sha256 store) sha256 (h, (s, w)).
Proof.
  intros Hc. unfold Sync, syncAndCheckpointLocked. rewrite !bind_get. cbn [fst snd].
  destruct (wh_closed h); [done|].
  destruct (active_file s w (wk_session _ (co_writer _ _ _ _ _ _ Hc))) as (n & i & Hn & Hi & _).
  apply bind_ext. rewrite wp_serving. unfold session_state, wp at 1. cbn [fst snd]. intros st [= <-].
  apply bind_ext. rewrite wp_disk. eapply wp_mono; [apply wp_OpenFile|]. intros r w1 [Hs1 Hf] f ->.
  destruct (Hf f eq_refl) as (Hfn & _). assert (f_ino f = n) as Hino by congruence. pose proof Hs1 as (_ & E2 & _).
  apply bind_ext. rewrite wp_error_of, wp_disk. eapply wp_mono; [apply (wp_file_Sync f i); by rewrite E2, Hino|].
  intros r2 w2 Ht2 e2 _. rewrite Hino in Ht2. apply bind_ext. rewrite wp_error_of, wp_disk.
  eapply wp_mono; [apply (wp_kept (same_files w2)); [apply keeps_Close, _|apply same_files_refl]|].
  intros r3 w3 Hs3 e3 _. pose proof (touched_same _ _ _ _ _ (same_touched _ _ _ _ _ Hs1 Ht2) Hs3) as Ht3.
  pose proof (course_kept _ _ _ _ _ _ _ _ _ Hc Hn Hi Ht3) as Hc3.
  apply bind_ext. rewrite wp_throw. intros [] _. destruct (negb (wh_dirty h)); [done|].
  apply bind_ext. eapply wp_mono; [by apply wp_active_identity|].
  intros r x (identity & h4 & w4 & -> & -> & _ & Hm) identity' [= <-].
  unfold bind, disk, serving, on_disk, zoom. cbn [fst snd]. simpl. by rewrite Hm.
Qed.
End Checked.

(** C28. The running hash equals hashing again.  After any sequence of operations,
    syncing the writer is the same as syncing it against a store that reads the
    active file again and refuses any identity but that of its contents: the
    identity a checkpoint is given is never stale. *)
Theorem checkpoint_identity {R} `{ObjectReaderLaw R} {store : StateStore} `{!StateStoreLaw}
    sha256 json_journal pid reserve_roots random ops h (s : Session R) w v :
  writer_ok (h, (s, w)) -> shows s w v -> ops_bound (zlen v) ops <= max_int64 ->
  let x := (run_ops sha256 json_journal pid reserve_roots random ops (h, (s, w))).2 in
  @Sync R store sha256 x = @Sync R (checked_store sha256 store) sha256 x.
Proof.
  intros Hwk Hv Hb x. pose proof (wp_run_ops sha256 json_journal pid reserve_roots random ops h s w v Hwk Hv Hb) as Hr.
  unfold wp in Hr. fold x in Hr. destruct x as [h' [s' w']]. destruct Hr as (rs & v' & _ & Hc & _). cbn [fst snd] in Hc.
  by eapply sync_checked.
Qed.

(** ** Witnesses *)

#[local] Instance writer_reader : ObjectReader Resolver := resolver_reader toy_sha256 toy_zstd.
#[local] Instance writer_reader_law : ObjectReaderLaw Resolver := resolver_reader_law toy_sha256 toy_zstd.
#[local] Instance writer_store : StateStore := plain_store toy_Marshal toy_Unmarshal.
#[local] Instance writer_store_law : StateStoreLaw := plain_store_law toy_Marshal toy_Unmarshal.

Definition sample_writer_handle : WriteHandle :=
  {| wh_leasePath := "writer.lease"%string :: sample_dir; wh_lease := {| f_ino := 9; f_pos := 0; f_append := false |};
     wh_closed := false; wh_dirty := false; wh_appendHasher := []; wh_appendHashPath := []; wh_appendHashBytes := 0;
     wh_appendHashValid := false |}.
Definition sample_bytes : bytes :=
  omap (fun p => visible_byte sample_session (sample_world []) (Z.of_nat p)) (seq 0 18).
(** An append, one that stores two bytes and is rolled back, and a random write. *)
Definition sample_ops : list (Ctx * write_op) :=
  [(None, OpAppend [Byte.x7b; Byte.x7d; Byte.x0a]); (None, OpSync); (None, OpWriteAt [Byte.x5b] 20); (None, OpTruncate 4)].

Lemma sample_writer_ok faults : writer_ok (sample_writer_handle, (sample_session, sample_world faults)).
Proof. split; [apply sample_layout|apply sample_session_ok|done]. Qed.
Lemma sample_shows : shows sample_session (sample_world []) sample_bytes.
Proof.
  split; [vm_compute; reflexivity|]. intros p Hp. change (zlen sample_bytes) with 18 in Hp.
  assert (forallb (fun p => bool_decide (visible_byte sample_session (sample_world []) p = sample_bytes !! Z.to_nat p))
    (seqZ 0 18) = true) as Hall by (vm_compute; reflexivity).
  rewrite forallb_forall in Hall. eapply bool_decide_eq_true_1, Hall, list_elem_of_In, elem_of_seqZ. lia.
Qed.

Lemma writer_refines_witness :
  let r := run_ops toy_digest toy_journal "7" [] sample_random sample_ops
             (sample_writer_handle, (sample_session, sample_world [])) in
  exists v', shows r.2.2.1 r.2.2.2 v' /\ v' = ztake 4 sample_bytes.
Proof.
  intros r. assert (r.1 = Ok [(3, None); (0, None); (1, None); (0, None)]) as Hr by (vm_compute; reflexivity).
  destruct (writer_refines toy_digest toy_journal "7" [] sample_random sample_ops sample_writer_handle sample_session
    (sample_world []) sample_bytes (sample_writer_ok []) sample_shows ltac:(vm_compute; discriminate))
    as (rs & v' & Hok & _ & Hv & He).
  exists v'. split; [exact Hv|]. fold r in Hok. rewrite Hr in Hok. injection Hok as <-.
  apply run_effect_inv in He as (v1 & E1 & He). apply run_effect_inv in He as (v2 & E2 & He).
  apply run_effect_inv in He as (v3 & E3 & He). apply run_effect_inv in He as (v4 & E4 & He).
  apply run_effect_nil in He as <-. destruct E1 as (_ & _ & _ & E1 & _). destruct (E1 eq_refl) as [_ ->].
  unfold op_effect in E2. subst v2. destruct E3 as (_ & _ & -> & _). destruct E4 as [E4 _].
  destruct (E4 eq_refl) as [_ ->]. vm_compute. reflexivity.
Defined.

Definition sample_open : result (ReadHandle Resolver) * (Session Resolver * world) :=
  OpenReader "7" [] sample_random (sample_session, sample_world []).
Lemma opened_eta (o : result (ReadHandle Resolver) * (Session Resolver * world)) reader :
  o.1 = Ok reader -> o = (Ok reader, (o.2.1, o.2.2)).
Proof. destruct o as [r [s w]]. simpl. by intros ->. Qed.

Lemma reader_snapshot_witness : exists reader, sample_open.1 = Ok reader /\ rh_size reader = 18
  /\ handle_byte reader (run_ops toy_digest toy_journal "7" [] sample_random sample_ops
       (sample_writer_handle, (sample_open.2.1, sample_open.2.2))).2.2.2 16 = Some Byte.x62.
Proof.
  assert (exists reader, sample_open.1 = Ok reader) as [reader Hr] by (vm_compute; eexists; reflexivity).
  exists reader. split; [exact Hr|].
  pose proof (reader_snapshot toy_digest toy_journal "7" [] sample_random sample_ops sample_writer_handle sample_session
    (sample_world []) sample_bytes reader sample_open.2.1 sample_open.2.2 (sample_writer_ok []) sample_shows eq_refl
    (opened_eta sample_open reader Hr) ltac:(vm_compute; discriminate)) as (_ & Hsz & Hb).
  split; [rewrite Hsz; vm_compute; reflexivity|].
  rewrite (Hb 16 ltac:(vm_compute; split; [discriminate|reflexivity])). vm_compute. reflexivity.
Defined.

Lemma checkpoint_identity_witness :
  let x := (run_ops toy_digest toy_journal "7" [] sample_random [(None, OpAppend [Byte.x7b])]
             (sample_writer_handle, (sample_session, sample_world []))).2 in
  @Sync Resolver writer_store toy_digest x = @Sync Resolver (checked_store toy_digest writer_store) toy_digest x
  /\ wh_dirty x.1 = true.
Proof.
  intros x. split; [|vm_compute; reflexivity].
  exact (checkpoint_identity toy_digest toy_journal "7" [] sample_random [(None, OpAppend [Byte.x7b])] sample_writer_handle
    sample_session (sample_world []) sample_bytes (sample_writer_ok []) sample_shows ltac:(vm_compute; discriminate)).
Defined.
