(* ===== verification/Compact.v ===== *)
(** Compaction of a virtual session: [src/internal/vfs/compact.go], and
    [captureManifestIdentity] of [state_checkpoint.go].

    Compaction writes what the session shows to a native file, has a new generation
    prepared from it (a manifest and a view), checks that the view reads back as the
    file, and publishes a state over that view with an empty delta.  The callback that
    prepares the generation is an argument, as in the source; the context of the
    maintenance registration, which its watcher may cancel at any time, is given by
    [watched], as its users see it in turn. *)
From S2P Require Import Prelude GoStd Effects ObjectReader Fold PackIndex PackResolver Manifest View Os Budget Mutation Lease Session StateFile Cow Writer Foreground.
Local Open Scope Z_scope.

Record CompactResult := { cr_Generation : Z; cr_Bytes : Z; cr_SHA256 : string }.
Record fileFingerprint := { ff_Bytes : Z; ff_ModTime : Z; ff_SHA256 : string }.
Record PreparedGeneration (R : Type) := {
  pr_ManifestPath : option path;
  pr_Manifest : Manifest;
  pr_View : option (View R);
}.
Arguments pr_ManifestPath {R}.
Arguments pr_Manifest {R}.
Arguments pr_View {R}.
Record CompactOptions (R : Type) := {
  co_IdleFor : Z;
  co_Prepare : option (Ctx -> NativeFile -> Z -> OS (PreparedGeneration R));
  co_BeforePhase : option (string -> OS unit);
}.
Arguments co_IdleFor {R}.
Arguments co_Prepare {R}.
Arguments co_BeforePhase {R}.

Definition compact_target (directory : path) (generation : Z) : path :=
  String.append ".compact-" (String.append (format_020d generation) ".jsonl") :: directory.
Definition delta_path (directory : path) (generation : Z) : path :=
  String.append "delta-" (String.append (format_020d generation) ".jsonl") :: directory.
Definition state_temporary (directory : path) (generation : Z) : path :=
  String.append ".state-compact-" (String.append (format_020d generation) ".tmp") :: directory.

(** [state] as the next generation. *)
Definition compacted (st : SessionState) (generation : Z) (manifestPath : path) (manifestSHA256 : string)
    (baseBytes : Z) (baseSHA256 : string) (delta : path) : SessionState :=
  {| ss_Version := ss_Version st; ss_SessionID := ss_SessionID st; ss_Generation := generation;
     ss_ManifestPath := manifestPath; ss_ManifestSHA256 := manifestSHA256; ss_BaseBytes := baseBytes;
     ss_BaseSHA256 := baseSHA256; ss_DeltaPath := delta; ss_BackingPath := None;
     ss_NativeSnapshot := ss_NativeSnapshot st |}.

(** The store root above a directory called [manifests]. *)
Fixpoint manifest_store (manifestRoot : path) : option path :=
  match manifestRoot with
  | [] => None
  | name :: parent => if String.eqb name "manifests" then Some parent else manifest_store parent
  end.

Section Compact.
Context {R : Type} `{ObjectReader R} `{StateStore}.
Variable sha256 : bytes -> bytes.
Variable json_journal : JournalRecord -> result bytes.
Variable json_Unmarshal : bytes -> result Manifest.
Variable pid : string.
Variable reserve_roots : list path.
Variable random : world -> string * string.
Variable LoadNativeRetirementProof : path -> OS NativeRetirementProof.

(** ** Verification *)

Fixpoint hash_view_loop (fuel : nat) (v : View R) (ctx : Ctx) (offset : Z) (hashed : bytes)
  : result (Z * bytes) * View R :=
  if offset <? view_Size v then
    match fuel with
    | O => (Err fuel_exhausted, v)
    | S fuel =>
        let need := Z.min buffer_bytes (view_Size v - offset) in
        match view_ReadAt v ctx (replicate (Z.to_nat need) Byte.x00) offset with
        | None => (Err (Sentinel "panic"), v)
        | Some (res, v, ctx) =>
            let '(offset, hashed) :=
              if rn res >? 0 then (offset + rn res, hashed ++ ztake (rn res) (rdata res)) else (offset, hashed) in
            match not_eof (rerr res) with
            | Some e => (Err e, v)
            | None => if rn res =? 0 then (Ok (offset, hashed), v) else hash_view_loop fuel v ctx offset hashed
            end
        end
    end
  else (Ok (offset, hashed), v).

(** The digest, and the view as reading leaves it. *)
Definition hashView (ctx : Ctx) (v : View R) : result string * View R :=
  match hash_view_loop (S (Z.to_nat (view_Size v))) v ctx 0 [] with
  | (Err e, v) => (Err e, v)
  | (Ok (offset, hashed), v) =>
      if negb (offset =? view_Size v) then (Err (errors_new "prepared generation ended before its declared size"), v)
      else (Ok (digest sha256 hashed), v)
  end.

Definition captureFingerprint (p : path) : OS fileFingerprint :=
  let* info := os_Stat p in
  let* current := hashNativePath sha256 p in
  ret {| ff_Bytes := fi_size info; ff_ModTime := fi_mtime info; ff_SHA256 := nf_SHA256 current |}.

Definition ensureFingerprintUnchanged (p : path) (initial : fileFingerprint) : OS unit :=
  let* current := captureFingerprint p in
  if negb (ff_Bytes current =? ff_Bytes initial) || negb (ff_ModTime current =? ff_ModTime initial)
     || negb (string_is (ff_SHA256 current) (ff_SHA256 initial))
  then fail (errors_new "active session data changed during compaction")
  else ret tt.

Definition captureManifestIdentity (p : path) (sessionID : string) (baseBytes : Z) (baseSHA256 : string)
  : OS (sessionStateFileIdentity * Manifest) :=
  match manifest_store (filepath_Dir p) with
  | None => fail (errors_new "session manifest path is not canonical")
  | Some storeRoot =>
      wrap "open session manifest store root: %w" (os_Stat storeRoot) ;;;
      let* before := os_Stat p in
      if negb (fi_regular before) then fail (errors_new "session manifest is not a regular file")
      else
        let* file := os_Open p in
        let* opened := or_else (file_Stat file) (file_Close file) in
        if negb (fi_regular opened) || negb (os_SameFile before opened) then
          ignore (file_Close file) ;;; fail (errors_new "session manifest changed while it was opened")
        else
          let* read := try_ (file_ReadAll file) in
          let* closeErr := error_of (file_Close file) in
          match read, closeErr with
          | Err e, _ => fail e
          | Ok _, Some e => fail e
          | Ok data, None =>
              let* after := os_Stat p in
              if negb (fi_regular after) || negb (os_SameFile opened after) || negb (fi_size after =? zlen data) then
                fail (errors_new "session manifest changed while its identity was captured")
              else
                let* manifest := lift (DecodeManifest json_Unmarshal data) in
                if negb (string_is (ms_ID (mf_Session manifest)) sessionID)
                   || negb (src_Bytes (mf_Source manifest) =? baseBytes)
                   || negb (string_is (src_SHA256 (mf_Source manifest)) baseSHA256) then
                  fail (errors_new "session manifest does not match state source identity")
                else ret ({| fid_Path := p; fid_Bytes := zlen data; fid_SHA256 := digest sha256 data |}, manifest)
          end
  end.

(** ** Publication *)

Definition install (st : SessionState) (v : View R) (s : Session R) : Session R :=
  {| se_state := st; se_statePath := se_statePath s; se_directory := se_directory s; se_view := v;
     se_readerLeases := se_readerLeases s; se_readerLeaseFiles := se_readerLeaseFiles s;
     se_writerOpen := se_writerOpen s; se_recoveryDeferred := se_recoveryDeferred s;
     se_budget := se_budget s; se_beforeCOWPhase := se_beforeCOWPhase s |}.

Definition compact_phase (options : CompactOptions R) (phase : string) : Sess (R := R) unit :=
  match co_BeforePhase options with
  | None => ret tt
  | Some hook => on_disk (hook phase)
  end.

Definition compact_record (st next : SessionState) (current : NativeFile) (temporary delta : path) (phase : string) : JournalRecord :=
  {| jr_OperationID := String.append "compact-" (format_020d (ss_Generation st)); jr_SessionID := ss_SessionID st;
     jr_Kind := "compact"; jr_Phase := phase; jr_TempPath := Some temporary; jr_FinalPath := Some delta;
     jr_Candidate := Some next; jr_Native := current |}.

(** From the empty delta to the complete journal. *)
Definition publish_compacted (options : CompactOptions R) (state next : SessionState) (v : View R) (current : NativeFile)
  : Sess (R := R) CompactResult :=
  let* s := get in
  let directory := se_directory s.1 in
  let temporary := state_temporary directory (ss_Generation next) in
  let record phase := journal json_journal directory (compact_record state next current temporary (ss_DeltaPath next) phase) in
  record "prepared"%string ;;;
  compact_phase options "after-prepare" ;;;
  record "state-publishing"%string ;;;
  compact_phase options "before-state-publish" ;;;
  on_disk (publishSessionStateWithTemporary (se_statePath s.1) temporary next) ;;;
  on_session (install next v) ;;;
  record "state-published"%string ;;;
  compact_phase options "after-state-publish" ;;;
  record "complete"%string ;;;
  ret {| cr_Generation := ss_Generation next; cr_Bytes := nf_Bytes current; cr_SHA256 := nf_SHA256 current |}.

(** [os.OpenFile] with [O_EXCL], [Sync] and [Close] of the new delta. *)
Definition create_delta (p : path) : OS unit :=
  let* delta := os_Create p true false in
  or_else (file_Sync delta) (file_Close delta) ;;;
  file_Close delta.

(** The checks of a prepared generation, and its publication. *)
Definition accept_prepared (options : CompactOptions R) (ctx : Ctx) (state : SessionState) (fingerprint : fileFingerprint)
    (current : NativeFile) (prepared : PreparedGeneration R) : Sess (R := R) CompactResult :=
  let source := mf_Source (pr_Manifest prepared) in
  match pr_View prepared, pr_ManifestPath prepared with
  | Some v, Some manifestPath =>
      if negb (string_is (src_SHA256 source) (nf_SHA256 current)) || negb (src_Bytes source =? nf_Bytes current) then
        fail (errors_new "compact preparation returned incomplete generation")
      else if negb (view_Size v =? nf_Bytes current) then
        fail (errors_new "prepared generation byte length differs from current view")
      else
        let '(preparedDigest, v) := hashView ctx v in
        let* preparedDigest := lift preparedDigest in
        if negb (string_is preparedDigest (nf_SHA256 current)) then
          fail (errors_new "prepared generation SHA-256 differs from current view")
        else
          let* (manifestIdentity, persistedManifest) := wrap "verify compacted manifest: %w"
            (on_disk (captureManifestIdentity manifestPath (ms_ID (mf_Session (pr_Manifest prepared))) (src_Bytes source) (src_SHA256 source))) in
          if negb (bool_decide (persistedManifest = pr_Manifest prepared)) then
            fail (errors_new "compacted manifest differs from its on-disk contents")
          else
            on_disk (ensureFingerprintUnchanged (active_path state) fingerprint) ;;;
            let* s := get in
            let generation := u64 (ss_Generation state + 1) in
            let newDelta := delta_path (se_directory s.1) generation in
            on_disk (create_delta newDelta) ;;;
            publish_compacted options state
              (compacted state generation manifestPath (fid_SHA256 manifestIdentity) (view_Size v) (nf_SHA256 current) newDelta) v current
  | _, _ => fail (errors_new "compact preparation returned incomplete generation")
  end.

(** With the writer lease held. *)
Definition compact_locked (options : CompactOptions R) (prepare : Ctx -> NativeFile -> Z -> OS (PreparedGeneration R))
    (watched : nat -> Ctx) (fuel : nat) : Sess (R := R) CompactResult :=
  refreshNativeRetirementLocked LoadNativeRetirementProof ;;;
  let* s := get in
  let state := se_state s.1 in
  let* fingerprint := on_disk (captureFingerprint (active_path state)) in
  let* s := get in
  if (0 <? co_IdleFor options) && (w_clock s.2 - ff_ModTime fingerprint <? co_IdleFor options) then
    fail (errors_new "session is not idle enough for compaction")
  else
    let target := compact_target (se_directory s.1) (ss_Generation state) in
    let* current := MaterializeCurrent sha256 pid reserve_roots random (watched 0%nat) fuel target true in
    defer_ (on_disk (os_Remove target)) (
      let* prepared := on_disk (prepare (watched 1%nat) current (u64 (ss_Generation state + 1))) in
      accept_prepared options (watched 2%nat) state fingerprint current prepared).

Definition session_Compact (ctx : Ctx) (watched : nat -> Ctx) (yielded : bool) (fuel : nat) (options : CompactOptions R)
  : Sess (R := R) CompactResult :=
  let* s := get in
  if se_recoveryDeferred s.1 then fail ErrSessionRecoveryDeferred
  else
    match co_Prepare options with
    | None => fail (errors_new "compact preparation function is required")
    | Some prepare =>
        let store := filepath_Dir (filepath_Dir (filepath_Dir (se_directory s.1))) in
        let* maintenance := on_disk (fun w =>
          BeginMaintenance pid reserve_roots ctx (watched 0%nat) store (random w).1 (random w).2 w) in
        defer_ (on_disk (maintenance_Close maintenance)) (fun sw =>
          let '(r, sw) :=
            (let* s := get in
             if se_writerOpen s.1 then fail (errors_new "cannot compact while a writer lease is held")
             else
               on_session (set_writerOpen true) ;;;
               let* lease := or_else (on_disk (acquireWriterLease pid ("writer.lease"%string :: se_directory s.1)))
                               (on_session (set_writerOpen false)) in
               defer_ (ignore (on_disk (unlockLease lease)) ;;; ignore (on_disk (file_Close lease)) ;;; on_session (set_writerOpen false))
                 (compact_locked options prepare watched fuel)) sw in
          (YieldError yielded r, sw))
    end.
End Compact.

(** ** What is hashed *)

Section HashView.
Context {R : Type} `{ObjectReaderLaw R}.
Variable sha256 : bytes -> bytes.

(** The same view with another state of its reader. *)
Record same_view (v v' : View R) : Prop := {
  sv_ok : view_ok v';
  sv_reader : reader_ok (v_reader v');
  sv_size : view_Size v' = view_Size v;
  sv_bytes : forall p, view_byte v' p = view_byte v p;
}.
Lemma same_view_refl v : view_ok v -> reader_ok (v_reader v) -> same_view v v.
Proof. by split. Qed.
Lemma same_view_trans v1 v2 v3 : same_view v1 v2 -> same_view v2 v3 -> same_view v1 v3.
Proof. intros [? ? E1 B1] [? ? E2 B2]. split; [done|done|congruence|]. intros p. by rewrite B2. Qed.

Lemma hash_view_loop_spec fuel : forall v ctx offset hashed,
  view_ok v -> reader_ok (v_reader v) -> zlen hashed = offset -> offset <= view_Size v -> holds (view_byte v) 0 offset hashed ->
  let '(r, v') := hash_view_loop fuel v ctx offset hashed in
  same_view v v' /\ match r with
                    | Ok (o, h) => zlen h = o /\ o <= view_Size v /\ holds (view_byte v) 0 o h
                    | Err _ => True
                    end.
Proof.
  induction fuel as [|fuel IH]; intros v ctx offset hashed Hv Hr Hz Hle Hh; cbn [hash_view_loop];
    (destruct (offset <? view_Size v) eqn:E; zbool; [|split; [by apply same_view_refl|done]]); [split; [by apply same_view_refl|done]|].
  pose proof (zlen_nonneg hashed). set (need := Z.min buffer_bytes (view_Size v - offset)).
  assert (0 < need <= view_Size v - offset) as Hneed by (unfold need, buffer_bytes; lia).
  destruct (view_ReadAt_spec v ctx (replicate (Z.to_nat need) Byte.x00) offset Hv Hr) as
    (n & d & err & r' & ctx' & Hout & Hr' & He & Hl & Hn & Hf & _); [lia..|].
  rewrite Hout. unfold view_done. cbn [rn rdata rerr]. 
  assert (zlen (replicate (Z.to_nat need) Byte.x00) = need) as Hrep by (unfold zlen; rewrite length_replicate; lia). rewrite Hrep in Hl, Hn.
  assert (same_view v (set_reader v r')) as Hsv.
  { split; [by apply view_ok_set_reader|done|done|]. intros p. unfold view_byte. cbn. by apply parts_byte_ext. }
  destruct (n >? 0) eqn:En; rewrite ?Z.gtb_ltb in En; zbool.
  - assert (holds (view_byte v) 0 (offset + n) (hashed ++ ztake n d)) as Hh' by (apply holds_app; [done|lia|done|exact Hf]).
    destruct (not_eof err); [done|]. rewrite (proj2 (Z.eqb_neq n 0)) by lia.
    specialize (IH (set_reader v r') ctx' (offset + n) (hashed ++ ztake n d)).
    destruct (hash_view_loop fuel _ _ _ _) as [r v2]. destruct IH as [Hs2 Hr2].
    + apply Hsv.
    + apply Hsv.
    + rewrite zlen_app, zlen_ztake. lia.
    + rewrite (sv_size _ _ Hsv). lia.
    + eapply holds_ext; [|exact Hh']. intros p _. symmetry. apply (sv_bytes _ _ Hsv).
    + split; [by eapply same_view_trans|]. destruct r as [[o h]|e]; [|done]. destruct Hr2 as (? & Hle2 & Hh2).
      rewrite (sv_size _ _ Hsv) in Hle2. split_and!; [done|done|]. eapply holds_ext; [|exact Hh2]. intros p _. apply (sv_bytes _ _ Hsv).
  - destruct (not_eof err); [done|]. replace n with 0 by lia. done.
Qed.

Lemma hashView_spec ctx v : view_ok v -> reader_ok (v_reader v) -> 0 <= view_Size v ->
  let '(r, v') := hashView sha256 ctx v in same_view v v' /\ forall dg, r = Ok dg ->
    exists d, dg = digest sha256 d /\ zlen d = view_Size v /\ holds (view_byte v) 0 (view_Size v) d.
Proof.
  intros Hv Hr Hsz. unfold hashView. pose proof (hash_view_loop_spec (S (Z.to_nat (view_Size v))) v ctx 0 []) as HL.
  destruct (hash_view_loop _ v ctx 0 []) as [[[o h]|e] v'];
    (destruct HL as [Hs Hl]; [done|done|by rewrite zlen_nil|done|apply holds_0|]); [|done].
  destruct Hl as (Hz & Hle & Hh). rewrite (sv_size _ _ Hs). destruct (o =? view_Size v) eqn:E; zbool; cbn [negb]; [|done].
  split; [done|]. intros dg [= <-]. exists h. subst o. rewrite E in *. done.
Qed.
End HashView.

(** ** What compaction may touch *)

Section CompactLaws.
Context {R : Type} `{ObjectReaderLaw R} `{StateStoreLaw}.
Variable sha256 : bytes -> bytes.
Variable json_journal : JournalRecord -> result bytes.
Variable json_Unmarshal : bytes -> result Manifest.
Variable pid : string.
Variable reserve_roots : list path.
Variable random : world -> string * string.
Variable LoadNativeRetirementProof : path -> OS NativeRetirementProof.
Hypothesis Load_reads : forall p w, same_files w (LoadNativeRetirementProof p w).2.
Local Abbreviation Session := (Session R).

(** The session directory, its state file, and the files [P] that compaction and its
    callbacks may change. *)
Variable dir statePath : path.
Variable P : path -> Prop.
Record spare : Prop := {
  sp_bookkeeping : forall q, bookkeeping statePath dir q -> P q;
  sp_writer : P ("writer.lease"%string :: dir);
  sp_maintenance : forall name, P (name :: maintenanceDirectory (filepath_Dir (filepath_Dir (filepath_Dir dir))));
  sp_target : forall g, P (compact_target dir g);
  sp_temporary : forall g, P (state_temporary dir g);
  sp_delta : forall g, ~ P (delta_path dir g);
}.
Hypothesis Hspare : spare.

(** A session that can be compacted: its active file is not one of [P]. *)
Record ready (s : Session) (w : world) : Prop := {
  rd_dir : se_directory s = dir;
  rd_statePath : se_statePath s = statePath;
  rd_layout : layout s w;
  rd_ok : session_ok s w;
  rd_backing : ss_BackingPath (se_state s) = None -> forall g, P (backing_path dir g);
  rd_active : ~ P (active_path (se_state s));
  rd_apart : apart P (active_path (se_state s)) w;
}.

(** The same session, but for leases, the generation and the native snapshot. *)
Record alike (s s' : Session) : Prop := {
  al_view : se_view s' = se_view s;
  al_dir : se_directory s' = se_directory s;
  al_statePath : se_statePath s' = se_statePath s;
  al_hook : se_beforeCOWPhase s' = se_beforeCOWPhase s;
  al_base : ss_BaseBytes (se_state s') = ss_BaseBytes (se_state s);
  al_delta : ss_DeltaPath (se_state s') = ss_DeltaPath (se_state s);
  al_backing : ss_BackingPath (se_state s') = ss_BackingPath (se_state s);
  al_leases : forall g l, se_readerLeaseFiles s' !! g = Some l -> lease_file (se_directory s) (l_path l);
}.
Definition kept (s : Session) (w : world) (sw : Session * world) : Prop := alike s sw.1 /\ away P w sw.2.

Lemma alike_active s s' : alike s s' -> active_path (se_state s') = active_path (se_state s).
Proof. intros [_ _ _ _ _ Ed Eb _]. unfold active_path. by rewrite Eb, Ed. Qed.
Lemma alike_visible s s' w : alike s s' -> visible_size s' w = visible_size s w /\ forall p, visible_byte s' w p = visible_byte s w p.
Proof.
  intros Ha. pose proof (alike_active _ _ Ha) as E. destruct Ha as [Ev Ed Ep Eh Eb Edl Ebk _].
  unfold visible_size, visible_byte. by rewrite E, Ev, Eb, Edl, Ebk.
Qed.
Lemma alike_trans s1 s2 s3 : alike s1 s2 -> alike s2 s3 -> alike s1 s3.
Proof. intros [] []. split; try congruence. intros g l Hl. rewrite <- al_dir0. eauto. Qed.

Lemma ready_alike s s' w : ready s w -> alike s s' -> ready s' w.
Proof.
  intros [Hd Hp Hl Hok Hb Hact Hap] Ha. pose proof (alike_active _ _ Ha) as E. destruct (alike_visible _ _ w Ha) as [Hsz _].
  destruct Ha as [Ev Ed Ep Eh Eb Edl Ebk Hle]. destruct Hl as [l1 l2 l3 l4 l5 l6], Hok as [o1 o2 o3 o4 o5 o6].
  assert (forall q, reserved s' q <-> reserved s q) as Hres by (intros q; unfold reserved; by rewrite Ed, Ep, Ebk).
  split; rewrite ?E, ?Ebk; [congruence|congruence| | |done|done|done].
  - split; rewrite ?Ed, ?Ep, ?Eh, ?E; auto; [by rewrite Hres|]. intros q n Hq%Hres. eauto.
  - split; rewrite ?Ev, ?Eb, ?E; auto. by rewrite Hsz.
Qed.
Lemma ready_away s w w' : ready s w -> away P w w' -> ready s w' /\ same_visible s w s w'.
Proof using Hspare.
  intros [Hd Hp Hl Hok Hb Hact Hap] Ha. destruct (apart_visible P s w w' Hact Hap Hok Ha) as (Hok' & Hsz & Hbytes).
  assert (apart P (active_path (se_state s)) w') as Hap'.
  { eapply apart_away; [done|apply Hok|done|done|]. destruct (so_active _ _ Hok) as [d Hfd]. unfold file_data, inode_of in Hfd. by destruct (w_names w !! _). }
  assert (forall q, reserved s q -> P q) as Hres.
  { intros q [Hq|[Hn [g ->]]]; [apply (sp_bookkeeping Hspare); by rewrite <- Hd, <- Hp|rewrite Hd; auto]. }
  split; [split; auto|by split; [|intros]]. destruct Hl as [l1 l2 l3 l4 l5 l6]. split; auto. intros q n Hq. apply Hap'. auto.
Qed.
Lemma ready_kept s w sw : ready s w -> kept s w sw -> ready sw.1 sw.2 /\ same_visible s w sw.1 sw.2.
Proof using Hspare.
  intros Hr [Hal Ha]. destruct (ready_away _ _ _ Hr Ha) as [Hr' Hv]. split; [by eapply ready_alike|].
  destruct (alike_visible _ _ sw.2 Hal) as [Hsz Hb]. destruct Hv as [Hsz' Hb']. split; [congruence|]. intros p Hp. rewrite Hb. auto.
Qed.
Lemma kept_refl s w : ready s w -> kept s w (s, w).
Proof. intros Hr. split; [|apply away_refl, (rd_ok _ _ Hr)]. split; auto. apply (ly_leases _ _ (rd_layout _ _ Hr)). Qed.
Lemma kept_trans s w s1 w1 sw : world_wf w -> kept s w (s1, w1) -> kept s1 w1 sw -> kept s w sw.
Proof. intros Hw [Hal Ha] [Hal1 Ha1]. split; [by eapply alike_trans|by eapply away_trans]. Qed.
Lemma keeps_kept_disk {A} s w (m : OS A) : keeps (away P w) m -> keeps (kept s w) (on_disk m).
Proof.
  intros Hm [s1 w1] [Hal Ha]. unfold on_disk, zoom. specialize (Hm w1 Ha). cbn [fst snd] in *. destruct (m w1) as [r w']. by split.
Qed.
Lemma keeps_kept_writerOpen s w b : keeps (kept s w) (on_session (set_writerOpen b)).
Proof. intros [s1 w1] [[] Ha]. by split. Qed.

(** ** The steps *)

Lemma same_except_spec a b : sameSessionStateExceptRetiredNative a b = true ->
  ss_BaseBytes a = ss_BaseBytes b /\ ss_DeltaPath a = ss_DeltaPath b /\ ss_BackingPath a = ss_BackingPath b.
Proof.
  unfold sameSessionStateExceptRetiredNative. rewrite !andb_true_iff, !bool_decide_eq_true. intros [[[[[[[_ _] _] _] Hb] _] Hd] Hk]. zbool. done.
Qed.
Lemma keeps_refresh s w : world_wf w -> se_statePath s = statePath ->
  keeps (kept s w) (refreshNativeRetirementLocked LoadNativeRetirementProof).
Proof using Hspare Load_reads.
  intros Hw Hsp [s1 w1] Hk. change (wp (refreshNativeRetirementLocked LoadNativeRetirementProof) (s1, w1) (fun _ sw => kept s w sw)).
  unfold refreshNativeRetirementLocked. rewrite wp_bind, wp_get. cbn [fst]. rewrite wp_bind, wp_wrap.
  eapply wp_mono with (P := fun _ sw => sw.1 = s1 /\ kept s w sw).
  { apply wp_conj; [by rewrite wp_on_disk|]. apply (wp_kept (kept s w)); [|done]. apply keeps_kept_disk.
    rewrite (al_statePath s s1 (proj1 Hk)), Hsp. apply (keeps_away_weaken (state_files statePath)); [done| |].
    - intros q Hq. apply (sp_bookkeeping Hspare). by left.
    - intros w' Hw'. by apply load_away. }
  intros persisted [s2 w2] [E2 Hk2]. cbn [fst] in E2. subst s2. destruct persisted as [persisted|e]; [|done].
  case_bool_decide; [done|]. destruct (_ || negb (sameSessionStateExceptRetiredNative _ _)) eqn:Eg; [done|].
  apply orb_false_iff in Eg as [_ (Eb & Ed & Ek)%negb_false_iff%same_except_spec].
  rewrite wp_bind, wp_wrap, wp_on_disk. unfold wp at 1. pose proof (Load_reads (NativeRetirementFilename :: se_directory s1) w2) as Hl.
  destruct (LoadNativeRetirementProof _ w2) as [r w3]. cbn [fst snd] in *.
  assert (kept s w (s1, w3)) as Hk3 by (split; [apply Hk2|]; eapply away_same_files; [apply Hk2|done]).
  destruct r as [proof|e]; [|done]. destruct (_ || _); [done|]. unfold on_session, wp, modify. cbn.
  destruct Hk3 as [[? ? ? ? ? ? ? ?] Ha3]. cbn [fst snd] in *. split; [|done]. split; cbn; [done|done|done|done|congruence|congruence|congruence|done].
Qed.

Lemma keeps_kept_journal s w record : world_wf w -> keeps (kept s w) (journal json_journal dir record).
Proof using Hspare. intros Hw. apply keeps_kept_disk, keeps_away_journal; [done|]. apply (sp_bookkeeping Hspare). right. by left. Qed.

(** A new empty file, synced. *)
Lemma wp_create_delta p w : world_wf w ->
  wp (create_delta p) w (fun r w' => away P w w' /\ (is_ok r = true -> exists n, sole p n [] w')).
Proof.
  intros Hw. unfold create_delta. rewrite wp_bind.
  eapply wp_mono; [apply (wp_conj _ _ (fun r w' => away P w w' /\ forall f, r = Ok f -> mine P w (f_ino f))
    (fun r w' => forall f, r = Ok f -> w_names w' !! p = Some (f_ino f) /\ (forall q, w_names w' !! q = Some (f_ino f) -> q = p)
       /\ exists i, w_inodes w' !! f_ino f = Some i /\ i_data i = []))|].
  { eapply wp_mono; [apply (wp_Create_away P w); [by apply away_refl|done]|]. intros r w' [Ha Hf]. split; [done|]. intros f Hr. apply (Hf f Hr). by right. }
  { apply wp_syscall; intros fs; [done|]. unfold wp. cbn. destruct (w_names w !! p) as [k|] eqn:Ep; cbn; [done|]. case_decide; cbn; [|done].
    intros f [= <-]. cbn. rewrite !lookup_insert_eq. split_and!; [done| |by eexists]. intros q [[<- _]|[_ Hq]]%lookup_insert_Some; [done|].
    exfalso. pose proof (wf_next _ Hw _ (wf_names _ Hw _ _ Hq)). lia. }
  intros [f|e] w1 [[Ha1 Hm] Hf]; [|done]. specialize (Hm f eq_refl). destruct (Hf f eq_refl) as (Hn & Ho & i & Hi & Hd).
  rewrite wp_bind, wp_or_else. eapply wp_mono with (P := fun r w' => away P w w' /\ (is_ok r = true -> sole p (f_ino f) [] w')).
  { apply wp_conj; [apply (wp_kept (away P w)); [apply keeps_away_Sync|done]|]. apply wp_syscall; intros fs; [done|].
    unfold wp. cbn. rewrite Hi. cbn. intros _. split; cbn; [done| |done]. eexists. by rewrite lookup_insert_eq. }
  intros synced w2 [Ha2 Hs2]. destruct synced as [u|e]; [|by eapply wp_mono; [apply (wp_kept (away P w)); [apply keeps_Close, _|done]|intros]].
  eapply wp_mono with (P := fun _ w' => away P w w' /\ sole p (f_ino f) [] w'); [|intros r w' [? ?]; split; [done|by eexists]].
  apply wp_conj; [apply (wp_kept (away P w)); [apply keeps_Close, _|done]|apply (wp_kept (sole p (f_ino f) [])); [apply keeps_Close, _|by apply Hs2]].
Qed.

(** ** The outcome *)

(** The session over its new generation. *)
Record republished (s : Session) (w : world) (s3 : Session) (w3 : world) : Prop := {
  rp_dir : se_directory s3 = dir;
  rp_statePath : se_statePath s3 = statePath;
  rp_hook : se_beforeCOWPhase s3 = se_beforeCOWPhase s;
  rp_leases : forall g l, se_readerLeaseFiles s3 !! g = Some l -> lease_file dir (l_path l);
  rp_backing : ss_BackingPath (se_state s3) = None;
  rp_delta : exists g n, ss_DeltaPath (se_state s3) = delta_path dir g /\ sole (delta_path dir g) n [] w3;
  rp_wf : world_wf w3;
  rp_view : view_ok (se_view s3) /\ reader_ok (v_reader (se_view s3));
  rp_base : ss_BaseBytes (se_state s3) = view_Size (se_view s3) /\ view_Size (se_view s3) = visible_size s w;
  rp_bytes : exists d1 d2, zlen d1 = visible_size s w /\ holds (visible_byte s w) 0 (visible_size s w) d1
    /\ zlen d2 = visible_size s w /\ holds (view_byte (se_view s3)) 0 (visible_size s w) d2 /\ digest sha256 d1 = digest sha256 d2;
}.
Definition settled (s : Session) (w : world) (r : result CompactResult) (sw : Session * world) : Prop :=
  (kept s w sw /\ is_ok r = false)
  \/ exists s3 w3, republished s w s3 w3 /\ kept s3 w3 sw /\ forall res, r = Ok res -> cr_Bytes res = visible_size s w.

Lemma keeps_settled {A} s w r (m : Sess (R := R) A) : world_wf w ->
  (forall s' w', world_wf w' -> keeps (kept s' w') m) -> keeps (settled s w r) m.
Proof.
  intros Hw Hm sw [[Hk Hr]|(s3 & w3 & Hp & Hk & Hr)]; [left; split; [by apply Hm|done]|].
  right. exists s3, w3. split_and!; [done| |done]. apply Hm; [apply Hp|done].
Qed.

Variable options : CompactOptions R.
Hypothesis hook_away : forall hook phase w, co_BeforePhase options = Some hook -> world_wf w -> keeps (away P w) (hook phase).
Hypothesis prepare_ok : forall prepare ctx native g w, co_Prepare options = Some prepare -> world_wf w ->
  wp (prepare ctx native g) w (fun r w' => away P w w' /\ forall pr v, r = Ok pr -> pr_View pr = Some v ->
    view_ok v /\ reader_ok (v_reader v)).

Lemma keeps_phase s w phase : world_wf w -> keeps (kept s w) (compact_phase options phase).
Proof using hook_away.
  intros Hw. unfold compact_phase. destruct (co_BeforePhase options) as [hook|] eqn:E; [|apply keeps_ret]. apply keeps_kept_disk. eauto.
Qed.

Lemma wp_publish_compacted s w s2 w2 state next v current g n :
  ready s w -> kept s w (s2, w2) -> ss_DeltaPath next = delta_path dir g -> sole (delta_path dir g) n [] w2 ->
  ss_BackingPath next = None -> ss_BaseBytes next = view_Size v -> view_Size v = visible_size s w ->
  view_ok v -> reader_ok (v_reader v) -> nf_Bytes current = visible_size s w ->
  (exists d1 d2, zlen d1 = visible_size s w /\ holds (visible_byte s w) 0 (visible_size s w) d1
    /\ zlen d2 = visible_size s w /\ holds (view_byte v) 0 (visible_size s w) d2 /\ digest sha256 d1 = digest sha256 d2) ->
  wp (publish_compacted json_journal options state next v current) (s2, w2) (settled s w).
Proof using Hspare hook_away.
  intros Hr Hk2 Edelta Hsole Hback Hbase Hsize Hv Hrd Hcur Hbytes. pose proof (so_wf _ _ (rd_ok _ _ Hr)) as Hw.
  destruct (ready_kept _ _ _ Hr Hk2) as [Hr2 _]. cbn [fst snd] in Hr2. pose proof (so_wf _ _ (rd_ok _ _ Hr2)) as Hw2.
  pose proof (rd_dir _ _ Hr2) as Hd2. pose proof (kept_refl _ _ Hr2) as Hk0.
  assert (forall e sw, kept s2 w2 sw -> settled s w (Err e) sw) as Hfail.
  { intros e sw Hk. left. split; [|done]. by eapply kept_trans. }
  assert (forall A (m : Sess (R := R) A) (f : A -> Sess (R := R) CompactResult) sw, keeps (kept s2 w2) m -> kept s2 w2 sw ->
    (forall a sw', kept s2 w2 sw' -> wp (f a) sw' (settled s w)) -> wp (bind m f) sw (settled s w)) as Hstep.
  { intros A m f sw Hm Hk Hf. rewrite wp_bind. eapply wp_mono; [by apply (wp_kept (kept s2 w2))|]. intros [a|e] sw' Hk'; auto. }
  unfold publish_compacted. rewrite wp_bind, wp_get. cbv zeta. cbn [fst]. rewrite Hd2.
  apply Hstep; [by apply keeps_kept_journal|done|]. intros [] sw3 Hk3.
  apply Hstep; [by apply keeps_phase|done|]. intros [] sw4 Hk4.
  apply Hstep; [by apply keeps_kept_journal|done|]. intros [] sw5 Hk5.
  apply Hstep; [by apply keeps_phase|done|]. intros [] sw6 Hk6.
  apply Hstep; [|done|].
  { apply keeps_kept_disk. eapply keeps_away_weaken; [done| |intros w' Hw'; by apply publish_temporary_away].
    intros q [Hq| ->]; [|apply (sp_temporary Hspare)]. apply (sp_bookkeeping Hspare). left. by rewrite <- (rd_statePath _ _ Hr2). }
  intros [] [s7 w7] Hk7. rewrite wp_bind. unfold on_session at 1. rewrite wp_modify. cbn [fst snd].
  destruct Hk7 as [Hal7 Ha7]. cbn [fst snd] in Hal7, Ha7. set (s3 := install next v s7).
  assert (republished s w s3 w7) as Hrp.
  { pose proof (proj1 Hk2) as Hal2. cbn [fst] in Hal2. split; cbn [s3 install se_directory se_statePath se_beforeCOWPhase se_readerLeaseFiles se_state se_view].
    - by rewrite (al_dir _ _ Hal7).
    - by rewrite (al_statePath _ _ Hal7), (rd_statePath _ _ Hr2).
    - by rewrite (al_hook _ _ Hal7), (al_hook _ _ Hal2).
    - intros g' l Hl. rewrite <- Hd2. by eapply (al_leases _ _ Hal7).
    - done.
    - exists g, n. split; [done|]. eapply sole_away; [done|done|done|apply (sp_delta Hspare)].
    - apply Ha7.
    - done.
    - done.
    - done. }
  assert (kept s3 w7 (s3, w7)) as Hk8.
  { split; [|apply away_refl, Hrp]. split; try done. intros g' l Hl. cbn [s3 install se_directory]. rewrite (al_dir _ _ Hal7). by eapply (al_leases _ _ Hal7). }
  pose proof (rp_wf _ _ _ _ Hrp) as Hw7.
  assert (forall r sw, kept s3 w7 sw -> (forall res, r = Ok res -> cr_Bytes res = visible_size s w) -> settled s w r sw) as Hdone.
  { intros r sw Hk Hres. right. by exists s3, w7. }
  rewrite wp_bind. eapply wp_mono; [apply (wp_kept (kept s3 w7)); [by apply keeps_kept_journal|done]|]. intros [[]|e] sw8 Hk9; [|by apply Hdone].
  rewrite wp_bind. eapply wp_mono; [apply (wp_kept (kept s3 w7)); [by apply keeps_phase|done]|]. intros [[]|e] sw9 Hk10; [|by apply Hdone].
  rewrite wp_bind. eapply wp_mono; [apply (wp_kept (kept s3 w7)); [by apply keeps_kept_journal|done]|]. intros [[]|e] sw10 Hk11; [|by apply Hdone].
  rewrite wp_ret. apply Hdone; [done|]. by intros res [= <-].
Qed.

Lemma keeps_captureManifestIdentity (Q : world -> Prop) `{TickStable Q} p id n dg :
  keeps Q (captureManifestIdentity sha256 json_Unmarshal p id n dg).
Proof. unfold captureManifestIdentity. keeps. Qed.
Lemma keeps_captureFingerprint (Q : world -> Prop) `{TickStable Q} p : keeps Q (captureFingerprint sha256 p).
Proof. unfold captureFingerprint. keeps. by apply keeps_hashNativePath. Qed.
Lemma keeps_ensureFingerprint (Q : world -> Prop) `{TickStable Q} p f : keeps Q (ensureFingerprintUnchanged sha256 p f).
Proof. unfold ensureFingerprintUnchanged. keeps. by apply keeps_captureFingerprint. Qed.

(** A step that only reads. *)
Lemma settled_step {A} s w (m : Sess (R := R) A) (f : A -> Sess (R := R) CompactResult) sw :
  keeps (kept s w) m -> kept s w sw -> (forall a sw', kept s w sw' -> wp (f a) sw' (settled s w)) -> wp (bind m f) sw (settled s w).
Proof.
  intros Hm Hk Hf. rewrite wp_bind. eapply wp_mono; [by apply (wp_kept (kept s w))|]. intros [a|e] sw' Hk'; [auto|by left].
Qed.

Lemma wp_accept_prepared s w ctx state fingerprint current prepared sw d1 :
  ready s w -> kept s w sw -> nf_Bytes current = visible_size s w -> nf_SHA256 current = digest sha256 d1 ->
  zlen d1 = visible_size s w -> holds (visible_byte s w) 0 (visible_size s w) d1 ->
  (forall v, pr_View prepared = Some v -> view_ok v /\ reader_ok (v_reader v)) ->
  wp (accept_prepared sha256 json_journal json_Unmarshal options ctx state fingerprint current prepared) sw (settled s w).
Proof using Hspare hook_away.
  intros Hr Hk Hcb Hcs Hz1 Hh1 Hview. pose proof (so_wf _ _ (rd_ok _ _ Hr)) as Hw. unfold accept_prepared. cbv zeta.
  assert (forall e sw', kept s w sw' -> wp (fail e) sw' (settled s w)) as Hfail by (intros e sw' Hk'; by left).
  destruct (pr_View prepared) as [v|]; [|by apply Hfail]. destruct (pr_ManifestPath prepared) as [manifestPath|]; [|by apply Hfail].
  destruct (Hview v eq_refl) as [Hv Hrd]. destruct (negb _ || negb _); [by apply Hfail|].
  destruct (view_Size v =? nf_Bytes current) eqn:Esz; cbn [negb]; zbool; [|by apply Hfail]. pose proof (zlen_nonneg d1).
  pose proof (hashView_spec sha256 ctx v Hv Hrd) as HH. destruct (hashView sha256 ctx v) as [dg v'].
  destruct HH as [Hsv Hdg]; [lia|]. rewrite wp_bind, wp_lift. destruct dg as [dg|e]; [|by left].
  destruct (Hdg dg eq_refl) as (d2 & Edg & Hz2 & Hh2). destruct (string_is dg (nf_SHA256 current)) eqn:Eq; cbn [negb]; [|by apply Hfail].
  apply settled_step; [apply keeps_wrap, keeps_kept_disk, keeps_captureManifestIdentity, _|done|]. intros [identity persisted] sw2 Hk2.
  destruct (negb (bool_decide _)); [by apply Hfail|].
  apply settled_step; [apply keeps_kept_disk, keeps_ensureFingerprint, _|done|]. intros [] [s3 w3] Hk3. rewrite wp_bind, wp_get. cbn [fst].
  destruct (ready_kept _ _ _ Hr Hk3) as [Hr3 _]. cbn [fst snd] in Hr3. rewrite (rd_dir _ _ Hr3).
  rewrite wp_bind, wp_on_disk. eapply wp_mono; [apply wp_create_delta, (rd_ok _ _ Hr3)|]. intros r w4 [Ha4 Hd4].
  assert (kept s w (s3, w4)) as Hk4 by (split; [apply Hk3|eapply away_trans; [done|apply Hk3|done]]).
  destruct r as [[]|e]; [|by left]. destruct (Hd4 eq_refl) as [n Hsole].
  eapply wp_publish_compacted; [done|exact Hk4|reflexivity|exact Hsole|done|done| |apply Hsv|apply Hsv|done|].
  - rewrite (sv_size _ _ Hsv). lia.
  - exists d1, d2. split_and!; [done|done|lia| |].
    + rewrite <- Hcb, <- Esz. apply (holds_ext (view_byte v)); [|exact Hh2]. intros p _. symmetry. apply (sv_bytes _ _ Hsv).
    + apply bool_decide_eq_true in Eq. congruence.
Qed.

Lemma compact_target_not_lease g : ~ lease_file dir (compact_target dir g).
Proof. by intros [(name & d & [= <- <-] & Hp & _)|Hh]. Qed.

Lemma quiet_kept s w target sw : se_directory s = dir -> se_statePath s = statePath -> P target ->
  quiet_session (materializing s target) dir s w sw -> kept s w sw.
Proof using Hspare.
  intros Hd Hs Ht [Est Ev Ed Ep _ Eh Hl Ha]. split; [split; rewrite ?Est; auto; by rewrite Hd|].
  eapply away_mono; [|exact Ha]. intros q [Hq| ->]; [|done]. apply (sp_bookkeeping Hspare). by rewrite <- Hd, <- Hs.
Qed.

Lemma wp_compact_locked s w prepare watched fuel sw : ready s w -> kept s w sw -> co_Prepare options = Some prepare ->
  wp (compact_locked sha256 json_journal json_Unmarshal pid reserve_roots random LoadNativeRetirementProof options prepare watched fuel)
    sw (settled s w).
Proof using Hspare Load_reads hook_away prepare_ok.
  intros Hr Hk Hprep. pose proof (so_wf _ _ (rd_ok _ _ Hr)) as Hw. unfold compact_locked.
  apply settled_step; [apply keeps_refresh; [done|apply (rd_statePath _ _ Hr)]|done|]. intros [] [s1 w1] Hk1.
  rewrite wp_bind, wp_get. cbv zeta. cbn [fst]. destruct (ready_kept _ _ _ Hr Hk1) as [Hr1 _]. cbn [fst snd] in Hr1.
  rewrite wp_bind, wp_on_disk. eapply wp_mono; [apply (wp_kept (away P w)); [apply keeps_captureFingerprint, _|apply Hk1]|].
  intros fingerprint w2 Ha2. assert (kept s w (s1, w2)) as Hk2 by (split; [apply Hk1|done]).
  destruct (ready_kept _ _ _ Hr Hk2) as [Hr2 [Hsz2 Hb2]]. cbn [fst snd] in *.
  destruct fingerprint as [fingerprint|e]; [|by left]. rewrite wp_bind, wp_get. cbn [fst snd]. destruct (_ && _); [by left|].
  rewrite (rd_dir _ _ Hr2). set (target := compact_target dir _). rewrite wp_bind.
  eapply wp_mono; [apply wp_MaterializeCurrent; [apply Hr2|apply Hr2|rewrite (rd_dir _ _ Hr2); apply compact_target_not_lease|done]|].
  intros current [s3 w3] [Hq Hmat]. rewrite (rd_dir _ _ Hr2) in Hq. pose proof (sp_target Hspare (ss_Generation (se_state s1)) : P target) as Ht.
  assert (kept s w (s3, w3)) as Hk3.
  { eapply kept_trans; [done|exact Hk2|]. eapply quiet_kept; [apply Hr2|apply Hr2|exact Ht|exact Hq]. }
  destruct current as [current|e]; [|by left]. destruct (Hmat current eq_refl) as (n & d1 & _ & _ & _ & Hz1 & Hh1 & ->).
  rewrite Hsz2 in Hz1, Hh1 |- *.
  assert (holds (visible_byte s w) 0 (visible_size s w) d1) as Hh by (eapply holds_ext; [|exact Hh1]; intros p Hp; apply Hb2; lia).
  rewrite wp_defer. apply wp_mono with (P := settled s w).
  2: { intros r sw4 Hs. eapply (wp_kept (settled s w r)); [|exact Hs]. apply keeps_settled; [done|]. intros s' w' Hw'.
       apply keeps_kept_disk, keeps_away_Remove. by left. }
  destruct (ready_kept _ _ _ Hr Hk3) as [Hr3 _]. cbn [fst snd] in Hr3.
  rewrite wp_bind, wp_on_disk. eapply wp_mono; [apply (prepare_ok prepare); [done|apply (rd_ok _ _ Hr3)]|]. intros prepared w4 [Ha4 Hv4].
  assert (kept s w (s3, w4)) as Hk4 by (split; [apply Hk3|eapply away_trans; [done|apply Hk3|done]]).
  destruct prepared as [prepared|e]; [|by left]. eapply (wp_accept_prepared s w); [done|done|done|reflexivity|done|done|]. intros v Hv. by eapply Hv4.
Qed.

Lemma keeps_away_acquireWriterLease w p : world_wf w -> P p -> keeps (away P w) (acquireWriterLease pid p).
Proof.
  intros Hw Hp w1 Ha. change (wp (acquireWriterLease pid p) w1 (fun _ w' => away P w w')).
  unfold acquireWriterLease, openWriterLeaseFile, tryLockLease, unlockLease. rewrite wp_bind, wp_wrap.
  eapply wp_mono; [by apply wp_Create_away|]. intros [f|e] w2 [Ha2 Hf]; [|done]. destruct (Hf f eq_refl) as [_ Hm].
  specialize (Hm (or_introl Hp)). apply (wp_kept (away P w)); [|done]. keeps.
Qed.

Lemma wp_BeginMaintenance ctx watched w : world_wf w -> let store := filepath_Dir (filepath_Dir (filepath_Dir dir)) in
  wp (fun w => BeginMaintenance pid reserve_roots ctx watched store (random w).1 (random w).2 w) w (fun r w' => away P w w' /\
    forall m, r = Ok m -> P (l_path (m_lease m)) /\ P (m_request m)).
Proof using Hspare.
  intros Hw store. apply (wp_diag (fun w => BeginMaintenance pid reserve_roots ctx watched store (random w).1 (random w).2) w).
  unfold BeginMaintenance. rewrite wp_bind, wp_throw. pose proof (away_refl P w Hw) as Ha. destruct (ctx_Err ctx).1; [done|].
  rewrite wp_bind. eapply wp_mono; [apply (wp_kept (away P w)); [apply keeps_away_MkdirAll|done]|]. intros [[]|e] w1 Ha1; [|done].
  rewrite wp_bind. eapply wp_mono; [apply (wp_AcquireLease_away P w); [done| |intros rnd; apply (sp_maintenance Hspare)|done]|].
  { intros st. apply (sp_bookkeeping Hspare). right. right. by right. }
  intros [l|e] w2 [Ha2 Hl]; [|done]. rewrite wp_ret. split; [done|]. intros m [= <-]. cbn [m_lease m_request].
  destruct (Hl l eq_refl) as [rnd ->]. split; [apply (sp_maintenance Hspare)|]. cbn [yield_path]. apply (sp_maintenance Hspare).
Qed.

Lemma settled_YieldError s w yielded r sw : settled s w r sw -> settled s w (YieldError yielded r) sw.
Proof.
  destruct r as [res|e]; [done|]. cbn. destruct yielded; [|done]. intros [[Hk Hr]|(s3 & w3 & Hp & Hk & Hr)]; [by left|right].
  by exists s3, w3.
Qed.

Lemma wp_session_Compact s w ctx watched yielded fuel : ready s w ->
  wp (session_Compact sha256 json_journal json_Unmarshal pid reserve_roots random LoadNativeRetirementProof ctx watched yielded fuel options)
    (s, w) (settled s w).
Proof using Hspare Load_reads hook_away prepare_ok.
  intros Hr. pose proof (so_wf _ _ (rd_ok _ _ Hr)) as Hw. pose proof (kept_refl _ _ Hr) as Hk. unfold session_Compact.
  rewrite wp_bind, wp_get. cbn [fst]. destruct (se_recoveryDeferred s); [by left|]. destruct (co_Prepare options) as [prepare|] eqn:Ep in |- *; [|by left].
  rewrite (rd_dir _ _ Hr), wp_bind, wp_on_disk. eapply wp_mono; [by apply wp_BeginMaintenance|]. intros m w1 [Ha1 Hm].
  assert (kept s w (s, w1)) as Hk1 by (split; [apply Hk|done]). destruct m as [m|e]; [|by left]. destruct (Hm m eq_refl) as [Hp1 Hp2].
  rewrite wp_defer. apply wp_mono with (P := settled s w).
  2: { intros r sw Hs. eapply (wp_kept (settled s w r)); [|exact Hs]. apply keeps_settled; [done|]. intros s' w' Hw'.
       apply keeps_kept_disk. unfold maintenance_Close. keeps. by apply keeps_away_lease_Close. }
  set (body := bind get _). assert (wp body (s, w1) (settled s w)) as Hbody.
  2: { unfold wp in *. destruct (body (s, w1)) as [r sw]. by apply settled_YieldError. }
  unfold body. rewrite wp_bind, wp_get. cbn [fst]. destruct (se_writerOpen s); [by left|].
  apply settled_step; [apply keeps_kept_writerOpen|done|]. intros [] sw2 Hk2. rewrite (rd_dir _ _ Hr).
  assert (keeps (kept s w) (on_disk (R := R) (acquireWriterLease pid ("writer.lease"%string :: dir)))) as Hlease.
  { apply keeps_kept_disk, keeps_away_acquireWriterLease; [done|apply (sp_writer Hspare)]. }
  apply settled_step; [apply keeps_or_else; [done|apply keeps_kept_writerOpen]|done|]. intros lease sw3 Hk3.
  rewrite wp_defer. apply wp_mono with (P := settled s w).
  - by apply wp_compact_locked.
  - intros r sw Hs. eapply (wp_kept (settled s w r)); [|exact Hs]. apply keeps_settled; [done|]. intros s' w' Hw'. unfold unlockLease.
    keeps; [apply keeps_kept_disk, keeps_away_unlock|apply keeps_kept_disk, keeps_Close, _|apply keeps_kept_writerOpen].
Qed.

(** ** What the session shows afterwards *)

Lemma republished_visible s w s3 w3 : ready s w -> republished s w s3 w3 ->
  layout s3 w3 /\ session_ok s3 w3 /\ (same_visible s w s3 w3
    \/ exists d1 d2, d1 <> d2 /\ sha256 d1 = sha256 d2 /\ holds (visible_byte s w) 0 (zlen d1) d1).
Proof using Hspare.
  intros Hr [Hd Hp Hh Hle Hb (g & n & Edl & Hsole) Hw3 [Hv Hrd] [Hbase Hsz] (d1 & d2 & Hz1 & Hh1 & Hz2 & Hh2 & Hdg)].
  pose proof (sole_data _ _ _ _ Hsole) as Hfd. pose proof (zlen_nonneg d1).
  assert (active_path (se_state s3) = delta_path dir g) as Eact by (unfold active_path; by rewrite Hb).
  assert (visible_size s3 w3 = visible_size s w) as Hvs.
  { unfold visible_size at 1. rewrite Hb, Eact, Hfd, Hbase, Hsz, (zlen_nil (A := byte)). lia. }
  assert (~ reserved s3 (delta_path dir g)) as Hnr.
  { intros [Hq|[_ [g' Hq]]]; [|by unfold delta_path, backing_path in Hq]. apply (sp_delta Hspare g), (sp_bookkeeping Hspare). by rewrite Hd, Hp in Hq. }
  split_and!.
  - destruct (rd_layout _ _ Hr) as [_ l2 l3 l4 _ _]. rewrite (rd_dir _ _ Hr), (rd_statePath _ _ Hr) in *.
    split; rewrite ?Hd, ?Hp, ?Hh, ?Eact; auto. by eapply sole_apart.
  - split; auto; [split; [lia|done]|by rewrite Eact, Hfd|]. rewrite Hvs. apply (so_size _ _ (rd_ok _ _ Hr)).
  - destruct (decide (d1 = d2)) as [->|Hne].
    + left. split; [done|]. intros p Hpr. unfold visible_byte at 1. rewrite Hb, Hbase, Hsz. rewrite (proj2 (Z.ltb_lt _ _)) by lia.
      destruct (Hh1 p) as (b1 & E1 & V1); [lia|]. destruct (Hh2 p) as (b2 & E2 & V2); [lia|]. rewrite Z.add_0_l in V1, V2. congruence.
    + right. exists d1, d2. split_and!; [done|by apply hex_Encode_inj|by rewrite Hz1].
Qed.
Lemma republished_kept s w s3 w3 sw : republished s w s3 w3 -> kept s3 w3 sw -> republished s w sw.1 sw.2.
Proof using Hspare.
  intros [Hd Hp Hh Hle Hb (g & n & Edl & Hsole) Hw3 [Hv Hrd] [Hbase Hsz] Hbytes] [[Ev Ed Ep Eh Eb Edl' Ebk Hl] Ha].
  split; rewrite ?Ev; try congruence; [intros g' l Hg; rewrite <- Hd; eauto| |apply Ha|done|by rewrite Eb].
  exists g, n. split; [congruence|]. eapply sole_away; [done|done|done|apply (sp_delta Hspare)].
Qed.
End CompactLaws.

(** C6. Compaction is invisible.  Whatever fails, is cancelled or yields, and whatever
    the callbacks do to files other than the session's own, the session stays well
    formed and shows the bytes it showed, unless two different contents with the same
    SHA-256 were met; a successful compaction leaves it without a backing file and with
    an empty delta over the prepared view. *)
Theorem compact_invisible {R} `{ObjectReaderLaw R} `{StateStoreLaw} sha256 json_journal json_Unmarshal pid reserve_roots random
    LoadNativeRetirementProof dir statePath (P : path -> Prop) (options : CompactOptions R) (s : Session R) w ctx watched yielded fuel :
  (forall p w, same_files w (LoadNativeRetirementProof p w).2) -> spare dir statePath P ->
  (forall hook phase w, co_BeforePhase options = Some hook -> world_wf w -> keeps (away P w) (hook phase)) ->
  (forall prepare ctx native g w, co_Prepare options = Some prepare -> world_wf w ->
     wp (prepare ctx native g) w (fun r w' => away P w w' /\ forall pr v, r = Ok pr -> pr_View pr = Some v ->
       view_ok v /\ reader_ok (v_reader v))) ->
  ready dir statePath P s w ->
  wp (session_Compact sha256 json_journal json_Unmarshal pid reserve_roots random LoadNativeRetirementProof ctx watched yielded fuel options)
    (s, w) (fun r sw => layout sw.1 sw.2 /\ session_ok sw.1 sw.2
      /\ (same_visible s w sw.1 sw.2 \/ exists d1 d2, d1 <> d2 /\ sha256 d1 = sha256 d2 /\ holds (visible_byte s w) 0 (zlen d1) d1)
      /\ (forall res, r = Ok res -> cr_Bytes res = visible_size s w /\ ss_BackingPath (se_state sw.1) = None
           /\ ss_BaseBytes (se_state sw.1) = visible_size s w /\ file_data sw.2 (ss_DeltaPath (se_state sw.1)) = Some [])).
Proof.
  intros Hload Hspare Hhook Hprep Hr. eapply wp_mono; [by apply (wp_session_Compact _ _ _ _ _ _ _ Hload dir statePath P Hspare options Hhook Hprep)|].
  intros r sw [[Hk Hres]|(s3 & w3 & Hrp & Hk & Hres)].
  - destruct (ready_kept _ _ _ Hspare _ _ _ Hr Hk) as [Hr' Hv]. split_and!; [apply Hr'|apply Hr'|by left|]. by intros res ->.
  - pose proof (republished_kept _ _ _ _ Hspare _ _ _ _ _ Hrp Hk) as Hrp'.
    destruct (republished_visible _ _ _ _ Hspare _ _ _ _ Hr Hrp') as (Hl & Hok & Hv). split_and!; [done..|].
    intros res Hr'. destruct Hrp' as [_ _ _ _ Hb (g & n & Edl & Hsole) _ _ [Hbase Hsz] _].
    split_and!; [by apply Hres|done|congruence|]. rewrite Edl. by eapply sole_data.
Qed.

(** ** A session compacted onto the view it has *)

#[local] Instance compact_reader : ObjectReader Resolver := resolver_reader toy_sha256 toy_zstd.
#[local] Instance compact_reader_law : ObjectReaderLaw Resolver := resolver_reader_law toy_sha256 toy_zstd.
#[local] Instance compact_store : StateStore := plain_store toy_Marshal toy_Unmarshal.
#[local] Instance compact_store_law : StateStoreLaw := plain_store_law toy_Marshal toy_Unmarshal.

Definition idle_manifest_path : path := ["m"; "manifests"; "store"]%string.
(** The delta is empty, and the manifest of the next generation is in place. *)
Definition idle_world : world :=
  {| w_names := <[idle_manifest_path := 2%nat]> {[ sample_delta := 0%nat; sample_statePath := 1%nat ]};
     w_inodes := <[2%nat := {| i_data := [Byte.x7b]; i_mtime := 0; i_synced := true |}]>
                 {[ 0%nat := {| i_data := []; i_mtime := 0; i_synced := true |};
                    1%nat := {| i_data := le_bytes 8 1 ++ [Byte.x0a]; i_mtime := 0; i_synced := true |} ]};
     w_dirs := list_to_set (ancestors sample_dir ++ ancestors idle_manifest_path); w_durable := {[ sample_delta; sample_statePath ]};
     w_next := 3%nat; w_clock := 0; w_faults := []; w_locked := ∅ |}.
Definition idle_manifest : Manifest :=
  {| mf_Version := 1; mf_Kind := ManifestKind; mf_CreatedAt := ""; mf_Session := mf_Session sample_manifest;
     mf_Source := {| src_Bytes := 15; src_SHA256 := "0f" |}; mf_Settings := mf_Settings sample_manifest;
     mf_Parts := mf_Parts sample_manifest |}.
Definition idle_options : CompactOptions Resolver :=
  {| co_IdleFor := 0; co_BeforePhase := None;
     co_Prepare := Some (fun _ _ _ => ret {| pr_ManifestPath := Some idle_manifest_path; pr_Manifest := idle_manifest;
                                             pr_View := Some sample_view |}) |}.
Definition idle_compact : result CompactResult * (Session Resolver * world) :=
  session_Compact toy_digest toy_journal (fun _ => Ok idle_manifest) "7" [] sample_random
    (fun _ => fail (errors_new "none")) None (fun _ => None) false 100 idle_options (sample_session, idle_world).

Definition idle_spare (q : path) : Prop := tl q = sample_dir -> String.prefix "delta" (hd EmptyString q) = false.

Lemma idle_bookkeeping q : bookkeeping sample_statePath sample_dir q -> idle_spare q.
Proof.
  intros [Hq|[Hq|[(name & d & -> & Hp & _)|Hq]]] Ht.
  - change (q = sample_statePath) in Hq. by subst q.
  - by subst q.
  - simpl. unfold LeaseFilePrefix in Hp. destruct name as [|c name]; [done|]. cbn [String.prefix] in *.
    destruct (Ascii.ascii_dec _ c) as [<-|] in Hp; [done|discriminate Hp].
  - by rewrite Hq.
Qed.
Lemma idle_spare_ok : spare sample_dir sample_statePath idle_spare.
Proof.
  split; [apply idle_bookkeeping|done|done|done|done|]. intros g Hg. specialize (Hg eq_refl). by destruct g.
Qed.
Lemma idle_world_wf : world_wf idle_world.
Proof.
  split; simpl.
  - intros p n Hn. repeat (apply lookup_insert_Some in Hn as [[<- <-]|[_ Hn]]; [by eexists|]).
    apply lookup_singleton_Some in Hn as [<- <-]. by eexists.
  - intros n [i Hi]. repeat (apply lookup_insert_Some in Hi as [[<- _]|[_ Hi]]; [lia|]).
    apply lookup_singleton_Some in Hi as [<- _]. lia.
Qed.
Lemma idle_apart (Q : path -> Prop) : ~ Q sample_delta -> apart Q sample_delta idle_world.
Proof.
  intros HQ q n Hq Hn Ha. vm_compute in Ha. injection Ha as <-. simpl in Hn.
  repeat (apply lookup_insert_Some in Hn as [[<- E]|[_ Hn]]; [done|]). by apply lookup_singleton_Some in Hn as [_ ?].
Qed.
Lemma idle_ready : ready sample_dir sample_statePath idle_spare sample_session idle_world.
Proof.
  assert (~ idle_spare sample_delta) as Hd by (intros Hd; discriminate (Hd eq_refl)).
  split; [done|done| | |done|done|by apply idle_apart].
  - destruct (sample_layout []) as [l1 l2 l3 l4 l5 l6]. split; [done..|]. by apply idle_apart.
  - destruct (sample_session_ok []). split; [apply idle_world_wf|done|done|done|by eexists|vm_compute; discriminate].
Qed.

Lemma compact_invisible_witness :
  idle_compact.1 = Ok {| cr_Generation := 2; cr_Bytes := 15; cr_SHA256 := "0f" |}
  /\ session_ok idle_compact.2.1 idle_compact.2.2 /\ file_data idle_compact.2.2 (ss_DeltaPath (se_state idle_compact.2.1)) = Some [].
Proof.
  assert (idle_compact.1 = Ok {| cr_Generation := 2; cr_Bytes := 15; cr_SHA256 := "0f" |}) as Hr by (vm_compute; reflexivity).
  unfold idle_compact in *.
  destruct (compact_invisible toy_digest toy_journal (fun _ => Ok idle_manifest) "7" [] sample_random
    (fun _ => fail (errors_new "none")) sample_dir sample_statePath idle_spare idle_options sample_session idle_world None
    (fun _ => None) false 100 (fun _ _ => same_files_refl _) idle_spare_ok) as (_ & Hok & _ & Hres).
  - discriminate.
  - intros prepare ctx native g w [= <-] Hw. split; [by apply away_refl|]. intros pr v [= <-] [= <-].
    exact (conj (so_view _ _ (sample_session_ok [])) (so_reader _ _ (sample_session_ok []))).
  - exact idle_ready.
  - split; [exact Hr|]. split; [exact Hok|]. exact (proj2 (proj2 (proj2 (Hres _ Hr)))).
Defined.
