(* ===== verification/Kmp.v ===== *)
(** Searching a sequence of records in another one: [buildPrefixTable] and the
    matching loop of [src/internal/contain/contain.go].

    Records are compared through fingerprints.  The search is the algorithm of
    Knuth, Morris and Pratt: [advance] feeds one record to a match in progress and
    falls back through the prefix table.  The state after any text is shown to be
    the length of the longest prefix of the needle that the text ends with. *)
From S2P Require Import Prelude.
Local Open Scope nat_scope.

Record recordFingerprint := { fp_digest : bytes; fp_size : Z }.
#[export] Instance recordFingerprint_eq_dec : EqDecision recordFingerprint.
Proof. solve_decision. Defined.

Definition sameFingerprint (left right : recordFingerprint) : bool :=
  (fp_size left =? fp_size right)%Z && bool_decide (fp_digest left = fp_digest right).
Lemma sameFingerprint_true a b : sameFingerprint a b = true <-> a = b.
Proof.
  unfold sameFingerprint. rewrite andb_true_iff, Z.eqb_eq, bool_decide_eq_true. destruct a, b. simpl.
  split; [intros [-> ->]; done|by intros [= -> ->]].
Qed.

(** [sameFingerprint(records[matched], x)]; the index is in range whenever the code
    gets there. *)
Definition same_at (records : list recordFingerprint) (matched : nat) (x : recordFingerprint) : bool :=
  match records !! matched with Some y => sameFingerprint y x | None => false end.

(** [for matched > 0 && !same(records[matched], x) { matched = prefix[matched-1] }]:
    the value decreases, so [matched] rounds are enough. *)
Fixpoint fall_back (fuel : nat) (records : list recordFingerprint) (prefix : list nat) (x : recordFingerprint)
    (matched : nat) : nat :=
  match fuel with
  | O => matched
  | S fuel =>
      if (0 <? matched) && negb (same_at records matched x)
      then fall_back fuel records prefix x (default 0 (prefix !! (matched - 1)))
      else matched
  end.
Definition advance (records : list recordFingerprint) (prefix : list nat) (matched : nat) (x : recordFingerprint) : nat :=
  let matched := fall_back matched records prefix x matched in
  if same_at records matched x then matched + 1 else matched.

(** The loop of [buildPrefixTable] from [index] on, [rest] records before the end. *)
Fixpoint prefix_loop (rest : nat) (records : list recordFingerprint) (prefix : list nat) (index matched : nat) : list nat :=
  match rest with
  | O => prefix
  | S rest =>
      match records !! index with
      | None => prefix
      | Some x =>
          let matched := advance records prefix matched x in
          prefix_loop rest records (<[index := matched]> prefix) (index + 1) matched
      end
  end.
Definition buildPrefixTable (records : list recordFingerprint) : list nat :=
  prefix_loop (length records - 1) records (replicate (length records) 0) 1 0.

(** ** Borders *)

Section Borders.
Context {A : Type} `{EqDecision A} (p : list A).

(** The text [t] ends with the first [k] elements of [p]. *)
Definition fits (t : list A) (k : nat) : Prop := k <= length p /\ take k p `suffix_of` t.
(** [m] is the longest proper fit. *)
Definition longest (t : list A) (m : nat) : Prop :=
  fits t m /\ m < length p /\ forall k, k < length p -> fits t k -> k <= m.

Lemma fits_0 t : fits t 0.
Proof. split; [lia|]. apply suffix_nil. Qed.
Lemma fits_length t k : fits t k -> k <= length t.
Proof. intros [Hk Hs%suffix_length]. rewrite length_take in Hs. lia. Qed.
Lemma suffix_shorter (a b t : list A) : a `suffix_of` t -> b `suffix_of` t -> length a <= length b -> a `suffix_of` b.
Proof.
  intros [x ->] [y Hy] Hl. assert (length x + length a = length y + length b) as Hlen
    by (rewrite <- !length_app; by rewrite Hy).
  exists (drop (length y) x). rewrite <- (take_drop (length y) x), <- app_assoc in Hy.
  apply app_inj_1 in Hy as [_ ->]; [done|]. rewrite length_take. lia.
Qed.
(** Shorter fits are the borders of a longer one. *)
Lemma fits_trans t m k : fits t m -> fits (take m p) k -> fits t k.
Proof. intros [_ Hm] [Hl Hk]. split; [done|]. by etrans. Qed.
Lemma fits_border t m k : fits t m -> fits t k -> k <= m -> fits (take m p) k.
Proof.
  intros [Hl Hm] [Hl' Hk] Hle. split; [done|]. apply (suffix_shorter _ _ t); [done|done|]. rewrite !length_take. lia.
Qed.
Lemma fits_snoc t x k : fits (t ++ [x]) (S k) <-> fits t k /\ p !! k = Some x.
Proof.
  split.
  - intros [Hk Hs]. destruct (lookup_lt_is_Some_2 p k Hk) as [y Hy]. rewrite (take_S_r p k y Hy) in Hs.
    destruct Hs as [u Hu]. rewrite app_assoc in Hu. apply app_inj_tail in Hu as [-> ->].
    split; [|done]. split; [lia|]. by exists u.
  - intros [[Hk [u ->]] Hx]. pose proof (lookup_lt_Some _ _ _ Hx) as Hlt. split; [lia|].
    exists u. by rewrite (take_S_r p k x Hx), app_assoc.
Qed.
Lemma longest_unique t m m' : longest t m -> longest t m' -> m = m'.
Proof. intros (H1 & H2 & H3) (H1' & H2' & H3'). pose proof (H3 m' H2' H1'). pose proof (H3' m H2 H1). lia. Qed.
(** The longest border of a full match continues the text. *)
Lemma longest_full t b : fits t (length p) -> longest p b -> longest t b.
Proof.
  intros Hf (H1 & H2 & H3). assert (take (length p) p = p) as Hp by by rewrite take_ge.
  split_and!; [|done|].
  - apply (fits_trans t (length p)); [done|]. by rewrite Hp.
  - intros k Hk Hfk. apply H3; [done|]. rewrite <- Hp. apply (fits_border t); [done|done|lia].
Qed.
End Borders.

(** ** The prefix table *)

Section Table.
Context (p : list recordFingerprint).

(** Entry [j] is the longest proper border of the first [j + 1] records. *)
Definition border_of (j b : nat) : Prop :=
  b <= j /\ fits p (take (S j) p) b /\ forall k, k <= j -> fits p (take (S j) p) k -> k <= b.
Definition table_to (prefix : list nat) (n : nat) : Prop :=
  forall j, j < n -> exists b, prefix !! j = Some b /\ border_of j b.

Lemma same_at_true m x : same_at p m x = true <-> p !! m = Some x.
Proof.
  unfold same_at. destruct (p !! m) as [y|]; [|done]. rewrite sameFingerprint_true. split; [by intros ->|by intros [= ->]].
Qed.

(** Falling back finds the longest fit that [x] extends. *)
Lemma fall_back_spec prefix t x fuel : forall m, table_to prefix m -> m <= fuel -> fits p t m -> m < length p ->
  let r := fall_back fuel p prefix x m in
  fits p t r /\ r < length p /\ r <= m
  /\ (forall k, k <= m -> fits p t k -> p !! k = Some x -> k <= r) /\ (0 < r -> p !! r = Some x).
Proof.
  induction fuel as [|fuel IH]; intros m Ht Hm Hf Hl; cbn [fall_back].
  - assert (m = 0) as -> by lia. split_and!; [done|done|done|done|lia].
  - destruct (0 <? m) eqn:E0; cbn [andb]; zbool.
    2: { assert (m = 0) as -> by lia. split_and!; [done|done|done|done|lia]. }
    destruct (same_at p m x) eqn:Es; cbn [negb].
    { apply same_at_true in Es. split_and!; try done. }
    destruct (Ht (m - 1) ltac:(lia)) as (b & Hb & Hbl & Hbf & Hbmax). rewrite Hb. change (default 0 (Some b)) with b. replace (S (m - 1)) with m in * by lia.
    destruct (IH b) as (H1 & H2 & H3 & H4 & H5); [intros j Hj; apply Ht; lia|lia|by eapply fits_trans|lia|].
    split_and!; [done|done|lia| |done]. intros k Hk Hfk Hx.
    assert (k <> m) as Hne by (intros ->; apply same_at_true in Hx; congruence).
    apply H4; [|done|done]. apply Hbmax; [lia|]. by apply (fits_border p t).
Qed.

Lemma advance_spec prefix t x m : table_to prefix m -> longest p t m ->
  let r := advance p prefix m x in
  fits p (t ++ [x]) r /\ forall k, fits p (t ++ [x]) k -> k <= r.
Proof.
  intros Ht (Hf & Hl & Hmax). unfold advance.
  destruct (fall_back_spec prefix t x m m Ht ltac:(lia) Hf Hl) as (H1 & H2 & H3 & H4 & H5). cbv zeta in *.
  set (r := fall_back m p prefix x m) in *. destruct (same_at p r x) eqn:Es.
  - apply same_at_true in Es. rewrite Nat.add_1_r. split; [by apply fits_snoc|].
    intros [|k] Hk; [lia|]. apply fits_snoc in Hk as [Hk Hx]. apply le_n_S, H4; [|done|done].
    apply Hmax; [|done]. by apply lookup_lt_Some in Hx.
  - assert (r = 0) as Hr.
    { destruct r as [|r]; [done|]. specialize (H5 ltac:(lia)). apply same_at_true in H5. congruence. }
    rewrite Hr. split; [apply fits_0|]. intros [|k] Hk; [lia|]. apply fits_snoc in Hk as [Hk Hx].
    assert (k <= r) as Hle. { apply H4; [|done|done]. apply Hmax; [|done]. by apply lookup_lt_Some in Hx. }
    assert (k = r) as -> by lia. apply same_at_true in Hx. congruence.
Qed.

(** One record fed to the search. *)
Lemma advance_longest prefix t x m : table_to prefix m -> longest p t m ->
  let r := advance p prefix m x in
  (r = length p /\ fits p (t ++ [x]) (length p)) \/ (longest p (t ++ [x]) r /\ ~ fits p (t ++ [x]) (length p)).
Proof.
  intros Ht Hm. destruct (advance_spec prefix t x m Ht Hm) as [Hf Hmax]. cbv zeta in *. set (r := advance _ _ _ _) in *.
  pose proof (proj1 Hf) as Hle. destruct (decide (r = length p)) as [Hr|Hr]; [left; by rewrite <- Hr at 2|right].
  split; [split_and!; [done|lia|intros k _; apply Hmax]|]. intros Hfull%Hmax. lia.
Qed.

Lemma border_of_longest j b : j < length p -> longest p (drop 1 (take (S j) p)) b <-> border_of j b.
Proof.
  intros Hj. assert (length (take (S j) p) = S j) as Hlen by (rewrite length_take; lia).
  assert (forall k, k <= j -> fits p (drop 1 (take (S j) p)) k <-> fits p (take (S j) p) k) as Hiff.
  { intros k Hk. split; intros [Hl Hs]; (split; [done|]).
    - etrans; [exact Hs|]. exists (take 1 (take (S j) p)). by rewrite take_drop.
    - apply (suffix_shorter _ _ (take (S j) p)); [done|exists (take 1 (take (S j) p)); by rewrite take_drop|].
      rewrite length_take, length_drop. lia. }
  assert (forall k, fits p (drop 1 (take (S j) p)) k -> k <= j) as Hshort.
  { intros k Hk%fits_length. rewrite length_drop in Hk. lia. }
  split.
  - intros (H1 & H2 & H3). pose proof (Hshort b H1). split_and!; [done|by apply Hiff|].
    intros k Hk Hf. apply H3; [lia|]. by apply Hiff.
  - intros (H1 & H2 & H3). split_and!; [by apply Hiff|lia|]. intros k Hk Hf. pose proof (Hshort k Hf). apply H3; [done|].
    by apply Hiff.
Qed.

Lemma prefix_loop_spec rest : forall prefix index m,
  1 <= index -> index + rest = length p -> length prefix = length p -> table_to prefix index ->
  longest p (drop 1 (take index p)) m ->
  table_to (prefix_loop rest p prefix index m) (length p).
Proof.
  induction rest as [|rest IH]; intros prefix index m Hi Hr Hlen Ht Hm; cbn [prefix_loop].
  - by replace (length p) with index by lia.
  - destruct (lookup_lt_is_Some_2 p index ltac:(lia)) as [x Hx]. rewrite Hx. set (r := advance p prefix m x).
    assert (drop 1 (take index p) ++ [x] = drop 1 (take (S index) p)) as Htext.
    { rewrite (take_S_r p index x Hx), drop_app_le; [done|]. rewrite length_take. lia. }
    assert (m <= index - 1) as Hmi. { pose proof (fits_length _ _ _ (proj1 Hm)) as H. rewrite length_drop, length_take in H. lia. }
    destruct (advance_spec prefix (drop 1 (take index p)) x m) as [Hf Hmax]; [|exact Hm|]. { intros j Hj. apply Ht. lia. }
    fold r in Hf, Hmax. rewrite Htext in Hf, Hmax.
    assert (longest p (drop 1 (take (S index) p)) r) as Hlong.
    { split_and!; [done| |by intros k _; apply Hmax]. pose proof (fits_length _ _ _ Hf) as H. rewrite length_drop, length_take in H. lia. }
    apply IH; [lia|lia|by rewrite length_insert| |by replace (index + 1) with (S index) by lia].
    intros j Hj. destruct (decide (j = index)) as [->|].
    + exists r. rewrite list_lookup_insert_eq by lia. split; [done|]. apply border_of_longest; [lia|done].
    + rewrite list_lookup_insert_ne by done. apply Ht. lia.
Qed.

Lemma buildPrefixTable_spec : 0 < length p -> table_to (buildPrefixTable p) (length p).
Proof.
  intros Hp. unfold buildPrefixTable. apply prefix_loop_spec; [lia|lia|by rewrite length_replicate| |].
  - intros j Hj. assert (j = 0) as -> by lia. exists 0. rewrite lookup_replicate_2 by lia. split; [done|].
    split_and!; [done|apply fits_0|lia].
  - destruct p as [|x p']; [simpl in Hp; lia|]. cbn [take drop]. rewrite take_0. cbn [drop].
    split_and!; [apply fits_0|simpl; lia|]. intros k _ Hk%fits_length. simpl in Hk. lia.
Qed.

(** The search restarts from the longest border after a full match. *)
Lemma restart_longest t : 0 < length p -> fits p t (length p) ->
  longest p t (default 0 (buildPrefixTable p !! (length p - 1))).
Proof.
  intros Hp Hf. destruct (buildPrefixTable_spec Hp (length p - 1) ltac:(lia)) as (b & -> & H1 & H2 & H3). simpl.
  replace (S (length p - 1)) with (length p) in * by lia. rewrite (take_ge p) in * by lia.
  apply longest_full; [done|]. split_and!; [done|lia|]. intros k Hk. apply H3. lia.
Qed.
End Table.
