(* ===== verification/Contain.v ===== *)
(** Containment of session files: [src/internal/contain/contain.go].

    [Check] asks whether the records of one file occur in a row in another one.  It
    fingerprints the lines of the first file, searches the sequence of fingerprints
    in the second file ([Kmp]), and compares the bytes of every match.

    The computations run over a context and the file system, [CM]; a scan also keeps
    the variables its visitor captures.  SHA-256 and the JSON decoding of the first
    record's type are arguments. *)
From S2P Require Import Prelude GoStd Effects Os ObjectReader Context Bufio Kmp.
Local Open Scope Z_scope.

Record Input := { in_ID : string; in_Path : path }.
Record Options := { op_IgnoreSessionMeta : bool }.
Record Result := {
  re_ContainedID : string; re_ContainerID : string; re_ContainedPath : path; re_ContainerPath : path;
  re_IgnoredSessionMeta : bool; re_Contained : bool; re_VerifiedExact : bool;
  re_ContainedRecords : Z; re_ContainedBytes : Z;
  re_ContainerStartRecord : Z; re_ContainerEndRecord : Z; re_ContainerStartByte : Z; re_ContainerEndByte : Z;
}.
Record recordInfo := { ri_index : Z; ri_start : Z; ri_end : Z; ri_fingerprint : recordFingerprint }.

Definition firstRecordCaptureLimit : Z := 8 * 1024 * 1024.
Definition errContainmentFound : error := Sentinel "containment found".

(** ** One record *)

(** The variables of the inner loop of [scanRecords]. *)
Record pending := {
  pe_hashed : bytes; pe_offset : Z; pe_capture : bytes; pe_captureComplete : bool; pe_hasData : bool;
}.
Definition add_fragment (recordIndex : Z) (fragment : bytes) (p : pending) : pending :=
  if zlen fragment >? 0 then
    let capturing := (recordIndex =? 0) && pe_captureComplete p in
    let small := zlen (pe_capture p) + zlen fragment <=? firstRecordCaptureLimit in
    {| pe_hashed := pe_hashed p ++ fragment; pe_offset := pe_offset p + zlen fragment;
       pe_capture := if capturing then (if small then pe_capture p ++ fragment else []) else pe_capture p;
       pe_captureComplete := if capturing then small else pe_captureComplete p;
       pe_hasData := true |}
  else p.

(** The inner loop: the record, whether the end of the file was reached, and the
    bytes not read yet.  [between] runs when a record is longer than the buffer: here
    it is the check of the context. *)
Fixpoint read_record (between : CM unit) (fuel : nat) (recordIndex : Z) (rest : bytes) (p : pending) : CM (pending * bool * bytes) :=
  match fuel with
  | O => fail (Sentinel "fuel exhausted")
  | S fuel =>
      let* (fragment, how, rest) := on_world (next_slice rest) in
      let p := add_fragment recordIndex fragment p in
      match how with
      | Delim => ret (p, false, rest)
      | BufferFull => between ;;; read_record between fuel recordIndex rest p
      | AtEOF => ret (p, true, rest)
      | ReadError e => fail e
      end
  end.

Section Contain.
Variable sha256 : bytes -> bytes.
(** [json.Unmarshal] into the envelope: its [Type]. *)
Variable Unmarshal_type : bytes -> result string.

Definition trim_newline (record : bytes) : bytes :=
  match last record with
  | Some b => if bool_decide (b = Byte.x0a) then take (length record - 1) record else record
  | None => record
  end.
Definition isSessionMeta (record : bytes) : bool :=
  match Unmarshal_type (trim_newline record) with
  | Ok ty => bool_decide (ty = "session_meta"%string)
  | Err _ => false
  end.

(** ** Scanning a file *)

Section Scan.
Context {V : Type}.
Definition Scan (A : Type) : Type := M (V * (Ctx * world)) A.
Definition on_cm {A} (m : CM A) : Scan A := zoom snd (fun s t => (s.1, t)) m.
Definition set_var (f : V -> V) : Scan unit := modify (fun s => (f s.1, s.2)).
Variable visit : recordInfo -> Scan unit.
Variable between : CM unit.

Fixpoint scan_loop (fuel : nat) (ignoreSessionMeta : bool) (rest : bytes) (offset recordIndex : Z) : Scan unit :=
  match fuel with
  | O => fail (Sentinel "fuel exhausted")
  | S fuel =>
      on_cm check_ctx ;;;
      let* (p, reachedEOF, rest) := on_cm (read_record between (S (length rest)) recordIndex rest
        {| pe_hashed := []; pe_offset := offset; pe_capture := []; pe_captureComplete := true; pe_hasData := false |}) in
      if negb (pe_hasData p) then ret tt
      else
        let skip := ignoreSessionMeta && (recordIndex =? 0) && pe_captureComplete p && isSessionMeta (pe_capture p) in
        (if skip then ret tt
         else visit {| ri_index := recordIndex; ri_start := offset; ri_end := pe_offset p;
                       ri_fingerprint := {| fp_digest := sha256 (pe_hashed p); fp_size := zlen (pe_hashed p) |} |}) ;;;
        if reachedEOF then ret tt
        else scan_loop fuel ignoreSessionMeta rest (pe_offset p) (recordIndex + 1)
  end.

(** The bytes of an open file; nothing else writes to it during a scan. *)
Definition contents (f : File) (w : world) : bytes :=
  match w_inodes w !! f_ino f with Some i => i_data i | None => [] end.

Definition scan_open (file : File) (ignoreSessionMeta : bool) : Scan unit :=
  let* s := get in
  let data := contents file s.2.2 in
  scan_loop (S (length data)) ignoreSessionMeta data 0 0.
End Scan.

Definition scanRecords {V} (visit : recordInfo -> Scan (V := V) unit) (p : path) (ignoreSessionMeta : bool) : Scan unit :=
  let* file := on_cm (on_world (os_Open p)) in
  defer_ (on_cm (on_world (file_Close file))) (scan_open visit check_ctx file ignoreSessionMeta).

(** Running a scan from the initial values of the captured variables. *)
Definition with_var {V} (v : V) (m : Scan (V := V) unit) : CM (option error * V) := fun s =>
  let '(r, (v, s)) := m (v, s) in
  (Ok (match r with Ok _ => None | Err e => Some e end, v), s).

(** ** Comparing bytes *)

(** [io.ReadFull] of [n] bytes of a section. *)
Definition section_ReadFull (f : File) (n off : Z) : CM bytes :=
  let* (data, err) := on_world (File_ReadAt f n off) in
  match err with
  | Some e => fail (if is_EOF e && (zlen data >? 0) then io_ErrUnexpectedEOF else e)
  | None => ret data
  end.

(** In pieces of at most [limit] bytes. *)
Fixpoint equal_loop (limit : Z) (fuel : nat) (lfile rfile : File) (leftOffset rightOffset remaining : Z) : CM bool :=
  if remaining >? 0 then
    match fuel with
    | O => fail (Sentinel "fuel exhausted")
    | S fuel =>
        check_ctx ;;;
        let chunk := Z.min limit remaining in
        let* l := section_ReadFull lfile chunk leftOffset in
        let* r := section_ReadFull rfile chunk rightOffset in
        if negb (bool_decide (l = r)) then ret false
        else equal_loop limit fuel lfile rfile (leftOffset + chunk) (rightOffset + chunk) (remaining - chunk)
    end
  else ret true.

Definition equalFileRanges (leftPath : path) (leftOffset : Z) (rightPath : path) (rightOffset size : Z) : CM bool :=
  let* lfile := on_world (os_Open leftPath) in
  defer_ (on_world (file_Close lfile)) (
    let* rfile := on_world (os_Open rightPath) in
    defer_ (on_world (file_Close rfile)) (
      equal_loop (1024 * 1024) (Z.to_nat size) lfile rfile leftOffset rightOffset size)).

(** ** The check *)

Record needle_vars := { nv_needle : list recordFingerprint; nv_start : Z; nv_end : Z }.
Definition collect (record : recordInfo) : Scan (V := needle_vars) unit :=
  set_var (fun v => {| nv_needle := nv_needle v ++ [ri_fingerprint record];
                       nv_start := if nv_start v <? 0 then ri_start record else nv_start v;
                       nv_end := ri_end record |}).

Definition mark_found (record : recordInfo) (needle : list recordFingerprint) (startByte : Z) (r : Result) : Result :=
  {| re_ContainedID := re_ContainedID r; re_ContainerID := re_ContainerID r;
     re_ContainedPath := re_ContainedPath r; re_ContainerPath := re_ContainerPath r;
     re_IgnoredSessionMeta := re_IgnoredSessionMeta r; re_Contained := true; re_VerifiedExact := true;
     re_ContainedRecords := re_ContainedRecords r; re_ContainedBytes := re_ContainedBytes r;
     re_ContainerStartRecord := ri_index record - zlen needle + 1; re_ContainerEndRecord := ri_index record;
     re_ContainerStartByte := startByte; re_ContainerEndByte := ri_end record |}.

Record search_vars := { sv_matched : nat; sv_result : Result }.
Definition set_matched (m : nat) : Scan (V := search_vars) unit :=
  set_var (fun v => {| sv_matched := m; sv_result := sv_result v |}).

Definition search (contained container : path) (needle : list recordFingerprint) (needleStart : Z)
    (record : recordInfo) : Scan (V := search_vars) unit :=
  let prefix := buildPrefixTable needle in
  let* s := get in
  let matched := advance needle prefix (sv_matched s.1) (ri_fingerprint record) in
  set_matched matched ;;;
  if negb (matched =? length needle)%nat then ret tt
  else
    let bytes := re_ContainedBytes (sv_result s.1) in
    let startByte := ri_end record - bytes in
    let* exact := on_cm (equalFileRanges contained needleStart container startByte bytes) in
    if (exact : bool) then
      set_var (fun v => {| sv_matched := sv_matched v; sv_result := mark_found record needle startByte (sv_result v) |}) ;;;
      fail errContainmentFound
    else set_matched (default 0%nat (prefix !! (matched - 1)%nat)).

Definition Check (contained container : Input) (options : Options) : CM Result :=
  if bool_decide (in_Path contained = []) || bool_decide (in_Path container = []) then
    fail (errors_new "both contained and container rollout paths are required")
  else
    let* (err, v) := with_var {| nv_needle := []; nv_start := -1; nv_end := 0 |}
      (scanRecords collect (in_Path contained) (op_IgnoreSessionMeta options)) in
    match err with
    | Some e => fail (errorf "scan contained rollout: %w" e)
    | None =>
        if zlen (nv_needle v) =? 0 then fail (errors_new "contained rollout has no comparable JSONL records")
        else
          let result := {| re_ContainedID := in_ID contained; re_ContainerID := in_ID container;
            re_ContainedPath := in_Path contained; re_ContainerPath := in_Path container;
            re_IgnoredSessionMeta := op_IgnoreSessionMeta options; re_Contained := false; re_VerifiedExact := false;
            re_ContainedRecords := zlen (nv_needle v); re_ContainedBytes := nv_end v - nv_start v;
            re_ContainerStartRecord := 0; re_ContainerEndRecord := 0; re_ContainerStartByte := 0;
            re_ContainerEndByte := 0 |} in
          let* (err, v2) := with_var {| sv_matched := 0; sv_result := result |}
            (scanRecords (search (in_Path contained) (in_Path container) (nv_needle v) (nv_start v))
               (in_Path container) (op_IgnoreSessionMeta options)) in
          match err with
          | Some e => if errors_is "containment found" e then ret (sv_result v2)
                      else fail (errorf "scan container rollout: %w" e)
          | None => ret (sv_result v2)
          end
    end.
End Contain.

(** ** Reading without interference *)

Definition quiet (s s' : Ctx * world) : Prop := same_files s.2 s'.2 /\ (calm s -> calm s').
(** [e] comes from a cancellation or a failed call. *)
Definition disturbed (s : Ctx * world) (e : error) : Prop := ~ calm s /\ errors_is "containment found" e = false.
(** [m] only reads; its result satisfies [P], and it fails only when it is disturbed. *)
Definition does {A} (m : CM A) (s : Ctx * world) (P : A -> Prop) : Prop :=
  wp m s (fun r s' => quiet s s' /\ match r with Ok a => P a | Err e => disturbed s e end).

Lemma quiet_refl s : quiet s s.
Proof. by split. Qed.
Lemma quiet_trans s1 s2 s3 : quiet s1 s2 -> quiet s2 s3 -> quiet s1 s3.
Proof. intros [H1 H2] [H3 H4]. split; [by eapply same_files_trans|auto]. Qed.
Lemma quiet_calm s s' e : quiet s s' -> disturbed s' e -> disturbed s e.
Proof. intros [_ H] [Hn Hc]. split; auto. Qed.

Lemma quiet_tick c w fs : (w_faults w = [] -> fs = []) -> quiet (c, w) (c, tick w fs).
Proof. intros Hf. split; [done|]. intros [Hc Hw]. split; [done|]. by apply Hf. Qed.

Lemma does_mono {A} (m : CM A) s (P Q : A -> Prop) : does m s P -> (forall a, P a -> Q a) -> does m s Q.
Proof. unfold does. intros H HPQ. eapply wp_mono; [exact H|]. intros [a|e] s' [Hq Hr]; auto. Qed.
Lemma does_ret {A} (a : A) s (P : A -> Prop) : P a -> does (ret a) s P.
Proof. intros HP. split; [apply quiet_refl|done]. Qed.
Lemma does_bind {A B} (m : CM A) (f : A -> CM B) s P Q :
  does m s P -> (forall a s', quiet s s' -> P a -> does (f a) s' Q) -> does (bind m f) s Q.
Proof.
  unfold does. intros Hm Hf. rewrite wp_bind. eapply wp_mono; [exact Hm|]. intros [a|e] s' [Hq Hr]; [|done].
  eapply wp_mono; [by apply Hf|]. intros [b|e] s2 [Hq2 Hr2]; (split; [by eapply quiet_trans|]); [done|].
  by eapply quiet_calm.
Qed.
Lemma does_defer {A B} (c : CM B) (m : CM A) s P Q :
  does m s P -> (forall s', does c s' Q) -> does (defer_ c m) s P.
Proof.
  unfold does. intros Hm Hc. rewrite wp_defer. eapply wp_mono; [exact Hm|]. intros r s' [Hq Hr].
  eapply wp_mono; [apply Hc|]. intros _ s2 [Hq2 _]. split; [by eapply quiet_trans|done].
Qed.

Lemma does_check_ctx s : does check_ctx s (fun _ => True).
Proof.
  destruct s as [[[|k]|] w]; unfold does, wp; cbn; (split; [split; [done|try done; by intros [? ?]]|]); try done. split; [by intros [? _]|done].
Qed.

(** A read-only system call. *)
Lemma does_world {A} (m : OS A) s (P : A -> Prop) :
  wp m s.2 (fun r w' => (exists fs, w' = tick s.2 fs /\ (w_faults s.2 = [] -> fs = []))
    /\ match r with Ok a => P a | Err e => w_faults s.2 <> [] /\ errors_is "containment found" e = false end) ->
  does (on_world m) s P.
Proof.
  intros H. unfold does, on_world. rewrite wp_zoom. eapply wp_mono; [exact H|].
  intros r w' [(fs & -> & Hfs) Hr]. destruct s as [c w]. split; [by apply quiet_tick|].
  destruct r; [done|]. destruct Hr as [Hr Hf]. split; [|done]. by intros [_ ?].
Qed.
Lemma does_syscall {A} (m : OS A) a s (P : A -> Prop) : (forall w, same_files s.2 w -> m w = (Ok a, w)) -> P a ->
  does (on_world (syscall m)) s P.
Proof.
  intros Hm HP. apply does_world. unfold wp, syscall, next_outcome.
  destruct (w_faults s.2) as [|[|k] fs] eqn:E; rewrite ?Hm by done; cbn; (split; [by eexists|]); done.
Qed.
Lemma does_Open p n s : w_names s.2 !! p = Some n -> does (on_world (os_Open p)) s (fun f => f_ino f = n).
Proof.
  intros Hn. unfold os_Open, os_OpenFile. eapply does_syscall with (a := {| f_ino := n; f_pos := 0; f_append := false |}); [|done].
  intros w (E & _). by rewrite E, Hn.
Qed.
Lemma does_Close f s : does (on_world (file_Close f)) s (fun _ => True).
Proof. by apply does_syscall with (a := tt). Qed.

Lemma does_ReadFull f n off i s : w_inodes s.2 !! f_ino f = Some i -> 0 <= off -> 0 <= n -> off + n <= zlen (i_data i) ->
  does (section_ReadFull f n off) s (fun d => d = slice off (off + n) (i_data i)).
Proof.
  intros Hi Ho Hn Hl. unfold does, section_ReadFull. rewrite wp_bind. unfold on_world. rewrite wp_zoom.
  assert (zlen (slice off (off + n) (i_data i)) = n) as Hlen by (rewrite zlen_slice; lia).
  destruct s as [c w]. cbn [fst snd] in *. unfold wp at 1, File_ReadAt, next_outcome.
  destruct (w_faults w) as [|[|k] fs] eqn:Ef; cbn -[zlen]; rewrite Hi; cbn -[zlen]; rewrite ?Hlen, ?Z.ltb_irrefl.
  1,2: split; [by apply quiet_tick; rewrite Ef|done].
  split; [by apply quiet_tick; rewrite Ef|]. split; [|done]. intros [_ E]. cbn in E. congruence.
Qed.

Definition range_equal (a b : bytes) (x y n : Z) : bool := bool_decide (slice x (x + n) a = slice y (y + n) b).

Lemma does_equal_loop limit a b fuel : 0 < limit -> forall lfile rfile ia ib x y n s,
  w_inodes s.2 !! f_ino lfile = Some ia -> w_inodes s.2 !! f_ino rfile = Some ib -> i_data ia = a -> i_data ib = b ->
  0 <= x -> 0 <= y -> 0 <= n -> x + n <= zlen a -> y + n <= zlen b -> n <= Z.of_nat fuel ->
  does (equal_loop limit fuel lfile rfile x y n) s (fun r => r = range_equal a b x y n).
Proof.
  intros Hlim. induction fuel as [|fuel IH]; intros lfile rfile ia ib x y n s Hia Hib Ha Hb Hx Hy Hn Hla Hlb Hf; cbn [equal_loop];
    destruct (n >? 0) eqn:En; zbool; [lia| | |].
  1,3: apply does_ret; assert (n = 0) as -> by lia; unfold range_equal; rewrite !slice_nil by lia; done.
  set (chunk := Z.min limit n). assert (0 < chunk <= n) as Hc by lia.
  eapply does_bind; [apply does_check_ctx|]. intros _ s1 Hq1 _. destruct (proj1 Hq1) as (_ & Ei1 & _).
  eapply does_bind; [apply (does_ReadFull _ _ _ ia); rewrite ?Ei1, ?Ha; [done|lia..]|]. intros l s2 Hq2 ->. destruct (proj1 Hq2) as (_ & Ei2 & _).
  eapply does_bind; [apply (does_ReadFull _ _ _ ib); rewrite ?Ei2, ?Ei1, ?Hb; [done|lia..]|]. intros r s3 Hq3 ->. destruct (proj1 Hq3) as (_ & Ei3 & _).
  rewrite Ha, Hb.
  assert (forall (d : bytes) z, 0 <= z -> z + n <= zlen d -> slice z (z + n) d = slice z (z + chunk) d ++ slice (z + chunk) (z + chunk + (n - chunk)) d) as Hjoin.
  { intros d z Hz Hz2. replace (z + chunk + (n - chunk)) with (z + n) by lia. symmetry. apply slice_join; lia. }
  assert (zlen (slice x (x + chunk) a) = chunk /\ zlen (slice y (y + chunk) b) = chunk) as [Hsa Hsb] by (split; rewrite zlen_slice; lia).
  case_bool_decide as Heq; cbn [negb].
  - eapply does_mono; [eapply IH; rewrite ?Ei3, ?Ei2, ?Ei1; try done; lia|]. intros r ->. unfold range_equal.
    rewrite (Hjoin a x), (Hjoin b y), Heq by lia. apply bool_decide_ext. split; [by intros ->|by intros ?%(inj _)].
  - apply does_ret. unfold range_equal. symmetry. apply bool_decide_eq_false_2. intros H. apply Heq.
    rewrite (Hjoin a x), (Hjoin b y) in H by lia. apply app_inj_1 in H as [H _]; [done|]. unfold zlen in *. lia.
Qed.

Lemma does_equalFileRanges pa pb a b x y n s : file_data s.2 pa = Some a -> file_data s.2 pb = Some b ->
  0 <= x -> 0 <= y -> 0 <= n -> x + n <= zlen a -> y + n <= zlen b ->
  does (equalFileRanges pa x pb y n) s (fun r => r = range_equal a b x y n).
Proof.
  unfold file_data, inode_of. intros Ha Hb Hx Hy Hn Hla Hlb.
  destruct (w_names s.2 !! pa) as [na|] eqn:Ena; [|done]. destruct (w_names s.2 !! pb) as [nb|] eqn:Enb; [|done]. simpl in Ha, Hb.
  destruct (w_inodes s.2 !! na) as [ia|] eqn:Eia; [|done]. destruct (w_inodes s.2 !! nb) as [ib|] eqn:Eib; [|done].
  injection Ha as <-. injection Hb as <-. unfold equalFileRanges.
  eapply does_bind; [by apply does_Open|]. intros lf s1 Hq1 <-. eapply does_defer; [|intros; apply does_Close].
  destruct (proj1 Hq1) as (En1 & Ei1 & _).
  eapply does_bind; [apply does_Open; by rewrite En1|]. intros rf s2 Hq2 <-. eapply does_defer; [|intros; apply does_Close].
  destruct (proj1 Hq2) as (_ & Ei2 & _). eapply does_equal_loop; rewrite ?Ei2, ?Ei1; try done; lia.
Qed.

(** ** The records of a file *)

Local Abbreviation nl := Byte.x0a.

(** The lines of [cur ++ l], the last one possibly without a newline, where [cur]
    has none. *)
Fixpoint records_from (cur l : bytes) : list bytes :=
  match l with
  | [] => if decide (cur = []) then [] else [cur]
  | b :: l => if decide (b = nl) then (cur ++ [b]) :: records_from [] l else records_from (cur ++ [b]) l
  end.
Definition records (data : bytes) : list bytes := records_from [] data.

Lemma records_from_app cur pre l : nl ∉ pre -> records_from cur (pre ++ l) = records_from (cur ++ pre) l.
Proof.
  revert cur. induction pre as [|b pre IH]; intros cur Hp; [by rewrite app_nil_r|]. cbn [records_from app].
  rewrite decide_False by set_solver. rewrite IH, <- app_assoc by set_solver. done.
Qed.
Lemma records_line pre l : nl ∉ pre -> records (pre ++ nl :: l) = (pre ++ [nl]) :: records l.
Proof. intros Hp. unfold records. rewrite records_from_app by done. cbn [records_from app]. by rewrite decide_True. Qed.
Lemma records_last l : nl ∉ l -> records l = if decide (l = []) then [] else [l].
Proof. intros Hl. unfold records. rewrite <- (app_nil_r l) at 1. by rewrite records_from_app. Qed.

(** [line] is cut off the front of [rest]. *)
Definition record_cut (rest line : bytes) (eof : bool) (rest' : bytes) : Prop :=
  if eof then line = rest /\ rest' = [] /\ nl ∉ rest
  else rest = line ++ rest' /\ exists pre, line = pre ++ [nl] /\ nl ∉ pre.
Lemma records_cut rest line eof rest' : record_cut rest line eof rest' ->
  records rest = if decide (line = []) then [] else line :: records rest'.
Proof.
  destruct eof; cbn [record_cut].
  - intros (-> & -> & Hn). by rewrite records_last.
  - intros [-> (pre & -> & Hn)]. rewrite <- app_assoc. cbn [app]. rewrite records_line by done. by destruct pre.
Qed.
Lemma record_cut_app fragment rest line eof rest' : nl ∉ fragment -> record_cut rest line eof rest' ->
  record_cut (fragment ++ rest) (fragment ++ line) eof rest'.
Proof.
  intros Hn. destruct eof; cbn [record_cut].
  - intros (-> & -> & Hr). split_and!; [done|done|set_solver].
  - intros [-> (pre & -> & Hp)]. split; [by rewrite app_assoc|]. exists (fragment ++ pre). rewrite app_assoc. split; [done|set_solver].
Qed.

(** What the loop over the fragments of a record collects. *)
Record collected (recordIndex : Z) (p0 : pending) (line : bytes) (p : pending) : Prop := {
  cl_hashed : pe_hashed p = pe_hashed p0 ++ line;
  cl_offset : pe_offset p = pe_offset p0 + zlen line;
  cl_data : pe_hasData p = pe_hasData p0 || negb (bool_decide (line = []));
}.
Definition captured (recordIndex : Z) (p : pending) : Prop := recordIndex = 0 ->
  pe_captureComplete p = (zlen (pe_hashed p) <=? firstRecordCaptureLimit)
  /\ (pe_captureComplete p = true -> pe_capture p = pe_hashed p).

Lemma add_fragment_spec idx fragment p : captured idx p ->
  collected idx p fragment (add_fragment idx fragment p) /\ captured idx (add_fragment idx fragment p).
Proof.
  intros Hc. unfold add_fragment. pose proof (zlen_nonneg fragment). destruct (zlen fragment >? 0) eqn:E; zbool.
  - assert (fragment <> []) as Hne by (intros ->; by unfold zlen in E). split.
    + split; cbn; [done|done|]. rewrite bool_decide_eq_false_2 by done. by rewrite orb_true_r.
    + intros ->. destruct (Hc eq_refl) as [H1 H2]. cbn [pe_captureComplete pe_hashed pe_capture]. rewrite Z.eqb_refl. cbn [andb].
      rewrite zlen_app. destruct (pe_captureComplete p) eqn:Ec.
      * rewrite (H2 eq_refl). split; [done|]. by intros ->.
      * split; [|done]. symmetry in H1. zbool. symmetry. apply Z.leb_gt. lia.
  - assert (fragment = []) as -> by (apply zlen_0_nil; lia). split; [|done]. split; [by rewrite app_nil_r|by rewrite zlen_nil, Z.add_0_r|].
    rewrite bool_decide_eq_true_2 by done. by rewrite orb_false_r.
Qed.
Lemma collected_trans idx p0 a p1 b p2 : collected idx p0 a p1 -> collected idx p1 b p2 -> collected idx p0 (a ++ b) p2.
Proof.
  intros [H1 H2 H3] [H4 H5 H6]. split; [by rewrite H4, H1, app_assoc|rewrite H5, H2, zlen_app; lia|].
  rewrite H6, H3, <- orb_assoc. f_equal. destruct a; [done|]. rewrite !bool_decide_eq_false_2 by done. done.
Qed.

Lemma does_read_record between fuel idx : (forall s, does between s (fun _ => True)) -> forall rest p0 s, (length rest < fuel)%nat -> captured idx p0 ->
  does (read_record between fuel idx rest p0) s (fun r => exists line,
    record_cut rest line r.1.2 r.2 /\ collected idx p0 line r.1.1 /\ captured idx r.1.1).
Proof.
  intros Hbetween. induction fuel as [|fuel IH]; intros rest p0 s Hl Hc; [lia|]. cbn [read_record].
  unfold does. rewrite wp_bind. unfold on_world. rewrite wp_zoom. eapply wp_mono; [apply wp_next_slice|].
  intros r w1 (fragment & how & rest' & -> & (fs & -> & Hfs) & Hhow). destruct s as [c w]. cbn [fst snd] in *.
  pose proof (quiet_tick c w fs Hfs) as Hq. destruct (add_fragment_spec idx fragment p0 Hc) as [Hcl Hcap].
  set (p := add_fragment idx fragment p0) in *. destruct how as [| | |e].
  - destruct Hhow as (<- & _ & pre & -> & Hpre). split; [done|]. exists (pre ++ [nl]). split; [|done]. split; [done|]. by exists pre.
  - destruct Hhow as (<- & Hne & Hn). assert (length rest' < fuel)%nat as Hl'.
    { rewrite length_app in Hl. destruct fragment; [done|]. simpl in Hl. lia. }
    eapply wp_mono; [eapply (does_bind between (fun _ => read_record between fuel idx rest' p)); [apply Hbetween|
      intros _ s1 _ _; by apply (IH rest' p s1)]|].
    intros r s2 [Hq2 Hr]. split; [by eapply quiet_trans|]. destruct r as [r|e]; [|by eapply quiet_calm].
    destruct Hr as (line & Hcut & Hcl2 & Hcap2). exists (fragment ++ line).
    split; [by apply record_cut_app|]. split; [by eapply collected_trans|done].
  - destruct Hhow as (-> & -> & Hn). split; [done|]. by exists rest.
  - destruct Hhow as [Hhow ->]. split; [done|]. split; [|done]. by intros [_ Hf].
Qed.

Section ContainLemmas.
Context (sha256 : bytes -> bytes) (Unmarshal_type : bytes -> result string).
Local Abbreviation isSessionMeta := (isSessionMeta Unmarshal_type).
Local Abbreviation scan_loop := (scan_loop sha256 Unmarshal_type).
Local Abbreviation scan_open := (scan_open sha256 Unmarshal_type).
Local Abbreviation scanRecords := (scanRecords sha256 Unmarshal_type).

Definition fingerprint (line : bytes) : recordFingerprint := {| fp_digest := sha256 line; fp_size := zlen line |}.
Definition skipped (ignore : bool) (idx : Z) (line : bytes) : bool :=
  ignore && (idx =? 0) && (zlen line <=? firstRecordCaptureLimit) && isSessionMeta line.
Definition info_of (idx offset : Z) (line : bytes) : recordInfo :=
  {| ri_index := idx; ri_start := offset; ri_end := offset + zlen line; ri_fingerprint := fingerprint line |}.

(** The records that a scan visits. *)
Fixpoint visits (ignore : bool) (lines : list bytes) (offset idx : Z) : list recordInfo :=
  match lines with
  | [] => []
  | line :: lines => (if skipped ignore idx line then [] else [info_of idx offset line])
                     ++ visits ignore lines (offset + zlen line) (idx + 1)
  end.

Section ScanSpec.
Context {V : Type} (visit : recordInfo -> Scan (V := V) unit) (w0 : world) (all : list recordInfo).
Context (I : list recordInfo -> V -> Prop) (E : error -> V -> Prop).
Definition scan_post (s : Ctx * world) (seen : list recordInfo) (r : result unit) (t : V * (Ctx * world)) : Prop :=
  quiet s t.2 /\ match r with Ok _ => I seen t.1 | Err e => E e t.1 \/ disturbed s e end.
Context (Hvisit : forall before info after v s, same_files w0 s.2 -> all = before ++ info :: after -> I before v ->
  wp (visit info) (v, s) (scan_post s (before ++ [info]))).

Lemma scan_post_trans s1 s2 seen r t : quiet s1 s2 -> scan_post s2 seen r t -> scan_post s1 seen r t.
Proof.
  intros Hq [Hq2 Hr]. split; [by eapply quiet_trans|]. destruct r; [done|]. destruct Hr; [by left|right; by eapply quiet_calm].
Qed.
(** A step that only reads, in front of the rest of a scan. *)
Lemma wp_does {A} (m : CM A) (f : A -> Scan unit) v s P seen :
  does m s P -> (forall a s', quiet s s' -> P a -> wp (f a) (v, s') (scan_post s' seen)) ->
  wp (bind (on_cm m) f) (v, s) (scan_post s seen).
Proof.
  unfold does. intros Hm Hf. rewrite wp_bind. unfold on_cm. rewrite wp_zoom. eapply wp_mono; [exact Hm|].
  intros [a|e] s' [Hq Hr]; cbn [fst snd]; [|split; [done|by right]].
  eapply wp_mono; [by apply Hf|]. intros r t. by apply scan_post_trans.
Qed.

Context (between : CM unit) (Hbetween : forall s, does between s (fun _ => True)).
Lemma wp_scan_loop ignore fuel : forall rest offset idx before v s,
  (length rest < fuel)%nat -> all = before ++ visits ignore (records rest) offset idx -> I before v -> same_files w0 s.2 ->
  wp (scan_loop visit between fuel ignore rest offset idx) (v, s) (scan_post s all).
Proof using Hvisit Hbetween.
  induction fuel as [|fuel IH]; intros rest offset idx before v s Hl Hall Hi Hw; [lia|]. cbn [Contain.scan_loop].
  eapply wp_does; [apply does_check_ctx|]. intros _ s1 Hq1 _.
  eapply wp_does; [apply does_read_record; [done|lia|]|].
  { intros ->. cbn. done. }
  intros [[p eof] rest'] s2 Hq2 (line & Hcut & [Hh Ho Hd] & Hcap). cbn [fst snd pe_hashed pe_offset pe_hasData app orb] in *.
  assert (same_files w0 s2.2) as Hw2.
  { eapply same_files_trans; [exact Hw|]. eapply same_files_trans; [apply Hq1|apply Hq2]. }
  rewrite (records_cut _ _ _ _ Hcut) in Hall. rewrite Hd, negb_involutive. destruct (decide (line = [])) as [Hline|Hline].
  { rewrite bool_decide_eq_true_2 by done. cbn [visits] in Hall. rewrite app_nil_r in Hall. subst before.
    split; [apply quiet_refl|done]. }
  rewrite bool_decide_eq_false_2 by done. cbn [visits] in Hall.
  assert (ignore && (idx =? 0) && pe_captureComplete p && isSessionMeta (pe_capture p) = skipped ignore idx line) as ->.
  { unfold skipped. destruct ignore, (idx =? 0) eqn:Ei; cbn [andb]; try done. zbool. destruct (Hcap Ei) as [H1 H2].
    rewrite Hh in *. destruct (pe_captureComplete p); rewrite <- H1; cbn [andb]; [by rewrite H2|done]. }
  assert ((length rest' < fuel)%nat /\ (eof = true -> rest' = [])) as [Hl' Heof].
  { destruct eof; cbn [record_cut] in Hcut; [destruct Hcut as (-> & -> & _); destruct rest; [done|]; simpl in *; split; [lia|done]|].
    destruct Hcut as [-> _]. rewrite length_app in Hl. destruct line; [done|]. simpl in Hl. split; [lia|done]. }
  rewrite wp_bind.
  eapply wp_mono with (P := scan_post s2 (before ++ if skipped ignore idx line then [] else [info_of idx offset line])).
  - destruct (skipped ignore idx line); [split; [apply quiet_refl|by rewrite app_nil_r]|].
    unfold info_of, fingerprint. rewrite <- Ho, <- Hh. eapply Hvisit; [done|rewrite Ho, Hh; exact Hall|done].
  - intros [u|e] [v3 s3] [Hq3 Hr3]; cbn [fst snd] in *; [|by split].
    assert (same_files w0 s3.2) as Hw3 by (eapply same_files_trans; [exact Hw2|apply Hq3]).
    destruct eof.
    + rewrite (Heof eq_refl) in Hall. cbn [records records_from visits] in Hall. rewrite decide_True in Hall by done. cbn [visits] in Hall.
      rewrite app_nil_r in Hall. rewrite Hall. split; [done|done].
    + eapply wp_mono; [eapply (IH rest' _ _ _ v3 s3 Hl'); [rewrite Ho, Hall, app_assoc; done|done|done]|].
      intros r t. by apply scan_post_trans.
Qed.

Lemma wp_scan_open file inode ignore v s : w_inodes s.2 !! f_ino file = Some inode ->
  all = visits ignore (records (i_data inode)) 0 0 -> I [] v -> same_files w0 s.2 ->
  wp (scan_open visit between file ignore) (v, s) (scan_post s all).
Proof using Hvisit Hbetween.
  intros Hn Hall Hi Hw. unfold Contain.scan_open. rewrite wp_bind, wp_get. cbn [fst snd]. unfold contents. rewrite Hn.
  apply (wp_scan_loop ignore _ (i_data inode) 0 0 []); [lia|done..].
Qed.
End ScanSpec.

(** ** Positions *)

(** The records [lines] from byte [off] and record [idx] on. *)
Fixpoint infos (lines : list bytes) (off idx : Z) : list recordInfo :=
  match lines with
  | [] => []
  | line :: lines => info_of idx off line :: infos lines (off + zlen line) (idx + 1)
  end.
(** The bytes skipped, the number of records skipped and the records compared. *)
Definition comparable (ignore : bool) (data : bytes) : bytes * Z * list bytes :=
  match records data with
  | line :: lines => if skipped ignore 0 line then (line, 1, lines) else ([], 0, line :: lines)
  | [] => ([], 0, [])
  end.

Lemma records_from_concat cur l : concat (records_from cur l) = cur ++ l.
Proof.
  revert cur. induction l as [|b l IH]; intros cur; cbn [records_from].
  - case_decide as H; cbn; by rewrite ?H, ?app_nil_r.
  - case_decide; cbn [concat]; rewrite IH, <- app_assoc; done.
Qed.
Lemma comparable_concat ignore data : (comparable ignore data).1.1 ++ concat (comparable ignore data).2 = data.
Proof.
  pose proof (records_from_concat [] data) as H. unfold comparable, records. destruct (records_from [] data) as [|line lines]; [done|].
  destruct (skipped ignore 0 line); done.
Qed.
Lemma visits_infos ignore lines : forall off idx, 0 < idx -> visits ignore lines off idx = infos lines off idx.
Proof.
  induction lines as [|line lines IH]; intros off idx Hi; cbn [visits infos]; [done|].
  replace (skipped ignore idx line) with false; [by rewrite IH by lia|].
  unfold skipped. replace (idx =? 0) with false by lia. by rewrite andb_false_r.
Qed.
Lemma visits_comparable ignore data :
  visits ignore (records data) 0 0 = infos (comparable ignore data).2 (zlen (comparable ignore data).1.1) (comparable ignore data).1.2.
Proof.
  unfold comparable. destruct (records data) as [|line lines]; [done|]. cbn [visits].
  rewrite visits_infos by lia. by destruct (skipped ignore 0 line).
Qed.

Lemma infos_app a b off idx : infos (a ++ b) off idx = infos a off idx ++ infos b (off + zlen (concat a)) (idx + zlen a).
Proof.
  revert off idx. induction a as [|x a IH]; intros off idx; cbn [app infos concat].
  - unfold zlen at 1 2. cbn. by rewrite !Z.add_0_r.
  - rewrite IH, zlen_app, zlen_cons. do 3 f_equal; lia.
Qed.
Lemma infos_split lines off idx before info after : infos lines off idx = before ++ info :: after ->
  exists lb line la, lines = lb ++ line :: la /\ before = infos lb off idx
    /\ info = info_of (idx + zlen lb) (off + zlen (concat lb)) line.
Proof.
  revert off idx before. induction lines as [|line lines IH]; intros off idx [|b before] H; cbn in H; try done.
  - injection H as <- _. exists [], line, lines. unfold zlen. cbn. by rewrite !Z.add_0_r.
  - injection H as <- H. apply IH in H as (lb & l & la & -> & -> & ->). exists (line :: lb), l, la.
    cbn [app infos concat]. rewrite zlen_cons, zlen_app. split_and!; [done|done|]. f_equal; lia.
Qed.
Lemma infos_length a off idx : length (infos a off idx) = length a.
Proof. revert off idx. induction a as [|x a IH]; intros off idx; cbn; [done|]. by rewrite IH. Qed.

(** A scan, line by line: [P] holds of the lines read so far. *)
Section Lines.
Context {V : Type} (visit : recordInfo -> Scan (V := V) unit) (P : list bytes -> V -> Prop) (E : error -> V -> Prop).
Context (skip : bytes) (idx : Z) (lines : list bytes) (ignore : bool) (data : bytes).
Hypothesis Hlines : comparable ignore data = (skip, idx, lines).
Definition visits_lines (w : world) : Prop := forall lb line la v' s', same_files w s'.2 -> lines = lb ++ line :: la -> P lb v' ->
  wp (visit (info_of (idx + zlen lb) (zlen skip + zlen (concat lb)) line)) (v', s') (fun r t =>
    quiet s' t.2 /\ match r with Ok _ => P (lb ++ [line]) t.1 | Err e => E e t.1 \/ disturbed s' e end).

Lemma wp_open_lines between file inode v s : (forall s, does between s (fun _ => True)) ->
  w_inodes s.2 !! f_ino file = Some inode -> i_data inode = data -> P [] v -> visits_lines s.2 ->
  wp (scan_open visit between file ignore) (v, s) (fun r t =>
    quiet s t.2 /\ match r with Ok _ => P lines t.1 | Err e => E e t.1 \/ disturbed s e end).
Proof using Hlines.
  intros Hb Hi Hd HP Hvisit. set (I := fun (seen : list recordInfo) v => P (take (length seen) lines) v).
  eapply wp_mono.
  - apply (wp_scan_open visit s.2 (infos lines (zlen skip) idx) I E) with (inode := inode); [|done|done|by rewrite Hd, visits_comparable, Hlines|done|done].
    intros before info after v' s' Hw Hall HI. apply infos_split in Hall as (lb & line & la & Hl & -> & ->). unfold I in HI.
    rewrite infos_length, Hl, take_app_length in HI. eapply wp_mono; [by eapply Hvisit|]. intros r t [Hq Hr]. split; [done|].
    destruct r; [|done]. unfold I. rewrite length_app, infos_length, Hl. cbn [length].
    rewrite Nat.add_1_r, (cons_middle line lb la), app_assoc, take_app_length'; [done|]. rewrite length_app. cbn. lia.
  - intros r t [Hq Hr]. split; [done|]. destruct r; [|done]. unfold I in Hr. rewrite infos_length, take_ge in Hr; done.
Qed.

Lemma wp_scan_lines p v s : file_data s.2 p = Some data -> P [] v -> visits_lines s.2 ->
  wp (scanRecords visit p ignore) (v, s) (fun r t =>
    quiet s t.2 /\ match r with Ok _ => P lines t.1 | Err e => E e t.1 \/ disturbed s e end).
Proof using Hlines.
  unfold file_data, inode_of. intros Hd HP Hvisit. destruct (w_names s.2 !! p) as [n|] eqn:En; [|done]. simpl in Hd.
  destruct (w_inodes s.2 !! n) as [i|] eqn:Ei; [|done]. injection Hd as Hd. unfold Contain.scanRecords.
  rewrite wp_bind. unfold on_cm at 1. rewrite wp_zoom. eapply wp_mono; [by apply does_Open|].
  intros [f|e] s1 [Hq1 Hf]; cbn [fst snd]; [|split; [done|by right]]. destruct (proj1 Hq1) as (_ & Ei1 & _).
  rewrite wp_defer. eapply wp_mono; [apply (wp_open_lines check_ctx f i v s1); [apply does_check_ctx|by rewrite Hf, Ei1|done|done|]|].
  - intros lb line la v' s' Hw. apply Hvisit. eapply same_files_trans; [apply Hq1|done].
  - intros r [v2 s2] [Hq2 Hr]. cbn [fst snd] in *. unfold on_cm. rewrite wp_zoom. eapply wp_mono; [apply does_Close|].
    intros _ s3 [Hq3 _]. cbn [fst snd]. split; [eapply quiet_trans; [exact Hq1|by eapply quiet_trans]|].
    destruct r; [done|]. destruct Hr; [by left|right; by eapply quiet_calm].
Qed.
End Lines.

(** ** Occurrences *)

Definition occurs (needle lines : list bytes) : Prop := exists pre post, lines = pre ++ needle ++ post.

Lemma occurs_snoc needle lines line : occurs needle (lines ++ [line]) -> occurs needle lines \/ needle `suffix_of` (lines ++ [line]).
Proof.
  intros (pre & post & H). destruct post as [|x post _] using rev_ind; [right; exists pre; by rewrite H, app_nil_r|].
  left. rewrite !app_assoc in H. apply app_inj_tail in H as [-> _]. exists pre, post. by rewrite app_assoc.
Qed.
Lemma fingerprints_suffix needle lines : fits (map fingerprint needle) (map fingerprint lines) (length (map fingerprint needle)) <->
  exists pre last, lines = pre ++ last /\ map fingerprint last = map fingerprint needle.
Proof.
  unfold fits. rewrite take_ge by done. split.
  - intros [_ [u Hu]]. apply map_eq_app in Hu as (pre & last & -> & _ & Hl). by exists pre, last.
  - intros (pre & last & -> & Hl). split; [done|]. exists (map fingerprint pre). by rewrite map_app, Hl.
Qed.
Lemma fingerprints_sizes a b : map fingerprint a = map fingerprint b -> zlen (concat a) = zlen (concat b) /\ length a = length b.
Proof.
  revert b. induction a as [|x a IH]; intros [|y b] H; cbn in *; try done. injection H as _ Hs H.
  apply IH in H as [H1 H2]. rewrite !zlen_app. split; [lia|by f_equal].
Qed.
Lemma fingerprints_concat a b : map fingerprint a = map fingerprint b -> concat a = concat b -> a = b.
Proof.
  revert b. induction a as [|x a IH]; intros [|y b] H Hc; cbn in *; try done. injection H as _ Hs H.
  apply app_inj_1 in Hc as [-> Hc]; [|unfold zlen in Hs; lia]. f_equal. by apply IH.
Qed.

(** ** The first scan *)

Definition gathered (skip : bytes) (lb : list bytes) (v : needle_vars) : Prop :=
  nv_needle v = map fingerprint lb
  /\ match lb with
     | [] => nv_start v = -1
     | _ => nv_start v = zlen skip /\ nv_end v = zlen skip + zlen (concat lb)
     end.

Lemma wp_collect p ignore data s :
  let '(skip, idx, lines) := comparable ignore data in
  file_data s.2 p = Some data ->
  wp (scanRecords collect p ignore) ({| nv_needle := []; nv_start := -1; nv_end := 0 |}, s) (fun r t =>
    quiet s t.2 /\ match r with Ok _ => gathered skip lines t.1 | Err e => disturbed s e end).
Proof.
  destruct (comparable ignore data) as [[skip idx] lines] eqn:Ec. intros Hd.
  eapply wp_mono; [apply (wp_scan_lines collect (gathered skip) (fun _ _ => False) skip idx lines ignore data Ec); [done|done|]|].
  - intros lb line la v' s' _ _ [Hn Hv]. unfold collect, set_var. rewrite wp_modify. split; [apply quiet_refl|].
    unfold gathered. cbn [fst snd nv_needle nv_start nv_end info_of ri_fingerprint ri_start ri_end].
    rewrite Hn, map_app, concat_app, zlen_app. split; [done|]. cbn [concat]. rewrite app_nil_r.
    pose proof (zlen_nonneg skip). destruct lb as [|x lb]; cbn [app concat] in *.
    + rewrite Hv. cbn. unfold zlen at 2. cbn. split; [lia|]. rewrite zlen_nil. lia.
    + destruct Hv as [-> _]. replace (zlen skip <? 0) with false by lia. split; [done|]. lia.
  - intros r t [Hq Hr]. split; [done|]. destruct r; [done|]. by destruct Hr.
Qed.

(** ** The search *)

Section Search.
Context (pa pb : path) (a b : bytes) (ignore : bool) (result : Result).
Context (skipa skipb : bytes) (idxa idxb : Z) (la lb : list bytes).
Context (Ha : comparable ignore a = (skipa, idxa, la)) (Hb : comparable ignore b = (skipb, idxb, lb)).
Context (Hne : la <> []) (Hbytes : re_ContainedBytes result = zlen (concat la)).
Let needle := map fingerprint la.

(** The search over the lines [seen]. *)
Definition searching (seen : list bytes) (v : search_vars) : Prop :=
  longest needle (map fingerprint seen) (sv_matched v) /\ sv_result v = result /\ ~ occurs la seen.
(** What [mark_found] records for the first occurrence. *)
Definition found_first (e : error) (v : search_vars) : Prop :=
  e = errContainmentFound /\ exists pre post, lb = pre ++ la ++ post
    /\ (forall pre' post', lb = pre' ++ la ++ post' -> (length pre <= length pre')%nat)
    /\ exists record, ri_index record = idxb + zlen pre + zlen la - 1
         /\ ri_end record = zlen skipb + zlen (concat pre) + zlen (concat la)
         /\ sv_result v = mark_found record needle (zlen skipb + zlen (concat pre)) result.

Lemma needle_pos : (0 < length needle)%nat.
Proof using Hne. unfold needle. rewrite length_map. apply Nat.neq_0_lt_0. by intros ?%nil_length_inv. Qed.

Lemma in_file ignore' d skip idx lines pre mid post : comparable ignore' d = (skip, idx, lines) -> lines = pre ++ mid ++ post ->
  slice (zlen skip + zlen (concat pre)) (zlen skip + zlen (concat pre) + zlen (concat mid)) d = concat mid
  /\ zlen skip + zlen (concat pre) + zlen (concat mid) <= zlen d.
Proof.
  intros Hc Hl. pose proof (comparable_concat ignore' d) as Hd. rewrite Hc in Hd. cbn [fst snd] in Hd.
  rewrite Hl, !concat_app in Hd. rewrite <- Hd. split.
  - rewrite app_assoc. apply slice_app_mid; [by rewrite zlen_app|lia].
  - rewrite !zlen_app. pose proof (zlen_nonneg (concat post)). lia.
Qed.

Lemma wp_search seen line rest v s : file_data s.2 pa = Some a -> file_data s.2 pb = Some b ->
  lb = seen ++ line :: rest -> searching seen v ->
  wp (search pa pb needle (zlen skipa) (info_of (idxb + zlen seen) (zlen skipb + zlen (concat seen)) line)) (v, s)
    (fun r t => quiet s t.2 /\ match r with Ok _ => searching (seen ++ [line]) t.1 | Err e => found_first e t.1 \/ disturbed s e end).
Proof using Ha Hb Hne Hbytes.
  intros Hda Hdb Hlb (Hm & Hres & Hocc). pose proof needle_pos as Hpos.
  pose proof (buildPrefixTable_spec needle Hpos) as Htab. unfold search. rewrite wp_bind, wp_get. cbn [fst snd].
  unfold set_matched, set_var. rewrite wp_bind, wp_modify. cbn [fst snd ri_fingerprint info_of].
  assert (map fingerprint (seen ++ [line]) = map fingerprint seen ++ [fingerprint line]) as Hmap by by rewrite map_app.
  destruct (advance_longest needle (buildPrefixTable needle) (map fingerprint seen) (fingerprint line) (sv_matched v)) as [[Hr Hfull]|[Hlong Hnf]];
    [intros j Hj; apply Htab; destruct Hm as (_ & ? & _); lia|done|..]; rewrite <- Hmap in *.
  2: { replace (_ =? _)%nat with false by (symmetry; apply Nat.eqb_neq; destruct Hlong as (_ & ? & _); lia).
       cbn [negb]. rewrite wp_ret. split; [apply quiet_refl|]. split_and!; [done|done|].
       intros [?|[pre Hs]]%occurs_snoc; [done|]. apply Hnf. apply fingerprints_suffix. by exists pre, la. }
  rewrite Hr, Nat.eqb_refl. cbn [negb]. apply fingerprints_suffix in Hfull as (pre & mid & Hsplit & Hfp).
  destruct (fingerprints_sizes _ _ Hfp) as [Hsz Hlen].
  assert (lb = pre ++ mid ++ rest) as Hlb2 by (rewrite Hlb, (cons_middle line seen rest), app_assoc, Hsplit, <- app_assoc; done).
  assert (zlen skipb + zlen (concat seen) + zlen line = zlen skipb + zlen (concat pre) + zlen (concat mid)) as Hend.
  { rewrite <- !Z.add_assoc. f_equal. rewrite <- !zlen_app, <- concat_app, <- Hsplit, concat_app. cbn. by rewrite app_nil_r. }
  cbn [ri_end info_of]. rewrite Hres, Hbytes, Hend.
  replace (zlen skipb + zlen (concat pre) + zlen (concat mid) - zlen (concat la)) with (zlen skipb + zlen (concat pre)) by lia.
  destruct (in_file ignore b skipb idxb lb pre mid rest Hb Hlb2) as [Hsb Hlenb].
  destruct (in_file ignore a skipa idxa la [] la [] Ha ltac:(by rewrite app_nil_r)) as [Hsa Hlena]. cbn [concat] in Hsa, Hlena.
  rewrite (zlen_nil (A := byte)), Z.add_0_r in Hsa, Hlena. pose proof (zlen_nonneg skipa). pose proof (zlen_nonneg skipb).
  pose proof (zlen_nonneg (concat pre)). pose proof (zlen_nonneg (concat la)).
  rewrite wp_bind. unfold on_cm at 1. rewrite wp_zoom. cbn [snd].
  pose proof (does_equalFileRanges pa pb a b (zlen skipa) (zlen skipb + zlen (concat pre)) (zlen (concat la)) s Hda Hdb
    ltac:(lia) ltac:(lia) ltac:(lia) ltac:(lia) ltac:(lia)) as Hcmp. unfold does in Hcmp. eapply wp_mono; [exact Hcmp|].
  intros [exact|e] s2 [Hq2 Hx]; cbn [fst snd]; [|split; [done|by right]]. subst exact. unfold range_equal.
  rewrite Hsa, <- Hsz, Hsb. case_bool_decide as Heq.
  - apply eq_sym, fingerprints_concat in Heq as ->; [|done]. rewrite wp_bind, wp_modify, wp_fail. split; [done|]. left. split; [done|].
    exists pre, rest. split; [done|]. split.
    + intros pre' post' Hl. destruct (decide (length pre <= length pre')%nat) as [|Hn]; [done|]. exfalso. apply Hocc.
      assert (length pre + length la = length seen + 1)%nat as Hls by (rewrite <- !length_app, <- Hsplit, length_app; done).
      assert (take (length seen) lb = seen) as Htk by (rewrite Hlb; apply take_app_length).
      exists pre', (take (length seen - length (pre' ++ la)) post'). etransitivity; [symmetry; exact Htk|].
      rewrite Hl, app_assoc, take_app_ge by (rewrite length_app; lia). by rewrite app_assoc.
    + eexists. split; [|split; [|reflexivity]]; cbn [ri_index ri_end info_of]; [|lia].
      assert (zlen seen + 1 = zlen pre + zlen la); [|lia].
      unfold zlen. rewrite <- (Nat2Z.inj_add (length pre)), <- length_app, <- Hsplit, length_app. cbn. lia.
  - rewrite wp_modify. split; [done|]. split_and!; [|done|].
    + cbn [fst sv_matched]. apply restart_longest; [done|]. apply fingerprints_suffix. by exists pre, mid.
    + intros [?|[u Hs]]%occurs_snoc; [done|]. apply Heq. rewrite Hsplit in Hs. apply app_inj_2 in Hs as [_ ->]; done.
Qed.
End Search.

(** What a positive answer says. *)
Record located (skipb : bytes) (idxb : Z) (la lb : list bytes) (b : bytes) (r : Result) : Prop := {
  lo_place : exists pre post, lb = pre ++ la ++ post
    /\ (forall pre' post', lb = pre' ++ la ++ post' -> (length pre <= length pre')%nat)
    /\ re_ContainerStartRecord r = idxb + zlen pre /\ re_ContainerStartByte r = zlen skipb + zlen (concat pre);
  lo_records : re_ContainerEndRecord r = re_ContainerStartRecord r + zlen la - 1;
  lo_bytes : slice (re_ContainerStartByte r) (re_ContainerEndByte r) b = concat la;
}.

Lemma located_of_found ignore b skipb idxb la lb result e v : comparable ignore b = (skipb, idxb, lb) ->
  found_first result skipb idxb la lb e v -> located skipb idxb la lb b (sv_result v) /\ re_Contained (sv_result v) = true.
Proof.
  intros Hb (_ & pre & post & Hl & Hmin & record & Hi & He & ->). split; [|done].
  assert (zlen (map fingerprint la) = zlen la) as Hz by (unfold zlen; by rewrite length_map).
  split; cbn [mark_found re_ContainerStartRecord re_ContainerStartByte re_ContainerEndRecord re_ContainerEndByte].
  - exists pre, post. split_and!; [done|done|lia|done].
  - lia.
  - rewrite He. by apply (in_file ignore b skipb idxb lb pre la post).
Qed.

Lemma check_spec contained container ignore a b s res s' :
  in_Path contained <> [] -> in_Path container <> [] ->
  file_data s.2 (in_Path contained) = Some a -> file_data s.2 (in_Path container) = Some b ->
  Check sha256 Unmarshal_type contained container {| op_IgnoreSessionMeta := ignore |} s = (res, s') ->
  let la := (comparable ignore a).2 in
  let '(skipb, idxb, lb) := comparable ignore b in
  quiet s s'
  /\ match res with
     | Ok r => la <> [] /\ (re_Contained r = true <-> occurs la lb)
               /\ re_ContainedRecords r = zlen la /\ re_ContainedBytes r = zlen (concat la) /\ re_VerifiedExact r = re_Contained r
               /\ (re_Contained r = true -> located skipb idxb la lb b r)
     | Err _ => la = [] \/ ~ calm s
     end.
Proof.
  intros Hpa Hpb Hda Hdb Hrun. pose proof (wp_collect (in_Path contained) ignore a s) as H1.
  destruct (comparable ignore a) as [[skipa idxa] la] eqn:Ea, (comparable ignore b) as [[skipb idxb] lb] eqn:Eb. cbn [snd].
  specialize (H1 Hda). unfold Check in Hrun. rewrite !bool_decide_eq_false_2 in Hrun by done. cbn [orb op_IgnoreSessionMeta] in Hrun.
  unfold bind at 1, with_var at 1 in Hrun. unfold wp in H1.
  destruct (scanRecords collect _ ignore _) as [r1 [v1 s1]] eqn:E1. cbn [fst snd] in H1. destruct H1 as [Hq1 Hr1].
  destruct r1 as [u|e]; [|injection Hrun as <- <-; split; [exact Hq1|right; apply Hr1]]. destruct Hr1 as [Hneedle Hpos].
  destruct (zlen (nv_needle v1) =? 0) eqn:Ez; zbool.
  { injection Hrun as <- <-. split; [exact Hq1|]. left. rewrite Hneedle in Ez. apply zlen_0_nil in Ez. by apply map_eq_nil in Ez. }
  assert (la <> []) as Hne by (intros ->; by rewrite Hneedle in Ez).
  assert (nv_start v1 = zlen skipa /\ nv_end v1 = zlen skipa + zlen (concat la)) as [Hst Hen] by by destruct la.
  set (result := Build_Result _ _ _ _ _ _ _ _ _ _ _ _ _) in Hrun.
  assert (re_ContainedBytes result = zlen (concat la)) as Hbytes by (cbn; lia).
  assert (re_ContainedRecords result = zlen la) as Hrecs by (cbn; rewrite Hneedle; unfold zlen; by rewrite length_map).
  pose proof (wp_scan_lines (search (in_Path contained) (in_Path container) (map fingerprint la) (zlen skipa))
    (searching result la) (found_first result skipb idxb la lb) skipb idxb lb ignore b Eb (in_Path container)
    {| sv_matched := 0; sv_result := result |} s1) as H2.
  assert (forall p d t, file_data s.2 p = Some d -> same_files s1.2 t -> file_data t p = Some d) as Hkeep.
  { intros p d t Hd Ht. rewrite (same_files_data s1.2 t p Ht), (same_files_data s.2 s1.2 p (proj1 Hq1)). done. }
  specialize (H2 (Hkeep _ _ _ Hdb (same_files_refl _))). rewrite Hneedle, Hst in Hrun. unfold bind, with_var in Hrun. unfold wp in H2.
  destruct (scanRecords (search _ _ _ _) _ ignore _) as [r2 [v2 s2]] eqn:E2. cbn [fst snd] in H2.
  destruct H2 as [Hq2 Hr2].
  { split_and!; [|done|by intros ([|x pre] & post & H); destruct la]. split_and!; [apply fits_0|by apply needle_pos|].
    intros k _ Hk%fits_length. done. }
  { intros lb0 line rest v' t Ht Hl Hs. eapply wp_search; eauto. }
  pose proof (quiet_trans _ _ _ Hq1 Hq2) as Hsame.
  destruct r2 as [u2|e2].
  - destruct Hr2 as (_ & Hres & Hocc). injection Hrun as <- <-. rewrite Hres. split_and!; try done.
  - destruct Hr2 as [Hf|Hnc].
    + pose proof (located_of_found _ _ _ _ _ _ _ _ _ Eb Hf) as [Hloc Hcon]. destruct Hf as (-> & pre & post & Hl & _ & record & _ & _ & Hres).
      cbn in Hrun. injection Hrun as <- <-. split; [done|]. split_and!; [done| |by rewrite Hres|by rewrite Hres|by rewrite Hres|done].
      rewrite Hcon. split; [|done]. intros _. by exists pre, post.
    + rewrite (proj2 Hnc) in Hrun. injection Hrun as <- <-. split; [done|]. right. by apply (quiet_calm s s1 e2).
Qed.
(** C19. The containment check is exact.  [Check] reads the two files and changes
    nothing.  When it answers, the answer is positive exactly when the records of
    the first file (without a leading session record, if asked) occur in a row in
    the second one, whatever collisions SHA-256 may have, and the reported position
    is that of the first occurrence and holds exactly the bytes of the first file.
    It fails only if the first file has no record to compare, or if it was
    cancelled or a read failed. *)
Theorem containment_exact contained container ignore a b s res s' :
  in_Path contained <> [] -> in_Path container <> [] ->
  file_data s.2 (in_Path contained) = Some a -> file_data s.2 (in_Path container) = Some b ->
  Check sha256 Unmarshal_type contained container {| op_IgnoreSessionMeta := ignore |} s = (res, s') ->
  let la := (comparable ignore a).2 in
  let '(skipb, idxb, lb) := comparable ignore b in
  same_files s.2 s'.2
  /\ match res with
     | Ok r => la <> [] /\ (re_Contained r = true <-> occurs la lb)
               /\ re_ContainedRecords r = zlen la /\ re_ContainedBytes r = zlen (concat la)
               /\ (re_Contained r = true -> located skipb idxb la lb b r)
     | Err _ => la = [] \/ ~ calm s
     end.
Proof.
  intros Hpa Hpb Hda Hdb Hrun. pose proof (check_spec contained container ignore a b s res s' Hpa Hpb Hda Hdb Hrun) as H. cbv zeta in *.
  destruct (comparable ignore b) as [[skipb idxb] lb]. destruct H as [[Hsame _] H]. split; [done|].
  destruct res; [|done]. by destruct H as (? & ? & ? & ? & _ & ?).
Qed.
End ContainLemmas.

(** ** A sample

    A digest under which all records collide, a session record in front of the
    container, and a needle that overlaps itself. *)

Definition flat_digest (d : bytes) : bytes := [].
Definition sample_type (d : bytes) : result string :=
  if bool_decide (d = [Byte.x6d]) then Ok "session_meta"%string else Err (errors_new "invalid character").
Definition sample_needle : bytes := [Byte.x61; Byte.x0a; Byte.x61; Byte.x0a; Byte.x62].
Definition sample_haystack : bytes :=
  [Byte.x6d; Byte.x0a; Byte.x61; Byte.x0a; Byte.x61; Byte.x0a; Byte.x61; Byte.x0a; Byte.x62].
Definition sample_world : world :=
  {| w_names := {[ ["a"%string] := 0%nat; ["b"%string] := 1%nat ]};
     w_inodes := {[ 0%nat := {| i_data := sample_needle; i_mtime := 0; i_synced := true |};
                    1%nat := {| i_data := sample_haystack; i_mtime := 0; i_synced := true |} ]};
     w_dirs := ∅; w_durable := ∅; w_next := 2; w_clock := 0; w_faults := []; w_locked := ∅ |}.
Definition sample_inputs : Input * Input :=
  ({| in_ID := "x"; in_Path := ["a"%string] |}, {| in_ID := "y"; in_Path := ["b"%string] |}).
Definition sample_check : result Result * (Ctx * world) :=
  Check flat_digest sample_type sample_inputs.1 sample_inputs.2 {| op_IgnoreSessionMeta := true |} (None, sample_world).

Lemma containment_exact_witness : exists r, sample_check.1 = Ok r /\ re_Contained r = true
  /\ re_ContainerStartRecord r = 2 /\ occurs (comparable sample_type true sample_needle).2 (comparable sample_type true sample_haystack).2.
Proof.
  assert (match sample_check.1 with Ok r => re_Contained r && (re_ContainerStartRecord r =? 2) | Err _ => false end = true) as E
    by (vm_compute; reflexivity).
  destruct sample_check as [res s'] eqn:Hrun. cbn [fst] in E.
  pose proof (containment_exact flat_digest sample_type sample_inputs.1 sample_inputs.2 true sample_needle sample_haystack
    (None, sample_world) res s') as H.
  destruct res as [r|e]; [|discriminate E]. apply andb_true_iff in E as [E1 E2].
  destruct (comparable sample_type true sample_haystack) as [[skipb idxb] lb].
  destruct H as (_ & _ & Hiff & _).
  - discriminate.
  - discriminate.
  - reflexivity.
  - reflexivity.
  - exact Hrun.
  - exists r. split; [reflexivity|]. split; [exact E1|]. split; [apply Z.eqb_eq; exact E2|]. apply Hiff. exact E1.
Defined.
