(* ===== verification/DigestSet.v ===== *)
(** Counting distinct digests on disk: [src/internal/fold/digestset.go].

    Digests are appended to a file; [Count] sorts them in runs that fit in memory and
    merges the runs, at most 64 at a time, with a priority queue.

    Buffered readers and writers show their effects on the files; any read may fail.
    [sort.Slice] is a merge sort and [container/heap] a list from which the least
    element under [Less] is removed: [Less] is a strict total order on the runs of a
    merge, so both are determined.  The deferred closes of a merge are left out: their
    errors are ignored and they change nothing.  The directory made by [os.MkdirTemp] is an argument, and its
    removal by [Close] is not modelled. *)
From S2P Require Import Prelude GoStd Effects Os Mutation Directory ObjectReader Context.
From stdpp Require Import pretty sorting.
From Stdlib Require Import Ascii.
Local Open Scope Z_scope.

Definition digestBytes : Z := 32.
Definition digestChunkCount : Z := 2 ^ 20.
Definition maxMergeRunInputs : nat := 64.

Record diskDigestSet := { ds_directory : path; ds_input : File; ds_closed : bool }.

(** [newDiskDigestSet] in a new directory. *)
Definition newDiskDigestSet (directory : path) : OS diskDigestSet :=
  let* input := os_Create ("input.bin"%string :: directory) true false in
  ret {| ds_directory := directory; ds_input := input; ds_closed := false |}.

Definition set_Add (s : diskDigestSet) (value : string) : OS diskDigestSet :=
  if ds_closed s then fail (errors_new "digest set is closed")
  else
    match hex_DecodeString value with
    | Some digest =>
        if negb (zlen digest =? digestBytes) then fail (errors_new "invalid SHA-256 %q")
        else
          let* (_, err, input) := file_Write (ds_input s) digest in
          match err with
          | Some e => fail e
          | None => ret {| ds_directory := ds_directory s; ds_input := input; ds_closed := false |}
          end
    | None => fail (errors_new "invalid SHA-256 %q")
    end.

(** ** Names *)

Fixpoint pad (n : nat) : string := match n with O => EmptyString | S n => String "0"%char (pad n) end.
(** [%06d] *)
Definition decimal6 (n : nat) : string :=
  let d : string := pretty n in String.append (pad (6 - String.length d)) d.
Definition run_name (n : nat) : string := String.append "run-" (String.append (decimal6 n) ".bin").
Definition merged_name (n : nat) : string := String.append "merged-" (String.append (decimal6 n) ".bin").

(** ** Runs *)

(** [io.ReadFull] of one digest; [None] at the end. *)
Definition read_digest (rest : bytes) : OS (option (bytes * bytes)) := syscall (lift (
  match rest with
  | [] => Ok None
  | _ => if zlen rest <? digestBytes then Err io_ErrUnexpectedEOF
         else Ok (Some (ztake digestBytes rest, zdrop digestBytes rest))
  end)).

Fixpoint read_values (fuel : nat) (rest : bytes) (values : list bytes) : OS (list bytes * bytes) :=
  match fuel with
  | O => fail (Sentinel "fuel exhausted")
  | S fuel =>
      if zlen values <? digestChunkCount then
        let* next := read_digest rest in
        match next with
        | Some (digest, rest) => read_values fuel rest (values ++ [digest])
        | None => ret (values, rest)
        end
      else ret (values, rest)
  end.

Definition bytes_le (a b : bytes) : Prop := bytes_Compare a b <> Gt.
#[export] Instance bytes_le_dec : RelDecision bytes_le.
Proof. intros a b. unfold bytes_le. apply _. Defined.

(** The loop that skips a digest equal to the previous one. *)
Fixpoint without_repeats (previous : option bytes) (values : list bytes) : list bytes :=
  match values with
  | [] => []
  | digest :: values =>
      if bool_decide (previous = Some digest) then without_repeats previous values
      else digest :: without_repeats (Some digest) values
  end.

Definition write_digests (f : File) (digests : list bytes) : OS unit :=
  let* (_, err, f) := file_Write f (concat digests) in
  match err with
  | Some e => ignore (file_Close f) ;;; fail e
  | None => ret tt
  end.

Fixpoint create_runs (fuel : nat) (directory : path) (rest : bytes) (runs : list path) : CM (list path) :=
  match fuel with
  | O => fail (Sentinel "fuel exhausted")
  | S fuel =>
      check_ctx ;;;
      let* (values, rest) := on_world (read_values (S (length rest)) rest []) in
      match values with
      | [] => ret runs
      | _ =>
          let p := run_name (length runs) :: directory in
          let* file := on_world (os_Create p true false) in
          on_world (write_digests file (without_repeats None (merge_sort bytes_le values))) ;;;
          on_world (file_Close file) ;;;
          create_runs fuel directory rest (runs ++ [p])
      end
  end.

(** ** Merging *)

Record digestRun := { dr_rest : bytes; dr_digest : bytes; dr_ordinal : nat }.
Definition Less (l r : digestRun) : bool :=
  match bytes_Compare (dr_digest l) (dr_digest r) with
  | Lt => true
  | Eq => (dr_ordinal l <? dr_ordinal r)%nat
  | Gt => false
  end.
(** [heap.Pop] *)
Fixpoint pop_min (queue : list digestRun) : option (digestRun * list digestRun) :=
  match queue with
  | [] => None
  | run :: queue =>
      match pop_min queue with
      | None => Some (run, [])
      | Some (m, others) => if Less m run then Some (m, run :: others) else Some (run, m :: others)
      end
  end.

(** [io.ReadFull(run.reader, run.digest[:])] and [heap.Push] *)
Definition push_next (rest : bytes) (ordinal : nat) (queue : list digestRun) : OS (list digestRun) :=
  let* next := read_digest rest in
  match next with
  | Some (digest, rest) => ret (queue ++ [{| dr_rest := rest; dr_digest := digest; dr_ordinal := ordinal |}])
  | None => ret queue
  end.

Definition file_bytes (f : File) (w : world) : bytes :=
  match w_inodes w !! f_ino f with Some i => i_data i | None => [] end.

Fixpoint open_runs (paths : list path) (ordinal : nat) (queue : list digestRun) : OS (list digestRun) :=
  match paths with
  | [] => ret queue
  | p :: paths =>
      let* file := os_Open p in
      let* w := get in
      let* queue := push_next (file_bytes file w) ordinal queue in
      open_runs paths (S ordinal) queue
  end.

(** The loop of [mergeDigestRuns]: the count and the digests written so far. *)
Fixpoint merge_loop (fuel : nat) (queue : list digestRun) (count : Z) (previous : option bytes) (out : list bytes)
  : CM (Z * list bytes) :=
  match pop_min queue with
  | None => ret (count, out)
  | Some (run, queue) =>
      match fuel with
      | O => fail (Sentinel "fuel exhausted")
      | S fuel =>
          check_ctx ;;;
          let new := negb (bool_decide (previous = Some (dr_digest run))) in
          let count := if new then count + 1 else count in
          let out := if new then out ++ [dr_digest run] else out in
          let* queue := on_world (push_next (dr_rest run) (dr_ordinal run) queue) in
          merge_loop fuel queue count (Some (dr_digest run)) out
      end
  end.
Definition queue_bytes (queue : list digestRun) : nat :=
  foldr (fun run n => (S (length (dr_rest run)) + n)%nat) 0%nat queue.

Definition mergeDigestRuns (paths : list path) (outputPath : option path) : CM Z :=
  let* output := match outputPath with
                 | Some p => let* file := on_world (os_Create p true false) in ret (Some file)
                 | None => ret None
                 end in
  let* queue := on_world (open_runs paths 0 []) in
  let* (count, out) := merge_loop (queue_bytes queue) queue 0 None [] in
  match output with
  | Some file => on_world (write_digests file out) ;;; ret count
  | None => ret count
  end.

(** ** Counting *)

Fixpoint remove_all (paths : list path) : OS unit :=
  match paths with
  | [] => ret tt
  | p :: paths => ignore (os_Remove p) ;;; remove_all paths
  end.

(** One round: groups of at most 64 runs. *)
Fixpoint merge_groups (fuel : nat) (directory : path) (runs next : list path) : CM (list path) :=
  match runs with
  | [] => ret next
  | _ =>
      match fuel with
      | O => fail (Sentinel "fuel exhausted")
      | S fuel =>
          let group := take maxMergeRunInputs runs in
          let p := merged_name (length next) :: directory in
          mergeDigestRuns group (Some p) ;;;
          on_world (remove_all group) ;;;
          merge_groups fuel directory (drop maxMergeRunInputs runs) (next ++ [p])
      end
  end.

Fixpoint merge_rounds (fuel : nat) (directory : path) (runs : list path) : CM (list path) :=
  if (maxMergeRunInputs <? length runs)%nat then
    match fuel with
    | O => fail (Sentinel "fuel exhausted")
    | S fuel =>
        let* next := merge_groups (length runs) directory runs [] in
        merge_rounds fuel directory next
    end
  else ret runs.

Definition set_Count (s : diskDigestSet) : CM Z :=
  if ds_closed s then fail (errors_new "digest set is closed")
  else
    on_world (file_Sync (ds_input s)) ;;;
    on_world (syscall (ret tt)) ;;; (* [Seek(0, io.SeekStart)] *)
    let* w := get in
    let data := file_bytes (ds_input s) w.2 in
    let* runs := create_runs (S (length data)) (ds_directory s) data [] in
    let* runs := merge_rounds (length runs) (ds_directory s) runs in
    match runs with
    | [] => ret 0
    | _ => mergeDigestRuns runs None
    end.

(** ** Names are distinct *)

Fixpoint digits_value (acc : N) (s : string) : N :=
  match s with
  | EmptyString => acc
  | String c s => digits_value (acc * 10 + (N_of_ascii c - 48)) s
  end.
Lemma digits_value_char x : (x < 10)%N -> (N_of_ascii (pretty_N_char x) - 48 = x)%N.
Proof.
  intros Hx. assert (x = 0 \/ x = 1 \/ x = 2 \/ x = 3 \/ x = 4 \/ x = 5 \/ x = 6 \/ x = 7 \/ x = 8 \/ x = 9)%N as H by lia.
  naive_solver.
Qed.
Lemma digits_value_go x : forall s, digits_value 0 (pretty_N_go x s) = digits_value x s.
Proof.
  induction (N.lt_wf_0 x) as [x _ IH]. intros s. destruct (decide (x = 0)%N) as [->|Hx]; [done|].
  rewrite pretty_N_go_step by lia. rewrite IH by (apply N.div_lt; lia). cbn [digits_value].
  rewrite digits_value_char by (apply N.mod_lt; lia). f_equal. rewrite N.mul_comm. symmetry. apply N.div_mod. lia.
Qed.
Lemma digits_value_pretty (n : nat) : digits_value 0 (pretty n) = N.of_nat n.
Proof.
  unfold pretty, pretty_nat, pretty, pretty_N. case_decide as H; [by rewrite H|]. apply digits_value_go.
Qed.
Lemma digits_value_pad k s : digits_value 0 (String.append (pad k) s) = digits_value 0 s.
Proof. induction k as [|k IH]; [done|]. exact IH. Qed.
#[export] Instance decimal6_inj : Inj (=) (=) decimal6.
Proof.
  intros a b H. apply (f_equal (digits_value 0)) in H. unfold decimal6 in H. rewrite !digits_value_pad, !digits_value_pretty in H. lia.
Qed.
#[export] Instance run_name_inj : Inj (=) (=) run_name.
Proof. intros a b H. injection H as H. apply (suffix_inj (decimal6 a) (decimal6 b)) in H. by apply (inj decimal6). Qed.
#[export] Instance merged_name_inj : Inj (=) (=) merged_name.
Proof. intros a b H. injection H as H. apply (suffix_inj (decimal6 a) (decimal6 b)) in H. by apply (inj decimal6). Qed.

(** ** Sorted runs *)

Lemma bytes_le_lt a b : bytes_le a b <-> a = b \/ bytes_lt a b.
Proof.
  unfold bytes_le, bytes_lt. destruct (bytes_Compare a b) eqn:E.
  - apply bytes_Compare_eq in E. naive_solver.
  - naive_solver.
  - split; [done|]. intros [->|?]; [|done]. rewrite (proj2 (bytes_Compare_eq b b)) in E; done.
Qed.
#[export] Instance bytes_le_trans : Transitive bytes_le.
Proof.
  intros a b c. rewrite !bytes_le_lt. intros [->|H1] [->|H2]; [by left|by right|by right|right; by etrans].
Qed.
#[export] Instance bytes_le_total : Total bytes_le.
Proof.
  intros a b. unfold bytes_le. destruct (bytes_Compare a b) eqn:E; [by left|by left|].
  right. by rewrite bytes_Compare_antisym, E.
Qed.

Definition sorted_run (l : list bytes) : Prop := StronglySorted bytes_lt l /\ Forall (fun d => zlen d = digestBytes) l.

Lemma sorted_run_NoDup l : StronglySorted bytes_lt l -> NoDup l.
Proof.
  induction 1 as [|x l Hs IH Hall]; constructor; [|done]. intros Hin. rewrite Forall_forall in Hall.
  exact (bytes_lt_irrefl x (Hall x Hin)).
Qed.
(** A sorted run counts the distinct elements. *)
Lemma sorted_run_count l ds : StronglySorted bytes_lt l -> (forall x, x ∈ l <-> x ∈ ds) ->
  length l = length (remove_dups ds).
Proof.
  intros Hs Hiff. apply Permutation_length, NoDup_Permutation; [by apply sorted_run_NoDup|apply NoDup_remove_dups|].
  intros x. by rewrite elem_of_remove_dups.
Qed.

Lemma without_repeats_spec l : forall previous, StronglySorted bytes_le l ->
  (forall p x, previous = Some p -> x ∈ l -> bytes_le p x) ->
  StronglySorted bytes_lt (without_repeats previous l)
  /\ (forall x, x ∈ without_repeats previous l <-> x ∈ l /\ previous <> Some x).
Proof.
  induction l as [|d l IH]; intros previous Hs Hp; cbn [without_repeats]; [split; [constructor|set_solver]|].
  apply StronglySorted_inv in Hs as [Hs Hall]. rewrite Forall_forall in Hall. case_bool_decide as Heq.
  - destruct (IH previous Hs) as [H1 H2]; [intros p x Ep Hx; apply (Hp p x Ep); by right|]. split; [done|].
    intros x. rewrite H2, elem_of_cons. subst previous. split; [intros [? ?]; auto|].
    intros [[->|Hx] Hne]; [by destruct Hne|done].
  - destruct (IH (Some d) Hs) as [H1 H2]; [intros p x [= <-] Hx; auto|]. split.
    + constructor; [done|]. apply Forall_forall. intros x [Hx Hne]%H2.
      destruct (proj1 (bytes_le_lt d x) (Hall x Hx)) as [->|]; [by destruct Hne|done].
    + intros x. rewrite elem_of_cons, H2, elem_of_cons. split.
      2: { intros [[->|Hx] Hne]; [by left|]. destruct (decide (x = d)) as [->|Hd]; [by left|]. right. split; [done|congruence]. }
      intros [->|[Hx Hne]]; [split; [by left|congruence]|].
      split; [by right|]. intros ->. assert (bytes_le x d) as Hle by (apply (Hp x d); [done|by left]).
      pose proof (Hall x Hx) as Hle2. apply bytes_le_lt in Hle as [->|Hlt]; [done|]. apply bytes_le_lt in Hle2 as [->|Hlt2]; [done|].
      exact (bytes_lt_irrefl x (bytes_lt_trans _ _ _ Hlt Hlt2)).
Qed.

Lemma run_of_values values : Forall (fun d => zlen d = digestBytes) values ->
  let l := without_repeats None (merge_sort bytes_le values) in sorted_run l /\ forall x, x ∈ l <-> x ∈ values.
Proof.
  intros Hv. destruct (without_repeats_spec (merge_sort bytes_le values) None) as [H1 H2];
    [apply StronglySorted_merge_sort; apply _|done|].
  assert (forall x, x ∈ without_repeats None (merge_sort bytes_le values) <-> x ∈ values) as Hiff.
  { intros x. rewrite H2, (merge_sort_Permutation bytes_le values). naive_solver. }
  split; [|done]. split; [done|]. apply Forall_forall. intros x Hx%Hiff. rewrite Forall_forall in Hv. auto.
Qed.

(** ** Reading *)

Definition digests (l : list bytes) : Prop := Forall (fun d => zlen d = digestBytes) l.

Lemma sure_read {A} (m : OS A) a s : (forall w, m w = (Ok a, w)) ->
  sure (on_world (syscall m)) s (fun r s' => same_files s.2 s'.2 /\ r = a).
Proof.
  intros Hm. destruct s as [c w]. eapply sure_mono.
  - apply (sure_world _ _ _ (fun r w' => same_files w w' /\ r = a)).
    + unfold ok_wp. apply wp_syscall; intros fs; [done|]. unfold wp. by rewrite Hm.
    + apply fine_syscall. exists a, (tick w []). by rewrite Hm.
  - by intros r s' [_ ?].
Qed.
Lemma sure_read_digest ds s : digests ds ->
  sure (on_world (read_digest (concat ds))) s (fun r s' => same_files s.2 s'.2
    /\ r = match ds with [] => None | d :: ds => Some (d, concat ds) end).
Proof.
  intros Hds. apply sure_read. intros w. destruct Hds as [|d ds Hd Hds]; [done|]. cbn [concat]. unfold lift.
  assert (0 < digestBytes) by done. destruct d as [|x d]; [by rewrite zlen_nil in Hd|]. cbn [app].
  rewrite app_comm_cons. replace (zlen ((x :: d) ++ concat ds) <? digestBytes) with false
    by (rewrite zlen_app, Hd; pose proof (zlen_nonneg (concat ds)); lia).
  by rewrite <- Hd, ztake_app_exact, zdrop_app_exact.
Qed.

Lemma sure_read_values n : forall ds values s k, digests ds -> (length (concat ds) < n)%nat ->
  Z.of_nat k = digestChunkCount - zlen values ->
  sure (on_world (read_values n (concat ds) values)) s (fun r s' => same_files s.2 s'.2
    /\ r = (values ++ take k ds, concat (drop k ds))).
Proof.
  induction n as [|n IH]; intros ds values s k Hds Hn Hk; [lia|]. cbn [read_values].
  destruct (zlen values <? digestChunkCount) eqn:E; zbool.
  - apply sure_world_bind. eapply sure_mono; [by apply sure_read_digest|]. intros r s1 [Hs1 ->].
    destruct Hds as [|d ds Hd Hds]; cbn beta iota.
    + apply sure_world_ret. split; [done|]. by rewrite take_nil, drop_nil, app_nil_r.
    + destruct k as [|k]; [lia|]. eapply sure_mono; [apply (IH _ _ _ k); [done| |]|].
      * cbn [concat] in Hn. rewrite length_app in Hn. unfold zlen, digestBytes in Hd. lia.
      * rewrite zlen_app, zlen_cons, zlen_nil. lia.
      * intros r s2 [Hs2 ->]. split; [by eapply same_files_trans|]. cbn [take drop]. by rewrite <- app_assoc.
  - apply sure_world_ret. split; [done|]. replace k with 0%nat by lia. by rewrite take_0, drop_0, app_nil_r.
Qed.

(** ** Merging *)

Lemma elem_of_concat {A} (x : A) (ll : list (list A)) : x ∈ concat ll <-> exists l, x ∈ l /\ l ∈ ll.
Proof.
  induction ll as [|l ll IH]; cbn [concat].
  - split; [by intros ?%not_elem_of_nil|by intros (l & _ & ?%not_elem_of_nil)].
  - rewrite elem_of_app, IH. split.
    + intros [Hx|(l' & Hx & Hl)]; [exists l; split; [done|by left]|exists l'; split; [done|by right]].
    + intros (l' & Hx & [->|Hl]%elem_of_cons); [by left|right; by exists l'].
Qed.

(** The queue entry [run] stands for the digests [l] still to be merged. *)
Definition run_of (run : digestRun) (l : list bytes) : Prop :=
  sorted_run l /\ exists t, l = dr_digest run :: t /\ dr_rest run = concat t.
Definition entry (ordinal : nat) (l : list bytes) : list digestRun :=
  match l with
  | [] => []
  | d :: t => [{| dr_rest := concat t; dr_digest := d; dr_ordinal := ordinal |}]
  end.
Definition pending_lists (l : list bytes) : list (list bytes) := match l with [] => [] | _ => [l] end.

Lemma sorted_run_tail d l : sorted_run (d :: l) -> sorted_run l.
Proof. intros [Hs Hd]. split; [by apply StronglySorted_inv in Hs as [? _]|by inversion Hd]. Qed.
Lemma entry_run_of ordinal l : sorted_run l -> Forall2 run_of (entry ordinal l) (pending_lists l).
Proof. intros Hl. destruct l as [|d t]; constructor; [|constructor]. split; [done|]. by exists t. Qed.
Lemma pending_lists_elem l x : x ∈ concat (pending_lists l) <-> x ∈ l.
Proof. destruct l; cbn; [done|]. by rewrite app_nil_r. Qed.

Lemma sure_push_next l ordinal queue s : sorted_run l ->
  sure (on_world (push_next (concat l) ordinal queue)) s (fun q s' => same_files s.2 s'.2 /\ q = queue ++ entry ordinal l).
Proof.
  intros [_ Hl]. unfold push_next. apply sure_world_bind. eapply sure_mono; [by apply sure_read_digest|].
  intros r s1 [Hs1 ->]. destruct l as [|d t]; apply sure_world_ret; (split; [done|]); [by rewrite app_nil_r|done].
Qed.

Lemma pop_min_None queue : pop_min queue = None -> queue = [].
Proof. destruct queue as [|r queue]; [done|]. cbn. destruct (pop_min queue) as [[m o]|]; [by destruct (Less m r)|done]. Qed.
Lemma Less_le a b : Less a b = true -> bytes_le (dr_digest a) (dr_digest b).
Proof. unfold Less, bytes_le. destruct (bytes_Compare _ _); congruence. Qed.
Lemma not_Less_le a b : Less a b = false -> bytes_le (dr_digest b) (dr_digest a).
Proof. unfold Less, bytes_le. rewrite (bytes_Compare_antisym (dr_digest a) (dr_digest b)). destruct (bytes_Compare (dr_digest a) (dr_digest b)); cbn; congruence. Qed.
Lemma pop_min_spec queue : forall run others, pop_min queue = Some (run, others) ->
  queue ≡ₚ run :: others /\ forall r, r ∈ others -> bytes_le (dr_digest run) (dr_digest r).
Proof.
  induction queue as [|r queue IH]; intros run others H; [done|]. cbn [pop_min] in H.
  destruct (pop_min queue) as [[m o]|] eqn:E.
  - destruct (IH m o eq_refl) as [Hp Hm]. destruct (Less m r) eqn:El; injection H as <- <-.
    + split; [rewrite Hp; constructor|]. intros x [->|Hx]%elem_of_cons; [by apply Less_le|auto].
    + split; [by rewrite Hp|]. intros x [->|Hx]%elem_of_cons; [by apply not_Less_le|]. etrans; [by apply not_Less_le|auto].
  - injection H as <- <-. rewrite (pop_min_None _ E). split; [done|]. intros x []%not_elem_of_nil.
Qed.
Lemma queue_bytes_perm q q' : q ≡ₚ q' -> queue_bytes q = queue_bytes q'.
Proof. unfold queue_bytes. induction 1; cbn [foldr]; lia. Qed.
Lemma queue_bytes_app q q' : queue_bytes (q ++ q') = (queue_bytes q + queue_bytes q')%nat.
Proof. unfold queue_bytes. induction q; cbn [foldr app]; lia. Qed.

Lemma sorted_run_snoc l d : sorted_run l -> zlen d = digestBytes -> (forall p, last l = Some p -> bytes_lt p d) -> sorted_run (l ++ [d]).
Proof.
  intros [Hs Hl] Hd Hlast. split; [|apply Forall_app; by split; [|constructor]].
  apply StronglySorted_app_2; [|done|by repeat constructor]. intros x y Hx ->%list_elem_of_singleton.
  destruct l as [|p l _] using rev_ind; [by apply not_elem_of_nil in Hx|]. specialize (Hlast p (last_snoc _ _)).
  apply elem_of_app in Hx as [Hx| ->%list_elem_of_singleton]; [|done]. etrans; [|exact Hlast].
  apply (StronglySorted_app_1_elem_of bytes_lt l [p]); [done|done|by left].
Qed.

Lemma sure_merge_loop fuel : forall queue Q count out s,
  Forall2 run_of queue Q -> (queue_bytes queue <= fuel)%nat -> sorted_run out -> count = zlen out ->
  (forall p x, last out = Some p -> x ∈ concat Q -> bytes_le p x) ->
  sure (merge_loop fuel queue count (last out) out) s (fun r s' => same_files s.2 s'.2
    /\ sorted_run r.2 /\ r.1 = zlen r.2 /\ forall x, x ∈ r.2 <-> x ∈ out \/ x ∈ concat Q).
Proof.
  induction fuel as [|fuel IH]; intros queue Q count out s HQ Hf Hout Hc Hle; cbn [merge_loop];
    destruct (pop_min queue) as [[run others]|] eqn:Ep.
  1: { apply pop_min_spec in Ep as [Hp _]. apply queue_bytes_perm in Hp. rewrite Hp in Hf. unfold queue_bytes in Hf. cbn [foldr] in Hf. lia. }
  1,3: apply pop_min_None in Ep as ->; inversion HQ; subst; apply sure_ret; split_and!; [done..|]; intros x; cbn;
    split; [by left|by intros [?|?%not_elem_of_nil]].
  apply pop_min_spec in Ep as [Hp Hmin].
  destruct (Permutation_Forall2 Hp HQ) as (Q' & HQp & HQ'). inversion HQ' as [|? l ? Qo Hrun Hothers]; subst.
  destruct Hrun as [Hl (t & -> & Hrest)]. set (d := dr_digest run) in *.
  assert (zlen d = digestBytes) as Hd by (destruct Hl as [_ Hl]; by inversion Hl).
  assert (forall x, x ∈ concat Q <-> x = d \/ x ∈ t \/ x ∈ concat Qo) as HinQ.
  { intros x. rewrite HQp. cbn [concat app]. by rewrite elem_of_cons, elem_of_app. }
  assert (forall x, x ∈ t \/ x ∈ concat Qo -> bytes_le d x) as Hdle.
  { intros x [Hx|Hx].
    - apply bytes_le_lt. right. destruct Hl as [Hl _]. apply StronglySorted_inv in Hl as [_ Hl]. rewrite Forall_forall in Hl. auto.
    - apply elem_of_concat in Hx as (lo & Hx & Hlo). apply list_elem_of_lookup in Hlo as [i Hi].
      destruct (Forall2_lookup_r _ _ _ _ _ Hothers Hi) as (ro & Hro & [[Hso _] (to & -> & _)]).
      etrans; [apply (Hmin ro); by apply list_elem_of_lookup; exists i|]. apply bytes_le_lt. apply elem_of_cons in Hx as [->|Hx]; [by left|right].
      apply StronglySorted_inv in Hso as [_ Hso]. rewrite Forall_forall in Hso. auto. }
  set (new := negb (bool_decide (last out = Some d))). set (out' := if new then out ++ [d] else out).
  assert (last out' = Some d /\ sorted_run out' /\ (if new then zlen out + 1 else zlen out) = zlen out'
    /\ forall x, x ∈ out' <-> x ∈ out \/ x = d) as (Hlast & Hout' & Hcnt & Hin').
  { unfold out', new. case_bool_decide as Hprev; cbn [negb].
    - split_and!; [done..|]. intros x. split; [by left|]. intros [?| ->]; [done|]. by apply last_Some_elem_of.
    - split_and!; [apply last_snoc| |by rewrite zlen_app|by intros x; rewrite elem_of_app, list_elem_of_singleton].
      apply sorted_run_snoc; [done|done|]. intros p Hlp. destruct (proj1 (bytes_le_lt p d)) as [->|]; [|done|done].
      apply Hle; [done|]. apply HinQ. by left. }
  apply sure_bind, sure_check_ctx. intros c1. apply sure_bind. rewrite Hrest.
  eapply sure_mono; [apply sure_push_next; by eapply sorted_run_tail|]. intros q s2 [Hs2 ->]. cbn [snd] in Hs2.
  rewrite Hcnt. fold out'. rewrite <- Hlast. eapply sure_mono.
  - apply (IH (others ++ entry (dr_ordinal run) t) (Qo ++ pending_lists t)); [| |done|done|].
    + apply Forall2_app; [done|]. apply entry_run_of. by eapply sorted_run_tail.
    + apply queue_bytes_perm in Hp. rewrite queue_bytes_app. unfold queue_bytes in Hp at 2. cbn [foldr] in Hp. fold (queue_bytes others) in Hp.
      rewrite Hrest in Hp. rewrite Hp in Hf. destruct t as [|d2 t]; cbn [entry]; unfold queue_bytes at 2; cbn [foldr dr_rest]; [lia|].
      assert (zlen d2 = 32) as Hd2 by (destruct Hl as [_ Hl]; by inversion Hl as [|? ? ? Hl2]; inversion Hl2).
      cbn [concat] in Hf. rewrite length_app in Hf. unfold zlen in Hd2. lia.
    + intros p x Hp' Hx. rewrite Hlast in Hp'. injection Hp' as <-. apply Hdle.
      rewrite concat_app, elem_of_app, pending_lists_elem in Hx. tauto.
  - intros r s3 (Hs3 & Hr1 & Hr2 & Hr3). split_and!; [by eapply same_files_trans|done|done|]. intros x.
    rewrite Hr3, Hin', concat_app, elem_of_app, pending_lists_elem, HinQ. tauto.
Qed.

(** ** The directory of the set *)

(** The directory has exactly the files [files]. *)
Record exact_dir (dir : path) (files : gmap string bytes) (w : world) : Prop := {
  ed_holds : holds dir files w;
  ed_dir : dir ∈ w_dirs w;
  ed_only : forall name, is_Some (w_names w !! (name :: dir)) -> is_Some (files !! name);
}.

Lemma exact_dir_same dir files w w' : exact_dir dir files w -> same_files w w' -> exact_dir dir files w'.
Proof.
  intros [Hh Hd Ho] Hs. split; [by eapply holds_same|by rewrite (proj1 (proj2 (proj2 Hs)))|by rewrite (proj1 Hs)].
Qed.

Lemma sure_create dir files name s : exact_dir dir files s.2 -> files !! name = None ->
  sure (on_world (os_Create (name :: dir) true false)) s (fun f s' =>
    exact_dir dir (<[name := []]> files) s'.2 /\ handle dir name [] f s'.2).
Proof.
  intros [Hh Hd Ho] Hn. destruct s as [c w]. cbn [snd] in *.
  assert (w_names w !! (name :: dir) = None) as Hfree.
  { destruct (w_names w !! (name :: dir)) eqn:E; [|done]. destruct (Ho name) as [d Hd']; [by rewrite E|congruence]. }
  eapply sure_mono.
  - apply (sure_world _ _ _ (fun f w' => (holds dir (<[name := []]> files) w' /\ handle dir name [] f w')
      /\ w_dirs w' = w_dirs w /\ forall q, is_Some (w_names w' !! q) -> q = name :: dir \/ is_Some (w_names w !! q))).
    + eapply wp_mono; [apply wp_conj; [apply (ok_Create dir files name w Hh)|]|].
      * instantiate (1 := fun _ w' => w_dirs w' = w_dirs w /\ forall q, is_Some (w_names w' !! q) -> q = name :: dir \/ is_Some (w_names w !! q)).
        apply wp_syscall; intros fs; [by split; [|intros q; right]|]. unfold wp. cbn. rewrite Hfree.
        destruct (decide _); cbn; [|by split; [|intros q; right]]. split; [done|]. intros q [m Hq].
        apply lookup_insert_Some in Hq as [[-> _]|[_ Hq]]; [by left|right; by eexists].
      * intros [f|e] w' [H1 H2]; [|done]. split; [|done]. by destruct H1 as (_ & ? & ? & _).
    + apply fine_syscall. cbn. rewrite Hfree, decide_True by done. by do 2 eexists.
  - intros f s' (_ & (Hh' & Hhd) & Hdirs & Hnames). split; [|done]. split; [done|by rewrite Hdirs|].
    intros q [[= ->]|Hq]%Hnames; [rewrite lookup_insert_eq; by eexists|].
    destruct (decide (q = name)) as [->|]; [rewrite lookup_insert_eq; by eexists|]. rewrite lookup_insert_ne by done. auto.
Qed.

Lemma write_digests_dirs f l w : w_dirs (write_digests f l w).2 = w_dirs w /\ w_names (write_digests f l w).2 = w_names w.
Proof.
  unfold write_digests, file_Write, inode_Write, bind, ignore, file_Close, syscall, fail, ret, next_outcome.
  destruct (w_faults w) as [|[|k] fs]; cbn; (destruct (w_inodes w !! f_ino f) as [i|]; cbn); try done.
  all: try (destruct fs as [|[|k'] fs]; cbn; done).
  destruct (take k (concat l)); cbn; destruct fs as [|[|k'] fs]; done.
Qed.
Lemma sure_write_digests dir files name f l s : exact_dir dir files s.2 -> files !! name = Some [] -> handle dir name [] f s.2 ->
  sure (on_world (write_digests f l)) s (fun _ s' => exact_dir dir (<[name := concat l]> files) s'.2).
Proof.
  intros [Hh Hd Ho] Hn Hf. destruct s as [c w]. cbn [snd] in *. eapply sure_mono.
  - apply (sure_world _ _ _ (fun _ w' => holds dir (<[name := concat l]> files) w' /\ w_dirs w' = w_dirs w /\ w_names w' = w_names w)).
    + eapply wp_mono; [apply (wp_conj _ _ (fun r w' => match r with Ok _ => holds dir (<[name := concat l]> files) w' | Err _ => True end)
        (fun _ w' => w_dirs w' = w_dirs w /\ w_names w' = w_names w)); [|exact (write_digests_dirs f l w)]|].
      * unfold write_digests. apply ok_bind. eapply ok_mono; [by eapply ok_Write|]. intros [[n err] f'] w' Hw. cbn [fst snd] in *.
        destruct err as [e|]; [|by apply Hw]. unfold ok_wp. rewrite wp_bind, wp_ignore. by eapply wp_mono; [apply (wp_kept (fun _ => True))|intros].
      * intros [u|e] w' [H1 H2]; done.
    + intros Hw. destruct (file_data_inode _ _ _ (ho_data _ _ _ Hh _ _ Hn)) as (n & i & En & Ei & _).
      destruct Hf as (En' & _). rewrite En in En'. injection En' as ->.
      unfold write_digests, file_Write, inode_Write, bind, next_outcome. rewrite Hw. cbn. rewrite Ei. cbn. eauto.
  - intros _ s' (_ & Hh' & Hdirs & Hnames). split; [done|by rewrite Hdirs|]. intros q. rewrite Hnames. intros Hq%Ho.
    destruct (decide (q = name)) as [->|]; [rewrite lookup_insert_eq; by eexists|by rewrite lookup_insert_ne].
Qed.

Lemma sure_close dir files f s : exact_dir dir files s.2 -> sure (on_world (file_Close f)) s (fun _ s' => exact_dir dir files s'.2).
Proof. intros H. eapply sure_mono; [by apply (sure_read (ret tt) tt)|]. intros _ s' [Hs _]. by eapply exact_dir_same. Qed.

Lemma sure_open dir files name d s : exact_dir dir files s.2 -> files !! name = Some d ->
  sure (on_world (os_Open (name :: dir))) s (fun f s' => same_files s.2 s'.2 /\ file_bytes f s'.2 = d).
Proof.
  intros [Hh _ _] Hn. destruct (file_data_inode _ _ _ (ho_data _ _ _ Hh _ _ Hn)) as (n & i & En & Ei & <-).
  destruct s as [c w]. cbn [snd] in *. eapply sure_mono.
  - apply (sure_world _ _ _ (fun f w' => same_files w w' /\ file_bytes f w' = i_data i)).
    + apply wp_syscall; intros fs; [done|]. unfold wp. cbn. rewrite En. cbn. split; [done|]. unfold file_bytes. cbn. by rewrite Ei.
    + apply fine_syscall. cbn. rewrite En. by do 2 eexists.
  - by intros f s' [_ ?].
Qed.

(** ** Merging files *)

Section Runs.
Context (dir : path).

Definition run_at (files : gmap string bytes) (p : path) (l : list bytes) : Prop :=
  exists name, p = name :: dir /\ files !! name = Some (concat l) /\ sorted_run l.

Lemma sure_get {A} (f : world -> OS A) s Q : sure (on_world (f s.2)) s Q -> sure (on_world (let* w := get in f w)) s Q.
Proof. intros H. apply sure_world_bind. by destruct s. Qed.

Lemma sure_open_runs files paths L : Forall2 (run_at files) paths L -> forall ordinal queue Q s,
  exact_dir dir files s.2 -> Forall2 run_of queue Q ->
  sure (on_world (open_runs paths ordinal queue)) s (fun q s' => same_files s.2 s'.2
    /\ exists Q', Forall2 run_of q Q' /\ forall x, x ∈ concat Q' <-> x ∈ concat Q \/ x ∈ concat L).
Proof.
  induction 1 as [|p l paths L (name & -> & Hn & Hl) HL IH]; intros ordinal queue Q s Hd HQ; cbn [open_runs].
  - apply sure_world_ret. split; [done|]. exists Q. split; [done|]. intros x. cbn. split; [by left|by intros [?|?%not_elem_of_nil]].
  - apply sure_world_bind. eapply sure_mono; [by eapply sure_open|]. intros f s1 [Hs1 Hf]. apply sure_get. rewrite Hf.
    apply sure_world_bind. eapply sure_mono; [by apply sure_push_next|]. intros q s2 [Hs2 ->].
    assert (same_files s.2 s2.2) as Hs by by eapply same_files_trans.
    eapply sure_mono; [apply (IH _ _ (Q ++ pending_lists l)); [by eapply exact_dir_same|apply Forall2_app; [done|by apply entry_run_of]]|].
    intros q s3 (Hs3 & Q' & HQ' & Hin). split; [by eapply same_files_trans|]. exists Q'. split; [done|]. intros x.
    rewrite Hin, concat_app, elem_of_app, pending_lists_elem. cbn [concat]. rewrite elem_of_app. tauto.
Qed.

Definition output_at (files : gmap string bytes) (output : option path) (l : list bytes) (w : world) : Prop :=
  match output with
  | None => exact_dir dir files w
  | Some p => exists name, p = name :: dir /\ exact_dir dir (<[name := concat l]> files) w
  end.
Lemma sure_mergeDigestRuns files paths L output s :
  exact_dir dir files s.2 -> Forall2 (run_at files) paths L ->
  (forall p, output = Some p -> exists name, p = name :: dir /\ files !! name = None) ->
  sure (mergeDigestRuns paths output) s (fun n s' => exists l, sorted_run l /\ n = zlen l
    /\ (forall x, x ∈ l <-> x ∈ concat L) /\ output_at files output l s'.2).
Proof.
  intros Hd HL Hout. unfold mergeDigestRuns.
  set (files1 := match output with Some (name :: _) => <[name := []]> files | _ => files end).
  apply sure_bind, (sure_mono _ _ (fun f s1 => exact_dir dir files1 s1.2
    /\ match output, f with
       | None, None => True
       | Some p, Some f => exists name, p = name :: dir /\ files !! name = None /\ handle dir name [] f s1.2
       | _, _ => False
       end)).
  - destruct output as [p|]; [|by apply sure_ret]. destruct (Hout p eq_refl) as (name & -> & Hn).
    apply sure_bind. eapply sure_mono; [by apply sure_create|]. intros f s1 [Hd1 Hf]. apply sure_ret. split; [done|]. by exists name.
  - intros file s1 [Hd1 Hfile]. assert (Forall2 (run_at files1) paths L) as HL1.
    { eapply Forall2_impl; [exact HL|]. intros p l (name & -> & Hn & Hl). exists name. split_and!; [done| |done]. unfold files1.
      destruct output as [p|]; [|done]. destruct (Hout p eq_refl) as (name' & -> & Hn').
      rewrite lookup_insert_ne; [done|]. intros ->. congruence. }
    apply sure_bind. eapply sure_mono; [by apply (sure_open_runs files1 paths L HL1 0 [] [])|].
    intros queue s2 (Hs2 & Q & HQ & HinQ). pose proof (exact_dir_same _ _ _ _ Hd1 Hs2) as Hd2.
    apply sure_bind. eapply sure_mono; [apply (sure_merge_loop _ queue Q 0 []); [done|done|by split; constructor|done|done]|].
    intros [n out] s3 (Hs3 & Hr & Hcount & Hin). cbn [fst snd] in *. subst n. pose proof (exact_dir_same _ _ _ _ Hd2 Hs3) as Hd3.
    assert (forall x, x ∈ out <-> x ∈ concat L) as Hiff.
    { intros x. rewrite Hin, HinQ. cbn [concat]. rewrite !elem_of_nil. tauto. }
    destruct output as [p|], file as [f|]; try done; [|apply sure_ret; by exists out].
    destruct Hfile as (name & -> & Hn & Hf). apply sure_bind.
    assert (handle dir name [] f s3.2) as Hf3.
    { eapply handle_names; [exact Hf|]. intros q m. rewrite (proj1 Hs3), (proj1 Hs2). done. }
    eapply sure_mono; [apply (sure_write_digests dir files1 name f out); [done|apply lookup_insert_eq|done]|].
    intros [] s4 Hd4. apply sure_ret. exists out. split_and!; [done|done|done|]. exists name. split; [done|].
    unfold files1 in Hd4. by rewrite insert_insert_eq in Hd4.
Qed.

Lemma exact_dir_remove files p w : exact_dir dir files w -> exists files', exact_dir dir files' (os_Remove p w).2 /\ files' ⊆ files
    /\ forall name, name :: dir <> p -> files' !! name = files !! name.
Proof.
  intros Hd. change (wp (os_Remove p) w (fun _ w' => exists files', exact_dir dir files' w' /\ files' ⊆ files
    /\ forall name, name :: dir <> p -> files' !! name = files !! name)).
  assert (forall fs, exact_dir dir files (tick w fs)) as Hk by (intros fs; by eapply exact_dir_same).
  apply wp_syscall; intros fs; [by exists files|]. unfold wp. cbn.
  destruct (w_names w !! p) as [n|] eqn:En; cbn; [|by exists files].
  exists (filter (fun e => e.1 :: dir <> p) files). destruct Hd as [[Hw Hd Hi] Hdir Ho].
  assert (forall name, name :: dir <> p -> filter (fun e : string * bytes => e.1 :: dir <> p) files !! name = files !! name) as Hkeep.
  { intros name Hn. destruct (files !! name) as [d|] eqn:E; [by apply map_lookup_filter_Some|apply map_lookup_filter_None; by left]. }
  split_and!; [|apply map_filter_subseteq|exact Hkeep]. split; [split|done|].
  - split; cbn; [|apply Hw]. intros q m [_ Hq]%lookup_delete_Some. by eapply Hw.
  - intros name d [Hn Hne]%map_lookup_filter_Some. specialize (Hd _ _ Hn). unfold file_data, inode_of in *. cbn. by rewrite lookup_delete_ne.
  - cbn. intros a b m [da [Ha _]%map_lookup_filter_Some] [db [Hb _]%map_lookup_filter_Some] [_ Hma]%lookup_delete_Some [_ Hmb]%lookup_delete_Some.
    by eapply Hi; [eexists..| |].
  - cbn. intros name [m [Hne Hm]%lookup_delete_Some]. rewrite Hkeep by done. apply Ho. by eexists.
Qed.
Lemma sure_remove_all files paths : forall s, exact_dir dir files s.2 ->
  sure (on_world (remove_all paths)) s (fun _ s' => exists files', exact_dir dir files' s'.2 /\ files' ⊆ files
    /\ forall name, name :: dir ∉ paths -> files' !! name = files !! name).
Proof.
  revert files. induction paths as [|p paths IH]; intros files s Hd; cbn [remove_all].
  - apply sure_world_ret. by exists files.
  - apply sure_world_bind. destruct (exact_dir_remove files p s.2 Hd) as (files1 & Hd1 & Hsub1 & Hk1).
    eapply (sure_mono _ _ (fun _ s' => exact_dir dir files1 s'.2)).
    + destruct s as [c w]. unfold sure, wp, on_world, zoom, ignore. cbn [fst snd]. split; [|done].
      intros [Hc Hf]. split; [done|]. by apply Remove_faults.
    + intros _ s1 Hd1'. eapply sure_mono; [by apply IH|]. intros _ s2 (files2 & Hd2 & Hsub2 & Hk2). exists files2.
      split_and!; [done|by etrans|]. intros name Hn. rewrite Hk2, Hk1; [done| |]; set_solver.
Qed.
End Runs.

(** ** Creating the runs *)

Section Counting.
Context (dir : path).

Definition paths_of (name : nat -> string) (n : nat) : list path := map (fun j => name j :: dir) (seq 0 n).
Lemma paths_of_S name n : paths_of name (S n) = paths_of name n ++ [name n :: dir].
Proof. unfold paths_of. by rewrite seq_S, map_app. Qed.
Lemma paths_of_length name n : length (paths_of name n) = n.
Proof. unfold paths_of. by rewrite length_map, length_seq. Qed.
Lemma paths_of_elem name n p : p ∈ paths_of name n <-> exists j, (j < n)%nat /\ p = name j :: dir.
Proof.
  unfold paths_of. rewrite list_elem_of_fmap. setoid_rewrite elem_of_seq. split; intros (j & ? & ?); exists j; (split; [|done || lia]); [lia|done].
Qed.
Lemma paths_of_NoDup name n `{!Inj (=) (=) name} : NoDup (paths_of name n).
Proof.
  apply NoDup_fmap_2; [|apply NoDup_seq]. intros a b [= H]. by apply (inj name).
Qed.

Lemma run_at_insert files name d paths L : files !! name = None -> Forall2 (run_at dir files) paths L ->
  Forall2 (run_at dir (<[name := d]> files)) paths L.
Proof.
  intros Hn HL. eapply Forall2_impl; [exact HL|]. intros p l (name' & -> & Hn' & Hl). exists name'. split_and!; [done| |done].
  rewrite lookup_insert_ne; [done|]. intros ->. congruence.
Qed.
Lemma digests_take n ds : digests ds -> digests (take n ds).
Proof. apply Forall_take. Qed.
Lemma digests_drop n ds : digests ds -> digests (drop n ds).
Proof. apply Forall_drop. Qed.
Lemma digests_length ds : digests ds -> length (concat ds) = (32 * length ds)%nat.
Proof.
  induction 1 as [|d ds Hd Hds IH]; [done|]. cbn [concat length]. rewrite length_app, IH. unfold zlen, digestBytes in Hd. lia.
Qed.

(** How many runs hold [n] digests. *)
Definition runs_for (n : Z) : Z := (n + digestChunkCount - 1) / digestChunkCount.
Lemma runs_for_0 : runs_for 0 = 0.
Proof. done. Qed.
Lemma runs_for_step n : 0 < n -> runs_for n = 1 + runs_for (Z.max 0 (n - digestChunkCount)).
Proof. unfold runs_for, digestChunkCount. intros Hn. Z.to_euclidean_division_equations. lia. Qed.

Lemma sure_create_runs fuel : forall ds L files s, digests ds -> (length (concat ds) < fuel)%nat ->
  exact_dir dir files s.2 -> let n := length L in Forall2 (run_at dir files) (paths_of run_name n) L ->
  (forall j, (n <= j)%nat -> files !! run_name j = None) ->
  sure (create_runs fuel dir (concat ds) (paths_of run_name n)) s (fun runs s' => exists files' L',
    exact_dir dir files' s'.2 /\ runs = paths_of run_name (length L') /\ Forall2 (run_at dir files') runs L'
    /\ (forall x, x ∈ concat L' <-> x ∈ concat L \/ x ∈ ds)
    /\ zlen L' = zlen L + runs_for (zlen ds)
    /\ (forall name, (forall j, name <> run_name j) -> files' !! name = files !! name)).
Proof.
  induction fuel as [|fuel IH]; intros ds L files s Hds Hfuel Hd n HL Hfree; [lia|]. cbn [create_runs].
  assert (exists k, Z.of_nat k = digestChunkCount) as [k Hk] by (exists (Z.to_nat digestChunkCount); by apply Z2Nat.id).
  apply sure_bind, sure_check_ctx. intros c. apply sure_bind.
  eapply sure_mono; [apply (sure_read_values (S (length (concat ds))) ds [] (c, s.2) k); [done|lia|by rewrite (zlen_nil (A := bytes)), Z.sub_0_r]|].
  intros [values rest] s1 [Hs1 Hr]. cbn [fst snd app] in *. injection Hr as -> ->.
  pose proof (exact_dir_same _ _ _ _ Hd Hs1) as Hd1. assert (0 < digestChunkCount) as HC by done.
  destruct ds as [|d ds]; [rewrite take_nil; apply sure_ret; exists files, L; split_and!; [done..| |by rewrite (zlen_nil (A := bytes)), runs_for_0; lia|done]; set_solver|].
  destruct (take k (d :: ds)) as [|v values] eqn:Ev; [apply (f_equal length) in Ev; rewrite length_take in Ev; cbn [length] in Ev; lia|].
  rewrite <- Ev. set (part := take k (d :: ds)). set (others := drop k (d :: ds)).
  destruct (run_of_values part) as [Hrun Hin]; [by apply digests_take|]. set (l := without_repeats None (merge_sort bytes_le part)) in *.
  rewrite paths_of_length. assert (files !! run_name n = None) as Hn by (apply Hfree; lia).
  apply sure_bind. eapply sure_mono; [by apply (sure_create dir files (run_name n))|]. intros f s2 [Hd2 Hf].
  apply sure_bind. eapply sure_mono; [apply (sure_write_digests dir (<[run_name n := []]> files) (run_name n) f l); [exact Hd2|by rewrite lookup_insert_eq|done]|].
  intros [] s3 Hd3. rewrite insert_insert_eq in Hd3. apply sure_bind. eapply sure_mono; [by apply sure_close|]. intros [] s4 Hd4.
  rewrite <- paths_of_S. replace (S n) with (length (L ++ [l])) by (rewrite length_app; cbn [length]; lia).
  assert (length others = length (d :: ds) - k)%nat as Hlo by apply length_drop.
  eapply sure_mono; [apply (IH others (L ++ [l])); [by apply digests_drop| |exact Hd4| |]|].
  - rewrite digests_length in Hfuel by done. rewrite digests_length by (by apply digests_drop). cbn [length] in *. lia.
  - rewrite length_app, Nat.add_1_r, paths_of_S. fold n. apply Forall2_app; [by apply run_at_insert|]. constructor; [|constructor].
    exists (run_name n). by rewrite lookup_insert_eq.
  - intros j Hj. rewrite length_app in Hj. cbn [length] in Hj. rewrite lookup_insert_ne by (intros ?%(inj run_name); lia). apply Hfree. lia.
  - intros runs s5 (files' & L' & Hd5 & Hr & HL' & Hin' & Hlen & Hother). exists files', L'. split_and!; [done..| | |].
    + intros x. rewrite Hin', concat_app, elem_of_app. cbn [concat]. rewrite app_nil_r, Hin.
      assert (x ∈ d :: ds <-> x ∈ part \/ x ∈ others) as -> by (rewrite <- elem_of_app; unfold part, others; by rewrite take_drop). tauto.
    + rewrite Hlen, zlen_app, (runs_for_step (zlen (d :: ds))) by (rewrite zlen_cons; pose proof (zlen_nonneg ds); lia).
      replace (zlen others) with (Z.max 0 (zlen (d :: ds) - digestChunkCount)) by (unfold zlen; lia). unfold zlen at 2. cbn [length]. lia.
    + intros name Hname. rewrite Hother, lookup_insert_ne by done. done.
Qed.

(** ** Merging the runs *)

Definition groups_for (n : nat) : nat := ((n + 63) / 64)%nat.
Lemma groups_for_step n : (0 < n)%nat -> groups_for n = S (groups_for (n - 64)).
Proof.
  intros Hn. unfold groups_for. destruct (decide (n <= 64)%nat) as [Hle|Hgt].
  - replace (n - 64)%nat with 0%nat by lia. change ((0 + 63) / 64)%nat with 0%nat.
    symmetry. apply (Nat.div_unique _ _ _ (n - 1)); lia.
  - replace (n + 63)%nat with ((n - 64 + 63) + 1 * 64)%nat by lia. rewrite Nat.div_add by done. lia.
Qed.

Lemma run_at_kept files files' paths (removed : list path) L : (forall name, name :: dir ∉ removed -> files' !! name = files !! name) ->
  (forall p, p ∈ paths -> p ∉ removed) -> Forall2 (run_at dir files) paths L -> Forall2 (run_at dir files') paths L.
Proof.
  intros Hk Hdisj HL. induction HL as [|p l paths L (name & -> & Hn & Hl) HL IH]; constructor.
  - exists name. rewrite Hk by (apply Hdisj; by left). done.
  - apply IH. intros q Hq. apply Hdisj. by right.
Qed.
Lemma run_at_taken files paths L name : Forall2 (run_at dir files) paths L -> files !! name = None -> name :: dir ∉ paths.
Proof.
  intros HL Hn Hin. apply list_elem_of_lookup in Hin as [i Hi]. destruct (Forall2_lookup_l _ _ _ _ _ HL Hi) as (l & _ & name' & [= <-] & ? & _).
  congruence.
Qed.

Lemma sure_merge_groups fuel : forall runs L N files s, (length runs <= fuel)%nat -> exact_dir dir files s.2 ->
  Forall2 (run_at dir files) runs L -> NoDup runs -> let n := length N in Forall2 (run_at dir files) (paths_of merged_name n) N ->
  (forall p, p ∈ paths_of merged_name n -> p ∉ runs) -> (forall j, (n <= j)%nat -> files !! merged_name j = None) ->
  sure (merge_groups fuel dir runs (paths_of merged_name n)) s (fun next s' => exists files' N',
    exact_dir dir files' s'.2 /\ next = paths_of merged_name (length N') /\ Forall2 (run_at dir files') next N'
    /\ (forall x, x ∈ concat N' <-> x ∈ concat N \/ x ∈ concat L)
    /\ length N' = (n + groups_for (length runs))%nat).
Proof.
  induction fuel as [|fuel IH]; intros runs L N files s Hf Hd HL Hnd n HN Hdisj Hfree;
    (destruct runs as [|r runs]; [inversion HL; subst; cbn [merge_groups]; apply sure_ret; exists files, N;
      split_and!; [done..|set_solver|unfold groups_for, n; cbn; lia]|]); [cbn in Hf; lia|]. cbn [merge_groups].
  set (all := r :: runs) in *. set (group := take maxMergeRunInputs all). set (others := drop maxMergeRunInputs all).
  rewrite paths_of_length. assert (files !! merged_name n = None) as Hn by (apply Hfree; lia).
  assert (Forall2 (run_at dir files) group (take maxMergeRunInputs L)) as HLg by by apply Forall2_take.
  assert (Forall2 (run_at dir files) others (drop maxMergeRunInputs L)) as HLo by by apply Forall2_drop.
  apply sure_bind. eapply sure_mono; [apply (sure_mergeDigestRuns dir files group (take maxMergeRunInputs L) (Some (merged_name n :: dir))); [done|exact HLg|]|].
  { intros p [= <-]. by exists (merged_name n). }
  intros count s1 (l & Hl & _ & Hin & name & [= <-] & Hd1). apply sure_bind.
  eapply sure_mono; [by apply (sure_remove_all dir (<[merged_name n := concat l]> files) group s1)|]. intros [] s2 (files2 & Hd2 & _ & Hk2).
  assert (NoDup (group ++ others)) as Hnd' by (unfold group, others; by rewrite take_drop). apply NoDup_app in Hnd' as (_ & Hgo & Hndo).
  assert (forall p, p ∈ group \/ p ∈ others <-> p ∈ all) as Hall by (intros p; rewrite <- elem_of_app; unfold group, others; by rewrite take_drop).
  assert (merged_name n :: dir ∉ all) as Hfresh by by eapply run_at_taken.
  assert (length others = length all - 64)%nat as Hlo by apply length_drop.
  rewrite <- paths_of_S. replace (S n) with (length (N ++ [l])) by (rewrite length_app; cbn [length]; lia).
  eapply sure_mono; [apply (IH others (drop maxMergeRunInputs L) (N ++ [l]) files2); [|exact Hd2| |exact Hndo|..]|].
  - unfold all in Hlo, Hf. cbn [length] in *. lia.
  - eapply run_at_kept; [exact Hk2| |by apply run_at_insert]. intros p Hp Hg. by apply (Hgo p).
  - rewrite length_app, Nat.add_1_r, paths_of_S. fold n. eapply run_at_kept; [exact Hk2| |].
    + intros p [Hp|Hp%list_elem_of_singleton]%elem_of_app Hg; [apply (Hdisj p Hp), Hall; by left|subst p; apply Hfresh, Hall; by left].
    + apply Forall2_app; [by apply run_at_insert|]. constructor; [|constructor]. exists (merged_name n). by rewrite lookup_insert_eq.
  - rewrite length_app, Nat.add_1_r, paths_of_S. fold n.
    intros p [Hp|Hp%list_elem_of_singleton]%elem_of_app Hg; [apply (Hdisj p Hp), Hall; by right|subst p; apply Hfresh, Hall; by right].
  - rewrite length_app. cbn [length]. intros j Hj. fold n in Hj. rewrite Hk2.
    + rewrite lookup_insert_ne by (intros ?%(inj merged_name); lia). apply Hfree. lia.
    + intros Hg. eapply (run_at_taken files group); [exact HLg| |exact Hg]. apply Hfree. lia.
  - intros next s3 (files3 & N3 & Hd3 & Hnext & HN3 & Hin3 & Hlen). exists files3, N3. split_and!; [done..| |].
    + intros x. rewrite Hin3, concat_app, elem_of_app. cbn [concat]. rewrite app_nil_r, Hin.
      rewrite <- (take_drop maxMergeRunInputs L) at 3. rewrite concat_app, elem_of_app. tauto.
    + rewrite Hlen, length_app, (groups_for_step (length all)), Hlo by (unfold all; cbn [length]; lia). cbn [length]. lia.
Qed.
Lemma groups_for_le n m : (n <= 64 * m)%nat -> (groups_for n <= m)%nat.
Proof. intros H. unfold groups_for. assert ((n + 63) / 64 < S m)%nat; [|lia]. apply Nat.Div0.div_lt_upper_bound. lia. Qed.
Lemma groups_for_gt n m : (64 * m < n)%nat -> (m < groups_for n)%nat.
Proof. intros H. unfold groups_for. apply Nat.div_le_lower_bound; lia. Qed.
Lemma run_names_free n p : p ∈ paths_of merged_name 0 -> p ∉ paths_of run_name n.
Proof. by intros ?%not_elem_of_nil. Qed.

(** The first round, on the runs just created. *)
Lemma sure_first_round L files s : exact_dir dir files s.2 -> Forall2 (run_at dir files) (paths_of run_name (length L)) L ->
  (forall j, files !! merged_name j = None) ->
  sure (merge_groups (length L) dir (paths_of run_name (length L)) []) s (fun next s' => exists files' N',
    exact_dir dir files' s'.2 /\ next = paths_of merged_name (length N') /\ Forall2 (run_at dir files') next N'
    /\ (forall x, x ∈ concat N' <-> x ∈ concat L) /\ length N' = groups_for (length L)).
Proof.
  intros Hd HL Hfree. eapply sure_mono.
  - apply (sure_merge_groups (length L) (paths_of run_name (length L)) L [] files); [by rewrite paths_of_length|done|done| | | |done].
    + apply paths_of_NoDup, _.
    + constructor.
    + apply run_names_free.
  - intros next s' (files' & N' & ? & ? & ? & Hin & Hlen). rewrite paths_of_length in Hlen. exists files', N'. split_and!; [done..| |exact Hlen].
    intros x. rewrite Hin. cbn [concat]. rewrite elem_of_nil. tauto.
Qed.

Lemma sure_merge_rounds L files s : exact_dir dir files s.2 -> Forall2 (run_at dir files) (paths_of run_name (length L)) L ->
  (forall j, files !! merged_name j = None) -> (length L <= 4096)%nat ->
  sure (merge_rounds (length L) dir (paths_of run_name (length L))) s (fun runs s' => exists files' L',
    exact_dir dir files' s'.2 /\ Forall2 (run_at dir files') runs L' /\ (forall x, x ∈ concat L' <-> x ∈ concat L)).
Proof.
  intros Hd HL Hfree Hlen. destruct (decide (64 < length L)%nat) as [Hbig|Hsmall].
  - destruct (length L) as [|n] eqn:El; [lia|]. cbn [merge_rounds]. rewrite paths_of_length, (proj2 (Nat.ltb_lt maxMergeRunInputs (S n))) by (unfold maxMergeRunInputs; lia).
    apply sure_bind. rewrite <- El in *. eapply sure_mono; [by eapply sure_first_round|].
    intros next s1 (files1 & N & Hd1 & -> & HN & Hin & HlenN).
    assert (groups_for (length L) <= 64)%nat as Hg by (apply groups_for_le; lia).
    destruct n as [|n]; [lia|]. cbn [merge_rounds]. rewrite paths_of_length, (proj2 (Nat.ltb_ge maxMergeRunInputs (length N))) by (unfold maxMergeRunInputs; lia).
    apply sure_ret. by exists files1, N.
  - assert (merge_rounds (length L) dir (paths_of run_name (length L)) = ret (paths_of run_name (length L))) as ->.
    { destruct (length L) as [|n]; [done|]. cbn [merge_rounds]. rewrite paths_of_length.
      by rewrite (proj2 (Nat.ltb_ge maxMergeRunInputs (S n))) by (unfold maxMergeRunInputs; lia). }
    apply sure_ret. by exists files, L.
Qed.

(** ** The whole count *)

Definition set_state (ds : list bytes) (set : diskDigestSet) (w : world) : Prop :=
  ds_directory set = dir /\ ds_closed set = false /\ digests ds
  /\ exact_dir dir {["input.bin"%string := concat ds]} w /\ handle dir "input.bin" (concat ds) (ds_input set) w.

Lemma sure_newDiskDigestSet s : exact_dir dir ∅ s.2 ->
  sure (on_world (newDiskDigestSet dir)) s (fun set s' => set_state [] set s'.2).
Proof.
  intros Hd. unfold newDiskDigestSet. apply sure_world_bind. eapply sure_mono; [by apply (sure_create dir ∅ "input.bin" s)|].
  intros f s1 [Hd1 Hf]. apply sure_world_ret. split_and!; [done|done|constructor|exact Hd1|exact Hf].
Qed.

Lemma set_Add_dirs set value w : w_dirs (set_Add set value w).2 = w_dirs w /\ w_names (set_Add set value w).2 = w_names w.
Proof.
  unfold set_Add. destruct (ds_closed set); [done|]. destruct (hex_DecodeString value) as [d|]; [|done].
  destruct (negb _); [done|]. unfold file_Write, inode_Write, bind, fail, ret, next_outcome.
  destruct (w_faults w) as [|[|k] fs]; cbn; (destruct (w_inodes w !! f_ino (ds_input set)) as [i|]; cbn); try done.
  by destruct (take k d).
Qed.
Lemma sure_set_Add ds set value d s : set_state ds set s.2 -> hex_DecodeString value = Some d -> zlen d = digestBytes ->
  sure (on_world (set_Add set value)) s (fun set' s' => set_state (ds ++ [d]) set' s'.2).
Proof.
  intros (Hdir & Hc & Hds & [Hh Hd Ho] & Hf) Hv Hl. destruct s as [c w]. cbn [snd] in *. eapply sure_mono.
  - apply (sure_world _ _ _ (fun set' w' => (ds_directory set' = dir /\ ds_closed set' = false
      /\ holds dir {["input.bin"%string := concat ds ++ d]} w' /\ handle dir "input.bin" (concat ds ++ d) (ds_input set') w')
      /\ w_dirs w' = w_dirs w /\ w_names w' = w_names w)).
    + eapply wp_mono; [apply (wp_conj _ _ (fun r w' => match r with Ok set' => ds_directory set' = dir /\ ds_closed set' = false
          /\ holds dir {["input.bin"%string := concat ds ++ d]} w' /\ handle dir "input.bin" (concat ds ++ d) (ds_input set') w' | Err _ => True end)
        (fun _ w' => w_dirs w' = w_dirs w /\ w_names w' = w_names w)); [|exact (set_Add_dirs set value w)]|].
      * unfold set_Add. rewrite Hc, Hv, Hl. cbn [negb Z.eqb Pos.eqb digestBytes]. apply ok_bind.
        eapply ok_mono; [by eapply (ok_Write dir _ "input.bin" (concat ds)); [exact Hh|apply lookup_singleton_eq|]|].
        intros [[n err] f'] w' Hw. cbn [fst snd] in *. destruct err as [e|]; [done|]. destruct (Hw eq_refl) as (Hh' & Hf' & _).
        rewrite insert_singleton_eq in Hh'. done.
      * intros [u|e] w' [H1 H2]; done.
    + intros Hw. destruct (file_data_inode _ _ _ (ho_data _ _ _ Hh _ _ (lookup_singleton_eq _ _))) as (n & i & En & Ei & _).
      destruct Hf as (En' & _). rewrite En in En'. injection En' as ->.
      unfold set_Add. rewrite Hc, Hv, Hl. cbn [negb Z.eqb Pos.eqb digestBytes].
      unfold file_Write, inode_Write, bind, next_outcome. rewrite Hw. cbn. rewrite Ei. cbn. eauto.
  - intros set' s' (_ & (Hdir' & Hc' & Hh' & Hf') & Hdirs & Hnames). unfold set_state. rewrite concat_app. cbn [concat]. rewrite app_nil_r.
    split_and!; [done|done|by apply Forall_app; split; [|constructor]| |done]. split; [done|by rewrite Hdirs|]. rewrite Hnames.
    intros q [d' Hq]%Ho. apply lookup_singleton_Some in Hq as [<- _]. rewrite lookup_singleton_eq. by eexists.
Qed.

(** [Add] for each value. *)
Fixpoint add_all (set : diskDigestSet) (values : list string) : OS diskDigestSet :=
  match values with
  | [] => ret set
  | value :: values => let* set := set_Add set value in add_all set values
  end.
Lemma sure_add_all values : forall set ds ds' s, set_state ds set s.2 -> digests ds' ->
  Forall2 (fun value d => hex_DecodeString value = Some d) values ds' ->
  sure (on_world (add_all set values)) s (fun set' s' => set_state (ds ++ ds') set' s'.2).
Proof.
  induction values as [|value values IH]; intros set ds ds' s Hset Hds Hv; inversion Hv as [|? d ? ds'' Hd Hv']; subst; cbn [add_all].
  - apply sure_world_ret. by rewrite app_nil_r.
  - inversion Hds as [|? ? Hl Hds'']; subst. apply sure_world_bind. eapply sure_mono; [by eapply sure_set_Add|]. intros set' s1 Hset1.
    eapply sure_mono; [by apply (IH set' (ds ++ [d]) ds'')|]. intros set2 s2. by rewrite <- app_assoc.
Qed.

Lemma sure_get_state {A} (f : Ctx * world -> CM A) s Q : sure (f s) s Q -> sure (bind get f) s Q.
Proof. intros H. by apply sure_bind, sure_ret. Qed.

Lemma sure_Sync files name d f s : exact_dir dir files s.2 -> files !! name = Some d -> handle dir name d f s.2 ->
  sure (on_world (file_Sync f)) s (fun _ s' => exact_dir dir files s'.2 /\ w_names s'.2 = w_names s.2).
Proof.
  intros [Hh Hd Ho] Hn Hf. destruct s as [c w]. cbn [snd] in *. eapply sure_mono.
  - apply (sure_world _ _ _ (fun _ w' => (holds dir files w' /\ w_names w' = w_names w) /\ w_dirs w' = w_dirs w)).
    + eapply wp_mono; [apply wp_conj; [by eapply ok_Sync|]|].
      * instantiate (1 := fun _ w' => w_dirs w' = w_dirs w). apply wp_syscall; intros fs; [done|]. unfold wp. cbn. by destruct (w_inodes w !! _).
      * intros [u|e] w' [H1 H2]; done.
    + destruct (file_data_inode _ _ _ (ho_data _ _ _ Hh _ _ Hn)) as (n & i & En & Ei & _). destruct Hf as (En' & _).
      rewrite En in En'. injection En' as ->. apply fine_syscall. cbn. rewrite Ei. by do 2 eexists.
  - intros [] s' (_ & (Hh' & Hnames) & Hdirs). split; [|done]. split; [done|by rewrite Hdirs|by rewrite Hnames].
Qed.

(** The state at the merge: the runs hold the digests of the input. *)
Definition after_runs (ds : list bytes) (runs : list path) (s' : Ctx * world) : Prop := exists files L,
  exact_dir dir files s'.2 /\ runs = paths_of run_name (length L) /\ Forall2 (run_at dir files) runs L
  /\ (forall x, x ∈ concat L <-> x ∈ ds) /\ zlen L = runs_for (zlen ds) /\ (forall j, files !! merged_name j = None).
Definition count_tail (runs : list path) : CM Z :=
  let* runs := merge_rounds (length runs) dir runs in
  match runs with [] => ret 0 | _ => mergeDigestRuns runs None end.

Definition count_head (set : diskDigestSet) : CM (list path) :=
  on_world (file_Sync (ds_input set)) ;;;
  on_world (syscall (ret tt)) ;;;
  let* w := get in
  let data := file_bytes (ds_input set) w.2 in
  create_runs (S (length data)) dir data [].
Lemma set_Count_split set s : ds_directory set = dir -> ds_closed set = false -> set_Count set s = bind (count_head set) count_tail s.
Proof.
  intros Hdir Hc. unfold set_Count, count_head. rewrite Hc, Hdir. unfold bind. destruct (on_world (file_Sync _) s) as [[[]|e] s1]; [|done].
  destruct (on_world _ s1) as [[[]|e] s2]; done.
Qed.

Lemma sure_count_head ds set s : set_state ds set s.2 -> sure (count_head set) s (fun runs s' => after_runs ds runs s').
Proof.
  intros (Hdir & Hc & Hds & Hd & Hf). unfold count_head. apply sure_bind.
  eapply sure_mono; [by eapply (sure_Sync _ "input.bin"); [|apply lookup_singleton_eq|]|]. intros [] s1 [Hd1 Hn1].
  apply sure_bind. eapply sure_mono; [by apply (sure_read (ret tt) tt)|]. intros u s2 [Hs2 _]. apply sure_get_state.
  pose proof (exact_dir_same _ _ _ _ Hd1 Hs2) as Hd2.
  assert (file_bytes (ds_input set) s2.2 = concat ds) as ->.
  { destruct (file_data_inode _ _ _ (ho_data _ _ _ (ed_holds _ _ _ Hd2) _ _ (lookup_singleton_eq _ _))) as (n & i & En & Ei & <-).
    destruct Hf as (En' & _). rewrite (proj1 Hs2), Hn1, En' in En. injection En as <-. unfold file_bytes. by rewrite Ei. }
  eapply sure_mono; [apply (sure_create_runs (S (length (concat ds))) ds [] {["input.bin"%string := concat ds]}); [done|lia|done|constructor|]|].
  { intros j _. apply lookup_singleton_None. by intros [=]. }
  intros runs s3 (files & L & Hd3 & Hr & HL & Hin & Hlen & Hother). exists files, L. split_and!; [done..| | |].
  - intros x. rewrite Hin. cbn [concat]. rewrite elem_of_nil. tauto.
  - rewrite Hlen, (zlen_nil (A := list bytes)). lia.
  - intros j. rewrite Hother by (by intros k [=]). apply lookup_singleton_None. by intros [=].
Qed.

Lemma sure_count_tail ds runs s : after_runs ds runs s -> zlen ds <= 2 ^ 32 ->
  sure (count_tail runs) s (fun n _ => n = zlen (remove_dups ds)).
Proof.
  intros (files & L & Hd & -> & HL & Hin & Hlen & Hfree) Hsmall. unfold count_tail. rewrite paths_of_length.
  apply sure_bind. eapply sure_mono; [apply (sure_merge_rounds L files s Hd HL Hfree)|].
  { assert (runs_for (zlen ds) <= 4096); [|unfold zlen in *; lia]. unfold runs_for, digestChunkCount. Z.to_euclidean_division_equations. lia. }
  intros runs s1 (files1 & L1 & Hd1 & HL1 & Hin1).
  destruct runs as [|r runs].
  - inversion HL1; subst. apply sure_ret. destruct (remove_dups ds) as [|x l] eqn:E; [done|]. exfalso.
    assert (x ∈ remove_dups ds) as Hx by (rewrite E; by left). rewrite elem_of_remove_dups, <- Hin, <- Hin1 in Hx. by apply not_elem_of_nil in Hx.
  - eapply sure_mono; [by apply (sure_mergeDigestRuns dir files1 (r :: runs) L1 None)|].
    intros n s2 (l & [Hs _] & -> & Hl & _). unfold zlen. f_equal. apply sorted_run_count; [done|]. intros x. by rewrite Hl, Hin1, Hin.
Qed.
End Counting.

(** A new set, the additions and the count. *)
Definition count_of (dir : path) (values : list string) : CM Z :=
  let* set := on_world (newDiskDigestSet dir) in
  let* set := on_world (add_all set values) in
  set_Count set.

(** C24. Counting is exact.  Up to 2^32 values added to a new digest set are counted
    without repetition, whatever the number of runs and merge rounds; the count fails
    only if it was cancelled or a system call failed. *)
Theorem count_exact dir values ds s :
  exact_dir dir ∅ s.2 -> Forall2 (fun value d => hex_DecodeString value = Some d) values ds -> digests ds ->
  zlen ds <= 2 ^ 32 -> sure (count_of dir values) s (fun n _ => n = zlen (remove_dups ds)).
Proof.
  intros Hempty Hvalues Hds Hsmall. unfold count_of. apply sure_bind. eapply sure_mono; [by apply sure_newDiskDigestSet|]. intros set s1 H1.
  apply sure_bind. eapply sure_mono; [by apply (sure_add_all dir values set [] ds)|]. intros set2 s2 H2.
  eapply sure_ext; [apply (set_Count_split dir); apply H2|]. apply sure_bind. eapply sure_mono; [by apply (sure_count_head dir ds)|].
  intros runs s3 H3. by eapply sure_count_tail.
Qed.
(** ** More than 64 merged runs *)

(** [m] fails, and unless something else went wrong it is because a file exists. *)
Definition exists_already {A} (m : CM A) (s : Ctx * world) : Prop :=
  wp m s (fun r _ => exists e, r = Err e /\ (calm s -> e = errorf "%s" os_ErrExist)).

Lemma exists_already_head {A B} (m : CM A) (f : A -> CM B) s : exists_already m s -> exists_already (bind m f) s.
Proof. unfold exists_already. intros Hm. rewrite wp_bind. eapply wp_mono; [exact Hm|]. by intros r s' (e & -> & He); exists e. Qed.
Lemma exists_already_bind {A B} (m : CM A) (f : A -> CM B) s :
  sure m s (fun a s' => exists_already (f a) s') -> exists_already (bind m f) s.
Proof.
  unfold exists_already, sure. intros Hm. rewrite wp_bind. eapply wp_mono; [exact Hm|]. intros [a|e] s' [Hc Hr].
  - eapply wp_mono; [exact Hr|]. intros r s2 (e & -> & He). exists e. auto.
  - exists e. by split.
Qed.
Lemma exists_already_create p s : is_Some (w_names s.2 !! p) -> exists_already (on_world (os_Create p true false)) s.
Proof.
  intros [n Hn]. destruct s as [c w]. cbn [snd] in Hn. unfold exists_already, on_world. rewrite wp_zoom.
  unfold wp, os_Create, syscall, next_outcome, calm. cbn [fst snd]. destruct (w_faults w) as [|[|k] fs]; cbn; rewrite ?Hn; cbn;
    (eexists; split; [reflexivity|]); [done|done|by intros [_ ?]].
Qed.

Lemma exists_already_tail dir ds runs s : after_runs dir ds runs s -> 2 ^ 32 < zlen ds -> exists_already (count_tail dir runs) s.
Proof.
  intros (files & L & Hd & -> & HL & Hin & Hlen & Hfree) Hbig. unfold count_tail. rewrite paths_of_length.
  assert (4096 < length L)%nat as HbigL.
  { assert (4096 < runs_for (zlen ds)); [|unfold zlen in *; lia]. unfold runs_for, digestChunkCount. Z.to_euclidean_division_equations. lia. }
  apply exists_already_head. destruct (length L) as [|n] eqn:El; [lia|]. cbn [merge_rounds].
  rewrite paths_of_length, (proj2 (Nat.ltb_lt maxMergeRunInputs (S n))) by (unfold maxMergeRunInputs; lia). rewrite <- El in *.
  apply exists_already_bind. eapply sure_mono; [by eapply sure_first_round|]. intros next s1 (files1 & N & Hd1 & -> & HN & _ & HlenN).
  assert (64 < length N)%nat as HbigN by (rewrite HlenN; apply groups_for_gt; lia).
  destruct n as [|n]; [lia|]. cbn [merge_rounds]. rewrite paths_of_length, (proj2 (Nat.ltb_lt maxMergeRunInputs (length N))) by (unfold maxMergeRunInputs; lia).
  apply exists_already_head. destruct N as [|l N]; [cbn in HbigN; lia|]. cbn [length merge_groups paths_of seq map]. apply exists_already_head.
  unfold mergeDigestRuns. apply exists_already_head, exists_already_head, exists_already_create.
  inversion HN as [|? ? ? ? (name & Hp & Hn & _) _]; subst. injection Hp as <-.
  destruct (file_data_inode _ _ _ (ho_data _ _ _ (ed_holds _ _ _ Hd1) _ _ Hn)) as (m & _ & Em & _). by exists m.
Qed.

(** C36. The second merge round cannot work.  A set of more than 2^32 digests, which
    takes a second round of merging, is never counted: the round creates
    [merged-000000.bin] with [O_EXCL] while the first round's file of that name is one
    of its inputs, and the count fails because the file exists. *)
Theorem second_round_fails dir values ds s :
  exact_dir dir ∅ s.2 -> Forall2 (fun value d => hex_DecodeString value = Some d) values ds -> digests ds ->
  2 ^ 32 < zlen ds -> exists_already (count_of dir values) s.
Proof.
  intros Hempty Hvalues Hds Hbig. unfold count_of. apply exists_already_bind. eapply sure_mono; [by apply sure_newDiskDigestSet|]. intros set s1 H1.
  apply exists_already_bind. eapply sure_mono; [by apply (sure_add_all dir values set [] ds)|]. intros set2 s2 H2.
  unfold exists_already, wp. rewrite (set_Count_split dir) by apply H2. apply (exists_already_bind (count_head dir set2)). eapply sure_mono; [by apply (sure_count_head dir ds)|].
  intros runs s3 H3. by eapply exists_already_tail.
Qed.

(** ** Witnesses *)

Definition sample_dir : path := ["digests"%string].
Definition sample_start : world :=
  {| w_names := ∅; w_inodes := ∅; w_dirs := {[sample_dir]}; w_durable := ∅; w_next := 0; w_clock := 0; w_faults := []; w_locked := ∅ |}.
Lemma sample_start_empty : exact_dir sample_dir ∅ sample_start.
Proof.
  split; [split; [split; [done|]|done|]|set_solver|].
  - intros n [i Hi]. done.
  - by intros a b n [? ?].
  - by intros name [? ?].
Qed.
Definition sample_values : list string :=
  ["0000000000000000000000000000000000000000000000000000000000000002";
   "0000000000000000000000000000000000000000000000000000000000000001";
   "0000000000000000000000000000000000000000000000000000000000000002"]%string.
Definition sample_digests : list bytes := omap hex_DecodeString sample_values.

Lemma count_exact_witness : (count_of sample_dir sample_values (None, sample_start)).1 = Ok 2.
Proof.
  pose proof (count_exact sample_dir sample_values sample_digests (None, sample_start)) as H.
  unfold sure, wp in H. destruct H as [_ H].
  - exact sample_start_empty.
  - repeat constructor.
  - repeat constructor.
  - vm_compute. discriminate.
  - destruct (count_of sample_dir sample_values (None, sample_start)).1 as [n|e]; [|destruct H; split; reflexivity].
    rewrite H. reflexivity.
Defined.

Lemma second_round_fails_witness : exists values e, (count_of sample_dir values (None, sample_start)).1 = Err e
  /\ e = errorf "%s" os_ErrExist.
Proof.
  assert (exists n, 2 ^ 32 < Z.of_nat n) as [n Hn] by (exists (Z.to_nat (2 ^ 32 + 1)); rewrite Z2Nat.id by discriminate; reflexivity).
  exists (replicate n "0000000000000000000000000000000000000000000000000000000000000001"%string).
  destruct (second_round_fails sample_dir (replicate n "0000000000000000000000000000000000000000000000000000000000000001"%string)
    (replicate n (replicate 31 "000"%byte ++ ["001"%byte])) (None, sample_start)) as (e & He & Hcalm).
  - exact sample_start_empty.
  - apply Forall2_replicate. reflexivity.
  - apply Forall_replicate. reflexivity.
  - unfold zlen. rewrite length_replicate. exact Hn.
  - exists e. split; [exact He|]. apply Hcalm. split; reflexivity.
Defined.
