(* ===== verification/Enroll.v ===== *)
(** Choosing the sessions to enroll: [src/internal/enroll/planner.go] and
    [src/internal/enroll/apply.go].

    [Build] looks at every session once, in order of last use, and either selects it or
    records why not.  A session is selected only after its file was seen unchanged for
    long enough, which takes several plans: each plan is given the observations of the
    previous one.  [Revalidate] checks the files again just before they are enrolled.

    Paths are lists of components, so [filepath.Clean] is the identity; times are
    nanoseconds since the epoch.  The formatted time of the plan is kept as a time.  The
    writer probe and the budget read the disk and are arguments, as in the source. *)
From S2P Require Import Prelude GoStd Effects Os Mutation Directory ObjectReader Context Budget.
From stdpp Require Import sorting.
From Stdlib Require Import Ascii.
Local Open Scope Z_scope.

Inductive Reason :=
  ReasonAlreadyManaged | ReasonNotArchived | ReasonInvalidPath | ReasonNamespaceInactive | ReasonMountWarming
| ReasonStabilityPending | ReasonFileChanged | ReasonWriterActive | ReasonDoctorUnhealthy | ReasonMountUnhealthy
| ReasonNamespaceDisabled | ReasonPromotionStage | ReasonInsufficientBudget | ReasonBatchLimit.
#[export] Instance Reason_eq_dec : EqDecision Reason.
Proof. solve_decision. Defined.

(** A path as the session index has it. *)
Inductive rollout := Absolute (p : path) | Relative (p : path).
#[export] Instance rollout_eq_dec : EqDecision rollout.
Proof. solve_decision. Defined.
Definition filepath_IsAbs (p : rollout) : bool := match p with Absolute _ => true | Relative _ => false end.
(** The working directory is the root. *)
Definition path_of (p : rollout) : path := match p with Absolute p => p | Relative p => p end.

(** [codex.Session] *)
Record Session := {
  s_ID : string; s_Title : string; s_CWD : string; s_RolloutPath : rollout; s_ModelProvider : string;
  s_Model : string; s_UpdatedAt : Z; s_Archived : bool; s_GitBranch : string;
}.
Record Policy := { po_StableFor : Z; po_BatchSize : Z; po_ArchivedOnly : bool }.
Record Gates := {
  ga_DoctorHealthy : bool; ga_MountHealthy : bool; ga_CanonicalNamespace : bool;
  ga_NamespaceActive : bool; ga_NamespaceReady : bool; ga_EnrollmentAllowed : bool;
}.
Record Observation := { ob_Path : rollout; ob_Size : Z; ob_ModTimeUnixNano : Z; ob_StableSinceUnixNano : Z }.
Definition Observations : Type := gmap string Observation.
Record Fingerprint := { fg_Size : Z; fg_ModTimeUnixNano : Z }.
Definition WriterProbe : Type := Session -> world -> result bool.
Record Input := {
  in_Sessions : list Session; in_Managed : gset string; in_Previous : Observations; in_Now : option Z;
  in_Policy : Policy; in_Gates : Gates; in_WriterActive : option WriterProbe; in_Budget : option Checker;
}.
Record Decision := {
  d_SessionID : string; d_RolloutPath : rollout; d_Archived : bool; d_Eligible : bool; d_Selected : bool;
  d_Reasons : list Reason; d_Fingerprint : Fingerprint;
}.
Record Plan := { pl_GeneratedAt : Z; pl_Decisions : list Decision; pl_Selected : list Decision; pl_Observations : Observations }.

(** ** Estimates *)

Definition enrollmentPersistentBytes (rawBytes : Z) : result Z :=
  if rawBytes <? 0 then Err (errors_new "enrollment byte estimate cannot be negative")
  else
    let overhead := i64 (Z.quot rawBytes 16 + Z.shiftl 1 20) in
    if i64 (max_int64 - overhead) <? rawBytes then Err (errors_new "enrollment byte estimate overflow")
    else
      let estimated := i64 (rawBytes + overhead) in
      if Z.quot max_int64 3 <? estimated then Err (errors_new "enrollment byte estimate overflow")
      else Ok (i64 (estimated * 3)).

Definition addBytes (left_ right_ : Z) : Z * bool :=
  if i64 (max_int64 - left_) <? right_ then (0, true) else (i64 (left_ + right_), false).

(** ** Sessions *)

Definition bad_char (c : Ascii.ascii) : bool :=
  bool_decide (c = "/"%char) || bool_decide (c = "\"%char) || bool_decide (c = "000"%char).
Definition safeSessionID (sessionID : string) : bool :=
  negb (String.eqb sessionID "") && negb (String.eqb sessionID ".") && negb (String.eqb sessionID "..")
  && negb (existsb bad_char (chars sessionID)).

(** [time.Time.Sub] saturates. *)
Definition time_Sub (t u : Z) : Z := Z.max (- 2 ^ 63) (Z.min max_int64 (t - u)).
Definition UnixNano (t : Z) : Z := i64 t.

(** The order of [sort.Slice]. *)
Definition session_le (a b : Session) : Prop :=
  s_UpdatedAt a < s_UpdatedAt b
  \/ (s_UpdatedAt a = s_UpdatedAt b /\ bytes_Compare (string_bytes (s_ID a)) (string_bytes (s_ID b)) <> Gt).
#[export] Instance session_le_dec : RelDecision session_le.
Proof. intros a b. unfold session_le. apply _. Defined.

(** ** Building a plan *)

Definition blank (session : Session) (reasons : list Reason) (fingerprint : Fingerprint) (selected : bool) : Decision :=
  {| d_SessionID := s_ID session; d_RolloutPath := s_RolloutPath session; d_Archived := s_Archived session;
     d_Eligible := selected; d_Selected := selected; d_Reasons := reasons; d_Fingerprint := fingerprint |}.
Definition no_fingerprint : Fingerprint := {| fg_Size := 0; fg_ModTimeUnixNano := 0 |}.

(** The checks that look at no file. *)
Definition early_reason (input : Input) (session : Session) : option Reason :=
  let gates := in_Gates input in
  if decide (s_ID session ∈ in_Managed input) then Some ReasonAlreadyManaged
  else if negb (safeSessionID (s_ID session)) || negb (filepath_IsAbs (s_RolloutPath session)) then Some ReasonInvalidPath
  else if negb (ga_MountHealthy gates) then Some ReasonMountUnhealthy
  else if negb (ga_CanonicalNamespace gates) then Some ReasonNamespaceDisabled
  else if negb (ga_NamespaceActive gates) then Some ReasonNamespaceInactive
  else if negb (ga_NamespaceReady gates) then Some ReasonMountWarming
  else None.

Definition is_unchanged (previous : option Observation) (session : Session) (info : FileInfo) : bool :=
  match previous with
  | None => false
  | Some previous =>
      bool_decide (ob_Path previous = s_RolloutPath session) && (ob_Size previous =? fi_size info)
      && (ob_ModTimeUnixNano previous =? UnixNano (fi_mtime info))
  end.
Definition observe (now : Z) (previous : option Observation) (session : Session) (info : FileInfo) : Observation :=
  {| ob_Path := s_RolloutPath session; ob_Size := fi_size info; ob_ModTimeUnixNano := UnixNano (fi_mtime info);
     ob_StableSinceUnixNano :=
       match previous with
       | Some p => if is_unchanged previous session info then ob_StableSinceUnixNano p else UnixNano now
       | None => UnixNano now
       end |}.

Definition stability (now stableFor : Z) (previous : option Observation) (session : Session) (info : FileInfo) : list Reason :=
  match previous with
  | None => [ReasonStabilityPending]
  | Some _ =>
      if negb (is_unchanged previous session info) then [ReasonFileChanged]
      else if time_Sub now (ob_StableSinceUnixNano (observe now previous session info)) <? stableFor then [ReasonStabilityPending]
      else if time_Sub now (fi_mtime info) <? stableFor then [ReasonStabilityPending]
      else []
  end.

(** The reasons that depend on neither the batch nor the budget. *)
Definition file_reasons (input : Input) (now : Z) (session : Session) (info : FileInfo) : CM (list Reason) :=
  let* w := get in
  let archived := if po_ArchivedOnly (in_Policy input) && negb (s_Archived session) then [ReasonNotArchived] else [] in
  let doctor := if negb (ga_DoctorHealthy (in_Gates input)) then [ReasonDoctorUnhealthy] else [] in
  let stage := if negb (ga_EnrollmentAllowed (in_Gates input)) then [ReasonPromotionStage] else [] in
  let* writer := match in_WriterActive input with
                 | None => ret []
                 | Some probe =>
                     let* active := wrap "probe writer for %s: %w" (lift (probe session w.2)) in
                     ret (if (active : bool) then [ReasonWriterActive] else [])
                 end in
  ret (archived ++ doctor ++ stage ++ writer
       ++ stability now (po_StableFor (in_Policy input)) (in_Previous input !! s_ID session) session info).

(** The variables of the loop. *)
Record planning := { pg_plan : Plan; pg_bytes : Z }.
Definition add_decision (d : Decision) (g : planning) : planning :=
  let p := pg_plan g in
  {| pg_plan := {| pl_GeneratedAt := pl_GeneratedAt p; pl_Decisions := pl_Decisions p ++ [d]; pl_Selected := pl_Selected p;
                   pl_Observations := pl_Observations p |}; pg_bytes := pg_bytes g |}.
Definition add_selected (d : Decision) (bytes : Z) (g : planning) : planning :=
  let p := pg_plan g in
  {| pg_plan := {| pl_GeneratedAt := pl_GeneratedAt p; pl_Decisions := pl_Decisions p; pl_Selected := pl_Selected p ++ [d];
                   pl_Observations := pl_Observations p |}; pg_bytes := bytes |}.
Definition add_observation (id : string) (o : Observation) (g : planning) : planning :=
  let p := pg_plan g in
  {| pg_plan := {| pl_GeneratedAt := pl_GeneratedAt p; pl_Decisions := pl_Decisions p; pl_Selected := pl_Selected p;
                   pl_Observations := <[id := o]> (pl_Observations p) |}; pg_bytes := pg_bytes g |}.

(** The last switch: the batch limit, then the budget. *)
Definition price (input : Input) (session : Session) (info : FileInfo) (cumulative : Z) (selected : list Decision)
  : CM (list Reason) :=
  let* w := get in
  if po_BatchSize (in_Policy input) <=? zlen selected then ret [ReasonBatchLimit]
  else
    match in_Budget input with
    | None => ret [ReasonInsufficientBudget]
    | Some check =>
        match check {| pj_Operation := String.append "enroll:" (s_ID session); pj_AdditionalPersistentBytes := cumulative;
                       pj_TemporaryBytes := fi_size info; pj_TemporaryPersistentOverlapBytes := 0; pj_ReclaimableBytes := 0 |} w.2 with
        | Ok _ => ret []
        | Err e => if errors_is "storage budget exceeded" e then ret [ReasonInsufficientBudget] else fail e
        end
    end.

(** One pass of the loop. *)
Definition plan_session (input : Input) (now : Z) (session : Session) (g : planning) : CM planning :=
  check_ctx ;;;
  match early_reason input session with
  | Some reason => ret (add_decision (blank session [reason] no_fingerprint false) g)
  | None =>
      let* info := try_ (on_world (os_Stat (path_of (s_RolloutPath session)))) in
      match info with
      | Err _ => ret (add_decision (blank session [ReasonInvalidPath] no_fingerprint false) g)
      | Ok info =>
          if negb (fi_regular info) then ret (add_decision (blank session [ReasonInvalidPath] no_fingerprint false) g)
          else
            let fingerprint := {| fg_Size := fi_size info; fg_ModTimeUnixNano := UnixNano (fi_mtime info) |} in
            let g := add_observation (s_ID session) (observe now (in_Previous input !! s_ID session) session info) g in
            let* reasons := file_reasons input now session info in
            match reasons with
            | _ :: _ => ret (add_decision (blank session reasons fingerprint false) g)
            | [] =>
                let* projected := lift (enrollmentPersistentBytes (fi_size info)) in
                let '(cumulative, overflow) := addBytes (pg_bytes g) projected in
                if (overflow : bool) then fail (errors_new "enrollment batch byte estimate overflow")
                else
                  let* reasons := price input session info cumulative (pl_Selected (pg_plan g)) in
                  match reasons with
                  | [] => let d := blank session [] fingerprint true in ret (add_decision d (add_selected d cumulative g))
                  | _ => ret (add_decision (blank session reasons fingerprint false) g)
                  end
            end
      end
  end.

Fixpoint plan_loop (input : Input) (now : Z) (sessions : list Session) (g : planning) : CM planning :=
  match sessions with
  | [] => ret g
  | session :: sessions => let* g := plan_session input now session g in plan_loop input now sessions g
  end.

Definition hour : Z := 3600 * 1000000000.
(** The defaults that [Build] fills in. *)
Definition with_defaults (input : Input) : Input :=
  let policy := in_Policy input in
  {| in_Sessions := in_Sessions input; in_Managed := in_Managed input; in_Previous := in_Previous input; in_Now := in_Now input;
     in_Policy := {| po_StableFor := if po_StableFor policy <=? 0 then hour else po_StableFor policy;
                     po_BatchSize := if po_BatchSize policy <=? 0 then 1 else po_BatchSize policy;
                     po_ArchivedOnly := po_ArchivedOnly policy |};
     in_Gates := in_Gates input; in_WriterActive := in_WriterActive input; in_Budget := in_Budget input |}.
Definition empty_planning (now : Z) : planning :=
  {| pg_plan := {| pl_GeneratedAt := now; pl_Decisions := []; pl_Selected := []; pl_Observations := ∅ |}; pg_bytes := 0 |}.

Definition Build (input : Input) : CM Plan :=
  let* w := get in
  let now := match in_Now input with Some t => t | None => w_clock w.2 end in
  let input := with_defaults input in
  let* g := plan_loop input now (merge_sort session_le (in_Sessions input)) (empty_planning now) in
  ret (pg_plan g).

(** ** Progress *)

Definition counts_reason (reason : Reason) : bool :=
  match reason with ReasonStabilityPending | ReasonFileChanged | ReasonBatchLimit => true | _ => false end.
Definition decisionCountsAsWaiting (decision : Decision) : bool :=
  if d_Selected decision || d_Eligible decision then true
  else match d_Reasons decision with [] => false | reasons => forallb counts_reason reasons end.
Definition WaitingCount (plan : Plan) : Z := zlen (List.filter decisionCountsAsWaiting (pl_Decisions plan)).

(** ** Applying a plan *)

Record ApplyResult := { ar_Selected : Z; ar_Applied : Z; ar_SkippedChanged : Z; ar_SkippedManaged : Z }.
Definition count_managed (r : ApplyResult) : ApplyResult :=
  {| ar_Selected := ar_Selected r; ar_Applied := ar_Applied r; ar_SkippedChanged := ar_SkippedChanged r; ar_SkippedManaged := ar_SkippedManaged r + 1 |}.
Definition count_changed (r : ApplyResult) : ApplyResult :=
  {| ar_Selected := ar_Selected r; ar_Applied := ar_Applied r; ar_SkippedChanged := ar_SkippedChanged r + 1; ar_SkippedManaged := ar_SkippedManaged r |}.
Definition count_applied (r : ApplyResult) : ApplyResult :=
  {| ar_Selected := ar_Selected r; ar_Applied := ar_Applied r + 1; ar_SkippedChanged := ar_SkippedChanged r; ar_SkippedManaged := ar_SkippedManaged r |}.

(** [os.Lstat] still finds the file of the plan. *)
Definition still_matches (decision : Decision) (info : result FileInfo) : bool :=
  match info with
  | Err _ => false
  | Ok info => fi_regular info && (fi_size info =? fg_Size (d_Fingerprint decision))
               && (UnixNano (fi_mtime info) =? fg_ModTimeUnixNano (d_Fingerprint decision))
  end.

Section Apply.
Context (IsManaged : string -> OS bool) (ApplyOne : Decision -> OS unit).

(** The results come with the error, if any. *)
Fixpoint revalidate_loop (selected decisions : list Decision) (r : ApplyResult) : CM (list Decision * ApplyResult * option error) :=
  match selected with
  | [] => ret (decisions, r, None)
  | decision :: selected =>
      let* cancelled := error_of check_ctx in
      match cancelled with
      | Some e => ret (decisions, r, Some e)
      | None =>
          let* managed := try_ (on_world (IsManaged (d_SessionID decision))) in
          match managed with
          | Err e => ret (decisions, r, Some e)
          | Ok true => revalidate_loop selected decisions (count_managed r)
          | Ok false =>
              let* info := try_ (on_world (os_Stat (path_of (d_RolloutPath decision)))) in
              if still_matches decision info then revalidate_loop selected (decisions ++ [decision]) r
              else revalidate_loop selected decisions (count_changed r)
          end
      end
  end.
Definition Revalidate (plan : Plan) (limit : Z) : CM (list Decision * ApplyResult * option error) :=
  let n := zlen (pl_Selected plan) in
  let limit := if (limit <=? 0) || (n <? limit) then n else limit in
  revalidate_loop (ztake limit (pl_Selected plan)) []
    {| ar_Selected := Z.min limit n; ar_Applied := 0; ar_SkippedChanged := 0; ar_SkippedManaged := 0 |}.

Fixpoint apply_loop (decisions : list Decision) (r : ApplyResult) : CM (ApplyResult * option error) :=
  match decisions with
  | [] => ret (r, None)
  | decision :: decisions =>
      let* done := error_of (on_world (ApplyOne decision)) in
      match done with
      | Some e => ret (r, Some (errorf "apply enrollment for %s: %w" e))
      | None => apply_loop decisions (count_applied r)
      end
  end.
Definition Apply (plan : Plan) (limit : Z) : CM (ApplyResult * option error) :=
  let* (decisions, r, err) := Revalidate plan limit in
  match err with
  | Some e => ret (r, Some e)
  | None => apply_loop decisions r
  end.
End Apply.

(** ** Estimates are exact *)

Definition estimate (size : Z) : Z := 3 * (size + size / 16 + 2 ^ 20).

Lemma enrollmentPersistentBytes_spec n : in_i64 n ->
  enrollmentPersistentBytes n
  = if n <? 0 then Err (errors_new "enrollment byte estimate cannot be negative")
    else if max_int64 <? estimate n then Err (errors_new "enrollment byte estimate overflow") else Ok (estimate n).
Proof.
  unfold in_i64. intros Hn. unfold enrollmentPersistentBytes. destruct (n <? 0) eqn:E0; [done|]. zbool.
  rewrite Z.quot_div_nonneg by lia. change (Z.shiftl 1 20) with (2 ^ 20).
  assert (0 <= n / 16 < 2 ^ 59) as Hq by (Z.to_euclidean_division_equations; lia).
  rewrite (i64_id (n / 16 + 2 ^ 20)) by (unfold in_i64; lia).
  rewrite (i64_id (max_int64 - _)) by (unfold in_i64, max_int64; lia).
  change (Z.quot max_int64 3) with 3074457345618258602.
  unfold estimate. destruct (max_int64 - (n / 16 + 2 ^ 20) <? n) eqn:E1; zbool.
  { replace (max_int64 <? 3 * (n + n / 16 + 2 ^ 20)) with true by (symmetry; apply Z.ltb_lt; unfold max_int64 in *; lia). done. }
  rewrite (i64_id (n + _)) by (unfold in_i64, max_int64 in *; lia). unfold max_int64 in *.
  destruct (3074457345618258602 <? n + (n / 16 + 2 ^ 20)) eqn:E2; zbool.
  - replace (2 ^ 63 - 1 <? 3 * (n + n / 16 + 2 ^ 20)) with true by (symmetry; apply Z.ltb_lt; lia). done.
  - replace (2 ^ 63 - 1 <? 3 * (n + n / 16 + 2 ^ 20)) with false by (symmetry; apply Z.ltb_ge; lia).
    rewrite i64_id by (unfold in_i64; lia). f_equal. lia.
Qed.
Lemma addBytes_spec a b : 0 <= a <= max_int64 -> 0 <= b <= max_int64 ->
  addBytes a b = if max_int64 <? a + b then (0, true) else (a + b, false).
Proof.
  unfold addBytes, max_int64. intros Ha Hb. rewrite (i64_id (2 ^ 63 - 1 - a)) by (unfold in_i64; lia).
  destruct (2 ^ 63 - 1 - a <? b) eqn:E; zbool.
  - by replace (2 ^ 63 - 1 <? a + b) with true by (symmetry; apply Z.ltb_lt; lia).
  - replace (2 ^ 63 - 1 <? a + b) with false by (symmetry; apply Z.ltb_ge; lia). by rewrite i64_id by (unfold in_i64; lia).
Qed.

(** ** What a plan promises *)

Lemma wp_Stat_file p w : wp (os_Stat p) w (fun r w' => same_files w w' /\
  match r with
  | Ok info => fi_regular info = true -> exists i, inode_of w p = Some i /\ fi_size info = zlen (i_data i) /\ fi_mtime info = i_mtime i
  | Err _ => True
  end).
Proof.
  apply wp_syscall; intros fs; [done|]. unfold wp, inode_of. simpl. destruct (w_names w !! p) as [n|] eqn:E; simpl.
  - destruct (w_inodes w !! n) as [i|] eqn:Ei; simpl; [|done]. split; [done|]. intros _. by exists i.
  - by case_decide.
Qed.

Section Planning.
Context (input : Input) (now : Z) (w : world).
Abbreviation all := (in_Sessions input).

(** The file that a session names. *)
Definition file_of (session : Session) (i : inode) : Prop :=
  exists p, s_RolloutPath session = Absolute p /\ inode_of w p = Some i.
Definition print_of (i : inode) : Fingerprint := {| fg_Size := zlen (i_data i); fg_ModTimeUnixNano := UnixNano (i_mtime i) |}.
(** A question that was answered about these files. *)
Definition answered {A} (ask : world -> A) (answer : A) : Prop := exists w', same_files w w' /\ ask w' = answer.

(** Everything that a selected session satisfies; [bytes] is the estimate for the
    sessions selected so far, this one included. *)
Record vetted (session : Session) (i : inode) (bytes : Z) : Prop := {
  ve_managed : s_ID session ∉ in_Managed input;
  ve_safe : safeSessionID (s_ID session) = true;
  ve_gates : in_Gates input = {| ga_DoctorHealthy := true; ga_MountHealthy := true; ga_CanonicalNamespace := true;
                                 ga_NamespaceActive := true; ga_NamespaceReady := true; ga_EnrollmentAllowed := true |};
  ve_file : file_of session i;
  ve_archived : po_ArchivedOnly (in_Policy input) = true -> s_Archived session = true;
  ve_writer : forall probe, in_WriterActive input = Some probe -> answered (probe session) (Ok false);
  ve_seen : exists o, in_Previous input !! s_ID session = Some o /\ ob_Path o = s_RolloutPath session
    /\ ob_Size o = zlen (i_data i) /\ ob_ModTimeUnixNano o = UnixNano (i_mtime i)
    /\ po_StableFor (in_Policy input) <= time_Sub now (ob_StableSinceUnixNano o);
  ve_old : po_StableFor (in_Policy input) <= time_Sub now (i_mtime i);
  ve_budget : exists check, in_Budget input = Some check
    /\ answered (check {| pj_Operation := String.append "enroll:" (s_ID session); pj_AdditionalPersistentBytes := bytes;
         pj_TemporaryBytes := zlen (i_data i); pj_TemporaryPersistentOverlapBytes := 0; pj_ReclaimableBytes := 0 |}) (Ok tt);
}.

Definition total (selected : list Decision) : Z := foldr (fun d n => estimate (fg_Size (d_Fingerprint d)) + n) 0 selected.
Definition decision_ok (d : Decision) : Prop := d_Eligible d = d_Selected d /\ (d_Selected d = true <-> d_Reasons d = []).

Definition selects (session : Session) (d : Decision) : Prop :=
  exists i, file_of session i /\ d = blank session [] (print_of i) true.
Definition observed_as (id : string) (o : Observation) : Prop := exists session i info, session ∈ all /\ s_ID session = id
  /\ file_of session i /\ fi_size info = zlen (i_data i) /\ fi_mtime info = i_mtime i
  /\ o = observe now (in_Previous input !! id) session info.

(** The state of the loop after the sessions [seen]. *)
Record planned (seen : list Session) (g : planning) : Prop := {
  pn_ids : map d_SessionID (pl_Decisions (pg_plan g)) = map s_ID seen;
  pn_decisions : Forall decision_ok (pl_Decisions (pg_plan g));
  pn_selected : pl_Selected (pg_plan g) = List.filter d_Selected (pl_Decisions (pg_plan g));
  pn_batch : zlen (pl_Selected (pg_plan g)) <= po_BatchSize (in_Policy input);
  pn_bytes : pg_bytes g = total (pl_Selected (pg_plan g));
  pn_bytes_range : 0 <= pg_bytes g <= max_int64;
  pn_sub : exists sub, sub `sublist_of` seen /\ Forall2 selects sub (pl_Selected (pg_plan g));
  pn_vetted : forall k d, pl_Selected (pg_plan g) !! k = Some d -> exists session i, session ∈ all
    /\ d = blank session [] (print_of i) true /\ vetted session i (total (take (S k) (pl_Selected (pg_plan g))));
  pn_observed : forall id o, pl_Observations (pg_plan g) !! id = Some o -> observed_as id o;
}.

Definition files_bytes (files : list inode) : Z := foldr (fun i n => estimate (zlen (i_data i)) + n) 0 files.
Lemma files_bytes_snoc files i : files_bytes (files ++ [i]) = files_bytes files + estimate (zlen (i_data i)).
Proof. unfold files_bytes. induction files as [|x l IH]; cbn [app foldr]; lia. Qed.

(** Why [Build] may fail: it was cancelled, the probe or the budget failed, or the
    estimate of some sessions exceeds an int64. *)
Definition excuse (cancellable : Prop) (e : error) : Prop :=
  cancellable
  \/ (exists probe session e', in_WriterActive input = Some probe /\ answered (probe session) (Err e'))
  \/ (exists check p, in_Budget input = Some check /\ answered (check p) (Err e) /\ errors_is "storage budget exceeded" e = false)
  \/ (exists sub files, sub `sublist_of` merge_sort session_le all /\ Forall2 file_of sub files
        /\ max_int64 < files_bytes files).

Lemma planned_reject seen g session reasons fingerprint : reasons <> [] -> planned seen g ->
  planned (seen ++ [session]) (add_decision (blank session reasons fingerprint false) g).
Proof.
  intros Hr []. split; cbn [add_decision pg_plan pg_bytes pl_Decisions pl_Selected pl_Observations]; auto.
  - rewrite !map_app. by f_equal.
  - apply Forall_app. split; [done|]. constructor; [|done]. by split.
  - rewrite List.filter_app. cbn. by rewrite app_nil_r.
  - destruct pn_sub0 as (sub & Hsub & Hall). exists sub. split; [|done]. by apply sublist_inserts_r.
Qed.
Lemma planned_observe seen g id o : observed_as id o -> planned seen g -> planned seen (add_observation id o g).
Proof.
  intros Ho []. split; cbn [add_observation pg_plan pg_bytes pl_Decisions pl_Selected pl_Observations]; auto.
  intros id' o' [[<- <-]|[_ H]]%lookup_insert_Some; auto.
Qed.
Lemma total_snoc l d : total (l ++ [d]) = total l + estimate (fg_Size (d_Fingerprint d)).
Proof. unfold total. induction l as [|x l IH]; cbn [app foldr]; lia. Qed.
Lemma planned_select seen g session i cumulative : session ∈ all -> planned seen g -> vetted session i cumulative ->
  zlen (pl_Selected (pg_plan g)) < po_BatchSize (in_Policy input) ->
  cumulative = pg_bytes g + estimate (zlen (i_data i)) -> cumulative <= max_int64 ->
  let d := blank session [] (print_of i) true in planned (seen ++ [session]) (add_decision d (add_selected d cumulative g)).
Proof.
  intros Hin [] Hv Hbatch Hc Hmax d. assert (0 <= estimate (zlen (i_data i))) as Hpos.
  { unfold estimate. pose proof (zlen_nonneg (i_data i)). assert (0 <= zlen (i_data i) / 16) by (by apply Z.div_pos). lia. }
  assert (total (pl_Selected (pg_plan g) ++ [d]) = cumulative) as Ht by (rewrite total_snoc; cbn; lia).
  split; cbn [add_decision add_selected pg_plan pg_bytes pl_Decisions pl_Selected pl_Observations]; auto.
  - rewrite !map_app. by f_equal.
  - apply Forall_app. split; [done|]. constructor; [|done]. by split.
  - rewrite List.filter_app. cbn. by f_equal.
  - rewrite zlen_app, zlen_cons, zlen_nil. lia.
  - lia.
  - destruct pn_sub0 as (sub & Hsub & Hall). exists (sub ++ [session]). split; [by apply sublist_app|].
    apply Forall2_app; [done|]. constructor; [|done]. exists i. split; [apply Hv|done].
  - intros k e [Hk|[Hk [Hk0 <-]%list_lookup_singleton_Some]]%lookup_app_Some.
    + destruct (pn_vetted0 k e Hk) as (se & ie & ? & ? & ?). exists se, ie. split_and!; [done..|].
      rewrite take_app_le; [done|]. apply lookup_lt_Some in Hk. lia.
    + exists session, i. split_and!; [done..|]. rewrite take_ge by (rewrite length_app; cbn [length]; lia). by rewrite Ht.
Qed.

Hypothesis small_files : forall p i, inode_of w p = Some i -> zlen (i_data i) <= max_int64.

Lemma early_reason_None session : early_reason input session = None -> s_ID session ∉ in_Managed input
  /\ safeSessionID (s_ID session) = true /\ (exists p, s_RolloutPath session = Absolute p)
  /\ ga_MountHealthy (in_Gates input) = true /\ ga_CanonicalNamespace (in_Gates input) = true
  /\ ga_NamespaceActive (in_Gates input) = true /\ ga_NamespaceReady (in_Gates input) = true.
Proof.
  unfold early_reason. case_decide; [done|]. destruct (safeSessionID _); [|done].
  destruct (s_RolloutPath session) as [p|p]; cbn; [|done].
  destruct (in_Gates input) as [? [] [] [] [] ?]; cbn; try done. intros _. split_and!; eauto.
Qed.

Lemma stability_nil previous session info : stability now (po_StableFor (in_Policy input)) previous session info = [] ->
  exists o, previous = Some o /\ ob_Path o = s_RolloutPath session /\ ob_Size o = fi_size info
    /\ ob_ModTimeUnixNano o = UnixNano (fi_mtime info)
    /\ po_StableFor (in_Policy input) <= time_Sub now (ob_StableSinceUnixNano o)
    /\ po_StableFor (in_Policy input) <= time_Sub now (fi_mtime info).
Proof.
  unfold stability, observe. destruct previous as [o|]; [|done]. destruct (is_unchanged (Some o) session info) eqn:E; [|done].
  cbn [negb ob_StableSinceUnixNano]. destruct (_ <? _) eqn:E1; [done|]. destruct (_ <? _) eqn:E2 in |- *; [done|]. intros _. zbool.
  exists o. unfold is_unchanged in E. apply andb_true_iff in E as [[E%bool_decide_eq_true ?]%andb_true_iff ?]. zbool. by split_and!.
Qed.

(** The questions about a file. *)
Lemma wp_file_reasons session info s : same_files w s.2 ->
  wp (file_reasons input now session info) s (fun r s' => s' = s /\
    match r with
    | Ok reasons => reasons = [] ->
        (po_ArchivedOnly (in_Policy input) = true -> s_Archived session = true) /\ ga_DoctorHealthy (in_Gates input) = true
        /\ ga_EnrollmentAllowed (in_Gates input) = true
        /\ (forall probe, in_WriterActive input = Some probe -> answered (probe session) (Ok false))
        /\ stability now (po_StableFor (in_Policy input)) (in_Previous input !! s_ID session) session info = []
    | Err e => exists probe session e', in_WriterActive input = Some probe /\ answered (probe session) (Err e')
    end).
Proof.
  intros Hs. unfold file_reasons, wp, bind, get, wrap, lift, ret. destruct (in_WriterActive input) as [probe|] eqn:Ep; cbn [fst snd].
  - destruct (probe session s.2) as [[]|e] eqn:Ea; cbn [fst snd]; (split; [done|]); [| |exists probe, session, e; split; [done|by exists s.2]].
    + destruct (_ && _), (ga_DoctorHealthy _), (ga_EnrollmentAllowed _); done.
    + destruct (po_ArchivedOnly _), (s_Archived session), (ga_DoctorHealthy _), (ga_EnrollmentAllowed _); cbn; try done;
        intros H; split_and!; try done; intros pr [= <-]; by exists s.2.
  - split; [done|]. destruct (po_ArchivedOnly _), (s_Archived session), (ga_DoctorHealthy _), (ga_EnrollmentAllowed _); cbn; try done.
Qed.
Lemma wp_price session info cumulative selected s : same_files w s.2 ->
  wp (price input session info cumulative selected) s (fun r s' => s' = s /\
    match r with
    | Ok reasons => reasons = [] -> zlen selected < po_BatchSize (in_Policy input) /\ exists check, in_Budget input = Some check
        /\ answered (check {| pj_Operation := String.append "enroll:" (s_ID session); pj_AdditionalPersistentBytes := cumulative;
             pj_TemporaryBytes := fi_size info; pj_TemporaryPersistentOverlapBytes := 0; pj_ReclaimableBytes := 0 |}) (Ok tt)
    | Err e => exists check p, in_Budget input = Some check /\ answered (check p) (Err e) /\ errors_is "storage budget exceeded" e = false
    end).
Proof.
  intros Hs. unfold price, wp, bind, get. destruct (_ <=? _) eqn:El; [done|]. zbool. destruct (in_Budget input) as [check|]; [|done].
  set (p := Build_Projection _ _ _ _ _). destruct (check p s.2) as [[]|e] eqn:Ec; cbn.
  - split; [done|]. intros _. split; [done|]. exists check. split; [done|by exists s.2].
  - destruct (errors_is _ e) eqn:Ee; cbn; (split; [done|]); [done|]. exists check, p. split_and!; [done|by exists s.2|done].
Qed.

Lemma files_total sub selected : Forall2 selects sub selected ->
  exists files, Forall2 file_of sub files /\ files_bytes files = total selected.
Proof.
  induction 1 as [|session d sub selected (i & Hi & ->) _ (files & IH1 & IH2)]; [by exists []|].
  exists (i :: files). split; [by constructor|]. unfold files_bytes, total in *. cbn. lia.
Qed.

Lemma wp_plan_session seen session rest g s : merge_sort session_le all = seen ++ session :: rest ->
  same_files w s.2 -> planned seen g ->
  wp (plan_session input now session g) s (fun r s' => same_files w s'.2 /\ (s.1 = None -> s'.1 = None)
    /\ match r with Ok g' => planned (seen ++ [session]) g' | Err e => excuse (s.1 <> None) e end).
Proof.
  intros Hall Hs Hg. assert (session ∈ all) as Hin.
  { rewrite <- (merge_sort_Permutation session_le all), Hall. apply elem_of_app. right. by left. }
  unfold plan_session. rewrite wp_bind. destruct s as [c ws]. cbn [fst snd] in *.
  eapply wp_mono; [apply wp_check_ctx|]. intros [u|e] [c1 w1] (Hw1 & Hc1 & Hr); cbn [fst snd] in *; subst w1; [|by split_and!; [..|left]].
  destruct (early_reason input session) as [reason|] eqn:Ee; [rewrite wp_ret; split_and!; [done..|by apply planned_reject]|].
  apply early_reason_None in Ee as (Hm & Hsafe & (p & Hp) & Hg1 & Hg2 & Hg3 & Hg4). rewrite Hp. cbn [path_of].
  rewrite wp_bind, wp_try. unfold on_world. rewrite wp_zoom. eapply wp_mono; [apply wp_Stat_file|]. cbn [snd].
  intros r w2 [Hs2 Hinfo]. assert (same_files w w2) as Hw2 by by eapply same_files_trans.
  destruct r as [info|e]; [|rewrite wp_ret; split_and!; [done..|by apply planned_reject]].
  destruct (fi_regular info) eqn:Er; cbn [negb]; [|rewrite wp_ret; split_and!; [done..|by apply planned_reject]].
  destruct (Hinfo eq_refl) as (i & Hi & Hsize & Hmtime).
  assert (inode_of w p = Some i) as Hiw by (destruct Hs as (E1 & E2 & _); unfold inode_of in *; by rewrite <- E1, <- E2).
  assert (file_of session i) as Hfile by by exists p.
  set (g1 := add_observation _ _ g). assert (planned seen g1) as Hg1'.
  { apply planned_observe; [|done]. by exists session, i, info. }
  rewrite wp_bind. eapply wp_mono; [by apply wp_file_reasons|]. intros r s3 [-> Hr3].
  destruct r as [[|reason reasons]|e]; [|rewrite wp_ret; split_and!; [done..|by apply planned_reject]|split_and!; [done..|by right; left]].
  destruct (Hr3 eq_refl) as (Harch & Hdoc & Hallow & Hprobe & Hstab).
  apply stability_nil in Hstab as (o & Ho & Ho1 & Ho2 & Ho3 & Ho4 & Ho5). rewrite Hsize in *. rewrite Hmtime in *.
  pose proof (small_files p i Hiw) as Hsmall. pose proof (zlen_nonneg (i_data i)) as Hnonneg. pose proof (pn_bytes_range _ _ Hg) as Hrange.
  assert (0 <= estimate (zlen (i_data i))) as Hpos by (unfold estimate; assert (0 <= zlen (i_data i) / 16) by (by apply Z.div_pos); lia).
  assert (max_int64 < pg_bytes g + estimate (zlen (i_data i)) -> forall e, excuse (c <> None) e) as Hover.
  { intros Hbig e. right. right. right. destruct (pn_sub _ _ Hg) as (sub & Hsub & Hsel). destruct (files_total _ _ Hsel) as (files & Hf1 & Hf2).
    exists (sub ++ [session]), (files ++ [i]). split_and!.
    - rewrite Hall. apply sublist_app; [done|]. apply sublist_skip, sublist_nil_l.
    - apply Forall2_app; [done|]. by constructor.
    - rewrite files_bytes_snoc, Hf2, <- (pn_bytes _ _ Hg). lia. }
  rewrite wp_bind, wp_lift, enrollmentPersistentBytes_spec by (unfold in_i64, max_int64 in *; lia).
  rewrite (proj2 (Z.ltb_ge _ 0)) by lia. destruct (max_int64 <? estimate _) eqn:E1; zbool; [split_and!; [done..|apply Hover; lia]|].
  rewrite addBytes_spec by (cbn [g1 add_observation pg_bytes]; lia). destruct (max_int64 <? _) eqn:E2; zbool; [split_and!; [done..|by apply Hover]|].
  rewrite wp_bind. eapply wp_mono; [by apply wp_price|]. intros r s4 [-> Hr4].
  destruct r as [[|reason reasons]|e]; rewrite ?wp_ret; [|split_and!; [done..|by apply planned_reject]|split_and!; [done..|by right; right; left]].
  destruct (Hr4 eq_refl) as (Hbatch & check & Hck & Hans). rewrite Hsize in Hans. split_and!; [done..|].
  apply planned_select; [done|done| |done|done|done]. split; try done.
  - destruct (in_Gates input); cbn in *; by subst.
  - by exists o.
  - by exists check.
Qed.

Lemma wp_plan_loop rest : forall seen g s, merge_sort session_le all = seen ++ rest -> same_files w s.2 -> planned seen g ->
  wp (plan_loop input now rest g) s (fun r s' => same_files w s'.2
    /\ match r with Ok g' => planned (merge_sort session_le all) g' | Err e => excuse (s.1 <> None) e end).
Proof.
  induction rest as [|session rest IH]; intros seen g s Hall Hs Hg; cbn [plan_loop].
  - rewrite wp_ret. split; [done|]. by rewrite Hall, app_nil_r.
  - rewrite wp_bind. eapply wp_mono; [by eapply wp_plan_session|]. intros [g'|e] s' (Hs' & Hc & Hr); [|done].
    eapply wp_mono; [apply (IH (seen ++ [session])); [by rewrite <- app_assoc|done|done]|].
    intros [g2|e] s2 [Hs2 Hr2]; (split; [done|]); [done|]. destruct Hr2 as [Hcan|Hr2]; [|by right].
    destruct (decide (s.1 = None)) as [Hn|Hn]; [by rewrite Hc in Hcan|by left].
Qed.
End Planning.

Lemma wp_Build input s now : (forall p i, inode_of s.2 p = Some i -> zlen (i_data i) <= max_int64) -> in_Now input = Some now ->
  let full := with_defaults input in
  wp (Build input) s (fun r _ =>
    match r with
    | Err e => excuse full s.2 (s.1 <> None) e
    | Ok plan => exists bytes, planned full now s.2 (merge_sort session_le (in_Sessions input)) {| pg_plan := plan; pg_bytes := bytes |}
    end).
Proof.
  intros Hsmall Hnow full. unfold Build. rewrite wp_bind, wp_get, Hnow, wp_bind. fold full.
  eapply wp_mono; [apply (wp_plan_loop full now s.2 Hsmall (merge_sort session_le (in_Sessions full)) []); [done|done|]|].
  - split; cbn; try done; [|by exists []]. rewrite zlen_nil. destruct (po_BatchSize _ <=? 0) eqn:E; zbool; lia.
  - intros [g|e] s' [Hs' Hr]; [|done]. rewrite wp_ret. exists (pg_bytes g). by destruct g.
Qed.

(** A plan is right.  [Build] decides about every session exactly once, in the order
    of last use; the selected sessions are the ones without a reason against them, at
    most a batch; and each is unmanaged, named safely, behind open gates, archived if
    that is asked, has no active writer, and has been seen unchanged for the required
    time.  The budget approved the estimates of all sessions selected up to it, summed
    without overflow.  It fails only when cancelled, when the probe or the budget
    fails, or when the estimates of some sessions exceed an int64. *)
Theorem plan_sound input s now :
  (forall p i, inode_of s.2 p = Some i -> zlen (i_data i) <= max_int64) -> in_Now input = Some now ->
  let full := with_defaults input in
  wp (Build input) s (fun r _ =>
    match r with
    | Err e => excuse full s.2 (s.1 <> None) e
    | Ok plan =>
        map d_SessionID (pl_Decisions plan) = map s_ID (merge_sort session_le (in_Sessions input))
        /\ Forall decision_ok (pl_Decisions plan)
        /\ pl_Selected plan = List.filter d_Selected (pl_Decisions plan)
        /\ zlen (pl_Selected plan) <= Z.max 1 (po_BatchSize (in_Policy input))
        /\ forall k d, pl_Selected plan !! k = Some d -> exists session i, session ∈ in_Sessions input
             /\ d = blank session [] (print_of i) true
             /\ vetted full now s.2 session i (total (take (S k) (pl_Selected plan)))
    end).
Proof.
  intros Hsmall Hnow full. eapply wp_mono; [by apply wp_Build|]. intros [plan|e] s'; [|done]. intros [bytes []].
  split_and!; try done. etrans; [exact pn_batch0|]. cbn. destruct (po_BatchSize _ <=? 0) eqn:E; zbool; lia.
Qed.

(** ** Plans in sequence *)

(** The plans made so far, the last first, each given the observations of the one
    before; the files may change in any way between them. *)
Definition last_seen (history : list (Z * Plan)) : Observations :=
  match history with [] => ∅ | (_, plan) :: _ => pl_Observations plan end.
Inductive planning_history : list (Z * Plan) -> Prop :=
| history_start : planning_history []
| history_plan history input s s' now plan :
    planning_history history ->
    in_Previous input = last_seen history -> in_Now input = Some now -> in_i64 now ->
    (forall p i, inode_of s.2 p = Some i -> zlen (i_data i) <= max_int64) ->
    Build input s = (Ok plan, s') ->
    planning_history ((now, plan) :: history).

(** A file that looks the same in every plan from the one at [t] on. *)
Definition same_since (id : string) (p : rollout) (size mtime t : Z) (history : list (Z * Plan)) : Prop :=
  exists recent older, history = recent ++ older /\ (exists plan, last recent = Some (t, plan))
    /\ Forall (fun e => exists o, pl_Observations e.2 !! id = Some o /\ ob_Path o = p /\ ob_Size o = size /\ ob_ModTimeUnixNano o = mtime) recent.

Lemma observe_cases now previous session info : let o := observe now previous session info in
  ob_StableSinceUnixNano o = UnixNano now
  \/ exists o', previous = Some o' /\ ob_Path o' = ob_Path o /\ ob_Size o' = ob_Size o
       /\ ob_ModTimeUnixNano o' = ob_ModTimeUnixNano o /\ ob_StableSinceUnixNano o = ob_StableSinceUnixNano o'.
Proof.
  unfold observe. cbn [ob_StableSinceUnixNano ob_Path ob_Size ob_ModTimeUnixNano]. destruct previous as [o'|]; [|by left].
  destruct (is_unchanged (Some o') session info) eqn:E; [right|by left]. exists o'. unfold is_unchanged in E.
  apply andb_true_iff in E as [[E%bool_decide_eq_true ?]%andb_true_iff ?]. zbool. by split_and!.
Qed.

Lemma history_observed history : planning_history history -> forall id o, last_seen history !! id = Some o ->
  same_since id (ob_Path o) (ob_Size o) (ob_ModTimeUnixNano o) (ob_StableSinceUnixNano o) history.
Proof.
  induction 1 as [|history input s s' now plan Hh IH Hprev Hnow Hrange Hsmall Hb]; intros id o Ho; [done|].
  cbn [last_seen] in Ho. pose proof (wp_Build input s now Hsmall Hnow) as HB. unfold wp in HB. rewrite Hb in HB.
  destruct HB as [bytes HB]. destruct (pn_observed _ _ _ _ _ HB id o Ho) as (session & i & info & _ & <- & _ & _ & _ & Hobs).
  cbn [with_defaults in_Previous] in Hobs. rewrite Hprev in Hobs.
  destruct (observe_cases now (last_seen history !! s_ID session) session info) as [Hc|(o' & Ho' & E1 & E2 & E3 & E4)];
    rewrite <- Hobs in *.
  - exists [(now, plan)], history. split_and!; [done| |].
    + exists plan. rewrite Hc. unfold UnixNano. by rewrite i64_id.
    + constructor; [|done]. by exists o.
  - destruct (IH _ _ Ho') as (recent & older & -> & [plan' Hlast] & Hall). exists ((now, plan) :: recent), older. split_and!; [done| |].
    + exists plan'. rewrite E4. by destruct recent.
    + constructor; [by exists o|]. by rewrite <- E1, <- E2, <- E3.
Qed.

(** C25. Only stable files are enrolled.  Over any sequence of plans, whatever happens to
    the files in between, a session selected by the last plan was found with the same
    path, size and modification time, those of its decision, by every plan over a
    period at least as long as the policy asks. *)
Theorem enrolled_was_stable history input s s' now plan d :
  planning_history history -> in_Previous input = last_seen history -> in_Now input = Some now -> in_i64 now ->
  (forall p i, inode_of s.2 p = Some i -> zlen (i_data i) <= max_int64) ->
  Build input s = (Ok plan, s') -> d ∈ pl_Selected plan ->
  exists t, po_StableFor (in_Policy (with_defaults input)) <= now - t
    /\ same_since (d_SessionID d) (d_RolloutPath d) (fg_Size (d_Fingerprint d)) (fg_ModTimeUnixNano (d_Fingerprint d)) t history.
Proof.
  intros Hh Hprev Hnow Hrange Hsmall Hb [k Hk]%list_elem_of_lookup.
  pose proof (wp_Build input s now Hsmall Hnow) as HB. unfold wp in HB. rewrite Hb in HB. destruct HB as [bytes HB].
  destruct (pn_vetted _ _ _ _ _ HB k d Hk) as (session & i & _ & -> & Hv). destruct (ve_seen _ _ _ _ _ _ Hv) as (o & Ho & E1 & E2 & E3 & E4).
  cbn [with_defaults in_Previous] in Ho. rewrite Hprev in Ho. exists (ob_StableSinceUnixNano o). split.
  - assert (0 < po_StableFor (in_Policy (with_defaults input))) as Hpos.
    { cbn. destruct (po_StableFor _ <=? 0) eqn:E; zbool; [done|lia]. }
    unfold time_Sub in E4. lia.
  - cbn [blank print_of d_SessionID d_RolloutPath d_Fingerprint fg_Size fg_ModTimeUnixNano]. rewrite <- E1, <- E2, <- E3.
    by apply history_observed.
Qed.

(** ** Revalidation *)

Section Revalidation.
Context (IsManaged : string -> OS bool).
Hypothesis IsManaged_reads : forall id w, same_files w (IsManaged id w).2.

(** The file of a decision, as the decision has it. *)
Definition current (w : world) (d : Decision) : Prop :=
  exists i, inode_of w (path_of (d_RolloutPath d)) = Some i /\ d_Fingerprint d = print_of i.

Definition revalidated (w : world) (selected decisions : list Decision) (r : ApplyResult)
    (res : result (list Decision * ApplyResult * option error)) : Prop :=
  match res with
  | Err _ => False
  | Ok (decisions', r', err) => exists more, decisions' = decisions ++ more /\ more `sublist_of` selected
      /\ Forall (current w) more /\ ar_Selected r' = ar_Selected r /\ ar_Applied r' = ar_Applied r
      /\ (err = None -> zlen more + ar_SkippedChanged r' + ar_SkippedManaged r'
           = zlen selected + ar_SkippedChanged r + ar_SkippedManaged r)
  end.
Lemma revalidated_stop w selected decisions r e : revalidated w selected decisions r (Ok (decisions, r, Some e)).
Proof. exists []. split_and!; [by rewrite app_nil_r|apply sublist_nil_l|done..]. Qed.
Lemma revalidated_skip w d selected decisions r r1 res : ar_Selected r1 = ar_Selected r -> ar_Applied r1 = ar_Applied r ->
  ar_SkippedChanged r1 + ar_SkippedManaged r1 = ar_SkippedChanged r + ar_SkippedManaged r + 1 ->
  revalidated w selected decisions r1 res -> revalidated w (d :: selected) decisions r res.
Proof.
  intros H1 H2 H3. destruct res as [[[ds r'] err]|e]; [|done]. intros (more & -> & Hsub & Hc & Hs & Ha & Hn). exists more.
  split_and!; [done|by apply sublist_cons|done|congruence|congruence|]. intros He%Hn. rewrite zlen_cons. lia.
Qed.
Lemma revalidated_take w d selected decisions r res : current w d ->
  revalidated w selected (decisions ++ [d]) r res -> revalidated w (d :: selected) decisions r res.
Proof.
  intros Hd. destruct res as [[[ds r'] err]|e]; [|done]. intros (more & -> & Hsub & Hc & Hs & Ha & Hn). exists (d :: more).
  split_and!; [by rewrite <- app_assoc|by apply sublist_skip|by constructor|done|done|]. intros He%Hn. rewrite !zlen_cons. lia.
Qed.
Lemma still_matches_current w d info i : (fi_regular info = true -> inode_of w (path_of (d_RolloutPath d)) = Some i
    /\ fi_size info = zlen (i_data i) /\ fi_mtime info = i_mtime i) -> still_matches d (Ok info) = true -> current w d.
Proof.
  intros Hi. unfold still_matches. rewrite !andb_true_iff. intros [[Hr E1] E2]. zbool. destruct (Hi Hr) as (Hino & H1 & H2).
  exists i. split; [done|]. unfold print_of. rewrite <- H1, <- H2, E1, E2. by destruct (d_Fingerprint d).
Qed.

Lemma wp_revalidate_loop w selected : forall decisions r s, same_files w s.2 ->
  wp (revalidate_loop IsManaged selected decisions r) s (fun res s' => same_files w s'.2 /\ revalidated w selected decisions r res).
Proof.
  induction selected as [|d selected IH]; intros decisions r [c ws] Hs; cbn [revalidate_loop]; cbn [snd] in Hs.
  { rewrite wp_ret. split; [done|]. exists []. by split_and!; [rewrite app_nil_r|..]. }
  rewrite wp_bind, wp_error_of. eapply wp_mono; [apply wp_check_ctx|]. intros [[]|e] [c1 w1] (Hw1 & _ & _); cbn [fst snd] in *; subst w1;
    [|rewrite wp_ret; split; [done|apply revalidated_stop]].
  rewrite wp_bind, wp_try. unfold on_world at 1. rewrite wp_zoom. unfold wp at 1. cbn [fst snd].
  pose proof (IsManaged_reads (d_SessionID d) ws) as Hm. destruct (IsManaged (d_SessionID d) ws) as [[[]|e] w2]; cbn [fst snd] in *;
    (assert (same_files w w2) as Hs2 by by eapply same_files_trans).
  - eapply wp_mono; [by apply IH|]. intros res s' [? Hres]. split; [done|]. eapply revalidated_skip; [..|exact Hres]; cbn; lia.
  - rewrite wp_bind, wp_try. unfold on_world. rewrite wp_zoom. eapply wp_mono; [apply wp_Stat_file|]. cbn [fst snd].
    intros info w3 [Hs3 Hinfo]. assert (same_files w w3) as Hw3 by by eapply same_files_trans.
    destruct (still_matches d info) eqn:Em; (eapply wp_mono; [by apply IH|]); intros res s' [? Hres]; (split; [done|]).
    + apply revalidated_take; [|done]. destruct info as [info|]; [|done]. pose proof Em as Em'. cbn in Em'.
      destruct (fi_regular info) eqn:Er; [|done]. destruct (Hinfo eq_refl) as (i & Hi & H1 & H2).
      apply (still_matches_current w d info i); [|done]. intros _. split; [|done]. destruct Hs2 as (E1 & E2 & _). unfold inode_of in *. by rewrite <- E1, <- E2.
    + eapply revalidated_skip; [..|exact Hres]; cbn; lia.
  - rewrite wp_ret. split; [done|apply revalidated_stop].
Qed.

(** Revalidation keeps exactly the plan's promise.  [Revalidate] changes no file; what
    it returns is a part of the first selected decisions, in order, whose files still have
    the size and modification time of the decision; and when it was not interrupted, every
    decision was returned or counted as changed or managed. *)
Theorem revalidate_sound plan limit s :
  let chosen := ztake (if (limit <=? 0) || (zlen (pl_Selected plan) <? limit) then zlen (pl_Selected plan) else limit) (pl_Selected plan) in
  wp (Revalidate IsManaged plan limit) s (fun res s' => same_files s.2 s'.2 /\
    exists decisions r err, res = Ok (decisions, r, err) /\ decisions `sublist_of` chosen /\ Forall (current s.2) decisions
      /\ ar_Selected r = zlen chosen
      /\ (err = None -> ar_Selected r = zlen decisions + ar_SkippedChanged r + ar_SkippedManaged r)).
Proof.
  intros chosen. unfold Revalidate. fold chosen. eapply wp_mono; [by apply (wp_revalidate_loop s.2)|].
  intros res s' [Hs Hres]. split; [done|]. destruct res as [[[decisions r] err]|e]; [|done].
  destruct Hres as (more & -> & Hsub & Hc & Hsel & _ & Hn). cbn [app ar_Selected ar_SkippedChanged ar_SkippedManaged] in *.
  assert (zlen chosen = ar_Selected r) as Hlen.
  { rewrite Hsel. unfold chosen. pose proof (zlen_nonneg (pl_Selected plan)). destruct (_ || _) eqn:E; zbool; rewrite zlen_ztake; lia. }
  exists more, r, err. split_and!; [done..|]. intros He%Hn. lia.
Qed.
End Revalidation.

(** ** Witnesses *)

Definition sample_path : path := ["rollout.jsonl"; "sessions"]%string.
Definition sample_inode : inode := {| i_data := [Byte.x7b; Byte.x7d]; i_mtime := 5; i_synced := true |}.
Definition sample_files : world :=
  {| w_names := {[sample_path := 1%nat]}; w_inodes := {[1%nat := sample_inode]}; w_dirs := {[["sessions"%string]]};
     w_durable := ∅; w_next := 2; w_clock := 0; w_faults := []; w_locked := ∅ |}.
Definition sample_session : Session :=
  {| s_ID := "a"; s_Title := ""; s_CWD := ""; s_RolloutPath := Absolute sample_path; s_ModelProvider := ""; s_Model := "";
     s_UpdatedAt := 0; s_Archived := true; s_GitBranch := "" |}.
Definition sample_input (previous : Observations) (now : Z) : Input :=
  {| in_Sessions := [sample_session]; in_Managed := ∅; in_Previous := previous; in_Now := Some now;
     in_Policy := {| po_StableFor := 0; po_BatchSize := 0; po_ArchivedOnly := true |};
     in_Gates := {| ga_DoctorHealthy := true; ga_MountHealthy := true; ga_CanonicalNamespace := true;
                    ga_NamespaceActive := true; ga_NamespaceReady := true; ga_EnrollmentAllowed := true |};
     in_WriterActive := Some (fun _ _ => Ok false); in_Budget := Some (fun _ _ => Ok tt) |}.
Definition sample_plan (previous : Observations) (now : Z) : result Plan * (Ctx * world) :=
  Build (sample_input previous now) (None, sample_files).
Definition sample_first : Plan := match (sample_plan ∅ 7).1 with Ok p => p | Err _ => pg_plan (empty_planning 0) end.
Definition sample_second : Plan :=
  match (sample_plan (pl_Observations sample_first) (7 + hour)).1 with Ok p => p | Err _ => pg_plan (empty_planning 0) end.

Lemma sample_files_small p i : inode_of sample_files p = Some i -> zlen (i_data i) <= max_int64.
Proof.
  unfold inode_of. cbn [sample_files w_names w_inodes]. destruct (decide (p = sample_path)) as [->|Hne].
  - rewrite lookup_singleton_eq. cbn [mbind option_bind]. rewrite lookup_singleton_eq. intros [= <-]. vm_compute. discriminate.
  - rewrite lookup_singleton_ne by done. discriminate.
Qed.

Lemma plan_sound_witness : exists plan, (sample_plan (pl_Observations sample_first) (7 + hour)).1 = Ok plan
  /\ map d_SessionID (pl_Selected plan) = ["a"%string] /\ zlen (pl_Selected plan) <= 1.
Proof.
  assert ((sample_plan (pl_Observations sample_first) (7 + hour)).1 = Ok sample_second) as E by (vm_compute; reflexivity).
  exists sample_second. split; [exact E|]. split; [vm_compute; reflexivity|].
  pose proof (plan_sound (sample_input (pl_Observations sample_first) (7 + hour)) (None, sample_files) (7 + hour) sample_files_small eq_refl) as H.
  unfold wp in H. fold (sample_plan (pl_Observations sample_first) (7 + hour)) in H. rewrite E in H.
  destruct H as (_ & _ & _ & H & _). exact H.
Defined.

Lemma enrolled_was_stable_witness : exists d t, d ∈ pl_Selected sample_second /\ hour <= (7 + hour) - t
  /\ same_since "a" (Absolute sample_path) 2 5 t [(7, sample_first)].
Proof.
  assert (Build (sample_input ∅ 7) (None, sample_files) = (Ok sample_first, (sample_plan ∅ 7).2)) as E1 by (vm_compute; reflexivity).
  assert (Build (sample_input (pl_Observations sample_first) (7 + hour)) (None, sample_files)
    = (Ok sample_second, (sample_plan (pl_Observations sample_first) (7 + hour)).2)) as E2 by (vm_compute; reflexivity).
  assert (exists d, pl_Selected sample_second = [d] /\ d = blank sample_session [] (print_of sample_inode) true) as (d & Ed & ->).
  { eexists. split; vm_compute; reflexivity. }
  destruct (enrolled_was_stable [(7, sample_first)] (sample_input (pl_Observations sample_first) (7 + hour)) (None, sample_files)
    (sample_plan (pl_Observations sample_first) (7 + hour)).2 (7 + hour) sample_second (blank sample_session [] (print_of sample_inode) true))
    as (t & Ht & Hsame).
  - apply (history_plan [] (sample_input ∅ 7) (None, sample_files) (sample_plan ∅ 7).2 7 sample_first);
      [constructor|reflexivity|reflexivity|split; vm_compute; congruence|exact sample_files_small|exact E1].
  - reflexivity.
  - reflexivity.
  - split; vm_compute; congruence.
  - exact sample_files_small.
  - exact E2.
  - rewrite Ed. apply elem_of_cons. left. reflexivity.
  - exists (blank sample_session [] (print_of sample_inode) true), t. split; [rewrite Ed; apply elem_of_cons; left; reflexivity|]. split; [exact Ht|exact Hsame].
Defined.

Lemma revalidate_sound_witness : exists decisions r, (Revalidate (fun _ => ret false) sample_second 0 (None, sample_files)).1 = Ok (decisions, r, None)
  /\ Forall (current sample_files) decisions /\ length decisions = 1%nat.
Proof.
  destruct (revalidate_sound (fun _ => ret false) (fun _ w => same_files_refl w) sample_second 0 (None, sample_files))
    as (_ & decisions & r & err & E & _ & Hc & _).
  assert (match (Revalidate (fun _ => ret false) sample_second 0 (None, sample_files)).1 with
          | Ok (ds, _, None) => length ds = 1%nat | _ => False end) as Hlen by (vm_compute; reflexivity).
  rewrite E in Hlen. destruct err as [e|]; [destruct Hlen|]. exists decisions, r. split; [exact E|]. split; [exact Hc|exact Hlen].
Defined.
