(* ===== verification/SpawnGraph.v ===== *)
(** The family of a session: the graph part of [src/internal/family/family.go].

    Sessions are nodes, and an edge says that one session was forked from another.
    [reachable] and [connected] are breadth-first searches; [Build] collects the
    connected component of a session.  A search is given one round of fuel for every
    node it can enqueue, which is shown to be enough. *)
From S2P Require Import Prelude GoStd Enroll.
Local Open Scope nat_scope.

Inductive GraphRelation := GraphSeed | GraphAncestor | GraphDescendant | GraphCollateral | GraphNone.
#[export] Instance GraphRelation_eq_dec : EqDecision GraphRelation.
Proof. solve_decision. Defined.

Record SpawnEdge := { ed_ParentID : string; ed_ChildID : string; ed_Status : string }.
#[export] Instance SpawnEdge_eq_dec : EqDecision SpawnEdge.
Proof. solve_decision. Defined.

Record Member := {
  mb_ID : string; mb_Title : string; mb_CWD : string; mb_RolloutPath : rollout; mb_Archived : bool;
  mb_GitBranch : string; mb_RelationToSeed : GraphRelation;
}.
Record Report := {
  rp_SeedID : string; rp_Members : list Member; rp_Edges : list SpawnEdge; rp_MissingSessionIDs : list string;
}.

(** ** Neighbours *)

Definition Adjacency : Type := gmap string (list string).
Definition next_of (m : Adjacency) (x : string) : list string := default [] (m !! x).
Definition append_to (x y : string) (m : Adjacency) : Adjacency := <[x := next_of m x ++ [y]]> m.

Definition children_of (edges : list SpawnEdge) : Adjacency :=
  fold_left (fun m e => append_to (ed_ParentID e) (ed_ChildID e) m) edges ∅.
Definition adjacent_of (edges : list SpawnEdge) : Adjacency :=
  fold_left (fun m e => append_to (ed_ChildID e) (ed_ParentID e) (append_to (ed_ParentID e) (ed_ChildID e) m)) edges ∅.

(** ** Searching *)

(** The loop over the neighbours of one node; [None] when one of them is [target]. *)
Fixpoint look_at (target : option string) (next : list string) (seen : gset string) (queue : list string)
  : option (gset string * list string) :=
  match next with
  | [] => Some (seen, queue)
  | y :: next =>
      if decide (target = Some y) then None
      else if decide (y ∈ seen) then look_at target next seen queue
      else look_at target next ({[y]} ∪ seen) (queue ++ [y])
  end.

(** The loop over the queue: whether [target] was met, and the nodes seen. *)
Fixpoint search_loop (fuel : nat) (m : Adjacency) (target : option string) (seen : gset string) (queue : list string)
  : option (bool * gset string) :=
  match queue with
  | [] => Some (false, seen)
  | current :: queue =>
      match fuel with
      | O => None
      | S fuel =>
          match look_at target (next_of m current) seen queue with
          | None => Some (true, seen)
          | Some (seen, queue) => search_loop fuel m target seen queue
          end
      end
  end.
Definition search (m : Adjacency) (fuel : nat) (start : string) (target : option string) : bool * gset string :=
  default (false, ∅) (search_loop fuel m target {[start]} [start]).

Definition rounds (edges : list SpawnEdge) : nat := S (2 * length edges).
Definition reachable (start target : string) (edges : list SpawnEdge) : bool :=
  (search (children_of edges) (rounds edges) start (Some target)).1.
Definition connected (start target : string) (edges : list SpawnEdge) : bool :=
  (search (adjacent_of edges) (rounds edges) start (Some target)).1.
Definition component (seedID : string) (edges : list SpawnEdge) : gset string :=
  (search (adjacent_of edges) (rounds edges) seedID None).2.

Definition graphRelation (leftID rightID : string) (edges : list SpawnEdge) : GraphRelation :=
  if decide (leftID = rightID) then GraphSeed
  else if reachable leftID rightID edges then GraphAncestor
  else if reachable rightID leftID edges then GraphDescendant
  else if connected leftID rightID edges then GraphCollateral
  else GraphNone.

(** ** The report *)

Definition by_id (sessions : list Session) : gmap string Session :=
  fold_left (fun m s => <[s_ID s := s]> m) sessions ∅.
Definition member_of (seedID : string) (edges : list SpawnEdge) (session : Session) : Member :=
  {| mb_ID := s_ID session; mb_Title := s_Title session; mb_CWD := s_CWD session; mb_RolloutPath := s_RolloutPath session;
     mb_Archived := s_Archived session; mb_GitBranch := s_GitBranch session;
     mb_RelationToSeed := graphRelation (s_ID session) seedID edges |}.

Definition string_le (a b : string) : Prop := String.leb a b = true.
Definition member_le (a b : Member) : Prop := string_le (mb_ID a) (mb_ID b).
Definition edge_le (a b : SpawnEdge) : Prop :=
  if negb (String.eqb (ed_ParentID a) (ed_ParentID b)) then string_le (ed_ParentID a) (ed_ParentID b)
  else if negb (String.eqb (ed_ChildID a) (ed_ChildID b)) then string_le (ed_ChildID a) (ed_ChildID b)
  else string_le (ed_Status a) (ed_Status b).
#[export] Instance string_le_dec : RelDecision string_le.
Proof. intros a b. unfold string_le. apply _. Defined.
#[export] Instance member_le_dec : RelDecision member_le.
Proof. intros a b. unfold member_le. apply _. Defined.
#[export] Instance edge_le_dec : RelDecision edge_le.
Proof. intros a b. unfold edge_le. destruct (negb _); [apply _|]. destruct (negb _); apply _. Defined.

Definition in_component (comp : gset string) (e : SpawnEdge) : bool :=
  bool_decide (ed_ParentID e ∈ comp) && bool_decide (ed_ChildID e ∈ comp).

Definition Build (seedID : string) (sessions : list Session) (edges : list SpawnEdge) : result Report :=
  let byID := by_id sessions in
  match byID !! seedID with
  | None => Err (errors_new "session not found: %s")
  | Some _ =>
      let comp := component seedID edges in
      Ok {| rp_SeedID := seedID;
            rp_Members := merge_sort member_le (omap (fun id => member_of seedID edges <$> byID !! id) (elements comp));
            rp_Edges := merge_sort edge_le (filter (fun e => in_component comp e = true) edges);
            rp_MissingSessionIDs := merge_sort string_le (filter (fun id => byID !! id = None) (elements comp)) |}
  end.

(** ** Searches are exact *)

Definition edge (m : Adjacency) (x y : string) : Prop := y ∈ next_of m x.

Lemma look_at_spec target next : forall seen queue,
  match look_at target next seen queue with
  | None => exists y, target = Some y /\ y ∈ next
  | Some (seen', queue') => (forall y, target = Some y -> y ∉ next) /\ seen' = seen ∪ list_to_set next
      /\ exists fresh, queue' = queue ++ fresh /\ (forall y, y ∈ fresh -> y ∈ next) /\ list_to_set fresh = list_to_set next ∖ seen
         /\ NoDup fresh
  end.
Proof.
  induction next as [|y next IH]; intros seen queue; cbn [look_at].
  - split_and!; [set_solver|set_solver|]. exists []. split_and!; [by rewrite app_nil_r|set_solver|set_solver|constructor].
  - case_decide as Ht; [exists y; split; [done|by left]|]. case_decide as Hy.
    + specialize (IH seen queue). destruct (look_at target next seen queue) as [[seen' queue']|].
      * destruct IH as (H1 & -> & fresh & -> & Hin & Hset & Hnd). split_and!.
        -- intros z Hz. apply not_elem_of_cons. split; [congruence|auto].
        -- cbn. set_solver.
        -- exists fresh. split_and!; [done|intros z Hz; right; auto| |done]. rewrite Hset. cbn. set_solver.
      * destruct IH as (z & ? & ?). exists z. split; [done|by right].
    + specialize (IH ({[y]} ∪ seen) (queue ++ [y])). destruct (look_at target next _ _) as [[seen' queue']|].
      * destruct IH as (H1 & -> & fresh & -> & Hin & Hset & Hnd). split_and!.
        -- intros z Hz. apply not_elem_of_cons. split; [congruence|auto].
        -- cbn. set_solver.
        -- exists (y :: fresh). split_and!; [by rewrite <- app_assoc|set_solver| |].
           ++ cbn. rewrite Hset. apply set_eq. intros z. destruct (decide (z = y)); set_solver.
           ++ constructor; [|done]. intros Hy2. assert (y ∈ (list_to_set fresh : gset string)) as Hy3 by set_solver. rewrite Hset in Hy3. set_solver.
      * destruct IH as (z & ? & ?). exists z. split; [done|by right].
Qed.

Section SearchSpec.
Context (m : Adjacency) (target : option string) (start : string) (U : gset string).
Hypothesis HU : forall x y, edge m x y -> y ∈ U.

Record searching (seen : gset string) (queue : list string) : Prop := {
  sr_start : start ∈ seen;
  sr_seen : forall x, x ∈ seen -> rtc (edge m) start x;
  sr_queue : forall x, x ∈ queue -> x ∈ seen;
  sr_done : forall x, x ∈ seen -> x ∈ queue \/ forall y, edge m x y -> y ∈ seen /\ target <> Some y;
}.

Lemma searching_step seen current queue seen' fresh :
  searching seen (current :: queue) -> (forall y, target = Some y -> y ∉ next_of m current) ->
  seen' = seen ∪ list_to_set (next_of m current) -> list_to_set fresh = (list_to_set (next_of m current) ∖ seen : gset string) ->
  searching seen' (queue ++ fresh).
Proof.
  intros [H1 H2 H3 H4] Ht -> Hf. assert (rtc (edge m) start current) as Hc by (apply H2, H3; by left). split.
  - set_solver.
  - intros x [Hx|Hx%elem_of_list_to_set]%elem_of_union; [by apply H2|]. by eapply rtc_r.
  - intros x [Hx|Hx]%elem_of_app; [apply elem_of_union_l, H3; by right|].
    assert (x ∈ (list_to_set fresh : gset string)) as Hx2 by by apply elem_of_list_to_set. rewrite Hf in Hx2. set_solver.
  - intros x Hx. destruct (decide (x ∈ seen)) as [Hs|Hs].
    + destruct (H4 x Hs) as [Hq|Hd].
      * apply elem_of_cons in Hq as [->|Hq]; [|left; apply elem_of_app; by left]. right. intros y Hy.
        split; [apply elem_of_union_r; by apply elem_of_list_to_set|]. intros Hty. by apply (Ht y Hty).
      * right. intros y Hy. destruct (Hd y Hy). set_solver.
    + left. apply elem_of_app. right. apply (elem_of_list_to_set (C := gset string)). rewrite Hf. set_solver.
Qed.

Lemma searching_empty seen : searching seen [] ->
  (forall x, x ∈ seen <-> rtc (edge m) start x) /\ forall x y, rtc (edge m) start x -> edge m x y -> target <> Some y.
Proof.
  intros [H1 H2 _ H4]. assert (forall x, rtc (edge m) start x -> x ∈ seen) as Hall.
  { apply rtc_ind_r; [done|]. intros x y _ Hy IHx. destruct (H4 x IHx) as [?|Hd]; [set_solver|]. by apply Hd. }
  split; [split; auto|]. intros x y Hx Hy. destruct (H4 x (Hall x Hx)) as [?|Hd]; [set_solver|]. by apply Hd.
Qed.

Lemma search_measure seen next fresh : (forall y, y ∈ next -> y ∈ U) -> NoDup fresh -> list_to_set fresh = (list_to_set next ∖ seen : gset string) ->
  length fresh + size (U ∖ (seen ∪ list_to_set next)) = size (U ∖ seen).
Proof.
  intros Hn Hd Hf. rewrite <- (size_list_to_set (C := gset string) fresh Hd), Hf.
  rewrite <- size_union by set_solver. f_equal. apply set_eq. intros x. destruct (decide (x ∈ next)) as [Hx|Hx]; [pose proof (Hn x Hx)|]; set_solver.
Qed.

Lemma search_loop_spec fuel : forall seen queue, searching seen queue -> length queue + size (U ∖ seen) <= fuel ->
  exists b seen', search_loop fuel m target seen queue = Some (b, seen') /\
    if b : bool then exists x y, target = Some y /\ rtc (edge m) start x /\ edge m x y
    else (forall x, x ∈ seen' <-> rtc (edge m) start x) /\ forall x y, rtc (edge m) start x -> edge m x y -> target <> Some y.
Proof.
  induction fuel as [|fuel IH]; intros seen [|current queue] Hs Hf; cbn [search_loop length] in *; [|lia| |].
  1-2: exists false, seen; split; [done|]; by apply searching_empty.
  pose proof (look_at_spec target (next_of m current) seen queue) as Hl.
  destruct (look_at target (next_of m current) seen queue) as [[seen' queue']|].
  - destruct Hl as (Ht & -> & fresh & -> & Hin & Hset & Hnd). apply IH; [by eapply searching_step|].
    rewrite length_app. pose proof (search_measure seen (next_of m current) fresh (HU current) Hnd Hset). cbn in Hf. lia.
  - destruct Hl as (y & Ht & Hy). exists true, seen. split; [done|]. exists current, y. split_and!; [done| |done].
    apply (sr_seen _ _ Hs), (sr_queue _ _ Hs). by left.
Qed.

Lemma search_spec fuel : S (size U) <= fuel -> let '(b, seen) := search m fuel start target in
  if b : bool then exists x y, target = Some y /\ rtc (edge m) start x /\ edge m x y
  else (forall x, x ∈ seen <-> rtc (edge m) start x) /\ forall x y, rtc (edge m) start x -> edge m x y -> target <> Some y.
Proof.
  intros Hf. destruct (search_loop_spec fuel {[start]} [start]) as (b & seen & Hl & Hb).
  - split; [set_solver|intros x ->%elem_of_singleton; apply rtc_refl|set_solver|]. intros x ->%elem_of_singleton. left. by left.
  - cbn. assert (size (U ∖ {[start]}) <= size U); [apply subseteq_size; set_solver|lia].
  - unfold search. rewrite Hl. done.
Qed.
End SearchSpec.

(** ** The edges of the family *)

Definition parent_of (edges : list SpawnEdge) (x y : string) : Prop :=
  exists e, e ∈ edges /\ ed_ParentID e = x /\ ed_ChildID e = y.
Definition linked (edges : list SpawnEdge) (x y : string) : Prop := parent_of edges x y \/ parent_of edges y x.
Definition endpoints (edges : list SpawnEdge) : gset string := list_to_set (map ed_ParentID edges ++ map ed_ChildID edges).

Lemma endpoints_size edges : S (size (endpoints edges)) <= rounds edges.
Proof.
  unfold endpoints, rounds. assert (forall l : list string, size (list_to_set l : gset string) <= length l) as H.
  { induction l as [|x l IH]; cbn; [done|]. rewrite size_union_alt, size_singleton.
    assert (size (list_to_set l ∖ {[x]} : gset string) <= size (list_to_set l : gset string)); [apply subseteq_size; set_solver|lia]. }
  specialize (H (map ed_ParentID edges ++ map ed_ChildID edges)). rewrite length_app, !length_map in H. lia.
Qed.
Lemma next_of_append x y m z : next_of (append_to x y m) z = next_of m z ++ if decide (x = z) then [y] else [].
Proof.
  unfold append_to, next_of, Adjacency in *. case_decide as H; [subst z; by rewrite lookup_insert_eq|]. rewrite lookup_insert_ne by done.
  by rewrite app_nil_r.
Qed.

Lemma edge_append x y m u v : edge (append_to x y m) u v <-> edge m u v \/ (u = x /\ v = y).
Proof.
  unfold edge. rewrite next_of_append. case_decide as H; rewrite elem_of_app; [subst|set_solver].
  rewrite list_elem_of_singleton. naive_solver.
Qed.
Lemma edge_fold (f : Adjacency -> SpawnEdge -> Adjacency) (R : SpawnEdge -> string -> string -> Prop) edges :
  (forall m e u v, edge (f m e) u v <-> edge m u v \/ R e u v) ->
  forall m u v, edge (fold_left f edges m) u v <-> edge m u v \/ exists e, e ∈ edges /\ R e u v.
Proof.
  intros Hf. induction edges as [|e edges IH]; intros m u v; cbn [fold_left]; [set_solver|]. rewrite IH, Hf. set_solver.
Qed.
Lemma edge_children edges u v : edge (children_of edges) u v <-> parent_of edges u v.
Proof.
  unfold children_of, parent_of. rewrite (edge_fold _ (fun e u v => ed_ParentID e = u /\ ed_ChildID e = v)).
  - unfold edge at 1. cbn. set_solver.
  - intros m e x y. rewrite edge_append. naive_solver.
Qed.
Lemma edge_adjacent edges u v : edge (adjacent_of edges) u v <-> linked edges u v.
Proof.
  unfold adjacent_of, linked, parent_of. rewrite (edge_fold _ (fun e u v => ed_ParentID e = u /\ ed_ChildID e = v \/ ed_ParentID e = v /\ ed_ChildID e = u)).
  - unfold edge at 1. cbn. set_solver.
  - intros m e x y. rewrite !edge_append. naive_solver.
Qed.

Lemma parent_endpoints edges x y : parent_of edges x y -> x ∈ endpoints edges /\ y ∈ endpoints edges.
Proof.
  intros (e & He & <- & <-). unfold endpoints. rewrite !elem_of_list_to_set, !elem_of_app.
  split; [left|right]; apply list_elem_of_fmap; by exists e.
Qed.
Lemma tc_last {A} (R : A -> A -> Prop) x z : tc R x z <-> exists y, rtc R x y /\ R y z.
Proof.
  split.
  - intros H. revert z H. apply (tc_ind_r (fun z => exists y, rtc R x y /\ R y z)).
    + intros y Hy. by exists x.
    + intros y z' Hy Hz _. exists y. split; [by apply tc_rtc|done].
  - intros (y & Hy & Hz). eapply tc_rtc_l; [done|by constructor].
Qed.

Section Family.
Context (edges : list SpawnEdge).

Lemma search_edges m target start R : (forall x y, edge m x y <-> R x y) -> (forall x y, R x y -> y ∈ endpoints edges) ->
  let '(b, seen) := search m (rounds edges) start target in
  if b : bool then exists x y, target = Some y /\ rtc R start x /\ R x y
  else (forall x, x ∈ seen <-> rtc R start x) /\ forall x y, rtc R start x -> R x y -> target <> Some y.
Proof.
  intros HR HU. pose proof (search_spec m target start (endpoints edges) (fun x y H => HU x y (proj1 (HR x y) H)) (rounds edges) (endpoints_size edges)) as H.
  assert (forall x y, rtc (edge m) x y <-> rtc R x y) as Hr by (intros x y; split; apply rtc_subrel; intros u v; apply HR).
  destruct (search _ _ _ _) as [[] seen].
  - destruct H as (x & y & ? & ?%Hr & ?%HR). by exists x, y.
  - destruct H as [H1 H2]. split; [intros x; by rewrite H1, Hr|]. intros x y ?%Hr ?%HR. by eapply H2.
Qed.
Lemma search_target m target start R : (forall x y, edge m x y <-> R x y) -> (forall x y, R x y -> y ∈ endpoints edges) ->
  (search m (rounds edges) start (Some target)).1 = true <-> tc R start target.
Proof.
  intros HR HU. pose proof (search_edges m (Some target) start R HR HU) as H. rewrite tc_last. destruct (search _ _ _ _) as [[] seen]; cbn.
  - destruct H as (x & y & [= <-] & Hx & Hy). split; [|done]. intros _. by exists x.
  - destruct H as [_ H]. split; [done|]. intros (y & Hy & Ht). by destruct (H y target Hy Ht).
Qed.

Lemma reachable_spec start target : reachable start target edges = true <-> tc (parent_of edges) start target.
Proof. apply search_target; [apply edge_children|]. intros x y H. by apply (parent_endpoints _ x y). Qed.
Lemma linked_endpoints x y : linked edges x y -> y ∈ endpoints edges.
Proof. intros [H|H]; by apply parent_endpoints in H as []. Qed.
Lemma connected_spec start target : connected start target edges = true <-> tc (linked edges) start target.
Proof. apply search_target; [apply edge_adjacent|apply linked_endpoints]. Qed.
Lemma component_spec seed x : x ∈ component seed edges <-> rtc (linked edges) seed x.
Proof.
  unfold component. pose proof (search_edges (adjacent_of edges) None seed (linked edges) (edge_adjacent edges) linked_endpoints) as H.
  destruct (search _ _ _ _) as [[] seen]; cbn; [|apply H]. by destruct H as (? & ? & [=] & _).
Qed.

(** What [graphRelation] decides: an ancestor is connected by a chain of forks. *)
Definition relation_is (x seed : string) (r : GraphRelation) : Prop :=
  match r with
  | GraphSeed => x = seed
  | GraphAncestor => x <> seed /\ tc (parent_of edges) x seed
  | GraphDescendant => x <> seed /\ ~ tc (parent_of edges) x seed /\ tc (parent_of edges) seed x
  | GraphCollateral => x <> seed /\ ~ tc (parent_of edges) x seed /\ ~ tc (parent_of edges) seed x /\ tc (linked edges) x seed
  | GraphNone => x <> seed /\ ~ tc (linked edges) x seed
  end.
Lemma tc_sub x y : tc (parent_of edges) x y -> tc (linked edges) x y.
Proof. induction 1 as [x y H|x y z H _ IH]; [by constructor; left|]. by eapply tc_l; [left|]. Qed.
Lemma linked_sym x y : linked edges x y -> linked edges y x.
Proof. unfold linked. tauto. Qed.
Lemma tc_linked_sym x y : tc (linked edges) x y -> tc (linked edges) y x.
Proof. induction 1 as [x y H|x y z H _ IH]; [by constructor; apply linked_sym|]. eapply tc_r; [done|by apply linked_sym]. Qed.
Lemma graphRelation_spec x seed : relation_is x seed (graphRelation x seed edges).
Proof.
  unfold graphRelation. case_decide as H; [done|].
  destruct (reachable x seed edges) eqn:E1; [by apply reachable_spec in E1|].
  assert (~ tc (parent_of edges) x seed) as H1 by (rewrite <- reachable_spec; congruence).
  destruct (reachable seed x edges) eqn:E2; [by apply reachable_spec in E2|].
  assert (~ tc (parent_of edges) seed x) as H2 by (rewrite <- reachable_spec; congruence).
  destruct (connected x seed edges) eqn:E3; [by apply connected_spec in E3|].
  split; [done|]. rewrite <- connected_spec. congruence.
Qed.
End Family.

(** ** The report is exact *)

(** The last session with the identity [id]. *)
Definition known_as (sessions : list Session) (id : string) (s : Session) : Prop :=
  s_ID s = id /\ exists before after, sessions = before ++ s :: after /\ id ∉ map s_ID after.

Lemma by_id_spec sessions id s : by_id sessions !! id = Some s <-> known_as sessions id s.
Proof.
  unfold known_as. induction sessions as [|x sessions IH] using rev_ind.
  { split; [done|]. by intros (_ & [|? ?] & after & [=] & _). }
  unfold by_id in *. rewrite fold_left_app. cbn [fold_left]. rewrite lookup_insert_Some, IH. split.
  - intros [[<- <-]|[Hne (Hs & before & after & -> & Hn)]]; (split; [done|]).
    + exists sessions, []. split; [done|]. apply not_elem_of_nil.
    + exists before, (after ++ [x]). rewrite <- app_assoc, map_app. split; [done|]. cbn. set_solver.
  - intros (Hs & before & after & Hl & Hn). destruct after as [|y after _] using rev_ind.
    + apply app_inj_tail in Hl as [_ ->]. by left.
    + right. rewrite map_app in Hn. change (before ++ s :: after ++ [y]) with (before ++ (s :: after) ++ [y]) in Hl.
      rewrite app_assoc in Hl. apply app_inj_tail in Hl as [-> ->].
      split; [cbn in Hn; set_solver|]. split; [done|]. exists before, after. split; [done|]. set_solver.
Qed.

Lemma by_id_None sessions id : by_id sessions !! id = None <-> id ∉ map s_ID sessions.
Proof.
  induction sessions as [|x sessions IH] using rev_ind; [set_solver|]. unfold by_id in *. rewrite fold_left_app. cbn [fold_left].
  rewrite lookup_insert_None, IH, map_app. set_solver.
Qed.

#[export] Instance string_le_total : Total string_le.
Proof. intros a b. apply String.leb_total. Qed.
#[export] Instance member_le_total : Total member_le.
Proof. intros a b. apply string_le_total. Qed.
#[export] Instance edge_le_total : Total edge_le.
Proof.
  intros a b. unfold edge_le. rewrite (String.eqb_sym (ed_ParentID b)), (String.eqb_sym (ed_ChildID b)).
  destruct (negb _); [apply string_le_total|]. destruct (negb _); apply string_le_total.
Qed.

Lemma omap_NoDup_key {A} (f : string -> option A) (key : A -> string) l :
  (forall id a, f id = Some a -> key a = id) -> NoDup l -> NoDup (map key (omap f l)).
Proof.
  intros Hf. induction 1 as [|id l Hid Hl IH]; cbn; [constructor|]. destruct (f id) as [a|] eqn:E; [|done]. cbn.
  constructor; [|done]. rewrite (Hf _ _ E). intros (b & Hb & (id' & Hid' & Hfb)%list_elem_of_omap)%list_elem_of_fmap.
  apply Hf in Hfb. congruence.
Qed.

(** C26. A family report is exact.  [Build] fails only for an unknown session.  Otherwise
    its members are, each once and in the order of their identities, the known sessions
    that a chain of forks in either direction connects with the seed; each is called an
    ancestor, a descendant or a collateral relative exactly when the forks say so; the
    missing identities are the unknown ones of the family; and the edges are those
    within the family. *)
Theorem family_exact seed sessions edges :
  match Build seed sessions edges with
  | Err _ => seed ∉ map s_ID sessions
  | Ok r => seed ∈ map s_ID sessions
      /\ NoDup (map mb_ID (rp_Members r)) /\ Sorted string_le (map mb_ID (rp_Members r))
      /\ (forall x, x ∈ rp_Members r <-> exists s, known_as sessions (mb_ID x) s /\ rtc (linked edges) seed (mb_ID x)
            /\ x = member_of seed edges s)
      /\ (forall x, x ∈ rp_Members r -> relation_is edges (mb_ID x) seed (mb_RelationToSeed x) /\ mb_RelationToSeed x <> GraphNone)
      /\ Sorted string_le (rp_MissingSessionIDs r) /\ NoDup (rp_MissingSessionIDs r)
      /\ (forall id, id ∈ rp_MissingSessionIDs r <-> rtc (linked edges) seed id /\ id ∉ map s_ID sessions)
      /\ Sorted edge_le (rp_Edges r)
      /\ Permutation (rp_Edges r) (filter (fun e => in_component (component seed edges) e = true) edges)
      /\ (forall e, e ∈ rp_Edges r <-> e ∈ edges /\ rtc (linked edges) seed (ed_ParentID e))
  end.
Proof.
  pose proof (by_id_None sessions) as Hnone.
  unfold Build. destruct (by_id sessions !! seed) as [s0|] eqn:Es; [|by apply Hnone]. cbn [rp_Members rp_MissingSessionIDs rp_Edges].
  assert (forall x, x ∈ merge_sort member_le (omap (fun id => member_of seed edges <$> by_id sessions !! id) (elements (component seed edges)))
    <-> exists s, known_as sessions (mb_ID x) s /\ rtc (linked edges) seed (mb_ID x) /\ x = member_of seed edges s) as Hmem.
  { intros x. rewrite merge_sort_Permutation, list_elem_of_omap. split.
    - intros (id & Hid%elem_of_elements%component_spec & (s & Hs%by_id_spec & ->)%fmap_Some). destruct Hs as [<- Hs]. by exists s.
    - intros (s & Hs & Hc & Hx). exists (mb_ID x). split; [by apply elem_of_elements, component_spec|]. apply by_id_spec in Hs. by rewrite Hs, Hx. }
  split_and!.
  - destruct (decide (seed ∈ map s_ID sessions)) as [|Hn]; [done|]. apply Hnone in Hn. congruence.
  - rewrite merge_sort_Permutation. apply omap_NoDup_key; [|apply NoDup_elements].
    intros id a (s & (<- & _)%by_id_spec & ->)%fmap_Some. done.
  - eapply (Sorted_fmap mb_ID member_le); [by intros x y|]. apply (Sorted_merge_sort member_le).
  - done.
  - intros x (s & Hs & Hc & ->)%Hmem. cbn. pose proof (graphRelation_spec edges (s_ID s) seed) as Hr. split; [done|].
    intros E. rewrite E in Hr. destruct Hr as [Hne Hr]. apply Hr. apply tc_linked_sym. by apply rtc_tc in Hc as [?|?].
  - apply (Sorted_merge_sort string_le).
  - rewrite merge_sort_Permutation. apply NoDup_filter, NoDup_elements.
  - intros id. rewrite merge_sort_Permutation, list_elem_of_filter, elem_of_elements, component_spec, Hnone. tauto.
  - apply (Sorted_merge_sort edge_le).
  - apply merge_sort_Permutation.
  - intros e. rewrite merge_sort_Permutation, list_elem_of_filter. unfold in_component. rewrite andb_true_iff, !bool_decide_eq_true, !component_spec.
    split; [tauto|]. intros [He Hp]. split_and!; [done| |done]. eapply rtc_r; [done|]. left. by exists e.
Qed.
