(* ===== verification/Family.v ===== *)
(** Comparing two sessions: [Compare] of [src/internal/family/family.go].

    Both files are scanned into records (a leading session record is left out); the
    comparison counts the records of their common prefix and the records they share as
    multisets, and asks [Contain] for containment in either direction.  Fingerprints
    only select candidates: every match is confirmed byte by byte.  SHA-256, the JSON
    type of a record and the hook before validation are arguments. *)
From S2P Require Import Prelude GoStd Effects Os ObjectReader Context Bufio Kmp Enroll SpawnGraph Contain.
From stdpp Require Import gmultiset.
Local Open Scope Z_scope.

#[export] Instance byte_countable : Countable Byte.byte :=
  inj_countable Byte.to_N Byte.of_N (fun b => Byte.of_to_N b).
#[export] Instance recordFingerprint_countable : Countable recordFingerprint :=
  inj_countable' (fun f => (fp_digest f, fp_size f)) (fun p => {| fp_digest := p.1; fp_size := p.2 |})
    (fun f => match f with Build_recordFingerprint _ _ => eq_refl end).

Inductive Relation :=
| RelationIdentical
| RelationLeftContained
| RelationRightContained
| RelationIndependentTails
| RelationSharedRecords
| RelationUnknown.

Record Comparison := {
  cm_LeftID : string; cm_RightID : string; cm_LeftArchived : bool; cm_RightArchived : bool;
  cm_GraphRelation : GraphRelation; cm_Relation : Relation; cm_VerifiedExact : bool;
  cm_LeftRecords : Z; cm_RightRecords : Z; cm_SharedPrefixRecords : Z; cm_SharedRecords : Z;
  cm_LeftContainedInRight : bool; cm_RightContainedInLeft : bool;
}.

Record record := { rc_digest : bytes; rc_size : Z; rc_start : Z; rc_end : Z }.
(** [key{digest: item.digest, size: item.size}] *)
Definition key_of (r : record) : recordFingerprint := {| fp_digest := rc_digest r; fp_size := rc_size r |}.

Section Family.
Variable sha256 : bytes -> bytes.
Variable Unmarshal_type : bytes -> result string.
Variable beforeComparisonSourceValidation : OS unit.

(** ** Scanning *)

Definition append_record (info : recordInfo) : Scan (V := list record) unit :=
  set_var (fun v => v ++ [{| rc_digest := fp_digest (ri_fingerprint info); rc_size := fp_size (ri_fingerprint info);
                             rc_start := ri_start info; rc_end := ri_end info |}]).
Definition scanFile (file : File) : CM (list record) :=
  on_world (syscall (ret tt)) ;;; (* [Seek(0, io.SeekStart)] *)
  let* (err, records) := with_var [] (scan_open sha256 Unmarshal_type append_record (ret tt) file true) in
  match err with Some e => fail e | None => ret records end.

Definition equalRanges (leftFile : File) (left : record) (rightFile : File) (right : record) : CM bool :=
  if negb (rc_size left =? rc_size right) then ret false
  else equal_loop (128 * 1024) (Z.to_nat (rc_size left)) leftFile rightFile (rc_start left) (rc_start right) (rc_size left).

(** ** The common prefix *)

Fixpoint sharedPrefix (leftFile : File) (left : list record) (rightFile : File) (right : list record) (count : Z) : CM Z :=
  match left, right with
  | l :: ls, r :: rs =>
      if negb (rc_size l =? rc_size r) || negb (bool_decide (rc_digest l = rc_digest r)) then ret count
      else
        let* exact := equalRanges leftFile l rightFile r in
        if negb exact then ret count else sharedPrefix leftFile ls rightFile rs (count + 1)
  | _, _ => ret count
  end.

(** ** Shared records *)

Record shared_vars := {
  sh_used : gset nat;
  sh_next : gmap recordFingerprint nat;
  sh_collisions : gmap recordFingerprint (list nat);
  sh_shared : Z;
}.

Definition add_candidate (acc : gmap recordFingerprint (list nat) * nat) (item : record) : gmap recordFingerprint (list nat) * nat :=
  let '(m, index) := acc in (<[key_of item := default [] (m !! key_of item) ++ [index]]> m, S index).
Definition candidates_of (right : list record) : gmap recordFingerprint (list nat) := (fold_left add_candidate right (∅, 0%nat)).1.

(** Indices are always in range; an index out of range would be a panic. *)
Definition exact_at (leftFile : File) (l : record) (rightFile : File) (right : list record) (index : nat) : CM bool :=
  match right !! index with
  | Some r => equalRanges leftFile l rightFile r
  | None => fail (Sentinel "panic")
  end.

(** The earlier candidates that were unlike their partners. *)
Fixpoint try_collisions (leftFile : File) (l : record) (rightFile : File) (right : list record) (used : gset nat) (indices : list nat)
  : CM (option nat) :=
  match indices with
  | [] => ret None
  | index :: indices =>
      if decide (index ∈ used) then try_collisions leftFile l rightFile right used indices
      else
        let* exact := exact_at leftFile l rightFile right index in
        if (exact : bool) then ret (Some index) else try_collisions leftFile l rightFile right used indices
  end.

(** The candidates not tried yet: the match, how many were tried, and the collisions. *)
Fixpoint try_positions (leftFile : File) (l : record) (rightFile : File) (right : list record) (positions : list nat)
    (next : nat) (collisions : list nat) : CM (option nat * nat * list nat) :=
  match positions with
  | [] => ret (None, next, collisions)
  | index :: positions =>
      let* exact := exact_at leftFile l rightFile right index in
      if (exact : bool) then ret (Some index, S next, collisions)
      else try_positions leftFile l rightFile right positions (S next) (collisions ++ [index])
  end.

Definition take_index (index : option nat) (v : shared_vars) : shared_vars :=
  match index with
  | Some i => {| sh_used := {[i]} ∪ sh_used v; sh_next := sh_next v; sh_collisions := sh_collisions v; sh_shared := sh_shared v + 1 |}
  | None => v
  end.
Definition set_positions (key : recordFingerprint) (next : nat) (collisions : list nat) (v : shared_vars) : shared_vars :=
  {| sh_used := sh_used v; sh_next := <[key := next]> (sh_next v); sh_collisions := <[key := collisions]> (sh_collisions v);
     sh_shared := sh_shared v |}.

Fixpoint shared_loop (leftFile : File) (left : list record) (rightFile : File) (right : list record)
    (candidates : gmap recordFingerprint (list nat)) (v : shared_vars) : CM Z :=
  match left with
  | [] => ret (sh_shared v)
  | l :: ls =>
      let key := key_of l in
      let collisions := default [] (sh_collisions v !! key) in
      let* matched := try_collisions leftFile l rightFile right (sh_used v) collisions in
      match matched with
      | Some index => shared_loop leftFile ls rightFile right candidates (take_index (Some index) v)
      | None =>
          let next := default 0%nat (sh_next v !! key) in
          let* (matched, next, collisions) :=
            try_positions leftFile l rightFile right (drop next (default [] (candidates !! key))) next collisions in
          shared_loop leftFile ls rightFile right candidates (take_index matched (set_positions key next collisions v))
      end
  end.
Definition sharedRecordCount (leftFile : File) (left : list record) (rightFile : File) (right : list record) : CM Z :=
  shared_loop leftFile left rightFile right (candidates_of right)
    {| sh_used := ∅; sh_next := ∅; sh_collisions := ∅; sh_shared := 0 |}.

(** ** The comparison *)

Definition snapshotFile (file : File) : OS FileInfo :=
  let* info := file_Stat file in
  if negb (fi_regular info) then fail (errors_new "rollout path is not a regular file") else ret info.

Definition verifySourceUnchanged (p : path) (file : File) (before : FileInfo) : OS unit :=
  let* afterHandle := file_Stat file in
  let* afterPath := os_Stat p in
  if negb (os_SameFile before afterHandle) || negb (os_SameFile before afterPath) then fail (errors_new "rollout identity changed")
  else if negb (fi_size before =? fi_size afterHandle) || negb (fi_mtime before =? fi_mtime afterHandle) then
    fail (errors_new "rollout size or modification time changed")
  else if negb (fi_size afterHandle =? fi_size afterPath) || negb (fi_mtime afterHandle =? fi_mtime afterPath) then
    fail (errors_new "rollout path state differs from open file")
  else ret tt.

Definition relation_of (leftContained rightContained : bool) (prefix shared : Z) : Relation * bool :=
  if leftContained && rightContained then (RelationIdentical, true)
  else if leftContained then (RelationLeftContained, true)
  else if rightContained then (RelationRightContained, true)
  else if prefix >? 0 then (RelationIndependentTails, true)
  else if shared >? 0 then (RelationSharedRecords, true)
  else (RelationUnknown, false).

Definition input_of (s : Session) : Input := {| in_ID := s_ID s; in_Path := path_of (s_RolloutPath s) |}.

(** With both files open. *)
Definition compare_open (left right : Session) (edges : list SpawnEdge) (leftFile rightFile : File) : CM Comparison :=
  let* leftSnapshot := wrap "stat left rollout: %w" (on_world (snapshotFile leftFile)) in
  let* rightSnapshot := wrap "stat right rollout: %w" (on_world (snapshotFile rightFile)) in
  let* leftRecords := wrap "scan left rollout: %w" (scanFile leftFile) in
  let* rightRecords := wrap "scan right rollout: %w" (scanFile rightFile) in
  if (zlen leftRecords =? 0) || (zlen rightRecords =? 0) then fail (errors_new "both rollouts must contain comparable records")
  else
    let* prefix := sharedPrefix leftFile leftRecords rightFile rightRecords 0 in
    let* shared := sharedRecordCount leftFile leftRecords rightFile rightRecords in
    let* leftContained := Check sha256 Unmarshal_type (input_of left) (input_of right) {| op_IgnoreSessionMeta := true |} in
    on_world beforeComparisonSourceValidation ;;;
    wrap "left rollout changed during comparison: %w"
      (on_world (verifySourceUnchanged (path_of (s_RolloutPath left)) leftFile leftSnapshot)) ;;;
    wrap "right rollout changed during comparison: %w"
      (on_world (verifySourceUnchanged (path_of (s_RolloutPath right)) rightFile rightSnapshot)) ;;;
    let* rightContained := Check sha256 Unmarshal_type (input_of right) (input_of left) {| op_IgnoreSessionMeta := true |} in
    let leftContainedInRight := re_Contained leftContained && re_VerifiedExact leftContained in
    let rightContainedInLeft := re_Contained rightContained && re_VerifiedExact rightContained in
    let '(relation, exact) := relation_of leftContainedInRight rightContainedInLeft prefix shared in
    ret {| cm_LeftID := s_ID left; cm_RightID := s_ID right; cm_LeftArchived := s_Archived left; cm_RightArchived := s_Archived right;
           cm_GraphRelation := graphRelation (s_ID left) (s_ID right) edges; cm_Relation := relation; cm_VerifiedExact := exact;
           cm_LeftRecords := zlen leftRecords; cm_RightRecords := zlen rightRecords; cm_SharedPrefixRecords := prefix;
           cm_SharedRecords := shared; cm_LeftContainedInRight := leftContainedInRight;
           cm_RightContainedInLeft := rightContainedInLeft |}.

Definition Compare (left right : Session) (edges : list SpawnEdge) : CM Comparison :=
  if bool_decide (s_ID left = ""%string) || bool_decide (s_ID right = ""%string) || bool_decide (s_ID left = s_ID right)
     || bool_decide (path_of (s_RolloutPath left) = []) || bool_decide (path_of (s_RolloutPath right) = []) then
    fail (errors_new "distinct sessions with rollout paths are required")
  else
    let* leftFile := wrap "open left rollout: %w" (on_world (os_Open (path_of (s_RolloutPath left)))) in
    defer_ (on_world (file_Close leftFile)) (
      let* rightFile := wrap "open right rollout: %w" (on_world (os_Open (path_of (s_RolloutPath right)))) in
      defer_ (on_world (file_Close rightFile)) (compare_open left right edges leftFile rightFile)).
End Family.

(** ** The records of a file *)

Section Records.
Context (sha256 : bytes -> bytes).

Definition rec_at (off : Z) (line : bytes) : record :=
  {| rc_digest := sha256 line; rc_size := zlen line; rc_start := off; rc_end := off + zlen line |}.
Fixpoint recs_of (off : Z) (lines : list bytes) : list record :=
  match lines with
  | [] => []
  | line :: lines => rec_at off line :: recs_of (off + zlen line) lines
  end.
Lemma recs_of_snoc off lines line : recs_of off (lines ++ [line]) = recs_of off lines ++ [rec_at (off + zlen (concat lines)) line].
Proof.
  revert off. induction lines as [|x lines IH]; intros off; cbn [app recs_of concat].
  - unfold zlen at 1. cbn. by rewrite Z.add_0_r.
  - rewrite IH, zlen_app. do 3 f_equal. unfold rec_at. f_equal; lia.
Qed.

Lemma zlen_recs_of off lines : zlen (recs_of off lines) = zlen lines.
Proof. unfold zlen. f_equal. revert off. induction lines as [|line lines IH]; intros off; cbn; [done|]. by rewrite IH. Qed.

(** [r] describes the record [line] of a file with the bytes [data]. *)
Record rec_ok (data : bytes) (r : record) (line : bytes) : Prop := {
  ro_digest : rc_digest r = sha256 line;
  ro_size : rc_size r = zlen line;
  ro_start : 0 <= rc_start r /\ rc_start r + rc_size r <= zlen data;
  ro_bytes : slice (rc_start r) (rc_start r + rc_size r) data = line;
}.
Lemma recs_ok Unmarshal_type ignore data skip idx lines : comparable Unmarshal_type ignore data = (skip, idx, lines) ->
  Forall2 (rec_ok data) (recs_of (zlen skip) lines) lines.
Proof.
  intros Hc. assert (forall before rest, lines = before ++ rest -> Forall2 (rec_ok data) (recs_of (zlen skip + zlen (concat before)) rest) rest) as H.
  2: { specialize (H [] lines eq_refl). cbn [concat] in H. by rewrite zlen_nil, Z.add_0_r in H. }
  intros before rest. revert before. induction rest as [|line rest IH]; intros before Hl; cbn [recs_of]; constructor.
  - destruct (in_file Unmarshal_type ignore data skip idx lines before [line] rest Hc Hl) as [Hs Hle]. cbn [concat] in Hs, Hle.
    rewrite app_nil_r in Hs, Hle. pose proof (zlen_nonneg skip). pose proof (zlen_nonneg (concat before)). split; cbn; [done|done|lia|done].
  - specialize (IH (before ++ [line])). rewrite concat_app, zlen_app in IH. cbn [concat] in IH. rewrite app_nil_r, Z.add_assoc in IH.
    apply IH. by rewrite <- app_assoc.
Qed.

Lemma does_scanFile Unmarshal_type file inode skip idx lines s :
  comparable Unmarshal_type true (i_data inode) = (skip, idx, lines) -> w_inodes s.2 !! f_ino file = Some inode ->
  does (scanFile sha256 Unmarshal_type file) s (fun l => l = recs_of (zlen skip) lines).
Proof.
  intros Hc Hi. unfold scanFile. eapply does_bind; [by apply does_syscall with (a := tt) (P := fun _ => True)|]. intros _ s1 Hq1 _.
  assert (w_inodes s1.2 !! f_ino file = Some inode) as Hi1 by (destruct (proj1 Hq1) as (_ & -> & _); done).
  unfold does. rewrite wp_bind. unfold with_var, wp at 1.
  pose proof (wp_open_lines sha256 Unmarshal_type append_record (fun lb v => v = recs_of (zlen skip) lb) (fun _ _ => False)
    skip idx lines true (i_data inode) Hc (ret tt) file inode [] s1 (fun s => does_ret tt s (fun _ => True) I) Hi1 eq_refl eq_refl) as H.
  unfold wp in H. destruct (scan_open _ _ _ _ _ _ _) as [r [v s2]]. cbn [fst snd] in *. destruct H as [Hq Hr].
  - intros lb line la v' s' _ _ ->. unfold append_record, set_var. rewrite wp_modify. split; [apply quiet_refl|]. cbn. by rewrite recs_of_snoc.
  - destruct r as [[]|e]; [by split|]. destruct Hr as [[]|Hr]. by split.
Qed.
End Records.

(** ** Comparing records *)

(** The records that the two files share, counted as often as both hold them. *)
Definition shared_multiset (la lb : list bytes) : gmultiset bytes := list_to_set_disj la ∩ list_to_set_disj lb.

Section Compare.
Context (sha256 : bytes -> bytes) (lf rf : File) (ia ib : inode).
(** Both files are still open with these contents. *)
Definition open_files (s : Ctx * world) : Prop := w_inodes s.2 !! f_ino lf = Some ia /\ w_inodes s.2 !! f_ino rf = Some ib.
Lemma open_quiet s s' : quiet s s' -> open_files s -> open_files s'.
Proof. intros [(_ & Ei & _) _] [H1 H2]. unfold open_files. by rewrite Ei. Qed.

Local Abbreviation lok := (rec_ok sha256 (i_data ia)).
Local Abbreviation rok := (rec_ok sha256 (i_data ib)).

Lemma does_equalRanges l x r y s : open_files s -> lok l x -> rok r y ->
  does (equalRanges lf l rf r) s (fun b => b = bool_decide (x = y)).
Proof.
  intros [Hi1 Hi2] [_ Hs1 Ho1 Hb1] [_ Hs2 Ho2 Hb2]. unfold equalRanges. pose proof (zlen_nonneg x). destruct (rc_size l =? rc_size r) eqn:E; zbool; cbn [negb].
  - eapply does_mono; [eapply (does_equal_loop (128 * 1024)); [done|exact Hi1|exact Hi2|done|done|lia..]|].
    intros b ->. unfold range_equal. by rewrite E, Hb2, <- E, Hb1.
  - apply does_ret. symmetry. apply bool_decide_eq_false_2. intros ->. congruence.
Qed.

Lemma max_prefix_cons (x y : bytes) la lb :
  (max_prefix (x :: la) (y :: lb)).2 = if bool_decide (x = y) then x :: (max_prefix la lb).2 else [].
Proof.
  cbn [max_prefix]. case_bool_decide as H; destruct (decide_rel _ x y) as [E|E]; try done.
Qed.
Lemma does_sharedPrefix ls la rs lb : Forall2 lok ls la -> Forall2 rok rs lb -> forall count s, open_files s ->
  does (sharedPrefix lf ls rf rs count) s (fun n => n = count + zlen (max_prefix la lb).2).
Proof.
  intros Hl. revert rs lb. induction Hl as [|l x ls la Hlx Hl IH]; intros rs lb Hr count s Hs; cbn [sharedPrefix].
  - apply does_ret. cbn. unfold zlen. cbn. lia.
  - destruct Hr as [|r y rs lb Hry Hr].
    { apply does_ret. cbn. unfold zlen. cbn. lia. }
    rewrite max_prefix_cons. destruct (negb (rc_size l =? rc_size r) || negb (bool_decide (rc_digest l = rc_digest r))) eqn:E.
    + apply does_ret. rewrite bool_decide_eq_false_2; [unfold zlen; cbn; lia|]. intros ->.
      rewrite (ro_size _ _ _ _ Hlx), (ro_size _ _ _ _ Hry), (ro_digest _ _ _ _ Hlx), (ro_digest _ _ _ _ Hry), Z.eqb_refl in E.
      rewrite bool_decide_eq_true_2 in E by done. done.
    + eapply does_bind; [by eapply does_equalRanges|]. intros b s1 Hq ->. clear E. case_bool_decide as Hxy; cbn [negb].
      * eapply does_mono; [apply (IH rs lb Hr); by eapply open_quiet|]. intros n ->. rewrite zlen_cons. lia.
      * apply does_ret. unfold zlen. cbn. lia.
Qed.

(** ** Shared records *)

Context (rs : list record) (rb : list bytes) (Hrs : Forall2 rok rs rb).

(** The records of the right file that are not used yet. *)
Definition avail (used : gset nat) : gmultiset bytes :=
  list_to_set_disj (omap (fun i => if decide (i ∈ used) then None else rb !! i) (seq 0 (length rb))).
Lemma avail_elem used x : x ∈ avail used <-> exists i, i ∉ used /\ rb !! i = Some x.
Proof.
  unfold avail. rewrite elem_of_list_to_set_disj, list_elem_of_omap. split.
  - intros (i & _ & Hi). case_decide; [done|]. by exists i.
  - intros (i & Hu & Hi). exists i. rewrite decide_False by done. split; [|done]. apply elem_of_seq. apply lookup_lt_Some in Hi. lia.
Qed.
Lemma avail_take used i x : i ∉ used -> rb !! i = Some x -> avail used = {[+ x +]} ⊎ avail ({[i]} ∪ used).
Proof.
  intros Hu Hi. unfold avail. pose proof (lookup_lt_Some _ _ _ Hi) as Hlt.
  replace (length rb) with (i + S (length rb - i - 1))%nat by lia. rewrite seq_app, Nat.add_0_l. cbn [seq]. rewrite !omap_app. cbn [omap list_omap].
  rewrite decide_False, Hi by done. rewrite decide_True by set_solver. rewrite !list_to_set_disj_app. cbn [list_to_set_disj].
  assert (forall l : list nat, i ∉ l -> omap (fun j => if decide (j ∈ used) then None else rb !! j) l
    = omap (fun j => if decide (j ∈ {[i]} ∪ used) then None else rb !! j) l) as Hext.
  { induction l as [|j l IH]; intros Hn; [done|]. cbn. apply not_elem_of_cons in Hn as [Hj Hn]. rewrite IH by done.
    destruct (decide (j ∈ used)); [rewrite decide_True by set_solver; done|]. rewrite decide_False by set_solver. done. }
  rewrite !Hext by (rewrite elem_of_seq; lia). multiset_solver.
Qed.

Definition cand (candidates : gmap recordFingerprint (list nat)) (k : recordFingerprint) : list nat := default [] (candidates !! k).
(** The indices of [items] are each a candidate of their own key only, and once. *)
Definition candidates_ok (candidates : gmap recordFingerprint (list nat)) (items : list record) : Prop := forall k,
  NoDup (cand candidates k) /\ forall i, i ∈ cand candidates k <-> exists r, items !! i = Some r /\ key_of r = k.

Lemma candidates_fold items : forall m index before, candidates_ok m before -> index = length before ->
  candidates_ok (fold_left add_candidate items (m, index)).1 (before ++ items).
Proof.
  induction items as [|item items IH]; intros m index before Hm Hi; cbn [fold_left]; [by rewrite app_nil_r|].
  rewrite (cons_middle item before items), app_assoc. unfold add_candidate at 2. apply IH; [|rewrite length_app; cbn; lia].
  intros k. destruct (Hm k) as [Hnd Hel]. unfold cand. destruct (decide (key_of item = k)) as [<-|Hk].
  - rewrite lookup_insert_eq. cbn [default from_option id]. change (default [] (m !! key_of item)) with (cand m (key_of item)). split.
    + apply list.NoDup_app. split_and!; [done| |apply NoDup_singleton]. intros j (r & Hr & _)%Hel ->%list_elem_of_singleton.
      apply lookup_lt_Some in Hr. lia.
    + intros j. rewrite elem_of_app, Hel, list_elem_of_singleton. split.
      * intros [(r & Hr & Hk)| ->]; [exists r; split; [by apply lookup_app_l_Some|done]|]. exists item. split; [|done].
        subst index. by apply list_lookup_middle.
      * intros (r & Hr & Hk). apply lookup_app_Some in Hr as [Hr|[Hle Hr]]; [left; by exists r|right].
        apply list_lookup_singleton_Some in Hr as [Hj _]. lia.
  - rewrite lookup_insert_ne by done. change (default [] (m !! k)) with (cand m k). split; [done|]. intros j. rewrite Hel. split.
    + intros (r & Hr & <-). exists r. split; [by apply lookup_app_l_Some|done].
    + intros (r & Hr & <-). exists r. split; [|done]. apply lookup_app_Some in Hr as [Hr|[_ Hr]]; [done|].
      apply list_lookup_singleton_Some in Hr as [_ ->]. done.
Qed.
Lemma candidates_of_ok : candidates_ok (candidates_of rs) rs.
Proof.
  apply (candidates_fold rs ∅ 0%nat []); [|done]. intros k'. unfold cand. rewrite lookup_empty. cbn. split; [constructor|].
  intros i. split; [by intros ?%not_elem_of_nil|]. by intros (r & Hr & _).
Qed.

(** How far the search of one key has come: the candidates [tried], in order, are used or
    remembered as collisions, and the others are all free. *)
Definition key_inv (candidates : list nat) (used : gset nat) (next : nat) (collisions : list nat) : Prop := exists tried rest,
  candidates = tried ++ rest /\ length tried = next /\ (forall i, i ∈ collisions -> i ∈ tried) /\
  (forall i, i ∈ rest -> i ∉ used) /\ (forall i, i ∈ tried -> i ∈ used \/ i ∈ collisions).
Definition shared_inv (candidates : gmap recordFingerprint (list nat)) (v : shared_vars) : Prop := forall k,
  key_inv (cand candidates k) (sh_used v) (default 0%nat (sh_next v !! k)) (default [] (sh_collisions v !! k)).

Lemma rs_of_rb i x : rb !! i = Some x -> exists r, rs !! i = Some r /\ rok r x.
Proof using Hrs. intros Hi. destruct (Forall2_lookup_r _ _ _ _ _ Hrs Hi) as (r & Hr & Hok). by exists r. Qed.
Lemma rb_of_rs i r : rs !! i = Some r -> exists x, rb !! i = Some x /\ rok r x.
Proof using Hrs. intros Hi. destruct (Forall2_lookup_l _ _ _ _ _ Hrs Hi) as (x & Hx & Hok). by exists x. Qed.
Lemma same_content_key l x i : lok l x -> rb !! i = Some x -> i ∈ cand (candidates_of rs) (key_of l).
Proof using Hrs.
  intros Hl Hi. destruct (rs_of_rb i x Hi) as (r & Hr & Hok). apply candidates_of_ok. exists r. split; [done|].
  destruct Hl, Hok. unfold key_of. f_equal; congruence.
Qed.

Section One.
Context (l : record) (x : bytes) (Hl : lok l x).

Lemma does_exact_at i s : open_files s -> (i < length rs)%nat -> does (exact_at lf l rf rs i) s (fun b => b = bool_decide (rb !! i = Some x)).
Proof using Hrs Hl.
  intros Hs Hi. unfold exact_at. destruct (lookup_lt_is_Some_2 rs i Hi) as [r Hr]. rewrite Hr. destruct (rb_of_rs i r Hr) as (y & Hy & Hok).
  eapply does_mono; [by eapply does_equalRanges|]. intros b ->. apply bool_decide_ext. rewrite Hy. naive_solver.
Qed.

Lemma does_try_collisions used indices s : open_files s -> (forall i, i ∈ indices -> (i < length rs)%nat) ->
  does (try_collisions lf l rf rs used indices) s (fun o => match o with
    | Some i => i ∈ indices /\ i ∉ used /\ rb !! i = Some x
    | None => forall i, i ∈ indices -> i ∉ used -> rb !! i <> Some x
    end).
Proof using Hrs Hl.
  revert s. induction indices as [|i indices IH]; intros s Hs Hin; cbn [try_collisions].
  - apply does_ret. by intros i ?%not_elem_of_nil.
  - assert (forall s, open_files s -> (i ∉ used -> rb !! i <> Some x) -> does (try_collisions lf l rf rs used indices) s (fun o => match o with
      | Some j => j ∈ i :: indices /\ j ∉ used /\ rb !! j = Some x
      | None => forall j, j ∈ i :: indices -> j ∉ used -> rb !! j <> Some x end)) as Hnext.
    { intros s' Hs' Hi. eapply does_mono; [apply IH; [done|]; intros j Hj; apply Hin; set_solver|].
      intros [j|]; [set_solver|]. intros H j [->|Hj]%elem_of_cons; auto. }
    destruct (decide (i ∈ used)) as [Hu|Hu]; [by apply Hnext|].
    eapply does_bind; [apply does_exact_at; [done|apply Hin; set_solver]|]. intros b s1 Hq ->. case_bool_decide as Hb.
    + apply does_ret. set_solver.
    + apply Hnext; [by eapply open_quiet|done].
Qed.

Lemma does_try_positions positions next collisions s : open_files s -> (forall i, i ∈ positions -> (i < length rs)%nat) ->
  does (try_positions lf l rf rs positions next collisions) s (fun r => exists pre post, positions = pre ++ post /\
    (forall i, i ∈ pre -> rb !! i <> Some x) /\ r.2 = collisions ++ pre /\
    match r.1.1 with
    | Some i => r.1.2 = S (next + length pre) /\ rb !! i = Some x /\ exists post', post = i :: post'
    | None => r.1.2 = (next + length pre)%nat /\ post = []
    end).
Proof using Hrs Hl.
  revert next collisions s. induction positions as [|i positions IH]; intros next collisions s Hs Hin; cbn [try_positions].
  - apply does_ret. exists [], []. cbn. rewrite app_nil_r, Nat.add_0_r. split_and!; [done| |done..]. by intros i ?%not_elem_of_nil.
  - eapply does_bind; [apply does_exact_at; [done|apply Hin; set_solver]|]. intros b s1 Hq ->. case_bool_decide as Hb.
    + apply does_ret. exists [], (i :: positions). cbn. rewrite app_nil_r, Nat.add_0_r.
      split_and!; [done| |done..|by eexists]. by intros j ?%not_elem_of_nil.
    + eapply does_mono; [apply IH; [by eapply open_quiet|]; intros j Hj; apply Hin; set_solver|].
      intros [[o n] c] (pre & post & -> & Hpre & Hc & Ho). cbn [fst snd] in *. exists (i :: pre), post. split; [done|]. split.
      { intros j [->|Hj]%elem_of_cons; auto. }
      split; [by rewrite Hc, <- app_assoc|]. cbn [length]. rewrite Nat.add_succ_r. exact Ho.
Qed.
End One.

Lemma key_inv_use c used next collisions i : NoDup c -> key_inv c used next collisions -> i ∈ collisions \/ i ∉ c ->
  key_inv c ({[i]} ∪ used) next collisions.
Proof.
  intros Hnd (tried & rest & -> & Hn & Hc & Hr & Ht) Hi. apply list.NoDup_app in Hnd as (_ & Hd & _).
  exists tried, rest. split_and!; [done|done|done| |set_solver]. intros j Hj. apply not_elem_of_union. split; [|by apply Hr].
  intros ->%elem_of_singleton. destruct Hi as [Hi|Hi]; [by apply (Hd i); [apply Hc|]|]. set_solver.
Qed.
Lemma key_inv_advance c used next collisions pre post : key_inv c used next collisions -> drop next c = pre ++ post ->
  key_inv c used (next + length pre) (collisions ++ pre).
Proof.
  intros (tried & rest & -> & <- & Hc & Hr & Ht) Hd. rewrite drop_app_length in Hd. subst rest.
  exists (tried ++ pre), post. rewrite length_app, <- app_assoc. split_and!; [done|done|set_solver..].
Qed.
Lemma key_inv_match c used next collisions pre i post : NoDup c -> key_inv c used next collisions -> drop next c = pre ++ i :: post ->
  key_inv c ({[i]} ∪ used) (S (next + length pre)) (collisions ++ pre).
Proof.
  intros Hnd (tried & rest & -> & <- & Hc & Hr & Ht) Hd. rewrite drop_app_length in Hd. subst rest.
  rewrite (cons_middle i pre post), app_assoc, app_assoc in Hnd. apply list.NoDup_app in Hnd as (_ & Hnd & _).
  exists (tried ++ pre ++ [i]), post. rewrite !length_app, <- !app_assoc. cbn [app length].
  split_and!; [done|lia|set_solver| |set_solver]. intros j Hj. apply not_elem_of_union. split; [|by apply Hr; set_solver].
  intros ->%elem_of_singleton. apply (Hnd i); [set_solver|done].
Qed.

Local Abbreviation C := (candidates_of rs).
Lemma cand_lt k i : i ∈ cand C k -> (i < length rs)%nat.
Proof. intros (r & Hr & _)%candidates_of_ok. by eapply lookup_lt_Some. Qed.
Lemma cand_other k k' i : i ∈ cand C k -> k <> k' -> i ∉ cand C k'.
Proof. intros (r & Hr & Hk)%candidates_of_ok Hne (r' & Hr' & Hk')%candidates_of_ok. congruence. Qed.

(** What is left to count. *)
Definition to_count (la : list bytes) (v : shared_vars) : gmultiset bytes := list_to_set_disj la ∩ avail (sh_used v).
Lemma count_match x la v i : i ∉ sh_used v -> rb !! i = Some x ->
  size (to_count (x :: la) v) = S (size (to_count la (take_index (Some i) v))).
Proof.
  intros Hu Hi. unfold to_count. cbn [sh_used take_index list_to_set_disj]. rewrite (avail_take _ i x Hu Hi).
  replace (_ ∩ _) with ({[+ x +]} ⊎ (list_to_set_disj la ∩ avail ({[i]} ∪ sh_used v))) by multiset_solver.
  by rewrite gmultiset_size_disj_union, gmultiset_size_singleton.
Qed.
Lemma count_no_match x la v : (forall i, i ∉ sh_used v -> rb !! i <> Some x) -> to_count (x :: la) v = to_count la v.
Proof.
  intros H. assert (x ∉ avail (sh_used v)) as Hx by (intros (i & Hu & Hi)%avail_elem; by apply (H i)).
  unfold to_count. cbn [list_to_set_disj]. apply gmultiset_eq. intros y.
  rewrite !multiplicity_intersection, multiplicity_disj_union, multiplicity_singleton. case_decide as Hy; [subst y|lia].
  apply not_elem_of_multiplicity in Hx. lia.
Qed.

Lemma does_shared_loop ls la : Forall2 lok ls la -> forall v s, open_files s -> shared_inv C v ->
  does (shared_loop lf ls rf rs C v) s (fun n => n = sh_shared v + Z.of_nat (size (to_count la v))).
Proof using Hrs.
  intros Hls. induction Hls as [|l x ls la Hl Hls IH]; intros v s Hs Hv; cbn [shared_loop].
  { apply does_ret. unfold to_count. cbn [list_to_set_disj]. rewrite (left_absorb_L ∅ (∩)), gmultiset_size_empty. lia. }
  set (k := key_of l). pose proof (Hv k) as Hk. pose proof Hk as (tried & rest & Hcand & Hn & Hcoll & Hrest & Htried).
  pose proof (proj1 (candidates_of_ok k)) as Hnd.
  eapply does_bind; [apply (does_try_collisions l x Hl); [done|]|].
  { intros i Hi. apply (cand_lt k). rewrite Hcand. apply elem_of_app. left. by apply Hcoll. }
  intros [i|] s1 Hq Hm.
  - destruct Hm as (Hi & Hu & Hx). eapply does_mono; [apply IH; [by eapply open_quiet|]|].
    + intros k'. apply key_inv_use; [apply candidates_of_ok|apply Hv|]. cbn [sh_used sh_next sh_collisions take_index].
      destruct (decide (k = k')) as [<-|Hne]; [by left|right]. apply (cand_other k); [|done]. rewrite Hcand. apply elem_of_app. left. by apply Hcoll.
    + intros n ->. rewrite (count_match x la v i Hu Hx). cbn [sh_shared take_index]. lia.
  - assert (forall i, i ∈ rest -> (i < length rs)%nat) as Hlt by (intros i Hi; apply (cand_lt k); rewrite Hcand; apply elem_of_app; by right).
    fold (cand C k). assert (drop (default 0%nat (sh_next v !! k)) (cand C k) = rest) as Hdrop by (rewrite Hcand, <- Hn; apply drop_app_length).
    rewrite Hdrop. eapply does_bind; [apply (does_try_positions l x Hl); [by eapply open_quiet|done]|].
    intros [[o n'] c'] s2 Hq2 (pre & post & Hrp & Hpre & Hc' & Ho). cbn [fst snd] in *. subst c'.
    rewrite Hrp in Hcand, Hrest, Hdrop. clear Hrp Hlt.
    assert (open_files s2) as Hs2 by (eapply open_quiet; [exact Hq2|]; by eapply open_quiet).
    destruct o as [i|].
    + destruct Ho as (-> & Hx & post' & ->). assert (i ∈ pre ++ i :: post') as Hin by (clear; set_solver). pose proof (Hrest i Hin) as Hu.
      eapply does_mono; [apply IH; [done|]|].
      * intros k'. cbn [sh_used sh_next sh_collisions take_index set_positions]. destruct (decide (k = k')) as [<-|Hne].
        -- rewrite !lookup_insert_eq. cbn [default from_option id]. by eapply key_inv_match.
        -- rewrite !lookup_insert_ne by done. apply key_inv_use; [apply candidates_of_ok|apply Hv|right].
           apply (cand_other k); [|done]. rewrite Hcand. apply elem_of_app. by right.
      * intros n ->. rewrite (count_match x la v i Hu Hx). cbn [sh_shared take_index set_positions]. unfold to_count. cbn [sh_used take_index set_positions]. lia.
    + destruct Ho as (-> & ->). rewrite app_nil_r in *. eapply does_mono; [apply IH; [done|]|].
      * intros k'. cbn [sh_used sh_next sh_collisions take_index set_positions]. destruct (decide (k = k')) as [<-|Hne].
        -- rewrite !lookup_insert_eq. cbn [default from_option id]. eapply key_inv_advance; [exact Hk|]. rewrite Hdrop. by rewrite app_nil_r.
        -- rewrite !lookup_insert_ne by done. apply Hv.
      * intros n ->. rewrite (count_no_match x la v); [done|]. intros i Hu Hx.
        pose proof (same_content_key l x i Hl Hx) as Hi. fold k in Hi. rewrite Hcand in Hi. apply elem_of_app in Hi as [Hi|Hi]; [|by apply (Hpre i)].
        destruct (Htried i Hi) as [?|Hi']; [done|]. by apply (Hm i).
Qed.

Lemma omap_lookup_all (l1 l2 : list bytes) : omap (fun i => (l1 ++ l2) !! i) (seq (length l1) (length l2)) = l2.
Proof.
  revert l1. induction l2 as [|y l2 IH]; intros l1; [done|]. cbn [length seq omap list_omap].
  rewrite list_lookup_middle by done. f_equal. rewrite (cons_middle y), app_assoc. specialize (IH (l1 ++ [y])).
  rewrite length_app in IH. cbn in IH. by rewrite Nat.add_1_r in IH.
Qed.
Lemma avail_all : avail ∅ = list_to_set_disj rb.
Proof.
  unfold avail. f_equal. transitivity (omap (fun i => rb !! i) (seq 0 (length rb))); [|apply (omap_lookup_all [] rb)].
  apply list_omap_ext, Forall_Forall2_diag, Forall_true.
  intros i. by rewrite decide_False by (clear; set_solver).
Qed.
Lemma does_sharedRecordCount ls la s : Forall2 lok ls la -> open_files s ->
  does (sharedRecordCount lf ls rf rs) s (fun n => n = Z.of_nat (size (shared_multiset la rb))).
Proof using Hrs.
  intros Hls Hs. unfold sharedRecordCount. eapply does_mono; [apply (does_shared_loop ls la Hls); [done|]|].
  - intros k. exists [], (cand C k). cbn. rewrite !lookup_empty. cbn. split_and!; [done|done|set_solver..].
  - intros n ->. cbn [sh_shared]. unfold to_count. cbn [sh_used]. by rewrite avail_all.
Qed.
End Compare.

(** ** Reading without changing anything *)

Section Reads.
Context (excuse : Prop).
(** [m] only reads, its result satisfies [P], and it fails only when [excuse] holds, it is
    cancelled or a call fails. *)
Definition reads {A} (m : CM A) (s : Ctx * world) (P : A -> Prop) : Prop :=
  wp m s (fun r s' => quiet s s' /\ match r with Ok a => P a | Err _ => excuse \/ ~ calm s end).

Lemma reads_does {A} (m : CM A) s (P : A -> Prop) : does m s P -> reads m s P.
Proof. unfold does, reads. intros H. eapply wp_mono; [exact H|]. intros [a|e] s' [Hq Hr]; [done|]. split; [done|right; apply Hr]. Qed.
Lemma reads_mono {A} (m : CM A) s (P Q : A -> Prop) : reads m s P -> (forall a, P a -> Q a) -> reads m s Q.
Proof. unfold reads. intros H HPQ. eapply wp_mono; [exact H|]. intros [a|e] s' [Hq Hr]; auto. Qed.
Lemma reads_ret {A} (a : A) s (P : A -> Prop) : P a -> reads (ret a) s P.
Proof. intros HP. split; [apply quiet_refl|done]. Qed.
Lemma reads_bind {A B} (m : CM A) (f : A -> CM B) s P Q :
  reads m s P -> (forall a s', quiet s s' -> P a -> reads (f a) s' Q) -> reads (bind m f) s Q.
Proof.
  unfold reads. intros Hm Hf. rewrite wp_bind. eapply wp_mono; [exact Hm|]. intros [a|e] s' [Hq Hr]; [|done].
  eapply wp_mono; [by apply Hf|]. intros [b|e] s2 [Hq2 Hr2]; (split; [by eapply quiet_trans|]); [done|].
  destruct Hr2 as [?|Hr2]; [by left|right]. intros Hc. apply Hr2. by apply Hq.
Qed.
Lemma reads_wrap {A} f (m : CM A) s (P : A -> Prop) : reads m s P -> reads (wrap f m) s P.
Proof. unfold reads. rewrite wp_wrap. intros H. eapply wp_mono; [exact H|]. by intros [a|e] s'. Qed.
Lemma reads_defer {A B} (c : CM B) (m : CM A) s P Q : reads m s P -> (forall s', reads c s' Q) -> reads (defer_ c m) s P.
Proof.
  unfold reads. intros Hm Hc. rewrite wp_defer. eapply wp_mono; [exact Hm|]. intros r s' [Hq Hr].
  eapply wp_mono; [apply Hc|]. intros _ s2 [Hq2 _]. split; [by eapply quiet_trans|done].
Qed.
Lemma reads_fail {A} e s (P : A -> Prop) : excuse -> reads (fail e) s P.
Proof. intros H. split; [apply quiet_refl|by left]. Qed.
End Reads.

(** The status of a file that is there. *)
Definition info_at (n : nat) (i : inode) : FileInfo :=
  {| fi_ino := n; fi_size := zlen (i_data i); fi_mtime := i_mtime i; fi_regular := true |}.
Lemma does_Stat file i s : w_inodes s.2 !! f_ino file = Some i -> does (on_world (file_Stat file)) s (fun info => info = info_at (f_ino file) i).
Proof. intros Hi. eapply does_syscall; [|reflexivity]. intros w (_ & E & _). by rewrite E, Hi. Qed.
Lemma does_os_Stat p n i s : w_names s.2 !! p = Some n -> w_inodes s.2 !! n = Some i -> does (on_world (os_Stat p)) s (fun info => info = info_at n i).
Proof. intros Hn Hi. eapply does_syscall; [|reflexivity]. intros w (E1 & E2 & _). by rewrite E1, Hn, E2, Hi. Qed.
Lemma does_on_world_bind {A B} (m : OS A) (f : A -> OS B) s P Q : does (on_world m) s P ->
  (forall a s', quiet s s' -> P a -> does (on_world (f a)) s' Q) -> does (on_world (bind m f)) s Q.
Proof. intros Hm Hf. pose proof (does_bind _ (fun a => on_world (f a)) s P Q Hm Hf) as H. unfold does, wp in *. by rewrite on_world_bind. Qed.
Lemma does_on_world_ret {A} (a : A) s (P : A -> Prop) : P a -> does (on_world (ret a)) s P.
Proof. intros HP. destruct s as [c w]. by apply does_ret. Qed.

Lemma does_snapshotFile file i s : w_inodes s.2 !! f_ino file = Some i ->
  does (on_world (snapshotFile file)) s (fun info => info = info_at (f_ino file) i).
Proof.
  intros Hi. eapply does_on_world_bind; [by apply does_Stat|]. intros info s1 _ ->. by apply does_on_world_ret.
Qed.
Lemma does_verifySourceUnchanged p file i s : w_names s.2 !! p = Some (f_ino file) -> w_inodes s.2 !! f_ino file = Some i ->
  does (on_world (verifySourceUnchanged p file (info_at (f_ino file) i))) s (fun _ => True).
Proof.
  intros Hn Hi. eapply does_on_world_bind; [by apply does_Stat|]. intros info s1 Hq ->.
  destruct (proj1 Hq) as (E1 & E2 & _). eapply does_on_world_bind; [apply (does_os_Stat p (f_ino file) i); by rewrite ?E1, ?E2|].
  intros info s2 _ ->. unfold os_SameFile. cbn [info_at fi_ino fi_size fi_mtime]. rewrite Nat.eqb_refl, !Z.eqb_refl. by apply does_on_world_ret.
Qed.

(** ** The comparison *)

Lemma occurs_both la lb : occurs la lb -> occurs lb la -> la = lb.
Proof.
  intros (pre & post & H) (pre' & post' & H'). assert (length lb = length pre + length la + length post)%nat as E by (rewrite H, !length_app; lia).
  assert (length la = length pre' + length lb + length post')%nat as E' by (rewrite H' at 1; rewrite !length_app; lia).
  destruct pre; [|cbn in E; lia]. destruct post; [|cbn in E; lia]. by rewrite app_nil_l, app_nil_r in H.
Qed.
Lemma occurs_refl la : occurs la la.
Proof. exists [], []. by rewrite app_nil_r. Qed.

(** What each answer says of the records of the two files. *)
Definition relation_means (r : Relation) (la lb : list bytes) : Prop :=
  match r with
  | RelationIdentical => la = lb
  | RelationLeftContained => occurs la lb /\ la <> lb
  | RelationRightContained => occurs lb la /\ la <> lb
  | RelationIndependentTails => ~ occurs la lb /\ ~ occurs lb la /\ (max_prefix la lb).2 <> []
  | RelationSharedRecords => ~ occurs la lb /\ ~ occurs lb la /\ (max_prefix la lb).2 = [] /\ exists x, x ∈ la /\ x ∈ lb
  | RelationUnknown => forall x, x ∈ la -> x ∉ lb
  end.
Lemma shared_elem la lb x : x ∈ shared_multiset la lb <-> x ∈ la /\ x ∈ lb.
Proof. unfold shared_multiset. by rewrite gmultiset_elem_of_intersection, !elem_of_list_to_set_disj. Qed.
Lemma relation_of_spec la lb cl cr : la <> [] -> lb <> [] -> (cl = true <-> occurs la lb) -> (cr = true <-> occurs lb la) ->
  let '(r, exact) := relation_of cl cr (zlen (max_prefix la lb).2) (Z.of_nat (size (shared_multiset la lb))) in
  relation_means r la lb /\ (exact = true <-> r <> RelationUnknown).
Proof.
  intros Ha Hb Hl Hr. unfold relation_of. destruct cl, cr; cbn [andb].
  - split; [|done]. apply occurs_both; tauto.
  - split; [|done]. split; [tauto|]. intros ->. destruct Hr as [_ Hr]. by discriminate (Hr (occurs_refl lb)).
  - split; [|done]. split; [tauto|]. intros ->. destruct Hl as [_ Hl]. by discriminate (Hl (occurs_refl lb)).
  - assert (~ occurs la lb) as Hnl by (intros H; by apply Hl in H). assert (~ occurs lb la) as Hnr by (intros H; by apply Hr in H).
    destruct (zlen (max_prefix la lb).2 >? 0) eqn:Ep.
    { split; [|done]. split_and!; [done..|]. intros E. rewrite E in Ep. done. }
    assert ((max_prefix la lb).2 = []) as Hp by (apply zlen_0_nil; pose proof (zlen_nonneg (max_prefix la lb).2); lia).
    destruct (Z.of_nat (size (shared_multiset la lb)) >? 0) eqn:Es.
    + split; [|done]. split_and!; [done..|]. destruct (gmultiset_choose_or_empty (shared_multiset la lb)) as [[x Hx]|E].
      * exists x. by apply shared_elem.
      * rewrite E, gmultiset_size_empty in Es. done.
    + split; [|done]. intros x Hxa Hxb. assert (x ∈ shared_multiset la lb) as Hx by by apply shared_elem.
      assert (shared_multiset la lb = ∅) as E by (apply gmultiset_size_empty_inv; lia). rewrite E in Hx. multiset_solver.
Qed.

Section Exact.
Context (sha256 : bytes -> bytes) (Unmarshal_type : bytes -> result string) (hook : OS unit).
Context (Hhook : forall s, reads False (on_world hook) s (fun _ => True)).
Context (left right : Session) (edges : list SpawnEdge) (a b : bytes).
Local Abbreviation lp := (path_of (s_RolloutPath left)).
Local Abbreviation rp := (path_of (s_RolloutPath right)).
Local Abbreviation la := (comparable Unmarshal_type true a).2.
Local Abbreviation lb := (comparable Unmarshal_type true b).2.

Definition compared (c : Comparison) : Prop :=
  la <> [] /\ lb <> [] /\ cm_LeftRecords c = zlen la /\ cm_RightRecords c = zlen lb
  /\ cm_SharedPrefixRecords c = zlen (max_prefix la lb).2 /\ cm_SharedRecords c = Z.of_nat (size (shared_multiset la lb))
  /\ (cm_LeftContainedInRight c = true <-> occurs la lb) /\ (cm_RightContainedInLeft c = true <-> occurs lb la)
  /\ relation_means (cm_Relation c) la lb /\ (cm_VerifiedExact c = true <-> cm_Relation c <> RelationUnknown)
  /\ cm_GraphRelation c = graphRelation (s_ID left) (s_ID right) edges.

Local Abbreviation nothing := (la = [] \/ lb = []).
Lemma reads_Check contained container x y s : in_Path contained <> [] -> in_Path container <> [] ->
  file_data s.2 (in_Path contained) = Some x -> file_data s.2 (in_Path container) = Some y -> (comparable Unmarshal_type true x).2 <> [] ->
  reads nothing (Check sha256 Unmarshal_type contained container {| op_IgnoreSessionMeta := true |}) s
    (fun r => re_Contained r && re_VerifiedExact r = true <-> occurs (comparable Unmarshal_type true x).2 (comparable Unmarshal_type true y).2).
Proof.
  intros Hp Hp' Hx Hy Hne. unfold reads, wp. destruct (Check _ _ _ _ _ s) as [r s'] eqn:E.
  pose proof (check_spec sha256 Unmarshal_type contained container true x y s r s' Hp Hp' Hx Hy E) as H. cbv zeta in H. cbn [fst snd].
  destruct (comparable Unmarshal_type true y) as [[skipb idxb] l]. destruct H as [Hq H]. split; [done|].
  destruct r as [r|e]; [|right; by destruct H]. destruct H as (_ & Hiff & _ & _ & Hv & _). cbn [snd]. rewrite Hv, andb_diag. exact Hiff.
Qed.
Lemma reads_hook s : reads nothing (on_world hook) s (fun _ => True).
Proof using Hhook.
  pose proof (Hhook s) as H. unfold reads in *. eapply wp_mono; [exact H|]. intros [u|e] s' [Hq Hr]; [done|]. split; [done|]. destruct Hr as [[]|Hr]. by right.
Qed.

Lemma data_quiet p d s s' : quiet s s' -> file_data s.2 p = Some d -> file_data s'.2 p = Some d.
Proof. intros [Hq _] Hd. by rewrite (same_files_data s.2 s'.2 p Hq). Qed.

Lemma split3 {X Y Z : Type} (p : X * Y * Z) : exists x y z, p = (x, y, z).
Proof. destruct p as [[x y] z]. by exists x, y, z. Qed.
Context (Hlp : lp <> []) (Hrp : rp <> []).

Lemma reads_compare_open lf rf ia ib s :
  w_names s.2 !! lp = Some (f_ino lf) -> w_inodes s.2 !! f_ino lf = Some ia -> i_data ia = a ->
  w_names s.2 !! rp = Some (f_ino rf) -> w_inodes s.2 !! f_ino rf = Some ib -> i_data ib = b ->
  reads nothing (compare_open sha256 Unmarshal_type hook left right edges lf rf) s compared.
Proof using Hhook Hlp Hrp.
  intros Hln Hli Ha Hrn Hri Hb.
  assert (forall t, quiet s t -> file_data t.2 lp = Some a /\ file_data t.2 rp = Some b /\ open_files lf rf ia ib t
    /\ w_names t.2 !! lp = Some (f_ino lf) /\ w_names t.2 !! rp = Some (f_ino rf)) as Hkeep.
  { intros t [(E1 & E2 & _) _]. unfold file_data, inode_of, open_files. rewrite E1, E2, Hln, Hrn. cbn. rewrite Hli, Hri. cbn. by rewrite Ha, Hb. }
  destruct (split3 (comparable Unmarshal_type true a)) as (skipa & idxa & l & Eca), (split3 (comparable Unmarshal_type true b)) as (skipb & idxb & r & Ecb).
  pose proof (recs_ok sha256 Unmarshal_type true a skipa idxa l Eca) as Hla. pose proof (recs_ok sha256 Unmarshal_type true b skipb idxb r Ecb) as Hlb.
  pose proof Eca as Eca'. pose proof Ecb as Ecb'. rewrite <- Ha in Hla, Eca. rewrite <- Hb in Hlb, Ecb.
  unfold compare_open.
  eapply reads_bind; [apply reads_wrap, reads_does, (does_snapshotFile lf ia); done|]. intros infoa s1 Hq1 ->.
  eapply reads_bind; [apply reads_wrap, reads_does, (does_snapshotFile rf ib); by apply Hkeep|]. intros infob s2 Hq2 ->.
  pose proof (quiet_trans _ _ _ Hq1 Hq2) as Hs2.
  eapply reads_bind; [apply reads_wrap, reads_does; eapply (does_scanFile sha256 Unmarshal_type lf ia); [exact Eca|by apply Hkeep]|]. intros ls s3 Hq3 ->.
  pose proof (quiet_trans _ _ _ Hs2 Hq3) as Hs3.
  eapply reads_bind; [apply reads_wrap, reads_does; eapply (does_scanFile sha256 Unmarshal_type rf ib); [exact Ecb|by apply Hkeep]|]. intros rs s4 Hq4 ->.
  pose proof (quiet_trans _ _ _ Hs3 Hq4) as Hs4.
  rewrite !zlen_recs_of. destruct (zlen l =? 0) eqn:El; zbool; cbn [orb].
  { apply reads_fail. left. rewrite Eca'. cbn. by apply zlen_0_nil. }
  destruct (zlen r =? 0) eqn:Er; zbool.
  { apply reads_fail. right. rewrite Ecb'. cbn. by apply zlen_0_nil. }
  eapply reads_bind; [apply reads_does; eapply (does_sharedPrefix sha256 lf rf ia ib); [exact Hla|exact Hlb|by apply Hkeep]|]. intros prefix s5 Hq5 ->.
  pose proof (quiet_trans _ _ _ Hs4 Hq5) as Hs5.
  eapply reads_bind; [apply reads_does; eapply (does_sharedRecordCount sha256 lf rf ia ib); [exact Hlb|exact Hla|by apply Hkeep]|]. intros shared s6 Hq6 ->.
  pose proof (quiet_trans _ _ _ Hs5 Hq6) as Hs6.
  assert (l <> []) as Hl by (intros ->; by rewrite zlen_nil in El). assert (r <> []) as Hr by (intros ->; by rewrite zlen_nil in Er).
  eapply reads_bind; [apply (reads_Check (input_of left) (input_of right) a b); [done|done|by apply Hkeep|by apply Hkeep|by rewrite Eca']|].
  intros cl s7 Hq7 Hcl. pose proof (quiet_trans _ _ _ Hs6 Hq7) as Hs7.
  eapply reads_bind; [apply reads_hook|]. intros _ s8 Hq8 _. pose proof (quiet_trans _ _ _ Hs7 Hq8) as Hs8.
  eapply reads_bind; [apply reads_wrap, reads_does, (does_verifySourceUnchanged _ lf ia); by apply Hkeep|]. intros _ s9 Hq9 _.
  pose proof (quiet_trans _ _ _ Hs8 Hq9) as Hs9.
  eapply reads_bind; [apply reads_wrap, reads_does, (does_verifySourceUnchanged _ rf ib); by apply Hkeep|]. intros _ s10 Hq10 _.
  pose proof (quiet_trans _ _ _ Hs9 Hq10) as Hs10.
  eapply reads_bind; [apply (reads_Check (input_of right) (input_of left) b a); [done|done|by apply Hkeep|by apply Hkeep|by rewrite Ecb']|].
  intros cr s11 _ Hcr. cbv zeta. rewrite Z.add_0_l. rewrite Eca', Ecb' in Hcl, Hcr. cbn [snd] in Hcl, Hcr.
  pose proof (relation_of_spec l r _ _ Hl Hr Hcl Hcr) as Hrel.
  destruct (relation_of _ _ _ _) as [rel exact]. apply reads_ret. unfold compared. rewrite Eca', Ecb'. cbn [snd].
  destruct Hrel. cbn. split_and!; done.
Qed.

(** C23. Comparing the files of two sessions changes nothing and counts exactly: the
    records of the common prefix, and the records that both files hold, each as often
    as both hold it; the containment flags, the relation and its exactness say what
    the records show, whatever the hash function.  It fails only if a file has no
    record to compare, or if it was cancelled or a call failed. *)
Theorem compare_exact s res s' :
  s_ID left <> ""%string -> s_ID right <> ""%string -> s_ID left <> s_ID right ->
  file_data s.2 lp = Some a -> file_data s.2 rp = Some b ->
  Compare sha256 Unmarshal_type hook left right edges s = (res, s') ->
  same_files s.2 s'.2 /\
  match res with
  | Ok c => compared c
  | Err _ => la = [] \/ lb = [] \/ ~ calm s
  end.
Proof using Hhook Hlp Hrp.
  intros Hl Hr Hne Ha Hb Hrun.
  assert (reads nothing (Compare sha256 Unmarshal_type hook left right edges) s compared) as H.
  { unfold Compare. rewrite !bool_decide_eq_false_2 by done. cbn [orb]. unfold file_data, inode_of in Ha, Hb.
    destruct (w_names s.2 !! lp) as [n|] eqn:Hn; [|done]. destruct (w_names s.2 !! rp) as [m|] eqn:Hm; [|done]. cbn in Ha, Hb.
    destruct (w_inodes s.2 !! n) as [ia|] eqn:Hi; [|done]. destruct (w_inodes s.2 !! m) as [ib|] eqn:Hj; [|done]. injection Ha as Ha. injection Hb as Hb.
    eapply reads_bind; [by apply reads_wrap, reads_does, (does_Open _ n)|]. intros lf s1 [(E1 & E2 & _) _] <-.
    apply reads_defer with (Q := fun _ => True); [|intros s3; by apply reads_does, does_Close].
    eapply reads_bind; [apply reads_wrap, reads_does, (does_Open _ m); by rewrite E1|]. intros rf s2 [(E3 & E4 & _) _] <-.
    apply reads_defer with (Q := fun _ => True); [|intros s3; by apply reads_does, does_Close].
    apply (reads_compare_open lf rf ia ib); rewrite ?E3, ?E4, ?E1, ?E2; done. }
  unfold reads, wp in H. rewrite Hrun in H. cbn [fst snd] in H. destruct H as [[Hq _] H]. split; [done|]. destruct res; [done|]. tauto.
Qed.
End Exact.

(** ** A sample: every record collides, and the files share two records out of order *)

Definition left_file : bytes := [Byte.x6d; Byte.x0a; Byte.x61; Byte.x0a; Byte.x62; Byte.x0a; Byte.x63; Byte.x0a].
Definition right_file : bytes := [Byte.x61; Byte.x0a; Byte.x63; Byte.x0a; Byte.x62; Byte.x0a; Byte.x62; Byte.x0a].
Definition family_world : world :=
  {| w_names := {[ ["a"%string] := 0%nat; ["b"%string] := 1%nat ]};
     w_inodes := {[ 0%nat := {| i_data := left_file; i_mtime := 0; i_synced := true |};
                    1%nat := {| i_data := right_file; i_mtime := 0; i_synced := true |} ]};
     w_dirs := ∅; w_durable := ∅; w_next := 2; w_clock := 0; w_faults := []; w_locked := ∅ |}.
Definition family_session (id : string) (p : path) : Session :=
  {| s_ID := id; s_Title := ""; s_CWD := ""; s_RolloutPath := Absolute p; s_ModelProvider := ""; s_Model := "";
     s_UpdatedAt := 0; s_Archived := false; s_GitBranch := "" |}.
Definition family_edges : list SpawnEdge := [{| ed_ParentID := "l"; ed_ChildID := "r"; ed_Status := "" |}].
Definition family_compare : result Comparison * (Ctx * world) :=
  Compare flat_digest sample_type (ret tt) (family_session "l" ["a"%string]) (family_session "r" ["b"%string]) family_edges (None, family_world).

Lemma compare_exact_witness : exists c, family_compare.1 = Ok c /\ cm_SharedRecords c = 3 /\ cm_Relation c = RelationIndependentTails
  /\ cm_SharedPrefixRecords c = zlen (max_prefix (comparable sample_type true left_file).2 (comparable sample_type true right_file).2).2.
Proof.
  assert (match family_compare.1 with Ok c => (cm_SharedRecords c =? 3) | Err _ => false end = true) as E by (vm_compute; reflexivity).
  assert (match family_compare.1 with Ok c => match cm_Relation c with RelationIndependentTails => true | _ => false end | Err _ => false end = true)
    as Er by (vm_compute; reflexivity).
  unfold family_compare in *.
  destruct (Compare _ _ _ _ _ _ _) as [res s'] eqn:Hrun. cbn [fst] in *.
  pose proof (compare_exact flat_digest sample_type (ret tt) (fun s => conj (quiet_refl _) I) (family_session "l" ["a"%string])
    (family_session "r" ["b"%string]) family_edges left_file right_file) as H.
  specialize (H ltac:(discriminate) ltac:(discriminate) (None, family_world) res s' ltac:(discriminate) ltac:(discriminate) ltac:(discriminate)).
  destruct (H eq_refl eq_refl Hrun) as [_ Hc].
  destruct res as [c|e]; [|discriminate E]. exists c. split; [reflexivity|]. split; [apply Z.eqb_eq; exact E|].
  split; [destruct (cm_Relation c); try discriminate Er; reflexivity|]. destruct Hc as (_ & _ & _ & _ & Hp & _). exact Hp.
Defined.
