(* ===== verification/Metadata.v ===== *)
(** Code that manages small files by name: it creates them under temporary names, then
    links, renames and removes names, and writes only to files of its own.

    [Managed J own may made leased] says which of these steps keep an invariant [J] of the
    world: writing needs an inode in [own], and taking a name away needs the name to be
    in [may].  [away] is such an invariant, and so is [steady], which fixes the contents
    of every other file that has ever existed. *)
From S2P Require Import Prelude GoStd Effects Os Mutation Lease.
Local Open Scope Z_scope.

(** [os.Link]: a second name for a file; an existing name is an error. *)
Definition os_Link (source target : path) : OS unit := syscall (fun w =>
  match w_names w !! source with
  | None => (Err (errorf "%s" os_ErrNotExist), w)
  | Some n =>
      if decide (target ∈ w_dirs w \/ is_Some (w_names w !! target)) then (Err (errorf "%s" os_ErrExist), w)
      else if decide (filepath_Dir target ∈ w_dirs w) then
        (Ok tt, set_durable (set_files w (<[target := n]> (w_names w)) (w_inodes w)) (w_durable w ∖ {[target]}))
      else (Err (errorf "%s" os_ErrNotExist), w)
  end).

Class Managed (J : world -> Prop) (own : nat -> Prop) (may made leased : path -> Prop) := {
  md_tick :: TickStable J;
  md_made : forall p, may p -> made p;
  md_CreateTemp : forall dir prefix suffix w, (forall name, String.prefix prefix name = true -> made (name :: dir)) ->
    J w -> wp (os_CreateTemp dir prefix suffix) w (fun r w' => J w' /\
    forall f tp, r = Ok (f, tp) -> own (f_ino f) /\ f_append f = false /\ tp = temporary_name w prefix suffix :: dir);
  md_Create : forall p excl append w, made p \/ leased p -> J w -> wp (os_Create p excl append) w (fun r w' => J w' /\
    forall f, r = Ok f -> excl = true \/ leased p -> own (f_ino f));
  md_Write : forall f data, own (f_ino f) -> keeps J (file_Write f data);
  md_Truncate : forall f size, own (f_ino f) -> keeps J (file_Truncate f size);
  md_Sync : forall f, keeps J (file_Sync f);
  md_Rename : forall p q, may p -> may q -> keeps J (os_Rename p q);
  md_Link : forall p q, may p -> made q -> keeps J (os_Link p q);
  md_Remove : forall p, may p -> keeps J (os_Remove p);
  md_Mkdir : forall p, keeps J (os_Mkdir p);
  md_MkdirAll : forall p, keeps J (os_MkdirAll p);
  md_sync_dir : forall p, keeps J (sync_dir p);
  md_flock : forall f, keeps J (flock_try f);
  md_unlock : forall f, keeps J (flock_release f);
}.
#[export] Hint Resolve md_Write md_Truncate md_Sync md_Rename md_Link md_Remove md_Mkdir md_MkdirAll md_sync_dir md_flock md_unlock : keeps.

(** ** Staying away from other files *)

Lemma keeps_away_Link P w0 p q : P p -> keeps (away P w0) (os_Link p q).
Proof.
  intros Hp. apply keeps_syscall; [apply _|]. intros w Hw. simpl.
  destruct (w_names w !! p) as [n|] eqn:Ep; [|done]. case_decide as Hd; [done|]. case_decide; [|done].
  assert (w_names w !! q = None) as Hq by (destruct (w_names w !! q) eqn:E; [|done]; destruct Hd; right; by eexists).
  destruct Hw as [[a a'] b c d e f g z]. split; simpl; auto.
  - split; simpl; [|auto]. intros r k. destruct (decide (r = q)) as [->|].
    + rewrite lookup_insert_eq. intros [= <-]. eauto.
    + rewrite lookup_insert_ne by done. eauto.
  - intros r k Hr Hk. rewrite lookup_insert_ne; [auto|]. intros <-. rewrite (d _ _ Hr Hk) in Hq. done.
  - intros r k. destruct (decide (r = q)) as [->|].
    + rewrite lookup_insert_eq. intros [= <-]. right. destruct (e _ _ Ep) as [Hn|?]; [|done]. left. eauto.
    + rewrite lookup_insert_ne by done. auto.
  - intros r Hr Hs Hdur. specialize (z r Hr Hs Hdur). destruct Hs as [k Hk].
    assert (r <> q) by (intros ->; rewrite (d _ _ Hr Hk) in Hq; done). set_solver.
Qed.

#[export] Instance away_managed P w0 : world_wf w0 -> Managed (away P w0) (mine P w0) P (fun _ => True) P.
Proof.
  intros Hw0. split.
  - apply _.
  - done.
  - intros dir prefix suffix w _ Ha. apply wp_keeps; [by apply keeps_away_CreateTemp|done|].
    eapply wp_mono; [apply wp_CreateTemp, Ha|]. intros r w' Hr f tp ->. destruct Hr as (Ht & Hp & Happ & ->).
    split_and!; [|done..]. right. pose proof (tf_new _ _ _ _ _ _ Ht). pose proof (aw_next _ _ _ Ha). lia.
  - intros p excl append w _ Ha. apply wp_keeps; [apply keeps_away_Create|done|].
    apply wp_syscall; intros fs; [done|]. unfold wp. simpl. destruct (w_names w !! p) as [n|] eqn:Ep; simpl.
    + destruct excl; simpl; [done|]. intros f [= <-] [?|HP]; [done|]. simpl. destruct (aw_new _ _ _ Ha _ _ Ep) as [Hn|?]; [|done].
      left. eauto.
    + case_decide; simpl; [|done]. intros f [= <-] _. right. simpl. apply Ha.
  - intros f data. apply keeps_away_Write.
  - intros f size. apply keeps_away_Truncate.
  - intros f. apply keeps_away_Sync.
  - intros p q. apply keeps_away_Rename.
  - intros p q Hp _. by apply keeps_away_Link.
  - intros p Hp. apply keeps_away_Remove. by left.
  - intros p. apply keeps_away_Mkdir.
  - intros p. apply keeps_away_MkdirAll.
  - intros p. apply keeps_away_sync_dir.
  - intros f. apply keeps_away_flock.
  - intros f. apply keeps_away_unlock.
Qed.

(** ** Leaving all contents alone *)

(** From [w0] to [w] the names in [F] are as they were, and no file has other contents,
    except those that a name in [L] leads to; no other name leads to these. *)
Definition private (L : path -> Prop) (w : world) : Prop :=
  forall p q n, L p -> w_names w !! p = Some n -> w_names w !! q = Some n -> L q.
Record steady (F L : path -> Prop) (w0 w : world) : Prop := {
  st_wf : world_wf w;
  st_next : (w_next w0 <= w_next w)%nat;
  st_dirs : w_dirs w0 ⊆ w_dirs w;
  st_names : forall q, F q -> w_names w !! q = w_names w0 !! q;
  st_private : private L w;
  st_own : forall q n, L q -> w_names w !! q = Some n -> mine L w0 n;
  st_inodes : forall n i, w_inodes w0 !! n = Some i -> ~ mine L w0 n ->
    exists i', w_inodes w !! n = Some i' /\ inode_kept i i';
  st_durable : forall q, F q -> q ∈ w_durable w0 -> q ∈ w_durable w \/ w_names w0 !! q = None;
}.
Lemma steady_refl F L w : world_wf w -> private L w -> steady F L w w.
Proof.
  intros Hw Hp. split; auto.
  - intros q n Hq Hn. left. eauto.
  - intros n i Hi _. exists i. split; [done|apply inode_kept_refl].
Qed.
#[export] Instance steady_stable F L w0 : TickStable (steady F L w0).
Proof. intros w fs [[a a'] b c d e f z t]. by split. Qed.

Section Steady.
Context (F L : path -> Prop) (w0 : world) (HFL : forall q, F q -> ~ L q).

(** Updates of the names that keep what must be kept. *)
Lemma steady_names w names durable :
  steady F L w0 w ->
  (forall q n, names !! q = Some n -> is_Some (w_inodes w !! n)) ->
  (forall q, F q -> names !! q = w_names w !! q) ->
  (forall q n, L q -> names !! q = Some n -> w_names w !! q = Some n) ->
  (forall p q n, L p -> names !! p = Some n -> names !! q = Some n -> L q) ->
  (forall q, F q -> q ∈ w_durable w -> q ∈ durable \/ w_names w !! q = None) ->
  steady F L w0 (set_durable (set_files w names (w_inodes w)) durable).
Proof.
  intros [[a a'] b c d e f z t] Hn Hk Hl Hp Hd. split; simpl; eauto; [by split|..].
  - intros q Hq. by rewrite Hk, d.
  - intros q Hq Hdur. destruct (t q Hq Hdur) as [Ht|]; [|by right]. destruct (Hd q Hq Ht) as [?|Hnone]; [by left|].
    right. by rewrite <- d.
Qed.
(** A new file. *)
Lemma steady_create w p i : steady F L w0 w -> w_names w !! p = None -> ~ F p ->
  steady F L w0 (set_next (set_files w (<[p := w_next w]> (w_names w)) (<[w_next w := i]> (w_inodes w))) (S (w_next w))).
Proof.
  intros [[a a'] b c d e f z t] Hp HF. assert (forall n, is_Some (w_inodes w !! n) -> n <> w_next w) as Hfresh by (intros n Hn%a'; lia).
  assert (forall q n, w_names w !! q = Some n -> n <> w_next w) as Hfresh' by (intros q n Hn; by eapply Hfresh, a).
  split; simpl; auto with lia.
  - split; simpl.
    + intros q n. destruct (decide (q = p)) as [->|].
      * rewrite lookup_insert_eq. intros [= <-]. rewrite lookup_insert_eq. by eexists.
      * rewrite lookup_insert_ne by done. intros Hq%a. rewrite lookup_insert_ne; [done|]. by apply not_eq_sym, Hfresh.
    + intros n. destruct (decide (n = w_next w)) as [->|]; [lia|]. rewrite lookup_insert_ne by done. intros Hn%a'. lia.
  - intros q Hq. rewrite lookup_insert_ne by congruence. auto.
  - intros r q n HL. simpl. intros [[<- <-]|[Hr Hr']]%lookup_insert_Some [[<- Hn]|[Hq Hq']]%lookup_insert_Some; simpl in *; [done|..|by eapply e].
    + by destruct (Hfresh' _ _ Hq').
    + subst n. by destruct (Hfresh' _ _ Hr').
  - intros q n Hq. destruct (decide (q = p)) as [->|].
    + rewrite lookup_insert_eq. intros [= <-]. by right.
    + rewrite lookup_insert_ne by done. eauto.
  - intros n i0 Hi Hm. destruct (z n i0 Hi Hm) as (i' & Hi' & Hk). exists i'. split; [|done].
    rewrite lookup_insert_ne; [done|]. apply not_eq_sym, Hfresh. by eexists.
Qed.
(** An inode gets new contents. *)
Lemma steady_set_inode w n i : steady F L w0 w -> is_Some (w_inodes w !! n) ->
  (mine L w0 n \/ exists i0, w_inodes w !! n = Some i0 /\ inode_kept i0 i) ->
  steady F L w0 (set_files w (w_names w) (<[n := i]> (w_inodes w))).
Proof.
  intros [[a a'] b c d e f z t] Hn Hi. split; simpl; auto.
  - split; simpl.
    + intros p k Hp. destruct (decide (k = n)) as [->|]; simplify_map_eq; eauto.
    + intros k. destruct (decide (k = n)) as [->|]; simplify_map_eq; eauto.
  - intros k j Hj Hm. destruct (z k j Hj Hm) as (j' & Hj' & Hk). destruct (decide (k = n)) as [->|].
    + rewrite lookup_insert_eq. destruct Hi as [?|(i0 & Hi0 & Hk0)]; [done|]. simplify_eq. eauto using inode_kept_trans.
    + rewrite lookup_insert_ne by done. eauto.
Qed.
Lemma steady_locked w l : steady F L w0 w -> steady F L w0 (set_locked w l).
Proof. intros [[a a'] b c d e f z t]. split; simpl; auto. by split. Qed.
Lemma steady_set_dirs w d : steady F L w0 w -> w_dirs w ⊆ d -> steady F L w0 (set_dirs w d).
Proof. intros [[a a'] b c d' e f z t] Hd. split; simpl; auto; [by split|set_solver]. Qed.

Lemma steady_Write n pos data : mine L w0 n -> keeps (steady F L w0) (inode_Write n pos data).
Proof using HFL.
  intros Hm w Hw. unfold inode_Write, next_outcome, update_inode.
  destruct (w_faults w) as [|[|k] fs]; simpl; destruct (w_inodes w !! n) as [i|] eqn:Ei; simpl;
    try by apply (tick_stable (P := steady F L w0)).
  1-2: apply (steady_set_inode (tick w _)); [by apply (tick_stable (P := steady F L w0))|by eexists|by left].
  destruct (take k data); [by apply (tick_stable (P := steady F L w0))|].
  apply (steady_set_inode (tick w _)); [by apply (tick_stable (P := steady F L w0))|by eexists|by left].
Qed.

#[export] Instance steady_managed : Managed (steady F L w0) (mine L w0) (fun q => ~ F q /\ ~ L q) (fun q => ~ F q /\ ~ L q) L.
Proof using HFL.
  split.
  - apply _.
  - done.
  - intros dir prefix suffix w Hmade Hs. apply wp_syscall; intros fs; [split; [by apply tick_stable|done]|]. unfold wp. simpl.
    case_decide; simpl; [|split; [by apply tick_stable|done]]. split.
    + apply (steady_create (tick w fs)); [by apply tick_stable|apply temporary_name_fresh|].
      apply Hmade. unfold temporary_name. apply prefix_app.
    + intros f tp [= <- <-]. split_and!; [|done..]. right. apply Hs.
  - intros p excl append w Hmade Hs. apply wp_syscall; intros fs; [split; [by apply tick_stable|done]|]. unfold wp. simpl.
    destruct (w_names w !! p) as [n|] eqn:Ep; simpl.
    + destruct excl; simpl; (split; [by apply tick_stable|]); [done|]. intros f [= <-] [?|HL]; [done|]. simpl. by eapply (st_own _ _ _ _ Hs).
    + case_decide; simpl; [|split; [by apply tick_stable|done]]. split.
      * apply (steady_create (tick w fs)); [by apply tick_stable|done|]. destruct Hmade as [[]|?]; [done|]. intros ?%HFL. done.
      * intros f [= <-] _. right. apply Hs.
  - intros f data Hm. unfold file_Write. keeps. by apply steady_Write.
  - intros f size Hm. apply keeps_syscall; [apply _|]. intros w Hw. simpl. unfold update_inode.
    destruct (w_inodes w !! f_ino f) as [i|] eqn:Ei; [|done]. apply steady_set_inode; [done|by eexists|by left].
  - intros f. apply keeps_syscall; [apply _|]. intros w Hw. simpl. destruct (w_inodes w !! f_ino f) as [i|] eqn:Ei; [|done].
    apply steady_set_inode; [done|by eexists|]. right. exists i. split; [done|]. by repeat split.
  - intros p q [HFp HLp] [HFq HLq]. apply keeps_syscall; [apply _|]. intros w Hw. simpl.
    destruct (w_names w !! p) as [n|] eqn:Ep; [|done]. case_decide; [|done]. pose proof Hw as [[a a'] b c d e f z t].
    apply steady_names; [done|..].
    + intros r k [[<- <-]|[_ [_ Hk]%lookup_delete_Some]]%lookup_insert_Some; eauto.
    + intros r Hr. rewrite lookup_insert_ne, lookup_delete_ne by congruence. done.
    + intros r k Hr [[<- <-]|[_ [_ Hk]%lookup_delete_Some]]%lookup_insert_Some; [done|eauto].
    + intros r s k Hr [[<- <-]|[_ [_ Hk]%lookup_delete_Some]]%lookup_insert_Some; [done|].
      intros [[<- <-]|[_ [_ Hk']%lookup_delete_Some]]%lookup_insert_Some; [|by eapply e]. by destruct HLp; eapply e.
    + intros r Hr Hd. assert (r <> p /\ r <> q) by (split; congruence). set_solver.
  - intros p q [HFp HLp] [HFq HLq]. apply keeps_syscall; [apply _|]. intros w Hw. simpl.
    destruct (w_names w !! p) as [n|] eqn:Ep; [|done]. case_decide as Hd; [done|]. case_decide; [|done].
    pose proof Hw as [[a a'] b c d e f z t]. apply steady_names; [done|..].
    + intros r k [[<- <-]|[_ Hk]]%lookup_insert_Some; eauto.
    + intros r Hr. rewrite lookup_insert_ne by congruence. done.
    + intros r k Hr [[<- <-]|[_ Hk]]%lookup_insert_Some; [done|eauto].
    + intros r s k Hr [[<- <-]|[_ Hk]]%lookup_insert_Some; [done|].
      intros [[<- <-]|[_ Hk']]%lookup_insert_Some; [|by eapply e]. by destruct HLp; eapply e.
    + intros r Hr Hdur. assert (r <> q) by congruence. set_solver.
  - intros p [HFp HLp]. apply keeps_syscall; [apply _|]. intros w Hw. simpl. destruct (w_names w !! p) as [n|] eqn:Ep; [|done].
    pose proof Hw as [[a a'] b c d e f z t]. apply steady_names; [done|..].
    + intros r k [_ Hk]%lookup_delete_Some. eauto.
    + intros r Hr. rewrite lookup_delete_ne by congruence. done.
    + intros r k Hr [_ Hk]%lookup_delete_Some. eauto.
    + intros r s k Hr [_ Hk]%lookup_delete_Some [_ Hk']%lookup_delete_Some. by eapply e.
    + intros r Hr Hdur. assert (r <> p) by congruence. set_solver.
  - intros p. apply keeps_syscall; [apply _|]. intros w Hw. simpl. case_decide; simpl; [done|]. case_decide; simpl; [|done].
    apply steady_set_dirs; [done|set_solver].
  - intros p. apply keeps_syscall; [apply _|]. intros w Hw. apply steady_set_dirs; [done|set_solver].
  - intros p. apply keeps_syscall; [apply _|]. intros w Hw. simpl. case_decide; simpl; [|done].
    destruct Hw as [[a a'] b c d e f z t]. split; simpl; auto; [by split|]. intros r Hr Hdur. destruct (t r Hr Hdur); [left; set_solver|by right].
  - intros f. apply keeps_syscall; [apply _|]. intros w Hw. simpl. case_decide; simpl; [done|]. by apply steady_locked.
  - intros f. apply keeps_syscall; [apply _|]. intros w Hw. by apply steady_locked.
Qed.
End Steady.

Lemma steady_mine F L w0 w n : steady F L w0 w -> mine L w n -> mine L w0 n.
Proof. intros Hs [(q & HL & Hn)|Hn]; [by eapply st_own|]. right. pose proof (st_next _ _ _ _ Hs). lia. Qed.
Lemma steady_trans F L w0 w1 w2 : steady F L w0 w1 -> steady F L w1 w2 -> steady F L w0 w2.
Proof.
  intros H1 H2. split.
  - apply H2.
  - pose proof (st_next _ _ _ _ H1). pose proof (st_next _ _ _ _ H2). lia.
  - etrans; [apply H1|apply H2].
  - intros q Hq. by rewrite (st_names _ _ _ _ H2), (st_names _ _ _ _ H1).
  - apply H2.
  - intros q n Hq Hn. eapply steady_mine; [done|]. by eapply st_own.
  - intros n i Hi Hm. destruct (st_inodes _ _ _ _ H1 n i Hi Hm) as (i1 & Hi1 & Hk1).
    destruct (st_inodes _ _ _ _ H2 n i1 Hi1) as (i2 & Hi2 & Hk2); [intros Hm1; apply Hm; by eapply steady_mine|].
    exists i2. split; [done|by eapply inode_kept_trans].
  - intros q Hq Hd. destruct (st_durable _ _ _ _ H1 q Hq Hd) as [Hd1|]; [|by right].
    destruct (st_durable _ _ _ _ H2 q Hq Hd1) as [|Hn]; [by left|]. right. by rewrite <- (st_names _ _ _ _ H1).
Qed.
Lemma steady_weaken (F F' L : path -> Prop) w0 w : (forall q, F' q -> F q) -> steady F L w0 w -> steady F' L w0 w.
Proof. intros HF [a b c d e f z t]. split; auto. Qed.

Lemma steady_kept_file F L w0 w q n i : steady F L w0 w -> F q -> w_names w0 !! q = Some n -> w_inodes w0 !! n = Some i -> ~ mine L w0 n ->
  w_names w !! q = Some n /\ exists i', w_inodes w !! n = Some i' /\ inode_kept i i'.
Proof. intros Hs Hq Hn Hi Hm. split; [|by eapply st_inodes]. rewrite <- Hn. by eapply st_names. Qed.

(** ** Leaving names alone *)

(** From [w0] to [w] every name outside [B] leads where it led. *)
Definition untouched (B : path -> Prop) (w0 w : world) : Prop := forall q, ~ B q -> w_names w !! q = w_names w0 !! q.
#[export] Instance untouched_stable B w0 : TickStable (untouched B w0).
Proof. by intros w fs. Qed.
Lemma untouched_names {A} B w0 (m : OS A) : (forall w q, ~ B q -> w_names (m w).2 !! q = w_names w !! q) -> keeps (untouched B w0) (syscall m).
Proof. intros Hm. apply keeps_syscall; [apply _|]. intros w Hw q Hq. rewrite Hm; auto. Qed.
#[export] Instance untouched_managed B w0 : Managed (untouched B w0) (fun _ => True) B B B.
Proof.
  assert (forall (p q : path), B p -> ~ B q -> q <> p) as Hne by (by intros p q Hp Hq ->).
  assert (forall {A} (m : OS A), keeps (untouched B w0) m -> forall w (Q : result A -> Prop), untouched B w0 w -> (forall r, Q r) ->
    wp m w (fun r w' => untouched B w0 w' /\ Q r)) as Hany by (intros A m Hm w Q Hw HQ; split; [by apply Hm|done]).
  split.
  - apply _.
  - done.
  - intros dir prefix suffix w Hmade Hw. apply wp_syscall; intros fs; [split; [by apply tick_stable|done]|]. unfold wp. cbn.
    case_decide; cbn; [|split; [by apply tick_stable|done]]. split; [|by intros f tp [= <- <-]]. intros q Hq. cbn. rewrite lookup_insert_ne; [by apply Hw|].
    apply not_eq_sym, Hne; [|done]. apply Hmade. unfold temporary_name. apply prefix_app.
  - intros p excl append w Hp Hw. apply Hany; [|done|done]. apply untouched_names. clear w Hw. intros w q Hq. assert (B p) as HB by tauto.
    cbn. destruct (w_names w !! p) eqn:E; [by destruct excl|]. case_decide; [|done]. cbn. rewrite lookup_insert_ne; [done|].
    by apply not_eq_sym, Hne.
  - intros f data _. unfold file_Write. keeps. intros w Hw. unfold inode_Write, next_outcome, update_inode.
    destruct (w_faults w) as [|[|k] fs]; cbn; destruct (w_inodes w !! f_ino f); cbn; try done; by destruct (take k data).
  - intros f size _. apply untouched_names. intros w q _. cbn. by destruct (w_inodes w !! f_ino f).
  - intros f. apply untouched_names. intros w q _. cbn. by destruct (w_inodes w !! f_ino f).
  - intros p q Hp Hq. apply untouched_names. intros w r Hr. cbn. destruct (w_names w !! p); [|done]. case_decide; [|done]. cbn.
    rewrite lookup_insert_ne, lookup_delete_ne by (by apply not_eq_sym, Hne). done.
  - intros p q Hp Hq. apply untouched_names. intros w r Hr. cbn. destruct (w_names w !! p); [|done]. case_decide; [done|]. case_decide; [|done]. cbn.
    rewrite lookup_insert_ne by (by apply not_eq_sym, Hne). done.
  - intros p Hp. apply untouched_names. intros w r Hr. cbn. destruct (w_names w !! p); [|done]. cbn.
    rewrite lookup_delete_ne by (by apply not_eq_sym, Hne). done.
  - intros p. apply untouched_names. intros w q _. cbn. case_decide; [done|]. by case_decide.
  - intros p. by apply untouched_names.
  - intros p. apply untouched_names. intros w q _. cbn. by case_decide.
  - intros f. apply untouched_names. intros w q _. cbn. by case_decide.
  - intros f. by apply untouched_names.
Qed.

(** ** Code that every managed invariant survives *)

Section Managed.
Context {J : world -> Prop} {own : nat -> Prop} {may made leased : path -> Prop} `{Managed J own may made leased}.

Lemma keeps_md_Create p excl append : made p \/ leased p -> keeps J (os_Create p excl append).
Proof. intros Hp w Hw. apply (md_Create p excl append w Hp Hw). Qed.
Lemma keeps_md_CreateTemp dir prefix suffix : (forall name, String.prefix prefix name = true -> made (name :: dir)) ->
  keeps J (os_CreateTemp dir prefix suffix).
Proof. intros Hp w Hw. apply (md_CreateTemp dir prefix suffix w Hp Hw). Qed.
Lemma keeps_md_Chmod f : keeps J (file_Chmod f).
Proof. by apply keeps_pure; [apply _|]. Qed.
Lemma keeps_md_Close f : keeps J (file_Close f).
Proof. apply keeps_Close, _. Qed.
#[local] Hint Resolve keeps_md_Create keeps_md_CreateTemp keeps_md_Chmod keeps_md_Close : keeps.

Context (Hlock : forall store name, made (String.append name ".lock" :: "locks"%string :: store)).
Lemma keeps_open_operation_lock store name : keeps J (open_operation_lock store name).
Proof using All. unfold open_operation_lock. keeps. Qed.
Lemma keeps_AcquireOperationLock store name : keeps J (AcquireOperationLock store name).
Proof using All. unfold AcquireOperationLock, tryLockLease, unlockLease. keeps; try apply keeps_open_operation_lock. Qed.
Lemma keeps_operation_lock_Close lock : keeps J (operation_lock_Close lock).
Proof. unfold operation_lock_Close, guard_Close, unlockLease. keeps. Qed.

Lemma wp_md_write_file format f data w : J w -> own (f_ino f) ->
  wp (write_file format f data) w (fun r w' => J w' /\ forall f', r = Ok f' -> f_ino f' = f_ino f).
Proof.
  intros Hw Ho. assert (keeps J (write_file format f data)) as Hk by (unfold write_file; keeps). split; [by apply Hk|].
  unfold write_file, file_Write, bind. destruct (inode_Write _ _ _ w) as [[[n [e|]]|e] w']; cbn; [done| |done]. by intros f' [= <-].
Qed.
(** [write; sync; close] on a file of one's own, and what follows. *)
Lemma keeps_write_synced {A} f data fmt1 fmt2 fmt3 (k : OS A) : own (f_ino f) -> keeps J k ->
  keeps J (let* f' := write_file fmt1 f data in sync_file fmt2 f' ;;; wrap fmt3 (file_Close f') ;;; k).
Proof.
  intros Ho Hk w Hw. change (wp (let* f' := write_file fmt1 f data in sync_file fmt2 f' ;;; wrap fmt3 (file_Close f') ;;; k) w (fun _ w' => J w')).
  rewrite wp_bind. eapply wp_mono; [by apply wp_md_write_file|]. intros [f'|e] w1 [Hw1 _]; [|done].
  apply (wp_kept J); [|done]. unfold sync_file. keeps.
Qed.

(** The same for a new temporary file, whose contents are known when [k] starts. *)
Definition drafted (w0 : world) (tp : path) (n : nat) (d : bytes) (sy : bool) (w : world) : Prop := J w /\ temp_file w0 tp n d sy w.
#[export] Instance drafted_stable w0 tp n d sy : TickStable (drafted w0 tp n d sy).
Proof. intros w fs [Hj Ht]. split; by apply tick_stable. Qed.
Lemma wp_write_synced {A} w0 tp f data fmt1 fmt2 fmt3 (k : OS A) w (Q : result A -> world -> Prop) :
  own (f_ino f) -> at_end f (f_ino f) [] -> drafted w0 tp (f_ino f) [] false w ->
  (forall w', drafted w0 tp (f_ino f) data true w' -> wp k w' Q) ->
  (forall e d w', drafted w0 tp (f_ino f) d false w' -> Q (Err e) w') ->
  wp (let* f' := write_file fmt1 f data in sync_file fmt2 f' ;;; wrap fmt3 (file_Close f') ;;; k) w Q.
Proof.
  intros Ho He [Hj Ht] Hk Hq.
  assert (forall d sy A (m : OS A) w1, (forall P, TickStable P -> keeps P m) -> drafted w0 tp (f_ino f) d sy w1 ->
    wp m w1 (fun _ w' => drafted w0 tp (f_ino f) d sy w')) as Hquiet.
  { intros d sy A' m w1 Hm Hd1. apply (wp_kept (drafted w0 tp (f_ino f) d sy)); [apply Hm, _|done]. }
  rewrite wp_bind. eapply wp_mono; [apply wp_conj; [by apply wp_md_write_file|by eapply wp_write_file]|].
  intros [f'|e] w1 [[Hj1 Hf] Ht1]; [|destruct Ht1 as [d' Ht1]; by eapply (Hq e d')]. destruct Ht1 as [Ht1 _]. specialize (Hf f' eq_refl).
  rewrite wp_bind. eapply wp_mono; [apply wp_conj; [apply (wp_kept J); [unfold sync_file; keeps|done]|by eapply wp_sync_file_temp]|].
  intros [[]|e] w2 [Hj2 Ht2]; [|by eapply Hq]. rewrite wp_bind, wp_wrap.
  eapply wp_mono; [apply (Hquiet data true); [intros P HP; by apply keeps_Close|by split]|].
  intros [[]|e] w3 Hd3; [by apply Hk|]. eapply (Hq _ data). destruct Hd3 as [? ?%temp_unsynced]. by split.
Qed.

Lemma keeps_acquireWriterLease pid p : leased p -> keeps J (acquireWriterLease pid p).
Proof.
  intros Hp w Hw. change (wp (acquireWriterLease pid p) w (fun _ w' => J w')). unfold acquireWriterLease, openWriterLeaseFile.
  rewrite wp_bind, wp_wrap. eapply wp_mono; [apply md_Create; [by right|done]|]. intros [f|e] w2 [Hw2 Hf]; [|done].
  assert (own (f_ino f)) as Ho by (apply (Hf f eq_refl); by right). apply (wp_kept J); [|done]. unfold tryLockLease, unlockLease. keeps.
Qed.
End Managed.
#[export] Hint Resolve keeps_md_Create keeps_md_CreateTemp keeps_md_Chmod keeps_md_Close keeps_AcquireOperationLock
  keeps_operation_lock_Close keeps_acquireWriterLease : keeps.
