(* ===== verification/Checkpoint.v ===== *)
(** State checkpoints of a session: the data, validation and reading parts of
    [src/internal/vfs/state_checkpoint.go].

    Next to [state.json] a session keeps immutable checkpoints in [state-generations],
    each with the identities of the files it describes and the digest of its
    predecessor; [state-catalog.json] names the current one.  JSON codecs, SHA-256,
    the deletion tombstones ([session_deletion.go]) and the staged files of a first
    publication are arguments.  Writing is in [Publish]. *)
From S2P Require Import Prelude GoStd Effects ObjectReader Manifest View Os Mutation Lease Session StateFile Cow Writer Foreground Compact Store Walk.
Local Open Scope Z_scope.

Definition sessionStateCheckpointVersion : Z := 1.
Definition sessionStateCatalogVersion : Z := 1.
Definition maximumStateCheckpointBytes : Z := 2 ^ 20.

#[export] Instance sessionStateFileIdentity_eq_dec : EqDecision sessionStateFileIdentity.
Proof. solve_decision. Defined.

Record sessionStateCheckpoint := {
  cp_Version : Z;
  cp_SessionID : string;
  cp_Sequence : Z;
  cp_PreviousCheckpointSHA256 : string;
  cp_State : SessionState;
  cp_StateSHA256 : string;
  cp_Manifest : sessionStateFileIdentity;
  cp_Delta : sessionStateFileIdentity;
  cp_Backing : option sessionStateFileIdentity;
  cp_NativeSnapshot : option sessionStateFileIdentity;
}.
Record sessionStateCatalog := {
  ca_Version : Z;
  ca_SessionID : string;
  ca_Generation : Z;
  ca_Sequence : Z;
  ca_StateSHA256 : string;
  ca_Checkpoint : string;
  ca_CheckpointSHA256 : string;
}.
#[export] Instance sessionStateCatalog_eq_dec : EqDecision sessionStateCatalog.
Proof. solve_decision. Defined.
Record stateCheckpointChain := {
  ch_catalog : sessionStateCatalog;
  ch_checkpoint : sessionStateCheckpoint;
  ch_lineage : gmap string sessionStateCheckpoint;
}.

(** The files of [session_deletion.go] that matter here. *)
Record SessionDeletion := {
  sd_Version : Z;
  sd_SessionPath : path;
  sd_InitialCheckpointSequence : Z;
  sd_InitialCheckpointSHA256 : string;
}.
Definition sessionDeletionVersion : Z := 3.

(** ** Names *)

Definition generations_of (metadataDirectory : path) : path := "state-generations"%string :: metadataDirectory.
Definition orphans_of (metadataDirectory : path) : path := "state-orphans"%string :: metadataDirectory.
Definition catalog_of (metadataDirectory : path) : path := "state-catalog.json"%string :: metadataDirectory.
Definition state_of (metadataDirectory : path) : path := "state.json"%string :: metadataDirectory.

Definition stateCheckpointFilename (generation sequence : Z) (digest : string) : string :=
  String.append (format_020d generation) (String.append "-" (String.append (format_020d sequence)
    (String.append "-" (String.append digest ".json")))).
Definition is_temporary (prefix name : string) : bool := String.prefix prefix name && has_suffix ".tmp" name.
Definition checkpoint_temporary (name : string) : bool := is_temporary ".state-checkpoint-" name.

Definition managedSessionDataName (name : string) : bool :=
  string_is name "delta.jsonl"
  || (String.prefix "delta-" name && has_suffix ".jsonl" name)
  || (String.prefix "backing-" name && has_suffix ".jsonl" name)
  || (String.prefix ".compact-" name && has_suffix ".jsonl" name).

(** ** Validation *)

(** Paths are clean; an empty path is the empty list. *)
Definition validateCheckpointFileIdentity (identity : sessionStateFileIdentity) : option error :=
  if bool_decide (fid_Path identity = []) || (fid_Bytes identity <? 0) || negb (validStateSHA256 (fid_SHA256 identity))
  then Some (errors_new "invalid checkpoint file identity") else None.
Definition identity_at (identity : sessionStateFileIdentity) (p : path) : bool :=
  bool_decide (validateCheckpointFileIdentity identity = None) && bool_decide (fid_Path identity = p).

Definition sameStateCheckpointArtifacts (left right : sessionStateCheckpoint) : bool :=
  bool_decide (cp_State left = cp_State right) && string_is (cp_StateSHA256 left) (cp_StateSHA256 right)
  && bool_decide (cp_Manifest left = cp_Manifest right) && bool_decide (cp_Delta left = cp_Delta right)
  && bool_decide (cp_Backing left = cp_Backing right) && bool_decide (cp_NativeSnapshot left = cp_NativeSnapshot right).

Definition isDirectStateCheckpointChild (chain : stateCheckpointChain) (checkpoint : sessionStateCheckpoint) : bool :=
  let catalog := ch_catalog chain in
  if negb (string_is (cp_SessionID checkpoint) (ca_SessionID catalog)) || negb (cp_Sequence checkpoint =? u64 (ca_Sequence catalog + 1))
     || negb (string_is (cp_PreviousCheckpointSHA256 checkpoint) (ca_CheckpointSHA256 catalog))
  then false
  else if bool_decide (cp_State checkpoint = cp_State (ch_checkpoint chain)) && string_is (cp_StateSHA256 checkpoint) (ca_StateSHA256 catalog)
          && (ss_Generation (cp_State checkpoint) =? ca_Generation catalog)
  then true
  else ss_Generation (cp_State checkpoint) =? u64 (ca_Generation catalog + 1).

Section Checkpoint.
Variable sha256 : bytes -> bytes.
Variable json_Marshal : SessionState -> result bytes.
Variable json_Unmarshal : bytes -> result SessionState.
(** [decodeStrictJSON] into the two types, and their encoders. *)
Variable json_checkpoint : sessionStateCheckpoint -> result bytes.
Variable decode_checkpoint : bytes -> result sessionStateCheckpoint.
Variable decode_catalog : bytes -> result sessionStateCatalog.
(** The [checkpoint_sha256] field of a retirement request. *)
Variable decode_pin : bytes -> result string.
Variable json_manifest : bytes -> result Manifest.
Variable LoadSessionDeletion : path -> string -> OS SessionDeletion.

Definition digestStateBytes (data : bytes) : string := digest sha256 data.

Definition encodeStateCheckpoint (checkpoint : sessionStateCheckpoint) : result bytes :=
  match json_checkpoint checkpoint with
  | Ok data => Ok (data ++ [Byte.x0a])
  | Err e => Err (errorf "encode session state checkpoint: %w" e)
  end.

Definition validateStateCheckpoint (checkpoint : sessionStateCheckpoint) (sessionDirectory : path) : option error :=
  let st := cp_State checkpoint in
  if negb (cp_Version checkpoint =? sessionStateCheckpointVersion) || negb (string_is (cp_SessionID checkpoint) (ss_SessionID st))
     || (cp_Sequence checkpoint =? 0) || negb (validStateSHA256 (cp_StateSHA256 checkpoint))
  then Some (errors_new "invalid session state checkpoint")
  else if negb (string_is (cp_PreviousCheckpointSHA256 checkpoint) "") && negb (validStateSHA256 (cp_PreviousCheckpointSHA256 checkpoint))
  then Some (errors_new "invalid previous session state checkpoint identity")
  else
    match validateSessionStateForDirectory st sessionDirectory with
    | Some e => Some e
    | None =>
        if negb (match encodeSessionState json_Marshal st with
                 | Ok data => string_is (digestStateBytes data) (cp_StateSHA256 checkpoint)
                 | Err _ => false
                 end)
        then Some (errors_new "session state checkpoint state hash differs from its contents")
        else if negb (identity_at (cp_Manifest checkpoint) (ss_ManifestPath st))
                || negb (string_is (fid_SHA256 (cp_Manifest checkpoint)) (ss_ManifestSHA256 st))
        then Some (errors_new "invalid session manifest checkpoint identity")
        else if negb (identity_at (cp_Delta checkpoint) (ss_DeltaPath st))
        then Some (errors_new "invalid session delta checkpoint identity")
        else if negb (match ss_BackingPath st, cp_Backing checkpoint with
                      | None, None => true
                      | Some p, Some identity => identity_at identity p
                      | _, _ => false
                      end)
        then Some (errors_new "invalid session backing checkpoint identity")
        else
          let native := ss_NativeSnapshot st in
          if negb (match nf_Path native, cp_NativeSnapshot checkpoint with
                   | None, None => true
                   | Some p, Some identity => identity_at identity p && (fid_Bytes identity =? nf_Bytes native)
                                              && string_is (fid_SHA256 identity) (nf_SHA256 native)
                   | _, _ => false
                   end)
          then Some (errors_new "invalid native snapshot checkpoint identity")
          else None
    end.

Definition decodeStateCheckpoint (data : bytes) : result sessionStateCheckpoint :=
  match decode_checkpoint data with
  | Err e => Err e
  | Ok checkpoint =>
      match validateStateCheckpoint checkpoint (filepath_Dir (ss_DeltaPath (cp_State checkpoint))) with
      | Some e => Err e
      | None => Ok checkpoint
      end
  end.

Definition valid_catalog (catalog : sessionStateCatalog) : bool :=
  (ca_Version catalog =? sessionStateCatalogVersion) && safeSessionID (ca_SessionID catalog)
  && negb (ca_Generation catalog =? 0) && negb (ca_Sequence catalog =? 0)
  && validStateSHA256 (ca_StateSHA256 catalog) && validStateSHA256 (ca_CheckpointSHA256 catalog)
  && string_is (filepath_Base (ca_Checkpoint catalog)) (ca_Checkpoint catalog).

(** ** Loading *)

Definition regularStateCatalogPresent (metadataDirectory : path) : OS bool :=
  let* info := try_ (os_Stat (catalog_of metadataDirectory)) in
  match info with
  | Err e => if is_NotExist e then ret false else fail e
  | Ok info => if negb (fi_regular info) then fail (errors_new "session state catalog is not a regular file") else ret true
  end.

Definition loadStateCatalog (metadataDirectory : path) : OS sessionStateCatalog :=
  let p := catalog_of metadataDirectory in
  let* info := os_Stat p in
  if negb (fi_regular info) then fail (errors_new "session state catalog is not a regular file")
  else
    let* data := os_ReadFile p in
    let* catalog := wrap "decode session state catalog: %w" (lift (decode_catalog data)) in
    if negb (valid_catalog catalog) then fail (errors_new "invalid session state catalog") else ret catalog.

(** What a checkpoint file says, if it is what its name says. *)
Definition checkpoint_file (sessionID name : string) (data : bytes) : result sessionStateCheckpoint :=
  match decodeStateCheckpoint data with
  | Err e => Err (errorf "decode session state checkpoint %s: %w" e)
  | Ok checkpoint =>
      if negb (string_is name (stateCheckpointFilename (ss_Generation (cp_State checkpoint)) (cp_Sequence checkpoint) (digestStateBytes data)))
      then Err (errors_new "session state checkpoint filename does not match its contents")
      else if negb (string_is (cp_SessionID checkpoint) sessionID) then
        Err (errors_new "session state checkpoint belongs to another session")
      else Ok checkpoint
  end.

(** The checkpoints of the directory by digest; others are skipped, or are errors when
    [strict] or when the catalog names them. *)
Fixpoint read_checkpoints (directory : path) (sessionID target : string) (strict : bool) (entries : list (string * bool))
    (checkpoints : gmap string sessionStateCheckpoint) : OS (gmap string sessionStateCheckpoint) :=
  match entries with
  | [] => ret checkpoints
  | (name, isDir) :: entries =>
      let next := read_checkpoints directory sessionID target strict entries in
      let refuse := strict || string_is name target in
      if checkpoint_temporary name then next checkpoints
      else if (isDir : bool) then
        if refuse then fail (errors_new "session state checkpoint directory contains a non-file entry") else next checkpoints
      else
        let* data := os_ReadFile (name :: directory) in
        match checkpoint_file sessionID name data with
        | Err e => if refuse then fail e else next checkpoints
        | Ok checkpoint =>
            match checkpoints !! digestStateBytes data with
            | Some _ => fail (errors_new "duplicate session state checkpoint identity")
            | None => next (<[digestStateBytes data := checkpoint]> checkpoints)
            end
        end
  end.

(** From a checkpoint back to the first one: the digests on the way. *)
Fixpoint walk_lineage (fuel : nat) (checkpoints : gmap string sessionStateCheckpoint) (digest : string) (visited : gset string)
  : result (gset string) :=
  match fuel with
  | O => Err fuel_exhausted
  | S fuel =>
      match checkpoints !! digest with
      | None => Err (errors_new "session state checkpoint lineage is incomplete")
      | Some checkpoint =>
          if decide (digest ∈ visited) then Err (errors_new "session state checkpoint lineage contains a cycle")
          else
            let visited := {[digest]} ∪ visited in
            let previous := cp_PreviousCheckpointSHA256 checkpoint in
            if string_is previous "" then Ok visited
            else
              match checkpoints !! previous with
              | None => Err (errors_new "session state checkpoint lineage is invalid")
              | Some parent =>
                  if (cp_Sequence parent >=? cp_Sequence checkpoint)
                     || (ss_Generation (cp_State parent) >? ss_Generation (cp_State checkpoint))
                  then Err (errors_new "session state checkpoint lineage is invalid")
                  else walk_lineage fuel checkpoints previous visited
              end
      end
  end.

(** The catalog against the checkpoints. *)
Definition chain_of (catalog : sessionStateCatalog) (checkpoints : gmap string sessionStateCheckpoint) (strict : bool)
  : result stateCheckpointChain :=
  match checkpoints !! ca_CheckpointSHA256 catalog with
  | None => Err (errors_new "session state catalog target is missing")
  | Some target =>
      if negb (string_is (ca_Checkpoint catalog)
                 (stateCheckpointFilename (ss_Generation (cp_State target)) (cp_Sequence target) (ca_CheckpointSHA256 catalog)))
      then Err (errors_new "session state catalog target is missing")
      else if negb (ss_Generation (cp_State target) =? ca_Generation catalog) || negb (cp_Sequence target =? ca_Sequence catalog)
              || negb (string_is (cp_StateSHA256 target) (ca_StateSHA256 catalog))
      then Err (errors_new "session state catalog target metadata conflicts")
      else
        match walk_lineage (S (size checkpoints)) checkpoints (ca_CheckpointSHA256 catalog) ∅ with
        | Err e => Err e
        | Ok visited =>
            if strict && negb (size visited =? size checkpoints)%nat then
              Err (errors_new "session state checkpoint history is ambiguous")
            else Ok {| ch_catalog := catalog; ch_checkpoint := target;
                       ch_lineage := filter (fun kv => kv.1 ∈ visited) checkpoints |}
        end
  end.

Definition loadStateCheckpointChain (metadataDirectory : path) (sessionID : string) (strict : bool) : OS stateCheckpointChain :=
  let* catalog := loadStateCatalog metadataDirectory in
  if negb (string_is (ca_SessionID catalog) sessionID) then fail (errors_new "session state catalog belongs to another session")
  else
    let directory := generations_of metadataDirectory in
    let* entries := os_ReadDirEntries directory in
    let* checkpoints := read_checkpoints directory sessionID (ca_Checkpoint catalog) strict entries ∅ in
    lift (chain_of catalog checkpoints strict).

(** The checkpoint that the catalog names, without its lineage. *)
Definition loadCatalogStateCheckpoint (metadataDirectory : path) (sessionID : string) : OS stateCheckpointChain :=
  let* catalog := loadStateCatalog metadataDirectory in
  if negb (string_is (ca_SessionID catalog) sessionID) then fail (errors_new "session state catalog belongs to another session")
  else
    let p := ca_Checkpoint catalog :: generations_of metadataDirectory in
    let* info := os_Stat p in
    if negb (fi_regular info) then fail (errors_new "catalog session state checkpoint is not a regular file")
    else
      let* data := os_ReadFile p in
      let* checkpoint := lift (decodeStateCheckpoint data) in
      let digest := digestStateBytes data in
      if negb (string_is digest (ca_CheckpointSHA256 catalog))
         || negb (string_is (ca_Checkpoint catalog) (stateCheckpointFilename (ss_Generation (cp_State checkpoint)) (cp_Sequence checkpoint) digest))
         || negb (string_is (cp_SessionID checkpoint) sessionID) || negb (ss_Generation (cp_State checkpoint) =? ca_Generation catalog)
         || negb (cp_Sequence checkpoint =? ca_Sequence catalog) || negb (string_is (cp_StateSHA256 checkpoint) (ca_StateSHA256 catalog))
      then fail (errors_new "session state catalog target metadata conflicts")
      else ret {| ch_catalog := catalog; ch_checkpoint := checkpoint; ch_lineage := ∅ |}.

(** ** The files of a checkpoint *)

Definition captureRegularFileIdentity (p : path) : OS sessionStateFileIdentity :=
  let* before := os_Stat p in
  if negb (fi_regular before) then fail (errors_new "checkpoint artifact is not a regular file")
  else
    let* file := os_Open p in
    let* opened := or_else (file_Stat file) (file_Close file) in
    if negb (fi_regular opened) || negb (os_SameFile before opened) then
      ignore (file_Close file) ;;; fail (errors_new "checkpoint artifact changed while it was opened")
    else
      let* copied := try_ (file_ReadAll file) in
      let* closeErr := error_of (file_Close file) in
      match copied, closeErr with
      | Err e, _ => fail e
      | Ok _, Some e => fail e
      | Ok data, None =>
          let* after := os_Stat p in
          if negb (fi_regular after) || negb (os_SameFile opened after) || negb (fi_size after =? zlen data) then
            fail (errors_new "checkpoint artifact changed while it was hashed")
          else ret {| fid_Path := p; fid_Bytes := zlen data; fid_SHA256 := digestStateBytes data |}
      end.

(** A file that is still staged elsewhere is recorded under its final path. *)
Definition captureCheckpointFile (recordedPath : path) (sources : gmap path path) : OS sessionStateFileIdentity :=
  let* identity := captureRegularFileIdentity (default recordedPath (sources !! recordedPath)) in
  ret {| fid_Path := recordedPath; fid_Bytes := fid_Bytes identity; fid_SHA256 := fid_SHA256 identity |}.

(** [var identity *sessionStateFileIdentity; if path != "" { ... }] *)
Definition capture_optional (format : string) (p : option path) (sources : gmap path path) : OS (option sessionStateFileIdentity) :=
  match p with
  | None => ret None
  | Some p => let* identity := wrap format (captureCheckpointFile p sources) in ret (Some identity)
  end.

Definition buildStateCheckpoint (st : SessionState) (stateSHA256 previousSHA256 : string) (sequence : Z) (sessionDirectory : path)
    (sources : gmap path path) : OS sessionStateCheckpoint :=
  let* (manifest, _) := wrap "capture session manifest identity: %w"
    (captureManifestIdentity sha256 json_manifest (ss_ManifestPath st) (ss_SessionID st) (ss_BaseBytes st) (ss_BaseSHA256 st)) in
  if negb (string_is (fid_SHA256 manifest) (ss_ManifestSHA256 st)) then fail (errors_new "session manifest bytes differ from state")
  else
    let* delta := wrap "capture session delta identity: %w" (captureCheckpointFile (ss_DeltaPath st) sources) in
    let* backing := capture_optional "capture session backing identity: %w" (ss_BackingPath st) sources in
    let native := ss_NativeSnapshot st in
    let* snapshot := capture_optional "capture native snapshot identity: %w" (nf_Path native) sources in
    if match snapshot with
       | Some identity => negb (fid_Bytes identity =? nf_Bytes native) || negb (string_is (fid_SHA256 identity) (nf_SHA256 native))
       | None => false
       end
    then fail (errors_new "native snapshot bytes differ from state")
    else
      let checkpoint := {| cp_Version := sessionStateCheckpointVersion; cp_SessionID := ss_SessionID st; cp_Sequence := sequence;
        cp_PreviousCheckpointSHA256 := previousSHA256; cp_State := st; cp_StateSHA256 := stateSHA256; cp_Manifest := manifest;
        cp_Delta := delta; cp_Backing := backing; cp_NativeSnapshot := snapshot |} in
      throw (validateStateCheckpoint checkpoint sessionDirectory) ;;;
      ret checkpoint.

Definition refreshedActiveIdentity (p : path) (provided : option sessionStateFileIdentity) : OS sessionStateFileIdentity :=
  match provided with
  | Some identity =>
      if negb (identity_at identity p) then fail (errors_new "provided active session identity is invalid")
      else
        let* info := try_ (os_Stat p) in
        match info with
        | Ok info => if negb (fi_regular info) || negb (fi_size info =? fid_Bytes identity)
                     then fail (errors_new "provided active session identity no longer matches its file") else ret identity
        | Err _ => fail (errors_new "provided active session identity no longer matches its file")
        end
  | None => captureRegularFileIdentity p
  end.

Definition set_active (delta : sessionStateFileIdentity) (backing : option sessionStateFileIdentity) (sequence : Z) (previous : string)
    (c : sessionStateCheckpoint) : sessionStateCheckpoint :=
  {| cp_Version := cp_Version c; cp_SessionID := cp_SessionID c; cp_Sequence := sequence; cp_PreviousCheckpointSHA256 := previous;
     cp_State := cp_State c; cp_StateSHA256 := cp_StateSHA256 c; cp_Manifest := cp_Manifest c; cp_Delta := delta;
     cp_Backing := backing; cp_NativeSnapshot := cp_NativeSnapshot c |}.
Definition buildRefreshedStateCheckpoint (st : SessionState) (stateSHA256 previousSHA256 : string) (sequence : Z) (directory : path)
    (current : sessionStateCheckpoint) (activeIdentity : option sessionStateFileIdentity) : OS sessionStateCheckpoint :=
  if negb (bool_decide (cp_State current = st)) || negb (string_is (cp_StateSHA256 current) stateSHA256) then
    fail (errors_new "current checkpoint does not match state refresh")
  else
    let* identity := refreshedActiveIdentity (active_path st) activeIdentity in
    let checkpoint := match ss_BackingPath st with
                      | None => set_active identity (cp_Backing current) sequence previousSHA256 current
                      | Some _ => set_active (cp_Delta current) (Some identity) sequence previousSHA256 current
                      end in
    throw (validateStateCheckpoint checkpoint directory) ;;;
    ret checkpoint.

(** ** Are the files still what the checkpoint says? *)

(** [actual, err := capture(); if err != nil || actual != expected] *)
Definition verify_identity (expected : sessionStateFileIdentity) (message : string) : OS unit :=
  let* actual := try_ (captureRegularFileIdentity (fid_Path expected)) in
  match actual with
  | Ok actual => if bool_decide (actual = expected) then ret tt else fail (errors_new message)
  | Err _ => fail (errors_new message)
  end.

Fixpoint check_unknown_data (sessionDirectory : path) (known : gset path) (entries : list (string * bool)) : OS unit :=
  match entries with
  | [] => ret tt
  | (name, _) :: entries =>
      if negb (managedSessionDataName name) || bool_decide (name :: sessionDirectory ∈ known) then
        check_unknown_data sessionDirectory known entries
      else
        let* info := os_Stat (name :: sessionDirectory) in
        if negb (fi_regular info) || negb (fi_size info =? 0) then
          fail (errors_new "unrecognized session data prevents state recovery: %s")
        else check_unknown_data sessionDirectory known entries
  end.
Definition checkpoint_data (checkpoint : sessionStateCheckpoint) : gset path :=
  {[fid_Path (cp_Delta checkpoint)]} ∪ match cp_Backing checkpoint with Some b => {[fid_Path b]} | None => ∅ end.
Definition verifyNoUnknownNonemptySessionDataAllowed (sessionDirectory : path) (checkpoint : sessionStateCheckpoint) (allowed : gset path)
  : OS unit :=
  let* entries := os_ReadDirEntries sessionDirectory in
  check_unknown_data sessionDirectory (checkpoint_data checkpoint ∪ allowed) entries.

Definition verifyStateCheckpointArtifactsAllowed (sessionDirectory : path) (checkpoint : sessionStateCheckpoint) (allowed : gset path)
  : OS unit :=
  throw (validateStateCheckpoint checkpoint sessionDirectory) ;;;
  let st := cp_State checkpoint in
  let* manifest := try_ (captureManifestIdentity sha256 json_manifest (fid_Path (cp_Manifest checkpoint)) (ss_SessionID st)
    (ss_BaseBytes st) (ss_BaseSHA256 st)) in
  if negb (match manifest with Ok (manifest, _) => bool_decide (manifest = cp_Manifest checkpoint) | Err _ => false end) then
    fail (errors_new "session manifest no longer matches its checkpoint")
  else
    verify_identity (cp_Delta checkpoint) "session %s no longer matches its checkpoint" ;;;
    match cp_Backing checkpoint with
    | Some b => verify_identity b "session backing no longer matches its checkpoint"
    | None => ret tt
    end ;;;
    match cp_NativeSnapshot checkpoint with
    | Some n => verify_identity n "native snapshot no longer matches its checkpoint"
    | None => ret tt
    end ;;;
    verifyNoUnknownNonemptySessionDataAllowed sessionDirectory checkpoint allowed.

(** The data files of the lineage that the active checkpoint no longer uses, with what
    they may hold. *)
Definition add_identity (active : gset path) (identity : sessionStateFileIdentity)
    (expected : gmap path (list sessionStateFileIdentity)) : gmap path (list sessionStateFileIdentity) :=
  if decide (fid_Path identity ∈ active) then expected
  else <[fid_Path identity := default [] (expected !! fid_Path identity) ++ [identity]]> expected.
Definition superseded_data (lineage : gmap string sessionStateCheckpoint) (active : gset path)
  : gmap path (list sessionStateFileIdentity) :=
  map_fold (fun _ c expected =>
    let expected := add_identity active (cp_Delta c) expected in
    match cp_Backing c with Some b => add_identity active b expected | None => expected end) ∅ lineage.
Fixpoint verify_superseded (sessionDirectory : path) (expected : list (path * list sessionStateFileIdentity)) (allowed : gset path)
  : OS (gset path) :=
  match expected with
  | [] => ret allowed
  | (p, identities) :: expected =>
      if negb (pathWithin sessionDirectory p) || bool_decide (p = sessionDirectory) then
        fail (errors_new "superseded checkpoint contains an unsafe session data path")
      else
        let* actual := try_ (captureRegularFileIdentity p) in
        match actual with
        | Err e => if is_NotExist e then verify_superseded sessionDirectory expected allowed
                   else fail (errorf "verify superseded checkpoint artifact: %w" e)
        | Ok actual =>
            if negb (bool_decide (actual ∈ identities)) then
              fail (errors_new "superseded checkpoint artifact no longer matches its lineage: %s")
            else verify_superseded sessionDirectory expected ({[p]} ∪ allowed)
        end
  end.
(** The order in which Go visits a map is not determined; it does not matter here. *)
Definition verifiedSupersededStateCheckpointData (sessionDirectory : path) (lineage : gmap string sessionStateCheckpoint)
    (active : sessionStateCheckpoint) : OS (gset path) :=
  verify_superseded sessionDirectory (map_to_list (superseded_data lineage (checkpoint_data active))) ∅.
Definition verifyStateCheckpointArtifactsForChain (sessionDirectory : path) (chain : stateCheckpointChain) : OS unit :=
  let* allowed := verifiedSupersededStateCheckpointData sessionDirectory (ch_lineage chain) (ch_checkpoint chain) in
  verifyStateCheckpointArtifactsAllowed sessionDirectory (ch_checkpoint chain) allowed.

(** ** Checkpoints that others rely on *)

Definition sessionDeletionCheckpointPin (directory : path) : OS (option string) :=
  match directory with
  | sessionID :: sessions :: fs :: storeRoot =>
      if negb (safeSessionID sessionID) || negb (string_is sessions "sessions") || negb (string_is fs "fs") then ret None
      else
        let* tombstone := try_ (LoadSessionDeletion storeRoot sessionID) in
        match tombstone with
        | Err e => if is_NotExist e then ret None else fail e
        | Ok tombstone =>
            if sd_Version tombstone <? sessionDeletionVersion then ret None
            else if negb (bool_decide (sd_SessionPath tombstone = directory)) || (sd_InitialCheckpointSequence tombstone =? 0)
                    || negb (validStateSHA256 (sd_InitialCheckpointSHA256 tombstone))
            then fail (errors_new "session deletion contains an invalid checkpoint pin")
            else ret (Some (sd_InitialCheckpointSHA256 tombstone))
        end
  | _ => ret None
  end.

Definition retirementCheckpointPin (directory : path) : OS (option string) :=
  let* deletionPin := sessionDeletionCheckpointPin directory in
  match deletionPin with
  | Some pin => ret (Some pin)
  | None =>
      let p := "retire.request.json"%string :: directory in
      let* info := try_ (os_Stat p) in
      match info with
      | Err e => if is_NotExist e then ret None else fail e
      | Ok info =>
          if negb (fi_regular info) || (fi_size info >? 2 ^ 20) then
            fail (errors_new "retirement request checkpoint pin is not a bounded regular file")
          else
            let* data := os_ReadFile p in
            match decode_pin data with
            | Err _ => fail (errors_new "retirement request contains an invalid checkpoint pin")
            | Ok pin =>
                if negb (validStateSHA256 pin) then fail (errors_new "retirement request contains an invalid checkpoint pin")
                else
                  let* after := os_Stat p in
                  if negb (fi_regular after) || negb (os_SameFile info after) || negb (fi_size after =? zlen data) then
                    fail (errors_new "retirement request checkpoint pin changed while it was read")
                  else ret (Some pin)
            end
      end
  end.
End Checkpoint.
