(* ===== verification/Publish.v ===== *)
(** Publishing a session state with its checkpoint: the writing parts of
    [src/internal/vfs/state_checkpoint.go] and the loaders of [state.go].

    A state is published in three steps: an immutable checkpoint file, the catalog that
    names it, and the state file.  Refreshing renews the checkpoint of the current
    state; recovery restores the state file from the checkpoint that the catalog names.
    [checkpoint_store] is the [StateStore] made of these functions. *)
From S2P Require Import Prelude GoStd Effects ObjectReader Manifest View Os Mutation Lease Session StateFile Cow Writer Foreground Compact Store Walk Metadata Checkpoint.
Local Open Scope Z_scope.

Section Publish.
Variable sha256 : bytes -> bytes.
Variable json_Marshal : SessionState -> result bytes.
Variable json_Unmarshal : bytes -> result SessionState.
(** [decodeStrictJSON] into [SessionState]. *)
Variable decode_state : bytes -> result SessionState.
Variable json_checkpoint : sessionStateCheckpoint -> result bytes.
Variable decode_checkpoint : bytes -> result sessionStateCheckpoint.
Variable json_catalog : sessionStateCatalog -> result bytes.
Variable decode_catalog : bytes -> result sessionStateCatalog.
Variable decode_pin : bytes -> result string.
Variable json_manifest : bytes -> result Manifest.
Variable LoadSessionDeletion : path -> string -> OS SessionDeletion.
Variable pid : string.
(** The attempts that fit into the time limit of the checkpoint lock. *)
Variable lock_attempts : nat.
(** The files that an unfinished journal owns ([legacyMigrationJournalData]). *)
Variable legacyMigrationJournalData : path -> string -> OS (gset path).
(** The order in which Go visits a map of names. *)
Variable map_order : gset string -> list string.

Local Abbreviation digestStateBytes := (digestStateBytes sha256).
Local Abbreviation loadStateCheckpointChain := (loadStateCheckpointChain sha256 json_Marshal decode_checkpoint decode_catalog).
Local Abbreviation loadCatalogStateCheckpoint := (loadCatalogStateCheckpoint sha256 json_Marshal decode_checkpoint decode_catalog).
Local Abbreviation decodeStateCheckpoint := (decodeStateCheckpoint sha256 json_Marshal decode_checkpoint).
Local Abbreviation checkpoint_file := (checkpoint_file sha256 json_Marshal decode_checkpoint).
Local Abbreviation encodeStateCheckpoint := (encodeStateCheckpoint json_checkpoint).
Local Abbreviation buildStateCheckpoint := (buildStateCheckpoint sha256 json_Marshal json_manifest).
Local Abbreviation buildRefreshedStateCheckpoint := (buildRefreshedStateCheckpoint sha256 json_Marshal).
Local Abbreviation verifyStateCheckpointArtifactsForChain := (verifyStateCheckpointArtifactsForChain sha256 json_Marshal json_manifest).
Local Abbreviation retirementCheckpointPin := (retirementCheckpointPin decode_pin LoadSessionDeletion).
Local Abbreviation readSessionState := (readSessionState json_Unmarshal).
Local Abbreviation writeSessionState := (writeSessionState json_Marshal).
Local Abbreviation encodeSessionState := (encodeSessionState json_Marshal).

(** ** Locks *)

(** [AcquireOperationLockWithin] with [attempts] more attempts after the first. *)
Fixpoint AcquireOperationLockWithin (attempts : nat) (storeDir : path) (name : string) : OS File :=
  match attempts with
  | O => AcquireOperationLock storeDir name
  | S attempts =>
      let* lock := try_ (AcquireOperationLock storeDir name) in
      match lock with
      | Ok file => ret file
      | Err e => if errors_is "operation lock is already held" e then AcquireOperationLockWithin attempts storeDir name else fail e
      end
  end.
Definition acquireSessionCheckpointLock (directory : path) (sessionID : string) : OS File :=
  AcquireOperationLockWithin lock_attempts (filepath_Dir (filepath_Dir (filepath_Dir directory)))
    (String.append "session-checkpoint-" sessionID).

(** ** Writing a checkpoint and the catalog *)

Definition ensureStateCheckpointDirectory (parent directory : path) : OS unit :=
  let* made := try_ (os_Mkdir directory) in
  match made with
  | Ok _ => sync_dir parent
  | Err e =>
      if negb (is_Exist e) then fail (errorf "create session state checkpoint directory: %w" e)
      else
        let* info := os_Stat directory in
        if fi_regular info then fail (errors_new "session state checkpoint path is not a directory") else ret tt
  end.

(** The new file is linked to its name, which never replaces a file. *)
Definition link_checkpoint (directory p : path) (data : bytes) (temporary : File) (temporaryPath : path) : OS unit :=
  or_else (file_Chmod temporary) (file_Close temporary) ;;;
  let* temporary := write_file "write session state checkpoint: %w" temporary data in
  sync_file "sync session state checkpoint: %w" temporary ;;;
  wrap "close session state checkpoint: %w" (file_Close temporary) ;;;
  let* linked := try_ (os_Link temporaryPath p) in
  match linked with
  | Ok _ => ret tt
  | Err e =>
      if is_Exist e then
        let* existing := wrap "read concurrently published session state checkpoint: %w" (os_ReadFile p) in
        if negb (bool_decide (existing = data)) then
          fail (errors_new "immutable session state checkpoint was concurrently published with different contents")
        else ret tt
      else fail (errorf "publish immutable session state checkpoint: %w" e)
  end ;;;
  wrap "sync session state checkpoint directory: %w" (sync_dir directory) ;;;
  let* removed := try_ (os_Remove temporaryPath) in
  match removed with
  | Ok _ => ret tt
  | Err e => if is_NotExist e then ret tt else fail (errorf "remove published session state checkpoint temporary: %w" e)
  end.

Definition writeImmutableStateCheckpoint (metadataDirectory : path) (name : string) (data : bytes) : OS unit :=
  let directory := generations_of metadataDirectory in
  ensureStateCheckpointDirectory metadataDirectory directory ;;;
  let p := name :: directory in
  let* existing := try_ (os_ReadFile p) in
  match existing with
  | Ok existing =>
      if negb (bool_decide (existing = data)) then
        fail (errors_new "immutable session state checkpoint already exists with different contents")
      else ret tt
  | Err e =>
      if negb (is_NotExist e) then fail (errorf "read existing session state checkpoint: %w" e)
      else
        let* (temporary, temporaryPath) :=
          wrap "create temporary session state checkpoint: %w" (os_CreateTemp directory ".state-checkpoint-" ".tmp") in
        or_else (link_checkpoint directory p data temporary temporaryPath) (os_Remove temporaryPath) ;;;
        sync_dir directory
  end.

Definition writeStateCatalog (metadataDirectory : path) (catalog : sessionStateCatalog) : OS unit :=
  let* data := wrap "encode session state catalog: %w" (lift (json_catalog catalog)) in
  let data := data ++ [Byte.x0a] in
  let* (temporary, temporaryPath) :=
    wrap "create temporary session state catalog: %w" (os_CreateTemp metadataDirectory ".state-catalog-" ".tmp") in
  defer_ (os_Remove temporaryPath) (
    or_else (file_Chmod temporary) (file_Close temporary) ;;;
    let* temporary := write_file "write session state catalog: %w" temporary data in
    sync_file "sync session state catalog: %w" temporary ;;;
    wrap "close session state catalog: %w" (file_Close temporary) ;;;
    wrap "commit session state catalog: %w" (os_Rename temporaryPath (catalog_of metadataDirectory)) ;;;
    sync_dir metadataDirectory).

(** Before a first catalog only the checkpoint to be published may be there. *)
Fixpoint check_orphans (directory : path) (expectedName : string) (expectedData : bytes) (allowOrphanAdoption : bool)
    (entries : list (string * bool)) : OS unit :=
  match entries with
  | [] => ret tt
  | (name, isDir) :: entries =>
      if checkpoint_temporary name then check_orphans directory expectedName expectedData allowOrphanAdoption entries
      else if negb (string_is name expectedName) || isDir then
        fail (errors_new "session state checkpoint history is ambiguous before initial catalog publication")
      else
        let* data := os_ReadFile (name :: directory) in
        if negb (bool_decide (data = expectedData)) then
          fail (errors_new "orphaned initial session state checkpoint conflicts with current evidence")
        else if negb allowOrphanAdoption then
          fail (errors_new "orphaned initial session state checkpoint requires a protected migration lease")
        else check_orphans directory expectedName expectedData allowOrphanAdoption entries
  end.
Definition validateInitialCheckpointPublication (metadataDirectory : path) (expectedName : string) (expectedData : bytes)
    (allowOrphanAdoption : bool) : OS unit :=
  let directory := generations_of metadataDirectory in
  let* entries := try_ (os_ReadDirEntries directory) in
  match entries with
  | Err e => if is_NotExist e then ret tt else fail e
  | Ok entries => check_orphans directory expectedName expectedData allowOrphanAdoption entries
  end.

(** ** Quarantine *)

(** The checkpoints by digest with their names, and the files that are none. *)
Fixpoint classify (directory : path) (sessionID : string) (entries : list (string * bool))
    (checkpoints : gmap string (string * sessionStateCheckpoint)) (quarantine : gset string)
  : OS (gmap string (string * sessionStateCheckpoint) * gset string) :=
  match entries with
  | [] => ret (checkpoints, quarantine)
  | (name, isDir) :: entries =>
      if checkpoint_temporary name then classify directory sessionID entries checkpoints quarantine
      else if (isDir : bool) then fail (errors_new "cannot reconcile non-file session state checkpoint metadata")
      else
        let* data := os_ReadFile (name :: directory) in
        match checkpoint_file sessionID name data with
        | Err _ => classify directory sessionID entries checkpoints ({[name]} ∪ quarantine)
        | Ok checkpoint => classify directory sessionID entries (<[digestStateBytes data := (name, checkpoint)]> checkpoints) quarantine
        end
  end.

(** The names on the way from a checkpoint to the first one. *)
Fixpoint lineage_names (fuel : nat) (checkpoints : gmap string (string * sessionStateCheckpoint)) (digest : string)
    (lineage : gset string) : result (gset string) :=
  match fuel with
  | O => Err fuel_exhausted
  | S fuel =>
      match checkpoints !! digest with
      | None => Err (errors_new "catalog checkpoint lineage disappeared during reconciliation")
      | Some (name, checkpoint) =>
          let lineage := {[name]} ∪ lineage in
          if string_is (cp_PreviousCheckpointSHA256 checkpoint) "" then Ok lineage
          else lineage_names fuel checkpoints (cp_PreviousCheckpointSHA256 checkpoint) lineage
      end
  end.

Definition quarantine_one (metadataDirectory : path) (name : string) : OS unit :=
  let source := name :: generations_of metadataDirectory in
  let target := name :: orphans_of metadataDirectory in
  let* info := try_ (os_Stat target) in
  match info with
  | Ok _ => fail (errors_new "session state orphan already exists: %s")
  | Err e =>
      if negb (is_NotExist e) then fail e
      else wrap "quarantine session state checkpoint %s: %w" (os_Rename source target)
  end.

Definition reconcileStateCheckpointHistory (metadataDirectory : path) (sessionID : string) : OS unit :=
  let* chain := loadStateCheckpointChain metadataDirectory sessionID false in
  let* persisted := try_ (readSessionState (state_of metadataDirectory)) in
  if negb (match persisted with
           | Ok (persisted, stateData, None) => bool_decide (persisted = cp_State (ch_checkpoint chain))
                                                && string_is (digestStateBytes stateData) (ca_StateSHA256 (ch_catalog chain))
           | _ => false
           end)
  then fail (errors_new "primary session state is not authoritative enough to reconcile checkpoint history")
  else
    let directory := generations_of metadataDirectory in
    let* entries := os_ReadDirEntries directory in
    let* (checkpoints, quarantine) := classify directory sessionID entries ∅ ∅ in
    let* lineage := lift (lineage_names (S (size checkpoints)) checkpoints (ca_CheckpointSHA256 (ch_catalog chain)) ∅) in
    let quarantine := quarantine ∪ list_to_set (filter (fun name => checkpoint_temporary name = false /\ name ∉ lineage) (map fst entries)) in
    if decide (quarantine = ∅) then ret tt
    else
      let orphanDirectory := orphans_of metadataDirectory in
      let* made := try_ (os_Mkdir orphanDirectory) in
      throw (match made with
             | Err e => if is_Exist e then None else Some (errorf "create session state orphan directory: %w" e)
             | Ok _ => None
             end) ;;;
      let* info := try_ (os_Stat orphanDirectory) in
      if match info with Ok info => fi_regular info | Err _ => true end then
        fail (errors_new "session state orphan path is not a directory")
      else
        for_each (quarantine_one metadataDirectory) (map_order quarantine) ;;;
        sync_dir directory ;;;
        sync_dir orphanDirectory ;;;
        sync_dir metadataDirectory.

(** ** Publication *)

Definition commitPublishedSessionState (p : path) (temporaryPath : option path) (st : SessionState) : OS unit :=
  match temporaryPath with
  | Some temporaryPath => writeSessionStateWithTemporary json_Marshal p temporaryPath st
  | None => writeSessionState p st
  end.

(** The current chain, after quarantining what does not belong to it if need be. *)
Definition load_or_reconcile (metadataDirectory : path) (sessionID : string) : OS (result stateCheckpointChain) :=
  let* chain := try_ (loadStateCheckpointChain metadataDirectory sessionID true) in
  match chain with
  | Ok _ => ret chain
  | Err _ =>
      let* present := regularStateCatalogPresent metadataDirectory in
      if (present : bool) then
        wrap "reconcile session state checkpoint history: %w" (reconcileStateCheckpointHistory metadataDirectory sessionID) ;;;
        try_ (loadStateCheckpointChain metadataDirectory sessionID true)
      else ret chain
  end.

(** The new checkpoint and the catalog that names it. *)
Definition publish_checkpoint (metadataDirectory : path) (catalog_for : string -> string -> sessionStateCatalog)
    (checkpoint : sessionStateCheckpoint) (initial : option bool) : OS unit :=
  let* checkpointData := lift (encodeStateCheckpoint checkpoint) in
  let checkpointSHA256 := digestStateBytes checkpointData in
  let checkpointName := stateCheckpointFilename (ss_Generation (cp_State checkpoint)) (cp_Sequence checkpoint) checkpointSHA256 in
  match initial with
  | Some allowOrphanAdoption =>
      validateInitialCheckpointPublication metadataDirectory checkpointName checkpointData allowOrphanAdoption
  | None => ret tt
  end ;;;
  writeImmutableStateCheckpoint metadataDirectory checkpointName checkpointData ;;;
  writeStateCatalog metadataDirectory (catalog_for checkpointName checkpointSHA256).
Definition catalog_entry (st : SessionState) (sequence : Z) (stateSHA256 checkpointName checkpointSHA256 : string) : sessionStateCatalog :=
  {| ca_Version := sessionStateCatalogVersion; ca_SessionID := ss_SessionID st; ca_Generation := ss_Generation st;
     ca_Sequence := sequence; ca_StateSHA256 := stateSHA256; ca_Checkpoint := checkpointName; ca_CheckpointSHA256 := checkpointSHA256 |}.

Definition publishSessionStateAtLocked (p : path) (temporaryPath : option path) (st : SessionState) (sessionDirectory : path)
    (sources : gmap path path) (allowOrphanAdoption : bool) : OS unit :=
  let metadataDirectory := filepath_Dir p in
  let* stateData := lift (encodeSessionState st) in
  let stateSHA256 := digestStateBytes stateData in
  let publish_new (previousSHA256 : string) (sequence : Z) : OS unit :=
    let* checkpoint := buildStateCheckpoint st stateSHA256 previousSHA256 sequence sessionDirectory sources in
    publish_checkpoint metadataDirectory (catalog_entry st (cp_Sequence checkpoint) stateSHA256) checkpoint
      (if string_is previousSHA256 "" then Some allowOrphanAdoption else None) ;;;
    commitPublishedSessionState p temporaryPath st in
  let* chain := load_or_reconcile metadataDirectory (ss_SessionID st) in
  match chain with
  | Ok chain =>
      let catalog := ch_catalog chain in
      if ca_Generation catalog >? ss_Generation st then
        fail (errors_new "session state checkpoint generation cannot move backwards")
      else if (ca_Generation catalog =? ss_Generation st) && negb (string_is (ca_StateSHA256 catalog) stateSHA256) then
        fail (errors_new "session state checkpoint generation conflicts with its catalog")
      else if (ca_Generation catalog =? ss_Generation st) && bool_decide (cp_State (ch_checkpoint chain) = st) then
        let* verified := try_ (verifyStateCheckpointArtifactsForChain sessionDirectory chain) in
        match verified with
        | Ok _ => commitPublishedSessionState p temporaryPath st
        | Err _ => publish_new (ca_CheckpointSHA256 catalog) (u64 (ca_Sequence catalog + 1))
        end
      else publish_new (ca_CheckpointSHA256 catalog) (u64 (ca_Sequence catalog + 1))
  | Err e =>
      if is_NotExist e then publish_new "" 1 else fail (errorf "load current session state checkpoint: %w" e)
  end.

Definition publishSessionStateAt (p : path) (temporaryPath : option path) (st : SessionState) (sessionDirectory : path)
    (sources : gmap path path) (allowOrphanAdoption : bool) : OS unit :=
  throw (validateSessionStateForDirectory st sessionDirectory) ;;;
  if allowOrphanAdoption then publishSessionStateAtLocked p temporaryPath st sessionDirectory sources true
  else
    let* checkpointLock := acquireSessionCheckpointLock sessionDirectory (ss_SessionID st) in
    defer_ (operation_lock_Close (Some checkpointLock))
      (publishSessionStateAtLocked p temporaryPath st sessionDirectory sources allowOrphanAdoption).

Definition publishSessionState (p : path) (st : SessionState) : OS unit := publishSessionStateAt p None st (filepath_Dir p) ∅ false.
Definition publishSessionStateWithTemporary (p temporaryPath : path) (st : SessionState) : OS unit :=
  publishSessionStateAt p (Some temporaryPath) st (filepath_Dir p) ∅ false.
Definition publishInitialSessionState (p : path) (st : SessionState) (finalDirectory stagedDeltaPath : path) : OS unit :=
  publishSessionStateAt p None st finalDirectory {[ss_DeltaPath st := stagedDeltaPath]} true.

(** ** Refreshing *)

(** The predecessor of the new checkpoint, and whether the old one is removed. *)
Definition refresh_predecessor (directory : path) (sessionID : string) (chain : stateCheckpointChain) : OS (string * bool) :=
  let* pin := retirementCheckpointPin directory in
  match pin with
  | None => ret (cp_PreviousCheckpointSHA256 (ch_checkpoint chain), true)
  | Some pinned =>
      let* lineageChain := wrap "load pinned retirement checkpoint lineage: %w" (loadStateCheckpointChain directory sessionID true) in
      match ch_lineage lineageChain !! pinned with
      | None => fail (errors_new "retirement request checkpoint is not in the current state lineage")
      | Some _ => ret (ca_CheckpointSHA256 (ch_catalog chain), false)
      end
  end.

Definition remove_superseded (directory : path) (old new : string) : OS unit :=
  if string_is old new then ret tt
  else
    let* removed := try_ (os_Remove (old :: generations_of directory)) in
    match removed with
    | Ok _ => ret tt
    | Err e => if is_NotExist e then ret tt else fail (errorf "remove superseded session state checkpoint: %w" e)
    end ;;;
    sync_dir (generations_of directory).

Definition refreshSessionStateCheckpointWithActiveIdentityLocked (p : path) (st : SessionState)
    (activeIdentity : option sessionStateFileIdentity) : OS unit :=
  let directory := filepath_Dir p in
  let* (persisted, data, err) := wrap "load session state before checkpoint refresh: %w" (readSessionState p) in
  throw (option_map (errorf "load session state before checkpoint refresh: %w") err) ;;;
  if negb (bool_decide (persisted = st)) then fail (errors_new "persisted session state changed before checkpoint refresh")
  else
    let* chain := wrap "load session checkpoint before refresh: %w" (loadCatalogStateCheckpoint directory (ss_SessionID st)) in
    let catalog := ch_catalog chain in
    let stateSHA256 := digestStateBytes data in
    if negb (string_is (ca_StateSHA256 catalog) stateSHA256) || negb (bool_decide (cp_State (ch_checkpoint chain) = st)) then
      fail (errors_new "session checkpoint catalog does not match persisted state")
    else
      let* (previous, removeSuperseded) := refresh_predecessor directory (ss_SessionID st) chain in
      let* checkpoint := buildRefreshedStateCheckpoint st stateSHA256 previous (u64 (ca_Sequence catalog + 1)) directory
        (ch_checkpoint chain) activeIdentity in
      if sameStateCheckpointArtifacts checkpoint (ch_checkpoint chain) then ret tt
      else
        let* checkpointData := lift (encodeStateCheckpoint checkpoint) in
        let checkpointSHA256 := digestStateBytes checkpointData in
        let checkpointName := stateCheckpointFilename (ss_Generation st) (cp_Sequence checkpoint) checkpointSHA256 in
        writeImmutableStateCheckpoint directory checkpointName checkpointData ;;;
        writeStateCatalog directory (catalog_entry st (cp_Sequence checkpoint) stateSHA256 checkpointName checkpointSHA256) ;;;
        (if (removeSuperseded : bool) then remove_superseded directory (ca_Checkpoint catalog) checkpointName else ret tt) ;;;
        reconcileStateCheckpointHistory directory (ss_SessionID st).

Definition refreshSessionStateCheckpointWithActiveIdentity (p : path) (st : SessionState)
    (activeIdentity : option sessionStateFileIdentity) : OS unit :=
  let directory := filepath_Dir p in
  throw (validateSessionStateForDirectory st directory) ;;;
  let* checkpointLock := acquireSessionCheckpointLock directory (ss_SessionID st) in
  defer_ (operation_lock_Close (Some checkpointLock)) (refreshSessionStateCheckpointWithActiveIdentityLocked p st activeIdentity).

(** ** Loading and recovery *)

(** [filepath.Base(path) == "state.json"], a safe session name, and [sessions] above it. *)
Definition canonical_state (p : path) : option (path * string) :=
  match p with
  | name :: sessionID :: sessions :: root =>
      if string_is name "state.json" && safeSessionID sessionID && string_is sessions "sessions"
      then Some (sessionID :: sessions :: root, sessionID) else None
  | _ => None
  end.

(** [stateErr == nil && digest(data) == catalog.StateSHA256 && state == checkpoint.State] *)
Definition agrees (state : result (SessionState * bytes * option error)) (chain : stateCheckpointChain) : option SessionState :=
  match state with
  | Ok (st, data, None) =>
      if string_is (digestStateBytes data) (ca_StateSHA256 (ch_catalog chain)) && bool_decide (st = cp_State (ch_checkpoint chain))
      then Some st else None
  | _ => None
  end.

(** The state file is written again from the checkpoint, whose files are checked twice. *)
Definition restore_state (p directory : path) (sessionID : string) : OS (SessionState * stateCheckpointChain) :=
  let* chain := wrap "load recoverable session state checkpoint: %w" (loadStateCheckpointChain directory sessionID true) in
  wrap "verify recoverable session state checkpoint: %w" (verifyStateCheckpointArtifactsForChain directory chain) ;;;
  wrap "reverify recoverable session state checkpoint: %w" (verifyStateCheckpointArtifactsForChain directory chain) ;;;
  wrap "restore session state from checkpoint: %w" (writeSessionState p (cp_State (ch_checkpoint chain))) ;;;
  let* recovered := readSessionState p in
  throw recovered.2 ;;;
  match agrees (Ok recovered) chain with
  | Some recovered => ret (recovered, chain)
  | None => fail (errors_new "restored session state does not match its checkpoint")
  end.

Definition release_lease (lease : File) : OS unit := ignore (unlockLease lease) ;;; ignore (file_Close lease).

Definition recoverSessionStateFromCheckpoint (p : path) : OS SessionState :=
  match canonical_state p with
  | None => fail (errors_new "session state recovery path is not canonical")
  | Some (directory, sessionID) =>
      let* lease := wrap "acquire session recovery lease: %w" (acquireWriterLease pid ("writer.lease"%string :: directory)) in
      defer_ (release_lease lease) (
        let* info := try_ (os_Stat p) in
        throw (match info with
               | Ok info => if fi_regular info then None
                            else Some (errors_new "refusing to replace a non-regular primary session state")
               | Err e => if is_NotExist e then None else Some (errorf "inspect primary session state before recovery: %w" e)
               end) ;;;
        let* (recovered, _) := restore_state p directory sessionID in
        ret recovered)
  end.

Definition upgraded_state (legacy : SessionState) (manifestSHA256 : string) : SessionState :=
  {| ss_Version := sessionStateVersion; ss_SessionID := ss_SessionID legacy; ss_Generation := ss_Generation legacy;
     ss_ManifestPath := ss_ManifestPath legacy; ss_ManifestSHA256 := manifestSHA256; ss_BaseBytes := ss_BaseBytes legacy;
     ss_BaseSHA256 := ss_BaseSHA256 legacy; ss_DeltaPath := ss_DeltaPath legacy; ss_BackingPath := ss_BackingPath legacy;
     ss_NativeSnapshot := ss_NativeSnapshot legacy |}.
Definition upgradeLegacySessionStateValue (legacy : SessionState) (directory : path) : OS SessionState :=
  if negb (ss_Version legacy =? legacySessionStateVersion) || negb (string_is (ss_ManifestSHA256 legacy) "") then
    fail (errors_new "session state is not a recognized legacy value")
  else
    let* (manifest, _) := wrap "verify legacy session manifest: %w"
      (captureManifestIdentity sha256 json_manifest (ss_ManifestPath legacy) (ss_SessionID legacy) (ss_BaseBytes legacy) (ss_BaseSHA256 legacy)) in
    let upgraded := upgraded_state legacy (fid_SHA256 manifest) in
    throw (validateSessionStateForDirectory upgraded directory) ;;;
    ret upgraded.

Definition migrateLegacySessionState (p : path) : OS SessionState :=
  match canonical_state p with
  | None => fail (errors_new "legacy session state path is not canonical")
  | Some (directory, sessionID) =>
      let* lease := wrap "acquire legacy state migration lease: %w" (acquireWriterLease pid ("writer.lease"%string :: directory)) in
      defer_ (release_lease lease) (
        let* (legacy, data, err) := readSessionState p in
        match err with
        | None => ret legacy
        | Some _ =>
            if negb (match decode_state data with Ok strict => bool_decide (strict = legacy) | Err _ => false end) then
              fail (errors_new "legacy session state does not use the recognized schema")
            else
              let* upgraded := upgradeLegacySessionStateValue legacy directory in
              let* stateData := lift (encodeSessionState upgraded) in
              let* checkpoint := wrap "capture legacy session recovery evidence: %w"
                (buildStateCheckpoint upgraded (digestStateBytes stateData) "" 1 directory ∅) in
              let* allowed := legacyMigrationJournalData directory (ss_SessionID legacy) in
              verifyNoUnknownNonemptySessionDataAllowed directory checkpoint allowed ;;;
              wrap "publish migrated session state: %w" (publishSessionStateAt p None upgraded directory ∅ true) ;;;
              ret upgraded
        end)
  end.

Definition is_legacy (e : error) : bool := errors_is "legacy virtual session state requires migration" e.
(** The error of a [readSessionState], which returns the state of a legacy file too. *)
Definition state_error (state : result (SessionState * bytes * option error)) : option error :=
  match state with Ok (_, _, err) => err | Err e => Some e end.
Definition state_only (state : result (SessionState * bytes * option error)) : OS SessionState :=
  match state with Ok (st, _, None) => ret st | Ok (_, _, Some e) => fail e | Err e => fail e end.

Definition loadPublishedSessionState (p : path) : OS SessionState :=
  let* state := try_ (readSessionState p) in
  let metadataDirectory := filepath_Dir p in
  let* catalogPresent := regularStateCatalogPresent metadataDirectory in
  if negb catalogPresent then
    match state_error state with
    | Some e => if is_legacy e then migrateLegacySessionState p else fail e
    | None => state_only state
    end
  else
    let* chain := wrap "load session state checkpoint metadata: %w"
      (loadCatalogStateCheckpoint metadataDirectory (base_name metadataDirectory)) in
    match agrees state chain with
    | Some st => ret st
    | None => recoverSessionStateFromCheckpoint p
    end.

Definition inspectPublishedSessionState (p : path) : OS SessionState :=
  let* state := try_ (readSessionState p) in
  let metadataDirectory := filepath_Dir p in
  let* catalogPresent := regularStateCatalogPresent metadataDirectory in
  if negb catalogPresent then state_only state
  else
    let* chain := wrap "load session state checkpoint metadata: %w"
      (loadCatalogStateCheckpoint metadataDirectory (base_name metadataDirectory)) in
    match agrees state chain with
    | Some st => ret st
    | None =>
        match state_error state with
        | Some e => fail (errorf "primary session state requires checkpoint recovery: %w" e)
        | None => fail (errors_new "primary session state differs from its published checkpoint")
        end
    end.

Definition validated (load : OS SessionState) (p : path) : OS SessionState :=
  let* st := load in
  throw (validateSessionStateForDirectory st (filepath_Dir p)) ;;;
  ret st.
Definition LoadSessionState (p : path) : OS SessionState := validated (loadPublishedSessionState p) p.
Definition InspectSessionState (p : path) : OS SessionState := validated (inspectPublishedSessionState p) p.

Definition advanced (st : SessionState) (manifestSHA256 : string) : SessionState :=
  {| ss_Version := ss_Version st; ss_SessionID := ss_SessionID st; ss_Generation := u64 (ss_Generation st + 1);
     ss_ManifestPath := ss_ManifestPath st; ss_ManifestSHA256 := manifestSHA256; ss_BaseBytes := ss_BaseBytes st;
     ss_BaseSHA256 := ss_BaseSHA256 st; ss_DeltaPath := ss_DeltaPath st; ss_BackingPath := ss_BackingPath st;
     ss_NativeSnapshot := ss_NativeSnapshot st |}.
Definition republishSessionStateWithHeldLease (p : path) : OS SessionState :=
  let* st := LoadSessionState p in
  if ss_Generation st =? 2 ^ 64 - 1 then fail (errors_new "session generation cannot advance")
  else
    let* (manifest, _) := wrap "verify manifest before republishing session state: %w"
      (captureManifestIdentity sha256 json_manifest (ss_ManifestPath st) (ss_SessionID st) (ss_BaseBytes st) (ss_BaseSHA256 st)) in
    let next := advanced st (fid_SHA256 manifest) in
    publishSessionState p next ;;;
    ret next.
Definition RepublishSessionState (p : path) : OS SessionState :=
  let* lease := acquireWriterLease pid ("writer.lease"%string :: filepath_Dir p) in
  defer_ (release_lease lease) (republishSessionStateWithHeldLease p).

Definition checkpoint_store : StateStore := {|
  Session.publishSessionState := publishSessionState;
  Session.publishSessionStateWithTemporary := publishSessionStateWithTemporary;
  Session.refreshSessionStateCheckpoint := refreshSessionStateCheckpointWithActiveIdentity;
  Session.LoadSessionState := LoadSessionState;
|}.
End Publish.
