(* ===== verification/History.v ===== *)
(** The checkpoint history survives: what publication, refreshing, loading and recovery
    ([Publish]) keep, whatever fails. *)
From S2P Require Import Prelude GoStd Effects ObjectReader Manifest View Os Mutation Lease Session StateFile Cow Writer Foreground Compact Store Walk Metadata Checkpoint Publish.
Local Open Scope Z_scope.

(** ** Steps that every managed invariant survives *)

Section Managed.
Context (sha256 : bytes -> bytes) (json_Marshal : SessionState -> result bytes) (json_Unmarshal decode_state : bytes -> result SessionState)
  (json_checkpoint : sessionStateCheckpoint -> result bytes) (decode_checkpoint : bytes -> result sessionStateCheckpoint)
  (json_catalog : sessionStateCatalog -> result bytes) (decode_catalog : bytes -> result sessionStateCatalog)
  (decode_pin : bytes -> result string) (json_manifest : bytes -> result Manifest)
  (LoadSessionDeletion : path -> string -> OS SessionDeletion) (pid : string) (lock_attempts : nat)
  (legacyMigrationJournalData : path -> string -> OS (gset path)) (map_order : gset string -> list string).
Context {J : world -> Prop} {own : nat -> Prop} {may made leased : path -> Prop} `{Managed J own may made leased}.
Context (dir : path).
Local Abbreviation G := (generations_of dir).

Context (Hlock : forall store name, made (String.append name ".lock" :: "locks"%string :: store)).
Lemma keeps_AcquireOperationLockWithin n store name : keeps J (AcquireOperationLockWithin n store name).
Proof using H Hlock. induction n as [|n IH]; cbn [AcquireOperationLockWithin]; keeps; done. Qed.

Context (Hprimary : forall name, String.prefix ".state-primary-" name = true -> may (name :: dir))
  (Hcatalog_temp : forall name, String.prefix ".state-catalog-" name = true -> may (name :: dir))
  (Htemp : forall name, String.prefix ".state-checkpoint-" name = true -> may (name :: G)).

Lemma temporary_prefix w prefix suffix : String.prefix prefix (temporary_name w prefix suffix) = true.
Proof. unfold temporary_name. apply prefix_app. Qed.

Lemma keeps_commitSessionState p data f tp : own (f_ino f) -> may tp -> may p -> keeps J (commitSessionState p data f tp).
Proof.
  intros Ho Htp Hp. unfold commitSessionState. apply keeps_defer; [by apply md_Remove|]. apply keeps_bind; [keeps|].
  intros _. apply keeps_write_synced; [done|]. keeps.
Qed.
Lemma keeps_writeSessionState p st : filepath_Dir p = dir -> may p -> keeps J (writeSessionState json_Marshal p st).
Proof.
  intros Hd Hp w Hw. change (wp (writeSessionState json_Marshal p st) w (fun _ w' => J w')). unfold writeSessionState.
  rewrite wp_bind, wp_lift. destruct (encodeSessionState json_Marshal st); [|done].
  rewrite wp_bind, wp_wrap. eapply wp_mono; [apply md_CreateTemp; [|done]|].
  { rewrite Hd. intros name Hname. by apply md_made, Hprimary. }
  intros [[f tp]|e] w1 [Hw1 Hf]; [|done].
  destruct (Hf f tp eq_refl) as (Ho & _ & ->). apply (wp_kept J); [|done]. apply keeps_commitSessionState; [done| |done].
  rewrite Hd. apply Hprimary, temporary_prefix.
Qed.
Lemma keeps_commitPublishedSessionState p tp st : filepath_Dir p = dir -> may p -> match tp with Some tp => may tp | None => True end ->
  keeps J (commitPublishedSessionState json_Marshal p tp st).
Proof.
  intros Hd Hp Htp. destruct tp as [tp|]; [|by apply keeps_writeSessionState]. cbn [commitPublishedSessionState].
  unfold writeSessionStateWithTemporary. destruct (negb _); [apply keeps_fail|]. apply keeps_bind; [apply keeps_lift|]. intros data.
  intros w Hw. change (wp (let* temporary := wrap "create temporary session state: %w" (os_Create tp true false) in
    commitSessionState p data temporary tp) w (fun _ w' => J w')).
  rewrite wp_bind, wp_wrap. eapply wp_mono; [apply md_Create; [left; by apply md_made|done]|]. intros [f|e] w1 [Hw1 Hf]; [|done].
  apply (wp_kept J); [|done]. apply keeps_commitSessionState; [|done..]. apply (Hf f eq_refl). by left.
Qed.

Lemma keeps_writeImmutableStateCheckpoint name data : made (name :: G) ->
  keeps J (writeImmutableStateCheckpoint dir name data).
Proof.
  intros Hname. unfold writeImmutableStateCheckpoint, ensureStateCheckpointDirectory. apply keeps_bind; [keeps|]. intros _.
  apply keeps_bind; [keeps|]. intros [existing|e]; [keeps|]. destruct (negb _); [keeps|].
  intros w Hw. change (wp (let* (temporary, temporaryPath) :=
      wrap "create temporary session state checkpoint: %w" (os_CreateTemp G ".state-checkpoint-" ".tmp") in
      or_else (link_checkpoint G (name :: G) data temporary temporaryPath) (os_Remove temporaryPath) ;;; sync_dir G) w (fun _ w' => J w')).
  rewrite wp_bind, wp_wrap. eapply wp_mono; [apply md_CreateTemp; [|done]|].
  { intros n Hn. by apply md_made, Htemp. }
  intros [[f tp]|e'] w1 [Hw1 Hf]; [|done].
  destruct (Hf f tp eq_refl) as (Ho & _ & ->). set (tp := temporary_name w ".state-checkpoint-" ".tmp" :: G). assert (may tp) as Htp by (apply Htemp; apply temporary_prefix).
  apply (wp_kept J); [|done]. apply keeps_bind; [|intros _; keeps]. apply keeps_or_else; [|by apply md_Remove].
  unfold link_checkpoint. apply keeps_bind; [keeps|]. intros _. apply keeps_write_synced; [done|]. keeps.
Qed.
Lemma keeps_writeStateCatalog catalog : may (catalog_of dir) -> keeps J (writeStateCatalog json_catalog dir catalog).
Proof.
  intros Hc. unfold writeStateCatalog. apply keeps_bind; [keeps|]. intros data.
  intros w Hw. match goal with |- J (?m w).2 => change (wp m w (fun _ w' => J w')) end.
  rewrite wp_bind, wp_wrap. eapply wp_mono; [apply md_CreateTemp; [|done]|].
  { intros n Hn. by apply md_made, Hcatalog_temp. }
  intros [[f tp]|e'] w1 [Hw1 Hf]; [|done].
  destruct (Hf f tp eq_refl) as (Ho & _ & ->). apply (wp_kept J); [|done]. apply keeps_defer; [apply md_Remove, Hcatalog_temp, temporary_prefix|].
  apply keeps_bind; [keeps|]. intros _. apply keeps_write_synced; [done|]. keeps.
Qed.
End Managed.

(** ** Reading *)

Section Reading.
Context (sha256 : bytes -> bytes) (json_Marshal : SessionState -> result bytes) (json_Unmarshal : bytes -> result SessionState)
  (decode_checkpoint : bytes -> result sessionStateCheckpoint) (decode_catalog : bytes -> result sessionStateCatalog)
  (decode_pin : bytes -> result string) (json_manifest : bytes -> result Manifest)
  (LoadSessionDeletion : path -> string -> OS SessionDeletion).
Context (P : world -> Prop) `{TickStable P}.

Lemma keeps_readSessionState p : keeps P (readSessionState json_Unmarshal p).
Proof. unfold readSessionState. keeps. Qed.
Lemma keeps_regularStateCatalogPresent dir : keeps P (regularStateCatalogPresent dir).
Proof. unfold regularStateCatalogPresent. keeps. Qed.
Lemma keeps_loadStateCatalog dir : keeps P (loadStateCatalog decode_catalog dir).
Proof. unfold loadStateCatalog. keeps. Qed.
Lemma keeps_read_checkpoints dir id target strict entries : forall checkpoints,
  keeps P (read_checkpoints sha256 json_Marshal decode_checkpoint dir id target strict entries checkpoints).
Proof.
  induction entries as [|[name []] entries IH]; intros checkpoints; cbn [read_checkpoints]; [keeps|..];
    (destruct (checkpoint_temporary name); [apply IH|]); [destruct (_ || _); [keeps|apply IH]|].
  apply keeps_bind; [keeps|]. intros data. destruct (checkpoint_file _ _ _ _ _ _) as [c|e].
  - destruct (checkpoints !! _); [keeps|apply IH].
  - destruct (_ || _); [keeps|apply IH].
Qed.
Lemma keeps_loadStateCheckpointChain dir id strict :
  keeps P (loadStateCheckpointChain sha256 json_Marshal decode_checkpoint decode_catalog dir id strict).
Proof.
  unfold loadStateCheckpointChain. apply keeps_bind; [apply keeps_loadStateCatalog|]. intros c. destruct (negb _); [keeps|].
  apply keeps_bind; [keeps|]. intros entries. apply keeps_bind; [apply keeps_read_checkpoints|]. keeps.
Qed.
Lemma keeps_loadCatalogStateCheckpoint dir id :
  keeps P (loadCatalogStateCheckpoint sha256 json_Marshal decode_checkpoint decode_catalog dir id).
Proof. unfold loadCatalogStateCheckpoint. apply keeps_bind; [apply keeps_loadStateCatalog|]. keeps. Qed.
Lemma keeps_classify dir id entries : forall checkpoints quarantine,
  keeps P (classify sha256 json_Marshal decode_checkpoint dir id entries checkpoints quarantine).
Proof.
  induction entries as [|[name []] entries IH]; intros checkpoints quarantine; cbn [classify]; [keeps|..];
    (destruct (checkpoint_temporary name); [apply IH|]); [keeps|]. apply keeps_bind; [keeps|]. intros data. case_match; apply IH.
Qed.
Lemma keeps_captureRegularFileIdentity p : keeps P (captureRegularFileIdentity sha256 p).
Proof. unfold captureRegularFileIdentity. keeps. Qed.
Hint Resolve keeps_captureRegularFileIdentity : keeps.
Hint Extern 1 (keeps _ (captureManifestIdentity _ _ _ _ _ _)) => apply (keeps_captureManifestIdentity _ _ _); apply _ : keeps.
Lemma keeps_captureCheckpointFile p sources : keeps P (captureCheckpointFile sha256 p sources).
Proof. unfold captureCheckpointFile. keeps. Qed.
Hint Resolve keeps_captureCheckpointFile : keeps.
Lemma keeps_buildStateCheckpoint st ss prev seq sd sources :
  keeps P (buildStateCheckpoint sha256 json_Marshal json_manifest st ss prev seq sd sources).
Proof. unfold buildStateCheckpoint, capture_optional. keeps. Qed.
Lemma keeps_buildRefreshedStateCheckpoint st ss prev seq sd c id :
  keeps P (buildRefreshedStateCheckpoint sha256 json_Marshal st ss prev seq sd c id).
Proof. unfold buildRefreshedStateCheckpoint, refreshedActiveIdentity. keeps. Qed.
Lemma keeps_check_unknown_data dir known entries : keeps P (check_unknown_data dir known entries).
Proof. induction entries as [|[name b] entries IH]; cbn [check_unknown_data]; keeps; done. Qed.
Lemma keeps_verifyNoUnknown dir c allowed : keeps P (verifyNoUnknownNonemptySessionDataAllowed dir c allowed).
Proof. unfold verifyNoUnknownNonemptySessionDataAllowed. keeps. apply keeps_check_unknown_data. Qed.
Lemma keeps_verifyArtifactsAllowed dir c allowed :
  keeps P (verifyStateCheckpointArtifactsAllowed sha256 json_Marshal json_manifest dir c allowed).
Proof. unfold verifyStateCheckpointArtifactsAllowed, verify_identity. keeps; apply keeps_verifyNoUnknown. Qed.
Lemma keeps_verify_superseded dir expected : forall allowed, keeps P (verify_superseded sha256 dir expected allowed).
Proof. induction expected as [|[p ids] expected IH]; intros allowed; cbn [verify_superseded]; keeps; apply IH. Qed.
Lemma keeps_verifyArtifactsForChain dir chain :
  keeps P (verifyStateCheckpointArtifactsForChain sha256 json_Marshal json_manifest dir chain).
Proof.
  unfold verifyStateCheckpointArtifactsForChain, verifiedSupersededStateCheckpointData.
  apply keeps_bind; [apply keeps_verify_superseded|]. intros. apply keeps_verifyArtifactsAllowed.
Qed.
Lemma keeps_check_orphans dir name data b entries : keeps P (check_orphans dir name data b entries).
Proof. induction entries as [|[n d] entries IH]; cbn [check_orphans]; keeps; done. Qed.
Lemma keeps_validateInitial dir name data b : keeps P (validateInitialCheckpointPublication dir name data b).
Proof. unfold validateInitialCheckpointPublication. keeps. apply keeps_check_orphans. Qed.

Context (Hdeletion : forall p id, keeps P (LoadSessionDeletion p id)).
Lemma keeps_retirementCheckpointPin dir : keeps P (retirementCheckpointPin decode_pin LoadSessionDeletion dir).
Proof using H Hdeletion. unfold retirementCheckpointPin, sessionDeletionCheckpointPin. keeps; apply Hdeletion. Qed.
Lemma keeps_refresh_predecessor dir id chain :
  keeps P (refresh_predecessor sha256 json_Marshal decode_checkpoint decode_catalog decode_pin LoadSessionDeletion dir id chain).
Proof using H Hdeletion. unfold refresh_predecessor. keeps; [apply keeps_retirementCheckpointPin|apply keeps_loadStateCheckpointChain]. Qed.
End Reading.
#[export] Hint Resolve keeps_readSessionState keeps_regularStateCatalogPresent keeps_loadStateCatalog keeps_loadStateCheckpointChain
  keeps_loadCatalogStateCheckpoint keeps_classify keeps_captureManifestIdentity keeps_buildStateCheckpoint keeps_buildRefreshedStateCheckpoint
  keeps_verifyNoUnknown keeps_verifyArtifactsForChain keeps_validateInitial : keeps.

(** ** The whole store under an invariant that allows all of its names *)

Lemma canonical_state_Dir p d id : canonical_state p = Some (d, id) -> d = filepath_Dir p.
Proof. unfold canonical_state. repeat case_match; try done. by intros [= <- <-]. Qed.

Section Everything.
Context (sha256 : bytes -> bytes) (json_Marshal : SessionState -> result bytes) (json_Unmarshal decode_state : bytes -> result SessionState)
  (json_checkpoint : sessionStateCheckpoint -> result bytes) (decode_checkpoint : bytes -> result sessionStateCheckpoint)
  (json_catalog : sessionStateCatalog -> result bytes) (decode_catalog : bytes -> result sessionStateCatalog)
  (decode_pin : bytes -> result string) (json_manifest : bytes -> result Manifest)
  (LoadSessionDeletion : path -> string -> OS SessionDeletion) (pid : string) (lock_attempts : nat)
  (legacyMigrationJournalData : path -> string -> OS (gset path)) (map_order : gset string -> list string).
Context {J : world -> Prop} {own : nat -> Prop} {may made leased : path -> Prop} `{Managed J own may made leased}.
Context (Hlock : forall store name, made (String.append name ".lock" :: "locks"%string :: store)).
Context (Hdeletion : forall p id, keeps J (LoadSessionDeletion p id)) (Hjournal : forall p id, keeps J (legacyMigrationJournalData p id)).
Context (dir : path).
Context (Hprimary : forall name, String.prefix ".state-primary-" name = true -> may (name :: dir))
  (Hcatalog_temp : forall name, String.prefix ".state-catalog-" name = true -> may (name :: dir))
  (Hcatalog : may (catalog_of dir)) (Hlease : leased ("writer.lease"%string :: dir))
  (Hgeneration : forall name, may (name :: generations_of dir)) (Horphan : forall name, may (name :: orphans_of dir)).

Lemma keeps_quarantine_one name : keeps J (quarantine_one dir name).
Proof using All. unfold quarantine_one. keeps. Qed.
Lemma keeps_reconcile id :
  keeps J (reconcileStateCheckpointHistory sha256 json_Marshal json_Unmarshal decode_checkpoint decode_catalog map_order dir id).
Proof using All. unfold reconcileStateCheckpointHistory. keeps. apply (keeps_for_each J), keeps_quarantine_one. Qed.
Lemma keeps_load_or_reconcile id :
  keeps J (load_or_reconcile sha256 json_Marshal json_Unmarshal decode_checkpoint decode_catalog map_order dir id).
Proof using All. unfold load_or_reconcile. keeps. apply keeps_reconcile. Qed.
Lemma keeps_write_generation name data : keeps J (writeImmutableStateCheckpoint dir name data).
Proof using All. eapply keeps_writeImmutableStateCheckpoint; [intros ? _; apply Hgeneration|apply md_made, Hgeneration]. Qed.
Lemma keeps_publish_checkpoint f c initial : keeps J (publish_checkpoint sha256 json_checkpoint json_catalog dir f c initial).
Proof using All.
  unfold publish_checkpoint. keeps; [apply keeps_write_generation|by eapply keeps_writeStateCatalog].
Qed.

Context (p : path) (Hdir : filepath_Dir p = dir) (Hp : may p).
Local Abbreviation publishAtLocked := (publishSessionStateAtLocked sha256 json_Marshal json_Unmarshal json_checkpoint decode_checkpoint
  json_catalog decode_catalog json_manifest map_order).
Local Abbreviation publishAt := (publishSessionStateAt sha256 json_Marshal json_Unmarshal json_checkpoint decode_checkpoint
  json_catalog decode_catalog json_manifest lock_attempts map_order).
Lemma keeps_publishSessionStateAtLocked tp st sd sources b : match tp with Some tp => may tp | None => True end ->
  keeps J (publishAtLocked p tp st sd sources b).
Proof using All.
  intros Htp. pose proof (fun st => keeps_commitPublishedSessionState json_Marshal dir Hprimary p tp st Hdir Hp Htp) as Hcommit.
  unfold publishSessionStateAtLocked. rewrite Hdir. keeps; first [by apply keeps_load_or_reconcile|by apply keeps_publish_checkpoint|apply Hcommit].
Qed.
Lemma keeps_publishSessionStateAt tp st sd sources b : match tp with Some tp => may tp | None => True end ->
  keeps J (publishAt p tp st sd sources b).
Proof using All.
  intros Htp. unfold publishSessionStateAt, acquireSessionCheckpointLock. keeps; first [by apply keeps_publishSessionStateAtLocked|by eapply keeps_AcquireOperationLockWithin].
Qed.
Lemma keeps_remove_superseded old new : keeps J (remove_superseded dir old new).
Proof using All. unfold remove_superseded. keeps. Qed.
Lemma keeps_refresh_checkpoint st id : keeps J (refreshSessionStateCheckpointWithActiveIdentity sha256 json_Marshal json_Unmarshal json_checkpoint
  decode_checkpoint json_catalog decode_catalog decode_pin LoadSessionDeletion lock_attempts map_order p st id).
Proof using All.
  unfold refreshSessionStateCheckpointWithActiveIdentity, acquireSessionCheckpointLock, refreshSessionStateCheckpointWithActiveIdentityLocked.
  rewrite Hdir. keeps; first [by eapply keeps_AcquireOperationLockWithin|apply (keeps_refresh_predecessor _ _ _ _ _ _ J Hdeletion)|
    apply keeps_write_generation|by eapply keeps_writeStateCatalog|apply keeps_remove_superseded|apply keeps_reconcile].
Qed.

Local Abbreviation store_of f := (f sha256 json_Marshal json_Unmarshal decode_state json_checkpoint decode_checkpoint json_catalog decode_catalog
  json_manifest pid lock_attempts legacyMigrationJournalData map_order).
Lemma keeps_restore_state id : keeps J (restore_state sha256 json_Marshal json_Unmarshal decode_checkpoint decode_catalog json_manifest p dir id).
Proof using All. unfold restore_state. keeps. by eapply keeps_writeSessionState. Qed.
Lemma keeps_release_lease f : keeps J (release_lease f).
Proof using All. unfold release_lease, unlockLease. keeps. Qed.
Lemma keeps_recover : keeps J (recoverSessionStateFromCheckpoint sha256 json_Marshal json_Unmarshal decode_checkpoint decode_catalog
  json_manifest pid p).
Proof using All.
  unfold recoverSessionStateFromCheckpoint. destruct (canonical_state p) as [[d id]|] eqn:E; [|keeps].
  apply canonical_state_Dir in E as ->. rewrite Hdir. keeps; first [apply keeps_restore_state|apply keeps_release_lease].
Qed.
Lemma keeps_migrate : keeps J (store_of migrateLegacySessionState p).
Proof using All.
  unfold migrateLegacySessionState. destruct (canonical_state p) as [[d id]|] eqn:E; [|keeps].
  apply canonical_state_Dir in E as ->. rewrite Hdir. unfold upgradeLegacySessionStateValue.
  keeps; first [apply keeps_release_lease|apply Hjournal|by apply keeps_publishSessionStateAt].
Qed.
Lemma keeps_LoadSessionState : keeps J (store_of LoadSessionState p).
Proof using All.
  unfold LoadSessionState, validated, loadPublishedSessionState, state_only. keeps; first [apply keeps_migrate|apply keeps_recover].
Qed.
End Everything.

(** ** The state store keeps to its own files *)

Definition session_state_files (p q : path) : Prop :=
  q = p \/ q = catalog_of (filepath_Dir p) \/ q = "writer.lease"%string :: filepath_Dir p
  \/ (exists name, q = name :: filepath_Dir p /\ (String.prefix ".state-primary-" name || String.prefix ".state-catalog-" name) = true)
  \/ exists name, q = name :: generations_of (filepath_Dir p) \/ q = name :: orphans_of (filepath_Dir p).

Section Law.
Context (sha256 : bytes -> bytes) (json_Marshal : SessionState -> result bytes) (json_Unmarshal decode_state : bytes -> result SessionState)
  (json_checkpoint : sessionStateCheckpoint -> result bytes) (decode_checkpoint : bytes -> result sessionStateCheckpoint)
  (json_catalog : sessionStateCatalog -> result bytes) (decode_catalog : bytes -> result sessionStateCatalog)
  (decode_pin : bytes -> result string) (json_manifest : bytes -> result Manifest)
  (LoadSessionDeletion : path -> string -> OS SessionDeletion) (pid : string) (lock_attempts : nat)
  (legacyMigrationJournalData : path -> string -> OS (gset path)) (map_order : gset string -> list string).
(** Tombstones and journals are only read. *)
Context (Hdeletion : forall P `{TickStable P} p id, keeps P (LoadSessionDeletion p id))
  (Hjournal : forall P `{TickStable P} p id, keeps P (legacyMigrationJournalData p id)).
#[local] Existing Instance checkpoint_store.
Local Abbreviation of_store f := (f sha256 json_Marshal json_Unmarshal decode_state json_checkpoint decode_checkpoint json_catalog decode_catalog
  decode_pin json_manifest LoadSessionDeletion pid lock_attempts legacyMigrationJournalData map_order).

#[export] Instance checkpoint_store_law : @StateStoreLaw (checkpoint_store sha256 json_Marshal json_Unmarshal decode_state json_checkpoint
  decode_checkpoint json_catalog decode_catalog decode_pin json_manifest LoadSessionDeletion pid lock_attempts legacyMigrationJournalData map_order).
Proof using Hdeletion Hjournal.
  assert (forall p (Q : path -> Prop), (forall q, session_state_files p q -> Q q) ->
    (forall name, String.prefix ".state-primary-" name = true -> Q (name :: filepath_Dir p)) /\
    (forall name, String.prefix ".state-catalog-" name = true -> Q (name :: filepath_Dir p)) /\
    Q (catalog_of (filepath_Dir p)) /\ Q ("writer.lease"%string :: filepath_Dir p) /\
    (forall name, Q (name :: generations_of (filepath_Dir p))) /\ (forall name, Q (name :: orphans_of (filepath_Dir p))) /\ Q p) as Hfiles.
  { intros p Q HQ. unfold session_state_files in HQ. split_and!; intros; apply HQ; eauto 8.
    - right. right. right. left. eexists. split; [done|]. by rewrite H.
    - right. right. right. left. eexists. split; [done|]. by rewrite H, orb_true_r. }
  refine {| state_files := session_state_files |}; intros.
  - destruct (Hfiles p (session_state_files p)) as (A & B & C & D & E & F & G); [done|].
    pose proof (away_managed (session_state_files p) w H) as HM. eapply (of_store keeps_publishSessionStateAt) with (dir := filepath_Dir p); auto; intros; first [apply Hdeletion|apply Hjournal]; apply _.
  - destruct (Hfiles p (fun q => session_state_files p q \/ q = temporary)) as (A & B & C & D & E & F & G); [by left|].
    pose proof (away_managed (fun q => session_state_files p q \/ q = temporary) w H) as HM.
    eapply (of_store keeps_publishSessionStateAt) with (dir := filepath_Dir p); auto; intros; first [apply Hdeletion|apply Hjournal]; apply _.
  - destruct (Hfiles p (session_state_files p)) as (A & B & C & D & E & F & G); [done|].
    pose proof (away_managed (session_state_files p) w H) as HM. eapply (of_store keeps_refresh_checkpoint) with (dir := filepath_Dir p); auto; intros; first [apply Hdeletion|apply Hjournal]; apply _.
  - destruct (Hfiles p (session_state_files p)) as (A & B & C & D & E & F & G); [done|].
    pose proof (away_managed (session_state_files p) w H) as HM. eapply (of_store keeps_LoadSessionState) with (dir := filepath_Dir p); auto; intros; first [apply Hdeletion|apply Hjournal]; apply _.
Qed.
End Law.
