(* ===== verification/Lineage.v ===== *)
(** The lineage of a checkpoint: what [loadStateCheckpointChain] accepts.

    [lineage m d l] is the reference: [l] are the digests of the checkpoints of [m] from
    [d] back to one without a predecessor, sequence numbers strictly falling and
    generations never rising on the way.  [chain_of], which follows the links with a set
    of visited digests, accepts exactly that. *)
From S2P Require Import Prelude GoStd Effects ObjectReader Manifest View Os Session StateFile Checkpoint.
Local Open Scope Z_scope.

Inductive lineage (m : gmap string sessionStateCheckpoint) : string -> list string -> Prop :=
| lineage_first d c : m !! d = Some c -> cp_PreviousCheckpointSHA256 c = EmptyString -> lineage m d [d]
| lineage_next d c parent l : m !! d = Some c -> cp_PreviousCheckpointSHA256 c <> EmptyString ->
    m !! cp_PreviousCheckpointSHA256 c = Some parent -> cp_Sequence parent < cp_Sequence c ->
    ss_Generation (cp_State parent) <= ss_Generation (cp_State c) ->
    lineage m (cp_PreviousCheckpointSHA256 c) l -> lineage m d (d :: l).

Section Lineage.
Context (m : gmap string sessionStateCheckpoint).

Lemma lineage_head d l : lineage m d l -> exists l', l = d :: l'.
Proof. intros [|]; eauto. Qed.
(** Every later member has a smaller sequence number. *)
Lemma lineage_below d l : lineage m d l -> forall c, m !! d = Some c ->
  Forall (fun x => exists cx, m !! x = Some cx /\ cp_Sequence cx <= cp_Sequence c) l.
Proof.
  induction 1 as [d c Hd|d c parent l Hd _ Hparent Hseq _ _ IH]; intros c' Hc'; simplify_eq.
  - repeat constructor. eauto with lia.
  - constructor; [eauto with lia|]. eapply Forall_impl; [by apply IH|]. intros x (cx & ? & ?). exists cx. split; [done|lia].
Qed.
Lemma lineage_NoDup d l : lineage m d l -> NoDup l.
Proof.
  induction 1 as [d c Hd|d c parent l Hd _ Hparent Hseq _ Hl IH]; [apply NoDup_singleton|].
  constructor; [|done]. intros Hin. pose proof (lineage_below _ _ Hl _ Hparent) as Hb. rewrite Forall_forall in Hb.
  destruct (Hb d Hin) as (cx & Hcx & ?). simplify_eq. lia.
Qed.
Lemma lineage_dom d l : lineage m d l -> list_to_set l ⊆ dom m.
Proof. induction 1 as [d c Hd|d c parent l Hd]; cbn; apply elem_of_dom_2 in Hd; set_solver. Qed.
Lemma lineage_length d l : lineage m d l -> (length l <= size m)%nat.
Proof.
  intros Hl. rewrite <- (size_dom m), <- (size_list_to_set (C := gset string) l) by by eapply lineage_NoDup.
  by apply subseteq_size, (lineage_dom d).
Qed.
Lemma lineage_det d l l' : lineage m d l -> lineage m d l' -> l = l'.
Proof.
  intros Hl. revert l'. induction Hl as [d c Hd Hp|d c parent l Hd Hp Hparent _ _ _ IH]; intros l' Hl';
    inversion Hl'; simplify_eq; [done..|]. f_equal. auto.
Qed.

(** The walk accepts a lineage and nothing else. *)
Lemma walk_lineage_complete d l : lineage m d l -> forall fuel visited,
  (length l <= fuel)%nat -> list_to_set l ## visited -> walk_lineage fuel m d visited = Ok (list_to_set l ∪ visited).
Proof.
  induction 1 as [d c Hd Hp|d c parent l Hd Hp Hparent Hseq Hgen Hl IH]; intros [|fuel] visited Hf Hv; cbn [length] in Hf; try lia;
    cbn [walk_lineage]; rewrite Hd, decide_False by set_solver.
  - rewrite Hp. cbn. f_equal. set_solver.
  - unfold string_is. rewrite bool_decide_eq_false_2 by done. rewrite Hparent.
    rewrite Z.geb_leb, Z.gtb_ltb, (proj2 (Z.leb_gt _ _)), (proj2 (Z.ltb_ge _ _)) by lia. cbn [orb].
    pose proof (lineage_NoDup d (d :: l) ltac:(by eapply lineage_next)) as [Hnd _]%NoDup_cons.
    rewrite IH; [f_equal; set_solver|lia|]. cbn in Hv. set_solver.
Qed.
Lemma walk_lineage_sound fuel : forall d visited visited', walk_lineage fuel m d visited = Ok visited' ->
  exists l, lineage m d l /\ visited' = list_to_set l ∪ visited.
Proof.
  induction fuel as [|fuel IH]; intros d visited visited'; cbn [walk_lineage]; [done|].
  destruct (m !! d) as [c|] eqn:Hd; [|done]. case_decide; [done|]. unfold string_is. case_bool_decide as Hp.
  - intros [= <-]. exists [d]. split; [by eapply lineage_first|set_solver].
  - destruct (m !! cp_PreviousCheckpointSHA256 c) as [parent|] eqn:Hparent; [|done].
    destruct (_ || _) eqn:Hbad; [done|]. apply orb_false_iff in Hbad as [H1 H2]. intros (l & Hl & ->)%IH.
    exists (d :: l). split; [eapply lineage_next; eauto; lia|set_solver].
Qed.
End Lineage.

(** What the catalog says about the checkpoint it names. *)
Definition names_target (catalog : sessionStateCatalog) (target : sessionStateCheckpoint) : Prop :=
  ca_Checkpoint catalog = stateCheckpointFilename (ss_Generation (cp_State target)) (cp_Sequence target) (ca_CheckpointSHA256 catalog)
  /\ ss_Generation (cp_State target) = ca_Generation catalog /\ cp_Sequence target = ca_Sequence catalog
  /\ cp_StateSHA256 target = ca_StateSHA256 catalog.

Lemma chain_of_Ok catalog m strict chain : chain_of catalog m strict = Ok chain -> exists target l,
  m !! ca_CheckpointSHA256 catalog = Some target /\ names_target catalog target /\ lineage m (ca_CheckpointSHA256 catalog) l
  /\ (strict = true -> dom m ⊆ list_to_set l)
  /\ chain = {| ch_catalog := catalog; ch_checkpoint := target; ch_lineage := filter (fun kv => kv.1 ∈ l) m |}.
Proof.
  unfold chain_of. destruct (m !! _) as [target|] eqn:Ht; [|done]. unfold string_is.
  destruct (negb _) eqn:H1; [done|]. apply negb_false_iff, bool_decide_eq_true in H1.
  destruct (_ || _) eqn:H2; [done|]. rewrite !orb_false_iff, !negb_false_iff, !Z.eqb_eq, bool_decide_eq_true in H2.
  destruct H2 as [[Hg Hs] Hh]. destruct (walk_lineage _ _ _ _) as [visited|] eqn:Ew; [|done].
  apply walk_lineage_sound in Ew as (l & Hl & ->). rewrite union_empty_r_L.
  destruct (_ && _) eqn:Estrict; [done|]. intros [= <-]. exists target, l. split_and!; try done.
  - intros ->. cbn in Estrict. apply negb_false_iff, Nat.eqb_eq in Estrict. intros d Hd.
    destruct (decide (d ∈ (list_to_set l : gset string))) as [|Hn]; [done|exfalso].
    assert (size ({[d]} ∪ list_to_set l : gset string) <= size (dom m))%nat as Hle.
    { apply subseteq_size. pose proof (lineage_dom _ _ _ Hl). set_solver. }
    rewrite size_union, size_singleton, size_dom in Hle by set_solver. lia.
  - f_equal. apply map_filter_ext. intros d c _. cbn. set_solver.
Qed.

(** C20. The checkpoint history that is loaded is the lineage of the catalog's checkpoint.
    [chain_of], which [loadStateCheckpointChain] applies to the checkpoints it has read,
    accepts exactly when the catalog describes a checkpoint among them from which the
    links lead to a first checkpoint, with falling sequence numbers and without rising
    generations, and, when it is strict, past every checkpoint there is; it then returns
    that checkpoint and its lineage.  Its fuel is never used up. *)
Theorem chain_exact catalog m strict chain :
  chain_of catalog m strict = Ok chain <-> exists target l,
    m !! ca_CheckpointSHA256 catalog = Some target /\ names_target catalog target
    /\ lineage m (ca_CheckpointSHA256 catalog) l /\ (strict = true -> dom m ⊆ list_to_set l)
    /\ chain = {| ch_catalog := catalog; ch_checkpoint := target; ch_lineage := filter (fun kv => kv.1 ∈ l) m |}.
Proof.
  split; [apply chain_of_Ok|]. intros (target & l & Ht & (Hname & Hg & Hs & Hh) & Hl & Hstrict & ->).
  unfold chain_of, string_is. rewrite Ht, Hname, Hg, Hs, Hh, !bool_decide_eq_true_2, !Z.eqb_refl by done. cbn [negb orb].
  rewrite (walk_lineage_complete _ _ _ Hl) by (try set_solver; pose proof (lineage_length _ _ _ Hl); lia). rewrite union_empty_r_L.
  replace (strict && _) with false.
  - f_equal. f_equal. apply map_filter_ext. intros d c _. cbn. set_solver.
  - symmetry. destruct strict; [|done]. cbn. apply negb_false_iff, Nat.eqb_eq. rewrite <- (size_dom m). f_equal.
    apply set_eq. intros x. pose proof (lineage_dom _ _ _ Hl). specialize (Hstrict eq_refl). set_solver.
Qed.
