(* ===== verification/Catalog.v ===== *)
(** The catalog of a session and the checkpoint it names, at every moment.

    [head c cp w]: in the world [w] the catalog file says [c], and the file it names is the
    checkpoint [cp].  [wp_publish], [wp_refresh] and the other rules show that publication,
    refreshing, loading, recovery and quarantine, which may fail anywhere, lead from a
    head to a head that is not older. *)
From S2P Require Import Prelude GoStd Effects ObjectReader Manifest View Os Mutation Lease Session StateFile Cow Writer Foreground Compact Store Walk Metadata Checkpoint Publish History Lineage.
Local Open Scope Z_scope.

(** ** What is read *)

Lemma same_files_entries w w' dir : same_files w w' -> dir_entries w' dir = dir_entries w dir.
Proof. intros (En & _ & Ed & _). unfold dir_entries. by rewrite En, Ed. Qed.

(** Inserting a list whose keys are new and distinct. *)
Section Collect.
Context {A B : Type} (f : A -> B).
Definition collect (m : gmap string B) (l : list (string * A)) : gmap string B := foldl (fun m e => <[e.1 := f e.2]> m) m l.
Lemma collect_notin l : forall m d, d ∉ l.*1 -> collect m l !! d = m !! d.
Proof.
  induction l as [|[k x] l IH]; intros m d Hd; [done|]. cbn in *. apply not_elem_of_cons in Hd as [Hk Hd].
  rewrite IH by done. by apply lookup_insert_ne.
Qed.
Lemma collect_in l : forall m d x, NoDup l.*1 -> (d, x) ∈ l -> collect m l !! d = Some (f x).
Proof.
  induction l as [|[k y] l IH]; intros m d x Hnd Hin; [by apply not_elem_of_nil in Hin|]. cbn in *. apply NoDup_cons in Hnd as [Hk Hnd].
  apply elem_of_cons in Hin as [[= -> ->]|Hin]; [|by apply IH]. rewrite collect_notin by done. apply lookup_insert_eq.
Qed.
Lemma collect_inv l : forall m d y, collect m l !! d = Some y -> m !! d = Some y \/ exists x, (d, x) ∈ l /\ y = f x.
Proof.
  induction l as [|[k z] l IH]; intros m d y Hd; [by left|]. cbn in *. destruct (IH _ _ _ Hd) as [H|(x & Hin & ->)].
  - apply lookup_insert_Some in H as [[-> <-]|[_ H]]; [|by left]. right. exists z. split; [by left|done].
  - right. exists x. split; [by right|done].
Qed.
End Collect.

Section Catalog.
Context (sha256 : bytes -> bytes) (json_Marshal : SessionState -> result bytes) (json_Unmarshal decode_state : bytes -> result SessionState)
  (json_checkpoint : sessionStateCheckpoint -> result bytes) (decode_checkpoint : bytes -> result sessionStateCheckpoint)
  (json_catalog : sessionStateCatalog -> result bytes) (decode_catalog : bytes -> result sessionStateCatalog)
  (decode_pin : bytes -> result string) (json_manifest : bytes -> result Manifest)
  (LoadSessionDeletion : path -> string -> OS SessionDeletion) (pid : string) (lock_attempts : nat)
  (legacyMigrationJournalData : path -> string -> OS (gset path)) (map_order : gset string -> list string).
Context (dir : path).
Local Abbreviation G := (generations_of dir).
Local Abbreviation checkpoint_file := (checkpoint_file sha256 json_Marshal decode_checkpoint).
Local Abbreviation digestStateBytes := (digestStateBytes sha256).

(** The checkpoint in an entry: its digest, and its name with what it says. *)
Definition checkpoint_entry (w : world) (id : string) (e : string * bool) : option (string * (string * sessionStateCheckpoint)) :=
  let '(name, isDir) := e in
  if checkpoint_temporary name || isDir then None
  else
    match file_data w (name :: G) with
    | None => None
    | Some data => match checkpoint_file id name data with Ok c => Some (digestStateBytes data, (name, c)) | Err _ => None end
    end.
Definition checkpoint_entries (w : world) (id : string) (es : list (string * bool)) := omap (checkpoint_entry w id) es.

Lemma wp_read_checkpoints w0 id target strict es : forall acc w, same_files w0 w ->
  wp (read_checkpoints sha256 json_Marshal decode_checkpoint G id target strict es acc) w (fun r w' => same_files w0 w' /\
    forall m, r = Ok m -> let l := checkpoint_entries w0 id es in
      m = collect snd acc l /\ NoDup l.*1 /\ (forall d, d ∈ l.*1 -> acc !! d = None) /\
      (strict = true -> Forall (fun e => checkpoint_temporary e.1 = true \/ is_Some (checkpoint_entry w0 id e)) es)).
Proof.
  induction es as [|[name isDir] es IH]; intros acc w Hw; cbn [read_checkpoints].
  { rewrite wp_ret. split; [done|]. intros m [= <-]. split_and!; [done|apply NoDup_nil_2|by intros d ?%not_elem_of_nil|by constructor]. }
  assert (checkpoint_entry w0 id (name, isDir) = None -> (strict = true -> checkpoint_temporary name = true) -> forall w1, same_files w0 w1 ->
    wp (read_checkpoints sha256 json_Marshal decode_checkpoint G id target strict es acc) w1 (fun r w' => same_files w0 w' /\
    forall m, r = Ok m -> let l := checkpoint_entries w0 id ((name, isDir) :: es) in
      m = collect snd acc l /\ NoDup l.*1 /\ (forall d, d ∈ l.*1 -> acc !! d = None) /\
      (strict = true -> Forall (fun e => checkpoint_temporary e.1 = true \/ is_Some (checkpoint_entry w0 id e)) ((name, isDir) :: es)))) as Hskip.
  { intros Hnone Htemp w1 Hw1. eapply wp_mono; [by apply (IH acc)|]. intros r w2 [Hw2 Hr]. split; [done|]. intros m ->.
    destruct (Hr m eq_refl) as (Hm & Hnd & Hd & Hs). unfold checkpoint_entries. cbn [omap list_omap]. rewrite Hnone.
    split_and!; try done. intros Hst. constructor; [left; by apply Htemp|auto]. }
  cbn [checkpoint_entry] in Hskip. destruct (checkpoint_temporary name) eqn:Et; [by apply Hskip|].
  destruct isDir; [destruct (strict || string_is name target) eqn:Es; [by split|]; apply Hskip; try done; intros ->; by apply orb_false_iff in Es as [? _]|].
  rewrite wp_bind. eapply wp_mono; [apply wp_ReadFile|]. intros [data|e] w1 [Hs1 Hd]; [|split; [by eapply same_files_trans|done]].
  assert (same_files w0 w1) as Hw1 by (by eapply same_files_trans). specialize (Hd data eq_refl). rewrite (same_files_data w0 w _ Hw) in Hd.
  cbn [orb] in Hskip. rewrite Hd in Hskip.
  destruct (checkpoint_file id name data) as [c|e] eqn:Ec.
  2: { destruct (strict || string_is name target) eqn:Es; [by split|]; apply Hskip; try done; intros ->; by apply orb_false_iff in Es as [? _]. }
  destruct (acc !! digestStateBytes data) eqn:Ea; [by split|].
  eapply wp_mono; [by apply (IH (<[digestStateBytes data := c]> acc))|]. intros r w2 [Hw2 Hr]. split; [done|]. intros m ->.
  destruct (Hr m eq_refl) as (Hm & Hnd & Hdis & Hst).
  assert (checkpoint_entry w0 id (name, false) = Some (digestStateBytes data, (name, c))) as Hentry by (cbn; by rewrite Et, Hd, Ec).
  unfold checkpoint_entries in *. cbn [omap list_omap]. rewrite Hentry. cbn [fmap list_fmap]. split_and!.
  - done.
  - constructor; [|done]. intros Hin. specialize (Hdis _ Hin). by rewrite lookup_insert_eq in Hdis.
  - intros d [->|Hin]%elem_of_cons; [done|]. specialize (Hdis _ Hin). by apply lookup_insert_None in Hdis as [? _].
  - intros E. constructor; [right; by rewrite Hentry|auto].
Qed.

Lemma wp_classify w0 id es : forall acc q w, same_files w0 w ->
  wp (classify sha256 json_Marshal decode_checkpoint G id es acc q) w (fun r w' => same_files w0 w' /\
    forall m q', r = Ok (m, q') -> m = collect (fun x => x) acc (checkpoint_entries w0 id es) /\
      forall name, name ∈ q' -> name ∈ q \/ checkpoint_temporary name = false /\ checkpoint_entry w0 id (name, false) = None).
Proof.
  induction es as [|[name isDir] es IH]; intros acc q w Hw; cbn [classify]; [split; [done|]; intros m q' [= <- <-]; auto|].
  destruct (checkpoint_temporary name) eqn:Et.
  { eapply wp_mono; [by apply IH|]. intros r w1 [Hw1 Hr]. split; [done|]. unfold checkpoint_entries. cbn [omap list_omap checkpoint_entry].
    by rewrite Et. }
  destruct isDir; [by split|]. rewrite wp_bind. eapply wp_mono; [apply wp_ReadFile|]. intros [data|e] w1 [Hs1 Hd]; [|split; [by eapply same_files_trans|done]].
  assert (same_files w0 w1) as Hw1 by (by eapply same_files_trans). specialize (Hd data eq_refl). rewrite (same_files_data w0 w _ Hw) in Hd.
  destruct (checkpoint_file id name data) as [c|e] eqn:Ec; (eapply wp_mono; [by apply IH|]; intros r w2 [Hw2 Hr]; split; [done|]; intros m q' ->;
    destruct (Hr m q' eq_refl) as [Hm Hq]; unfold checkpoint_entries in *; cbn [omap list_omap checkpoint_entry]; rewrite Et, Hd, Ec; cbn; split; [done|]).
  - done.
  - intros n [Hn|?]%Hq; [|by right]. apply elem_of_union in Hn as [->%elem_of_singleton|]; [right|by left]. split; [done|]. cbn. by rewrite Et, Hd, Ec.
Qed.

(** ** The head *)

Record head (c : sessionStateCatalog) (cp : sessionStateCheckpoint) (w : world) : Prop := {
  hd_catalog : exists data, file_data w (catalog_of dir) = Some data /\ decode_catalog data = Ok c;
  hd_valid : valid_catalog c = true;
  hd_file : exists data, file_data w (ca_Checkpoint c :: G) = Some data /\ digestStateBytes data = ca_CheckpointSHA256 c
    /\ checkpoint_file (ca_SessionID c) (ca_Checkpoint c) data = Ok cp;
  hd_target : names_target c cp;
}.
Lemma head_det c cp c' cp' w : head c cp w -> head c' cp' w -> c = c' /\ cp = cp'.
Proof.
  intros [(d & Hd & Hc) _ (f & Hf & _ & Hk) _] [(d' & Hd' & Hc') _ (f' & Hf' & _ & Hk') _].
  assert (c' = c) as -> by congruence. assert (f' = f) as -> by congruence. split; congruence.
Qed.
Lemma same_files_head c cp w w' : same_files w w' -> head c cp w -> head c cp w'.
Proof.
  intros Hs [A B C D]. split; auto; by rewrite (same_files_data w).
Qed.
Lemma checkpoint_file_name id name data c : checkpoint_file id name data = Ok c ->
  name = stateCheckpointFilename (ss_Generation (cp_State c)) (cp_Sequence c) (digestStateBytes data)
  /\ cp_SessionID c = id /\ decodeStateCheckpoint sha256 json_Marshal decode_checkpoint data = Ok c.
Proof.
  unfold Checkpoint.checkpoint_file, string_is. destruct (decodeStateCheckpoint _ _ _ _) as [c'|]; [|done].
  repeat case_bool_decide; try done. by intros [= <-].
Qed.

(** The file of a checkpoint is no temporary file. *)
Lemma decimal_head n : forall z s, (0 < n)%nat -> exists k rest, (k < 10)%nat /\ decimal n z s = String (Ascii.ascii_of_nat (48 + k)) rest.
Proof.
  induction n as [|[|n] IH]; intros z s Hn; [lia| |].
  - exists (Z.to_nat (z mod 10)), s. split; [|done]. pose proof (Z.mod_pos_bound z 10). lia.
  - cbn [decimal] in *. apply IH. lia.
Qed.
Lemma filename_not_dotted s g n d : String.prefix (String.append "." s) (stateCheckpointFilename g n d) = false.
Proof.
  unfold stateCheckpointFilename, format_020d.
  destruct (decimal_head 20 g EmptyString) as (k & rest & Hk & ->); [lia|].
  do 10 (destruct k as [|k]; [done|]). lia.
Qed.
Lemma filename_not_temporary g n d : checkpoint_temporary (stateCheckpointFilename g n d) = false.
Proof. unfold checkpoint_temporary, is_temporary. by rewrite (filename_not_dotted "state-checkpoint-"). Qed.

Lemma wp_loadStateCatalog w : wp (loadStateCatalog decode_catalog dir) w (fun r w' => same_files w w' /\
  forall c, r = Ok c -> valid_catalog c = true /\ exists data, file_data w (catalog_of dir) = Some data /\ decode_catalog data = Ok c).
Proof.
  apply wp_keeps; [apply keeps_loadStateCatalog, _|done|]. unfold loadStateCatalog.
  rewrite wp_bind. eapply wp_mono; [apply (wp_kept (same_files w)); [apply keeps_Stat, _|done]|]. intros [info|e] w1 Hs1; [|done].
  destruct (negb _); [done|]. rewrite wp_bind. eapply wp_mono; [apply wp_ReadFile|]. intros [data|e] w2 [Hs2 Hd]; [|done].
  specialize (Hd data eq_refl). rewrite (same_files_data w w1 _ Hs1) in Hd. rewrite wp_bind, wp_wrap, wp_lift.
  destruct (decode_catalog data) as [c|] eqn:Ec; [|done]. destruct (valid_catalog c) eqn:Ev; cbn [negb]; [|done].
  intros c' [= <-]. eauto.
Qed.

(** What a loaded chain shows. *)
Definition loaded (id : string) (strict : bool) (chain : stateCheckpointChain) (w : world) : Prop :=
  let l := checkpoint_entries w id (dir_entries w G) in
  head (ch_catalog chain) (ch_checkpoint chain) w /\ ca_SessionID (ch_catalog chain) = id /\ NoDup l.*1
  /\ chain_of (ch_catalog chain) (collect snd ∅ l) strict = Ok chain.
Lemma wp_loadStateCheckpointChain id strict w :
  wp (loadStateCheckpointChain sha256 json_Marshal decode_checkpoint decode_catalog dir id strict) w (fun r w' => same_files w w' /\
    forall chain, r = Ok chain -> loaded id strict chain w).
Proof.
  apply wp_keeps; [apply keeps_loadStateCheckpointChain, _|done|]. unfold loadStateCheckpointChain.
  rewrite wp_bind. eapply wp_mono; [apply wp_loadStateCatalog|]. intros [c|e] w1 [Hs1 Hc]; [|done].
  destruct (Hc c eq_refl) as (Hv & Hcat). unfold string_is. case_bool_decide as Hid; cbn [negb]; [|done]. subst id.
  rewrite wp_bind. apply wp_syscall; intros fs; [done|]. unfold wp at 1. case_decide as Hdir; [|done]. cbn [fst snd].
  assert (same_files w (tick w1 fs)) as Hs2 by (by apply tick_stable). rewrite (same_files_entries w) by done.
  rewrite wp_bind. eapply wp_mono; [by apply (wp_read_checkpoints w)|]. intros [m|e] w2 [Hs3 Hm]; [|done].
  destruct (Hm m eq_refl) as (Hcol & Hnd & _ & _). rewrite wp_lift. intros chain Hchain. rewrite Hcol in Hchain.
  pose proof Hchain as Hchain'. apply chain_of_Ok in Hchain' as (target & l & Ht & Hn & _ & _ & Hch). subst chain.
  split_and!; try done. split; cbn; auto.
  apply collect_inv in Ht as [Ht|([name c'] & Hin & ->)]; [by rewrite lookup_empty in Ht|]. cbn in *.
  unfold checkpoint_entries in Hin. apply list_elem_of_omap in Hin as ([n isDir] & _ & He). cbn in He.
  destruct (_ || _); [done|]. destruct (file_data w (n :: G)) as [data|] eqn:Ed; [|done].
  destruct (checkpoint_file _ _ _) as [x|] eqn:Ek; [|done]. injection He as Hdig <- <-. exists data.
  pose proof (checkpoint_file_name _ _ _ _ Ek) as (Hname & _ & _). rewrite Hdig in Hname. destruct Hn as (Hn & _). rewrite <- Hname in Hn. by subst n.
Qed.
Lemma wp_loadCatalogStateCheckpoint id w :
  wp (loadCatalogStateCheckpoint sha256 json_Marshal decode_checkpoint decode_catalog dir id) w (fun r w' => same_files w w' /\
    forall chain, r = Ok chain -> head (ch_catalog chain) (ch_checkpoint chain) w /\ ca_SessionID (ch_catalog chain) = id).
Proof.
  apply wp_keeps; [apply keeps_loadCatalogStateCheckpoint, _|done|]. unfold loadCatalogStateCheckpoint.
  rewrite wp_bind. eapply wp_mono; [apply wp_loadStateCatalog|]. intros [c|e] w1 [Hs1 Hc]; [|done].
  destruct (Hc c eq_refl) as (Hv & Hcat). unfold string_is. case_bool_decide as Hid; cbn [negb]; [|done]. subst id.
  rewrite wp_bind. eapply wp_mono; [apply (wp_kept (same_files w)); [apply keeps_Stat, _|done]|]. intros [info|e] w2 Hs2; [|done].
  destruct (negb _); [done|]. rewrite wp_bind. eapply wp_mono; [apply wp_ReadFile|]. intros [data|e] w3 [Hs3 Hd]; [|done].
  specialize (Hd data eq_refl). rewrite (same_files_data w w2 _ Hs2) in Hd. rewrite wp_bind, wp_lift.
  destruct (decodeStateCheckpoint _ _ _ data) as [cp|] eqn:Ecp; [|done].
  match goal with |- wp (if ?b then _ else _) _ _ => destruct b eqn:E end; [done|]. intros chain [= <-]. cbn.
  rewrite !orb_false_iff, !negb_false_iff, !bool_decide_eq_true, !Z.eqb_eq in E. destruct E as [[[[[E1 E2] E3] E4] E5] E6].
  split; [|done]. split; cbn; auto; [|by unfold names_target; rewrite <- E1].
  exists data. split_and!; [done..|]. unfold Checkpoint.checkpoint_file, string_is. rewrite Ecp, E2, E3, !bool_decide_eq_true_2 by done. done.
Qed.

(** *** A catalog that is there is not reported missing *)

Definition found {A} (r : result A) : Prop := forall e, r = Err e -> is_NotExist e = false.
Context (Hdecode_errors : forall d e, decode_checkpoint d = Err e -> is_NotExist e = false).

Lemma is_NotExist_errorf f e : is_NotExist (errorf f e) = is_NotExist e.
Proof using. unfold is_NotExist, errorf. cbn. apply orb_false_r. Qed.
Lemma found_step {A B} (m : OS A) (k : A -> OS B) w (P : A -> world -> Prop) :
  wp m w (fun r w' => found r /\ forall a, r = Ok a -> P a w') -> (forall a w', P a w' -> wp (k a) w' (fun r _ => found r)) ->
  wp (bind m k) w (fun r _ => found r).
Proof using. intros Hm Hk. rewrite wp_bind. eapply wp_mono; [exact Hm|]. intros [a|e] w' [Hf Ha]; [auto|]. intros e' [= <-]. by apply Hf. Qed.
Lemma found_Stat p w : world_wf w -> is_Some (w_names w !! p) ->
  wp (os_Stat p) w (fun r w' => found r /\ forall info, r = Ok info -> fi_regular info = true /\ same_files w w').
Proof using.
  intros Hw [n Hn]. destruct (wf_names _ Hw _ _ Hn) as [i Hi]. apply wp_syscall; intros fs; [split; [by intros e [= <-]|done]|].
  unfold wp. cbn. rewrite Hn. cbn. rewrite Hi. split; [by intros e|]. by intros info [= <-].
Qed.
Lemma found_ReadFile p w : is_Some (w_names w !! p) -> wp (os_ReadFile p) w (fun r _ => found r).
Proof using.
  intros [n Hn]. unfold os_ReadFile. apply (found_step _ _ _ (fun _ _ => True)).
  - apply wp_syscall; intros fs; [split; [by intros e [= <-]|done]|]. unfold wp. cbn. rewrite Hn. by split.
  - intros f w1 _. rewrite wp_defer. apply wp_syscall; intros fs; [by intros e [= <-]|]. unfold wp. cbn.
    destruct (w_inodes _ !! _); cbn; by intros e [= <-].
Qed.
Lemma validate_found cp d e : validateStateCheckpoint sha256 json_Marshal cp d = Some e -> is_NotExist e = false.
Proof using.
  unfold validateStateCheckpoint, validateSessionStateForDirectory, check_native. repeat case_match; intros; simplify_eq; done.
Qed.
Lemma checkpoint_file_found id name data : found (checkpoint_file id name data).
Proof using Hdecode_errors.
  intros e. unfold Checkpoint.checkpoint_file, decodeStateCheckpoint. destruct (decode_checkpoint data) as [c|e'] eqn:E.
  - destruct (validateStateCheckpoint _ _ _ _) as [e'|] eqn:Ev; [intros [= <-]; rewrite is_NotExist_errorf; by eapply validate_found|].
    repeat case_match; by intros [= <-].
  - intros [= <-]. rewrite is_NotExist_errorf. by eapply Hdecode_errors.
Qed.
Lemma found_read_checkpoints w0 id target strict es : (forall name, (name, false) ∈ es -> is_Some (w_names w0 !! (name :: G))) ->
  forall acc w, same_files w0 w -> wp (read_checkpoints sha256 json_Marshal decode_checkpoint G id target strict es acc) w (fun r _ => found r).
Proof using Hdecode_errors.
  induction es as [|[name isDir] es IH]; intros Hes acc w Hw; cbn [read_checkpoints]; [by intros e|].
  assert (forall acc w, same_files w0 w -> wp (read_checkpoints sha256 json_Marshal decode_checkpoint G id target strict es acc) w (fun r _ => found r)) as IH'.
  { apply IH. intros n Hn. apply Hes. by right. }
  destruct (checkpoint_temporary name); [by apply IH'|].
  destruct isDir; [destruct (strict || _); [by intros e [= <-]|by apply IH']|].
  apply (found_step _ _ _ (fun _ w' => same_files w0 w')).
  - apply wp_conj; [apply found_ReadFile; rewrite (proj1 Hw); apply Hes; by left|].
    apply wp_mono with (P := fun _ w' => same_files w0 w'); [apply (wp_kept (same_files w0)); [apply keeps_ReadFile, _|done]|done].
  - intros data w1 Hw1. pose proof (checkpoint_file_found id name data) as Hf. destruct (checkpoint_file id name data) as [c|e] eqn:E.
    + destruct (acc !! _); [by intros e [= <-]|by apply IH'].
    + destruct (strict || _); [|by apply IH']. intros e' [= <-]. by apply Hf.
Qed.
Lemma found_loadStateCheckpointChain id strict c cp w : world_wf w -> head c cp w -> G ∈ w_dirs w ->
  wp (loadStateCheckpointChain sha256 json_Marshal decode_checkpoint decode_catalog dir id strict) w (fun r _ => found r).
Proof using Hdecode_errors.
  intros Hw [(cdata & Hcat & Hdec) Hv _ _] HG.
  assert (is_Some (w_names w !! catalog_of dir)) as Hn.
  { unfold file_data, inode_of in Hcat. destruct (w_names w !! catalog_of dir); [by eexists|done]. }
  unfold loadStateCheckpointChain. apply (found_step _ _ _ (fun _ w' => same_files w w')).
  { unfold loadStateCatalog. rewrite wp_bind. eapply wp_mono; [by apply found_Stat|]. intros [info|e] w0 [Hf Hi].
    2: { split; [intros e' [= <-]; by apply Hf|done]. }
    destruct (Hi info eq_refl) as [-> Hs0]. cbn [negb]. rewrite wp_bind.
    eapply wp_mono; [apply wp_conj; [apply (found_ReadFile (catalog_of dir)); by rewrite (proj1 Hs0)|apply wp_ReadFile]|].
    intros [data|e] w1 [Hf1 [Hs Hd]]; [|split; [intros e' [= <-]; by apply Hf1|done]]. specialize (Hd data eq_refl).
    rewrite (same_files_data w w0 _ Hs0) in Hd. assert (data = cdata) as -> by congruence.
    rewrite wp_bind, wp_wrap, wp_lift, Hdec, Hv. cbn [negb]. split; [by intros e|]. intros a _. by eapply same_files_trans. }
  intros a w1 Hs1. destruct (negb _); [by intros e [= <-]|]. apply (found_step _ _ _ (fun es w' => es = dir_entries w G /\ same_files w w')).
  { apply wp_syscall; intros fs; [split; [by intros e [= <-]|done]|]. assert (same_files w (tick w1 fs)) as Hs2 by (by apply tick_stable).
    unfold wp. pose proof Hs2 as (_ & _ & Ed & _). rewrite decide_True by (by rewrite Ed). cbn [fst snd]. split; [by intros e|].
    intros es [= <-]. split; [by apply same_files_entries|done]. }
  intros es w2 [-> Hs2]. apply (found_step _ _ _ (fun _ _ => True)).
  { apply wp_mono with (P := fun r _ => found r); [|by split]. apply (found_read_checkpoints w); [|done].
    intros name [[? _]|[_ ?]]%dir_entries_dir; done. }
  intros m w3 _. rewrite wp_lift. intros e. unfold chain_of. repeat case_match; try (by intros [= <-]).
  intros [= <-]. match goal with H : walk_lineage ?f ?m ?d ?v = Err _ |- _ => revert H end.
  generalize (S (size m)) (ca_CheckpointSHA256 a) (∅ : gset string). intros f. induction f as [|f IH]; intros d v; cbn [walk_lineage]; [by intros [= <-]|].
  repeat case_match; try (by intros [= <-]). apply IH.
Qed.
End Catalog.
