(* ===== verification/Succession.v ===== *)
(** One head follows another: publication, refreshing, loading and recovery, which may
    fail anywhere, only ever replace the catalog and the checkpoint it names by a newer
    pair. *)
From S2P Require Import Prelude GoStd Effects ObjectReader Manifest View Os Mutation Lease Session StateFile Cow Writer Foreground Compact Store Walk Metadata Checkpoint Publish History Lineage Catalog.
Local Open Scope Z_scope.

(** ** Names *)

Lemma same_files_sym w w' : same_files w w' -> same_files w' w.
Proof. intros (? & ? & ? & ? & ? & ?). by split_and!; symmetry. Qed.

Lemma cons_neq {A} (x : A) l : l <> x :: l.
Proof. intros E. apply (f_equal length) in E. cbn in E. lia. Qed.
Lemma NoDup_fst_inj {A B} (l : list (A * B)) a b b' : NoDup l.*1 -> (a, b) ∈ l -> (a, b') ∈ l -> b = b'.
Proof.
  induction l as [|[x y] l IH]; intros Hnd H1 H2; [by apply not_elem_of_nil in H1|]. cbn in Hnd. apply NoDup_cons in Hnd as [Hx Hnd].
  assert (forall z, (x, z) ∈ l -> False) as Hnot by (intros z Hz; apply Hx, list_elem_of_fmap; by exists (x, z)).
  apply elem_of_cons in H1 as [E1|H1]; apply elem_of_cons in H2 as [E2|H2]; simplify_eq; try done; [by apply Hnot in H2|by apply Hnot in H1|by apply IH].
Qed.

Lemma lineage_names_first fuel checkpoints digest acc names name cp : lineage_names fuel checkpoints digest acc = Ok names ->
  checkpoints !! digest = Some (name, cp) -> name ∈ names.
Proof.
  assert (forall fuel digest acc names, lineage_names fuel checkpoints digest acc = Ok names -> acc ⊆ names) as Hmono.
  { clear. intros fuel. induction fuel as [|fuel IH]; intros digest acc names; cbn [lineage_names]; [done|].
    destruct (checkpoints !! digest) as [[n c]|]; [|done]. destruct (string_is _ _); [intros [= <-]; set_solver|]. intros H%IH. set_solver. }
  destruct fuel as [|fuel]; cbn [lineage_names]; [done|]. intros H Hd. rewrite Hd in H.
  destruct (string_is _ _); [injection H as <-; set_solver|]. apply Hmono in H. set_solver.
Qed.

(** The name of a checkpoint file is a base name, and digests are valid. *)
Definition no_slash (s : string) : bool := forallb (fun c => negb (is_slash c)) (chars s).
Lemma unchars_chars s : unchars (chars s) = s.
Proof. induction s as [|c s IH]; cbn; [done|by rewrite IH]. Qed.
Lemma until_slash_all l : forallb (fun c => negb (is_slash c)) l = true -> until_slash l = l.
Proof. induction l as [|c l IH]; cbn; [done|]. intros [Hc Hl]%andb_true_iff. apply negb_true_iff in Hc as ->. by rewrite IH. Qed.
Lemma filepath_Base_plain s : s <> EmptyString -> no_slash s = true -> filepath_Base s = s.
Proof.
  intros Hne Hs. unfold filepath_Base. destruct (chars s) as [|c l] eqn:E; [by destruct s|].
  unfold no_slash in Hs. rewrite E in Hs. rewrite forallb_forall in Hs.
  assert (forallb (fun c => negb (is_slash c)) (rev (c :: l)) = true) as Hr by (apply forallb_forall; intros x Hx%in_rev; auto).
  assert (drop_slashes (rev (c :: l)) = rev (c :: l)) as ->.
  { destruct (rev (c :: l)) as [|x r]; [done|]. cbn in Hr. apply andb_true_iff in Hr as [Hx _]. cbn. by apply negb_true_iff in Hx as ->. }
  rewrite until_slash_all, rev_involutive by done. rewrite <- E. apply unchars_chars.
Qed.
Lemma no_slash_append a b : no_slash (String.append a b) = no_slash a && no_slash b.
Proof. unfold no_slash. rewrite chars_append. apply forallb_app. Qed.
Lemma no_slash_decimal n : forall z s, no_slash s = true -> no_slash (decimal n z s) = true.
Proof.
  induction n as [|n IH]; intros z s Hs; [done|]. cbn [decimal]. apply IH. unfold no_slash in *. cbn [chars forallb]. rewrite Hs.
  pose proof (Z.mod_pos_bound z 10 ltac:(lia)) as Hb. assert (Z.to_nat (z mod 10) < 10)%nat as Hk by lia.
  revert Hk. generalize (Z.to_nat (z mod 10)). intros k Hk. do 10 (destruct k as [|k]; [done|]). lia.
Qed.
Lemma no_slash_hex l : no_slash (hex_EncodeToString l) = true.
Proof. induction l as [|b l IH]; [done|]. unfold no_slash in *. cbn [hex_EncodeToString chars forallb]. rewrite IH. by destruct b. Qed.
Lemma is_lower_hex l : is_lower (hex_EncodeToString l) = true.
Proof. induction l as [|b l IH]; [done|]. cbn [hex_EncodeToString is_lower]. rewrite IH. by destruct b. Qed.
Lemma filename_Base g n l : filepath_Base (stateCheckpointFilename g n (hex_EncodeToString l)) = stateCheckpointFilename g n (hex_EncodeToString l).
Proof.
  apply filepath_Base_plain.
  - unfold stateCheckpointFilename, format_020d. destruct (decimal_head 20 g EmptyString) as (k & rest & _ & ->); [lia|done].
  - unfold stateCheckpointFilename, format_020d. by rewrite !no_slash_append, !no_slash_decimal, no_slash_hex.
Qed.
Lemma digest_valid l : length l = 32%nat -> validStateSHA256 (hex_EncodeToString l) = true.
Proof. intros Hl. unfold validStateSHA256. rewrite hex_Encode_length, Hl, is_lower_hex, hex_Decode_Encode. done. Qed.

(** A state is valid for at most one directory. *)
Lemma suffix_of_length_inv {A} (l k m : list A) : l `suffix_of` m -> k `suffix_of` m -> (length l <= length k)%nat -> l `suffix_of` k.
Proof.
  intros [x ->] [y Hy] Hlen. assert (length x >= length y)%nat as Hxy by (apply (f_equal length) in Hy; rewrite !length_app in Hy; lia).
  assert (x ++ l = (take (length y) (x ++ l)) ++ drop (length y) (x ++ l)) as Hs by (by rewrite take_drop).
  rewrite Hy in Hs. rewrite take_app_length, drop_app_length in Hs. exists (drop (length y) x).
  rewrite <- (drop_app_le x l (length y)) by lia. rewrite Hy. by rewrite drop_app_length.
Qed.
Lemma directory_shape st sd : validateSessionStateForDirectory st sd = None -> exists root,
  sd = ss_SessionID st :: "sessions"%string :: "fs"%string :: root /\ ("manifests"%string :: root) `suffix_of` ss_ManifestPath st
  /\ sd `suffix_of` ss_DeltaPath st.
Proof.
  unfold validateSessionStateForDirectory. destruct (_ || _); [done|]. destruct sd as [|id [|sessions [|fs root]]]; try done.
  unfold string_is, pathWithin. destruct (_ || _) eqn:E1; [done|]. rewrite !orb_false_iff, !negb_false_iff, !bool_decide_eq_true in E1.
  destruct E1 as [[-> ->] ->]. destruct (_ || _) eqn:E2; [done|]. rewrite orb_false_iff, negb_false_iff, bool_decide_eq_true in E2.
  destruct (_ || _) eqn:E3; [done|]. rewrite !orb_false_iff, negb_false_iff, bool_decide_eq_true in E3. intros _. exists root.
  split_and!; [done|apply E2|apply E3].
Qed.
Lemma directory_shorter st st' sd sd' : ss_SessionID st' = ss_SessionID st -> ss_ManifestPath st' = ss_ManifestPath st ->
  ss_DeltaPath st' = ss_DeltaPath st -> validateSessionStateForDirectory st sd = None -> validateSessionStateForDirectory st' sd' = None ->
  (length sd <= length sd')%nat -> sd = sd'.
Proof.
  intros E1 E2 E3 (root & -> & Hm & Hd)%directory_shape (root' & -> & Hm' & Hd')%directory_shape Hlen. rewrite E1, E2, E3 in *.
  pose proof (suffix_of_length_inv _ _ _ Hd Hd' Hlen) as [k Hk]. destruct k as [|x k]; [done|exfalso].
  assert (length root < length root')%nat as Hroot by (apply (f_equal length) in Hk; rewrite length_app in Hk; cbn in *; lia).
  pose proof (suffix_of_length_inv ("manifests"%string :: root) ("manifests"%string :: root') _ Hm Hm' ltac:(cbn; lia)) as H1.
  assert (("manifests"%string :: root) `suffix_of` root') as H2.
  { destruct H1 as [[|y z] Hy]; [apply (f_equal length) in Hy; cbn in Hy; lia|]. injection Hy as _ Hy. by exists z. }
  assert (("fs"%string :: root) `suffix_of` root') as H3.
  { apply (suffix_of_length_inv _ _ (ss_SessionID st :: "sessions"%string :: "fs"%string :: root')); [|by exists [ss_SessionID st; "sessions"; "fs"]%string|cbn; lia].
    rewrite Hk. exists (x :: k ++ [ss_SessionID st; "sessions"]%string). by rewrite <- !app_assoc || cbn; rewrite <- app_assoc. }
  pose proof (suffix_of_length_inv _ _ _ H2 H3 ltac:(done)) as [[|y z] Hy]; [done|]. apply (f_equal length) in Hy. rewrite length_app in Hy. cbn in Hy. lia.
Qed.
(** So do two states that share these fields. *)
Lemma directory_unique_like st st' sd sd' : ss_SessionID st' = ss_SessionID st -> ss_ManifestPath st' = ss_ManifestPath st ->
  ss_DeltaPath st' = ss_DeltaPath st -> validateSessionStateForDirectory st sd = None -> validateSessionStateForDirectory st' sd' = None -> sd = sd'.
Proof.
  intros E1 E2 E3 H H'. destruct (decide (length sd <= length sd')%nat); [by apply (directory_shorter st st')|].
  symmetry. apply (directory_shorter st' st); try done. lia.
Qed.
Lemma directory_unique st sd sd' : validateSessionStateForDirectory st sd = None -> validateSessionStateForDirectory st sd' = None -> sd = sd'.
Proof. by apply directory_unique_like. Qed.

Section Names.
Context (dir : path).
Local Abbreviation G := (generations_of dir).

(** The writer lease and the journal, whose contents change; the catalog and the checkpoint it names. *)
Definition lease_of : path := "writer.lease"%string :: dir.
Definition leased_name (q : path) : Prop := q = lease_of \/ q = journalPath dir.
Definition head_names (o : option sessionStateCatalog) (q : path) : Prop :=
  q = catalog_of dir \/ match o with Some c => q = ca_Checkpoint c :: G | None => False end.
Lemma head_not_leased o q : head_names o q -> ~ leased_name q.
Proof.
  unfold leased_name, lease_of, journalPath. intros [-> | Hq] E; [by destruct E|]. destruct o; [|done]. subst q.
  destruct E as [E|E]; injection E as _ E; by apply (cons_neq "state-generations"%string dir).
Qed.
Definition free (o : option sessionStateCatalog) (q : path) : Prop := ~ head_names o q /\ ~ leased_name q.

Definition is_target (o : option sessionStateCatalog) (name : string) : Prop :=
  match o with Some c => name = ca_Checkpoint c | None => False end.
Lemma not_leased name : name <> "writer.lease"%string -> name <> "journal.jsonl"%string -> ~ leased_name (name :: dir).
Proof. intros H H' [E|E]; by injection E. Qed.
Lemma free_in_dir o name : name <> "state-catalog.json"%string -> name <> "writer.lease"%string -> name <> "journal.jsonl"%string ->
  free o (name :: dir).
Proof.
  intros H1 H2 H3. split; [|by apply not_leased].
  intros [[= ?]|H]; [done|]. destruct o; [|done]. injection H as _ H. by apply (cons_neq "state-generations"%string dir).
Qed.
Lemma free_generation o name : ~ is_target o name -> free o (name :: G).
Proof.
  intros H. split.
  - intros [[= _ E]|Hq]; [|destruct o; [|done]; by injection Hq]. by apply (cons_neq "state-generations"%string dir).
  - intros [[= _ E]|[= _ E]]; by apply (cons_neq "state-generations"%string dir).
Qed.
Lemma free_orphan o name : free o (name :: orphans_of dir).
Proof.
  split.
  - intros [[= _ E]|Hq]; [by apply (cons_neq "state-orphans"%string dir)|]. destruct o; [|done]. by injection Hq.
  - intros [[= _ E]|[= _ E]]; by apply (cons_neq "state-orphans"%string dir).
Qed.
Lemma prefix_neq p name other : String.prefix p name = true -> String.prefix p other = false -> name <> other.
Proof. by intros H1 H2 ->; rewrite H1 in H2. Qed.
Lemma free_lock o store name : free o (String.append name ".lock" :: "locks"%string :: store).
Proof.
  assert (forall s, String.append name ".lock" = s -> has_suffix ".lock" s = true) as Hs by (intros s <-; apply has_suffix_append).
  split.
  - intros [[= E%Hs _]|Hq]; [done|]. destruct o; [|done]. by injection Hq.
  - by intros [[= E%Hs _]|[= E%Hs _]].
Qed.
End Names.

(** ** Writing a checkpoint *)

Lemma wp_ensure parent d w : wp (ensureStateCheckpointDirectory parent d) w (fun r w' => r = Ok tt -> d ∈ w_dirs w').
Proof.
  unfold ensureStateCheckpointDirectory. rewrite wp_bind, wp_try.
  apply wp_mono with (P := fun r w' => is_ok r = true -> d ∈ w_dirs w').
  { apply wp_syscall; intros fs; [done|]. unfold wp. cbn. case_decide; [done|]. case_decide; [|done]. cbn. set_solver. }
  intros [[]|e] w1 Hr.
  - eapply wp_mono; [apply (wp_kept (fun w' => d ∈ w_dirs w')); [|by apply Hr]|by intros].
    apply keeps_syscall; [by intros ???|]. intros w' Hw'. cbn. case_decide; exact Hw'.
  - destruct (negb (is_Exist e)); [done|]. rewrite wp_bind. apply wp_syscall; intros fs; [done|]. unfold wp at 1. cbn.
    destruct (w_names w1 !! d) as [n|]; [by destruct (w_inodes w1 !! n)|]. case_decide; [|done]. cbn. by intros _.
Qed.

Definition holds (p : path) (data : bytes) (w : world) : Prop := file_data w p = Some data.
#[export] Instance holds_stable p data : TickStable (holds p data).
Proof. by intros w fs. Qed.
Lemma holds_other p data (w : world) names durable : w_names w !! p = names !! p -> holds p data w ->
  holds p data (set_durable (set_files w names (w_inodes w)) durable).
Proof. unfold holds, file_data, inode_of. cbn. by intros ->. Qed.
Lemma keeps_holds_Remove p data q : q <> p -> keeps (holds p data) (os_Remove q).
Proof.
  intros Hne. apply keeps_syscall; [apply _|]. intros w Hw. cbn. destruct (w_names w !! q); [|done]. cbn.
  apply holds_other; [by rewrite lookup_delete_ne|done].
Qed.
Lemma keeps_holds_sync_dir p data d : keeps (holds p data) (sync_dir d).
Proof. apply keeps_syscall; [apply _|]. intros w Hw. cbn. case_decide; exact Hw. Qed.

Lemma wp_Link_temp w0 tp p n data sy w : temp_file w0 tp n data sy w -> wp (os_Link tp p) w (fun r w' => r = Ok tt -> holds p data w').
Proof.
  intros Ht. apply wp_syscall; intros fs; [done|]. unfold wp. cbn. rewrite (tf_name _ _ _ _ _ _ Ht).
  case_decide; [done|]. case_decide; [|done]. cbn. intros _. destruct (tf_inode _ _ _ _ _ _ Ht) as (i & Hi & <- & _).
  unfold holds, file_data, inode_of. cbn. rewrite lookup_insert_eq. cbn. by rewrite Hi.
Qed.

(** Any managed invariant survives, and success means that the file is there. *)
Section Link.
Context {J : world -> Prop} {own : nat -> Prop} {may made leased : path -> Prop} `{Managed J own may made leased}.
Lemma wp_link_checkpoint d p data f tp w0 w : own (f_ino f) -> at_end f (f_ino f) [] -> may tp -> made p -> tp <> p ->
  drafted (J := J) w0 tp (f_ino f) [] false w ->
  wp (link_checkpoint d p data f tp) w (fun r w' => J w' /\ (r = Ok tt -> holds p data w')).
Proof.
  intros Ho He Htp Hp Hne Hd. unfold link_checkpoint. rewrite wp_bind, wp_or_else.
  eapply wp_mono; [apply (wp_kept (drafted (J := J) w0 tp (f_ino f) [] false)); [by apply keeps_pure; [apply _|]|done]|].
  intros [[]|e] w1 Hd1.
  2: { eapply wp_mono; [apply (wp_kept J); [apply keeps_Close, _|apply Hd1]|]. intros r w2 Hj. by split. }
  eapply wp_write_synced; try done; [|intros e d' w' [Hj _]; by split]. clear dependent w w1. intros w [Hj Ht]. rewrite app_nil_l in Ht || idtac.
  assert (keeps (fun w => J w /\ holds p data w) (wrap "sync session state checkpoint directory: %w" (sync_dir d) ;;;
    let* removed := try_ (os_Remove tp) in
    match removed with Ok _ => ret tt | Err e => if is_NotExist e then ret tt else fail (errorf "remove published session state checkpoint temporary: %w" e) end))
    as Hrest.
  { assert (forall A (m : OS A), keeps J m -> keeps (holds p data) m -> keeps (fun w => J w /\ holds p data w) m) as Hboth.
    { intros A m H1 H2 w1 [Hj1 Hh1]. split; auto. }
    keeps; apply Hboth; [by apply md_sync_dir|apply keeps_holds_sync_dir|by apply md_Remove|by apply keeps_holds_Remove]. }
  rewrite wp_bind, wp_try. eapply wp_mono; [apply wp_conj; [apply (wp_kept J); [by apply md_Link|done]|by eapply wp_Link_temp]|].
  intros [[]|e] w1 [Hj1 Hl].
  - rewrite wp_bind, wp_ret. eapply wp_mono; [apply (wp_kept (fun w => J w /\ holds p data w)); [done|by split; [|apply Hl]]|].
    intros r w2 [? ?]. by split.
  - destruct (is_Exist e); [|by split]. rewrite wp_bind, wp_bind, wp_wrap.
    eapply wp_mono; [apply wp_conj; [apply (wp_kept J); [apply keeps_ReadFile, _|done]|apply wp_ReadFile]|].
    intros [existing|e'] w2 [Hj2 [Hs Hdata]]; [|by split].
    case_bool_decide as Heq; cbn [negb]; [|by split]. subst existing. rewrite wp_ret.
    eapply wp_mono; [apply (wp_kept (fun w => J w /\ holds p data w)); [done|]|by intros r w3 [? ?]].
    split; [done|]. unfold holds. rewrite (same_files_data w1 w2 _ Hs). by apply Hdata.
Qed.
End Link.

Lemma wp_Rename_failed (J : world -> Prop) `{TickStable J} a b w : J w -> wp (os_Rename a b) w (fun r w' => forall e, r = Err e -> J w').
Proof.
  intros Hw. apply wp_syscall; intros fs; [intros e _; by apply tick_stable|]. assert (J (tick w fs)) as Hw' by by apply tick_stable.
  unfold wp. cbn. case_match; [case_decide|]; cbn; by intros e [= <-].
Qed.

Section Succession.
Context (sha256 : bytes -> bytes) (json_Marshal : SessionState -> result bytes) (json_Unmarshal decode_state : bytes -> result SessionState)
  (json_checkpoint : sessionStateCheckpoint -> result bytes) (decode_checkpoint : bytes -> result sessionStateCheckpoint)
  (json_catalog : sessionStateCatalog -> result bytes) (decode_catalog : bytes -> result sessionStateCatalog)
  (decode_pin : bytes -> result string) (json_manifest : bytes -> result Manifest)
  (LoadSessionDeletion : path -> string -> OS SessionDeletion) (pid : string) (lock_attempts : nat)
  (legacyMigrationJournalData : path -> string -> OS (gset path)) (map_order : gset string -> list string).
Context (dir : path).
Local Abbreviation G := (generations_of dir).
Local Abbreviation head := (head sha256 json_Marshal decode_checkpoint decode_catalog dir).
Local Abbreviation F := (head_names dir).
Local Abbreviation L := (leased_name dir).
Local Abbreviation free := (free dir).
Local Abbreviation writeImmutableStateCheckpoint := (writeImmutableStateCheckpoint dir).
Local Abbreviation writeStateCatalog := (writeStateCatalog json_catalog dir).

(** ** Soundness *)

Definition not_older (c0 c : sessionStateCatalog) : Prop :=
  ca_Generation c0 <= ca_Generation c /\ ca_Sequence c0 <= ca_Sequence c.
Definition not_older_than (o : option sessionStateCatalog) (c : sessionStateCatalog) : Prop :=
  match o with Some c0 => not_older c0 c | None => True end.
(** The catalog is not there yet, or it is intact with the checkpoint it names. *)
Definition heads (o : option sessionStateCatalog) (w : world) : Prop :=
  match o with
  | None => w_names w !! catalog_of dir = None
  | Some c => (exists cp, head c cp w) /\ G ∈ w_dirs w
  end.
Record intact (o : option sessionStateCatalog) (w : world) : Prop := {
  in_wf : world_wf w;
  in_private : private L w;
  in_heads : heads o w;
}.
(** From [o] on: the same, or a newer head. *)
Definition sound (o : option sessionStateCatalog) (w : world) : Prop :=
  exists o', intact o' w /\ match o' with Some c => not_older_than o c | None => o = None end.

Lemma not_older_refl o : match o with Some c => not_older_than o c | None => o = None end.
Proof using. destruct o; [|done]. split; lia. Qed.
Lemma intact_sound o w : intact o w -> sound o w.
Proof using. intros Hi. exists o. split; [done|apply not_older_refl]. Qed.
Lemma sound_trans o o' w : match o' with Some c => not_older_than o c | None => o = None end -> sound o' w -> sound o w.
Proof using.
  intros H (o2 & Hi & H2). exists o2. split; [done|]. destruct o2 as [c2|]; [|by subst]. destruct o as [c|]; [|done].
  destruct o' as [c'|]; [|done]. unfold not_older_than, not_older in *. lia.
Qed.

Lemma private_not_mine q n w : world_wf w -> private L w -> ~ L q -> w_names w !! q = Some n -> ~ mine L w n.
Proof using.
  intros Hw Hp Hq Hn [(q' & HL & Hn')|Hn'].
  - apply Hq. by eapply Hp.
  - destruct (wf_names _ Hw _ _ Hn) as [i Hi]. assert (n < w_next w)%nat by (eapply wf_next; [done|by eexists]). lia.
Qed.
Lemma steady_data o w0 w q d : world_wf w0 -> private L w0 -> steady (F o) L w0 w -> F o q ->
  file_data w0 q = Some d -> file_data w q = Some d.
Proof using.
  intros Hw Hp Hs HF. pose proof (head_not_leased _ _ _ HF) as HL. unfold file_data, inode_of. rewrite (st_names _ _ _ _ Hs q HF).
  destruct (w_names w0 !! q) as [n|] eqn:Hn; [|done]. cbn. destruct (w_inodes w0 !! n) as [i|] eqn:Hi; [|done].
  destruct (st_inodes _ _ _ _ Hs n i Hi) as (i' & -> & Hk & _); [by eapply private_not_mine|]. cbn. by rewrite Hk.
Qed.
Lemma steady_intact o w0 w : intact o w0 -> steady (F o) L w0 w -> intact o w.
Proof using.
  intros [Hw Hp Hh] Hs. split; [apply Hs..|]. destruct o as [c|]; cbn in *.
  - destruct Hh as [[cp [(d & Hd & Hc) Hv (f & Hf & Hdig & Hk) Ht]] HG]. split; [|by apply (st_dirs _ _ _ _ Hs)].
    exists cp. split; [|done| |done].
    + exists d. split; [|done]. eapply steady_data; try done. by left.
    + exists f. split; [|done]. eapply steady_data; try done. by right.
  - rewrite (st_names _ _ _ _ Hs); [done|by left].
Qed.
Lemma intact_steady o w : intact o w -> steady (F o) L w w.
Proof using. intros [Hw Hp _]. by apply steady_refl. Qed.
#[export] Instance intact_stable o : TickStable (intact o).
Proof using.
  intros w fs Hi. eapply steady_intact; [done|]. apply tick_stable. by apply intact_steady.
Qed.
#[export] Instance sound_stable o : TickStable (sound o).
Proof using. intros w fs (o' & Hi & H). exists o'. split; [by apply tick_stable|done]. Qed.

(** What leaves every head alone keeps soundness. *)
Lemma sound_kept {A} o (m : OS A) : (forall o' w0, intact o' w0 -> keeps (steady (F o') L w0) m) -> keeps (sound o) m.
Proof using.
  intros Hm w (o' & Hi & H). exists o'. split; [|done]. eapply steady_intact; [done|]. apply (Hm o' w Hi). by apply intact_steady.
Qed.
Lemma steady_same o w0 w w' : steady (F o) L w0 w -> same_files w w' -> steady (F o) L w0 w'.
Proof using.
  intros [[a a'] b c d e f z t] (E1 & E2 & E3 & E4 & E5 & _). unfold private in *. split; rewrite ?E1, ?E2, ?E3, ?E4, ?E5; auto.
  - split; rewrite ?E1, ?E2, ?E5; auto.
  - unfold private. by rewrite E1.
Qed.
Lemma intact_same o w w' : intact o w -> same_files w w' -> intact o w'.
Proof using. intros Hi Hs. eapply steady_intact; [done|]. eapply steady_same; [by apply intact_steady|done]. Qed.

(** A head keeps the world managed; all its own names are free. *)
#[local] Instance head_managed o w0 : Managed (steady (F o) L w0) (mine L w0) (free o) (free o) L := steady_managed (F o) L w0 (head_not_leased dir o).

Lemma intact_target o w name : intact o w -> is_target o name -> is_Some (w_names w !! (name :: G)) /\ checkpoint_temporary name = false.
Proof using.
  destruct o as [c|]; [|done]. intros [_ _ [[cp [_ _ (f & Hf & _) (Hn & _)]] _]] ->. split.
  - unfold file_data, inode_of in Hf. destruct (w_names w !! _); [by eexists|done].
  - rewrite Hn. apply filename_not_temporary.
Qed.
Lemma intact_temporary o w name : intact o w -> String.prefix ".state-checkpoint-" name = true -> ~ is_target o name.
Proof using.
  destruct o as [c|]; [|by intros ? ? []]. intros [_ _ [[cp [_ _ _ (Hn & _)]] _]] Hp ->. rewrite Hn in Hp.
  by rewrite (filename_not_dotted "state-checkpoint-") in Hp.
Qed.
Lemma free_primary o name : String.prefix ".state-primary-" name = true -> free o (name :: dir).
Proof using. intros H. apply free_in_dir; by eapply prefix_neq. Qed.
Lemma free_catalog_temporary o name : String.prefix ".state-catalog-" name = true -> free o (name :: dir).
Proof using. intros H. apply free_in_dir; by eapply prefix_neq. Qed.

(** ** Quarantine spares the head *)

Lemma head_present c cp o w : head c cp w -> intact o w -> exists c', o = Some c' /\ c' = c.
Proof using.
  intros Hh [_ _ Ho]. destruct o as [c'|]; cbn in Ho.
  - destruct Ho as [[cp' Hh'] _]. exists c'. split; [done|]. by eapply proj1, head_det.
  - destruct (hd_catalog _ _ _ _ _ _ _ _ Hh) as (d & Hd & _). unfold file_data, inode_of in Hd. by rewrite Ho in Hd.
Qed.

(** The entry of the head in its directory, and that it is the only one with its digest. *)
Lemma head_entry c cp w : head c cp w -> (ca_CheckpointSHA256 c, (ca_Checkpoint c, cp)) ∈
  checkpoint_entries sha256 json_Marshal decode_checkpoint dir w (ca_SessionID c) (dir_entries w G).
Proof using.
  intros [_ _ (data & Hd & Hdig & Hk) (Hn & _)]. apply list_elem_of_omap. exists (ca_Checkpoint c, false). split.
  - apply dir_entries_file. unfold file_data, inode_of in Hd. destruct (w_names w !! _); [by eexists|done].
  - cbn. assert (checkpoint_temporary (ca_Checkpoint c) = false) as Ht by (rewrite Hn; apply filename_not_temporary).
    by rewrite Ht, Hd, Hk, Hdig.
Qed.
Context (Hmap_order : forall X name, name ∈ map_order X -> name ∈ X).

Lemma keeps_quarantine o w0 names : (forall name, name ∈ names -> ~ is_target o name) ->
  keeps (steady (F o) L w0) (for_each (quarantine_one dir) names).
Proof using.
  induction names as [|n names IH]; intros Hn; cbn [for_each]; [keeps|]. apply keeps_bind; [|intros _; apply IH; intros; apply Hn; by right].
  unfold quarantine_one. keeps. apply md_Rename; [apply free_generation, Hn; by left|apply free_orphan].
Qed.
Lemma wp_reconcile o id w : intact o w ->
  wp (reconcileStateCheckpointHistory sha256 json_Marshal json_Unmarshal decode_checkpoint decode_catalog map_order dir id) w
    (fun _ w' => steady (F o) L w w').
Proof using Hmap_order.
  intros Hi. pose proof (intact_steady _ _ Hi) as Hst.
  assert (forall w', same_files w w' -> steady (F o) L w w') as Hsame by (intros w' Hs; by eapply steady_same).
  unfold reconcileStateCheckpointHistory. rewrite wp_bind. eapply wp_mono; [apply wp_loadStateCheckpointChain|].
  intros [chain|e] w1 [Hs1 Hc]; [|by apply Hsame]. destruct (Hc chain eq_refl) as (Hhead & Hid & Hnd & _).
  destruct (head_present _ _ _ _ Hhead Hi) as (c & -> & ->). set (c := ch_catalog chain) in *.
  rewrite wp_bind. eapply wp_mono; [apply (wp_kept (same_files w)); [apply keeps_try, keeps_readSessionState, _|done]|].
  intros [persisted|e] w2 Hs2; [|by apply Hsame]. destruct (negb _); [by apply Hsame|].
  rewrite wp_bind. apply wp_syscall; intros fs; [apply Hsame; by apply tick_stable|]. unfold wp at 1. case_decide; [|apply Hsame; by apply tick_stable].
  assert (same_files w (tick w2 fs)) as Hs3 by (by apply tick_stable). cbn [fst snd]. rewrite (same_files_entries w) by done.
  rewrite wp_bind. eapply wp_mono; [by apply (wp_classify sha256 json_Marshal decode_checkpoint dir w)|].
  intros [[m q]|e] w3 [Hs4 Hm]; [|by apply Hsame]. destruct (Hm m q eq_refl) as [Hcol Hq].
  rewrite wp_bind, wp_lift. destruct (lineage_names _ _ _ _) as [names|e] eqn:El; [|by apply Hsame].
  assert (forall name, name ∈ q ∪ list_to_set (filter (fun name => checkpoint_temporary name = false /\ name ∉ names) (dir_entries w G).*1) ->
    name <> ca_Checkpoint c) as Hspare.
  { pose proof (head_entry _ _ _ Hhead) as Hin. rewrite Hid in Hin. fold c in Hin.
    intros name [Hn|Hn]%elem_of_union ->.
    - apply Hq in Hn as [Hn|[_ Hn]]; [by apply not_elem_of_empty in Hn|].
      destruct Hhead as [_ _ (data & Hd & _ & Hk) (Hname & _)]. fold c in Hd, Hk, Hname. cbn in Hn.
      assert (checkpoint_temporary (ca_Checkpoint c) = false) as Ht by (rewrite Hname; apply filename_not_temporary).
      rewrite Ht, Hd in Hn. rewrite Hid in Hk. by rewrite Hk in Hn.
    - apply elem_of_list_to_set, list_elem_of_filter in Hn as [[_ Hn] _]. apply Hn.
      apply (lineage_names_first _ _ _ _ _ _ (ch_checkpoint chain) El). rewrite Hcol. by apply (collect_in (fun x => x)). }
  case_decide; [by apply Hsame|]. apply (wp_kept (steady (F (Some c)) L w)); [|by apply Hsame].
  pose proof (head_managed (Some c) w) as HM. keeps. apply keeps_quarantine. intros name Hn%Hmap_order. by apply Hspare.
Qed.

(** ** Writing a checkpoint and the catalog *)

Lemma is_target_dec o name : is_target o name \/ ~ is_target o name.
Proof using. destruct o as [c|]; cbn; [|right; intros []]. destruct (decide (name = ca_Checkpoint c)); auto. Qed.
Lemma wp_writeImmutable o name data w : String.prefix ".state-checkpoint-" name = false -> intact o w ->
  wp (writeImmutableStateCheckpoint name data) w (fun r w' => steady (F o) L w w' /\
    (r = Ok tt -> holds (name :: G) data w' /\ G ∈ w_dirs w')).
Proof using.
  intros Hplain Hi. unfold Publish.writeImmutableStateCheckpoint. pose proof (head_managed o w) as HM0. rewrite wp_bind.
  eapply wp_mono; [apply wp_conj; [apply (wp_kept (steady (F o) L w)); [unfold ensureStateCheckpointDirectory; keeps|by apply intact_steady]|apply wp_ensure]|].
  intros [[]|e] w1 [Hs1 HG]; [|by split]. specialize (HG eq_refl). assert (intact o w1) as Hi1 by (by eapply steady_intact).
  apply wp_mono with (P := fun r w' => steady (F o) L w1 w' /\ (r = Ok tt -> holds (name :: G) data w')).
  2: { intros r w' [Hs Hr]. split; [by eapply steady_trans|]. intros E. split; [by apply Hr|]. by apply (st_dirs _ _ _ _ Hs). }
  clear HM0. pose proof (head_managed o w1) as HM. rewrite wp_bind, wp_try.
  eapply wp_mono with (P := fun r w' => (is_target o name -> found r) /\ same_files w1 w' /\ forall d, r = Ok d -> file_data w1 (name :: G) = Some d).
  { destruct (is_target_dec o name) as [Ht|Ht].
    - apply wp_conj; [|apply wp_ReadFile]. eapply wp_mono; [apply found_ReadFile; by eapply intact_target|]. auto.
    - eapply wp_mono; [apply wp_ReadFile|]. intros r w' Hr. by split. }
  intros [existing|e] w2 (Hf & Hs2 & Hd); (assert (steady (F o) L w1 w2) as Hst2 by (eapply steady_same; [by apply intact_steady|done])).
  - case_bool_decide as Heq; cbn [negb]; (split; [done|]); [|done]. intros _. subst existing. unfold holds. rewrite (same_files_data w1) by done. by apply Hd.
  - destruct (is_NotExist e) eqn:Ee; cbn [negb]; [|by split].
    assert (~ is_target o name) as Ht by (intros Ht; by rewrite (Hf Ht e eq_refl) in Ee).
    assert (forall n, String.prefix ".state-checkpoint-" n = true -> free o (n :: G)) as Htemp by (intros n Hn; apply free_generation; by eapply intact_temporary).
    rewrite wp_bind, wp_wrap. eapply wp_mono; [apply wp_conj; [apply md_CreateTemp; [|done]|apply wp_CreateTemp, Hst2]; by auto|].
    intros [[f tp]|e'] w3 [[Hj3 Hf3] Ht3]; [|by split]. destruct (Hf3 f tp eq_refl) as (Ho & Ha & ->). destruct Ht3 as (Ht3 & Hp3 & _ & _).
    set (tp := temporary_name w2 ".state-checkpoint-" ".tmp" :: G) in *.
    assert (free o tp) as Hfree by (apply Htemp, temporary_prefix).
    assert (tp <> name :: G) as Hne.
    { intros [= E]. by rewrite <- E, temporary_prefix in Hplain. }
    rewrite wp_bind, wp_or_else.
    eapply wp_mono; [apply (wp_link_checkpoint G (name :: G) data f tp w2 w3); try done; by apply free_generation|].
    intros [[]|e'] w4 [Hj4 Hh4].
    + specialize (Hh4 eq_refl). eapply wp_mono; [apply wp_conj|].
      * apply (wp_kept (steady (F o) L w1)); [by apply md_sync_dir|done].
      * apply (wp_kept (holds (name :: G) data)); [apply keeps_holds_sync_dir|done].
      * intros r w5 [? ?]. by split.
    + eapply wp_mono; [apply (wp_kept (steady (F o) L w1)); [by apply md_Remove|done]|]. intros r w5 Hj5. by split.
Qed.

(** The catalog is as it was, or it is the new one. *)
Definition catalog_written (o : option sessionStateCatalog) (c : sessionStateCatalog) (w : world) (r : result unit) (w' : world) : Prop :=
  r <> Ok tt /\ steady (F o) L w w'
  \/ exists tp n d, json_catalog c = Ok d /\ published w tp (catalog_of dir) n (d ++ [Byte.x0a]) true w'.
Lemma wp_writeStateCatalog o c w : intact o w ->
  wp (writeStateCatalog c) w (fun r w' => steady (fun _ => False) L w w' /\ catalog_written o c w r w').
Proof using.
  intros Hi. apply wp_keeps.
  { pose proof (steady_managed (fun _ => False) L w (fun q H => False_ind _ H)) as HM. apply (keeps_writeStateCatalog json_catalog (may := fun q => ~ False /\ ~ L q) dir); [|split; [intros []|by apply not_leased]].
    intros name Hn. split; [intros []|]. apply not_leased; by intros ->. }
  { eapply steady_weaken; [|by apply intact_steady]. done. }
  unfold Publish.writeStateCatalog, catalog_written. pose proof (head_managed o w) as HM. rewrite wp_bind, wp_wrap, wp_lift.
  destruct (json_catalog c) as [d|e] eqn:Ed; [|left; split; [done|by apply intact_steady]].
  rewrite wp_bind, wp_wrap. eapply wp_mono; [apply wp_conj; [apply md_CreateTemp; [|by apply intact_steady]|apply wp_CreateTemp, Hi]|].
  { intros name Hn. by apply free_catalog_temporary. }
  intros [[f tp]|e'] w1 [[Hj1 Hf1] Ht1]; [|left; by split]. destruct (Hf1 f tp eq_refl) as (Ho & Ha & ->). destruct Ht1 as (Ht1 & Hp1 & _ & _).
  set (tp := temporary_name w ".state-catalog-" ".tmp" :: dir) in *.
  assert (free o tp) as Hfree by (apply free_catalog_temporary, temporary_prefix).
  assert (tp <> catalog_of dir) as Hne by (intros E; apply (proj1 Hfree); by left).
  rewrite wp_defer. apply wp_mono with (P := fun r w' => r <> Ok tt /\ steady (F o) L w w' \/
    exists n, published w tp (catalog_of dir) n (d ++ [Byte.x0a]) true w').
  2: { intros r w2 [[Hr Hs]|[n Hp]].
    - eapply wp_mono; [apply (wp_kept (steady (F o) L w)); [by apply md_Remove|done]|]. intros r' w3 Hs3. by left.
    - eapply wp_mono; [by apply wp_Remove_published|]. intros r' w3 Hp3. right. by exists tp, n, d. }
  rewrite wp_bind, wp_or_else.
  eapply wp_mono; [apply (wp_kept (drafted (J := steady (F o) L w) w tp (f_ino f) [] false)); [by apply keeps_pure; [apply _|]|by split]|].
  intros [[]|e'] w2 Hd2.
  2: { eapply wp_mono; [apply (wp_kept (steady (F o) L w)); [apply keeps_Close, _|apply Hd2]|]. intros r w3 Hs3. by left. }
  eapply (wp_write_synced w tp f); [done|by split_and!|done| |intros e' d' w' [Hs' _]; by left].
  clear dependent w1 w2. intros w1 [Hs1 Ht1]. rewrite wp_bind, wp_wrap.
  eapply wp_mono; [apply wp_conj; [by apply wp_Rename_temp|by apply (wp_Rename_failed (steady (F o) L w))]|].
  intros [[]|e'] w2 [Hr Hs2]; [|left; split; [done|by eapply Hs2]].
  eapply wp_mono; [by apply (wp_sync_dir_published w tp (catalog_of dir))|]. intros r w3 [Hp3 _]. right. eauto.
Qed.

(** ** A new head *)

(** SHA-256 has 32 bytes; JSON gives back what was encoded, for states whose strings it
    keeps; sequence numbers are of type [uint64]. *)
Context (representable : SessionState -> Prop).
Context (Hsha : forall d, length (sha256 d) = 32%nat).
Context (Hcheckpoint : forall cp sd d, representable (cp_State cp) -> validateStateCheckpoint sha256 json_Marshal cp sd = None ->
  json_checkpoint cp = Ok d -> decode_checkpoint (d ++ [Byte.x0a]) = Ok cp).
Context (Hcatalog : forall st n a b c d, representable st -> valid_catalog (catalog_entry st n a b c) = true ->
  json_catalog (catalog_entry st n a b c) = Ok d -> decode_catalog (d ++ [Byte.x0a]) = Ok (catalog_entry st n a b c)).

(** A checkpoint that may be published: valid, and with the delta directly in the session
    directory, which is where [decodeStateCheckpoint] expects it. *)
Record publishable (sd : path) (cp : sessionStateCheckpoint) : Prop := {
  pu_valid : validateStateCheckpoint sha256 json_Marshal cp sd = None;
  pu_direct : filepath_Dir (ss_DeltaPath (cp_State cp)) = sd;
  pu_text : representable (cp_State cp);
}.
Definition entry_for (cp : sessionStateCheckpoint) (name digest : string) : sessionStateCatalog :=
  catalog_entry (cp_State cp) (cp_Sequence cp) (cp_StateSHA256 cp) name digest.
Definition name_for (cp : sessionStateCheckpoint) (digest : string) : string :=
  stateCheckpointFilename (ss_Generation (cp_State cp)) (cp_Sequence cp) digest.
Lemma name_for_plain cp digest : String.prefix ".state-checkpoint-" (name_for cp digest) = false.
Proof using. exact (filename_not_dotted "state-checkpoint-" _ _ _). Qed.
Definition may_follow (o : option sessionStateCatalog) (cp : sessionStateCheckpoint) : Prop :=
  match o with Some c => ca_Generation c <= ss_Generation (cp_State cp) /\ ca_Sequence c <= cp_Sequence cp | None => True end.

Lemma validate_fields cp sd : validateStateCheckpoint sha256 json_Marshal cp sd = None ->
  cp_SessionID cp = ss_SessionID (cp_State cp) /\ cp_Sequence cp <> 0 /\ validStateSHA256 (cp_StateSHA256 cp) = true
  /\ validateSessionStateForDirectory (cp_State cp) sd = None
  /\ safeSessionID (ss_SessionID (cp_State cp)) = true /\ ss_Generation (cp_State cp) <> 0.
Proof using.
  unfold validateStateCheckpoint. destruct (_ || _) eqn:E1; [done|]. destruct (_ && _); [done|].
  destruct (validateSessionStateForDirectory _ _) eqn:E2; [done|]. intros _.
  unfold string_is in E1. rewrite !orb_false_iff, !negb_false_iff, Z.eqb_neq, bool_decide_eq_true in E1. destruct E1 as [[[_ E3] E4] E5].
  split_and!; try done.
  - unfold validateSessionStateForDirectory in E2. destruct (_ || _) eqn:E6 in E2; [done|]. rewrite !orb_false_iff, !negb_false_iff in E6.
    destruct E6 as [[_ E6] _]. unfold valid_state_fields in E6. rewrite !andb_true_iff in E6. apply E6.
  - unfold validateSessionStateForDirectory in E2. destruct (_ || _) eqn:E6 in E2; [done|]. rewrite !orb_false_iff, !negb_false_iff in E6.
    destruct E6 as [[_ E6] _]. unfold valid_state_fields in E6. rewrite !andb_true_iff, negb_true_iff, Z.eqb_neq in E6. apply E6.
Qed.
(** The catalog entry for a checkpoint file that is in place makes it the head. *)
Lemma entry_head cp data cd w : decodeStateCheckpoint sha256 json_Marshal decode_checkpoint data = Ok cp -> representable (cp_State cp) ->
  let digest := digestStateBytes sha256 data in let c := entry_for cp (name_for cp digest) digest in
  json_catalog c = Ok cd -> holds (name_for cp digest :: G) data w -> holds (catalog_of dir) (cd ++ [Byte.x0a]) w -> head c cp w.
Proof using Hsha Hcatalog.
  intros Hdec Ht digest c Ec Hdata Hc.
  assert (exists sd, validateStateCheckpoint sha256 json_Marshal cp sd = None) as [sd Hv].
  { unfold decodeStateCheckpoint in Hdec. destruct (decode_checkpoint data) as [cp'|]; [|done].
    destruct (validateStateCheckpoint _ _ _ _) eqn:E; [done|]. injection Hdec as <-. by eexists. }
  destruct (validate_fields _ _ Hv) as (H1 & H2 & H3 & H4 & H5 & H6).
  assert (valid_catalog c = true) as Hvalid.
  { unfold valid_catalog, c, entry_for, catalog_entry. cbn [ca_Version ca_SessionID ca_Generation ca_Sequence ca_StateSHA256 ca_CheckpointSHA256 ca_Checkpoint].
    rewrite H5, H3, (proj2 (Z.eqb_neq _ _) H2), (proj2 (Z.eqb_neq _ _) H6). unfold digest, digestStateBytes, Cow.digest.
    rewrite digest_valid by done. unfold name_for. rewrite filename_Base. unfold string_is. by rewrite bool_decide_eq_true_2. }
  split; [|done| |done].
  - exists (cd ++ [Byte.x0a]). split; [done|]. by apply Hcatalog.
  - exists data. split_and!; [done..|]. unfold Checkpoint.checkpoint_file. rewrite Hdec. unfold c, entry_for, catalog_entry, string_is. cbn. rewrite H1.
    by rewrite !bool_decide_eq_true_2.
Qed.
Lemma publishable_decoded sd cp d : publishable sd cp -> json_checkpoint cp = Ok d ->
  decodeStateCheckpoint sha256 json_Marshal decode_checkpoint (d ++ [Byte.x0a]) = Ok cp.
Proof using Hcheckpoint.
  intros [Hv Hd Ht] Ej. unfold decodeStateCheckpoint. rewrite (Hcheckpoint _ _ _ Ht Hv Ej), Hd, Hv. done.
Qed.

(** Nothing has happened to the head, or it is a new one for [cp]. *)
Definition moved (o : option sessionStateCatalog) (cp : sessionStateCheckpoint) (digest : string) (w : world) (r : result unit) (w' : world)
  : Prop :=
  let c := entry_for cp (name_for cp digest) digest in
  r <> Ok tt /\ steady (F o) L w w' \/ head c cp w' /\ intact (Some c) w' /\ not_older_than o c.

Lemma wp_catalog_head o cp data w : intact o w -> decodeStateCheckpoint sha256 json_Marshal decode_checkpoint data = Ok cp ->
  representable (cp_State cp) -> may_follow o cp -> let digest := digestStateBytes sha256 data in
  holds (name_for cp digest :: G) data w -> G ∈ w_dirs w -> wp (writeStateCatalog (entry_for cp (name_for cp digest) digest)) w (moved o cp digest w).
Proof using Hsha Hcatalog.
  intros Hi Hdec Ht Hfollow digest Hd HG.
  eapply wp_mono; [by apply wp_writeStateCatalog|]. intros r w2 [Hs2 [[Hr2 Hst]|(tp & n & cd & Ec & Hpub)]]; [by left|].
  right. set (c := entry_for cp (name_for cp digest) digest).
  assert (head c cp w2) as Hh.
  { eapply entry_head; try done.
    - refine (frame_file_data _ _ _ _ _ (proj2 (pb_framed _ _ _ _ _ _ _ Hpub)) _ Hd).
      intros [= _ E].
    - by eapply published_data. }
  split_and!; [done| |].
  - split; [apply Hs2..|]. split; [by exists cp|]. by apply (st_dirs _ _ _ _ Hs2).
  - destruct o as [c0|]; [|done]. exact Hfollow.
Qed.
Lemma wp_publish_head o sd cp d w : intact o w -> publishable sd cp -> may_follow o cp -> json_checkpoint cp = Ok d ->
  let data := d ++ [Byte.x0a] in let digest := digestStateBytes sha256 data in
  wp (writeImmutableStateCheckpoint (name_for cp digest) data ;;; writeStateCatalog (entry_for cp (name_for cp digest) digest)) w (moved o cp digest w).
Proof using Hsha Hcheckpoint Hcatalog.
  intros Hi Hp Hfollow Ej data digest. rewrite wp_bind.
  eapply wp_mono; [exact (wp_writeImmutable o (name_for cp digest) data w (name_for_plain cp digest) Hi)|].
  intros [[]|e] w1 [Hs1 Hr]; [|by left]. destruct (Hr eq_refl) as [Hd1 HG]. assert (intact o w1) as Hi1 by (by eapply steady_intact).
  eapply wp_mono; [apply (wp_catalog_head o cp data w1 Hi1 (publishable_decoded _ _ _ Hp Ej) (pu_text _ _ Hp) Hfollow Hd1 HG)|].
  intros r w2 [[Hr2 Hst]|?]; [left|by right]. split; [done|]. by eapply steady_trans.
Qed.

(** ** Publication *)

Local Abbreviation statePath := (state_of dir).
Local Abbreviation encodeSessionState := (encodeSessionState json_Marshal).

Lemma steady_head o c cp w0 w : intact o w0 -> o = Some c -> head c cp w0 -> steady (F o) L w0 w -> head c cp w.
Proof using.
  intros [Hw Hp _] -> [(d & Hd & Hc) Hv (f & Hf & Hdig & Hk) Ht] Hs. split; [|done| |done].
  - exists d. split; [|done]. eapply steady_data; try done. by left.
  - exists f. split; [|done]. eapply steady_data; try done. by right.
Qed.

(** The state [st] is current: its checkpoint is the head, and the durable state file holds it. *)
Definition state_file (st : SessionState) (w : world) : Prop :=
  exists data, encodeSessionState st = Ok data /\ holds statePath data w /\ durable w statePath.
Definition shows (st : SessionState) (w : world) : Prop := exists c cp, head c cp w /\ cp_State cp = st /\ state_file st w.
(** The head is what it was, or it is a new one for [st], published when [D] held. *)
Definition followed (o : option sessionStateCatalog) (st : SessionState) (D : Prop) (w0 w : world) : Prop :=
  steady (F o) L w0 w \/ exists c cp, head c cp w /\ intact (Some c) w /\ not_older_than o c /\ cp_State cp = st /\ D.
(** What is left after an attempt to publish [st]. *)
Definition published_state (o : option sessionStateCatalog) (st : SessionState) (D : Prop) (w0 : world) (r : result unit) (w : world) : Prop :=
  sound o w /\ (r = Ok tt -> shows st w) /\ followed o st D w0 w.
(** The files that hold the bytes of a session, and the files of the store. *)
Definition data_path (st : SessionState) (q : path) : Prop := q = ss_DeltaPath st \/ ss_BackingPath st = Some q.
Definition store_files (q : path) : Prop :=
  session_state_files statePath q \/ exists name store, q = String.append name ".lock" :: "locks"%string :: store.
Definition stored (st : SessionState) (w : world) : Prop := forall q, data_path st q -> ~ store_files q -> is_Some (w_names w !! q).

Lemma followed_steady o st D w0 w : steady (F o) L w0 w -> followed o st D w0 w.
Proof using. by left. Qed.
Lemma followed_trans o st (D D' : Prop) w0 w1 w : steady (F o) L w0 w1 -> (D -> D') -> followed o st D w1 w -> followed o st D' w0 w.
Proof using. intros Hs HD [H|(c & cp & H1 & H2 & H3 & H4 & H5)]; [left; by eapply steady_trans|right]. exists c, cp. split_and!; auto. Qed.
Lemma stored_untouched st w w1 : untouched store_files w w1 -> stored st w1 -> stored st w.
Proof using. intros Hu Hs q Hq Hn. rewrite <- (Hu q Hn). auto. Qed.
Lemma stored_same st w w1 : same_files w w1 -> stored st w1 -> stored st w.
Proof using. intros Hs Hst q Hq Hn. rewrite <- (proj1 Hs). auto. Qed.
Lemma published_quiet o st D w0 w e : intact o w0 -> steady (F o) L w0 w -> published_state o st D w0 (Err e) w.
Proof using. intros Hi Hs. split_and!; [apply intact_sound; by eapply steady_intact|done|by left]. Qed.

(** The temporary state file that a caller may name. *)
Definition spare (tmp : option path) : Prop :=
  match tmp with
  | None => True
  | Some tp => exists name, tp = name :: dir /\ name <> "state-catalog.json"%string /\ name <> "writer.lease"%string /\ name <> "journal.jsonl"%string
      /\ name <> "state.json"%string
  end.
Lemma spare_free tmp o : spare tmp -> match tmp with Some tp => free o tp | None => True end.
Proof using. destruct tmp as [tp|]; [|done]. intros (name & -> & H1 & H2 & H3 & _). by apply free_in_dir. Qed.

Lemma wp_commitPublished o tmp st w : intact o w -> spare tmp ->
  wp (commitPublishedSessionState json_Marshal statePath tmp st) w (fun r w' => steady (F o) L w w' /\
    (r = Ok tt -> state_file st w')).
Proof using.
  intros Hi Htmp. pose proof (head_managed o w) as HM. apply wp_keeps; [|by apply intact_steady|].
  { apply (keeps_commitPublishedSessionState json_Marshal dir (may := free o)); [apply free_primary|done|by apply free_in_dir|by apply spare_free]. }
  destruct tmp as [tp|]; cbn [commitPublishedSessionState].
  - unfold writeSessionStateWithTemporary. destruct (negb _); [done|]. rewrite wp_bind, wp_lift.
    destruct (StateFile.encodeSessionState json_Marshal st) as [data|e] eqn:E; [|done]. rewrite wp_bind, wp_wrap.
    eapply wp_mono; [apply wp_Create_excl, Hi|]. intros [f|e] w1 Hf; [|done]. destruct Hf as (Ht & Hp & Ha).
    eapply wp_mono; [apply wp_commitSessionState; try done; destruct Htmp as (name & -> & _ & _ & _ & Hn); by intros [=]|].
    intros r w2 [[_ Hr] _] ->. exists data. split; [done|]. by apply Hr.
  - eapply wp_mono; [apply wp_writeSessionState; [apply Hi|done]|]. intros r w1 (_ & Hr & _) ->.
    destruct (Hr eq_refl) as (data & ? & ? & ?). by exists data.
Qed.

Context (Hrange : forall d c, decode_catalog d = Ok c -> 0 <= ca_Sequence c < 2 ^ 64).
Context (Hdecode_errors : forall d e, decode_checkpoint d = Err e -> is_NotExist e = false).
Lemma head_sequence c cp w : head c cp w -> 0 <= ca_Sequence c < 2 ^ 64.
Proof using Hrange. intros [(d & _ & Hd) _ _ _]. by eapply Hrange. Qed.

(** Nothing but the files of the store is created, removed or renamed. *)
Lemma store_file_names : (forall store name, store_files (String.append name ".lock" :: "locks"%string :: store))
  /\ (forall name, String.prefix ".state-primary-" name = true -> store_files (name :: dir))
  /\ (forall name, String.prefix ".state-catalog-" name = true -> store_files (name :: dir))
  /\ store_files (catalog_of dir) /\ store_files (lease_of dir) /\ (forall name, store_files (name :: G))
  /\ (forall name, store_files (name :: orphans_of dir)) /\ store_files statePath.
Proof using.
  unfold store_files, session_state_files. split_and!; intros; [right; eauto|left..]; cbn; eauto 8.
  - right. right. right. left. eexists. split; [done|]. by rewrite H.
  - right. right. right. left. eexists. split; [done|]. by rewrite H, orb_true_r.
Qed.
Lemma keeps_untouched_reconcile w0 id : keeps (untouched store_files w0)
  (load_or_reconcile sha256 json_Marshal json_Unmarshal decode_checkpoint decode_catalog map_order dir id).
Proof using.
  destruct store_file_names as (H1 & H2 & H3 & H4 & H5 & H6 & H7 & _).
  set (none := fun B => fun _ : bytes => @Err B fuel_exhausted). apply (keeps_load_or_reconcile sha256 json_Marshal json_Unmarshal (none _) (fun _ => Err fuel_exhausted)
    decode_checkpoint (fun _ => Err fuel_exhausted) decode_catalog (none _) (none _) (fun _ _ => fail fuel_exhausted) "" 0 (fun _ _ => ret ∅) map_order
    (may := store_files));
    auto; intros; keeps.
Qed.

Lemma wp_load_or_reconcile o id w : intact o w ->
  wp (load_or_reconcile sha256 json_Marshal json_Unmarshal decode_checkpoint decode_catalog map_order dir id) w (fun r w' =>
    steady (F o) L w w' /\ match r with
                           | Ok (Ok chain) => head (ch_catalog chain) (ch_checkpoint chain) w'
                           | Ok (Err e) => o <> None -> is_NotExist e = false
                           | Err _ => True
                           end).
Proof using Hmap_order Hdecode_errors.
  intros Hi. assert (forall w1, intact o w1 ->
    wp (try_ (loadStateCheckpointChain sha256 json_Marshal decode_checkpoint decode_catalog dir id true)) w1 (fun r w' => same_files w1 w' /\
      match r with Ok (Ok chain) => head (ch_catalog chain) (ch_checkpoint chain) w' | Ok (Err e) => o <> None -> is_NotExist e = false | Err _ => True end))
    as Hload.
  { intros w1 Hi1. rewrite wp_try. apply wp_mono with (P := fun r w' => (o <> None -> found r) /\ same_files w1 w' /\
      forall chain, r = Ok chain -> loaded sha256 json_Marshal decode_checkpoint decode_catalog dir id true chain w1).
    - apply wp_conj; [|apply wp_loadStateCheckpointChain]. destruct o as [c|]; [|by intros Hn; destruct Hn]. destruct Hi1 as [Hw _ [[cp Hcp] HG]].
      eapply wp_mono; [by apply (found_loadStateCheckpointChain sha256 json_Marshal decode_checkpoint decode_catalog dir Hdecode_errors id true c cp)|].
      by intros r w' Hr _.
    - intros r w' (Hf & Hs & Hr). split; [done|]. destruct r as [chain|e].
      + destruct (Hr chain eq_refl) as (Hh & _). by eapply same_files_head.
      + intros Ho. exact (Hf Ho e eq_refl). }
  unfold load_or_reconcile. rewrite wp_bind. eapply wp_mono; [by apply Hload|]. intros [[chain|e]|e] w1 [Hs1 H1];
    (assert (steady (F o) L w w1) as Hst1 by (eapply steady_same; [by apply intact_steady|done])); [by split| |by split].
  rewrite wp_bind. eapply wp_mono; [apply (wp_kept (same_files w)); [apply keeps_regularStateCatalogPresent, _|done]|].
  intros [[]|e2] w2 Hs2; (assert (steady (F o) L w w2) as Hst2 by (eapply steady_same; [by apply intact_steady|done])); [|by split|by split].
  rewrite wp_bind, wp_wrap. assert (intact o w2) as Hi2 by (by eapply steady_intact).
  eapply wp_mono; [by apply wp_reconcile|]. intros [[]|e3] w3 Hs3; [|split; [by eapply steady_trans|done]].
  eapply wp_mono; [apply Hload; by eapply steady_intact|]. intros r w4 [Hs4 Hr]. split; [|done].
  eapply steady_same; [|done]. by eapply steady_trans.
Qed.

(** A captured file is there. *)
Lemma wp_captureRegular p w : wp (captureRegularFileIdentity sha256 p) w (fun r w' => same_files w w' /\
  forall identity, r = Ok identity -> is_Some (w_names w !! p) /\ fid_Path identity = p).
Proof using.
  apply wp_keeps; [apply keeps_captureRegularFileIdentity, _|done|]. unfold captureRegularFileIdentity.
  rewrite wp_bind. apply wp_syscall; intros fs; [done|]. unfold wp at 1. cbn.
  destruct (w_names w !! p) as [n|]; [|by case_decide]. cbn. destruct (w_inodes w !! n); [|done]. cbn.
  apply wp_mono with (P := fun r _ => forall identity, r = Ok identity -> fid_Path identity = p); [|intros r w' Hr identity E; split; [by eexists|auto]].
  do 2 (apply wp_step_any; [done|]; intros ? ?). destruct (_ || _); [apply wp_step_any; [done|]; done|].
  do 2 (apply wp_step_any; [done|]; intros ? ?). match goal with |- wp (match ?a with _ => _ end) _ _ => destruct a end; [|done].
  match goal with |- wp (match ?a with _ => _ end) _ _ => destruct a end; [done|].
  apply wp_step_any; [done|]; intros ? ?. destruct (_ || _); [done|]. rewrite wp_ret. by intros identity [= <-].
Qed.
Lemma wp_captureCheckpointFile p sources w : wp (captureCheckpointFile sha256 p sources) w (fun r w' => same_files w w' /\
  forall identity, r = Ok identity -> sources = ∅ -> is_Some (w_names w !! p)).
Proof using.
  unfold captureCheckpointFile. rewrite wp_bind. eapply wp_mono; [apply wp_captureRegular|]. intros [identity|e] w1 [Hs Hr]; [|by split].
  rewrite wp_ret. split; [done|]. intros identity' _ ->. rewrite lookup_empty in Hr. by apply (Hr identity).
Qed.
Lemma wp_capture_optional f p sources w : wp (capture_optional sha256 f p sources) w (fun r w' => same_files w w' /\
  forall identity, r = Ok identity -> sources = ∅ -> forall q, p = Some q -> is_Some (w_names w !! q)).
Proof using.
  destruct p as [p|]; cbn [capture_optional]; [|by split]. rewrite wp_bind, wp_wrap.
  eapply wp_mono; [apply wp_captureCheckpointFile|]. intros [identity|e] w1 [Hs Hr]; [|by split]. rewrite wp_ret. split; [done|].
  intros _ _ Hsources q [= <-]. by apply (Hr identity).
Qed.

(** What a new checkpoint says. *)
Lemma wp_buildStateCheckpoint st ssha prev seq sd sources w :
  wp (buildStateCheckpoint sha256 json_Marshal json_manifest st ssha prev seq sd sources) w (fun r w' => same_files w w' /\
    forall cp, r = Ok cp -> cp_State cp = st /\ cp_StateSHA256 cp = ssha /\ cp_Sequence cp = seq /\ validateStateCheckpoint sha256 json_Marshal cp sd = None
      /\ (sources = ∅ -> stored st w)).
Proof using.
  apply wp_keeps; [apply keeps_buildStateCheckpoint, _|done|]. unfold buildStateCheckpoint.
  rewrite wp_bind, wp_wrap. eapply wp_mono; [apply (wp_kept (same_files w)); [apply (keeps_captureManifestIdentity _ _ (same_files w))|done]|].
  intros [[manifest m]|e] w1 Hs1; [|done]. destruct (negb _); [done|].
  rewrite wp_bind, wp_wrap. eapply wp_mono; [apply wp_captureCheckpointFile|]. intros [delta|e] w2 [Hs2 Hdelta]; [|done].
  rewrite wp_bind. eapply wp_mono; [apply wp_capture_optional|]. intros [backing|e] w3 [Hs3 Hbacking]; [|done].
  apply wp_step_any; [done|]. intros snapshot w4. match goal with |- wp (if ?b then _ else _) _ _ => destruct b end; [done|].
  rewrite wp_bind, wp_throw. destruct (validateStateCheckpoint _ _ _ _) eqn:E; [done|]. rewrite wp_ret. intros cp [= <-]. split_and!; try done.
  intros Hsources q [-> |Hq] _; rewrite <- (proj1 Hs1).
  - by apply (Hdelta _ eq_refl).
  - rewrite <- (proj1 Hs2). by apply (Hbacking _ eq_refl).
Qed.

Lemma moved_commit o cp digest tmp st (D : Prop) (m : OS unit) w0 w : intact o w -> spare tmp -> cp_State cp = st -> D ->
  wp m w0 (moved o cp digest w) -> wp (m ;;; commitPublishedSessionState json_Marshal statePath tmp st) w0 (published_state o st D w).
Proof using.
  intros Hi Htmp Est HD Hm. rewrite wp_bind. eapply wp_mono; [exact Hm|]. intros r w1 [[Hr Hs]|(Hh & Hi1 & Hn)].
  - destruct r as [[]|e]; [done|]. by apply published_quiet.
  - set (c := entry_for cp (name_for cp digest) digest) in *.
    assert (forall w2, steady (F (Some c)) L w1 w2 -> sound o w2 /\ followed o st D w w2 /\ head c cp w2) as Hnew.
    { intros w2 Hs2. assert (intact (Some c) w2) as Hi2 by (by eapply steady_intact).
      assert (head c cp w2) as Hh2 by (exact (steady_head (Some c) c cp w1 w2 Hi1 eq_refl Hh Hs2)). split_and!; [by exists (Some c)| |done]. right. by exists c, cp. }
    destruct r as [[]|e]; [|destruct (Hnew w1) as (? & ? & _); [by apply intact_steady|by split_and!]].
    eapply wp_mono; [by apply wp_commitPublished|]. intros r w2 [Hs2 Hr2]. destruct (Hnew w2 Hs2) as (? & ? & ?). split_and!; [done| |done].
    intros E. exists c, cp. split_and!; [done..|by apply Hr2].
Qed.

(** A new checkpoint for [st] and then the state file. *)
Lemma wp_publish_new (o : option sessionStateCatalog) (tmp : option path) (st : SessionState) (ssha prev : string) (seq : Z) (sd : path) (sources : gmap path path) initial (D : Prop) w :
  ((sources = ∅ -> stored st w) -> D) -> intact o w -> representable st -> filepath_Dir (ss_DeltaPath st) = sd -> spare tmp ->
  (seq <> 0 -> match o with Some c => ca_Generation c <= ss_Generation st /\ ca_Sequence c <= seq | None => True end) ->
  wp (let* checkpoint := buildStateCheckpoint sha256 json_Marshal json_manifest st ssha prev seq sd sources in
      publish_checkpoint sha256 json_checkpoint json_catalog dir (catalog_entry st (cp_Sequence checkpoint) ssha) checkpoint initial ;;;
      commitPublishedSessionState json_Marshal statePath tmp st) w (published_state o st D w).
Proof using Hsha Hcheckpoint Hcatalog.
  intros HD Hi Htext Hd Htmp Hfollow.
  assert (forall w1 e, same_files w w1 -> published_state o st D w (Err e) w1) as Hquiet.
  { intros w1 e Hs. apply published_quiet; [done|]. eapply steady_same; [by apply intact_steady|done]. }
  rewrite wp_bind. eapply wp_mono; [apply wp_buildStateCheckpoint|]. intros [cp|e] w1 [Hs1 Hcp]; [|by apply Hquiet].
  destruct (Hcp cp eq_refl) as (<- & <- & Eseq & Hv & Hst). assert (intact o w1) as Hi1 by (by eapply intact_same).
  unfold publish_checkpoint, encodeStateCheckpoint. destruct (json_checkpoint cp) as [d|e] eqn:Ej.
  2: { rewrite wp_bind, wp_bind, wp_lift. by apply Hquiet. }
  apply (moved_commit o cp (digestStateBytes sha256 (d ++ [Byte.x0a])) tmp (cp_State cp)); auto. rewrite wp_bind, wp_lift.
  rewrite wp_bind. eapply wp_mono with (P := fun _ w' => same_files w w').
  { destruct initial; [apply (wp_kept (same_files w)); [apply keeps_validateInitial, _|done]|done]. }
  intros [[]|e] w2 Hs2; [|left; split; [done|]; eapply steady_same; [by apply intact_steady|done]].
  assert (may_follow o cp) as Hmay.
  { unfold may_follow. rewrite Eseq. destruct (validate_fields _ _ Hv) as (_ & Hnz & _). rewrite Eseq in Hnz. by apply Hfollow. }
  assert (intact o w2) as Hi2 by (exact (intact_same o w w2 Hi Hs2)). assert (publishable sd cp) as Hpub by by split.
  eapply wp_mono; [exact (wp_publish_head o sd cp d w2 Hi2 Hpub Hmay Ej)|].
  intros r w3 [[Hr Hs]|?]; [left|by right]. split; [done|]. eapply steady_trans; [|done]. eapply steady_same; [by apply intact_steady|done].
Qed.

Definition published (o : option sessionStateCatalog) (st : SessionState) (sources : gmap path path) (w : world) : result unit -> world -> Prop :=
  published_state o st (sources = ∅ -> stored st w) w.
Lemma wp_publishAtLocked (o : option sessionStateCatalog) (tmp : option path) (st : SessionState) (sd : path) (sources : gmap path path) b w :
  intact o w -> representable st -> filepath_Dir (ss_DeltaPath st) = sd -> spare tmp ->
  wp (publishSessionStateAtLocked sha256 json_Marshal json_Unmarshal json_checkpoint decode_checkpoint json_catalog decode_catalog json_manifest
    map_order statePath tmp st sd sources b) w (published o st sources w).
Proof using Hsha Hcheckpoint Hcatalog Hrange Hdecode_errors Hmap_order.
  intros Hi Htext Hd Htmp. assert (forall w1 e, steady (F o) L w w1 -> published o st sources w (Err e) w1) as Hquiet by (intros; by apply published_quiet).
  unfold publishSessionStateAtLocked. rewrite wp_bind, wp_lift. destruct (StateFile.encodeSessionState json_Marshal st) as [data|e] eqn:Ee.
  2: { apply Hquiet. by apply intact_steady. }
  rewrite wp_bind. change (filepath_Dir statePath) with dir.
  eapply wp_mono; [apply wp_conj; [by apply wp_load_or_reconcile|apply (wp_kept (untouched store_files w)); [apply keeps_untouched_reconcile|done]]|].
  intros [[chain|e]|e] w1 [[Hs1 H1] Hu1]; [..|by apply Hquiet]; (assert (intact o w1) as Hi1 by (by eapply steady_intact));
    (assert (forall r w', published_state o st (sources = ∅ -> stored st w) w1 r w' -> published o st sources w r w') as Hfrom
      by (intros r w' (? & ? & ?); split_and!; [done..|eapply followed_trans; [exact Hs1| |done]; done]));
    (assert ((sources = ∅ -> stored st w1) -> sources = ∅ -> stored st w) as Hst by (intros Hst E; eapply stored_untouched; eauto)).
  - destruct (head_present _ _ _ _ H1 Hi1) as (c & -> & ->). pose proof (head_sequence _ _ _ H1) as Hseq. set (c := ch_catalog chain) in *.
    destruct (ca_Generation c >? ss_Generation st) eqn:Egt; [by apply Hquiet|]. destruct (_ && negb _); [by apply Hquiet|].
    assert (u64 (ca_Sequence c + 1) <> 0 -> ca_Generation c <= ss_Generation st /\ ca_Sequence c <= u64 (ca_Sequence c + 1)) as Hnext.
    { intros Hnz. split; [lia|]. unfold u64 in *. destruct (decide (ca_Sequence c + 1 = 2 ^ 64)) as [E|E].
      - rewrite E in Hnz. by rewrite Z.mod_same in Hnz.
      - rewrite Z.mod_small; lia. }
    destruct (_ && bool_decide _) eqn:Esame.
    + apply andb_true_iff in Esame as [_ Esame%bool_decide_eq_true]. rewrite wp_bind, wp_try.
      eapply wp_mono; [apply (wp_kept (same_files w1)); [apply keeps_verifyArtifactsForChain, _|done]|].
      intros [[]|e] w2 Hs2; (assert (intact (Some c) w2) as Hi2 by (by eapply intact_same)).
      * eapply wp_mono; [by apply wp_commitPublished|]. intros r w3 [Hs3 Hr]. apply Hfrom.
        assert (steady (F (Some c)) L w1 w3) as Hs13 by (eapply steady_trans; [|done]; eapply steady_same; [by apply intact_steady|done]).
        split_and!; [apply intact_sound; by eapply steady_intact| |by left]. intros E. exists c, (ch_checkpoint chain). split_and!; [|done|by apply Hr].
        eapply (steady_head (Some c)); [done..| |done]. by eapply same_files_head.
      * eapply wp_mono; [eapply (wp_publish_new (Some c)) with (D := sources = ∅ -> stored st w); try done; intros Hs; apply Hst; intros E; by apply (stored_same st w1 w2), Hs|].
        intros r w3 (? & ? & Hf3). apply Hfrom. split_and!; [done..|]. eapply followed_trans; [|exact (fun x => x)|exact Hf3].
        eapply steady_same; [by apply intact_steady|done].
    + eapply wp_mono; [by eapply wp_publish_new|]. exact Hfrom.
  - destruct (is_NotExist e) eqn:Ene; [|by apply Hquiet]. destruct o as [c|].
    + by specialize (H1 ltac:(done)).
    + eapply wp_mono; [by eapply wp_publish_new|]. exact Hfrom.
Qed.

(** Under the checkpoint lock. *)
Lemma head_locked c cp w l : head c cp w -> head c cp (set_locked w l).
Proof using. by intros [? ? ? ?]. Qed.
Lemma intact_locked o w l : intact o w -> intact o (set_locked w l).
Proof using. intros Hi. eapply steady_intact; [done|]. apply steady_locked. by apply intact_steady. Qed.
Lemma keeps_checkpoint_unlock (P : world -> Prop) `{TickStable P} lock : (forall w l, P w -> P (set_locked w l)) -> keeps P (operation_lock_Close (Some lock)).
Proof using.
  intros Hl. unfold operation_lock_Close, guard_Close, unlockLease, flock_release. keeps. apply keeps_syscall; [done|]. intros w Hw. by apply Hl.
Qed.
#[local] Instance followed_stable o st D w0 : TickStable (followed o st D w0).
Proof using.
  intros w fs [Hs|(c & cp & H1 & H2 & H3)]; [left; by apply tick_stable|right]. exists c, cp. split; [by destruct H1|]. split; [by apply tick_stable|done].
Qed.
#[local] Instance published_state_stable o st D w0 r : TickStable (published_state o st D w0 r).
Proof using.
  intros w fs (Hs & Hr & Hf). split; [by apply tick_stable|]. split; [|by apply tick_stable]. intros E.
  destruct (Hr E) as (c & cp & [? ? ? ?] & ? & data & ? & ? & []). exists c, cp. split; [by split|]. split; [done|]. exists data. split_and!; [done..|by split].
Qed.
Lemma followed_locked o st D w0 w l : followed o st D w0 w -> followed o st D w0 (set_locked w l).
Proof using.
  intros [Hs|(c & cp & H1 & H2 & H3)]; [left; by apply steady_locked|right]. exists c, cp. split; [by apply head_locked|]. split; [by apply intact_locked|done].
Qed.
Lemma published_state_locked o st D w0 r w l : published_state o st D w0 r w -> published_state o st D w0 r (set_locked w l).
Proof using.
  intros ((o' & Hi & Ho) & Hr & Hf). split; [exists o'; split; [by apply intact_locked|done]|]. split; [|by apply followed_locked]. intros E.
  destruct (Hr E) as (c & cp & Hh & ? & data & ? & ? & []). exists c, cp. split; [by apply head_locked|]. split; [done|].
  exists data. split_and!; [done..|by split].
Qed.
Lemma keeps_checkpoint_lock o w0 id : keeps (steady (F o) L w0) (acquireSessionCheckpointLock lock_attempts dir id).
Proof using.
  pose proof (head_managed o w0) as HM. unfold acquireSessionCheckpointLock.
  apply (keeps_AcquireOperationLockWithin (made := free o)), free_lock.
Qed.

Lemma keeps_untouched_lock w0 id : keeps (untouched store_files w0) (acquireSessionCheckpointLock lock_attempts dir id).
Proof using. unfold acquireSessionCheckpointLock. apply (keeps_AcquireOperationLockWithin (made := store_files)), store_file_names. Qed.
Lemma wp_publishAt (o : option sessionStateCatalog) (tmp : option path) (st : SessionState) (sources : gmap path path) b w :
  intact o w -> representable st -> filepath_Dir (ss_DeltaPath st) = dir -> spare tmp ->
  wp (publishSessionStateAt sha256 json_Marshal json_Unmarshal json_checkpoint decode_checkpoint json_catalog decode_catalog json_manifest
    lock_attempts map_order statePath tmp st dir sources b) w (published o st sources w).
Proof using Hsha Hcheckpoint Hcatalog Hrange Hdecode_errors Hmap_order.
  intros Hi Htext Hd Htmp. unfold publishSessionStateAt. rewrite wp_bind, wp_throw.
  destruct (validateSessionStateForDirectory st dir); [apply published_quiet; [done|by apply intact_steady]|].
  destruct b; [by apply wp_publishAtLocked|]. rewrite wp_bind.
  eapply wp_mono; [apply wp_conj; [apply (wp_kept (steady (F o) L w)); [apply keeps_checkpoint_lock|by apply intact_steady]|
    apply (wp_kept (untouched store_files w)); [apply keeps_untouched_lock|done]]|].
  intros [lock|e] w1 [Hs1 Hu1]; (assert (intact o w1) as Hi1 by (by eapply steady_intact)); [|by apply published_quiet].
  rewrite wp_defer. eapply wp_mono; [by apply (wp_publishAtLocked o)|]. intros r w2 (? & ? & Hf).
  unfold published. apply (wp_kept (published_state o st (sources = ∅ -> stored st w) w r)); [apply keeps_checkpoint_unlock; [apply _|]; intros w3 l; apply published_state_locked|].
  split_and!; [done..|]. eapply followed_trans; [done| |done]. intros Hst E. eapply stored_untouched; eauto.
Qed.

(** ** Refreshing *)

Context (Hdeletion : forall P `{TickStable P} p id, keeps P (LoadSessionDeletion p id)).

Lemma wp_buildRefreshed st ssha prev seq current id w :
  wp (buildRefreshedStateCheckpoint sha256 json_Marshal st ssha prev seq dir current id) w (fun r w' => same_files w w' /\
    forall cp, r = Ok cp -> cp_State cp = st /\ cp_StateSHA256 cp = ssha /\ cp_Sequence cp = seq /\ validateStateCheckpoint sha256 json_Marshal cp dir = None).
Proof using.
  apply wp_keeps; [apply keeps_buildRefreshedStateCheckpoint, _|done|]. unfold buildRefreshedStateCheckpoint.
  destruct (_ || _) eqn:E; [done|]. unfold string_is in E. rewrite !orb_false_iff, !negb_false_iff, !bool_decide_eq_true in E. destruct E as [Est Ess].
  apply wp_step_any; [done|]. intros identity w1. destruct (ss_BackingPath st); rewrite wp_bind, wp_throw;
    (destruct (validateStateCheckpoint _ _ _ _) eqn:E; [done|]); rewrite wp_ret; by intros cp [= <-].
Qed.
Lemma keeps_remove_old o w0 c old new : o = Some c -> ca_Checkpoint c = new -> keeps (steady (F o) L w0) (remove_superseded dir old new).
Proof using.
  intros -> Hn. pose proof (head_managed (Some c) w0) as HM. unfold remove_superseded, string_is. case_bool_decide as E; [keeps|].
  keeps. apply md_Remove, free_generation. cbn. congruence.
Qed.

Definition refreshed (o : option sessionStateCatalog) (st : SessionState) (w0 : world) (r : result unit) (w : world) : Prop :=
  followed o st True w0 w /\ (r = Ok tt -> exists c cp, head c cp w /\ cp_State cp = st).
Lemma followed_sound o st D w0 w : intact o w0 -> followed o st D w0 w -> sound o w.
Proof using.
  intros Hi [Hs|(c & cp & _ & Hc & Hn & _)]; [apply intact_sound; by eapply steady_intact|]. by exists (Some c).
Qed.
Lemma wp_refreshLocked o st id w : intact o w -> representable st -> filepath_Dir (ss_DeltaPath st) = dir ->
  wp (refreshSessionStateCheckpointWithActiveIdentityLocked sha256 json_Marshal json_Unmarshal json_checkpoint decode_checkpoint json_catalog
    decode_catalog decode_pin LoadSessionDeletion map_order statePath st id) w (refreshed o st w).
Proof using Hsha Hcheckpoint Hcatalog Hrange Hmap_order Hdeletion.
  intros Hi Htext Hd. assert (forall w1, same_files w w1 -> steady (F o) L w w1) as Hsame by (intros w1 Hs; eapply steady_same; [by apply intact_steady|done]).
  assert (forall w1 e, same_files w w1 -> refreshed o st w (Err e) w1) as Hquiet by (intros w1 e Hs; split; [left; auto|done]).
  unfold refreshSessionStateCheckpointWithActiveIdentityLocked. change (filepath_Dir statePath) with dir.
  rewrite wp_bind. eapply wp_mono; [apply (wp_kept (same_files w)); [apply keeps_wrap, keeps_readSessionState, _|done]|].
  intros [[[persisted data] err]|e] w1 Hs1; [|by apply Hquiet]. rewrite wp_bind, wp_throw. destruct err; [by apply Hquiet|]. cbn [option_map].
  destruct (negb _); [by apply Hquiet|]. rewrite wp_bind, wp_wrap. eapply wp_mono; [apply wp_loadCatalogStateCheckpoint|].
  intros [chain|e] w2 [Hs2 Hc]; (assert (same_files w w2) as Hs02 by (by eapply same_files_trans)); [|by apply Hquiet].
  destruct (Hc chain eq_refl) as [Hh _]. assert (intact o w1) as Hi1 by (by eapply intact_same).
  destruct (head_present _ _ _ _ Hh Hi1) as (c & -> & ->). pose proof (head_sequence _ _ _ Hh) as Hseq.
  destruct (_ || _) eqn:E; [by apply Hquiet|]. unfold string_is in E. rewrite orb_false_iff, !negb_false_iff, !bool_decide_eq_true in E. destruct E as [Ess Est].
  rewrite wp_bind. eapply wp_mono; [apply (wp_kept (same_files w)); [apply (keeps_refresh_predecessor _ _ _ _ _ _ (same_files w)); intros; apply Hdeletion, _|done]|].
  intros [[previous removeSuperseded]|e] w3 Hs3; [|by apply Hquiet]. rewrite wp_bind. eapply wp_mono; [apply wp_buildRefreshed|].
  intros [cp|e] w4 [Hs4 Hcp]; (assert (same_files w w4) as Hs04 by (by eapply same_files_trans)); [|by apply Hquiet].
  destruct (Hcp cp eq_refl) as (Ecp & Ecs & Ecseq & Hv). destruct (sameStateCheckpointArtifacts _ _).
  { split; [left; auto|]. intros _. exists (ch_catalog chain), (ch_checkpoint chain). split; [|done].
    eapply same_files_head; [|exact Hh]. eapply same_files_trans; [by apply same_files_sym|done]. }
  rewrite wp_bind, wp_lift. unfold encodeStateCheckpoint. destruct (json_checkpoint cp) as [d|e] eqn:Ej; [|by apply Hquiet].
  set (c := ch_catalog chain) in *. assert (intact (Some c) w4) as Hi4 by exact (intact_same _ w w4 Hi Hs04).
  assert (publishable dir cp) as Hpub by (split; [done|by rewrite Ecp|by rewrite Ecp]).
  assert (may_follow (Some c) cp) as Hmay.
  { cbn. destruct (validate_fields _ _ Hv) as (_ & Hnz & _). rewrite Ecseq in *. rewrite Ecp. destruct Hh as [_ _ _ (_ & Hg & _)]. fold c in Hg.
    rewrite Est in Hg. split; [lia|]. unfold u64 in *. destruct (decide (ca_Sequence c + 1 = 2 ^ 64)) as [E|E].
    - rewrite E in Hnz. by rewrite Z.mod_same in Hnz.
    - rewrite Z.mod_small; lia. }
  pose proof (wp_publish_head (Some c) dir cp d w4 Hi4 Hpub Hmay Ej) as Hwp. cbv zeta in Hwp. unfold name_for, entry_for in Hwp. rewrite Ecp, Ecs in Hwp.
  apply wp_assoc. rewrite wp_bind. eapply wp_mono; [exact Hwp|]. clear Hwp. intros r w5 [[Hr Hs5]|(Hh5 & Hi5 & Hn5)].
  { destruct r as [[]|e]; [done|]. split; [|done]. left. by eapply steady_trans; [apply Hsame|]. }
  unfold entry_for, name_for in *. rewrite Ecp, Ecs in *.
  set (digest := digestStateBytes sha256 (d ++ [Byte.x0a])) in *. set (name := stateCheckpointFilename _ _ _) in *.
  set (c' := catalog_entry st (cp_Sequence cp) _ name digest) in *.
  assert (forall w6 r, steady (F (Some c')) L w5 w6 -> refreshed (Some c) st w r w6) as Hnew.
  { intros w6 r6 Hs6. assert (head c' cp w6) as Hh6 by exact (steady_head (Some c') c' cp w5 w6 Hi5 eq_refl Hh5 Hs6).
    split; [right; exists c', cp; split_and!; [done|by eapply steady_intact|done..]|]. intros _. by exists c', cp. }
  destruct r as [[]|e]; [|apply Hnew; by apply intact_steady].
  rewrite wp_bind. eapply wp_mono with (P := fun _ w' => steady (F (Some c')) L w5 w').
  { apply (wp_kept (steady (F (Some c')) L w5)); [|by apply intact_steady]. destruct removeSuperseded; [|keeps]. by eapply keeps_remove_old. }
  intros [[]|e] w6 Hs6; [|by apply Hnew]. eapply wp_mono; [apply (wp_reconcile (Some c')); by eapply steady_intact|].
  intros r w7 Hs7. apply Hnew. by eapply steady_trans.
Qed.

Lemma sound_locked o w l : sound o w -> sound o (set_locked w l).
Proof using. intros (o' & Hi & Ho). exists o'. split; [by apply intact_locked|done]. Qed.
Lemma wp_refresh o st id w : intact o w -> representable st -> filepath_Dir (ss_DeltaPath st) = dir ->
  wp (refreshSessionStateCheckpointWithActiveIdentity sha256 json_Marshal json_Unmarshal json_checkpoint decode_checkpoint json_catalog
    decode_catalog decode_pin LoadSessionDeletion lock_attempts map_order statePath st id) w (refreshed o st w).
Proof using Hsha Hcheckpoint Hcatalog Hrange Hmap_order Hdeletion.
  intros Hi Htext Hd. unfold refreshSessionStateCheckpointWithActiveIdentity. change (filepath_Dir statePath) with dir. rewrite wp_bind, wp_throw.
  destruct (validateSessionStateForDirectory st dir); [split; [left; by apply intact_steady|done]|]. rewrite wp_bind.
  eapply wp_mono; [apply (wp_kept (steady (F o) L w)); [apply keeps_checkpoint_lock|by apply intact_steady]|].
  intros [lock|e] w1 Hs1; (assert (intact o w1) as Hi1 by (by eapply steady_intact)); [|split; [by left|done]].
  rewrite wp_defer. eapply wp_mono; [by apply (wp_refreshLocked o)|]. intros r w2 [Hf Hr].
  apply (wp_kept (refreshed o st w r)).
  - apply keeps_checkpoint_unlock.
    + intros w3 fs [Hf3 Hr3]. split; [by apply tick_stable|]. intros E. destruct (Hr3 E) as (c & cp & [] & ?). by exists c, cp.
    + intros w3 l [Hf3 Hr3]. split; [by apply followed_locked|]. intros E. destruct (Hr3 E) as (c & cp & ? & ?). exists c, cp. split; [by apply head_locked|done].
  - split; [|done]. by eapply followed_trans.
Qed.

(** ** Loading and recovery *)

(** A decoded state can be encoded again; so can one with another digest or generation. *)
Context (Hdecoded : forall d st, json_Unmarshal d = Ok st -> representable st)
  (Hupgraded : forall st d, representable st -> representable (upgraded_state st (digestStateBytes sha256 d)))
  (Hadvanced : forall st d, representable st -> representable (advanced st (digestStateBytes sha256 d)))
  (Hjournal : forall P `{TickStable P} p id, keeps P (legacyMigrationJournalData p id)).

(** The state file, if it can be decoded, has the delta directly in the directory. *)
Definition direct (st : SessionState) : Prop := filepath_Dir (ss_DeltaPath st) = dir.
Definition flat (w : world) : Prop := forall d st, file_data w statePath = Some d -> json_Unmarshal d = Ok st -> direct st.
Definition good_state (st : SessionState) : Prop := representable st /\ (validateSessionStateForDirectory st dir = None -> direct st).
Definition loaded_state (o : option sessionStateCatalog) (r : result SessionState) (w : world) : Prop :=
  sound o w /\ forall st, r = Ok st -> good_state st.

Lemma wp_readSessionState p w : wp (readSessionState json_Unmarshal p) w (fun r w' => same_files w w' /\
  forall st d err, r = Ok (st, d, err) -> json_Unmarshal d = Ok st /\ file_data w p = Some d).
Proof using.
  apply wp_keeps; [apply keeps_readSessionState, _|done|]. unfold readSessionState. rewrite wp_bind.
  eapply wp_mono; [apply (wp_kept (same_files w)); [apply keeps_Stat, _|done]|]. intros [info|e] w1 Hs1; [|done]. destruct (negb _); [done|].
  rewrite wp_bind. eapply wp_mono; [apply wp_ReadFile|]. intros [d|e] w2 [Hs2 Hd]; [|done]. specialize (Hd d eq_refl).
  rewrite (same_files_data w) in Hd by done. rewrite wp_bind, wp_lift. destruct (json_Unmarshal d) as [st|] eqn:E; [|done].
  destruct (check_state st); try done; rewrite wp_ret; by intros st' d' err [= <- <- <-].
Qed.
Lemma wp_captureManifestIdentity p id n dg w : wp (captureManifestIdentity sha256 json_manifest p id n dg) w (fun r w' => same_files w w' /\
  forall identity m, r = Ok (identity, m) -> exists d, fid_SHA256 identity = digestStateBytes sha256 d).
Proof using.
  apply wp_keeps; [apply (keeps_captureManifestIdentity _ _ (same_files w))|done|]. unfold captureManifestIdentity.
  destruct (manifest_store _); [|done]. do 2 (apply wp_step_any; [done|]; intros ? ?). destruct (negb _); [done|].
  do 2 (apply wp_step_any; [done|]; intros ? ?). destruct (_ || _); [done|]. apply wp_step_any; [done|]; intros read ?.
  apply wp_step_any; [done|]; intros closeErr ?. destruct read as [data|]; [|done]. destruct closeErr; [done|]. apply wp_step_any; [done|]; intros ? ?. destruct (_ || _); [done|].
  apply wp_step_any; [done|]; intros ? ?. destruct (_ || _); [done|]. rewrite wp_ret. intros identity m [= <- _]. by exists data.
Qed.

(** The lease is another file: the state file is as before. *)
Lemma wp_lease o w : intact o w -> wp (acquireWriterLease pid (lease_of dir)) w (fun r w' => steady (F o) L w w' /\ (flat w -> flat w')).
Proof using.
  intros Hi. set (F' := fun q => F o q \/ q = statePath).
  assert (forall q, F' q -> ~ L q) as HFL by (intros q [Hq| ->]; [by eapply head_not_leased|by apply not_leased]).
  pose proof (steady_managed F' L w HFL) as HM. pose proof Hi as [Hw Hp _].
  eapply wp_mono; [apply (wp_kept (steady F' L w)); [apply (keeps_acquireWriterLease (leased := L)); by left|by apply steady_refl]|].
  intros r w1 Hs. split; [eapply steady_weaken; [|exact Hs]; intros q Hq; by left|]. intros Hflat d st Hd. apply Hflat.
  unfold file_data, inode_of in *. rewrite (st_names _ _ _ _ Hs) in Hd by (by right).
  destruct (w_names w !! statePath) as [n|] eqn:Hn; [|done]. cbn in *. destruct (wf_names _ Hw _ _ Hn) as [j Hj].
  destruct (st_inodes _ _ _ _ Hs n j Hj) as (j' & Hj' & Hk & _); [apply (private_not_mine statePath); [done..|by apply not_leased|done]|].
  rewrite Hj' in Hd. rewrite Hj. cbn in *. by rewrite <- Hk.
Qed.
Lemma keeps_release (P : world -> Prop) `{TickStable P} f : (forall w l, P w -> P (set_locked w l)) -> keeps P (release_lease f).
Proof using. intros Hl. unfold release_lease, unlockLease, flock_release. keeps. apply keeps_syscall; [done|]. intros w Hw. by apply Hl. Qed.

Lemma wp_migrate o w : intact o w -> flat w ->
  wp (migrateLegacySessionState sha256 json_Marshal json_Unmarshal decode_state json_checkpoint decode_checkpoint json_catalog decode_catalog
    json_manifest pid lock_attempts legacyMigrationJournalData map_order statePath) w (loaded_state o).
Proof using Hsha Hcheckpoint Hcatalog Hrange Hdecode_errors Hmap_order Hdecoded Hupgraded Hjournal.
  intros Hi Hflat. unfold migrateLegacySessionState. destruct (canonical_state statePath) as [[d id]|] eqn:Ecan; [|split; [by apply intact_sound|done]].
  apply canonical_state_Dir in Ecan as ->. change (filepath_Dir statePath) with dir.
  rewrite wp_bind, wp_wrap. eapply wp_mono; [by apply (wp_lease o)|]. intros [lease|e] w1 [Hs1 Hflat1];
    (assert (intact o w1) as Hi1 by (by eapply steady_intact)); [|split; [by apply intact_sound|done]]. specialize (Hflat1 Hflat).
  rewrite wp_defer. eapply wp_mono with (P := loaded_state o).
  2: { intros r w2 [Hs2 Hr]. eapply wp_mono; [apply (wp_kept (sound o)); [apply keeps_release; [apply _|intros; by apply sound_locked]|done]|]. by split. }
  assert (forall w2 e, same_files w1 w2 -> loaded_state o (Err e) w2) as Hquiet.
  { intros w2 e Hs. split; [|done]. apply intact_sound. by eapply intact_same. }
  rewrite wp_bind. eapply wp_mono; [apply wp_readSessionState|]. intros [[[legacy data] err]|e] w2 [Hs2 Hr2]; [|by apply Hquiet].
  destruct (Hr2 _ _ _ eq_refl) as [Hdec Hdata]. assert (good_state legacy) as Hgood by (split; [by eapply Hdecoded|intros _; by eapply Hflat1]).
  destruct err as [e|]; [|split; [apply intact_sound; by eapply intact_same|by intros st [= <-]]]. destruct (negb _); [by apply Hquiet|].
  unfold upgradeLegacySessionStateValue. rewrite wp_bind. destruct (_ || _); [by apply Hquiet|]. rewrite wp_bind, wp_wrap.
  eapply wp_mono; [apply wp_captureManifestIdentity|]. intros [[identity m]|e3] w3 [Hs3 Hm]; (assert (same_files w1 w3) as Hs13 by (by eapply same_files_trans));
    [|by apply Hquiet].
  destruct (Hm _ _ eq_refl) as [md Hmd]. set (upgraded := upgraded_state legacy (fid_SHA256 identity)).
  rewrite wp_bind, wp_throw. destruct (validateSessionStateForDirectory upgraded dir) eqn:Eup; [by apply Hquiet|].
  rewrite wp_ret, wp_bind, wp_lift. destruct (StateFile.encodeSessionState json_Marshal upgraded) as [stateData|e4]; [|by apply Hquiet].
  rewrite wp_bind, wp_wrap. eapply wp_mono; [apply wp_buildStateCheckpoint|]. intros [cp|e5] w4 [Hs4 _];
    (assert (same_files w1 w4) as Hs14 by (by eapply same_files_trans)); [|by apply Hquiet].
  rewrite wp_bind. eapply wp_mono; [apply (wp_kept (same_files w1)); [apply Hjournal, _|done]|]. intros [allowed|e6] w5 Hs5; [|by apply Hquiet].
  rewrite wp_bind. eapply wp_mono; [apply (wp_kept (same_files w1)); [apply keeps_verifyNoUnknown, _|done]|]. intros [[]|e7] w6 Hs6; [|by apply Hquiet].
  assert (representable upgraded /\ direct upgraded) as [Htext Hdirect].
  { unfold upgraded. rewrite Hmd. split; [by apply Hupgraded, Hgood|]. exact (Hflat1 _ _ Hdata Hdec). }
  rewrite wp_bind, wp_wrap. eapply wp_mono; [apply (wp_publishAt o None upgraded ∅ true); [by eapply intact_same|done..]|].
  intros [[]|e8] w7 [Hs7 _]; (split; [done|]); [|done]. by intros st [= <-].
Qed.

Lemma wp_restore o id w : intact o w ->
  wp (restore_state sha256 json_Marshal json_Unmarshal decode_checkpoint decode_catalog json_manifest statePath dir id) w
    (fun r w' => sound o w' /\ forall st chain, r = Ok (st, chain) -> good_state st).
Proof using Hdecoded.
  intros Hi. assert (forall w2 e, steady (F o) L w w2 -> sound o w2 /\ forall st chain, @Err (SessionState * stateCheckpointChain) e = Ok (st, chain) -> good_state st) as Hquiet.
  { intros w2 e Hs. split; [|done]. apply intact_sound. by eapply steady_intact. }
  assert (forall w', same_files w w' -> steady (F o) L w w') as Hsame by (intros w' Hs; eapply steady_same; [by apply intact_steady|done]).
  unfold restore_state. rewrite wp_bind, wp_wrap. eapply wp_mono; [apply wp_loadStateCheckpointChain|].
  intros [chain|e] w1 [Hs1 Hc]; [|by apply Hquiet, Hsame]. destruct (Hc chain eq_refl) as [Hh _].
  do 2 (rewrite wp_bind, wp_wrap; eapply wp_mono; [apply (wp_kept (same_files w)); [apply keeps_verifyArtifactsForChain, _|done]|];
    clear Hs1; intros [[]|e] w2 Hs1; [|by apply Hquiet, Hsame]; try clear dependent w1; rename w2 into w1).
  rewrite wp_bind, wp_wrap. assert (intact o w1) as Hi1 by (by eapply intact_same).
  eapply wp_mono; [exact (wp_commitPublished o None (cp_State (ch_checkpoint chain)) w1 Hi1 I)|]. intros [[]|e] w2 [Hs2 _];
    (assert (steady (F o) L w w2) as Hs02 by (eapply steady_trans; [by apply Hsame|done])); [|by apply Hquiet].
  rewrite wp_bind. eapply wp_mono; [apply wp_readSessionState|]. intros [[[st d] err]|e] w3 [Hs3 Hr];
    (assert (steady (F o) L w w3) as Hs03 by (by eapply steady_same)); [|by apply Hquiet].
  destruct (Hr _ _ _ eq_refl) as [Hdec _]. rewrite wp_bind, wp_throw. cbn [snd]. destruct err; [by apply Hquiet|].
  destruct (agrees _ _ _) as [st'|] eqn:Ea; [|by apply Hquiet]. unfold agrees in Ea. destruct (_ && _) eqn:E; [|done]. injection Ea as <-.
  apply andb_true_iff in E as [_ E%bool_decide_eq_true].
  rewrite wp_ret. split; [apply intact_sound; exact (steady_intact o w w3 Hi Hs03)|]. intros st' chain' [= <- <-]. split; [by eapply Hdecoded|]. intros Hv.
  destruct Hh as [_ _ (data & _ & _ & Hk) _]. apply checkpoint_file_name in Hk as (_ & _ & Hk). unfold decodeStateCheckpoint in Hk.
  destruct (decode_checkpoint data) as [cp|]; [|done]. destruct (validateStateCheckpoint _ _ _ _) eqn:Ev; [done|]. injection Hk as Hk. subst cp.
  apply validate_fields in Ev as (_ & _ & _ & Ev & _). rewrite <- E in Ev. by eapply directory_unique.
Qed.

Lemma wp_recover o w : intact o w ->
  wp (recoverSessionStateFromCheckpoint sha256 json_Marshal json_Unmarshal decode_checkpoint decode_catalog json_manifest pid statePath) w (loaded_state o).
Proof using Hdecoded.
  intros Hi. assert (forall w2 e, steady (F o) L w w2 -> loaded_state o (Err e) w2) as Hquiet.
  { intros w2 e Hs. split; [|done]. apply intact_sound. by eapply steady_intact. }
  unfold recoverSessionStateFromCheckpoint. destruct (canonical_state statePath) as [[d id]|] eqn:Ecan; [|apply Hquiet; by apply intact_steady].
  apply canonical_state_Dir in Ecan as ->. change (filepath_Dir statePath) with dir.
  rewrite wp_bind, wp_wrap. eapply wp_mono; [by apply (wp_lease o)|]. intros [lease|e] w1 [Hs1 _]; [|by apply Hquiet].
  rewrite wp_defer. eapply wp_mono with (P := loaded_state o).
  2: { intros r w2 [Hs2 Hr]. eapply wp_mono; [apply (wp_kept (sound o)); [apply keeps_release; [apply _|intros; by apply sound_locked]|done]|]. by split. }
  rewrite wp_bind, wp_try. eapply wp_mono; [apply (wp_kept (same_files w1)); [apply keeps_Stat, _|done]|]. intros info w2 Hs2.
  assert (steady (F o) L w w2) as Hs02 by (by eapply steady_same). rewrite wp_bind, wp_throw.
  match goal with |- match (match ?e with Some _ => _ | None => _ end) with _ => _ end => destruct e; [by apply Hquiet|] end.
  rewrite wp_bind. eapply wp_mono; [exact (wp_restore o id w2 (steady_intact o w w2 Hi Hs02))|].
  intros [[st chain]|e] w3 [Hs3 Hr]; (split; [done|]); [|done]. intros st' [= <-]. by eapply Hr.
Qed.

(** [LoadSessionState], with whatever migration or recovery it performs. *)
Lemma wp_LoadSessionState o w : intact o w -> flat w ->
  wp (Publish.LoadSessionState sha256 json_Marshal json_Unmarshal decode_state json_checkpoint decode_checkpoint json_catalog decode_catalog
    json_manifest pid lock_attempts legacyMigrationJournalData map_order statePath) w
    (fun r w' => sound o w' /\ forall st, r = Ok st -> representable st /\ direct st).
Proof using Hsha Hcheckpoint Hcatalog Hrange Hdecode_errors Hmap_order Hdecoded Hupgraded Hjournal.
  intros Hi Hflat. assert (forall w2 e, same_files w w2 -> loaded_state o (Err e) w2) as Hquiet.
  { intros w2 e Hs. split; [|done]. apply intact_sound. by eapply intact_same. }
  assert (forall w2 st, same_files w w2 -> good_state st -> loaded_state o (Ok st) w2) as Hsame.
  { intros w2 st Hs Hg. split; [apply intact_sound; by eapply intact_same|]. by intros st' [= <-]. }
  unfold Publish.LoadSessionState, validated. rewrite wp_bind. eapply wp_mono with (P := loaded_state o).
  2: { intros [st|e] w1 [Hs1 Hg]; [|done]. rewrite wp_bind, wp_throw. destruct (validateSessionStateForDirectory st _) eqn:Ev; [done|].
       rewrite wp_ret. split; [done|]. intros st' [= <-]. destruct (Hg st eq_refl) as [? Hd]. auto. }
  unfold loadPublishedSessionState. rewrite wp_bind, wp_try. eapply wp_mono; [apply wp_readSessionState|]. intros state w1 [Hs1 Hstate].
  assert (forall st d err, state = Ok (st, d, err) -> good_state st) as Hgood.
  { intros st d err E. destruct (Hstate _ _ _ E) as [Hdec Hd]. split; [by eapply Hdecoded|]. intros _. by eapply Hflat. }
  change (filepath_Dir statePath) with dir. rewrite wp_bind.
  eapply wp_mono; [apply (wp_kept (same_files w)); [apply keeps_regularStateCatalogPresent, _|done]|]. intros [present|e] w2 Hs2; [|by apply Hquiet].
  assert (intact o w2) as Hi2 by (by eapply intact_same). destruct present; cbn [negb].
  - rewrite wp_bind, wp_wrap. eapply wp_mono; [apply (wp_kept (same_files w)); [apply keeps_loadCatalogStateCheckpoint, _|done]|].
    intros [chain|e] w3 Hs3; [|by apply Hquiet]. destruct (agrees sha256 state chain) as [st|] eqn:Ea.
    + apply Hsame; [done|]. unfold agrees in Ea. destruct state as [[[st' d] []]|]; try done. destruct (_ && _); [|done]. injection Ea as <-. by eapply Hgood.
    + apply wp_recover. exact (intact_same o w w3 Hi Hs3).
  - destruct (state_error state) as [e|] eqn:Ee.
    + destruct (is_legacy e); [|by apply Hquiet]. apply wp_migrate; [done|]. intros d st Hd. rewrite (same_files_data w) in Hd by done. by apply Hflat.
    + unfold state_only. destruct state as [[[st d] []]|]; try done. rewrite wp_ret. apply Hsame; [done|]. by eapply Hgood.
Qed.

Lemma wp_republish o w : intact o w -> flat w ->
  wp (republishSessionStateWithHeldLease sha256 json_Marshal json_Unmarshal decode_state json_checkpoint decode_checkpoint json_catalog decode_catalog
    json_manifest pid lock_attempts legacyMigrationJournalData map_order statePath) w (fun _ w' => sound o w').
Proof using Hsha Hcheckpoint Hcatalog Hrange Hdecode_errors Hmap_order Hdecoded Hupgraded Hadvanced Hjournal.
  intros Hi Hflat. unfold republishSessionStateWithHeldLease. rewrite wp_bind. eapply wp_mono; [by apply wp_LoadSessionState|].
  intros [st|e] w1 [Hs1 Hst]; [|done]. destruct (Hst st eq_refl) as [Htext Hdirect]. destruct (_ =? _); [done|].
  rewrite wp_bind, wp_wrap. eapply wp_mono; [apply wp_keeps; [apply (keeps_captureManifestIdentity _ _ (sound o))|done|apply wp_captureManifestIdentity]|].
  intros [[identity m]|e] w2 [Hs2 [_ Hm]]; [|done]. destruct (Hm _ _ eq_refl) as [d Hd].
  rewrite wp_bind. destruct Hs2 as (o' & Hi2 & Ho). rewrite Hd. eapply wp_mono; [exact (wp_publishAt o' None (advanced st (digestStateBytes sha256 d)) ∅ false w2 Hi2 (Hadvanced st d Htext) Hdirect I)|].
  intros [[]|e] w3 [Hs3 _]; by eapply sound_trans.
Qed.
Lemma wp_Republish o w : intact o w -> flat w ->
  wp (RepublishSessionState sha256 json_Marshal json_Unmarshal decode_state json_checkpoint decode_checkpoint json_catalog decode_catalog
    json_manifest pid lock_attempts legacyMigrationJournalData map_order statePath) w (fun _ w' => sound o w').
Proof using Hsha Hcheckpoint Hcatalog Hrange Hdecode_errors Hmap_order Hdecoded Hupgraded Hadvanced Hjournal.
  intros Hi Hflat. unfold RepublishSessionState. change (filepath_Dir statePath) with dir. rewrite wp_bind.
  eapply wp_mono; [by apply (wp_lease o)|]. intros [lease|e] w1 [Hs1 Hflat1]; (assert (intact o w1) as Hi1 by (by eapply steady_intact)); [|by apply intact_sound].
  rewrite wp_defer. eapply wp_mono; [apply (wp_republish o); auto|]. intros r w2 Hs2.
  apply (wp_kept (sound o)); [|done]. apply keeps_release; [apply _|]. intros w3 l. apply sound_locked.
Qed.

(** ** Any sequence of steps *)

(** Other code: it leaves the catalog and the checkpoints alone, and makes no second name
    of the lease or of the journal.  The failures in store for later may be any. *)
Record elsewhere (w w' : world) : Prop := {
  el_wf : world_wf w';
  el_private : private L w';
  el_dirs : w_dirs w ⊆ w_dirs w';
  el_files : forall q, q = catalog_of dir \/ (exists name, q = name :: G) ->
    w_names w' !! q = w_names w !! q /\ file_data w' q = file_data w q;
}.
Lemma elsewhere_intact o w w' : elsewhere w w' -> intact o w -> intact o w'.
Proof using.
  intros [Hw Hp Hd Hf] [_ _ Hh]. split; [done..|]. destruct o as [c|]; cbn in *.
  - destruct Hh as [[cp [(d & Hc & Hdec) Hv (f & Hfile & Hdig) Ht]] HG]. split; [|by apply Hd]. exists cp. split; [|done| |done].
    + exists d. split; [|done]. rewrite (proj2 (Hf _ (or_introl eq_refl))). done.
    + exists f. split; [|done]. rewrite (proj2 (Hf (ca_Checkpoint c :: G) ltac:(right; by eexists))). done.
  - rewrite (proj1 (Hf _ (or_introl eq_refl))). done.
Qed.

Local Abbreviation with_codecs f := (f sha256 json_Marshal json_Unmarshal json_checkpoint decode_checkpoint json_catalog decode_catalog).
Inductive store_step (w : world) : world -> Prop :=
| step_publish st : representable st -> direct st ->
    store_step w (with_codecs Publish.publishSessionState json_manifest lock_attempts map_order statePath st w).2
| step_publish_with tp st : representable st -> direct st -> spare (Some tp) ->
    store_step w (with_codecs Publish.publishSessionStateWithTemporary json_manifest lock_attempts map_order statePath tp st w).2
| step_publish_initial st staged : representable st -> direct st ->
    store_step w (with_codecs publishInitialSessionState json_manifest lock_attempts map_order statePath st dir staged w).2
| step_refresh st id : representable st -> direct st ->
    store_step w (with_codecs refreshSessionStateCheckpointWithActiveIdentity decode_pin LoadSessionDeletion lock_attempts map_order statePath st id w).2
| step_load : flat w ->
    store_step w (Publish.LoadSessionState sha256 json_Marshal json_Unmarshal decode_state json_checkpoint decode_checkpoint json_catalog decode_catalog
      json_manifest pid lock_attempts legacyMigrationJournalData map_order statePath w).2
| step_republish : flat w ->
    store_step w (RepublishSessionState sha256 json_Marshal json_Unmarshal decode_state json_checkpoint decode_checkpoint json_catalog decode_catalog
      json_manifest pid lock_attempts legacyMigrationJournalData map_order statePath w).2
| step_elsewhere w' : elsewhere w w' -> store_step w w'.

Lemma store_step_sound o w w' : intact o w -> store_step w w' -> sound o w'.
Proof using Hsha Hcheckpoint Hcatalog Hrange Hdecode_errors Hmap_order Hdeletion Hdecoded Hupgraded Hadvanced Hjournal.
  intros Hi [st Ht Hd|tp st Ht Hd Hs|st staged Ht Hd|st id Ht Hd|Hf|Hf|w1 He].
  - apply (wp_publishAt o None st ∅ false w); done.
  - apply (wp_publishAt o (Some tp) st ∅ false w); done.
  - apply (wp_publishAt o None st {[ss_DeltaPath st := staged]} true w); done.
  - eapply followed_sound; [done|]. by apply (wp_refresh o st id w).
  - by apply (wp_LoadSessionState o w).
  - by apply (wp_Republish o w).
  - apply intact_sound. by eapply elsewhere_intact.
Qed.
Lemma store_steps_sound o w w' : intact o w -> rtc store_step w w' -> sound o w'.
Proof using Hsha Hcheckpoint Hcatalog Hrange Hdecode_errors Hmap_order Hdeletion Hdecoded Hupgraded Hadvanced Hjournal.
  intros Hi Hs. revert o Hi. induction Hs as [w|w w1 w2 Hstep _ IH]; intros o Hi; [by apply intact_sound|].
  destruct (store_step_sound o w w1 Hi Hstep) as (o' & Hi' & Ho). eapply sound_trans; [done|]. by apply IH.
Qed.

(** C7. The checkpoint of a session is never lost.  From a directory whose catalog is intact
    with the checkpoint it names, or not there yet, every sequence of publications (also
    initial ones and ones with a named temporary file), refreshes, loads with the
    migrations, recoveries and quarantines they perform, republications, and steps of other
    code that leaves these files alone, each with any failures at any system calls, leads
    to such a directory again: at every moment the catalog decodes and names a checkpoint
    file with the digest, name, sequence number, generation and state digest it says, and
    the generation and sequence number of the catalog never fall. *)
Theorem head_never_lost w0 w c0 : rtc store_step w0 w -> world_wf w0 -> private L w0 ->
  (w_names w0 !! catalog_of dir = None -> w_names w !! catalog_of dir = None \/ exists c cp, head c cp w)
  /\ (forall cp0, head c0 cp0 w0 -> G ∈ w_dirs w0 ->
      exists c cp, head c cp w /\ ca_Generation c0 <= ca_Generation c /\ ca_Sequence c0 <= ca_Sequence c).
Proof using Hsha Hcheckpoint Hcatalog Hrange Hdecode_errors Hmap_order Hdeletion Hdecoded Hupgraded Hadvanced Hjournal.
  intros Hs Hw Hp. split.
  - intros Hnone. destruct (store_steps_sound None w0 w ltac:(by split) Hs) as ([c|] & [_ _ Hh] & _); [right|by left].
    destruct Hh as [[cp Hh] _]. by exists c, cp.
  - intros cp0 Hh HG. destruct (store_steps_sound (Some c0) w0 w) as ([c|] & [_ _ Hh'] & Ho); [|done|..|done].
    + split; [done..|]. split; [by exists cp0|done].
    + destruct Hh' as [[cp Hcp] _]. by exists c, cp.
Qed.
End Succession.
