(* ===== verification/Published.v ===== *)
(** What a publication promises to those who load the session afterwards. *)
From S2P Require Import Prelude GoStd Effects ObjectReader Manifest View Os Mutation Lease Session StateFile Cow Writer Foreground Compact Store Walk Metadata Checkpoint Publish History Lineage Catalog Succession.
Local Open Scope Z_scope.

(** ** Reading without failures *)

Definition yields {A} (m : OS A) (w : world) (a : A) : Prop := forall w1, same_files w w1 -> fine m w1 (fun x w' => x = a /\ same_files w w').
Section Yields.
Context {A B : Type} (w : world).
Lemma yields_ret (a : A) : yields (ret a) w a.
Proof. intros w1 Hs. by apply fine_ret. Qed.
Lemma yields_bind (m : OS A) (f : A -> OS B) a b : yields m w a -> yields (f a) w b -> yields (bind m f) w b.
Proof. intros Hm Hf w1 Hs. apply fine_bind. eapply fine_mono; [by apply Hm|]. intros x w2 [-> Hs2]. by apply Hf. Qed.
Lemma yields_wrap f (m : OS A) a : yields m w a -> yields (wrap f m) w a.
Proof. intros Hm w1 Hs. by apply fine_wrap, Hm. Qed.
Lemma yields_try (m : OS A) a : yields m w a -> yields (try_ m) w (Ok a).
Proof.
  intros Hm w1 Hs. apply fine_try. intros Hf. destruct (Hm w1 Hs Hf) as (x & w' & -> & Hf' & -> & Hs'). done.
Qed.
Lemma yields_lift (a : A) r : r = Ok a -> yields (lift r) w a.
Proof. intros -> w1 Hs. by apply fine_lift. Qed.
Lemma yields_throw : yields (throw None) w tt.
Proof. intros w1 Hs. by apply fine_ret. Qed.
End Yields.

Lemma yields_ReadFile p d w : file_data w p = Some d -> yields (os_ReadFile p) w d.
Proof.
  intros Hd w1 Hs Hf. rewrite <- (same_files_data w w1 p Hs) in Hd. destruct (ReadFile_fine p d w1 Hf Hd) as (w2 & -> & Hf2 & Hs2).
  exists d, w2. split_and!; try done. by eapply same_files_trans.
Qed.
(** [os.Stat] of a file and then what only depends on its being one. *)
Lemma yields_Stat_file {B} p d (f : FileInfo -> OS B) b w : file_data w p = Some d -> (forall info, fi_regular info = true -> yields (f info) w b) ->
  yields (bind (os_Stat p) f) w b.
Proof.
  intros Hd Hf w1 Hs. apply fine_bind. apply fine_syscall. rewrite <- (same_files_data w w1 p Hs) in Hd. unfold file_data, inode_of in Hd. cbn.
  destruct (w_names w1 !! p) as [n|]; [|done]. cbn in Hd. destruct (w_inodes w1 !! n) as [i|]; [|done]. eexists _, _. split; [done|]. split; [done|].
  apply Hf; [done|]. by apply tick_stable.
Qed.

Section Published.
Context (sha256 : bytes -> bytes) (json_Marshal : SessionState -> result bytes) (json_Unmarshal decode_state : bytes -> result SessionState)
  (json_checkpoint : sessionStateCheckpoint -> result bytes) (decode_checkpoint : bytes -> result sessionStateCheckpoint)
  (json_catalog : sessionStateCatalog -> result bytes) (decode_catalog : bytes -> result sessionStateCatalog)
  (json_manifest : bytes -> result Manifest) (pid : string) (lock_attempts : nat)
  (legacyMigrationJournalData : path -> string -> OS (gset path)) (map_order : gset string -> list string).
Context (dir : path).
Local Abbreviation head := (head sha256 json_Marshal decode_checkpoint decode_catalog dir).
Local Abbreviation statePath := (state_of dir).

Lemma yields_readSessionState p d st w : file_data w p = Some d -> json_Unmarshal d = Ok st -> check_state st = Current ->
  yields (readSessionState json_Unmarshal p) w (st, d, None).
Proof.
  intros Hd Hj Hc. unfold readSessionState. eapply yields_Stat_file; [done|]. intros info ->. cbn [negb].
  eapply yields_bind; [by apply yields_ReadFile|]. eapply yields_bind; [apply yields_lift; by rewrite Hj|]. rewrite Hc. apply yields_ret.
Qed.
Lemma yields_catalogPresent c cp w : head c cp w -> yields (regularStateCatalogPresent dir) w true.
Proof.
  intros [(d & Hd & _) _ _ _] w1 Hs. unfold regularStateCatalogPresent. apply fine_bind, fine_try. intros Hf.
  unfold os_Stat, syscall, next_outcome. rewrite Hf. pose proof Hd as Hd1. rewrite <- (same_files_data w w1 _ Hs) in Hd1. unfold file_data, inode_of in Hd1.
  cbn. destruct (w_names w1 !! catalog_of dir) as [n|]; [|done]. cbn in Hd1. destruct (w_inodes w1 !! n) as [i|]; [|done]. cbn.
  split; [done|]. apply fine_ret. split; [done|]. by apply tick_stable.
Qed.
Lemma yields_loadCatalog c cp w : head c cp w ->
  yields (loadCatalogStateCheckpoint sha256 json_Marshal decode_checkpoint decode_catalog dir (ca_SessionID c)) w
    {| ch_catalog := c; ch_checkpoint := cp; ch_lineage := ∅ |}.
Proof.
  intros [(d & Hd & Hc) Hv (f & Hf & Hdig & Hk) (Hn & Hg & Hs & Hh)]. unfold loadCatalogStateCheckpoint.
  eapply yields_bind.
  { unfold loadStateCatalog. eapply yields_Stat_file; [done|]. intros info ->. cbn [negb]. eapply yields_bind; [by apply yields_ReadFile|].
    eapply yields_bind; [apply yields_wrap; by apply yields_lift|]. rewrite Hv. apply yields_ret. }
  unfold string_is. rewrite bool_decide_eq_true_2 by done. cbn [negb]. eapply yields_Stat_file; [done|]. intros info ->. cbn [negb].
  eapply yields_bind; [by apply yields_ReadFile|]. apply checkpoint_file_name in Hk as (Hname & Hid & Hdec).
  eapply yields_bind; [by apply yields_lift|]. rewrite Hdig, Hid, Hg, Hs, Hh, !bool_decide_eq_true_2, !Z.eqb_refl by congruence. apply yields_ret.
Qed.

Lemma validated_current st sd : validateSessionStateForDirectory st sd = None -> check_state st = Current.
Proof.
  unfold validateSessionStateForDirectory. destruct (_ || _) eqn:E; [done|]. rewrite !orb_false_iff, !negb_false_iff in E. destruct E as [[E1 E2] E3].
  destruct sd as [|id [|sessions [|fs root]]]; try done. repeat (destruct (_ || _); [done|]). intros Hn. unfold check_state.
  rewrite Hn, E1, E2, E3. apply Z.eqb_eq in E1. rewrite E1. done.
Qed.

Lemma yields_load st w : shows sha256 json_Marshal decode_checkpoint decode_catalog dir st w ->
  filepath_Dir (ss_DeltaPath st) = dir ->
  (forall d, encodeSessionState json_Marshal st = Ok d -> json_Unmarshal d = Ok st) ->
  yields (Publish.LoadSessionState sha256 json_Marshal json_Unmarshal decode_state json_checkpoint decode_checkpoint json_catalog decode_catalog
    json_manifest pid lock_attempts legacyMigrationJournalData map_order statePath) w st.
Proof.
  intros (c & cp & Hh & Est & d & Henc & Hd & _) Hdirect Hj. unfold Publish.LoadSessionState, validated.
  pose proof Hh as [_ _ (f & _ & _ & Hk) (_ & _ & _ & Hss)]. apply checkpoint_file_name in Hk as (_ & Hcid & Hk). unfold decodeStateCheckpoint in Hk.
  destruct (decode_checkpoint f) as [cp'|]; [|done]. destruct (validateStateCheckpoint _ _ _ _) eqn:Ev; [done|]. injection Hk as ->.
  pose proof Ev as Hval. apply validate_fields in Ev as (Hcp & _ & _ & Ev & _). rewrite Est in Ev. rewrite Hdirect in Ev.
  assert (ss_SessionID st = base_name dir) as Hid by (destruct (directory_shape _ _ Ev) as (root & -> & _); done).
  assert (digestStateBytes sha256 d = ca_StateSHA256 c) as Hdig.
  { rewrite <- Hss. unfold validateStateCheckpoint in Hval. rewrite Est, Hdirect in Hval. destruct (_ || _); [done|]. destruct (_ && _); [done|].
    rewrite Ev, Henc in Hval. destruct (negb _) eqn:E in Hval; [done|]. apply negb_false_iff in E. unfold string_is in E. by apply bool_decide_eq_true in E. }
  eapply yields_bind.
  { unfold loadPublishedSessionState. change (filepath_Dir statePath) with dir.
    eapply yields_bind; [apply yields_try, yields_readSessionState; [done|by apply Hj|by eapply validated_current]|].
    eapply yields_bind; [by eapply yields_catalogPresent|]. cbn [negb].
    eapply yields_bind; [apply yields_wrap|].
    { rewrite <- Hid, <- Est, <- Hcp, Hcid. by apply yields_loadCatalog. }
    unfold agrees. cbn [ch_catalog ch_checkpoint]. unfold string_is. rewrite Hdig, Est, !bool_decide_eq_true_2 by done. apply yields_ret. }
  change (filepath_Dir statePath) with dir. rewrite Ev. eapply yields_bind; [apply yields_throw|]. apply yields_ret.
Qed.

Context (representable : SessionState -> Prop).
Context (Hsha : forall d, length (sha256 d) = 32%nat).
Context (Hcheckpoint : forall cp sd d, representable (cp_State cp) -> validateStateCheckpoint sha256 json_Marshal cp sd = None ->
  json_checkpoint cp = Ok d -> decode_checkpoint (d ++ [Byte.x0a]) = Ok cp).
Context (Hcatalog : forall st n a b c d, representable st -> valid_catalog (catalog_entry st n a b c) = true ->
  json_catalog (catalog_entry st n a b c) = Ok d -> decode_catalog (d ++ [Byte.x0a]) = Ok (catalog_entry st n a b c)).
Context (Hrange : forall d c, decode_catalog d = Ok c -> 0 <= ca_Sequence c < 2 ^ 64).
Context (Hdecode_errors : forall d e, decode_checkpoint d = Err e -> is_NotExist e = false).
Context (Hmap_order : forall X name, name ∈ map_order X -> name ∈ X).

(** C8. What has been published is loaded.  Whatever fails during a publication into a
    directory whose catalog is absent or intact, and whatever was quarantined for it: if it
    succeeds, then the state file is durable, and from then on [LoadSessionState] gives back
    exactly the published state, as long as nothing changes the files and no call fails. *)
Theorem publish_load st o w :
  intact sha256 json_Marshal decode_checkpoint decode_catalog dir o w -> representable st -> filepath_Dir (ss_DeltaPath st) = dir ->
  (forall d, encodeSessionState json_Marshal st = Ok d -> json_Unmarshal d = Ok st) ->
  wp (Publish.publishSessionState sha256 json_Marshal json_Unmarshal json_checkpoint decode_checkpoint json_catalog decode_catalog json_manifest
    lock_attempts map_order statePath st) w (fun r w1 => r = Ok tt -> durable w1 statePath /\
      forall w2, same_files w1 w2 -> w_faults w2 = [] ->
        (Publish.LoadSessionState sha256 json_Marshal json_Unmarshal decode_state json_checkpoint decode_checkpoint json_catalog decode_catalog
          json_manifest pid lock_attempts legacyMigrationJournalData map_order statePath w2).1 = Ok st).
Proof using Hsha Hcheckpoint Hcatalog Hrange Hdecode_errors Hmap_order.
  intros Hi Htext Hd Hj. unfold Publish.publishSessionState. change (filepath_Dir statePath) with dir.
  eapply wp_mono; [by eapply (wp_publishAt sha256 json_Marshal json_Unmarshal) with (tmp := None)|].
  intros r w1 (_ & Hr & _) Eok. specialize (Hr Eok). split; [by destruct Hr as (c & cp & _ & _ & data & _ & _ & ?)|].
  intros w2 Hs Hf. destruct (yields_load st w1 Hr Hd Hj w2 Hs Hf) as (x & w3 & -> & _ & -> & _). done.
Qed.
End Published.
