(* ===== verification/Journal.v ===== *)
(** The journal of a session, as it is read back: [readJournal] of
    [src/internal/vfs/journal.go] and the selection of records in [recover.go] and
    [state_checkpoint.go].

    Every change of a session that takes several steps leaves records in
    [journal.jsonl]; the latest record of an operation says how far it got. *)
From S2P Require Import Prelude GoStd Effects ObjectReader Manifest View Os Mutation Lease Session StateFile Cow Writer Foreground Compact Store Walk Metadata Checkpoint.
Local Open Scope Z_scope.

(** ** Lines *)

Definition bufio_ErrTooLong : error := Sentinel "bufio.Scanner: token too long".
(** The limit of [scanner.Buffer]. *)
Definition maximum_line : Z := 2 ^ 20.

Fixpoint scan_lines (data line : bytes) : list bytes :=
  match data with
  | [] => match line with [] => [] | _ => [rev line] end
  | b :: data => if bool_decide (b = Byte.x0a) then rev line :: scan_lines data [] else scan_lines data (b :: line)
  end.
(** [bufio.ScanLines] drops a carriage return at the end. *)
Definition drop_return (line : bytes) : bytes :=
  match rev line with
  | Byte.x0d :: rest => rev rest
  | _ => line
  end.

(** ** The identity of an operation *)

Fixpoint strip_prefix (prefix s : string) : option string :=
  match prefix, s with
  | EmptyString, _ => Some s
  | String c prefix, String d s => if Ascii.eqb c d then strip_prefix prefix s else None
  | String _ _, EmptyString => None
  end.
Definition digit_value (c : Ascii.ascii) : Z := Z.of_nat (Ascii.nat_of_ascii c) - 48.
Definition is_digit (c : Ascii.ascii) : bool := (0 <=? digit_value c) && (digit_value c <=? 9).
Definition digits_value (l : list Ascii.ascii) : Z := foldl (fun n c => 10 * n + digit_value c) 0 l.
(** A name of twenty digits after the prefix, and the [uint64] they write. *)
Definition operation_generation (prefix operationID : string) : option Z :=
  match strip_prefix prefix operationID with
  | None => None
  | Some token =>
      if negb (String.length token =? 20)%nat then None
      else if negb (forallb is_digit (chars token)) then None
      else let generation := digits_value (chars token) in
           if generation <? 2 ^ 64 then Some generation else None
  end.
Definition cowOperationGeneration (operationID : string) : option Z := operation_generation "cow-" operationID.
Definition compactOperationGeneration (operationID : string) : option Z := operation_generation "compact-" operationID.

(** ** Selection *)

(** The latest record of every operation, with its position. *)
Fixpoint latest_loop (index : nat) (records : list JournalRecord) (latest : gmap string (nat * JournalRecord))
  : result (gmap string (nat * JournalRecord)) :=
  match records with
  | [] => Ok latest
  | record :: records =>
      if string_is (jr_OperationID record) "" then Err (errors_new "session journal record has no operation ID")
      else latest_loop (S index) records (<[jr_OperationID record := (index, record)]> latest)
  end.
Definition position_le (a b : nat * JournalRecord) : Prop := (a.1 <= b.1)%nat.
#[export] Instance position_le_dec : RelDecision position_le.
Proof. intros a b. unfold position_le. apply _. Defined.
Definition latestJournalRecords (records : list JournalRecord) : result (list JournalRecord) :=
  match latest_loop 0 records ∅ with
  | Err e => Err e
  | Ok latest => Ok (merge_sort position_le (map_to_list latest).*2).*2
  end.

Definition is_terminal (record : JournalRecord) : bool :=
  string_is (jr_Phase record) "complete" || string_is (jr_Phase record) "rolled-back".
Definition terminalJournalRecords (records : list JournalRecord) : bool := forallb is_terminal records.

Section Journal.
(** [json.Unmarshal] into a [JournalRecord]; its paths are clean. *)
Variable decode_record : bytes -> result JournalRecord.

Fixpoint decode_lines (lines : list bytes) : result (list JournalRecord) :=
  match lines with
  | [] => Ok []
  | line :: lines =>
      if zlen line >=? maximum_line then Err (errorf "read session journal: %w" bufio_ErrTooLong)
      else
        match decode_record (drop_return line) with
        | Err e => Err (errorf "decode session journal: %w" e)
        | Ok record =>
            match decode_lines lines with
            | Err e => Err e
            | Ok records => Ok (record :: records)
            end
        end
  end.
Definition readJournal (directory : path) : OS (list JournalRecord) :=
  let* opened := try_ (os_Open (journalPath directory)) in
  match opened with
  | Err e => if is_NotExist e then ret [] else fail e
  | Ok file =>
      defer_ (file_Close file) (
        let* data := wrap "read session journal: %w" (file_ReadAll file) in
        lift (decode_lines (scan_lines data [])))
  end.

(** The data files that unfinished operations may have left in a legacy session. *)
Definition open_phase (phase : string) : bool :=
  existsb (string_is phase) ["prepared"; "data-synced"; "after-file-publish"; "state-publishing"; "state-published"]%string.
Definition journal_files (directory : path) (record : JournalRecord) : gset path :=
  list_to_set (filter (fun p => pathWithin directory p = true /\ managedSessionDataName (base_name p) = true)
    (option_list (jr_TempPath record) ++ option_list (jr_FinalPath record) ++ option_list (nf_Path (jr_Native record)))).
Fixpoint allowed_loop (directory : path) (sessionID : string) (latest : list JournalRecord) (allowed : gset path) : result (gset path) :=
  match latest with
  | [] => Ok allowed
  | record :: latest =>
      if is_terminal record then allowed_loop directory sessionID latest allowed
      else if negb (open_phase (jr_Phase record)) then Err (errors_new "legacy session journal operation %s has unknown phase %q")
      else if negb (string_is (jr_SessionID record) "") && negb (string_is (jr_SessionID record) sessionID) then
        Err (errors_new "legacy session journal belongs to another session")
      else allowed_loop directory sessionID latest (allowed ∪ journal_files directory record)
  end.
Definition legacyMigrationJournalData (directory : path) (sessionID : string) : OS (gset path) :=
  let* records := readJournal directory in
  let* latest := lift (latestJournalRecords records) in
  lift (allowed_loop directory sessionID latest ∅).
End Journal.

(** ** The identity of an operation, exactly *)

Lemma strip_prefix_append p s : strip_prefix p (String.append p s) = Some s.
Proof. induction p as [|c p IH]; [done|]. change (String.append (String c p) s) with (String c (String.append p s)). cbn. by rewrite Ascii.eqb_refl. Qed.
Lemma strip_prefix_Some p s rest : strip_prefix p s = Some rest -> s = String.append p rest.
Proof.
  revert s. induction p as [|c p IH]; intros s; cbn; [by intros [= ->]|]. destruct s as [|d s]; [done|].
  destruct (Ascii.eqb c d) eqn:E; [|done]. apply Ascii.eqb_eq in E as ->. by intros ->%IH.
Qed.
Lemma digit_char k : 0 <= k < 10 -> let c := Ascii.ascii_of_nat (48 + Z.to_nat k) in is_digit c = true /\ digit_value c = k.
Proof.
  intros Hk. assert (exists n, (n < 10)%nat /\ k = Z.of_nat n) as (n & Hn & ->) by (exists (Z.to_nat k); lia). rewrite Nat2Z.id.
  do 10 (destruct n as [|n]; [done|]). lia.
Qed.
Lemma char_digit c : is_digit c = true -> c = Ascii.ascii_of_nat (48 + Z.to_nat (digit_value c)) /\ 0 <= digit_value c < 10.
Proof.
  unfold is_digit, digit_value. intros [H1 H2]%andb_true_iff. apply Z.leb_le in H1, H2. split; [|lia].
  rewrite <- (Ascii.ascii_nat_embedding c) at 1. f_equal. lia.
Qed.

(** [decimal] writes [n] digits before the suffix. *)
Fixpoint decimal_digits (n : nat) (z : Z) : list Ascii.ascii :=
  match n with
  | O => []
  | S n => decimal_digits n (z / 10) ++ [Ascii.ascii_of_nat (48 + Z.to_nat (z mod 10))]
  end.
Lemma chars_decimal n : forall z s, chars (decimal n z s) = decimal_digits n z ++ chars s.
Proof. induction n as [|n IH]; intros z s; cbn [decimal decimal_digits]; [done|]. by rewrite IH, <- app_assoc. Qed.
Lemma decimal_digits_ok n : forall z, length (decimal_digits n z) = n /\ forallb is_digit (decimal_digits n z) = true.
Proof.
  induction n as [|n IH]; intros z; cbn [decimal_digits]; [done|]. destruct (IH (z / 10)) as [Hl Hd].
  pose proof (digit_char (z mod 10) ltac:(apply Z.mod_pos_bound; lia)) as [Hc _]. cbv zeta in Hc.
  rewrite length_app, forallb_app, Hl, Hd. cbn [length forallb]. rewrite Hc. split; [lia|done].
Qed.
Lemma digits_value_snoc l c : digits_value (l ++ [c]) = 10 * digits_value l + digit_value c.
Proof. unfold digits_value. by rewrite foldl_app. Qed.
Lemma decimal_digits_value n : forall z, 0 <= z -> digits_value (decimal_digits n z) = z mod 10 ^ Z.of_nat n.
Proof.
  induction n as [|n IH]; intros z Hz; cbn [decimal_digits]; [by rewrite Z.mod_1_r|].
  rewrite digits_value_snoc, IH by (apply Z.div_pos; lia).
  pose proof (digit_char (z mod 10) ltac:(apply Z.mod_pos_bound; lia)) as [_ Hc]. cbv zeta in Hc. rewrite Hc.
  rewrite Nat2Z.inj_succ, Z.pow_succ_r, (Z.rem_mul_r z 10) by lia. lia.
Qed.
Lemma decimal_digits_of l : forallb is_digit l = true -> l = decimal_digits (length l) (digits_value l) /\ 0 <= digits_value l.
Proof.
  induction l as [|c l IH] using rev_ind; [done|]. rewrite forallb_app. cbn [forallb]. rewrite andb_true_r. intros [Hl Hc]%andb_true_iff.
  destruct (IH Hl) as [IHl Hnn]. destruct (char_digit c Hc) as [Ec Hb]. rewrite length_app, Nat.add_1_r, digits_value_snoc. cbn [decimal_digits].
  assert ((10 * digits_value l + digit_value c) / 10 = digits_value l) as -> by (rewrite Z.mul_comm, Z.div_add_l, Z.div_small by lia; lia).
  assert ((10 * digits_value l + digit_value c) mod 10 = digit_value c) as -> by (rewrite Z.mul_comm, Z.add_comm, Z.mod_add, Z.mod_small by lia; lia).
  rewrite <- IHl, <- Ec. split; [done|lia].
Qed.
Lemma chars_inj s t : chars s = chars t -> s = t.
Proof. revert t. induction s as [|c s IH]; intros [|d t]; cbn; intros [=]; [done|]. subst. f_equal. auto. Qed.
Lemma length_chars s : length (chars s) = String.length s.
Proof. induction s; cbn; auto. Qed.

(** An operation has exactly one identity: a record belongs to generation [n] of a
    kind of operation if and only if its identity is the one that copy-on-write and
    compaction write for [n], a [uint64] in twenty digits. *)
Theorem operation_identity_exact prefix operationID n :
  operation_generation prefix operationID = Some n <-> operationID = String.append prefix (format_020d n) /\ 0 <= n < 2 ^ 64.
Proof.
  unfold operation_generation, format_020d. split.
  - destruct (strip_prefix prefix operationID) as [token|] eqn:E; [|done]. apply strip_prefix_Some in E as ->.
    destruct (String.length token =? 20)%nat eqn:El; [|done]. apply Nat.eqb_eq in El. destruct (forallb is_digit (chars token)) eqn:Ed; [|done]. cbn [negb].
    destruct (digits_value (chars token) <? 2 ^ 64) eqn:Eb; [|done]. intros [= <-]. destruct (decimal_digits_of _ Ed) as [Ec Hnn].
    split; [|lia]. f_equal. apply chars_inj. rewrite chars_decimal, app_nil_r. rewrite length_chars, El in Ec. exact Ec.
  - intros [-> Hn]. rewrite strip_prefix_append. destruct (decimal_digits_ok 20 n) as [Hl Hd].
    assert (chars (decimal 20 n "") = decimal_digits 20 n) as Hc by (rewrite chars_decimal; apply app_nil_r).
    rewrite <- length_chars, Hc, Hl, Hd. cbn [negb Nat.eqb]. rewrite decimal_digits_value by lia.
    rewrite Z.mod_small by (split; [lia|]; transitivity (2 ^ 64); [lia|by vm_compute]).
    by rewrite (proj2 (Z.ltb_lt _ _)) by lia.
Qed.

(** ** The latest records, exactly *)

(** Without the earlier records of the same operation. *)
Fixpoint last_records (records : list JournalRecord) : list JournalRecord :=
  match records with
  | [] => []
  | record :: records =>
      if existsb (fun later => string_is (jr_OperationID later) (jr_OperationID record)) records then last_records records
      else record :: last_records records
  end.
Fixpoint last_positions (index : nat) (records : list JournalRecord) : list (nat * JournalRecord) :=
  match records with
  | [] => []
  | record :: records =>
      if existsb (fun later => string_is (jr_OperationID later) (jr_OperationID record)) records then last_positions (S index) records
      else (index, record) :: last_positions (S index) records
  end.
Lemma last_positions_records records : forall index, (last_positions index records).*2 = last_records records.
Proof. induction records as [|r rs IH]; intros index; cbn; [done|]. destruct (existsb _ rs); [apply IH|]. cbn. by rewrite IH. Qed.

(** No record after position [i] is of operation [k]. *)
Definition no_later (records : list JournalRecord) (i : nat) (k : string) : Prop :=
  forall j r, (i < j)%nat -> records !! j = Some r -> jr_OperationID r <> k.
Lemma elem_last_positions records : forall index i r, (i, r) ∈ last_positions index records <->
  exists j, i = (index + j)%nat /\ records !! j = Some r /\ no_later records j (jr_OperationID r).
Proof.
  induction records as [|x rs IH]; intros index i r; cbn [last_positions].
  { split; [by intros H%not_elem_of_nil|]. by intros (j & _ & H & _). }
  assert ((i, r) ∈ last_positions (S index) rs <-> exists j, i = (index + S j)%nat /\ rs !! j = Some r /\ no_later (x :: rs) (S j) (jr_OperationID r)) as Htail.
  { rewrite IH. split; intros (j & -> & Hj & Hl); exists j; (split; [lia|]); (split; [done|]).
    - intros [|k] r' Hk; [lia|]. cbn. apply Hl. lia.
    - intros k r' Hk Hr'. apply (Hl (S k)); [lia|done]. }
  assert (existsb (fun later => string_is (jr_OperationID later) (jr_OperationID x)) rs = true <-> ~ no_later (x :: rs) 0 (jr_OperationID x)) as Hex.
  { rewrite existsb_exists. unfold string_is. split.
    - intros (y & Hy%list_elem_of_In & Hid%bool_decide_eq_true) Hn. apply list_elem_of_lookup in Hy as [k Hk]. by apply (Hn (S k) y); [lia|..].
    - intros Hn. destruct (existsb (fun later => bool_decide (jr_OperationID later = jr_OperationID x)) rs) eqn:E; [by apply existsb_exists|].
      destruct Hn. intros [|k] y Hk Hy Hid; [lia|]. cbn in Hy. assert (existsb (fun later => bool_decide (jr_OperationID later = jr_OperationID x)) rs = true); [|congruence].
      apply existsb_exists. exists y. split; [apply list_elem_of_In; by eapply list_elem_of_lookup_2|by apply bool_decide_eq_true]. }
  destruct (existsb _ rs) eqn:E.
  - rewrite Htail. split; [intros (j & H1 & H2 & H3); by exists (S j)|]. intros ([|j] & H1 & H2 & H3); [|by exists j].
    cbn in H2. injection H2 as ->. by destruct (proj1 Hex eq_refl).
  - rewrite elem_of_cons, Htail. split.
    + intros [[= -> ->]|(j & H1 & H2 & H3)]; [exists 0%nat|by exists (S j)]. split_and!; [lia|done|].
      destruct (decide (Exists (fun later => jr_OperationID later = jr_OperationID x) rs)) as [Hl|Hl].
      * exfalso. apply Exists_exists in Hl as (y & Hy & Hid). assert (true = false); [|done]. rewrite <- E. symmetry. apply existsb_exists. exists y.
        split; [by apply list_elem_of_In|]. unfold string_is. by apply bool_decide_eq_true.
      * intros [|k] y Hk Hy Hid; [lia|]. apply Hl, Exists_exists. exists y. split; [by eapply list_elem_of_lookup_2|done].
    + intros ([|j] & H1 & H2 & H3); [left|right; by exists j]. cbn in H2. injection H2 as ->. f_equal. lia.
Qed.
Lemma last_positions_sorted records : forall index, StronglySorted position_le (last_positions index records).
Proof.
  induction records as [|r rs IH]; intros index; cbn [last_positions]; [constructor|]. destruct (existsb _ rs); [apply IH|].
  constructor; [apply IH|]. apply Forall_forall. intros [i x] (j & -> & _)%elem_last_positions. unfold position_le. cbn. lia.
Qed.
Lemma last_positions_NoDup records : forall index, NoDup (last_positions index records).
Proof.
  induction records as [|r rs IH]; intros index; cbn [last_positions]; [constructor|]. destruct (existsb _ rs); [apply IH|].
  constructor; [|apply IH]. intros (j & Hj & _)%elem_last_positions. lia.
Qed.

Lemma latest_loop_snoc records : forall index latest r, latest_loop index (records ++ [r]) latest =
  match latest_loop index records latest with
  | Err e => Err e
  | Ok m => if string_is (jr_OperationID r) "" then Err (errors_new "session journal record has no operation ID")
            else Ok (<[jr_OperationID r := ((index + length records)%nat, r)]> m)
  end.
Proof.
  induction records as [|x rs IH]; intros index latest r; cbn.
  - rewrite Nat.add_0_r. by destruct (string_is _ _).
  - destruct (string_is (jr_OperationID x) ""); [done|]. rewrite IH. destruct (latest_loop _ rs _); [|done]. by rewrite Nat.add_succ_r.
Qed.
Lemma latest_loop_spec records : match latest_loop 0 records ∅ with
  | Err e => e = errors_new "session journal record has no operation ID" /\ existsb (fun r => string_is (jr_OperationID r) "") records = true
  | Ok m => existsb (fun r => string_is (jr_OperationID r) "") records = false /\
      forall k i r, m !! k = Some (i, r) <-> records !! i = Some r /\ jr_OperationID r = k /\ no_later records i k
  end.
Proof.
  induction records as [|r rs IH] using rev_ind; cbn.
  { split; [done|]. intros k i r. rewrite lookup_empty. split; [done|by intros (? & _)]. }
  rewrite latest_loop_snoc. destruct (latest_loop 0 rs ∅) as [m|e]; [|destruct IH as [-> IH]; by rewrite existsb_app, IH].
  destruct IH as [Hno Hm]. rewrite existsb_app, Hno. cbn. rewrite orb_false_r. destruct (string_is (jr_OperationID r) "") eqn:Eid; [done|]. split; [done|].
  intros k i x. rewrite lookup_insert_Some, Hm. split.
  - intros [[<- [= <- <-]]|(Hne & H1 & H2 & H3)].
    + rewrite lookup_app_r, Nat.sub_diag by lia. split_and!; [done..|]. intros j y Hj Hy%lookup_lt_Some. rewrite length_app in Hy. cbn in Hy. lia.
    + split_and!; [by apply lookup_app_l_Some|done|]. intros j y Hj [Hy|[Hl Hy]]%lookup_app_Some; [by eapply H3|].
      apply list_lookup_singleton_Some in Hy as [_ <-]. congruence.
  - intros (Hx & Hk & Hl). destruct (decide (jr_OperationID r = k)) as [Hrk|Hne].
    + left. split; [done|]. apply lookup_app_Some in Hx as [Hx|[Hi Hx]].
      * exfalso. apply (Hl (length rs) r); [by eapply lookup_lt_Some| |done]. by rewrite lookup_app_r, Nat.sub_diag by lia.
      * apply list_lookup_singleton_Some in Hx as [Hi' <-]. f_equal. lia.
    + right. apply lookup_app_Some in Hx as [Hx|[Hi Hx]]; [|by apply list_lookup_singleton_Some in Hx as [_ ->]].
      split_and!; [done..|]. intros j y Hj Hy. by apply (Hl j y); [|apply lookup_app_l_Some].
Qed.

(** C21. Of the records of a journal exactly the last one of each operation is replayed,
    in the order of these records; only a record without an identity is refused.  The
    code goes through a map and sorts by position. *)
Theorem latest_exact records : latestJournalRecords records =
  if existsb (fun r => string_is (jr_OperationID r) "") records then Err (errors_new "session journal record has no operation ID")
  else Ok (last_records records).
Proof.
  unfold latestJournalRecords. pose proof (latest_loop_spec records) as H. destruct (latest_loop 0 records ∅) as [m|e].
  2: { destruct H as [-> ->]. done. }
  destruct H as [-> Hm]. f_equal. rewrite <- (last_positions_records records 0). f_equal.
  apply (StronglySorted_unique_strong position_le).
  - intros [i x] [j y] Hi Hj Hij Hji. unfold position_le in *. cbn in *. assert (i = j) as -> by lia. f_equal.
    rewrite merge_sort_Permutation in Hi. apply list_elem_of_fmap in Hi as ([k [i' x']] & [= -> ->] & Hi%elem_of_map_to_list).
    apply Hm in Hi as (Hi & _). apply elem_last_positions in Hj as (j' & -> & Hj & _). cbn in Hi. congruence.
  - apply Sorted_StronglySorted; [intros ???; unfold position_le; lia|]. apply Sorted_merge_sort. intros ??. unfold position_le. lia.
  - apply last_positions_sorted.
  - rewrite merge_sort_Permutation. apply NoDup_Permutation; [|apply last_positions_NoDup|].
    + apply NoDup_fmap_2_strong; [|apply NoDup_map_to_list]. intros [k [i x]] [k' [i' x']] H1%elem_of_map_to_list H2%elem_of_map_to_list E.
      cbn in E. injection E as <- <-. apply Hm in H1 as (_ & <- & _), H2 as (_ & <- & _). done.
    + intros [i x]. rewrite elem_last_positions, list_elem_of_fmap. split.
      * intros ([k [i' x']] & [= -> ->] & H1%elem_of_map_to_list). apply Hm in H1 as (H1 & <- & H3). by exists i'.
      * intros (j & -> & H1 & H2). exists (jr_OperationID x, (j, x)). split; [done|]. apply elem_of_map_to_list. by apply Hm.
Qed.

(** ** Reading back what was appended *)

Definition newline : byte := Byte.x0a.
(** The text of the journal; every record has its line. *)
Definition journal_data (dir : path) (w : world) : bytes := default [] (file_data w (journalPath dir)).
Definition complete (data : bytes) : Prop := data = [] \/ last data = Some newline.

Lemma scan_lines_app a b : forall line, scan_lines (a ++ newline :: b) line = scan_lines (a ++ [newline]) line ++ scan_lines b [].
Proof.
  induction a as [|x a IH]; intros line; cbn [scan_lines app]; [by rewrite bool_decide_eq_true_2|]. case_bool_decide; [|apply IH].
  cbn [app]. f_equal. apply IH.
Qed.
Lemma scan_lines_complete a b : complete a -> scan_lines (a ++ b) [] = scan_lines a [] ++ scan_lines b [].
Proof.
  intros [-> |Hl]; [done|]. destruct (last_Some a newline) as [H _]. destruct (H Hl) as [a' ->]. rewrite <- app_assoc. cbn [app]. apply scan_lines_app.
Qed.
Lemma scan_lines_plain l : forall line, newline ∉ l -> scan_lines l line = match rev line ++ l with [] => [] | x => [x] end.
Proof.
  induction l as [|x l IH]; intros line Hl; cbn [scan_lines].
  - rewrite app_nil_r. destruct line as [|y line]; [done|]. cbn. by destruct (rev line).
  - rewrite not_elem_of_cons in Hl. rewrite bool_decide_eq_false_2 by (intros ->; by destruct Hl). rewrite IH by apply Hl. cbn [rev]. by rewrite <- app_assoc.
Qed.
Lemma scan_line l : newline ∉ l -> scan_lines (l ++ [newline]) [] = [l].
Proof.
  assert (forall line, newline ∉ l -> scan_lines (l ++ [newline]) line = [rev line ++ l]) as H.
  { induction l as [|x l IH]; intros line Hl; cbn [scan_lines app]; [by rewrite bool_decide_eq_true_2, app_nil_r|].
    rewrite not_elem_of_cons in Hl. rewrite bool_decide_eq_false_2 by (intros ->; by destruct Hl). rewrite IH by apply Hl. cbn [rev]. by rewrite <- app_assoc. }
  intros Hl. by rewrite H.
Qed.
Lemma drop_return_other l : last l <> Some Byte.x0d -> drop_return l = l.
Proof.
  intros Hl. unfold drop_return. destruct (rev l) as [|x r] eqn:E; [done|].
  assert (l = rev r ++ [x]) as -> by (rewrite <- (rev_involutive l), E; done). rewrite last_snoc in Hl. destruct x; done.
Qed.

Section ReadBack.
Context (json_journal : JournalRecord -> result bytes) (decode_record : bytes -> result JournalRecord) (dir : path).
Local Abbreviation appendJournal := (appendJournal json_journal dir).
Local Abbreviation readJournal := (readJournal decode_record dir).
Local Abbreviation decode_lines := (decode_lines decode_record).

Lemma decode_lines_app a b records : decode_lines a = Ok records ->
  decode_lines (a ++ b) = match decode_lines b with Ok l => Ok (records ++ l) | Err e => Err e end.
Proof.
  revert records. induction a as [|x a IH]; intros records; cbn [Journal.decode_lines app].
  - intros [= <-]. by destruct (decode_lines b).
  - destruct (_ >=? _); [done|]. destruct (decode_record _); [|done]. destruct (decode_lines a) as [l|]; [|done]. intros [= <-].
    rewrite (IH l) by done. by destruct (decode_lines b).
Qed.

(** The journal after an attempt to append. *)
Definition journal_at (n : nat) (data : bytes) (w : world) : Prop :=
  w_names w !! journalPath dir = Some n /\ exists i, w_inodes w !! n = Some i /\ i_data i = data.
#[local] Instance journal_at_stable n data : TickStable (journal_at n data).
Proof. by intros w fs. Qed.
Lemma journal_at_data n data w : journal_at n data w -> journal_data dir w = data.
Proof. intros [Hn (i & Hi & <-)]. unfold journal_data, file_data, inode_of. rewrite Hn. cbn. by rewrite Hi. Qed.
Lemma keeps_journal_Sync n data f : keeps (journal_at n data) (file_Sync f).
Proof.
  apply keeps_syscall; [apply _|]. intros w [Hn (i & Hi & Hd)]. cbn. destruct (w_inodes w !! f_ino f) as [j|] eqn:Ej; [|by split; eauto].
  split; [done|]. cbn. destruct (decide (n = f_ino f)) as [->|Hne].
  - rewrite Ej in Hi. injection Hi as ->. rewrite lookup_insert_eq. by eexists.
  - rewrite lookup_insert_ne by done. eauto.
Qed.
Lemma wp_appendJournal record d w : world_wf w -> json_journal record = Ok d ->
  wp (appendJournal record) w (fun r w' => exists k, journal_data dir w' = journal_data dir w ++ take k (d ++ [newline])
    /\ (r = Ok tt -> (length (d ++ [newline]) <= k)%nat)).
Proof.
  intros Hw Hd. unfold Session.appendJournal. rewrite wp_bind, wp_lift, Hd.
  rewrite wp_bind, wp_wrap. set (data := journal_data dir w).
  eapply wp_mono with (P := fun r w' => match r with Ok f => journal_at (f_ino f) data w' /\ f_append f = true | Err _ => journal_data dir w' = data end).
  { apply wp_syscall; intros fs; [done|]. unfold wp. cbn. destruct (w_names w !! journalPath dir) as [n|] eqn:En; cbn.
    - destruct (wf_names _ Hw _ _ En) as [i Hi]. split; [|done]. split; [done|]. exists i. split; [done|].
      unfold data, journal_data, file_data, inode_of. rewrite En. cbn. by rewrite Hi.
    - case_decide; cbn; [|done]. split; [|done]. split; cbn; rewrite lookup_insert_eq; [done|]. eexists. split; [done|].
      unfold data, journal_data, file_data, inode_of. by rewrite En. }
  intros [f|e] w1 H1; [|exists 0%nat; by rewrite app_nil_r]. destruct H1 as [Hj1 Ha].
  rewrite wp_bind. eapply wp_mono with (P := fun r w' => exists k, journal_at (f_ino f) (data ++ take k (d ++ [newline])) w' /\
    (is_ok r = true -> (length (d ++ [newline]) <= k)%nat)).
  - unfold write_file, file_Write. rewrite wp_bind, wp_bind. destruct Hj1 as [Hn (i & Hi & Hdata)].
    eapply wp_mono; [by eapply wp_inode_Write|]. intros r w2 (k & err & -> & Hk & Herr & Ht). rewrite Ha, pwrite_end, Hdata in Ht.
    rewrite wp_ret. cbv beta iota.
    assert (journal_at (f_ino f) (data ++ take (Z.to_nat k) (d ++ [newline])) w2) as Hj2.
    { destruct Ht as [Hnames _ _ _ _ _ (j & Hj & Hjd)]. split; [by rewrite Hnames|]. by exists j. }
    destruct err as [e|].
    + rewrite wp_bind. eapply wp_mono; [apply (wp_kept (journal_at (f_ino f) (data ++ take (Z.to_nat k) (d ++ [newline])))); [|done]|].
      { apply keeps_ignore, keeps_Close, _. }
      intros r w3 Hj3. destruct r; (exists (Z.to_nat k); split; [done|by intros [=]]).
    + rewrite wp_ret. exists (Z.to_nat k). split; [done|]. intros _. rewrite Herr by done. unfold zlen. by rewrite Nat2Z.id.
  - intros [f'|e] w2 (k & Hj2 & Hk); [|exists k; split; [by apply journal_at_data in Hj2|done]].
    apply wp_mono with (P := fun _ w' => journal_at (f_ino f) (data ++ take k (d ++ [newline])) w').
    { apply wp_kept; [|done]. keeps; apply keeps_journal_Sync. }
    intros r w3 Hj3. exists k. split; [by apply journal_at_data in Hj3|]. intros _. by apply Hk.
Qed.

(** Whatever fails, reading the journal tells what its text says, or fails; without a failure it tells it. *)
Lemma wp_readJournal w : world_wf w -> wp readJournal w (fun r w' => same_files w w' /\
  forall records, r = Ok records -> decode_lines (scan_lines (journal_data dir w) []) = Ok records).
Proof.
  intros Hw. unfold Journal.readJournal. rewrite wp_bind, wp_try.
  eapply wp_mono with (P := fun r w' => same_files w w' /\ match r with
    | Ok f => w_names w !! journalPath dir = Some (f_ino f) /\ f_pos f = 0
    | Err e => is_NotExist e = true -> w_names w !! journalPath dir = None end).
  { apply wp_syscall; intros fs; [by split|]. unfold wp. cbn. destruct (w_names w !! journalPath dir); by split. }
  intros [f|e] w1 [Hs1 H1].
  - destruct H1 as [Hn Hpos]. rewrite wp_defer, wp_bind, wp_wrap. eapply wp_mono; [apply wp_ReadAll|].
    intros [data|e] w2 [Hs2 Hd].
    2: { eapply wp_mono; [apply (wp_kept (same_files w)); [apply keeps_Close, _|exact (same_files_trans _ _ _ Hs1 Hs2)]|]. intros r w3 ?. by split. }
    rewrite wp_lift. eapply wp_mono; [apply (wp_kept (same_files w)); [apply keeps_Close, _|exact (same_files_trans _ _ _ Hs1 Hs2)]|].
    intros r w3 ?. split; [done|]. destruct (Hd data eq_refl) as (i & Hi & ->). rewrite Hpos, zdrop_0 by lia.
    destruct Hs1 as (_ & E2 & _). rewrite E2 in Hi. unfold journal_data, file_data, inode_of. rewrite Hn. cbn. by rewrite Hi.
  - destruct (is_NotExist e) eqn:Ee; [|by split]. rewrite wp_ret. split; [done|]. intros records [= <-].
    unfold journal_data, file_data, inode_of. by rewrite H1.
Qed.
Lemma readJournal_fine w : world_wf w -> w_faults w = [] -> (readJournal w).1 = decode_lines (scan_lines (journal_data dir w) []).
Proof.
  intros Hw Hf. unfold Journal.readJournal, bind, try_, os_Open, os_OpenFile, syscall, next_outcome. rewrite Hf. cbn.
  unfold journal_data, file_data, inode_of. destruct (w_names w !! journalPath dir) as [n|] eqn:En; cbn; [|done].
  destruct (wf_names _ Hw _ _ En) as [i Hi]. rewrite Hi. cbn.
  unfold defer_, wrap, bind, file_ReadAll, syscall, next_outcome. cbn. rewrite Hi. cbn. by rewrite zdrop_0.
Qed.
End ReadBack.

(** C22. What is appended to the journal is read back.  After an attempt to append a
    record to a journal whose records all have their line, with any failures, the
    journal reads without failures as the records before and the new one, or else the
    attempt has reported an error and the journal reads as before, unless the
    record has been cut in the middle. *)
Theorem append_then_read json_journal decode_record dir w record d records :
  world_wf w -> json_journal record = Ok d -> decode_record d = Ok record -> newline ∉ d -> last d <> Some Byte.x0d -> zlen d < maximum_line ->
  complete (journal_data dir w) -> decode_lines decode_record (scan_lines (journal_data dir w) []) = Ok records ->
  let '(result, w1) := appendJournal json_journal dir record w in
  forall w2, same_files w1 w2 -> world_wf w2 -> w_faults w2 = [] ->
  let read := (readJournal decode_record dir w2).1 in
  read = Ok (records ++ [record])
  \/ result <> Ok tt /\ (read = Ok records \/ exists k, (0 < k < length d)%nat /\ journal_data dir w2 = journal_data dir w ++ take k d).
Proof.
  intros Hw Hj Hdec Hnl Hcr Hsmall Hc Hrecords. pose proof (wp_appendJournal json_journal dir record d w Hw Hj) as H. unfold wp in H.
  destruct (appendJournal json_journal dir record w) as [result w1]. cbn [fst snd] in H. destruct H as (k & Hdata & Hk).
  intros w2 Hs Hw2 Hf. cbv zeta. rewrite (readJournal_fine decode_record dir w2 Hw2 Hf).
  assert (journal_data dir w2 = journal_data dir w ++ take k (d ++ [newline])) as Hdata2 by (unfold journal_data; rewrite (same_files_data w1) by done; exact Hdata).
  rewrite Hdata2. assert (decode_lines decode_record [d] = Ok [record]) as Hone.
  { cbn. destruct (zlen d >=? maximum_line) eqn:E; [lia|]. by rewrite drop_return_other, Hdec. }
  destruct (decide (length d < k)%nat) as [Hlong|Hshort].
  - left. rewrite take_ge by (rewrite length_app; cbn; lia). rewrite scan_lines_complete by done.
    rewrite (decode_lines_app decode_record _ _ records) by done. by rewrite scan_line, Hone.
  - assert (result <> Ok tt) as Hbad by (intros E%Hk; rewrite length_app in E; cbn in E; lia). rewrite take_app_le by lia.
    destruct (decide (k = 0%nat)) as [->|Hk0]; [right; split; [done|left]; by rewrite take_0, app_nil_r|].
    destruct (decide (k = length d)) as [->|Hkd]; [left|right; split; [done|right]; exists k; split; [lia|done]].
    rewrite firstn_all, scan_lines_complete by done. rewrite (decode_lines_app decode_record _ _ records) by done.
    rewrite scan_lines_plain by done. cbn. destruct d as [|x d]; [cbn in Hk0; lia|]. by rewrite Hone.
Qed.

(** A record is appended to an empty directory; the codec knows this record. *)
Definition sample_record : JournalRecord :=
  {| jr_OperationID := "compact-00000000000000000007"; jr_SessionID := "a"; jr_Kind := "compact"; jr_Phase := "prepared";
     jr_TempPath := None; jr_FinalPath := None; jr_Candidate := None; jr_Native := no_native |}.
Definition sample_text : bytes := [Byte.x7b; Byte.x7d].
Definition sample_decode (data : bytes) : result JournalRecord :=
  if bool_decide (data = sample_text) then Ok sample_record else Err (errors_new "unexpected data").
(** The directory of the session, with no file yet. *)
Definition fresh_world : world :=
  {| w_names := ∅; w_inodes := ∅; w_dirs := {[ ["sessions"%string] ]}; w_durable := ∅; w_next := 0%nat; w_clock := 0; w_faults := []; w_locked := ∅ |}.
Lemma fresh_wf : world_wf fresh_world.
Proof. split; [by intros p n H|by intros n [i H]]. Qed.
Lemma append_then_read_witness :
  world_wf fresh_world /\
  let '(result, w1) := appendJournal (fun _ => Ok sample_text) ["sessions"%string] sample_record fresh_world in
  forall w2, same_files w1 w2 -> world_wf w2 -> w_faults w2 = [] ->
  let read := (readJournal sample_decode ["sessions"%string] w2).1 in
  read = Ok ([] ++ [sample_record])
  \/ result <> Ok tt /\ (read = Ok [] \/ exists k, (0 < k < length sample_text)%nat
       /\ journal_data ["sessions"%string] w2 = journal_data ["sessions"%string] fresh_world ++ take k sample_text).
Proof.
  split; [apply fresh_wf|].
  refine (append_then_read (fun _ => Ok sample_text) sample_decode ["sessions"%string] fresh_world sample_record sample_text []
    _ eq_refl _ _ _ _ _ _).
  - apply fresh_wf.
  - by vm_compute.
  - unfold sample_text, newline. set_solver.
  - by vm_compute.
  - by vm_compute.
  - left. by vm_compute.
  - by vm_compute.
Defined.
