(* ===== verification/Interrupted.v ===== *)
(** Checkpoints whose publication was interrupted: the rest of
    [src/internal/vfs/state_checkpoint.go] and [state_writer_recovery.go].

    While a retirement pins a checkpoint, a publication that was cut short between the
    checkpoint file and the catalog is completed when its checkpoint is the only direct
    child of the current one and describes the files as they are.
    [LoadSessionStateWithWriterLease] does this, or restores the state file, for a caller
    that holds the writer lease. *)
From S2P Require Import Prelude GoStd Effects ObjectReader Manifest View Os Mutation Lease Session StateFile Cow Writer Foreground Compact Store Walk Metadata Checkpoint Publish Journal.
Local Open Scope Z_scope.

(** ** Names of temporaries *)

Definition letter_or_digit (c : Ascii.ascii) : bool :=
  let n := Ascii.nat_of_ascii c in
  ((48 <=? n) && (n <=? 57))%nat || ((97 <=? n) && (n <=? 122))%nat || ((65 <=? n) && (n <=? 90))%nat.
Definition safeStateTemporaryToken (token : string) : bool :=
  negb (string_is token "") && forallb letter_or_digit (chars token).
(** The token between a prefix and [.tmp]. *)
Definition temporary_token (prefix name : string) : option string :=
  match strip_prefix prefix name with
  | Some rest => if has_suffix ".tmp" name then Some (strings_TrimSuffix rest ".tmp") else None
  | None => None
  end.
Definition recoverableStateMetadataTemporaryName (name : string) : bool :=
  match temporary_token ".state-primary-" name with
  | Some token => safeStateTemporaryToken token
  | None =>
      match temporary_token ".state-catalog-" name with
      | Some token => safeStateTemporaryToken token
      | None =>
          match temporary_token ".state-" name with
          | Some token => negb (string_is token "") && forallb is_digit (chars token)
          | None => false
          end
      end
  end.

(** [Lstat] and the check that the file is regular and small. *)
Definition stat_bounded (p : path) (message : string) : OS FileInfo :=
  let* info := os_Stat p in
  if negb (fi_regular info) || (fi_size info >? maximumStateCheckpointBytes) then fail (errors_new message) else ret info.

Definition readBoundedStateCheckpointFile (p : path) : OS bytes :=
  let* before := stat_bounded p "session state checkpoint evidence is not a bounded regular file" in
  let* file := os_Open p in
  let* opened := or_else (file_Stat file) (file_Close file) in
  if negb (fi_regular opened) || negb (os_SameFile before opened) then
    ignore (file_Close file) ;;; fail (errors_new "session state checkpoint evidence changed while it was opened")
  else
    let* read := try_ (file_ReadAll file) in
    let* closeErr := error_of (file_Close file) in
    throw (errors_join [err_of read; closeErr]) ;;;
    let* data := lift read in
    let data := ztake (maximumStateCheckpointBytes + 1) data in
    if zlen data >? maximumStateCheckpointBytes then fail (errors_new "session state checkpoint evidence exceeds its size limit")
    else
      let* after := os_Stat p in
      if negb (fi_regular after) || negb (os_SameFile opened after) || negb (fi_size after =? zlen data)
         || negb (fi_mtime after =? fi_mtime opened)
      then fail (errors_new "session state checkpoint evidence changed while it was read")
      else ret data.

Definition syncAndVerifyStateCheckpointCandidate (p : path) (expected : bytes) : OS unit :=
  let* before := stat_bounded p "session state checkpoint candidate is not a bounded regular file" in
  let* file := os_Open p in
  let* opened := try_ (file_Stat file) in
  match opened with
  | Err e => ignore (file_Close file) ;;; fail e
  | Ok opened =>
      if negb (fi_regular opened) || negb (os_SameFile before opened) then
        ignore (file_Close file) ;;; fail (errors_new "session state checkpoint candidate changed while it was opened")
      else
        let* syncErr := error_of (file_Sync file) in
        let* closeErr := error_of (file_Close file) in
        throw (errors_join [syncErr; closeErr]) ;;;
        let* data := readBoundedStateCheckpointFile p in
        if negb (bool_decide (data = expected)) then fail (errors_new "session state checkpoint candidate changed after sync")
        else ret tt
  end.

(** The directory of checkpoints, which is no file. *)
Definition checkpoint_directory (directory : path) : OS unit :=
  let* info := os_Stat directory in
  if fi_regular info then fail (errors_new "session state checkpoint path is not a directory") else ret tt.
Definition temporaries_of (entries : list (string * bool)) : list string :=
  filter (fun name => checkpoint_temporary name = true) entries.*1.
Definition validateStateCheckpointTemporaries (metadataDirectory : path) : OS unit :=
  let directory := generations_of metadataDirectory in
  checkpoint_directory directory ;;;
  let* entries := os_ReadDirEntries directory in
  for_each (fun name =>
    let* _ := stat_bounded (name :: directory) "session state checkpoint temporary is not a bounded regular file" in ret tt)
    (temporaries_of entries).
Definition cleanupStateCheckpointTemporaries (metadataDirectory : path) : OS unit :=
  validateStateCheckpointTemporaries metadataDirectory ;;;
  let directory := generations_of metadataDirectory in
  let* entries := os_ReadDirEntries directory in
  for_each (fun name => wrap "remove superseded session state checkpoint temporary: %w" (os_Remove (name :: directory)))
    (temporaries_of entries) ;;;
  match temporaries_of entries with [] => ret tt | _ => sync_dir directory end.

Record interruptedStateCheckpointCandidate := {
  ic_checkpoint : sessionStateCheckpoint;
  ic_data : bytes;
  ic_temporaryPaths : list path;
  ic_final : bool;
}.

Section Interrupted.
Variable sha256 : bytes -> bytes.
Variable json_Marshal : SessionState -> result bytes.
Variable json_Unmarshal : bytes -> result SessionState.
Variable decode_checkpoint : bytes -> result sessionStateCheckpoint.
Variable json_catalog : sessionStateCatalog -> result bytes.
Variable decode_catalog : bytes -> result sessionStateCatalog.
Variable decode_pin : bytes -> result string.
Variable json_manifest : bytes -> result Manifest.
Variable LoadSessionDeletion : path -> string -> OS SessionDeletion.

Local Abbreviation digestStateBytes := (digestStateBytes sha256).
Local Abbreviation loadStateCheckpointChain := (loadStateCheckpointChain sha256 json_Marshal decode_checkpoint decode_catalog).
Local Abbreviation loadCatalogStateCheckpoint := (loadCatalogStateCheckpoint sha256 json_Marshal decode_checkpoint decode_catalog).
Local Abbreviation decodeStateCheckpoint := (decodeStateCheckpoint sha256 json_Marshal decode_checkpoint).
Local Abbreviation verifyStateCheckpointArtifactsForChain := (verifyStateCheckpointArtifactsForChain sha256 json_Marshal json_manifest).
Local Abbreviation readSessionState := (readSessionState json_Unmarshal).
Local Abbreviation agrees := (agrees sha256).
Local Abbreviation candidates := (gmap string interruptedStateCheckpointCandidate).

(** ** Adoption *)

(** The names of the checkpoints in the lineage. *)
Definition names_of_lineage (chain : stateCheckpointChain) : gset string :=
  map_fold (fun digest c names =>
    {[stateCheckpointFilename (ss_Generation (cp_State c)) (cp_Sequence c) digest]} ∪ names) ∅ (ch_lineage chain).
Definition candidate_of (found : candidates) (checkpoint : sessionStateCheckpoint) (data : bytes) : interruptedStateCheckpointCandidate :=
  default {| ic_checkpoint := checkpoint; ic_data := data; ic_temporaryPaths := []; ic_final := false |} (found !! digestStateBytes data).
Definition add_temporary (p : path) (c : interruptedStateCheckpointCandidate) : interruptedStateCheckpointCandidate :=
  {| ic_checkpoint := ic_checkpoint c; ic_data := ic_data c; ic_temporaryPaths := ic_temporaryPaths c ++ [p]; ic_final := ic_final c |}.
Definition set_final (c : interruptedStateCheckpointCandidate) : interruptedStateCheckpointCandidate :=
  {| ic_checkpoint := ic_checkpoint c; ic_data := ic_data c; ic_temporaryPaths := ic_temporaryPaths c; ic_final := true |}.

(** The checkpoints of the directory that are not in the lineage; anything else there is an error. *)
Fixpoint find_candidates (directory : path) (chain : stateCheckpointChain) (names : list string) (found : candidates) : OS candidates :=
  match names with
  | [] => ret found
  | name :: names =>
      let p := name :: directory in
      if checkpoint_temporary name then
        let* data := readBoundedStateCheckpointFile p in
        match decodeStateCheckpoint data with
        | Err _ => find_candidates directory chain names found
        | Ok checkpoint =>
            if bool_decide (is_Some (ch_lineage chain !! digestStateBytes data)) then find_candidates directory chain names found
            else if negb (isDirectStateCheckpointChild chain checkpoint) then find_candidates directory chain names found
            else find_candidates directory chain names
                   (<[digestStateBytes data := add_temporary p (candidate_of found checkpoint data)]> found)
        end
      else if decide (name ∈ names_of_lineage chain) then find_candidates directory chain names found
      else
        let* data := readBoundedStateCheckpointFile p in
        match decodeStateCheckpoint data with
        | Err e => fail (errorf "unrecognized session state checkpoint evidence %s: %w" e)
        | Ok checkpoint =>
            if negb (string_is name (stateCheckpointFilename (ss_Generation (cp_State checkpoint)) (cp_Sequence checkpoint) (digestStateBytes data)))
               || negb (isDirectStateCheckpointChild chain checkpoint)
            then fail (errors_new "unresolved session state checkpoint branch prevents recovery: %s")
            else find_candidates directory chain names (<[digestStateBytes data := set_final (candidate_of found checkpoint data)]> found)
        end
  end.

(** The checkpoint file gets its final name. *)
Definition link_candidate (directory p : path) (candidate : interruptedStateCheckpointCandidate) : OS unit :=
  match ic_temporaryPaths candidate with
  | [] => fail (errors_new "interrupted state checkpoint has no durable publication source")
  | source :: _ =>
      wrap "sync interrupted state checkpoint temporary before adoption: %w" (syncAndVerifyStateCheckpointCandidate source (ic_data candidate)) ;;;
      let* linked := try_ (os_Link source p) in
      match linked with
      | Ok _ => ret tt
      | Err e =>
          if is_Exist e then
            let* existing := try_ (readBoundedStateCheckpointFile p) in
            match existing with
            | Ok existing => if bool_decide (existing = ic_data candidate) then ret tt
                             else fail (errors_new "interrupted state checkpoint final conflicts during adoption")
            | Err _ => fail (errors_new "interrupted state checkpoint final conflicts during adoption")
            end
          else fail (errorf "publish interrupted state checkpoint: %w" e)
      end ;;;
      sync_dir directory
  end.
Definition adopted_entry (chain : stateCheckpointChain) (checkpoint : sessionStateCheckpoint) (name digest : string) : sessionStateCatalog :=
  {| ca_Version := sessionStateCatalogVersion; ca_SessionID := ca_SessionID (ch_catalog chain);
     ca_Generation := ss_Generation (cp_State checkpoint); ca_Sequence := cp_Sequence checkpoint;
     ca_StateSHA256 := cp_StateSHA256 checkpoint; ca_Checkpoint := name; ca_CheckpointSHA256 := digest |}.
Definition adoptInterruptedStateCheckpoint (metadataDirectory : path) (chain : stateCheckpointChain) (digest : string)
    (candidate : interruptedStateCheckpointCandidate) : OS unit :=
  let directory := generations_of metadataDirectory in
  let checkpoint := ic_checkpoint candidate in
  let name := stateCheckpointFilename (ss_Generation (cp_State checkpoint)) (cp_Sequence checkpoint) digest in
  let p := name :: directory in
  (if ic_final candidate then
     wrap "sync interrupted state checkpoint final before adoption: %w" (syncAndVerifyStateCheckpointCandidate p (ic_data candidate))
   else link_candidate directory p candidate) ;;;
  let* data := try_ (readBoundedStateCheckpointFile p) in
  if negb (match data with Ok data => bool_decide (data = ic_data candidate) | Err _ => false end) then
    fail (errors_new "interrupted state checkpoint final changed before catalog adoption")
  else
    writeStateCatalog json_catalog metadataDirectory (adopted_entry chain checkpoint name digest) ;;;
    (if negb (bool_decide (cp_State checkpoint = cp_State (ch_checkpoint chain))) then
       wrap "publish adopted session state: %w" (writeSessionState json_Marshal (state_of metadataDirectory) (cp_State checkpoint))
     else ret tt) ;;;
    let* recovered := wrap "validate adopted state checkpoint lineage: %w"
      (loadStateCheckpointChain metadataDirectory (ca_SessionID (ch_catalog chain)) true) in
    if negb (string_is (ca_CheckpointSHA256 (ch_catalog recovered)) digest) then
      fail (errors_new "adopted state checkpoint is not the catalog head")
    else cleanupStateCheckpointTemporaries metadataDirectory.

Definition recoverPinnedStateCheckpointPublication (metadataDirectory : path) (sessionID : string) : OS unit :=
  let* pin := retirementCheckpointPin decode_pin LoadSessionDeletion metadataDirectory in
  match pin with
  | None => ret tt
  | Some pinnedSHA256 =>
      let* chain := loadStateCheckpointChain metadataDirectory sessionID false in
      if negb (bool_decide (is_Some (ch_lineage chain !! pinnedSHA256))) then
        fail (errors_new "retirement request checkpoint is not in the current state lineage")
      else
        let* persisted := try_ (readSessionState (state_of metadataDirectory)) in
        match agrees persisted chain with
        | None => fail (errors_new "primary session state changed before interrupted checkpoint recovery")
        | Some _ =>
            let directory := generations_of metadataDirectory in
            checkpoint_directory directory ;;;
            let* entries := os_ReadDirEntries directory in
            let* found := find_candidates directory chain entries.*1 ∅ in
            let* current := try_ (verifyStateCheckpointArtifactsForChain metadataDirectory chain) in
            let without_candidate :=
              match current with
              | Ok _ => cleanupStateCheckpointTemporaries metadataDirectory
              | Err _ => fail (errors_new "current session artifacts have no complete direct-child checkpoint proof")
              end in
            match map_to_list found with
            | [] => without_candidate
            | [(digest, candidate)] =>
                let* allowed := verifiedSupersededStateCheckpointData sha256 metadataDirectory (ch_lineage chain) (ic_checkpoint candidate) in
                let* verified := try_ (verifyStateCheckpointArtifactsAllowed sha256 json_Marshal json_manifest metadataDirectory
                  (ic_checkpoint candidate) allowed) in
                match verified with
                | Ok _ => adoptInterruptedStateCheckpoint metadataDirectory chain digest candidate
                | Err _ =>
                    if ic_final candidate then fail (errors_new "linked direct-child state checkpoint does not match current artifacts")
                    else without_candidate
                end
            | _ => fail (errors_new "multiple interrupted direct-child state checkpoints prevent recovery")
            end
        end
  end.

(** ** [LoadSessionStateWithWriterLease] *)

(** The state file is written again from the checkpoint, whose files are checked twice. *)
Definition restore_with_lease (p directory : path) (sessionID : string) : OS (SessionState * stateCheckpointChain) :=
  let* chain := loadStateCheckpointChain directory sessionID true in
  verifyStateCheckpointArtifactsForChain directory chain ;;;
  verifyStateCheckpointArtifactsForChain directory chain ;;;
  writeSessionState json_Marshal p (cp_State (ch_checkpoint chain)) ;;;
  let* recovered := readSessionState p in
  throw recovered.2 ;;;
  match agrees (Ok recovered) chain with
  | Some recovered => ret (recovered, chain)
  | None => fail (errors_new "restored session state does not match its checkpoint")
  end.

(** The metadata temporaries of the directory, each a small regular file. *)
Fixpoint metadata_temporaries (directory : path) (names : list string) : OS (list path) :=
  match names with
  | [] => ret []
  | name :: names =>
      if negb (recoverableStateMetadataTemporaryName name) then metadata_temporaries directory names
      else
        let* _ := stat_bounded (name :: directory) "session state metadata temporary is not a bounded regular file" in
        let* paths := metadata_temporaries directory names in
        ret ((name :: directory) :: paths)
  end.
Definition cleanupSupersededStateMetadataTemporaries (directory : path) (chain : stateCheckpointChain) : OS unit :=
  let* persisted := try_ (readSessionState (state_of directory)) in
  match agrees persisted chain with
  | None => fail (errors_new "primary session state is not authoritative enough to clean metadata temporaries")
  | Some _ =>
      verifyStateCheckpointArtifactsForChain directory chain ;;;
      let* entries := os_ReadDirEntries directory in
      let* paths := metadata_temporaries directory entries.*1 in
      match paths with
      | [] => ret tt
      | _ =>
          let* refreshed := try_ (loadStateCheckpointChain directory (ca_SessionID (ch_catalog chain)) true) in
          if negb (match refreshed with Ok r => bool_decide (ch_catalog r = ch_catalog chain) | Err _ => false end) then
            fail (errors_new "session state checkpoint changed before metadata temporary cleanup")
          else
            let* persisted := try_ (readSessionState (state_of directory)) in
            match agrees persisted chain with
            | None => fail (errors_new "primary session state changed before metadata temporary cleanup")
            | Some _ =>
                verifyStateCheckpointArtifactsForChain directory chain ;;;
                for_each os_Remove paths ;;;
                sync_dir directory
            end
      end
  end.

Definition LoadSessionStateWithWriterLease (p : path) : OS SessionState :=
  match canonical_state p with
  | None => fail (errors_new "session state recovery path is not canonical")
  | Some (directory, sessionID) =>
      let* state := try_ (readSessionState p) in
      let* catalogPresent := regularStateCatalogPresent directory in
      if negb catalogPresent then state_only state
      else
        let* chain := loadCatalogStateCheckpoint directory sessionID in
        match agrees state chain with
        | Some _ =>
            recoverPinnedStateCheckpointPublication directory sessionID ;;;
            let* recovered := readSessionState p in
            throw recovered.2 ;;;
            let* updated := loadStateCheckpointChain directory sessionID true in
            match agrees (Ok recovered) updated with
            | None => fail (errors_new "interrupted state checkpoint recovery did not publish its primary state")
            | Some recovered =>
                cleanupSupersededStateMetadataTemporaries directory updated ;;;
                ret recovered
            end
        | None =>
            let* (recovered, chain) := restore_with_lease p directory sessionID in
            cleanupSupersededStateMetadataTemporaries directory chain ;;;
            ret recovered
        end
  end.
End Interrupted.
