(* ===== verification/Recover.v ===== *)
(** Replaying the journal of a session ([src/internal/vfs/recover.go]).

    Each operation is finished or rolled back according to its latest record: a copy that
    was not published is removed, one that was published is made current, and what a
    compaction left is removed unless the session uses it.  The computation runs over the
    state that the [Session] holds and the world; [statePath] and [directory] are its
    fields. *)
From S2P Require Import Prelude GoStd Effects ObjectReader Manifest View Os Mutation Lease Session StateFile Cow Writer Foreground Compact Store Walk Metadata Checkpoint Publish Journal Interrupted.
Local Open Scope Z_scope.

Definition ErrSessionRecoveryDeferred : error := Sentinel "session recovery is deferred to periodic reload".
(** The zero value of a candidate that a record does not have. *)
Definition no_state : SessionState :=
  {| ss_Version := 0; ss_SessionID := ""; ss_Generation := 0; ss_ManifestPath := []; ss_ManifestSHA256 := ""; ss_BaseBytes := 0;
     ss_BaseSHA256 := ""; ss_DeltaPath := []; ss_BackingPath := None; ss_NativeSnapshot := no_native |}.
Definition candidate_state (record : JournalRecord) : SessionState := default no_state (jr_Candidate record).
Definition with_candidate (st : SessionState) (record : JournalRecord) : JournalRecord :=
  {| jr_OperationID := jr_OperationID record; jr_SessionID := jr_SessionID record; jr_Kind := jr_Kind record; jr_Phase := jr_Phase record;
     jr_TempPath := jr_TempPath record; jr_FinalPath := jr_FinalPath record; jr_Candidate := Some st; jr_Native := jr_Native record |}.
Definition resolved_as (phase : string) (record : JournalRecord) : JournalRecord :=
  {| jr_OperationID := jr_OperationID record; jr_SessionID := jr_SessionID record; jr_Kind := jr_Kind record; jr_Phase := phase;
     jr_TempPath := jr_TempPath record; jr_FinalPath := jr_FinalPath record; jr_Candidate := jr_Candidate record; jr_Native := jr_Native record |}.

Definition path_is (a : option path) (b : path) : bool := bool_decide (a = Some b).
Definition uses_path (st : SessionState) (p : path) : bool :=
  bool_decide (p = ss_DeltaPath st) || path_is (ss_BackingPath st) p.
(** [filepath.Clean] of a path that may be empty. *)
Definition clean (p : option path) : path := default ["."%string] p.

Definition validCOWTemporaryPath (directory : path) (p : option path) : bool :=
  match p with
  | Some (name :: parent) =>
      bool_decide (parent = directory)
      && match temporary_token ".backing-" name with Some token => safeStateTemporaryToken token | None => false end
  | _ => false
  end.
Definition valid_native (native : NativeFile) : bool := negb (nf_Bytes native <? 0) && validStateSHA256 (nf_SHA256 native).
Definition identity_differs (identity : sessionStateFileIdentity) (native : NativeFile) : bool :=
  negb (fid_Bytes identity =? nf_Bytes native) || negb (string_is (fid_SHA256 identity) (nf_SHA256 native)).

(** ** What a compaction may have left *)

Definition validateCompactJournalRecord (directory : path) (record : JournalRecord) : option error :=
  let candidate := candidate_state record in
  match compactOperationGeneration (jr_OperationID record) with
  | None => Some (errors_new "journal operation %s has an invalid compact identity")
  | Some generation =>
      if (generation =? 2 ^ 64 - 1) || negb (ss_Generation candidate =? generation + 1) then
        Some (errors_new "journal operation %s has an invalid compact identity")
      else
        match validateSessionStateForDirectory candidate directory with
        | Some e => Some (errorf "journal operation %s has an unsafe compact candidate: %w" e)
        | None =>
            let delta := delta_path directory (ss_Generation candidate) in
            if negb (path_is (nf_Path (jr_Native record)) (compact_target directory generation))
               || negb (path_is (jr_TempPath record) (state_temporary directory (ss_Generation candidate)))
               || negb (path_is (jr_FinalPath record) delta)
               || negb (bool_decide (ss_DeltaPath candidate = delta)) || negb (bool_decide (ss_BackingPath candidate = None))
            then Some (errors_new "journal operation %s has unsafe compact artifact paths")
            else if negb (valid_native (jr_Native record)) || negb (ss_BaseBytes candidate =? nf_Bytes (jr_Native record))
                    || negb (string_is (ss_BaseSHA256 candidate) (nf_SHA256 (jr_Native record)))
            then Some (errors_new "journal operation %s has an invalid compact source identity")
            else None
        end
  end.
Definition validateCompactArtifactsInactive (record : JournalRecord) (current : SessionState) (rollback : bool) : option error :=
  if uses_path current (clean (nf_Path (jr_Native record))) || uses_path current (clean (jr_TempPath record)) then
    Some (errors_new "journal operation %s compact %s overlaps current session data")
  else if rollback && uses_path current (clean (jr_FinalPath record)) then
    Some (errors_new "journal operation %s compact rollback overlaps current session data")
  else None.
Definition validateCompactSuccessor (directory : path) (record : JournalRecord) (current : SessionState) : option error :=
  let candidate := candidate_state record in
  match validateCompactJournalRecord directory record with
  | Some e => Some e
  | None =>
      if negb (string_is (ss_SessionID current) (ss_SessionID candidate))
         || negb (bool_decide (compactOperationGeneration (jr_OperationID record) = Some (ss_Generation current)))
         || negb (ss_Generation candidate =? u64 (ss_Generation current + 1)) || negb (ss_Version candidate =? ss_Version current)
         || negb (bool_decide (ss_NativeSnapshot candidate = ss_NativeSnapshot current))
      then Some (errors_new "journal operation %s is not an exact compact successor")
      else validateCompactArtifactsInactive record current true
  end.

Section Recover.
Variable sha256 : bytes -> bytes.
Variable json_Marshal : SessionState -> result bytes.
Variable json_Unmarshal : bytes -> result SessionState.
Variable decode_state : bytes -> result SessionState.
Variable json_checkpoint : sessionStateCheckpoint -> result bytes.
Variable decode_checkpoint : bytes -> result sessionStateCheckpoint.
Variable json_catalog : sessionStateCatalog -> result bytes.
Variable decode_catalog : bytes -> result sessionStateCatalog.
Variable decode_pin : bytes -> result string.
Variable json_manifest : bytes -> result Manifest.
Variable json_journal : JournalRecord -> result bytes.
Variable decode_record : bytes -> result JournalRecord.
Variable LoadSessionDeletion : path -> string -> OS SessionDeletion.
Variable pid : string.
Variable lock_attempts : nat.
Variable map_order : gset string -> list string.

Local Abbreviation captureRegularFileIdentity := (captureRegularFileIdentity sha256).
Local Abbreviation readSessionState := (readSessionState json_Unmarshal).
Local Abbreviation appendJournal := (appendJournal json_journal).
Local Abbreviation retirementCheckpointPin := (retirementCheckpointPin decode_pin LoadSessionDeletion).
Local Abbreviation LoadSessionStateWithWriterLease := (LoadSessionStateWithWriterLease sha256 json_Marshal json_Unmarshal decode_checkpoint
  json_catalog decode_catalog decode_pin json_manifest LoadSessionDeletion).
Local Abbreviation loadStateCheckpointChain := (loadStateCheckpointChain sha256 json_Marshal decode_checkpoint decode_catalog).
Local Abbreviation publishSessionState := (Publish.publishSessionState sha256 json_Marshal json_Unmarshal json_checkpoint decode_checkpoint
  json_catalog decode_catalog json_manifest lock_attempts map_order).
Local Abbreviation LoadSessionState := (Publish.LoadSessionState sha256 json_Marshal json_Unmarshal decode_state json_checkpoint decode_checkpoint
  json_catalog decode_catalog json_manifest pid lock_attempts (legacyMigrationJournalData decode_record) map_order).
Local Abbreviation refreshSessionStateCheckpoint := (fun p st =>
  refreshSessionStateCheckpointWithActiveIdentity sha256 json_Marshal json_Unmarshal json_checkpoint decode_checkpoint
    json_catalog decode_catalog decode_pin LoadSessionDeletion lock_attempts map_order p st None).
Local Abbreviation upgradeLegacySessionStateValue := (upgradeLegacySessionStateValue sha256 json_manifest).

(** ** Removing artifacts *)

Definition remove_owned (p : path) (check : FileInfo -> OS unit) : OS bool :=
  let* info := try_ (os_Stat p) in
  match info with
  | Err e => if is_NotExist e then ret false else fail e
  | Ok info =>
      if negb (fi_regular info) then fail (errors_new "journal operation %s compact artifact is not a regular file: %s")
      else check info ;;; os_Remove p ;;; ret true
  end.
Definition check_scratch (record : JournalRecord) (info : FileInfo) : OS unit :=
  let* identity := captureRegularFileIdentity (clean (nf_Path (jr_Native record))) in
  if identity_differs identity (jr_Native record) then
    fail (errors_new "journal operation %s compact scratch differs from its durable identity")
  else ret tt.
Definition check_state_temporary (info : FileInfo) : OS unit :=
  if fi_size info >? maximumStateCheckpointBytes then fail (errors_new "journal operation %s compact state temporary is too large") else ret tt.
Definition check_empty (info : FileInfo) : OS unit :=
  if negb (fi_size info =? 0) then fail (errors_new "journal operation %s compact rollback delta is not empty") else ret tt.
Definition cleanupCompactArtifacts (directory : path) (record : JournalRecord) (rollback : bool) : OS unit :=
  throw (validateCompactJournalRecord directory record) ;;;
  let* scratch := remove_owned (clean (nf_Path (jr_Native record))) (check_scratch record) in
  let* temporary := remove_owned (clean (jr_TempPath record)) check_state_temporary in
  let* delta := (if rollback : bool then remove_owned (clean (jr_FinalPath record)) check_empty else ret false) in
  if scratch || temporary || delta then sync_dir directory else ret tt.

Definition cleanupCOWTemporary (directory : path) (record : JournalRecord) : OS unit :=
  match cowOperationGeneration (jr_OperationID record) with
  | None => fail (errors_new "journal operation %s has an invalid copy-on-write identity")
  | Some _ =>
      if negb (validCOWTemporaryPath directory (jr_TempPath record))
         || negb (bool_decide (clean (nf_Path (jr_Native record)) = clean (jr_TempPath record))) || negb (valid_native (jr_Native record))
      then fail (errors_new "journal operation %s has unsafe copy-on-write temporary")
      else
        let p := clean (jr_TempPath record) in
        let* identity := try_ (captureRegularFileIdentity p) in
        match identity with
        | Err e => if is_NotExist e then ret tt else fail (errorf "verify journal-owned copy-on-write temporary: %w" e)
        | Ok identity =>
            if identity_differs identity (jr_Native record) then
              fail (errors_new "journal operation %s copy-on-write temporary differs from its durable identity")
            else
              wrap "remove journal-owned copy-on-write temporary: %w" (os_Remove p) ;;;
              sync_dir directory
        end
  end.

(** ** Loading *)

Definition loadSessionStateForJournalReplayWithWriterLease (p : path) : OS SessionState :=
  match canonical_state p with
  | None => fail (errors_new "session journal recovery path is not canonical")
  | Some (directory, sessionID) =>
      let* state := try_ (readSessionState p) in
      let* catalogPresent := regularStateCatalogPresent directory in
      if negb catalogPresent then
        let* st := state_only state in
        throw (validateSessionStateForDirectory st directory) ;;;
        ret st
      else
        let* chain := loadCatalogStateCheckpoint sha256 json_Marshal decode_checkpoint decode_catalog directory sessionID in
        match agrees sha256 state chain with
        | Some st => ret st
        | None =>
            let st := cp_State (ch_checkpoint chain) in
            throw (validateSessionStateForDirectory st directory) ;;;
            ret st
        end
  end.
Definition loadJournalReplayState (statePath : path) (writerLeaseHeld : bool) : OS SessionState :=
  if writerLeaseHeld then loadSessionStateForJournalReplayWithWriterLease statePath else LoadSessionState statePath.

(** ** Publications under a pinned checkpoint *)

(** The candidate was adopted, or the current state stays, or something else happened. *)
Definition recovered_as (message : string) (candidate current recovered : SessionState) : OS (SessionState * bool) :=
  if bool_decide (recovered = candidate) then ret (recovered, true)
  else if bool_decide (recovered = current) then ret (recovered, false)
  else fail (errors_new message).

Definition recoverPinnedCompactPublication (statePath directory : path) (record : JournalRecord) (current : SessionState)
  : OS (SessionState * bool) :=
  throw (validateCompactJournalRecord directory record) ;;;
  if negb (bool_decide (compactOperationGeneration (jr_OperationID record) = Some (ss_Generation current))) then
    fail (errors_new "journal operation %s is not a successor of the current compact state")
  else
    throw (validateCompactSuccessor directory record current) ;;;
    let* pin := retirementCheckpointPin directory in
    match pin with
    | None => ret (current, false)
    | Some _ =>
        cleanupCompactArtifacts directory record false ;;;
        let* recovered := LoadSessionStateWithWriterLease statePath in
        recovered_as "journal operation %s conflicts with recovered compact state" (candidate_state record) current recovered
    end.

(** Is there a checkpoint file that may have been published without its catalog? *)
Fixpoint find_evidence (directory : path) (chain : stateCheckpointChain) (names : list string) : OS bool :=
  match names with
  | [] => ret false
  | name :: names =>
      if decide (name ∈ names_of_lineage chain) then find_evidence directory chain names
      else if checkpoint_temporary name then
        let* data := readBoundedStateCheckpointFile (name :: directory) in
        match decodeStateCheckpoint sha256 json_Marshal decode_checkpoint data with
        | Ok checkpoint => if isDirectStateCheckpointChild chain checkpoint then ret true else find_evidence directory chain names
        | Err _ => find_evidence directory chain names
        end
      else ret true
  end.
Definition hasInterruptedStateCheckpointEvidence (directory : path) (sessionID : string) : OS bool :=
  let* chain := loadStateCheckpointChain directory sessionID false in
  let generations := generations_of directory in
  let* entries := os_ReadDirEntries generations in
  find_evidence generations chain entries.*1.

Definition recoverPinnedCOWPublication (statePath directory : path) (record : JournalRecord) (current : SessionState)
  : OS (SessionState * bool) :=
  let* pin := retirementCheckpointPin directory in
  match pin with
  | None => ret (current, false)
  | Some _ =>
      let* evidence := hasInterruptedStateCheckpointEvidence directory (ss_SessionID current) in
      if negb evidence then ret (current, false)
      else
        let* recovered := LoadSessionStateWithWriterLease statePath in
        recovered_as "journal operation %s conflicts with recovered copy-on-write state" (candidate_state record) current recovered
  end.

Definition validateCOWPublishedRecord (directory : path) (record : JournalRecord) (current : SessionState) : OS unit :=
  let candidate := candidate_state record in
  let next := ss_Generation candidate in
  if (next =? 0) || negb (bool_decide (cowOperationGeneration (jr_OperationID record) = Some (u64 (next - 1)))) then
    fail (errors_new "journal operation %s has an invalid copy-on-write identity")
  else
    match jr_FinalPath record with
    | None => fail (errors_new "journal operation %s has incomplete published state")
    | Some final =>
        if negb (path_is (ss_BackingPath candidate) final) then fail (errors_new "journal operation %s has incomplete published state")
        else
          throw (option_map (errorf "journal operation %s has unsafe candidate state: %w") (validateSessionStateForDirectory candidate directory)) ;;;
          if negb (bool_decide (final = backing_path directory next)) then
            fail (errors_new "journal operation %s has unsafe published backing %q")
          else if negb (validCOWTemporaryPath directory (nf_Path (jr_Native record))) || negb (valid_native (jr_Native record)) then
            fail (errors_new "journal operation %s has invalid backing identity")
          else
            throw (if ss_Generation current =? next then
                     if bool_decide (current = candidate) then None
                     else Some (errors_new "journal operation %s conflicts with current session state")
                   else if ss_Generation current =? 2 ^ 64 - 1 then
                     Some (errors_new "journal operation %s cannot advance the maximum generation")
                   else if bool_decide (with_backing current (ss_Generation current + 1) final = candidate) then None
                   else Some (errors_new "journal operation %s is not an exact copy-on-write successor")) ;;;
            let* identity := wrap "journal operation %s published backing cannot be verified: %w" (captureRegularFileIdentity final) in
            if identity_differs identity (jr_Native record) then
              fail (errors_new "published backing identity differs from its journal")
            else ret tt
    end.

(** ** Replaying one operation *)

Local Abbreviation Replay := (Walk SessionState).
Definition held_state : Replay SessionState := fun s => (Ok s.1, s).
Definition hold (st : SessionState) : Replay unit := note (fun _ => st).

Definition replay_terminal (statePath directory : path) (leaseHeld : bool) (record : JournalRecord) : OS unit :=
  let rollback := string_is (jr_Phase record) "rolled-back" in
  if string_is (jr_Kind record) "compact" then
    let* st := loadJournalReplayState statePath leaseHeld in
    throw (validateCompactArtifactsInactive record st rollback) ;;;
    cleanupCompactArtifacts directory record rollback
  else if string_is (jr_Kind record) "copy-on-write" then
    if rollback then cleanupCOWTemporary directory record else ret tt
  else fail (errors_new "journal operation %s has unknown kind %q").

(** A compaction that was about to publish: is its candidate current, or has it been rolled back? *)
Definition replay_compact (statePath directory : path) (record : JournalRecord) (st : SessionState) : Replay unit :=
  let candidate := candidate_state record in
  let* resolution :=
    (if ss_Generation st <? ss_Generation candidate then
       let* (recovered, adopted) := at_disk (recoverPinnedCompactPublication statePath directory record st) in
       ret (if (adopted : bool) then Some recovered else None)
     else ret (Some st)) in
  match resolution with
  | None =>
      at_disk (cleanupCompactArtifacts directory record true) ;;;
      at_disk (appendJournal directory (resolved_as "rolled-back" record))
  | Some st =>
      if negb (bool_decide (st = candidate)) then fail (errors_new "journal operation %s conflicts with current compacted state")
      else
        hold st ;;;
        at_disk (appendJournal directory (resolved_as "complete" record)) ;;;
        at_disk (cleanupCompactArtifacts directory (resolved_as "complete" record) false)
  end.
Definition replay_cow (statePath directory : path) (record : JournalRecord) (st : SessionState) : Replay unit :=
  let candidate := candidate_state record in
  at_disk (validateCOWPublishedRecord directory record st) ;;;
  let* st :=
    (if ss_Generation st <? ss_Generation candidate then
       let* (recovered, adopted) := at_disk (recoverPinnedCOWPublication statePath directory record st) in
       if (adopted : bool) then hold recovered ;;; ret recovered else ret st
     else ret st) in
  (if ss_Generation st <? ss_Generation candidate then
     at_disk (publishSessionState statePath candidate) ;;;
     hold candidate
   else ret tt) ;;;
  at_disk (appendJournal directory (resolved_as "complete" record)).
Definition replay_published (statePath directory : path) (leaseHeld : bool) (record : JournalRecord) : Replay unit :=
  let* held := held_state in
  let candidate := candidate_state record in
  if negb (string_is (ss_SessionID candidate) (ss_SessionID held)) || (ss_Generation candidate =? 0)
     || negb (pathWithin directory (ss_DeltaPath candidate))
     || negb (match ss_BackingPath candidate with Some b => pathWithin directory b | None => true end)
  then fail (errors_new "journal operation %s has unsafe candidate state")
  else
    let* st := at_disk (loadJournalReplayState statePath leaseHeld) in
    if string_is (jr_Kind record) "compact" then replay_compact statePath directory record st
    else if string_is (jr_Kind record) "copy-on-write" then replay_cow statePath directory record st
    else fail (errors_new "journal operation %s has unknown kind %q").

Definition replay_prepared (statePath directory : path) (leaseHeld : bool) (record : JournalRecord) : OS unit :=
  (if string_is (jr_Kind record) "copy-on-write" then cleanupCOWTemporary directory record
   else if string_is (jr_Kind record) "compact" then
     let* st := loadJournalReplayState statePath leaseHeld in
     throw (validateCompactSuccessor directory record st) ;;;
     cleanupCompactArtifacts directory record true
   else fail (errors_new "journal operation %s has unknown kind %q")) ;;;
  appendJournal directory (resolved_as "rolled-back" record).

Definition phase_in (phases : list string) (record : JournalRecord) : bool := existsb (string_is (jr_Phase record)) phases.
Definition replay_record (statePath directory : path) (leaseHeld : bool) (record : JournalRecord) : Replay unit :=
  let* held := held_state in
  if negb (string_is (jr_SessionID record) "") && negb (string_is (jr_SessionID record) (ss_SessionID held)) then
    fail (errors_new "journal operation %s belongs to another session")
  else
    let candidate := candidate_state record in
    let* record :=
      (if (ss_Version candidate =? legacySessionStateVersion) && string_is (ss_ManifestSHA256 candidate) "" then
         let* upgraded := at_disk (wrap "upgrade legacy journal candidate %s: %w" (upgradeLegacySessionStateValue candidate directory)) in
         ret (with_candidate upgraded record)
       else ret record) in
    if is_terminal record then at_disk (replay_terminal statePath directory leaseHeld record)
    else if phase_in ["after-file-publish"; "state-publishing"; "state-published"]%string record then
      replay_published statePath directory leaseHeld record
    else if phase_in ["prepared"; "data-synced"]%string record then at_disk (replay_prepared statePath directory leaseHeld record)
    else fail (errors_new "journal operation %s has unknown phase %q").

(** ** The whole journal *)

(** The state that recovery ends with, and its checkpoint. *)
Definition finish_recovery (statePath : path) (leaseHeld : bool) : Replay unit :=
  let* persisted := at_disk (if leaseHeld then loadSessionStateForJournalReplayWithWriterLease statePath else LoadSessionState statePath) in
  hold persisted ;;;
  let* refreshed := try_ (at_disk (refreshSessionStateCheckpoint statePath persisted)) in
  match refreshed with
  | Ok _ => ret tt
  | Err e =>
      if negb leaseHeld then fail e
      else
        let* recovered := try_ (at_disk (LoadSessionStateWithWriterLease statePath)) in
        match recovered with
        | Err recoverErr => throw (errors_join [Some e; Some recoverErr])
        | Ok recovered =>
            hold recovered ;;;
            at_disk (refreshSessionStateCheckpoint statePath recovered)
        end
  end.
Definition replay_all (statePath directory : path) (leaseHeld : bool) (ordered : list JournalRecord) : Replay unit :=
  for_each (replay_record statePath directory leaseHeld) ordered ;;;
  finish_recovery statePath leaseHeld.
Definition latest_records (directory : path) : OS (list JournalRecord) :=
  let* records := readJournal decode_record directory in
  lift (latestJournalRecords records).

Definition recover (statePath directory : path) (ctx : Ctx) (writerLeaseHeld : bool) : Replay unit :=
  throw (ctx_Err ctx).1 ;;;
  let* ordered := at_disk (latest_records directory) in
  if writerLeaseHeld then replay_all statePath directory true ordered
  else
    let* acquired := try_ (at_disk (TryAcquireWriterLeaseGuardAtPath ("writer.lease"%string :: directory))) in
    match acquired with
    | Ok None =>
        if terminalJournalRecords ordered then ret tt
        else fail (errorf "acquire session journal recovery lease: %w" ErrWriterBusy)
    | Err e => fail (errorf "acquire session journal recovery lease: %w" e)
    | Ok (Some recoveryLease) =>
        defer_ (at_disk (guard_Close (Some recoveryLease))) (
          let* ordered := at_disk (latest_records directory) in
          replay_all statePath directory true ordered)
    end.
Definition session_Recover (statePath directory : path) (recoveryDeferred : bool) (ctx : Ctx) : Replay unit :=
  if recoveryDeferred then fail ErrSessionRecoveryDeferred else recover statePath directory ctx false.

Definition RecoverSessionJournalWithWriterLease (ctx : Ctx) (statePath : path) : OS SessionState :=
  throw (ctx_Err ctx).1 ;;;
  let* st := loadSessionStateForJournalReplayWithWriterLease statePath in
  let* _ := collecting st (recover statePath (filepath_Dir statePath) (ctx_Err ctx).2 true) in
  LoadSessionStateWithWriterLease statePath.
End Recover.
