(* ===== verification/Replay.v ===== *)
(** Replaying a journal loses nothing: whatever its records say and whatever fails, the
    session keeps a current checkpoint, no older than before, with the files it names,
    and the only other file of content that goes is the scratch file of a compaction. *)
From S2P Require Import Prelude GoStd Effects ObjectReader Manifest View Os Mutation Lease Session StateFile Cow Writer Foreground Compact Store Walk Metadata Checkpoint Publish History Lineage Catalog Succession Journal Interrupted Recover.
Local Open Scope Z_scope.

(** ** Steps that every managed invariant survives *)

Lemma keeps_stat_bounded P `{TickStable P} p m : keeps P (stat_bounded p m).
Proof. unfold stat_bounded. keeps. Qed.
Lemma keeps_readBounded P `{TickStable P} p : keeps P (readBoundedStateCheckpointFile p).
Proof. unfold readBoundedStateCheckpointFile. keeps. by apply keeps_stat_bounded. Qed.
#[export] Hint Resolve keeps_stat_bounded keeps_readBounded : keeps.

Section Managed.
Context (json_Marshal : SessionState -> result bytes) (json_Unmarshal : bytes -> result SessionState)
  (json_journal : JournalRecord -> result bytes).
Context {J : world -> Prop} {own : nat -> Prop} {may made leased : path -> Prop} `{Managed J own may made leased}.
Context (dir : path).

Lemma keeps_appendJournal record : leased (journalPath dir) -> keeps J (appendJournal json_journal dir record).
Proof.
  intros Hl w Hw. change (wp (appendJournal json_journal dir record) w (fun _ w' => J w')). unfold appendJournal.
  rewrite wp_bind, wp_lift. destruct (json_journal record); [|done].
  rewrite wp_bind, wp_wrap. eapply wp_mono; [apply md_Create; [by right|done]|]. intros [f|e] w1 [Hw1 Hf]; [|done].
  assert (own (f_ino f)) as Ho by (apply (Hf f eq_refl); by right). apply (wp_kept J); [|done]. unfold write_file. keeps.
Qed.
Lemma keeps_TryAcquireGuard p : keeps J (TryAcquireWriterLeaseGuardAtPath p).
Proof. unfold TryAcquireWriterLeaseGuardAtPath, openWriterLeaseFile, tryLockLease, unlockLease. keeps. Qed.
Lemma keeps_syncAndVerify p d : keeps J (syncAndVerifyStateCheckpointCandidate p d).
Proof. unfold syncAndVerifyStateCheckpointCandidate. keeps. Qed.

End Managed.

Lemma temporary_token_prefix prefix name token : temporary_token prefix name = Some token -> String.prefix prefix name = true.
Proof. unfold temporary_token. destruct (strip_prefix prefix name) as [rest|] eqn:E; [|done]. intros _. apply strip_prefix_Some in E as ->. apply prefix_app. Qed.
Lemma prefix_split p q name : String.prefix (String.append p q) name = true -> String.prefix p name = true.
Proof.
  revert name. induction p as [|c p IH]; intros name; [by destruct name|]. change (String.append (String c p) q) with (String c (String.append p q)).
  destruct name as [|d name]; [done|]. cbn. case_match; [|done]. apply IH.
Qed.
Lemma recoverable_prefix name : recoverableStateMetadataTemporaryName name = true -> String.prefix ".state-" name = true.
Proof.
  unfold recoverableStateMetadataTemporaryName.
  destruct (temporary_token ".state-primary-" name) eqn:E1; [intros _; by apply (prefix_split _ "primary-"), (temporary_token_prefix _ _ _ E1)|].
  destruct (temporary_token ".state-catalog-" name) eqn:E2; [intros _; by apply (prefix_split _ "catalog-"), (temporary_token_prefix _ _ _ E2)|].
  destruct (temporary_token ".state-" name) eqn:E3; [intros _; by eapply temporary_token_prefix|done].
Qed.
Lemma keeps_for_each_in {S A} (J : S -> Prop) (f : A -> M S unit) l : (forall a, a ∈ l -> keeps J (f a)) -> keeps J (for_each f l).
Proof.
  induction l as [|a l IH]; intros Hf; cbn [for_each]; [keeps|]. apply keeps_bind; [apply Hf; by left|]. intros _. apply IH. intros b Hb. apply Hf. by right.
Qed.

(** ** Housekeeping *)

Section Housekeeping.
Context (sha256 : bytes -> bytes) (json_Marshal : SessionState -> result bytes) (json_Unmarshal : bytes -> result SessionState)
  (decode_checkpoint : bytes -> result sessionStateCheckpoint) (decode_catalog : bytes -> result sessionStateCatalog)
  (json_manifest : bytes -> result Manifest) (json_journal : JournalRecord -> result bytes).
Context (dir : path).
Local Abbreviation G := (generations_of dir).

(** An invariant that survives changes of the state file, of temporary files, of the locks and of the journal. *)
Class Housekeeper (J : world -> Prop) (own : nat -> Prop) (may made leased : path -> Prop) := {
  hk_managed :: Managed J own may made leased;
  hk_lock : forall store name, made (String.append name ".lock" :: "locks"%string :: store);
  hk_checkpoint : forall name, String.prefix ".state-checkpoint-" name = true -> may (name :: G);
  hk_metadata : forall name, String.prefix ".state-" name = true -> may (name :: dir);
  hk_backing : forall name, String.prefix ".backing-" name = true -> may (name :: dir);
  hk_state : may (state_of dir);
  hk_lease : leased (lease_of dir);
  hk_journal : leased (journalPath dir);
}.
Definition quiet {A} (m : OS A) : Prop := forall J own may made leased, Housekeeper J own may made leased -> keeps J m.

Ltac quiet := intros J own may made leased HK; pose proof (@hk_managed _ _ _ _ _ HK) as HM.

Lemma quiet_append record : quiet (appendJournal json_journal dir record).
Proof. quiet. apply (keeps_appendJournal json_journal (leased := leased)), hk_journal. Qed.
Lemma quiet_reads {A} (m : OS A) : (forall P, TickStable P -> keeps P m) -> quiet m.
Proof. intros Hm J own may made leased HK. apply Hm, md_tick. Qed.
Lemma quiet_guard p : quiet (TryAcquireWriterLeaseGuardAtPath p).
Proof. quiet. apply keeps_TryAcquireGuard. Qed.
Lemma quiet_guard_Close g : quiet (guard_Close g).
Proof. quiet. unfold guard_Close, unlockLease. keeps. Qed.
Lemma quiet_sync d : quiet (sync_dir d).
Proof. quiet. keeps. Qed.
Lemma quiet_write st : quiet (writeSessionState json_Marshal (state_of dir) st).
Proof.
  quiet. eapply (keeps_writeSessionState json_Marshal dir); [|done|apply hk_state].
  intros name Hn. apply hk_metadata. by apply (prefix_split _ "primary-").
Qed.
Lemma quiet_restore id : quiet (restore_with_lease sha256 json_Marshal json_Unmarshal decode_checkpoint decode_catalog json_manifest (state_of dir) dir id).
Proof. quiet. unfold restore_with_lease. keeps. by eapply (quiet_write _ J). Qed.
Lemma quiet_validate_temporaries : quiet (validateStateCheckpointTemporaries dir).
Proof.
  quiet. unfold validateStateCheckpointTemporaries, checkpoint_directory. keeps. apply keeps_for_each. intros name. keeps.
Qed.
Lemma quiet_cleanup_temporaries : quiet (cleanupStateCheckpointTemporaries dir).
Proof.
  quiet. unfold cleanupStateCheckpointTemporaries. apply keeps_bind; [by eapply quiet_validate_temporaries|]. intros _. keeps.
  apply keeps_for_each_in. intros name [Hn _]%list_elem_of_filter. apply keeps_wrap, md_Remove, hk_checkpoint.
  unfold checkpoint_temporary, is_temporary in Hn. by apply andb_true_iff in Hn as [? _].
Qed.
Lemma wp_metadata_temporaries J `{TickStable J} names : forall w, J w -> wp (metadata_temporaries dir names) w (fun r w' => J w' /\
  forall paths, r = Ok paths -> forall q, q ∈ paths -> exists name, q = name :: dir /\ String.prefix ".state-" name = true).
Proof.
  induction names as [|name names IH]; intros w Hw; cbn [metadata_temporaries]; [split; [done|]; intros paths [= <-] q ?%not_elem_of_nil; done|].
  destruct (recoverableStateMetadataTemporaryName name) eqn:E; cbn [negb]; [|by apply IH]. rewrite wp_bind.
  eapply wp_mono; [apply (wp_kept J); [unfold stat_bounded; keeps|done]|]. intros [info|e] w1 Hw1; [|by split]. rewrite wp_bind.
  eapply wp_mono; [by apply IH|]. intros [paths|e] w2 [Hw2 Hp]; [|by split]. rewrite wp_ret. split; [done|]. intros ? [= <-] q [->|Hq]%elem_of_cons.
  - exists name. split; [done|]. by apply recoverable_prefix.
  - by eapply Hp.
Qed.
Lemma quiet_cleanup_metadata chain :
  quiet (cleanupSupersededStateMetadataTemporaries sha256 json_Marshal json_Unmarshal decode_checkpoint decode_catalog json_manifest dir chain).
Proof.
  quiet. unfold cleanupSupersededStateMetadataTemporaries. apply keeps_bind; [keeps|]. intros persisted. destruct (agrees _ _ _); [|keeps].
  apply keeps_bind; [keeps|]. intros _. apply keeps_bind; [keeps|]. intros entries w Hw.
  match goal with |- J (?m w).2 => change (wp m w (fun _ w' => J w')) end. rewrite wp_bind.
  eapply wp_mono; [by apply (wp_metadata_temporaries J)|]. intros [paths|e] w1 [Hw1 Hp]; [|done]. specialize (Hp paths eq_refl).
  apply (wp_kept J); [|done]. destruct paths as [|p paths]; [keeps|]. revert Hp. generalize (p :: paths). intros l Hl.
  keeps. apply keeps_for_each_in. intros q Hq. destruct (Hl q Hq) as (name & -> & Hn). by apply md_Remove, hk_metadata.
Qed.
End Housekeeping.

(** ** The current state and its files *)

Section Current.
Context (sha256 : bytes -> bytes) (json_Marshal : SessionState -> result bytes)
  (decode_checkpoint : bytes -> result sessionStateCheckpoint) (decode_catalog : bytes -> result sessionStateCatalog).
Context (dir : path).
Local Abbreviation G := (generations_of dir).
Local Abbreviation F := (head_names dir).
Local Abbreviation L := (leased_name dir).
Local Abbreviation head := (head sha256 json_Marshal decode_checkpoint decode_catalog dir).
Local Abbreviation intact := (intact sha256 json_Marshal decode_checkpoint decode_catalog dir).
Local Abbreviation quiet := (quiet dir).

(** The state file, the catalog, checkpoints, locks, the journal and temporary files. *)
Definition housekeeping (q : path) : Prop :=
  store_files dir q \/ q = journalPath dir
  \/ exists name, q = name :: dir /\ (String.prefix ".state-" name = true \/ String.prefix ".backing-" name = true).
Definition present (st : SessionState) (w : world) : Prop := forall q, data_path st q -> ~ housekeeping q -> is_Some (w_names w !! q).

Context (w0 : world) (c0 : sessionStateCatalog) (Hw0 : world_wf w0) (Hp0 : private L w0).
(** What may go: a scratch file of a compaction, or a file without content. *)
Definition expendable (q : path) : Prop :=
  (exists name, q = name :: dir /\ String.prefix ".compact-" name = true) \/ file_data w0 q = Some [].
Definition kept (w : world) : Prop := steady (fun _ => False) L w0 w /\
  forall q, ~ housekeeping q -> w_names w !! q = w_names w0 !! q \/ w_names w !! q = None /\ expendable q.
(** The head is for [st], whose files are there. *)
Definition current (st : SessionState) (w : world) : Prop :=
  (exists c cp, intact (Some c) w /\ head c cp w /\ not_older c0 c /\ cp_State cp = st) /\ present st w /\ kept w.
Definition replayed (w : world) : Prop := exists st, current st w.

Lemma leased_housekeeping q : L q -> housekeeping q.
Proof using. intros [-> | ->]; [left; by apply store_file_names|by right; left]. Qed.
Lemma free_dotted o name : String.prefix ".state-" name = true \/ String.prefix ".backing-" name = true -> free dir o (name :: dir).
Proof using. intros [H|H]; apply free_in_dir; by eapply prefix_neq. Qed.

#[local] Instance housekeeper_untouched w : Housekeeper dir (untouched housekeeping w) (fun _ => True) housekeeping housekeeping housekeeping.
Proof using.
  destruct (store_file_names dir) as (H1 & H2 & H3 & H4 & H5 & H6 & H7 & H8). unfold housekeeping.
  split; try (by apply _); intros; auto; right; right; eauto.
Qed.
#[local] Instance housekeeper_steady o w : intact o w ->
  Housekeeper dir (steady (F o) L w) (mine L w) (free dir o) (free dir o) L.
Proof using.
  intros Hi. split; [apply (head_managed dir o w)|..].
  - apply free_lock.
  - intros name Hn. apply free_generation. by eapply intact_temporary.
  - intros name Hn. apply free_dotted. by left.
  - intros name Hn. apply free_dotted. by right.
  - by apply free_in_dir.
  - by left.
  - by right.
Qed.
#[local] Instance housekeeper_all w : Housekeeper dir (steady (fun _ => False) L w) (mine L w) (fun q => ~ False /\ ~ L q) (fun q => ~ False /\ ~ L q) L.
Proof using.
  split; [apply (steady_managed (fun _ => False) L w); by intros q []|..].
  - intros store name. split; [by intros []|]. by apply (proj2 (free_lock dir None store name)).
  - intros name Hn. split; [by intros []|]. intros [[= _ E]|[= _ E]]; by apply (cons_neq "state-generations"%string dir).
  - intros name Hn. split; [by intros []|]. exact (proj2 (free_dotted None name (or_introl Hn))).
  - intros name Hn. split; [by intros []|]. exact (proj2 (free_dotted None name (or_intror Hn))).
  - split; [by intros []|]. by apply not_leased.
  - by left.
  - by right.
Qed.

Lemma kept_step w w' : kept w -> steady (fun _ => False) L w w' -> untouched housekeeping w w' -> kept w'.
Proof using. intros [Hs Hn] Hs' Hu. split; [by eapply steady_trans|]. intros q Hq. rewrite (Hu q Hq). auto. Qed.
Lemma present_step st w w' : present st w -> untouched housekeeping w w' -> present st w'.
Proof using. intros Hp Hu q Hd Hq. rewrite (Hu q Hq). auto. Qed.
Lemma steady_any o w w' : steady (F o) L w w' -> steady (fun _ => False) L w w'.
Proof using. by apply steady_weaken. Qed.
(** The same head. *)
Lemma current_step st w w' : current st w -> (forall o, intact o w -> steady (F o) L w w') -> untouched housekeeping w w' -> current st w'.
Proof using.
  intros ((c & cp & Hi & Hh & Ho & Hst) & Hp & Hk) Hs Hu. specialize (Hs _ Hi). split_and!.
  - exists c, cp. split_and!; [by eapply steady_intact|exact (steady_head _ _ _ _ _ (Some c) c cp w w' Hi eq_refl Hh Hs)|done..].
  - by eapply present_step.
  - eapply kept_step; [done|by eapply steady_any|done].
Qed.
Lemma current_same st w w' : current st w -> same_files w w' -> current st w'.
Proof using.
  intros Hc Hs. apply (current_step st w w' Hc).
  - intros o Hi. eapply steady_same; [exact (intact_steady _ _ _ _ _ o w Hi)|done].
  - intros q _. by rewrite (proj1 Hs).
Qed.
Lemma quiet_current {A} (m : OS A) st : quiet m -> keeps (current st) m.
Proof using.
  intros Hm w Hc. apply (current_step st w _ Hc).
  - intros o Hi. apply (Hm _ _ _ _ _ (housekeeper_steady o w Hi)). exact (intact_steady _ _ _ _ _ o w Hi).
  - by apply (Hm _ _ _ _ _ (housekeeper_untouched w)).
Qed.
Lemma quiet_replayed {A} (m : OS A) : quiet m -> keeps replayed m.
Proof using. intros Hm w [st Hc]. exists st. by apply quiet_current. Qed.
#[export] Instance current_stable st : TickStable (current st).
Proof using. intros w fs Hc. by eapply current_same. Qed.
#[export] Instance replayed_stable : TickStable replayed.
Proof using. intros w fs [st Hc]. exists st. by apply (tick_stable (P := current st)). Qed.
Lemma current_replayed st w : current st w -> replayed w.
Proof using. by exists st. Qed.

Lemma current_head st c cp w : current st w -> head c cp w -> intact (Some c) w /\ not_older c0 c /\ cp_State cp = st.
Proof using. intros ((c' & cp' & Hi & Hh & Ho & Hst) & _) Hh'. by destruct (head_det _ _ _ _ _ _ _ _ _ _ Hh Hh') as [-> ->]. Qed.
(** Another head. *)
Lemma current_new st st' c c' cp w w' : current st w -> intact (Some c) w -> untouched housekeeping w w' -> steady (fun _ => False) L w w' ->
  head c' cp w' -> intact (Some c') w' -> not_older c c' -> cp_State cp = st' -> present st' w -> current st' w'.
Proof using.
  intros Hc Hi Hu Hs Hh Hi' Ho Hst Hp. pose proof Hc as ((c1 & cp1 & Hi1 & Hh1 & Ho1 & _) & _ & Hk).
  destruct (head_present _ _ _ _ _ _ _ _ _ Hh1 Hi) as (c2 & [= <-] & <-). split_and!.
  - exists c', cp. split_and!; [done..| |done]. unfold not_older in *. lia.
  - by eapply present_step.
  - by eapply kept_step.
Qed.

(** ** Removing *)

Lemma kept_data w q : kept w -> ~ housekeeping q -> is_Some (w_names w !! q) -> file_data w q = file_data w0 q.
Proof using Hw0 Hp0.
  intros [Hs Hn] Hq [n Hqn]. destruct (Hn q Hq) as [E|[E _]]; [|congruence]. rewrite Hqn in E. symmetry in E.
  destruct (wf_names _ Hw0 _ _ E) as [i Hi]. destruct (st_inodes _ _ _ _ Hs n i Hi) as (i' & Hi' & Hk & _).
  { apply (private_not_mine dir q n w0 Hw0 Hp0); [|done]. intros HL. by apply Hq, leased_housekeeping. }
  unfold file_data, inode_of. rewrite Hqn, E. cbn. rewrite Hi, Hi'. cbn. by rewrite Hk.
Qed.
Definition removable (st : SessionState) (p : path) : Prop := ~ housekeeping p -> ~ data_path st p /\ expendable p.
Lemma keeps_current_Remove st p : (forall o, free dir o p) -> removable st p -> keeps (current st) (os_Remove p).
Proof using.
  intros Hf Hr w Hc. set (w' := (os_Remove p w).2).
  assert (forall q, w_names w' !! q = w_names w !! q \/ q = p /\ w_names w' !! q = None) as Hn.
  { unfold w', os_Remove, syscall, next_outcome. intros q. destruct (w_faults w) as [|[|] fs]; cbn; auto; destruct (w_names w !! p); cbn; auto;
      (destruct (decide (q = p)) as [->|]; [right; split; [done|]; apply lookup_delete_eq|left; by rewrite lookup_delete_ne]). }
  pose proof Hc as ((c & cp & Hi & Hh & Ho & Hst) & Hp & Hs & Hk).
  assert (steady (F (Some c)) L w w') as Hs'.
  { pose proof (head_managed dir (Some c) w) as HM. apply (md_Remove (Managed := HM) p); [apply Hf|]. exact (intact_steady _ _ _ _ _ _ w Hi). }
  split_and!.
  - exists c, cp. split_and!; [by eapply steady_intact|exact (steady_head _ _ _ _ _ (Some c) c cp w w' Hi eq_refl Hh Hs')|done..].
  - intros q Hd Hq. destruct (Hn q) as [->|[-> _]]; [auto|]. by destruct (Hr Hq).
  - split; [eapply steady_trans; [exact Hs|]; by eapply steady_any|].
    intros q Hq. destruct (Hn q) as [->|[-> E]]; [auto|]. right. split; [done|]. by apply Hr.
Qed.

Lemma wp_Stat_size p w : wp (os_Stat p) w (fun r w' => same_files w w' /\
  forall info, r = Ok info -> fi_regular info = true -> exists d, file_data w p = Some d /\ fi_size info = zlen d).
Proof using.
  apply wp_syscall; intros fs; [by split|]. unfold wp. cbn. destruct (w_names w !! p) as [n|] eqn:En; cbn.
  - destruct (w_inodes w !! n) as [i|] eqn:Ei; cbn; [|by split]. split; [done|]. intros info [= <-] _. exists (i_data i). split; [|done].
    unfold file_data, inode_of. rewrite En. cbn. by rewrite Ei.
  - case_decide; cbn; (split; [done|]); [|done]. by intros info [= <-].
Qed.
Lemma wp_remove_owned st p check w : current st w -> (forall o, free dir o p) -> (forall info, quiet (check info)) ->
  (forall info d w', file_data w p = Some d -> fi_size info = zlen d -> wp (check info) w' (fun r _ => r = Ok tt -> removable st p)) ->
  wp (remove_owned p check) w (fun _ w' => current st w').
Proof using.
  intros Hc Hf Hq Hr. unfold remove_owned. rewrite wp_bind, wp_try. eapply wp_mono; [apply wp_Stat_size|].
  intros [info|e] w1 [Hs1 Hi]; (assert (current st w1) as Hc1 by (by eapply current_same)).
  - destruct (fi_regular info) eqn:Er; cbn [negb]; [|done]. destruct (Hi info eq_refl Er) as (d & Hd & Hsize).
    rewrite wp_bind. eapply wp_mono; [apply wp_keeps; [apply quiet_current, Hq|done|by eapply Hr]|].
    intros [[]|e] w2 [Hc2 Hrem]; [|done]. apply (wp_kept (current st)); [|done]. apply keeps_bind; [|keeps]. apply keeps_current_Remove; auto.
  - destruct (is_NotExist e); done.
Qed.

(** What a compaction or a copy may have left behind. *)
Lemma housekeeping_dotted name : String.prefix ".state-" name = true \/ String.prefix ".backing-" name = true -> housekeeping (name :: dir).
Proof using. intros H. right. right. eauto. Qed.
Lemma uses_path_data st q : uses_path st q = false -> ~ data_path st q.
Proof using.
  unfold uses_path, path_is. rewrite orb_false_iff, !bool_decide_eq_false. intros [H1 H2] [H|H]; congruence.
Qed.
Lemma compact_record_paths record : validateCompactJournalRecord dir record = None -> exists g n,
  nf_Path (jr_Native record) = Some (compact_target dir g) /\ jr_TempPath record = Some (state_temporary dir n)
  /\ jr_FinalPath record = Some (delta_path dir n) /\ ss_DeltaPath (candidate_state record) = delta_path dir n
  /\ ss_BackingPath (candidate_state record) = None.
Proof using.
  unfold validateCompactJournalRecord. destruct (compactOperationGeneration _) as [g|]; [|done]. destruct (_ || _); [done|].
  destruct (validateSessionStateForDirectory _ _); [done|]. destruct (_ || _) eqn:E; [done|]. intros _.
  unfold path_is in E. rewrite !orb_false_iff, !negb_false_iff, !bool_decide_eq_true in E. destruct E as [[[[E1 E2] E3] E4] E5]. eauto 9.
Qed.
Lemma wp_cleanupCompact st record rollback w : current st w ->
  (validateCompactJournalRecord dir record = None -> validateCompactArtifactsInactive record st rollback = None) ->
  wp (cleanupCompactArtifacts sha256 dir record rollback) w (fun _ w' => current st w').
Proof using Hw0 Hp0.
  intros Hc Hin. unfold cleanupCompactArtifacts. rewrite wp_bind, wp_throw.
  destruct (validateCompactJournalRecord dir record) eqn:Ev; [done|]. specialize (Hin eq_refl). apply compact_record_paths in Ev as (g & n & E1 & E2 & E3 & _ & _).
  rewrite E1, E2, E3. unfold clean; cbn [default from_option id]. unfold validateCompactArtifactsInactive in Hin. rewrite E1, E2, E3 in Hin. unfold clean in Hin; cbn [default from_option id] in Hin.
  destruct (_ || _) eqn:Eu; [done|]. apply orb_false_iff in Eu as [Hu1%uses_path_data Hu2].
  rewrite wp_bind. eapply wp_mono with (P := fun _ w' => current st w').
  { apply wp_remove_owned; [done| | |].
    - intros o. apply free_in_dir; by apply (prefix_neq ".compact-"); [apply prefix_app|].
    - intros info. apply quiet_reads. intros P HP. unfold check_scratch. keeps. by apply keeps_captureRegularFileIdentity.
    - intros info d w' _ _. unfold wp. intros _ _. split; [done|]. left. eexists. split; [done|apply prefix_app]. }
  intros [scratch|e] w1 Hc1; [|done]. rewrite wp_bind. eapply wp_mono with (P := fun _ w' => current st w').
  { assert (forall o, free dir o (state_temporary dir n)) as Hfree.
    { intros o. apply free_dotted. left. apply (prefix_split _ "compact-"), prefix_app. }
    apply wp_remove_owned; [done|done| |].
    - intros info. apply quiet_reads. intros P HP. unfold check_state_temporary. keeps.
    - intros info d w' _ _. unfold wp. intros _ Hn. destruct Hn. apply housekeeping_dotted. left.
      apply (prefix_split _ "compact-"), prefix_app. }
  intros [temporary|e] w2 Hc2; [|done]. rewrite wp_bind. eapply wp_mono with (P := fun _ w' => current st w').
  { destruct rollback; [|done]. cbn [andb] in Hin. destruct (uses_path st (delta_path dir n)) eqn:Hu3; [done|]. apply uses_path_data in Hu3.
    apply wp_remove_owned; [done| | |].
    - intros o. apply free_in_dir; by apply (prefix_neq "delta-"); [apply prefix_app|].
    - intros info. apply quiet_reads. intros P HP. unfold check_empty. keeps.
    - intros info d w' Hd Hsize. unfold check_empty. destruct (fi_size info =? 0) eqn:Ez; cbn [negb]; [|done]. apply Z.eqb_eq in Ez. rewrite wp_ret. intros _ Hnh.
      split; [done|]. right. rewrite <- (kept_data w2), Hd; [|apply Hc2|done|].
      + destruct d; [done|]. unfold zlen in Hsize. cbn in Hsize. lia.
      + unfold file_data, inode_of in Hd. destruct (w_names w2 !! _); [by eexists|done]. }
  intros [delta|e] w3 Hc3; [|done]. destruct (_ || _); [|done]. by apply (wp_kept (current st)); [apply quiet_current, quiet_sync|].
Qed.
Lemma keeps_cleanupCOW st record : keeps (current st) (cleanupCOWTemporary sha256 dir record).
Proof using.
  unfold cleanupCOWTemporary. destruct (cowOperationGeneration _); [|keeps]. destruct (_ || _) eqn:E; [keeps|].
  rewrite !orb_false_iff, !negb_false_iff in E. destruct E as [[E _] _]. unfold validCOWTemporaryPath in E.
  destruct (jr_TempPath record) as [[|name parent]|]; [done| |done]. apply andb_true_iff in E as [->%bool_decide_eq_true E]. unfold clean; cbn [default from_option id].
  destruct (temporary_token ".backing-" name) as [token|] eqn:Et; [|done]. apply temporary_token_prefix in Et.
  keeps.
  - apply keeps_captureRegularFileIdentity, _.
  - apply keeps_current_Remove; [intros o; apply free_dotted; by right|]. intros Hn. destruct Hn. apply housekeeping_dotted. by right.
  - apply quiet_current, quiet_sync.
Qed.

(** ** Loading, publishing and refreshing *)

Context (json_Unmarshal : bytes -> result SessionState) (json_checkpoint : sessionStateCheckpoint -> result bytes)
  (json_catalog : sessionStateCatalog -> result bytes) (decode_pin : bytes -> result string) (json_manifest : bytes -> result Manifest)
  (json_journal : JournalRecord -> result bytes) (LoadSessionDeletion : path -> string -> OS SessionDeletion)
  (lock_attempts : nat) (map_order : gset string -> list string).
Local Abbreviation statePath := (state_of dir).
Local Abbreviation load_held := (loadSessionStateForJournalReplayWithWriterLease sha256 json_Marshal json_Unmarshal decode_checkpoint decode_catalog).

Lemma current_intact st w : current st w -> exists c cp, intact (Some c) w /\ head c cp w /\ cp_State cp = st.
Proof using. intros ((c & cp & ? & ? & _ & ?) & _). eauto. Qed.
Lemma wp_catalog_present st w : current st w -> wp (regularStateCatalogPresent dir) w (fun r w' => same_files w w' /\ forall b, r = Ok b -> b = true).
Proof using.
  intros (c & cp & Hi & Hh & _)%current_intact. apply wp_keeps; [apply keeps_regularStateCatalogPresent, _|done|].
  assert (is_Some (w_names w !! catalog_of dir)) as [n Hn].
  { destruct (hd_catalog _ _ _ _ _ _ _ _ Hh) as (d & Hd & _). unfold file_data, inode_of in Hd. destruct (w_names w !! catalog_of dir); [by eexists|done]. }
  unfold regularStateCatalogPresent. rewrite wp_bind, wp_try. apply wp_syscall; intros fs; [by intros b|]. unfold wp at 1. cbn. rewrite Hn.
  destruct (wf_names _ (in_wf _ _ _ _ _ _ _ Hi) _ _ Hn) as [i ->]. cbn. by intros b [= <-].
Qed.
Lemma agrees_state state chain st : agrees sha256 state chain = Some st -> st = cp_State (ch_checkpoint chain).
Proof using.
  unfold agrees. destruct state as [[[st' d] []]|]; try done. destruct (_ && _) eqn:E; [|done]. intros [= <-].
  apply andb_true_iff in E as [_ E]. by apply bool_decide_eq_true in E.
Qed.
Lemma wp_load_held st w : current st w -> wp (load_held statePath) w (fun r w' => same_files w w' /\ forall st', r = Ok st' -> st' = st).
Proof using.
  intros Hc. unfold loadSessionStateForJournalReplayWithWriterLease. destruct (canonical_state statePath) as [[d id]|] eqn:Ecan; [|by split].
  apply canonical_state_Dir in Ecan as ->. change (filepath_Dir statePath) with dir. rewrite wp_bind, wp_try.
  eapply wp_mono; [apply (wp_kept (same_files w)); [apply keeps_readSessionState, _|done]|]. intros state w1 Hs1.
  assert (current st w1) as Hc1 by (by eapply current_same). rewrite wp_bind. eapply wp_mono; [by eapply wp_catalog_present|].
  intros [b|e] w2 [Hs2 Hb]; (assert (same_files w w2) as Hs02 by exact (same_files_trans _ _ _ Hs1 Hs2)); [|by split]. rewrite (Hb b eq_refl). cbn [negb].
  rewrite wp_bind. eapply wp_mono; [apply wp_loadCatalogStateCheckpoint|]. intros [chain|e] w3 [Hs3 Hl];
    (assert (same_files w w3) as Hs03 by exact (same_files_trans _ _ _ Hs02 Hs3)); [|by split]. destruct (Hl chain eq_refl) as [Hh _].
  assert (current st w2) as Hc2 by (by eapply current_same). destruct (current_head _ _ _ _ Hc2 Hh) as (_ & _ & Est).
  destruct (agrees sha256 state chain) as [st'|] eqn:Ea.
  - rewrite wp_ret. split; [done|]. apply agrees_state in Ea as ->. by intros st' [= <-].
  - rewrite wp_bind, wp_throw. destruct (validateSessionStateForDirectory _ _); [by split|]. rewrite wp_ret. split; [done|]. by intros st' [= <-].
Qed.

(** SHA-256 has 32 bytes; JSON gives back what was encoded, for states whose strings it
    keeps, which those that it has decoded are, also with the backing file of another
    generation; generations and sequence numbers are of type [uint64]; tombstones are
    only read. *)
Context (representable : SessionState -> Prop).
Context (Hmap_order : forall X name, name ∈ map_order X -> name ∈ X) (Hsha : forall d, length (sha256 d) = 32%nat)
  (Hcheckpoint : forall cp sd d, representable (cp_State cp) -> validateStateCheckpoint sha256 json_Marshal cp sd = None ->
    json_checkpoint cp = Ok d -> decode_checkpoint (d ++ [Byte.x0a]) = Ok cp)
  (Hcatalog : forall st n a b c d, representable st -> valid_catalog (catalog_entry st n a b c) = true ->
    json_catalog (catalog_entry st n a b c) = Ok d -> decode_catalog (d ++ [Byte.x0a]) = Ok (catalog_entry st n a b c))
  (Hrange : forall d c, decode_catalog d = Ok c -> 0 <= ca_Sequence c < 2 ^ 64)
  (Hgeneration : forall d c, decode_catalog d = Ok c -> 0 <= ca_Generation c < 2 ^ 64)
  (Hdecode_errors : forall d e, decode_checkpoint d = Err e -> is_NotExist e = false)
  (Hdecoded : forall d cp, decode_checkpoint d = Ok cp -> representable (cp_State cp))
  (Hbacked : forall st g, representable st -> filepath_Dir (ss_DeltaPath st) = dir -> representable (with_backing st g (backing_path dir g)))
  (Hdeletion : forall P `{TickStable P} p id, keeps P (LoadSessionDeletion p id)).

Lemma head_decoded c cp w : head c cp w -> representable (cp_State cp)
  /\ validateSessionStateForDirectory (cp_State cp) (filepath_Dir (ss_DeltaPath (cp_State cp))) = None.
Proof using Hdecoded.
  intros [_ _ (data & _ & _ & Hk) _]. apply checkpoint_file_name in Hk as (_ & _ & Hk). unfold decodeStateCheckpoint in Hk.
  destruct (decode_checkpoint data) as [cp'|] eqn:Ed; [|done]. destruct (validateStateCheckpoint _ _ _ _) eqn:Ev; [done|]. injection Hk as ->.
  split; [by eapply Hdecoded|]. apply validate_fields in Ev as (_ & _ & _ & Ev & _). done.
Qed.
Lemma current_decoded st w : current st w -> representable st /\ (validateSessionStateForDirectory st dir = None -> filepath_Dir (ss_DeltaPath st) = dir).
Proof using Hdecoded.
  intros (c & cp & _ & Hh & <-)%current_intact. destruct (head_decoded _ _ _ Hh) as [Ht Hv]. split; [done|]. intros Hv'. by eapply directory_unique.
Qed.

Lemma store_housekeeping q : store_files dir q -> housekeeping q.
Proof using. by left. Qed.
Lemma untouched_store w w' : untouched (store_files dir) w w' -> untouched housekeeping w w'.
Proof using. intros Hu q Hq. apply Hu. intros ?. apply Hq. by left. Qed.
Local Abbreviation publish := (Publish.publishSessionState sha256 json_Marshal json_Unmarshal json_checkpoint decode_checkpoint
  json_catalog decode_catalog json_manifest lock_attempts map_order).
Local Abbreviation refresh := (fun st => refreshSessionStateCheckpointWithActiveIdentity sha256 json_Marshal json_Unmarshal json_checkpoint decode_checkpoint
  json_catalog decode_catalog decode_pin LoadSessionDeletion lock_attempts map_order statePath st None).

(** Publications and refreshes change only files of the store. *)
Class Storekeeper (J : world -> Prop) (own : nat -> Prop) (may made leased : path -> Prop) := {
  sk_managed :: Managed J own may made leased;
  sk_lock : forall store name, made (String.append name ".lock" :: "locks"%string :: store);
  sk_primary : forall name, String.prefix ".state-primary-" name = true -> may (name :: dir);
  sk_catalog_temporary : forall name, String.prefix ".state-catalog-" name = true -> may (name :: dir);
  sk_catalog : may (catalog_of dir);
  sk_lease : leased (lease_of dir);
  sk_generation : forall name, may (name :: G);
  sk_orphan : forall name, may (name :: orphans_of dir);
  sk_state : may statePath;
}.
#[local] Instance storekeeper_untouched w : Storekeeper (untouched housekeeping w) (fun _ => True) housekeeping housekeeping housekeeping.
Proof using.
  destruct (store_file_names dir) as (H1 & H2 & H3 & H4 & H5 & H6 & H7 & H8). split; [apply _|..]; intros; apply store_housekeeping; auto.
Qed.
#[local] Instance storekeeper_all w : Storekeeper (steady (fun _ => False) L w) (mine L w) (fun q => ~ False /\ ~ L q) (fun q => ~ False /\ ~ L q) L.
Proof using.
  pose proof (housekeeper_all w) as HK. split; [apply HK|apply HK|..]; intros.
  - apply (@hk_metadata _ _ _ _ _ _ HK). by apply (prefix_split _ "primary-").
  - apply (@hk_metadata _ _ _ _ _ _ HK). by apply (prefix_split _ "catalog-").
  - split; [by intros []|by apply not_leased].
  - by left.
  - split; [by intros []|]. intros [[= _ E]|[= _ E]]; by apply (cons_neq "state-generations"%string dir).
  - split; [by intros []|]. intros [[= _ E]|[= _ E]]; by apply (cons_neq "state-orphans"%string dir).
  - split; [by intros []|by apply not_leased].
Qed.
Section Store.
Context {J : world -> Prop} {own : nat -> Prop} {may made leased : path -> Prop} `{Storekeeper J own may made leased}.
Local Abbreviation none := (fun _ : bytes => Err fuel_exhausted).
Lemma keeps_store_publish st : keeps J (publish statePath st).
Proof using H.
  apply (keeps_publishSessionStateAt sha256 json_Marshal json_Unmarshal none json_checkpoint decode_checkpoint json_catalog decode_catalog none json_manifest
    (fun _ _ => fail fuel_exhausted) "" lock_attempts (fun _ _ => ret ∅) map_order sk_lock (fun _ _ => keeps_fail _ _) (fun _ _ => keeps_ret _ _)
    dir sk_primary sk_catalog_temporary sk_catalog sk_lease sk_generation sk_orphan statePath eq_refl sk_state None st). done.
Qed.
Lemma keeps_store_refresh st : keeps J (refresh st).
Proof using H Hdeletion.
  apply (keeps_refresh_checkpoint sha256 json_Marshal json_Unmarshal none json_checkpoint decode_checkpoint json_catalog decode_catalog decode_pin none
    LoadSessionDeletion "" lock_attempts (fun _ _ => ret ∅) map_order sk_lock (fun p id => Hdeletion _ md_tick p id) (fun _ _ => keeps_ret _ _)
    dir sk_primary sk_catalog_temporary sk_catalog sk_lease sk_generation sk_orphan statePath eq_refl sk_state).
Qed.
End Store.

Lemma wp_current_publish st candidate w : current st w -> representable candidate -> filepath_Dir (ss_DeltaPath candidate) = dir ->
  wp (publish statePath candidate) w (fun r w' => replayed w' /\ (r = Ok tt -> current candidate w')).
Proof using Hmap_order Hsha Hcheckpoint Hcatalog Hrange Hdecode_errors.
  intros Hc Ht Hd. pose proof Hc as (c & cp & Hi & Hh & Est)%current_intact.
  eapply wp_mono; [apply wp_keeps; [apply (keeps_store_publish candidate (H := storekeeper_untouched w))|done|
    apply wp_keeps; [apply (keeps_store_publish candidate (H := storekeeper_all w))|eapply steady_any, intact_steady, Hi|
    exact (wp_publishAt sha256 json_Marshal json_Unmarshal json_checkpoint decode_checkpoint json_catalog decode_catalog json_manifest lock_attempts map_order
      dir Hmap_order representable Hsha Hcheckpoint Hcatalog Hrange Hdecode_errors (Some c) None candidate ∅ false w Hi Ht Hd I)]]|].
  intros r w' (Hu & Hs & _ & Hshow & Hfollow). destruct Hfollow as [Hst|(c' & cp' & Hh' & Hi' & Ho & Est' & Hstored)].
  - assert (current st w') as Hc'.
    { apply (current_step st w w' Hc); [|done]. intros o Hio. destruct (head_present _ _ _ _ _ _ _ _ _ Hh Hio) as (c1 & -> & ->). done. }
    split; [by eapply current_replayed|]. intros (c2 & cp2 & Hh2 & <- & _)%Hshow. destruct (current_head _ _ _ _ Hc' Hh2) as (_ & _ & ->). done.
  - assert (current candidate w') as Hc'; [|split; [by eapply current_replayed|done]].
    apply (current_new st candidate c c' cp' w w' Hc Hi Hu Hs Hh' Hi' Ho Est'). intros q Hq Hn. apply Hstored; [done..|]. intros ?. apply Hn. by left.
Qed.
Lemma wp_current_refresh st w : current st w -> wp (refresh st) w (fun _ w' => current st w').
Proof using Hmap_order Hsha Hcheckpoint Hcatalog Hrange Hdecoded Hdeletion.
  intros Hc. pose proof Hc as (c & cp & Hi & Hh & Est)%current_intact. destruct (current_decoded _ _ Hc) as [Ht Hd].
  destruct (validateSessionStateForDirectory st dir) eqn:Ev.
  { unfold refreshSessionStateCheckpointWithActiveIdentity. change (filepath_Dir statePath) with dir. rewrite wp_bind, wp_throw, Ev. done. }
  eapply wp_mono; [apply wp_keeps; [apply (keeps_store_refresh st (H := storekeeper_untouched w))|done|
    apply wp_keeps; [apply (keeps_store_refresh st (H := storekeeper_all w))|eapply steady_any, intact_steady, Hi|
    exact (wp_refresh sha256 json_Marshal json_Unmarshal json_checkpoint decode_checkpoint json_catalog decode_catalog decode_pin LoadSessionDeletion lock_attempts map_order
      dir Hmap_order representable Hsha Hcheckpoint Hcatalog Hrange Hdeletion (Some c) st None w Hi Ht (Hd eq_refl))]]|].
  intros r w' (Hu & Hs & Hfollow & _). destruct Hfollow as [Hst|(c' & cp' & Hh' & Hi' & Ho & Est' & _)].
  - apply (current_step st w w' Hc); [|done]. intros o Hio. destruct (head_present _ _ _ _ _ _ _ _ _ Hh Hio) as (c1 & -> & ->). done.
  - apply (current_new st st c c' cp' w w' Hc Hi Hu Hs Hh' Hi' Ho Est'). apply Hc.
Qed.

(** ** A publication that was cut short *)

Lemma wp_readBounded p w : wp (readBoundedStateCheckpointFile p) w (fun r w' => same_files w w' /\ forall d, r = Ok d -> file_data w p = Some d).
Proof using.
  apply wp_keeps; [apply keeps_readBounded, _|done|]. unfold readBoundedStateCheckpointFile.
  rewrite wp_bind. eapply wp_mono; [apply (wp_kept (same_files w)); [apply keeps_stat_bounded, _|done]|]. intros [before|e] w1 Hs1; [|done].
  rewrite wp_bind. eapply wp_mono; [apply wp_Open|]. intros [f|e] w2 [Hs2 Hf]; [|done]. destruct (Hf f eq_refl) as (Hn & Hpos & _).
  assert (same_files w w2) as Hs02 by exact (same_files_trans _ _ _ Hs1 Hs2). rewrite wp_bind.
  eapply wp_mono; [apply (wp_kept (same_files w)); [keeps|done]|]. intros [opened|e] w3 Hs3; [|done]. destruct (_ || _); [apply wp_step_any; done|].
  rewrite wp_bind, wp_try. eapply wp_mono; [apply wp_ReadAll|]. intros read w4 [Hs4 Hr]. do 2 (apply wp_step_any; [done|]; intros ? ?).
  rewrite wp_bind, wp_lift. destruct read as [data|e]; [|done]. destruct (Hr data eq_refl) as (i & Hi & Ed). clear Hr.
  rewrite Hpos, zdrop_0 in Ed by lia. subst data. generalize maximumStateCheckpointBytes. intros m.
  destruct (zlen (ztake (m + 1) (i_data i)) >? m) eqn:E; [done|]. apply Z.gtb_ltb, Z.ltb_ge in E || (rewrite Z.gtb_ltb in E; apply Z.ltb_ge in E).
  assert (ztake (m + 1) (i_data i) = i_data i) as ->.
  { rewrite zlen_ztake in E. destruct (i_data i) as [|b l] eqn:Edata; [unfold ztake; by rewrite take_nil|]. apply ztake_all. unfold zlen in *. cbn [length] in *. lia. }
  apply wp_step_any; [done|]; intros after ?. destruct (_ || _); [done|]. rewrite wp_ret. intros d [= <-].
  rewrite (proj1 Hs1) in Hn. destruct Hs3 as (_ & E3 & _). rewrite E3 in Hi. unfold file_data, inode_of. rewrite Hn. cbn. by rewrite Hi.
Qed.
Lemma wp_verify_identity identity message w : wp (verify_identity sha256 identity message) w (fun r w' => same_files w w' /\
  (r = Ok tt -> is_Some (w_names w !! fid_Path identity))).
Proof using.
  unfold verify_identity. rewrite wp_bind, wp_try. eapply wp_mono; [apply wp_captureRegular|]. intros [actual|e] w1 [Hs Hr]; [|by split].
  case_bool_decide as E; [|by split]. subst actual. rewrite wp_ret. split; [done|]. intros _. by apply (Hr identity).
Qed.

Lemma wp_verifyAllowed cp allowed w : wp (verifyStateCheckpointArtifactsAllowed sha256 json_Marshal json_manifest dir cp allowed) w (fun r w' => same_files w w' /\
  (r = Ok tt -> present (cp_State cp) w)).
Proof using.
  apply wp_keeps; [apply keeps_verifyArtifactsAllowed, _|done|]. unfold verifyStateCheckpointArtifactsAllowed. rewrite wp_bind, wp_throw.
  destruct (validateStateCheckpoint _ _ cp dir) eqn:Ev; [done|]. rewrite wp_bind, wp_try.
  eapply wp_mono; [apply (wp_kept (same_files w)); [apply (keeps_captureManifestIdentity _ _ _)|done]|]. intros manifest w1 Hs1. destruct (negb _); [done|].
  rewrite wp_bind. eapply wp_mono; [apply wp_verify_identity|]. intros [[]|e] w2 [Hs2 Hd]; [|done]. specialize (Hd eq_refl).
  rewrite wp_bind. eapply wp_mono with (P := fun r w' => r = Ok tt -> forall b, cp_Backing cp = Some b -> is_Some (w_names w2 !! fid_Path b)).
  { destruct (cp_Backing cp) as [b|]; [|done]. eapply wp_mono; [apply wp_verify_identity|]. intros r w3 [_ Hr] E b' [= <-]. by apply Hr. }
  intros [[]|e] w3 Hb; [|done]. specialize (Hb eq_refl). unfold wp. intros _.
  assert (w_names w1 = w_names w) as E1 by apply Hs1. assert (w_names w2 = w_names w1) as E2 by apply Hs2.
  unfold validateStateCheckpoint in Ev. do 2 (destruct (_ || _) in Ev; [done|] || (destruct (_ && _) in Ev; [done|])).
  destruct (validateSessionStateForDirectory _ _) in Ev; [done|]. destruct (negb _) in Ev; [done|]. destruct (_ || _) in Ev; [done|].
  destruct (negb (identity_at (cp_Delta cp) _)) eqn:Edelta in Ev; [done|]. destruct (negb _) eqn:Eback in Ev; [done|]. clear Ev.
  unfold identity_at in *. apply negb_false_iff, andb_true_iff in Edelta as [_ Edelta%bool_decide_eq_true].
  intros q [-> |Hq] _; [by rewrite <- Edelta, <- E1|]. rewrite Hq in Eback. destruct (cp_Backing cp) as [b|]; [|done].
  apply negb_false_iff, andb_true_iff in Eback as [_ Eback%bool_decide_eq_true]. rewrite <- Eback, <- E1, <- E2. by apply Hb.
Qed.

(** The candidates are decoded children of the current checkpoint, in files of the directory. *)
Record candidate_ok (chain : stateCheckpointChain) (digest : string) (c : interruptedStateCheckpointCandidate) : Prop := {
  co_data : decodeStateCheckpoint sha256 json_Marshal decode_checkpoint (ic_data c) = Ok (ic_checkpoint c);
  co_digest : digest = digestStateBytes sha256 (ic_data c);
  co_child : isDirectStateCheckpointChild chain (ic_checkpoint c) = true;
  co_temporary : Forall (fun p => exists name, p = name :: G /\ checkpoint_temporary name = true) (ic_temporaryPaths c);
}.
Definition candidates_ok (chain : stateCheckpointChain) (found : gmap string interruptedStateCheckpointCandidate) : Prop :=
  map_Forall (candidate_ok chain) found.
Lemma candidate_of_ok chain (found : gmap string interruptedStateCheckpointCandidate) checkpoint data : candidates_ok chain found ->
  decodeStateCheckpoint sha256 json_Marshal decode_checkpoint data = Ok checkpoint -> isDirectStateCheckpointChild chain checkpoint = true ->
  candidate_ok chain (digestStateBytes sha256 data) (candidate_of sha256 found checkpoint data).
Proof using.
  intros Hf Hd Hc. unfold candidate_of. destruct (found !! digestStateBytes sha256 data) as [c|] eqn:E; [by apply Hf|]. by split.
Qed.
Lemma wp_find_candidates chain names : forall (found : gmap string interruptedStateCheckpointCandidate) w, candidates_ok chain found ->
  wp (find_candidates sha256 json_Marshal decode_checkpoint G chain names found) w (fun r w' => same_files w w' /\ forall m, r = Ok m -> candidates_ok chain m).
Proof using.
  induction names as [|name names IH]; intros found w Hf; cbn [find_candidates]; [split; [done|]; by intros m [= <-]|].
  assert (forall found w1, same_files w w1 -> candidates_ok chain found -> wp (find_candidates sha256 json_Marshal decode_checkpoint G chain names found) w1
    (fun r w' => same_files w w' /\ forall m, r = Ok m -> candidates_ok chain m)) as Hnext.
  { intros found1 w1 Hs1 Hf1. eapply wp_mono; [by apply IH|]. intros r w2 [Hs2 Hr]. split; [by eapply same_files_trans|done]. }
  destruct (checkpoint_temporary name) eqn:Et.
  - rewrite wp_bind. eapply wp_mono; [apply (wp_kept (same_files w)); [apply keeps_readBounded, _|done]|]. intros [data|e] w1 Hs1; [|by split].
    destruct (decodeStateCheckpoint _ _ _ data) as [checkpoint|] eqn:Ed; [|by apply Hnext]. destruct (bool_decide _); [by apply Hnext|].
    destruct (isDirectStateCheckpointChild chain checkpoint) eqn:Ec; cbn [negb]; [|by apply Hnext]. apply Hnext; [done|].
    apply map_Forall_insert_2; [|done]. destruct (candidate_of_ok chain found checkpoint data Hf Ed Ec) as [A B C D]. split; try done.
    cbn. apply Forall_app. split; [done|]. apply Forall_singleton. by exists name.
  - destruct (decide _); [by apply Hnext|].
    rewrite wp_bind. eapply wp_mono; [apply (wp_kept (same_files w)); [apply keeps_readBounded, _|done]|]. intros [data|e] w1 Hs1; [|by split].
    destruct (decodeStateCheckpoint _ _ _ data) as [checkpoint|] eqn:Ed; [|by split]. destruct (_ || _) eqn:E; [by split|].
    apply orb_false_iff in E as [_ Ec%negb_false_iff]. apply Hnext; [done|]. apply map_Forall_insert_2; [|done].
    destruct (candidate_of_ok chain found checkpoint data Hf Ed Ec) as [A B C D]. by split.
Qed.

Lemma decoded_fields data cp : decodeStateCheckpoint sha256 json_Marshal decode_checkpoint data = Ok cp ->
  representable (cp_State cp) /\ cp_SessionID cp = ss_SessionID (cp_State cp) /\ cp_Sequence cp <> 0 /\ ss_Generation (cp_State cp) <> 0.
Proof using Hdecoded.
  unfold decodeStateCheckpoint. destruct (decode_checkpoint data) as [cp'|] eqn:Ed; [|done]. destruct (validateStateCheckpoint _ _ _ _) eqn:Ev; [done|].
  intros [= ->]. apply validate_fields in Ev as (? & ? & _ & _ & _ & ?). split_and!; [by eapply Hdecoded|done..].
Qed.
Lemma u64_next n : 0 <= n < 2 ^ 64 -> u64 (n + 1) <> 0 -> n <= u64 (n + 1).
Proof using.
  unfold u64. intros Hn Hz. destruct (decide (n + 1 = 2 ^ 64)) as [E|]; [rewrite E in Hz; by rewrite Z.mod_same in Hz|]. rewrite Z.mod_small; lia.
Qed.
Lemma child_follows chain cp data w : head (ch_catalog chain) (ch_checkpoint chain) w -> isDirectStateCheckpointChild chain cp = true ->
  decodeStateCheckpoint sha256 json_Marshal decode_checkpoint data = Ok cp ->
  may_follow (Some (ch_catalog chain)) cp /\ forall name digest, adopted_entry chain cp name digest = entry_for cp name digest.
Proof using Hdecoded Hrange Hgeneration.
  intros [(d & _ & Hd) _ _ _] Hc (_ & Hid & Hs & Hg)%decoded_fields. unfold isDirectStateCheckpointChild in Hc. destruct (_ || _) eqn:E in Hc; [done|].
  unfold string_is in E. rewrite !orb_false_iff, !negb_false_iff, !bool_decide_eq_true, Z.eqb_eq in E. destruct E as [[E1 E2] _]. split.
  - cbn. pose proof (u64_next _ (Hrange _ _ Hd)) as Hu. rewrite <- E2 in Hu. split; [|by apply Hu].
    destruct (_ && _) eqn:E in Hc.
    + apply andb_true_iff in E as [_ E%Z.eqb_eq]. lia.
    + apply Z.eqb_eq in Hc. pose proof (u64_next _ (Hgeneration _ _ Hd)) as Hu'. rewrite <- Hc in Hu'. by apply Hu'.
  - intros name digest. unfold adopted_entry, entry_for, catalog_entry. by rewrite <- E1, Hid.
Qed.

(** What a step changes that leaves every head and everything outside housekeeping alone. *)
Definition calm_step (w w' : world) : Prop := (forall o, intact o w -> steady (F o) L w w') /\ untouched housekeeping w w'.
Lemma wp_calm {A} (m : OS A) w : (forall o, intact o w -> keeps (steady (F o) L w) m) -> keeps (untouched housekeeping w) m ->
  wp m w (fun _ w' => calm_step w w').
Proof using.
  intros Hs Hu. split; [|by apply Hu]. intros o Hi. apply (Hs o Hi). exact (intact_steady _ _ _ _ _ o w Hi).
Qed.
Lemma wp_quiet_calm {A} (m : OS A) w : quiet m -> wp m w (fun _ w' => calm_step w w').
Proof using. intros Hm. apply wp_calm; [intros o Hi; by eapply (Hm _ _ _ _ _ (housekeeper_steady o w Hi))|by eapply (Hm _ _ _ _ _ (housekeeper_untouched w))]. Qed.
Lemma keeps_Link_generation o w source name : intact o w -> free dir o source -> keeps (steady (F o) L w) (os_Link source (name :: G)).
Proof using.
  intros Hi Hf. destruct (is_target_dec o name) as [Ht|Ht]; [|by apply (md_Link (Managed := head_managed dir o w)), free_generation].
  destruct (intact_target _ _ _ _ _ _ _ _ Hi Ht) as [Hn _]. apply keeps_syscall; [apply _|]. intros w1 Hs. cbn.
  assert (F o (name :: G)) as HF by (right; destruct o as [c|]; [cbn in Ht; by rewrite Ht|done]).
  rewrite <- (st_names _ _ _ _ Hs _ HF) in Hn. destruct (w_names w1 !! source); [|done]. case_decide as Hd; [done|]. by destruct Hd; right.
Qed.
Lemma wp_link_candidate name c w : Forall (fun p => exists name, p = name :: G /\ checkpoint_temporary name = true) (ic_temporaryPaths c) ->
  wp (link_candidate G (name :: G) c) w (fun _ w' => calm_step w w').
Proof using.
  intros Ht. unfold link_candidate. destruct (ic_temporaryPaths c) as [|source rest]; [by apply wp_calm; keeps|].
  apply Forall_cons in Ht as [(n & -> & Hn) _]. unfold checkpoint_temporary, is_temporary in Hn. apply andb_true_iff in Hn as [Hn _].
  destruct (store_file_names dir) as (_ & _ & _ & _ & _ & Hgen & _). apply wp_calm.
  - intros o Hi. pose proof (head_managed dir o w) as HM. keeps; first [apply (keeps_syncAndVerify (H := HM))|idtac].
    apply keeps_Link_generation; [done|]. apply free_generation. by eapply intact_temporary.
  - pose proof (untouched_managed housekeeping w) as HM. keeps; first [apply (keeps_syncAndVerify (H := HM))|idtac].
    apply (md_Link (Managed := HM)); by apply store_housekeeping.
Qed.
Lemma keeps_store_catalog {J own may made leased} `{Storekeeper J own may made leased} c : keeps J (writeStateCatalog json_catalog dir c).
Proof using. apply (keeps_writeStateCatalog json_catalog dir sk_catalog_temporary), sk_catalog. Qed.

Lemma wp_adopt st chain digest c w : current st w -> head (ch_catalog chain) (ch_checkpoint chain) w -> candidate_ok chain digest c ->
  present (cp_State (ic_checkpoint c)) w ->
  wp (adoptInterruptedStateCheckpoint sha256 json_Marshal decode_checkpoint json_catalog decode_catalog dir chain digest c) w (fun _ w' => replayed w').
Proof using Hsha Hcatalog Hrange Hgeneration Hdecoded.
  intros Hc Hh [Hdata -> Hchild Htemp] Hp. set (cp := ic_checkpoint c) in *. destruct (child_follows _ _ _ _ Hh Hchild Hdata) as [Hmay Hentry].
  unfold adoptInterruptedStateCheckpoint. fold cp. set (digest := digestStateBytes sha256 (ic_data c)). fold (name_for cp digest). rewrite wp_bind.
  eapply wp_mono with (P := fun _ w' => calm_step w w').
  { destruct (ic_final c); [|by apply wp_link_candidate]. apply wp_quiet_calm. intros J own may made leased HK. apply keeps_wrap, (keeps_syncAndVerify (H := hk_managed dir)). }
  intros r w1 [Hs1 Hu1]. assert (current st w1) as Hc1 by (by eapply current_step). destruct r as [[]|e]; [|by eapply current_replayed].
  destruct (current_head _ _ _ _ Hc Hh) as (Hi & _ & _). specialize (Hs1 _ Hi).
  assert (head (ch_catalog chain) (ch_checkpoint chain) w1) as Hh1 by exact (steady_head _ _ _ _ _ (Some _) _ _ _ _ Hi eq_refl Hh Hs1).
  rewrite wp_bind, wp_try. eapply wp_mono; [apply wp_readBounded|]. intros data w2 [Hs2 Hr]. assert (current st w2) as Hc2 by (by eapply current_same).
  destruct (negb _) eqn:E; [by eapply current_replayed|]. apply negb_false_iff in E. destruct data as [data|e]; [|done]. apply bool_decide_eq_true in E. subst data.
  specialize (Hr _ eq_refl). rewrite <- (same_files_data w1 w2) in Hr by done. destruct (current_head _ _ _ _ Hc1 Hh1) as (Hi1 & _ & _).
  assert (intact (Some (ch_catalog chain)) w2) as Hi2 by exact (intact_same _ _ _ _ _ _ _ _ Hi1 Hs2). pose proof (in_heads _ _ _ _ _ _ _ Hi2) as [_ HG].
  assert (present (cp_State cp) w2) as Hp2 by (intros q Hq Hn; rewrite (proj1 Hs2); exact (present_step _ _ _ Hp Hu1 q Hq Hn)).
  destruct (decoded_fields _ _ Hdata) as (Ht & _). rewrite Hentry, wp_bind.
  eapply wp_mono; [apply wp_keeps; [apply (keeps_store_catalog (H := storekeeper_untouched w2))|done|
    apply wp_keeps; [apply (keeps_store_catalog (H := storekeeper_all w2))|eapply steady_any, intact_steady, Hi2|
    exact (wp_catalog_head sha256 json_Marshal decode_checkpoint json_catalog decode_catalog dir representable Hsha Hcatalog _ cp (ic_data c) w2 Hi2 Hdata Ht Hmay Hr HG)]]|].
  intros r w3 (Hu3 & Hs3 & [[Hr3 Hst3]|(Hh3 & Hi3 & Ho3)]).
  - destruct r as [[]|e]; [done|]. apply (current_replayed st), (current_step st w2 w3 Hc2); [|done]. intros o Hio.
    assert (head (ch_catalog chain) (ch_checkpoint chain) w2) as Hh2 by exact (same_files_head _ _ _ _ _ _ _ _ _ Hs2 Hh1).
    destruct (head_present _ _ _ _ _ _ _ _ _ Hh2 Hio) as (c1 & -> & ->). done.
  - assert (current (cp_State cp) w3) as Hc3 by exact (current_new st (cp_State cp) _ _ cp w2 w3 Hc2 Hi2 Hu3 Hs3 Hh3 Hi3 Ho3 eq_refl Hp2).
    destruct r as [[]|e]; [|by eapply current_replayed]. eapply wp_mono; [apply (wp_kept (current (cp_State cp))); [|done]|intros r4 w4 Hc4; exact (current_replayed _ _ Hc4)].
    apply keeps_bind; [destruct (negb _); [apply keeps_wrap, quiet_current, quiet_write|keeps]|]. intros _.
    keeps. apply quiet_current, quiet_cleanup_temporaries.
Qed.

Lemma wp_recoverPinned st id w : current st w ->
  wp (recoverPinnedStateCheckpointPublication sha256 json_Marshal json_Unmarshal decode_checkpoint json_catalog decode_catalog decode_pin json_manifest
    LoadSessionDeletion dir id) w (fun _ w' => replayed w').
Proof using Hsha Hcatalog Hrange Hgeneration Hdecoded Hdeletion.
  intros Hc. assert (forall w', same_files w w' -> replayed w') as Hsame by (intros w' Hs; eapply current_replayed, current_same; eauto).
  unfold recoverPinnedStateCheckpointPublication.
  rewrite wp_bind. eapply wp_mono; [apply (wp_kept (same_files w)); [apply (keeps_retirementCheckpointPin _ _ (same_files w)), (fun p id => Hdeletion _ _ p id)|done]|].
  intros [[pin|]|e] w1 Hs1; [|by apply Hsame..]. rewrite wp_bind.
  eapply wp_mono; [apply wp_loadStateCheckpointChain|]. intros [chain|e] w2 [Hs2 Hl]; (assert (same_files w w2) as Hs02 by exact (same_files_trans _ _ _ Hs1 Hs2)); [|by apply Hsame].
  destruct (Hl chain eq_refl) as [Hh _]. assert (head (ch_catalog chain) (ch_checkpoint chain) w) as Hh0 by exact (same_files_head _ _ _ _ _ _ _ _ _ (same_files_sym _ _ Hs1) Hh).
  destruct (negb _); [by apply Hsame|]. rewrite wp_bind, wp_try.
  eapply wp_mono; [apply (wp_kept (same_files w)); [apply keeps_readSessionState, _|done]|]. intros persisted w3 Hs3. destruct (agrees _ _ _); [|by apply Hsame].
  rewrite wp_bind. eapply wp_mono; [apply (wp_kept (same_files w)); [unfold checkpoint_directory; keeps|done]|]. intros [[]|e] w4 Hs4; [|by apply Hsame].
  rewrite wp_bind. eapply wp_mono; [apply (wp_kept (same_files w)); [keeps|done]|]. intros [entries|e] w5 Hs5; [|by apply Hsame].
  rewrite wp_bind. eapply wp_mono; [apply wp_find_candidates; apply map_Forall_empty|]. intros [found|e] w6 [Hs56 Hf];
    (assert (same_files w w6) as Hs6 by exact (same_files_trans _ _ _ Hs5 Hs56)); [|by apply Hsame]. specialize (Hf found eq_refl).
  rewrite wp_bind, wp_try. eapply wp_mono; [apply (wp_kept (same_files w)); [apply keeps_verifyArtifactsForChain, _|done]|]. intros verified w7 Hs7.
  assert (forall w8, same_files w w8 -> wp (match verified with Ok _ => cleanupStateCheckpointTemporaries dir
    | Err _ => fail (errors_new "current session artifacts have no complete direct-child checkpoint proof") end) w8 (fun _ w' => replayed w')) as Hwithout.
  { intros w8 Hs8. destruct verified; [|by apply Hsame]. apply (wp_kept replayed); [apply quiet_replayed, quiet_cleanup_temporaries|by apply Hsame]. }
  destruct (map_to_list found) as [|[digest c] [|]] eqn:El; [by apply Hwithout| |by apply Hsame].
  assert (candidate_ok chain digest c) as Hok by (apply Hf, elem_of_map_to_list; rewrite El; by left).
  rewrite wp_bind. eapply wp_mono; [apply (wp_kept (same_files w)); [unfold verifiedSupersededStateCheckpointData; apply keeps_verify_superseded, _|done]|].
  intros [allowed|e] w8 Hs8; [|by apply Hsame]. rewrite wp_bind, wp_try. eapply wp_mono; [apply wp_verifyAllowed|].
  intros verified' w9 [Hs9 Hv]; (assert (same_files w w9) as Hs09 by exact (same_files_trans _ _ _ Hs8 Hs9)). destruct verified' as [[]|e].
  - apply (wp_adopt st); [by eapply current_same|by eapply same_files_head|done|]. intros q Hq Hn. rewrite (proj1 Hs9). by apply Hv.
  - destruct (ic_final c); [by apply Hsame|by apply Hwithout].
Qed.

Lemma wp_restore_head st id w : current st w ->
  wp (restore_with_lease sha256 json_Marshal json_Unmarshal decode_checkpoint decode_catalog json_manifest statePath dir id) w
    (fun r w' => current st w' /\ forall st' chain, r = Ok (st', chain) -> st' = st).
Proof using.
  intros Hc. apply wp_keeps; [apply quiet_current, quiet_restore|done|]. unfold restore_with_lease.
  rewrite wp_bind. eapply wp_mono; [apply wp_loadStateCheckpointChain|]. intros [chain|e] w1 [Hs1 Hl]; [|done].
  destruct (Hl chain eq_refl) as [Hh _]. destruct (current_head _ _ _ _ Hc Hh) as (_ & _ & Est).
  do 3 (apply wp_step_any; [done|]; intros ? ?). apply wp_step_any; [done|]; intros recovered ?. apply wp_step_any; [done|]; intros ? ?.
  destruct (agrees sha256 (Ok recovered) chain) as [st'|] eqn:Ea; [|done]. apply agrees_state in Ea as ->. rewrite wp_ret. by intros st' chain' [= <- <-].
Qed.
Local Abbreviation load_lease := (LoadSessionStateWithWriterLease sha256 json_Marshal json_Unmarshal decode_checkpoint
  json_catalog decode_catalog decode_pin json_manifest LoadSessionDeletion).
Lemma wp_load_lease st w : current st w -> wp (load_lease statePath) w (fun r w' => replayed w' /\ forall st', r = Ok st' -> current st' w').
Proof using Hsha Hcatalog Hrange Hgeneration Hdecoded Hdeletion.
  intros Hc. assert (forall w' e, same_files w w' -> replayed w' /\ forall st', @Err SessionState e = Ok st' -> current st' w') as Hsame
    by (intros w' e Hs; split; [eapply current_replayed, current_same; eauto|done]).
  unfold LoadSessionStateWithWriterLease. destruct (canonical_state statePath) as [[d id]|] eqn:Ecan; [|by apply Hsame].
  apply canonical_state_Dir in Ecan as ->. change (filepath_Dir statePath) with dir. rewrite wp_bind, wp_try.
  eapply wp_mono; [apply (wp_kept (same_files w)); [apply keeps_readSessionState, _|done]|]. intros state w1 Hs1.
  assert (current st w1) as Hc1 by (by eapply current_same). rewrite wp_bind. eapply wp_mono; [by eapply wp_catalog_present|].
  intros [b|e] w2 [Hs12 Hb]; (assert (same_files w w2) as Hs2 by exact (same_files_trans _ _ _ Hs1 Hs12)); [|by apply Hsame]. rewrite (Hb b eq_refl). cbn [negb].
  rewrite wp_bind. eapply wp_mono; [apply (wp_kept (same_files w)); [apply keeps_loadCatalogStateCheckpoint, _|done]|]. intros [chain|e] w3 Hs3; [|by apply Hsame].
  assert (current st w3) as Hc3 by exact (current_same st w w3 Hc Hs3).
  destruct (agrees sha256 state chain) as [st1|].
  - rewrite wp_bind. eapply wp_mono; [by eapply wp_recoverPinned|]. intros [[]|e] w4 [st4 Hc4]; [|split; [by eapply current_replayed|done]].
    rewrite wp_bind. eapply wp_mono; [apply (wp_kept (current st4)); [apply keeps_readSessionState, _|done]|].
    intros [recovered|e] w5 Hc5; [|split; [by eapply current_replayed|done]]. rewrite wp_bind, wp_throw. destruct recovered.2; [split; [by eapply current_replayed|done]|].
    rewrite wp_bind. eapply wp_mono; [apply wp_loadStateCheckpointChain|]. intros [updated|e] w6 [Hs6 Hl];
      (assert (current st4 w6) as Hc6 by (by eapply current_same)); [|split; [by eapply current_replayed|done]].
    destruct (Hl updated eq_refl) as [Hh _]. destruct (current_head _ _ _ _ Hc5 Hh) as (_ & _ & Est).
    destruct (agrees sha256 (Ok recovered) updated) as [st'|] eqn:Ea; [|split; [by eapply current_replayed|done]]. apply agrees_state in Ea as ->.
    rewrite wp_bind. eapply wp_mono; [apply (wp_kept (current st4)); [apply quiet_current, quiet_cleanup_metadata|done]|].
    intros [[]|e] w7 Hc7; (split; [by eapply current_replayed|]); [|done]. intros st' [= <-]. by rewrite Est.
  - rewrite wp_bind. eapply wp_mono; [by eapply wp_restore_head|]. intros [[st' chain']|e] w4 [Hc4 Hr]; [|split; [by eapply current_replayed|done]].
    rewrite (Hr st' chain' eq_refl). rewrite wp_bind. eapply wp_mono; [apply (wp_kept (current st)); [apply quiet_current, quiet_cleanup_metadata|done]|].
    intros [[]|e] w7 Hc7; (split; [by eapply current_replayed|]); [|done]. by intros ? [= <-].
Qed.

(** ** One record *)

Context (decode_state : bytes -> result SessionState) (decode_record : bytes -> result JournalRecord) (pid : string).
Local Abbreviation cleanup := (cleanupCompactArtifacts sha256 dir).
Local Abbreviation append := (appendJournal json_journal dir).

Lemma inactive_weaken record st rollback : validateCompactArtifactsInactive record st true = None -> validateCompactArtifactsInactive record st rollback = None.
Proof using. unfold validateCompactArtifactsInactive. destruct (_ || _); [done|]. destruct rollback; [done|]. done. Qed.
(** The candidate of a compaction uses none of the artifacts that are removed after it. *)
Lemma candidate_inactive record : validateCompactJournalRecord dir record = None -> validateCompactArtifactsInactive record (candidate_state record) false = None.
Proof using.
  intros (g & n & E1 & E2 & E3 & E4 & E5)%compact_record_paths. unfold validateCompactArtifactsInactive, uses_path, path_is.
  rewrite E1, E2, E4, E5. unfold clean. cbn [default from_option id].
  rewrite !(bool_decide_eq_false_2 (None = _)) by done.
  by rewrite (bool_decide_eq_false_2 (compact_target dir g = _)), (bool_decide_eq_false_2 (state_temporary dir n = _)).
Qed.
Lemma successor_inactive record st : validateCompactSuccessor dir record st = None -> validateCompactArtifactsInactive record st true = None.
Proof using. unfold validateCompactSuccessor. destruct (validateCompactJournalRecord dir record); [done|]. by destruct (_ || _). Qed.
Lemma wp_recovered_as message candidate st st' w : wp (recovered_as message candidate st st') w (fun r w' => w' = w /\
  forall a b, r = Ok (a, b) -> a = st' /\ (if b : bool then a = candidate else a = st)).
Proof using.
  unfold recovered_as. case_bool_decide as E1; [split; [done|]; by intros a b [= <- <-]|].
  case_bool_decide as E2; (split; [done|]); [|done]. by intros a b [= <- <-].
Qed.

Local Abbreviation with_codecs f := (f sha256 json_Marshal json_Unmarshal decode_checkpoint json_catalog decode_catalog decode_pin json_manifest).
Lemma wp_pinned_compact st record w : current st w ->
  wp (with_codecs recoverPinnedCompactPublication LoadSessionDeletion statePath dir record st) w (fun r w' => replayed w' /\ forall st' b, r = Ok (st', b) ->
    current st' w' /\ if b : bool then st' = candidate_state record else st' = st /\ validateCompactArtifactsInactive record st true = None).
Proof using Hw0 Hp0 Hsha Hcatalog Hrange Hgeneration Hdecoded Hdeletion.
  intros Hc. assert (forall w' e, current st w' -> replayed w' /\ forall st' b, @Err (SessionState * bool) e = Ok (st', b) ->
    current st' w' /\ if b : bool then st' = candidate_state record else st' = st /\ validateCompactArtifactsInactive record st true = None) as Hfail
    by (intros w' e Hc'; split; [by eapply current_replayed|done]).
  unfold recoverPinnedCompactPublication. rewrite wp_bind, wp_throw. destruct (validateCompactJournalRecord dir record); [by apply Hfail|].
  destruct (negb _); [by apply Hfail|]. rewrite wp_bind, wp_throw. destruct (validateCompactSuccessor dir record st) eqn:Es; [by apply Hfail|].
  apply successor_inactive in Es. rewrite wp_bind.
  eapply wp_mono; [apply (wp_kept (current st)); [apply (keeps_retirementCheckpointPin _ _ (current st)), (fun p id => Hdeletion _ _ p id)|done]|].
  intros [[pin|]|e] w1 Hc1; [| |by apply Hfail].
  2: { rewrite wp_ret. split; [by eapply current_replayed|]. intros st' b [= <- <-]. by split. }
  rewrite wp_bind. eapply wp_mono; [apply (wp_cleanupCompact st); [done|intros _; by apply inactive_weaken]|]. intros [[]|e] w2 Hc2; [|by apply Hfail].
  rewrite wp_bind. eapply wp_mono; [by apply (wp_load_lease st)|]. intros [recovered|e] w3 [Hr3 Hc3]; [|split; [done|by intros]].
  specialize (Hc3 recovered eq_refl). eapply wp_mono; [apply wp_recovered_as|]. intros r w4 [-> Hr]. split; [by eapply current_replayed|].
  intros st' b E. destruct (Hr st' b E) as [-> Hb]. split; [done|]. by destruct b.
Qed.
Lemma wp_pinned_cow st record w : current st w ->
  wp (with_codecs recoverPinnedCOWPublication LoadSessionDeletion statePath dir record st) w (fun r w' => replayed w' /\ forall st' b, r = Ok (st', b) ->
    current st' w' /\ if b : bool then st' = candidate_state record else st' = st).
Proof using Hw0 Hp0 Hsha Hcatalog Hrange Hgeneration Hdecoded Hdeletion.
  intros Hc. assert (forall w' e, current st w' -> replayed w' /\ forall st' b, @Err (SessionState * bool) e = Ok (st', b) ->
    current st' w' /\ if b : bool then st' = candidate_state record else st' = st) as Hfail
    by (intros w' e Hc'; split; [by eapply current_replayed|done]).
  assert (forall w', current st w' -> replayed w' /\ forall st' b, @Ok (SessionState * bool) (st, false) = Ok (st', b) ->
    current st' w' /\ if b : bool then st' = candidate_state record else st' = st) as Hstays
    by (intros w' Hc'; split; [by eapply current_replayed|by intros st' b [= <- <-]]).
  unfold recoverPinnedCOWPublication. rewrite wp_bind.
  eapply wp_mono; [apply (wp_kept (current st)); [apply (keeps_retirementCheckpointPin _ _ (current st)), (fun p id => Hdeletion _ _ p id)|done]|].
  intros [[pin|]|e] w1 Hc1; [|by apply Hstays|by apply Hfail]. rewrite wp_bind.
  eapply wp_mono; [apply (wp_kept (current st)); [|done]|].
  { unfold hasInterruptedStateCheckpointEvidence. keeps. generalize (a0.*1). intros names. induction names as [|name names IH]; cbn [find_evidence]; keeps; done. }
  intros [evidence|e] w2 Hc2; [|by apply Hfail]. destruct evidence; cbn [negb]; [|by apply Hstays].
  rewrite wp_bind. eapply wp_mono; [by apply (wp_load_lease st)|]. intros [recovered|e] w3 [Hr3 Hc3]; [|split; [done|by intros]].
  specialize (Hc3 recovered eq_refl). eapply wp_mono; [apply wp_recovered_as|]. intros r w4 [-> Hr]. split; [by eapply current_replayed|].
  intros st' b E. destruct (Hr st' b E) as [-> Hb]. split; [done|]. by destruct b.
Qed.

(** A published copy is the exact successor of the current state. *)
Lemma wp_validateCOW st record w : wp (validateCOWPublishedRecord sha256 dir record st) w (fun r w' => same_files w w' /\ (r = Ok tt ->
  let candidate := candidate_state record in ss_Generation candidate = ss_Generation st \/
    candidate = with_backing st (ss_Generation candidate) (backing_path dir (ss_Generation candidate)) /\ validateSessionStateForDirectory candidate dir = None)).
Proof using.
  unfold validateCOWPublishedRecord. destruct (_ || _); [by split|]. destruct (jr_FinalPath record) as [final|]; [|by split].
  destruct (negb (path_is _ _)); [by split|]. rewrite wp_bind, wp_throw.
  destruct (validateSessionStateForDirectory (candidate_state record) dir) eqn:Ev; cbn [option_map]; [by split|].
  case_bool_decide as Ef; cbn [negb]; [|by split]. subst final. destruct (_ || _); [by split|].
  apply wp_keeps; [|done|]; [|rewrite wp_bind, wp_throw].
  { apply keeps_bind; [keeps|]. intros _. apply keeps_bind; [|keeps]. by apply keeps_wrap, keeps_captureRegularFileIdentity, _. }
  destruct (_ =? _) eqn:Eg.
  - apply Z.eqb_eq in Eg. case_bool_decide; [|done]. unfold wp. auto.
  - destruct (ss_Generation st =? 2 ^ 64 - 1); [done|]. case_bool_decide as Ec; [|done]. unfold wp. intros _. right. split; [|done].

    assert (ss_Generation (candidate_state record) = ss_Generation st + 1) as E by (by rewrite <- Ec). rewrite <- Ec at 1. by rewrite E.
Qed.

(** ** The steps of a replay *)

Local Abbreviation terminal := (replay_terminal sha256 json_Marshal json_Unmarshal decode_state json_checkpoint decode_checkpoint json_catalog decode_catalog
  json_manifest decode_record pid lock_attempts map_order statePath dir true).
Local Abbreviation compaction := (with_codecs replay_compact json_journal LoadSessionDeletion statePath dir).
Lemma wp_replay_terminal st record w : current st w -> wp (terminal record) w (fun _ w' => current st w').
Proof using Hw0 Hp0.
  intros Hc. unfold replay_terminal, loadJournalReplayState. destruct (string_is (jr_Kind record) "compact").
  - rewrite wp_bind. eapply wp_mono; [by apply wp_load_held|]. intros [st'|e] w1 [Hs1 Hr]; (assert (current st w1) as Hc1 by exact (current_same _ _ _ Hc Hs1)); [|done].
    rewrite (Hr st' eq_refl), wp_bind, wp_throw. destruct (validateCompactArtifactsInactive _ _ _) eqn:E; [done|]. by apply wp_cleanupCompact.
  - destruct (string_is _ _); [|done]. destruct (string_is _ _); [|done]. by apply (wp_kept (current st)); [apply keeps_cleanupCOW|].
Qed.
Lemma wp_append_replayed record w : replayed w -> wp (append record) w (fun _ w' => replayed w').
Proof using. apply (wp_kept replayed), quiet_replayed, quiet_append. Qed.
Lemma wp_replay_compact st record x w : current st w -> wp (compaction record st) (x, w) (fun _ s => replayed s.2).
Proof using Hw0 Hp0 Hsha Hcatalog Hrange Hgeneration Hdecoded Hdeletion.
  intros Hc. unfold replay_compact. rewrite wp_bind.
  eapply wp_mono with (P := fun r s => replayed s.2 /\ forall o, r = Ok o -> match o with
    | Some st' => current st' s.2 | None => current st s.2 /\ validateCompactArtifactsInactive record st true = None end).
  { destruct (_ <? _).
    - rewrite wp_bind, wp_at_disk. eapply wp_mono; [by apply wp_pinned_compact|]. intros [[st' b]|e] w1 [Hr Hp]; [|done].
      destruct (Hp st' b eq_refl) as [Hc1 Hb]. rewrite wp_ret. split; [done|]. intros o [= <-]. destruct b; [done|]. by destruct Hb as [-> Hb].
    - rewrite wp_ret. split; [by eapply current_replayed|]. by intros o [= <-]. }
  intros [[st'|]|e] [x1 w1] [Hr1 Ho]; [| |done]; specialize (Ho _ eq_refl); cbn [fst snd] in *.
  - case_bool_decide; [|done]. subst st'. cbn [negb]. unfold hold. rewrite wp_bind, wp_note, wp_bind, wp_at_disk.
    eapply wp_mono; [apply (wp_kept (current (candidate_state record))); [apply quiet_current, quiet_append|done]|].
    intros [[]|e] w2 Hc2; [|by eapply current_replayed]. rewrite wp_at_disk.
    eapply wp_mono; [apply (wp_cleanupCompact (candidate_state record)); [done|by apply (candidate_inactive (resolved_as "complete" record))]|].
    intros r w3 Hc3. exact (current_replayed _ _ Hc3).
  - destruct Ho as [Hc1 Hin]. rewrite wp_bind, wp_at_disk. eapply wp_mono; [by apply (wp_cleanupCompact st)|].
    intros [[]|e] w2 Hc2; [|by eapply current_replayed]. rewrite wp_at_disk. apply wp_append_replayed. by eapply current_replayed.
Qed.

Local Abbreviation copy := (replay_cow sha256 json_Marshal json_Unmarshal json_checkpoint decode_checkpoint json_catalog decode_catalog decode_pin json_manifest
  json_journal LoadSessionDeletion lock_attempts map_order statePath dir).
Local Abbreviation published := (replay_published sha256 json_Marshal json_Unmarshal decode_state json_checkpoint decode_checkpoint json_catalog decode_catalog
  decode_pin json_manifest json_journal decode_record LoadSessionDeletion pid lock_attempts map_order statePath dir true).
Local Abbreviation prepared := (replay_prepared sha256 json_Marshal json_Unmarshal decode_state json_checkpoint decode_checkpoint json_catalog decode_catalog
  json_manifest json_journal decode_record pid lock_attempts map_order statePath dir true).

(** The candidate of a copy can be published. *)
Lemma copy_candidate st candidate w : current st w -> candidate = with_backing st (ss_Generation candidate) (backing_path dir (ss_Generation candidate)) ->
  validateSessionStateForDirectory candidate dir = None -> representable candidate /\ filepath_Dir (ss_DeltaPath candidate) = dir.
Proof using Hdecoded Hbacked.
  intros (c & cp & _ & Hh & <-)%current_intact E Hv. destruct (head_decoded _ _ _ Hh) as [Ht Hv'].
  assert (filepath_Dir (ss_DeltaPath (cp_State cp)) = dir) as Hd.
  { apply (directory_unique_like (cp_State cp) candidate); [by rewrite E..|done|done]. }
  split; [rewrite E; by apply Hbacked|by rewrite E].
Qed.
Lemma wp_replay_cow st record x w : current st w -> wp (copy record st) (x, w) (fun _ s => replayed s.2).
Proof using Hw0 Hp0 Hmap_order Hsha Hcheckpoint Hcatalog Hrange Hgeneration Hdecode_errors Hdecoded Hbacked Hdeletion.
  intros Hc. unfold replay_cow. rewrite wp_bind, wp_at_disk. eapply wp_mono; [apply wp_validateCOW|].
  intros r w1 [Hs1 Hv]. assert (current st w1) as Hc1 by exact (current_same _ _ _ Hc Hs1). destruct r as [[]|e]; [|exact (current_replayed _ _ Hc1)].
  specialize (Hv eq_refl). cbv zeta in Hv. rewrite wp_bind.
  eapply wp_mono with (P := fun r s => replayed s.2 /\ forall st', r = Ok st' -> current st' s.2 /\ (st' = candidate_state record \/ st' = st)).
  { destruct (_ <? _); [|rewrite wp_ret; split; [exact (current_replayed _ _ Hc1)|by intros st' [= <-]; auto]].
    rewrite wp_bind, wp_at_disk. eapply wp_mono; [by apply wp_pinned_cow|]. intros [[st' b]|e] w2 [Hr Hp]; [|done].
    destruct (Hp st' b eq_refl) as [Hc2 Hb]. destruct b; [|subst st']; unfold hold; rewrite ?wp_bind, ?wp_note, wp_ret; (split; [done|]); intros st2 [= <-]; auto. }
  intros [st'|e] [x2 w2] [Hr2 Hst']; [|done]. destruct (Hst' st' eq_refl) as [Hc2 Hor]. cbn [snd] in *. rewrite wp_bind.
  eapply wp_mono with (P := fun _ s => replayed s.2).
  { destruct (ss_Generation st' <? _) eqn:El; [|done]. apply Z.ltb_lt in El. destruct Hor as [-> | ->]; [lia|]. destruct Hv as [Hv|[Hv Hval]]; [lia|].
    destruct (copy_candidate st (candidate_state record) w2 Hc2 Hv Hval) as [Ht Hd]. rewrite wp_bind, wp_at_disk.
    eapply wp_mono; [by apply (wp_current_publish st)|]. intros [[]|e] w3 [Hr3 _]; [|done]. unfold hold. by rewrite wp_note. }
  intros [[]|e] [x3 w3] Hr3; [|done]. rewrite wp_at_disk. by apply wp_append_replayed.
Qed.
Lemma wp_replay_published record x w : replayed w -> wp (published record) (x, w) (fun _ s => replayed s.2).
Proof using Hw0 Hp0 Hmap_order Hsha Hcheckpoint Hcatalog Hrange Hgeneration Hdecode_errors Hdecoded Hbacked Hdeletion.
  intros [st Hc]. unfold replay_published. rewrite wp_bind. unfold held_state, wp at 1. cbn [fst snd]. destruct (_ || _); [exact (current_replayed _ _ Hc)|].
  rewrite wp_bind, wp_at_disk. unfold loadJournalReplayState. eapply wp_mono; [by apply wp_load_held|].
  intros r w1 [Hs1 Hr]. assert (current st w1) as Hc1 by exact (current_same _ _ _ Hc Hs1). destruct r as [st'|e]; [|exact (current_replayed _ _ Hc1)].
  rewrite (Hr st' eq_refl). destruct (string_is _ _); [by apply wp_replay_compact|]. destruct (string_is _ _); [by apply wp_replay_cow|]. exact (current_replayed _ _ Hc1).
Qed.
Lemma wp_replay_prepared record w : replayed w -> wp (prepared record) w (fun _ w' => replayed w').
Proof using Hw0 Hp0.
  intros [st Hc]. unfold replay_prepared. rewrite wp_bind. eapply wp_mono with (P := fun _ w' => current st w').
  { destruct (string_is _ _); [by apply (wp_kept (current st)); [apply keeps_cleanupCOW|]|]. destruct (string_is _ _); [|done].
    rewrite wp_bind. unfold loadJournalReplayState. eapply wp_mono; [by apply wp_load_held|].
    intros r w1 [Hs1 Hr]. assert (current st w1) as Hc1 by exact (current_same _ _ _ Hc Hs1). destruct r as [st'|e]; [|done].
    rewrite (Hr st' eq_refl), wp_bind, wp_throw. destruct (validateCompactSuccessor _ _ _) eqn:E; [done|].
    apply wp_cleanupCompact; [done|]. intros _. by apply successor_inactive. }
  intros [[]|e] w1 Hc1; [|by eapply current_replayed]. apply wp_append_replayed. by eapply current_replayed.
Qed.

(** ** The whole journal *)

Local Abbreviation one := (replay_record sha256 json_Marshal json_Unmarshal decode_state json_checkpoint decode_checkpoint json_catalog decode_catalog
  decode_pin json_manifest json_journal decode_record LoadSessionDeletion pid lock_attempts map_order statePath dir true).
Local Abbreviation finish := (finish_recovery sha256 json_Marshal json_Unmarshal decode_state json_checkpoint decode_checkpoint json_catalog decode_catalog
  decode_pin json_manifest decode_record LoadSessionDeletion pid lock_attempts map_order statePath true).
Local Abbreviation all := (replay_all sha256 json_Marshal json_Unmarshal decode_state json_checkpoint decode_checkpoint json_catalog decode_catalog
  decode_pin json_manifest json_journal decode_record LoadSessionDeletion pid lock_attempts map_order statePath dir true).
Local Abbreviation recover := (Recover.recover sha256 json_Marshal json_Unmarshal decode_state json_checkpoint decode_checkpoint json_catalog decode_catalog
  decode_pin json_manifest json_journal decode_record LoadSessionDeletion pid lock_attempts map_order).
Definition replaying (s : SessionState * world) : Prop := replayed s.2.

Lemma keeps_upgrade st P `{TickStable P} : keeps P (upgradeLegacySessionStateValue sha256 json_manifest st dir).
Proof using.
  unfold upgradeLegacySessionStateValue. keeps.
Qed.
Lemma keeps_latest_records P `{TickStable P} : keeps P (latest_records decode_record dir).
Proof using. unfold latest_records, readJournal. keeps. Qed.
Lemma keeps_replay_record record : keeps replaying (one record).
Proof using Hw0 Hp0 Hmap_order Hsha Hcheckpoint Hcatalog Hrange Hgeneration Hdecode_errors Hdecoded Hbacked Hdeletion.
  unfold replay_record. apply keeps_bind; [by intros s|]. intros held. destruct (_ && _); [keeps|]. cbv zeta. apply keeps_bind.
  - destruct (_ && _); [|keeps]. apply keeps_bind; [|keeps]. apply keeps_at_disk, keeps_wrap, keeps_upgrade, _.
  - intros record'. destruct (is_terminal record'); [|destruct (phase_in _ _); [|destruct (phase_in _ _); [|keeps]]].
    + apply keeps_at_disk. intros w [st Hc]. exact (current_replayed _ _ (wp_replay_terminal st record' w Hc)).
    + intros [x w] Hr. exact (wp_replay_published record' x w Hr).
    + apply keeps_at_disk. intros w Hr. exact (wp_replay_prepared record' w Hr).
Qed.
Lemma wp_finish x w : replayed w -> wp finish (x, w) (fun r s => replayed s.2 /\ (r = Ok tt -> current s.1 s.2)).
Proof using Hw0 Hp0 Hmap_order Hsha Hcheckpoint Hcatalog Hrange Hgeneration Hdecoded Hdeletion.
  intros [st Hc]. unfold finish_recovery. rewrite wp_bind, wp_at_disk. eapply wp_mono; [by apply wp_load_held|].
  intros r w1 [Hs1 Hr]. assert (current st w1) as Hc1 by exact (current_same _ _ _ Hc Hs1). destruct r as [st'|e]; [|by split; [exact (current_replayed _ _ Hc1)|]].
  rewrite (Hr st' eq_refl). unfold hold. rewrite wp_bind, wp_note, wp_bind, wp_try, wp_at_disk. eapply wp_mono; [by apply wp_current_refresh|].
  intros [[]|e] w2 Hc2; [by split; [exact (current_replayed _ _ Hc2)|]|]. cbn [negb]. rewrite wp_bind, wp_try, wp_at_disk.
  eapply wp_mono; [by apply (wp_load_lease st)|]. intros [st2|e2] w3 [Hr3 Hc3]; [|by split].
  rewrite wp_bind, wp_note, wp_at_disk. eapply wp_mono; [by apply wp_current_refresh, Hc3|].
  intros r4 w4 Hc4. split; [exact (current_replayed _ _ Hc4)|]. by intros _.
Qed.
Lemma wp_replay_all ordered x w : replayed w -> wp (all ordered) (x, w) (fun r s => replayed s.2 /\ (r = Ok tt -> current s.1 s.2)).
Proof using Hw0 Hp0 Hmap_order Hsha Hcheckpoint Hcatalog Hrange Hgeneration Hdecode_errors Hdecoded Hbacked Hdeletion.
  intros Hr. unfold replay_all. rewrite wp_bind. eapply wp_mono; [apply (wp_kept replaying); [apply keeps_for_each, keeps_replay_record|done]|].
  intros [[]|e] [x1 w1] Hr1; [by apply wp_finish|by split].
Qed.
Lemma wp_replay_journal ctx held x w : replayed w -> wp (recover statePath dir ctx held) (x, w) (fun r s => replayed s.2 /\
  (r = Ok tt -> current s.1 s.2 \/ held = false /\ s.1 = x)).
Proof using Hw0 Hp0 Hmap_order Hsha Hcheckpoint Hcatalog Hrange Hgeneration Hdecode_errors Hdecoded Hbacked Hdeletion.
  intros Hr. unfold Recover.recover. rewrite wp_bind, wp_throw. destruct (ctx_Err ctx).1; [by split|].
  rewrite wp_bind, wp_at_disk. eapply wp_mono; [apply (wp_kept replayed); [apply keeps_latest_records, _|done]|].
  intros [ordered|e] w1 Hr1; [|by split]. destruct held.
  - eapply wp_mono; [by apply wp_replay_all|]. intros r s [H H']. auto.
  - rewrite wp_bind, wp_try, wp_at_disk. eapply wp_mono; [apply (wp_kept replayed); [apply quiet_replayed, quiet_guard|done]|].
    intros [[lease|]|e] w2 Hr2; [| |by split]; [|destruct (terminalJournalRecords ordered); (split; [done|]); auto; by intros].
    rewrite wp_defer, wp_bind, wp_at_disk. eapply wp_mono; [apply (wp_kept replayed); [apply keeps_latest_records, _|done]|].
    intros [ordered'|e] w3 Hr3; [|rewrite wp_at_disk; eapply wp_mono; [apply (wp_kept replayed); [apply quiet_replayed, quiet_guard_Close|done]|by split]].
    eapply wp_mono; [by apply wp_replay_all|]. intros r [x4 w4] [Hr4 Hc4]. rewrite wp_at_disk. destruct r as [[]|e].
    + specialize (Hc4 eq_refl). eapply wp_mono; [apply (wp_kept (current x4)); [apply quiet_current, quiet_guard_Close|done]|].
      intros r5 w5 Hc5. split; [exact (current_replayed _ _ Hc5)|]. by left.
    + eapply wp_mono; [apply (wp_kept replayed); [apply quiet_replayed, quiet_guard_Close|done]|]. by split.
Qed.

Lemma started cp0 : head c0 cp0 w0 -> G ∈ w_dirs w0 -> present (cp_State cp0) w0 -> current (cp_State cp0) w0.
Proof using Hw0 Hp0.
  intros Hh HG Hp. assert (intact (Some c0) w0) as Hi by (split; [done..|split; [by eexists|done]]). split_and!; [|done|].
  - exists c0, cp0. split_and!; [done..|split; lia|done].
  - split; [|by left]. exact (steady_any _ _ _ (intact_steady _ _ _ _ _ _ _ Hi)).
Qed.

End Current.
