(* ===== verification/HistorySample.v ===== *)
(** A session with real checkpoints, to run the definitions of [Publish] and [Recover]
    on: codecs that keep every value, a hash, and a directory with a manifest, a delta
    and a journal. *)
From S2P Require Import Prelude GoStd Effects ObjectReader Manifest View Os Mutation Lease Session StateFile Cow Writer Foreground Compact Store Walk Metadata Checkpoint Publish History Lineage Catalog Succession Published Journal Interrupted Recover Replay.
Local Open Scope Z_scope.

(** ** Codecs *)

(** The bits of a number, lowest first, one byte each; a line feed ends them. *)
Fixpoint bits_of (p : positive) : bytes :=
  match p with xH => [] | xO p => Byte.x30 :: bits_of p | xI p => Byte.x31 :: bits_of p end.
Fixpoint of_bits (d : bytes) : option positive :=
  match d with
  | [Byte.x0a] => Some xH
  | Byte.x30 :: d => xO <$> of_bits d
  | Byte.x31 :: d => xI <$> of_bits d
  | _ => None
  end.
Lemma of_bits_of p : of_bits (bits_of p ++ [Byte.x0a]) = Some p.
Proof. induction p as [p IH|p IH|]; cbn; rewrite ?IH; done. Qed.
Definition text_of {A} `{Countable A} (a : A) : result bytes := Ok (bits_of (encode a)).
Definition parse {A} `{Countable A} (d : bytes) : result A :=
  match (p ← of_bits d; decode p) with Some a => Ok a | None => Err (errors_new "invalid text") end.
Lemma parse_text {A} `{Countable A} (a : A) d : text_of a = Ok d -> parse (d ++ [Byte.x0a]) = Ok a.
Proof. intros [= <-]. unfold parse. rewrite of_bits_of. cbn. by rewrite decode_encode. Qed.

(** A record as the list of its encoded fields. *)
#[local] Instance identity_countable : Countable sessionStateFileIdentity.
Proof.
  apply (inj_countable (fun i => [encode (fid_Path i); encode (fid_Bytes i); encode (fid_SHA256 i)])
    (fun l => match l with
              | [p; b; s] => p ← decode p; b ← decode b; s ← decode s; Some {| fid_Path := p; fid_Bytes := b; fid_SHA256 := s |}
              | _ => None
              end)).
  intros []. cbn. by rewrite !decode_encode.
Defined.
#[local] Instance native_eq : EqDecision NativeFile.
Proof. solve_decision. Defined.
#[local] Instance native_countable : Countable NativeFile.
Proof.
  apply (inj_countable (fun n => [encode (nf_Path n); encode (nf_Bytes n); encode (nf_SHA256 n)])
    (fun l => match l with
              | [p; b; s] => p ← decode p; b ← decode b; s ← decode s; Some {| nf_Path := p; nf_Bytes := b; nf_SHA256 := s |}
              | _ => None
              end)).
  intros []. cbn. by rewrite !decode_encode.
Defined.
#[local] Instance state_countable : Countable SessionState.
Proof.
  apply (inj_countable (fun s => [encode (ss_Version s); encode (ss_SessionID s); encode (ss_Generation s); encode (ss_ManifestPath s);
      encode (ss_ManifestSHA256 s); encode (ss_BaseBytes s); encode (ss_BaseSHA256 s); encode (ss_DeltaPath s); encode (ss_BackingPath s);
      encode (ss_NativeSnapshot s)])
    (fun l => match l with
              | [a; b; c; d; e; f; g; h; i; j] =>
                  a ← decode a; b ← decode b; c ← decode c; d ← decode d; e ← decode e; f ← decode f; g ← decode g; h ← decode h;
                  i ← decode i; j ← decode j;
                  Some {| ss_Version := a; ss_SessionID := b; ss_Generation := c; ss_ManifestPath := d; ss_ManifestSHA256 := e;
                          ss_BaseBytes := f; ss_BaseSHA256 := g; ss_DeltaPath := h; ss_BackingPath := i; ss_NativeSnapshot := j |}
              | _ => None
              end)).
  intros []. cbn. by rewrite !decode_encode.
Defined.
#[local] Instance checkpoint_eq : EqDecision sessionStateCheckpoint.
Proof. solve_decision. Defined.
#[local] Instance checkpoint_countable : Countable sessionStateCheckpoint.
Proof.
  apply (inj_countable (fun c => [encode (cp_Version c); encode (cp_SessionID c); encode (cp_Sequence c); encode (cp_PreviousCheckpointSHA256 c);
      encode (cp_State c); encode (cp_StateSHA256 c); encode (cp_Manifest c); encode (cp_Delta c); encode (cp_Backing c);
      encode (cp_NativeSnapshot c)])
    (fun l => match l with
              | [a; b; c; d; e; f; g; h; i; j] =>
                  a ← decode a; b ← decode b; c ← decode c; d ← decode d; e ← decode e; f ← decode f; g ← decode g; h ← decode h;
                  i ← decode i; j ← decode j;
                  Some {| cp_Version := a; cp_SessionID := b; cp_Sequence := c; cp_PreviousCheckpointSHA256 := d; cp_State := e;
                          cp_StateSHA256 := f; cp_Manifest := g; cp_Delta := h; cp_Backing := i; cp_NativeSnapshot := j |}
              | _ => None
              end)).
  intros []. cbn. by rewrite !decode_encode.
Defined.
#[local] Instance catalog_countable : Countable sessionStateCatalog.
Proof.
  apply (inj_countable (fun c => [encode (ca_Version c); encode (ca_SessionID c); encode (ca_Generation c); encode (ca_Sequence c);
      encode (ca_StateSHA256 c); encode (ca_Checkpoint c); encode (ca_CheckpointSHA256 c)])
    (fun l => match l with
              | [a; b; c; d; e; f; g] =>
                  a ← decode a; b ← decode b; c ← decode c; d ← decode d; e ← decode e; f ← decode f; g ← decode g;
                  Some {| ca_Version := a; ca_SessionID := b; ca_Generation := c; ca_Sequence := d; ca_StateSHA256 := e;
                          ca_Checkpoint := f; ca_CheckpointSHA256 := g |}
              | _ => None
              end)).
  intros []. cbn. by rewrite !decode_encode.
Defined.

Definition state_text (st : SessionState) : result bytes := text_of st.
Definition state_parse (d : bytes) : result SessionState := parse d.
Definition checkpoint_text (c : sessionStateCheckpoint) : result bytes := text_of c.
Definition checkpoint_parse (d : bytes) : result sessionStateCheckpoint := parse d.
(** Generations and sequence numbers are of type [uint64]. *)
Definition uint64_sequence (c : sessionStateCatalog) : bool :=
  (0 <=? ca_Sequence c) && (ca_Sequence c <? 2 ^ 64) && (0 <=? ca_Generation c) && (ca_Generation c <? 2 ^ 64).
Definition catalog_text (c : sessionStateCatalog) : result bytes :=
  if uint64_sequence c then text_of c else Err (errors_new "sequence out of range").
Definition catalog_parse (d : bytes) : result sessionStateCatalog :=
  match parse d with Ok c => if uint64_sequence c then Ok c else Err (errors_new "sequence out of range") | Err e => Err e end.

Definition toy_hash (d : bytes) : bytes := le_bytes 32 (foldl (fun h b => Z.land (33 * h + byte_val b) 4611686018427387903) 7 d).

Lemma toy_hash_bytes d : length (toy_hash d) = 32%nat.
Proof. apply length_le_bytes. Qed.
Lemma checkpoint_parse_text c d : checkpoint_text c = Ok d -> checkpoint_parse (d ++ [Byte.x0a]) = Ok c.
Proof. apply parse_text. Qed.
Lemma catalog_parse_text c d : catalog_text c = Ok d -> catalog_parse (d ++ [Byte.x0a]) = Ok c.
Proof.
  unfold catalog_text, catalog_parse. destruct (uint64_sequence c) eqn:E; [|done]. intros H. by rewrite (parse_text c d H), E.
Qed.
Lemma catalog_parse_uint64 d c : catalog_parse d = Ok c -> uint64_sequence c = true.
Proof. unfold catalog_parse. destruct (parse d) as [c'|]; [|done]. destruct (uint64_sequence c') eqn:E; [|done]. by intros [= <-]. Qed.
Lemma catalog_parse_range d c : catalog_parse d = Ok c -> 0 <= ca_Sequence c < 2 ^ 64.
Proof. intros E%catalog_parse_uint64. unfold uint64_sequence in E. lia. Qed.
Lemma catalog_parse_generation d c : catalog_parse d = Ok c -> 0 <= ca_Generation c < 2 ^ 64.
Proof. intros E%catalog_parse_uint64. unfold uint64_sequence in E. lia. Qed.
Lemma checkpoint_parse_errors d e : checkpoint_parse d = Err e -> is_NotExist e = false.
Proof. unfold checkpoint_parse, parse. destruct (of_bits d) as [p|]; cbn; [|by intros [= <-]]. destruct (decode p); [done|]. by intros [= <-]. Qed.

(** ** A session *)

Definition old_manifest : bytes := [Byte.x7b].
Definition old_state (generation : Z) : SessionState :=
  {| ss_Version := 2; ss_SessionID := "id"; ss_Generation := generation; ss_ManifestPath := idle_manifest_path;
     ss_ManifestSHA256 := hex_EncodeToString (toy_hash old_manifest); ss_BaseBytes := 15; ss_BaseSHA256 := sample_digest;
     ss_DeltaPath := sample_delta; ss_BackingPath := None; ss_NativeSnapshot := no_native |}.
Definition old_Manifest : Manifest :=
  {| mf_Version := 1; mf_Kind := ManifestKind; mf_CreatedAt := ""; mf_Session := {| ms_ID := "id"; ms_Title := ""; ms_CWD := ""; ms_RolloutPath := ""; ms_Archived := false |};
     mf_Source := {| src_Bytes := 15; src_SHA256 := sample_digest |}; mf_Settings := mf_Settings idle_manifest;
     mf_Parts := mf_Parts idle_manifest |}.
Definition old_world (faults : list outcome) : world :=
  {| w_names := {[ sample_delta := 0%nat; idle_manifest_path := 1%nat ]};
     w_inodes := {[ 0%nat := {| i_data := [Byte.x61]; i_mtime := 0; i_synced := true |};
                    1%nat := {| i_data := old_manifest; i_mtime := 0; i_synced := true |} ]};
     w_dirs := list_to_set (ancestors sample_dir ++ ancestors idle_manifest_path); w_durable := {[ sample_delta; idle_manifest_path ]};
     w_next := 2%nat; w_clock := 0; w_faults := faults; w_locked := ∅ |}.

Definition sample_order (X : gset string) : list string := elements X.
Definition no_deletion (p : path) (id : string) : OS SessionDeletion := fail (errorf "%s" os_ErrNotExist).
Definition no_journal (p : path) (id : string) : OS (gset path) := ret ∅.
Definition no_pin (d : bytes) : result string := Err (errors_new "no pin").
Definition sample_publish (st : SessionState) : OS unit :=
  Publish.publishSessionState toy_hash state_text state_parse checkpoint_text checkpoint_parse catalog_text catalog_parse (fun _ => Ok old_Manifest)
    0 sample_order sample_statePath st.

Lemma old_world_wf fs : world_wf (old_world fs).
Proof.
  split; simpl.
  - intros p n Hn. apply lookup_insert_Some in Hn as [[<- <-]|[_ Hn]]; [by eexists|].
    apply lookup_singleton_Some in Hn as [<- <-]. by eexists.
  - intros n [i Hi]. apply lookup_insert_Some in Hi as [[<- _]|[_ Hi]]; [lia|].
    apply lookup_singleton_Some in Hi as [<- _]. lia.
Qed.
Lemma old_world_private fs : private (leased_name sample_dir) (old_world fs).
Proof.
  intros p q n [-> | ->] Hn; simpl in Hn; (apply lookup_insert_Some in Hn as [[E _]|[_ Hn]]; [discriminate E|]);
    by apply lookup_singleton_Some in Hn as [E _].
Qed.
Lemma sample_order_in X name : name ∈ sample_order X -> name ∈ X.
Proof. by intros H%elem_of_elements. Qed.

(** The second publication fails between the renaming of the catalog and the state file. *)
Definition first_done : world := (sample_publish (old_state 1) (old_world (replicate 105 Fine ++ [Broken 0]))).2.
Definition second_failed : result unit * world := sample_publish (old_state 2) first_done.

Lemma head_never_lost_witness :
  is_ok second_failed.1 = false /\ exists c cp, head toy_hash state_text checkpoint_parse catalog_parse sample_dir c cp second_failed.2.
Proof.
  assert (is_ok second_failed.1 || bool_decide (w_names second_failed.2 !! catalog_of sample_dir = None) = false) as Hb
    by vm_cast_no_check (eq_refl false).
  apply orb_false_iff in Hb as [Hfailed Hb]. split; [exact Hfailed|].
  destruct (head_never_lost toy_hash state_text state_parse state_parse checkpoint_text checkpoint_parse catalog_text catalog_parse no_pin
    (fun _ => Ok old_Manifest) no_deletion "7" 0 no_journal sample_order sample_dir sample_order_in (fun _ => True) toy_hash_bytes
    (fun cp sd d _ _ H => checkpoint_parse_text cp d H) (fun st n a b c d _ _ H => catalog_parse_text _ d H) catalog_parse_range
    checkpoint_parse_errors (fun P _ p id => keeps_fail P _) (fun _ _ _ => I) (fun _ _ _ => I) (fun _ _ _ => I) (fun P _ p id => keeps_ret P _)
    (old_world (replicate 105 Fine ++ [Broken 0])) second_failed.2
    (catalog_entry (old_state 1) 1 "" "" "")) as [Habsent _].
  - eapply rtc_l; [by apply (step_publish toy_hash state_text state_parse state_parse checkpoint_text checkpoint_parse catalog_text catalog_parse no_pin
      (fun _ => Ok old_Manifest) no_deletion "7" 0 no_journal sample_order sample_dir (fun _ => True) _ (old_state 1))|].
    apply rtc_once. by apply (step_publish toy_hash state_text state_parse state_parse checkpoint_text checkpoint_parse catalog_text catalog_parse no_pin
      (fun _ => Ok old_Manifest) no_deletion "7" 0 no_journal sample_order sample_dir (fun _ => True) _ (old_state 2)).
  - apply old_world_wf.
  - apply old_world_private.
  - destruct Habsent as [Hnone|Hhead]; [reflexivity| |exact Hhead].
    exfalso. apply bool_decide_eq_false in Hb. exact (Hb Hnone).
Defined.

Lemma old_world_intact fs : intact toy_hash state_text checkpoint_parse catalog_parse sample_dir None (old_world fs).
Proof. split; [apply old_world_wf|apply old_world_private|reflexivity]. Qed.
(** Publication and, once more without failures, loading. *)
Definition old_published : result unit * world := sample_publish (old_state 1) (old_world []).
Lemma publish_load_witness : old_published.1 = Ok tt /\ durable old_published.2 sample_statePath /\
  (Publish.LoadSessionState toy_hash state_text state_parse state_parse checkpoint_text checkpoint_parse catalog_text catalog_parse
    (fun _ => Ok old_Manifest) "7" 0 no_journal sample_order sample_statePath (tick old_published.2 [])).1 = Ok (old_state 1).
Proof.
  assert (is_ok old_published.1 = true) as Hok by vm_cast_no_check (eq_refl true).
  assert (old_published.1 = Ok tt) as Hr by (destruct old_published.1 as [[]|e]; [reflexivity|discriminate Hok]). split; [exact Hr|].
  assert (forall d, encodeSessionState state_text (old_state 1) = Ok d -> state_parse d = Ok (old_state 1)) as Hj.
  { intros d Hd. unfold encodeSessionState in Hd. destruct (state_text (old_state 1)) as [x|] eqn:E; [|discriminate Hd]. injection Hd as <-.
    exact (parse_text _ _ E). }
  destruct (publish_load toy_hash state_text state_parse state_parse checkpoint_text checkpoint_parse catalog_text catalog_parse
    (fun _ => Ok old_Manifest) "7" 0 no_journal sample_order sample_dir (fun _ => True) toy_hash_bytes
    (fun cp sd d _ _ H => checkpoint_parse_text cp d H) (fun st n a b c d _ _ H => catalog_parse_text _ d H) catalog_parse_range
    checkpoint_parse_errors sample_order_in (old_state 1) None (old_world []) (old_world_intact []) I eq_refl Hj Hr) as [Hd Hload].
  split; [exact Hd|]. apply Hload; [|reflexivity]. apply (tick_stable (P := same_files old_published.2)). apply same_files_refl.
Defined.

(** ** A migration that is tried twice *)

Definition legacy_state : SessionState :=
  {| ss_Version := 1; ss_SessionID := "id"; ss_Generation := 1; ss_ManifestPath := idle_manifest_path; ss_ManifestSHA256 := "";
     ss_BaseBytes := 15; ss_BaseSHA256 := sample_digest; ss_DeltaPath := sample_delta; ss_BackingPath := None; ss_NativeSnapshot := no_native |}.
Definition legacy_world (faults : list outcome) : world :=
  let w := old_world faults in
  set_next (set_durable (set_files w (<[sample_statePath := 2%nat]> (w_names w))
    (<[2%nat := {| i_data := match state_text legacy_state with Ok d => d ++ [Byte.x0a] | Err _ => [] end; i_mtime := 0; i_synced := true |}]>
      (w_inodes w))) (w_durable w ∪ {[sample_statePath]})) 3.
Definition sample_load : OS SessionState :=
  Publish.LoadSessionState toy_hash state_text state_parse state_parse checkpoint_text checkpoint_parse catalog_text catalog_parse
    (fun _ => Ok old_Manifest) "7" 0 no_journal sample_order sample_statePath.
(** The checkpoint that the catalog names. *)
Definition checkpoint_named (w : world) : option path :=
  match file_data w (catalog_of sample_dir) with
  | Some d => match catalog_parse d with Ok c => Some (ca_Checkpoint c :: generations_of sample_dir) | Err _ => None end
  | None => None
  end.

(** The first attempt fails when it syncs the directory of checkpoints; the second has no failure. *)
Definition migrate_again : result SessionState * world * (result SessionState * world) :=
  let first := sample_load (legacy_world (replicate 60 Fine ++ [Broken 0])) in
  (first, sample_load (tick first.2 [])).
Definition catalog_over_lost_checkpoint : bool :=
  let '(first, second) := migrate_again in
  negb (is_ok first.1) && is_ok second.1 && bool_decide (catalog_of sample_dir ∈ w_durable second.2) &&
  match checkpoint_named second.2 with
  | Some p => bool_decide (is_Some (file_data second.2 p)) && bool_decide (p ∉ w_durable second.2)
  | None => false
  end.


(** ** The recovery of a copy that was not published *)

#[local] Instance record_eq : EqDecision JournalRecord.
Proof. solve_decision. Defined.
#[local] Instance record_countable : Countable JournalRecord.
Proof.
  apply (inj_countable (fun r => [encode (jr_OperationID r); encode (jr_SessionID r); encode (jr_Kind r); encode (jr_Phase r); encode (jr_TempPath r);
      encode (jr_FinalPath r); encode (jr_Candidate r); encode (jr_Native r)])
    (fun l => match l with
              | [a; b; c; d; e; f; g; h] =>
                  a ← decode a; b ← decode b; c ← decode c; d ← decode d; e ← decode e; f ← decode f; g ← decode g; h ← decode h;
                  Some {| jr_OperationID := a; jr_SessionID := b; jr_Kind := c; jr_Phase := d; jr_TempPath := e; jr_FinalPath := f;
                          jr_Candidate := g; jr_Native := h |}
              | _ => None
              end)).
  intros []. cbn. by rewrite !decode_encode.
Defined.
Definition record_text (r : JournalRecord) : result bytes := text_of r.
(** The line has lost its line feed. *)
Definition record_parse (d : bytes) : result JournalRecord := parse (d ++ [Byte.x0a]).

(** The copy has its name, and its record says that the state was about to be published. *)
Definition copied_state : SessionState := with_backing (old_state 1) 2 (backing_path sample_dir 2).
Definition copy_record : JournalRecord :=
  {| jr_OperationID := String.append "cow-" (format_020d 1); jr_SessionID := "id"; jr_Kind := "copy-on-write"; jr_Phase := "state-publishing";
     jr_TempPath := Some (".backing-7.tmp"%string :: sample_dir); jr_FinalPath := Some (backing_path sample_dir 2); jr_Candidate := Some copied_state;
     jr_Native := {| nf_Path := Some (".backing-7.tmp"%string :: sample_dir); nf_Bytes := 1; nf_SHA256 := hex_EncodeToString (toy_hash [Byte.x62]) |} |}.
Definition copy_journal : bytes := match record_text copy_record with Ok d => d ++ [Byte.x0a] | Err _ => [] end.
Definition copy_world : world :=
  let w := old_world [] in
  set_next (set_files w (<[journalPath sample_dir := 3%nat]> (<[backing_path sample_dir 2 := 2%nat]> (w_names w)))
    (<[3%nat := {| i_data := copy_journal; i_mtime := 0; i_synced := true |}]>
      (<[2%nat := {| i_data := [Byte.x62]; i_mtime := 0; i_synced := true |}]> (w_inodes w)))) 4.
Definition copy_interrupted : result unit * world := sample_publish (old_state 1) copy_world.
Definition copy_recovered : result unit * (SessionState * world) :=
  Recover.recover toy_hash state_text state_parse state_parse checkpoint_text checkpoint_parse catalog_text catalog_parse no_pin
    (fun _ => Ok old_Manifest) record_text record_parse no_deletion "7" 0 sample_order sample_statePath sample_dir None true
    (old_state 1, copy_interrupted.2).

Lemma copy_world_files p n : w_names copy_world !! p = Some n ->
  p = journalPath sample_dir /\ n = 3%nat \/ p = backing_path sample_dir 2 /\ n = 2%nat \/ p = sample_delta /\ n = 0%nat \/ p = idle_manifest_path /\ n = 1%nat.
Proof.
  unfold copy_world, set_next, set_files. cbn [w_names]. intros Hn. apply lookup_insert_Some in Hn as [[<- <-]|[_ Hn]]; [auto|].
  apply lookup_insert_Some in Hn as [[<- <-]|[_ Hn]]; [auto|]. cbn [old_world w_names] in Hn.
  apply lookup_insert_Some in Hn as [[<- <-]|[_ Hn]]; [auto 7|]. apply lookup_singleton_Some in Hn as [<- <-]. auto 7.
Qed.
Lemma copy_world_intact : intact toy_hash state_text checkpoint_parse catalog_parse sample_dir None copy_world.
Proof.
  split; [split| |reflexivity].
  - intros p n [[_ ->]|[[_ ->]|[[_ ->]|[_ ->]]]]%copy_world_files; by eexists.
  - unfold copy_world, set_next, set_files. cbn [w_inodes w_next]. intros n [i Hi]. do 2 (apply lookup_insert_Some in Hi as [[<- _]|[_ Hi]]; [lia|]).
    pose proof (wf_next _ (old_world_wf []) n (mk_is_Some _ _ Hi)). cbn in *. lia.
  - intros p q n [-> | ->] Hp Hq.
    + apply copy_world_files in Hp as [[E _]|[[E _]|[[E _]|[E _]]]]; discriminate E.
    + apply copy_world_files in Hp as [[_ ->]|[[E _]|[[E _]|[E _]]]]; [|discriminate E..].
      apply copy_world_files in Hq as [[-> _]|[[_ E]|[[_ E]|[_ E]]]]; [by right|discriminate E..].
Qed.
Lemma sample_published w st : intact toy_hash state_text checkpoint_parse catalog_parse sample_dir None w -> filepath_Dir (ss_DeltaPath st) = sample_dir ->
  (sample_publish st w).1 = Ok tt -> exists c cp, let w' := (sample_publish st w).2 in
    intact toy_hash state_text checkpoint_parse catalog_parse sample_dir (Some c) w'
    /\ Catalog.head toy_hash state_text checkpoint_parse catalog_parse sample_dir c cp w' /\ cp_State cp = st.
Proof.
  intros Hi Hd Hok. destruct (wp_publishAt toy_hash state_text state_parse checkpoint_text checkpoint_parse catalog_text catalog_parse
    (fun _ => Ok old_Manifest) 0 sample_order sample_dir sample_order_in (fun _ => True) toy_hash_bytes
    (fun cp sd d _ _ H => checkpoint_parse_text cp d H) (fun st n a b c d _ _ H => catalog_parse_text _ d H) catalog_parse_range
    checkpoint_parse_errors None None st ∅ false w Hi I Hd I) as (_ & Hshow & Hfollow).
  change (publishSessionStateAt _ _ _ _ _ _ _ _ _ _ _ _ _ _ _ _) with (sample_publish st) in Hshow, Hfollow.
  destruct Hfollow as [Hs|(c & cp & Hh & Hi' & _ & Est & _)]; [|by exists c, cp].
  destruct (Hshow Hok) as (c & cp & Hh & _). pose proof (steady_intact _ _ _ _ _ None w _ Hi Hs) as Hi'.
  by destruct (head_present _ _ _ _ _ _ _ _ _ Hh Hi') as (? & ? & _).
Qed.
Lemma copy_not_housekeeping : ~ housekeeping sample_dir (backing_path sample_dir 2).
Proof.
  unfold housekeeping, store_files, session_state_files. intros [[[E|[E|[E|[(name & E & H)|(name & [E|E])]]]]|(name & store & E)]|[E|(name & E & [H|H])]];
    try discriminate E; injection E as <-; discriminate H.
Qed.


(** ** A record that was cut *)

Definition append_copy : OS unit := appendJournal record_text sample_dir copy_record.
(** The disk is full after five bytes of a record; the next append has no failure. *)
Definition torn_first : result unit * world := append_copy (old_world [Fine; Broken 5]).
Definition torn_second : result unit * world := append_copy (tick torn_first.2 []).
(** A record that could be written only in part stays in the journal: the next record is
    appended to the same line, and from then on the journal cannot be read. *)
Theorem torn_journal : is_ok torn_first.1 = false /\ torn_second.1 = Ok tt /\ is_ok (readJournal record_parse sample_dir torn_second.2).1 = false.
Proof. split; [|split]; [vm_cast_no_check (eq_refl false)|vm_cast_no_check (@eq_refl (result unit) (Ok tt))|vm_cast_no_check (eq_refl false)]. Qed.
